(* ===== verification/_CoqProject ===== *)
-Q . S2P
Prelude.v
Prog.v
Conc.v
Layout.v
Page.v
Head.v
Geometry.v
Epochs.v
MpmcBlock.v
Instances.v
LayoutCache.v
LayoutCacheSpec.v
UbqQueue.v
MpmcHeap.v
MpmcOps.v
MpmcChain.v
UbqInv.v
UbqIterSpec.v
UbqPopSpec.v
UbqPushSpec.v
UbqDropSpec.v
UbqSpec.v
Jni.v
JniQueueInst.v
JniSpec.v
SpmcQueue.v
SpmcInv.v
SpmcSteps.v
SpmcPushSpec.v
SpmcPopSpec.v
SpmcDropSpec.v
SpmcSpec.v
Shard.v
Lubq.v
LubqInv.v
LubqBatch.v
LubqSender.v
LubqSpec.v
LubqProps.v
ChanGhost.v
ChanSteps.v
ChanSend.v
ChanRecv.v
ChanRecvBatch.v
ChanSpec.v
ChanProps.v
V8Block.v
V8Layout.v
V8Queue.v
V8Heap.v
V8FreeSpec.v
V8Live.v
V8PushSpec.v
V8PopSpec.v
V8ReadSpec.v
V8Spec.v
V8Equiv.v
MsQueue.v
MsInv.v
MsSteps.v
MsSpec.v
FaaQueue.v
FaaSpec.v
FaaSeq.v
Text.v
HarnessLog.v
Harness.v
HarnessSpec.v
HarnessPlan.v
HarnessOutput.v
HarnessPlanSpec.v
HarnessOutputSpec.v
HarnessRecord.v
Throughput.v
Bench.v
BenchInst.v
BenchRounds.v
Barrier.v
HardwareRounds.v
Hardware.v
