(* ===== verification/Prelude.v ===== *)
(** * UBQ: a verification library for the unbounded block queues

    UBQ is a family of lock-free unbounded queues in Rust.  This library models
    the code under src/src as executable definitions and proves what makes it
    correct.  Names follow the source; where two queues share a name the shard
    queue's carry an [s_] prefix and the v8 queue's a [v8_] or [V] prefix.

    ** The program

    - src/src/page.rs, head.rs, slot.rs, block.rs: page size, packed head words,
      slots, one-page blocks with a trailing slot array, runs of blocks, private
      block chains and the process-wide cache of block layouts.
    - src/src/queue.rs: [UBQ], the MPMC queue; [push_batch] and [pop_batch] reserve
      ranges on a producer and a consumer head, iterators deliver a reservation.
    - src/src/kfifo/queue.rs: the single-producer shard queue; src/src/kfifo/lubq.rs:
      the channel, which registers a shard per sender and scans them round robin.
    - src/src/v8: the queue with runtime geometry, virtual blocks and a free list.
    - src/src/jni.rs: the exports Java calls on boxed [UBQ<u64>] queues.
    - src/src/bench_harness: the baseline queues of the benchmarks, the trait through
      which benchmark threads use a queue, the producers and consumers of a round, the
      throughput measurement made of rounds, the log sink, the parsers and generators of
      benchmark plans, the job matrices built from them, the worker that measures one job
      after the other, the run that writes one record file per scenario and reuses the
      samples on record, and the hardware probes with their round barrier.

    ** How programs are modelled

    An operation is a [prog E A] (Prog): a finite tree with one node per access to
    shared or owned memory, the events [E] of its component.  A [Handler] gives an
    access its meaning on a memory state; an access to storage that is not
    allocated, uninitialised or already freed is [Fault], allocation failure is
    [Exit], a failed assertion is [Panic].  [run] executes an operation alone, [wp]
    is total correctness of such a run (it returns; no panic, no fault, no exhausted
    loop), and [conc_step] interleaves a pool of operations access by access, with
    spurious failures of weak exchanges.  Memory is sequentially consistent: the
    orderings of the atomics are not modelled.  Conc gives rely-guarantee rules for
    pools and shows that pools of such programs cannot run forever; a thread may run
    out of retries only where the proof says what it [waits] for.

    [usize] is [Z] with its 64-bit bounds written out; [Profile] says whether
    overflow checks and [debug_assert!] are compiled in, and the theorems hold for
    both.  Retry loops take fuel; each theorem bounds the fuel that suffices by the
    work done (pushed values, allocated blocks, cache keys), so that it shows the
    loops end rather than assuming it.

    ** Files

    - Prelude, Prog, Conc: words and lists; programs; rely-guarantee.
    - Layout, Page, Head, Geometry: [core::alloc::Layout], [BlockLayout::new] and slot
      addresses; [page_size]; [HeadCodec] and [Head]; the parameters of a queue
      (geometry of its element type, global allocator, boxes).
    - LayoutCache, LayoutCacheSpec: [Block::layout] with concurrent callers.
    - Epochs, MpmcBlock, MpmcHeap, MpmcOps, MpmcChain: blocks, runs and chains of
      block.rs, their heap invariant, and one rule per operation.
    - UbqQueue: every operation of queue.rs.  UbqInv: the abstract positions
      and the invariant.  UbqIterSpec, UbqPopSpec, UbqPushSpec, UbqDropSpec: one
      operation each.  UbqSpec: the abstract queue, the refinement, and
      behaviours that differ from what the documentation says.
    - SpmcQueue, SpmcInv, SpmcSteps, SpmcPushSpec, SpmcPopSpec, SpmcDropSpec, SpmcSpec:
      the same for kfifo/queue.rs and the SPMC block of block.rs.
    - Shard: the interface [ShardQueue] the channel relies on, and its implementation
      by the shard queue.  Lubq: kfifo/lubq.rs over that interface.  LubqInv,
      LubqBatch, LubqSender, LubqSpec, LubqProps: the channel's theorems for calls that
      do not overlap.  ChanGhost, ChanSteps, ChanSend, ChanRecv, ChanRecvBatch, ChanSpec,
      ChanProps: threads that share a channel, with logs of what their accesses push and take.
    - V8Block, V8Layout, V8Queue: v8/block.rs, v8/freelist.rs, v8/queue.rs.  V8Heap,
      V8FreeSpec, V8Live, V8PushSpec, V8PopSpec, V8ReadSpec: its heap, free
      list, index words and operations.  V8Spec, V8Equiv: its theorems.
    - Jni: jni.rs over the interface [LongQueue]; what unwinds past the boundary of an
      export is a panic.  JniQueueInst: the MPMC queue implements the interface.
      JniSpec: the theorems.
    - MsQueue: bench_harness/baselines/ms_queue.rs over the operations of an epoch
      collector.  MsInv, MsSteps, MsSpec: linearizability, and a schedule the
      collector's contract allows in which [push] reads freed memory.
    - FaaQueue: baselines/naive_faa_queue.rs.  FaaSpec: its threads in every
      interleaving.  FaaSeq: one caller, and a schedule that overtakes.
    - Bench: the trait [BenchQueueOps] with its default methods, [send_producer_items] and
      [receive_consumer_items] of bench_harness/mod.rs, the class [BenchQueue] of what a
      queue promises them, and their theorems, from that class.  BenchInst:
      baselines/mutex_vecdeque.rs, the fetch-and-add baseline and the MPMC queue, which
      implement it.
    - BenchRounds: the threads of [run_handoff_round] and [run_dequeue_round].  Throughput:
      [adaptive_throughput] over rounds, which are events of a [Machine].
    - Barrier: [RoundBarrier] of bench_harness/hardware.rs.  HardwareRounds: the persistent
      workers of a probe and the checks of a round.  Hardware: [run] and [run_with], with
      rounds that do what those workers can do, a clock that also counts the work
      between them, and durations in binary64 as the code compares them.
    - Text: ASCII strings, decimal printing and parsing.  HarnessLog: the log records and
      the buffered sink of bench_harness/mod.rs over the interface [LogFile].  Harness:
      scenarios, CPU selections, sizes, modes, queue kinds and labels.  HarnessSpec: the theorems about their parsers.
    - HarnessPlan: job matrices, their jobs ([required_job_specs]) and the samples expected
      of them ([expected_keys_for_scenario]).  HarnessPlanSpec: the two agree,
      different jobs have different samples, and what the plans that are built hold.
      HarnessOutput: a run and its output writer over the interface [OutputDisk], with the
      worker and the compiled features ([BenchFeatures]) as parameters.
      HarnessOutputSpec: what a run leaves in the files.  HarnessRecord: records, the lines
      between parent and worker ([run_bench_worker_loop], [BenchWorker::run_job]) over a
      codec, the stamping of records and [load_existing_runs]; it implements the disk
      and the jobs that HarnessOutput is given.
    - Instances: a bump allocator and small geometries for the concrete runs.

    ** What the theorems show

    - Refinement: a sequence of API calls on [UBQ], on a shard queue, on a channel,
      on a v8 queue, or from Java gets the answers of an abstract FIFO queue
      (UbqSpec, SpmcSpec, LubqSpec, V8Spec, JniSpec), including outstanding iterators,
      skipped positions, panicking batch iterators, clones and drops of senders.  The
      batch sizes of [UBQ] are bounded ([call_ok]: beyond, [pop_batch] overflows); the v8
      queue is followed up to its last token, on geometries whose first index words
      fit, and with buffers of at most [isize::MAX] slots.
    - No export unwinds into the JVM, and each returns its default when the queue
      panics (jni_never_unwinds).
    - Memory: dropping a queue destroys exactly the values left in it and returns
      every allocation; no run faults.
    - Equivalence: a cached layout is the computed one; batch calls of the v8 queue are
      sequences of single calls, within the bounds above.
    - Concurrency: all callers of [page_size] agree; the calls of [Block::layout] return,
      with fuel for one retry per cache key, and their cache has no duplicate and leaks
      nothing; an interleaving of [UBQ::pop] calls
      takes one slot twice (pop_aba_double_read), which limits the refinement
      theorems of the queues to calls that do not overlap.
    - Shared channels: threads that clone, use and drop senders and receive, in every
      interleaving of their accesses to the registry, the sender count and the shards (a
      call on a shard is one access): every shard holds what accesses pushed to it and
      did not take, in order, so each value is taken once and in the order of its shard;
      [Disconnected] is final and means that all was received (lubq_threads_safe).
    - The Michael-Scott baseline: with a collector that keeps the epoch library's contract
      and any number of threads pushing and popping, every execution that retires no
      node while the tail points to it is linearizable, in an order that respects real
      time, and no access faults (ms_linearizable); without that condition [push] may
      follow a freed tail (ms_tail_use_after_free).
    - The fetch-and-add baseline: in every interleaving of any number of calls the cell of
      a slot is accessed by one thread at a time, each received value has its own push,
      and what is left is dropped once (faa_safe, faa_conserves).  A thread may spin for
      ever, which the code documents; called by one thread the queue is a FIFO queue
      bounded by 256 (faa_fifo), but threads see values out of order (faa_overtakes).
    - Benchmark rounds: on every queue that implements [BenchQueue], producers and a
      consumer in any batch sizes move each item exactly once and end (bench_round).  With
      concurrent threads a dequeue round drains its queue (dequeue_round_drains), but a
      handoff round can stop with an item left, because consumers look at the queue before
      they look at the flag (handoff_round_loses).  The probes of hardware.rs look
      again after the flag, which is enough: their rounds are always accepted
      (hw_round_accepted).
    - Probes: the round barrier keeps rounds apart and loses no wake-up (barrier_separates,
      barrier_publishes); a probe runs the rounds it should, each on a queue as that
      round needs it, and reports what they did (probe_memory_lifecycle,
      probe_handoff_exact).
    - Throughput: the adaptive measurement ends, keeps to capacities and caps, measures each
      phase for the time asked, and its record is accepted for its job
      (throughput_measured).
    - Plans and logs: a scenario token is accepted exactly when it is a printed name, CPU
      selections read back, the power-of-two grid is complete, core slots are distinct,
      and the log file holds exactly the lines of the records (log_sink_exact).
    - Matrices and runs: the jobs of an accepted plan are exactly the combinations asked
      for, each within the machine's threads (plan_jobs_fit); a run leaves one record per job in the file of
      every scenario it measured, touches no other file, and its files are complete after
      every job (plan_run_complete, plan_run_checkpoint); but it erases samples on record
      that are not in its plan (plan_run_forgets).
    - Workers and reuse: parent and worker stay in step (worker_session), and what a run leaves
      is what the next run finds, which repeats the jobs that failed
      (next_run_repeats_failures).
    - Words and layouts: packed heads and v8 indices round-trip; slots and virtual
      headers are aligned, disjoint and inside their allocation.
    - Overflow: the batch sizes at which [pop_batch] overflows.

    ** Not modelled

    Memory orderings weaker than sequential consistency; the timing of back-off
    (backoff.rs) and cache-line padding (align.rs); the reference counts of [Arc] and
    the [Debug] and [Default] implementations; the diagnostic counters behind the
    probe features; the RbbqLongQueue exports of jni.rs, which wrap an optional
    third-party queue, and the adapters of the other third-party queues (moodycamel, wCQ,
    lfqueue, FastFifo, crossbeam, concurrent-queue) and of the LUBQ handles; text outside
    ASCII; JSON, which is a codec with its round trip; processes, pinning and clocks, which
    are parameters; the workloads other than throughput, whose threads repeat the loops of
    BenchRounds around different payloads; rates and statistics in floating point;
    output metadata, progress lines and plots; the figures in a memory snapshot and the
    watchdog of the probes; the programs under src/src/bin, which measure and print.

    Calls on a queue are single accesses in BenchRounds, HardwareRounds and ChanProps: what
    they show of threads holds on queues whose calls are atomic.  Overlapping calls
    are followed access by access for the layout cache, the page size, the Michael-Scott and
    fetch-and-add baselines and the barrier; for [UBQ] pop_aba_double_read shows why
    there is no such theorem. *)

From Stdlib Require Export ZArith Lia.
From stdpp Require Export numbers gmap list_numbers list.

#[global] Open Scope Z_scope.

(** ** Notations of the development *)

Declare Scope usize_scope.
Delimit Scope usize_scope with usize.

(** ** Machine words: [usize] on a 64-bit target *)

Definition usize_bits : Z := 64.

Definition usize_max : Z := 2 ^ 64 - 1.

(** [isize::MAX], the bound [core::alloc::Layout] puts on sizes. *)
Definition isize_max : Z := 2 ^ 63 - 1.

Definition is_usize (x : Z) : Prop := 0 ≤ x ≤ usize_max.

#[export] Instance is_usize_dec x : Decision (is_usize x).
Proof. unfold is_usize; apply _. Defined.

Definition wrapping (x : Z) : Z := x mod 2 ^ 64.

Definition saturating_sub (a b : Z) : Z := Z.max 0 (a - b).

Definition saturating_add (a b : Z) : Z := Z.min usize_max (a + b).

Definition checked_add (a b : Z) : option Z :=
  if a + b <=? usize_max then Some (a + b) else None.

Definition checked_mul (a b : Z) : option Z :=
  if a * b <=? usize_max then Some (a * b) else None.

Definition div_ceil (a b : Z) : Z :=
  if a mod b =? 0 then a / b else a / b + 1.

(** Bitwise complement of a [usize]. *)
Definition usize_not (x : Z) : Z := Z.lxor x usize_max.

Definition leading_zeros (x : Z) : Z :=
  if x =? 0 then 64 else 63 - Z.log2 x.

Fixpoint pos_trailing_zeros (p : positive) : Z :=
  match p with
  | xO q => 1 + pos_trailing_zeros q
  | _ => 0
  end.

Definition trailing_zeros (x : Z) : Z :=
  match x with
  | Zpos p => pos_trailing_zeros p
  | _ => 64
  end.

Definition is_power_of_two (x : Z) : bool :=
  (0 <? x) && (Z.land x (x - 1) =? 0).

Notation "a +sat b" := (saturating_add a b) (at level 50, left associativity) : usize_scope.
Notation "a -sat b" := (saturating_sub a b) (at level 50, left associativity) : usize_scope.
Notation "~u x" := (usize_not x) (at level 35, x at level 35) : usize_scope.

(** ** Tactics *)

(** Turns the boolean comparisons of the code into propositions. *)
Ltac zbool :=
  repeat match goal with
  | H : (_ && _)%bool = true |- _ => apply andb_prop in H as [??]
  | H : (_ =? _) = true |- _ => apply Z.eqb_eq in H
  | H : (_ =? _) = false |- _ => apply Z.eqb_neq in H
  | H : (_ <? _) = true |- _ => apply Z.ltb_lt in H
  | H : (_ <? _) = false |- _ => apply Z.ltb_ge in H
  | H : (_ <=? _) = true |- _ => apply Z.leb_le in H
  | H : (_ <=? _) = false |- _ => apply Z.leb_gt in H
  end.

(** Case analysis on the first integer comparison met in the goal. *)
Ltac zcase :=
  match goal with
  | |- context [ (?a =? ?b) ] => destruct (Z.eqb_spec a b)
  | |- context [ (?a <? ?b) ] => destruct (Z.ltb_spec a b)
  | |- context [ (?a <=? ?b) ] => destruct (Z.leb_spec a b)
  | |- context [ (?a >? ?b) ] => destruct (Z.gtb_spec a b)
  | |- context [ (?a >=? ?b) ] => destruct (Z.geb_spec a b)
  end.

Create HintDb usize.
Create Rewrite HintDb usize.

(** ** Arithmetic lemmas *)

Lemma usize_max_ones : usize_max = Z.ones 64.
Proof. reflexivity. Qed.

Lemma div_ceil_spec a b :
  0 < b → (div_ceil a b - 1) * b < a ≤ div_ceil a b * b.
Proof.
  intros Hb. unfold div_ceil.
  pose proof (Z.div_mod a b ltac:(lia)). pose proof (Z.mod_pos_bound a b Hb).
  zcase; nia.
Qed.

Lemma div_ceil_pos a b : 0 < a → 0 < b → 0 < div_ceil a b.
Proof. intros ? Hb. pose proof (div_ceil_spec a b Hb). nia. Qed.

Lemma div_ceil_unique a b n : 0 < b → (n - 1) * b < a ≤ n * b → div_ceil a b = n.
Proof. intros Hb ?. pose proof (div_ceil_spec a b Hb). nia. Qed.

Lemma pos_trailing_zeros_nonneg p : 0 ≤ pos_trailing_zeros p.
Proof. induction p; simpl; lia. Qed.

Lemma pos_trailing_zeros_pow2 (n : nat) p :
  Zpos p = 2 ^ Z.of_nat n → pos_trailing_zeros p = Z.of_nat n.
Proof.
  revert p. induction n as [|n IH]; intros p Hp.
  - simpl in Hp. injection Hp as ->. reflexivity.
  - rewrite Nat2Z.inj_succ, Z.pow_succ_r in Hp by lia.
    destruct p as [p|p|]; simpl pos_trailing_zeros; [lia| |lia].
    rewrite (IH p); lia.
Qed.

Lemma trailing_zeros_pow2 k : 0 ≤ k → trailing_zeros (2 ^ k) = k.
Proof.
  intros Hk. unfold trailing_zeros.
  destruct (2 ^ k) as [|p|p] eqn:E; [pose proof (Z.pow_pos_nonneg 2 k); lia | |
    pose proof (Z.pow_pos_nonneg 2 k); lia].
  rewrite <- (Z2Nat.id k) in E by lia. symmetry in E.
  rewrite (pos_trailing_zeros_pow2 (Z.to_nat k) p); lia.
Qed.

(** A word accepted by [usize::is_power_of_two] is a power of two. *)
Lemma is_power_of_two_spec x :
  is_power_of_two x = true → ∃ k, 0 ≤ k ∧ x = 2 ^ k.
Proof.
  unfold is_power_of_two. intros H. zbool.
  exists (Z.log2 x). split; [apply Z.log2_nonneg|].
  destruct (Z.log2_spec x) as [Hl Hu]; [lia|].
  destruct (Z.eq_dec x (2 ^ Z.log2 x)) as [|Hne]; [done|exfalso].
  assert (Z.testbit (Z.land x (x - 1)) (Z.log2 x) = true) as Hbit.
  { rewrite Z.land_spec, Z.bit_log2 by lia. simpl.
    replace (Z.log2 x) with (Z.log2 (x - 1)).
    - apply Z.bit_log2. pose proof (Z.pow_pos_nonneg 2 (Z.log2 x)).
      pose proof (Z.log2_nonneg x). lia.
    - apply Z.log2_unique; [apply Z.log2_nonneg|]. lia. }
  rewrite H0, Z.bits_0 in Hbit. discriminate.
Qed.

Lemma is_power_of_two_pow k : 0 ≤ k → is_power_of_two (2 ^ k) = true.
Proof.
  intros Hk. unfold is_power_of_two.
  pose proof (Z.pow_pos_nonneg 2 k).
  apply andb_true_intro; split; [apply Z.ltb_lt; lia|apply Z.eqb_eq].
  rewrite Z.sub_1_r, <- Z.ones_equiv, Z.land_ones, Z.mod_same; lia.
Qed.

(** Two words without a common bit are combined by [|] as by [+]. *)
Lemma lor_add_disjoint a b : Z.land a b = 0 → Z.lor a b = a + b.
Proof. intros H. rewrite <- Z.lxor_lor, Z.add_nocarry_lxor; done. Qed.

#[export] Hint Resolve div_ceil_pos pos_trailing_zeros_nonneg : usize.
#[export] Hint Rewrite trailing_zeros_pow2 using lia : usize.

(** ** Lists *)

Lemma replicate_lookup_Some {A} (n i : nat) (x : A) :
  (i < n)%nat → replicate n x !! i = Some x.
Proof. intros. by apply lookup_replicate. Qed.

Lemma Forall_lookup_in {A} (P : A → Prop) l i x : Forall P l → l !! i = Some x → P x.
Proof. intros Hl Hi. by eapply Forall_lookup_1. Qed.

Lemma Forall_weaken {A} (P Q : A → Prop) l : Forall P l → (∀ x, P x → Q x) → Forall Q l.
Proof. intros Hl HPQ. induction Hl; constructor; auto. Qed.

Lemma concat_fmap_nil {A B} (l : list A) : concat ((λ _, [] : list B) <$> l) = [].
Proof. induction l as [|x l IH]; [done|]. rewrite fmap_cons. exact IH. Qed.

(** ** Functions *)

(** One entry of a function changed. *)
Definition upd {B} (f : nat → B) (i : nat) (b : B) : nat → B := λ j, if decide (j = i) then b else f j.

Lemma upd_eq {B} (f : nat → B) i b : upd f i b i = b.
Proof. unfold upd. by rewrite decide_True. Qed.

Lemma upd_ne {B} (f : nat → B) i b j : j ≠ i → upd f i b j = f j.
Proof. intros. unfold upd. by rewrite decide_False. Qed.
