(* ===== verification/Prog.v ===== *)
(** * Programs, their sequential runs and their interleavings

    An operation of the library is a [prog E A]: a finite tree whose nodes are
    the shared-memory accesses it performs, one [Vis] node per atomic access
    ([load], [store], [compare_exchange], [fetch_add], ...) or per access to
    memory the operation owns.  The retry loops of the code take an explicit
    fuel, so that a tree is finite; [OutOfFuel] is a loop that was still
    retrying when its fuel ended. *)

From S2P Require Import Prelude.

Inductive prog (E : Type → Type) (A : Type) : Type :=
| Ret (a : A)
| Vis {X : Type} (e : E X) (k : X → prog E A)
| Panic
| OutOfFuel.

Arguments Ret {E A} a.
Arguments Vis {E A X} e k.
Arguments Panic {E A}.
Arguments OutOfFuel {E A}.

Fixpoint prog_bind {E A B} (p : prog E A) (f : A → prog E B) : prog E B :=
  match p with
  | Ret a => f a
  | Vis e k => Vis e (λ x, prog_bind (k x) f)
  | Panic => Panic
  | OutOfFuel => OutOfFuel
  end.

#[export] Instance prog_ret E : MRet (prog E) := λ A a, Ret a.
#[export] Instance prog_mbind E : MBind (prog E) := λ A B f p, prog_bind p f.

Definition act {E X} (e : E X) : prog E X := Vis e Ret.

(** [loop { ... }]: [inl] continues with new local variables, [inr] breaks. *)
Fixpoint loop {E L A} (fuel : nat) (body : L → prog E (L + A)) (l : L) : prog E A :=
  match fuel with
  | O => OutOfFuel
  | S n => r ← body l; match r with inl l' => loop n body l' | inr a => Ret a end
  end.

(** [for index in lo..lo+n { ... }] *)
Fixpoint for_range {E} (n : nat) (lo : Z) (body : Z → prog E unit) : prog E unit :=
  match n with
  | O => Ret tt
  | S n => body lo;; for_range n (lo + 1) body
  end.

(** Build profile: [debug_assert!]s and overflow checks are on in debug builds
    and off in release builds. *)
Class Profile := debug_assertions : bool.

Definition debug_assert `{Profile} {E} (c : bool) : prog E unit :=
  if debug_assertions && negb c then Panic else Ret tt.

(** [assert!] *)
Definition always_assert {E} (c : bool) : prog E unit :=
  if c then Ret tt else Panic.

(** [option.expect(..)] *)
Definition expect {E A} (o : option A) : prog E A :=
  match o with Some a => Ret a | None => Panic end.

(** [+], [-] and [*] on [usize]: checked in debug builds, wrapping in release
    builds. *)
Definition uadd `{Profile} {E} (a b : Z) : prog E Z :=
  if a + b <=? usize_max then Ret (a + b)
  else if debug_assertions then Panic else Ret (wrapping (a + b)).

Definition usub `{Profile} {E} (a b : Z) : prog E Z :=
  if b <=? a then Ret (a - b)
  else if debug_assertions then Panic else Ret (wrapping (a - b)).

Definition umul `{Profile} {E} (a b : Z) : prog E Z :=
  if a * b <=? usize_max then Ret (a * b)
  else if debug_assertions then Panic else Ret (wrapping (a * b)).

(** ** Sequential runs *)

(** What one access does to the memory: it replies and changes the memory, is
    undefined behaviour, or ends the process ([handle_alloc_error]). *)
Inductive reply (St X : Type) : Type :=
| Next (x : X) (s : St)
| Fault
| Exit.

Arguments Next {St X} x s.
Arguments Fault {St X}.
Arguments Exit {St X}.

Class Handler (E : Type → Type) (St : Type) := handle : ∀ X, E X → St → reply St X.

Arguments handle {E St _ X} e s.

Inductive outcome (St A : Type) : Type :=
| Done (a : A) (s : St)
| Panicked (s : St)
| Stuck (s : St)
| Undefined
| Aborted.

Arguments Done {St A} a s.
Arguments Panicked {St A} s.
Arguments Stuck {St A} s.
Arguments Undefined {St A}.
Arguments Aborted {St A}.

Fixpoint run `{Handler E St} {A} (p : prog E A) (s : St) : outcome St A :=
  match p with
  | Ret a => Done a s
  | Vis e k =>
      match handle e s with
      | Next x s' => run (k x) s'
      | Fault => Undefined
      | Exit => Aborted
      end
  | Panic => Panicked s
  | OutOfFuel => Stuck s
  end.

(** Total correctness of a sequential run: it returns in a state that satisfies
    [Q], unless the allocator runs out of memory. *)
Definition wp `{Handler E St} {A} (p : prog E A) (s : St) (Q : A → St → Prop) : Prop :=
  match run p s with
  | Done a s' => Q a s'
  | Aborted => True
  | _ => False
  end.

(** ** Interleavings *)

(** A weak compare-exchange may fail although the word matches: [spurious e s]
    is the reply of such a failure. *)
Class Spurious (E : Type → Type) (St : Type) := spurious : ∀ X, E X → St → option X.

Arguments spurious {E St _ X} e s.

(** The next access of a thread, performed. *)
Definition prog_step `{Handler E St} {A} (p : prog E A) (s : St) : option (prog E A * St) :=
  match p with
  | Vis e k => match handle e s with Next x s' => Some (k x, s') | _ => None end
  | _ => None
  end.

Definition prog_spurious `{Spurious E St} {A} (p : prog E A) (s : St) : option (prog E A) :=
  match p with
  | Vis e k => match spurious e s with Some x => Some (k x) | None => None end
  | _ => None
  end.

(** The next access of a thread is undefined behaviour. *)
Definition prog_fault `{Handler E St} {A} (p : prog E A) (s : St) : bool :=
  match p with
  | Vis e k => match handle e s with Fault => true | _ => false end
  | _ => false
  end.

(** One step of a pool of threads: one of them performs its next access. *)
Inductive conc_step `{Handler E St, !Spurious E St} {A} :
  list (prog E A) * St → list (prog E A) * St → Prop :=
| step_access ts i p s p' s' :
    ts !! i = Some p → prog_step p s = Some (p', s') →
    conc_step (ts, s) (<[i := p']> ts, s')
| step_spurious ts i p s p' :
    ts !! i = Some p → prog_spurious p s = Some p' →
    conc_step (ts, s) (<[i := p']> ts, s).

(** The schedule [sched] executed from a configuration: each entry is a thread
    index; [None] when that thread has no access to perform, or faults. *)
Fixpoint run_sched `{Handler E St} {A} (sched : list nat) (c : list (prog E A) * St) :
  option (list (prog E A) * St) :=
  match sched with
  | [] => Some c
  | i :: sched =>
      match c.1 !! i ≫= (λ p, prog_step p c.2) with
      | Some (p', s') => run_sched sched (<[i := p']> c.1, s')
      | None => None
      end
  end.

(** ** Rules *)

Section rules.
Context {E : Type → Type} {St : Type} {HH : Handler E St}.

Lemma run_bind {A B} (p : prog E A) (f : A → prog E B) s :
  run (p ≫= f) s =
    match run p s with
    | Done a s' => run (f a) s'
    | Panicked s' => Panicked s'
    | Stuck s' => Stuck s'
    | Undefined => Undefined
    | Aborted => Aborted
    end.
Proof.
  revert s. induction p as [a|X e k IH| |]; intros s; simpl; try done.
  destruct (handle e s); [|done..]. apply IH.
Qed.

Lemma wp_bind {A B} (p : prog E A) (f : A → prog E B) s Q :
  wp p s (λ a s', wp (f a) s' Q) → wp (p ≫= f) s Q.
Proof. unfold wp. rewrite run_bind. by destruct (run p s). Qed.

Lemma wp_assoc {A B C} (p : prog E A) (f : A → prog E B) (g : B → prog E C) s Q :
  wp ((p ≫= f) ≫= g) s Q → wp (p ≫= λ a, f a ≫= g) s Q.
Proof. unfold wp. rewrite !run_bind. destruct (run p s); [|done..]. by rewrite run_bind. Qed.

Lemma wp_ret {A} (a : A) s (Q : A → St → Prop) : Q a s → wp (E:=E) (Ret a) s Q.
Proof. done. Qed.

Lemma wp_act {X} (e : E X) s x s' (Q : X → St → Prop) :
  handle e s = Next x s' → Q x s' → wp (act e) s Q.
Proof. unfold wp, act; simpl. by intros ->. Qed.

Lemma wp_vis {X A} (e : E X) (k : X → prog E A) s x s' (Q : A → St → Prop) :
  handle e s = Next x s' → wp (k x) s' Q → wp (Vis e k) s Q.
Proof. unfold wp; simpl. by intros ->. Qed.

Lemma wp_mono {A} (p : prog E A) s (Q Q' : A → St → Prop) :
  wp p s Q → (∀ a s', Q a s' → Q' a s') → wp p s Q'.
Proof. unfold wp. destruct (run p s); auto. Qed.

Lemma wp_done {A} (p : prog E A) s a s' (Q : A → St → Prop) :
  run p s = Done a s' → Q a s' → wp p s Q.
Proof. unfold wp. by intros ->. Qed.

Lemma run_act_bind {X B} (e : E X) (f : X → prog E B) s x s' :
  handle e s = Next x s' → run (act e ≫= f) s = run (f x) s'.
Proof. intros Hh. simpl. by rewrite Hh. Qed.

Lemma run_act {X} (e : E X) s x s' : handle e s = Next x s' → run (act e) s = Done x s'.
Proof. intros Hh. simpl. by rewrite Hh. Qed.

Lemma run_done_bind {A B} (p : prog E A) (f : A → prog E B) s a s' :
  run p s = Done a s' → run (p ≫= f) s = run (f a) s'.
Proof. intros Hp. by rewrite run_bind, Hp. Qed.

(** Loops: one unfolding, and iteration with a decreasing measure. *)
Lemma wp_loop_unfold {L A} n (body : L → prog E (L + A)) l s Q :
  wp (body l) s (λ r s', match r with
                         | inl l' => wp (loop n body l') s' Q
                         | inr a => Q a s' end) →
  wp (loop (S n) body l) s Q.
Proof.
  intros H. simpl. apply wp_bind. eapply wp_mono; [exact H|].
  intros [l'|a] s'; done.
Qed.

Lemma wp_loop {L A} (I : L → St → Prop) (m : L → nat) n (body : L → prog E (L + A)) l s Q :
  I l s → (m l < n)%nat →
  (∀ l s, I l s →
     wp (body l) s (λ r s', match r with
                            | inl l' => I l' s' ∧ (m l' < m l)%nat
                            | inr a => Q a s' end)) →
  wp (loop n body l) s Q.
Proof.
  intros HI Hm Hbody. revert l s HI Hm.
  induction n as [|n IH]; intros l s HI Hm; [lia|].
  apply wp_loop_unfold. eapply wp_mono; [by apply Hbody|].
  intros [l'|a] s'; [|done]. intros [??]. apply IH; [done|lia].
Qed.

Lemma wp_for_range (I : Z → St → Prop) n lo body s Q :
  I lo s →
  (∀ i s, lo ≤ i < lo + Z.of_nat n → I i s → wp (body i) s (λ _ s', I (i + 1) s')) →
  (∀ s, I (lo + Z.of_nat n) s → Q tt s) →
  wp (E:=E) (for_range n lo body) s Q.
Proof.
  revert lo s. induction n as [|n IH]; intros lo s HI Hbody HQ.
  - apply wp_ret, HQ. by replace (lo + Z.of_nat 0) with lo by lia.
  - simpl. apply wp_bind. eapply wp_mono; [apply Hbody; [lia|done]|].
    intros ? s' HI'. apply IH; [done| |].
    + intros. apply Hbody; [lia|done].
    + intros s'' ?. apply HQ.
      by replace (lo + Z.of_nat (S n)) with (lo + 1 + Z.of_nat n) by lia.
Qed.

(** An invariant of the pool that every access preserves holds in every
    reachable configuration. *)
Lemma conc_invariant `{!Spurious E St} {A} (I : list (prog E A) * St → Prop) c c' :
  (∀ c c', I c → conc_step c c' → I c') →
  rtc conc_step c c' → I c → I c'.
Proof. intros Hstep. induction 1; eauto. Qed.

Lemma run_sched_rtc `{!Spurious E St} {A} sched (c c' : list (prog E A) * St) :
  run_sched sched c = Some c' → rtc conc_step c c'.
Proof.
  revert c. induction sched as [|i sched IH]; intros [ts s]; simpl.
  - intros [= ->]. constructor.
  - destruct (ts !! i) as [p|] eqn:Hi; simpl; [|done].
    destruct (prog_step p s) as [[p' s']|] eqn:Hp; [|done].
    intros. eapply rtc_l; [by eapply step_access|]. by apply IH.
Qed.

(** The configuration a schedule leads to, when it can be followed. *)
Lemma run_sched_reach `{!Spurious E St} {A} sched (c : list (prog E A) * St) :
  bool_decide (is_Some (run_sched sched c)) = true → rtc conc_step c (default c (run_sched sched c)).
Proof.
  intros [c' Hc]%bool_decide_eq_true. rewrite Hc. simpl. by apply (run_sched_rtc sched).
Qed.

Context `{Profile}.

Lemma uadd_ok a b : a + b ≤ usize_max → uadd (E:=E) a b = Ret (a + b).
Proof. intros Hb. unfold uadd. by rewrite (proj2 (Z.leb_le _ _) Hb). Qed.

Lemma usub_ok a b : b ≤ a → usub (E:=E) a b = Ret (a - b).
Proof. intros Hb. unfold usub. by rewrite (proj2 (Z.leb_le _ _) Hb). Qed.

Lemma umul_ok a b : a * b ≤ usize_max → umul (E:=E) a b = Ret (a * b).
Proof. intros Hb. unfold umul. by rewrite (proj2 (Z.leb_le _ _) Hb). Qed.

Lemma debug_assert_ok c : c = true → debug_assert (E:=E) c = Ret tt.
Proof. intros ->. unfold debug_assert. by rewrite andb_false_r. Qed.

Lemma wp_debug_assert {A} c (k : prog E A) s Q :
  c = true → wp k s Q → wp (debug_assert c;; k) s Q.
Proof. intros Hc Hk. by rewrite (debug_assert_ok c Hc). Qed.

Lemma wp_expect_bind {A B} (o : option A) a (f : A → prog E B) s Q :
  o = Some a → wp (f a) s Q → wp (expect o ≫= f) s Q.
Proof. by intros ->. Qed.

Lemma wp_uadd a b {A} (f : Z → prog E A) s Q :
  a + b ≤ usize_max → wp (f (a + b)) s Q → wp (uadd a b ≫= f) s Q.
Proof. intros Hb Hf. by rewrite (uadd_ok a b Hb). Qed.

Lemma wp_usub a b {A} (f : Z → prog E A) s Q :
  b ≤ a → wp (f (a - b)) s Q → wp (usub a b ≫= f) s Q.
Proof. intros Hb Hf. by rewrite (usub_ok a b Hb). Qed.

Lemma wp_act_bind {X A} (e : E X) (f : X → prog E A) s x s' Q :
  handle e s = Next x s' → wp (f x) s' Q → wp (act e ≫= f) s Q.
Proof. apply wp_vis. Qed.

End rules.
