(* ===== verification/Conc.v ===== *)
(** * Rely-guarantee reasoning about interleavings

    A pool of threads shares a memory; a ghost state [Γ] relates to it by an
    invariant [I].  [cwp i p Q γ] says that thread [i], about to run [p] when the
    ghost state is [γ], performs no invalid access, does not panic, keeps
    the invariant with each access, changes the ghost state only as its guarantee
    [guar i] allows, and returns values that satisfy [Q], whatever the other
    threads do within its rely [rely i].  A thread may run out of fuel only while
    [waits i] holds: it is waiting for another thread. *)

From S2P Require Import Prelude Prog.

(** What the other threads may rely on. *)
Record rely_guarantee {Γ : Type} (rely guar : nat → Γ → Γ → Prop) : Prop := {
  rg_refl : ∀ i γ, rely i γ γ;
  rg_trans : ∀ i γ1 γ2 γ3, rely i γ1 γ2 → rely i γ2 γ3 → rely i γ1 γ3;
  rg_compat : ∀ i j γ γ', guar i γ γ' → i ≠ j → rely j γ γ'
}.

(** For pools in which nobody waits. *)
Definition never {Γ : Type} (i : nat) (γ : Γ) : Prop := False.

Lemma never_stable {Γ : Type} (rely : nat → Γ → Γ → Prop) i γ γ' : never i γ → rely i γ γ' → never i γ'.
Proof. done. Qed.

(** The continuation of a thread after its next access. *)
Definition child {E A} (q p : prog E A) : Prop :=
  match p with Vis e k => ∃ x, q = k x | _ => False end.

Lemma child_tc_last {E A} (q p : prog E A) :
  tc child q p → ∃ r, child r p ∧ (q = r ∨ tc child q r).
Proof.
  induction 1 as [x y Hxy|x y z Hxy Hyz (r & Hr & Hq)]; [eauto|]. exists r. split; [done|]. right.
  destruct Hq as [->|Hq]; [by apply tc_once|by eapply tc_l].
Qed.

Lemma child_tc_acc {E A} (p : prog E A) : Acc (tc child) p.
Proof.
  induction p as [a|X e k IH| |]; constructor; intros q Hq; apply child_tc_last in Hq as (r & Hr & Hq);
    [destruct Hr| |destruct Hr..].
  destruct Hr as [x ->]. destruct Hq as [->|Hq]; [apply IH|by apply (Acc_inv (IH x))].
Qed.

(** A program is not one of its own continuations. *)
Lemma child_irrefl {E A} (p : prog E A) : ¬ tc child p p.
Proof. induction (child_tc_acc p) as [p _ IH]. intros Hp. by apply (IH p Hp). Qed.

Section cwp.
Context {E : Type → Type} {St : Type} {HH : Handler E St} {SP : Spurious E St} {Γ : Type}.
Context (I : Γ → St → Prop) (rely guar : nat → Γ → Γ → Prop).
Context (waits : nat → Γ → Prop).
Context (RG : rely_guarantee rely guar).
Context (WS : ∀ i γ γ', waits i γ → rely i γ γ' → waits i γ').

Fixpoint cwp {A} (i : nat) (p : prog E A) (Q : A → Γ → Prop) (γ : Γ) : Prop :=
  match p with
  | Ret a => Q a γ
  | Vis e k => ∀ γ' s, rely i γ γ' → I γ' s →
      match handle e s with
      | Next x s' => ∃ γ'', guar i γ' γ'' ∧ I γ'' s' ∧ cwp i (k x) Q γ''
      | Fault => False
      | Exit => True
      end ∧
      match spurious e s with Some x => cwp i (k x) Q γ' | None => True end
  | Panic => False
  | OutOfFuel => waits i γ
  end.

Definition stable {A} (i : nat) (Q : A → Γ → Prop) : Prop :=
  ∀ a γ γ', Q a γ → rely i γ γ' → Q a γ'.

Lemma cwp_rely {A} i (p : prog E A) Q γ γ' :
  stable i Q → cwp i p Q γ → rely i γ γ' → cwp i p Q γ'.
Proof.
  intros HQ Hp Hr. destruct p; simpl in *; [by eapply HQ| |done|by eapply WS].
  intros γ1 s Hr1 HI. apply Hp; [by eapply rg_trans|done].
Qed.

Lemma cwp_bind {A B} i (p : prog E A) (f : A → prog E B) Q γ :
  cwp i p (λ a γ', cwp i (f a) Q γ') γ → cwp i (p ≫= f) Q γ.
Proof.
  revert γ. induction p as [a|X e k IH| |]; intros γ Hp; simpl in *; try done.
  intros γ' s Hr HI. destruct (Hp γ' s Hr HI) as [Hn Hs]. split.
  - destruct (handle e s); [|done..]. destruct Hn as (γ'' & ? & ? & Hk). exists γ''. split; [done|]. split; [done|].
    by apply IH.
  - destruct (spurious e s); [|done]. by apply IH.
Qed.

Lemma cwp_mono {A} i (p : prog E A) (Q Q' : A → Γ → Prop) γ :
  cwp i p Q γ → (∀ a γ', Q a γ' → Q' a γ') → cwp i p Q' γ.
Proof.
  intros Hp HQ. revert γ Hp. induction p as [a|X e k IH| |]; intros γ Hp; simpl in *; [by apply HQ| |done..].
  intros γ' s Hr HI. destruct (Hp γ' s Hr HI) as [Hn Hs]. split.
  - destruct (handle e s); [|done..]. destruct Hn as (γ'' & ? & ? & Hk). eauto.
  - destruct (spurious e s); [|done]. by apply IH.
Qed.

(** A fact that neither the thread nor the others can undo. *)
Lemma cwp_frame {A} i (R : Γ → Prop) (p : prog E A) (Q : A → Γ → Prop) γ :
  (∀ γ γ', R γ → rely i γ γ' → R γ') → (∀ γ γ', R γ → guar i γ γ' → R γ') → R γ →
  cwp i p Q γ → cwp i p (λ a γ', Q a γ' ∧ R γ') γ.
Proof.
  intros HR HG. revert γ. induction p as [a|X e k IH| |]; intros γ H0 Hp; simpl in *; try done.
  intros γ' s Hr HI. destruct (Hp γ' s Hr HI) as [Hn Hs]. pose proof (HR _ _ H0 Hr) as H1. split.
  - destruct (handle e s); [|done..]. destruct Hn as (γ'' & Hg & ? & Hk). exists γ''. split; [done|]. split; [done|].
    apply IH; [by eapply HG|done].
  - destruct (spurious e s); [|done]. by apply IH.
Qed.

Lemma cwp_ret {A} i (a : A) (Q : A → Γ → Prop) γ : Q a γ → cwp i (Ret a) Q γ.
Proof. done. Qed.

(** One access that cannot fail spuriously. *)
Lemma cwp_act_bind {X A} i (e : E X) (f : X → prog E A) Q γ :
  (∀ s, spurious e s = None) →
  (∀ γ' s, rely i γ γ' → I γ' s →
     match handle e s with
     | Next x s' => ∃ γ'', guar i γ' γ'' ∧ I γ'' s' ∧ cwp i (f x) Q γ''
     | Fault => False
     | Exit => True
     end) →
  cwp i (act e ≫= f) Q γ.
Proof. intros Hs Hf γ' s Hr HI. split; [by apply Hf|]. by rewrite Hs. Qed.

Lemma cwp_loop {L A} (J : L → Γ → Prop) (m : L → nat) i n (body : L → prog E (L + A)) l γ Q :
  J l γ → (m l < n)%nat →
  (∀ l γ, J l γ → cwp i (body l) (λ r γ', match r with
                                       | inl l' => J l' γ' ∧ (m l' < m l)%nat
                                       | inr a => Q a γ' end) γ) →
  cwp i (loop n body l) Q γ.
Proof.
  intros HJ Hm Hbody. revert l γ HJ Hm. induction n as [|n IH]; intros l γ HJ Hm; [lia|].
  cbn [loop]. apply cwp_bind. eapply cwp_mono; [by apply Hbody|]. intros [l'|a] γ'; [|done].
  intros [HJ' Hm']. apply IH; [done|lia].
Qed.

(** A loop that may retry as long as it waits for others. *)
Lemma cwp_loop_waits {L A} (J : L → Γ → Prop) i n (body : L → prog E (L + A)) l γ Q :
  J l γ → (∀ l γ, J l γ → waits i γ) →
  (∀ l γ, J l γ → cwp i (body l) (λ r γ', match r with inl l' => J l' γ' | inr a => Q a γ' end) γ) →
  cwp i (loop n body l) Q γ.
Proof.
  intros HJ Hw Hbody. revert l γ HJ. induction n as [|n IH]; intros l γ HJ; [by eapply Hw|].
  cbn [loop]. apply cwp_bind. eapply cwp_mono; [by apply Hbody|]. intros [l'|a] γ'; [apply IH|done].
Qed.

(** ** Pools *)

Definition pool_ok {A} (Q : nat → A → Γ → Prop) (c : list (prog E A) * St) (γ : Γ) : Prop :=
  I γ c.2 ∧ ∀ i p, c.1 !! i = Some p → cwp i p (Q i) γ.

(** What became of thread [j] while the ghost state went from [γ] to [γ']: it has not
    moved, and what happened is the others' doing, or it has performed accesses. *)
Definition moved {A} (ts ts' : list (prog E A)) (γ γ' : Γ) (j : nat) : Prop :=
  match ts !! j with
  | None => ts' !! j = None ∧ rely j γ γ'
  | Some p => (ts' !! j = Some p ∧ rely j γ γ') ∨ ∃ q, ts' !! j = Some q ∧ tc child q p
  end.

Lemma moved_refl {A} (ts : list (prog E A)) γ j : moved ts ts γ γ j.
Proof. unfold moved. pose proof (rg_refl _ _ RG j γ). destruct (ts !! j); [by left|done]. Qed.

Lemma moved_trans {A} (ts1 ts2 ts3 : list (prog E A)) γ1 γ2 γ3 j :
  moved ts1 ts2 γ1 γ2 j → moved ts2 ts3 γ2 γ3 j → moved ts1 ts3 γ1 γ3 j.
Proof.
  unfold moved. destruct (ts1 !! j) as [p|].
  - intros [[E1 R1]|(q & E1 & C1)]; rewrite E1.
    + intros [[E2 R2]|(r & E2 & C2)]; [left|right; eauto]. split; [done|by eapply rg_trans].
    + intros [[E2 R2]|(r & E2 & C2)]; right; [eauto|]. exists r. split; [done|by eapply tc_transitive].
  - intros [E1 R1]. rewrite E1. intros [E2 R2]. split; [done|by eapply rg_trans].
Qed.

Lemma moved_step {A} (ts : list (prog E A)) i p q γ γ' j :
  ts !! i = Some p → child q p → (i ≠ j → rely j γ γ') → moved ts (<[i := q]> ts) γ γ' j.
Proof.
  intros Hi Hc Hr. unfold moved. destruct (decide (i = j)) as [<-|Hne].
  - rewrite Hi. right. exists q. split; [|by apply tc_once]. apply list_lookup_insert_eq. by eapply lookup_lt_Some.
  - rewrite list_lookup_insert_ne by done. specialize (Hr Hne). destruct (ts !! j); [by left|done].
Qed.

(** A step of the pool keeps it well. *)
Lemma pool_step {A} (Q : nat → A → Γ → Prop) c c' γ :
  (∀ i, stable i (Q i)) → pool_ok Q c γ → conc_step c c' →
  ∃ γ', pool_ok Q c' γ' ∧ ∀ j, moved c.1 c'.1 γ γ' j.
Proof.
  intros HQ [HI Hts] Hstep. destruct Hstep as [ts i p s p' s' Hi Hp|ts i p s p' Hi Hp]; simpl in *;
    pose proof (lookup_lt_Some _ _ _ Hi) as Hlt; pose proof (Hts i p Hi) as Hw;
    destruct p as [|X e k| |]; simpl in Hp, Hw; try done.
  - destruct (Hw γ s (rg_refl _ _ RG i γ) HI) as [Hn _].
    destruct (handle e s) as [x s1| |]; [|done..]. injection Hp as <- <-.
    destruct Hn as (γ' & Hg & HI' & Hk). exists γ'.
    split; [|intros j; eapply moved_step; [done|by exists x|by apply RG]].
    split; [done|]. intros j q. simpl. intros Hj. destruct (decide (i = j)) as [<-|Hne].
    + rewrite list_lookup_insert_eq in Hj by done. by injection Hj as <-.
    + rewrite list_lookup_insert_ne in Hj by done. eapply cwp_rely; [apply HQ|by apply Hts|].
      by eapply rg_compat.
  - destruct (Hw γ s (rg_refl _ _ RG i γ) HI) as [_ Hs].
    destruct (spurious e s) as [x|]; [|done]. injection Hp as <-.
    exists γ. split; [|intros j; eapply moved_step; [done|by exists x|intros _; apply RG]].
    split; [done|]. intros j q. simpl. intros Hj. destruct (decide (i = j)) as [<-|Hne].
    + rewrite list_lookup_insert_eq in Hj by done. by injection Hj as <-.
    + rewrite list_lookup_insert_ne in Hj by done. by apply Hts.
Qed.

Lemma pool_reach {A} (Q : nat → A → Γ → Prop) c c' γ :
  (∀ i, stable i (Q i)) → pool_ok Q c γ → rtc conc_step c c' →
  ∃ γ', pool_ok Q c' γ' ∧ ∀ j, moved c.1 c'.1 γ γ' j.
Proof.
  intros HQ Hc Hr. revert γ Hc. induction Hr as [c|c1 c2 c3 Hs Hr IH]; intros γ Hc.
  - exists γ. split; [done|]. intros j. apply moved_refl.
  - destruct (pool_step Q c1 c2 γ HQ Hc Hs) as (γ' & Hc2 & Hm1).
    destruct (IH γ' Hc2) as (γ'' & Hc3 & Hm2). exists γ''. split; [done|]. intros j. by eapply moved_trans.
Qed.

(** Outside the pool, and for a thread that has not started, all that happened is what
    may be relied on. *)
Lemma moved_outside {A} (ts ts' : list (prog E A)) γ γ' j :
  moved ts ts' γ γ' j → ts' !! j = None → rely j γ γ'.
Proof.
  unfold moved. destruct (ts !! j) as [p|]; [|by intros [_ ?]].
  intros [[Hj _]|(q & Hj & _)]; congruence.
Qed.

Lemma moved_unstarted {A} (ts ts' : list (prog E A)) γ γ' j p :
  moved ts ts' γ γ' j → ts !! j = Some p → ts' !! j = Some p → rely j γ γ'.
Proof.
  unfold moved. intros Hm Hp Hp'. rewrite Hp in Hm. destruct Hm as [[_ ?]|(q & Hq & Hc)]; [done|].
  rewrite Hp' in Hq. injection Hq as <-. by apply child_irrefl in Hc.
Qed.

(** In a pool that is well, no thread is lost: it has returned a value that
    satisfies its postcondition, or it can perform its next access, or it waits. *)
Definition thread_fine {A} (i : nat) (Q : A → Γ → Prop) (γ : Γ) (s : St) (p : prog E A) : Prop :=
  match p with
  | Ret a => Q a γ
  | Vis e k => handle e s ≠ Fault
  | Panic => False
  | OutOfFuel => waits i γ
  end.

Lemma pool_fine {A} (Q : nat → A → Γ → Prop) ts s γ i p :
  pool_ok Q (ts, s) γ → ts !! i = Some p → thread_fine i (Q i) γ s p.
Proof.
  intros [HI Hts] Hi. specialize (Hts i p Hi). destruct p as [|X e k| |]; simpl in *; try done.
  destruct (Hts γ s (rg_refl _ _ RG i γ) HI) as [Hn _]. intros E0. by rewrite E0 in Hn.
Qed.

End cwp.

(** ** Executions are finite *)

Section finite.
Context {E : Type → Type} {St : Type} {HH : Handler E St} {SP : Spurious E St} {A : Type}.

(** One thread of the pool performs an access. *)
Definition pool_rel (ts' ts : list (prog E A)) : Prop :=
  ∃ i p q, ts !! i = Some p ∧ child q p ∧ ts' = <[i := q]> ts.

Lemma pool_rel_nil : Acc pool_rel [].
Proof. constructor. intros ts' (i & p & q & Hi & _). done. Qed.

(** A thread that can only move to accessible threads is accessible beside an
    accessible pool. *)
Lemma pool_rel_cons_child (p : prog E A) ts :
  (∀ q ts, child q p → Acc pool_rel ts → Acc pool_rel (q :: ts)) →
  Acc pool_rel ts → Acc pool_rel (p :: ts).
Proof.
  intros Hp Hts. induction Hts as [ts Hacc IH]. constructor. intros ts' ([|i] & p0 & q & Hi & Hc & ->).
  - simpl in Hi. injection Hi as ->. apply Hp; [exact Hc|]. constructor. exact Hacc.
  - apply IH. by exists i, p0, q.
Qed.

Lemma pool_rel_cons (p : prog E A) ts : Acc pool_rel ts → Acc pool_rel (p :: ts).
Proof.
  revert ts. induction p as [a|X e k IH| |]; intros ts; apply pool_rel_cons_child; intros q ts0 Hq.
  - destruct Hq.
  - destruct Hq as [x ->]. apply IH.
  - destruct Hq.
  - destruct Hq.
Qed.

Lemma pool_rel_acc (ts : list (prog E A)) : Acc pool_rel ts.
Proof. induction ts; [apply pool_rel_nil|by apply pool_rel_cons]. Qed.

Lemma conc_step_rel (c c' : list (prog E A) * St) : conc_step c c' → pool_rel c'.1 c.1.
Proof.
  intros [ts i p s p' s' Hi Hp|ts i p s p' Hi Hp]; exists i, p, p'; (split; [done|]); (split; [|done]).
  - destruct p as [|X e k| |]; simpl in *; try done. destruct (handle e s) as [x s0| |]; [|done..].
    injection Hp as <- _. by exists x.
  - destruct p as [|X e k| |]; simpl in *; try done. destruct (spurious e s) as [x|]; [|done].
    injection Hp as <-. by exists x.
Qed.

(** No pool can run forever. *)
Lemma conc_step_terminates (c : list (prog E A) * St) : Acc (flip conc_step) c.
Proof.
  destruct c as [ts s]. revert s. induction (pool_rel_acc ts) as [ts _ IH]. intros s.
  constructor. intros [ts' s'] Hs. apply IH. by apply conc_step_rel in Hs.
Qed.

End finite.

(** ** Sums over threads *)

Definition sumn (n : nat) (f : nat → Z) : Z := foldr Z.add 0 (f <$> seq 0 n).

Lemma sumn_0 f : sumn 0 f = 0.
Proof. done. Qed.

Lemma sumn_S n f : sumn (S n) f = sumn n f + f n.
Proof.
  unfold sumn. rewrite seq_S, fmap_app, foldr_app, Nat.add_0_l. cbn [fmap list_fmap foldr].
  induction (f <$> seq 0 n) as [|x l IH]; cbn [foldr]; lia.
Qed.

Lemma sumn_ext n f g : (∀ j, (j < n)%nat → f j = g j) → sumn n f = sumn n g.
Proof. induction n as [|n IH]; intros H; [done|]. rewrite !sumn_S, IH, (H n) by (intros; try apply H; lia). done. Qed.

Lemma sumn_mono n f g : (∀ j, (j < n)%nat → f j ≤ g j) → sumn n f ≤ sumn n g.
Proof.
  induction n as [|n IH]; intros H; [done|]. rewrite !sumn_S. pose proof (H n ltac:(lia)).
  assert (sumn n f ≤ sumn n g) by (apply IH; intros; apply H; lia). lia.
Qed.

Lemma sumn_const n x : sumn n (λ _, x) = Z.of_nat n * x.
Proof. induction n as [|n IH]; [done|]. rewrite sumn_S, IH. lia. Qed.

(** One entry changes. *)
Lemma sumn_change n f g i : (i < n)%nat → (∀ j, j ≠ i → g j = f j) → sumn n g = sumn n f + g i - f i.
Proof.
  intros Hi H. induction n as [|n IH]; [lia|]. rewrite !sumn_S. destruct (decide (i = n)) as [->|Hne].
  - rewrite (sumn_ext n g f) by (intros; apply H; lia). lia.
  - rewrite IH, (H n) by lia. lia.
Qed.

(** A sum that reaches its bound reaches it everywhere. *)
Lemma sumn_full n f g : (∀ j, (j < n)%nat → f j ≤ g j) → sumn n g ≤ sumn n f → ∀ j, (j < n)%nat → f j = g j.
Proof.
  intros H Hs j Hj. induction n as [|n IH]; [lia|]. rewrite !sumn_S in Hs. pose proof (H n ltac:(lia)).
  assert (sumn n f ≤ sumn n g) by (apply sumn_mono; intros; apply H; lia).
  destruct (decide (j = n)) as [->|Hne]; [lia|]. apply IH; [intros; apply H; lia|lia|lia].
Qed.
