(* ===== verification/Layout.v ===== *)
(** * Allocation layouts and page geometry

    [core::alloc::Layout] as the code uses it, the geometry of a one-page block
    (src/src/block.rs, [BlockLayout]) and the facts the packed heads rely on:
    the trailing slots are aligned, disjoint, inside the page, and as many as
    fit. *)

From S2P Require Import Prelude.

(** ** [core::alloc::Layout] *)

Record Layout := mkLayout { lsize : Z; lalign : Z }.

#[export] Instance Layout_eq_dec : EqDecision Layout.
Proof. solve_decision. Defined.

(** The invariant the type carries. *)
Definition layout_ok (l : Layout) : Prop :=
  is_power_of_two (lalign l) = true ∧ 0 ≤ lsize l ≤ isize_max + 1 - lalign l.

(** A [Layout::new::<T>()]: the size of a type is a multiple of its alignment. *)
Definition type_layout_ok (l : Layout) : Prop :=
  layout_ok l ∧ lsize l mod lalign l = 0.

Definition Layout_from_size_align (sz al : Z) : option Layout :=
  if is_power_of_two al && (sz <=? isize_max + 1 - al)
  then Some (mkLayout sz al) else None.

Definition round_up (sz al : Z) : Z := (sz + al - 1) / al * al.

Definition Layout_extend (l next : Layout) : option (Layout * Z) :=
  let offset := round_up (lsize l) (lalign next) in
  match checked_add offset (lsize next) with
  | Some sz =>
      match Layout_from_size_align sz (Z.max (lalign l) (lalign next)) with
      | Some l' => Some (l', offset)
      | None => None
      end
  | None => None
  end.

Definition Layout_pad_to_align (l : Layout) : Layout :=
  mkLayout (round_up (lsize l) (lalign l)) (lalign l).

Definition Layout_array (elem : Layout) (n : Z) : option Layout :=
  if negb (lsize elem =? 0) && ((isize_max + 1 - lalign elem) / lsize elem <? n)
  then None
  else Some (mkLayout (lsize elem * n) (lalign elem)).

(** ** The one-page block *)

(** [header] is [Layout::new::<Block<S, H>>()] and [slot] is
    [Layout::new::<S>()]. *)
Definition SLOTS_OFFSET (header slot : Layout) : option Z :=
  snd <$> Layout_extend header slot.

Definition slot_stride (slot : Layout) : Z :=
  if lsize slot >? lalign slot then lsize slot else lalign slot.

Record BlockLayout := mkBlockLayout {
  allocation : Layout;
  slots_len : Z
}.

(** [None] is a failed assertion (a panic in [BlockLayout::new]) or a failed
    constant evaluation of [SLOTS_OFFSET]. *)
Definition BlockLayout_new (page_size : Z) (header slot : Layout) : option BlockLayout :=
  match SLOTS_OFFSET header slot with
  | None => None
  | Some slots_offset =>
      let stride := slot_stride slot in
      if negb (Z.max (lalign header) (lalign slot) <=? page_size) then None else
      if negb (slots_offset <? page_size) then None else
      let slots_len := (page_size - slots_offset) / stride in
      if negb (0 <? slots_len) then None else
      match Layout_from_size_align page_size page_size with
      | Some allocation => Some (mkBlockLayout allocation slots_len)
      | None => None
      end
  end.

(** The address of a slot; [None] is a failed assertion: in a debug build the index is
    compared with the capacity, the number of slots of the block's layout. *)
Definition slot_ptr (debug : bool) (layout : BlockLayout) (header slot : Layout) (this index : Z) : option Z :=
  if debug && negb (index <? slots_len layout) then None else
  match SLOTS_OFFSET header slot with
  | Some off => Some (this + (off + index * slot_stride slot))
  | None => None
  end.

(** ** Facts *)

Lemma round_up_spec sz al :
  0 < al → sz ≤ round_up sz al < sz + al ∧ round_up sz al mod al = 0.
Proof.
  intros Hal. unfold round_up.
  pose proof (Z.div_mod (sz + al - 1) al ltac:(lia)).
  pose proof (Z.mod_pos_bound (sz + al - 1) al Hal).
  split; [nia|]. apply Z.mod_mul. lia.
Qed.

Lemma round_up_id sz al : 0 < al → sz mod al = 0 → round_up sz al = sz.
Proof.
  intros Hal Hm. destruct (round_up_spec sz al Hal) as [? Hm'].
  apply Z.mod_divide in Hm as [q ->]; [|lia].
  apply Z.mod_divide in Hm' as [q' Hq']; [|lia]. rewrite Hq' in *. assert (q' = q) as -> by nia. done.
Qed.

Lemma layout_ok_align l : layout_ok l → 0 < lalign l.
Proof.
  intros [[k [? Hk]]%is_power_of_two_spec _]. rewrite Hk. by apply Z.pow_pos_nonneg.
Qed.

#[export] Hint Resolve layout_ok_align : usize.

Lemma pow2_divide_le a b :
  is_power_of_two a = true → is_power_of_two b = true → a ≤ b → (a | b).
Proof.
  intros (k & ? & ->)%is_power_of_two_spec (j & ? & ->)%is_power_of_two_spec Hle.
  apply Z.pow_le_mono_r_iff in Hle; [|lia..].
  exists (2 ^ (j - k)). rewrite <- Z.pow_add_r by lia. f_equal. lia.
Qed.

(** A type's stride is a positive multiple of its alignment that covers the
    value: zero-sized values get distinct aligned slots. *)
Lemma slot_stride_spec slot :
  type_layout_ok slot →
  0 < slot_stride slot ∧ slot_stride slot mod lalign slot = 0 ∧ lsize slot ≤ slot_stride slot.
Proof.
  intros [Hok Hm]. pose proof (layout_ok_align _ Hok). unfold slot_stride.
  zcase; repeat split; try lia. apply Z.mod_same; lia.
Qed.

Lemma SLOTS_OFFSET_spec header slot off :
  type_layout_ok header → type_layout_ok slot →
  SLOTS_OFFSET header slot = Some off →
  lsize header ≤ off ∧ off mod lalign slot = 0.
Proof.
  intros [Hh _] [Hs _]. unfold SLOTS_OFFSET, Layout_extend.
  pose proof (layout_ok_align _ Hs).
  destruct (round_up_spec (lsize header) (lalign slot)) as [? ?]; [done|].
  destruct (checked_add _ _); [|done].
  destruct (Layout_from_size_align _ _); [|done]. intros [= <-]. lia.
Qed.

Lemma BlockLayout_new_inv page header slot bl :
  BlockLayout_new page header slot = Some bl →
  ∃ off, SLOTS_OFFSET header slot = Some off ∧
    Z.max (lalign header) (lalign slot) ≤ page ∧ off < page ∧
    slots_len bl = (page - off) / slot_stride slot ∧ 0 < slots_len bl ∧
    is_power_of_two page = true ∧ allocation bl = mkLayout page page.
Proof.
  unfold BlockLayout_new. destruct (SLOTS_OFFSET _ _) as [off|]; [|done].
  destruct (Z.leb_spec (Z.max (lalign header) (lalign slot)) page); [|done].
  destruct (Z.ltb_spec off page); [|done]. simpl.
  destruct (Z.ltb_spec 0 ((page - off) / slot_stride slot)); [|done]. simpl.
  unfold Layout_from_size_align.
  destruct (is_power_of_two page) eqn:Hp; simpl; [|done].
  destruct (page <=? _); [|done]. intros [= <-]. eauto 10.
Qed.

(** The geometry every block layout provides to the packed heads. *)
Record geometry (page_size block_length : Z) : Prop := {
  geo_page : is_power_of_two page_size = true;
  geo_max : page_size ≤ isize_max;
  geo_length : 0 < block_length < page_size
}.

Section block_layout.
Context (page : Z) (header slot : Layout) (bl : BlockLayout).
Context (Hheader : type_layout_ok header) (Hslot : type_layout_ok slot).
Context (Hnew : BlockLayout_new page header slot = Some bl).

Lemma slots_len_maximal off :
  SLOTS_OFFSET header slot = Some off →
  off + slots_len bl * slot_stride slot ≤ page < off + (slots_len bl + 1) * slot_stride slot.
Proof.
  intros Hoff. destruct (BlockLayout_new_inv _ _ _ _ Hnew) as (off' & Ho & _ & ? & Hl & _).
  simplify_eq. destruct (slot_stride_spec slot Hslot) as (Hs & _).
  rewrite Hl. pose proof (Z.div_mod (page - off) (slot_stride slot) ltac:(lia)).
  pose proof (Z.mod_pos_bound (page - off) (slot_stride slot) Hs). nia.
Qed.

Lemma slot_ptr_inv debug this i p : slot_ptr debug bl header slot this i = Some p →
  ∃ off, SLOTS_OFFSET header slot = Some off ∧ p = this + (off + i * slot_stride slot).
Proof.
  unfold slot_ptr. destruct (_ && _); [done|]. destruct (SLOTS_OFFSET header slot) as [off|]; [|done]. intros [= <-]. by exists off.
Qed.

Lemma slot_ptr_bounds debug this i p :
  0 ≤ i < slots_len bl → this mod page = 0 → slot_ptr debug bl header slot this i = Some p →
  this + lsize header ≤ p ∧ p + slot_stride slot ≤ this + page ∧ p mod lalign slot = 0.
Proof.
  intros Hi Ha (off & Hoff & ->)%slot_ptr_inv. pose proof (slots_len_maximal off Hoff).
  destruct (SLOTS_OFFSET_spec _ _ _ Hheader Hslot Hoff) as [? Hoffa].
  destruct (slot_stride_spec slot Hslot) as (? & Hsa & ?).
  destruct (BlockLayout_new_inv _ _ _ _ Hnew) as (off' & _ & ? & _ & _ & _ & Hp & _).
  pose proof (layout_ok_align _ (proj1 Hslot)).
  assert (lalign slot | page) as [c ->].
  { apply pow2_divide_le; [apply Hslot|done|lia]. }
  apply Z.mod_divide in Ha as [q ->]; [|lia].
  apply Z.mod_divide in Hoffa as [r ->]; [|lia].
  apply Z.mod_divide in Hsa as [t Ht]; [|lia]. rewrite Ht in *.
  split; [nia|]. split; [nia|].
  apply Z.mod_divide; [lia|]. exists (q * c + (r + i * t)). lia.
Qed.

End block_layout.

(** C40: whenever the layout of a block type is accepted, its slots tile the page:
    every slot pointer is aligned for the slot type, lies after the header and
    inside the page, two slots never overlap, and one slot more would not fit.
    The assertion of a debug build holds for these slots and stops at the first
    index after them. *)
Theorem block_layout_slots page header slot bl :
  type_layout_ok header → type_layout_ok slot →
  BlockLayout_new page header slot = Some bl →
  (∀ debug this i, 0 ≤ i < slots_len bl → this mod page = 0 →
     ∃ p, slot_ptr debug bl header slot this i = Some p ∧ p mod lalign slot = 0 ∧
          this + lsize header ≤ p ∧ p + lsize slot ≤ this + page) ∧
  (∀ debug this i j p q, 0 ≤ i < j → slot_ptr debug bl header slot this i = Some p →
     slot_ptr debug bl header slot this j = Some q → p < q ∧ p + lsize slot ≤ q) ∧
  (∀ this, slot_ptr true bl header slot this (slots_len bl) = None ∧
     ∃ p, slot_ptr false bl header slot this (slots_len bl) = Some p ∧ this + page < p + slot_stride slot).
Proof.
  intros Hh Hs Hnew. destruct (slot_stride_spec slot Hs) as (Hst & _ & Hsz).
  destruct (BlockLayout_new_inv _ _ _ _ Hnew) as (off & Ho & _).
  split; [|split].
  - intros debug this i Hi Ha. destruct (slot_ptr debug bl header slot this i) as [p|] eqn:Hp.
    + destruct (slot_ptr_bounds page header slot bl Hh Hs Hnew debug this i p) as (? & ? & ?); [done..|].
      exists p. split; [done|]. repeat split; [done|done|lia].
    + unfold slot_ptr in Hp. rewrite Ho, (proj2 (Z.ltb_lt i _)), andb_false_r in Hp by lia. done.
  - intros debug this i j p q Hij (o1 & E1 & ->)%slot_ptr_inv (o2 & E2 & ->)%slot_ptr_inv. simplify_eq. split; nia.
  - intros this. unfold slot_ptr. rewrite Ho, Z.ltb_irrefl. split; [done|]. eexists. split; [done|].
    pose proof (slots_len_maximal page header slot bl Hs Hnew off Ho). nia.
Qed.

(** The block of [UBQ<u64>] on x86-64: a 256-byte header aligned to 128 and a
    16-byte slot. *)
Lemma block_layout_slots_witness :
  ∃ p, slot_ptr true (mkBlockLayout (mkLayout 4096 4096) 240) (mkLayout 256 128) (mkLayout 16 8) 8192 239 = Some p ∧
       p mod 8 = 0 ∧ 8192 + 256 ≤ p ∧ p + 16 ≤ 8192 + 4096.
Proof.
  apply (proj1 (block_layout_slots 4096 (mkLayout 256 128) (mkLayout 16 8)
    (mkBlockLayout (mkLayout 4096 4096) 240)
    ltac:(vm_compute; repeat split; discriminate) ltac:(vm_compute; repeat split; discriminate)
    eq_refl) true 8192 239); [vm_compute; split; [discriminate|reflexivity]|reflexivity].
Defined.

(** A header is never empty (it holds the successor link), so the block length
    is smaller than the page: this is what makes the index fit in the pointer
    tag. *)
Lemma BlockLayout_geometry page header slot bl :
  type_layout_ok header → type_layout_ok slot → 0 < lsize header → page ≤ isize_max →
  BlockLayout_new page header slot = Some bl → geometry page (slots_len bl).
Proof.
  intros Hh Hs Hpos Hpage Hnew.
  destruct (BlockLayout_new_inv _ _ _ _ Hnew) as (off & Ho & _ & _ & _ & Hlen & Hp & _).
  pose proof (slots_len_maximal page header slot bl Hs Hnew off Ho).
  destruct (SLOTS_OFFSET_spec _ _ _ Hh Hs Ho) as [? _].
  destruct (slot_stride_spec slot Hs) as (? & _). split; [done|done|nia].
Qed.
