(* ===== verification/Page.v ===== *)
(** * The system page size (src/src/page.rs)

    [page_size] caches the queried base-page size in a static atomic word. *)

From S2P Require Import Prelude Prog.

Definition UNINITIALIZED : Z := 0.

(** Accesses to the static [PAGE_SIZE]. *)
Inductive pageE : Type → Type :=
| LoadPageSize : pageE Z
| CasPageSize (old new : Z) : pageE (Z + Z).

(** [compare_exchange]: [inl] is [Ok], [inr] is [Err] with the real value. *)
#[export] Instance page_handler : Handler pageE Z := λ X e,
  match e in pageE X return Z → reply Z X with
  | LoadPageSize => λ s, Next s s
  | CasPageSize old new => λ s, if s =? old then Next (inl s) new else Next (inr s) s
  end.

#[export] Instance page_spurious : Spurious pageE Z := λ X e s, None.

(** [usize::try_from(sysconf(_SC_PAGESIZE)).expect(..)]; [value] is what
    [sysconf] returned to this call. *)
Definition query_page_size (value : Z) : prog pageE Z :=
  expect (if 0 <=? value then Some value else None).

Definition page_size (value : Z) : prog pageE Z :=
  cached ← act LoadPageSize;
  if negb (cached =? UNINITIALIZED) then Ret cached else
  queried ← query_page_size value;
  always_assert (is_power_of_two queried);;
  r ← act (CasPageSize UNINITIALIZED queried);
  match r with
  | inl _ => Ret queried
  | inr cached => Ret cached
  end.

(** ** Every caller sees one page size *)

(** The points a caller can be at, given the current cached word. *)
Inductive page_thread (s : Z) : prog pageE Z → Prop :=
| pt_start v : page_thread s (page_size v)
| pt_cas v : is_power_of_two v = true →
    page_thread s (Vis (CasPageSize UNINITIALIZED v)
      (λ r, match r with inl _ => Ret v | inr cached => Ret cached end))
| pt_panic : page_thread s Panic
| pt_done : s ≠ 0 → page_thread s (Ret s).

Definition page_inv (c : list (prog pageE Z) * Z) : Prop :=
  Forall (page_thread c.2) c.1 ∧ (c.2 ≠ 0 → is_power_of_two c.2 = true).

Lemma page_thread_mono s s' p :
  (s ≠ 0 → s' = s) → page_thread s p → page_thread s' p.
Proof.
  intros Hs []; try constructor; try done.
  rewrite Hs by done. by constructor.
Qed.

Lemma page_thread_load s v : page_thread s
  (if negb (s =? UNINITIALIZED) then Ret s else
     queried ← query_page_size v;
     always_assert (is_power_of_two queried);;
     r ← act (CasPageSize UNINITIALIZED queried);
     match r with inl _ => Ret queried | inr cached => Ret cached end).
Proof.
  unfold UNINITIALIZED. destruct (Z.eqb_spec s 0); simpl; [|by constructor].
  unfold query_page_size, expect. destruct (0 <=? v); simpl; [|constructor].
  unfold always_assert. destruct (is_power_of_two v) eqn:Hv; simpl; by constructor.
Qed.

Lemma page_inv_step c c' : page_inv c → conc_step c c' → page_inv c'.
Proof.
  intros Hinv Hstep. destruct Hstep as [ts i p s p' s' Hi Hp|ts i p s p' Hi Hp];
    destruct Hinv as [Hts Hs]; simpl in *.
  - pose proof (Forall_lookup_in _ _ _ _ Hts Hi) as Ht.
    enough ((s ≠ 0 → s' = s) ∧ page_thread s' p' ∧ (s' ≠ 0 → is_power_of_two s' = true))
      as (? & ? & ?).
    { split; [|done]. apply Forall_insert; [|done].
      eapply Forall_weaken; [exact Hts|]. intros q Hq. by eapply page_thread_mono. }
    destruct Ht as [v|v Hv| |]; simpl in Hp; [|unfold UNINITIALIZED in Hp|done..].
    + injection Hp as <- <-. split; [done|]. split; [apply page_thread_load|done].
    + revert Hp. unfold handle, page_handler. destruct (Z.eqb_spec s 0); intros [= <- <-].
      * subst. split; [done|]. split; [constructor|done].
        by intros ->.
      * split; [done|]. split; [by constructor|done].
  - destruct p; simpl in Hp; done.
Qed.

(** Whatever each concurrent caller's query returned, all calls that return
    give the same page size, and it is a power of two. *)
Theorem page_size_agree (vs : list Z) ts s i j a b :
  rtc conc_step (page_size <$> vs, UNINITIALIZED) (ts, s) →
  ts !! i = Some (Ret a) → ts !! j = Some (Ret b) →
  a = b ∧ is_power_of_two a = true.
Proof.
  intros Hr Hi Hj.
  assert (page_inv (ts, s)) as [Hts Hs].
  { eapply conc_invariant; [apply page_inv_step|done|].
    split; [|done]. apply Forall_fmap, Forall_true. intros. constructor. }
  pose proof (Forall_lookup_in _ _ _ _ Hts Hi) as Ha.
  pose proof (Forall_lookup_in _ _ _ _ Hts Hj) as Hb.
  inversion Ha; inversion Hb; simplify_eq; auto.
Qed.

Lemma page_size_agree_witness : ∃ ts s,
  run_sched [0; 1; 0; 1]%nat (page_size <$> [4096; 16384], UNINITIALIZED) = Some (ts, s) ∧
  ts !! 0%nat = Some (Ret 4096) ∧ 4096 = 4096 ∧ is_power_of_two 4096 = true.
Proof.
  eexists _, _. split; [vm_compute; reflexivity|]. split; [reflexivity|].
  eapply (page_size_agree [4096; 16384] _ _ 0%nat 1%nat 4096 4096);
    [eapply (run_sched_rtc [0; 1; 0; 1]%nat); vm_compute; reflexivity|reflexivity..].
Defined.
