(* ===== verification/Head.v ===== *)
(** * Packed queue heads (src/src/head.rs and src/src/kfifo/head.rs)

    A head is a page-aligned block pointer, a slot index and a one-bit hint,
    packed in one [usize] so that a single compare-exchange covers all three. *)

From S2P Require Import Prelude Prog Layout.

Record HeadCodec := mkHeadCodec {
  codec_block_length : Z;
  pointer_mask : Z;
  index_mask : Z;
  has_next_mask : Z
}.

(** [None] is the failed assertion. *)
Definition HeadCodec_new (page_size block_length : Z) : option HeadCodec :=
  let page_bits := trailing_zeros page_size in
  let index_bits := usize_bits - leading_zeros block_length in
  if negb (index_bits <=? page_bits) then None else
  let index_mask := Z.shiftr usize_max (usize_bits - index_bits) in
  let has_next_mask := if index_bits <? page_bits then Z.shiftl 1 index_bits else 0 in
  Some {| codec_block_length := block_length;
          pointer_mask := usize_not (page_size - 1);
          index_mask := index_mask;
          has_next_mask := has_next_mask |}.

(** src/src/kfifo/head.rs repeats the codec for [SpmcBlock]s, whose
    [length()] is [block_length]. *)
Definition kfifo_HeadCodec_new : Z → Z → option HeadCodec := HeadCodec_new.

Record Head := mkHead { block : Z; index : Z; has_next : bool }.

#[export] Instance Head_eq_dec : EqDecision Head.
Proof. solve_decision. Defined.

Definition Head_ZERO : Head := mkHead 0 0 false.

Definition from_ptr (b : Z) : Head := mkHead b 0 false.

Definition is_zero (h : Head) : bool :=
  (block h =? 0) && (index h =? 0) && negb (has_next h).

Definition from_usize (value : Z) (codec : HeadCodec) : Head :=
  {| block := Z.land value (pointer_mask codec);
     index := Z.land value (index_mask codec);
     has_next := negb (has_next_mask codec =? 0) &&
                 negb (Z.land value (has_next_mask codec) =? 0) |}.

(** The word [to_usize] returns, without its debug assertions. *)
Definition pack (h : Head) (codec : HeadCodec) : Z :=
  Z.lor (Z.lor (block h) (Z.land (index h) (index_mask codec)))
        (if has_next h then has_next_mask codec else 0).

Definition to_usize `{Profile} {E} (h : Head) (codec : HeadCodec) : prog E Z :=
  debug_assert (Z.land (block h) (usize_not (pointer_mask codec)) =? 0);;
  debug_assert (index h <=? codec_block_length codec);;
  Ret (pack h codec).

(** ** Well-formed codecs and heads *)

Record head_ok (page_size block_length : Z) (h : Head) : Prop := {
  ho_block : 0 ≤ block h ≤ usize_max;
  ho_aligned : block h mod page_size = 0;
  ho_index : 0 ≤ index h ≤ block_length
}.

(** The hint survives packing unless the index takes every alignment bit. *)
Definition keep_hint (codec : HeadCodec) (h : Head) : Head :=
  mkHead (block h) (index h) (has_next h && negb (has_next_mask codec =? 0)).

(** ** Bit lemmas *)

Lemma shiftr_usize_max n : 0 ≤ n ≤ 64 → Z.shiftr usize_max (64 - n) = Z.ones n.
Proof.
  intros Hn. rewrite usize_max_ones, Z.shiftr_div_pow2, Z.ones_div_pow2 by lia.
  f_equal. lia.
Qed.

Lemma land_high_low q i n : 0 ≤ n → 0 ≤ i < 2 ^ n → Z.land (q * 2 ^ n) i = 0.
Proof.
  intros Hn Hi. apply Z.bits_inj'. intros j Hj. rewrite Z.land_spec, Z.bits_0.
  destruct (Z.lt_ge_cases j n).
  - by rewrite Z.mul_pow2_bits_low.
  - rewrite <- (Z.mod_small i (2 ^ n)) by done.
    rewrite Z.mod_pow2_bits_high by lia. apply andb_false_r.
Qed.

Lemma land_not_ones x n :
  0 ≤ n ≤ 64 → is_usize x → Z.land x (usize_not (2 ^ n - 1)) = x - x mod 2 ^ n.
Proof.
  intros Hn Hx. unfold usize_not. rewrite Z.sub_1_r, <- Z.ones_equiv.
  assert (Z.land x (Z.lxor (Z.ones n) usize_max) = Z.ldiff x (Z.ones n)) as ->.
  { rewrite usize_max_ones. apply Z.bits_inj'. intros j Hj.
    rewrite Z.land_spec, Z.ldiff_spec, Z.lxor_spec.
    destruct (Z.lt_ge_cases j 64).
    - rewrite (Z.ones_spec_low 64) by lia. by rewrite xorb_true_r.
    - rewrite <- (Z.mod_small x (2 ^ 64)) by (unfold is_usize, usize_max in Hx; lia).
      rewrite Z.mod_pow2_bits_high by lia. done. }
  rewrite Z.ldiff_ones_r, Z.shiftl_mul_pow2, Z.shiftr_div_pow2 by lia.
  pose proof (Z.div_mod x (2 ^ n)). pose proof (Z.pow_pos_nonneg 2 n). lia.
Qed.

Lemma usize_not_involutive x : usize_not (usize_not x) = x.
Proof. unfold usize_not. by rewrite Z.lxor_assoc, Z.lxor_nilpotent, Z.lxor_0_r. Qed.

(** ** What [HeadCodec::new] computes *)

Record codec_shape (page_size block_length : Z) (codec : HeadCodec) (pb ib : Z) : Prop := {
  cs_page : page_size = 2 ^ pb;
  cs_bits : 0 < ib ≤ pb ∧ pb < 64;
  cs_length : 0 < block_length < 2 ^ ib;
  cs_block_length : codec_block_length codec = block_length;
  cs_pointer : pointer_mask codec = usize_not (2 ^ pb - 1);
  cs_index : index_mask codec = Z.ones ib;
  cs_hint : has_next_mask codec = if ib <? pb then 2 ^ ib else 0
}.

Lemma HeadCodec_new_shape page bl :
  geometry page bl →
  ∃ codec pb ib, HeadCodec_new page bl = Some codec ∧ codec_shape page bl codec pb ib.
Proof.
  intros [(pb & Hpb & ->)%is_power_of_two_spec Hmax Hbl].
  set (ib := Z.log2 bl + 1).
  assert (pb < 64) as Hpb'.
  { destruct (Z.lt_ge_cases pb 64); [done|].
    pose proof (Z.pow_le_mono_r 2 64 pb). unfold isize_max in Hmax. lia. }
  destruct (Z.log2_spec bl) as [Hlo Hhi]; [lia|]. pose proof (Z.log2_nonneg bl).
  assert (ib ≤ pb) as Hib.
  { enough (Z.log2 bl < pb) by lia. apply (Z.pow_lt_mono_r_iff 2); lia. }
  assert (usize_bits - leading_zeros bl = ib) as Hbits.
  { unfold leading_zeros, usize_bits, ib. zcase; lia. }
  unfold HeadCodec_new. rewrite trailing_zeros_pow2, Hbits by done.
  rewrite (proj2 (Z.leb_le ib pb)) by lia. simpl. eexists _, pb, ib. split; [done|].
  split; simpl; try done; try lia.
  - split; [lia|]. unfold ib. by rewrite Z.add_1_r.
  - apply (shiftr_usize_max ib). lia.
  - zcase; [|done]. by rewrite Z.shiftl_1_l.
Qed.

(** ** Packing is addition of disjoint bit fields *)

Section packing.
Context {page bl : Z} {codec : HeadCodec} {pb ib : Z}.
Context (Hc : codec_shape page bl codec pb ib).

Definition hint_bits (h : Head) : Z := if has_next h then has_next_mask codec else 0.

Lemma hint_bits_bound h :
  0 ≤ hint_bits h ∧ hint_bits h + 2 ^ ib ≤ 2 ^ pb ∧ hint_bits h mod 2 ^ ib = 0.
Proof.
  destruct Hc as [_ [? ?] _ _ _ _ Hm]. unfold hint_bits. rewrite Hm.
  pose proof (Z.pow_pos_nonneg 2 ib). pose proof (Z.pow_le_mono_r 2 ib pb).
  destruct (has_next h); [|rewrite Z.mod_0_l; lia].
  zcase; [|rewrite Z.mod_0_l; lia].
  rewrite Z.mod_same by lia. pose proof (Z.pow_le_mono_r 2 (ib + 1) pb).
  rewrite Z.pow_add_r in * by lia. lia.
Qed.

Lemma pack_sum h : head_ok page bl h → pack h codec = block h + index h + hint_bits h.
Proof.
  intros [Hb Ha Hi]. pose proof (hint_bits_bound h) as (Hh0 & Hh1 & Hh2).
  destruct Hc as [-> [? ?] ? _ _ Hm _]. unfold pack. rewrite Hm, Z.land_ones by lia.
  rewrite (Z.mod_small (index h)) by lia. fold (hint_bits h).
  apply Z.mod_divide in Ha as [q Hq]; [|lia]. rewrite Hq in *.
  apply Z.mod_divide in Hh2 as [r Hr]; [|lia]. rewrite Hr in *.
  rewrite (lor_add_disjoint (q * 2 ^ pb)) by (apply land_high_low; lia).
  apply lor_add_disjoint.
  replace (q * 2 ^ pb + index h) with ((q * 2 ^ (pb - ib)) * 2 ^ ib + index h)
    by (rewrite <- Z.mul_assoc, <- Z.pow_add_r; [do 3 f_equal; lia|lia..]).
  rewrite <- (lor_add_disjoint _ (index h)) by (apply land_high_low; lia).
  rewrite Z.land_lor_distr_l.
  rewrite (Z.land_comm (index h)), (land_high_low r) by lia. rewrite Z.lor_0_r.
  rewrite <- Z.mul_assoc, <- Z.pow_add_r by lia.
  replace (pb - ib + ib) with pb by lia. apply land_high_low; lia.
Qed.

Lemma pack_range h : head_ok page bl h → block h + page ≤ 2 ^ 64 → is_usize (pack h codec).
Proof.
  intros Hh Hr. rewrite pack_sum by done. pose proof (hint_bits_bound h).
  destruct Hh as [? ? ?]. destruct Hc as [-> ? ? _ _ _ _].
  unfold is_usize, usize_max in *. lia.
Qed.

Lemma aligned_fits b : is_usize b → b mod page = 0 → b + page ≤ 2 ^ 64.
Proof.
  intros Hb Ha. destruct Hc as [-> [? ?] _ _ _ _ _].
  pose proof (Z.pow_pos_nonneg 2 pb).
  apply Z.mod_divide in Ha as [q ->]; [|lia]. unfold is_usize, usize_max in Hb.
  assert (2 ^ 64 = 2 ^ (64 - pb) * 2 ^ pb) as E by (rewrite <- Z.pow_add_r; [f_equal; lia|lia..]).
  rewrite E in *. assert (q < 2 ^ (64 - pb)) by nia. nia.
Qed.

Lemma from_usize_pack h : head_ok page bl h → from_usize (pack h codec) codec = keep_hint codec h.
Proof.
  intros Hh. pose proof (pack_range h Hh) as Hr. pose proof (hint_bits_bound h) as (Hh0 & Hh1 & Hh2).
  pose proof (aligned_fits (block h) (ho_block _ _ _ Hh) (ho_aligned _ _ _ Hh)) as Hfit.
  specialize (Hr Hfit). unfold from_usize, keep_hint.
  rewrite (pack_sum h Hh) in *. destruct Hh as [Hb Ha Hi].
  pose proof Hc as [Hp [? ?] ? _ Hpm Him Hhm].
  apply Z.mod_divide in Ha as [q Hq]; [|lia].
  apply Z.mod_divide in Hh2 as [r Hr2]; [|lia].
  f_equal.
  - rewrite Hpm, land_not_ones by (done || lia). rewrite Hq, Hp, <- Z.add_assoc.
    rewrite (Z.add_comm (q * 2 ^ pb)), Z.mod_add, Z.mod_small by lia. lia.
  - rewrite Him, Z.land_ones by lia. rewrite Hq, Hp, Hr2.
    replace (q * 2 ^ pb + index h + r * 2 ^ ib)
      with (index h + (q * 2 ^ (pb - ib) + r) * 2 ^ ib).
    + rewrite Z.mod_add by lia. apply Z.mod_small. lia.
    + rewrite Z.mul_add_distr_r, <- (Z.mul_assoc q), <- Z.pow_add_r by lia.
      replace (pb - ib + ib) with pb by lia. lia.
  - unfold hint_bits in *. rewrite Hhm in *. destruct (Z.ltb_spec ib pb); simpl.
    2: { by rewrite andb_false_r. }
    rewrite (proj2 (Z.eqb_neq (2 ^ ib) 0)) by lia. simpl. rewrite andb_true_r.
    assert (∀ x, negb (Z.land x (2 ^ ib) =? 0) = Z.testbit x ib) as ->.
    { intros x. rewrite Z.land_comm. zcase; simpl.
      - symmetry. apply not_true_is_false. intros Ht.
        apply (f_equal (λ y, Z.testbit y ib)) in e.
        rewrite Z.land_spec, Ht, Z.pow2_bits_true, Z.bits_0 in e by lia. done.
      - symmetry. apply not_false_is_true. intros Hf. apply n. apply Z.bits_inj'.
        intros j Hj. rewrite Z.land_spec, Z.bits_0.
        destruct (Z.eq_dec ib j) as [<-|]; [by rewrite Hf, andb_false_r|].
        by rewrite Z.pow2_bits_false. }
    rewrite Hq, Hp.
    replace (q * 2 ^ pb + index h + (if has_next h then 2 ^ ib else 0))
      with (index h + ((if has_next h then 1 else 0) + q * 2 ^ (pb - ib - 1) * 2) * 2 ^ ib).
    + rewrite Z.testbit_eqb by lia.
      rewrite Z.div_add, (Z.div_small (index h)), Z.add_0_l, Z.mod_add by lia.
      by destruct (has_next h).
    + assert (2 ^ pb = 2 ^ (pb - ib - 1) * 2 * 2 ^ ib) as ->.
      { replace (2 ^ (pb - ib - 1) * 2 * 2 ^ ib) with (2 ^ (pb - ib - 1) * 2 ^ 1 * 2 ^ ib) by lia.
        rewrite <- !Z.pow_add_r by lia. f_equal. lia. }
      destruct (has_next h); lia.
Qed.

End packing.

(** ** The contract of the codec *)

Lemma head_ok_ZERO page bl : geometry page bl → head_ok page bl Head_ZERO.
Proof.
  intros [_ _ ?]. split; simpl; [unfold usize_max; lia|apply Z.mod_0_l; lia|lia].
Qed.

Lemma to_usize_ok `{Profile} {E} page bl codec h :
  geometry page bl → HeadCodec_new page bl = Some codec → head_ok page bl h →
  to_usize (E:=E) h codec = Ret (pack h codec).
Proof.
  intros Hg Hn Hh. destruct (HeadCodec_new_shape page bl Hg) as (c & pb & ib & Hn' & Hc).
  assert (c = codec) as -> by congruence. destruct Hh as [Hb Ha Hi].
  destruct Hc as [-> [? ?] ? Hl Hpm _ _]. unfold to_usize.
  rewrite !debug_assert_ok; [done| |apply Z.leb_le; lia].
  apply Z.eqb_eq. rewrite Hpm, usize_not_involutive, Z.sub_1_r, <- Z.ones_equiv.
  rewrite Z.land_ones by lia. done.
Qed.

(** For every block type whose layout is accepted, [HeadCodec::new] does not
    panic, and its block length is the number of slots of the layout. *)
Theorem codec_new_total page header slot bl :
  type_layout_ok header → type_layout_ok slot → 0 < lsize header → page ≤ isize_max →
  BlockLayout_new page header slot = Some bl →
  ∃ codec, HeadCodec_new page (slots_len bl) = Some codec ∧
           codec_block_length codec = slots_len bl.
Proof.
  intros. destruct (HeadCodec_new_shape page (slots_len bl)) as (c & pb & ib & ? & Hc).
  - by apply (BlockLayout_geometry page header slot bl).
  - exists c. split; [done|]. apply Hc.
Qed.

(** One-byte slots: the index uses all twelve alignment bits and the hint bit
    disappears. *)
Lemma codec_new_total_witness :
  ∃ codec, HeadCodec_new 4096 3840 = Some codec ∧ codec_block_length codec = 3840.
Proof.
  apply (codec_new_total 4096 (mkLayout 256 128) (mkLayout 1 1)
    (mkBlockLayout (mkLayout 4096 4096) 3840));
    [vm_compute; repeat split; discriminate|vm_compute; repeat split; discriminate|reflexivity|vm_compute; discriminate|reflexivity].
Defined.

(** C39: packing a head and unpacking the word gives back the block, the index
    (up to and including [block_length], the boundary sentinel) and, when the
    geometry leaves a bit for it, the hint; and the packed word is a [usize]. *)
Theorem head_roundtrip page bl codec h :
  geometry page bl → HeadCodec_new page bl = Some codec → head_ok page bl h →
  is_usize (pack h codec) ∧ from_usize (pack h codec) codec = keep_hint codec h.
Proof.
  intros Hg Hn Hh. destruct (HeadCodec_new_shape page bl Hg) as (c & pb & ib & Hn' & Hc).
  assert (c = codec) as -> by congruence. split.
  - apply (pack_range Hc); [done|]. apply (aligned_fits Hc); apply Hh.
  - by apply (from_usize_pack Hc).
Qed.

Definition codec_u64 : option HeadCodec := HeadCodec_new 4096 240.

Lemma head_roundtrip_witness :
  match codec_u64 with
  | Some codec =>
      is_usize (pack (mkHead 8192 240 true) codec) ∧
      from_usize (pack (mkHead 8192 240 true) codec) codec = mkHead 8192 240 true
  | None => False
  end.
Proof.
  change (mkHead 8192 240 true) with
    (keep_hint (mkHeadCodec 240 (usize_not 4095) 255 256) (mkHead 8192 240 true)) at 3.
  apply (head_roundtrip 4096 240);
    [split; [reflexivity|vm_compute; discriminate|lia]|reflexivity|
     split; [vm_compute; split; discriminate|reflexivity|vm_compute; split; discriminate]].
Defined.
