(* ===== verification/Geometry.v ===== *)
(** * Geometry, allocator and head words

    What the block queues are parametric in: the page and block length the
    element type leads to, and the global allocator; and how head words behave
    for such a geometry. *)

From S2P Require Import Prelude Prog Layout Head.

(** The geometry [Block::<T>::layout()] and [HeadCodec::new::<T>()] computed for
    the element type. *)
Class BlockGeometry := {
  page : Z;
  block_length : Z;
  codec : HeadCodec;
  geometry_ok : geometry page block_length;
  codec_ok : HeadCodec_new page block_length = Some codec
}.

(** The global allocator: it is given the live allocations and a layout, and
    returns the address of fresh storage for the layout, or null. *)
Class Allocator := {
  galloc : gmap Z Layout → Layout → Z;
  galloc_fresh : ∀ live l p,
    galloc live l = p → p ≠ 0 →
    0 < p ∧ p + lsize l ≤ 2 ^ 64 ∧ p mod lalign l = 0 ∧
    ∀ q k, live !! q = Some k → p + lsize l ≤ q ∨ q + lsize k ≤ p
}.

(** Where [Box::new] puts a value, given the addresses in use. *)
Class BoxAllocator := {
  box_at : gset Z → Z;
  box_at_fresh : ∀ d, (box_at d ∉ d) ∧ 0 < box_at d
}.

(** ** Geometry facts *)

Section geometry_facts.
Context `{BlockGeometry}.

Lemma page_pos : 0 < page.
Proof. destruct geometry_ok as [_ _ ?]. lia. Qed.

Lemma length_pos : 0 < block_length.
Proof. destruct geometry_ok as [_ _ ?]. lia. Qed.

Lemma length_lt_max : block_length < isize_max.
Proof. destruct geometry_ok as [_ ? ?]. lia. Qed.

Lemma page_pow2 : is_power_of_two page = true.
Proof. apply geometry_ok. Qed.

End geometry_facts.

Section words.
Context `{BlockGeometry} `{Profile}.

(** ** Packed words *)

Lemma unpack_word h :
  head_ok page block_length h → from_usize (pack h codec) codec = keep_hint codec h.
Proof.
  intros Hh. destruct (HeadCodec_new_shape page block_length geometry_ok) as (c & pb & ib & Hn & Hc).
  rewrite codec_ok in Hn. injection Hn as <-. by apply (from_usize_pack Hc).
Qed.

Lemma to_usize_word {E} h :
  head_ok page block_length h → to_usize (E:=E) h codec = Ret (pack h codec).
Proof. intros. by eapply to_usize_ok; [apply geometry_ok|apply codec_ok|]. Qed.

Lemma pack_ZERO : pack Head_ZERO codec = 0.
Proof. unfold pack. simpl. by rewrite Z.land_0_l. Qed.

Lemma pack_nonzero h : head_ok page block_length h → 0 < block h → 0 < pack h codec.
Proof.
  intros Hh Hb. destruct (HeadCodec_new_shape page block_length geometry_ok) as (c & pb & ib & Hn & Hc).
  rewrite codec_ok in Hn. injection Hn as <-. rewrite (pack_sum Hc) by done.
  pose proof (hint_bits_bound Hc h). destruct Hh. lia.
Qed.

(** A hint that the codec can represent. *)
Definition canon (h : bool) : Prop := h = true → has_next_mask codec ≠ 0.

Definition trim (h : bool) : bool := h && negb (has_next_mask codec =? 0).

Lemma canon_trim h : canon (trim h).
Proof. unfold canon, trim. destruct h; [|done]. simpl. by destruct (Z.eqb_spec (has_next_mask codec) 0). Qed.

Lemma trim_canon h : canon h → trim h = h.
Proof.
  unfold canon, trim. destruct h; [|done]. intros Hc. simpl.
  by rewrite (proj2 (Z.eqb_neq _ _) (Hc eq_refl)).
Qed.

Lemma trim_true h : trim h = true → h = true.
Proof. unfold trim. by intros [? _]%andb_true_iff. Qed.

Lemma pack_trim b i h : pack (mkHead b i h) codec = pack (mkHead b i (trim h)) codec.
Proof.
  unfold pack, trim. simpl. destruct h; [|done]. simpl.
  by destruct (Z.eqb_spec (has_next_mask codec) 0) as [->|].
Qed.

End words.
