(* ===== verification/Epochs.v ===== *)
(** * The logical state of a block queue

    Both block queues of the library number the slots they hand out: position [p]
    is slot [p mod BL] of the [p / BL]-th block.  The logical state records the
    address every block had, the content of every position pushed so far, how
    many positions consumers have claimed, and the ranges that outstanding
    iterators still hold.  Which blocks are in memory, and what they contain, is
    a function of it. *)

From S2P Require Import Prelude Prog Layout Head Geometry.

(** ** What an iterator delivers *)

(** [next] on the contents of the positions that are left. *)
Fixpoint spec_next {T} (l : list (option T)) : option T * list (option T) :=
  match l with
  | [] => (None, [])
  | Some v :: l => (Some v, l)
  | None :: l => spec_next l
  end.

(** The values among them. *)
Definition present {T} (l : list (option T)) : list T := omap (λ x, x) l.

(** ** The logical state *)

(** An iterator holds [[r_first, r_stop)]: the positions before [r_pos] have been
    read and are pending, the others are unread. *)
Record resv := mkResv { r_first : nat; r_pos : nat; r_stop : nat }.

Record ghost (T : Type) := mkGhost {
  addrs : list Z;
  cells : list (option T);
  claimed : nat;
  resvs : gmap nat resv
}.
Arguments mkGhost {T} _ _ _ _.
Arguments addrs {T} _.
Arguments cells {T} _.
Arguments claimed {T} _.
Arguments resvs {T} _.

(** ** Counting *)

Section counting.
Context (P Q : nat → Prop) `{∀ x, Decision (P x), ∀ x, Decision (Q x)}.

(** Adding the range [[i, j)] to a predicate adds its intersection to the count. *)
Lemma filter_seq_add i j a n :
  (∀ x, (a ≤ x < a + n)%nat → Q x ↔ P x ∨ (i ≤ x < j)%nat) →
  (∀ x, (i ≤ x < j)%nat → ¬ P x) →
  length (filter Q (seq a n)) =
    (length (filter P (seq a n)) + (Nat.min j (a + n) - Nat.max i a))%nat.
Proof.
  revert a. induction n as [|n IH]; intros a Hq Hp; [simpl; lia|].
  simpl. rewrite !filter_cons.
  specialize (IH (S a) (λ x Hx, Hq x ltac:(lia)) Hp).
  pose proof (Hq a ltac:(lia)) as Ha. pose proof (Hp a) as Hp'.
  destruct (decide (P a)); destruct (decide (Q a)); simpl; rewrite ?IH; try tauto.
  - assert (¬ (i ≤ a < j)%nat) by tauto. lia.
  - assert (i ≤ a < j)%nat by tauto. lia.
  - assert (¬ (i ≤ a < j)%nat) by tauto. lia.
Qed.

Lemma filter_seq_ext a n :
  (∀ x, (a ≤ x < a + n)%nat → P x ↔ Q x) →
  length (filter P (seq a n)) = length (filter Q (seq a n)).
Proof.
  intros Hpq. rewrite (filter_seq_add 0 0 a n); [lia| |lia].
  intros x Hx. specialize (Hpq x Hx). intuition lia.
Qed.

End counting.

Lemma filter_seq_range (Q : nat → Prop) `{∀ x, Decision (Q x)} i j a n :
  (∀ x, (a ≤ x < a + n)%nat → Q x ↔ (i ≤ x < j)%nat) →
  length (filter Q (seq a n)) = (Nat.min j (a + n) - Nat.max i a)%nat.
Proof.
  intros HQ. rewrite (filter_seq_add (λ _, False) Q i j a n); [|intros x Hx; rewrite HQ by done; tauto|tauto].
  assert (∀ l : list nat, filter (λ _, False) l = []) as -> by (intros l; by induction l). simpl. lia.
Qed.

Section epochs.
Context {T : Type} `{BlockGeometry}.
Implicit Types (g : ghost T).

Definition BL : nat := Z.to_nat block_length.

Lemma BL_pos : (0 < BL)%nat.
Proof. unfold BL. pose proof length_pos. lia. Qed.

Lemma BL_Z : Z.of_nat BL = block_length.
Proof. unfold BL. pose proof length_pos. lia. Qed.

Definition addr g (k : nat) : Z := default 0 (addrs g !! k).

(** Position [p] has been claimed and its consumption published. *)
Definition released g (p : nat) : Prop :=
  (p < claimed g)%nat ∧ map_Forall (λ _ rv, ¬ (r_first rv ≤ p < r_stop rv)%nat) (resvs g).

#[export] Instance released_dec g p : Decision (released g p).
Proof. unfold released. apply _. Defined.

(** The value at position [p] has not been moved out yet. *)
Definition unread g (p : nat) : Prop :=
  (claimed g ≤ p)%nat ∨ ¬ map_Forall (λ _ rv, ¬ (r_pos rv ≤ p < r_stop rv)%nat) (resvs g).

#[export] Instance unread_dec g p : Decision (unread g p).
Proof. unfold unread. apply _. Defined.

Definition consumed_of g (k : nat) : nat := length (filter (released g) (seq (k * BL) BL)).

(** The [k]-th block is in memory until the last of its slots is released. *)
Definition live g (k : nat) : Prop := (k < length (addrs g))%nat ∧ (consumed_of g k < BL)%nat.

(** Iterators hold disjoint ranges of claimed positions. *)
Record resvs_wf g : Prop := {
  rw_order : ∀ id rv, resvs g !! id = Some rv →
    (r_first rv ≤ r_pos rv ≤ r_stop rv)%nat ∧ (r_stop rv ≤ claimed g)%nat;
  rw_disjoint : ∀ id id' rv rv' p, resvs g !! id = Some rv → resvs g !! id' = Some rv' →
    id ≠ id' → (r_first rv ≤ p < r_stop rv)%nat → ¬ (r_first rv' ≤ p < r_stop rv')%nat
}.

(** Between calls, moreover, the pending positions are those of one block, and an
    exhausted iterator has none. *)
Record resvs_ok g : Prop := {
  ro_order : ∀ id rv, resvs g !! id = Some rv →
    (r_first rv ≤ r_pos rv ≤ r_stop rv)%nat ∧ (r_stop rv ≤ claimed g)%nat;
  ro_flushed : ∀ id rv, resvs g !! id = Some rv → r_pos rv = r_stop rv → r_first rv = r_stop rv;
  ro_segment : ∀ id rv, resvs g !! id = Some rv → (r_first rv / BL = r_pos rv / BL)%nat;
  ro_disjoint : ∀ id id' rv rv' p, resvs g !! id = Some rv → resvs g !! id' = Some rv' →
    id ≠ id' → (r_first rv ≤ p < r_stop rv)%nat → ¬ (r_first rv' ≤ p < r_stop rv')%nat
}.

(** ** Consumption counts *)

Lemma consumed_of_le g k : (consumed_of g k ≤ BL)%nat.
Proof. unfold consumed_of. rewrite length_filter. rewrite length_seq. lia. Qed.

Lemma live_position g k p :
  (k < length (addrs g))%nat → (k * BL ≤ p < k * BL + BL)%nat → ¬ released g p → live g k.
Proof.
  intros Hk Hp Hr. split; [done|]. unfold consumed_of.
  enough (length (filter (released g) (seq (k * BL) BL)) < length (seq (k * BL) BL))%nat
    by (by rewrite length_seq in *).
  apply length_filter_lt with p; [|done]. apply elem_of_seq. lia.
Qed.

Lemma unclaimed_unreleased g p : (claimed g ≤ p)%nat → ¬ released g p.
Proof. intros ? [? _]. lia. Qed.

Lemma held_unreleased g id rv p :
  resvs g !! id = Some rv → (r_first rv ≤ p < r_stop rv)%nat → ¬ released g p.
Proof. intros Hid Hp [_ Hf]. by eapply Hf. Qed.

(** ** Transitions of the logical state *)

Definition g_link (l : list Z) g : ghost T := mkGhost (addrs g ++ l) (cells g) (claimed g) (resvs g).

Definition g_write (x : option T) g : ghost T :=
  mkGhost (addrs g) (cells g ++ [x]) (claimed g) (resvs g).

Definition g_resv (id : nat) (rv : resv) g : ghost T :=
  mkGhost (addrs g) (cells g) (claimed g) (<[id := rv]> (resvs g)).

Definition g_claim (id n : nat) g : ghost T :=
  mkGhost (addrs g) (cells g) (claimed g + n)
    (<[id := mkResv (claimed g) (claimed g) (claimed g + n)]> (resvs g)).

Definition g_forget (id : nat) g : ghost T :=
  mkGhost (addrs g) (cells g) (claimed g) (delete id (resvs g)).

Lemma other_block j k p :
  j ≠ k → (j * BL ≤ p < j * BL + BL)%nat → (p < k * BL ∨ k * BL + BL ≤ p)%nat.
Proof. intros Hne Hp. pose proof BL_pos. destruct (decide (j < k)%nat); nia. Qed.


Lemma consumed_of_ext g g' j :
  (∀ p, (j * BL ≤ p < j * BL + BL)%nat → released g' p ↔ released g p) →
  consumed_of g' j = consumed_of g j.
Proof. intros He. by apply filter_seq_ext. Qed.


(** ** Reservations *)

Lemma map_Forall_none_insert (P : nat → resv → Prop) (m : gmap nat resv) id rv rv' :
  m !! id = Some rv →
  map_Forall P (<[id := rv']> m) ↔ P id rv' ∧ (∀ j x, j ≠ id → m !! j = Some x → P j x).
Proof.
  intros Hid. split.
  - intros Hf. split; [by eapply map_Forall_insert_1_1|].
    intros j x Hj Hx. apply Hf. by rewrite lookup_insert_ne.
  - intros [Hp Hm] j x [[<- <-]|[? Hx]]%lookup_insert_Some; [done|]. by apply Hm.
Qed.


Lemma released_resv g id rv rv' p :
  resvs g !! id = Some rv →
  (r_first rv' ≤ p < r_stop rv' ↔ r_first rv ≤ p < r_stop rv)%nat →
  released (g_resv id rv' g) p ↔ released g p.
Proof.
  intros Hid Hp. unfold released; simpl. rewrite (map_Forall_none_insert _ _ id rv rv') by done.
  rewrite Hp. split.
  - intros (? & Hn & Hm). split; [done|]. intros j x Hx.
    destruct (decide (j = id)) as [->|]; [congruence|by eapply Hm].
  - intros (? & Hm). split; [done|]. split; [by eapply Hm|]. intros j x _ Hx. by eapply Hm.
Qed.


Lemma unread_resv g id rv rv' p :
  resvs g !! id = Some rv →
  (r_pos rv' ≤ p < r_stop rv' ↔ r_pos rv ≤ p < r_stop rv)%nat →
  unread (g_resv id rv' g) p ↔ unread g p.
Proof.
  intros Hid Hp. unfold unread; simpl. rewrite (map_Forall_none_insert _ _ id rv rv') by done.
  rewrite Hp. f_equiv. apply not_iff_compat. split.
  - intros (Hn & Hm) j x Hx. destruct (decide (j = id)) as [->|]; [congruence|by eapply Hm].
  - intros Hm. split; [by eapply Hm|]. intros j x _ Hx. by eapply Hm.
Qed.


Lemma resvs_ok_wf g : resvs_ok g → resvs_wf g.
Proof. intros [? _ _ ?]. by split. Qed.

Lemma resvs_wf_resv g id rv rv' :
  resvs_wf g → resvs g !! id = Some rv → r_stop rv' = r_stop rv →
  (r_first rv ≤ r_first rv' ≤ r_pos rv')%nat → (r_pos rv' ≤ r_stop rv)%nat →
  resvs_wf (g_resv id rv' g).
Proof.
  intros [Hord Hdis] Hid Es Hf Hp. destruct (Hord _ _ Hid). split; simpl.
  - intros j x [[<- <-]|[_ Hj]]%lookup_insert_Some; [lia|]. by apply (Hord j).
  - intros j j' x x' p [[<- <-]|[_ Hj]]%lookup_insert_Some [[<- <-]|[_ Hj']]%lookup_insert_Some Hne Hin.
    + done.
    + apply (Hdis id j' rv x' p); [done..|lia].
    + intros ?. apply (Hdis id j rv x p); [done..|lia|lia].
    + by apply (Hdis j j' x x').
Qed.

Lemma not_unread_read g id rv :
  resvs_wf g → resvs g !! id = Some rv → (r_pos rv < r_stop rv)%nat →
  ¬ unread (g_resv id (mkResv (r_first rv) (S (r_pos rv)) (r_stop rv)) g) (r_pos rv).
Proof.
  intros Hok Hid Hlt. destruct (rw_order _ Hok _ _ Hid) as [? ?].
  intros [?|Hn]; simpl in *; [lia|]. apply Hn.
  apply (map_Forall_none_insert _ _ id rv); [done|]. simpl. split; [lia|].
  intros j x Hj Hx Hin. destruct (rw_order _ Hok _ _ Hx) as [? ?].
  apply (rw_disjoint _ Hok id j rv x (r_pos rv)); [done..|lia|lia].
Qed.


Lemma unread_at_pos g id rv p :
  resvs g !! id = Some rv → (r_pos rv ≤ p < r_stop rv)%nat → unread g p.
Proof. intros Hid Hp. right. intros Hf. by eapply Hf. Qed.


(** Publishing the pending positions of an iterator. *)
Lemma released_flush g id rv p :
  (∀ j x, j ≠ id → resvs g !! j = Some x →
     ∀ p, (r_first rv ≤ p < r_stop rv)%nat → ¬ (r_first x ≤ p < r_stop x)%nat) →
  resvs g !! id = Some rv → (r_first rv ≤ r_pos rv ≤ r_stop rv)%nat → (r_stop rv ≤ claimed g)%nat →
  released (g_resv id (mkResv (r_pos rv) (r_pos rv) (r_stop rv)) g) p ↔
  released g p ∨ (r_first rv ≤ p < r_pos rv)%nat.
Proof.
  intros Hd Hid Ho Hc. unfold released; simpl.
  rewrite (map_Forall_none_insert _ _ id rv) by done. simpl. split.
  - intros (Hp & Hn & Hm). destruct (decide (r_first rv ≤ p < r_pos rv)%nat) as [|Hout]; [by right|].
    left. split; [done|]. intros j x Hx. destruct (decide (j = id)) as [->|]; [|by eapply Hm].
    assert (x = rv) as -> by congruence. lia.
  - intros [[Hp Hm]|Hin].
    + split; [done|]. split; [|intros; by eapply Hm]. specialize (Hm id rv Hid). simpl in Hm. lia.
    + split; [lia|]. split; [lia|]. intros j x Hj Hx. apply (Hd j x Hj Hx). lia.
Qed.


Lemma resvs_ok_claim g id n :
  resvs_ok g → resvs g !! id = None → resvs_ok (g_claim id n g).
Proof.
  intros Hok Hid. split; simpl.
  - intros j rv [[<- <-]|[_ Hj]]%lookup_insert_Some; simpl; [lia|].
    destruct (ro_order _ Hok _ _ Hj). lia.
  - intros j rv [[<- <-]|[_ Hj]]%lookup_insert_Some; simpl; [lia|]. by apply (ro_flushed _ Hok j).
  - intros j rv [[<- <-]|[_ Hj]]%lookup_insert_Some; simpl; [done|]. by apply (ro_segment _ Hok j).
  - intros j j' rv rv' p [[<- <-]|[_ Hj]]%lookup_insert_Some [[<- <-]|[_ Hj']]%lookup_insert_Some Hne;
      simpl; try done; [destruct (ro_order _ Hok _ _ Hj'); lia|destruct (ro_order _ Hok _ _ Hj); lia|].
    by apply (ro_disjoint _ Hok j j').
Qed.


Lemma resvs_ok_forget g id : resvs_ok g → resvs_ok (g_forget id g).
Proof.
  intros Hok. split; simpl.
  - intros j rv [_ Hj]%lookup_delete_Some. by apply (ro_order _ Hok j).
  - intros j rv [_ Hj]%lookup_delete_Some. by apply (ro_flushed _ Hok j).
  - intros j rv [_ Hj]%lookup_delete_Some. by apply (ro_segment _ Hok j).
  - intros j j' rv rv' p [_ Hj]%lookup_delete_Some [_ Hj']%lookup_delete_Some.
    by apply (ro_disjoint _ Hok j j').
Qed.


(** Claiming a range neither releases nor reads a position. *)
Lemma released_claim g id n p :
  resvs g !! id = None → released (g_claim id n g) p ↔ released g p.
Proof.
  intros Hid. unfold released; simpl. rewrite map_Forall_insert by done. simpl. split.
  - intros (? & ? & ?). split; [lia|done].
  - intros (? & ?). split; [lia|]. split; [lia|done].
Qed.

Lemma unread_claim g id n p :
  resvs g !! id = None → unread (g_claim id n g) p ↔ unread g p.
Proof.
  intros Hid. unfold unread; simpl. rewrite map_Forall_insert by done. simpl.
  destruct (decide (claimed g ≤ p < claimed g + n)%nat).
  - split; [left; lia|]. intros _. right. tauto.
  - split; intros [?|Hn]; [left; lia| |left; lia|right; tauto].
    destruct (decide (claimed g ≤ p)%nat); [by left|right]. intros Hf. apply Hn. split; [lia|done].
Qed.

(** Nor does forgetting an iterator that holds nothing. *)
Lemma map_Forall_forget (P : nat → resv → Prop) g id rv :
  resvs g !! id = Some rv → P id rv →
  map_Forall P (delete id (resvs g)) ↔ map_Forall P (resvs g).
Proof.
  intros Hid Hp. rewrite <- (insert_delete_id (resvs g) id rv) at 2 by done.
  rewrite map_Forall_insert by apply lookup_delete_eq. tauto.
Qed.

Lemma released_forget g id rv p :
  resvs g !! id = Some rv → (r_stop rv ≤ r_first rv ≤ r_pos rv)%nat →
  released (g_forget id g) p ↔ released g p.
Proof.
  intros Hid Hrv. unfold released; simpl. by rewrite (map_Forall_forget _ g id rv) by (done || lia).
Qed.

Lemma unread_forget g id rv p :
  resvs g !! id = Some rv → (r_stop rv ≤ r_first rv ≤ r_pos rv)%nat →
  unread (g_forget id g) p ↔ unread g p.
Proof.
  intros Hid Hrv. unfold unread; simpl. by rewrite (map_Forall_forget _ g id rv) by (done || lia).
Qed.

(** In a completed block every position has been released and read. *)
Lemma completed_read g k i :
  (∀ id rv, resvs g !! id = Some rv → (r_first rv ≤ r_pos rv)%nat) →
  consumed_of g k = BL → (i < BL)%nat → ¬ unread g (k * BL + i).
Proof.
  intros Hord Hc Hi.
  assert (released g (k * BL + i)) as [Hcl Hrel].
  { destruct (decide (released g (k * BL + i))) as [|Hn]; [done|]. exfalso.
    pose proof (length_filter_lt (released g) (seq (k * BL) BL) (k * BL + i)%nat) as Hlt.
    rewrite length_seq in Hlt. unfold consumed_of in Hc.
    assert (BL < BL)%nat; [|lia]. rewrite <- Hc at 1. apply Hlt; [|done]. apply elem_of_seq. lia. }
  intros [?|Hn]; [lia|]. apply Hn. intros id rv Hid Hin. apply (Hrel id rv Hid).
  specialize (Hord id rv Hid). lia.
Qed.

(** ** Well-formed logical states *)

Record ghost_ok g : Prop := {
  go_resvs : resvs_ok g;
  go_claimed : (claimed g ≤ length (cells g))%nat;
  go_room : (length (cells g) < length (addrs g) * BL)%nat ∨ (addrs g = [] ∧ cells g = [])
}.

(** The contents of the positions an iterator has left. *)
Definition items_of g (rv : resv) : list (option T) :=
  take (r_stop rv - r_pos rv) (drop (r_pos rv) (cells g)).

Lemma items_of_cons g rv x :
  (r_pos rv < r_stop rv)%nat → cells g !! r_pos rv = Some x →
  items_of g rv = x :: items_of g (mkResv (r_first rv) (S (r_pos rv)) (r_stop rv)).
Proof.
  intros Hlt Hx. unfold items_of. simpl. rewrite (drop_S _ _ _ Hx).
  replace (r_stop rv - r_pos rv)%nat with (S (r_stop rv - S (r_pos rv))) by lia. done.
Qed.

Lemma items_of_nil g rv : (r_stop rv ≤ r_pos rv)%nat → items_of g rv = [].
Proof. intros. unfold items_of. by replace (r_stop rv - r_pos rv)%nat with 0%nat by lia. Qed.

Lemma block_exists g p : ghost_ok g → (p < length (cells g))%nat → (p / BL < length (addrs g))%nat.
Proof.
  intros Hok Hp. pose proof BL_pos. destruct (go_room _ Hok) as [?|[_ Hc]].
  - apply Nat.Div0.div_lt_upper_bound. lia.
  - rewrite Hc in Hp. simpl in Hp. lia.
Qed.

Lemma div_mod_BL p : p = (p / BL * BL + p mod BL)%nat ∧ (p mod BL < BL)%nat.
Proof.
  pose proof BL_pos. split; [|apply Nat.mod_upper_bound; lia].
  rewrite (Nat.div_mod_eq p BL) at 1. lia.
Qed.

Lemma div_BL k i : (i < BL)%nat → ((k * BL + i) / BL)%nat = k ∧ ((k * BL + i) mod BL)%nat = i.
Proof.
  intros Hi. split.
  - symmetry. apply (Nat.div_unique _ _ _ i); lia.
  - symmetry. apply (Nat.mod_unique _ _ k); lia.
Qed.

(** The reservation after some positions, and what it must satisfy. *)
Lemma ghost_ok_advance g id rv rv' :
  ghost_ok g → resvs g !! id = Some rv →
  r_stop rv' = r_stop rv → (r_pos rv ≤ r_pos rv' ≤ r_stop rv)%nat →
  (r_first rv ≤ r_first rv' ≤ r_pos rv')%nat →
  (r_first rv' / BL = r_pos rv' / BL)%nat → (r_pos rv' = r_stop rv' → r_first rv' = r_stop rv') →
  ghost_ok (g_resv id rv' g).
Proof.
  intros [Hok ? ?] Hid Es Ep Hf Hseg Hfl. split; [|done|done].
  destruct (resvs_wf_resv g id rv rv') as [Ho Hd]; [by apply resvs_ok_wf|done|done|done|lia|].
  split; [done| | |done]; simpl.
  - intros j x [[<- <-]|[_ Hj]]%lookup_insert_Some; [done|]. by apply (ro_flushed _ Hok j).
  - intros j x [[<- <-]|[_ Hj]]%lookup_insert_Some; [done|]. by apply (ro_segment _ Hok j).
Qed.


Lemma g_resv_twice g id rv rv' : g_resv id rv' (g_resv id rv g) = g_resv id rv' g.
Proof. unfold g_resv. simpl. by rewrite insert_insert_eq. Qed.


Lemma g_resv_same g id rv : resvs g !! id = Some rv → g_resv id rv g = g.
Proof. intros Hid. unfold g_resv. rewrite insert_id by done. by destruct g. Qed.


Lemma resv_cell g id rv :
  ghost_ok g → resvs g !! id = Some rv → (r_pos rv < r_stop rv)%nat →
  is_Some (cells g !! r_pos rv).
Proof.
  intros [Hok ? _] Hid Hlt. destruct (ro_order _ Hok _ _ Hid). apply lookup_lt_is_Some. lia.
Qed.


Lemma spec_next_omap (l l' : list (option T)) y :
  spec_next l = (y, l') → present l = match y with Some v => v :: present l' | None => [] end.
Proof.
  revert y l'. induction l as [|[v|] l IH]; intros y l'; simpl.
  - by intros [= <- <-].
  - by intros [= <- <-].
  - apply IH.
Qed.


Lemma items_of_claimed g rv :
  ghost_ok g → (∃ id, resvs g !! id = Some rv) →
  ∀ g', cells g `prefix_of` cells g' → items_of g' rv = items_of g rv.
Proof.
  intros Hg [id Hid] g' [xs Hxs]. destruct (ro_order _ (go_resvs _ Hg) _ _ Hid).
  pose proof (go_claimed _ Hg). unfold items_of. rewrite Hxs, drop_app_le by lia.
  apply take_app_le. rewrite length_drop. lia.
Qed.


Lemma live_unclaimed g p :
  ghost_ok g → (claimed g ≤ p ≤ length (cells g))%nat → addrs g ≠ [] → live g (p / BL).
Proof.
  intros Hg Hp Ha. destruct (div_mod_BL p) as [Ep Hi]. pose proof BL_pos.
  destruct (go_room _ Hg) as [Hroom|[? _]]; [|done].
  apply (live_position _ _ p); [|lia|apply unclaimed_unreleased; lia].
  apply Nat.Div0.div_lt_upper_bound. lia.
Qed.


Lemma addr_link_old l g k : (k < length (addrs g))%nat → addr (g_link l g) k = addr g k.
Proof. intros Hk. unfold addr. simpl. by rewrite lookup_app_l. Qed.


Lemma addr_link_new l g i :
  addr (g_link l g) (length (addrs g) + i) = default 0 (l !! i).
Proof. unfold addr. simpl. rewrite lookup_app_r by lia. do 2 f_equal. lia. Qed.


Lemma consumed_of_unclaimed g k : (claimed g ≤ k * BL)%nat → consumed_of g k = 0%nat.
Proof.
  intros Hc. unfold consumed_of.
  rewrite (filter_seq_range _ 0 0); [lia|]. intros p Hp. split; [intros [? _]|]; lia.
Qed.


Lemma ghost_ok_claimed g : ghost_ok g → (claimed g ≤ length (addrs g) * BL)%nat.
Proof.
  intros Hg. pose proof (go_claimed _ Hg).
  destruct (go_room _ Hg) as [?|[_ Hc]]; [lia|rewrite Hc in *; simpl in *; lia].
Qed.

Lemma live_link l g k :
  (claimed g ≤ length (addrs g) * BL)%nat →
  live (g_link l g) k ↔
    live g k ∨ ∃ i b, k = (length (addrs g) + i)%nat ∧ l !! i = Some b.
Proof.
  intros Hg. pose proof BL_pos. unfold live. simpl.
  change (consumed_of (g_link l g) k) with (consumed_of g k). rewrite length_app.
  destruct (decide (k < length (addrs g))%nat) as [Hk|Hk].
  - split.
    + intros [_ ?]. by left.
    + intros [[_ ?]|(i & b & -> & _)]; [split; [lia|done]|lia].
  - rewrite consumed_of_unclaimed by nia. split.
    + intros [? _]. right. destruct (lookup_lt_is_Some_2 l (k - length (addrs g))) as [b Hb]; [lia|].
      exists (k - length (addrs g))%nat, b. split; [lia|done].
    + intros [[? _]|(i & b & -> & Hb%lookup_lt_Some)]; [lia|]. split; lia.
Qed.

Lemma live_last g : ghost_ok g → addrs g ≠ [] → live g (length (addrs g) - 1).
Proof.
  intros Hg Ha. pose proof BL_pos. pose proof (go_claimed _ Hg).
  destruct (go_room _ Hg) as [?|[? _]]; [|done].
  assert (length (addrs g) ≠ 0%nat) by (by destruct (addrs g)).
  apply (live_position _ _ (length (addrs g) * BL - 1)); [lia|nia|].
  apply unclaimed_unreleased. lia.
Qed.


Lemma ghost_ok_link g l : ghost_ok g → (addrs g = [] → l ≠ []) → ghost_ok (g_link l g).
Proof.
  intros [Hr ? Hroom] Hl. split; [by destruct Hr|done|]. simpl. left. rewrite length_app.
  destruct Hroom as [?|[Ha Hc]]; [nia|]. rewrite Ha, Hc. simpl.
  pose proof BL_pos. destruct l; [by destruct Hl|]. simpl. lia.
Qed.


(** ** Heads *)

(** The head at position [p]. *)
Definition head_at g (p : nat) (h : bool) : Head := mkHead (addr g (p / BL)) (Z.of_nat (p mod BL)) h.

(** A head inside block [k], as the head of a position. *)
Lemma head_at_block g k i h :
  (i < BL)%nat → mkHead (addr g k) (Z.of_nat i) h = head_at g (k * BL + i) h.
Proof. intros Hi. unfold head_at. by destruct (div_BL k i Hi) as [-> ->]. Qed.

(** ** Freeing from the front *)

(** The state after the blocks before [k] have been freed. *)
Definition g_freed (C : nat) g : ghost T := mkGhost (addrs g) (cells g) C ∅.

Lemma released_freed C g p : released (g_freed C g) p ↔ (p < C)%nat.
Proof. unfold released. simpl. split; [by intros [? _]|]. intros ?. split; [done|]. apply map_Forall_empty. Qed.

Lemma unread_freed C g p : unread (g_freed C g) p ↔ (C ≤ p)%nat.
Proof.
  unfold unread. simpl. split; [|by left]. intros [?|Hn]; [done|]. destruct Hn. apply map_Forall_empty.
Qed.

Lemma consumed_freed g k i :
  (i ≤ BL)%nat → consumed_of (g_freed (k * BL + i) g) k = i.
Proof.
  intros Hi. unfold consumed_of.
  rewrite (filter_seq_range _ 0 (k * BL + i)); [lia|].
  intros p Hp. rewrite released_freed. lia.
Qed.

Lemma live_freed g k i j :
  (i < BL)%nat → (k ≤ j < length (addrs g))%nat → live (g_freed (k * BL + i) g) j.
Proof.
  intros Hi Hj. apply (live_position _ _ (j * BL + (BL - 1))%nat); [simpl; lia|lia|].
  rewrite released_freed. destruct (decide (k = j)) as [->|]; [lia|]. nia.
Qed.

(** ** Blocks in memory *)

(** [fixed] holds exactly the live blocks, each with the content [shape]
    prescribes. *)
Section epoch_map.
Context {B : Type}.
Implicit Types (fixed : gmap Z B) (shape : nat → B → Prop).

Record epoch_map shape g fixed : Prop := {
  em_inj : ∀ k k', live g k → live g k' → addr g k = addr g k' → k = k';
  em_block : ∀ k, live g k → ∃ b, fixed !! addr g k = Some b ∧ shape k b;
  em_dom : ∀ b, is_Some (fixed !! b) → ∃ k, live g k ∧ addr g k = b
}.

(** [g'] differs from [g] in the [k]-th block only. *)
Record epoch_frame shape shape' g g' (k : nat) : Prop := {
  ef_addrs : addrs g' = addrs g;
  ef_live : ∀ j, j ≠ k → live g' j ↔ live g j;
  ef_shape : ∀ j b, j ≠ k → shape j b → shape' j b
}.

Lemma epoch_map_update shape shape' g g' fixed k b :
  epoch_map shape g fixed → epoch_frame shape shape' g g' k → live g k → live g' k → shape' k b →
  epoch_map shape' g' (<[addr g k := b]> fixed).
Proof.
  intros Hq [Ea El Es] Hk Hk' Hb.
  assert (∀ j, addr g' j = addr g j) as Ha by (intros j; unfold addr; by rewrite Ea).
  assert (∀ j, live g' j ↔ live g j) as Hl.
  { intros j. destruct (decide (j = k)) as [->|Hj]; [tauto|by apply El]. }
  split.
  - intros j j'. rewrite !Hl, !Ha. apply (em_inj _ _ _ Hq).
  - intros j Hj. rewrite Ha. apply Hl in Hj. destruct (decide (j = k)) as [->|Hne].
    + rewrite lookup_insert_eq. eauto.
    + rewrite lookup_insert_ne by (intros E; apply Hne, (em_inj _ _ _ Hq); done).
      destruct (em_block _ _ _ Hq j Hj) as (b' & Hb' & ?). exists b'. auto.
  - intros b' [x [[<- _]|[_ Hx]]%lookup_insert_Some].
    + exists k. by rewrite Ha.
    + destruct (em_dom _ _ _ Hq b' ltac:(eauto)) as (j & Hj & <-). exists j. by rewrite Hl, Ha.
Qed.

Lemma epoch_map_remove shape shape' g g' fixed k :
  epoch_map shape g fixed → epoch_frame shape shape' g g' k → live g k → ¬ live g' k →
  epoch_map shape' g' (delete (addr g k) fixed).
Proof.
  intros Hq [Ea El Es] Hk Hk'.
  assert (∀ j, addr g' j = addr g j) as Ha by (intros j; unfold addr; by rewrite Ea).
  assert (∀ j, live g' j ↔ live g j ∧ j ≠ k) as Hl.
  { intros j. destruct (decide (j = k)) as [->|Hj]; [tauto|]. rewrite El by done. tauto. }
  split.
  - intros j j'. rewrite !Hl, !Ha. intros [? _] [? _]. by apply (em_inj _ _ _ Hq).
  - intros j [Hj Hne]%Hl. rewrite Ha.
    rewrite lookup_delete_ne by (intros E; apply Hne, (em_inj _ _ _ Hq); done).
    destruct (em_block _ _ _ Hq j Hj) as (b' & Hb' & ?). exists b'. auto.
  - intros b [x [Hne Hx]%lookup_delete_Some].
    destruct (em_dom _ _ _ Hq b ltac:(eauto)) as (j & Hj & <-). exists j. rewrite Hl, Ha.
    split; [|done]. split; [done|]. intros ->. done.
Qed.

(** Transitions that leave every block as it is. *)
Lemma epoch_map_same shape shape' g g' fixed :
  epoch_map shape g fixed → addrs g' = addrs g → (∀ j, live g' j ↔ live g j) →
  (∀ j b, shape j b → shape' j b) → epoch_map shape' g' fixed.
Proof.
  intros Hq Ha Hl Hs. split; unfold addr; rewrite ?Ha.
  - intros j j'. rewrite !Hl. apply (em_inj _ _ _ Hq).
  - intros j. rewrite Hl. intros (b & Hb & ?)%(em_block _ _ _ Hq). exists b. auto.
  - intros b Hb. destruct (em_dom _ _ _ Hq b Hb) as (j & Hj & <-). exists j. by rewrite Hl.
Qed.

(** Blocks linked behind the last one. *)
Lemma epoch_map_link shape shape' g fixed fixed' l :
  epoch_map shape g fixed → (claimed g ≤ length (addrs g) * BL)%nat → NoDup l →
  (∀ b, b ∈ l → fixed !! b = None) →
  (∀ i b, l !! i = Some b → ∃ x, fixed' !! b = Some x ∧ shape' (length (addrs g) + i)%nat x) →
  (∀ k, live g k → ∃ x, fixed' !! addr g k = Some x ∧ shape' k x) →
  (∀ b, is_Some (fixed' !! b) → b ∈ l ∨ is_Some (fixed !! b)) →
  epoch_map shape' (g_link l g) fixed'.
Proof.
  intros Hq Hg Hnd Hdis Hnew Hold Hdom.
  assert (∀ k, live g k → addr (g_link l g) k = addr g k ∧ addr g k ∉ l) as Haddr.
  { intros k Hk. split; [apply addr_link_old, Hk|]. intros Hin.
    destruct (em_block _ _ _ Hq k Hk) as (x & Hx & _). rewrite Hdis in Hx; done. }
  assert (∀ i b, l !! i = Some b → addr (g_link l g) (length (addrs g) + i) = b) as Hnewaddr.
  { intros i b Hi. by rewrite addr_link_new, Hi. }
  split.
  - intros k k' Hk Hk'. apply live_link in Hk, Hk'; [|done..].
    destruct Hk as [Hk|(i & b & -> & Hi)], Hk' as [Hk'|(i' & b' & -> & Hi')].
    + destruct (Haddr k Hk) as [-> _], (Haddr k' Hk') as [-> _]. by apply (em_inj _ _ _ Hq).
    + destruct (Haddr k Hk) as [-> Hn]. rewrite (Hnewaddr i' b') by done. intros E.
      rewrite E in Hn. destruct Hn. by eapply list_elem_of_lookup_2.
    + destruct (Haddr k' Hk') as [-> Hn]. rewrite (Hnewaddr i b) by done. intros E.
      rewrite <- E in Hn. destruct Hn. by eapply list_elem_of_lookup_2.
    + rewrite (Hnewaddr i b), (Hnewaddr i' b') by done. intros ->. f_equal. by eapply NoDup_lookup.
  - intros k Hk. apply live_link in Hk as [Hk|(i & b & -> & Hi)]; [| |done].
    + destruct (Haddr k Hk) as [-> _]. by apply Hold.
    + rewrite (Hnewaddr i b) by done. by apply Hnew.
  - intros b [Hb|Hb]%Hdom.
    + apply list_elem_of_lookup in Hb as [i Hi]. exists (length (addrs g) + i)%nat.
      split; [apply live_link; [done|right; eauto]|by apply Hnewaddr].
    + destruct (em_dom _ _ _ Hq b Hb) as (k & Hk & <-). exists k.
      split; [apply live_link; [done|by left]|by apply Haddr].
Qed.

(** The logical state of an empty, uninstalled queue. *)
Definition ghost_new : ghost T := mkGhost [] [] 0 ∅.

Lemma epoch_map_new shape : epoch_map shape ghost_new ∅.
Proof.
  split; [by intros k k' [? _]; simpl in *; lia|by intros k [? _]; simpl in *; lia|by intros b [x Hx]].
Qed.

End epoch_map.

Lemma ghost_ok_new : ghost_ok ghost_new.
Proof. split; simpl; [|lia|by right]. split; simpl; intros *; by rewrite ?lookup_empty. Qed.

End epochs.
