(* ===== verification/MpmcBlock.v ===== *)
(** * Blocks of the MPMC queue (src/src/block.rs, src/src/slot.rs)

    The shared memory of a [UBQ<T>], the accesses its code performs on it, and
    the operations on slots, blocks, block runs and block chains. *)

From S2P Require Import Prelude Prog Layout Head Geometry.

(** ** Data *)

Definition ZERO : Z := 0.
Definition WRITTEN : Z := 1.
Definition SKIP : Z := 2.

(** [value] is [None] while the storage holds no owned value: before it is
    written and after it has been moved out or dropped. *)
Record Slot (T : Type) := mkSlot { state : Z; value : option T }.
Arguments mkSlot {T} _ _.
Arguments state {T} _.
Arguments value {T} _.

Definition Slot_new {T} : Slot T := mkSlot ZERO None.

(** Storage that has not been initialized. *)
Definition Slot_uninit {T} : Slot T := mkSlot (-1) None.

(** A block run is named by the pointer to its descriptor. *)
Record BlockRun := mkBlockRun { base : Z; run_layout : Layout; remaining : Z }.

Record Block (T : Type) := mkBlock {
  next : Z;
  run_ptr : Z;
  consumed : Z;
  slots : list (Slot T)
}.
Arguments mkBlock {T} _ _ _ _.
Arguments next {T} _.
Arguments run_ptr {T} _.
Arguments consumed {T} _.
Arguments slots {T} _.

(** The memory: the three words of the queue, the initialized blocks, the run
    descriptors, the live allocations, and the values destroyed so far. *)
Record mem (T : Type) := mkMem {
  phead : Z;
  chead : Z;
  pool : Z;
  blocks : gmap Z (Block T);
  runs : gmap Z BlockRun;
  allocs : gmap Z Layout;
  dropped : list T
}.
Arguments mkMem {T} _ _ _ _ _ _ _.
Arguments phead {T} _.
Arguments chead {T} _.
Arguments pool {T} _.
Arguments blocks {T} _.
Arguments runs {T} _.
Arguments allocs {T} _.
Arguments dropped {T} _.

Definition set_phead {T} v (s : mem T) :=
  mkMem v (chead s) (pool s) (blocks s) (runs s) (allocs s) (dropped s).
Definition set_chead {T} v (s : mem T) :=
  mkMem (phead s) v (pool s) (blocks s) (runs s) (allocs s) (dropped s).
Definition set_pool {T} v (s : mem T) :=
  mkMem (phead s) (chead s) v (blocks s) (runs s) (allocs s) (dropped s).
Definition set_blocks {T} v (s : mem T) :=
  mkMem (phead s) (chead s) (pool s) v (runs s) (allocs s) (dropped s).
Definition set_runs {T} v (s : mem T) :=
  mkMem (phead s) (chead s) (pool s) (blocks s) v (allocs s) (dropped s).
Definition set_allocs {T} v (s : mem T) :=
  mkMem (phead s) (chead s) (pool s) (blocks s) (runs s) v (dropped s).
Definition set_dropped {T} v (s : mem T) :=
  mkMem (phead s) (chead s) (pool s) (blocks s) (runs s) (allocs s) v.

Definition set_next {T} v (b : Block T) := mkBlock v (run_ptr b) (consumed b) (slots b).
Definition set_consumed {T} v (b : Block T) := mkBlock (next b) (run_ptr b) v (slots b).
Definition set_slots {T} v (b : Block T) : Block T := mkBlock (next b) (run_ptr b) (consumed b) v.

(** ** Accesses *)

(** The words that are read and written atomically. *)
Inductive loc :=
| Phead
| Chead
| Pool
| NextOf (b : Z)
| ConsumedOf (b : Z)
| StateOf (b i : Z)
| RemainingOf (r : Z).

Inductive ubqE (T : Type) : Type → Type :=
| Load (l : loc) : ubqE T Z
| Store (l : loc) (v : Z) : ubqE T unit
| Cas (weak : bool) (l : loc) (old new : Z) : ubqE T (Z + Z)
| Swap (l : loc) (v : Z) : ubqE T Z
| FetchAdd (l : loc) (d : Z) : ubqE T Z
| WriteValue (b i : Z) (v : T) : ubqE T unit
| ReadValue (b i : Z) : ubqE T T
| DropValue (b i : Z) : ubqE T unit
| DropOwned (v : T) : ubqE T unit
| RunOf (b : Z) : ubqE T Z
| Alloc (l : Layout) : ubqE T Z
| AllocError : ubqE T Empty_set
| Dealloc (p : Z) (l : Layout) : ubqE T unit
| InitBlock (b nx r : Z) : ubqE T unit
| InitSlot (b i : Z) : ubqE T unit
| DropBlock (b : Z) : ubqE T unit
| BoxRun (p : Z) (l : Layout) (n : Z) : ubqE T Z
| RunParts (r : Z) : ubqE T (Z * Layout)
| UnboxRun (r : Z) : ubqE T unit.

Arguments Load {T} l.
Arguments Store {T} l v.
Arguments Cas {T} weak l old new.
Arguments Swap {T} l v.
Arguments FetchAdd {T} l d.
Arguments WriteValue {T} b i v.
Arguments ReadValue {T} b i.
Arguments DropValue {T} b i.
Arguments DropOwned {T} v.
Arguments RunOf {T} b.
Arguments Alloc {T} l.
Arguments AllocError {T}.
Arguments Dealloc {T} p l.
Arguments InitBlock {T} b nx r.
Arguments InitSlot {T} b i.
Arguments DropBlock {T} b.
Arguments BoxRun {T} p l n.
Arguments RunParts {T} r.
Arguments UnboxRun {T} r.

Definition slot_at {T} (blk : Block T) (i : Z) : option (Slot T) :=
  if 0 <=? i then slots blk !! Z.to_nat i else None.

Definition put_slot {T} (blk : Block T) (i : Z) (x : Slot T) : Block T :=
  set_slots (<[Z.to_nat i := x]> (slots blk)) blk.

Definition rd {T} (l : loc) (s : mem T) : option Z :=
  match l with
  | Phead => Some (phead s)
  | Chead => Some (chead s)
  | Pool => Some (pool s)
  | NextOf b => next <$> blocks s !! b
  | ConsumedOf b => consumed <$> blocks s !! b
  | StateOf b i => blk ← blocks s !! b; sl ← slot_at blk i;
                   if state sl <? 0 then None else Some (state sl)
  | RemainingOf r => remaining <$> runs s !! r
  end.

Definition wr {T} (l : loc) (v : Z) (s : mem T) : option (mem T) :=
  match l with
  | Phead => Some (set_phead v s)
  | Chead => Some (set_chead v s)
  | Pool => Some (set_pool v s)
  | NextOf b =>
      blk ← blocks s !! b; Some (set_blocks (<[b := set_next v blk]> (blocks s)) s)
  | ConsumedOf b =>
      blk ← blocks s !! b; Some (set_blocks (<[b := set_consumed v blk]> (blocks s)) s)
  | StateOf b i =>
      blk ← blocks s !! b; sl ← slot_at blk i;
      Some (set_blocks (<[b := put_slot blk i (mkSlot v (value sl))]> (blocks s)) s)
  | RemainingOf r =>
      rn ← runs s !! r;
      Some (set_runs (<[r := mkBlockRun (base rn) (run_layout rn) v]> (runs s)) s)
  end.

Definition reply_of {St X} (o : option (X * St)) : reply St X :=
  match o with Some (x, s) => Next x s | None => Fault end.

(** The storage [[b, b + n)] lies inside one live allocation. *)
Definition in_allocation (live : gmap Z Layout) (b n : Z) : bool :=
  existsb (λ '(p, l), (p <=? b) && (b + n <=? p + lsize l)) (map_to_list live).

(** Some initialized block lies inside [[p, p + n)]. *)
Definition holds_block {T} (bs : gmap Z (Block T)) (p n : Z) : bool :=
  existsb (λ '(b, _), (p <=? b) && (b <? p + n)) (map_to_list bs).

Section handler.
Context {T : Type} `{BlockGeometry} `{Allocator}.

(** A dangling pointer, an uninitialized read, a double move or a wrong
    deallocation is a [Fault]. *)
#[export] Instance ubq_handler : Handler (ubqE T) (mem T) := λ X e,
  match e in ubqE _ X return mem T → reply (mem T) X with
  | Load l => λ s, reply_of (v ← rd l s; Some (v, s))
  | Store l v => λ s, reply_of (s' ← wr l v s; Some (tt, s'))
  | Cas _ l old new => λ s, reply_of (
      v ← rd l s;
      if v =? old then s' ← wr l new s; Some (inl v, s') else Some (inr v, s))
  | Swap l new => λ s, reply_of (v ← rd l s; s' ← wr l new s; Some (v, s'))
  | FetchAdd l d => λ s, reply_of (v ← rd l s; s' ← wr l (wrapping (v + d)) s; Some (v, s'))
  | WriteValue b i v => λ s, reply_of (
      blk ← blocks s !! b; sl ← slot_at blk i;
      Some (tt, set_blocks (<[b := put_slot blk i (mkSlot (state sl) (Some v))]> (blocks s)) s))
  | ReadValue b i => λ s, reply_of (
      blk ← blocks s !! b; sl ← slot_at blk i; v ← value sl;
      Some (v, set_blocks (<[b := put_slot blk i (mkSlot (state sl) None)]> (blocks s)) s))
  | DropValue b i => λ s, reply_of (
      blk ← blocks s !! b; sl ← slot_at blk i; v ← value sl;
      Some (tt, set_dropped (dropped s ++ [v])
                 (set_blocks (<[b := put_slot blk i (mkSlot (state sl) None)]> (blocks s)) s)))
  | DropOwned v => λ s, Next tt (set_dropped (dropped s ++ [v]) s)
  | RunOf b => λ s, reply_of (blk ← blocks s !! b; Some (run_ptr blk, s))
  | Alloc l => λ s,
      let p := galloc (allocs s) l in
      if p =? 0 then Next 0 s else Next p (set_allocs (<[p := l]> (allocs s)) s)
  | AllocError => λ s, Exit
  | Dealloc p l => λ s, reply_of (
      l' ← allocs s !! p;
      if bool_decide (l' = l) && negb (holds_block (blocks s) p (lsize l))
      then Some (tt, set_allocs (delete p (allocs s)) s) else None)
  | InitBlock b nx r => λ s, reply_of (
      if in_allocation (allocs s) b page && negb (b =? 0)
      then Some (tt, set_blocks
             (<[b := mkBlock nx r 0 (replicate (Z.to_nat block_length) Slot_uninit)]> (blocks s)) s)
      else None)
  | InitSlot b i => λ s, reply_of (
      blk ← blocks s !! b; _ ← slot_at blk i;
      Some (tt, set_blocks (<[b := put_slot blk i Slot_new]> (blocks s)) s))
  | DropBlock b => λ s, reply_of (
      _ ← blocks s !! b; Some (tt, set_blocks (delete b (blocks s)) s))
  | BoxRun p l n => λ s, Next p (set_runs (<[p := mkBlockRun p l n]> (runs s)) s)
  | RunParts r => λ s, reply_of (rn ← runs s !! r; Some ((base rn, run_layout rn), s))
  | UnboxRun r => λ s, reply_of (_ ← runs s !! r; Some (tt, set_runs (delete r (runs s)) s))
  end.

(** A weak compare-exchange may fail on a matching word. *)
#[export] Instance ubq_spurious : Spurious (ubqE T) (mem T) := λ X e,
  match e in ubqE _ X return mem T → option X with
  | Cas true l _ _ => λ s, inr <$> rd l s
  | _ => λ _, None
  end.

End handler.

(** ** Slots (src/src/slot.rs) *)

(** [BackoffPolicy::snooze] and [spin] only delay the caller. *)
Definition snooze {E} : prog E unit := Ret tt.
Definition spin {E} : prog E unit := Ret tt.

Section operations.
Context {T : Type} `{BlockGeometry} `{Profile}.

Definition Slot_reset (b i : Z) : prog (ubqE T) unit :=
  act (Store (StateOf b i) ZERO).

Definition Slot_read (fuel : nat) (b i : Z) : prog (ubqE T) (option T) :=
  loop fuel (λ _ : unit,
    st ← act (Load (StateOf b i));
    if st =? WRITTEN then v ← act (ReadValue b i); Ret (inr (Some v))
    else if st =? SKIP then Ret (inr None)
    else if st =? ZERO then snooze;; Ret (inl tt)
    else Panic) tt.

Definition Slot_skip (b i : Z) : prog (ubqE T) unit :=
  act (Store (StateOf b i) SKIP).

Definition Slot_write (b i : Z) (v : T) : prog (ubqE T) unit :=
  act (WriteValue b i v);; act (Store (StateOf b i) WRITTEN).

Definition Slot_drop_inner (b i : Z) : prog (ubqE T) unit :=
  st ← act (Load (StateOf b i));
  if st =? WRITTEN then act (DropValue b i) else Ret tt.

(** ** Blocks and runs (src/src/block.rs) *)

Definition page_layout : Layout := mkLayout page page.

Definition handle_alloc_error {A} : prog (ubqE T) A :=
  x ← act AllocError; match x : Empty_set with end.

Definition BlockRun_release (r : Z) : prog (ubqE T) unit :=
  previous ← act (FetchAdd (RemainingOf r) (-1));
  debug_assert (0 <? previous);;
  if previous =? 1 then
    '(base, layout) ← act (RunParts r);
    act (UnboxRun r);;
    act (Dealloc base layout)
  else Ret tt.

Definition allocate : prog (ubqE T) Z :=
  allocation ← act (Alloc page_layout);
  if allocation =? 0 then handle_alloc_error else
  act (InitBlock allocation 0 0);;
  Ret allocation.

Definition deallocate (this : Z) : prog (ubqE T) unit :=
  run ← act (RunOf this);
  act (DropBlock this);;
  if run =? 0 then act (Dealloc this page_layout)
  else BlockRun_release run.

Definition wait_next (fuel : nat) (b : Z) : prog (ubqE T) Z :=
  loop fuel (λ _ : unit,
    nx ← act (Load (NextOf b));
    if negb (nx =? 0) then Ret (inr nx) else snooze;; Ret (inl tt)) tt.

Definition initialize_slots (b slots_len : Z) : prog (ubqE T) unit :=
  for_range (Z.to_nat slots_len) 0 (λ i, act (InitSlot b i)).

Definition MpmcBlock_new : prog (ubqE T) Z :=
  b ← allocate;
  initialize_slots b block_length;;
  Ret b.

Definition new_run (block_count : Z) : prog (ubqE T) (Z * Z) :=
  always_assert (1 <? block_count);;
  run_size ← expect (checked_mul (lsize page_layout) block_count);
  run_layout ← expect (Layout_from_size_align run_size (lalign page_layout));
  base ← act (Alloc run_layout);
  if base =? 0 then handle_alloc_error else
  run ← act (BoxRun base run_layout block_count);
  for_range (Z.to_nat block_count) 0 (λ index,
    let offset := index * lsize page_layout in
    let b := base + offset in
    let nx := if index + 1 =? block_count then 0 else base + (offset + lsize page_layout) in
    act (InitBlock b nx run);;
    initialize_slots b block_length);;
  Ret (base, base + (block_count - 1) * lsize page_layout).

Definition free (this : Z) : prog (ubqE T) unit :=
  consumed ← act (Load (ConsumedOf this));
  debug_assert (consumed <=? block_length);;
  for_range (Z.to_nat (block_length - consumed)) consumed (λ i, Slot_drop_inner this i);;
  deallocate this.

Definition reset (this : Z) : prog (ubqE T) unit :=
  for_range (Z.to_nat block_length) 0 (λ i, Slot_reset this i);;
  act (Store (NextOf this) 0);;
  act (Store (ConsumedOf this) 0).

(** [true] upon full completion of the block. *)
Definition consume (b quantity : Z) : prog (ubqE T) bool :=
  previous ← act (FetchAdd (ConsumedOf b) quantity);
  total ← uadd previous quantity;
  Ret (total =? block_length).

(** ** Block chains *)

Record BlockChain := mkChain { chain_root : Z; chain_tail : Z; chain_size : Z }.

Definition BlockChain_zero : BlockChain := mkChain 0 0 0.

Definition BlockChain_new_with (inner : Z) : BlockChain :=
  mkChain inner inner block_length.

Definition BlockChain_new (sz : Z) : prog (ubqE T) BlockChain :=
  if sz =? 0 then Ret BlockChain_zero else
  let block_count := div_ceil sz block_length in
  sz ← expect (checked_mul block_count block_length);
  if block_count =? 1 then
    b ← MpmcBlock_new; Ret (BlockChain_new_with b)
  else
    '(root, tail) ← new_run block_count;
    Ret (mkChain root tail sz).

(** The receiver's chain afterwards; [other] is left empty. *)
Definition give (self other : BlockChain) : prog (ubqE T) BlockChain :=
  if chain_root other =? 0 then
    debug_assert (chain_tail other =? 0);;
    debug_assert (chain_size other =? 0);;
    Ret self
  else
    debug_assert (negb (chain_tail other =? 0));;
    debug_assert (negb (chain_size other =? 0));;
    new_size ← expect (checked_add (chain_size self) (chain_size other));
    (if chain_root self =? 0 then
       debug_assert (chain_tail self =? 0);;
       debug_assert (chain_size self =? 0);;
       Ret (mkChain (chain_root other) (chain_tail other) new_size)
     else
       debug_assert (negb (chain_tail self =? 0));;
       act (Store (NextOf (chain_tail self)) (chain_root other));;
       Ret (mkChain (chain_root self) (chain_tail other) new_size)).

Definition grow_to_fit_with (self : BlockChain) (sz : Z) : prog (ubqE T) BlockChain :=
  self ← (if chain_size self <? sz then
            new ← act (Swap Pool 0);
            if negb (new =? 0) then give self (BlockChain_new_with new) else Ret self
          else Ret self);
  if chain_size self <? sz then
    other ← BlockChain_new (sz - chain_size self);
    give self other
  else Ret self.

(** [take()] leaves the empty chain and returns the parts. *)
Definition BlockChain_take (self : BlockChain) : BlockChain * (Z * Z * Z) :=
  (BlockChain_zero, (chain_root self, chain_tail self, chain_size self)).

Definition give_back (self : BlockChain) (r t sz : Z) : prog (ubqE T) BlockChain :=
  debug_assert (chain_root self =? 0);;
  debug_assert (chain_tail self =? 0);;
  debug_assert (chain_size self =? 0);;
  debug_assert (Bool.eqb (r =? 0) (t =? 0));;
  debug_assert (Bool.eqb (r =? 0) (sz =? 0));;
  Ret (mkChain r t sz).

(** [while !block.is_null() { next; free; block = next }] *)
Definition free_chain (fuel : nat) (b : Z) : prog (ubqE T) unit :=
  loop fuel (λ b,
    if b =? 0 then Ret (inr tt) else
    nx ← act (Load (NextOf b));
    free b;;
    Ret (inl nx)) b.

(** [impl Drop for BlockChain] *)
Definition BlockChain_drop (fuel : nat) (self : BlockChain) : prog (ubqE T) unit :=
  free_chain fuel (chain_root self).

End operations.
