(* ===== verification/Instances.v ===== *)
(** * Concrete instances

    A bump allocator that satisfies the allocator's contract, and small block
    geometries, at which the witnesses of the theorems are evaluated. *)

From S2P Require Import Prelude Prog Layout Head Geometry MpmcBlock.

(** First address above every live allocation (and above the first page). *)
Definition live_end (live : gmap Z Layout) : Z :=
  foldr (λ '(p, l) e, Z.max e (p + lsize l)) 1 (map_to_list live).

Definition bump_galloc (live : gmap Z Layout) (l : Layout) : Z :=
  let p := round_up (live_end live) (lalign l) in
  if (0 <? lalign l) && (p + lsize l <=? 2 ^ 64) then p else 0.

Lemma live_end_above live p l : live !! p = Some l → p + lsize l ≤ live_end live.
Proof.
  intros Hp%elem_of_map_to_list. unfold live_end.
  induction (map_to_list live) as [|[q k] m IH]; [by apply elem_of_nil in Hp|].
  simpl. apply elem_of_cons in Hp as [[= -> ->]|Hp]; [lia|]. specialize (IH Hp). lia.
Qed.

Lemma live_end_pos live : 1 ≤ live_end live.
Proof. unfold live_end. induction (map_to_list live) as [|[q k] m IH]; simpl; lia. Qed.

#[export] Program Instance bump_allocator : Allocator := {| galloc := bump_galloc |}.
Next Obligation.
  intros live l p <-. unfold bump_galloc.
  destruct (Z.ltb_spec 0 (lalign l)) as [Ha|]; [|done].
  destruct (Z.leb_spec (round_up (live_end live) (lalign l) + lsize l) (2 ^ 64)); [|done].
  simpl. intros _. destruct (round_up_spec (live_end live) (lalign l) Ha) as [??].
  pose proof (live_end_pos live). repeat split; [lia|done|done|].
  intros q k Hq%live_end_above. lia.
Qed.

(** Blocks of two slots in pages of eight bytes, with a hint bit. *)
#[export] Program Instance tiny_geometry : BlockGeometry := {|
  page := 8;
  block_length := 2;
  codec := mkHeadCodec 2 (usize_not 7) 3 4
|}.
Next Obligation. split; [reflexivity|vm_compute; discriminate|lia]. Qed.
Next Obligation. reflexivity. Qed.

(** Blocks of seven slots in pages of eight bytes: the index takes every
    alignment bit and the hint disappears. *)
Program Definition full_geometry : BlockGeometry := {|
  page := 8;
  block_length := 7;
  codec := mkHeadCodec 7 (usize_not 7) 7 0
|}.
Next Obligation. split; [reflexivity|vm_compute; discriminate|lia]. Qed.
Next Obligation. reflexivity. Qed.

Definition release_build : Profile := false.
Definition debug_build : Profile := true.

(** Addresses from one upwards. *)
#[export] Program Instance bump_boxes : BoxAllocator := {|
  box_at d := 1 + foldr Z.max 0 (elements d)
|}.
Next Obligation.
  intros d. assert (∀ l x, x ∈ l → x ≤ foldr Z.max 0 l) as Hle.
  { induction l as [|y l IH]; intros x Hx; [by apply elem_of_nil in Hx|].
    apply elem_of_cons in Hx as [->|Hx]; simpl; [lia|]. specialize (IH x Hx). lia. }
  assert (∀ l, 0 ≤ foldr Z.max 0 l) as H0l by (induction l; simpl; lia).
  split; [|pose proof (H0l (elements d)); lia].
  intros Hin. apply elem_of_elements in Hin. specialize (Hle _ _ Hin). lia.
Qed.
