(* ===== verification/LayoutCache.v ===== *)
(** * The block layout cache

    [Block::layout] of src/src/block.rs: the geometry of a block type is computed
    once and published in a lock-free table of 64 buckets, each an immutable,
    append-at-the-head list of entries keyed by slot stride and slots offset.
    Threads race on the buckets; every access is one step of an interleaving.
    The theorems hold for any number of threads and any schedule. *)

From S2P Require Import Prelude Prog Conc Layout Head Geometry MpmcBlock Instances.

(** ** Entries, memory, accesses *)

Definition BLOCK_LAYOUT_CACHE_BUCKETS : Z := 64.

Record CachedBlockLayout := mkCached {
  e_offset : Z;
  e_stride : Z;
  e_layout : BlockLayout;
  e_next : Z
}.

(** The static [BLOCK_LAYOUT_CACHE] and the boxed entries. *)
Record cmem := mkCmem {
  buckets : list Z;
  boxes : gmap Z CachedBlockLayout
}.

Definition empty_cache : cmem := mkCmem (replicate (Z.to_nat BLOCK_LAYOUT_CACHE_BUCKETS) 0) ∅.

Inductive cacheE : Type → Type :=
| BLoad (b : Z) : cacheE Z
| BCas (b old new : Z) : cacheE (Z + Z)
| EGet (p : Z) : cacheE CachedBlockLayout
| ENew (e : CachedBlockLayout) : cacheE Z
| ESetNext (p v : Z) : cacheE unit
| EDrop (p : Z) : cacheE unit.

Section handler.
Context `{BoxAllocator}.

Definition creply {X} (o : option (X * cmem)) : reply cmem X :=
  match o with Some (x, s) => Next x s | None => Fault end.

#[export] Instance cache_handler : Handler cacheE cmem := λ X e s,
  match e in cacheE X return reply cmem X with
  | BLoad b => creply (w ← buckets s !! Z.to_nat b; Some (w, s))
  | BCas b old new => creply (
      w ← buckets s !! Z.to_nat b;
      if w =? old then Some (inl w, mkCmem (<[Z.to_nat b := new]> (buckets s)) (boxes s))
      else Some (inr w, s))
  | EGet p => creply (e ← boxes s !! p; Some (e, s))
  | ENew e =>
      let p := box_at (dom (boxes s)) in
      Next p (mkCmem (buckets s) (<[p := e]> (boxes s)))
  | ESetNext p v => creply (
      e ← boxes s !! p;
      Some (tt, mkCmem (buckets s)
              (<[p := mkCached (e_offset e) (e_stride e) (e_layout e) v]> (boxes s))))
  | EDrop p => creply (
      _ ← boxes s !! p; Some (tt, mkCmem (buckets s) (delete p (boxes s))))
  end.

(** The exchange is strong: it does not fail when the word matches. *)
#[export] Instance cache_spurious : Spurious cacheE cmem := λ X e s, None.

End handler.

(** ** [Block::layout] *)

Definition layout_bucket (slots_offset stride : Z) : Z :=
  let hash := Z.lxor (wrapping (stride * 31)) slots_offset in
  Z.land (Z.lxor hash (Z.shiftr hash 6)) (BLOCK_LAYOUT_CACHE_BUCKETS - 1).

(** [while cached != stop { ... }] *)
Definition find_entry (fuel : nat) (slots_offset stride stop from : Z) : prog cacheE (option BlockLayout) :=
  loop fuel (λ cached,
    if cached =? stop then Ret (inr None) else
    entry ← act (EGet cached);
    if (e_stride entry =? stride) && (e_offset entry =? slots_offset)
    then Ret (inr (Some (e_layout entry)))
    else Ret (inl (e_next entry))) from.

Section layout.
Context (page_size : Z) (fuel : nat).

(** One round of the publication loop. *)
Definition publish_round (slots_offset stride : Z) (l : BlockLayout) (new head : Z) :
  prog cacheE (Z + BlockLayout) :=
  act (ESetNext new head);;
  r ← act (BCas (layout_bucket slots_offset stride) head new);
  match r with
  | inl _ => Ret (inr l)
  | inr current =>
      found ← find_entry fuel slots_offset stride head current;
      match found with
      | Some l' => act (EDrop new);; Ret (inr l')
      | None => Ret (inl current)
      end
  end.

Definition publish_entry (slots_offset stride : Z) (l : BlockLayout) (new head : Z) : prog cacheE BlockLayout :=
  loop fuel (publish_round slots_offset stride l new) head.

Definition layout (header slot : Layout) : prog cacheE BlockLayout :=
  slots_offset ← expect (SLOTS_OFFSET header slot);
  let stride := slot_stride slot in
  head ← act (BLoad (layout_bucket slots_offset stride));
  found ← find_entry fuel slots_offset stride 0 head;
  match found with
  | Some l => Ret l
  | None =>
      l ← expect (BlockLayout_new page_size header slot);
      new ← act (ENew (mkCached slots_offset stride l head));
      publish_entry slots_offset stride l new head
  end.

(** [Block::capacity] *)
Definition capacity (header slot : Layout) : prog cacheE Z :=
  l ← layout header slot; Ret (slots_len l).

(** A thread that asks for the layouts of several block types in turn. *)
Fixpoint layouts (tys : list (Layout * Layout)) : prog cacheE (list BlockLayout) :=
  match tys with
  | [] => Ret []
  | (header, slot) :: tys =>
      l ← layout header slot; ls ← layouts tys; Ret (l :: ls)
  end.

End layout.

(** ** The cache key determines the layout *)

(** A block type: a non-empty header (it holds the successor link) and a slot. *)
Definition block_type (ty : Layout * Layout) : Prop :=
  type_layout_ok ty.1 ∧ type_layout_ok ty.2 ∧ 0 < lsize ty.1.

(** What the cache files an entry under. *)
Definition key_of (ty : Layout * Layout) : option (Z * Z) :=
  off ← SLOTS_OFFSET ty.1 ty.2; Some (off, slot_stride ty.2).

Definition keyed_layout (page_size off stride : Z) : option BlockLayout :=
  if negb (off <? page_size) then None else
  if negb (0 <? (page_size - off) / stride) then None else
  match Layout_from_size_align page_size page_size with
  | Some a => Some (mkBlockLayout a ((page_size - off) / stride))
  | None => None
  end.

Lemma align_le_size l : type_layout_ok l → 0 < lsize l → lalign l ≤ lsize l.
Proof.
  intros [Hok Hm] Hpos. pose proof (layout_ok_align _ Hok).
  apply Z.mod_divide in Hm; [|lia]. by apply Z.divide_pos_le.
Qed.

(** The alignment assertion of [BlockLayout::new] follows from the offset one, so
    the layout is a function of the cache key. *)
Lemma BlockLayout_new_key page ty off :
  block_type ty → SLOTS_OFFSET ty.1 ty.2 = Some off →
  BlockLayout_new page ty.1 ty.2 = keyed_layout page off (slot_stride ty.2).
Proof.
  intros (Hh & Hs & Hpos) Ho. unfold BlockLayout_new, keyed_layout. rewrite Ho.
  destruct (SLOTS_OFFSET_spec _ _ _ Hh Hs Ho) as [Hle Hm].
  pose proof (align_le_size _ Hh Hpos). pose proof (layout_ok_align _ (proj1 Hs)).
  assert (lalign ty.2 ≤ off).
  { apply Z.mod_divide in Hm; [|lia]. apply Z.divide_pos_le; [lia|done]. }
  destruct (Z.ltb_spec off page); simpl.
  - by rewrite (proj2 (Z.leb_le (Z.max (lalign ty.1) (lalign ty.2)) page)) by lia.
  - by destruct (negb _).
Qed.

Lemma layout_bucket_range off stride :
  0 ≤ layout_bucket off stride < BLOCK_LAYOUT_CACHE_BUCKETS.
Proof.
  unfold layout_bucket, BLOCK_LAYOUT_CACHE_BUCKETS. change (64 - 1) with (Z.ones 6).
  rewrite Z.land_ones by lia. apply Z.mod_pos_bound. lia.
Qed.

(** ** Ghost state: the published chains and the unpublished boxes *)

Definition key : Type := Z * Z.

Record cghost := mkCghost {
  chain : Z → list (Z * key);
  own : nat → option (Z * CachedBlockLayout)
}.

Definition first (c : list (Z * key)) : Z :=
  match c with [] => 0 | (p, _) :: _ => p end.

Definition entry_key (e : CachedBlockLayout) : key := (e_offset e, e_stride e).

Section invariant.
Context (page : Z) (K : list key).

(** The entries of a chain, each with the layout its key determines. *)
Fixpoint entries_linked (m : gmap Z CachedBlockLayout) (c : list (Z * key)) : Prop :=
  match c with
  | [] => True
  | (p, k) :: c' =>
      (∃ e, m !! p = Some e ∧ entry_key e = k ∧
            keyed_layout page k.1 k.2 = Some (e_layout e) ∧ e_next e = first c') ∧ entries_linked m c'
  end.

Record cache_inv (γ : cghost) (s : cmem) : Prop := {
  ci_bucket : ∀ b, 0 ≤ b < BLOCK_LAYOUT_CACHE_BUCKETS → buckets s !! Z.to_nat b = Some (first (chain γ b));
  ci_linked : ∀ b, entries_linked (boxes s) (chain γ b);
  ci_nodup : ∀ b, NoDup (chain γ b).*2;
  ci_known : ∀ b, (chain γ b).*2 ⊆ K;
  ci_pos : ∀ b, Forall (λ a, 0 < a.1) (chain γ b);
  ci_home : ∀ b, Forall (λ a, layout_bucket a.2.1 a.2.2 = b) (chain γ b);
  ci_own : ∀ i p e, own γ i = Some (p, e) →
    0 < p ∧ boxes s !! p = Some e ∧ (∀ b, p ∉ (chain γ b).*1) ∧
    ∀ j e', own γ j = Some (p, e') → j = i;
  ci_all : ∀ p, is_Some (boxes s !! p) →
    (∃ i e, own γ i = Some (p, e)) ∨ ∃ b, p ∈ (chain γ b).*1
}.

(** Chains only grow at the head; nobody touches another thread's box. *)
Definition grows (γ γ' : cghost) : Prop := ∀ b, ∃ front, chain γ' b = front ++ chain γ b.
Definition cache_rely (i : nat) (γ γ' : cghost) : Prop := grows γ γ' ∧ own γ' i = own γ i.
Definition cache_guar (i : nat) (γ γ' : cghost) : Prop :=
  grows γ γ' ∧ ∀ j, j ≠ i → own γ' j = own γ j.

Lemma grows_refl γ : grows γ γ.
Proof. intros b. by exists []. Qed.

Lemma grows_trans γ1 γ2 γ3 : grows γ1 γ2 → grows γ2 γ3 → grows γ1 γ3.
Proof.
  intros H1 H2 b. destruct (H1 b) as [f1 E1], (H2 b) as [f2 E2]. exists (f2 ++ f1).
  by rewrite E2, E1, app_assoc.
Qed.

Lemma cache_rg : rely_guarantee cache_rely cache_guar.
Proof.
  split.
  - intros i γ. split; [apply grows_refl|done].
  - intros i γ1 γ2 γ3 [G1 O1] [G2 O2]. split; [by eapply grows_trans|congruence].
  - intros i j γ γ' [G O] Hne. split; [done|]. apply O. congruence.
Qed.

(** *** Chains *)

Lemma linked_lookup m c p k :
  entries_linked m c → (p, k) ∈ c → ∃ e, m !! p = Some e ∧ entry_key e = k.
Proof.
  induction c as [|[q k'] c IH]; intros Hl Hin; [by apply elem_of_nil in Hin|].
  destruct Hl as [(e & He & Hk & _) Hl]. apply elem_of_cons in Hin as [[= -> ->]|Hin]; eauto.
Qed.

(** An address determines its key, so distinct keys sit at distinct addresses. *)
Lemma linked_nodup m c : entries_linked m c → NoDup c.*2 → NoDup c.*1.
Proof.
  induction c as [|[p k] c IH]; intros Hl Hn; [constructor|]. simpl in *.
  apply NoDup_cons in Hn as [Hk Hn]. destruct Hl as [(e & He & Hek & _) Hl]. apply NoDup_cons. split; [|by apply IH].
  intros Hp. apply list_elem_of_fmap in Hp as ([q k'] & Hq & Hin). simpl in Hq. subst q.
  destruct (linked_lookup m c p k' Hl Hin) as (e' & He' & Hek'). apply Hk.
  assert (k' = k) as -> by congruence. apply list_elem_of_fmap. by exists (p, k).
Qed.

Lemma linked_insert m c p e : entries_linked m c → p ∉ c.*1 → entries_linked (<[p := e]> m) c.
Proof.
  induction c as [|[q k] c IH]; intros Hl Hp; [done|]. simpl in *. apply not_elem_of_cons in Hp as [Hne Hp].
  destruct Hl as [(e' & He' & Hr) Hl]. split; [|by apply IH]. exists e'. by rewrite lookup_insert_ne.
Qed.

Lemma linked_delete m c p : entries_linked m c → p ∉ c.*1 → entries_linked (delete p m) c.
Proof.
  induction c as [|[q k] c IH]; intros Hl Hp; [done|]. simpl in *. apply not_elem_of_cons in Hp as [Hne Hp].
  destruct Hl as [(e' & He' & Hr) Hl]. split; [|by apply IH]. exists e'. by rewrite lookup_delete_ne.
Qed.

Lemma linked_suffix m f c : entries_linked m (f ++ c) → entries_linked m c.
Proof. induction f as [|[p k] f IH]; [done|]. intros [_ Hl]. by apply IH. Qed.

Lemma nodup_keys_inj (c : list (Z * key)) p q k :
  NoDup c.*2 → (p, k) ∈ c → (q, k) ∈ c → p = q.
Proof.
  induction c as [|[r k'] c IH]; intros Hn Hp Hq; [by apply elem_of_nil in Hp|].
  simpl in Hn. apply NoDup_cons in Hn as [Hk Hn].
  assert (∀ x, (x, k') ∉ c) as Hno by (intros x Hx; apply Hk, list_elem_of_fmap; by exists (x, k')).
  apply elem_of_cons in Hp as [Hp|Hp]; apply elem_of_cons in Hq as [Hq|Hq]; [congruence| | |by apply IH].
  - injection Hp as -> ->. by apply Hno in Hq.
  - injection Hq as -> ->. by apply Hno in Hp.
Qed.

Lemma first_app f c : first (f ++ c) = match f with [] => first c | (p, _) :: _ => p end.
Proof. by destruct f as [|[p k] f]. Qed.

(** A head that has not moved: nothing was prepended. *)
Lemma first_unmoved m f c :
  entries_linked m (f ++ c) → NoDup (f ++ c).*2 → Forall (λ a, 0 < a.1) (f ++ c) →
  first (f ++ c) = first c → f = [].
Proof.
  intros Hl Hn Hp Hf. destruct f as [|[p k] f]; [done|]. exfalso.
  pose proof (linked_nodup _ _ Hl Hn) as Hd. simpl in Hf, Hd. apply NoDup_cons in Hd as [Hd _]. apply Hd.
  destruct c as [|[q k'] c].
  - simpl in Hf. apply Forall_inv in Hp. simpl in Hp. lia.
  - simpl in Hf. subst q. rewrite fmap_app. apply elem_of_app. right. left.
Qed.

End invariant.

(** ** The accesses of one thread *)

Section threads.
Context `{BoxAllocator} (page : Z) (K : list key) (i : nat).
Notation safe := (cwp (cache_inv page K) cache_rely cache_guar never i).

Lemma handle_get γ s b front p k c :
  cache_inv page K γ s → chain γ b = front ++ (p, k) :: c →
  ∃ e, handle (EGet p) s = Next e s ∧ entry_key e = k ∧
       keyed_layout page k.1 k.2 = Some (e_layout e) ∧ e_next e = first c.
Proof.
  intros HI Hc. pose proof (ci_linked _ _ _ _ HI b) as Hl. rewrite Hc in Hl.
  apply linked_suffix in Hl as [(e & He & Hr) _]. exists e. split; [|done].
  unfold handle, cache_handler. rewrite He. done.
Qed.

Lemma key_eqb e off stride :
  (e_stride e =? stride) && (e_offset e =? off) = bool_decide (entry_key e = (off, stride)).
Proof.
  unfold entry_key. case_bool_decide as Hk.
  - injection Hk as -> ->. by rewrite !Z.eqb_refl.
  - destruct (Z.eqb_spec (e_stride e) stride), (Z.eqb_spec (e_offset e) off); simpl; try done. congruence.
Qed.

(** Walking a part of a published chain finds the key's layout, or shows that the
    part does not hold the key. *)
Lemma safe_find b off stride old rest fuel γ :
  (∃ front, chain γ b = front ++ rest ++ old) →
  NoDup (rest ++ old).*1 → Forall (λ a, 0 < a.1) (rest ++ old) → (length rest < fuel)%nat →
  safe (find_entry fuel off stride (first old) (first (rest ++ old)))
    (λ r γ', cache_rely i γ γ' ∧
       match r with
       | Some l => keyed_layout page off stride = Some l
       | None => (off, stride) ∉ rest.*2
       end) γ.
Proof.
  revert fuel γ. induction rest as [|[p k] rest IH]; intros [|fuel] γ Hc Hn Hp Hf; try (simpl in Hf; lia);
    unfold find_entry; cbn [loop].
  - rewrite Z.eqb_refl. split; [apply cache_rg|]. apply not_elem_of_nil.
  - assert (p ≠ first old) as Hne.
    { destruct old as [|[q k'] old]; simpl in *; apply Forall_cons in Hp as [Hp _]; simpl in Hp; [lia|].
      apply NoDup_cons in Hn as [Hn _]. intros ->. apply Hn. rewrite fmap_app. apply elem_of_app. right. left. }
    change (first (((p, k) :: rest) ++ old)) with p. rewrite (proj2 (Z.eqb_neq _ _) Hne).
    apply cwp_bind, cwp_act_bind; [done|]. intros γ' s Hr HI.
    destruct Hc as [front Hc]. destruct (proj1 Hr b) as [f' Hc'].
    rewrite Hc, app_assoc in Hc'.
    destruct (handle_get γ' s b (f' ++ front) p k (rest ++ old) HI Hc') as (e & -> & Hk & Hl & Hnx).
    exists γ'. split; [split; [apply grows_refl|done]|]. split; [done|]. rewrite key_eqb.
    case_bool_decide as Hek; simpl.
    + split; [done|]. subst k. rewrite Hek in Hl. exact Hl.
    + rewrite Hnx. eapply cwp_mono; [apply IH|].
      * exists ((f' ++ front) ++ [(p, k)]). by rewrite <- (app_assoc _ [_]).
      * simpl in Hn. by apply NoDup_cons in Hn as [_ ?].
      * by apply Forall_cons in Hp as [_ ?].
      * simpl in Hf. lia.
      * intros r γ'' [Hr' HQ]. split; [by eapply (rg_trans _ _ cache_rg)|]. destruct r; [done|].
        apply not_elem_of_cons. split; [|done]. congruence.
Qed.

(** *** The private box *)

Definition set_own (o : option (Z * CachedBlockLayout)) (γ : cghost) : cghost :=
  mkCghost (chain γ) (λ j, if decide (j = i) then o else own γ j).

Lemma set_own_eq o γ : own (set_own o γ) i = o.
Proof. simpl. by rewrite decide_True. Qed.

Lemma set_own_ne o γ j : j ≠ i → own (set_own o γ) j = own γ j.
Proof. intros. simpl. by rewrite decide_False. Qed.

Lemma set_own_guar o γ : cache_guar i γ (set_own o γ).
Proof. split; [intros b; by exists []|]. intros j Hj. by apply set_own_ne. Qed.

(** Writing the thread's own box, freshly allocated or not. *)
Lemma inv_put γ s p e :
  cache_inv page K γ s → 0 < p → (∀ b, p ∉ (chain γ b).*1) →
  (∀ j e', own γ j = Some (p, e') → j = i) → (∀ q e', own γ i = Some (q, e') → q = p) →
  cache_inv page K (set_own (Some (p, e)) γ) (mkCmem (buckets s) (<[p := e]> (boxes s))).
Proof.
  intros HI Hpos Hnc Huq Hme. split; simpl; [apply HI| |apply HI|apply HI|apply HI|apply HI| |].
  - intros b. by apply linked_insert; [apply HI|].
  - intros j q f Hj. destruct (decide (j = i)) as [->|Hji].
    + injection Hj as <- <-. split; [done|]. split; [apply lookup_insert_eq|]. split; [done|].
      intros j' f. case_decide; [done|]. apply Huq.
    + destruct (ci_own _ _ _ _ HI j q f Hj) as (? & Hq & ? & Huq'). split; [done|].
      assert (q ≠ p) by (intros ->; by apply Huq in Hj). rewrite lookup_insert_ne by done. split; [done|]. split; [done|].
      intros j' f'. case_decide; [|by apply Huq']. intros [= <- _]. done.
  - intros q Hq. destruct (decide (q = p)) as [->|Hqp].
    + left. exists i, e. by rewrite decide_True.
    + rewrite lookup_insert_ne in Hq by done. apply HI in Hq as [(j & f & Hj)|?]; [|by right].
      left. exists j, f. rewrite decide_False; [done|]. intros ->. by apply Hme in Hj.
Qed.

Lemma inv_new γ s p e :
  cache_inv page K γ s → own γ i = None → p = box_at (dom (boxes s)) →
  cache_inv page K (set_own (Some (p, e)) γ) (mkCmem (buckets s) (<[p := e]> (boxes s))).
Proof.
  intros HI Hown Hp. destruct (box_at_fresh (dom (boxes s))) as [Hfr Hpos]. rewrite <- Hp in *.
  apply not_elem_of_dom in Hfr. apply inv_put; [done|done| | |congruence].
  - intros b ([q k] & -> & Hin)%list_elem_of_fmap.
    destruct (linked_lookup _ _ _ _ _ (ci_linked _ _ _ _ HI b) Hin) as (e' & He' & _). simpl in Hfr. congruence.
  - intros j e' Hj. apply HI in Hj as (_ & Hq & _). congruence.
Qed.

Lemma inv_set_own γ s p e e' :
  cache_inv page K γ s → own γ i = Some (p, e) →
  cache_inv page K (set_own (Some (p, e')) γ) (mkCmem (buckets s) (<[p := e']> (boxes s))).
Proof.
  intros HI Hown. destruct (ci_own _ _ _ _ HI i p e Hown) as (Hpos & _ & Hnc & Huq).
  apply inv_put; [done..|]. congruence.
Qed.

Lemma inv_drop γ s p e :
  cache_inv page K γ s → own γ i = Some (p, e) →
  cache_inv page K (set_own None γ) (mkCmem (buckets s) (delete p (boxes s))).
Proof.
  intros HI Hown. destruct (ci_own _ _ _ _ HI i p e Hown) as (Hpos & Hbox & Hnc & Huq). split; simpl.
  - apply HI.
  - intros b. by apply linked_delete; [apply HI|].
  - apply HI.
  - apply HI.
  - apply HI.
  - apply HI.
  - intros j q f Hj. case_decide as Hji; [done|]. destruct (ci_own _ _ _ _ HI j q f Hj) as (? & Hq & ? & Huq').
    split; [done|]. assert (q ≠ p) by (intros ->; by apply Huq in Hj). rewrite lookup_delete_ne by done.
    split; [done|]. split; [done|]. intros j' f'. case_decide; [done|]. apply Huq'.
  - intros q Hq. destruct (decide (q = p)) as [->|Hqp]; [rewrite lookup_delete_eq in Hq; by destruct Hq|].
    rewrite lookup_delete_ne in Hq by done. apply HI in Hq as [(j & f & Hj)|?]; [|by right].
    left. exists j, f. rewrite decide_False; [done|]. congruence.
Qed.

(** *** Publication *)

Definition publish_own (b p : Z) (k : key) (γ : cghost) : cghost :=
  mkCghost (λ b', if decide (b' = b) then (p, k) :: chain γ b else chain γ b')
           (own (set_own None γ)).

Lemma publish_guar b p k γ : cache_guar i γ (publish_own b p k γ).
Proof.
  split; [|intros j Hj; by apply set_own_ne]. intros b'. simpl. case_decide as Hb; [subst b'; by exists [(p, k)]|by exists []].
Qed.

Lemma publish_chain_eq b p k γ : chain (publish_own b p k γ) b = (p, k) :: chain γ b.
Proof. simpl. by rewrite decide_True. Qed.

Lemma publish_chain_ne b b' p k γ : b' ≠ b → chain (publish_own b p k γ) b' = chain γ b'.
Proof. intros. simpl. by rewrite decide_False. Qed.

Lemma inv_publish γ s b p e :
  cache_inv page K γ s → own γ i = Some (p, e) → 0 ≤ b < BLOCK_LAYOUT_CACHE_BUCKETS →
  layout_bucket (e_offset e) (e_stride e) = b →
  keyed_layout page (e_offset e) (e_stride e) = Some (e_layout e) →
  e_next e = first (chain γ b) → entry_key e ∉ (chain γ b).*2 → entry_key e ∈ K →
  cache_inv page K (publish_own b p (entry_key e) γ) (mkCmem (<[Z.to_nat b := p]> (buckets s)) (boxes s)).
Proof.
  intros HI Hown Hb Hhome Hl Hnx Hk HK. destruct (ci_own _ _ _ _ HI i p e Hown) as (Hpos & Hbox & Hnc & Huq).
  split.
  - intros b' Hb'. cbn [buckets]. destruct (decide (b' = b)) as [->|Hne].
    + rewrite publish_chain_eq, list_lookup_insert_eq; [done|]. eapply lookup_lt_Some, (ci_bucket _ _ _ _ HI b Hb).
    + rewrite publish_chain_ne, list_lookup_insert_ne by (done || lia). by apply HI.
  - intros b'. cbn [boxes]. destruct (decide (b' = b)) as [->|Hne]; [|rewrite publish_chain_ne by done; apply HI].
    rewrite publish_chain_eq. split; [|apply HI]. by exists e.
  - intros b'. destruct (decide (b' = b)) as [->|Hne]; [|rewrite publish_chain_ne by done; apply HI].
    rewrite publish_chain_eq. apply NoDup_cons. split; [done|apply HI].
  - intros b'. destruct (decide (b' = b)) as [->|Hne]; [|rewrite publish_chain_ne by done; apply HI].
    rewrite publish_chain_eq. cbn. intros k' [->|?]%elem_of_cons; [done|]. by apply (ci_known _ _ _ _ HI b).
  - intros b'. destruct (decide (b' = b)) as [->|Hne]; [|rewrite publish_chain_ne by done; apply HI].
    rewrite publish_chain_eq. apply Forall_cons. split; [done|apply HI].
  - intros b'. destruct (decide (b' = b)) as [->|Hne]; [|rewrite publish_chain_ne by done; apply HI].
    rewrite publish_chain_eq. apply Forall_cons. split; [done|apply HI].
  - intros j q f Hj. cbn in Hj. destruct (decide (j = i)) as [|Hji]; [done|].
    destruct (ci_own _ _ _ _ HI j q f Hj) as (? & Hq & Hncq & Huq'). split; [done|]. split; [done|].
    assert (q ≠ p) by (intros ->; by apply Huq in Hj). split.
    + intros b'. destruct (decide (b' = b)) as [->|Hne]; [|rewrite publish_chain_ne by done; apply Hncq].
      rewrite publish_chain_eq. apply not_elem_of_cons. split; [done|apply Hncq].
    + intros j' f'. cbn. case_decide; [done|]. apply Huq'.
  - intros q Hq. destruct (ci_all _ _ _ _ HI q Hq) as [(j & f & Hj)|[b' Hb']].
    + destruct (decide (j = i)) as [->|Hji].
      * right. exists b. rewrite publish_chain_eq. assert (q = p) as -> by congruence. left.
      * left. exists j, f. cbn. by rewrite decide_False.
    + right. exists b'. destruct (decide (b' = b)) as [->|Hne]; [|by rewrite publish_chain_ne].
      rewrite publish_chain_eq. by right.
Qed.

End threads.
