(* ===== verification/LayoutCacheSpec.v ===== *)
(** * Correctness of the block layout cache

    Under every interleaving, [Block::layout] returns what [BlockLayout::new]
    computes for the type; the number of rounds of its loops is bounded by the
    number of distinct cache keys, so every call returns; a key is cached at most
    once and no box is leaked. *)

From S2P Require Import Prelude Prog Conc Layout Head Geometry MpmcBlock Instances LayoutCache.

Section calls.
Context `{BoxAllocator} (page : Z) (K : list key) (i : nat) (fuel : nat).
Context (Hfuel : (length K < fuel)%nat).
Notation safe := (cwp (cache_inv page K) cache_rely cache_guar never i).

Lemma handle_set_next γ s p e v :
  cache_inv page K γ s → own γ i = Some (p, e) →
  handle (ESetNext p v) s =
    Next tt (mkCmem (buckets s) (<[p := mkCached (e_offset e) (e_stride e) (e_layout e) v]> (boxes s))).
Proof.
  intros HI Ho. apply HI in Ho as (_ & Hb & _). unfold handle, cache_handler. by rewrite Hb.
Qed.

Lemma handle_cas γ s b old new :
  cache_inv page K γ s → 0 ≤ b < BLOCK_LAYOUT_CACHE_BUCKETS →
  handle (BCas b old new) s =
    if first (chain γ b) =? old
    then Next (inl (first (chain γ b))) (mkCmem (<[Z.to_nat b := new]> (buckets s)) (boxes s))
    else Next (inr (first (chain γ b))) s.
Proof.
  intros HI Hb. unfold handle, cache_handler. rewrite (ci_bucket _ _ _ _ HI b Hb). simpl.
  by destruct (first (chain γ b) =? old).
Qed.

Lemma handle_bload γ s b :
  cache_inv page K γ s → 0 ≤ b < BLOCK_LAYOUT_CACHE_BUCKETS →
  handle (BLoad b) s = Next (first (chain γ b)) s.
Proof. intros HI Hb. unfold handle, cache_handler. by rewrite (ci_bucket _ _ _ _ HI b Hb). Qed.

Lemma handle_drop γ s p e :
  cache_inv page K γ s → own γ i = Some (p, e) →
  handle (EDrop p) s = Next tt (mkCmem (buckets s) (delete p (boxes s))).
Proof. intros HI Ho. apply HI in Ho as (_ & Hb & _). unfold handle, cache_handler. by rewrite Hb. Qed.

(** A chain never holds more entries than there are keys. *)
Lemma chain_length γ s b f c :
  cache_inv page K γ s → chain γ b = f ++ c → (length f + length c ≤ length K)%nat.
Proof.
  intros HI Hc. pose proof (ci_nodup _ _ _ _ HI b) as Hn. pose proof (ci_known _ _ _ _ HI b) as Hk.
  apply (NoDup_submseteq _ K) in Hn; [|done]. apply submseteq_length in Hn.
  by rewrite Hc, length_fmap, length_app in Hn.
Qed.

Lemma chain_addresses γ s b c :
  cache_inv page K γ s → chain γ b = c → NoDup c.*1 ∧ Forall (λ a, 0 < a.1) c.
Proof.
  intros HI <-. split; [|apply HI]. eapply linked_nodup; apply HI.
Qed.

Context (off stride : Z) (l : BlockLayout).
Context (Hl : keyed_layout page off stride = Some l) (HK : (off, stride) ∈ K).

(** What a thread knows while it holds its box: a part of the bucket's chain that
    does not hold its key. *)
Record holding (new : Z) (known : list (Z * key)) (γ : cghost) : Prop := {
  ho_known : ∃ front, chain γ (layout_bucket off stride) = front ++ known;
  ho_absent : (off, stride) ∉ known.*2;
  ho_own : ∃ nx, own γ i = Some (new, mkCached off stride l nx)
}.

Lemma holding_rely new known γ γ' : holding new known γ → cache_rely i γ γ' → holding new known γ'.
Proof.
  intros [[f Hf] Ha [nx Ho]] [G O]. split; [|done|exists nx; congruence].
  destruct (G (layout_bucket off stride)) as [f' Hf']. exists (f' ++ f). by rewrite Hf', Hf, app_assoc.
Qed.

Definition finished (l' : BlockLayout) (γ : cghost) : Prop := l' = l ∧ own γ i = None.

(** The exchange succeeds: the entry is published. *)
Lemma inv_publish_holding γ s new nx known :
  cache_inv page K γ s → holding new known γ → own γ i = Some (new, mkCached off stride l nx) →
  nx = first known → first (chain γ (layout_bucket off stride)) = first known →
  cache_inv page K (publish_own i (layout_bucket off stride) new (off, stride) γ)
    (mkCmem (<[Z.to_nat (layout_bucket off stride) := new]> (buckets s)) (boxes s)).
Proof.
  intros HI [[f Hf] Ha _] Ho Hnx Hfirst. set (b := layout_bucket off stride) in *.
  assert (f = []) as ->.
  { eapply (first_unmoved page (boxes s) f known); rewrite <- Hf; [apply HI..|]. done. }
  simpl in Hf. apply (inv_publish page K i γ s b new (mkCached off stride l nx)); simpl; try done.
  - apply layout_bucket_range.
  - by rewrite Hf.
  - unfold entry_key. simpl. by rewrite Hf.
Qed.

Lemma safe_publish_round new known γ :
  holding new known γ →
  safe (publish_round fuel off stride l new (first known))
    (λ r γ', match r with
       | inr l' => finished l' γ'
       | inl head => ∃ f, head = first (f ++ known) ∧ f ≠ [] ∧ holding new (f ++ known) γ' ∧
                          (length f + length known ≤ length K)%nat
       end) γ.
Proof.
  intros Hh. unfold publish_round. apply cwp_act_bind; [done|]. intros γ1 s1 Hr1 HI1.
  apply (holding_rely _ _ _ _ Hh) in Hr1. destruct (ho_own _ _ _ Hr1) as [nx Ho1].
  rewrite (handle_set_next γ1 s1 _ _ _ HI1 Ho1).
  exists (set_own i (Some (new, mkCached off stride l (first known))) γ1).
  split; [apply set_own_guar|]. split; [by eapply inv_set_own|]. clear γ Hh.
  apply cwp_act_bind; [done|]. intros γ2 s2 Hr2 HI2.
  assert (own γ2 i = Some (new, mkCached off stride l (first known))) as Ho2.
  { destruct Hr2 as [_ ->]. apply set_own_eq. }
  assert (holding new known γ2) as Hh2.
  { eapply holding_rely; [|exact Hr2]. split; [apply Hr1|apply Hr1|]. eexists. apply set_own_eq. }
  clear γ1 s1 Hr1 HI1 Ho1 Hr2 nx.
  rewrite (handle_cas γ2 s2) by (done || apply layout_bucket_range).
  destruct (Z.eqb_spec (first (chain γ2 (layout_bucket off stride))) (first known)) as [Heq|Hne].
  - exists (publish_own i (layout_bucket off stride) new (off, stride) γ2). split; [apply publish_guar|].
    split; [by eapply inv_publish_holding|]. split; [done|]. cbn. by rewrite decide_True.
  - exists γ2. split; [split; [apply grows_refl|done]|]. split; [done|].
    destruct (ho_known _ _ _ Hh2) as [f Hf]. rewrite Hf in *.
    destruct (chain_addresses γ2 s2 _ _ HI2 Hf) as [Hn Hp]. pose proof (chain_length γ2 s2 _ _ _ HI2 Hf).
    apply cwp_bind. eapply cwp_mono; [apply (safe_find page K i (layout_bucket off stride)); [by exists []|done|done|lia]|].
    intros [l'|] γ3 [Hr3 Hq].
    + apply cwp_act_bind; [done|]. intros γ4 s4 Hr4 HI4.
      assert (own γ4 i = Some (new, mkCached off stride l (first known))) as Ho4.
      { destruct Hr3 as [_ <-] in Ho2. destruct Hr4 as [_ <-] in Ho2. done. }
      rewrite (handle_drop γ4 s4 _ _ HI4 Ho4). exists (set_own i None γ4). split; [apply set_own_guar|].
      split; [by eapply inv_drop|]. split; [congruence|]. apply set_own_eq.
    + exists f. split; [done|]. split; [intros ->; done|]. split; [|lia].
      destruct (holding_rely _ _ _ _ Hh2 Hr3) as [_ _ Ho]. split; [|rewrite fmap_app, not_elem_of_app; split; [done|apply Hh2]|done].
      destruct (proj1 Hr3 (layout_bucket off stride)) as [f' ->]. rewrite Hf. by exists f'.
Qed.

Lemma safe_publish_loop n new known γ :
  holding new known γ → (length known ≤ length K)%nat → (length K - length known < n)%nat →
  safe (loop n (publish_round fuel off stride l new) (first known)) finished γ.
Proof.
  revert known γ. induction n as [|n IH]; intros known γ Hh Hle Hn; [lia|].
  cbn [loop]. apply cwp_bind. eapply cwp_mono; [by apply safe_publish_round|].
  intros [head|l'] γ'; [|done]. intros (f & -> & Hf & Hh' & Hlen).
  assert (length f ≠ 0)%nat by (by destruct f). apply IH; [done|rewrite length_app; lia..].
Qed.

End calls.

(** ** Whole calls *)

Section layouts.
Context `{BoxAllocator} (page : Z) (K : list key) (fuel : nat).
Context (Hfuel : (length K < fuel)%nat).
Notation safe i := (cwp (cache_inv page K) cache_rely cache_guar never i).

(** A block type the program may ask for: its key is one of [K] and its layout is
    not rejected by an assertion. *)
Definition known_type (ty : Layout * Layout) : Prop :=
  block_type ty ∧ (∃ k, key_of ty = Some k ∧ k ∈ K) ∧ is_Some (BlockLayout_new page ty.1 ty.2).

Definition fresh_layout (ty : Layout * Layout) : option BlockLayout :=
  BlockLayout_new page ty.1 ty.2.

Lemma safe_layout i ty l γ :
  known_type ty → fresh_layout ty = Some l → own γ i = None →
  safe i (layout page fuel ty.1 ty.2) (finished i l) γ.
Proof.
  intros (Hty & (k & Hk & HK) & _) Hl Hown. unfold fresh_layout in Hl. unfold key_of in Hk. unfold layout.
  destruct (SLOTS_OFFSET ty.1 ty.2) as [off|] eqn:Ho; [|done]. injection Hk as <-.
  rewrite Hl. rewrite (BlockLayout_new_key page ty off Hty Ho) in Hl.
  cbn [expect]. apply cwp_act_bind; [done|]. intros γ1 s1 [G1 O1] HI1.
  rewrite (handle_bload page K γ1 s1) by (done || apply layout_bucket_range).
  exists γ1. split; [split; [apply grows_refl|done]|]. split; [done|].
  set (b := layout_bucket off (slot_stride ty.2)). set (c := chain γ1 b) in *.
  destruct (chain_addresses page K γ1 s1 b c HI1 eq_refl) as [Hn Hp].
  pose proof (chain_length page K γ1 s1 b [] c HI1 eq_refl) as Hlen.
  apply cwp_bind. rewrite <- (app_nil_r c). eapply cwp_mono.
  { apply (safe_find page K i b off (slot_stride ty.2) []); rewrite ?app_nil_r; [by exists []|done|done|simpl in Hlen; lia]. }
  intros [l'|] γ2 [[G2 O2] Hq]; [split; congruence|].
  apply cwp_act_bind; [done|]. intros γ3 s3 [G3 O3] HI3.
  eexists. split; [apply set_own_guar|]. split; [eapply inv_new; [done|congruence|done]|].
  apply (safe_publish_loop page K i fuel Hfuel); [done|done| |simpl in Hlen; rewrite app_nil_r; lia|lia].
  rewrite app_nil_r. split; [|done|eexists; apply set_own_eq].
  destruct (G2 b) as [f2 E2], (G3 b) as [f3 E3]. exists (f3 ++ f2). fold b. simpl.
  rewrite E3, E2. unfold c. by rewrite app_assoc.
Qed.

Lemma safe_layouts i tys γ :
  Forall known_type tys → own γ i = None →
  safe i (layouts page fuel tys) (λ ls γ', Some <$> ls = fresh_layout <$> tys ∧ own γ' i = None) γ.
Proof.
  intros Hty. revert γ. induction Hty as [|[h sl] tys Hk Hty IH]; intros γ Hown; [done|].
  cbn [layouts]. destruct (proj2 (proj2 Hk)) as [l Hl].
  apply cwp_bind. eapply cwp_mono; [by apply (safe_layout i (h, sl) l)|].
  intros l' γ' [-> Hown']. apply cwp_bind. eapply cwp_mono; [by apply IH|].
  intros ls γ'' [Hls Hown'']. split; [|done]. cbn. by rewrite Hls, <- Hl.
Qed.

Definition pool_post (tyss : list (list (Layout * Layout))) (i : nat) (ls : list BlockLayout) (γ : cghost) : Prop :=
  (∀ tys, tyss !! i = Some tys → Some <$> ls = fresh_layout <$> tys) ∧ own γ i = None.

Definition empty_ghost : cghost := mkCghost (λ _, []) (λ _, None).

Lemma empty_cache_inv : cache_inv page K empty_ghost empty_cache.
Proof.
  split; try done.
  - intros b [Hb0 Hb]. apply lookup_replicate. split; [done|]. lia.
  - intros b. constructor.
  - intros b. apply list_subseteq_nil.
  - intros p [e He]. discriminate He.
Qed.

Lemma pool_start tyss :
  Forall (Forall known_type) tyss →
  pool_ok (cache_inv page K) cache_rely cache_guar never (pool_post tyss) (layouts page fuel <$> tyss, empty_cache) empty_ghost.
Proof.
  intros Hty. split; [apply empty_cache_inv|]. intros i p Hp. cbn [fst] in Hp.
  rewrite list_lookup_fmap in Hp. destruct (tyss !! i) as [tys|] eqn:Hi; [|done]. injection Hp as <-.
  eapply cwp_mono; [apply safe_layouts; [by eapply Forall_lookup_1|done]|].
  intros ls γ [Hls Hown]. split; [|done]. intros tys' Hi'. congruence.
Qed.

Lemma pool_post_stable tyss i : stable cache_rely i (pool_post tyss i).
Proof. intros ls γ γ' [Hls Hown] [_ Ho]. split; [done|congruence]. Qed.

(** Every reachable configuration is well, and no thread outside the pool owns a box. *)
Lemma pool_reached tyss c :
  Forall (Forall known_type) tyss →
  rtc conc_step (layouts page fuel <$> tyss, empty_cache) c →
  ∃ γ, pool_ok (cache_inv page K) cache_rely cache_guar never (pool_post tyss) c γ ∧
       ∀ j, c.1 !! j = None → own γ j = None.
Proof.
  intros Hty Hr.
  destruct (pool_reach _ _ _ never cache_rg (never_stable _) (pool_post tyss) _ c empty_ghost
    (pool_post_stable tyss) (pool_start tyss Hty) Hr) as (γ & Hok & Hm).
  exists γ. split; [done|]. intros j Hj. by destruct (moved_outside _ _ _ _ _ _ (Hm j) Hj) as [_ ->].
Qed.

(** The cache never refuses an access for lack of memory. *)
Lemma cache_no_exit {X} (e : cacheE X) s : handle e s ≠ Exit.
Proof.
  destruct e as [b|b old new|p|e|p v|p]; try done; unfold handle, cache_handler.
  1, 2: destruct (buckets s !! Z.to_nat b) as [w|]; try done.
  { simpl. by destruct (w =? old). }
  all: by destruct (boxes s !! p).
Qed.

End layouts.

(** ** The properties *)

(** C10: however the threads interleave, every thread that has returned from its calls of
    [Block::layout] got, for each block type it asked for, exactly what
    [BlockLayout::new] computes for that type, although most of the answers come from
    entries other types and threads published; and no thread ever touches freed or
    unallocated memory, panics, or exhausts its loops. *)
Theorem layout_cache_equivalence `{BoxAllocator} page K fuel tyss ts s i p tys :
  (length K < fuel)%nat → Forall (Forall (known_type page K)) tyss →
  rtc conc_step (layouts page fuel <$> tyss, empty_cache) (ts, s) →
  ts !! i = Some p → tyss !! i = Some tys →
  match p with
  | Ret ls => Some <$> ls = fresh_layout page <$> tys
  | Vis e k => ∃ x s', handle e s = Next x s'
  | Panic => False
  | OutOfFuel => False
  end.
Proof.
  intros Hf Hty Hr Hi Htys. destruct (pool_reached page K fuel Hf tyss _ Hty Hr) as (γ & Hok & _).
  pose proof (pool_fine _ _ _ never cache_rg _ _ _ _ _ _ Hok Hi) as Hp. destruct p as [ls|X e k| |]; simpl in Hp; try done.
  - by apply Hp.
  - pose proof (cache_no_exit e s). destruct (handle e s) as [x s'| |]; [by eauto|done..].
Qed.

(** The entries of a bucket, read off the memory. *)
Fixpoint walk (m : gmap Z CachedBlockLayout) (fuel : nat) (p : Z) : list Z :=
  match fuel with
  | O => []
  | S n => match m !! p with Some e => p :: walk m n (e_next e) | None => [] end
  end.

Lemma walk_chain page m c fuel :
  entries_linked page m c → (length c ≤ fuel)%nat → c.*1 ⊆ walk m fuel (first c).
Proof.
  revert fuel. induction c as [|[p k] c IH]; intros fuel Hl Hlen; [apply list_subseteq_nil|].
  destruct fuel as [|fuel]; simpl in *; [lia|]. destruct Hl as [(e & -> & _ & _ & ->) Hl].
  intros q [->|Hq]%elem_of_cons; [left|]. right. apply (IH fuel Hl); [lia|done].
Qed.

(** C11: once every thread has returned, nothing is leaked and nothing is cached twice: every
    boxed entry is linked from the bucket its key hashes to, and two entries never
    have the same key. *)
Theorem layout_cache_no_leak `{BoxAllocator} page K fuel tyss ts s :
  (length K < fuel)%nat → Forall (Forall (known_type page K)) tyss →
  rtc conc_step (layouts page fuel <$> tyss, empty_cache) (ts, s) →
  (∀ i p, ts !! i = Some p → ∃ ls, p = Ret ls) →
  (∀ p e, boxes s !! p = Some e →
     ∃ w, buckets s !! Z.to_nat (layout_bucket (e_offset e) (e_stride e)) = Some w ∧
          p ∈ walk (boxes s) fuel w) ∧
  (∀ p q e e', boxes s !! p = Some e → boxes s !! q = Some e' → entry_key e = entry_key e' → p = q).
Proof.
  intros Hf Hty Hr Hret. destruct (pool_reached page K fuel Hf tyss _ Hty Hr) as (γ & [HI Hts] & Hout).
  assert (∀ j, own γ j = None) as Hown.
  { intros j. destruct (ts !! j) as [p|] eqn:Hj; [|by apply Hout].
    destruct (Hret j p Hj) as [ls ->]. apply (Hts j _ Hj). }
  simpl in HI.
  assert (∀ p e, boxes s !! p = Some e →
    (p, entry_key e) ∈ chain γ (layout_bucket (e_offset e) (e_stride e))) as Hlinked.
  { intros p e He. destruct (ci_all _ _ _ _ HI p) as [(j & f & Hj)|[b Hb]]; [by eexists|congruence|].
    apply list_elem_of_fmap in Hb as ([q k] & -> & Hin).
    destruct (linked_lookup _ _ _ _ _ (ci_linked _ _ _ _ HI b) Hin) as (e' & He' & <-).
    simpl in He. assert (e' = e) as -> by congruence.
    pose proof (proj1 (Forall_forall _ _) (ci_home _ _ _ _ HI b) _ Hin) as Hb. simpl in Hb. by rewrite Hb. }
  split.
  - intros p e He. specialize (Hlinked p e He). set (b := layout_bucket _ _) in *.
    exists (first (chain γ b)). split; [apply HI, layout_bucket_range|].
    pose proof (chain_length page K γ s b [] _ HI eq_refl).
    apply (walk_chain page (boxes s) (chain γ b) fuel); [apply HI|simpl in *; lia|].
    apply list_elem_of_fmap. by exists (p, entry_key e).
  - intros p q e e' He He' Hk. pose proof (Hlinked p e He) as H1. pose proof (Hlinked q e' He') as H2.
    pose proof Hk as Hk'. injection Hk' as Ho Hs. rewrite <- Ho, <- Hs, <- Hk in H2.
    by eapply nodup_keys_inj; [apply HI|..].
Qed.

(** ** Witnesses *)

(** Two threads: one asks for the blocks of [UBQ<u64>] and [UBQ<[u64; 3]>], the other
    for [UBQ<i64>] (same key as the first) and [UBQ<[u64; 3]>]. *)
Definition two_types : list (list (Layout * Layout)) :=
  [[(mkLayout 256 128, mkLayout 16 8); (mkLayout 256 128, mkLayout 32 8)];
   [(mkLayout 256 128, mkLayout 16 8); (mkLayout 256 128, mkLayout 32 8)]].

Definition two_keys : list key := [(256, 16); (256, 32)].

Lemma two_types_known : Forall (Forall (known_type 4096 two_keys)) two_types.
Proof.
  repeat apply Forall_cons_2; try apply Forall_nil_2;
    (split; [vm_compute; repeat split; discriminate|]; split;
     [eexists; split; [reflexivity|by apply (bool_decide_unpack _)]|by eexists]).
Qed.

(** Both threads miss, thread 0 publishes first, thread 1 fails its exchange, finds
    the entry and drops its box. *)
Definition race : list nat := [0; 1; 0; 1; 0; 1; 0; 1; 1; 1; 0; 0; 0; 0; 1; 1]%nat.

Definition race_end : list (prog cacheE (list BlockLayout)) * cmem :=
  default ([], empty_cache) (run_sched race (layouts 4096 3 <$> two_types, empty_cache)).

Lemma race_runs : rtc conc_step (layouts 4096 3 <$> two_types, empty_cache) race_end.
Proof. apply (run_sched_rtc race). vm_compute. reflexivity. Qed.

Lemma layout_cache_equivalence_witness :
  Some <$> [mkBlockLayout (mkLayout 4096 4096) 240; mkBlockLayout (mkLayout 4096 4096) 120]
  = fresh_layout 4096 <$> [(mkLayout 256 128, mkLayout 16 8); (mkLayout 256 128, mkLayout 32 8)].
Proof.
  apply (layout_cache_equivalence 4096 two_keys 3 two_types race_end.1 race_end.2 1
    (Ret [mkBlockLayout (mkLayout 4096 4096) 240; mkBlockLayout (mkLayout 4096 4096) 120])).
  - apply (bool_decide_unpack _). vm_compute. exact Logic.I.
  - exact two_types_known.
  - exact race_runs.
  - vm_compute. reflexivity.
  - reflexivity.
Defined.

Lemma layout_cache_no_leak_witness :
  ∃ w, buckets race_end.2 !! 51%nat = Some w ∧ 1 ∈ walk (boxes race_end.2) 3 w.
Proof.
  refine (proj1 (layout_cache_no_leak 4096 two_keys 3 two_types race_end.1 race_end.2 _ two_types_known race_runs _) 1
    (mkCached 256 16 (mkBlockLayout (mkLayout 4096 4096) 240) 0) _).
  - apply (bool_decide_unpack _). vm_compute. exact Logic.I.
  - intros [|[|i]] p Hp; vm_compute in Hp; [injection Hp as <-; by eexists..|done].
  - vm_compute. reflexivity.
Defined.
