(* ===== verification/UbqQueue.v ===== *)
(** * The MPMC queue (src/src/queue.rs)

    [push_batch] reserves a range of slots with one compare-exchange on the
    packed producer head, moves the head past block boundaries, and writes the
    items; [pop_batch] reserves a range on the consumer head and returns an
    iterator over it; the iterator reads the slots and recycles the blocks it
    completes. *)

From S2P Require Import Prelude Prog Layout Head Geometry MpmcBlock.

(** [UBQIter]: what is left of a reservation. *)
Record UBQIter := mkIter {
  it_block : Z;
  it_index : Z;
  it_len : Z;
  pending_consumed : Z
}.

Definition UBQIter_empty : UBQIter := mkIter 0 0 0 0.

Section queue.
Context {T : Type} `{BlockGeometry} `{Profile}.

(** The three words of [UBQ::new()]; no block is allocated. *)
Definition UBQ_new : mem T := mkMem 0 0 0 ∅ ∅ ∅ [].

Definition acquire_phead : prog (ubqE T) Head :=
  v ← act (Load Phead); Ret (from_usize v codec).

Definition acquire_chead : prog (ubqE T) Head :=
  v ← act (Load Chead); Ret (from_usize v codec).

Definition is_empty (fuel : nat) : prog (ubqE T) bool :=
  phead ← acquire_phead;
  if is_zero phead then Ret true else
  chead ← loop fuel (λ _ : unit,
    chead ← acquire_chead;
    if negb (is_zero chead) then Ret (inr chead) else snooze;; Ret (inl tt)) tt;
  Ret ((block phead =? block chead) && (index phead =? index chead)).

(** ** [push_batch] *)

(** The first push installs the first block. *)
Definition push_init (phead : Head) : prog (ubqE T) (BlockChain * Head) :=
  blocks ← grow_to_fit_with BlockChain_zero 1;
  let '(blocks, (root, tail, size)) := BlockChain_take blocks in
  let new_phead := from_ptr root in
  old ← to_usize phead codec;
  new ← to_usize new_phead codec;
  r ← act (Cas false Phead old new);
  match r with
  | inl _ =>
      w ← to_usize (from_ptr root) codec;
      act (Store Chead w);;
      Ret (blocks, new_phead)
  | inr _ =>
      blocks ← give_back blocks root tail size;
      Ret (blocks, phead)
  end.

(** The reservation loop: returns the private blocks, the head the range starts
    at and the head that was installed. *)
Definition push_reserve (fuel : nat) (len : Z) (blocks : BlockChain) (phead : Head) :
  prog (ubqE T) (BlockChain * Head * Head) :=
  loop fuel (λ '(blocks, phead),
    if block_length <=? index phead then
      snooze;;
      phead ← acquire_phead;
      Ret (inl (blocks, phead))
    else
      blocks ← grow_to_fit_with blocks
        (saturating_sub (len + 1)
           (block_length - index phead + (if has_next phead then block_length else 0)));
      let new_phead :=
        mkHead (block phead) (Z.min (saturating_add (index phead) len) block_length) false in
      old ← to_usize phead codec;
      new ← to_usize new_phead codec;
      r ← act (Cas true Phead old new);
      match r with
      | inl _ => Ret (inr (blocks, phead, new_phead))
      | inr real => spin;; Ret (inl (blocks, from_usize real codec))
      end) (blocks, phead).

(** The owner of the boundary sentinel links its private blocks and moves the
    producer head to the end of its range. *)
Definition push_advance (fuel : nat) (len : Z) (blocks : BlockChain) (phead : Head) :
  prog (ubqE T) BlockChain :=
  let '(blocks, (root, tail, size)) := BlockChain_take blocks in
  root ← loop fuel (λ '(root, remaining, b, i),
    nx ← act (Load (NextOf b));
    '(root, nx) ← (if nx =? 0 then act (Store (NextOf b) root);; Ret (0, root)
                   else Ret (root, nx));
    available ← usub block_length i;
    if remaining <? available then
      w ← to_usize (mkHead b (i + remaining) (negb (nx =? 0))) codec;
      act (Store Phead w);;
      Ret (inr root)
    else
      Ret (inl (root, remaining - available, nx, 0))) (root, len, block phead, index phead);
  if negb (root =? 0) then give_back blocks root tail size else Ret blocks.

(** [for _ in 0..len]: each reserved slot gets the iterator's next item, or is
    marked skipped when the iterator ends early. *)
Fixpoint push_write (fuel : nat) (len : nat) (phead : Head) (items : list (option T)) :
  prog (ubqE T) unit :=
  match len with
  | O => Ret tt
  | S len =>
      let b := block phead in
      let i := index phead in
      phead ← (if i + 1 =? block_length then
                 nx ← wait_next fuel b; Ret (from_ptr nx)
               else Ret (mkHead b (i + 1) (has_next phead)));
      let (item, items) := match items with
                           | [] => (None, [])
                           | item :: items => (item, items) end in
      match item with
      | Some item => Slot_write b i item
      | None => Slot_skip b i
      end;;
      push_write fuel len phead items
  end.

(** [items_len] is the length the iterator reports and [items] what its calls
    to [next] return. *)
Definition push_batch (fuel : nat) (items_len : Z) (items : list (option T)) :
  prog (ubqE T) unit :=
  let len := Z.min items_len (usize_max - 1) in
  if len =? 0 then Ret tt else
  let blocks := BlockChain_zero in
  phead ← acquire_phead;
  '(blocks, phead) ← (if is_zero phead then push_init phead else Ret (blocks, phead));
  '(blocks, phead, new_phead) ← push_reserve fuel len blocks phead;
  blocks ← (if index new_phead =? block_length then push_advance fuel len blocks phead
            else Ret blocks);
  push_write fuel (Z.to_nat len) phead items;;
  BlockChain_drop fuel blocks.

Definition push (fuel : nat) (e : T) : prog (ubqE T) unit :=
  push_batch fuel 1 [Some e].

(** ** [pop_batch] *)

(** The new consumer head and length that the attempt proposes, or [None] when
    the queue looks empty. *)
Definition pop_propose (chead : Head) (len : Z) : prog (ubqE T) (option (Head * Z)) :=
  r ← (if negb (has_next chead) then
         phead ← acquire_phead;
         if block phead =? block chead then
           let len := Z.min (saturating_sub (index phead) (index chead)) len in
           if len =? 0 then Ret None
           else Ret (Some (mkHead (block chead) (index chead) false, len))
         else Ret (Some (mkHead (block chead) (index chead) true, len))
       else Ret (Some (chead, len)));
  match r with
  | None => Ret None
  | Some (new_chead, len) =>
      i ← uadd (index chead) len;
      Ret (Some (mkHead (block new_chead) (Z.min block_length i) (has_next new_chead), len))
  end.

(** After a successful exchange from an unhinted head the producer head is read
    again: a reservation beyond it is taken back, or its slots are filled with
    skips. [None] returns the empty iterator. *)
Definition pop_repair (fuel : nat) (chead new_chead : Head) (len : Z) :
  prog (ubqE T) (option Z) :=
  if negb (has_next chead) then
    phead ← acquire_phead;
    if (block phead =? block chead) && (index phead <? index new_chead) then
      if index new_chead =? block_length then
        old ← to_usize new_chead codec;
        new ← to_usize (mkHead (block phead) (index phead) false) codec;
        x ← act (Cas false Chead old new);
        debug_assert (match x with inl _ => true | inr _ => false end);;
        let len := Z.min (saturating_sub (index phead) (index chead)) len in
        if len =? 0 then Ret None else Ret (Some len)
      else
        push_batch fuel (index new_chead - index phead) [];;
        Ret (Some len)
    else Ret (Some len)
  else Ret (Some len).

(** The reservation loop: the head the range starts at, the head that was
    installed and the length, or [None] for the empty iterator. *)
Definition pop_reserve (fuel : nat) (chead : Head) (len : Z) :
  prog (ubqE T) (option (Head * Head * Z)) :=
  loop fuel (λ '(chead, len),
    if index chead =? block_length then
      snooze;;
      chead ← acquire_chead;
      Ret (inl (chead, len))
    else
      p ← pop_propose chead len;
      match p with
      | None => Ret (inr None)
      | Some (new_chead, len) =>
          old ← to_usize chead codec;
          new ← to_usize new_chead codec;
          r ← act (Cas true Chead old new);
          match r with
          | inl _ =>
              l ← pop_repair fuel chead new_chead len;
              Ret (inr (match l with
                        | None => None
                        | Some len => Some (chead, new_chead, len) end))
          | inr real => spin;; Ret (inl (from_usize real codec, len))
          end
      end) (chead, len).

(** [while phead.block == block && phead.index == block_length { .. }] *)
Definition pop_wait_producer (fuel : nat) (b : Z) (phead : Head) : prog (ubqE T) Head :=
  loop fuel (λ phead,
    if (block phead =? b) && (index phead =? block_length) then
      snooze;;
      phead ← acquire_phead;
      Ret (inl phead)
    else Ret (inr phead)) phead.

(** The owner of the boundary sentinel moves the consumer head to the end of its
    range, or to the producer head when the range would pass it. Returns the
    final length of the range. *)
Definition pop_advance (fuel : nat) (chead : Head) (len : Z) : prog (ubqE T) Z :=
  phead ← acquire_phead;
  loop fuel (λ '(phead, remaining, b, i),
    nx ← act (Load (NextOf b));
    available ← usub block_length i;
    let walk phead nx :=
      if remaining <? available then
        w ← to_usize (mkHead b (i + remaining) true) codec;
        act (Store Chead w);;
        Ret (inr len)
      else Ret (inl (phead, remaining - available, nx, 0)) in
    if block phead =? b then
      phead ← pop_wait_producer fuel b phead;
      if block phead =? b then
        e ← uadd i remaining;
        w ← to_usize (mkHead b (Z.min (index phead) e) false) codec;
        act (Store Chead w);;
        let remaining :=
          remaining - Z.min (saturating_sub (index phead) i) remaining in
        len ← usub len remaining;
        Ret (inr len)
      else
        nx ← act (Load (NextOf b));
        walk phead nx
    else walk phead nx) (phead, len, block chead, index chead).

Definition pop_batch (fuel : nat) (size : Z) : prog (ubqE T) UBQIter :=
  if size =? 0 then Ret UBQIter_empty else
  w ← act (Load Chead);
  zero ← to_usize Head_ZERO codec;
  if w =? zero then Ret UBQIter_empty else
  chead ← acquire_chead;
  r ← pop_reserve fuel chead size;
  match r with
  | None => Ret UBQIter_empty
  | Some (chead, new_chead, len) =>
      len ← (if index new_chead =? block_length then pop_advance fuel chead len else Ret len);
      Ret (mkIter (block chead) (index chead) len 0)
  end.

(** ** The iterator *)

(** The completed block is reset and offered to the pool; a block of a run, or
    one the pool has no room for, is freed. *)
Definition recycle_block (b : Z) : prog (ubqE T) unit :=
  run ← act (RunOf b);
  if run =? 0 then
    reset b;;
    r ← act (Cas false Pool 0 b);
    match r with inl _ => Ret tt | inr _ => free b end
  else free b.

(** Publishes the slots completed in [b]; the last completion recycles it. *)
Definition finish_block_segment (quantity b : Z) : prog (ubqE T) unit :=
  debug_assert (0 <? quantity);;
  full ← consume b quantity;
  if full : bool then recycle_block b else Ret tt.

(** One round of [next]: reads a slot and publishes the segment when it ends. *)
Definition iter_step (fuel : nat) (it : UBQIter) : prog (ubqE T) (option T * UBQIter) :=
  let b := it_block it in
  maybe ← Slot_read fuel b (it_index it);
  let i := it_index it + 1 in
  let len := it_len it - 1 in
  let pending := pending_consumed it + 1 in
  let finished_block := i =? block_length in
  '(nb, ni) ← (if finished_block then nx ← act (Load (NextOf b)); Ret (nx, 0)
               else Ret (b, i));
  (if finished_block || (len =? 0) then
     finish_block_segment pending b;;
     Ret (maybe, mkIter nb ni len 0)
   else Ret (maybe, mkIter nb ni len pending)).

(** [Iterator::next]: skipped slots are passed over. *)
Definition iter_next (fuel : nat) (it : UBQIter) : prog (ubqE T) (option T * UBQIter) :=
  loop fuel (λ it,
    if it_len it =? 0 then Ret (inr (None, it)) else
    '(maybe, it) ← iter_step fuel it;
    Ret (match maybe with Some v => inr (Some v, it) | None => inl it end)) it.

(** [impl Drop for UBQIter]: [for _ in self {}]. *)
Definition iter_drop (fuel : nat) (it : UBQIter) : prog (ubqE T) unit :=
  loop fuel (λ it,
    '(v, it) ← iter_next fuel it;
    match v with
    | Some v => act (DropOwned v);; Ret (inl it)
    | None => Ret (inr tt)
    end) it.

Definition pop (fuel : nat) : prog (ubqE T) (option T) :=
  it ← pop_batch fuel 1;
  '(v, it) ← iter_next fuel it;
  iter_drop fuel it;;
  Ret v.

(** ** [impl Drop for UBQ] *)
Definition UBQ_drop (fuel : nat) : prog (ubqE T) unit :=
  w ← act (Load Chead);
  free_chain fuel (block (from_usize w codec));;
  p ← act (Load Pool);
  if negb (p =? 0) then free p else Ret tt.

End queue.
