(* ===== verification/MpmcHeap.v ===== *)
(** * The heap of the MPMC queue

    Well-formedness of allocations, blocks and runs, and what the block
    operations of [MpmcBlock] do to a well-formed heap: allocation provides
    fresh blocks, reclamation is exact (each block once, each run after its last
    block, no block left in freed storage). *)

From S2P Require Import Prelude Prog Layout Head Geometry MpmcBlock.

Arguments set_phead {T} v s /.
Arguments set_chead {T} v s /.
Arguments set_pool {T} v s /.
Arguments set_blocks {T} v s /.
Arguments set_runs {T} v s /.
Arguments set_allocs {T} v s /.
Arguments set_dropped {T} v s /.
Arguments set_next {T} v b /.
Arguments set_consumed {T} v b /.
Arguments set_slots {T} v b /.
Arguments put_slot {T} blk i x /.

(** ** Well-formed heaps *)

(** [rp] gives, for each initialized block, its run pointer. *)
Section heap_ok.
Context `{BlockGeometry}.

Definition members (r : Z) (rp : gmap Z Z) : gmap Z Z := filter (λ kv, kv.2 = r) rp.

Lemma members_none r rp : (∀ b, rp !! b = Some r → False) → members r rp = ∅.
Proof.
  intros Hn. apply map_empty. intros b. apply map_lookup_filter_None. right.
  intros r' Hb Hr. simpl in Hr. subst. by eapply Hn.
Qed.

Record heap_ok (rp : gmap Z Z) (rs : gmap Z BlockRun) (al : gmap Z Layout) : Prop := {
  hk_range : ∀ p l, al !! p = Some l →
    0 < p ∧ p mod page = 0 ∧ 0 < lsize l ∧ p + lsize l ≤ 2 ^ 64;
  hk_disjoint : ∀ p l q k, al !! p = Some l → al !! q = Some k → p ≠ q →
    p + lsize l ≤ q ∨ q + lsize k ≤ p;
  hk_single : ∀ b, rp !! b = Some 0 → al !! b = Some page_layout;
  hk_member : ∀ b r, rp !! b = Some r → r ≠ 0 →
    ∃ rn, rs !! r = Some rn ∧ r ≤ b ∧ b + page ≤ r + lsize (run_layout rn) ∧ b mod page = 0;
  hk_run : ∀ r rn, rs !! r = Some rn →
    base rn = r ∧ al !! r = Some (run_layout rn) ∧
    remaining rn = Z.of_nat (size (members r rp)) ∧ 0 < remaining rn ≤ usize_max;
  hk_owned : ∀ p l, al !! p = Some l → rp !! p = Some 0 ∨ is_Some (rs !! p)
}.

Lemma heap_ok_empty : heap_ok ∅ ∅ ∅.
Proof. split; intros *; by rewrite lookup_empty. Qed.

Context {rp : gmap Z Z} {rs : gmap Z BlockRun} {al : gmap Z Layout}.
Context (Hk : heap_ok rp rs al).

(** Where a block lives: the allocation that contains it. *)
Lemma block_region b r :
  rp !! b = Some r →
  ∃ p l, al !! p = Some l ∧ p ≤ b ∧ b + page ≤ p + lsize l ∧
         p = (if r =? 0 then b else r).
Proof.
  intros Hb. pose proof page_pos. destruct (Z.eqb_spec r 0) as [->|Hr].
  - exists b, page_layout. split; [by apply Hk|]. simpl. lia.
  - destruct (hk_member _ _ _ Hk b r Hb Hr) as (rn & Hrn & ? & ? & _).
    exists r, (run_layout rn). split; [|lia]. by apply (hk_run _ _ _ Hk).
Qed.

Lemma block_range b r :
  rp !! b = Some r → 0 < b ∧ b mod page = 0 ∧ b + page ≤ 2 ^ 64.
Proof.
  intros Hb. destruct (block_region b r Hb) as (p & l & Hp & ? & ? & ->).
  destruct (hk_range _ _ _ Hk _ _ Hp) as (? & ? & ? & ?).
  split; [lia|]. split; [|lia]. destruct (Z.eqb_spec r 0); [done|].
  destruct (hk_member _ _ _ Hk b r) as (_ & _ & _ & _ & ?); done.
Qed.

(** A run still has a member, so its base is not a standalone block. *)
Lemma run_has_member r rn : rs !! r = Some rn → ∃ b, rp !! b = Some r.
Proof.
  intros Hr. destruct (hk_run _ _ _ Hk r rn Hr) as (_ & _ & Hn & ?).
  destruct (map_choose (members r rp)) as (b & r' & Hb).
  { intros He. rewrite He, map_size_empty in Hn. lia. }
  exists b. apply map_lookup_filter_Some in Hb as [? Heq]. simpl in Heq. by subst.
Qed.

Lemma run_nonzero r rn : rs !! r = Some rn → r ≠ 0.
Proof.
  intros Hr. destruct (hk_run _ _ _ Hk r rn Hr) as (_ & Hal & _).
  destruct (hk_range _ _ _ Hk _ _ Hal). lia.
Qed.

Lemma single_not_run b : rp !! b = Some 0 → rs !! b = None.
Proof.
  intros Hb. destruct (rs !! b) as [rn|] eqn:Hrn; [|done]. exfalso.
  destruct (run_has_member b rn Hrn) as [b' Hb'].
  pose proof (run_nonzero b rn Hrn) as Hnz.
  destruct (hk_member _ _ _ Hk b' b Hb' Hnz) as (rn' & Hrn' & ? & ? & Hm').
  destruct (hk_run _ _ _ Hk b rn Hrn) as (_ & Hal & _).
  pose proof (hk_single _ _ _ Hk b Hb) as Hal'.
  destruct (hk_range _ _ _ Hk b _ Hal) as (_ & Hm & _).
  assert (run_layout rn = page_layout) as El by congruence.
  simplify_eq. rewrite El in *. simpl in *.
  assert (b' = b) as -> by lia. rewrite Hb in Hb'. congruence.
Qed.

(** Distinct blocks occupy disjoint pages. *)
Lemma blocks_disjoint b r b' r' :
  rp !! b = Some r → rp !! b' = Some r' → b ≠ b' → b' + page ≤ b ∨ b + page ≤ b'.
Proof.
  intros Hb Hb' Hne. pose proof page_pos as Hp.
  destruct (block_range b r Hb) as (_ & Hm & _). destruct (block_range b' r' Hb') as (_ & Hm' & _).
  apply Z.mod_divide in Hm as [q ->]; [|lia]. apply Z.mod_divide in Hm' as [q' ->]; [|lia].
  assert (q < q' ∨ q' < q) as [?|?] by nia; nia.
Qed.

(** The storage of an allocation holds only the blocks it owns. *)
Lemma region_blocks p l b r :
  al !! p = Some l → rp !! b = Some r → p ≤ b < p + lsize l →
  p = if r =? 0 then b else r.
Proof.
  intros Hp Hb Hin. destruct (block_region b r Hb) as (q & k & Hq & ? & ? & Eq).
  rewrite <- Eq. destruct (decide (p = q)) as [|Hne]; [done|].
  pose proof page_pos. destruct (hk_disjoint _ _ _ Hk _ _ _ _ Hp Hq Hne); lia.
Qed.

(** ** Reclamation *)

Lemma heap_ok_free_single b :
  rp !! b = Some 0 → heap_ok (delete b rp) rs (delete b al).
Proof.
  intros Hb. pose proof (single_not_run b Hb) as Hnr. split.
  - intros p l [_ Hp]%lookup_delete_Some. by apply (hk_range _ _ _ Hk).
  - intros p l q k [_ Hp]%lookup_delete_Some [_ Hq]%lookup_delete_Some.
    by apply (hk_disjoint _ _ _ Hk).
  - intros b' [? Hb']%lookup_delete_Some. rewrite lookup_delete_ne by done. by apply Hk.
  - intros b' r [? Hb']%lookup_delete_Some Hr. by apply (hk_member _ _ _ Hk).
  - intros r rn Hrn. destruct (hk_run _ _ _ Hk r rn Hrn) as (? & ? & Hn & ?).
    assert (b ≠ r) by (intros ->; congruence).
    split; [done|]. rewrite lookup_delete_ne by done. split; [done|].
    split; [|done]. rewrite Hn. do 2 f_equal. unfold members.
    rewrite map_filter_delete, delete_id; [done|].
    apply map_lookup_filter_None. right. intros r' Hr'. simpl.
    pose proof (run_nonzero r rn Hrn). congruence.
  - intros p l [? Hp]%lookup_delete_Some.
    rewrite lookup_delete_ne by done. by eapply (hk_owned _ _ _ Hk).
Qed.

Lemma members_delete b r :
  rp !! b = Some r → Z.of_nat (size (members r (delete b rp))) = Z.of_nat (size (members r rp)) - 1.
Proof.
  intros Hb. unfold members. rewrite map_filter_delete.
  assert (filter (λ kv : Z * Z, kv.2 = r) rp !! b = Some r) as Hf
    by (by apply map_lookup_filter_Some).
  rewrite map_size_delete_Some by (by rewrite Hf). 
  assert (size (filter (λ kv : Z * Z, kv.2 = r) rp) ≠ 0%nat).
  { intros E. apply map_size_empty_inv in E. rewrite E, lookup_empty in Hf. done. }
  lia.
Qed.

Lemma members_delete_ne b r r' :
  rp !! b = Some r → r ≠ r' → members r' (delete b rp) = members r' rp.
Proof.
  intros Hb Hne. unfold members. rewrite map_filter_delete, delete_id; [done|].
  apply map_lookup_filter_None. right. intros x Hx. simpl. congruence.
Qed.

Lemma heap_ok_release b r rn :
  rp !! b = Some r → rs !! r = Some rn → remaining rn ≠ 1 →
  heap_ok (delete b rp) (<[r := mkBlockRun (base rn) (run_layout rn) (remaining rn - 1)]> rs) al.
Proof.
  intros Hb Hr Hn1. destruct (hk_run _ _ _ Hk r rn Hr) as (? & ? & Hn & ?).
  pose proof (run_nonzero r rn Hr) as Hnz. split.
  - apply (hk_range _ _ _ Hk).
  - apply (hk_disjoint _ _ _ Hk).
  - intros b' [? Hb']%lookup_delete_Some. by apply Hk.
  - intros b' r' [? Hb']%lookup_delete_Some Hr'.
    destruct (hk_member _ _ _ Hk b' r' Hb' Hr') as (rn' & Hrn' & ?).
    destruct (decide (r = r')) as [->|].
    + rewrite lookup_insert_eq. eexists. split; [done|]. simpl. by simplify_eq.
    + rewrite lookup_insert_ne by done. eauto.
  - intros r' rn' [[<- <-]|[Hne Hr']]%lookup_insert_Some; simpl.
    + rewrite (members_delete b r Hb), Hn. split; [done|]. split; [done|]. lia.
    + rewrite (members_delete_ne b r r') by done. by apply (hk_run _ _ _ Hk).
  - intros p l Hp. destruct (hk_owned _ _ _ Hk p l Hp) as [Hp0|Hpr].
    + left. rewrite lookup_delete_ne; [done|]. intros ->. congruence.
    + right. destruct (decide (r = p)) as [->|].
      * rewrite lookup_insert_eq. eauto.
      * by rewrite lookup_insert_ne.
Qed.

Lemma heap_ok_release_last b r rn :
  rp !! b = Some r → rs !! r = Some rn → remaining rn = 1 →
  heap_ok (delete b rp) (delete r rs) (delete r al) ∧
  ∀ b', delete b rp !! b' = Some r → False.
Proof.
  intros Hb Hr Hn1. destruct (hk_run _ _ _ Hk r rn Hr) as (? & Halr & Hn & ?).
  pose proof (run_nonzero r rn Hr) as Hnz.
  assert (∀ b', delete b rp !! b' = Some r → False) as Hlast.
  { pose proof (members_delete b r Hb) as Hs. rewrite <- Hn, Hn1 in Hs.
    assert (members r (delete b rp) = ∅) as He by (apply map_size_empty_inv; lia).
    intros b' Hb'. assert (members r (delete b rp) !! b' = Some r) as Hm
      by (by apply map_lookup_filter_Some).
    rewrite He, lookup_empty in Hm. done. }
  split; [|done]. split.
  - intros p l [_ Hp]%lookup_delete_Some. by apply (hk_range _ _ _ Hk).
  - intros p l q k [_ Hp]%lookup_delete_Some [_ Hq]%lookup_delete_Some.
    by apply (hk_disjoint _ _ _ Hk).
  - intros b' [? Hb']%lookup_delete_Some.
    rewrite lookup_delete_ne; [by apply Hk|]. intros ->.
    rewrite (single_not_run _ Hb') in Hr. done.
  - intros b' r' Hb' Hr'. assert (r ≠ r') by (intros ->; by eapply Hlast).
    apply lookup_delete_Some in Hb' as [? Hb'].
    destruct (hk_member _ _ _ Hk b' r' Hb' Hr') as (rn' & Hrn' & ?).
    rewrite lookup_delete_ne by done. eauto.
  - intros r' rn' [? Hr']%lookup_delete_Some.
    rewrite lookup_delete_ne, (members_delete_ne b r r') by done.
    by apply (hk_run _ _ _ Hk).
  - intros p l [? Hp]%lookup_delete_Some. destruct (hk_owned _ _ _ Hk p l Hp) as [Hp0|Hpr].
    + left. rewrite lookup_delete_ne; [done|]. intros ->. congruence.
    + right. by rewrite lookup_delete_ne.
Qed.

(** ** Allocation *)

Lemma heap_ok_alloc `{Allocator} p :
  galloc al page_layout = p → p ≠ 0 →
  rp !! p = None ∧ heap_ok (<[p := 0]> rp) rs (<[p := page_layout]> al).
Proof.
  intros Hp Hnz. pose proof page_pos.
  destruct (galloc_fresh al page_layout p Hp Hnz) as (? & ? & ? & Hfresh). simpl in *.
  assert (al !! p = None) as Hal.
  { destruct (al !! p) as [k|] eqn:E; [|done].
    destruct (hk_range _ _ _ Hk _ _ E). destruct (Hfresh _ _ E); lia. }
  assert (rp !! p = None) as Hrp.
  { destruct (rp !! p) as [r|] eqn:E; [|done].
    destruct (block_region p r E) as (q & k & Hq & ? & ? & _).
    destruct (Hfresh _ _ Hq); lia. }
  split; [done|]. split.
  - intros q l [[<- <-]|[? Hq]]%lookup_insert_Some; [simpl; lia|]. by apply (hk_range _ _ _ Hk).
  - intros q l q' k [[<- <-]|[? Hq]]%lookup_insert_Some [[<- <-]|[? Hq']]%lookup_insert_Some Hne.
    + done.
    + apply (Hfresh _ _ Hq').
    + destruct (Hfresh _ _ Hq); auto.
    + by apply (hk_disjoint _ _ _ Hk).
  - intros b [[<- _]|[? Hb]]%lookup_insert_Some.
    + by rewrite lookup_insert_eq.
    + rewrite lookup_insert_ne by done. by apply Hk.
  - intros b r [[<- <-]|[? Hb]]%lookup_insert_Some Hr; [done|]. by apply (hk_member _ _ _ Hk).
  - intros r rn Hr. destruct (hk_run _ _ _ Hk r rn Hr) as (? & Halr & Hn & ?).
    split; [done|]. rewrite lookup_insert_ne by (intros ->; congruence). split; [done|].
    split; [|done]. rewrite Hn. do 2 f_equal. unfold members.
    rewrite map_filter_insert_False, delete_id; [done|done|].
    simpl. intros <-. by apply (run_nonzero _ _ Hr).
  - intros q l [[<- _]|[? Hq]]%lookup_insert_Some.
    + left. by rewrite lookup_insert_eq.
    + rewrite lookup_insert_ne by done. by eapply (hk_owned _ _ _ Hk).
Qed.

End heap_ok.

(** ** Runs: the pages [base, base + page, ...] *)

Section runs.
Context `{BlockGeometry}.

Fixpoint run_map {A} (n : nat) (p : Z) (f : Z → A) : gmap Z A :=
  match n with
  | O => ∅
  | S n => <[p + Z.of_nat n * page := f (Z.of_nat n)]> (run_map n p f)
  end.

Lemma run_map_Some {A} n p (f : Z → A) b x :
  run_map n p f !! b = Some x ↔ ∃ i, 0 ≤ i < Z.of_nat n ∧ b = p + i * page ∧ x = f i.
Proof.
  pose proof page_pos. revert b x. induction n as [|n IH]; intros b x; simpl.
  - rewrite lookup_empty. split; [done|]. intros (i & ? & _). lia.
  - rewrite lookup_insert_Some, IH. split.
    + intros [[<- <-]|(_ & i & ? & -> & ->)].
      * exists (Z.of_nat n). split; [lia|done].
      * exists i. split; [lia|done].
    + intros (i & ? & -> & ->). destruct (decide (i = Z.of_nat n)) as [->|]; [by left|].
      right. split; [nia|]. exists i. split; [lia|done].
Qed.

Lemma run_map_next_None {A} n p (f : Z → A) : run_map n p f !! (p + Z.of_nat n * page) = None.
Proof.
  pose proof page_pos. destruct (run_map n p f !! _) eqn:E; [|done].
  apply run_map_Some in E as (i & ? & ? & _). nia.
Qed.

Lemma run_map_size {A} n p (f : Z → A) : size (run_map n p f) = n.
Proof.
  induction n as [|n IH]; simpl; [apply map_size_empty|].
  rewrite map_size_insert_None by apply run_map_next_None. by rewrite IH.
Qed.

Lemma run_map_fmap {A B} (g : A → B) n p (f : Z → A) :
  g <$> run_map n p f = run_map n p (λ i, g (f i)).
Proof. induction n as [|n IH]; simpl; [apply fmap_empty|]. by rewrite fmap_insert, IH. Qed.

Lemma members_run_map r n p :
  members r (run_map n p (λ _, p)) = if decide (r = p) then run_map n p (λ _, p) else ∅.
Proof.
  unfold members. case_decide as E.
  - apply map_filter_id. intros b x (i & _ & _ & ->)%run_map_Some. done.
  - apply members_none. intros b (i & _ & _ & ->)%run_map_Some. congruence.
Qed.

Context {rp : gmap Z Z} {rs : gmap Z BlockRun} {al : gmap Z Layout}.
Context (Hk : heap_ok rp rs al).

Lemma heap_ok_alloc_run `{Allocator} (n : nat) l p :
  (0 < n)%nat → l = mkLayout (page * Z.of_nat n) page → page * Z.of_nat n ≤ usize_max →
  galloc al l = p → p ≠ 0 →
  run_map n p (λ _, p) ##ₘ rp ∧
  heap_ok (run_map n p (λ _, p) ∪ rp) (<[p := mkBlockRun p l (Z.of_nat n)]> rs) (<[p := l]> al).
Proof.
  intros Hn -> Hmax Hp Hnz. pose proof page_pos.
  destruct (galloc_fresh al _ p Hp Hnz) as (? & ? & ? & Hfresh). simpl in *.
  assert (al !! p = None) as Hal.
  { destruct (al !! p) as [k|] eqn:E; [|done].
    destruct (hk_range _ _ _ Hk _ _ E). destruct (Hfresh _ _ E); nia. }
  assert (rs !! p = None) as Hrs.
  { destruct (rs !! p) as [rn|] eqn:E; [|done].
    destruct (hk_run _ _ _ Hk _ _ E) as (_ & ? & _). congruence. }
  assert (∀ b, rp !! b = Some p → False) as Hnop.
  { intros b Hb. destruct (hk_member _ _ _ Hk b p Hb Hnz) as (? & ? & _). congruence. }
  assert (run_map n p (λ _, p) ##ₘ rp) as Hdisj.
  { apply map_disjoint_spec. intros b x r (i & ? & -> & ->)%run_map_Some Hb.
    destruct (block_region Hk _ _ Hb) as (q & k & Hq & ? & ? & _). destruct (Hfresh _ _ Hq); nia. }
  split; [done|]. split.
  - intros q l [[<- <-]|[? Hq]]%lookup_insert_Some; [simpl; nia|]. by apply (hk_range _ _ _ Hk).
  - intros q l q' k [[<- <-]|[? Hq]]%lookup_insert_Some [[<- <-]|[? Hq']]%lookup_insert_Some Hne.
    + done.
    + apply (Hfresh _ _ Hq').
    + destruct (Hfresh _ _ Hq); auto.
    + by apply (hk_disjoint _ _ _ Hk).
  - intros b [Hb|Hb]%lookup_union_Some; [|  |done].
    + apply run_map_Some in Hb as (i & _ & _ & ?). done.
    + pose proof (hk_single _ _ _ Hk b Hb). rewrite lookup_insert_ne by (intros ->; congruence). done.
  - intros b r [Hb|Hb]%lookup_union_Some Hr; [| |done].
    + apply run_map_Some in Hb as (i & ? & -> & ->). rewrite lookup_insert_eq.
      eexists. split; [done|]. simpl. split; [nia|]. split; [nia|]. by rewrite Z.mod_add by lia.
    + destruct (hk_member _ _ _ Hk b r Hb Hr) as (rn & ? & ?).
      rewrite lookup_insert_ne by (intros ->; congruence). eauto.
  - intros r rn Hr. unfold members. rewrite map_filter_union by done.
    fold (members r (run_map n p (λ _, p))). rewrite members_run_map.
    apply lookup_insert_Some in Hr as [[<- <-]|[Hne Hr]].
    + rewrite decide_True by done. simpl. rewrite lookup_insert_eq. split; [done|]. split; [done|].
      fold (members p rp). rewrite (members_none p rp Hnop).
      rewrite map_union_empty, run_map_size. split; [done|]. nia.
    + rewrite decide_False by done. rewrite map_empty_union.
      rewrite lookup_insert_ne by (intros ->; destruct (hk_run _ _ _ Hk _ _ Hr) as (_ & ? & _); congruence).
      by apply (hk_run _ _ _ Hk).
  - intros q l [[<- _]|[? Hq]]%lookup_insert_Some.
    + right. rewrite lookup_insert_eq. eauto.
    + destruct (hk_owned _ _ _ Hk q l Hq) as [Hq0|Hqr].
      * left. by apply lookup_union_Some_r.
      * right. rewrite lookup_insert_ne by done. done.
Qed.

End runs.
