(* ===== verification/MpmcOps.v ===== *)
(** * What the block operations do

    Exact runs of the operations of [MpmcBlock] on slots, blocks, runs and
    chains, from a memory in which the pointers they use are valid. *)

From S2P Require Import Prelude Prog Layout Head Geometry MpmcBlock MpmcHeap.

(** A block nothing has been reserved in. *)
Definition fresh_block {T} `{BlockGeometry} (nx r : Z) : Block T :=
  mkBlock nx r 0 (replicate (Z.to_nat block_length) Slot_new).

Lemma slot_at_nat {T} (blk : Block T) (i : nat) : slot_at blk (Z.of_nat i) = slots blk !! i.
Proof.
  unfold slot_at. rewrite (proj2 (Z.leb_le _ _)) by lia. by rewrite Nat2Z.id.
Qed.

Lemma existsb_false {A} (f : A → bool) l : existsb f l = false ↔ ∀ x, x ∈ l → f x = false.
Proof.
  rewrite <- not_true_iff_false, existsb_exists. split.
  - intros Hn x Hx. apply not_true_iff_false. intros Hf. apply Hn. exists x.
    by rewrite <- list_elem_of_In.
  - intros Hf (x & Hx%list_elem_of_In & Ht). rewrite Hf in Ht; done.
Qed.

(** ** Replies of the accesses *)

Section replies.
Context {T : Type} `{BlockGeometry} `{Allocator}.
Implicit Types s : mem T.

Lemma handle_load l s v : rd l s = Some v → handle (Load l) s = Next v s.
Proof. unfold handle, ubq_handler. by intros ->. Qed.

Lemma handle_store l v s s' : wr l v s = Some s' → handle (Store l v) s = Next tt s'.
Proof. unfold handle, ubq_handler. by intros ->. Qed.

Lemma handle_cas_ok w l old new s s' :
  rd l s = Some old → wr l new s = Some s' → handle (Cas w l old new) s = Next (inl old) s'.
Proof. unfold handle, ubq_handler. intros -> Hw. simpl. by rewrite Z.eqb_refl, Hw. Qed.

Lemma handle_cas_err w l old new s v :
  rd l s = Some v → v ≠ old → handle (Cas w l old new) s = Next (inr v) s.
Proof.
  unfold handle, ubq_handler. intros -> Hv. simpl. by rewrite (proj2 (Z.eqb_neq _ _) Hv).
Qed.

Lemma handle_swap l new s v s' :
  rd l s = Some v → wr l new s = Some s' → handle (Swap l new) s = Next v s'.
Proof. unfold handle, ubq_handler. intros -> Hw. simpl. by rewrite Hw. Qed.

Lemma handle_fetch_add l d s v s' :
  rd l s = Some v → is_usize (v + d) → wr l (v + d) s = Some s' →
  handle (FetchAdd l d) s = Next v s'.
Proof.
  unfold handle, ubq_handler. intros -> Hr Hw. simpl.
  unfold wrapping. rewrite Z.mod_small by (unfold is_usize, usize_max in Hr; lia). by rewrite Hw.
Qed.

Lemma in_allocation_true (al : gmap Z Layout) p l b n :
  al !! p = Some l → p ≤ b → b + n ≤ p + lsize l → in_allocation al b n = true.
Proof.
  intros Hp ??. unfold in_allocation. apply existsb_exists. exists (p, l). split.
  - by apply list_elem_of_In, elem_of_map_to_list.
  - apply andb_true_intro. split; apply Z.leb_le; lia.
Qed.

Lemma holds_block_false (bs : gmap Z (Block T)) p n :
  (∀ b blk, bs !! b = Some blk → p ≤ b < p + n → False) → holds_block bs p n = false.
Proof.
  intros Hn. apply existsb_false. intros [b blk] Hb%elem_of_map_to_list.
  destruct (Z.leb_spec p b); [|done]. destruct (Z.ltb_spec b (p + n)); [|done].
  exfalso. by eapply Hn.
Qed.

End replies.

Section slot_loops.
Context {T : Type} `{BlockGeometry} `{Allocator} `{Profile}.
Implicit Types (s : mem T) (blk : Block T).

(** A loop over the slots of one block whose body replaces the slot it visits by
    [f] of it and destroys the values [d] of it. *)
Lemma run_for_slots (f : Slot T → Slot T) (d : Slot T → list T) (ok : Slot T → Prop) b body :
  (∀ s blk (i : nat) x,
     blocks s !! b = Some blk → slots blk !! i = Some x → ok x →
     run (body (Z.of_nat i)) s =
       Done tt (set_dropped (dropped s ++ d x)
                 (set_blocks (<[b := set_slots (<[i := f x]> (slots blk)) blk]> (blocks s)) s))) →
  ∀ n (lo : nat) s blk,
    blocks s !! b = Some blk → (lo + n ≤ length (slots blk))%nat →
    Forall ok (take n (drop lo (slots blk))) →
    run (for_range n (Z.of_nat lo) body) s =
      Done tt (set_dropped (dropped s ++ concat (d <$> take n (drop lo (slots blk))))
        (set_blocks (<[b := set_slots (take lo (slots blk) ++
            (f <$> take n (drop lo (slots blk))) ++ drop (lo + n) (slots blk)) blk]> (blocks s)) s)).
Proof.
  intros Hbody n. induction n as [|n IH]; intros lo s blk Hb Hlen Hok.
  - simpl. rewrite Nat.add_0_r, app_nil_r, take_drop.
    destruct s, blk; simpl in *. by rewrite insert_id.
  - destruct (lookup_lt_is_Some_2 (slots blk) lo) as [x Hx]; [lia|].
    rewrite (drop_S _ _ _ Hx) in Hok |- *. simpl in Hok |- *.
    apply Forall_cons_1 in Hok as [Hx' Hok].
    rewrite run_bind, (Hbody s blk lo x) by done. simpl.
    replace (Z.of_nat lo + 1) with (Z.of_nat (S lo)) by lia.
    assert (drop (S lo) (<[lo:=f x]> (slots blk)) = drop (S lo) (slots blk)) as Hd.
    { by rewrite drop_insert_lt by lia. }
    assert (take (S lo) (<[lo:=f x]> (slots blk)) = take lo (slots blk) ++ [f x]) as Ht.
    { erewrite take_S_r by (apply list_lookup_insert_eq; lia). f_equal.
      by rewrite take_insert_ge by lia. }
    rewrite (IH (S lo) _ (set_slots (<[lo:=f x]> (slots blk)) blk)).
    + simpl. rewrite Hd, Ht, insert_insert_eq, <- !app_assoc. simpl.
      replace (lo + S n)%nat with (S (lo + n)) by lia.
      rewrite drop_insert_lt by lia. done.
    + simpl. by rewrite lookup_insert_eq.
    + simpl. rewrite length_insert. lia.
    + simpl. by rewrite Hd.
Qed.

Lemma run_initialize_slots s b blk :
  blocks s !! b = Some blk → length (slots blk) = Z.to_nat block_length →
  run (initialize_slots b block_length) s =
    Done tt (set_blocks (<[b := set_slots (replicate (Z.to_nat block_length) Slot_new) blk]>
                          (blocks s)) s).
Proof.
  intros Hb Hlen. unfold initialize_slots. change 0 with (Z.of_nat 0).
  rewrite (run_for_slots (λ _, Slot_new) (λ _, []) (λ _, True) b) with (blk := blk);
    [|intros s' blk' i x Hb' Hx _|done|lia|by apply Forall_true].
  - rewrite drop_0, Nat.add_0_l, <- Hlen, firstn_all, drop_all, app_nil_r. simpl.
    rewrite (const_fmap _ _ Slot_new) by done.
    by rewrite concat_fmap_nil, app_nil_r.
  - apply run_act. unfold handle, ubq_handler. rewrite Hb'. simpl.
    rewrite slot_at_nat, Hx. simpl. by rewrite Nat2Z.id, app_nil_r.
Qed.

Lemma run_reset s b blk :
  blocks s !! b = Some blk → length (slots blk) = Z.to_nat block_length →
  run (reset b) s =
    Done tt (set_blocks (<[b := mkBlock 0 (run_ptr blk) 0
        ((λ x, mkSlot ZERO (value x)) <$> slots blk)]> (blocks s)) s).
Proof.
  intros Hb Hlen. unfold reset.
  erewrite run_done_bind.
  2: { apply (λ Hbody, run_for_slots (λ x, mkSlot ZERO (value x)) (λ _, []) (λ _, True) b _
                Hbody (Z.to_nat block_length) 0%nat s blk Hb);
         [intros s' blk' i x Hb' Hx _|lia|by apply Forall_true].
       apply run_act, handle_store. unfold wr. rewrite Hb'. simpl.
       rewrite slot_at_nat, Hx. simpl. by rewrite Nat2Z.id, app_nil_r. }
  rewrite drop_0, Nat.add_0_l, <- Hlen, firstn_all, drop_all, app_nil_r, concat_fmap_nil.
  erewrite run_act_bind.
  2: { apply handle_store. unfold wr. simpl. by rewrite lookup_insert_eq. }
  erewrite run_act.
  2: { apply handle_store. unfold wr. simpl. by rewrite lookup_insert_eq. }
  simpl. by rewrite !insert_insert_eq, app_nil_r.
Qed.

(** The value of a slot [free] destroys. *)
Definition dropped_by (x : Slot T) : list T :=
  if state x =? WRITTEN then match value x with Some v => [v] | None => [] end else [].

Definition droppable (x : Slot T) : Prop :=
  0 ≤ state x ∧ (state x = WRITTEN → is_Some (value x)).

Lemma run_drop_slots s b blk (c : nat) :
  blocks s !! b = Some blk → length (slots blk) = Z.to_nat block_length →
  Z.of_nat c ≤ block_length → Forall droppable (drop c (slots blk)) →
  ∃ sl, run (for_range (Z.to_nat (block_length - Z.of_nat c)) (Z.of_nat c)
              (λ i, Slot_drop_inner b i)) s =
    Done tt (set_dropped (dropped s ++ concat (dropped_by <$> drop c (slots blk)))
              (set_blocks (<[b := set_slots sl blk]> (blocks s)) s)).
Proof.
  intros Hb Hlen Hc Hd.
  assert (take (Z.to_nat (block_length - Z.of_nat c)) (drop c (slots blk)) = drop c (slots blk)) as Ht.
  { apply take_ge. rewrite length_drop. lia. }
  eexists. rewrite (run_for_slots
    (λ x, if state x =? WRITTEN then mkSlot (state x) None else x) dropped_by droppable b)
    with (blk := blk); [by rewrite Ht| |done|lia|by rewrite Ht].
  intros s' blk' i x Hb' Hx [Hst Hv]. unfold Slot_drop_inner.
  assert (rd (StateOf b (Z.of_nat i)) s' = Some (state x)) as Hrd.
  { unfold rd. rewrite Hb'. simpl. rewrite slot_at_nat, Hx. simpl.
    by rewrite (proj2 (Z.ltb_ge _ _) Hst). }
  erewrite run_act_bind by (by apply handle_load).
  unfold dropped_by. destruct (Z.eqb_spec (state x) WRITTEN) as [E|].
  - destruct (Hv E) as [v Ev]. apply run_act. unfold handle, ubq_handler.
    rewrite Hb'. simpl. rewrite slot_at_nat, Hx. simpl. rewrite Ev. simpl.
    by rewrite Nat2Z.id.
  - simpl. rewrite app_nil_r, list_insert_id by done. destruct s', blk'; simpl in *.
    by rewrite insert_id.
Qed.

End slot_loops.

(** ** Allocation and reclamation of blocks *)

Section heap_ops.
Context {T : Type} `{BlockGeometry} `{Allocator} `{Profile}.
Implicit Types (s : mem T) (blk : Block T).

Definition wf s : Prop := heap_ok (run_ptr <$> blocks s) (runs s) (allocs s).

(** [s'] is [s] with the blocks [bs] and the destroyed values [ds], and some
    well-formed allocation state. *)
Definition heap_to s (bs : gmap Z (Block T)) (ds : list T) s' : Prop :=
  ∃ rs al, s' = mkMem (phead s) (chead s) (pool s) bs rs al ds ∧ wf s'.

Lemma rp_lookup s b blk : blocks s !! b = Some blk → (run_ptr <$> blocks s) !! b = Some (run_ptr blk).
Proof. intros Hb. by rewrite lookup_fmap, Hb. Qed.

Lemma rp_lookup_inv s b r :
  (run_ptr <$> blocks s) !! b = Some r → ∃ blk, blocks s !! b = Some blk ∧ run_ptr blk = r.
Proof. intros (blk & <- & ?)%lookup_fmap_Some. eauto. Qed.

Lemma rp_lookup_None s b : (run_ptr <$> blocks s) !! b = None → blocks s !! b = None.
Proof. by rewrite lookup_fmap, fmap_None. Qed.

(** Rewriting a block's content does not move it. *)
Lemma wf_update s b blk blk' :
  wf s → blocks s !! b = Some blk → run_ptr blk' = run_ptr blk →
  wf (set_blocks (<[b := blk']> (blocks s)) s).
Proof.
  intros Hwf Hb Hr. unfold wf; simpl. rewrite fmap_insert, Hr, insert_id; [done|].
  by apply rp_lookup.
Qed.

Lemma wf_words s p c q d :
  wf s → wf (mkMem p c q (blocks s) (runs s) (allocs s) d).
Proof. done. Qed.

Lemma wf_block_addr s b blk :
  wf s → blocks s !! b = Some blk → 0 < b ∧ b mod page = 0 ∧ b + page ≤ 2 ^ 64.
Proof. intros Hwf Hb. by eapply (block_range Hwf), rp_lookup. Qed.

Lemma wp_MpmcBlock_new s :
  wf s →
  wp MpmcBlock_new s (λ b s',
    blocks s !! b = None ∧ 0 < b ∧
    heap_to s (<[b := fresh_block 0 0]> (blocks s)) (dropped s) s').
Proof.
  intros Hwf. unfold MpmcBlock_new, allocate. pose proof page_pos.
  destruct (Z.eqb_spec (galloc (allocs s) page_layout) 0) as [E|Hnz].
  { unfold wp. simpl. unfold handle, ubq_handler. rewrite E. simpl. done. }
  destruct (heap_ok_alloc Hwf _ eq_refl Hnz) as [Hnone Hok].
  set (b := galloc (allocs s) page_layout) in *.
  apply rp_lookup_None in Hnone.
  set (s1 := set_allocs (<[b := page_layout]> (allocs s)) s).
  set (s2 := set_blocks (<[b := mkBlock 0 0 0 (replicate (Z.to_nat block_length) Slot_uninit)]>
               (blocks s)) s1).
  eapply wp_done.
  - rewrite run_bind, run_bind. erewrite (run_act _ s b s1).
    2: { unfold handle, ubq_handler. fold b. by rewrite (proj2 (Z.eqb_neq _ _) Hnz). }
    rewrite (proj2 (Z.eqb_neq _ _) Hnz).
    erewrite (run_act_bind _ _ s1 tt s2).
    2: { unfold handle, ubq_handler. simpl.
         rewrite (in_allocation_true _ b page_layout); [|by apply lookup_insert_eq|lia|simpl; lia].
         by rewrite (proj2 (Z.eqb_neq _ _) Hnz). }
    simpl. erewrite run_done_bind.
    2: { apply run_initialize_slots; [by apply lookup_insert_eq|]. apply length_replicate. }
    reflexivity.
  - split; [done|]. destruct (galloc_fresh (allocs s) page_layout b eq_refl Hnz). split; [done|].
    eexists _, _. simpl. split; [by rewrite insert_insert_eq|].
    unfold wf; simpl. by rewrite insert_insert_eq, fmap_insert.
Qed.

(** The blocks of a run of [n] pages at [p]. *)
Definition run_block (n : nat) (p i : Z) : Block T :=
  fresh_block (if i + 1 =? Z.of_nat n then 0 else p + (i + 1) * page) p.

Lemma wp_new_run s (n : nat) :
  wf s → (1 < n)%nat → page * Z.of_nat n ≤ isize_max + 1 - page →
  wp (new_run (Z.of_nat n)) s (λ '(p, t) s',
    0 < p ∧ t = p + (Z.of_nat n - 1) * page ∧
    run_map n p (run_block n p) ##ₘ blocks s ∧
    heap_to s (run_map n p (run_block n p) ∪ blocks s) (dropped s) s').
Proof.
  intros Hwf Hn Hfit. pose proof page_pos as Hpp. unfold new_run.
  rewrite (proj2 (Z.ltb_lt 1 (Z.of_nat n))) by lia. simpl.
  unfold checked_mul. simpl. rewrite (proj2 (Z.leb_le _ usize_max)) by (unfold isize_max, usize_max in *; lia).
  simpl. unfold Layout_from_size_align. rewrite page_pow2, (proj2 (Z.leb_le _ _) Hfit). simpl.
  set (l := mkLayout (page * Z.of_nat n) page).
  set (p := galloc (allocs s) l).
  destruct (Z.eqb_spec p 0) as [E|Hnz].
  { unfold wp. simpl. unfold handle, ubq_handler. fold p. rewrite E. simpl. done. }
  destruct (heap_ok_alloc_run Hwf n l p) as [Hdisj Hok];
    [lia|done|unfold isize_max, usize_max in *; lia|done|done|].
  assert (run_map n p (run_block n p) ##ₘ blocks s) as Hdisj'.
  { apply map_disjoint_spec. intros b x y (i & ? & -> & ->)%run_map_Some Hb.
    eapply map_disjoint_spec; [exact Hdisj| |by apply rp_lookup].
    apply run_map_Some. exists i. split; [done|]. done. }
  destruct (galloc_fresh (allocs s) l p eq_refl Hnz) as (Hp0 & _).
  eapply (wp_vis _ _ _ p (set_allocs (<[p := l]> (allocs s)) s)).
  { unfold handle, ubq_handler. fold p. by rewrite (proj2 (Z.eqb_neq _ _) Hnz). }
  rewrite (proj2 (Z.eqb_neq _ _) Hnz).
  eapply wp_vis; [reflexivity|]. simpl.
  apply wp_bind. rewrite Nat2Z.id.
  apply (wp_for_range (λ i s', 0 ≤ i ∧ s' = mkMem (phead s) (chead s) (pool s)
      (run_map (Z.to_nat i) p (run_block n p) ∪ blocks s)
      (<[p := mkBlockRun p l (Z.of_nat n)]> (runs s)) (<[p := l]> (allocs s)) (dropped s))).
  - split; [lia|]. simpl. by rewrite map_empty_union.
  - intros i s' Hi [_ ->].
    eapply wp_vis.
    { unfold handle, ubq_handler. simpl.
      rewrite (in_allocation_true _ p l); [|by apply lookup_insert_eq|nia|simpl; nia].
      by rewrite (proj2 (Z.eqb_neq (p + i * page) 0)) by nia. }
    eapply wp_done; [apply run_initialize_slots; simpl; [by apply lookup_insert_eq|apply length_replicate]|].
    simpl. split; [lia|]. f_equal. rewrite insert_insert_eq.
    replace (Z.to_nat (i + 1)) with (S (Z.to_nat i)) by lia. simpl.
    rewrite insert_union_l, Z2Nat.id by lia. do 2 f_equal. unfold run_block, fresh_block.
    f_equal. destruct (_ =? _); [done|]. lia.
  - rewrite Z.add_0_l, Nat2Z.id. intros s' [_ ->]. apply wp_ret.
    split; [done|]. split; [done|]. split; [done|]. eexists _, _. split; [done|].
    unfold wf; simpl. rewrite map_fmap_union, run_map_fmap. exact Hok.
Qed.

End heap_ops.

Section reclaim.
Context {T : Type} `{BlockGeometry} `{Allocator} `{Profile}.
Implicit Types (s : mem T) (blk : Block T).

Lemma wp_deallocate s b blk :
  wf s → blocks s !! b = Some blk →
  wp (deallocate b) s (λ _ s', heap_to s (delete b (blocks s)) (dropped s) s').
Proof.
  intros Hwf Hb. pose proof (rp_lookup _ _ _ Hb) as Hr. unfold deallocate. simpl.
  eapply wp_vis; [unfold handle, ubq_handler; by rewrite Hb|].
  eapply wp_vis; [unfold handle, ubq_handler; by rewrite Hb|]. simpl.
  destruct (Z.eqb_spec (run_ptr blk) 0) as [E|Hnz].
  - rewrite E in Hr. pose proof (hk_single _ _ _ Hwf b Hr) as Hal.
    eapply wp_act.
    + unfold handle, ubq_handler. simpl. rewrite Hal. simpl.
      rewrite bool_decide_eq_true_2 by done. rewrite holds_block_false; [done|].
      intros b' blk' [Hne Hb']%lookup_delete_Some Hin.
      destruct (blocks_disjoint Hwf b 0 b' (run_ptr blk')) as [?|?];
        [done|by apply rp_lookup|done|simpl in Hin; lia..].
    + eexists _, _. simpl. split; [done|]. unfold wf; simpl. rewrite fmap_delete.
      by apply heap_ok_free_single.
  - destruct (hk_member _ _ _ Hwf b _ Hr Hnz) as (rn & Hrn & _).
    destruct (hk_run _ _ _ Hwf _ _ Hrn) as (Hbase & Hal & Hrem & Hpos).
    unfold BlockRun_release. simpl.
    eapply wp_vis.
    { apply handle_fetch_add; [unfold rd; simpl; by rewrite Hrn|unfold is_usize; lia|].
      unfold wr; simpl. by rewrite Hrn. }
    rewrite debug_assert_ok by (apply Z.ltb_lt; lia). simpl.
    destruct (Z.eqb_spec (remaining rn) 1) as [E1|Hn1].
    + destruct (heap_ok_release_last Hwf b (run_ptr blk) rn Hr Hrn E1) as [Hok Hlast].
      eapply wp_vis; [unfold handle, ubq_handler; simpl; by rewrite lookup_insert_eq|]. simpl.
      eapply wp_vis; [unfold handle, ubq_handler; simpl; by rewrite lookup_insert_eq|]. simpl.
      eapply wp_act.
      * unfold handle, ubq_handler. simpl. rewrite Hbase, Hal. simpl.
        rewrite bool_decide_eq_true_2 by done. rewrite holds_block_false; [done|].
        intros b' blk' Hb' Hin. assert (delete b (blocks s) !! b' = Some blk') as Hb'' by done.
        apply lookup_delete_Some in Hb' as [Hne Hb'].
        pose proof (region_blocks Hwf _ _ b' _ Hal (rp_lookup _ _ _ Hb') Hin) as Eq.
        destruct (Z.eqb_spec (run_ptr blk') 0) as [E0|].
        -- subst b'. pose proof (rp_lookup _ _ _ Hb') as Hr'. rewrite E0 in Hr'.
           rewrite (single_not_run Hwf _ Hr') in Hrn. done.
        -- apply (Hlast b'). rewrite <- fmap_delete, lookup_fmap, Hb''. simpl. by rewrite Eq.
      * eexists _, _. simpl. split; [done|]. unfold wf; simpl. rewrite fmap_delete.
        by rewrite delete_insert_eq.
    + apply wp_ret. eexists _, _. simpl. split; [done|]. unfold wf; simpl. rewrite fmap_delete.
      by apply heap_ok_release.
Qed.

(** Freeing a block destroys exactly the values its slots still hold from the
    consumed count on. *)
Lemma wp_free s b blk :
  wf s → blocks s !! b = Some blk → length (slots blk) = Z.to_nat block_length →
  0 ≤ consumed blk ≤ block_length →
  Forall droppable (drop (Z.to_nat (consumed blk)) (slots blk)) →
  wp (free b) s (λ _ s',
    heap_to s (delete b (blocks s))
      (dropped s ++ concat (dropped_by <$> drop (Z.to_nat (consumed blk)) (slots blk))) s').
Proof.
  intros Hwf Hb Hlen Hc Hd. unfold free. simpl.
  eapply wp_vis; [apply handle_load; unfold rd; simpl; by rewrite Hb|].
  rewrite debug_assert_ok by (apply Z.leb_le; lia). simpl.
  destruct (run_drop_slots s b blk (Z.to_nat (consumed blk))) as [sl Hrun];
    [done|done|lia|done|].
  rewrite Z2Nat.id in Hrun by lia.
  apply wp_bind. eapply wp_done; [exact Hrun|].
  eapply wp_mono; [eapply wp_deallocate; [|simpl; by apply lookup_insert_eq]|].
  - apply (wf_words (set_blocks (<[b:=set_slots sl blk]> (blocks s)) s)).
    by eapply wf_update.
  - intros _ s' (rs & al & -> & Hwf'). simpl in *. eexists _, _.
    rewrite delete_insert_eq in *. done.
Qed.

Lemma fresh_droppable nx r : Forall (@droppable T) (slots (fresh_block nx r)).
Proof. apply Forall_replicate. split; simpl; [unfold ZERO; lia|done]. Qed.

Lemma wp_free_fresh s b nx r :
  wf s → blocks s !! b = Some (fresh_block nx r) →
  wp (free b) s (λ _ s', heap_to s (delete b (blocks s)) (dropped s) s').
Proof.
  intros Hwf Hb. pose proof length_pos. eapply wp_mono.
  - eapply wp_free; [done|exact Hb|apply length_replicate|simpl; lia|].
    rewrite drop_0. apply fresh_droppable.
  - intros ? s'. simpl. rewrite drop_0. unfold dropped_by.
    assert (concat ((λ x : Slot T, if state x =? WRITTEN
      then match value x with Some v => [v] | None => [] end else []) <$>
      replicate (Z.to_nat block_length) Slot_new) = []) as ->.
    { induction (Z.to_nat block_length); [done|]. by rewrite replicate_S, fmap_cons. }
    by rewrite app_nil_r.
Qed.

End reclaim.
