(* ===== verification/MpmcChain.v ===== *)
(** * Private block chains

    The blocks of the memory are split between those the queue shares ([fixed]),
    the private chain [l] of a push in progress, and the pool.  The chain
    operations keep that split. *)

From S2P Require Import Prelude Prog Layout Head Geometry MpmcBlock MpmcHeap MpmcOps.

Section chains.
Context {T : Type} `{BlockGeometry} `{Allocator} `{Profile}.
Implicit Types (s : mem T) (fixed : gmap Z (Block T)) (l : list Z).

Definition chain_of l : BlockChain :=
  mkChain (default 0 (l !! 0%nat)) (default 0 (last l)) (Z.of_nat (length l) * block_length).

(** The blocks of [l] are fresh and linked in order, the last one terminal. *)
Definition chain_at (bs : gmap Z (Block T)) l : Prop :=
  ∀ i b, l !! i = Some b → ∃ r, bs !! b = Some (fresh_block (default 0 (l !! S i)) r).

Definition pool_list s : list Z := if pool s =? 0 then [] else [pool s].

Definition owned (ll : list (list Z)) s : list Z := mjoin ll ++ pool_list s.

Record store fixed (ll : list (list Z)) s : Prop := {
  st_wf : wf s;
  st_fixed : fixed ⊆ blocks s;
  st_nodup : NoDup (owned ll s);
  st_disj : ∀ b, b ∈ owned ll s → fixed !! b = None;
  st_dom : ∀ b, is_Some (blocks s !! b) → is_Some (fixed !! b) ∨ b ∈ owned ll s;
  st_chain : ∀ l, l ∈ pool_list s :: ll → chain_at (blocks s) l
}.

(** The words of the queue other than the pool, and the destroyed values, are
    left alone. *)
Definition same_words s s' : Prop :=
  phead s' = phead s ∧ chead s' = chead s ∧ dropped s' = dropped s.

Lemma store_words fixed ll s p c d :
  store fixed ll s → store fixed ll (mkMem p c (pool s) (blocks s) (runs s) (allocs s) d).
Proof. by intros []. Qed.

Lemma store_perm fixed ll ll' s : ll ≡ₚ ll' → store fixed ll s → store fixed ll' s.
Proof.
  intros Hp []. assert (owned ll s ≡ₚ owned ll' s) as Ho.
  { unfold owned. f_equiv. by rewrite Hp. }
  split; try done.
  - by rewrite <- Ho.
  - intros b. rewrite <- Ho. auto.
  - intros b. rewrite <- Ho. auto.
  - intros l. rewrite <- Hp. auto.
Qed.

(** Taking the pool block yields a private chain. *)
Lemma store_take_pool fixed ll s :
  store fixed ll s → store fixed (pool_list s :: ll) (set_pool 0 s).
Proof.
  intros []. assert (owned (pool_list s :: ll) (set_pool 0 s) ≡ₚ owned ll s) as Ho.
  { unfold owned. simpl. rewrite app_nil_r. apply Permutation_app_comm. }
  split; simpl; try done.
  - by rewrite Ho.
  - intros b. rewrite Ho. auto.
  - intros b. rewrite Ho. auto.
  - intros l [->|Hl]%elem_of_cons; [intros i b Hi; by destruct i|]. auto.
Qed.

(** An empty chain owns nothing. *)
Lemma store_nil fixed ll s : store fixed ([] :: ll) s ↔ store fixed ll s.
Proof.
  split; intros []; split; try done.
  - intros l [->|?]%elem_of_cons; apply st_chain0; [left|by right; right].
  - intros l [->|[->|?]%elem_of_cons]%elem_of_cons;
      [apply st_chain0; left|intros i b Hi; by destruct i|apply st_chain0; by right].
Qed.

Lemma owned_addr_pos fixed ll s b : store fixed ll s → b ∈ owned ll s → 0 < b.
Proof.
  intros Hs Hb. assert (∃ l i, l ∈ pool_list s :: ll ∧ l !! i = Some b) as (l & i & Hl & Hi).
  { apply elem_of_app in Hb as [(l & Hb & Hl)%list_elem_of_join|Hb].
    - apply list_elem_of_lookup in Hb as [i Hi]. exists l, i. split; [by right|done].
    - apply list_elem_of_lookup in Hb as [i Hi]. exists (pool_list s), i. split; [left|done]. }
  destruct (st_chain _ _ _ Hs l Hl i b Hi) as [r Hb'].
  by eapply wf_block_addr in Hb' as (? & _); [|apply Hs].
Qed.

Lemma chain_root_nonzero fixed ll l s b :
  store fixed ll s → b :: l ∈ ll → (b =? 0) = false.
Proof.
  intros Hs Hl. apply Z.eqb_neq.
  assert (0 < b); [|lia]. eapply owned_addr_pos; [done|].
  apply elem_of_app. left. apply list_elem_of_join. exists (b :: l). split; [left|done].
Qed.

(** Appending block [b] (fresh, unlinked) behind a private chain. *)
Lemma chain_at_app bs l1 l2 t :
  NoDup (l1 ++ [t] ++ l2) → chain_at bs (l1 ++ [t]) → chain_at bs l2 →
  ∃ r, bs !! t = Some (fresh_block 0 r) ∧
       chain_at (<[t := fresh_block (default 0 (l2 !! 0%nat)) r]> bs) (l1 ++ [t] ++ l2).
Proof.
  intros Hnd Hc1 Hc2. destruct (Hc1 (length l1) t) as [r Ht].
  { by rewrite lookup_app_r, Nat.sub_diag by lia. }
  rewrite lookup_ge_None_2 in Ht by (rewrite length_app; simpl; lia).
  exists r. split; [done|]. intros i b Hi.
  destruct (Nat.lt_trichotomy i (length l1)) as [Hlt|[->|Hgt]].
  - assert ((l1 ++ [t]) !! i = Some b) as Hi' by (rewrite lookup_app_l in Hi |- * by lia; done).
    destruct (Hc1 i b Hi') as [r' Hb]. exists r'.
    assert (t ≠ b).
    { intros ->. apply NoDup_app in Hnd as (_ & Hn & _). apply (Hn b); [|left].
      rewrite lookup_app_l in Hi by lia. by eapply list_elem_of_lookup_2. }
    rewrite lookup_insert_ne by done. rewrite Hb. do 2 f_equal.
    destruct (decide (S i = length l1)) as [E|].
    + by rewrite E, !lookup_app_r, Nat.sub_diag by lia.
    + by rewrite !lookup_app_l by lia.
  - rewrite lookup_app_r, Nat.sub_diag in Hi by lia. injection Hi as <-.
    rewrite lookup_insert_eq, lookup_app_r by lia.
    replace (S (length l1) - length l1)%nat with 1%nat by lia. simpl. eauto.
  - rewrite lookup_app_r in Hi by lia. destruct (i - length l1)%nat as [|j] eqn:Ej; [lia|].
    simpl in Hi. destruct (Hc2 j b Hi) as [r' Hb]. exists r'.
    assert (t ≠ b).
    { intros ->. apply NoDup_app in Hnd as (_ & _ & Hn). apply NoDup_cons in Hn as [Hn _].
      apply Hn. by eapply list_elem_of_lookup_2. }
    rewrite lookup_insert_ne by done. rewrite Hb, lookup_app_r by lia.
    replace (S i - length l1)%nat with (S (S j)) by lia. done.
Qed.

Lemma chain_at_mono bs bs' l :
  (∀ b, b ∈ l → bs' !! b = bs !! b) → chain_at bs l → chain_at bs' l.
Proof.
  intros Heq Hc i b Hi. rewrite Heq by (by eapply list_elem_of_lookup_2). by apply Hc.
Qed.

(** The links of a private chain lie in the memory it owns. *)
Lemma in_owned l ll s b : b ∈ l → l ∈ pool_list s :: ll → b ∈ owned ll s.
Proof.
  intros Hb [->|Hl]%elem_of_cons; apply elem_of_app; [by right|left].
  apply list_elem_of_join. eauto.
Qed.

Lemma store_link fixed l1 t l2 ll s :
  store fixed ((l1 ++ [t]) :: l2 :: ll) s →
  ∃ r, blocks s !! t = Some (fresh_block 0 r) ∧
    store fixed ((l1 ++ [t] ++ l2) :: ll)
      (set_blocks (<[t := fresh_block (default 0 (l2 !! 0%nat)) r]> (blocks s)) s).
Proof.
  intros Hs. destruct Hs as [Hwf Hf Hnd Hdj Hdom Hch].
  assert (owned ((l1 ++ [t]) :: l2 :: ll) s = (l1 ++ [t] ++ l2) ++ mjoin ll ++ pool_list s) as Ho.
  { unfold owned. simpl. by rewrite <- !app_assoc. }
  rewrite Ho in *.
  destruct (chain_at_app (blocks s) l1 l2 t) as (r & Ht & Hc).
  { by apply NoDup_app in Hnd as (? & _). }
  { apply Hch. right. left. }
  { apply Hch. right. right. left. }
  exists r. split; [done|].
  assert (owned ((l1 ++ [t] ++ l2) :: ll) (set_blocks (<[t := fresh_block (default 0 (l2 !! 0%nat)) r]>
    (blocks s)) s) = (l1 ++ [t] ++ l2) ++ mjoin ll ++ pool_list s) as Ho'.
  { unfold owned. simpl. by rewrite <- !app_assoc. }
  assert (t ∈ l1 ++ [t] ++ l2) as Htin by set_solver.
  split; rewrite ?Ho'; simpl.
  - by eapply wf_update.
  - apply insert_subseteq_r; [|done]. apply Hdj. set_solver.
  - done.
  - done.
  - intros b. destruct (decide (t = b)) as [->|]; [right; set_solver|].
    rewrite lookup_insert_ne by done. apply Hdom.
  - intros l Hl. unfold pool_list in Hl; simpl in Hl; fold (pool_list s) in Hl.
    rewrite !elem_of_cons in Hl. destruct (decide (l = l1 ++ [t] ++ l2)) as [->|Hne]; [done|].
    apply chain_at_mono with (bs := blocks s).
    + intros b Hb. rewrite lookup_insert_ne; [done|]. intros ->.
      apply NoDup_app in Hnd as (_ & Hnd & _). apply (Hnd b); [done|].
      apply (in_owned l); [done|]. rewrite elem_of_cons. tauto.
    + apply Hch. rewrite !elem_of_cons. tauto.
Qed.

Lemma store_alloc fixed l ll s s' (m : gmap Z (Block T)) :
  store fixed ll s → heap_to s (m ∪ blocks s) (dropped s) s' → m ##ₘ blocks s →
  NoDup l → (∀ b, b ∈ l ↔ is_Some (m !! b)) → chain_at m l →
  store fixed (l :: ll) s' ∧ same_words s s'.
Proof.
  intros [] (rs & al & -> & Hwf) Hdisj Hnd Hm Hc. split; [|done].
  assert (∀ b, b ∈ l → blocks s !! b = None) as Hnone.
  { intros b [x Hx]%Hm. by eapply map_disjoint_Some_r. }
  assert (∀ b, b ∈ owned ll s → is_Some (blocks s !! b)) as Hown.
  { intros b Hb. apply elem_of_app in Hb as [(l' & Hb & Hl)%list_elem_of_join|Hb];
      apply list_elem_of_lookup in Hb as [i Hi].
    - destruct (st_chain0 l' ltac:(by right) i b Hi) as [r Hr]. eauto.
    - destruct (st_chain0 (pool_list s) ltac:(left) i b Hi) as [r Hr]. eauto. }
  assert (owned (l :: ll) (mkMem (phead s) (chead s) (pool s) (m ∪ blocks s) rs al (dropped s))
    = l ++ owned ll s) as Ho by (unfold owned; simpl; by rewrite <- app_assoc).
  split; rewrite ?Ho; simpl.
  - done.
  - by apply map_union_subseteq_r'.
  - apply NoDup_app. split; [done|]. split; [|done].
    intros b Hb [x Hx]%Hown. by rewrite Hnone in Hx.
  - intros b [Hb|Hb]%elem_of_app; [|by auto].
    destruct (fixed !! b) eqn:E; [|done]. apply (lookup_weaken _ _ _ _ E) in st_fixed0.
    by rewrite Hnone in st_fixed0.
  - intros b [x [Hx|Hx]%lookup_union_Some]; [| |done].
    + right. apply elem_of_app. left. apply Hm. eauto.
    + rewrite elem_of_app. destruct (st_dom0 b ltac:(eauto)); auto.
  - intros l' [->|[->|Hl]%elem_of_cons]%elem_of_cons.
    + eapply chain_at_mono; [|apply (st_chain0 (pool_list s)); left].
      intros b Hb. apply lookup_union_r. destruct (m !! b) eqn:E; [|done].
      destruct (Hown b) as [x Hx]; [apply (in_owned (pool_list s)); [done|left]|].
      rewrite Hnone in Hx; [done|]. apply Hm. eauto.
    + eapply chain_at_mono; [|done]. intros b [x Hx]%Hm. rewrite Hx.
      by apply lookup_union_Some_l.
    + eapply chain_at_mono; [|apply (st_chain0 l'); by right].
      intros b Hb. apply lookup_union_r. destruct (m !! b) eqn:E; [|done].
      destruct (Hown b) as [x Hx]; [apply (in_owned l'); [done|by right]|].
      rewrite Hnone in Hx; [done|]. apply Hm. eauto.
Qed.

(** ** The chain operations *)

Lemma chain_of_nil : chain_of [] = BlockChain_zero.
Proof. done. Qed.

Lemma chain_of_single b : chain_of [b] = BlockChain_new_with b.
Proof. unfold chain_of, BlockChain_new_with. simpl. f_equal. lia. Qed.

Lemma chain_of_cons b l :
  chain_of (b :: l) = mkChain b (default 0 (last (b :: l))) (Z.of_nat (S (length l)) * block_length).
Proof. done. Qed.

Lemma last_in (l : list Z) t : last l = Some t → t ∈ l.
Proof. intros [l' ->]%last_Some. set_solver. Qed.

Lemma chain_tail_nonzero fixed ll l s b :
  store fixed ll s → b :: l ∈ ll → (default 0 (last (b :: l)) =? 0) = false.
Proof.
  intros Hs Hl. destruct (last (b :: l)) as [t|] eqn:E; [|by apply last_None in E].
  simpl. apply Z.eqb_neq. assert (0 < t); [|lia]. eapply owned_addr_pos; [done|].
  apply (in_owned (b :: l)); [by apply last_in|by right].
Qed.

Lemma last_app_default (l1 l2 : list Z) :
  l2 ≠ [] → default 0 (last (l1 ++ l2)) = default 0 (last l2).
Proof. intros Hl. rewrite last_app. destruct (last l2) eqn:E; [done|]. by apply last_None in E. Qed.

Lemma wp_give fixed l1 l2 ll s :
  store fixed (l1 :: l2 :: ll) s →
  Z.of_nat (length l1 + length l2) * block_length ≤ usize_max →
  wp (give (chain_of l1) (chain_of l2)) s (λ c s',
    c = chain_of (l1 ++ l2) ∧ store fixed ((l1 ++ l2) :: ll) s' ∧ same_words s s').
Proof.
  intros Hs Hmax. pose proof length_pos. unfold give. destruct l2 as [|b2 l2].
  { rewrite chain_of_nil; cbn -[debug_assert].
    do 2 (apply wp_debug_assert; [done|]).
    apply wp_ret. rewrite app_nil_r. split; [done|]. split; [|done].
    apply store_nil. eapply store_perm; [|exact Hs]. constructor. }
  rewrite chain_of_cons. cbn [chain_root chain_tail chain_size].
  rewrite (chain_root_nonzero _ _ l2 _ b2 Hs) by set_solver.
  rewrite (chain_tail_nonzero _ _ l2 _ b2 Hs) by set_solver.
  apply wp_debug_assert; [done|].
  apply wp_debug_assert; [by rewrite (proj2 (Z.eqb_neq _ 0)) by nia|].
  eapply wp_expect_bind.
  { unfold checked_add. rewrite (proj2 (Z.leb_le _ usize_max)) by (destruct l1; simpl in *; lia).
    reflexivity. }
  destruct l1 as [|b1 l1].
  - cbn [chain_of chain_root chain_tail chain_size length].
    rewrite !debug_assert_ok by done. apply wp_ret. split; [done|]. split; [|done]. by apply (store_nil fixed).
  - rewrite chain_of_cons. cbn [chain_root chain_tail chain_size].
    rewrite (chain_root_nonzero _ _ l1 _ b1 Hs) by set_solver.
    rewrite (chain_tail_nonzero _ _ l1 _ b1 Hs) by set_solver.
    apply wp_debug_assert; [done|].
    destruct (last (b1 :: l1)) as [t|] eqn:Et; [|by apply last_None in Et].
    pose proof Et as [l1' El1]%last_Some. rewrite El1 in Hs.
    destruct (store_link _ _ _ _ _ _ Hs) as (r & Ht & Hs').
    eapply wp_vis; [apply handle_store; unfold wr; simpl; by rewrite Ht|].
    apply wp_ret. split; [|split; [|done]].
    + unfold chain_of. rewrite (last_app_default (b1 :: l1)) by done.
      simpl. f_equal. rewrite length_app. simpl. lia.
    + rewrite El1, <- app_assoc. exact Hs'.
Qed.

Lemma chain_at_run (n : nat) p :
  (0 < n)%nat → 0 < p →
  let l := (λ i : nat, p + Z.of_nat i * page) <$> seq 0 n in
  chain_at (run_map n p (run_block n p)) l ∧ NoDup l ∧
  ∀ b, b ∈ l ↔ is_Some (run_map (A:=Block T) n p (run_block n p) !! b).
Proof.
  intros Hn Hp l. pose proof page_pos. split; [|split].
  - intros i b. unfold l. rewrite !list_lookup_fmap. intros (j & Hj & ->)%fmap_Some.
    apply lookup_seq in Hj as [-> Hi]. simpl in *. exists p. apply run_map_Some.
    exists (Z.of_nat i). split; [lia|]. split; [done|]. unfold run_block. f_equal.
    destruct (decide (S i < n)%nat) as [Hlt|].
    + rewrite lookup_seq_lt by done. simpl. rewrite (proj2 (Z.eqb_neq _ _)) by lia. f_equal. lia.
    + rewrite lookup_seq_ge by lia. simpl. by rewrite (proj2 (Z.eqb_eq _ _)) by lia.
  - apply NoDup_fmap_2; [|apply NoDup_seq]. intros i j E. nia.
  - intros b. unfold l. rewrite list_elem_of_fmap. split.
    + intros (i & -> & Hi%elem_of_seq). eexists. apply run_map_Some.
      exists (Z.of_nat i). split; [lia|done].
    + intros [x (i & ? & -> & _)%run_map_Some]. exists (Z.to_nat i). split; [lia|].
      apply elem_of_seq. lia.
Qed.

Lemma wp_BlockChain_new fixed ll s sz :
  store fixed ll s → 0 < sz → page * div_ceil sz block_length ≤ isize_max + 1 - page →
  div_ceil sz block_length * block_length ≤ usize_max →
  wp (BlockChain_new sz) s (λ c s', ∃ l,
    c = chain_of l ∧ Z.of_nat (length l) = div_ceil sz block_length ∧
    store fixed (l :: ll) s' ∧ same_words s s').
Proof.
  intros Hs Hsz Hfit Hmax. pose proof length_pos. pose proof page_pos.
  assert (0 < div_ceil sz block_length) as Hpos by (by apply div_ceil_pos).
  unfold BlockChain_new. rewrite (proj2 (Z.eqb_neq sz 0)) by lia.
  eapply wp_expect_bind; [unfold checked_mul; by rewrite (proj2 (Z.leb_le _ _) Hmax)|].
  destruct (Z.eqb_spec (div_ceil sz block_length) 1) as [E|Hne].
  - apply wp_bind. eapply wp_mono; [apply wp_MpmcBlock_new, Hs|].
    intros b s' (Hnone & Hb & Hheap). apply wp_ret. exists [b].
    rewrite chain_of_single. split; [done|]. split; [simpl; lia|].
    apply (store_alloc fixed [b] ll s s' {[b := fresh_block 0 0]} Hs).
    + by rewrite <- insert_union_singleton_l.
    + by apply map_disjoint_singleton_l.
    + apply NoDup_singleton.
    + intros b'. rewrite list_elem_of_singleton. split.
      * intros ->. rewrite lookup_singleton_eq. eauto.
      * intros [x [-> _]%lookup_singleton_Some]. done.
    + intros [|i] b'; [|by destruct i]. intros [= <-]. exists 0. apply lookup_singleton_eq.
  - set (n := Z.to_nat (div_ceil sz block_length)).
    replace (div_ceil sz block_length) with (Z.of_nat n) in * by lia.
    apply wp_bind. eapply wp_mono; [apply wp_new_run; [apply Hs|lia|lia]|].
    intros [p t] s' (Hp & -> & Hdisj & Hheap). apply wp_ret.
    destruct (chain_at_run n p) as (Hc & Hnd & Hin); [lia|done|].
    eexists. split; [|split; [|by apply (store_alloc fixed _ ll s s' _ Hs Hheap Hdisj Hnd Hin Hc)]].
    + destruct n as [|m]; [lia|]. unfold chain_of. f_equal.
      * simpl. lia.
      * rewrite seq_S, fmap_app. simpl. rewrite last_snoc. simpl. lia.
      * by rewrite length_fmap, length_seq.
    + by rewrite length_fmap, length_seq.
Qed.

(** Growing a private chain: the pool block first, then fresh blocks. *)
Lemma wp_grow_to_fit_with fixed l s sz :
  store fixed [l] s → 0 ≤ sz →
  page * (sz + 1) ≤ isize_max + 1 - page →
  (Z.of_nat (length l) + sz + 2) * block_length ≤ usize_max →
  wp (grow_to_fit_with (chain_of l) sz) s (λ c s', ∃ l',
    c = chain_of l' ∧ sz ≤ Z.of_nat (length l') * block_length ∧
    Z.of_nat (length l') ≤ Z.of_nat (length l) + 1 + sz ∧
    store fixed [l'] s' ∧ same_words s s').
Proof.
  intros Hs Hsz Hfit Hmax. pose proof length_pos. pose proof page_pos. unfold grow_to_fit_with.
  apply wp_bind.
  apply (wp_mono _ _ (λ c s', ∃ l', c = chain_of l' ∧ (length l' ≤ length l + 1)%nat ∧
    store fixed [l'] s' ∧ same_words s s')).
  { destruct (Z.ltb_spec (chain_size (chain_of l)) sz); [|apply wp_ret; exists l; split; [done|]; split; [lia|]; done].
    eapply wp_act_bind; [by apply handle_swap|].
    pose proof (store_take_pool _ _ _ Hs) as Hs'. unfold pool_list in Hs'.
    destruct (Z.eqb_spec (pool s) 0) as [E|Hnz]; simpl.
    - apply wp_ret. exists l. split; [done|]. split; [lia|]. split; [|done]. by apply (store_nil fixed).
    - rewrite <- chain_of_single. eapply wp_mono; [apply (wp_give fixed l [pool s] [])|].
      + eapply store_perm; [|exact Hs']. constructor.
      + simpl. nia.
      + intros c s' (-> & ? & ?). exists (l ++ [pool s]). rewrite length_app. simpl.
        split; [done|]. split; [lia|]. done. }
  intros c s' (l' & -> & Hlen & Hs' & Hw).
  destruct (Z.ltb_spec (chain_size (chain_of l')) sz) as [Hlt|];
    [|apply wp_ret; exists l'; split_and!; [done|done|lia|done|done]].
  cbn [chain_of chain_size] in Hlt |- *. set (d := sz - _).
  assert (div_ceil d block_length ≤ d) as Hd.
  { pose proof (div_ceil_spec d block_length length_pos). nia. }
  apply wp_bind. eapply wp_mono; [apply (wp_BlockChain_new _ _ _ d Hs'); nia|].
  intros c s'' (l'' & -> & Hl'' & Hs'' & Hw').
  eapply wp_mono; [apply (wp_give fixed l' l'' [])|].
  - eapply store_perm; [|exact Hs'']. constructor.
  - nia.
  - intros c s3 (-> & Hs3 & Hw3). exists (l' ++ l''). split; [done|].
    pose proof (div_ceil_spec d block_length length_pos). rewrite length_app.
    split; [nia|]. split; [lia|]. split.
    + done.
    + destruct Hw as (?&?&?), Hw' as (?&?&?), Hw3 as (?&?&?). repeat split; congruence.
Qed.

(** Freeing a private chain returns every block of it. *)
Lemma store_free_head fixed b l ll s s' :
  store fixed ((b :: l) :: ll) s → heap_to s (delete b (blocks s)) (dropped s) s' →
  store fixed (l :: ll) s' ∧ same_words s s'.
Proof.
  intros [] (rs & al & -> & Hwf). split; [|done].
  assert (owned ((b :: l) :: ll) s = b :: owned (l :: ll) s) as Ho by done.
  rewrite Ho in *. apply NoDup_cons in st_nodup0 as [Hb Hnd].
  assert (∀ l', l' ∈ pool_list s :: ll → chain_at (delete b (blocks s)) l') as Hch.
  { intros l' Hl'. eapply chain_at_mono; [|apply st_chain0; set_solver].
    intros b' Hb'. apply lookup_delete_ne. intros ->. apply Hb.
    apply (in_owned l'); [done|set_solver]. }
  split; simpl.
  - done.
  - apply map_subseteq_spec. intros b' x Hx. apply lookup_delete_Some.
    split; [|by eapply lookup_weaken]. intros ->. rewrite st_disj0 in Hx by set_solver. done.
  - done.
  - intros b' Hb'. apply st_disj0. by right.
  - intros b' [x [Hne Hx]%lookup_delete_Some]. destruct (st_dom0 b' ltac:(eauto)) as [?|Hin]; [by left|].
    right. by apply elem_of_cons in Hin as [->|?].
  - intros l' [->|[->|Hl']%elem_of_cons]%elem_of_cons; [apply Hch; left| |apply Hch; by right].
    intros i b' Hi. destruct (st_chain0 (b :: l) ltac:(set_solver) (S i) b' Hi) as [r Hr].
    exists r. rewrite lookup_delete_ne; [done|]. intros ->. apply Hb.
    apply (in_owned l); [by eapply list_elem_of_lookup_2|set_solver].
Qed.

Lemma wp_free_chain fixed l ll s fuel :
  store fixed (l :: ll) s → (length l < fuel)%nat →
  wp (free_chain fuel (default 0 (l !! 0%nat))) s (λ _ s',
    store fixed ll s' ∧ same_words s s').
Proof.
  unfold free_chain. revert l s. induction fuel as [|fuel IH]; intros l s Hs Hf; [lia|].
  apply wp_loop_unfold. destruct l as [|b l].
  { apply wp_ret. split; [by apply (store_nil fixed)|done]. }
  cbn [lookup list_lookup default option_map from_option]. unfold default, id.
  rewrite (chain_root_nonzero _ _ l _ b Hs) by left.
  destruct (st_chain _ _ _ Hs (b :: l) ltac:(set_solver) 0%nat b eq_refl) as [r Hb].
  eapply wp_act_bind; [apply handle_load; unfold rd; by rewrite Hb|].
  apply wp_bind. eapply wp_mono; [by eapply wp_free_fresh; [apply Hs|]|].
  intros ? s' Hh. destruct (store_free_head _ _ _ _ _ _ Hs Hh) as [Hs' Hw]. apply wp_ret.
  eapply wp_mono; [apply (IH l s' Hs'); simpl in Hf; lia|].
  intros ? s'' [Hs'' Hw']. split; [done|].
  destruct Hw as (?&?&?), Hw' as (?&?&?). repeat split; congruence.
Qed.

End chains.
