(* ===== verification/UbqInv.v ===== *)
(** * The representation invariant of the MPMC queue

    The memory holds, for a logical state [g], exactly the live blocks of [g]
    with the contents [g] prescribes, the pool block and the private chains of
    the operation in progress.  Each access of the queue operations to a shared
    block is a transition of [g]. *)

From S2P Require Import Prelude Prog Layout Head Geometry Epochs MpmcBlock MpmcHeap MpmcOps MpmcChain UbqQueue.

(** ** The blocks of the MPMC queue as a function of the logical state

    The content of each live block of the MPMC queue: its link, its consumption
    count and its slots. *)

Section ghost.
Context {T : Type} `{BlockGeometry}.
Implicit Types (g : ghost T) (fixed : gmap Z (Block T)).

Definition slot_of g (p : nat) : Slot T :=
  match cells g !! p with
  | None => Slot_new
  | Some None => mkSlot SKIP None
  | Some (Some v) => mkSlot WRITTEN (if decide (unread g p) then Some v else None)
  end.

Definition block_of g (k : nat) (r : Z) : Block T :=
  mkBlock (addr g (S k)) r (Z.of_nat (consumed_of g k)) (slot_of g <$> seq (k * BL) BL).

(** [g'] differs from [g] in the [k]-th block only. *)
Definition same_except g g' (k : nat) : Prop :=
  addrs g' = addrs g ∧
  ∀ p, (p < k * BL ∨ k * BL + BL ≤ p)%nat →
    (released g' p ↔ released g p) ∧ slot_of g' p = slot_of g p.

Lemma block_of_ext g g' j r :
  addrs g' = addrs g →
  (∀ p, (j * BL ≤ p < j * BL + BL)%nat →
     (released g' p ↔ released g p) ∧ slot_of g' p = slot_of g p) →
  block_of g' j r = block_of g j r.
Proof.
  intros Ha He. unfold block_of, addr. rewrite Ha. f_equal.
  - f_equal. apply consumed_of_ext. intros p Hp. by apply He.
  - apply list_fmap_ext. intros i p Hi%lookup_seq. apply He. lia.
Qed.

Lemma same_except_block g g' k j r :
  same_except g g' k → j ≠ k →
  block_of g' j r = block_of g j r ∧ consumed_of g' j = consumed_of g j ∧
  addr g' j = addr g j ∧ (live g' j ↔ live g j).
Proof.
  intros [Ha He] Hj. assert (consumed_of g' j = consumed_of g j) as Hc.
  { apply consumed_of_ext. intros p Hp. by apply He, (other_block j). }
  split; [|split; [done|split]].
  - apply block_of_ext; [done|]. intros p Hp. by apply He, (other_block j).
  - unfold addr. by rewrite Ha.
  - unfold live. by rewrite Ha, Hc.
Qed.

(** The blocks of the MPMC queue in memory. *)
Definition mpmc_shape g (k : nat) (b : Block T) : Prop := ∃ r, b = block_of g k r.

Definition queue_map g fixed : Prop := epoch_map (mpmc_shape g) g fixed.

Section map_facts.
Context {g : ghost T} {fixed : gmap Z (Block T)} (Hq : queue_map g fixed).

Lemma qm_inj k k' : live g k → live g k' → addr g k = addr g k' → k = k'.
Proof. apply (em_inj _ _ _ Hq). Qed.

Lemma qm_block k : live g k → ∃ r, fixed !! addr g k = Some (block_of g k r).
Proof. intros Hk. destruct (em_block _ _ _ Hq k Hk) as (b & Hb & r & ->). eauto. Qed.

Lemma qm_dom b : is_Some (fixed !! b) → ∃ k, live g k ∧ addr g k = b.
Proof. apply (em_dom _ _ _ Hq). Qed.

End map_facts.

Lemma same_except_frame g g' k : same_except g g' k → epoch_frame (mpmc_shape g) (mpmc_shape g') g g' k.
Proof.
  intros Hse. split; [apply Hse| |].
  - intros j Hj. by apply (same_except_block g g' k j 0).
  - intros j b Hj [r ->]. exists r. symmetry. by apply (same_except_block g g' k).
Qed.

Lemma queue_map_update g g' fixed k r :
  queue_map g fixed → same_except g g' k → live g k → live g' k →
  queue_map g' (<[addr g k := block_of g' k r]> fixed).
Proof.
  intros. eapply epoch_map_update; [done|by apply same_except_frame|done|done|by exists r].
Qed.

Lemma queue_map_remove g g' fixed k :
  queue_map g fixed → same_except g g' k → live g k → ¬ live g' k →
  queue_map g' (delete (addr g k) fixed).
Proof. intros. eapply epoch_map_remove; [done|by apply same_except_frame|done|done]. Qed.

Lemma queue_map_same g g' fixed :
  queue_map g fixed → addrs g' = addrs g →
  (∀ p, (released g' p ↔ released g p) ∧ slot_of g' p = slot_of g p) →
  queue_map g' fixed.
Proof.
  intros Hq Ha He. eapply epoch_map_same; [exact Hq|done| |].
  - intros j. unfold live. rewrite Ha. by rewrite (consumed_of_ext g g' j) by (intros; apply He).
  - intros j b [r ->]. exists r. symmetry. by apply block_of_ext.
Qed.

Lemma slot_of_unread g g' p :
  cells g' !! p = cells g !! p → (unread g' p ↔ unread g p) → slot_of g' p = slot_of g p.
Proof.
  intros Hc Hu. unfold slot_of. rewrite Hc. destruct (cells g !! p) as [[v|]|]; try done.
  by rewrite (decide_ext _ _ _ _ Hu).
Qed.

(** Reading the position an iterator is at. *)
Lemma same_except_read g id rv k i :
  resvs g !! id = Some rv → (r_pos rv < r_stop rv)%nat →
  r_pos rv = (k * BL + i)%nat → (i < BL)%nat →
  let g' := g_resv id (mkResv (r_first rv) (S (r_pos rv)) (r_stop rv)) g in
  (∀ p, released g' p ↔ released g p) ∧ (∀ p, p ≠ r_pos rv → slot_of g' p = slot_of g p) ∧
  same_except g g' k.
Proof.
  intros Hid Hlt Hp Hi g'.
  assert (∀ p, released g' p ↔ released g p) as Hr by (intros p; by apply (released_resv g id rv)).
  assert (∀ p, p ≠ r_pos rv → slot_of g' p = slot_of g p) as Hs.
  { intros p Hne. apply slot_of_unread; [done|]. apply (unread_resv g id rv); [done|simpl; lia]. }
  split; [done|]. split; [done|]. split; [done|]. intros p Hout. split; [done|]. apply Hs. lia.
Qed.

End ghost.

Section inv.
Context {T : Type} `{BlockGeometry} `{Allocator} `{Profile}.
Implicit Types (g : ghost T) (fixed : gmap Z (Block T)) (s : mem T).

Definition qinv g (ll : list (list Z)) s : Prop := ∃ fixed, queue_map g fixed ∧ store fixed ll s.

Lemma qinv_words g ll s p c d :
  qinv g ll s → qinv g ll (mkMem p c (pool s) (blocks s) (runs s) (allocs s) d).
Proof. intros (fixed & ? & ?). exists fixed. split; [done|]. by apply store_words. Qed.

Lemma qinv_block g ll s k :
  qinv g ll s → live g k → ∃ r, blocks s !! addr g k = Some (block_of g k r).
Proof.
  intros (fixed & Hq & Hs) Hk. destruct (qm_block Hq k Hk) as [r Hr].
  exists r. eapply lookup_weaken; [done|apply Hs].
Qed.

Lemma qinv_addr g ll s k :
  qinv g ll s → live g k → 0 < addr g k ∧ addr g k mod page = 0 ∧ addr g k + page ≤ 2 ^ 64.
Proof.
  intros Hi Hk. destruct (qinv_block _ _ _ _ Hi Hk) as [r Hr].
  destruct Hi as (fixed & _ & Hs). by eapply wf_block_addr in Hr; [|apply Hs].
Qed.

Lemma qinv_inj g ll s k k' :
  qinv g ll s → live g k → live g k' → addr g k = addr g k' → k = k'.
Proof. intros (fixed & Hq & _). apply (qm_inj Hq). Qed.

(** ** Updating shared blocks *)

Lemma store_update fixed ll s b blk blk' :
  store fixed ll s → fixed !! b = Some blk → run_ptr blk' = run_ptr blk →
  store (<[b := blk']> fixed) ll (set_blocks (<[b := blk']> (blocks s)) s).
Proof.
  intros [Hwf Hf Hnd Hdj Hdom Hch] Hb Hr. assert (blocks s !! b = Some blk) as Hb' by (by eapply lookup_weaken).
  assert (∀ b', b' ∈ owned ll s → b ≠ b') as Hne.
  { intros b' Hb'' ->. rewrite Hdj in Hb; done. }
  split; simpl.
  - by eapply wf_update.
  - by apply insert_mono.
  - done.
  - intros b' Hb''. rewrite lookup_insert_ne by (by apply Hne). by apply Hdj.
  - intros b'. destruct (decide (b = b')) as [->|]; [rewrite !lookup_insert_eq; by left|].
    rewrite !lookup_insert_ne by done. apply Hdom.
  - intros l Hl. eapply chain_at_mono; [|by apply Hch].
    intros b' Hb''. apply lookup_insert_ne, Hne. by apply (in_owned l).
Qed.

Lemma qinv_update g g' ll s k r :
  qinv g ll s → same_except g g' k → live g k → live g' k →
  blocks s !! addr g k = Some (block_of g k r) →
  qinv g' ll (set_blocks (<[addr g k := block_of g' k r]> (blocks s)) s).
Proof.
  intros (fixed & Hq & Hs) Hse Hk Hk' Hb. exists (<[addr g k := block_of g' k r]> fixed).
  split; [by apply queue_map_update|].
  destruct (qm_block Hq k Hk) as [r' Hr].
  assert (blocks s !! addr g k = Some (block_of g k r')) as Hb' by (by eapply lookup_weaken; [|apply Hs]).
  eapply store_update; [done|exact Hr|]. rewrite Hb in Hb'. by injection Hb' as ->.
Qed.

Lemma block_of_put g g' k i r :
  addrs g' = addrs g → (i < BL)%nat →
  (∀ p, (k * BL ≤ p < k * BL + BL)%nat → released g' p ↔ released g p) →
  (∀ p, (k * BL ≤ p < k * BL + BL)%nat → p ≠ (k * BL + i)%nat → slot_of g' p = slot_of g p) →
  put_slot (block_of g k r) (Z.of_nat i) (slot_of g' (k * BL + i)) = block_of g' k r.
Proof.
  intros Ha Hi Hr Hs. unfold block_of, addr. simpl. rewrite Ha. f_equal.
  - f_equal. symmetry. by apply consumed_of_ext.
  - rewrite Nat2Z.id. apply list_eq. intros j. destruct (decide (i = j)) as [<-|Hne].
    + rewrite list_lookup_insert_eq by (rewrite length_fmap, length_seq; lia).
      by rewrite list_lookup_fmap, lookup_seq_lt by lia.
    + rewrite list_lookup_insert_ne, !list_lookup_fmap by done.
      destruct (decide (j < BL)%nat).
      * rewrite lookup_seq_lt by lia. simpl. f_equal. symmetry. apply Hs; lia.
      * by rewrite lookup_seq_ge by lia.
Qed.

Lemma slot_at_block g k i r :
  (i < BL)%nat → slot_at (block_of g k r) (Z.of_nat i) = Some (slot_of g (k * BL + i)).
Proof. intros Hi. rewrite slot_at_nat. simpl. by rewrite list_lookup_fmap, lookup_seq_lt by lia. Qed.

(** ** Writing a reserved slot *)

Lemma g_write_slots g x p :
  p ≠ length (cells g) → slot_of (g_write x g) p = slot_of g p.
Proof.
  intros Hp. apply slot_of_unread; [|done]. simpl. destruct (decide (p < length (cells g))%nat).
  - by rewrite lookup_app_l.
  - rewrite lookup_app_r by lia. rewrite lookup_ge_None_2, lookup_ge_None_2; [done|lia|simpl; lia].
Qed.

Lemma g_write_slot g x :
  (claimed g ≤ length (cells g))%nat →
  slot_of (g_write x g) (length (cells g)) =
    match x with Some v => mkSlot WRITTEN (Some v) | None => mkSlot SKIP None end.
Proof.
  intros Hc. unfold slot_of. simpl. rewrite lookup_app_r, Nat.sub_diag by lia. simpl.
  destruct x; [|done]. rewrite decide_True; [done|]. left. simpl. lia.
Qed.

Lemma slot_of_unwritten g p : (length (cells g) ≤ p)%nat → slot_of g p = Slot_new.
Proof. intros Hp. unfold slot_of. by rewrite lookup_ge_None_2. Qed.

(** The steps of a write, for the three stores of [Slot_write] and [Slot_skip]. *)
Lemma qinv_write g ll s k i r x :
  qinv g ll s → live g k → (claimed g ≤ length (cells g))%nat →
  length (cells g) = (k * BL + i)%nat → (i < BL)%nat →
  blocks s !! addr g k = Some (block_of g k r) →
  qinv (g_write x g) ll (set_blocks (<[addr g k := put_slot (block_of g k r) (Z.of_nat i)
    (match x with Some v => mkSlot WRITTEN (Some v) | None => mkSlot SKIP None end)]> (blocks s)) s).
Proof.
  intros Hq Hk Hc Hp Hi Hb. rewrite <- (g_write_slot g x Hc), Hp.
  rewrite (block_of_put g (g_write x g)); [|done..|].
  2: { intros p _ Hne. apply g_write_slots. lia. }
  apply qinv_update; [done| |done| |done].
  - split; [done|]. intros p Hout. split; [done|]. apply g_write_slots. lia.
  - apply (live_position _ _ (k * BL + i)%nat); [apply Hk|lia|].
    apply unclaimed_unreleased. simpl. lia.
Qed.

Definition put_item (b i : Z) (x : option T) : prog (ubqE T) unit :=
  match x with Some v => Slot_write b i v | None => Slot_skip b i end.

Lemma wp_put_item g ll s k i x :
  qinv g ll s → live g k → (claimed g ≤ length (cells g))%nat →
  length (cells g) = (k * BL + i)%nat → (i < BL)%nat →
  wp (put_item (addr g k) (Z.of_nat i) x) s (λ _ s',
    qinv (g_write x g) ll s' ∧ same_words s s').
Proof.
  intros Hq Hk Hc Hp Hi. destruct (qinv_block _ _ _ _ Hq Hk) as [r Hb].
  pose proof (qinv_write g ll s k i r x Hq Hk Hc Hp Hi Hb) as Hq'.
  pose proof (slot_at_block g k i r Hi) as Hsl. rewrite slot_of_unwritten in Hsl by lia.
  destruct x as [v|]; simpl.
  - eapply wp_act_bind.
    { unfold handle, ubq_handler. rewrite Hb. simpl. rewrite Hsl. reflexivity. }
    eapply wp_act.
    { apply handle_store. unfold wr. simpl. rewrite lookup_insert_eq. simpl.
      rewrite slot_at_nat. simpl. rewrite Nat2Z.id, list_lookup_insert_eq; [reflexivity|].
      rewrite length_fmap, length_seq. lia. }
    split; [|done]. simpl in *. rewrite insert_insert_eq, list_insert_insert_eq. by rewrite Nat2Z.id in Hq'.
  - eapply wp_act.
    { apply handle_store. unfold wr. simpl. rewrite Hb. simpl. rewrite Hsl. reflexivity. }
    split; [|done]. exact Hq'.
Qed.

(** ** Claiming, reading and publishing positions *)

Lemma qinv_claim g ll s id n :
  qinv g ll s → resvs g !! id = None → qinv (g_claim id n g) ll s.
Proof.
  intros (fixed & Hq & Hs) Hid. exists fixed. split; [|done].
  eapply queue_map_same; [done|done|]. intros p. split; [by apply released_claim|].
  apply slot_of_unread; [done|]. by apply unread_claim.
Qed.

(** An iterator that holds nothing can be forgotten. *)
Lemma qinv_forget g ll s id rv :
  qinv g ll s → resvs g !! id = Some rv → (r_stop rv ≤ r_first rv ≤ r_pos rv)%nat →
  qinv (g_forget id g) ll s.
Proof.
  intros (fixed & Hq & Hs) Hid Hrv. exists fixed. split; [|done].
  eapply queue_map_same; [done|done|]. intros p. split; [by apply (released_forget g id rv)|].
  apply slot_of_unread; [done|]. by apply (unread_forget g id rv).
Qed.

Lemma wp_Slot_read g ll s id rv k i x fuel :
  qinv g ll s → resvs_ok g → resvs g !! id = Some rv → (r_pos rv < r_stop rv)%nat →
  r_pos rv = (k * BL + i)%nat → (i < BL)%nat → (k < length (addrs g))%nat →
  cells g !! r_pos rv = Some x → (0 < fuel)%nat →
  wp (Slot_read fuel (addr g k) (Z.of_nat i)) s (λ y s',
    y = x ∧ qinv (g_resv id (mkResv (r_first rv) (S (r_pos rv)) (r_stop rv)) g) ll s' ∧
    same_words s s').
Proof.
  intros Hq Hok Hid Hlt Hp Hi Hk Hx Hfuel. destruct fuel as [|fuel]; [lia|].
  destruct (ro_order _ Hok _ _ Hid) as [Hord Hcl].
  assert (live g k) as Hlive.
  { apply (live_position _ _ (r_pos rv)); [done|lia|].
    apply (held_unreleased g id rv); [done|lia]. }
  destruct (qinv_block _ _ _ _ Hq Hlive) as [r Hb].
  pose proof (slot_at_block g k i r Hi) as Hsl.
  destruct (same_except_read g id rv k i Hid Hlt Hp Hi) as (Hrel & Hslots & Hse).
  set (g' := g_resv id _ g) in *. unfold slot_of in Hsl. rewrite <- Hp, Hx in Hsl.
  assert (live g' k) as Hlive'.
  { split; [done|]. unfold g'. rewrite (consumed_of_ext g); [apply Hlive|]. intros p _. apply Hrel. }
  unfold Slot_read. apply wp_loop_unfold. destruct x as [v|].
  - rewrite decide_True in Hsl by (apply (unread_at_pos g id rv); [done|lia]).
    eapply wp_act_bind.
    { apply handle_load. unfold rd. rewrite Hb. simpl. by rewrite Hsl. }
    cbn [state WRITTEN Z.eqb Pos.eqb]. eapply wp_act_bind.
    { unfold handle, ubq_handler. rewrite Hb. simpl. rewrite Hsl. reflexivity. }
    apply wp_ret. split; [done|]. split; [|done].
    assert (mkSlot WRITTEN None = slot_of g' (k * BL + i)) as Es.
    { unfold slot_of. rewrite <- Hp. simpl. rewrite Hx, decide_False; [done|].
      apply not_unread_read; [by apply resvs_ok_wf|done..]. }
    simpl. rewrite Es. change (mkBlock _ _ _ _) with
      (put_slot (block_of g k r) (Z.of_nat i) (slot_of g' (k * BL + i))).
    rewrite (block_of_put g g'); [|done..|].
    + by apply qinv_update.
    + intros p _ Hne. apply Hslots. lia.
  - eapply wp_act_bind.
    { apply handle_load. unfold rd. rewrite Hb. simpl. by rewrite Hsl. }
    apply wp_ret. split; [done|]. split; [|done]. destruct Hq as (fixed & Hq & Hs).
    exists fixed. split; [|done]. eapply queue_map_same; [done|done|]. intros p.
    split; [done|]. destruct (decide (p = r_pos rv)) as [->|]; [|by apply Hslots].
    unfold slot_of. simpl. by rewrite Hx.
Qed.

(** ** Recycling a completed block *)

Lemma owned_drop_fixed fixed ll s b (bs : gmap Z (Block T)) :
  store fixed ll s → is_Some (fixed !! b) → (∀ b', b' ≠ b → bs !! b' = blocks s !! b') →
  ∀ l, l ∈ pool_list s :: ll → chain_at bs l.
Proof.
  intros [Hwf Hf Hnd Hdj Hdom Hch] [x Hx] He l Hl. eapply chain_at_mono; [|by apply Hch].
  intros b' Hb'. apply He. intros ->. rewrite Hdj in Hx; [done|]. by apply (in_owned l).
Qed.

Lemma store_retire fixed ll s s' b d :
  store fixed ll s → is_Some (fixed !! b) → heap_to s (delete b (blocks s)) d s' →
  store (delete b fixed) ll s'.
Proof.
  intros Hs Hb (rs & al & -> & Hwf). pose proof (owned_drop_fixed _ _ _ b (delete b (blocks s)) Hs Hb) as Hch.
  destruct Hs as [_ Hf Hnd Hdj Hdom _]. split; simpl.
  - done.
  - by apply delete_mono.
  - done.
  - intros b' Hb'. apply lookup_delete_None. right. by apply Hdj.
  - intros b' [x [Hne Hx]%lookup_delete_Some]. rewrite lookup_delete_ne by done. apply Hdom. eauto.
  - apply Hch. intros b' Hne. by apply lookup_delete_ne.
Qed.

Lemma store_pool fixed ll s b r :
  store fixed ll s → fixed !! b = Some (fresh_block 0 r) → pool s = 0 →
  store (delete b fixed) ll (set_pool b s).
Proof.
  intros Hs Hb Hp. assert (blocks s !! b = Some (fresh_block 0 r)) as Hb'
    by (by eapply lookup_weaken; [|apply Hs]).
  assert ((b =? 0) = false) as Hb0.
  { apply Z.eqb_neq. eapply wf_block_addr in Hb'; [|apply Hs]. lia. }
  pose proof (owned_drop_fixed _ _ _ b (blocks s) Hs ltac:(eauto) ltac:(done)) as Hch.
  destruct Hs as [Hwf Hf Hnd Hdj Hdom _].
  assert (owned ll s = mjoin ll) as Ho.
  { unfold owned, pool_list. rewrite Hp. apply app_nil_r. }
  assert (owned ll (set_pool b s) = mjoin ll ++ [b]) as Ho'.
  { unfold owned, pool_list. simpl. by rewrite Hb0. }
  rewrite Ho in *. split; rewrite ?Ho'; simpl.
  - done.
  - etrans; [apply delete_subseteq|done].
  - apply NoDup_app. split; [done|]. split; [|apply NoDup_singleton].
    intros b' Hin Eb%list_elem_of_singleton. subst b'. by rewrite Hdj in Hb.
  - intros b' [Hin|Eb%list_elem_of_singleton]%elem_of_app; apply lookup_delete_None; [right; auto|by left].
  - intros b' Hx. rewrite elem_of_app, list_elem_of_singleton.
    destruct (decide (b = b')) as [->|]; [by right; right|]. rewrite lookup_delete_ne by done.
    destruct (Hdom b' Hx); auto.
  - intros l [->|Hl]%elem_of_cons; [|apply Hch; by right].
    unfold pool_list. simpl. rewrite Hb0. intros [|i] b'; [|by destruct i]. intros [= <-].
    simpl. eauto.
Qed.

(** In a completed block every slot has been read. *)
Lemma completed_slots g k r :
  (∀ id rv, resvs g !! id = Some rv → (r_first rv ≤ r_pos rv)%nat) →
  consumed_of g k = BL →
  (λ x, mkSlot ZERO (value x)) <$> slots (block_of g k r) = replicate BL (@Slot_new T).
Proof.
  intros Hord Hc. simpl. rewrite <- list_fmap_compose.
  rewrite (list_fmap_ext _ (λ _, @Slot_new T)).
  - rewrite (const_fmap _ _ Slot_new) by done. by rewrite length_seq.
  - intros i p [-> Hi]%lookup_seq. simpl. unfold slot_of.
    destruct (cells g !! _) as [[v|]|]; try done. by rewrite decide_False by (by apply completed_read).
Qed.

Lemma wp_recycle_block fixed ll s b blk :
  store fixed ll s → fixed !! b = Some blk → length (slots blk) = BL →
  consumed blk = block_length →
  (λ x, mkSlot ZERO (value x)) <$> slots blk = replicate BL (@Slot_new T) →
  wp (recycle_block b) s (λ _ s', store (delete b fixed) ll s' ∧ same_words s s').
Proof.
  intros Hs Hb Hlen Hc Hsl. pose proof length_pos.
  assert (blocks s !! b = Some blk) as Hb' by (by eapply lookup_weaken; [|apply Hs]).
  unfold recycle_block. eapply wp_act_bind; [unfold handle, ubq_handler; by rewrite Hb'|].
  destruct (Z.eqb_spec (run_ptr blk) 0) as [Er|_].
  - apply wp_bind. eapply wp_done; [by apply run_reset|]. rewrite Er, Hsl.
    change (mkBlock 0 0 0 _) with (fresh_block (T:=T) 0 0).
    assert (store (<[b := fresh_block 0 0]> fixed) ll
      (set_blocks (<[b := fresh_block 0 0]> (blocks s)) s)) as Hs1 by (by eapply store_update).
    set (s1 := set_blocks _ s) in *.
    assert (delete b (<[b := fresh_block 0 0]> fixed) = delete b fixed) as Ed
      by apply delete_insert_eq.
    destruct (decide (pool s = 0)) as [Ep|Hp].
    + eapply wp_act_bind; [apply handle_cas_ok; [unfold rd; simpl; by rewrite Ep|reflexivity]|]. apply wp_ret.
      split; [|done]. rewrite <- Ed. eapply store_pool; [done|apply lookup_insert_eq|done].
    + eapply wp_act_bind; [apply handle_cas_err; [reflexivity|done]|].
      eapply wp_mono; [eapply wp_free_fresh; [apply Hs1|apply lookup_insert_eq]|].
      intros ? s' Hh. rewrite <- Ed. split; [|by destruct Hh as (? & ? & -> & _)].
      eapply store_retire; [exact Hs1|rewrite lookup_insert_eq; eauto|exact Hh].
  - eapply wp_mono; [eapply wp_free; [apply Hs|done|done|lia|]|].
    { rewrite Hc, drop_ge; [constructor|]. rewrite Hlen. unfold BL. lia. }
    intros ? s' Hh. rewrite Hc, drop_ge in Hh by (rewrite Hlen; unfold BL; lia).
    simpl in Hh. rewrite app_nil_r in Hh.
    split; [|by destruct Hh as (? & ? & -> & _)]. eapply store_retire; [exact Hs|eauto|exact Hh].
Qed.

Lemma wp_finish_block_segment g ll s id rv k :
  qinv g ll s → resvs g !! id = Some rv →
  (∀ j x, resvs g !! j = Some x → (r_first x ≤ r_pos x ≤ r_stop x)%nat) →
  (∀ j x, j ≠ id → resvs g !! j = Some x →
     ∀ p, (r_first rv ≤ p < r_stop rv)%nat → ¬ (r_first x ≤ p < r_stop x)%nat) →
  (r_stop rv ≤ claimed g)%nat → (k < length (addrs g))%nat →
  (k * BL ≤ r_first rv)%nat → (r_first rv < r_pos rv ≤ k * BL + BL)%nat →
  wp (finish_block_segment (Z.of_nat (r_pos rv - r_first rv)) (addr g k)) s (λ _ s',
    qinv (g_resv id (mkResv (r_pos rv) (r_pos rv) (r_stop rv)) g) ll s' ∧ same_words s s').
Proof.
  intros Hq Hid Hord Hdis Hcl Hk Hlo Hhi. pose proof (Hord _ _ Hid) as Ho.
  pose proof BL_Z as HBL. pose proof length_lt_max as Hmax.
  assert (live g k) as Hlive.
  { apply (live_position _ _ (r_first rv)); [done|lia|].
    apply (held_unreleased g id rv); [done|lia]. }
  destruct (qinv_block _ _ _ _ Hq Hlive) as [r Hb].
  set (g' := g_resv id _ g).
  assert (∀ p, released g' p ↔ released g p ∨ (r_first rv ≤ p < r_pos rv)%nat) as Hrel
    by (intros p; by apply released_flush).
  assert (∀ p, slot_of g' p = slot_of g p) as Hsl.
  { intros p. apply slot_of_unread; [done|]. by apply (unread_resv g id rv). }
  assert (same_except g g' k) as Hse.
  { split; [done|]. intros p Hp. split; [|done]. rewrite Hrel. split; [intros [?|?]; [done|lia]|by left]. }
  assert (consumed_of g' k = consumed_of g k + (r_pos rv - r_first rv))%nat as Hc.
  { unfold consumed_of. rewrite (filter_seq_add (released g) (released g') (r_first rv) (r_pos rv));
      [lia|intros; apply Hrel|]. intros p Hp. apply (held_unreleased g id rv); [done|lia]. }
  pose proof (consumed_of_le g' k) as Hle. rewrite Hc in Hle.
  assert (∀ r, block_of g' k r = set_consumed (Z.of_nat (consumed_of g' k)) (block_of g k r)) as Hblk.
  { intros r'. unfold block_of. simpl. f_equal. apply list_fmap_ext. intros; apply Hsl. }
  unfold finish_block_segment, consume. apply wp_debug_assert; [apply Z.ltb_lt; lia|].
  apply wp_bind. eapply wp_act_bind.
  { apply handle_fetch_add; [unfold rd; rewrite Hb; reflexivity| |].
    - simpl. unfold is_usize, usize_max, isize_max in *. lia.
    - unfold wr. rewrite Hb. reflexivity. }
  apply wp_uadd; [simpl; unfold usize_max, isize_max in *; lia|]. apply wp_ret.
  cbn [consumed block_of].
  assert (Z.of_nat (consumed_of g k) + Z.of_nat (r_pos rv - r_first rv) = Z.of_nat (consumed_of g' k)) as ->
    by lia.
  set (s1 := set_blocks _ s).
  assert (s1 = set_blocks (<[addr g k := block_of g' k r]> (blocks s)) s) as Es1 by (by rewrite Hblk).
  destruct (Z.eqb_spec (Z.of_nat (consumed_of g' k)) block_length) as [Efull|Hnf].
  - destruct Hq as (fixed & Hq & Hs). destruct (qm_block Hq k Hlive) as [r' Hr'].
    assert (r' = r) as ->.
    { assert (blocks s !! addr g k = Some (block_of g k r')) as Hb'
        by (by eapply lookup_weaken; [|apply Hs]).
      rewrite Hb in Hb'. by injection Hb'. }
    assert (¬ live g' k) as Hdead by (intros [_ ?]; lia).
    eapply wp_mono.
    + eapply (wp_recycle_block (<[addr g k := block_of g' k r]> fixed) ll _ _ (block_of g' k r)).
      * rewrite Es1. by eapply store_update.
      * apply lookup_insert_eq.
      * simpl. by rewrite length_fmap, length_seq.
      * simpl. by rewrite Efull.
      * apply completed_slots; [|lia]. intros j x. simpl.
        intros [[<- <-]|[_ Hj]]%lookup_insert_Some; simpl; [lia|]. destruct (Hord _ _ Hj). lia.
    + intros ? s' [Hs' Hw]. split; [|done]. rewrite delete_insert_eq in Hs'.
      eexists. split; [|done]. by apply (queue_map_remove g).
  - apply wp_ret. split; [|done]. rewrite Es1. apply qinv_update; [done..| |done].
    split; [done|]. lia.
Qed.

End inv.
