(* ===== verification/UbqIterSpec.v ===== *)
(** * The iterator over a reservation

    What [Iterator::next] and [Drop for UBQIter] do: the values of the claimed
    positions are moved out in order, skipped positions are passed over, and a
    block is recycled exactly when the last of its positions is released. *)

From S2P Require Import Prelude Prog Layout Head Geometry Epochs MpmcBlock MpmcHeap MpmcOps MpmcChain UbqQueue UbqInv.

Section iter.
Context {T : Type} `{BlockGeometry} `{Allocator} `{Profile}.
Implicit Types (g : ghost T) (s : mem T).

(** The iterator [it] is at reservation [rv]. *)
Record iter_at g (rv : resv) (it : UBQIter) : Prop := {
  ia_place : (r_pos rv < r_stop rv)%nat →
    it_block it = addr g (r_pos rv / BL) ∧ it_index it = Z.of_nat (r_pos rv mod BL);
  ia_len : it_len it = Z.of_nat (r_stop rv - r_pos rv);
  ia_pending : pending_consumed it = Z.of_nat (r_pos rv - r_first rv)
}.

Lemma wp_iter_step g ll s id rv it x fuel :
  qinv g ll s → ghost_ok g → resvs g !! id = Some rv → (r_pos rv < r_stop rv)%nat →
  iter_at g rv it → cells g !! r_pos rv = Some x → (0 < fuel)%nat →
  wp (iter_step fuel it) s (λ '(y, it') s', ∃ rv',
    y = x ∧ r_pos rv' = S (r_pos rv) ∧ r_stop rv' = r_stop rv ∧
    qinv (g_resv id rv' g) ll s' ∧ ghost_ok (g_resv id rv' g) ∧
    iter_at (g_resv id rv' g) rv' it' ∧ same_words s s').
Proof.
  intros Hq Hg Hid Hlt Hit Hx Hfuel. pose proof (go_resvs _ Hg) as Hok. pose proof BL_pos. pose proof BL_Z.
  destruct (ro_order _ Hok _ _ Hid) as [Hord Hcl]. pose proof (ro_segment _ Hok _ _ Hid) as Hseg.
  destruct (ia_place _ _ _ Hit Hlt) as [Eb Ei].
  destruct (div_mod_BL (r_pos rv)) as [Ep Hi]. destruct (div_mod_BL (r_first rv)) as [Ef Hf].
  set (k := (r_pos rv / BL)%nat) in *. set (i := (r_pos rv mod BL)%nat) in *.
  assert (k < length (addrs g))%nat as Hk by (apply block_exists; [done|by eapply lookup_lt_Some]).
  unfold iter_step. rewrite Eb, Ei. apply wp_bind.
  eapply wp_mono; [by apply (wp_Slot_read g ll s id rv k i x)|].
  intros y s1 (-> & Hq1 & Hw1). set (rv1 := mkResv _ _ _) in *. set (g1 := g_resv id rv1 g) in *.
  assert (∀ j y, resvs g1 !! j = Some y → (r_first y ≤ r_pos y ≤ r_stop y)%nat) as Hord1.
  { intros j y. simpl. intros [[<- <-]|[_ Hj]]%lookup_insert_Some; simpl; [lia|].
    destruct (ro_order _ Hok _ _ Hj). lia. }
  assert (wp (finish_block_segment (Z.of_nat (S (r_pos rv) - r_first rv)) (addr g k)) s1 (λ _ s',
    qinv (g_resv id (mkResv (S (r_pos rv)) (S (r_pos rv)) (r_stop rv)) g) ll s' ∧ same_words s1 s'))
    as Hfin.
  { eapply wp_mono; [apply (wp_finish_block_segment g1 ll s1 id rv1 k); simpl; try done|].
    - apply lookup_insert_eq.
    - intros j y Hj [[? _]|[_ Hy]]%lookup_insert_Some p Hp; [congruence|].
      by apply (ro_disjoint _ Hok id j rv y p).
    - nia.
    - nia.
    - intros ? s' [Hq' Hw']. split; [|done]. unfold g1, g_resv in Hq'. simpl in Hq'.
      by rewrite insert_insert_eq in Hq'. }
  assert (pending_consumed it + 1 = Z.of_nat (S (r_pos rv) - r_first rv)) as ->
    by (rewrite (ia_pending _ _ _ Hit); lia).
  assert (it_len it - 1 = Z.of_nat (r_stop rv - S (r_pos rv))) as ->
    by (rewrite (ia_len _ _ _ Hit); lia).
  set (rv2 := mkResv (S (r_pos rv)) (S (r_pos rv)) (r_stop rv)) in *.
  assert (ghost_ok (g_resv id rv2 g)) as Hg2 by (apply (ghost_ok_advance g id rv); simpl; try done; lia).
  destruct (Z.eqb_spec (Z.of_nat i + 1) block_length) as [Elast|Hnl]; cbn [orb].
  - assert (live g1 k) as Hlive.
    { apply (live_position _ _ (r_pos rv)); [done|lia|].
      apply (held_unreleased g1 id rv1); [apply lookup_insert_eq|simpl; lia]. }
    destruct (qinv_block _ _ _ _ Hq1 Hlive) as [r Hb].
    apply wp_bind. eapply wp_act_bind.
    { apply handle_load. unfold rd. change (addr g k) with (addr g1 k). by rewrite Hb. }
    apply wp_ret. apply wp_bind. eapply wp_mono; [exact Hfin|].
    intros ? s' [Hq' Hw']. apply wp_ret. exists rv2. split_and!; try done.
    + split; simpl; [|done|lia]. intros ?.
      replace (S (r_pos rv)) with (S k * BL + 0)%nat by lia.
      destruct (div_BL (S k) 0) as [-> ->]; done.
    + destruct Hw1 as (?&?&?), Hw' as (?&?&?). repeat split; congruence.
  - apply wp_bind, wp_ret.
    destruct (div_BL k (S i)) as [Ed Em]; [lia|].
    replace (k * BL + S i)%nat with (S (r_pos rv)) in * by lia.
    assert (∀ rv', r_pos rv' = S (r_pos rv) → r_stop rv' = r_stop rv →
      iter_at (g_resv id rv' g) rv' (mkIter (addr g k) (Z.of_nat i + 1)
        (Z.of_nat (r_stop rv - S (r_pos rv))) (Z.of_nat (r_pos rv' - r_first rv')))) as Hit'.
    { intros rv' E1 E2. split; simpl; [|by rewrite E1, E2|done]. rewrite E1, Ed, Em. split; [done|lia]. }
    destruct (Z.eqb_spec (Z.of_nat (r_stop rv - S (r_pos rv))) 0) as [E0|Hn0].
    + apply wp_bind. eapply wp_mono; [exact Hfin|].
      intros ? s' [Hq' Hw']. apply wp_ret. exists rv2. split_and!; try done.
      * by specialize (Hit' rv2 eq_refl eq_refl); simpl in Hit'; rewrite Nat.sub_diag in Hit'.
      * destruct Hw1 as (?&?&?), Hw' as (?&?&?). repeat split; congruence.
    + apply wp_ret. exists rv1. split_and!; try done.
      * apply (ghost_ok_advance g id rv); simpl; try done; lia.
      * by apply (Hit' rv1).
Qed.

Lemma same_words_trans s s1 s2 : same_words s s1 → same_words s1 s2 → same_words s s2.
Proof. intros (?&?&?) (?&?&?). repeat split; congruence. Qed.

(** The state after [next] calls: the iterator has moved to [rv']. *)
Record iter_to g id (rv rv' : resv) it' ll s' : Prop := {
  ti_stop : r_stop rv' = r_stop rv;
  ti_pos : (r_pos rv ≤ r_pos rv' ≤ r_stop rv)%nat;
  ti_inv : qinv (g_resv id rv' g) ll s';
  ti_ok : ghost_ok (g_resv id rv' g);
  ti_at : iter_at (g_resv id rv' g) rv' it'
}.

Lemma wp_iter_next g ll s id rv it fuel :
  qinv g ll s → ghost_ok g → resvs g !! id = Some rv → iter_at g rv it →
  (r_stop rv - r_pos rv < fuel)%nat →
  wp (iter_next fuel it) s (λ '(y, it') s', ∃ rv',
    spec_next (items_of g rv) = (y, items_of g rv') ∧ iter_to g id rv rv' it' ll s' ∧
    (is_Some y → r_pos rv < r_pos rv')%nat ∧ (y = None → r_pos rv' = r_stop rv) ∧
    same_words s s').
Proof.
  intros Hq Hg Hid Hit Hf. unfold iter_next.
  assert (∀ n g s rv it, (r_stop rv - r_pos rv < n)%nat → (0 < fuel)%nat →
    qinv g ll s → ghost_ok g → resvs g !! id = Some rv → iter_at g rv it →
    wp (loop n (λ it, if it_len it =? 0 then Ret (inr (None, it)) else
         '(maybe, it) ← iter_step fuel it;
         Ret (match maybe with Some v => inr (Some v, it) | None => inl it end)) it) s
      (λ '(y, it') s', ∃ rv',
        spec_next (items_of g rv) = (y, items_of g rv') ∧ iter_to g id rv rv' it' ll s' ∧
        (is_Some y → r_pos rv < r_pos rv')%nat ∧ (y = None → r_pos rv' = r_stop rv) ∧
        same_words s s')) as Hloop; [|apply Hloop; try done; lia].
  clear. intros n. induction n as [|n IH]; intros g s rv it Hn Hf Hq Hg Hid Hit; [lia|].
  apply wp_loop_unfold. rewrite (ia_len _ _ _ Hit).
  destruct (ro_order _ (go_resvs _ Hg) _ _ Hid) as [Hord _].
  destruct (Z.eqb_spec (Z.of_nat (r_stop rv - r_pos rv)) 0) as [E|Hne].
  - apply wp_ret. exists rv. rewrite items_of_nil by lia. split; [done|]. split.
    { split; rewrite ?(g_resv_same g id rv Hid); try done. lia. }
    split; [by intros [? ?]|]. split; [lia|done].
  - destruct (resv_cell g id rv) as [x Hx]; [done..|lia|].
    apply wp_bind. eapply wp_mono; [apply (wp_iter_step g ll s id rv it x fuel); try done; lia|].
    intros [y it'] s' (rv' & -> & Ep & Es & Hq' & Hg' & Hit' & Hw). apply wp_ret.
    assert (items_of g rv = x :: items_of g rv') as Eit.
    { rewrite (items_of_cons g rv x) by (done || lia). unfold items_of. simpl. by rewrite Ep, Es. }
    rewrite Eit. destruct x as [v|].
    + exists rv'. split; [done|]. split; [split; try done; lia|]. split; [lia|]. split; [done|done].
    + eapply wp_mono; [apply (IH (g_resv id rv' g) s' rv' it'); try done; [lia|apply lookup_insert_eq]|].
      intros [y it''] s'' (rv2 & Hsp & [Hst Hp Hi Ho Ha] & Hsome & Hnone & Hw').
      rewrite !g_resv_twice in *. exists rv2. split; [done|].
      split; [split; try done; [congruence|lia]|].
      split; [intros ?%Hsome; lia|]. split; [intros ?%Hnone; congruence|].
      by eapply same_words_trans.
Qed.

Lemma wp_iter_drop g ll s id rv it fuel :
  qinv g ll s → ghost_ok g → resvs g !! id = Some rv → iter_at g rv it →
  (r_stop rv - r_pos rv + 1 < fuel)%nat →
  wp (iter_drop fuel it) s (λ _ s',
    qinv (g_forget id g) ll s' ∧ ghost_ok (g_forget id g) ∧
    phead s' = phead s ∧ chead s' = chead s ∧
    dropped s' = dropped s ++ present (items_of g rv)).
Proof.
  intros Hq Hg Hid Hit Hf. unfold iter_drop.
  assert (∀ n g s rv it, (r_stop rv - r_pos rv + 1 < n)%nat → (r_stop rv - r_pos rv < fuel)%nat →
    qinv g ll s → ghost_ok g → resvs g !! id = Some rv → iter_at g rv it →
    wp (loop n (λ it, '(v, it) ← iter_next fuel it;
         match v with
         | Some v => act (DropOwned v);; Ret (inl it)
         | None => Ret (inr tt)
         end) it) s (λ _ s',
      qinv (g_forget id g) ll s' ∧ ghost_ok (g_forget id g) ∧
      phead s' = phead s ∧ chead s' = chead s ∧
      dropped s' = dropped s ++ present (items_of g rv))) as Hloop;
    [|apply Hloop; try done; lia].
  clear. intros n. induction n as [|n IH]; intros g s rv it Hn Hf Hq Hg Hid Hit; [lia|].
  apply wp_loop_unfold. apply wp_bind.
  eapply wp_mono; [by apply (wp_iter_next g ll s id rv it fuel)|].
  intros [y it'] s' (rv' & Hsp%spec_next_omap & [Hst Hp Hi Ho Ha] & Hsome & Hnone & Hw).
  assert (g_forget id (g_resv id rv' g) = g_forget id g) as Eg.
  { unfold g_forget, g_resv. simpl. by rewrite delete_insert_eq. }
  destruct y as [v|].
  - eapply wp_act_bind; [reflexivity|]. apply wp_ret.
    eapply wp_mono; [apply (IH (g_resv id rv' g) _ rv' it'); try done|].
    + specialize (Hsome ltac:(eauto)). lia.
    + lia.
    + by apply qinv_words.
    + apply lookup_insert_eq.
    + intros ? s2 (Hq2 & Hg2 & Hp2 & Hc2 & Hd2). rewrite Eg in *.
      destruct Hw as (Ew1 & Ew2 & Ew3). simpl in *.
      split; [done|]. split; [done|]. split; [congruence|]. split; [congruence|].
      rewrite Hd2, Ew3, Hsp, <- app_assoc. done.
  - apply wp_ret. specialize (Hnone eq_refl).
    pose proof (ro_flushed _ (go_resvs _ Ho) id rv') as Hfl. simpl in Hfl.
    rewrite lookup_insert_eq in Hfl. specialize (Hfl eq_refl ltac:(congruence)).
    rewrite <- Eg. destruct Hw as (Ew1 & Ew2 & Ew3). split; [|split; [|split; [done|split; [done|]]]].
    + eapply qinv_forget; [done|apply lookup_insert_eq|lia].
    + destruct Ho. split; [by apply resvs_ok_forget|done|done].
    + by rewrite Hsp, Ew3, app_nil_r.
Qed.

End iter.
