(* ===== verification/UbqPopSpec.v ===== *)
(** * What [pop_batch] does

    From a queue at rest, [pop_batch n] claims the first [min n (available)]
    positions and leaves the consumer head at the end of the claim. *)

From S2P Require Import Prelude Prog Layout Head Geometry Epochs MpmcBlock MpmcHeap MpmcOps MpmcChain UbqQueue UbqInv UbqIterSpec.

Section heads.
Context {T : Type} `{BlockGeometry} `{Allocator} `{Profile}.
Implicit Types (g : ghost T) (s : mem T).

Lemma block_head_ok g ll s k i h :
  qinv g ll s → live g k → 0 ≤ i ≤ block_length → head_ok page block_length (mkHead (addr g k) i h).
Proof.
  intros Hq Hk Hi. destruct (qinv_addr _ _ _ _ Hq Hk) as (? & ? & ?). pose proof page_pos.
  split; simpl; [unfold usize_max; lia|done|lia].
Qed.

Lemma head_at_ok g ll s p h :
  qinv g ll s → ghost_ok g → (claimed g ≤ p ≤ length (cells g))%nat → addrs g ≠ [] →
  head_ok page block_length (head_at g p h).
Proof.
  intros Hq Hg Hp Ha. pose proof (div_mod_BL p) as [_ Hi]. pose proof BL_Z.
  eapply block_head_ok; [done|by apply live_unclaimed|lia].
Qed.

Record heads g (hp hc : bool) s : Prop := {
  hd_canon : canon hp ∧ canon hc;
  hd_phead : phead s = pack (head_at g (length (cells g)) hp) codec;
  hd_chead : chead s = pack (head_at g (claimed g) hc) codec;
  hd_next : hp = true → (S (length (cells g) / BL) < length (addrs g))%nat;
  hd_behind : hc = true → (claimed g / BL < length (cells g) / BL)%nat
}.

(** The queue at rest. *)
Definition at_rest g s : Prop :=
  qinv g [] s ∧ ghost_ok g ∧
  (if decide (addrs g = []) then phead s = 0 ∧ chead s = 0 else ∃ hp hc, heads g hp hc s).

Lemma unpack_head_at g ll s p h :
  qinv g ll s → ghost_ok g → (claimed g ≤ p ≤ length (cells g))%nat → addrs g ≠ [] → canon h →
  from_usize (pack (head_at g p h) codec) codec = head_at g p h.
Proof.
  intros Hq Hg Hp Ha Hc. rewrite unpack_word by (by eapply head_at_ok).
  unfold keep_hint, head_at. simpl. fold (trim h). by rewrite trim_canon.
Qed.

End heads.

Section pop.
Context {T : Type} `{BlockGeometry} `{Allocator} `{Profile}.
Implicit Types (g : ghost T) (s : mem T).

Lemma wp_acquire_phead s (w : Z) (h : Head) :
  phead s = w → from_usize w codec = h → wp acquire_phead s (λ x s', x = h ∧ s' = s).
Proof. intros Hw Hh. unfold acquire_phead. eapply wp_act_bind; [by apply handle_load|].
  apply wp_ret. simpl. split; [|done]. congruence. Qed.

Lemma wp_acquire_chead s (w : Z) (h : Head) :
  chead s = w → from_usize w codec = h → wp acquire_chead s (λ x s', x = h ∧ s' = s).
Proof. intros Hw Hh. unfold acquire_chead. eapply wp_act_bind; [by apply handle_load|].
  apply wp_ret. simpl. split; [|done]. congruence. Qed.

(** Storing a head word, with whatever hint. *)
Lemma wp_store_chead {A} g ll s k i h (rest : prog (ubqE T) A) Q :
  qinv g ll s → live g k → (i < BL)%nat →
  wp rest (set_chead (pack (head_at g (k * BL + i) (trim h)) codec) s) Q →
  wp (w ← to_usize (mkHead (addr g k) (Z.of_nat i) h) codec; act (Store Chead w);; rest) s Q.
Proof.
  intros Hq Hk Hi Hr. pose proof BL_Z.
  rewrite to_usize_word by (eapply block_head_ok; [done|done|lia]).
  eapply wp_act_bind; [by apply handle_store|]. rewrite pack_trim, head_at_block by done. exact Hr.
Qed.

Lemma wp_pop_advance g ll s hp h sz fuel :
  let C := claimed g in let P := length (cells g) in let n := Nat.min sz (P - C) in
  qinv g ll s → ghost_ok g → addrs g ≠ [] → canon hp →
  phead s = pack (head_at g P hp) codec → (C / BL < P / BL)%nat →
  Z.of_nat sz ≤ usize_max → (P / BL - C / BL < fuel)%nat →
  wp (pop_advance fuel (head_at g C h) (Z.of_nat sz)) s (λ len s',
    len = Z.of_nat n ∧ ∃ hc, canon hc ∧ (hc = true → (C + n) / BL < P / BL)%nat ∧
    s' = set_chead (pack (head_at g (C + n) hc) codec) s).
Proof.
  intros C P n Hq Hg Ha Hcp Hph Hlt Hsz Hfuel. pose proof BL_pos. pose proof BL_Z.
  pose proof (go_claimed _ Hg) as HCP.
  assert (∀ k, (C / BL ≤ k ≤ P / BL)%nat → live g k) as Hlive.
  { intros k Hk. destruct (div_mod_BL C), (div_mod_BL P).
    destruct (decide (k = C / BL)%nat) as [->|]; [apply live_unclaimed; [done|lia|done]|].
    destruct (div_BL k 0) as [<- _]; [lia|]. apply live_unclaimed; [done|fold C P; nia|done]. }
  unfold pop_advance. apply wp_bind.
  eapply wp_mono; [eapply wp_acquire_phead; [exact Hph|by eapply unpack_head_at]|].
  intros ? ? [-> ->].
  match goal with |- wp (loop _ ?f _) _ ?R => set (body := f); set (Q := R) end.
  assert (∀ m k j, (P / BL - k < m)%nat → (j < BL)%nat → (C / BL ≤ k ≤ P / BL)%nat →
    (k = P / BL → j = 0)%nat → (C ≤ k * BL + j ≤ C + sz)%nat →
    wp (loop m body (head_at g P hp, Z.of_nat (C + sz - (k * BL + j)), addr g k, Z.of_nat j)) s Q) as Hloop.
  2: { destruct (div_mod_BL C) as [EC ?].
       specialize (Hloop fuel (C / BL)%nat (C mod BL)%nat).
       replace (C + sz - (C / BL * BL + C mod BL))%nat with sz in Hloop by lia.
       apply Hloop; lia. }
  clear Hph. induction m as [|m IH]; intros k j Hm Hj Hk Hlast Hpos; [lia|].
  apply wp_loop_unfold. unfold body at 1. cbv beta iota.
  destruct (qinv_block _ _ _ _ Hq (Hlive k Hk)) as [r Hb].
  eapply wp_act_bind; [apply handle_load; unfold rd; by rewrite Hb|].
  apply wp_usub; [lia|]. cbv zeta. cbn [block head_at].
  destruct (div_mod_BL P) as [EP HP]. destruct (div_mod_BL C) as [EC HC].
  destruct (Z.eqb_spec (addr g (P / BL)) (addr g k)) as [Eb|Hne].
  - assert (k = P / BL)%nat as ->.
    { symmetry. eapply qinv_inj; [done|apply Hlive; lia|apply Hlive; lia|done]. }
    specialize (Hlast eq_refl) as ->. apply wp_bind.
    eapply (wp_mono _ _ (λ x s', x = head_at g P hp ∧ s' = s)).
    { unfold pop_wait_producer. destruct fuel as [|fuel']; [lia|]. apply wp_loop_unfold.
      cbn [index head_at]. rewrite (proj2 (Z.eqb_neq (Z.of_nat (P mod BL)) _)) by lia.
      rewrite andb_false_r. by apply wp_ret. }
    intros ? ? [-> ->]. cbn [block index head_at]. rewrite Z.eqb_refl.
    apply wp_uadd; [lia|].
    set (i' := Nat.min (P mod BL) (C + sz - (P / BL * BL + 0))).
    replace (Z.min (Z.of_nat (P mod BL)) _) with (Z.of_nat i') by lia.
    apply (wp_store_chead g ll); [done|by apply Hlive|lia|].
    unfold saturating_sub. apply wp_usub; [lia|]. apply wp_ret. unfold Q.
    replace (P / BL * BL + i')%nat with (C + n)%nat by lia. split; [lia|].
    exists (trim false). split; [apply canon_trim|]. split; [by intros ?%trim_true|done].
  - assert (k ≠ P / BL)%nat as Hkn by (intros ->; done).
    destruct (Z.ltb_spec (Z.of_nat (C + sz - (k * BL + j))) (block_length - Z.of_nat j)) as [Hrem|Hrem].
    + set (i' := (j + (C + sz - (k * BL + j)))%nat).
      replace (Z.of_nat j + _) with (Z.of_nat i') by lia.
      assert ((k + 1) * BL ≤ P / BL * BL)%nat by (apply Nat.mul_le_mono_r; lia).
      apply (wp_store_chead g ll); [done|by apply Hlive|lia|]. apply wp_ret. unfold Q.
      replace (k * BL + i')%nat with (C + n)%nat by lia. split; [lia|].
      exists (trim true). split; [apply canon_trim|]. split; [|done]. intros _.
      replace (C + n)%nat with (k * BL + i')%nat by lia.
      destruct (div_BL k i') as [-> _]; lia.
    + apply wp_ret. cbn [next block_of].
      replace (Z.of_nat (C + sz - (k * BL + j)) - (block_length - Z.of_nat j))
        with (Z.of_nat (C + sz - (S k * BL + 0))) by lia.
      apply (IH (S k) 0%nat); lia.
Qed.

(** The attempt of a consumer that runs alone: the producer head is where the
    attempt saw it, so no repair is needed. *)
Lemma wp_pop_propose g s hp hc (sz : nat) :
  let C := claimed g in let P := length (cells g) in
  qinv g [] s → ghost_ok g → addrs g ≠ [] → heads g hp hc s →
  Z.of_nat sz + block_length ≤ usize_max → (0 < sz)%nat →
  wp (pop_propose (head_at g C hc) (Z.of_nat sz)) s (λ r s', s' = s ∧
    if decide (C / BL = P / BL)%nat then
      let n := Nat.min sz (P - C) in
      r = if decide (n = 0)%nat then None
          else Some (mkHead (addr g (C / BL)) (Z.of_nat (C mod BL + n)) false, Z.of_nat n)
    else r = Some (mkHead (addr g (C / BL)) (Z.of_nat (Nat.min BL (C mod BL + sz))) true, Z.of_nat sz)).
Proof.
  intros C P Hq Hg Ha Hh Hsz Hsz0. pose proof BL_pos. pose proof BL_Z.
  pose proof (go_claimed _ Hg) as HCP. fold C P in HCP.
  destruct (div_mod_BL P) as [EP HP]. destruct (div_mod_BL C) as [EC HC].
  unfold pop_propose. apply wp_bind.
  destruct (decide (C / BL = P / BL)%nat) as [Ek|Hk]; destruct hc.
  - pose proof (hd_behind _ _ _ _ Hh eq_refl) as Hbe. fold C P in Hbe. lia.
  - cbn [negb has_next head_at]. apply wp_bind.
    eapply wp_mono; [eapply wp_acquire_phead; [apply Hh|apply (unpack_head_at g [] s); [done|done|fold C P; lia|done|apply Hh]]|].
    intros ? ? [-> ->]. fold P. cbn [block index head_at]. rewrite Ek, Z.eqb_refl. cbv zeta.
    assert (Z.min (saturating_sub (Z.of_nat (P mod BL)) (Z.of_nat (C mod BL))) (Z.of_nat sz)
      = Z.of_nat (Nat.min sz (P - C))) as -> by (unfold saturating_sub; lia).
    destruct (decide (Nat.min sz (P - C) = 0)%nat) as [E0|Hn0].
    + rewrite E0. apply wp_ret. by apply wp_ret.
    + rewrite (proj2 (Z.eqb_neq _ 0)) by lia. apply wp_ret.
      apply wp_uadd; [lia|]. apply wp_ret. split; [done|]. do 3 f_equal. cbn. lia.
  - apply wp_ret. apply wp_uadd; [cbn; lia|]. apply wp_ret. split; [done|]. do 3 f_equal. cbn. lia.
  - cbn [negb has_next head_at]. apply wp_bind.
    eapply wp_mono; [eapply wp_acquire_phead; [apply Hh|apply (unpack_head_at g [] s); [done|done|fold C P; lia|done|apply Hh]]|].
    intros ? ? [-> ->]. fold P. cbn [block index head_at]. rewrite (proj2 (Z.eqb_neq _ _)).
    2: { intros E. apply Hk. symmetry.
         eapply qinv_inj; [done| | |done]; apply live_unclaimed; try done; fold C P; lia. }
    apply wp_ret. apply wp_uadd; [lia|]. apply wp_ret. split; [done|]. do 3 f_equal. cbn. lia.
Qed.

(** Without interference the re-read producer head confirms the reservation. *)
Lemma wp_pop_repair g s hp hc nch len fuel :
  let C := claimed g in let P := length (cells g) in
  qinv g [] s → ghost_ok g → addrs g ≠ [] → canon hp →
  phead s = pack (head_at g P hp) codec →
  ((C / BL)%nat = (P / BL)%nat → index nch ≤ Z.of_nat (P mod BL)) →
  wp (pop_repair fuel (head_at g C hc) nch len) s (λ r s', r = Some len ∧ s' = s).
Proof.
  intros C P Hq Hg Ha Hc Hph Hle. pose proof (go_claimed _ Hg) as HCP. fold C P in HCP.
  unfold pop_repair. destruct hc; [by apply wp_ret|]. cbn [negb has_next head_at].
  apply wp_bind. eapply wp_mono; [eapply wp_acquire_phead; [exact Hph|apply (unpack_head_at g [] s); [done|done|fold C P; lia|done|done]]|].
  intros ? ? [-> ->]. cbn [block index head_at].
  destruct (Z.eqb_spec (addr g (P / BL)) (addr g (C / BL))) as [Eb|Hne]; [|by apply wp_ret].
  assert (P / BL = C / BL)%nat as Ek.
  { eapply qinv_inj; [done| | |done]; apply live_unclaimed; try done; fold C P; lia. }
  rewrite (proj2 (Z.ltb_ge _ _)) by (apply Hle; congruence). by apply wp_ret.
Qed.

Lemma at_rest_claim g s id n hp hc :
  qinv g [] s → ghost_ok g → addrs g ≠ [] → resvs g !! id = None →
  (claimed g + n ≤ length (cells g))%nat → canon hp → canon hc →
  phead s = pack (head_at g (length (cells g)) hp) codec →
  (hp = true → S (length (cells g) / BL) < length (addrs g))%nat →
  (hc = true → (claimed g + n) / BL < length (cells g) / BL)%nat →
  at_rest (g_claim id n g) (set_chead (pack (head_at g (claimed g + n) hc) codec) s).
Proof.
  intros Hq Hg Ha Hid Hn Hcp Hcc Hph Hnx Hbe. split; [|split].
  - apply qinv_claim; [|done]. by apply qinv_words.
  - destruct Hg. split; [by apply resvs_ok_claim|done|done].
  - rewrite decide_False by done. exists hp, hc. split; try done.
Qed.

Lemma wp_pop_reserve g s hp hc (sz : nat) fuel :
  let C := claimed g in let P := length (cells g) in let n := Nat.min sz (P - C) in
  qinv g [] s → ghost_ok g → addrs g ≠ [] → heads g hp hc s →
  Z.of_nat sz + block_length ≤ usize_max → (0 < sz)%nat → (0 < fuel)%nat →
  wp (pop_reserve fuel (head_at g C hc) (Z.of_nat sz)) s (λ r s',
    match r with
    | None => n = 0%nat ∧ s' = s
    | Some (ch, nch, len) => ch = head_at g C hc ∧ ∃ w, s' = set_chead w s ∧
        if index nch =? block_length then (C / BL < P / BL)%nat ∧ len = Z.of_nat sz
        else len = Z.of_nat n ∧ ∃ hc', canon hc' ∧ (hc' = true → (C + n) / BL < P / BL)%nat ∧
             w = pack (head_at g (C + n) hc') codec
    end).
Proof.
  intros C P n Hq Hg Ha Hh Hsz Hsz0 Hf. pose proof BL_pos. pose proof BL_Z.
  pose proof (go_claimed _ Hg) as HCP. fold C P in HCP.
  destruct (div_mod_BL P) as [EP HP]. destruct (div_mod_BL C) as [EC HC].
  assert (live g (C / BL)) as Hlive by (apply live_unclaimed; try done; fold C P; lia).
  destruct fuel as [|fuel]; [lia|]. unfold pop_reserve. apply wp_loop_unfold.
  cbn [index head_at]. rewrite (proj2 (Z.eqb_neq (Z.of_nat (C mod BL)) block_length)) by lia.
  apply wp_bind. eapply wp_mono; [by apply (wp_pop_propose g s hp hc sz)|].
  intros r s' [-> Hr]. fold C P n in Hr.
  (* the exchange of the consumer head and the confirmation *)
  assert (∀ i h (len : Z), 0 ≤ i ≤ block_length →
    ((C / BL)%nat = (P / BL)%nat → i ≤ Z.of_nat (P mod BL)) →
    wp (old ← to_usize (head_at g C hc) codec;
        new ← to_usize (mkHead (addr g (C / BL)) i h) codec;
        r ← act (Cas true Chead old new);
        match r with
        | inl _ =>
            l ← pop_repair (S fuel) (head_at g C hc) (mkHead (addr g (C / BL)) i h) len;
            Ret (inr (match l with None => None
                      | Some len => Some (head_at g C hc, mkHead (addr g (C / BL)) i h, len) end))
        | inr real => spin;; Ret (inl (from_usize real codec, len))
        end) s (λ r s', r = inr (Some (head_at g C hc, mkHead (addr g (C / BL)) i h, len)) ∧
          s' = set_chead (pack (mkHead (addr g (C / BL)) i h) codec) s)) as Hcas.
  { intros i h len Hi Hle. rewrite (to_usize_word (head_at g C hc)) by (by apply (head_at_ok g [] s); [| |fold C P; lia|]).
    rewrite (to_usize_word (mkHead (addr g (C / BL)) i h)) by (by apply (block_head_ok g [] s)).
    eapply wp_act_bind; [apply handle_cas_ok; [unfold rd; simpl; f_equal; apply Hh|reflexivity]|].
    apply wp_bind. eapply wp_mono.
    - apply (wp_pop_repair g _ hp hc); try done; [by apply qinv_words|apply Hh|apply Hh].
    - intros ? ? [-> ->]. by apply wp_ret. }
  destruct (decide (C / BL = P / BL)%nat) as [Ek|Hk].
  - cbv zeta in Hr. destruct (decide (n = 0)%nat) as [E0|Hn0]; subst r; [by apply wp_ret|].
    eapply wp_mono; [apply Hcas; lia|].
    intros ? ? [-> ->]. split; [done|]. eexists. split; [done|]. cbn [index].
    rewrite (proj2 (Z.eqb_neq _ _)) by lia. split; [done|]. exists (trim false).
    split; [apply canon_trim|]. split; [by intros ?%trim_true|].
    rewrite pack_trim, head_at_block by lia. do 2 f_equal. lia.
  - subst r. eapply wp_mono; [apply Hcas; lia|].
    assert (C / BL < P / BL)%nat as Hlt.
    { assert (C / BL ≤ P / BL)%nat by (apply Nat.Div0.div_le_mono; lia). lia. }
    assert ((C / BL + 1) * BL ≤ P / BL * BL)%nat by (apply Nat.mul_le_mono_r; lia).
    intros ? ? [-> ->]. split; [done|]. eexists. split; [done|]. cbn [index].
    destruct (Z.eqb_spec (Z.of_nat (BL `min` (C mod BL + sz))) block_length) as [Ef|Hnf]; [done|].
    split; [f_equal; lia|]. exists (trim true). split; [apply canon_trim|].
    replace (C + n)%nat with (C / BL * BL + (C mod BL + sz))%nat by lia. split.
    + intros _. destruct (div_BL (C / BL) (C mod BL + sz)) as [-> _]; lia.
    + rewrite pack_trim, head_at_block by lia. do 3 f_equal. lia.
Qed.

(** [pop_batch n] from a queue at rest. *)
Lemma wp_pop_batch g s id (sz : nat) fuel :
  at_rest g s → resvs g !! id = None →
  Z.of_nat sz + block_length ≤ usize_max → (length (cells g) < fuel)%nat →
  let n := Nat.min sz (length (cells g) - claimed g) in
  wp (pop_batch fuel (Z.of_nat sz)) s (λ it s',
    at_rest (g_claim id n g) s' ∧
    iter_at (g_claim id n g) (mkResv (claimed g) (claimed g) (claimed g + n)) it ∧
    dropped s' = dropped s).
Proof.
  intros (Hq & Hg & Hrest) Hid Hsz Hf n. pose proof (go_claimed _ Hg) as HCP.
  (* nothing to claim *)
  assert (n = 0%nat → at_rest (g_claim id n g) s ∧
    iter_at (g_claim id n g) (mkResv (claimed g) (claimed g) (claimed g + n)) UBQIter_empty ∧
    dropped s = dropped s) as Hnone.
  { intros ->. split; [|split; [|done]].
    - split; [by apply qinv_claim|]. split; [destruct Hg; split; simpl; try lia; [by apply resvs_ok_claim|done]|].
      simpl. destruct (decide (addrs g = [])); [done|]. destruct Hrest as (hp & hc & []).
      exists hp, hc. split; simpl; rewrite ?Nat.add_0_r; done.
    - split; simpl; lia. }
  unfold pop_batch. destruct (Z.eqb_spec (Z.of_nat sz) 0) as [E0|Hn0]; [apply wp_ret, Hnone; lia|].
  eapply wp_act_bind; [by apply handle_load|].
  rewrite (to_usize_word Head_ZERO) by (apply head_ok_ZERO, geometry_ok).
  cbn [mbind prog_mbind prog_bind]. pose proof pack_ZERO as Ez. rewrite Ez.
  destruct (decide (addrs g = [])) as [Ea|Ha].
  { destruct Hrest as [_ ->]. apply wp_ret, Hnone.
    destruct (go_room _ Hg) as [Hr|[_ Hr]]; [rewrite Ea in Hr; simpl in Hr; lia|].
    unfold n. rewrite Hr. simpl. lia. }
  destruct Hrest as (hp & hc & Hh).
  assert (head_ok page block_length (head_at g (claimed g) hc)) as Hho by (by apply (head_at_ok g [] s)).
  rewrite (hd_chead _ _ _ _ Hh), (proj2 (Z.eqb_neq _ 0)).
  2: { apply Z.neq_sym, Z.lt_neq, pack_nonzero; [done|].
       eapply qinv_addr; [done|by apply live_unclaimed]. }
  apply wp_bind. eapply wp_mono.
  { eapply wp_acquire_chead; [apply Hh|apply (unpack_head_at g [] s); [done|done|lia|done|apply Hh]]. }
  intros ? ? [-> ->]. apply wp_bind.
  eapply wp_mono; [apply (wp_pop_reserve g s hp hc sz fuel); try done; lia|].
  intros [[[ch nch] len]|] s'; cbv beta iota zeta; [|intros [En ->]; by apply wp_ret, Hnone].
  intros (-> & w & -> & Hcase).
  assert (∀ hc', canon hc' → (hc' = true → (claimed g + n) / BL < length (cells g) / BL)%nat →
    at_rest (g_claim id n g) (set_chead (pack (head_at g (claimed g + n) hc') codec) s)) as Hend.
  { intros hc' ??. apply (at_rest_claim g s id n hp hc'); try done; try apply Hh. lia. }
  assert (∀ len, len = Z.of_nat n →
    iter_at (g_claim id n g) (mkResv (claimed g) (claimed g) (claimed g + n))
      (mkIter (addr g (claimed g / BL)) (Z.of_nat (claimed g mod BL)) len 0)) as Hit.
  { intros ? ->. split; simpl; [done|f_equal; lia|lia]. }
  destruct (index nch =? block_length).
  - destruct Hcase as [Hlt ->]. apply wp_bind. eapply wp_mono.
    { apply (wp_pop_advance g [] (set_chead w s) hp hc sz fuel); try done.
      - by apply qinv_words.
      - apply Hh.
      - apply Hh.
      - pose proof length_pos. lia.
      - assert (length (cells g) / BL ≤ length (cells g))%nat by (apply Nat.Div0.div_le_upper_bound; pose proof BL_pos; nia).
        lia. }
    intros l s' (El & hc' & Hc' & Hb' & ->). apply wp_ret. split; [by apply (Hend hc')|]. by split; [apply Hit|].
  - destruct Hcase as [El (hc' & Hc' & Hb' & ->)]. apply wp_ret. split; [by apply (Hend hc')|]. by split; [apply Hit|].
Qed.

End pop.
