(* ===== verification/UbqPushSpec.v ===== *)
(** * What [push_batch] does

    From a queue at rest, [push_batch] appends one position per reported item:
    the item's value, or a skip when the iterator ended early. *)

From S2P Require Import Prelude Prog Layout Head Geometry Epochs MpmcBlock MpmcHeap MpmcOps MpmcChain UbqQueue UbqInv UbqIterSpec UbqPopSpec.

Section link.
Context {T : Type} `{BlockGeometry} `{Allocator} `{Profile}.
Implicit Types (g : ghost T) (s : mem T) (fixed : gmap Z (Block T)).

(** A private chain becomes part of the shared blocks. *)
Lemma store_absorb fixed l ll s :
  store fixed (l :: ll) s →
  ∃ fixed', store fixed' ll s ∧ (∀ b, b ∈ l → fixed' !! b = blocks s !! b) ∧
            (∀ b, b ∉ l → fixed' !! b = fixed !! b).
Proof.
  intros [Hwf Hf Hnd Hdj Hdom Hch].
  assert (owned (l :: ll) s = l ++ owned ll s) as Ho by (unfold owned; simpl; by rewrite app_assoc).
  rewrite Ho in *. apply NoDup_app in Hnd as (Hnl & Hdis & Hnd).
  set (m := filter (λ kv, kv.1 ∈ l) (blocks s)).
  assert (∀ b, b ∈ l → (m ∪ fixed) !! b = blocks s !! b) as Hin.
  { intros b Hb. destruct (blocks s !! b) as [x|] eqn:E.
    - apply lookup_union_Some_l. by apply map_lookup_filter_Some.
    - rewrite lookup_union_r; [apply Hdj; set_solver|]. apply map_lookup_filter_None. by left. }
  assert (∀ b, b ∉ l → (m ∪ fixed) !! b = fixed !! b) as Hout.
  { intros b Hb. apply lookup_union_r. apply map_lookup_filter_None. right. intros x _. done. }
  exists (m ∪ fixed). split; [|done]. split; try done.
  - apply map_subseteq_spec. intros b x. destruct (decide (b ∈ l)) as [Hb|Hb].
    + by rewrite Hin.
    + rewrite Hout by done. intros Hx. by eapply lookup_weaken.
  - intros b Hb. destruct (decide (b ∈ l)) as [Hbl|Hbl]; [by destruct (Hdis b)|].
    rewrite Hout by done. apply Hdj. set_solver.
  - intros b Hs. destruct (decide (b ∈ l)) as [Hb|Hb]; [left; by rewrite Hin|].
    rewrite Hout by done. destruct (Hdom b Hs) as [?|Hx]; [by left|right]. set_solver.
  - intros l' Hl'. apply Hch. set_solver.
Qed.

Lemma block_of_unclaimed g k r :
  (claimed g ≤ length (cells g) ≤ k * BL)%nat → block_of g k r = fresh_block (addr g (S k)) r.
Proof.
  intros Hc. unfold block_of, fresh_block. rewrite consumed_of_unclaimed by lia. f_equal.
  rewrite (list_fmap_ext _ (λ _, Slot_new)).
  - rewrite (const_fmap _ _ Slot_new) by done. by rewrite length_seq.
  - intros i p [-> ?]%lookup_seq. apply slot_of_unwritten. lia.
Qed.

Lemma queue_map_link g fixed fixed' l :
  queue_map g fixed → ghost_ok g → NoDup l → (∀ b, b ∈ l → fixed !! b = None) →
  (∀ i b, l !! i = Some b → ∃ r, fixed' !! b = Some (fresh_block (default 0 (l !! S i)) r)) →
  (∀ k, live g k → ∃ r, fixed' !! addr g k = Some (block_of (g_link l g) k r)) →
  (∀ b, is_Some (fixed' !! b) → b ∈ l ∨ is_Some (fixed !! b)) →
  queue_map (g_link l g) fixed'.
Proof.
  intros Hq Hg Hnd Hdis Hnew Hold Hdom.
  eapply epoch_map_link; try done; [by apply ghost_ok_claimed| |].
  - intros i b Hi. destruct (Hnew i b Hi) as [r Hr]. eexists. split; [done|]. exists r.
    rewrite block_of_unclaimed.
    + by rewrite <- Nat.add_succ_r, addr_link_new.
    + simpl. pose proof (go_claimed _ Hg). split; [done|].
      destruct (go_room _ Hg) as [?|[_ Hc]]; [nia|rewrite Hc; simpl; lia].
  - intros k Hk. destruct (Hold k Hk) as [r Hr]. eexists. split; [done|]. by exists r.
Qed.

Lemma store_private fixed l ll s :
  store fixed (l :: ll) s →
  NoDup l ∧ (∀ b, b ∈ l → fixed !! b = None) ∧ chain_at (blocks s) l.
Proof.
  intros [Hwf Hf Hnd Hdj Hdom Hch]. split_and!.
  - unfold owned in Hnd. simpl in Hnd. rewrite <- app_assoc in Hnd. by apply NoDup_app in Hnd as (? & _).
  - intros b Hb. apply Hdj. apply (in_owned l); [done|set_solver].
  - apply Hch. set_solver.
Qed.

(** Installing the first blocks. *)
Lemma qinv_link_first g l ll s :
  qinv g (l :: ll) s → ghost_ok g → addrs g = [] → qinv (g_link l g) ll s.
Proof.
  intros (fixed & Hq & Hs) Hg Ha. destruct (store_private _ _ _ _ Hs) as (Hnd & Hdis & Hch).
  destruct (store_absorb _ _ _ _ Hs) as (fixed' & Hs' & Hin & Hout). exists fixed'. split; [|done].
  apply (queue_map_link g fixed); try done.
  - intros i b Hi. rewrite Hin by (by eapply list_elem_of_lookup_2). by apply Hch.
  - intros k [Hk _]. rewrite Ha in Hk. simpl in Hk. lia.
  - intros b Hb. destruct (decide (b ∈ l)); [by left|]. rewrite Hout in Hb by done. by right.
Qed.

(** Linking a private chain behind the last shared block. *)
Lemma qinv_link g l ll s k r :
  qinv g (l :: ll) s → ghost_ok g → length (addrs g) = S k →
  blocks s !! addr g k = Some (block_of g k r) →
  qinv (g_link l g) ll
    (set_blocks (<[addr g k := set_next (default 0 (l !! 0%nat)) (block_of g k r)]> (blocks s)) s).
Proof.
  intros (fixed & Hq & Hs) Hg Hlen Hb.
  assert (live g k) as Hk.
  { replace k with (length (addrs g) - 1)%nat by lia. apply live_last; [done|]. by destruct (addrs g). }
  destruct (qm_block Hq k Hk) as [r' Hr'].
  assert (r' = r) as ->.
  { assert (blocks s !! addr g k = Some (block_of g k r')) as Hb' by (by eapply lookup_weaken; [|apply Hs]).
    rewrite Hb in Hb'. by injection Hb'. }
  set (nb := set_next _ (block_of g k r)).
  assert (nb = block_of (g_link l g) k r) as Enb.
  { unfold nb, block_of, addr. simpl. rewrite lookup_app_r by lia. by rewrite Hlen, Nat.sub_diag. }
  assert (store (<[addr g k := nb]> fixed) (l :: ll) (set_blocks (<[addr g k := nb]> (blocks s)) s))
    as Hs1 by (by eapply store_update).
  destruct (store_private _ _ _ _ Hs1) as (Hnd & Hdis & Hch).
  assert (∀ b, b ∈ l → fixed !! b = None) as Hdis0.
  { intros b Hbl. by apply Hdis, lookup_insert_None in Hbl as [? _]. }
  destruct (store_absorb _ _ _ _ Hs1) as (fixed' & Hs' & Hin & Hout). exists fixed'. split; [|done].
  assert (∀ j, live g j → addr g j ∉ l) as Hnotin.
  { intros j Hj Hjl. destruct (qm_block Hq j Hj) as [r' Hr]. rewrite Hdis0 in Hr; done. }
  apply (queue_map_link g fixed); try done.
  - intros i b Hi. rewrite Hin by (by eapply list_elem_of_lookup_2). by apply Hch.
  - intros j Hj. rewrite Hout by (by apply Hnotin).
    destruct (decide (j = k)) as [->|Hne]; [rewrite lookup_insert_eq, Enb; eauto|].
    rewrite lookup_insert_ne by (intros E; apply Hne, (qm_inj Hq); done).
    destruct (qm_block Hq j Hj) as [r' Hr]. exists r'. rewrite Hr. f_equal.
    unfold block_of. f_equal. symmetry. apply addr_link_old. destruct Hj. lia.
  - intros b Hsome. destruct (decide (b ∈ l)); [by left|right]. rewrite Hout in Hsome by done.
    destruct (decide (addr g k = b)) as [<-|]; [eauto|]. by rewrite lookup_insert_ne in Hsome.
Qed.

Lemma wp_free_private g l s fuel :
  qinv g [l] s → (length l < fuel)%nat →
  wp (BlockChain_drop fuel (chain_of l)) s (λ _ s', qinv g [] s' ∧ same_words s s').
Proof.
  intros (fixed & Hq & Hs) Hf. eapply wp_mono; [by apply (wp_free_chain fixed l [])|].
  intros ? s' [Hs' ?]. split; [|done]. by exists fixed.
Qed.

Lemma wp_grow_private g l s sz :
  qinv g [l] s → 0 ≤ sz →
  page * (sz + 1) ≤ isize_max + 1 - page → (Z.of_nat (length l) + sz + 2) * block_length ≤ usize_max →
  wp (grow_to_fit_with (chain_of l) sz) s (λ c s', ∃ l',
    c = chain_of l' ∧ sz ≤ Z.of_nat (length l') * block_length ∧
    Z.of_nat (length l') ≤ Z.of_nat (length l) + 1 + sz ∧ qinv g [l'] s' ∧ same_words s s').
Proof.
  intros (fixed & Hq & Hs) Hsz ? ?. eapply wp_mono; [by apply (wp_grow_to_fit_with fixed l)|].
  intros c s' (l' & -> & ? & ? & Hs' & ?). exists l'. split_and!; try done. by exists fixed.
Qed.

End link.

Section push.
Context {T : Type} `{BlockGeometry} `{Allocator} `{Profile}.
Implicit Types (g : ghost T) (s : mem T).

(** ** Reserving *)

Lemma wp_push_reserve g s hp l (len : nat) fuel :
  let P := length (cells g) in
  qinv g [l] s → ghost_ok g → addrs g ≠ [] → canon hp →
  phead s = pack (head_at g P hp) codec → (0 < fuel)%nat → (0 < len)%nat →
  page * (Z.of_nat (length l) + Z.of_nat len + 4) ≤ isize_max →
  wp (push_reserve fuel (Z.of_nat len) (chain_of l) (head_at g P hp)) s (λ '(c, ph, nph) s',
    ph = head_at g P hp ∧ nph = mkHead (addr g (P / BL)) (Z.of_nat (Nat.min BL (P mod BL + len))) false ∧
    ∃ l', c = chain_of l' ∧ (length l' ≤ length l + len + 2)%nat ∧
      (len < BL - P mod BL + (if hp then BL else 0) + length l' * BL)%nat ∧
      qinv g [l'] s' ∧ phead s' = pack nph codec ∧ chead s' = chead s ∧ dropped s' = dropped s).
Proof.
  intros P Hq Hg Ha Hcp Hph Hf Hlen Hbound. pose proof BL_pos. pose proof BL_Z.
  destruct geometry_ok as [_ _ Hgeo]. pose proof (go_claimed _ Hg) as HCP. fold P in HCP.
  destruct (div_mod_BL P) as [EP HP]. destruct fuel as [|fuel]; [lia|].
  assert (live g (P / BL)) as Hlive by (by apply live_unclaimed).
  unfold push_reserve. apply wp_loop_unfold. cbn [index head_at].
  rewrite (proj2 (Z.leb_gt block_length (Z.of_nat (P mod BL)))) by lia.
  cbn [has_next head_at]. set (sz := saturating_sub _ _).
  assert (0 ≤ sz ≤ Z.of_nat len + 1) as Hsz by (unfold sz, saturating_sub; destruct hp; lia).
  apply wp_bind. eapply wp_mono.
  { apply (wp_grow_private g l s sz Hq); [lia|nia|]. unfold usize_max, isize_max in *. nia. }
  intros c s1 (l' & -> & Hfit & Hl' & Hq1 & Hw). cbv zeta.
  assert (Z.min (saturating_add (Z.of_nat (P mod BL)) (Z.of_nat len)) block_length
    = Z.of_nat (Nat.min BL (P mod BL + len))) as ->.
  { unfold saturating_add. pose proof length_lt_max. unfold usize_max, isize_max in *. lia. }
  cbn [block head_at].
  rewrite (to_usize_word (mkHead (addr g (P / BL)) (Z.of_nat (Nat.min _ _)) false))
    by (apply (block_head_ok g [l'] s1); [done|done|lia]).
  rewrite (to_usize_word (head_at g P hp)) by (by apply (head_at_ok g [l'] s1)).
  destruct Hw as (Ew1 & Ew2 & Ew3).
  eapply wp_act_bind.
  { apply handle_cas_ok; [unfold rd; simpl; f_equal; congruence|reflexivity]. }
  apply wp_ret. split; [done|]. split; [done|]. exists l'. split; [done|]. split; [lia|].
  split; [|split; [by apply qinv_words|split; [done|split; simpl; congruence]]].
  unfold sz, saturating_sub in Hfit. destruct hp; nia.
Qed.

(** ** Moving the producer head past the boundary *)

(** What the owner of the sentinel has done with its private chain: kept it, or
    linked it behind the last block. *)
Definition linked g l g' l' : Prop := (g' = g ∧ l' = l) ∨ (g' = g_link l g ∧ l' = []).

Lemma linked_same g l g' l' :
  linked g l g' l' → ghost_ok g → addrs g ≠ [] →
  ghost_ok g' ∧ addrs g' ≠ [] ∧ claimed g' = claimed g ∧ cells g' = cells g.
Proof.
  intros [[-> ->]|[-> ->]] Hg Ha; [done|]. split; [by apply ghost_ok_link|].
  split; [|done]. simpl. intros [? _]%app_eq_nil. done.
Qed.

Lemma linked_link g l g' l' : linked g l g' l' → linked g l (g_link l' g') [].
Proof.
  intros [[-> ->]|[-> ->]]; [by right|]. right. split; [|done].
  unfold g_link. simpl. by rewrite app_nil_r.
Qed.

Lemma wp_push_walk g s l (len : nat) fuel :
  let P := length (cells g) in
  qinv g [l] s → ghost_ok g → addrs g ≠ [] →
  (P + len < (length (addrs g) + length l) * BL)%nat → (len < fuel)%nat →
  wp (loop fuel (λ '(root, remaining, b, i),
        nx ← act (Load (NextOf b));
        '(root, nx) ← (if nx =? 0 then act (Store (NextOf b) root);; Ret (0, root)
                       else Ret (root, nx));
        available ← usub block_length i;
        if remaining <? available then
          w ← to_usize (mkHead b (i + remaining) (negb (nx =? 0))) codec;
          act (Store Phead w);;
          Ret (inr root)
        else
          Ret (inl (root, remaining - available, nx, 0)))
      (default 0 (l !! 0%nat), Z.of_nat len, addr g (P / BL), Z.of_nat (P mod BL))) s
    (λ root s', ∃ g' l' hp, linked g l g' l' ∧ root = default 0 (l' !! 0%nat) ∧
      qinv g' [l'] s' ∧ (P + len < length (addrs g') * BL)%nat ∧ canon hp ∧
      (hp = true → S ((P + len) / BL) < length (addrs g'))%nat ∧
      phead s' = pack (head_at g' (P + len) hp) codec ∧ chead s' = chead s ∧ dropped s' = dropped s).
Proof.
  intros P Hq Hg Ha Hroom Hfuel. pose proof BL_pos. pose proof BL_Z.
  match goal with |- wp (loop _ ?f _) _ ?R => set (body := f); set (Q := R) end.
  assert (∀ m k j g1 l1 s1, linked g l g1 l1 → qinv g1 [l1] s1 →
    chead s1 = chead s → dropped s1 = dropped s →
    (P + len < (length (addrs g1) + length l1) * BL)%nat → (k < length (addrs g1))%nat →
    (j < BL)%nat → (P ≤ k * BL + j ≤ P + len)%nat → (P + len - (k * BL + j) < m)%nat →
    wp (loop m body (default 0 (l1 !! 0%nat), Z.of_nat (P + len - (k * BL + j)), addr g1 k, Z.of_nat j))
      s1 Q) as Hloop.
  2: { destruct (div_mod_BL P) as [EP HP].
       specialize (Hloop fuel (P / BL)%nat (P mod BL)%nat g l s (or_introl (conj eq_refl eq_refl)) Hq).
       replace (P + len - (P / BL * BL + P mod BL))%nat with len in Hloop by lia.
       apply Hloop; try done; try lia. apply (live_unclaimed g P Hg); [|done].
       pose proof (go_claimed _ Hg). unfold P. lia. }
  clear Hq Hroom Hfuel. intros m. induction m as [|m IH];
    intros k j g1 l1 s1 Hlk Hq1 Hc1 Hd1 Hroom1 Hk Hj Hpos Hm; [lia|].
  pose proof (linked_same _ _ _ _ Hlk Hg Ha) as (Hg1 & Ha1 & Hcl1 & Hce1).
  pose proof (go_claimed _ Hg1) as HCP. rewrite Hce1 in HCP. fold P in HCP.
  assert (live g1 k) as Hlive.
  { apply (live_position _ _ (k * BL + j)%nat); [done|lia|]. apply unclaimed_unreleased. lia. }
  destruct (qinv_block _ _ _ _ Hq1 Hlive) as [r Hb].
  apply wp_loop_unfold. unfold body at 1. cbv beta iota.
  eapply wp_act_bind; [apply handle_load; unfold rd; by rewrite Hb|]. cbn [next block_of].
  apply wp_bind. eapply (wp_mono _ _ (λ '(root, nx) s2, ∃ g2 l2, linked g l g2 l2 ∧
    root = default 0 (l2 !! 0%nat) ∧ nx = addr g2 (S k) ∧ qinv g2 [l2] s2 ∧ addr g2 k = addr g1 k ∧
    chead s2 = chead s ∧ dropped s2 = dropped s ∧ (P + len < (length (addrs g2) + length l2) * BL)%nat ∧
    (S k < length (addrs g2) ∨ (S k = length (addrs g2) ∧ l2 = []))%nat)).
  { destruct (decide (S k < length (addrs g1))%nat) as [Hnext|Hend].
    - assert (live g1 (S k)) as Hlive'.
      { apply (live_position _ _ (S k * BL)%nat); [done|lia|]. apply unclaimed_unreleased. lia. }
      pose proof (proj1 (qinv_addr _ _ _ _ Hq1 Hlive')).
      rewrite (proj2 (Z.eqb_neq _ 0)) by lia. apply wp_ret. exists g1, l1. split_and!; try done. by left.
    - rewrite (proj2 (Z.eqb_eq (addr g1 (S k)) 0)).
      2: { unfold addr. by rewrite lookup_ge_None_2 by lia. }
      eapply wp_act_bind; [apply handle_store; unfold wr; by rewrite Hb|]. apply wp_ret.
      exists (g_link l1 g1), []. split_and!; try done.
      + by apply linked_link.
      + replace (S k) with (length (addrs g1) + 0)%nat by lia. by rewrite addr_link_new.
      + destruct (qinv_link g1 l1 [] s1 k r Hq1 Hg1) as (f & Hf1 & Hf2); [lia|done|].
        exists f. split; [done|]. by apply store_nil.
      + by apply addr_link_old.
      + simpl. rewrite length_app. lia.
      + simpl. rewrite length_app. destruct l1; simpl; [right|left]; [split; [lia|done]|lia]. }
  clear Hb Hq1 Hlive Hk Hroom1 Hc1 Hd1 Hlk Hg1 Ha1 Hcl1 Hce1 HCP. rename g1 into g0.
  intros [root nx] s2 (g2 & l2 & Hlk & -> & -> & Hq2 & <- & Hc2 & Hd2 & Hroom & Hnext).
  pose proof (linked_same _ _ _ _ Hlk Hg Ha) as (Hg2 & Ha2 & Hcl2 & Hce2).
  pose proof (go_claimed _ Hg2) as HCP. rewrite Hce2 in HCP. fold P in HCP.
  assert (live g2 k) as Hlive.
  { apply (live_position _ _ (k * BL + j)%nat); [lia|lia|]. apply unclaimed_unreleased. lia. }
  apply wp_usub; [lia|].
  destruct (Z.ltb_spec (Z.of_nat (P + len - (k * BL + j))) (block_length - Z.of_nat j)) as [Hrem|Hrem].
  - set (i' := (j + (P + len - (k * BL + j)))%nat).
    replace (Z.of_nat j + _) with (Z.of_nat i') by lia.
    rewrite to_usize_word by (apply (block_head_ok g2 [l2] s2); [done|done|lia]).
    eapply wp_act_bind; [by apply handle_store|]. apply wp_ret.
    rewrite pack_trim, head_at_block by lia. set (h := trim _).
    replace (k * BL + i')%nat with (P + len)%nat in * by lia.
    exists g2, l2, h. split_and!; try done.
    + by apply qinv_words.
    + destruct Hnext as [?|[? ->]]; [nia|]. simpl in Hroom. lia.
    + apply canon_trim.
    + intros Ht%trim_true. assert ((P + len) / BL = k)%nat as ->.
      { replace (P + len)%nat with (k * BL + i')%nat by lia. apply div_BL. lia. }
      destruct Hnext as [?|[E _]]; [done|]. unfold addr in Ht.
      by rewrite lookup_ge_None_2 in Ht by lia.
  - apply wp_ret.
    replace (Z.of_nat (P + len - (k * BL + j)) - (block_length - Z.of_nat j))
      with (Z.of_nat (P + len - (S k * BL + 0))) by lia.
    apply (IH (S k) 0%nat g2 l2 s2); try done; try lia.
    destruct Hnext as [?|[E ->]]; [done|]. simpl in Hroom. rewrite <- E in Hroom. nia.
Qed.

Lemma wp_push_advance g s l (len : nat) h fuel :
  let P := length (cells g) in
  qinv g [l] s → ghost_ok g → addrs g ≠ [] →
  (P + len < (length (addrs g) + length l) * BL)%nat → (len < fuel)%nat →
  wp (push_advance fuel (Z.of_nat len) (chain_of l) (head_at g P h)) s (λ c s',
    ∃ g' l' hp, linked g l g' l' ∧ c = chain_of l' ∧
      qinv g' [l'] s' ∧ (P + len < length (addrs g') * BL)%nat ∧ canon hp ∧
      (hp = true → S ((P + len) / BL) < length (addrs g'))%nat ∧
      phead s' = pack (head_at g' (P + len) hp) codec ∧ chead s' = chead s ∧ dropped s' = dropped s).
Proof.
  intros P Hq Hg Ha Hroom Hf. pose proof length_pos. unfold push_advance. cbn [BlockChain_take block index head_at].
  apply wp_bind. eapply wp_mono; [by apply (wp_push_walk g s l len fuel)|].
  intros root s' (g' & l' & hp & Hlk & -> & Hq' & Hrest).
  assert (l' = [] ∨ (∃ b l0, l' = b :: l0 ∧ l' = l)) as [->|(b & l0 & El & ->)].
  { destruct Hlk as [[_ ->]|[_ ->]]; [|by left]. destruct l; eauto 10. }
  - apply wp_ret. exists g', [], hp. split; [done|]. split; [done|]. split; [done|]. apply Hrest.
  - subst l. destruct Hq' as (f & Hf1 & Hs). pose proof Hs as Hs'.
    cbn [chain_of chain_root chain_tail chain_size lookup list_lookup]. unfold default at 1, id at 1.
    rewrite (chain_root_nonzero _ _ l0 _ b Hs) by left. cbn [negb].
    unfold give_back. do 3 (apply wp_debug_assert; [done|]).
    apply wp_debug_assert.
    { unfold default at 1, id at 1. rewrite (chain_root_nonzero _ _ l0 _ b Hs) by left.
      by rewrite (chain_tail_nonzero _ _ l0 _ b Hs) by left. }
    apply wp_debug_assert.
    { unfold default at 1, id at 1. rewrite (chain_root_nonzero _ _ l0 _ b Hs) by left.
      by rewrite (proj2 (Z.eqb_neq _ 0)) by (simpl length; nia). }
    apply wp_ret. exists g', (b :: l0), hp. split; [done|]. split; [done|].
    split; [by exists f|]. apply Hrest.
Qed.

(** ** Writing the reserved positions *)

Fixpoint g_writes (xs : list (option T)) g : ghost T :=
  match xs with [] => g | x :: xs => g_writes xs (g_write x g) end.

Lemma g_writes_fields xs g :
  addrs (g_writes xs g) = addrs g ∧ cells (g_writes xs g) = cells g ++ xs ∧
  claimed (g_writes xs g) = claimed g ∧ resvs (g_writes xs g) = resvs g.
Proof.
  revert g. induction xs as [|x xs IH]; intros g; simpl; [by rewrite app_nil_r|].
  destruct (IH (g_write x g)) as (-> & -> & -> & ->). simpl. by rewrite <- app_assoc.
Qed.

Lemma wp_wait_next g ll s k fuel :
  qinv g ll s → live g k → live g (S k) → (0 < fuel)%nat →
  wp (wait_next fuel (addr g k)) s (λ nx s', nx = addr g (S k) ∧ s' = s).
Proof.
  intros Hq Hk Hk' Hf. destruct fuel as [|fuel]; [lia|]. unfold wait_next. apply wp_loop_unfold.
  destruct (qinv_block _ _ _ _ Hq Hk) as [r Hb].
  eapply wp_act_bind; [apply handle_load; unfold rd; by rewrite Hb|]. cbn [next block_of].
  pose proof (proj1 (qinv_addr _ _ _ _ Hq Hk')).
  rewrite (proj2 (Z.eqb_neq _ 0)) by lia. by apply wp_ret.
Qed.

Lemma wp_push_write g ll s (len : nat) h items fuel :
  qinv g ll s → (claimed g ≤ length (cells g))%nat →
  (length (cells g) + len < length (addrs g) * BL)%nat → (0 < fuel)%nat →
  wp (push_write fuel len (head_at g (length (cells g)) h) items) s (λ _ s',
    qinv (g_writes (resize len None items) g) ll s' ∧ same_words s s').
Proof.
  intros Hq HCP Hroom Hf. pose proof BL_pos. pose proof BL_Z.
  revert g s h items Hq HCP Hroom. induction len as [|len IH]; intros g s h items Hq HCP Hroom.
  { rewrite resize_0. by apply wp_ret. }
  set (P := length (cells g)) in *. destruct (div_mod_BL P) as [EP HP].
  assert (live g (P / BL)) as Hlive.
  { apply (live_position _ _ P); [apply Nat.Div0.div_lt_upper_bound; lia|lia|].
    by apply unclaimed_unreleased. }
  set (x := match items with [] => None | x :: _ => x end).
  assert (resize (S len) None items = x :: resize len None (tail items)) as ->.
  { unfold x. clear. destruct items as [|y items]; [|done]. cbn [tail]. by rewrite !resize_nil. }
  cbn [push_write block index head_at]. apply wp_bind.
  eapply (wp_mono _ _ (λ ph s', s' = s ∧ ∃ h', ph = head_at g (S P) h')).
  { destruct (Z.eqb_spec (Z.of_nat (P mod BL) + 1) block_length) as [E|Hne].
    - apply wp_bind. eapply wp_mono; [apply (wp_wait_next g ll); try done|].
      + apply (live_position _ _ (S (P / BL) * BL)%nat); [|lia|apply unclaimed_unreleased; lia]. nia.
      + intros ? ? [-> ->]. apply wp_ret. split; [done|]. exists false. unfold from_ptr.
        change 0 with (Z.of_nat 0). rewrite head_at_block by done. f_equal. lia.
    - apply wp_ret. split; [done|]. exists h. replace (Z.of_nat (P mod BL) + 1) with (Z.of_nat (S (P mod BL))) by lia.
      rewrite head_at_block by lia. f_equal. lia. }
  intros ph s' [-> [h' ->]].
  assert ((let (item, items) := match items with
                           | [] => (None, [])
                           | item :: items => (item, items) end in
      match item with
      | Some item => Slot_write (addr g (P / BL)) (Z.of_nat (P mod BL)) item
      | None => Slot_skip (addr g (P / BL)) (Z.of_nat (P mod BL))
      end;;
      push_write fuel len (head_at g (S P) h') items) =
    (put_item (addr g (P / BL)) (Z.of_nat (P mod BL)) x;; push_write fuel len (head_at g (S P) h') (tail items)))
    as ->
    by (unfold x; clear; destruct items as [|[v|] items']; reflexivity).
  apply wp_bind. eapply wp_mono; [apply (wp_put_item g ll s (P / BL) (P mod BL) x); done|].
  intros ? s1 [Hq1 Hw1].
  assert (length (cells (g_write x g)) = S P) as El by (simpl; rewrite length_app; simpl; unfold P; lia).
  change (head_at g (S P) h') with (head_at (g_write x g) (S P) h'). rewrite <- El.
  eapply wp_mono; [apply (IH (g_write x g) s1 h' (tail items) Hq1); rewrite El; simpl; lia|].
  intros ? s2 [Hq2 Hw2]. split; [done|]. by eapply same_words_trans.
Qed.

(** ** The first push *)

Lemma wp_push_init g s :
  qinv g [] s → ghost_ok g → addrs g = [] → phead s = 0 → page * 8 ≤ isize_max →
  wp (push_init Head_ZERO) s (λ '(c, ph) s', ∃ l,
    (length l ≤ 2)%nat ∧ l ≠ [] ∧ c = BlockChain_zero ∧ ph = head_at (g_link l g) 0 false ∧
    qinv (g_link l g) [] s' ∧ phead s' = pack (head_at (g_link l g) 0 false) codec ∧
    chead s' = pack (head_at (g_link l g) 0 false) codec ∧ dropped s' = dropped s).
Proof.
  intros Hq Hg Ha Hph Hbound. pose proof page_pos. pose proof BL_pos. destruct geometry_ok as [_ _ Hgeo].
  unfold push_init. apply wp_bind.
  eapply wp_mono.
  { apply (wp_grow_private g [] s 1); [|lia|lia|].
    - destruct Hq as (f & ? & ?). exists f. split; [done|]. by apply store_nil.
    - simpl. unfold usize_max, isize_max in *. nia. }
  intros c s1 (l & -> & Hfit & Hl & Hq1 & (Ew1 & Ew2 & Ew3)).
  assert (l ≠ []) as Hne by (intros ->; simpl in Hfit; lia).
  pose proof (qinv_link_first g l [] s1 Hq1 Hg Ha) as Hq2.
  pose proof (ghost_ok_link g l Hg ltac:(done)) as Hg2.
  assert (cells g = [] ∧ claimed g = 0%nat) as [Hce Hcl].
  { pose proof (go_claimed _ Hg). destruct (go_room _ Hg) as [Hr|[_ Hr]]; [rewrite Ha in Hr; simpl in Hr; lia|].
    rewrite Hr in *. simpl in *. split; [done|lia]. }
  assert (addrs (g_link l g) ≠ []) as Ha2 by (simpl; by rewrite Ha).
  assert (from_ptr (default 0 (l !! 0%nat)) = head_at (g_link l g) 0 false) as Eh.
  { unfold head_at, from_ptr, addr. simpl. rewrite Ha, Nat.Div0.div_0_l, Nat.Div0.mod_0_l. done. }
  cbn [BlockChain_take chain_of chain_root chain_tail chain_size]. rewrite Eh.
  rewrite (to_usize_word Head_ZERO) by (apply head_ok_ZERO, geometry_ok).
  rewrite (to_usize_word (head_at _ _ _))
    by (apply (head_at_ok (g_link l g) [] s1); [done|done|simpl; rewrite Hce, Hcl; simpl; lia|done]).
  cbn [mbind prog_mbind prog_bind]. pose proof pack_ZERO as Ez. rewrite Ez.
  eapply wp_act_bind; [apply handle_cas_ok; [unfold rd; simpl; f_equal; congruence|reflexivity]|].
  cbv beta iota. eapply wp_act_bind; [by apply handle_store|]. apply wp_ret.
  exists l. split; [cbn [length] in Hl; lia|]. split; [done|]. split; [done|]. split; [done|].
  split; [exact (qinv_words (g_link l g) [] s1 _ _ _ Hq2)|]. by split_and!.
Qed.

(** The reservation is long enough that its end lies in a block that exists. *)
Lemma push_room g (l : list Z) hp (len : nat) :
  let P := length (cells g) in
  ghost_ok g → addrs g ≠ [] → (hp = true → S (P / BL) < length (addrs g))%nat →
  (len < BL - P mod BL + (if hp then BL else 0) + length l * BL)%nat →
  (P + len < (length (addrs g) + length l) * BL)%nat.
Proof.
  intros P Hg Ha Hnx Hlen. destruct (div_mod_BL P) as [EP HP]. pose proof BL_pos.
  assert (P / BL < length (addrs g))%nat as Hk.
  { destruct (go_room _ Hg) as [?|[? _]]; [|done]. apply Nat.Div0.div_lt_upper_bound. unfold P. lia. }
  destruct hp; [specialize (Hnx eq_refl)|]; nia.
Qed.

(** The positions [push_batch] appends: one per reported item. *)
Definition pushed (items_len : Z) (items : list (option T)) : list (option T) :=
  resize (Z.to_nat (Z.min items_len (usize_max - 1))) None items.

(** [g'] is [g] after a push of [xs]. *)
Record push_to g (xs : list (option T)) g' : Prop := {
  pt_addrs : addrs g `prefix_of` addrs g';
  pt_length : (length (addrs g') ≤ length (addrs g) + length xs + 4)%nat;
  pt_cells : cells g' = cells g ++ xs;
  pt_claimed : claimed g' = claimed g;
  pt_resvs : resvs g' = resvs g
}.

(** From an installed queue: reserve, advance, write, drop the spare blocks. *)
Lemma wp_push_rest g s hp hc (len : nat) items fuel :
  qinv g [] s → ghost_ok g → addrs g ≠ [] → heads g hp hc s → (0 < len)%nat →
  page * (Z.of_nat len + 4) ≤ isize_max → (len + 2 < fuel)%nat →
  wp ('(blocks, phead, new_phead) ←
        push_reserve fuel (Z.of_nat len) BlockChain_zero (head_at g (length (cells g)) hp);
      blocks ← (if index new_phead =? block_length then push_advance fuel (Z.of_nat len) blocks phead
                else Ret blocks);
      push_write fuel len phead items;;
      BlockChain_drop fuel blocks) s (λ _ s', ∃ g',
    at_rest g' s' ∧ (length (addrs g') ≤ length (addrs g) + len + 2)%nat ∧
    addrs g `prefix_of` addrs g' ∧ cells g' = cells g ++ resize len None items ∧
    claimed g' = claimed g ∧ resvs g' = resvs g ∧ dropped s' = dropped s).
Proof.
  intros Hq Hg Ha Hh Hlen Hbound Hf. pose proof BL_pos. pose proof BL_Z.
  pose proof (go_claimed _ Hg) as HCP. set (P := length (cells g)) in *.
  destruct (div_mod_BL P) as [EP HP].
  change BlockChain_zero with (chain_of []). apply wp_bind. eapply wp_mono.
  { apply (wp_push_reserve g s hp [] len fuel);
      [|done|done|apply Hh|apply Hh|lia|done|cbn [length]; lia].
    destruct Hq as (f & ? & ?). exists f. split; [done|]. by apply store_nil. }
  intros [[c ph] nph] s1 (-> & Enph & l & -> & Hl & Hfit & Hq1 & Hp1 & Hc1 & Hd1). fold P in Enph, Hp1, Hfit.
  apply wp_bind.
  eapply (wp_mono _ _ (λ c s2, ∃ g2 l2 hp2, linked g l g2 l2 ∧ c = chain_of l2 ∧ qinv g2 [l2] s2 ∧
    (P + len < length (addrs g2) * BL)%nat ∧ canon hp2 ∧
    (hp2 = true → S ((P + len) / BL) < length (addrs g2))%nat ∧
    phead s2 = pack (head_at g2 (P + len) hp2) codec ∧ chead s2 = chead s ∧ dropped s2 = dropped s)).
  { destruct (Z.eqb_spec (index nph) block_length) as [Ei|Hni].
    - eapply wp_mono; [apply (wp_push_advance g s1 l len hp fuel); try done|].
      + apply (push_room g l hp len); [done..|apply Hh|done].
      + lia.
      + intros c s2 (g2 & l2 & hp2 & ? & ? & ? & ? & ? & ? & ? & ? & ?).
        exists g2, l2, hp2. split_and!; try done; congruence.
    - rewrite Enph in Hni. cbn [index] in Hni. apply wp_ret. exists g, l, false. split_and!; try done.
      + by left.
      + apply (live_unclaimed g P Hg) in Ha as [Hk _]; [|unfold P; lia]. nia.
      + rewrite Hp1, Enph. rewrite head_at_block by lia. do 2 f_equal. lia. }
  intros c s2 (g2 & l2 & hp2 & Hlk & -> & Hq2 & Hroom2 & Hcn2 & Hnx2 & Hp2 & Hc2 & Hd2).
  pose proof (linked_same _ _ _ _ Hlk Hg Ha) as (Hg2 & Ha2 & Hcl2 & Hce2).
  assert (addrs g `prefix_of` addrs g2) as Hpre by (destruct Hlk as [[-> _]|[-> _]]; [done|by eexists]).
  assert (length (addrs g2) ≤ length (addrs g) + len + 2 ∧ length l2 ≤ len + 2)%nat as [Hla Hll].
  { simpl in Hl. destruct Hlk as [[-> ->]|[-> ->]]; simpl; rewrite ?length_app; lia. }
  assert (resvs g2 = resvs g) as Hre by (by destruct Hlk as [[-> _]|[-> _]]).
  assert (∀ p h, (p < length (addrs g) * BL)%nat → head_at g p h = head_at g2 p h) as Hhead.
  { intros p h Hp. unfold head_at, addr. do 2 f_equal. eapply prefix_lookup_lt; [|done].
    apply Nat.Div0.div_lt_upper_bound. lia. }
  assert (P < length (addrs g) * BL)%nat as HPa.
  { destruct (go_room _ Hg) as [?|[? _]]; [done|done]. }
  fold P. rewrite (Hhead P hp HPa). apply wp_bind.
  assert (length (cells g2) = P) as EP2 by (by rewrite Hce2). rewrite <- EP2.
  eapply wp_mono; [apply (wp_push_write g2 [l2] s2 len); [done| |rewrite EP2; lia|lia]|].
  { rewrite Hce2, Hcl2. done. }
  intros ? s3 (Hq3 & Ew1 & Ew2 & Ew3). set (xs := resize len None items) in *.
  destruct (g_writes_fields xs g2) as (Ea & Ec & Ecl & Er).
  assert (length (cells g2 ++ xs) = P + len)%nat as Elen.
  { rewrite length_app, EP2. unfold xs. by rewrite length_resize. }
  eapply wp_mono; [apply (wp_free_private _ l2 s3 fuel Hq3); lia|].
  intros ? s4 (Hq4 & Ev1 & Ev2 & Ev3). exists (g_writes xs g2). rewrite Ea, Ec, Ecl, Er, Hce2.
  split; [|split_and!; try done; congruence]. split; [done|]. split.
  - destruct Hg2 as [Hr2 _ _]. split.
    + destruct Hr2. split; rewrite ?Er, ?Ecl; done.
    + rewrite Ecl, Ec, Elen. unfold P in *. lia.
    + left. by rewrite Ec, Ea, Elen.
  - rewrite Ea, decide_False by done. exists hp2, hc.
    assert (∀ p h, head_at (g_writes xs g2) p h = head_at g2 p h) as Hsame.
    { intros p h. unfold head_at, addr. by rewrite Ea. }
    split; rewrite ?Ec, ?Elen, ?Ecl, ?Ea, ?Hsame.
    + split; [done|apply Hh].
    + congruence.
    + rewrite Hcl2, <- Hhead by lia. rewrite Ev2, Ew2, Hc2. apply Hh.
    + done.
    + intros Ht%(hd_behind _ _ _ _ Hh). fold P in Ht. rewrite Hcl2.
      assert (P / BL ≤ (P + len) / BL)%nat by (apply Nat.Div0.div_le_mono; lia). lia.
Qed.

Lemma wp_push_batch g s items_len items fuel :
  at_rest g s → 0 ≤ items_len →
  let len := Z.to_nat (Z.min items_len (usize_max - 1)) in
  page * (Z.of_nat len + 8) ≤ isize_max → (len + 2 < fuel)%nat →
  wp (push_batch fuel items_len items) s (λ _ s', ∃ g',
    at_rest g' s' ∧ push_to g (pushed items_len items) g' ∧ dropped s' = dropped s).
Proof.
  intros (Hq & Hg & Hrest) Hpos len Hbound Hf. pose proof page_pos. unfold push_batch.
  assert (Z.min items_len (usize_max - 1) = Z.of_nat len) as El by (unfold len, usize_max; lia).
  unfold pushed. rewrite El. cbv zeta.
  destruct (Z.eqb_spec (Z.of_nat len) 0) as [E0|Hn0].
  { apply wp_ret. exists g. assert (len = 0%nat) as -> by lia. split; [done|]. split; [|done].
    rewrite resize_0. split; simpl; rewrite ?app_nil_r; try done. lia. }
  rewrite Nat2Z.id. apply wp_bind.
  eapply wp_mono; [by apply (wp_acquire_phead s (phead s))|].
  intros ? ? [-> ->].
  (* the installed queue the reservation starts from *)
  apply wp_bind. eapply (wp_mono _ _ (λ '(c, ph) s1, ∃ g1 hp hc, c = BlockChain_zero ∧
    qinv g1 [] s1 ∧ ghost_ok g1 ∧ addrs g1 ≠ [] ∧ heads g1 hp hc s1 ∧
    ph = head_at g1 (length (cells g1)) hp ∧ addrs g `prefix_of` addrs g1 ∧
    (length (addrs g1) ≤ length (addrs g) + 2)%nat ∧ cells g1 = cells g ∧
    claimed g1 = claimed g ∧ resvs g1 = resvs g ∧ dropped s1 = dropped s)).
  - destruct (decide (addrs g = [])) as [Ea|Ha].
    + destruct Hrest as [Ep Ec]. rewrite Ep.
      assert (from_usize 0 codec = Head_ZERO) as ->.
      { unfold from_usize. rewrite !Z.land_0_l. simpl. by rewrite andb_false_r. }
      cbn [is_zero]. eapply wp_mono; [apply (wp_push_init g s); try done; lia|].
      intros [c ph] s1 (l & Hl & Hne & -> & -> & Hq1 & Hp1 & Hc1 & Hd1).
      assert (cells g = [] ∧ claimed g = 0%nat) as [Hce Hcl].
      { pose proof (go_claimed _ Hg). destruct (go_room _ Hg) as [Hr|[_ Hr]];
          [rewrite Ea in Hr; simpl in Hr; lia|]. rewrite Hr in *. simpl in *. split; [done|lia]. }
      exists (g_link l g), false, false. split_and!; try done.
      * by apply ghost_ok_link.
      * simpl. by rewrite Ea.
      * split; simpl; rewrite ?Hce, ?Hcl; try done.
      * simpl. by rewrite Hce.
      * simpl. by eexists.
      * simpl. rewrite length_app. lia.
    + destruct Hrest as (hp & hc & Hh). pose proof (go_claimed _ Hg).
      rewrite (hd_phead _ _ _ _ Hh), (unpack_head_at g [] s); [|done|done|lia|done|apply Hh].
      assert (is_zero (head_at g (length (cells g)) hp) = false) as ->.
      { unfold is_zero. cbn [block head_at].
        assert (0 < addr g (length (cells g) / BL)).
        { eapply qinv_addr; [done|]. apply live_unclaimed; [done|lia|done]. }
        by rewrite (proj2 (Z.eqb_neq _ 0)) by lia. }
      apply wp_ret. exists g, hp, hc. split_and!; try done; lia.
  - intros [c ph] s1 (g1 & hp & hc & -> & Hq1 & Hg1 & Ha1 & Hh1 & -> & Hpre & Hla & Hce & Hcl & Hre & Hd).
    eapply wp_mono; [apply (wp_push_rest g1 s1 hp hc len items fuel); try done; lia|].
    intros ? s2 (g2 & Hr2 & Hla2 & Hpre2 & Hce2 & Hcl2 & Hre2 & Hd2). exists g2. split; [done|].
    split; [|congruence]. split; try congruence.
    + by etrans.
    + rewrite length_resize. lia.
Qed.

End push.
