(* ===== verification/UbqDropSpec.v ===== *)
(** * Dropping the queue

    [Drop for UBQ] destroys exactly the values that were pushed and not yet
    popped, in order, and returns every allocation. *)

From S2P Require Import Prelude Prog Layout Head Geometry Epochs MpmcBlock MpmcHeap MpmcOps MpmcChain UbqQueue UbqInv UbqIterSpec UbqPopSpec UbqPushSpec.

Section drop.
Context {T : Type} `{BlockGeometry} `{Allocator} `{Profile}.
Implicit Types (g : ghost T) (s : mem T).

Lemma slots_dropped g a n :
  (∀ p, (a ≤ p)%nat → unread g p) →
  concat (dropped_by <$> (slot_of g <$> seq a n)) = present (take n (drop a (cells g))) ∧
  Forall droppable (slot_of g <$> seq a n).
Proof.
  revert a. induction n as [|n IH]; intros a Hu; [done|].
  destruct (IH (S a)) as [IHc IHd]; [intros; apply Hu; lia|].
  cbn [seq fmap list_fmap]. split.
  - cbn [concat]. rewrite IHc. destruct (cells g !! a) as [x|] eqn:Ex.
    + rewrite (drop_S _ _ _ Ex). unfold slot_of at 1. rewrite Ex.
      destruct x as [v|]; [|done]. by rewrite decide_True by (by apply Hu).
    + apply lookup_ge_None in Ex. unfold slot_of at 1. rewrite lookup_ge_None_2 by done.
      rewrite !drop_ge, !take_nil by lia. done.
  - constructor; [|done]. unfold slot_of. destruct (cells g !! a) as [[v|]|]; try done.
    rewrite decide_True by (by apply Hu). split; simpl; [unfold WRITTEN; lia|eauto].
Qed.

(** Freeing the [k]-th block. *)
Lemma qinv_freed_next g s s' k i d :
  qinv (g_freed (k * BL + i) g) [] s → (i < BL)%nat → (k < length (addrs g))%nat →
  heap_to s (delete (addr g k) (blocks s)) d s' →
  qinv (g_freed (S k * BL + 0) g) [] s'.
Proof.
  intros (fixed & Hq & Hs) Hi Hk Hh. set (g0 := g_freed _ g) in *.
  assert (live g0 k) as Hlive by (apply live_freed; [done|lia]).
  exists (delete (addr g0 k) fixed). split.
  - apply queue_map_remove; [done| |done|].
    + split; [done|]. intros p Hp. unfold g0. rewrite !released_freed. split; [lia|].
      apply slot_of_unread; [done|]. rewrite !unread_freed. lia.
    + intros [_ Hc]. replace (S k * BL + 0)%nat with (k * BL + BL)%nat in Hc by lia.
      rewrite consumed_freed in Hc; lia.
  - eapply store_retire; [done| |exact Hh]. destruct (qm_block Hq k Hlive) as [r Hr]. eauto.
Qed.

Lemma wp_free_blocks g s k i fuel :
  qinv (g_freed (k * BL + i) g) [] s → (i < BL)%nat → (k ≤ length (addrs g))%nat →
  (length (cells g) ≤ length (addrs g) * BL)%nat → (length (addrs g) - k < fuel)%nat →
  (k = length (addrs g) → i = 0%nat) →
  wp (free_chain fuel (addr g k)) s (λ _ s',
    qinv (g_freed (length (addrs g) * BL) g) [] s' ∧
    dropped s' = dropped s ++ present (drop (k * BL + i) (cells g)) ∧ pool s' = pool s).
Proof.
  intros Hq Hi Hk Hroom Hf Hend. revert k i s Hq Hi Hk Hf Hend. unfold free_chain.
  induction fuel as [|fuel IH]; intros k i s Hq Hi Hk Hf Hend; [lia|]. apply wp_loop_unfold.
  destruct (decide (k = length (addrs g))) as [Ek|Hne].
  - assert (addr g k = 0) as -> by (unfold addr; by rewrite lookup_ge_None_2 by lia).
    specialize (Hend Ek). subst. apply wp_ret. rewrite Nat.add_0_r in *. split; [done|].
    rewrite drop_ge by done. simpl. by rewrite app_nil_r.
  - set (g0 := g_freed (k * BL + i) g) in *.
    assert (live g0 k) as Hlive by (apply live_freed; [done|lia]).
    destruct (qinv_block _ _ _ _ Hq Hlive) as [r Hb].
    pose proof (proj1 (qinv_addr _ _ _ _ Hq Hlive)) as Hpos.
    change (addr g0 k) with (addr g k) in *. rewrite (proj2 (Z.eqb_neq _ 0)) by lia.
    eapply wp_act_bind; [apply handle_load; unfold rd; by rewrite Hb|].
    assert (consumed_of g0 k = i) as Eco by (apply consumed_freed; lia).
    assert (drop i (slot_of g0 <$> seq (k * BL) BL) = slot_of g0 <$> seq (k * BL + i) (BL - i)) as Edr.
    { rewrite <- fmap_drop. f_equal. apply drop_seq. }
    destruct (slots_dropped g0 (k * BL + i) (BL - i)) as [Ed Hd]; [intros p; by apply unread_freed|].
    apply wp_bind. eapply wp_mono.
    { eapply wp_free; [destruct Hq as (? & _ & Hs); apply Hs|exact Hb| | |].
      - simpl. by rewrite length_fmap, length_seq.
      - simpl. rewrite Eco, <- BL_Z. lia.
      - simpl. by rewrite Eco, Nat2Z.id, Edr. }
    intros ? s1 Hh. apply wp_ret. cbn [next block_of].
    cbn [consumed slots block_of] in Hh. rewrite Eco, Nat2Z.id, Edr, Ed in Hh.
    pose proof (qinv_freed_next g s s1 k i _ Hq Hi ltac:(lia) Hh) as Hq1.
    change (addr g0 (S k)) with (addr g (S k)).
    eapply wp_mono; [apply (IH (S k) 0%nat s1 Hq1); lia|].
    intros ? s2 (Hq2 & Hd2 & Hp2). split; [done|]. destruct Hh as (rs & al & -> & _).
    split; [|done]. rewrite Hd2. simpl. rewrite <- app_assoc. f_equal.
    unfold present. rewrite <- omap_app. f_equal.
    rewrite <- (take_drop (BL - i) (drop (k * BL + i) (cells g))) at 2. f_equal.
    rewrite drop_drop. f_equal. lia.
Qed.

(** Nothing is left: no block, no run descriptor, no allocation. *)
Definition heap_empty s : Prop := blocks s = ∅ ∧ runs s = ∅ ∧ allocs s = ∅.

Lemma wf_no_blocks s : wf s → blocks s = ∅ → heap_empty s.
Proof.
  intros Hwf Hb. split; [done|]. unfold wf in Hwf. rewrite Hb, fmap_empty in Hwf.
  assert (runs s = ∅) as Hr.
  { apply map_empty. intros r. destruct (runs s !! r) as [rn|] eqn:E; [|done].
    destruct (run_has_member Hwf r rn E) as [b Hb']. done. }
  split; [done|]. apply map_empty. intros p. destruct (allocs s !! p) as [l|] eqn:E; [|done].
  destruct (hk_owned _ _ _ Hwf p l E) as [Hx|[x Hx]]; [done|]. by rewrite Hr in Hx.
Qed.

Lemma wp_UBQ_drop g s fuel :
  at_rest g s → resvs g = ∅ → (length (addrs g) < fuel)%nat →
  wp (UBQ_drop fuel) s (λ _ s',
    heap_empty s' ∧ dropped s' = dropped s ++ present (drop (claimed g) (cells g))).
Proof.
  intros (Hq & Hg & Hrest) Hres Hf. pose proof (go_claimed _ Hg) as HCP.
  destruct (div_mod_BL (claimed g)) as [EC HC]. set (C := claimed g) in *.
  assert (g_freed (C / BL * BL + C mod BL) g = g) as Eg.
  { rewrite <- EC. unfold g_freed, C. rewrite <- Hres. by destruct g. }
  unfold UBQ_drop. eapply wp_act_bind; [by apply handle_load|]. apply wp_bind.
  assert (block (from_usize (chead s) codec) = addr g (C / BL)) as ->.
  { destruct (decide (addrs g = [])) as [Ea|Ha].
    - destruct Hrest as [_ ->]. unfold from_usize, addr. rewrite Z.land_0_l, Ea. done.
    - destruct Hrest as (hp & hc & Hh). rewrite (hd_chead _ _ _ _ Hh).
      by rewrite (unpack_head_at g [] s); [|done|done|fold C; lia|done|apply Hh]. }
  assert (C / BL ≤ length (addrs g) ∧ (C / BL = length (addrs g) → C mod BL = 0) ∧
          length (cells g) ≤ length (addrs g) * BL)%nat as (Hk & Hend & Hroom).
  { destruct (go_room _ Hg) as [?|[Ea Ec]].
    - assert (C / BL < length (addrs g))%nat by (apply Nat.Div0.div_lt_upper_bound; lia). lia.
    - rewrite Ec in HCP. simpl in HCP. assert (C = 0%nat) as -> by lia.
      rewrite Ec, Nat.Div0.div_0_l, Nat.Div0.mod_0_l. simpl. lia. }
  eapply wp_mono; [apply (wp_free_blocks g s (C / BL) (C mod BL)); [by rewrite Eg|done..|lia|done]|].
  rewrite <- EC.
  intros ? s1 ((fixed & Hq1 & Hs1) & Hd1 & Hp1).
  assert (fixed = ∅) as ->.
  { apply map_empty. intros b. destruct (fixed !! b) eqn:E; [|done].
    destruct (qm_dom Hq1 b ltac:(eauto)) as (k & [Hk1 Hk2] & _). simpl in Hk1. exfalso.
    rewrite (consumed_of_ext (g_freed (k * BL + BL) g)) in Hk2.
    - rewrite consumed_freed in Hk2; lia.
    - intros p Hp. rewrite !released_freed. nia. }
  eapply wp_act_bind; [by apply handle_load|].
  destruct (Z.eqb_spec (pool s1) 0) as [E0|Hn0]; cbn [negb].
  - apply wp_ret. split; [|done]. apply wf_no_blocks; [apply Hs1|]. apply map_empty. intros b.
    destruct (blocks s1 !! b) eqn:E; [|done].
    destruct (st_dom _ _ _ Hs1 b ltac:(eauto)) as [[x Hx]|Hin]; [done|].
    unfold owned, pool_list in Hin. rewrite E0 in Hin. by apply elem_of_nil in Hin.
  - assert (pool_list s1 = [pool s1]) as Epl.
    { unfold pool_list. by rewrite (proj2 (Z.eqb_neq _ _) Hn0). }
    destruct (st_chain _ _ _ Hs1 (pool_list s1) ltac:(left) 0%nat (pool s1)) as [r Hb]; [by rewrite Epl|].
    eapply wp_mono; [eapply wp_free_fresh; [apply Hs1|exact Hb]|].
    intros ? s2 (rs & al & -> & Hwf). split; [|done]. apply wf_no_blocks; [done|]. simpl.
    apply map_empty. intros b. destruct (decide (pool s1 = b)) as [<-|Hne]; [apply lookup_delete_eq|].
    rewrite lookup_delete_ne by done. destruct (blocks s1 !! b) eqn:E; [|done].
    destruct (st_dom _ _ _ Hs1 b ltac:(eauto)) as [[x Hx]|Hin]; [done|].
    unfold owned in Hin. rewrite Epl in Hin. by apply list_elem_of_singleton in Hin.
Qed.

End drop.
