(* ===== verification/UbqSpec.v ===== *)
(** * The contract of the MPMC queue and its refinement

    The abstract queue is a list of entries, an entry being a value or a skip (a
    position whose producer had nothing to put there), together with the entries
    each outstanding iterator still has to deliver.  Every sequence of API calls
    of [UBQ], with any number of iterators outstanding, returns what the abstract
    queue returns; it does not panic, does not loop for ever and performs no
    invalid memory access.  Dropping the queue then destroys exactly the values
    still in it and returns every allocation. *)

From S2P Require Import Prelude Prog Layout Head Geometry Epochs MpmcBlock MpmcHeap MpmcOps MpmcChain UbqQueue UbqInv UbqIterSpec UbqPopSpec UbqPushSpec UbqDropSpec Instances.

(** ** The abstract queue *)

Record spec (T : Type) := mkSpec {
  sp_queue : list (option T);
  sp_iters : gmap nat (list (option T));
  sp_dropped : list T
}.
Arguments mkSpec {T} _ _ _.
Arguments sp_queue {T} _.
Arguments sp_iters {T} _.
Arguments sp_dropped {T} _.

(** The calls of the API. [PushBatch n items] is a batch whose iterator reports
    the length [n] and returns [items]; iterators are named by the caller. *)
Inductive call (T : Type) :=
| Push (v : T)
| PushBatch (n : Z) (items : list (option T))
| Pop
| PopBatch (id : nat) (n : nat)
| NextItem (id : nat)
| DropIter (id : nat)
| IsEmpty.
Arguments Push {T} v.
Arguments PushBatch {T} n items.
Arguments Pop {T}.
Arguments PopBatch {T} id n.
Arguments NextItem {T} id.
Arguments DropIter {T} id.
Arguments IsEmpty {T}.

Inductive answer (T : Type) := AUnit | AItem (v : option T) | ABool (b : bool).
Arguments AUnit {T}.
Arguments AItem {T} v.
Arguments ABool {T} b.

Definition spec_new {T} : spec T := mkSpec [] ∅ [].

(** [None]: the call is not possible (an iterator name used twice or unknown). *)
Definition spec_call {T} (c : call T) (sp : spec T) : option (spec T * answer T) :=
  let '(mkSpec q its d) := sp in
  match c with
  | Push v => Some (mkSpec (q ++ [Some v]) its d, AUnit)
  | PushBatch n items => Some (mkSpec (q ++ pushed n items) its d, AUnit)
  | Pop => match q with
           | [] => Some (sp, AItem None)
           | x :: q => Some (mkSpec q its d, AItem x)
           end
  | PopBatch id n =>
      match its !! id with
      | None => Some (mkSpec (drop n q) (<[id := take n q]> its) d, AUnit)
      | Some _ => None
      end
  | NextItem id =>
      l ← its !! id; let '(x, l) := spec_next l in Some (mkSpec q (<[id := l]> its) d, AItem x)
  | DropIter id => l ← its !! id; Some (mkSpec q (delete id its) (d ++ present l), AUnit)
  | IsEmpty => Some (sp, ABool (match q with [] => true | _ => false end))
  end.

Fixpoint spec_calls {T} (cs : list (call T)) (sp : spec T) : option (spec T * list (answer T)) :=
  match cs with
  | [] => Some (sp, [])
  | c :: cs => '(sp, a) ← spec_call c sp; '(sp, l) ← spec_calls cs sp; Some (sp, a :: l)
  end.

(** ** The concrete calls *)

Section refinement.
Context {T : Type} `{BlockGeometry} `{Allocator} `{Profile}.
Implicit Types (g : ghost T) (s : mem T) (its : gmap nat UBQIter).

(** One call; the caller keeps the iterators it was given. *)
Definition exec_call (fuel : nat) (c : call T) its : prog (ubqE T) (gmap nat UBQIter * answer T) :=
  match c with
  | Push v => push fuel v;; Ret (its, AUnit)
  | PushBatch n items => push_batch fuel n items;; Ret (its, AUnit)
  | Pop => v ← pop fuel; Ret (its, AItem v)
  | PopBatch id n => it ← pop_batch fuel (Z.of_nat n); Ret (<[id := it]> its, AUnit)
  | NextItem id =>
      it ← expect (its !! id); '(v, it) ← iter_next fuel it; Ret (<[id := it]> its, AItem v)
  | DropIter id => it ← expect (its !! id); iter_drop fuel it;; Ret (delete id its, AUnit)
  | IsEmpty => b ← is_empty fuel; Ret (its, ABool b)
  end.

Fixpoint exec_calls (fuel : nat) (cs : list (call T)) its :
  prog (ubqE T) (gmap nat UBQIter * list (answer T)) :=
  match cs with
  | [] => Ret (its, [])
  | c :: cs =>
      '(its, a) ← exec_call fuel c its; '(its, l) ← exec_calls fuel cs its; Ret (its, a :: l)
  end.

(** The batch sizes the machine can represent: the blocks of one push fit in an
    allocation, and a pop does not overflow the index arithmetic. *)
Definition call_ok (c : call T) : Prop :=
  match c with
  | Push _ => page * 9 ≤ isize_max
  | PushBatch n _ => 0 ≤ n ∧ page * (n + 8) ≤ isize_max
  | PopBatch _ n => Z.of_nat n + block_length ≤ usize_max
  | Pop | NextItem _ | DropIter _ | IsEmpty => True
  end.

(** How far a call can make a loop run. *)
Definition call_cost (c : call T) : nat :=
  match c with
  | Push _ => 10
  | PushBatch n _ => 2 * Z.to_nat n + 8
  | _ => 0
  end.

Definition calls_cost (cs : list (call T)) : nat := sum_list (call_cost <$> cs).

(** ** The simulation *)

Record refines g its (sp : spec T) (cost : nat) s : Prop := {
  rf_rest : at_rest g s;
  rf_queue : sp_queue sp = drop (claimed g) (cells g);
  rf_iters : sp_iters sp = items_of g <$> resvs g;
  rf_at : ∀ id, match resvs g !! id, its !! id with
                | Some rv, Some it => iter_at g rv it
                | None, None => True
                | _, _ => False
                end;
  rf_dropped : dropped s = sp_dropped sp;
  rf_cost : (length (cells g) + length (addrs g) ≤ cost)%nat
}.

Lemma refines_new : refines ghost_new ∅ spec_new 0 UBQ_new.
Proof.
  split; try done. split; [|split].
  - exists ∅. split; [apply epoch_map_new|]. split; simpl.
    + apply heap_ok_empty.
    + done.
    + constructor.
    + intros b Hb. by apply elem_of_nil in Hb.
    + by intros b [x Hx].
    + intros l [->|Hl]%elem_of_cons; [|by apply elem_of_nil in Hl]. intros [|i] b; done.
  - apply ghost_ok_new.
  - by rewrite decide_True by done.
Qed.

(** An iterator stays where it is when other calls run. *)
Lemma iter_at_mono g g' rv it :
  ghost_ok g → (∃ id, resvs g !! id = Some rv) → addrs g `prefix_of` addrs g' →
  iter_at g rv it → iter_at g' rv it.
Proof.
  intros Hg [id Hid] Hpre [Hp Hl Hn]. split; [|done|done]. intros Hlt.
  destruct (Hp Hlt) as [-> ->]. split; [|done]. unfold addr. f_equal.
  eapply prefix_lookup_lt; [|done]. apply block_exists; [done|].
  eapply lookup_lt_is_Some, resv_cell; done.
Qed.

Lemma refines_push g its sp cost s n items fuel :
  refines g its sp cost s → 0 ≤ n → page * (n + 8) ≤ isize_max →
  (cost + 2 * Z.to_nat n + 8 < fuel)%nat →
  wp (push_batch fuel n items) s (λ _ s', ∃ g',
    refines g' its (mkSpec (sp_queue sp ++ pushed n items) (sp_iters sp) (sp_dropped sp))
      (cost + (2 * Z.to_nat n + 8)) s').
Proof.
  intros [Hr Hq Hit Hat Hd Hc] Hn Hb Hf. pose proof page_pos.
  set (len := Z.to_nat (Z.min n (usize_max - 1))).
  assert (len ≤ Z.to_nat n)%nat as Hlen by lia.
  eapply wp_mono; [apply (wp_push_batch g s n items fuel Hr Hn); fold len; [nia|lia]|].
  intros ? s' (g' & Hr' & [Hpre Hla Hce Hcl Hre] & Hd'). exists g'.
  pose proof Hr as (_ & Hg & _). pose proof (go_claimed _ Hg).
  assert (length (pushed n items) = len) as Elen by apply length_resize. split; simpl.
  - done.
  - by rewrite Hce, Hcl, drop_app_le, Hq by lia.
  - rewrite Hit, Hre. apply map_fmap_ext. intros id rv Hid. symmetry.
    apply (items_of_claimed g rv Hg); [eauto|]. rewrite Hce. by eexists.
  - intros id. rewrite Hre. specialize (Hat id). destruct (resvs g !! id) as [rv|] eqn:Hid; [|done].
    destruct (its !! id) as [it|]; [|done]. apply (iter_at_mono g g' rv it Hg); [eauto|done|done].
  - congruence.
  - rewrite Hce, length_app. lia.
Qed.

Lemma refines_pop_batch g its sp cost s id (n : nat) fuel :
  refines g its sp cost s → its !! id = None →
  Z.of_nat n + block_length ≤ usize_max → (cost + 8 < fuel)%nat →
  wp (pop_batch fuel (Z.of_nat n)) s (λ it s', ∃ g',
    refines g' (<[id := it]> its)
      (mkSpec (drop n (sp_queue sp)) (<[id := take n (sp_queue sp)]> (sp_iters sp)) (sp_dropped sp))
      cost s').
Proof.
  intros [Hr Hq Hit Hat Hd Hc] Hid Hn Hf. pose proof Hr as (_ & Hg & _). pose proof (go_claimed _ Hg).
  assert (resvs g !! id = None) as Hid'.
  { specialize (Hat id). rewrite Hid in Hat. by destruct (resvs g !! id). }
  eapply wp_mono; [apply (wp_pop_batch g s id n fuel Hr Hid' Hn); lia|].
  intros it s' (Hr' & Hia & Hd'). set (m := Nat.min n _) in *. exists (g_claim id m g). split; simpl.
  - done.
  - rewrite Hq, drop_drop. destruct (decide (n ≤ length (cells g) - claimed g)%nat).
    + f_equal. lia.
    + rewrite !drop_ge by lia. done.
  - rewrite fmap_insert, Hit. f_equal.
    rewrite Hq. unfold items_of. simpl. replace (claimed g + m - claimed g)%nat with m by lia.
    destruct (decide (n ≤ length (cells g) - claimed g)%nat); [f_equal; lia|].
    rewrite !take_ge; [done|rewrite length_drop; lia..].
  - intros j. destruct (decide (id = j)) as [<-|Hne]; [by rewrite !lookup_insert_eq|].
    rewrite !lookup_insert_ne by done. specialize (Hat j). destruct (resvs g !! j) eqn:Hj; [|done].
    destruct (its !! j); [|done]. destruct Hat. by split.
  - congruence.
  - lia.
Qed.

Lemma refines_next g its sp cost s id it l fuel :
  refines g its sp cost s → its !! id = Some it → sp_iters sp !! id = Some l → (cost + 8 < fuel)%nat →
  wp (iter_next fuel it) s (λ '(v, it') s', ∃ g',
    v = (spec_next l).1 ∧
    refines g' (<[id := it']> its)
      (mkSpec (sp_queue sp) (<[id := (spec_next l).2]> (sp_iters sp)) (sp_dropped sp)) cost s').
Proof.
  intros [Hr Hq Hit Hat Hd Hc] Hid Hl Hf. pose proof Hr as (Hqi & Hg & Hrest).
  pose proof (Hat id) as Hati. rewrite Hid in Hati. destruct (resvs g !! id) as [rv|] eqn:Hrv; [|done].
  assert (l = items_of g rv) as ->.
  { rewrite Hit, lookup_fmap, Hrv in Hl. by injection Hl. }
  destruct (ro_order _ (go_resvs _ Hg) _ _ Hrv). pose proof (go_claimed _ Hg).
  eapply wp_mono; [apply (wp_iter_next g [] s id rv it fuel); try done; lia|].
  intros [v it'] s' (rv' & Hsp & [Hst Hpo Hi' Ho' Ha'] & _ & _ & (Ew1 & Ew2 & Ew3)).
  exists (g_resv id rv' g). rewrite Hsp. split; [done|]. split; simpl.
  - split; [done|]. split; [done|]. simpl. destruct (decide (addrs g = [])); [by rewrite Ew1, Ew2|].
    destruct Hrest as (hp & hc & []). exists hp, hc. by split; simpl; rewrite ?Ew1, ?Ew2.
  - done.
  - rewrite fmap_insert, Hit. done.
  - intros j. destruct (decide (id = j)) as [<-|Hne]; [by rewrite !lookup_insert_eq|].
    rewrite !lookup_insert_ne by done. specialize (Hat j). destruct (resvs g !! j); [|done].
    destruct (its !! j); [|done]. destruct Hat. by split.
  - congruence.
  - lia.
Qed.

Lemma refines_drop_iter g its sp cost s id it l fuel :
  refines g its sp cost s → its !! id = Some it → sp_iters sp !! id = Some l → (cost + 8 < fuel)%nat →
  wp (iter_drop fuel it) s (λ _ s', ∃ g',
    refines g' (delete id its)
      (mkSpec (sp_queue sp) (delete id (sp_iters sp)) (sp_dropped sp ++ present l)) cost s').
Proof.
  intros [Hr Hq Hit Hat Hd Hc] Hid Hl Hf. pose proof Hr as (Hqi & Hg & Hrest).
  pose proof (Hat id) as Hati. rewrite Hid in Hati. destruct (resvs g !! id) as [rv|] eqn:Hrv; [|done].
  assert (l = items_of g rv) as ->.
  { rewrite Hit, lookup_fmap, Hrv in Hl. by injection Hl. }
  destruct (ro_order _ (go_resvs _ Hg) _ _ Hrv). pose proof (go_claimed _ Hg).
  eapply wp_mono; [apply (wp_iter_drop g [] s id rv it fuel); try done; lia|].
  intros ? s' (Hq' & Hg' & Ep & Ec & Ed). exists (g_forget id g). split; simpl.
  - split; [done|]. split; [done|]. simpl. destruct (decide (addrs g = [])); [by rewrite Ep, Ec|].
    destruct Hrest as (hp & hc & []). exists hp, hc. by split; simpl; rewrite ?Ep, ?Ec.
  - done.
  - by rewrite fmap_delete, Hit.
  - intros j. destruct (decide (id = j)) as [<-|Hne]; [by rewrite !lookup_delete_eq|].
    rewrite !lookup_delete_ne by done. specialize (Hat j). destruct (resvs g !! j); [|done].
    destruct (its !! j); [|done]. destruct Hat. by split.
  - by rewrite Ed, Hd.
  - lia.
Qed.

Lemma refines_pop g its sp cost s fuel :
  refines g its sp cost s → (cost + 8 < fuel)%nat →
  wp (pop fuel) s (λ v s', ∃ g',
    v = (match sp_queue sp with [] => None | x :: _ => x end) ∧
    refines g' its (mkSpec (tail (sp_queue sp)) (sp_iters sp) (sp_dropped sp)) cost s').
Proof.
  intros Hrf Hf. set (id := fresh (dom its)).
  assert (its !! id = None) as Hid by (apply not_elem_of_dom, is_fresh).
  assert (sp_iters sp !! id = None) as Hsid.
  { rewrite (rf_iters _ _ _ _ _ Hrf), lookup_fmap. pose proof (rf_at _ _ _ _ _ Hrf id) as Hat.
    rewrite Hid in Hat. by destruct (resvs g !! id). }
  assert (Z.of_nat 1 + block_length ≤ usize_max) as Hb.
  { pose proof length_lt_max. unfold isize_max, usize_max in *. lia. }
  unfold pop. apply wp_bind. eapply wp_mono; [by apply (refines_pop_batch g its sp cost s id 1 fuel)|].
  intros it s1 (g1 & Hrf1). apply wp_bind.
  eapply wp_mono; [eapply (refines_next g1 _ _ cost s1 id); [exact Hrf1|apply lookup_insert_eq|
    apply lookup_insert_eq|done]|].
  intros [v it'] s2 (g2 & -> & Hrf2). apply wp_bind.
  eapply wp_mono; [eapply (refines_drop_iter g2 _ _ cost s2 id); [exact Hrf2|apply lookup_insert_eq|
    apply lookup_insert_eq|done]|].
  intros ? s3 (g3 & Hrf3). apply wp_ret. exists g3. simpl in Hrf3.
  rewrite !insert_insert_eq, !delete_insert_id in Hrf3 by done.
  destruct (sp_queue sp) as [|[x|] q]; simpl in *; rewrite ?app_nil_r in Hrf3; done.
Qed.

Lemma refines_is_empty g its sp cost s fuel :
  refines g its sp cost s → (cost + 8 < fuel)%nat →
  wp (is_empty fuel) s (λ b s',
    b = (match sp_queue sp with [] => true | _ => false end) ∧ s' = s).
Proof.
  intros [(Hq & Hg & Hrest) Hqu _ _ _ _] Hf. pose proof (go_claimed _ Hg) as HCP. rewrite Hqu.
  unfold is_empty. apply wp_bind. eapply wp_mono; [by apply (wp_acquire_phead s (phead s))|].
  intros ? ? [-> ->]. destruct (decide (addrs g = [])) as [Ea|Ha].
  - destruct Hrest as [-> _].
    assert (from_usize 0 codec = Head_ZERO) as ->.
    { unfold from_usize. rewrite !Z.land_0_l. simpl. by rewrite andb_false_r. }
    apply wp_ret. split; [|done]. destruct (go_room _ Hg) as [Hr|[_ Hr]].
    + rewrite Ea in Hr. simpl in Hr. lia.
    + by rewrite Hr, drop_nil.
  - destruct Hrest as (hp & hc & Hh). pose proof (div_mod_BL (length (cells g))). pose proof (div_mod_BL (claimed g)).
    assert (live g (length (cells g) / BL)) as Hlp by (apply live_unclaimed; [done|lia|done]).
    assert (live g (claimed g / BL)) as Hlc by (apply live_unclaimed; [done|lia|done]).
    assert (∀ h p, live g (p / BL) → is_zero (head_at g p h) = false) as Hz.
    { intros h p Hp. unfold is_zero. cbn [block head_at]. pose proof (proj1 (qinv_addr _ _ _ _ Hq Hp)).
      by rewrite (proj2 (Z.eqb_neq _ 0)) by lia. }
    rewrite (hd_phead _ _ _ _ Hh), (unpack_head_at g [] s), Hz; [|done|done|done|lia|done|apply Hh].
    apply wp_bind. destruct fuel as [|fuel]; [lia|]. apply wp_loop_unfold. apply wp_bind.
    eapply wp_mono; [eapply wp_acquire_chead; [apply Hh|apply (unpack_head_at g [] s); [done|done|lia|done|apply Hh]]|].
    intros ? ? [-> ->]. rewrite Hz by done. apply wp_ret, wp_ret. split; [|done].
    cbn [block index head_at]. destruct (decide (claimed g = length (cells g))) as [E|Hne].
    + by rewrite <- E, !Z.eqb_refl, E, drop_all.
    + assert (is_Some (drop (claimed g) (cells g) !! 0%nat)) as [x Hx].
      { rewrite lookup_drop. apply lookup_lt_is_Some. lia. }
      destruct (drop (claimed g) (cells g)); [done|].
      destruct (Z.eqb_spec (addr g (length (cells g) / BL)) (addr g (claimed g / BL))) as [E|]; [|done].
      apply (qinv_inj _ _ _ _ _ Hq) in E; [|done..]. apply Z.eqb_neq. lia.
Qed.

Lemma refines_call g its sp sp' a cost s c fuel :
  refines g its sp cost s → call_ok c → spec_call c sp = Some (sp', a) →
  (cost + call_cost c + 8 < fuel)%nat →
  wp (exec_call fuel c its) s (λ '(its', a') s', a' = a ∧ ∃ g',
    refines g' its' sp' (cost + call_cost c) s').
Proof.
  intros Hrf Hok Hsp Hf. destruct sp as [q l d] eqn:Esp. rewrite <- Esp in Hrf.
  destruct c; simpl in Hsp, Hok, Hf |- *; rewrite ?Nat.add_0_r in *.
  - injection Hsp as <- <-. apply wp_bind. unfold push.
    eapply wp_mono; [eapply (refines_push g its sp cost s 1 [Some v] fuel Hrf); lia|].
    intros ? s' (g' & Hrf'). apply wp_ret. split; [done|]. exists g'. subst sp. simpl in Hrf'.
    assert (pushed 1 [Some v] = [Some v]) as <- by reflexivity.
    by destruct Hrf'; split.
  - injection Hsp as <- <-. destruct Hok. apply wp_bind.
    eapply wp_mono; [eapply (refines_push g its sp cost s n items fuel Hrf); lia|].
    intros ? s' (g' & Hrf'). apply wp_ret. split; [done|]. exists g'. subst sp.
    destruct Hrf'. split; try done. lia.
  - apply wp_bind. eapply wp_mono; [apply (refines_pop g its sp cost s fuel Hrf); lia|].
    intros ? s' (g' & -> & Hrf'). apply wp_ret. subst sp. simpl in Hrf' |- *.
    destruct q as [|x q]; injection Hsp as <- <-; split; try done; by exists g'.
  - destruct (l !! id) as [|] eqn:Hl; [done|]. injection Hsp as <- <-.
    assert (its !! id = None) as Hid.
    { pose proof (rf_at _ _ _ _ _ Hrf id) as Hat. pose proof (rf_iters _ _ _ _ _ Hrf) as Hi.
      subst sp. simpl in Hi. rewrite Hi, lookup_fmap in Hl.
      destruct (resvs g !! id); [done|]. by destruct (its !! id). }
    apply wp_bind. eapply wp_mono; [apply (refines_pop_batch g its sp cost s id n fuel Hrf Hid Hok); lia|].
    intros it s' (g' & Hrf'). apply wp_ret. split; [done|]. exists g'. by subst sp.
  - destruct (l !! id) as [li|] eqn:Hl; [|done]. simpl in Hsp.
    assert (∃ it, its !! id = Some it) as [it Hid].
    { pose proof (rf_at _ _ _ _ _ Hrf id) as Hat. pose proof (rf_iters _ _ _ _ _ Hrf) as Hi.
      subst sp. simpl in Hi. rewrite Hi, lookup_fmap in Hl.
      destruct (resvs g !! id); [|done]. destruct (its !! id); eauto. done. }
    rewrite Hid. simpl. apply wp_bind.
    eapply wp_mono; [apply (refines_next g its sp cost s id it li fuel Hrf Hid); [by subst sp|lia]|].
    intros [v it'] s' (g' & -> & Hrf'). apply wp_ret. subst sp. simpl in Hrf'.
    destruct (spec_next li) as [x li']. injection Hsp as <- <-. split; [done|]. by exists g'.
  - destruct (l !! id) as [li|] eqn:Hl; [|done]. simpl in Hsp. injection Hsp as <- <-.
    assert (∃ it, its !! id = Some it) as [it Hid].
    { pose proof (rf_at _ _ _ _ _ Hrf id) as Hat. pose proof (rf_iters _ _ _ _ _ Hrf) as Hi.
      subst sp. simpl in Hi. rewrite Hi, lookup_fmap in Hl.
      destruct (resvs g !! id); [|done]. destruct (its !! id); eauto. done. }
    rewrite Hid. simpl. apply wp_bind.
    eapply wp_mono; [apply (refines_drop_iter g its sp cost s id it li fuel Hrf Hid); [by subst sp|lia]|].
    intros ? s' (g' & Hrf'). apply wp_ret. subst sp. split; [done|]. by exists g'.
  - injection Hsp as <- <-. apply wp_bind.
    eapply wp_mono; [apply (refines_is_empty g its sp cost s fuel Hrf); lia|].
    intros ? ? [-> ->]. apply wp_ret. subst sp. split; [done|]. by exists g.
Qed.

Lemma refines_calls cs g its sp sp' l cost s fuel :
  refines g its sp cost s → Forall call_ok cs → spec_calls cs sp = Some (sp', l) →
  (cost + calls_cost cs + 8 < fuel)%nat →
  wp (exec_calls fuel cs its) s (λ '(its', l') s', l' = l ∧ ∃ g',
    refines g' its' sp' (cost + calls_cost cs) s').
Proof.
  revert g its sp l cost s. induction cs as [|c cs IH]; intros g its sp l cost s Hrf Hok Hsp Hf.
  { injection Hsp as <- <-. apply wp_ret. split; [done|]. exists g. unfold calls_cost. simpl.
    by rewrite Nat.add_0_r. }
  apply Forall_cons_1 in Hok as [Hc Hcs]. simpl in Hsp.
  destruct (spec_call c sp) as [[sp1 a]|] eqn:E1; [|done]. simpl in Hsp.
  destruct (spec_calls cs sp1) as [[sp2 l2]|] eqn:E2; [|done]. simpl in Hsp. injection Hsp as <- <-.
  assert (calls_cost (c :: cs) = call_cost c + calls_cost cs)%nat as Ecost by done.
  rewrite Ecost in *. cbn [exec_calls]. apply wp_bind.
  eapply wp_mono; [apply (refines_call g its sp sp1 a cost s c fuel Hrf Hc E1); lia|].
  intros [its' a'] s' (-> & g' & Hrf'). apply wp_bind.
  eapply wp_mono; [apply (IH g' its' sp1 l2 _ s' Hrf' Hcs E2); lia|].
  intros [its'' l'] s'' (-> & g'' & Hrf''). apply wp_ret. split; [done|]. exists g''.
  by rewrite Nat.add_assoc.
Qed.

(** C1: any sequence of calls of the API whose batch sizes are within [call_ok], with
    any number of iterators outstanding, runs to completion without panicking and
    without an invalid memory access, returns the answers of the abstract queue and
    destroys the values the abstract queue destroys.  The bounds are those of
    the machine: nine pages fit in [isize::MAX] bytes for a [push], [n + 8] pages for a
    [push_batch] of [n] values, and a [pop_batch] of [n] values has [n] plus the
    length of a block within [usize::MAX]; the code does not check the last one, see
    [pop_batch_overflow].  The abstract queue keeps the positions a batch skipped, and
    [is_empty] answers false while only such positions are left. *)
Theorem ubq_refines_spec cs sp l fuel :
  Forall call_ok cs → spec_calls cs spec_new = Some (sp, l) → (calls_cost cs + 8 < fuel)%nat →
  wp (exec_calls fuel cs ∅) UBQ_new (λ '(its, l') s,
    l' = l ∧ dom its = dom (sp_iters sp) ∧ dropped s = sp_dropped sp).
Proof.
  intros Hok Hsp Hf. eapply wp_mono; [by apply (refines_calls cs _ _ _ sp l 0 _ fuel refines_new)|].
  intros [its l'] s (-> & g & Hrf). split; [done|]. split; [|apply Hrf].
  rewrite (rf_iters _ _ _ _ _ Hrf), dom_fmap_L. apply set_eq. intros id. rewrite !elem_of_dom.
  pose proof (rf_at _ _ _ _ _ Hrf id) as Hat.
  destruct (resvs g !! id), (its !! id); try done; split; eauto; by intros [].
Qed.

(** C2: after any calls within [call_ok], dropping the queue after its iterators destroys exactly the values still
    in it, in order, after those already destroyed, and leaves no block, no run
    descriptor and no allocation. *)
Theorem ubq_drop_exact cs sp l fuel :
  Forall call_ok cs → spec_calls cs spec_new = Some (sp, l) → sp_iters sp = ∅ →
  (calls_cost cs + 8 < fuel)%nat →
  wp (exec_calls fuel cs ∅;; UBQ_drop fuel) UBQ_new (λ _ s,
    heap_empty s ∧ dropped s = sp_dropped sp ++ present (sp_queue sp)).
Proof.
  intros Hok Hsp Hno Hf. apply wp_bind.
  eapply wp_mono; [by apply (refines_calls cs _ _ _ sp l 0 _ fuel refines_new)|].
  intros [its l'] s (-> & g & [Hr Hq Hi _ Hd Hc]).
  eapply wp_mono; [apply (wp_UBQ_drop g s fuel Hr); [|lia]|].
  - rewrite Hno in Hi. by apply symmetry, fmap_empty_inv in Hi.
  - intros ? s' [He Hd']. split; [done|]. by rewrite Hd', Hd, Hq.
Qed.

End refinement.

(** A workload with two overlapping iterators, a short batch and a skipped
    position, on blocks of two slots. *)
Definition sample_calls : list (call Z) :=
  [Push 1; PushBatch 4 [Some 2; Some 3; Some 4]; PopBatch 0 2; PopBatch 1 2; NextItem 1;
   NextItem 0; IsEmpty; DropIter 0; Pop; Pop; Push 5; Push 6; Pop; NextItem 1; DropIter 1].

Definition sample_spec : spec Z := mkSpec [Some 6] ∅ [2].

Definition sample_answers : list (answer Z) :=
  [AUnit; AUnit; AUnit; AUnit; AItem (Some 3); AItem (Some 1); ABool false; AUnit; AItem None;
   AItem None; AUnit; AUnit; AItem (Some 5); AItem (Some 4); AUnit].

Lemma sample_ok : Forall (call_ok (H := tiny_geometry)) sample_calls.
Proof. repeat constructor; vm_compute; discriminate. Defined.

Lemma ubq_refines_spec_witness :
  wp (exec_calls (H1 := debug_build) 100 sample_calls ∅) UBQ_new
    (λ '(its, l') s, l' = sample_answers ∧ dom its = dom (sp_iters sample_spec) ∧
       dropped s = sp_dropped sample_spec).
Proof.
  apply (ubq_refines_spec sample_calls sample_spec sample_answers 100);
    [apply sample_ok|reflexivity|vm_compute; lia].
Defined.

Lemma ubq_drop_exact_witness :
  wp (exec_calls (H1 := debug_build) 100 sample_calls ∅;; UBQ_drop (H0 := debug_build) 100) UBQ_new
    (λ _ s, heap_empty s ∧ dropped s = [2; 6]).
Proof.
  apply (ubq_drop_exact sample_calls sample_spec sample_answers 100);
    [apply sample_ok|reflexivity|reflexivity|vm_compute; lia].
Defined.

(** ** Executions of the MPMC queue outside its contract

    Concrete executions, at blocks of two slots, that the code does not exclude:
    a stalled consumer whose head word is reused, an index overflow of
    [pop_batch], and a [pop] that returns nothing from a queue with a value. *)

Section release.
Local Existing Instance release_build.

(** ** The consumer head is not tagged *)

(** Five threads: a consumer that stalls before its compare-exchange, the thread
    that meanwhile empties and refills the queue so that the first block is
    recycled into the same position, and three late callers. *)
Definition stalled_threads : list (prog (ubqE Z) (option Z)) :=
  [pop 20;
   push 20 1;; push 20 2;; pop 20;; pop 20;; push 20 3;; push 20 4;; pop 20;; pop 20;; Ret None;
   pop 20;
   push 20 5;; Ret None;
   pop 20].

Definition stalled_schedule : list nat :=
  replicate 26 1%nat ++ replicate 3 0%nat ++ replicate 65 1%nat ++ replicate 1 0%nat ++
  replicate 6 2%nat ++ replicate 4 3%nat ++ replicate 8 4%nat ++ replicate 2 0%nat.

(** The last caller has popped [5] and the stalled consumer is about to move the
    value out of the same slot again. *)
Definition double_read (c : list (prog (ubqE Z) (option Z)) * mem Z) : bool :=
  match c.1 !! 0%nat, c.1 !! 4%nat with
  | Some p, Some (Ret (Some v)) => (v =? 5) && prog_fault p c.2
  | _, _ => false
  end.

Lemma stalled_schedule_runs :
  match run_sched stalled_schedule (stalled_threads, UBQ_new) with
  | Some c => double_read c
  | None => false
  end = true.
Proof. vm_compute. reflexivity. Qed.

(** C38: there is an interleaving of [push] and [pop] calls in which two consumers
    are handed the same slot: one has returned its value, the next access of the
    other moves it out a second time. *)
Theorem pop_aba_double_read :
  ∃ c, rtc conc_step (stalled_threads, UBQ_new) c ∧ double_read c = true.
Proof.
  pose proof stalled_schedule_runs as Hc.
  destruct (run_sched stalled_schedule (stalled_threads, UBQ_new)) as [c|] eqn:E; [|done].
  exists c. split; [by eapply run_sched_rtc|done].
Qed.

End release.

(** ** [pop_batch(usize::MAX)] *)

(** Two values in one block, one of them popped: the consumer head is at index
    one of a block the producers have left. *)
Definition overflow_pop `{Profile} : prog (ubqE Z) UBQIter :=
  push 20 1;; push 20 2;; pop 20;; pop_batch 20 usize_max.

Definition panics {A} (o : outcome (mem Z) A) : bool :=
  match o with Panicked _ => true | _ => false end.

Definition moved_back (o : outcome (mem Z) UBQIter) : bool :=
  match o with
  | Done it s => (it_len it =? usize_max) && (index (from_usize (chead s) codec) =? 0)
  | _ => false
  end.

(** [pop_batch(usize::MAX)] on a queue with one value left adds the batch
    size to the index of the consumer head: a debug build panics, a release
    build wraps, moves the consumer head back to index zero and returns an
    iterator of [usize::MAX] items. *)
Theorem pop_batch_overflow :
  panics (run (overflow_pop (H := debug_build)) UBQ_new) = true ∧
  moved_back (run (overflow_pop (H := release_build)) UBQ_new) = true.
Proof. split; vm_compute; reflexivity. Qed.

(** ** Skipped positions *)

(** A batch that reports one item and delivers none, then a value. *)
Definition skipped_pop `{Profile} : prog (ubqE Z) (bool * option Z * option Z) :=
  push_batch 20 1 [];; push 20 7;;
  empty ← is_empty 20; v ← pop 20; w ← pop 20; Ret (empty, v, w).

Definition answer_of {A} (o : outcome (mem Z) A) : option A :=
  match o with Done a _ => Some a | _ => None end.

(** A [pop] that meets a skipped position returns [None] although the queue
    is not empty, and the next one returns the value behind it. *)
Theorem pop_none_not_empty :
  answer_of (run (skipped_pop (H := release_build)) UBQ_new) = Some (false, None, Some 7).
Proof. vm_compute. reflexivity. Qed.
