(* ===== verification/Jni.v ===== *)
(** * The JNI exports (src/src/jni.rs)

    The Java binding keeps each queue in a box whose address is the handle Java
    holds.  Every exported function converts its arguments, looks up the queue,
    calls it, and catches unwinding at the boundary.  The functions are programs
    over accesses to the boxed queues; a queue call that panics replies [None], the
    program unwinds to the nearest [catch_unwind], and unwinding that reaches the
    boundary of an exported function is a panic in the JVM. *)

From S2P Require Import Prelude Prog Layout Head Geometry.

(** ** Java integers *)

(** [as u64] / [as JLong] *)
Definition as_u64 (x : Z) : Z := x mod 2 ^ 64.

Definition as_i64 (x : Z) : Z := (x + 2 ^ 63) mod 2 ^ 64 - 2 ^ 63.

(** [as JInt] *)
Definition as_i32 (x : Z) : Z := (x + 2 ^ 31) mod 2 ^ 32 - 2 ^ 31.

Definition wrapping_add (a b : Z) : Z := as_i64 (a + b).

Definition wrapping_sub (a b : Z) : Z := as_i64 (a - b).

(** ** Queues behind handles *)

(** What the exports call on a [UBQ<u64, _>]. *)
Inductive ucall : Type → Type :=
| UPush (v : Z) : ucall unit
| UPop : ucall (option Z)
| UPopCount (n : Z) : ucall Z
| UIsEmpty : ucall bool.

(** The answer and the remaining values. *)
Definition uspec {X} (c : ucall X) (l : list Z) : X * list Z :=
  match c in ucall X return X * list Z with
  | UPush v => (tt, l ++ [v])
  | UPop => (head l, tail l)
  | UPopCount n => (Z.min n (Z.of_nat (length l)), drop (Z.to_nat n) l)
  | UIsEmpty => (match l with [] => true | _ => false end, l)
  end.

Definition ucost {X} (c : ucall X) : nat := match c with UPush _ => 10 | _ => 0 end.

Definition ucall_ok {X} (c : ucall X) : Prop :=
  match c with UPopCount n => 0 ≤ n < 2 ^ 31 | _ => True end.

(** What a queue promises to the binding: [u_is n q l] says that queue [q] holds
    [l] after work bounded by [n], and [u_gone q] that it owns no memory. *)
Class LongQueue (Q : Type) := {
  u_new : Q;
  u_run : ∀ (fuel : nat) {X}, ucall X → Q → outcome Q X;
  u_drop : ∀ (fuel : nat), Q → outcome Q unit;
  u_is : nat → Q → list Z → Prop;
  u_gone : Q → Prop;
  u_new_is : u_is 0 u_new [];
  u_mono : ∀ n n' q l, u_is n q l → (n ≤ n')%nat → u_is n' q l;
  u_run_is : ∀ fuel n q l X (c : ucall X),
    u_is n q l → ucall_ok c → (n + ucost c + 8 < fuel)%nat →
    match u_run fuel c q with
    | Done x q' => x = (uspec c l).1 ∧ u_is (n + ucost c) q' (uspec c l).2
    | Aborted => True
    | _ => False
    end;
  u_drop_is : ∀ fuel n q l, u_is n q l → (n + 8 < fuel)%nat →
    match u_drop fuel q with
    | Done _ q' => u_gone q'
    | Aborted => True
    | _ => False
    end
}.

(** [enum JniQueue]: the back-off policy of the queue. *)
Inductive JniQueue (Q : Type) := Crossbeam (q : Q) | Yield (q : Q).
Arguments Crossbeam {Q} q.
Arguments Yield {Q} q.

(** [with_ubq!] *)
Definition with_ubq {Q A} (queue : JniQueue Q) (body : Q → A) : A :=
  match queue with Crossbeam inner => body inner | Yield inner => body inner end.

Definition put_ubq {Q} (queue : JniQueue Q) (q : Q) : JniQueue Q :=
  match queue with Crossbeam _ => Crossbeam q | Yield _ => Yield q end.

(** The boxed queues by address, and what destroyed queues left behind. *)
Record jmem (Q : Type) := mkJmem { jqueues : gmap Z (JniQueue Q); jgraves : list Q }.
Arguments mkJmem {Q} _ _.
Arguments jqueues {Q} _.
Arguments jgraves {Q} _.

Inductive jniE (Q : Type) : Type → Type :=
| JBox (queue : JniQueue Q) : jniE Q Z
| JCall {X} (p : Z) (c : ucall X) : jniE Q (option X)
| JDropBox (p : Z) : jniE Q (option unit).
Arguments JBox {Q} queue.
Arguments JCall {Q X} p c.
Arguments JDropBox {Q} p.

Section handler.
Context {Q : Type} `{LongQueue Q} `{BoxAllocator} (fuel : nat).

(** A boxed queue is called.  An address that holds no queue is undefined
    behaviour. *)
Definition call_box {X} (p : Z) (c : ucall X) (s : jmem Q) : reply (jmem Q) (option X) :=
  match jqueues s !! p with
  | None => Fault
  | Some queue =>
      let put q := mkJmem (<[p := put_ubq queue q]> (jqueues s)) (jgraves s) in
      match with_ubq queue (u_run fuel c) with
      | Done x q => Next (Some x) (put q)
      | Panicked q => Next None (put q)
      | Aborted => Exit
      | _ => Fault
      end
  end.

Definition drop_box (p : Z) (s : jmem Q) : reply (jmem Q) (option unit) :=
  match jqueues s !! p with
  | None => Fault
  | Some queue =>
      let bury q := mkJmem (delete p (jqueues s)) (jgraves s ++ [q]) in
      match with_ubq queue (u_drop fuel) with
      | Done _ q => Next (Some tt) (bury q)
      | Panicked q => Next None (bury q)
      | Aborted => Exit
      | _ => Fault
      end
  end.

Definition jni_handler : Handler (jniE Q) (jmem Q) := λ X e s,
  match e in jniE _ X return reply (jmem Q) X with
  | JBox queue =>
      let p := box_at (dom (jqueues s)) in
      if p <? 2 ^ 64 then Next p (mkJmem (<[p := queue]> (jqueues s)) (jgraves s)) else Exit
  | JCall p c => call_box p c s
  | JDropBox p => drop_box p s
  end.

End handler.

(** ** Unwinding *)

Section exports.
Context {Q : Type} `{LongQueue Q} (fuel : nat).

(** [None] is an unwinding computation. *)
Local Notation unwinding A := (prog (jniE Q) (option A)).

Definition and_then {A B} (p : unwinding A) (f : A → unwinding B) : unwinding B :=
  r ← p; match r with Some a => f a | None => Ret None end.

(** [catch_unwind(f).unwrap_or(d)] *)
Definition catch_or {A} (d : A) (f : unwinding A) : unwinding A :=
  r ← f; Ret (Some (default d r)).

(** The boundary of an [extern "system"] function: what unwinds past it panics. *)
Definition extern_system {A} (f : unwinding A) : prog (jniE Q) A :=
  r ← f; match r with Some a => Ret a | None => Panic end.

(** [for offset in lo..lo+n { body }] *)
Fixpoint for_unwind (n : nat) (lo : Z) (body : Z → unwinding unit) : unwinding unit :=
  match n with
  | O => Ret (Some tt)
  | S n => and_then (body lo) (λ _, for_unwind n (lo + 1) body)
  end.

(** ** Helpers *)

Definition UBQ_VARIANT_COUNT : Z := 2.

Definition DEFAULT_UBQ_VARIANT_ID : Z := 0.

Definition JNI_TRUE : Z := 1.

Definition JNI_FALSE : Z := 0.

Definition JniQueue_new (variant_id : Z) : option (JniQueue Q) :=
  if variant_id =? 0 then Some (Crossbeam u_new) else
  if variant_id =? 1 then Some (Yield u_new) else None.

(** The address a handle stands for. *)
Definition handle_to_queue (h : Z) : option Z :=
  if h =? 0 then None else Some (as_u64 h).

Definition valid_count (count : Z) : option nat :=
  if 0 <=? count then Some (Z.to_nat count) else None.

(** One round of the blocking pop; an empty queue is tried again. *)
Definition pop_round (p : Z) (_ : unit) : prog (jniE Q) (unit + option Z) :=
  r ← act (JCall p UPop);
  match r with
  | None => Ret (inr None)
  | Some (Some item) => Ret (inr (Some (as_i64 item)))
  | Some None => Ret (inl tt)
  end.

Definition pop_blocking (p : Z) : unwinding Z := loop fuel (pop_round p) tt.

Fixpoint pop_fold (p : Z) (apply : Z → Z → Z) (count : nat) (value : Z) : unwinding Z :=
  match count with
  | O => Ret (Some value)
  | S count => and_then (pop_blocking p) (λ item, pop_fold p apply count (apply value item))
  end.

Definition pop_exact (h count : Z) (apply : Z → Z → Z) : unwinding Z :=
  catch_or 0
    (match valid_count count with
     | None => Ret (Some 0)
     | Some count =>
         match handle_to_queue h with
         | None => Ret (Some 0)
         | Some p => pop_fold p apply count 0
         end
     end).

Definition jni_push (p v : Z) : unwinding unit := act (JCall p (UPush (as_u64 v))).

(** ** The exported functions *)

Definition nativeCreateVariant (variant_id : Z) : prog (jniE Q) Z :=
  extern_system (catch_or 0
    (match JniQueue_new variant_id with
     | Some queue => p ← act (JBox queue); Ret (Some (as_i64 p))
     | None => Ret (Some 0)
     end)).

Definition nativeCreate : prog (jniE Q) Z := nativeCreateVariant DEFAULT_UBQ_VARIANT_ID.

Definition nativeVariantCount : prog (jniE Q) Z := extern_system (Ret (Some UBQ_VARIANT_COUNT)).

Definition nativeDefaultVariantId : prog (jniE Q) Z :=
  extern_system (Ret (Some DEFAULT_UBQ_VARIANT_ID)).

Definition nativeDestroy (h : Z) : prog (jniE Q) unit :=
  extern_system (catch_or tt (if negb (h =? 0) then act (JDropBox (as_u64 h)) else Ret (Some tt))).

Definition nativePush (h value : Z) : prog (jniE Q) unit :=
  extern_system (catch_or tt
    (match handle_to_queue h with
     | Some p => jni_push p value
     | None => Ret (Some tt)
     end)).

Definition nativePushRange (h first_value count : Z) : prog (jniE Q) unit :=
  extern_system (catch_or tt
    (if count <=? 0 then Ret (Some tt) else
     match handle_to_queue h with
     | Some p =>
         for_unwind (Z.to_nat count) 0 (λ offset, jni_push p (wrapping_add first_value offset))
     | None => Ret (Some tt)
     end)).

Definition nativePushConstantExact (h value count : Z) : prog (jniE Q) unit :=
  extern_system (catch_or tt
    (match valid_count count with
     | None => Ret (Some tt)
     | Some count =>
         match handle_to_queue h with
         | Some p => for_unwind count 0 (λ _, jni_push p value)
         | None => Ret (Some tt)
         end
     end)).

Definition nativePushRangeExact (h first_value count : Z) : prog (jniE Q) unit :=
  extern_system (catch_or tt
    (match valid_count count with
     | None => Ret (Some tt)
     | Some count =>
         match handle_to_queue h with
         | Some p => for_unwind count 0 (λ offset, jni_push p (wrapping_add first_value (as_i64 offset)))
         | None => Ret (Some tt)
         end
     end)).

Definition nativePushRangeToThreeExact (h1 h2 h3 first_value count : Z) : prog (jniE Q) unit :=
  extern_system (catch_or tt
    (match valid_count count with
     | None => Ret (Some tt)
     | Some count =>
         match handle_to_queue h1, handle_to_queue h2, handle_to_queue h3 with
         | Some p1, Some p2, Some p3 =>
             for_unwind count 0 (λ offset,
               let value := wrapping_add first_value (as_i64 offset) in
               and_then (jni_push p1 value) (λ _,
               and_then (jni_push p2 value) (λ _, jni_push p3 value)))
         | _, _, _ => Ret (Some tt)
         end
     end)).

Definition nativePopOr (h empty_value : Z) : prog (jniE Q) Z :=
  extern_system (catch_or empty_value
    (match handle_to_queue h with
     | None => Ret (Some empty_value)
     | Some p =>
         and_then (act (JCall p UPop)) (λ v, Ret (Some (default empty_value (as_i64 <$> v))))
     end)).

Definition nativePopAddExact (h count : Z) : prog (jniE Q) Z :=
  extern_system (pop_exact h count wrapping_add).

Definition nativePopSubExact (h count : Z) : prog (jniE Q) Z :=
  extern_system (pop_exact h count wrapping_sub).

Definition nativePopAndExact (h count : Z) : prog (jniE Q) Z :=
  extern_system (pop_exact h count Z.land).

Definition nativePopBatch (h limit : Z) : prog (jniE Q) Z :=
  extern_system (catch_or 0
    (if limit <=? 0 then Ret (Some 0) else
     match handle_to_queue h with
     | None => Ret (Some 0)
     | Some p => and_then (act (JCall p (UPopCount limit))) (λ n, Ret (Some (as_i32 n)))
     end)).

Definition nativeIsEmpty (h : Z) : prog (jniE Q) Z :=
  extern_system (catch_or JNI_TRUE
    (match handle_to_queue h with
     | None => Ret (Some JNI_TRUE)
     | Some p =>
         and_then (act (JCall p UIsEmpty)) (λ b : bool, Ret (Some (if b then JNI_TRUE else JNI_FALSE)))
     end)).

(** A call from Java. *)
Inductive jcall :=
| Create
| CreateVariant (variant_id : Z)
| VariantCount
| DefaultVariantId
| Destroy (h : Z)
| JPush (h value : Z)
| PushRange (h first_value count : Z)
| PushConstantExact (h value count : Z)
| PushRangeExact (h first_value count : Z)
| PushRangeToThreeExact (h1 h2 h3 first_value count : Z)
| PopOr (h empty_value : Z)
| PopAddExact (h count : Z)
| PopSubExact (h count : Z)
| PopAndExact (h count : Z)
| JPopBatch (h limit : Z)
| JIsEmpty (h : Z).

(** The value Java gets; 0 for [void]. *)
Definition jexec_call (c : jcall) : prog (jniE Q) Z :=
  match c with
  | Create => nativeCreate
  | CreateVariant v => nativeCreateVariant v
  | VariantCount => nativeVariantCount
  | DefaultVariantId => nativeDefaultVariantId
  | Destroy h => nativeDestroy h;; Ret 0
  | JPush h v => nativePush h v;; Ret 0
  | PushRange h v n => nativePushRange h v n;; Ret 0
  | PushConstantExact h v n => nativePushConstantExact h v n;; Ret 0
  | PushRangeExact h v n => nativePushRangeExact h v n;; Ret 0
  | PushRangeToThreeExact h1 h2 h3 v n => nativePushRangeToThreeExact h1 h2 h3 v n;; Ret 0
  | PopOr h e => nativePopOr h e
  | PopAddExact h n => nativePopAddExact h n
  | PopSubExact h n => nativePopSubExact h n
  | PopAndExact h n => nativePopAndExact h n
  | JPopBatch h n => nativePopBatch h n
  | JIsEmpty h => nativeIsEmpty h
  end.

Fixpoint jexec (cs : list jcall) : prog (jniE Q) (list Z) :=
  match cs with
  | [] => Ret []
  | c :: cs => a ← jexec_call c; l ← jexec cs; Ret (a :: l)
  end.

End exports.
