(* ===== verification/JniQueueInst.v ===== *)
(** * The MPMC queue behind the JNI exports

    [UBQ<u64, _>], as modelled and verified in UbqQueue and UbqSpec, keeps the
    promises the exports rely on. *)

From S2P Require Import Prelude Prog Layout Head Geometry Epochs MpmcBlock MpmcHeap MpmcOps MpmcChain UbqQueue UbqInv UbqIterSpec UbqPopSpec UbqPushSpec UbqDropSpec UbqSpec Jni.

Section instance.
Context `{BlockGeometry} `{Allocator} `{Profile}.

(** [pop_batch(n).count()]: [Iterator::count] consumes the iterator. *)
Definition count_round (fuel : nat) (st : UBQIter * Z) : prog (ubqE Z) (UBQIter * Z + Z) :=
  let '(it, n) := st in
  '(v, it) ← iter_next fuel it;
  match v with
  | Some _ => Ret (inl (it, n + 1))
  | None => iter_drop fuel it;; Ret (inr n)
  end.

Definition iter_count (fuel : nat) (it : UBQIter) : prog (ubqE Z) Z :=
  loop fuel (count_round fuel) (it, 0).

Definition uexec (fuel : nat) {X} (c : ucall X) : prog (ubqE Z) X :=
  match c in ucall X return prog (ubqE Z) X with
  | UPush v => push fuel v
  | UPop => pop fuel
  | UPopCount n => it ← pop_batch fuel n; iter_count fuel it
  | UIsEmpty => is_empty fuel
  end.

Definition holds (n : nat) (s : mem Z) (l : list Z) : Prop :=
  ∃ g, refines g ∅ (mkSpec (Some <$> l) ∅ (dropped s)) n s.

Lemma holds_intro g l d n s : refines g ∅ (mkSpec (Some <$> l) ∅ d) n s → holds n s l.
Proof. intros Hr. pose proof (rf_dropped _ _ _ _ _ Hr) as E. simpl in E. exists g. by rewrite E. Qed.

Lemma holds_mono n n' s l : holds n s l → (n ≤ n')%nat → holds n' s l.
Proof. intros [g []] Hn. exists g. split; try done. lia. Qed.

Lemma refines_queue_length g its (sp : spec Z) n s :
  refines g its sp n s → (length (sp_queue sp) ≤ n)%nat.
Proof. intros [_ -> _ _ _ Hc]. rewrite length_drop. lia. Qed.

(** Counting delivers every item once and gives the iterator's blocks back. *)
Lemma wp_iter_count m fuel g it q vs d cost s n :
  refines g (<[0%nat := it]> ∅) (mkSpec q (<[0%nat := Some <$> vs]> ∅) d) cost s →
  (cost + 8 < fuel)%nat → (length vs < m)%nat →
  wp (loop m (count_round fuel) (it, n)) s
    (λ r s', r = n + Z.of_nat (length vs) ∧ ∃ g', refines g' ∅ (mkSpec q ∅ d) cost s').
Proof.
  revert g it s n m. induction vs as [|v vs IH]; intros g it s n m Hr Hf Hm; (destruct m as [|m]; [simpl in Hm; lia|]);
    apply wp_loop_unfold; unfold count_round at 1; apply wp_bind;
    (eapply wp_mono; [eapply (refines_next g _ _ cost s 0); [exact Hr|apply lookup_insert_eq|apply lookup_insert_eq|done]|]);
    intros [x it'] s1 (g1 & -> & Hr1); cbn in Hr1; rewrite !insert_insert_eq in Hr1.
  - apply wp_bind. eapply wp_mono.
    { eapply (refines_drop_iter g1 _ _ cost s1 0); [exact Hr1|apply lookup_insert_eq|apply lookup_insert_eq|done]. }
    intros ? s2 (g2 & Hr2). apply wp_ret. split; [simpl; lia|]. exists g2. simpl in Hr2.
    rewrite app_nil_r, !delete_insert_eq, !delete_empty in Hr2. done.
  - apply wp_ret. eapply wp_mono; [apply (IH g1 it' s1 (n + 1) m Hr1 Hf); simpl in Hm; lia|].
    intros r s2 [-> Hr2]. split; [simpl; lia|done].
Qed.

Lemma head_fmap_some (l : list Z) : match Some <$> l with [] => None | x :: _ => x end = head l.
Proof. by destruct l. Qed.

Context (Hpage : page * 9 ≤ isize_max).

Lemma wp_uexec fuel n s l X (c : ucall X) :
  holds n s l → ucall_ok c → (n + ucost c + 8 < fuel)%nat →
  wp (uexec fuel c) s (λ x s', x = (uspec c l).1 ∧ holds (n + ucost c) s' (uspec c l).2).
Proof.
  intros [g Hr] Hok Hf. destruct c as [v| |k|]; cbn [uexec uspec ucost fst snd] in *; rewrite ?Nat.add_0_r in *.
  - unfold push. eapply wp_mono; [apply (refines_push g ∅ _ n s 1 [Some v] fuel Hr); [lia|lia|lia]|].
    intros [] s' (g' & Hr'). split; [done|]. simpl in Hr'.
    assert (pushed 1 [Some v] = Some <$> [v]) as E by reflexivity. rewrite E, <- fmap_app in Hr'.
    exact (holds_intro _ _ _ _ _ Hr').
  - eapply wp_mono; [apply (refines_pop g ∅ _ n s fuel Hr); lia|].
    intros x s' (g' & -> & Hr'). cbn [sp_queue sp_iters sp_dropped] in *. split; [apply head_fmap_some|].
    assert (tail (Some <$> l) = Some <$> tail l) as E by (by destruct l). rewrite E in Hr'. by eapply holds_intro.
  - cbn [ucall_ok] in Hok. apply wp_bind. rewrite <- (Z2Nat.id k) at 1 by lia.
    eapply wp_mono.
    { apply (refines_pop_batch g ∅ _ n s 0 (Z.to_nat k) fuel Hr); [done| |lia].
      pose proof length_lt_max. unfold isize_max, usize_max in *. lia. }
    intros it s1 (g1 & Hr1). cbn [sp_queue sp_iters sp_dropped] in Hr1. rewrite <- fmap_drop, <- fmap_take in Hr1.
    pose proof (refines_queue_length _ _ _ _ _ Hr) as Hlen. cbn [sp_queue] in Hlen. rewrite length_fmap in Hlen.
    eapply wp_mono; [eapply (wp_iter_count fuel fuel g1 it _ (take (Z.to_nat k) l)); [exact Hr1|lia|rewrite length_take; lia]|].
    intros r s2 (-> & g2 & Hr2). split; [rewrite length_take; lia|]. by eapply holds_intro.
  - eapply wp_mono; [apply (refines_is_empty g ∅ _ n s fuel Hr); lia|].
    intros b s' [-> ->]. cbn [sp_queue]. split; [by destruct l|]. by exists g.
Qed.

Lemma wp_u_drop fuel n s l :
  holds n s l → (n + 8 < fuel)%nat → wp (UBQ_drop fuel) s (λ _ s', heap_empty s').
Proof.
  intros [g [Hr Hq Hi _ Hd Hc]] Hf.
  eapply wp_mono; [apply (wp_UBQ_drop g s fuel Hr); [|lia]|by intros ? s' [He _]].
  cbn [sp_iters] in Hi. by apply symmetry, fmap_empty_inv in Hi.
Qed.

Program Definition ubq_long : LongQueue (mem Z) := {|
  u_new := UBQ_new;
  u_run fuel X c s := run (uexec fuel c) s;
  u_drop fuel s := run (UBQ_drop fuel) s;
  u_is := holds;
  u_gone s := heap_empty s
|}.
Next Obligation. apply (holds_intro ghost_new [] []), refines_new. Qed.
Next Obligation. intros. by eapply holds_mono. Qed.
Next Obligation.
  intros fuel n s l X c Hq Hok Hf. pose proof (wp_uexec fuel n s l X c Hq Hok Hf) as Hw.
  exact Hw.
Qed.
Next Obligation.
  intros fuel n s l Hq Hf. pose proof (wp_u_drop fuel n s l Hq Hf) as Hw.
  unfold wp in Hw. cbv beta. by destruct (run (UBQ_drop fuel) s).
Qed.

End instance.
