(* ===== verification/JniSpec.v ===== *)
(** * What Java observes

    The abstract binding is a map from handles to FIFO lists of Java longs.  Every
    sequence of exported calls answers as the abstract binding does; null handles,
    negative counts and unknown variants get the documented defaults; no export
    unwinds into Java; and destroying a queue releases everything it owns. *)

From S2P Require Import Prelude Prog Layout Head Geometry Instances MpmcBlock UbqQueue UbqSpec Jni JniQueueInst.

(** ** Integer conversions *)

Lemma as_i64_u64 x : as_i64 (as_u64 x) = as_i64 x.
Proof.
  unfold as_i64, as_u64. f_equal. rewrite Z.add_mod_idemp_l by done. done.
Qed.

Lemma as_i64_id x : - 2 ^ 63 ≤ x < 2 ^ 63 → as_i64 x = x.
Proof. intros Hx. unfold as_i64. rewrite Z.mod_small by lia. lia. Qed.

Lemma as_u64_i64 x : 0 ≤ x < 2 ^ 64 → as_u64 (as_i64 x) = x.
Proof.
  intros Hx. unfold as_i64, as_u64. rewrite Zminus_mod_idemp_l.
  replace (x + 2 ^ 63 - 2 ^ 63) with x by lia. by apply Z.mod_small.
Qed.

Lemma as_i32_id x : - 2 ^ 31 ≤ x < 2 ^ 31 → as_i32 x = x.
Proof. intros Hx. unfold as_i32. rewrite Z.mod_small by lia. lia. Qed.

Lemma as_i64_idemp x : as_i64 (as_i64 x) = as_i64 x.
Proof. apply as_i64_id. unfold as_i64. pose proof (Z.mod_pos_bound (x + 2 ^ 63) (2 ^ 64) eq_refl). lia. Qed.

Lemma as_i64_add_r a b : as_i64 (a + as_i64 b) = as_i64 (a + b).
Proof.
  unfold as_i64. f_equal. replace (a + ((b + 2 ^ 63) mod 2 ^ 64 - 2 ^ 63) + 2 ^ 63) with (a + (b + 2 ^ 63) mod 2 ^ 64) by lia.
  rewrite Z.add_mod_idemp_r by done. f_equal. lia.
Qed.

(** ** The abstract binding *)

Notation jspec := (gmap Z (list Z)) (only parsing).

Definition jpush (pv : Z * Z) (st : jspec) : option jspec :=
  l ← st !! pv.1; Some (<[pv.1 := l ++ [pv.2]]> st).

Fixpoint jpushes (pvs : list (Z * Z)) (st : jspec) : option jspec :=
  match pvs with
  | [] => Some st
  | pv :: pvs => st ← jpush pv st; jpushes pvs st
  end.

(** The longs [first], [first + 1], ... with Java's wrap-around. *)
Definition jrange (first : Z) (n : nat) : list Z :=
  (λ k, as_i64 (first + k)) <$> seqZ 0 (Z.of_nat n).

Definition jpush_all (h : Z) (vs : list Z) (st : jspec) : option (jspec * Z) :=
  if h =? 0 then Some (st, 0)
  else st ← jpushes ((λ v, (as_u64 h, v)) <$> vs) st; Some (st, 0).

(** A blocking pop of [count] values: possible when the queue holds that many. *)
Definition jpop_exact (h count : Z) (apply : Z → Z → Z) (st : jspec) : option (jspec * Z) :=
  if (count <? 0) || (h =? 0) then Some (st, 0) else
  l ← st !! as_u64 h;
  let n := Z.to_nat count in
  if decide (n ≤ length l)%nat
  then Some (<[as_u64 h := drop n l]> st, fold_left apply (take n l) 0) else None.

Section spec.
Context `{BoxAllocator}.

Definition jcreate (variant_id : Z) (st : jspec) : option (jspec * Z) :=
  if (variant_id =? 0) || (variant_id =? 1) then
    let p := box_at (dom st) in Some (<[p := []]> st, as_i64 p)
  else Some (st, 0).

(** [None]: a non-null handle that is not live, which is the caller's mistake, or a
    blocking pop that would wait for another thread. *)
Definition jspec_call (c : jcall) (st : jspec) : option (jspec * Z) :=
  match c with
  | Create => jcreate 0 st
  | CreateVariant v => jcreate v st
  | VariantCount => Some (st, 2)
  | DefaultVariantId => Some (st, 0)
  | Destroy h => if h =? 0 then Some (st, 0) else _ ← st !! as_u64 h; Some (delete (as_u64 h) st, 0)
  | JPush h v => jpush_all h [as_i64 v] st
  | PushRange h first n => jpush_all h (jrange first (Z.to_nat n)) st
  | PushConstantExact h v n => jpush_all h (replicate (Z.to_nat n) (as_i64 v)) st
  | PushRangeExact h first n => jpush_all h (jrange first (Z.to_nat n)) st
  | PushRangeToThreeExact h1 h2 h3 first n =>
      if (h1 =? 0) || (h2 =? 0) || (h3 =? 0) then Some (st, 0) else
      st ← jpushes (jrange first (Z.to_nat n) ≫= λ v, [(as_u64 h1, v); (as_u64 h2, v); (as_u64 h3, v)]) st;
      Some (st, 0)
  | PopOr h e =>
      if h =? 0 then Some (st, e) else
      l ← st !! as_u64 h; Some (<[as_u64 h := tail l]> st, default e (head l))
  | PopAddExact h n => jpop_exact h n wrapping_add st
  | PopSubExact h n => jpop_exact h n wrapping_sub st
  | PopAndExact h n => jpop_exact h n Z.land st
  | JPopBatch h n =>
      if (n <=? 0) || (h =? 0) then Some (st, 0) else
      l ← st !! as_u64 h; Some (<[as_u64 h := drop (Z.to_nat n) l]> st, Z.min n (Z.of_nat (length l)))
  | JIsEmpty h =>
      if h =? 0 then Some (st, 1) else
      l ← st !! as_u64 h; Some (st, match l with [] => 1 | _ => 0 end)
  end.

Fixpoint jspec_calls (cs : list jcall) (st : jspec) : option (jspec * list Z) :=
  match cs with
  | [] => Some (st, [])
  | c :: cs => '(st, a) ← jspec_call c st; '(st, l) ← jspec_calls cs st; Some (st, a :: l)
  end.

End spec.

(** How much work a call adds. *)
Definition jcost (c : jcall) : nat :=
  match c with
  | JPush _ _ => 10
  | PushRange _ _ n | PushConstantExact _ _ n | PushRangeExact _ _ n => 10 * Z.to_nat n
  | PushRangeToThreeExact _ _ _ _ n => 30 * Z.to_nat n
  | _ => 0
  end.

Definition jcosts (cs : list jcall) : nat := sum_list (jcost <$> cs).

(** [limit] is a Java int. *)
Definition jcall_ok (c : jcall) : Prop :=
  match c with JPopBatch _ n => n < 2 ^ 31 | _ => True end.

(** ** Simulation *)

Section refinement.
Context {Q : Type} `{LQ : LongQueue Q} `{BoxAllocator} (fuel : nat).
#[local] Instance jh : Handler (jniE Q) (jmem Q) := jni_handler fuel.
Implicit Types (st : jspec) (s : jmem Q).

Definition inner (queue : JniQueue Q) : Q := with_ubq queue id.

Lemma with_ubq_inner {A} (queue : JniQueue Q) (f : Q → A) : with_ubq queue f = f (inner queue).
Proof. by destruct queue. Qed.

Lemma inner_put (queue : JniQueue Q) q : inner (put_ubq queue q) = q.
Proof. by destruct queue. Qed.

Record jrep (n : nat) st s : Prop := {
  jr_dom : dom (jqueues s) = dom st;
  jr_is : ∀ p queue, jqueues s !! p = Some queue →
    0 < p < 2 ^ 64 ∧ ∃ l, u_is n (inner queue) l ∧ st !! p = Some (as_i64 <$> l);
  jr_gone : Forall u_gone (jgraves s)
}.

Lemma jrep_mono n n' st s : jrep n st s → (n ≤ n')%nat → jrep n' st s.
Proof.
  intros [Hd Hi Hg] Hn. split; [done| |done]. intros p queue Hp. destruct (Hi p queue Hp) as (? & l & Hl & ?).
  split; [done|]. exists l. split; [exact (u_mono _ _ _ _ Hl Hn)|done].
Qed.

Lemma jrep_lookup n st s p l :
  jrep n st s → st !! p = Some l →
  ∃ queue k, jqueues s !! p = Some queue ∧ u_is n (inner queue) k ∧ l = as_i64 <$> k.
Proof.
  intros [Hd Hi _] Hp. assert (p ∈ dom (jqueues s)) as Hin by (rewrite Hd; by apply elem_of_dom_2 in Hp).
  apply elem_of_dom in Hin as [queue Hq]. destruct (Hi p queue Hq) as (_ & k & Hk & Hst).
  exists queue, k. split; [done|]. split; [done|]. congruence.
Qed.

(** A queue behind a live handle is called. *)
Lemma wp_jcall {X} n st s p l (c : ucall X) :
  jrep n st s → st !! p = Some l → ucall_ok c → (n + ucost c + 8 < fuel)%nat →
  wp (act (JCall p c)) s (λ r s', ∃ k, l = as_i64 <$> k ∧ r = Some (uspec c k).1 ∧
    jrep (n + ucost c) (<[p := as_i64 <$> (uspec c k).2]> st) s').
Proof.
  intros Hr Hp Hok Hf. destruct (jrep_lookup _ _ _ _ _ Hr Hp) as (queue & k & Hq & Hk & ->).
  unfold wp, act. cbn [run]. unfold handle, jh, jni_handler, call_box. rewrite Hq, with_ubq_inner.
  pose proof (u_run_is fuel n _ _ X c Hk Hok Hf) as Hu.
  destruct (u_run fuel c (inner queue)) as [x q'| | | |]; try done.
  destruct Hu as [-> Hq']. exists k. split; [done|]. split; [done|]. split; simpl.
  - rewrite !dom_insert_L. by rewrite (jr_dom _ _ _ Hr).
  - intros p' queue'. destruct (decide (p = p')) as [<-|Hne].
    + rewrite !lookup_insert_eq. intros [= <-]. split; [apply (jr_is _ _ _ Hr _ _ Hq)|].
      exists (uspec c k).2. by rewrite inner_put.
    + rewrite !lookup_insert_ne by done. intros Hp'. destruct (jr_is _ _ _ Hr p' queue' Hp') as (? & l' & Hl' & ?).
      split; [done|]. exists l'. split; [eapply u_mono; [exact Hl'|lia]|done].
  - apply Hr.
Qed.

Lemma wp_and_then {A B} (p : prog (jniE Q) (option A)) (f : A → prog (jniE Q) (option B)) s (R : A → jmem Q → Prop) Qp :
  wp p s (λ r s', ∃ a, r = Some a ∧ R a s') → (∀ a s', R a s' → wp (f a) s' Qp) → wp (and_then p f) s Qp.
Proof.
  intros Hp Hf. apply wp_bind. eapply wp_mono; [exact Hp|]. intros ? s' (a & -> & HR). by apply Hf.
Qed.

Lemma wp_catch {A} (d : A) (f : prog (jniE Q) (option A)) s Qp :
  wp f s (λ r s', ∃ a, r = Some a ∧ Qp a s') → wp (extern_system (catch_or d f)) s Qp.
Proof.
  intros Hf. apply wp_bind, wp_bind. eapply wp_mono; [exact Hf|]. intros ? s' (a & -> & HQ). by apply wp_ret.
Qed.

(** *** Pushes *)

Lemma jpushes_app pvs pvs' st : jpushes (pvs ++ pvs') st = jpushes pvs st ≫= jpushes pvs'.
Proof.
  revert st. induction pvs as [|pv pvs IH]; intros st; simpl; [done|]. destruct (jpush pv st); simpl; [apply IH|done].
Qed.

Lemma wp_push_to n st s p v st' :
  jrep n st s → jpush (p, as_i64 v) st = Some st' → (n + 18 < fuel)%nat →
  wp (jni_push p v) s (λ r s', r = Some tt ∧ jrep (n + 10) st' s').
Proof.
  intros Hr Hp Hf. unfold jpush in Hp. simpl in Hp. destruct (st !! p) as [l|] eqn:Hl; [|done].
  injection Hp as <-. eapply wp_mono; [apply (wp_jcall n st s p l (UPush (as_u64 v)) Hr Hl Logic.I); simpl; lia|].
  intros r s' (k & -> & -> & Hr'). split; [done|]. cbn [uspec ucost snd] in Hr'.
  rewrite fmap_app in Hr'. simpl in Hr'. by rewrite as_i64_u64 in Hr'.
Qed.

(** A loop of rounds, each of which performs some pushes. *)
Lemma wp_for_push (f : Z → list (Z * Z)) body c m lo n st s st' :
  (∀ k n st s st', jrep n st s → jpushes (f k) st = Some st' → (n + 10 * c + 8 < fuel)%nat →
     wp (body k) s (λ r s', r = Some tt ∧ jrep (n + 10 * c) st' s')) →
  jrep n st s → jpushes (seqZ lo (Z.of_nat m) ≫= f) st = Some st' → (n + 10 * (c * m) + 8 < fuel)%nat →
  wp (for_unwind m lo body) s (λ r s', r = Some tt ∧ jrep (n + 10 * (c * m)) st' s').
Proof.
  intros Hbody. revert lo n st s. induction m as [|m IH]; intros lo n st s Hr Hp Hf.
  { injection Hp as <-. apply wp_ret. split; [done|]. eapply jrep_mono; [done|lia]. }
  rewrite seqZ_cons in Hp by lia. replace (Z.pred (Z.of_nat (S m))) with (Z.of_nat m) in Hp by lia.
  rewrite bind_cons, jpushes_app in Hp. destruct (jpushes (f lo) st) as [st1|] eqn:E1; [|done]. simpl in Hp.
  cbn [for_unwind]. eapply (wp_and_then _ _ _ (λ _ s', jrep (n + 10 * c) st1 s')).
  - eapply wp_mono; [apply (Hbody lo n st s st1 Hr E1); lia|]. intros ? s' [-> ?]. eauto.
  - intros [] s' Hr'. eapply wp_mono; [apply (IH (lo + 1) (n + 10 * c)%nat st1 s' Hr' Hp); lia|].
    intros ? s'' [-> Hr'']. split; [done|]. eapply jrep_mono; [done|lia].
Qed.

Lemma wp_push_range n st s p (f : Z → Z) m st' :
  jrep n st s → jpushes ((λ k, (p, as_i64 (f k))) <$> seqZ 0 (Z.of_nat m)) st = Some st' →
  (n + 10 * m + 8 < fuel)%nat →
  wp (for_unwind m 0 (λ k, jni_push p (f k))) s (λ r s', r = Some tt ∧ jrep (n + 10 * m) st' s').
Proof.
  intros Hr Hp Hf.
  eapply wp_mono; [apply (wp_for_push (λ k, [(p, as_i64 (f k))]) _ 1 m 0 n st s st'); [|done| |lia]|].
  - intros k n0 st0 s0 st0' Hr0 Hp0 Hf0. simpl in Hp0. destruct (jpush _ st0) as [st1|] eqn:E; [|done].
    injection Hp0 as <-. apply (wp_push_to n0 st0 s0 p (f k) st1 Hr0 E). lia.
  - rewrite <- Hp. f_equal.
  - intros ? s' [-> Hr']. split; [done|]. eapply jrep_mono; [done|lia].
Qed.

(** *** Pops *)

Lemma wp_pop_loop m n st s p v l :
  jrep n st s → st !! p = Some (v :: l) → (n + 8 < fuel)%nat → (0 < m)%nat →
  wp (loop m (pop_round p) tt) s (λ r s', r = Some v ∧ jrep n (<[p := l]> st) s').
Proof.
  intros Hr Hp Hf Hm. destruct m as [|m]; [lia|]. apply wp_loop_unfold, wp_bind.
  eapply wp_mono; [apply (wp_jcall n st s p _ UPop Hr Hp Logic.I); simpl; lia|].
  intros ? s' (k & Hk & -> & Hr'). destruct k as [|x k]; [done|]. injection Hk as -> ->.
  cbn [uspec fst snd head tail ucost] in *. rewrite Nat.add_0_r in Hr'. apply wp_ret. done.
Qed.

Lemma wp_pop_fold n st s p l apply count value :
  jrep n st s → st !! p = Some l → (count ≤ length l)%nat → (n + 8 < fuel)%nat →
  wp (pop_fold fuel p apply count value) s (λ r s',
    r = Some (fold_left apply (take count l) value) ∧ jrep n (<[p := drop count l]> st) s').
Proof.
  revert st s l value. induction count as [|count IH]; intros st s l value Hr Hp Hc Hf.
  { apply wp_ret. split; [done|]. rewrite insert_id; done. }
  destruct l as [|v l]; [simpl in Hc; lia|]. cbn [pop_fold take fold_left drop].
  eapply (wp_and_then _ _ _ (λ a s', a = v ∧ jrep n (<[p := l]> st) s')).
  - eapply wp_mono; [apply (wp_pop_loop fuel n st s p v l); [done|done|done|lia]|]. intros ? s' [-> ?]. eauto.
  - intros a s' [-> Hr']. eapply wp_mono; [apply (IH _ _ l _ Hr'); [apply lookup_insert_eq|simpl in Hc; lia|done]|].
    intros r s'' [-> Hr'']. split; [done|]. by rewrite insert_insert_eq in Hr''.
Qed.

Lemma wp_pop_exact n st s h count apply st' a :
  jrep n st s → jpop_exact h count apply st = Some (st', a) → (n + 8 < fuel)%nat →
  wp (extern_system (pop_exact fuel h count apply)) s (λ r s', r = a ∧ jrep n st' s').
Proof.
  intros Hr Hp Hf. unfold pop_exact, jpop_exact, valid_count, handle_to_queue in *.
  destruct (Z.ltb_spec count 0) as [Hc|Hc]; [rewrite (proj2 (Z.leb_gt 0 count)) by lia|
    rewrite (proj2 (Z.leb_le 0 count)) by lia]; cbn [orb] in Hp.
  { injection Hp as <- <-. apply wp_catch, wp_ret. eauto. }
  destruct (h =? 0); cbn [orb] in Hp.
  { injection Hp as <- <-. apply wp_catch, wp_ret. eauto. }
  destruct (st !! as_u64 h) as [l|] eqn:Hl; [|done]. simpl in Hp. case_decide as Hlen; [|done]. injection Hp as <- <-.
  apply wp_catch. eapply wp_mono; [by apply (wp_pop_fold n st s _ l)|]. intros ? s' [-> ?]. eauto.
Qed.

(** *** Boxes *)

Lemma wp_create n st s v st' a :
  jrep n st s → jcreate v st = Some (st', a) →
  wp (nativeCreateVariant v) s (λ r s', r = a ∧ jrep n st' s').
Proof.
  intros Hr Hc. unfold jcreate in Hc. unfold nativeCreateVariant, JniQueue_new.
  assert (∀ queue : JniQueue Q, inner queue = u_new →
    let p := box_at (dom st) in
    wp (extern_system (catch_or 0 (p ← act (JBox queue); Ret (Some (as_i64 p))))) s
      (λ r s', r = as_i64 p ∧ jrep n (<[p := []]> st) s')) as Hnew.
  { intros queue Hq p. apply wp_catch. unfold wp, act. cbn. unfold handle, jh, jni_handler. rewrite (jr_dom _ _ _ Hr). fold p.
    destruct (Z.ltb_spec p (2 ^ 64)) as [Hlt|]; [|done]. exists (as_i64 p). split; [done|]. split; [done|].
    destruct (box_at_fresh (dom st)) as [Hfr Hpos]. fold p in Hfr, Hpos. split; simpl.
    - by rewrite !dom_insert_L, (jr_dom _ _ _ Hr).
    - intros p' queue'. destruct (decide (p = p')) as [<-|Hne].
      + rewrite !lookup_insert_eq. intros [= <-]. split; [done|]. exists []. split; [|done]. rewrite Hq.
        eapply u_mono; [apply u_new_is|lia].
      + rewrite !lookup_insert_ne by done. apply Hr.
    - apply Hr. }
  destruct (Z.eqb_spec v 0) as [->|]; cbn [orb] in Hc.
  { injection Hc as <- <-. by apply Hnew. }
  destruct (Z.eqb_spec v 1) as [->|]; cbn [orb] in Hc.
  { injection Hc as <- <-. by apply Hnew. }
  injection Hc as <- <-. apply wp_catch, wp_ret. eauto.
Qed.

Lemma wp_destroy n st s h l :
  jrep n st s → st !! as_u64 h = Some l → (n + 8 < fuel)%nat →
  wp (act (JDropBox (as_u64 h))) s (λ r s', r = Some tt ∧ jrep n (delete (as_u64 h) st) s').
Proof.
  intros Hr Hl Hf. destruct (jrep_lookup _ _ _ _ _ Hr Hl) as (queue & k & Hq & Hk & ->).
  unfold wp, act. cbn [run]. unfold handle, jh, jni_handler, drop_box. rewrite Hq, with_ubq_inner.
  pose proof (u_drop_is fuel n _ _ Hk Hf) as Hu.
  destruct (u_drop fuel (inner queue)) as [x q'| | | |]; try done. split; [done|]. split; simpl.
  - by rewrite !dom_delete_L, (jr_dom _ _ _ Hr).
  - intros p' queue' Hp'. destruct (decide (as_u64 h = p')) as [<-|Hne]; [by rewrite lookup_delete_eq in Hp'|].
    rewrite lookup_delete_ne in Hp' by done. rewrite lookup_delete_ne by done. by apply (jr_is _ _ _ Hr).
  - apply Forall_app. split; [apply Hr|]. by repeat constructor.
Qed.

(** *** Calls *)

Lemma wp_void (p : prog (jniE Q) unit) s (Qp : jmem Q → Prop) :
  wp p s (λ _ s', Qp s') → wp (p;; Ret 0) s (λ r s', r = 0 ∧ Qp s').
Proof. intros Hp. apply wp_bind. eapply wp_mono; [exact Hp|]. intros ? s' ?. by apply wp_ret. Qed.

Lemma wp_push_all n st s h m (f : Z → Z) vs st' a :
  jrep n st s → jpush_all h vs st = Some (st', a) → vs = (λ k, as_i64 (f k)) <$> seqZ 0 (Z.of_nat m) →
  (n + 10 * m + 8 < fuel)%nat →
  a = 0 ∧
  wp (match handle_to_queue h with
      | Some p => for_unwind m 0 (λ k, jni_push p (f k))
      | None => Ret (Some tt)
      end) s (λ r s', ∃ x : unit, r = Some x ∧ jrep (n + 10 * m) st' s').
Proof.
  intros Hr Hp -> Hf. unfold jpush_all, handle_to_queue in *. destruct (h =? 0).
  { injection Hp as <- <-. split; [done|]. apply wp_ret. exists tt. split; [done|]. eapply jrep_mono; [done|lia]. }
  destruct (jpushes _ st) as [st1|] eqn:E; [|done]. injection Hp as <- <-. split; [done|].
  eapply wp_mono; [apply (wp_push_range n st s (as_u64 h) f m st1 Hr); [|lia]|intros ? s' [-> ?]; eauto].
  rewrite <- E. f_equal. by rewrite <- list_fmap_compose.
Qed.

Lemma range_values first (g : Z → Z) m :
  (∀ k, as_i64 (g k) = as_i64 (first + k)) →
  jrange first m = (λ k, as_i64 (g k)) <$> seqZ 0 (Z.of_nat m).
Proof. intros Hg. apply list_fmap_ext. intros i k _. by rewrite Hg. Qed.

Lemma const_values v m : replicate m (as_i64 v) = (λ _ : Z, as_i64 v) <$> seqZ 0 (Z.of_nat m).
Proof. rewrite (const_fmap _ _ (as_i64 v)) by done. by rewrite length_seqZ, Nat2Z.id. Qed.

(** A push loop behind a [valid_count] guard. *)
Lemma wp_push_exact n st s h count (f : Z → Z) vs st' a :
  jrep n st s → jpush_all h vs st = Some (st', a) → vs = (λ k, as_i64 (f k)) <$> seqZ 0 (Z.of_nat (Z.to_nat count)) →
  (n + 10 * Z.to_nat count + 8 < fuel)%nat →
  a = 0 ∧
  wp (extern_system (catch_or tt (match valid_count count with
      | None => Ret (Some tt)
      | Some count =>
          match handle_to_queue h with
          | Some p => for_unwind count 0 (λ k, jni_push p (f k))
          | None => Ret (Some tt)
          end
      end))) s (λ _ s', jrep (n + 10 * Z.to_nat count) st' s').
Proof.
  intros Hr Hp Hvs Hf. destruct (wp_push_all n st s h _ f vs st' a Hr Hp Hvs Hf) as [-> Hw].
  split; [done|]. apply wp_catch. unfold valid_count. destruct (Z.leb_spec 0 count) as [Hc|Hc].
  - eapply wp_mono; [exact Hw|]. intros ? s' (x & -> & ?). eauto.
  - replace (Z.to_nat count) with 0%nat in * by lia. rewrite Nat.mul_0_r, Nat.add_0_r in *. apply wp_ret. exists tt.
    split; [done|]. unfold jpush_all in Hp. rewrite Hvs in Hp. simpl in Hp. destruct (h =? 0); by injection Hp as <-.
Qed.

Lemma wp_push_three n st s h1 h2 h3 first count st' a :
  jrep n st s → jspec_call (PushRangeToThreeExact h1 h2 h3 first count) st = Some (st', a) →
  (n + 30 * Z.to_nat count + 8 < fuel)%nat →
  a = 0 ∧ wp (nativePushRangeToThreeExact h1 h2 h3 first count) s (λ _ s', jrep (n + 30 * Z.to_nat count) st' s').
Proof.
  intros Hr Hp Hf. cbn [jspec_call] in Hp. unfold nativePushRangeToThreeExact, handle_to_queue, valid_count.
  assert (∀ st1, Some (st, 0) = Some (st1, a) → a = 0 ∧ jrep (n + 30 * Z.to_nat count) st1 s) as Hnone.
  { intros st1 [= <- <-]. split; [done|]. eapply jrep_mono; [done|lia]. }
  assert (∀ st1, jrep (n + 30 * Z.to_nat count) st1 s →
    wp (extern_system (catch_or tt (Ret (Some tt)))) s (λ _ s', jrep (n + 30 * Z.to_nat count) st1 s')) as Hskip
    by (intros; apply wp_catch, wp_ret; eauto).
  destruct (h1 =? 0); [|destruct (h2 =? 0); [|destruct (h3 =? 0)]]; cbn [orb] in Hp;
    try (destruct (Hnone st' Hp) as [-> Hst]; split; [done|]; destruct (0 <=? count); by apply Hskip).
  destruct (jpushes _ st) as [st1|] eqn:E; [|done]. injection Hp as <- <-. split; [done|].
  destruct (Z.leb_spec 0 count) as [Hc|Hc].
  2: { replace (Z.to_nat count) with 0%nat in * by lia. injection E as <-. apply Hskip. eapply jrep_mono; [done|lia]. }
  apply wp_catch. eapply wp_mono; [apply (wp_for_push (λ k, let v := as_i64 (first + k) in
    [(as_u64 h1, v); (as_u64 h2, v); (as_u64 h3, v)]) _ 3 (Z.to_nat count) 0 n st s st1); [|done| |lia]|].
  - intros k n0 st0 s0 st0' Hr0 Hp0 Hf0. cbn [jpushes] in Hp0.
    assert (as_i64 (wrapping_add first (as_i64 k)) = as_i64 (first + k)) as Ev.
    { unfold wrapping_add. by rewrite as_i64_idemp, as_i64_add_r. }
    destruct (jpush _ st0) as [st2|] eqn:E2; [|done]. simpl in Hp0.
    destruct (jpush _ st2) as [st3|] eqn:E3; [|done]. simpl in Hp0.
    destruct (jpush _ st3) as [st4|] eqn:E4; [|done]. injection Hp0 as <-. rewrite <- Ev in E2, E3, E4.
    eapply (wp_and_then _ _ _ (λ _ s', jrep (n0 + 10) st2 s')).
    { eapply wp_mono; [apply (wp_push_to n0 st0 s0 _ _ st2 Hr0 E2); lia|]. intros ? s' [-> ?]. eauto. }
    intros _ s2 Hr2. eapply (wp_and_then _ _ _ (λ _ s', jrep (n0 + 20) st3 s')).
    { eapply wp_mono; [apply (wp_push_to (n0 + 10) st2 s2 _ _ st3 Hr2 E3); lia|]. intros ? s' [-> Hr3].
      exists tt. split; [done|]. eapply jrep_mono; [done|lia]. }
    intros _ s3 Hr3. eapply wp_mono; [apply (wp_push_to (n0 + 20) st3 s3 _ _ st4 Hr3 E4); lia|].
    intros ? s' [-> Hr4]. split; [done|]. eapply jrep_mono; [done|lia].
  - rewrite <- E. f_equal. unfold jrange. induction (seqZ 0 _) as [|x xs IH]; [done|].
    rewrite fmap_cons, !bind_cons, IH. done.
  - intros ? s' [-> Hr']. exists tt. split; [done|]. eapply jrep_mono; [done|lia].
Qed.

Lemma wp_jexec_call n st s c st' a :
  jrep n st s → jcall_ok c → jspec_call c st = Some (st', a) → (n + jcost c + 8 < fuel)%nat →
  wp (jexec_call fuel c) s (λ r s', r = a ∧ jrep (n + jcost c) st' s').
Proof.
  intros Hr Hok Hc Hf. destruct c; cbn [jspec_call jexec_call jcost jcall_ok] in *; rewrite ?Nat.add_0_r in *.
  - by apply wp_create with st.
  - by apply wp_create with st.
  - injection Hc as <- <-. by apply wp_ret.
  - injection Hc as <- <-. by apply wp_ret.
  - unfold nativeDestroy. destruct (h =? 0); cbn [negb].
    { injection Hc as <- <-. apply wp_void, wp_catch, wp_ret. eauto. }
    destruct (st !! as_u64 h) as [l|] eqn:Hl; [|done]. injection Hc as <- <-. apply wp_void, wp_catch.
    eapply wp_mono; [by apply (wp_destroy n st s h l)|]. intros ? s' [-> ?]. eauto.
  - destruct (wp_push_all n st s h 1 (λ _, value) [as_i64 value] st' a Hr Hc eq_refl ltac:(lia)) as [-> Hw].
    apply wp_void. unfold nativePush. apply wp_catch. unfold handle_to_queue in *. destruct (h =? 0); [exact Hw|].
    cbn [for_unwind] in Hw. unfold and_then in Hw. unfold wp in *. rewrite run_bind in Hw.
    destruct (run (jni_push (as_u64 h) value) s) as [[[]|] s'| | | |]; done.
  - destruct (wp_push_all n st s h (Z.to_nat count) (wrapping_add first_value) _ st' a Hr Hc) as [-> Hw].
    { apply range_values. intros k. unfold wrapping_add. apply as_i64_idemp. }
    { lia. }
    apply wp_void, wp_catch. destruct (Z.leb_spec count 0) as [Hn|Hn]; [|exact Hw].
    apply wp_ret. exists tt. split; [done|]. replace (Z.to_nat count) with 0%nat in * by lia.
    rewrite Nat.add_0_r. unfold jpush_all in Hc. simpl in Hc. by destruct (h =? 0); injection Hc as <-.
  - destruct (wp_push_exact n st s h count (λ _, value) _ st' a Hr Hc (const_values _ _) ltac:(lia)) as [-> Hw].
    by apply wp_void.
  - destruct (wp_push_exact n st s h count (λ k, wrapping_add first_value (as_i64 k)) _ st' a Hr Hc) as [-> Hw].
    { apply range_values. intros k. unfold wrapping_add. by rewrite as_i64_idemp, as_i64_add_r. }
    { lia. }
    by apply wp_void.
  - destruct (wp_push_three n st s h1 h2 h3 first_value count st' a Hr Hc ltac:(lia)) as [-> Hw]. by apply wp_void.
  - apply wp_catch. unfold handle_to_queue. destruct (h =? 0).
    { injection Hc as <- <-. apply wp_ret. eauto. }
    destruct (st !! as_u64 h) as [l|] eqn:Hl; [|done]. injection Hc as <- <-.
    eapply (wp_and_then _ _ _ (λ v s', v ≫= (λ x, Some (as_i64 x)) = head l ∧ jrep n (<[as_u64 h := tail l]> st) s')).
    + eapply wp_mono; [apply (wp_jcall n st s _ l UPop Hr Hl Logic.I); simpl; lia|]. intros r s' (k & -> & -> & Hr').
      cbn [uspec ucost fst snd] in *. rewrite Nat.add_0_r in Hr'. eexists. split; [done|]. by destruct k.
    + intros v s' [Hv Hr']. apply wp_ret. eexists. split; [done|]. split; [|done]. rewrite <- Hv. by destruct v.
  - apply wp_pop_exact with st; [done|done|lia].
  - apply wp_pop_exact with st; [done|done|lia].
  - apply wp_pop_exact with st; [done|done|lia].
  - apply wp_catch. destruct (Z.leb_spec limit 0) as [Hn|Hn]; cbn [orb] in Hc.
    { injection Hc as <- <-. apply wp_ret. eauto. }
    unfold handle_to_queue. destruct (h =? 0).
    { injection Hc as <- <-. apply wp_ret. eauto. }
    destruct (st !! as_u64 h) as [l|] eqn:Hl; [|done]. injection Hc as <- <-.
    eapply (wp_and_then _ _ _ (λ v s', v = Z.min limit (Z.of_nat (length l)) ∧
      jrep n (<[as_u64 h := drop (Z.to_nat limit) l]> st) s')).
    + eapply wp_mono; [apply (wp_jcall n st s _ l (UPopCount limit) Hr Hl); [simpl; lia|simpl; lia]|].
      intros r s' (k & -> & -> & Hr'). cbn [uspec ucost fst snd] in *. rewrite Nat.add_0_r in Hr'.
      eexists. split; [done|]. rewrite length_fmap. split; [done|]. by rewrite <- fmap_drop.
    + intros v s' [-> Hr']. apply wp_ret. eexists. split; [done|]. split; [|done]. apply as_i32_id. lia.
  - apply wp_catch. unfold handle_to_queue. destruct (h =? 0).
    { injection Hc as <- <-. apply wp_ret. eauto. }
    destruct (st !! as_u64 h) as [l|] eqn:Hl; [|done]. injection Hc as <- <-.
    eapply (wp_and_then _ _ _ (λ b s', b = (match l with [] => true | _ => false end) ∧ jrep n st s')).
    + eapply wp_mono; [apply (wp_jcall n st s _ l UIsEmpty Hr Hl Logic.I); simpl; lia|].
      intros r s' (k & -> & -> & Hr'). cbn [uspec ucost fst snd] in *. rewrite Nat.add_0_r in Hr'.
      rewrite insert_id in Hr' by done. eexists. split; [done|]. by destruct k.
    + intros b s' [-> Hr']. apply wp_ret. eexists. split; [done|]. split; [|done]. by destruct l.
Qed.

Lemma wp_jexec n st s cs st' l :
  jrep n st s → Forall jcall_ok cs → jspec_calls cs st = Some (st', l) → (n + jcosts cs + 8 < fuel)%nat →
  wp (jexec fuel cs) s (λ r s', r = l ∧ jrep (n + jcosts cs) st' s').
Proof.
  intros Hr Hok. revert n st s l Hr. induction Hok as [|c cs Hc Hcs IH]; intros n st s l Hr Hsp Hf; cbn [jspec_calls] in Hsp.
  { injection Hsp as <- <-. apply wp_ret. split; [done|]. eapply jrep_mono; [done|lia]. }
  destruct (jspec_call c st) as [[st1 a]|] eqn:E1; [|done]. simpl in Hsp.
  destruct (jspec_calls cs st1) as [[st2 l2]|] eqn:E2; [|done]. simpl in Hsp. injection Hsp as <- <-.
  assert (jcosts (c :: cs) = jcost c + jcosts cs)%nat as Ecost by done. rewrite Ecost in *.
  cbn [jexec]. apply wp_bind. eapply wp_mono; [apply (wp_jexec_call n st s c st1 a Hr Hc E1); lia|].
  intros ? s1 [-> Hr1]. apply wp_bind. eapply wp_mono; [apply (IH _ st1 s1 l2 Hr1 E2); lia|].
  intros ? s2 [-> Hr2]. apply wp_ret. split; [done|]. eapply jrep_mono; [done|lia].
Qed.

Lemma jrep_blank : jrep 0 ∅ (mkJmem ∅ []).
Proof. split; simpl; [by rewrite !dom_empty_L|by intros p queue Hp; rewrite lookup_empty in Hp|done]. Qed.

End refinement.

(** ** The properties *)

(** C13: any sequence of calls from Java on handles that are live (or null), over any queue
    that keeps its promises, returns exactly what the abstract map of FIFO lists
    returns, with Java's wrap-around arithmetic and with the defaults for null
    handles, negative counts and unknown variants; afterwards the live handles are the
    abstract ones, each boxed queue holds its abstract list, and every destroyed queue
    has released all its memory. *)
Theorem jni_refines_spec {Q} `{LongQueue Q} `{BoxAllocator} fuel cs st l :
  Forall jcall_ok cs → jspec_calls cs ∅ = Some (st, l) → (jcosts cs + 8 < fuel)%nat →
  wp (H := jni_handler fuel) (jexec fuel cs) (mkJmem ∅ []) (λ answers s,
    answers = l ∧ dom (jqueues s) = dom st ∧
    (∀ p queue, jqueues s !! p = Some queue → ∃ n k, u_is n (inner queue) k ∧ st !! p = Some (as_i64 <$> k)) ∧
    Forall u_gone (jgraves s)).
Proof.
  intros Hok Hsp Hf. eapply (wp_mono (HH := jni_handler fuel)); [by apply (wp_jexec fuel 0 ∅ _ cs st l (jrep_blank))|].
  intros answers s [-> [Hd Hi Hg]]. split; [done|]. split; [done|]. split; [|done].
  intros p queue Hp. destruct (Hi p queue Hp) as (_ & k & ? & ?). eauto.
Qed.

(** [nativePopAndExact] folds [&] from the accumulator 0, so it cannot return
    anything else. *)
Lemma jni_pop_and_zero `{BoxAllocator} h n st st' a :
  jspec_call (PopAndExact h n) st = Some (st', a) → a = 0.
Proof.
  cbn [jspec_call]. unfold jpop_exact. destruct (_ || _); [by intros [= _ <-]|].
  destruct (st !! as_u64 h) as [l|]; [|done]. simpl. case_decide; [|done]. intros [= _ <-].
  induction (take (Z.to_nat n) l) as [|x xs IH]; [done|]. simpl. by rewrite Z.land_0_l.
Qed.

(** Programs without a panic that leaves them. *)
Fixpoint never_panics {E A} (p : prog E A) : Prop :=
  match p with
  | Ret _ => True
  | Vis e k => ∀ x, never_panics (k x)
  | Panic => False
  | OutOfFuel => True
  end.

Lemma never_panics_bind {E A B} (p : prog E A) (f : A → prog E B) :
  never_panics p → (∀ a, never_panics (f a)) → never_panics (p ≫= f).
Proof.
  intros Hp Hf. induction p as [a|X e k IH| |]; simpl in Hp; [apply Hf| |done|exact Logic.I].
  intros x. apply IH, Hp.
Qed.

Lemma never_panics_run {E St A} (h : Handler E St) (p : prog E A) s s' :
  never_panics p → run p s ≠ Panicked s'.
Proof.
  revert s. induction p as [a|X e k IH| |]; intros s Hp; simpl in *; try done.
  destruct (handle e s) as [x s1| |]; [|done..]. by apply IH.
Qed.

Lemma never_panics_loop {E L A} n (body : L → prog E (L + A)) l :
  (∀ l, never_panics (body l)) → never_panics (loop n body l).
Proof.
  intros Hb. revert l. induction n as [|n IH]; intros l; [done|]. apply never_panics_bind; [apply Hb|].
  intros [l'|a]; [apply IH|done].
Qed.

Section unwinding.
Context {Q : Type} `{LongQueue Q} (fuel : nat).

Lemma never_panics_then {A B} (p : prog (jniE Q) (option A)) (f : A → prog (jniE Q) (option B)) :
  never_panics p → (∀ a, never_panics (f a)) → never_panics (and_then p f).
Proof. intros Hp Hf. apply never_panics_bind; [done|]. intros [a|]; [apply Hf|done]. Qed.

Lemma never_panics_catch {A} (d : A) (f : prog (jniE Q) (option A)) :
  never_panics f → never_panics (extern_system (catch_or d f)).
Proof.
  intros Hf. unfold extern_system, catch_or. induction f as [r|X e k IH| |]; try done. intros x. apply IH, Hf.
Qed.

Lemma never_panics_for n lo (body : Z → prog (jniE Q) (option unit)) :
  (∀ k, never_panics (body k)) → never_panics (for_unwind n lo body).
Proof.
  intros Hb. revert lo. induction n as [|n IH]; intros lo; [done|]. apply never_panics_then; [apply Hb|]. intros _. apply IH.
Qed.

Lemma never_panics_pop_fold p apply n value : never_panics (pop_fold (Q:=Q) fuel p apply n value).
Proof.
  revert value. induction n as [|n IH]; intros value; [done|]. apply never_panics_then; [|intros; apply IH].
  apply never_panics_loop. intros []. apply never_panics_bind; [done|]. by intros [[v|]|].
Qed.

Ltac no_panic :=
  repeat first [ done | apply never_panics_then; [|intros ?] | apply never_panics_for; intros ?
               | apply never_panics_pop_fold | apply never_panics_catch | case_match ].

Lemma never_panics_jexec_call c : never_panics (jexec_call (Q:=Q) fuel c).
Proof.
  destruct c; cbn [jexec_call]; unfold nativeCreate, nativeCreateVariant, nativeDestroy, nativePush, nativePushRange,
    nativePushConstantExact, nativePushRangeExact, nativePushRangeToThreeExact, nativePopOr, nativePopAddExact,
    nativePopSubExact, nativePopAndExact, nativePopBatch, nativeIsEmpty;
    try (apply never_panics_bind; [|done]); no_panic.
Qed.

End unwinding.

(** ** Panicking queues *)

(** Every call into a boxed queue panics. *)
Definition panicking {Q St} (h : Handler (jniE Q) St) : Prop :=
  (∀ X p (c : ucall X) s, ∃ s', h _ (JCall p c) s = Next None s') ∧
  (∀ p s, ∃ s', h _ (JDropBox p) s = Next None s').

(** What Java gets then; [None] for the exports that call no queue. *)
Definition panic_default (c : jcall) : option Z :=
  match c with
  | Create | CreateVariant _ | VariantCount | DefaultVariantId => None
  | PopOr _ e => Some e
  | JIsEmpty _ => Some JNI_TRUE
  | _ => Some 0
  end.

Section defaults.
Context {Q St : Type} `{LongQueue Q} (h : Handler (jniE Q) St) (fuel : nat) (PH : panicking h) (Hf : (0 < fuel)%nat).

(** The computation unwinds. *)
Definition unwinds {A} (f : prog (jniE Q) (option A)) : Prop := ∀ s, ∃ s', run (H := h) f s = Done None s'.

(** The computation unwinds or returns the default itself. *)
Definition settles {A} (d : A) (f : prog (jniE Q) (option A)) : Prop :=
  ∀ s, ∃ r s', run (H := h) f s = Done r s' ∧ default d r = d.

Lemma unwinds_settles {A} (d : A) f : unwinds f → settles d f.
Proof. intros Hu s. destruct (Hu s) as [s' Hs]. by exists None, s'. Qed.

Lemma settles_ret {A} (d : A) : settles d (Ret (Some d)).
Proof. intros s. by exists (Some d), s. Qed.

Lemma settles_extern {A} (d : A) f : settles d f → ∀ s, ∃ s', run (H := h) (extern_system (catch_or d f)) s = Done d s'.
Proof.
  intros Hs s. destruct (Hs s) as (r & s' & Hr & Hd). exists s'. unfold extern_system, catch_or.
  rewrite !run_bind, Hr. simpl. by rewrite Hd.
Qed.

Lemma unwinds_call {X} p (c : ucall X) : unwinds (act (JCall p c)).
Proof using PH. intros s. destruct (proj1 PH X p c s) as [s' Hs]. exists s'. unfold act. simpl. unfold handle. by rewrite Hs. Qed.

Lemma unwinds_then {A B} (f : prog (jniE Q) (option A)) (g : A → prog (jniE Q) (option B)) :
  unwinds f → unwinds (and_then f g).
Proof. intros Hu s. destruct (Hu s) as [s' Hs]. exists s'. unfold and_then. by rewrite run_bind, Hs. Qed.

Lemma settles_for n lo (body : Z → prog (jniE Q) (option unit)) :
  (∀ k, unwinds (body k)) → settles tt (for_unwind n lo body).
Proof. intros Hb. destruct n; [apply settles_ret|]. apply unwinds_settles, unwinds_then, Hb. Qed.

Lemma settles_pop_fold p apply n : settles 0 (pop_fold fuel p apply n 0).
Proof using PH Hf.
  destruct n; [apply settles_ret|]. apply unwinds_settles, unwinds_then. intros s. unfold pop_blocking.
  destruct fuel as [|m]; [lia|]. destruct (proj1 PH _ p UPop s) as [s' Hs]. exists s'. simpl. unfold handle.
  by rewrite Hs.
Qed.

Ltac settle :=
  repeat first [ apply settles_ret | apply settles_pop_fold | apply settles_for; intros ? | apply unwinds_then
               | apply unwinds_call | apply unwinds_settles; first [apply unwinds_then | apply unwinds_call] | case_match ].

Lemma jexec_call_default c d : panic_default c = Some d → ∀ s, ∃ s', run (H := h) (jexec_call fuel c) s = Done d s'.
Proof using PH Hf.
  intros Hd s.
  assert (∀ f : prog (jniE Q) (option unit), settles tt f →
    ∃ s', run (H := h) (extern_system (catch_or tt f);; Ret 0) s = Done 0 s') as Hvoid.
  { intros f Hs. destruct (settles_extern tt f Hs s) as [s' Hr]. exists s'. by rewrite run_bind, Hr. }
  destruct c; try done; injection Hd as <-; cbn [jexec_call];
    first [ apply Hvoid | apply settles_extern ]; try unfold jni_push; settle.
  intros s1. destruct (proj2 PH (as_u64 h0) s1) as [s2 Hs]. exists None, s2. split; [|done]. unfold act. simpl. unfold handle.
  by rewrite Hs.
Qed.

End defaults.

(** C14: no exported function ever unwinds into the JVM, where a panic that leaves an
    export uncaught counts as unwinding: whatever the queues behind the handles do, no
    export panics; and when every call into a queue panics, each export that calls one
    still returns, with its documented default (the caller's empty value, true for
    [nativeIsEmpty], 0 otherwise). *)
Theorem jni_never_unwinds {Q St} `{LongQueue Q} (h : Handler (jniE Q) St) fuel c s :
  (∀ s', run (jexec_call fuel c) s ≠ Panicked s') ∧
  (∀ d, panicking h → (0 < fuel)%nat → panic_default c = Some d → ∃ s', run (jexec_call fuel c) s = Done d s').
Proof.
  split; [intros s'; apply never_panics_run, never_panics_jexec_call|]. intros d Hp Hf Hd. by apply jexec_call_default.
Qed.

(** ** A session *)

Definition session : list jcall :=
  [Create; CreateVariant 1; CreateVariant 7; PushRange 1 10 5; PushRangeToThreeExact 1 2 1 (2 ^ 63 - 1) 2;
   PopOr 1 (-1); PopAddExact 1 6; JIsEmpty 2; PopSubExact 2 1; PushConstantExact 2 (-3) 2; PopAndExact 2 2;
   JPush 0 3; PopAddExact 0 4; PopAddExact 1 (-4); JPopBatch 1 9; JPopBatch 2 9; PopOr 2 (-1); Destroy 1; Create].

Definition session_answers : list Z :=
  [1; 2; 0; 0; 0; 10; 11 + 12 + 13 + 14 - 2; 0; - 2 ^ 63 + 1; 0; 0; 0; 0; 0; 2; 1; -1; 0; 3].

Definition session_end : gmap Z (list Z) := {[2 := []; 3 := []]}.

#[local] Instance tiny_long : LongQueue (mem Z) :=
  ubq_long (H := tiny_geometry) (H1 := debug_build) ltac:(vm_compute; discriminate).

Lemma session_ok : Forall jcall_ok session.
Proof. repeat constructor. Qed.

Lemma jni_refines_spec_witness :
  wp (H := jni_handler (H := tiny_long) 200) (jexec 200 session) (mkJmem ∅ []) (λ answers s,
    answers = session_answers ∧ dom (jqueues s) = dom session_end ∧
    (∀ p queue, jqueues s !! p = Some queue →
       ∃ n k, u_is n (inner queue) k ∧ session_end !! p = Some (as_i64 <$> k)) ∧
    Forall u_gone (jgraves s)).
Proof.
  apply (jni_refines_spec (H := tiny_long) 200 session session_end session_answers);
    [exact session_ok|vm_compute; reflexivity|vm_compute; lia].
Defined.

(** Queues that panic on every call, and a push that does not catch it. *)
Definition panic_handler : Handler (jniE (mem Z)) unit := λ X e s,
  match e in jniE _ X return reply unit X with
  | JBox _ => Next 1 s
  | JCall _ _ => Next None s
  | JDropBox _ => Next None s
  end.

Example uncaught_push_unwinds :
  run (H := panic_handler) (extern_system (jni_push 1 5)) tt = Panicked tt.
Proof. reflexivity. Qed.

Lemma jni_never_unwinds_witness :
  panicking panic_handler ∧
  (∀ s', run (H := panic_handler) (jexec_call (H := tiny_long) 3 (PopOr 1 (-7))) tt ≠ Panicked s') ∧
  ∃ s', run (H := panic_handler) (jexec_call (H := tiny_long) 3 (PopOr 1 (-7))) tt = Done (-7) s'.
Proof.
  assert (panicking panic_handler) as Hp by (split; intros; by eexists).
  destruct (jni_never_unwinds (H := tiny_long) panic_handler 3 (PopOr 1 (-7)) tt) as [Hn Hd].
  split; [exact Hp|]. split; [exact Hn|]. apply Hd; [exact Hp|lia|reflexivity].
Defined.
