(* ===== verification/SpmcQueue.v ===== *)
(** * The single-producer shard queue (src/src/kfifo/queue.rs)

    One producer owns the tail; values are written before the producer publishes
    a prefix of the block and the packed producer head.  Consumers claim ranges
    on the packed consumer head and read plain payload slots.  Completed blocks
    go to a cache under a spin lock. *)

From S2P Require Import Prelude Prog Layout Head Geometry.

(** ** Memory *)

(** [Block<T, SpmcHeader>] of src/src/block.rs; an entry of [payload] is [None]
    while the slot holds no owned value. *)
Record SpmcBlock (T : Type) := mkSBlock {
  sb_next : Z;
  sb_run : Z;
  produced : Z;
  sb_consumed : Z;
  payload : list (option T)
}.
Arguments mkSBlock {T} _ _ _ _ _.
Arguments sb_next {T} _.
Arguments sb_run {T} _.
Arguments produced {T} _.
Arguments sb_consumed {T} _.
Arguments payload {T} _.

(** The queue's words, the producer's private tail, the block cache (its lock
    word and the first cached block), and the heap. *)
Record smem (T : Type) := mkSMem {
  s_phead : Z;
  s_chead : Z;
  tail_head : Head;
  locked : Z;
  cache_head : Z;
  sblocks : gmap Z (SpmcBlock T);
  sallocs : gmap Z Layout;
  sdropped : list T
}.
Arguments mkSMem {T} _ _ _ _ _ _ _ _.
Arguments s_phead {T} _.
Arguments s_chead {T} _.
Arguments tail_head {T} _.
Arguments locked {T} _.
Arguments cache_head {T} _.
Arguments sblocks {T} _.
Arguments sallocs {T} _.
Arguments sdropped {T} _.

Definition set_s_phead {T} v (s : smem T) :=
  mkSMem v (s_chead s) (tail_head s) (locked s) (cache_head s) (sblocks s) (sallocs s) (sdropped s).
Definition set_s_chead {T} v (s : smem T) :=
  mkSMem (s_phead s) v (tail_head s) (locked s) (cache_head s) (sblocks s) (sallocs s) (sdropped s).
Definition set_tail {T} v (s : smem T) :=
  mkSMem (s_phead s) (s_chead s) v (locked s) (cache_head s) (sblocks s) (sallocs s) (sdropped s).
Definition set_locked {T} v (s : smem T) :=
  mkSMem (s_phead s) (s_chead s) (tail_head s) v (cache_head s) (sblocks s) (sallocs s) (sdropped s).
Definition set_cache {T} v (s : smem T) :=
  mkSMem (s_phead s) (s_chead s) (tail_head s) (locked s) v (sblocks s) (sallocs s) (sdropped s).
Definition set_sblocks {T} v (s : smem T) :=
  mkSMem (s_phead s) (s_chead s) (tail_head s) (locked s) (cache_head s) v (sallocs s) (sdropped s).
Definition set_sallocs {T} v (s : smem T) :=
  mkSMem (s_phead s) (s_chead s) (tail_head s) (locked s) (cache_head s) (sblocks s) v (sdropped s).
Definition set_sdropped {T} v (s : smem T) :=
  mkSMem (s_phead s) (s_chead s) (tail_head s) (locked s) (cache_head s) (sblocks s) (sallocs s) v.

Inductive sloc :=
| SPhead
| SChead
| Locked
| CacheHead
| SNext (b : Z)
| Produced (b : Z)
| SConsumed (b : Z).

Inductive spmcE (T : Type) : Type → Type :=
| SLoad (l : sloc) : spmcE T Z
| SStore (l : sloc) (v : Z) : spmcE T unit
| SCas (weak : bool) (l : sloc) (old new : Z) : spmcE T (Z + Z)
| SFetchAdd (l : sloc) (d : Z) : spmcE T Z
| GetTail : spmcE T Head
| SetTail (h : Head) : spmcE T unit
| SWrite (b i : Z) (v : T) : spmcE T unit
| SRead (b i : Z) : spmcE T T
| SDropSlot (b i : Z) : spmcE T unit
| SDropOwned (v : T) : spmcE T unit
| SRunOf (b : Z) : spmcE T Z
| SReleaseRun (r : Z) : spmcE T unit
| SAlloc (l : Layout) : spmcE T Z
| SAllocError : spmcE T Empty_set
| SDealloc (p : Z) (l : Layout) : spmcE T unit
| SInit (b : Z) : spmcE T unit
| SDropBlock (b : Z) : spmcE T unit.
Arguments SLoad {T} l.
Arguments SStore {T} l v.
Arguments SCas {T} weak l old new.
Arguments SFetchAdd {T} l d.
Arguments GetTail {T}.
Arguments SetTail {T} h.
Arguments SWrite {T} b i v.
Arguments SRead {T} b i.
Arguments SDropSlot {T} b i.
Arguments SDropOwned {T} v.
Arguments SRunOf {T} b.
Arguments SReleaseRun {T} r.
Arguments SAlloc {T} l.
Arguments SAllocError {T}.
Arguments SDealloc {T} p l.
Arguments SInit {T} b.
Arguments SDropBlock {T} b.

Definition srd {T} (l : sloc) (s : smem T) : option Z :=
  match l with
  | SPhead => Some (s_phead s)
  | SChead => Some (s_chead s)
  | Locked => Some (locked s)
  | CacheHead => Some (cache_head s)
  | SNext b => sb_next <$> sblocks s !! b
  | Produced b => produced <$> sblocks s !! b
  | SConsumed b => sb_consumed <$> sblocks s !! b
  end.

Definition upd_block {T} b (f : SpmcBlock T → SpmcBlock T) (s : smem T) : option (smem T) :=
  blk ← sblocks s !! b; Some (set_sblocks (<[b := f blk]> (sblocks s)) s).

Definition swr {T} (l : sloc) (v : Z) (s : smem T) : option (smem T) :=
  match l with
  | SPhead => Some (set_s_phead v s)
  | SChead => Some (set_s_chead v s)
  | Locked => Some (set_locked v s)
  | CacheHead => Some (set_cache v s)
  | SNext b => upd_block b (λ k, mkSBlock v (sb_run k) (produced k) (sb_consumed k) (payload k)) s
  | Produced b => upd_block b (λ k, mkSBlock (sb_next k) (sb_run k) v (sb_consumed k) (payload k)) s
  | SConsumed b => upd_block b (λ k, mkSBlock (sb_next k) (sb_run k) (produced k) v (payload k)) s
  end.

Definition set_payload {T} v (k : SpmcBlock T) : SpmcBlock T :=
  mkSBlock (sb_next k) (sb_run k) (produced k) (sb_consumed k) v.

Definition payload_at {T} (k : SpmcBlock T) (i : Z) : option (option T) :=
  if 0 <=? i then payload k !! Z.to_nat i else None.

(** Moves the value of a slot out. *)
Definition take_slot {T} (b i : Z) (s : smem T) : option (T * smem T) :=
  blk ← sblocks s !! b; x ← payload_at blk i; v ← x;
  Some (v, set_sblocks (<[b := set_payload (<[Z.to_nat i := None]> (payload blk)) blk]> (sblocks s)) s).

Definition sreply {X T} (o : option (X * smem T)) : reply (smem T) X :=
  match o with Some (x, s) => Next x s | None => Fault end.

Section handler.
Context {T : Type} `{BlockGeometry} `{Allocator}.

#[export] Instance spmc_handler : Handler (spmcE T) (smem T) := λ X e,
  match e in spmcE _ X return smem T → reply (smem T) X with
  | SLoad l => λ s, sreply (v ← srd l s; Some (v, s))
  | SStore l v => λ s, sreply (s' ← swr l v s; Some (tt, s'))
  | SCas _ l old new => λ s, sreply (
      v ← srd l s;
      if v =? old then s' ← swr l new s; Some (inl v, s') else Some (inr v, s))
  | SFetchAdd l d => λ s, sreply (v ← srd l s; s' ← swr l (wrapping (v + d)) s; Some (v, s'))
  | GetTail => λ s, Next (tail_head s) s
  | SetTail h => λ s, Next tt (set_tail h s)
  | SWrite b i v => λ s, sreply (
      blk ← sblocks s !! b; _ ← payload_at blk i;
      Some (tt, set_sblocks
        (<[b := set_payload (<[Z.to_nat i := Some v]> (payload blk)) blk]> (sblocks s)) s))
  | SRead b i => λ s, sreply (take_slot b i s)
  | SDropSlot b i => λ s, sreply (
      '(v, s') ← take_slot b i s; Some (tt, set_sdropped (sdropped s' ++ [v]) s'))
  | SDropOwned v => λ s, Next tt (set_sdropped (sdropped s ++ [v]) s)
  | SRunOf b => λ s, sreply (blk ← sblocks s !! b; Some (sb_run blk, s))
  | SReleaseRun r => λ s, Fault
  | SAlloc l => λ s,
      let p := galloc (sallocs s) l in
      if p =? 0 then Next 0 s else Next p (set_sallocs (<[p := l]> (sallocs s)) s)
  | SAllocError => λ s, Exit
  | SDealloc p l => λ s, sreply (
      l' ← sallocs s !! p;
      if bool_decide (l' = l) && bool_decide (sblocks s !! p = None)
      then Some (tt, set_sallocs (delete p (sallocs s)) s) else None)
  | SInit b => λ s, sreply (
      _ ← sallocs s !! b;
      Some (tt, set_sblocks
        (<[b := mkSBlock 0 0 0 0 (replicate (Z.to_nat block_length) None)]> (sblocks s)) s))
  | SDropBlock b => λ s, sreply (
      _ ← sblocks s !! b; Some (tt, set_sblocks (delete b (sblocks s)) s))
  end.

#[export] Instance spmc_spurious : Spurious (spmcE T) (smem T) := λ X e,
  match e in spmcE _ X return smem T → option X with
  | SCas true l _ _ => λ s, inr <$> srd l s
  | _ => λ _, None
  end.

End handler.

(** ** Blocks (src/src/block.rs) *)

Section blocks.
Context {T : Type} `{BlockGeometry} `{Profile}.

Definition spmc_allocate : prog (spmcE T) Z :=
  allocation ← act (SAlloc (mkLayout page page));
  if allocation =? 0 then x ← act SAllocError; match x : Empty_set with end else
  act (SInit allocation);;
  Ret allocation.

Definition SpmcBlock_new : prog (spmcE T) Z := spmc_allocate.

Definition spmc_deallocate (this : Z) : prog (spmcE T) unit :=
  run ← act (SRunOf this);
  act (SDropBlock this);;
  if run =? 0 then act (SDealloc this (mkLayout page page))
  else act (SReleaseRun run).

Definition SpmcBlock_free (this first_unconsumed : Z) : prog (spmcE T) unit :=
  produced ← act (SLoad (Produced this));
  debug_assert (first_unconsumed <=? produced);;
  debug_assert (produced <=? block_length);;
  for_range (Z.to_nat (produced - first_unconsumed)) first_unconsumed
    (λ index, act (SDropSlot this index));;
  spmc_deallocate this.

Definition SpmcBlock_reset (this : Z) : prog (spmcE T) unit :=
  act (SStore (SNext this) 0);;
  act (SStore (Produced this) 0);;
  act (SStore (SConsumed this) 0).

Definition publish (b p : Z) : prog (spmcE T) unit :=
  debug_assert (p <=? block_length);;
  (if debug_assertions then old ← act (SLoad (Produced b)); debug_assert (old <=? p) else Ret tt);;
  act (SStore (Produced b) p).

Definition acquire_produced (b : Z) : prog (spmcE T) Z := act (SLoad (Produced b)).

Definition SpmcBlock_write (this index : Z) (value : T) : prog (spmcE T) unit :=
  debug_assert (index <? block_length);;
  act (SWrite this index value).

Definition SpmcBlock_read (this index : Z) : prog (spmcE T) T :=
  debug_assert (index <? block_length);;
  act (SRead this index).

(** Moves [quantity] slots from [index] on behind [values]. *)
Fixpoint move_range (this index : Z) (quantity : nat) (values : list T) : prog (spmcE T) (list T) :=
  match quantity with
  | O => Ret values
  | S quantity =>
      v ← act (SRead this index);
      move_range this (index + 1) quantity (values ++ [v])
  end.

Definition SpmcBlock_append_to_vec (this index quantity : Z) (values : list T) :
  prog (spmcE T) (list T) :=
  debug_assert (index + quantity <=? block_length);;
  move_range this index (Z.to_nat quantity) values.

Definition SpmcBlock_consume (b quantity : Z) : prog (spmcE T) bool :=
  previous ← act (SFetchAdd (SConsumed b) quantity);
  total ← uadd previous quantity;
  debug_assert (total <=? block_length);;
  Ret (total =? block_length).

(** ** The block cache *)

Definition lock (fuel : nat) : prog (spmcE T) unit :=
  loop fuel (λ _ : unit,
    r ← act (SCas true Locked 0 1);
    match r with
    | inl _ => Ret (inr tt)
    | inr _ =>
        loop fuel (λ _ : unit,
          v ← act (SLoad Locked);
          if v =? 0 then Ret (inr tt) else Ret (inl tt)) tt;;
        Ret (inl tt)
    end) tt.

Definition unlock : prog (spmcE T) unit := act (SStore Locked 0).

Definition cache_take (fuel : nat) : prog (spmcE T) Z :=
  lock fuel;;
  block ← act (SLoad CacheHead);
  (if negb (block =? 0) then
     nx ← act (SLoad (SNext block));
     act (SStore CacheHead nx);;
     act (SStore (SNext block) 0)
   else Ret tt);;
  unlock;;
  Ret block.

Definition cache_give (fuel : nat) (block : Z) : prog (spmcE T) unit :=
  lock fuel;;
  head ← act (SLoad CacheHead);
  act (SStore (SNext block) head);;
  act (SStore CacheHead block);;
  unlock.

(** ** The queue *)

Definition SPMC_new : smem T := mkSMem 0 0 Head_ZERO 0 0 ∅ ∅ [].

Definition s_acquire_phead : prog (spmcE T) Head :=
  v ← act (SLoad SPhead); Ret (from_usize v codec).

Definition s_acquire_chead : prog (spmcE T) Head :=
  v ← act (SLoad SChead); Ret (from_usize v codec).

Definition s_is_empty : prog (spmcE T) bool :=
  published ← act (SLoad SPhead);
  if published =? 0 then Ret true else
  c ← act (SLoad SChead);
  Ret (published =? c).

Definition take_block (fuel : nat) : prog (spmcE T) Z :=
  cached ← cache_take fuel;
  if cached =? 0 then SpmcBlock_new else Ret cached.

Definition write_one (fuel : nat) (value : T) : prog (spmcE T) unit :=
  tail ← act GetTail;
  (if is_zero tail then
     root ← take_block fuel;
     act (SetTail (from_ptr root));;
     w ← to_usize (from_ptr root) codec;
     act (SStore SChead w)
   else Ret tt);;
  tail ← act GetTail;
  let b := block tail in
  let i := index tail in
  debug_assert (i <? block_length);;
  SpmcBlock_write b i value;;
  act (SetTail (mkHead b (i + 1) (has_next tail)));;
  if i + 1 =? block_length then
    nx ← take_block fuel;
    act (SStore (SNext b) nx);;
    publish b block_length;;
    act (SetTail (from_ptr nx))
  else Ret tt.

Definition publish_tail : prog (spmcE T) unit :=
  tail ← act GetTail;
  debug_assert (negb (is_zero tail));;
  (if negb (index tail =? 0) then publish (block tail) (index tail) else Ret tt);;
  w ← to_usize tail codec;
  act (SStore SPhead w).

Definition s_push (fuel : nat) (value : T) : prog (spmcE T) unit :=
  write_one fuel value;;
  publish_tail.

Fixpoint write_all (fuel : nat) (values : list T) : prog (spmcE T) unit :=
  match values with
  | [] => Ret tt
  | v :: values => write_one fuel v;; write_all fuel values
  end.

(** [PublishGuard::publish] *)
Definition guard_publish (dirty : bool) : prog (spmcE T) unit :=
  if dirty then publish_tail else Ret tt.

(** [values] is what the iterator yields before it ends, or before it panics;
    either way the guard publishes the prefix that was written. *)
Definition s_push_batch (fuel : nat) (values : list T) (panics : bool) : prog (spmcE T) unit :=
  write_all fuel values;;
  guard_publish (match values with [] => false | _ => true end);;
  if panics then Panic else Ret tt.

(** ** Claims *)

Record SPMCIter := mkSIter { si_block : Z; si_index : Z; si_len : Z }.

Definition SPMCIter_empty : SPMCIter := mkSIter 0 0 0.

Definition try_publish_has_next (claimed : Head) : prog (spmcE T) unit :=
  debug_assert (negb (has_next claimed));;
  old ← to_usize claimed codec;
  hinted ← to_usize (mkHead (block claimed) (index claimed) true) codec;
  if negb (old =? hinted) then
    act (SCas false SChead old hinted);; Ret tt
  else Ret tt.

Definition resolve_speculative_claim (fuel : nat) (original claimed : Head) : prog (spmcE T) Z :=
  debug_assert (negb (has_next original));;
  debug_assert (negb (has_next claimed));;
  debug_assert (block original =? block claimed);;
  debug_assert (index original <? index claimed);;
  let full_len := index claimed - index original in
  loop fuel (λ _ : unit,
    phead ← s_acquire_phead;
    debug_assert (negb (is_zero phead));;
    if negb (block phead =? block original) || (index claimed <=? index phead) then
      (if negb (block phead =? block original) then try_publish_has_next claimed else Ret tt);;
      Ret (inr full_len)
    else
      let repaired_index := Z.max (index phead) (index original) in
      old ← to_usize claimed codec;
      new ← to_usize (mkHead (block original) repaired_index false) codec;
      r ← act (SCas false SChead old new);
      match r with
      | inl _ => Ret (inr (repaired_index - index original))
      | inr real =>
          let real := from_usize real codec in
          if negb (block real =? block claimed)
             || (has_next real && (index claimed <=? index real))
          then Ret (inr full_len)
          else Ret (inl tt)
      end) tt.

Definition finish_boundary_claim (fuel : nat) (block0 len requested : Z) : prog (spmcE T) Z :=
  loop fuel (λ '(b, len),
    nx ← loop fuel (λ _ : unit,
      nx ← act (SLoad (SNext b));
      if negb (nx =? 0) then Ret (inr nx) else Ret (inl tt)) tt;
    phead ← s_acquire_phead;
    let available := if block phead =? nx then index phead else block_length in
    rest ← usub requested len;
    let quantity := Z.min available rest in
    let len := len + quantity in
    if quantity <? block_length then
      w ← to_usize (mkHead nx quantity (negb (block phead =? nx))) codec;
      act (SStore SChead w);;
      Ret (inr len)
    else Ret (inl (nx, len))) (block0, len).

Definition validate_claim (fuel : nat) (b index len : Z) : prog (spmcE T) unit :=
  loop fuel (λ '(b, index, len),
    if len =? 0 then Ret (inr tt) else
    let quantity := Z.min len (block_length - index) in
    published ← acquire_produced b;
    always_assert (index + quantity <=? published);;
    let len := len - quantity in
    if negb (len =? 0) then
      nx ← act (SLoad (SNext b));
      debug_assert (negb (nx =? 0));;
      Ret (inl (nx, 0, len))
    else Ret (inl (b, index, len))) (b, index, len).

(** What a consumer sees to be available from [chead]; [None] returns the empty
    iterator. *)
Definition s_available (chead : Head) : prog (spmcE T) (option Z) :=
  if has_next chead then Ret (Some (block_length - index chead)) else
  phead ← s_acquire_phead;
  if is_zero phead then Ret None
  else if block phead =? block chead then Ret (Some (saturating_sub (index phead) (index chead)))
  else Ret (Some (block_length - index chead)).

Definition s_pop_batch (fuel : nat) (size : Z) : prog (spmcE T) SPMCIter :=
  if size =? 0 then Ret SPMCIter_empty else
  chead ← s_acquire_chead;
  loop fuel (λ chead,
    if is_zero chead then Ret (inr SPMCIter_empty) else
    if index chead =? block_length then
      chead ← s_acquire_chead; Ret (inl chead)
    else
      available ← s_available chead;
      match available with
      | None => Ret (inr SPMCIter_empty)
      | Some available =>
          let first := Z.min available size in
          if first =? 0 then Ret (inr SPMCIter_empty) else
          let claimed := mkHead (block chead) (index chead + first) (has_next chead) in
          old ← to_usize chead codec;
          new ← to_usize claimed codec;
          r ← act (SCas true SChead old new);
          match r with
          | inl _ =>
              first ← (if has_next chead then Ret first
                       else resolve_speculative_claim fuel chead claimed);
              if first =? 0 then Ret (inr SPMCIter_empty) else
              len ← (if index chead + first =? block_length
                     then finish_boundary_claim fuel (block chead) first size
                     else Ret first);
              validate_claim fuel (block chead) (index chead) len;;
              Ret (inr (mkSIter (block chead) (index chead) len))
          | inr real => Ret (inl (from_usize real codec))
          end
      end) chead.

(** ** The iterator *)

Definition recycle (fuel : nat) (b : Z) : prog (spmcE T) unit :=
  SpmcBlock_reset b;;
  cache_give fuel b.

(** The block's completion, after the iterator has moved on. *)
Definition s_complete (fuel : nat) (b quantity : Z) : prog (spmcE T) unit :=
  full ← SpmcBlock_consume b quantity;
  if full : bool then recycle fuel b else Ret tt.

Definition s_iter_next (fuel : nat) (it : SPMCIter) : prog (spmcE T) (option T * SPMCIter) :=
  if si_len it =? 0 then Ret (None, it) else
  let b := si_block it in
  v ← SpmcBlock_read b (si_index it);
  let i := si_index it + 1 in
  let len := si_len it - 1 in
  it' ← (if i =? block_length then nx ← act (SLoad (SNext b)); Ret (mkSIter nx 0 len)
         else Ret (mkSIter b i len));
  s_complete fuel b 1;;
  Ret (Some v, it').

(** [Drop for SPMCIter]: [for _ in self {}]. *)
Definition s_iter_drop (fuel : nat) (it : SPMCIter) : prog (spmcE T) unit :=
  loop fuel (λ it,
    '(v, it) ← s_iter_next fuel it;
    match v with
    | Some v => act (SDropOwned v);; Ret (inl it)
    | None => Ret (inr tt)
    end) it.

(** [SPMCIter::append_to_vec] consumes the iterator; it returns the vector and
    the number of values appended. *)
Definition s_append_to_vec (fuel : nat) (it : SPMCIter) (values : list T) :
  prog (spmcE T) (list T * Z) :=
  let previous_len := Z.of_nat (length values) in
  '(values, it) ← loop fuel (λ '(values, it),
    if si_len it =? 0 then Ret (inr (values, it)) else
    let b := si_block it in
    let quantity := Z.min (si_len it) (block_length - si_index it) in
    values ← SpmcBlock_append_to_vec b (si_index it) quantity values;
    let i := si_index it + quantity in
    let len := si_len it - quantity in
    it' ← (if i =? block_length then nx ← act (SLoad (SNext b)); Ret (mkSIter nx 0 len)
           else Ret (mkSIter b i len));
    s_complete fuel b quantity;;
    Ret (inl (values, it'))) (values, it);
  appended ← usub (Z.of_nat (length values)) previous_len;
  s_iter_drop fuel it;;
  Ret (values, appended).

Definition s_pop (fuel : nat) : prog (spmcE T) (option T) :=
  it ← s_pop_batch fuel 1;
  '(v, it) ← s_iter_next fuel it;
  s_iter_drop fuel it;;
  Ret v.

(** ** [impl Drop for SPMC] *)

Definition free_attached (fuel : nat) (b first_unconsumed : Z) : prog (spmcE T) unit :=
  loop fuel (λ '(b, first_unconsumed),
    if b =? 0 then Ret (inr tt) else
    nx ← act (SLoad (SNext b));
    SpmcBlock_free b first_unconsumed;;
    Ret (inl (nx, 0))) (b, first_unconsumed).

Definition SPMC_drop (fuel : nat) : prog (spmcE T) unit :=
  w ← act (SLoad SChead);
  let chead := from_usize w codec in
  free_attached fuel (block chead) (index chead);;
  cached ← act (SLoad CacheHead);
  free_attached fuel cached 0.

End blocks.
