(* ===== verification/SpmcInv.v ===== *)
(** * The representation invariant of the shard queue

    The memory holds exactly the live blocks of the logical state, the cached
    blocks, and the block a push has in hand.  The block operations and the
    cache keep it; each access to a shared block is a transition of the logical
    state. *)

From S2P Require Import Prelude Prog Layout Head Geometry Epochs SpmcQueue.

Arguments set_s_phead {T} v s /.
Arguments set_s_chead {T} v s /.
Arguments set_tail {T} v s /.
Arguments set_locked {T} v s /.
Arguments set_cache {T} v s /.
Arguments set_sblocks {T} v s /.
Arguments set_sallocs {T} v s /.
Arguments set_sdropped {T} v s /.
Arguments set_payload {T} v k /.

Section replies.
Context {T : Type} `{BlockGeometry} `{Allocator}.
Implicit Types s : smem T.

Lemma handle_sload l s v : srd l s = Some v → handle (SLoad l) s = Next v s.
Proof. unfold handle, spmc_handler. by intros ->. Qed.

Lemma handle_sstore l v s s' : swr l v s = Some s' → handle (SStore l v) s = Next tt s'.
Proof. unfold handle, spmc_handler. by intros ->. Qed.

Lemma handle_scas_ok w l old new s s' :
  srd l s = Some old → swr l new s = Some s' → handle (SCas w l old new) s = Next (inl old) s'.
Proof. unfold handle, spmc_handler. intros -> Hw. simpl. by rewrite Z.eqb_refl, Hw. Qed.

Lemma handle_sfetch_add l d s v s' :
  srd l s = Some v → is_usize (v + d) → swr l (v + d) s = Some s' →
  handle (SFetchAdd l d) s = Next v s'.
Proof.
  unfold handle, spmc_handler. intros -> Hr Hw. simpl.
  unfold wrapping. rewrite Z.mod_small by (unfold is_usize, usize_max in Hr; lia). by rewrite Hw.
Qed.

End replies.

Section inv.
Context {T : Type} `{BlockGeometry} `{Allocator} `{Profile}.
Implicit Types (s : smem T) (fixed : gmap Z (SpmcBlock T)) (g : ghost T).

(** ** The heap: shared blocks, blocks in hand, cached blocks *)

(** A block nothing has been written to. *)
Definition sfresh (nx : Z) : SpmcBlock T := mkSBlock nx 0 0 0 (replicate BL None).

(** The words other than the cache's, and the destroyed values. *)
Definition same_state s s' : Prop :=
  s_phead s' = s_phead s ∧ s_chead s' = s_chead s ∧ tail_head s' = tail_head s ∧
  sdropped s' = sdropped s.

Lemma same_state_trans s s1 s2 : same_state s s1 → same_state s1 s2 → same_state s s2.
Proof. intros (?&?&?&?) (?&?&?&?). repeat split; congruence. Qed.

Record sstore fixed (priv cache : list Z) s : Prop := {
  ss_locked : locked s = 0;
  ss_fixed : fixed ⊆ sblocks s;
  ss_nodup : NoDup (priv ++ cache);
  ss_disj : ∀ b, b ∈ priv ++ cache → fixed !! b = None;
  ss_dom : ∀ b, is_Some (sblocks s !! b) → is_Some (fixed !! b) ∨ b ∈ priv ++ cache;
  ss_priv : ∀ b, b ∈ priv → sblocks s !! b = Some (sfresh 0);
  ss_cache : ∀ i b, cache !! i = Some b → sblocks s !! b = Some (sfresh (default 0 (cache !! S i)));
  ss_head : cache_head s = default 0 (cache !! 0%nat);
  ss_allocs : sallocs s = (λ _, mkLayout page page) <$> sblocks s;
  ss_addr : ∀ b, is_Some (sblocks s !! b) → 0 < b ∧ b mod page = 0 ∧ b + page ≤ 2 ^ 64;
  ss_run : ∀ b blk, sblocks s !! b = Some blk → sb_run blk = 0
}.

Lemma sstore_words fixed priv cache s p c t d :
  sstore fixed priv cache s →
  sstore fixed priv cache
    (mkSMem p c t (locked s) (cache_head s) (sblocks s) (sallocs s) d).
Proof. by intros []. Qed.

(** ** The cache lock *)

Lemma run_lock s fuel : locked s = 0 → (0 < fuel)%nat → run (lock fuel) s = Done tt (set_locked 1 s).
Proof.
  intros Hl Hf. destruct fuel as [|fuel]; [lia|]. unfold lock. cbn [loop].
  rewrite run_bind. erewrite run_act_bind.
  2: { apply handle_scas_ok; [unfold srd; by rewrite Hl|reflexivity]. }
  reflexivity.
Qed.

Lemma wp_lock {A} s fuel (k : prog (spmcE T) A) Q :
  locked s = 0 → (0 < fuel)%nat → wp k (set_locked 1 s) Q → wp (lock fuel;; k) s Q.
Proof. intros Hl Hf Hk. apply wp_bind. by eapply wp_done; [apply run_lock|]. Qed.

(** Updating one block. *)
Lemma upd_block_some s b blk f :
  sblocks s !! b = Some blk → upd_block b f s = Some (set_sblocks (<[b := f blk]> (sblocks s)) s).
Proof. intros Hb. unfold upd_block. by rewrite Hb. Qed.

Lemma sstore_update fixed priv cache s b blk blk' :
  sstore fixed priv cache s → fixed !! b = Some blk → sb_run blk' = 0 →
  sstore (<[b := blk']> fixed) priv cache (set_sblocks (<[b := blk']> (sblocks s)) s).
Proof.
  intros [Hlo Hf Hnd Hdj Hdom Hp Hc Hh Hal Had Hr] Hb Hrun.
  assert (sblocks s !! b = Some blk) as Hb' by (by eapply lookup_weaken).
  assert (∀ b', b' ∈ priv ++ cache → b ≠ b') as Hne.
  { intros b' Hin ->. rewrite Hdj in Hb; done. }
  split; simpl; try done.
  - by apply insert_mono.
  - intros b' Hin. rewrite lookup_insert_ne by (by apply Hne). by apply Hdj.
  - intros b'. destruct (decide (b = b')) as [->|]; [rewrite !lookup_insert_eq; by left|].
    rewrite !lookup_insert_ne by done. apply Hdom.
  - intros b' Hin. rewrite lookup_insert_ne by (apply Hne; set_solver). by apply Hp.
  - intros i b' Hi. rewrite lookup_insert_ne; [by apply Hc|]. apply Hne, elem_of_app. right.
    by eapply list_elem_of_lookup_2.
  - rewrite fmap_insert, insert_id; [done|]. by rewrite lookup_fmap, Hb'.
  - intros b' Hs. apply Had. destruct (decide (b = b')) as [->|]; [eauto|].
    by rewrite lookup_insert_ne in Hs.
  - intros b' x [[<- <-]|[_ Hx]]%lookup_insert_Some; [done|by eapply Hr].
Qed.

Lemma wp_SpmcBlock_new fixed cache s :
  sstore fixed [] cache s →
  wp SpmcBlock_new s (λ b s', sstore fixed [b] cache s' ∧ same_state s s').
Proof.
  intros [Hlo Hf Hnd Hdj Hdom Hp Hc Hh Hal Had Hr]. unfold SpmcBlock_new, spmc_allocate.
  pose proof page_pos. set (l := mkLayout page page). set (b := galloc (sallocs s) l).
  destruct (Z.eqb_spec b 0) as [E|Hnz].
  { unfold wp. simpl. unfold handle, spmc_handler. fold l b. rewrite E. simpl. done. }
  destruct (galloc_fresh (sallocs s) l b eq_refl Hnz) as (Hpos & Hmax & Hmod & Hfresh). simpl in *.
  assert (sblocks s !! b = None) as Hnone.
  { destruct (sblocks s !! b) as [x|] eqn:E; [|done].
    destruct (Hfresh b l); [by rewrite Hal, lookup_fmap, E|simpl in *; lia..]. }
  eapply wp_act_bind; [unfold handle, spmc_handler; fold l b; by rewrite (proj2 (Z.eqb_neq _ _) Hnz)|].
  rewrite (proj2 (Z.eqb_neq _ _) Hnz).
  eapply wp_act_bind; [unfold handle, spmc_handler; simpl; by rewrite lookup_insert_eq|]. apply wp_ret.
  split; [|done]. split; simpl; try done.
  - by apply insert_subseteq_r; [|done]; destruct (fixed !! b) eqn:E; [eapply lookup_weaken in E; [|done]; congruence|].
  - apply NoDup_cons. split; [|done]. intros Hin. apply list_elem_of_lookup in Hin as [i Hi].
    by rewrite (Hc i b Hi) in Hnone.
  - intros b' [->|Hin]%elem_of_cons; [|by apply Hdj].
    destruct (fixed !! b) eqn:E; [|done]. eapply lookup_weaken in E; [|done]. congruence.
  - intros b'. destruct (decide (b = b')) as [->|]; [right; left|].
    rewrite lookup_insert_ne by done. intros Hs. destruct (Hdom b' Hs) as [?|?]; [by left|by right; right].
  - intros b' Hin. apply list_elem_of_singleton in Hin as ->. by rewrite lookup_insert_eq.
  - intros i b' Hi. rewrite lookup_insert_ne; [by apply Hc|]. intros ->. by rewrite (Hc i b' Hi) in Hnone.
  - by rewrite fmap_insert, Hal.
  - intros b'. destruct (decide (b = b')) as [->|]; [done|]. rewrite lookup_insert_ne by done. apply Had.
  - intros b' x [[<- <-]|[_ Hx]]%lookup_insert_Some; [done|by eapply Hr].
Qed.

Lemma wp_take_block fixed cache s fuel :
  sstore fixed [] cache s → (0 < fuel)%nat →
  wp (take_block fuel) s (λ b s', ∃ cache', sstore fixed [b] cache' s' ∧ same_state s s').
Proof.
  intros Hs Hf. unfold take_block, cache_take. apply wp_bind.
  eapply (wp_mono _ _ (λ b s', match cache with
    | [] => b = 0 ∧ s' = s
    | c :: cache' => b = c ∧ b ≠ 0 ∧ sstore fixed [c] cache' s' ∧ same_state s s' end)).
  - apply wp_lock; [apply Hs|done|].
    eapply wp_act_bind; [by apply handle_sload|]. cbn [cache_head set_locked]. rewrite (ss_head _ _ _ _ Hs).
    destruct cache as [|c cache].
    + apply wp_bind, wp_ret. eapply wp_act_bind; [by apply handle_sstore|]. apply wp_ret. split; [done|].
      destruct s; simpl. f_equal; symmetry; [apply (ss_locked _ _ _ _ Hs)|apply (ss_head _ _ _ _ Hs)].
    + pose proof (ss_cache _ _ _ _ Hs 0%nat c eq_refl) as Hc.
      assert (0 < c) as Hpos by (eapply ss_addr; [done|eauto]).
      change (default 0 ((c :: cache) !! 0%nat)) with c.
      rewrite (proj2 (Z.eqb_neq c 0)) by lia. cbn [negb]. apply wp_bind.
      eapply wp_act_bind; [apply handle_sload; unfold srd; cbn [sblocks set_locked]; by rewrite Hc|].
      eapply wp_act_bind; [by apply handle_sstore|].
      eapply wp_act; [apply handle_sstore; unfold swr; apply upd_block_some; exact Hc|].
      eapply wp_act_bind; [by apply handle_sstore|]. apply wp_ret.
      split; [done|]. split; [lia|]. split; [|done].
      destruct Hs as [Hlo Hfx Hnd Hdj Hdom Hp Hca Hh Hal Had Hr]. simpl in *.
      apply NoDup_cons in Hnd as [Hn1 Hnd]. split; simpl; try done.
      * apply insert_subseteq_r; [|done]. apply Hdj. left.
      * by apply NoDup_cons.
      * intros b. destruct (decide (c = b)) as [->|]; [right; left|]. rewrite lookup_insert_ne by done.
        apply Hdom.
      * intros b Hb. apply list_elem_of_singleton in Hb as ->. by rewrite lookup_insert_eq.
      * intros i b Hi. rewrite lookup_insert_ne; [by apply (Hca (S i))|]. intros ->. apply Hn1.
        by eapply list_elem_of_lookup_2.
      * rewrite fmap_insert, insert_id; [done|]. by rewrite lookup_fmap, Hc.
      * intros b Hb. apply Had. destruct (decide (c = b)) as [->|]; [eauto|].
        by rewrite lookup_insert_ne in Hb.
      * intros b x [[<- <-]|[_ Hx]]%lookup_insert_Some; [done|by eapply Hr].
  - intros b s' Hb. destruct cache as [|c cache'].
    + destruct Hb as [-> ->]. rewrite Z.eqb_refl. eapply wp_mono; [by apply wp_SpmcBlock_new|].
      intros b s' [??]. by exists [].
    + destruct Hb as (-> & Hnz & Hs' & Hw). rewrite (proj2 (Z.eqb_neq _ _) Hnz). apply wp_ret. by exists cache'.
Qed.

(** A completed block moves to the cache. *)
Lemma wp_recycle fixed cache s b blk fuel :
  sstore fixed [] cache s → fixed !! b = Some blk → payload blk = replicate BL None → (0 < fuel)%nat →
  wp (recycle fuel b) s (λ _ s', sstore (delete b fixed) [] (b :: cache) s' ∧ same_state s s').
Proof.
  intros Hs Hb Hpay Hf. unfold recycle, SpmcBlock_reset, cache_give.
  assert (sblocks s !! b = Some blk) as Hb' by (eapply lookup_weaken; [done|apply Hs]).
  assert (sb_run blk = 0) as Hrun by (by eapply ss_run).
  apply wp_bind.
  eapply wp_act_bind; [apply handle_sstore; unfold swr; apply upd_block_some; exact Hb'|].
  eapply wp_act_bind; [apply handle_sstore; unfold swr; apply upd_block_some; apply lookup_insert_eq|].
  eapply wp_act; [apply handle_sstore; unfold swr; apply upd_block_some; apply lookup_insert_eq|].
  simpl. rewrite !insert_insert_eq, Hrun, Hpay. change (mkSBlock 0 0 0 0 _) with (sfresh 0).
  assert (sstore (<[b := sfresh 0]> fixed) [] cache (set_sblocks (<[b := sfresh 0]> (sblocks s)) s)) as Hs1
    by (by eapply sstore_update).
  set (s1 := mkSMem _ _ _ _ _ _ _ _) in *. change (set_sblocks _ s) with s1 in Hs1.
  apply wp_lock; [apply Hs1|done|].
  eapply wp_act_bind; [by apply handle_sload|].
  eapply wp_act_bind; [apply handle_sstore; unfold swr; apply upd_block_some; apply lookup_insert_eq|].
  eapply wp_act_bind; [by apply handle_sstore|].
  eapply wp_act; [by apply handle_sstore|]. split; [|done].
  assert (delete b (<[b := sfresh 0]> fixed) = delete b fixed) as Ed by apply delete_insert_eq.
  rewrite <- Ed. clear Ed Hb Hb' Hs.
  destruct Hs1 as [Hlo Hfx Hnd Hdj Hdom Hp Hca Hh Hal Had Hr]. simpl in *.
  assert (b ∉ cache) as Hnc.
  { intros Hin. apply Hdj in Hin. by rewrite lookup_insert_eq in Hin. }
  rewrite insert_insert_eq. split; simpl; try done.
  - rewrite delete_insert_eq. apply map_subseteq_spec. intros b' x [Hne Hx]%lookup_delete_Some.
    rewrite lookup_insert_ne by done. apply (lookup_weaken _ _ _ _ (proj2 (lookup_insert_Some _ _ _ _ _)
      (or_intror (conj Hne Hx))) ) in Hfx as Hy. by rewrite lookup_insert_ne in Hy.
  - by apply NoDup_cons.
  - intros b' [->|Hin]%elem_of_cons; [apply lookup_delete_eq|].
    apply lookup_delete_None. right. by apply Hdj.
  - intros b' Hsome. destruct (decide (b = b')) as [->|Hne]; [right; left|].
    rewrite lookup_insert_ne in Hsome by done.
    destruct (Hdom b') as [Hx|Hx]; [by rewrite lookup_insert_ne| |by right; right].
    left. rewrite lookup_delete_ne by done. done.
  - intros b' Hb'. by apply elem_of_nil in Hb'.
  - intros [|i] b'; simpl.
    + intros [= <-]. rewrite lookup_insert_eq, Hh. done.
    + intros Hi. rewrite lookup_insert_ne.
      * specialize (Hca i b' Hi). rewrite lookup_insert_ne in Hca; [done|].
        intros ->. apply Hnc. by eapply list_elem_of_lookup_2.
      * intros ->. apply Hnc. by eapply list_elem_of_lookup_2.
  - rewrite Hal, !fmap_insert. done.
  - intros b' Hsome. apply Had. destruct (decide (b = b')) as [->|]; [by rewrite lookup_insert_eq|].
    by rewrite lookup_insert_ne in * by done.
  - intros b' x [[<- <-]|[Hne Hx]]%lookup_insert_Some; [done|]. apply (Hr b'). by rewrite lookup_insert_ne.
Qed.

End inv.

(** ** Blocks as a function of the logical state *)

Section shapes.
Context {T : Type} `{BlockGeometry} `{Allocator} `{Profile}.
Implicit Types (s : smem T) (fixed : gmap Z (SpmcBlock T)) (g : ghost T) (pub : nat).

Definition cell_of g (p : nat) : option T :=
  match cells g !! p with
  | Some (Some v) => if decide (unread g p) then Some v else None
  | _ => None
  end.

(** How much of the [k]-th block has been published, [pub] positions being
    published in all. *)
Definition produced_of pub (k : nat) : nat := Nat.min BL (pub - k * BL).

Definition sblock_of pub g (k : nat) : SpmcBlock T :=
  mkSBlock (addr g (S k)) 0 (Z.of_nat (produced_of pub k)) (Z.of_nat (consumed_of g k))
    (cell_of g <$> seq (k * BL) BL).

Definition sshape pub g (k : nat) (b : SpmcBlock T) : Prop := b = sblock_of pub g k.

Definition sinv pub g (priv : list Z) s : Prop :=
  ∃ fixed cache, epoch_map (sshape pub g) g fixed ∧ sstore fixed priv cache s.

Lemma sinv_words pub g priv s p c t d :
  sinv pub g priv s →
  sinv pub g priv (mkSMem p c t (locked s) (cache_head s) (sblocks s) (sallocs s) d).
Proof. intros (f & ca & ? & ?). exists f, ca. split; [done|]. by apply sstore_words. Qed.

Lemma sinv_block pub g priv s k :
  sinv pub g priv s → live g k → sblocks s !! addr g k = Some (sblock_of pub g k).
Proof.
  intros (f & ca & Hq & Hs) Hk. destruct (em_block _ _ _ Hq k Hk) as (b & Hb & ->).
  eapply lookup_weaken; [done|apply Hs].
Qed.

Lemma sinv_addr pub g priv s k :
  sinv pub g priv s → live g k → 0 < addr g k ∧ addr g k mod page = 0 ∧ addr g k + page ≤ 2 ^ 64.
Proof.
  intros Hi Hk. pose proof (sinv_block _ _ _ _ _ Hi Hk) as Hb. destruct Hi as (f & ca & _ & Hs).
  eapply ss_addr; [done|eauto].
Qed.

Lemma sinv_inj pub g priv s k k' :
  sinv pub g priv s → live g k → live g k' → addr g k = addr g k' → k = k'.
Proof. intros (f & ca & Hq & _). apply (em_inj _ _ _ Hq). Qed.

(** [g'] and [pub'] differ from [g] and [pub] in the [k]-th block only. *)
Definition sframe pub pub' g g' (k : nat) : Prop :=
  addrs g' = addrs g ∧
  (∀ p, (p < k * BL ∨ k * BL + BL ≤ p)%nat →
     (released g' p ↔ released g p) ∧ cell_of g' p = cell_of g p) ∧
  (∀ j, j ≠ k → produced_of pub' j = produced_of pub j).

Lemma sblock_of_ext pub pub' g g' j :
  addrs g' = addrs g →
  (∀ p, (j * BL ≤ p < j * BL + BL)%nat →
     (released g' p ↔ released g p) ∧ cell_of g' p = cell_of g p) →
  produced_of pub' j = produced_of pub j →
  sblock_of pub' g' j = sblock_of pub g j.
Proof.
  intros Ha He Hp. unfold sblock_of, addr. rewrite Ha, Hp. f_equal.
  - f_equal. apply consumed_of_ext. intros p Hin. by apply He.
  - apply list_fmap_ext. intros i p Hi%lookup_seq. apply He. lia.
Qed.

Lemma sframe_epoch pub pub' g g' k :
  sframe pub pub' g g' k → epoch_frame (sshape pub g) (sshape pub' g') g g' k.
Proof.
  intros (Ha & He & Hp). split; [done| |].
  - intros j Hj. unfold live. rewrite Ha. rewrite (consumed_of_ext g g' j); [done|].
    intros p Hin. by apply He, (other_block j).
  - intros j b Hj ->. symmetry. apply sblock_of_ext; [done| |by apply Hp].
    intros p Hin. by apply He, (other_block j).
Qed.

Lemma sinv_update pub pub' g g' priv s k :
  sinv pub g priv s → sframe pub pub' g g' k → live g k → live g' k →
  sinv pub' g' priv (set_sblocks (<[addr g k := sblock_of pub' g' k]> (sblocks s)) s).
Proof.
  intros (f & ca & Hq & Hs) Hfr Hk Hk'. destruct (em_block _ _ _ Hq k Hk) as (b & Hb & ->).
  exists (<[addr g k := sblock_of pub' g' k]> f), ca. split.
  - eapply epoch_map_update; [done|by apply sframe_epoch|done|done|done].
  - by eapply sstore_update.
Qed.

Lemma sinv_same pub g g' priv s :
  sinv pub g priv s → addrs g' = addrs g →
  (∀ p, (released g' p ↔ released g p) ∧ cell_of g' p = cell_of g p) → sinv pub g' priv s.
Proof.
  intros (f & ca & Hq & Hs) Ha He. exists f, ca. split; [|done].
  eapply epoch_map_same; [exact Hq|done| |].
  - intros j. unfold live. rewrite Ha. by rewrite (consumed_of_ext g g' j) by (intros; apply He).
  - intros j b ->. symmetry. by apply sblock_of_ext.
Qed.

Lemma cell_of_unread g g' p :
  cells g' !! p = cells g !! p → (unread g' p ↔ unread g p) → cell_of g' p = cell_of g p.
Proof.
  intros Hc Hu. unfold cell_of. rewrite Hc. destruct (cells g !! p) as [[v|]|]; try done.
  by rewrite (decide_ext _ _ _ _ Hu).
Qed.

Lemma payload_at_block pub g k i :
  (i < BL)%nat → payload_at (sblock_of pub g k) (Z.of_nat i) = Some (cell_of g (k * BL + i)).
Proof.
  intros Hi. unfold payload_at. rewrite (proj2 (Z.leb_le _ _)) by lia. rewrite Nat2Z.id. simpl.
  by rewrite list_lookup_fmap, lookup_seq_lt by lia.
Qed.

Lemma sblock_of_put pub g g' k i :
  addrs g' = addrs g → (i < BL)%nat →
  (∀ p, (k * BL ≤ p < k * BL + BL)%nat → released g' p ↔ released g p) →
  (∀ p, (k * BL ≤ p < k * BL + BL)%nat → p ≠ (k * BL + i)%nat → cell_of g' p = cell_of g p) →
  set_payload (<[Z.to_nat (Z.of_nat i) := cell_of g' (k * BL + i)]> (payload (sblock_of pub g k)))
    (sblock_of pub g k) = sblock_of pub g' k.
Proof.
  intros Ha Hi Hr Hs. unfold sblock_of, addr. simpl. rewrite Ha. f_equal.
  - f_equal. symmetry. by apply consumed_of_ext.
  - rewrite Nat2Z.id. apply list_eq. intros j. destruct (decide (i = j)) as [<-|Hne].
    + rewrite list_lookup_insert_eq by (rewrite length_fmap, length_seq; lia).
      by rewrite list_lookup_fmap, lookup_seq_lt by lia.
    + rewrite list_lookup_insert_ne, !list_lookup_fmap by done.
      destruct (decide (j < BL)%nat).
      * rewrite lookup_seq_lt by lia. simpl. f_equal. symmetry. apply Hs; lia.
      * by rewrite lookup_seq_ge by lia.
Qed.

(** In a completed block every value has been moved out. *)
Lemma completed_cells pub g k :
  (∀ id rv, resvs g !! id = Some rv → (r_first rv ≤ r_pos rv)%nat) →
  consumed_of g k = BL → payload (sblock_of pub g k) = replicate BL None.
Proof.
  intros Hord Hc. simpl. rewrite (list_fmap_ext _ (λ _, @None T)).
  - rewrite (const_fmap _ _ None) by done. by rewrite length_seq.
  - intros i p [-> Hi]%lookup_seq. unfold cell_of.
    destruct (cells g !! _) as [[v|]|]; try done. by rewrite decide_False by (by apply completed_read).
Qed.

(** ** Producer steps *)

Lemma wp_write pub g priv s k i v :
  sinv pub g priv s → live g k → (claimed g ≤ length (cells g))%nat →
  length (cells g) = (k * BL + i)%nat → (i < BL)%nat →
  wp (SpmcBlock_write (addr g k) (Z.of_nat i) v) s (λ _ s',
    sinv pub (g_write (Some v) g) priv s' ∧ same_state s s').
Proof.
  intros Hq Hk Hc Hp Hi. pose proof BL_Z. unfold SpmcBlock_write.
  apply wp_debug_assert; [apply Z.ltb_lt; lia|].
  pose proof (sinv_block _ _ _ _ _ Hq Hk) as Hb.
  assert (∀ p, p ≠ length (cells g) → cell_of (g_write (Some v) g) p = cell_of g p) as Hsame.
  { intros p Hne. apply cell_of_unread; [|done]. simpl. destruct (decide (p < length (cells g))%nat).
    - by rewrite lookup_app_l.
    - rewrite lookup_app_r, lookup_ge_None_2, lookup_ge_None_2; [done|lia|simpl; lia|lia]. }
  assert (cell_of (g_write (Some v) g) (k * BL + i) = Some v) as Hnew.
  { unfold cell_of. simpl. rewrite <- Hp, lookup_app_r, Nat.sub_diag by lia. simpl.
    rewrite decide_True; [done|]. left. simpl. lia. }
  assert (sinv pub (g_write (Some v) g) priv
    (set_sblocks (<[addr g k := sblock_of pub (g_write (Some v) g) k]> (sblocks s)) s)) as Hupd.
  { apply (sinv_update pub pub g); [done| |done|].
    - split; [done|]. split; [|done]. intros p Hout. split; [done|]. apply Hsame. lia.
    - apply (live_position _ _ (k * BL + i)%nat); [apply Hk|lia|].
      apply unclaimed_unreleased. simpl. lia. }
  rewrite <- (sblock_of_put pub g (g_write (Some v) g) k i) in Hupd;
    [|done..|intros p _ Hne; apply Hsame; lia].
  rewrite Hnew in Hupd. eapply wp_act.
  { unfold handle, spmc_handler. rewrite Hb. simpl. rewrite payload_at_block by done. reflexivity. }
  split; [exact Hupd|done].
Qed.

Lemma wp_publish pub pub' g priv s k :
  sinv pub g priv s → live g k → (∀ j, j ≠ k → produced_of pub' j = produced_of pub j) →
  (produced_of pub k ≤ produced_of pub' k)%nat →
  wp (publish (addr g k) (Z.of_nat (produced_of pub' k))) s (λ _ s',
    sinv pub' g priv s' ∧ same_state s s').
Proof.
  intros Hq Hk Hoth Hle. pose proof (sinv_block _ _ _ _ _ Hq Hk) as Hb. unfold publish.
  pose proof BL_Z. apply wp_debug_assert; [apply Z.leb_le; unfold produced_of; lia|].
  apply wp_bind. apply (wp_mono _ _ (λ _ s', s' = s)).
  { destruct debug_assertions; [|by apply wp_ret].
    eapply wp_act_bind; [apply handle_sload; unfold srd; by rewrite Hb|].
    rewrite debug_assert_ok by (apply Z.leb_le; simpl; lia). by apply wp_ret. }
  intros ? ? ->. eapply wp_act; [apply handle_sstore; unfold swr; apply upd_block_some; exact Hb|].
  split; [|done]. change (mkSBlock _ _ _ _ _) with (sblock_of pub' g k).
  by apply (sinv_update pub).
Qed.

(** A block in hand becomes shared. *)
Lemma sstore_absorb fixed b cache s :
  sstore fixed [b] cache s → sstore (<[b := sfresh 0]> fixed) [] cache s.
Proof.
  intros [Hlo Hf Hnd Hdj Hdom Hp Hc Hh Hal Had Hr]. simpl in *.
  apply NoDup_cons in Hnd as [Hn Hnd]. split; simpl; try done.
  - apply map_subseteq_spec. intros b' x [[<- <-]|[_ Hx]]%lookup_insert_Some; [apply Hp; left|].
    by eapply lookup_weaken.
  - intros b' Hb'. rewrite lookup_insert_ne; [apply Hdj; by right|]. intros ->. done.
  - intros b' Hs. destruct (decide (b = b')) as [->|]; [left; by rewrite lookup_insert_eq|].
    rewrite lookup_insert_ne by done. destruct (Hdom b' Hs) as [?|[?|?]%elem_of_cons]; [by left|congruence|by right].
  - intros b' Hb'. by apply elem_of_nil in Hb'.
Qed.

Lemma sblock_of_unpushed pub g k :
  (claimed g ≤ k * BL)%nat → (length (cells g) ≤ k * BL)%nat → (pub ≤ k * BL)%nat →
  sblock_of pub g k = sfresh (addr g (S k)).
Proof.
  intros Hcl Hce Hp. unfold sblock_of, sfresh, produced_of.
  rewrite consumed_of_unclaimed by lia. f_equal; [lia|].
  rewrite (list_fmap_ext _ (λ _, @None T)).
  - rewrite (const_fmap _ _ None) by done. by rewrite length_seq.
  - intros i p [-> ?]%lookup_seq. unfold cell_of. by rewrite lookup_ge_None_2 by lia.
Qed.

(** Linking the block in hand behind the last shared block (or as the first). *)
Lemma epoch_map_link_one pub g fixed fixed' b :
  epoch_map (sshape pub g) g fixed → fixed !! b = None →
  (claimed g ≤ length (addrs g) * BL)%nat → (length (cells g) ≤ length (addrs g) * BL)%nat →
  (pub ≤ length (addrs g) * BL)%nat →
  (∀ k, live g k → fixed' !! addr g k = Some (sblock_of pub (g_link [b] g) k)) →
  (∀ b', is_Some (fixed' !! b') → is_Some (fixed !! b')) →
  epoch_map (sshape pub (g_link [b] g)) (g_link [b] g) (<[b := sfresh 0]> fixed').
Proof.
  intros Hq Hb Hcl Hce Hpu Hold Hdom. eapply epoch_map_link; [exact Hq|done| | | | |].
  - apply NoDup_singleton.
  - intros b' Hin. by apply list_elem_of_singleton in Hin as ->.
  - intros [|i] b'; [|by destruct i]. intros [= <-]. exists (sfresh 0). split; [apply lookup_insert_eq|].
    unfold sshape. rewrite sblock_of_unpushed by (simpl; lia). f_equal.
    replace (S (length (addrs g) + 0)) with (length (addrs g) + 1)%nat by lia. by rewrite addr_link_new.
  - intros k Hk. exists (sblock_of pub (g_link [b] g) k). split; [|done]. rewrite lookup_insert_ne; [by apply Hold|].
    intros ->. destruct (em_block _ _ _ Hq k Hk) as (x & Hx & _). congruence.
  - intros b'. destruct (decide (b = b')) as [->|]; [left; left|]. rewrite lookup_insert_ne by done.
    intros Hs. right. by apply Hdom.
Qed.

Lemma sinv_link_first g b s :
  sinv 0 g [b] s → addrs g = [] → cells g = [] → claimed g = 0%nat → sinv 0 (g_link [b] g) [] s.
Proof.
  intros (f & ca & Hq & Hs) Ha Hce Hcl. exists (<[b := sfresh 0]> f), ca. split; [|by apply sstore_absorb].
  apply (epoch_map_link_one 0 g f); try done.
  - apply Hs. left.
  - lia.
  - rewrite Hce. simpl. lia.
  - lia.
  - intros k [Hk _]. rewrite Ha in Hk. simpl in Hk. lia.
Qed.

Lemma wp_link pub g b s k :
  sinv pub g [b] s → length (addrs g) = S k → live g k →
  (claimed g ≤ S k * BL)%nat → (length (cells g) ≤ S k * BL)%nat → (pub ≤ S k * BL)%nat →
  wp (act (SStore (SNext (addr g k)) b)) s (λ _ s',
    sinv pub (g_link [b] g) [] s' ∧ same_state s s').
Proof.
  intros Hi Hlen Hk Hcl Hce Hpu. pose proof (sinv_block _ _ _ _ _ Hi Hk) as Hb.
  eapply wp_act; [apply handle_sstore; unfold swr; apply upd_block_some; exact Hb|]. split; [|done].
  destruct Hi as (f & ca & Hq & Hs). destruct (em_block _ _ _ Hq k Hk) as (x & Hx & Ex).
  set (nb := mkSBlock b _ _ _ _).
  assert (nb = sblock_of pub (g_link [b] g) k) as Enb.
  { unfold nb, sblock_of, addr. simpl. rewrite lookup_app_r by lia. by rewrite Hlen, Nat.sub_diag. }
  assert (sstore (<[addr g k := nb]> f) [b] ca (set_sblocks (<[addr g k := nb]> (sblocks s)) s)) as Hs1
    by (by eapply sstore_update).
  assert (f !! b = None) as Hfb by (apply (ss_disj _ _ _ _ Hs); left).
  exists (<[b := sfresh 0]> (<[addr g k := nb]> f)), ca. split; [|by apply sstore_absorb].
  apply (epoch_map_link_one pub g f); try done; [lia..| |].
  - intros j Hj. destruct (decide (j = k)) as [->|Hne]; [by rewrite lookup_insert_eq, Enb|].
    rewrite lookup_insert_ne by (intros E; apply Hne, (em_inj _ _ _ Hq); done).
    destruct (em_block _ _ _ Hq j Hj) as (y & Hy & ->). rewrite Hy. f_equal.
    unfold sblock_of. f_equal. symmetry. apply addr_link_old. destruct Hj. lia.
  - intros b'. destruct (decide (addr g k = b')) as [<-|]; [eauto|]. by rewrite lookup_insert_ne.
Qed.

Lemma wp_take_private pub g s fuel :
  sinv pub g [] s → (0 < fuel)%nat →
  wp (take_block fuel) s (λ b s', sinv pub g [b] s' ∧ same_state s s').
Proof.
  intros (f & ca & Hq & Hs) Hf. eapply wp_mono; [by eapply wp_take_block|].
  intros b s' (ca' & Hs' & ?). split; [|done]. by exists f, ca'.
Qed.

End shapes.
