(* ===== verification/SpmcSteps.v ===== *)
(** * What the operations of the shard queue do

    Pushes append to the logical state, [pop_batch] claims the first published
    positions, iterators move the claimed values out and recycle the blocks they
    complete. *)

From S2P Require Import Prelude Prog Layout Head Geometry Epochs SpmcQueue SpmcInv.

Section consumer.
Context {T : Type} `{BlockGeometry} `{Allocator} `{Profile}.
Implicit Types (s : smem T) (g : ghost T) (pub : nat).

Lemma sinv_claim pub g priv s id n :
  sinv pub g priv s → resvs g !! id = None → sinv pub (g_claim id n g) priv s.
Proof.
  intros Hi Hid. eapply sinv_same; [done|done|]. intros p. split.
  - by apply released_claim.
  - apply cell_of_unread; [done|]. by apply unread_claim.
Qed.

Lemma sinv_forget pub g priv s id rv :
  sinv pub g priv s → resvs g !! id = Some rv → (r_stop rv ≤ r_first rv ≤ r_pos rv)%nat →
  sinv pub (g_forget id g) priv s.
Proof.
  intros Hi Hid Hrv. eapply sinv_same; [done|done|]. intros p. split.
  - by apply (released_forget g id rv).
  - apply cell_of_unread; [done|]. by apply (unread_forget g id rv).
Qed.

(** Moving the value at an iterator's position out. *)
Lemma wp_sread pub g priv s id rv k i v :
  sinv pub g priv s → resvs_wf g → resvs g !! id = Some rv → (r_pos rv < r_stop rv)%nat →
  r_pos rv = (k * BL + i)%nat → (i < BL)%nat → (k < length (addrs g))%nat →
  cells g !! r_pos rv = Some (Some v) →
  wp (act (SRead (addr g k) (Z.of_nat i))) s (λ y s',
    y = v ∧ sinv pub (g_resv id (mkResv (r_first rv) (S (r_pos rv)) (r_stop rv)) g) priv s' ∧
    same_state s s').
Proof.
  intros Hq Hok Hid Hlt Hp Hi Hk Hx. destruct (rw_order _ Hok _ _ Hid) as [Hord Hcl].
  assert (live g k) as Hlive.
  { apply (live_position _ _ (r_pos rv)); [done|lia|].
    apply (held_unreleased g id rv); [done|lia]. }
  pose proof (sinv_block _ _ _ _ _ Hq Hlive) as Hb.
  set (g' := g_resv id _ g).
  assert (∀ p, released g' p ↔ released g p) as Hrel by (intros p; by apply (released_resv g id rv)).
  assert (∀ p, p ≠ r_pos rv → cell_of g' p = cell_of g p) as Hcell.
  { intros p Hne. apply cell_of_unread; [done|]. apply (unread_resv g id rv); [done|simpl; lia]. }
  assert (live g' k) as Hlive'.
  { split; [done|]. unfold g'. rewrite (consumed_of_ext g); [apply Hlive|]. intros p _. apply Hrel. }
  assert (cell_of g' (k * BL + i) = None) as Hnew.
  { unfold cell_of. rewrite <- Hp. simpl. rewrite Hx, decide_False; [done|]. by apply not_unread_read. }
  assert (sinv pub g' priv (set_sblocks (<[addr g k := sblock_of pub g' k]> (sblocks s)) s)) as Hupd.
  { apply (sinv_update pub pub g); [done| |done|done]. split; [done|]. split; [|done].
    intros p Hout. split; [done|]. apply Hcell. lia. }
  rewrite <- (sblock_of_put pub g g' k i) in Hupd; [|done..|intros p _ Hne; apply Hcell; lia].
  rewrite Hnew in Hupd. eapply wp_act.
  { unfold handle, spmc_handler, take_slot. rewrite Hb. simpl. rewrite payload_at_block by done.
    unfold cell_of. rewrite <- Hp, Hx. simpl.
    rewrite decide_True by (apply (unread_at_pos g id rv); [done|lia]). reflexivity. }
  split; [done|]. split; [exact Hupd|done].
Qed.

(** Completing the positions an iterator has moved out of one block. *)
Lemma wp_s_complete pub g s id rv k fuel :
  sinv pub g [] s → resvs_wf g → resvs g !! id = Some rv → (k < length (addrs g))%nat →
  (k * BL ≤ r_first rv)%nat → (r_first rv < r_pos rv ≤ k * BL + BL)%nat → (0 < fuel)%nat →
  wp (s_complete fuel (addr g k) (Z.of_nat (r_pos rv - r_first rv))) s (λ _ s',
    sinv pub (g_resv id (mkResv (r_pos rv) (r_pos rv) (r_stop rv)) g) [] s' ∧ same_state s s').
Proof.
  intros Hq [Hord Hdis] Hid Hk Hlo Hhi Hf. destruct (Hord _ _ Hid) as [Ho Hcl].
  pose proof BL_Z as HBL. pose proof length_lt_max as Hmax.
  assert (live g k) as Hlive.
  { apply (live_position _ _ (r_first rv)); [done|lia|].
    apply (held_unreleased g id rv); [done|lia]. }
  pose proof (sinv_block _ _ _ _ _ Hq Hlive) as Hb.
  set (g' := g_resv id _ g).
  assert (∀ p, released g' p ↔ released g p ∨ (r_first rv ≤ p < r_pos rv)%nat) as Hrel
    by (intros p; apply released_flush; [intros j x Hj Hx q; by apply (Hdis id j rv x)|done..]).
  assert (∀ p, cell_of g' p = cell_of g p) as Hcell.
  { intros p. apply cell_of_unread; [done|]. by apply (unread_resv g id rv). }
  assert (sframe pub pub g g' k) as Hfr.
  { split; [done|]. split; [|done]. intros p Hp. split; [|done]. rewrite Hrel.
    split; [intros [?|?]; [done|lia]|by left]. }
  assert (consumed_of g' k = consumed_of g k + (r_pos rv - r_first rv))%nat as Hc.
  { unfold consumed_of. rewrite (filter_seq_add (released g) (released g') (r_first rv) (r_pos rv));
      [lia|intros; apply Hrel|]. intros p Hp. apply (held_unreleased g id rv); [done|lia]. }
  pose proof (consumed_of_le g' k) as Hle. rewrite Hc in Hle.
  assert (sblock_of pub g' k = mkSBlock (addr g (S k)) 0 (Z.of_nat (produced_of pub k))
    (Z.of_nat (consumed_of g' k)) (payload (sblock_of pub g k))) as Hblk.
  { unfold sblock_of. f_equal. apply list_fmap_ext. intros; apply Hcell. }
  unfold s_complete, SpmcBlock_consume. apply wp_bind. eapply wp_act_bind.
  { apply handle_sfetch_add; [unfold srd; rewrite Hb; reflexivity| |].
    - simpl. unfold is_usize, usize_max, isize_max in *. lia.
    - unfold swr. apply upd_block_some. exact Hb. }
  apply wp_uadd; [simpl; unfold usize_max, isize_max in *; lia|]. cbn [sb_consumed sblock_of].
  assert (Z.of_nat (consumed_of g k) + Z.of_nat (r_pos rv - r_first rv) = Z.of_nat (consumed_of g' k)) as ->
    by lia.
  apply wp_debug_assert; [apply Z.leb_le; lia|]. apply wp_ret.
  set (s1 := set_sblocks _ s).
  assert (s1 = set_sblocks (<[addr g k := sblock_of pub g' k]> (sblocks s)) s) as Es1 by (by rewrite Hblk).
  destruct (Z.eqb_spec (Z.of_nat (consumed_of g' k)) block_length) as [Efull|Hnf].
  - destruct Hq as (fixed & ca & Hq & Hs). destruct (em_block _ _ _ Hq k Hlive) as (x & Hx & ->).
    assert (¬ live g' k) as Hdead by (intros [_ ?]; lia).
    eapply wp_mono.
    + eapply (wp_recycle (<[addr g k := sblock_of pub g' k]> fixed) ca); [| | |done].
      * rewrite Es1. by eapply sstore_update.
      * apply lookup_insert_eq.
      * apply completed_cells; [|lia]. intros j y. simpl.
        intros [[<- <-]|[_ Hj]]%lookup_insert_Some; simpl; [lia|]. destruct (Hord _ _ Hj). lia.
    + intros ? s' [Hs' Hw]. split; [|done]. rewrite delete_insert_eq in Hs'.
      eexists _, _. split; [|exact Hs']. by eapply epoch_map_remove; [|apply sframe_epoch| |].
  - apply wp_ret. split; [|done]. rewrite Es1. apply (sinv_update pub pub g); [done..|].
    split; [done|]. lia.
Qed.

(** ** The iterator *)

(** The iterator [it] is at reservation [rv]. *)
Record siter_at g (rv : resv) (it : SPMCIter) : Prop := {
  sa_place : (r_pos rv < r_stop rv)%nat →
    si_block it = addr g (r_pos rv / BL) ∧ si_index it = Z.of_nat (r_pos rv mod BL);
  sa_len : si_len it = Z.of_nat (r_stop rv - r_pos rv)
}.

(** Every position holds a value. *)
Definition full g : Prop := Forall is_Some (cells g).

Lemma full_cell g p : full g → (p < length (cells g))%nat → ∃ v, cells g !! p = Some (Some v).
Proof.
  intros Hf Hp. destruct (lookup_lt_is_Some_2 (cells g) p Hp) as [x Hx].
  pose proof (proj1 (Forall_lookup _ _) Hf p x Hx) as [v ->]. eauto.
Qed.

Lemma present_take_S g p n v :
  cells g !! p = Some (Some v) →
  present (take (S n) (drop p (cells g))) = v :: present (take n (drop (S p) (cells g))).
Proof. intros Hx. by rewrite (drop_S _ _ _ Hx). Qed.

(** Moving [n] values out of one block. *)
Lemma wp_move_range n pub g s id rv k i values :
  sinv pub g [] s → resvs_wf g → full g → resvs g !! id = Some rv →
  (r_pos rv + n ≤ r_stop rv)%nat → (claimed g ≤ length (cells g))%nat →
  r_pos rv = (k * BL + i)%nat → (i + n ≤ BL)%nat → (k < length (addrs g))%nat →
  wp (move_range (addr g k) (Z.of_nat i) n values) s (λ l s',
    l = values ++ present (take n (drop (r_pos rv) (cells g))) ∧
    sinv pub (g_resv id (mkResv (r_first rv) (r_pos rv + n) (r_stop rv)) g) [] s' ∧
    same_state s s').
Proof.
  revert g s rv i values. induction n as [|n IH]; intros g s rv i values Hq Hwf Hfu Hid Hn Hcl Hp Hi Hk.
  - apply wp_ret. rewrite Nat.add_0_r. split; [by rewrite take_0, app_nil_r|]. split; [|done].
    rewrite g_resv_same; [done|]. by destruct rv.
  - destruct (rw_order _ Hwf _ _ Hid) as [Hord Hst].
    destruct (full_cell g (r_pos rv)) as [v Hv]; [done|lia|]. cbn [move_range]. apply wp_bind.
    eapply wp_mono; [apply (wp_sread pub g [] s id rv k i v); (done || lia)|].
    intros y s1 (-> & Hq1 & Hw1). set (rv1 := mkResv _ _ _) in *.
    replace (Z.of_nat i + 1) with (Z.of_nat (S i)) by lia.
    eapply wp_mono; [apply (IH (g_resv id rv1 g) s1 rv1 (S i)); simpl; try (done || lia)|].
    + apply (resvs_wf_resv g id rv); simpl; (done || lia).
    + apply lookup_insert_eq.
    + intros l s2 (-> & Hq2 & Hw2). simpl in *. rewrite g_resv_twice in Hq2.
      rewrite (present_take_S g _ n v Hv), <- app_assoc. split; [done|].
      split; [by replace (r_pos rv + S n)%nat with (S (r_pos rv + n)) by lia|].
      by eapply same_state_trans.
Qed.

(** The iterator after it has taken [n] values of its current block. *)
Lemma wp_iter_step_over pub g s id rv k i n :
  sinv pub (g_resv id (mkResv (r_first rv) (r_pos rv + n) (r_stop rv)) g) [] s → ghost_ok g →
  resvs g !! id = Some rv → r_first rv = r_pos rv → (r_pos rv + n ≤ r_stop rv)%nat →
  r_pos rv = (k * BL + i)%nat → (0 < n)%nat → (i + n ≤ BL)%nat → (k < length (addrs g))%nat →
  wp (if Z.of_nat i + Z.of_nat n =? block_length
      then nx ← act (SLoad (SNext (addr g k))); Ret (mkSIter nx 0 (Z.of_nat (r_stop rv - (r_pos rv + n))))
      else Ret (mkSIter (addr g k) (Z.of_nat i + Z.of_nat n) (Z.of_nat (r_stop rv - (r_pos rv + n))))) s
    (λ it s', s' = s ∧ siter_at g (mkResv (r_pos rv + n) (r_pos rv + n) (r_stop rv)) it).
Proof.
  intros Hq Hg Hid Hfp Hn Hp Hn0 Hi Hk. pose proof BL_Z. set (rv1 := mkResv _ _ _) in Hq.
  destruct (Z.eqb_spec (Z.of_nat i + Z.of_nat n) block_length) as [E|Hne].
  - assert (live (g_resv id rv1 g) k) as Hlive.
    { apply (live_position _ _ (r_pos rv)); [done|lia|].
      apply (held_unreleased _ id rv1); [apply lookup_insert_eq|simpl; lia]. }
    pose proof (sinv_block _ _ _ _ _ Hq Hlive) as Hb. eapply wp_act_bind.
    { apply handle_sload. unfold srd. change (addr g k) with (addr (g_resv id rv1 g) k). by rewrite Hb. }
    apply wp_ret. split; [done|]. split; simpl; [|done]. intros ?.
    replace (r_pos rv + n)%nat with (S k * BL + 0)%nat by lia. destruct (div_BL (S k) 0) as [-> ->]; done || lia.
  - apply wp_ret. split; [done|]. split; simpl; [|done]. intros ?.
    replace (r_pos rv + n)%nat with (k * BL + (i + n))%nat by lia.
    destruct (div_BL k (i + n)) as [-> ->]; [lia|]. split; [done|lia].
Qed.

(** The completion of the block it has left. *)
Lemma wp_complete_moved pub g s id rv k i n fuel :
  sinv pub (g_resv id (mkResv (r_first rv) (r_pos rv + n) (r_stop rv)) g) [] s → ghost_ok g →
  resvs g !! id = Some rv → r_first rv = r_pos rv → (r_pos rv + n ≤ r_stop rv)%nat →
  r_pos rv = (k * BL + i)%nat → (0 < n)%nat → (i + n ≤ BL)%nat → (k < length (addrs g))%nat →
  (0 < fuel)%nat →
  wp (s_complete fuel (addr g k) (Z.of_nat n)) s (λ _ s',
    sinv pub (g_resv id (mkResv (r_pos rv + n) (r_pos rv + n) (r_stop rv)) g) [] s' ∧
    ghost_ok (g_resv id (mkResv (r_pos rv + n) (r_pos rv + n) (r_stop rv)) g) ∧ same_state s s').
Proof.
  intros Hq Hg Hid Hfp Hn Hp Hn0 Hi Hk Hf. set (rv1 := mkResv _ _ _) in Hq.
  destruct (ro_order _ (go_resvs _ Hg) _ _ Hid) as [Hord Hst].
  replace (Z.of_nat n) with (Z.of_nat (r_pos rv1 - r_first rv1)) by (simpl; lia).
  eapply wp_mono; [apply (wp_s_complete pub (g_resv id rv1 g) s id rv1 k fuel Hq); simpl; try (done || lia)|].
  - apply (resvs_wf_resv g id rv); simpl; try (done || lia). apply resvs_ok_wf, Hg.
  - apply lookup_insert_eq.
  - intros ? s' [Hq' Hw']. rewrite g_resv_twice in Hq'. split; [done|]. split; [|done].
    apply (ghost_ok_advance g id rv); simpl; (done || lia).
Qed.

(** The state after an iterator has delivered the positions before [p]. *)
Definition s_moved pub g id (rv : resv) (p : nat) it s s' : Prop :=
  (r_pos rv ≤ p ≤ r_stop rv)%nat ∧
  sinv pub (g_resv id (mkResv p p (r_stop rv)) g) [] s' ∧
  ghost_ok (g_resv id (mkResv p p (r_stop rv)) g) ∧
  siter_at g (mkResv p p (r_stop rv)) it ∧ same_state s s'.

Lemma s_moved_refl pub g id rv it s :
  sinv pub g [] s → ghost_ok g → resvs g !! id = Some rv → r_first rv = r_pos rv →
  siter_at g rv it → s_moved pub g id rv (r_pos rv) it s s.
Proof.
  intros Hq Hg Hid Hfp Hit. destruct (ro_order _ (go_resvs _ Hg) _ _ Hid) as [? _].
  assert (mkResv (r_pos rv) (r_pos rv) (r_stop rv) = rv) as E by (destruct rv; simpl in *; congruence).
  unfold s_moved. rewrite E, g_resv_same by done. split; [lia|]. done.
Qed.

Lemma s_moved_trans pub g id rv p p' it it' s s1 s2 :
  s_moved pub g id rv p it s s1 →
  s_moved pub (g_resv id (mkResv p p (r_stop rv)) g) id (mkResv p p (r_stop rv)) p' it' s1 s2 →
  s_moved pub g id rv p' it' s s2.
Proof.
  unfold s_moved. simpl. rewrite g_resv_twice.
  intros (Hp & _ & _ & _ & Hw) (Hp' & Hi & Hg & Ha & Hw'). split; [lia|].
  split; [done|]. split; [done|]. split; [by destruct Ha; split|]. by eapply same_state_trans.
Qed.

(** After the next [n] values of the current block have been moved out ([next]
    takes one, [append_to_vec] all), the iterator leaves them behind. *)
Lemma wp_leave {A} pub g s s1 id rv it n fuel (k : SPMCIter → prog (spmcE T) A) Q :
  sinv pub (g_resv id (mkResv (r_first rv) (r_pos rv + n) (r_stop rv)) g) [] s1 → same_state s s1 →
  ghost_ok g → resvs g !! id = Some rv → r_first rv = r_pos rv → siter_at g rv it →
  (0 < n)%nat → (r_pos rv + n ≤ r_stop rv)%nat → (r_pos rv mod BL + n ≤ BL)%nat → (0 < fuel)%nat →
  (∀ it' s', s_moved pub g id rv (r_pos rv + n) it' s s' → wp (k it') s' Q) →
  wp (it' ← (if si_index it + Z.of_nat n =? block_length
             then nx ← act (SLoad (SNext (si_block it))); Ret (mkSIter nx 0 (si_len it - Z.of_nat n))
             else Ret (mkSIter (si_block it) (si_index it + Z.of_nat n) (si_len it - Z.of_nat n)));
      s_complete fuel (si_block it) (Z.of_nat n);;
      k it') s1 Q.
Proof.
  intros Hq1 Hw1 Hg Hid Hfp Hit Hn0 Hn Hi Hf Hk.
  destruct (ro_order _ (go_resvs _ Hg) _ _ Hid) as [Hord Hst]. pose proof (go_claimed _ Hg).
  destruct (sa_place _ _ _ Hit) as [-> ->]; [lia|]. rewrite (sa_len _ _ _ Hit).
  destruct (div_mod_BL (r_pos rv)) as [Ep Hib].
  assert (r_pos rv / BL < length (addrs g))%nat as Hb by (apply block_exists; [done|lia]).
  replace (Z.of_nat (r_stop rv - r_pos rv) - Z.of_nat n) with (Z.of_nat (r_stop rv - (r_pos rv + n))) by lia.
  apply wp_bind. eapply wp_mono; [by eapply (wp_iter_step_over pub g s1 id rv)|].
  intros it' ? [-> Hit']. apply wp_bind.
  eapply wp_mono; [by eapply (wp_complete_moved pub g s1 id rv)|]. intros ? s2 (Hq2 & Hg2 & Hw2).
  apply Hk. split; [lia|]. split; [done|]. split; [done|]. split; [done|]. by eapply same_state_trans.
Qed.

Lemma wp_s_iter_next pub g s id rv it fuel :
  sinv pub g [] s → ghost_ok g → full g → resvs g !! id = Some rv → r_first rv = r_pos rv →
  siter_at g rv it → (0 < fuel)%nat →
  wp (s_iter_next fuel it) s (λ '(y, it') s', ∃ p,
    s_moved pub g id rv p it' s s' ∧ spec_next (items_of g rv) = (y, items_of g (mkResv p p (r_stop rv))) ∧
    match y with Some _ => p = S (r_pos rv) | None => p = r_stop rv end).
Proof.
  intros Hq Hg Hfu Hid Hfp Hit Hf. pose proof (go_claimed _ Hg).
  destruct (ro_order _ (go_resvs _ Hg) _ _ Hid) as [Hord Hst].
  unfold s_iter_next. rewrite (sa_len _ _ _ Hit) at 1.
  destruct (Z.eqb_spec (Z.of_nat (r_stop rv - r_pos rv)) 0) as [E|Hne].
  - apply wp_ret. exists (r_pos rv). split; [by apply s_moved_refl|].
    rewrite !items_of_nil by (simpl; lia). split; [done|lia].
  - destruct (full_cell g (r_pos rv)) as [v Hv]; [done|lia|].
    destruct (div_mod_BL (r_pos rv)) as [Ep Hib]. pose proof BL_Z.
    destruct (sa_place _ _ _ Hit) as [Eb Ei]; [lia|].
    unfold SpmcBlock_read. apply wp_bind, wp_debug_assert; [apply Z.ltb_lt; lia|]. rewrite Eb, Ei at 1.
    eapply wp_mono.
    { apply (wp_sread pub g [] s id rv (r_pos rv / BL) (r_pos rv mod BL) v); try (done || lia).
      - by apply resvs_ok_wf, go_resvs.
      - apply block_exists; [done|lia]. }
    intros y s1 (-> & Hq1 & Hw1). change 1 with (Z.of_nat 1).
    eapply (wp_leave pub g s s1 id rv it 1 fuel (λ it', Ret (Some v, it'))); try (done || lia).
    { by rewrite Nat.add_1_r. }
    intros it' s' Hm. apply wp_ret. exists (r_pos rv + 1)%nat. split; [done|]. split; [|lia].
    rewrite (items_of_cons g rv (Some v)) by (done || lia). by rewrite Nat.add_1_r.
Qed.

Lemma wp_s_iter_drop pub g s id rv it fuel :
  sinv pub g [] s → ghost_ok g → full g → resvs g !! id = Some rv → r_first rv = r_pos rv →
  siter_at g rv it → (r_stop rv - r_pos rv < fuel)%nat →
  wp (s_iter_drop fuel it) s (λ _ s',
    sinv pub (g_forget id g) [] s' ∧ ghost_ok (g_forget id g) ∧
    same_state (set_sdropped (sdropped s ++ present (items_of g rv)) s) s').
Proof.
  intros Hq Hg Hfu Hid Hfp Hit Hf. unfold s_iter_drop.
  assert (∀ n g s rv it, (r_stop rv - r_pos rv < n)%nat → (0 < fuel)%nat →
    sinv pub g [] s → ghost_ok g → full g → resvs g !! id = Some rv → r_first rv = r_pos rv →
    siter_at g rv it →
    wp (loop n (λ it, '(v, it) ← s_iter_next fuel it;
         match v with
         | Some v => act (SDropOwned v);; Ret (inl it)
         | None => Ret (inr tt)
         end) it) s (λ _ s',
      sinv pub (g_forget id g) [] s' ∧ ghost_ok (g_forget id g) ∧
      same_state (set_sdropped (sdropped s ++ present (items_of g rv)) s) s')) as Hloop;
    [|apply Hloop; try done; lia].
  clear. intros n. induction n as [|n IH]; intros g s rv it Hn Hf Hq Hg Hfu Hid Hfp Hit; [lia|].
  apply wp_loop_unfold. apply wp_bind.
  eapply wp_mono; [by apply (wp_s_iter_next pub g s id rv it fuel)|].
  intros [y it'] s' (p & (Hp & Hi & Ho & Ha & Hw) & Hsp%spec_next_omap & Hy). set (rv' := mkResv p p _) in *.
  assert (g_forget id (g_resv id rv' g) = g_forget id g) as Eg.
  { unfold g_forget, g_resv. simpl. by rewrite delete_insert_eq. }
  destruct Hw as (Ew1 & Ew2 & Ew3 & Ew4). destruct y as [v|].
  - eapply wp_act_bind; [reflexivity|]. apply wp_ret.
    eapply wp_mono; [apply (IH (g_resv id rv' g) _ rv' it'); try done|].
    + simpl. destruct (ro_order _ (go_resvs _ Hg) _ _ Hid). destruct Hit. subst p. lia.
    + by apply sinv_words.
    + apply lookup_insert_eq.
    + by destruct Ha; split.
    + intros ? s2 (Hq2 & Hg2 & (Es1 & Es2 & Es3 & Es4)). rewrite Eg in *. simpl in *.
      split; [done|]. split; [done|]. repeat split; simpl; try congruence.
      rewrite Es4, Ew4, Hsp, <- app_assoc. done.
  - apply wp_ret. rewrite <- Eg. split; [|split].
    + eapply sinv_forget; [done|apply lookup_insert_eq|simpl; lia].
    + destruct Ho. split; [by apply resvs_ok_forget|done|done].
    + repeat split; simpl; try done. by rewrite Hsp, Ew4, app_nil_r.
Qed.

Lemma items_of_split g rv n :
  (r_pos rv + n ≤ r_stop rv)%nat →
  items_of g rv = take n (drop (r_pos rv) (cells g)) ++
    items_of g (mkResv (r_pos rv + n) (r_pos rv + n) (r_stop rv)).
Proof.
  intros Hn. unfold items_of. simpl. rewrite <- drop_drop.
  replace (r_stop rv - r_pos rv)%nat with (n + (r_stop rv - (r_pos rv + n)))%nat by lia.
  by rewrite take_take_drop.
Qed.

Lemma wp_s_append_to_vec pub g s id rv it fuel values :
  sinv pub g [] s → ghost_ok g → full g → resvs g !! id = Some rv → r_first rv = r_pos rv →
  siter_at g rv it → (r_stop rv - r_pos rv < fuel)%nat →
  wp (s_append_to_vec fuel it values) s (λ l s',
    l = (values ++ present (items_of g rv), Z.of_nat (length (present (items_of g rv)))) ∧
    sinv pub (g_forget id g) [] s' ∧ ghost_ok (g_forget id g) ∧ same_state s s').
Proof.
  intros Hq Hg Hfu Hid Hfp Hit Hf. unfold s_append_to_vec. apply wp_bind.
  eapply (wp_mono _ _ (λ '(l, it') s', l = values ++ present (items_of g rv) ∧
    s_moved pub g id rv (r_stop rv) it' s s')).
  - assert (0 < fuel)%nat as Hf0 by lia. revert Hf Hf0. generalize fuel at 1 3 as n.
    intros n. revert g s rv it values Hq Hg Hfu Hid Hfp Hit.
    induction n as [|n IH]; intros g s rv it values Hq Hg Hfu Hid Hfp Hit Hn Hf; [lia|].
    destruct (ro_order _ (go_resvs _ Hg) _ _ Hid) as [Hord Hst]. pose proof (go_claimed _ Hg).
    apply wp_loop_unfold. rewrite (sa_len _ _ _ Hit) at 1.
    destruct (Z.eqb_spec (Z.of_nat (r_stop rv - r_pos rv)) 0) as [E|Hne].
    + apply wp_ret. split; [by rewrite items_of_nil, app_nil_r by lia|].
      assert (r_stop rv = r_pos rv) as E' by lia. rewrite E' at 1. by apply s_moved_refl.
    + destruct (div_mod_BL (r_pos rv)) as [Ep Hib]. pose proof BL_Z.
      set (m := Nat.min (r_stop rv - r_pos rv) (BL - r_pos rv mod BL)).
      destruct (sa_place _ _ _ Hit) as [Eb Ei]; [lia|].
      assert (Z.min (si_len it) (block_length - si_index it) = Z.of_nat m) as ->
        by (rewrite (sa_len _ _ _ Hit), Ei; lia).
      unfold SpmcBlock_append_to_vec. apply wp_bind, wp_debug_assert; [apply Z.leb_le; lia|].
      rewrite Nat2Z.id. rewrite Eb, Ei at 1. eapply wp_mono.
      { apply (wp_move_range m pub g s id rv (r_pos rv / BL)); try (done || lia).
        - by apply resvs_ok_wf, go_resvs.
        - apply block_exists; [done|lia]. }
      intros l s1 (-> & Hq1 & Hw1).
      eapply (wp_leave pub g s s1 id rv it m fuel (λ it', Ret (inl (_, it')))); try (done || lia).
      intros it' s' Hm. apply wp_ret. pose proof Hm as (Hp & Hi & Ho & Ha & Hw).
      set (rv' := mkResv (r_pos rv + m) (r_pos rv + m) (r_stop rv)) in *.
      eapply wp_mono; [apply (IH (g_resv id rv' g) s' rv' it' _ Hi Ho Hfu); try done|].
      * apply lookup_insert_eq.
      * by destruct Ha; split.
      * simpl. lia.
      * intros [l it''] s'' [-> Hm']. split; [|by eapply s_moved_trans].
        rewrite (items_of_split g rv m) by lia. unfold present. by rewrite omap_app, app_assoc.
  - intros [l it'] s' (-> & Hp & Hi & Ho & Ha & Hw). rewrite length_app. apply wp_usub; [lia|]. apply wp_bind.
    set (rv' := mkResv (r_stop rv) (r_stop rv) (r_stop rv)) in *.
    eapply wp_mono; [eapply (wp_s_iter_drop pub _ s' id rv' it' fuel Hi Ho Hfu)|].
    + apply lookup_insert_eq.
    + done.
    + by destruct Ha; split.
    + simpl. lia.
    + intros ? s2 (Hq2 & Hg2 & Hw2). apply wp_ret. split; [f_equal; lia|].
      assert (g_forget id (g_resv id rv' g) = g_forget id g) as Eg.
      { unfold g_forget, g_resv. simpl. by rewrite delete_insert_eq. }
      rewrite Eg in *. split; [done|]. split; [done|]. rewrite items_of_nil in Hw2 by done.
      destruct Hw as (?&?&?&?), Hw2 as (?&?&?&E4). simpl in *. rewrite app_nil_r in E4.
      repeat split; congruence.
Qed.

End consumer.
