(* ===== verification/SpmcPushSpec.v ===== *)
(** * The producer of the shard queue

    [write_one] appends a value to the logical state without making it visible;
    [publish_tail] makes everything written so far visible. *)

From S2P Require Import Prelude Prog Layout Head Geometry Epochs SpmcQueue SpmcInv SpmcSteps.

Section heads.
Context {T : Type} `{BlockGeometry} `{Allocator} `{Profile}.
Implicit Types (s : smem T) (g : ghost T) (pub : nat).

Lemma sblock_head_ok pub g priv s k i h :
  sinv pub g priv s → live g k → 0 ≤ i ≤ block_length →
  head_ok page block_length (mkHead (addr g k) i h).
Proof.
  intros Hq Hk Hi. destruct (sinv_addr _ _ _ _ _ Hq Hk) as (? & ? & ?). pose proof page_pos.
  split; simpl; [unfold usize_max; lia|done|lia].
Qed.

Lemma shead_at_ok pub g priv s p h :
  sinv pub g priv s → ghost_ok g → (claimed g ≤ p ≤ length (cells g))%nat → addrs g ≠ [] →
  head_ok page block_length (head_at g p h).
Proof.
  intros Hq Hg Hp Ha. pose proof (div_mod_BL p) as [_ Hi]. pose proof BL_Z.
  eapply sblock_head_ok; [done|by apply live_unclaimed|lia].
Qed.

Lemma unpack_shead_at pub g priv s p h :
  sinv pub g priv s → ghost_ok g → (claimed g ≤ p ≤ length (cells g))%nat → addrs g ≠ [] → canon h →
  from_usize (pack (head_at g p h) codec) codec = head_at g p h.
Proof.
  intros Hq Hg Hp Ha Hc. rewrite unpack_word by (by eapply shead_at_ok).
  unfold keep_hint, head_at. simpl. fold (trim h). by rewrite trim_canon.
Qed.

(** The words while a batch is being written: [P] positions have been written,
    [pub] of them are visible in their block. *)
Record s_mid pub g s : Prop := {
  sm_inv : sinv pub g [] s;
  sm_ghost : ghost_ok g;
  sm_full : full g;
  sm_pub : (length (cells g) / BL * BL ≤ pub ≤ length (cells g))%nat;
  sm_heads :
    if decide (addrs g = []) then s_chead s = 0 ∧ tail_head s = Head_ZERO
    else tail_head s = head_at g (length (cells g)) false ∧
         length (addrs g) = S (length (cells g) / BL) ∧
         ∃ hc, canon hc ∧ s_chead s = pack (head_at g (claimed g) hc) codec ∧
           (hc = true → (claimed g / BL < length (cells g) / BL)%nat)
}.

(** The queue at rest: everything is visible. *)
Record s_rest g s : Prop := {
  sr_mid : s_mid (length (cells g)) g s;
  sr_phead : s_phead s =
    if decide (addrs g = []) then 0 else pack (head_at g (length (cells g)) false) codec
}.

Lemma canon_false : canon false.
Proof. done. Qed.

(** [g'] is [g] with values appended. *)
Definition extends (vs : list T) g g' : Prop :=
  cells g' = cells g ++ (Some <$> vs) ∧ claimed g' = claimed g ∧ resvs g' = resvs g ∧
  addrs g `prefix_of` addrs g' ∧ (vs ≠ [] → addrs g' ≠ []).

Lemma extends_nil g : extends [] g g.
Proof. unfold extends. simpl. by rewrite app_nil_r. Qed.

Lemma extends_cons v vs g g1 g2 :
  extends [v] g g1 → extends vs g1 g2 → extends (v :: vs) g g2.
Proof.
  intros (Hc & Hcl & Hr & Ha & Hn) (Hc' & Hcl' & Hr' & Ha' & Hn'). unfold extends.
  rewrite Hc', Hc, <- app_assoc. split; [done|]. split; [congruence|]. split; [congruence|].
  split; [by etrans|]. intros _ E. destruct Hn; [done|]. rewrite E in Ha'. by apply prefix_nil_inv in Ha'.
Qed.

Lemma addr_prefix g g' k :
  addrs g `prefix_of` addrs g' → (k < length (addrs g))%nat → addr g' k = addr g k.
Proof. intros [l El] Hk. unfold addr. by rewrite El, lookup_app_l. Qed.

(** The head words before and after an append are the same. *)
Lemma head_at_prefix g g' p h :
  addrs g `prefix_of` addrs g' → (p / BL < length (addrs g))%nat → head_at g' p h = head_at g p h.
Proof. intros Ha Hp. unfold head_at. by rewrite (addr_prefix g g'). Qed.

End heads.

Section producer.
Context {T : Type} `{BlockGeometry} `{Allocator} `{Profile}.
Implicit Types (s : smem T) (g : ghost T) (pub : nat).

Lemma div_position g : ghost_ok g → addrs g ≠ [] → (claimed g / BL < length (addrs g))%nat.
Proof.
  intros Hg Ha. apply live_unclaimed; [done|pose proof (go_claimed _ Hg); lia|done].
Qed.

(** The first block is installed on the first write. *)
Lemma wp_install pub g s fuel :
  s_mid pub g s → addrs g = [] → (0 < fuel)%nat →
  wp (root ← take_block fuel;
      act (SetTail (from_ptr root));;
      w ← to_usize (from_ptr root) codec;
      act (SStore SChead w)) s (λ _ s', ∃ g',
    s_mid pub g' s' ∧ extends [] g g' ∧ addrs g' ≠ [] ∧
    s_phead s' = s_phead s ∧ sdropped s' = sdropped s).
Proof.
  intros [Hq Hg Hfu Hpub Hh] Ea Hf. pose proof (go_claimed _ Hg) as Hcl. pose proof BL_pos.
  assert (cells g = []) as Ec.
  { destruct (go_room _ Hg) as [Hr|[_ ?]]; [|done]. rewrite Ea in Hr. simpl in Hr. lia. }
  rewrite Ec in *. simpl in *. assert (claimed g = 0%nat) as Ecl by lia. assert (pub = 0%nat) as -> by lia.
  apply wp_bind. eapply wp_mono; [by apply (wp_take_private 0 g)|].
  intros b s1 [Hq1 (Ep & _ & _ & Ed)].
  pose proof (sinv_link_first g b s1 Hq1 Ea Ec Ecl) as Hq2. set (g' := g_link [b] g) in *.
  assert (addrs g' = [b]) as Ea' by (unfold g'; simpl; by rewrite Ea).
  assert (ghost_ok g') as Hg' by (by apply ghost_ok_link).
  assert (from_ptr b = head_at g' 0 false) as Eh.
  { unfold from_ptr, head_at, addr. by rewrite Nat.Div0.div_0_l, Nat.Div0.mod_0_l, Ea'. }
  assert (cells g' = []) as Ec' by done. assert (claimed g' = 0%nat) as Ecl' by done.
  eapply wp_act_bind; [reflexivity|]. rewrite Eh, (to_usize_word (head_at g' 0 false)).
  2: { eapply (shead_at_ok 0 g' [] s1); [done|done|rewrite Ec', Ecl'; simpl; lia|by rewrite Ea']. }
  eapply wp_act; [by apply handle_sstore|]. exists g'. split; [|split; [|split; [|done]]].
  - split.
    + exact (sinv_words 0 g' [] s1 _ _ _ _ Hq2).
    + done.
    + done.
    + rewrite Ec'. simpl. rewrite Nat.Div0.div_0_l. lia.
    + rewrite decide_False by (by rewrite Ea'). rewrite Ec', Ecl', Ea'. simpl.
      rewrite Nat.Div0.div_0_l. split; [done|]. split; [done|].
      exists false. done.
  - unfold extends. simpl. rewrite app_nil_r. split; [done|]. split; [done|]. split; [done|].
    split; [by eexists|done].
  - by rewrite Ea'.
Qed.

(** The consumer head stays where it is. *)
Lemma s_mid_written pub pub' g g' s s' v :
  s_mid pub g s → addrs g ≠ [] → extends [v] g g' → sinv pub' g' [] s' → s_chead s' = s_chead s →
  length (addrs g') = S (length (cells g') / BL) → tail_head s' = head_at g' (length (cells g')) false →
  (length (cells g') / BL * BL ≤ pub' ≤ length (cells g'))%nat →
  s_mid pub' g' s'.
Proof.
  intros [Hq Hg Hfu Hpub Hh] Ha He Hq' Ec Hlen Ht Hpub'. pose proof He as (Hc & Hcl & Hr & Hpre & Hne).
  pose proof (go_claimed _ Hg) as HCP. pose proof BL_pos.
  destruct (div_mod_BL (length (cells g'))) as [EP HP].
  assert (length (cells g) ≤ length (cells g'))%nat as Hge by (rewrite Hc, length_app; lia).
  rewrite decide_False in Hh by done. destruct Hh as (_ & _ & hc & Hcan & Hch & Hhc). split; try done.
  - split; [|lia|left; rewrite Hlen; lia]. destruct (go_resvs _ Hg) as [Ho Hfl Hs Hd].
    by split; rewrite ?Hr, ?Hcl.
  - unfold full. rewrite Hc. apply Forall_app. split; [done|]. by repeat constructor.
  - rewrite decide_False by (by apply Hne). split; [done|]. split; [done|]. exists hc. split; [done|].
    rewrite Ec, Hch, Hcl. split; [|intros Ht'; specialize (Hhc Ht'); pose proof (Nat.Div0.div_le_mono _ _ BL Hge); lia].
    by rewrite (head_at_prefix g g') by (done || by apply div_position).
Qed.

Definition write_tail (fuel : nat) (v : T) : prog (spmcE T) unit :=
  tail ← act GetTail;
  let b := block tail in
  let i := index tail in
  debug_assert (i <? block_length);;
  SpmcBlock_write b i v;;
  act (SetTail (mkHead b (i + 1) (has_next tail)));;
  if i + 1 =? block_length then
    nx ← take_block fuel;
    act (SStore (SNext b) nx);;
    publish b block_length;;
    act (SetTail (from_ptr nx))
  else Ret tt.

(** A block that has been filled is linked to its successor, then published. *)
Lemma wp_fill pub g s k fuel :
  sinv pub g [] s → length (cells g) = (S k * BL)%nat → length (addrs g) = S k →
  (claimed g < S k * BL)%nat → (k * BL ≤ pub ≤ S k * BL)%nat → (0 < fuel)%nat →
  wp (nx ← take_block fuel;
      act (SStore (SNext (addr g k)) nx);;
      publish (addr g k) block_length;;
      act (SetTail (from_ptr nx))) s (λ _ s', ∃ b,
    sinv (S k * BL) (g_link [b] g) [] s' ∧ tail_head s' = head_at (g_link [b] g) (S k * BL) false ∧
    s_phead s' = s_phead s ∧ s_chead s' = s_chead s ∧ sdropped s' = sdropped s).
Proof.
  intros Hq Hce Hlen Hcl Hpub Hf. pose proof BL_pos. pose proof BL_Z as HBL.
  assert (live g k) as Hlive.
  { apply (live_position _ _ (k * BL + (BL - 1))%nat); [lia|lia|]. apply unclaimed_unreleased. lia. }
  apply wp_bind. eapply wp_mono; [by apply (wp_take_private pub g)|].
  intros b s1 [Hq1 (Ep1 & Ec1 & _ & Ed1)]. apply wp_bind.
  eapply wp_mono; [apply (wp_link pub g b s1 k); (done || lia)|].
  intros ? s2 [Hq2 (Ep2 & Ec2 & _ & Ed2)]. set (g' := g_link [b] g) in *.
  assert (live g' k) as Hlive' by (apply live_link; [rewrite Hlen; lia|by left]).
  assert (produced_of (S k * BL) k = BL) as Epr by (unfold produced_of; lia).
  apply wp_bind. eapply wp_mono.
  - rewrite <- HBL, <- Epr. rewrite <- (addr_link_old [b] g k) by lia.
    apply (wp_publish pub (S k * BL) g' [] s2 k Hq2 Hlive').
    + intros j Hj. unfold produced_of. destruct (decide (j < k)%nat); nia.
    + unfold produced_of. lia.
  - intros ? s3 [Hq3 (Ep3 & Ec3 & _ & Ed3)]. eapply wp_act; [reflexivity|]. exists b.
    split; [by apply sinv_words|]. split; [|repeat split; simpl; congruence]. simpl. unfold from_ptr, head_at.
    replace (BL + k * BL)%nat with (S k * BL + 0)%nat by lia.
    destruct (div_BL (S k) 0) as [-> ->]; [lia|].
    unfold g'. replace (S k) with (length (addrs g) + 0)%nat by lia. by rewrite addr_link_new.
Qed.

Lemma wp_write_tail pub g s v fuel :
  s_mid pub g s → addrs g ≠ [] → (0 < fuel)%nat →
  wp (write_tail fuel v) s (λ _ s', ∃ pub' g',
    s_mid pub' g' s' ∧ extends [v] g g' ∧ s_phead s' = s_phead s ∧ sdropped s' = sdropped s).
Proof.
  intros Hm Ha Hf. pose proof Hm as [Hq Hg Hfu Hpub Hh]. rewrite decide_False in Hh by done.
  destruct Hh as (Ht & Hlen & _). pose proof (go_claimed _ Hg). pose proof BL_Z as HBL.
  destruct (div_mod_BL (length (cells g))) as [EP HP].
  set (k := (length (cells g) / BL)%nat) in *. set (i := (length (cells g) mod BL)%nat) in *.
  assert (live g k) as Hlive by (apply live_unclaimed; [done|lia|done]).
  unfold write_tail. eapply wp_act_bind; [reflexivity|]. rewrite Ht.
  cbn [block index has_next head_at]. fold k i.
  apply wp_debug_assert; [apply Z.ltb_lt; lia|]. apply wp_bind.
  eapply wp_mono; [apply (wp_write pub g [] s k i v); (done || lia)|].
  intros ? s1 [Hq1 (Ep1 & Ec1 & _ & Ed1)]. set (g1 := g_write (Some v) g) in *.
  assert (length (cells g1) = S (length (cells g))) as Elen by (simpl; rewrite length_app; simpl; lia).
  assert (extends [v] g g1) as He1 by (unfold extends; simpl; split_and!; done).
  eapply wp_act_bind; [reflexivity|].
  destruct (Z.eqb_spec (Z.of_nat i + 1) block_length) as [Elast|Hnl].
  - eapply wp_mono; [apply (wp_fill pub g1 _ k fuel); simpl; try (done || lia)|].
    + by apply sinv_words.
    + rewrite length_app. simpl. lia.
    + intros ? s2 (b & Hq2 & Ht2 & Ep2 & Ec2 & Ed2). exists (S k * BL)%nat, (g_link [b] g1).
      assert (length (cells (g_link [b] g1)) = (S k * BL + 0)%nat) as Ecl by (simpl in *; lia).
      assert (extends [v] g (g_link [b] g1)) as He2.
      { destruct He1 as (?&?&?&?&?). unfold extends. simpl. split_and!; try done; [by eexists|].
        by destruct (addrs g). }
      split; [|simpl in *; split; [done|]; split; congruence].
      destruct (div_BL (S k) 0) as [Edv Emd]; [lia|].
      apply (s_mid_written pub (S k * BL) g _ s s2 v); try done.
      * simpl in *. congruence.
      * rewrite Ecl, Edv. simpl. rewrite length_app. simpl. lia.
      * by rewrite Ecl, Nat.add_0_r.
      * rewrite Ecl, Edv. lia.
  - apply wp_ret. exists pub, g1. split; [|simpl; split; [done|]; split; congruence].
    destruct (div_BL k (S i)) as [Edv Emd]; [lia|].
    assert (length (cells g1) = (k * BL + S i)%nat) as Ecl by lia.
    apply (s_mid_written pub pub g _ s _ v); try done.
    + exact (sinv_words pub g1 [] s1 _ _ _ _ Hq1).
    + by rewrite Ecl, Edv.
    + simpl tail_head. rewrite Ecl. rewrite <- head_at_block by lia. f_equal. lia.
    + rewrite Ecl, Edv. lia.
Qed.

Lemma wp_write_one pub g s v fuel :
  s_mid pub g s → (0 < fuel)%nat →
  wp (write_one fuel v) s (λ _ s', ∃ pub' g',
    s_mid pub' g' s' ∧ extends [v] g g' ∧ s_phead s' = s_phead s ∧ sdropped s' = sdropped s).
Proof.
  intros Hm Hf. unfold write_one. fold (write_tail fuel v). eapply wp_act_bind; [reflexivity|].
  pose proof (sm_heads _ _ _ Hm) as Hh. destruct (decide (addrs g = [])) as [Ea|Ha].
  - destruct Hh as [_ ->]. change (is_zero Head_ZERO) with true. cbv iota. apply wp_bind.
    eapply wp_mono; [by apply (wp_install pub g)|]. intros ? s1 (g1 & Hm1 & He1 & Ha1 & Ep1 & Ed1).
    eapply wp_mono; [by apply (wp_write_tail pub g1)|]. intros ? s2 (pub' & g2 & Hm2 & He2 & Ep2 & Ed2).
    exists pub', g2. split; [done|]. split; [|split; congruence].
    destruct He1 as (Hc & Hcl & Hr & Hpre & _), He2 as (Hc' & Hcl' & Hr' & Hpre' & Hn').
    unfold extends. rewrite Hc', Hc. simpl. rewrite app_nil_r.
    split_and!; try done; [congruence..|by etrans].
  - destruct Hh as [-> _]. unfold is_zero. cbn [block head_at].
    assert (0 < addr g (length (cells g) / BL)) as Hpos.
    { eapply sinv_addr; [apply Hm|]. apply live_unclaimed; [apply Hm| |done].
      pose proof (go_claimed _ (sm_ghost _ _ _ Hm)). lia. }
    rewrite (proj2 (Z.eqb_neq _ _)) by lia. apply wp_bind, wp_ret. by apply (wp_write_tail pub g).
Qed.

Lemma wp_write_all vs pub g s fuel :
  s_mid pub g s → (0 < fuel)%nat →
  wp (write_all fuel vs) s (λ _ s', ∃ pub' g',
    s_mid pub' g' s' ∧ extends vs g g' ∧ (vs = [] → pub' = pub ∧ g' = g) ∧
    s_phead s' = s_phead s ∧ sdropped s' = sdropped s).
Proof.
  revert pub g s. induction vs as [|v vs IH]; intros pub g s Hm Hf.
  - apply wp_ret. exists pub, g. split; [done|]. by split; [apply extends_nil|].
  - cbn [write_all]. apply wp_bind. eapply wp_mono; [by apply (wp_write_one pub g)|].
    intros ? s1 (pub1 & g1 & Hm1 & He1 & Ep1 & Ed1). eapply wp_mono; [by apply (IH pub1 g1)|].
    intros ? s2 (pub2 & g2 & Hm2 & He2 & _ & Ep2 & Ed2). exists pub2, g2.
    split; [done|]. split; [by eapply extends_cons|]. split; [done|]. split; congruence.
Qed.

Lemma wp_publish_tail pub g s :
  s_mid pub g s → addrs g ≠ [] →
  wp publish_tail s (λ _ s', s_rest g s' ∧ sdropped s' = sdropped s).
Proof.
  intros [Hq Hg Hfu Hpub Hh] Ha. rewrite decide_False in Hh by done. destruct Hh as (Ht & Hlen & Hc).
  pose proof (go_claimed _ Hg). destruct (div_mod_BL (length (cells g))) as [EP HP].
  assert (live g (length (cells g) / BL)) as Hlive by (apply live_unclaimed; [done|lia|done]).
  assert (0 < addr g (length (cells g) / BL)) as Hpos by (by eapply sinv_addr).
  unfold publish_tail. eapply wp_act_bind; [reflexivity|]. rewrite Ht. cbn [block index head_at].
  apply wp_debug_assert.
  { unfold is_zero. cbn [block head_at]. by rewrite (proj2 (Z.eqb_neq _ _)) by lia. }
  apply wp_bind. eapply (wp_mono _ _ (λ _ s', sinv (length (cells g)) g [] s' ∧ same_state s s')).
  - destruct (Z.eqb_spec (Z.of_nat (length (cells g) mod BL)) 0) as [E0|Hne]; cbn [negb].
    + apply wp_ret. split; [|done]. by replace (length (cells g)) with pub by lia.
    + assert (Z.of_nat (length (cells g) mod BL) =
        Z.of_nat (produced_of (length (cells g)) (length (cells g) / BL))) as ->
        by (unfold produced_of; lia).
      apply (wp_publish pub (length (cells g)) g [] s); try done.
      * intros j Hj. unfold produced_of. destruct (decide (j < length (cells g) / BL)%nat); nia.
      * unfold produced_of. lia.
  - intros ? s1 [Hq1 (Ep1 & Ec1 & Et1 & Ed1)]. rewrite (to_usize_word (head_at g _ false)).
    2: { eapply shead_at_ok; [done|done|lia|done]. }
    eapply wp_act; [by apply handle_sstore|]. split; [|done]. split.
    + split; try done; [exact (sinv_words _ g [] s1 _ _ _ _ Hq1)|lia|].
      rewrite decide_False by done. simpl. rewrite Et1, Ec1. done.
    + by rewrite decide_False.
Qed.

Lemma guard_publish_panics (p : prog (spmcE T) unit) s :
  run (p;; Panic : prog (spmcE T) unit) s =
    match run (p;; Ret tt) s with Done _ s' => Panicked s' | o => o end.
Proof. rewrite !run_bind. by destruct (run p s). Qed.

(** A batch whose iterator ends, and one whose iterator panics, leave the same
    state behind: the values yielded have been pushed. *)
Lemma run_push_batch_panics fuel vs s :
  run (s_push_batch fuel vs true) s =
    match run (s_push_batch fuel vs false) s with Done _ s' => Panicked s' | o => o end.
Proof.
  unfold s_push_batch. rewrite !(run_bind (write_all fuel vs)). destruct (run (write_all fuel vs) s); try done.
  apply guard_publish_panics.
Qed.

Lemma wp_s_push_batch vs g s fuel :
  s_rest g s → (0 < fuel)%nat →
  wp (s_push_batch fuel vs false) s (λ _ s', ∃ g',
    s_rest g' s' ∧ extends vs g g' ∧ sdropped s' = sdropped s).
Proof.
  intros [Hm Hp] Hf. unfold s_push_batch. apply wp_bind.
  eapply wp_mono; [by apply (wp_write_all vs (length (cells g)) g)|]. intros ? s1 (pub & g1 & Hm1 & He & Hnil & Ep1 & Ed1).
  apply wp_bind. destruct vs as [|v vs].
  - apply wp_ret, wp_ret. destruct Hnil as [-> ->]; [done|]. exists g.
    split; [split; [done|congruence]|]. done.
  - eapply wp_mono; [apply (wp_publish_tail pub g1 s1 Hm1); by apply He|].
    intros ? s2 [Hr Hd]. apply wp_ret. exists g1. split; [done|]. split; [done|congruence].
Qed.

Lemma wp_s_push v g s fuel :
  s_rest g s → (0 < fuel)%nat →
  wp (s_push fuel v) s (λ _ s', ∃ g', s_rest g' s' ∧ extends [v] g g' ∧ sdropped s' = sdropped s).
Proof.
  intros [Hm Hp] Hf. unfold s_push. apply wp_bind.
  eapply wp_mono; [by apply (wp_write_one (length (cells g)) g)|]. intros ? s1 (pub & g1 & Hm1 & He & Ep1 & Ed1).
  eapply wp_mono; [apply (wp_publish_tail pub g1 s1 Hm1); by apply He|].
  intros ? s2 [Hr Hd]. exists g1. split; [done|]. split; [done|congruence].
Qed.

End producer.
