(* ===== verification/SpmcPopSpec.v ===== *)
(** * The consumers of the shard queue

    From a queue at rest, [pop_batch n] claims the first [min n (available)]
    positions: the speculative claim needs no repair, a claim that crosses a
    block boundary is carried on through the linked blocks, and the validation
    of the claim succeeds. *)

From S2P Require Import Prelude Prog Layout Head Geometry Epochs SpmcQueue SpmcInv SpmcSteps SpmcPushSpec.

Section pop.
Context {T : Type} `{BlockGeometry} `{Allocator} `{Profile}.
Implicit Types (s : smem T) (g : ghost T) (pub : nat).

(** A published queue: everything written is visible. *)
Record s_open g s : Prop := {
  so_inv : sinv (length (cells g)) g [] s;
  so_ghost : ghost_ok g;
  so_addrs : addrs g ≠ [];
  so_length : length (addrs g) = S (length (cells g) / BL);
  so_phead : s_phead s = pack (head_at g (length (cells g)) false) codec
}.

Lemma s_open_chead g s w : s_open g s → s_open g (set_s_chead w s).
Proof. intros [Hq ? ? ? ?]. split; try done. by apply sinv_words. Qed.

Lemma open_live g s k :
  s_open g s → (claimed g / BL ≤ k ≤ length (cells g) / BL)%nat → live g k.
Proof.
  intros [Hq Hg Ha Hlen _] Hk. pose proof BL_pos. pose proof (go_claimed _ Hg).
  destruct (div_mod_BL (claimed g)), (div_mod_BL (length (cells g))).
  destruct (decide (k = claimed g / BL)%nat) as [->|]; [apply live_unclaimed; [done|lia|done]|].
  destruct (div_BL k 0) as [<- _]; [lia|]. apply live_unclaimed; [done|nia|done].
Qed.

Lemma wp_s_acquire_phead {A} g s (f : Head → prog (spmcE T) A) Q :
  s_open g s → wp (f (head_at g (length (cells g)) false)) s Q → wp (s_acquire_phead ≫= f) s Q.
Proof.
  intros [Hq Hg Ha Hlen Hp] Hf. unfold s_acquire_phead. apply wp_bind.
  eapply wp_act_bind; [by apply handle_sload|]. apply wp_ret.
  rewrite Hp, (unpack_shead_at (length (cells g)) g [] s); [done|done|done|pose proof (go_claimed _ Hg); lia|done..].
Qed.

Lemma open_same_block g s k :
  s_open g s → (claimed g / BL ≤ k ≤ length (cells g) / BL)%nat →
  (addr g (length (cells g) / BL) =? addr g k) = bool_decide (k = length (cells g) / BL)%nat.
Proof.
  intros Ho Hk. pose proof (Nat.Div0.div_le_mono _ _ BL (go_claimed _ (so_ghost _ _ Ho))).
  case_bool_decide as E.
  - subst. apply Z.eqb_refl.
  - apply Z.eqb_neq. intros Ea. apply E. symmetry.
    eapply sinv_inj; [apply Ho|..|done]; apply (open_live g s); (done || lia).
Qed.

Lemma open_nonzero g s k h i :
  s_open g s → (claimed g / BL ≤ k ≤ length (cells g) / BL)%nat → is_zero (mkHead (addr g k) i h) = false.
Proof.
  intros Ho Hk. unfold is_zero. cbn [block].
  pose proof (sinv_addr _ _ _ _ _ (so_inv _ _ Ho) (open_live g s k Ho Hk)).
  by rewrite (proj2 (Z.eqb_neq _ _)) by lia.
Qed.

Lemma open_to_usize {A} g s k i h (f : Z → prog (spmcE T) A) Q :
  s_open g s → (claimed g / BL ≤ k ≤ length (cells g) / BL)%nat → (0 ≤ i ≤ block_length) →
  wp (f (pack (mkHead (addr g k) i h) codec)) s Q →
  wp (to_usize (mkHead (addr g k) i h) codec ≫= f) s Q.
Proof.
  intros Ho Hk Hi Hf. rewrite to_usize_word; [done|].
  eapply sblock_head_ok; [apply Ho|by apply (open_live g s)|done].
Qed.

(** The speculative claim of a consumer that runs alone stands. *)
Lemma wp_resolve g s k i f fuel :
  s_open g s → (claimed g / BL ≤ k ≤ length (cells g) / BL)%nat → (0 < f)%nat → (i + f ≤ BL)%nat →
  (k = length (cells g) / BL → i + f ≤ length (cells g) mod BL)%nat →
  s_chead s = pack (mkHead (addr g k) (Z.of_nat (i + f)) false) codec → (0 < fuel)%nat →
  wp (resolve_speculative_claim fuel (mkHead (addr g k) (Z.of_nat i) false)
        (mkHead (addr g k) (Z.of_nat (i + f)) false)) s (λ n s', n = Z.of_nat f ∧
    ∃ h, (h = true → (k < length (cells g) / BL)%nat) ∧
      s' = set_s_chead (pack (mkHead (addr g k) (Z.of_nat (i + f)) h) codec) s).
Proof.
  intros Ho Hk Hf Hi Hlast Hc Hfuel. pose proof BL_Z. unfold resolve_speculative_claim.
  do 2 (apply wp_debug_assert; [done|]). apply wp_debug_assert; [apply Z.eqb_refl|].
  apply wp_debug_assert; [apply Z.ltb_lt; simpl; lia|]. destruct fuel as [|fuel]; [lia|].
  apply wp_loop_unfold. cbn [block index].
  replace (Z.of_nat (i + f) - Z.of_nat i) with (Z.of_nat f) by lia.
  apply (wp_s_acquire_phead g); [done|]. cbn [block index head_at]. unfold head_at.
  pose proof (Nat.Div0.div_le_mono _ _ BL (go_claimed _ (so_ghost _ _ Ho))).
  apply wp_debug_assert; [by rewrite (open_nonzero g s) by (done || lia)|].
  cbn [block index]. rewrite (open_same_block g s) by done. case_bool_decide as E; cbn [negb orb].
  - rewrite (proj2 (Z.leb_le _ _)) by lia. apply wp_bind, wp_ret, wp_ret. split; [done|].
    exists false. split; [done|]. rewrite <- Hc. by destruct s.
  - apply wp_bind. unfold try_publish_has_next. apply wp_debug_assert; [done|]. cbn [block index].
    apply (open_to_usize g); [done|done|lia|]. apply (open_to_usize g); [done|done|lia|].
    match goal with |- wp ?p s ?Q => assert (wp p s (λ _ s',
      s' = set_s_chead (pack (mkHead (addr g k) (Z.of_nat (i + f)) true) codec) s)) as Hw end.
    { destruct (Z.eqb_spec (pack (mkHead (addr g k) (Z.of_nat (i + f)) false) codec)
        (pack (mkHead (addr g k) (Z.of_nat (i + f)) true) codec)) as [Eq|]; cbn [negb].
      - apply wp_ret. rewrite <- Eq, <- Hc. by destruct s.
      - eapply wp_act_bind; [apply handle_scas_ok; [unfold srd; by rewrite Hc|reflexivity]|]. by apply wp_ret. }
    eapply wp_mono; [exact Hw|]. intros ? s' ->. apply wp_ret. split; [done|]. exists true. split; [lia|done].
Qed.

(** A claim that reaches the end of its block takes what the following blocks
    have, up to what was requested. *)
Lemma wp_finish_boundary g s k len sz fuel :
  let C := claimed g in let P := length (cells g) in
  s_open g s → (C / BL ≤ k < P / BL)%nat → (C + len = S k * BL)%nat → (len ≤ sz)%nat →
  (P / BL - k < fuel)%nat →
  wp (finish_boundary_claim fuel (addr g k) (Z.of_nat len) (Z.of_nat sz)) s (λ n s',
    n = Z.of_nat (Nat.min sz (P - C)) ∧ ∃ hc, canon hc ∧
      (hc = true → (C + Nat.min sz (P - C)) / BL < P / BL)%nat ∧
      s' = set_s_chead (pack (head_at g (C + Nat.min sz (P - C)) hc) codec) s).
Proof.
  intros C P Ho Hk Hlen Hsz Hf. pose proof BL_pos. pose proof BL_Z as HBL. destruct (div_mod_BL P) as [EP HP].
  unfold finish_boundary_claim. match goal with |- wp (loop _ ?f _) _ _ => set (body := f) end.
  assert (0 < fuel)%nat as Hf0 by lia. revert k len Hk Hlen Hsz Hf.
  assert (∀ n k len, (C / BL ≤ k < P / BL)%nat → (C + len = S k * BL)%nat → (len ≤ sz)%nat →
    (P / BL - k < n)%nat →
    wp (loop n body (addr g k, Z.of_nat len)) s (λ n s',
      n = Z.of_nat (Nat.min sz (P - C)) ∧ ∃ hc, canon hc ∧
      (hc = true → (C + Nat.min sz (P - C)) / BL < P / BL)%nat ∧
      s' = set_s_chead (pack (head_at g (C + Nat.min sz (P - C)) hc) codec) s)) as Hl; [|intros; by apply Hl].
  induction n as [|n IH]; intros k len Hk Hlen Hsz Hn; [lia|].
  apply wp_loop_unfold. unfold body at 1. cbv beta iota.
  pose proof (sinv_block _ _ _ _ _ (so_inv _ _ Ho) (open_live g s k Ho ltac:(fold C P; lia))) as Hb.
  pose proof (sinv_addr _ _ _ _ _ (so_inv _ _ Ho) (open_live g s (S k) Ho ltac:(fold C P; lia))) as Ha.
  apply wp_bind. eapply (wp_mono _ _ (λ nx s', nx = addr g (S k) ∧ s' = s)).
  { destruct fuel; [lia|]. apply wp_loop_unfold.
    eapply wp_act_bind; [apply handle_sload; unfold srd; by rewrite Hb|]. cbn [sb_next sblock_of].
    rewrite (proj2 (Z.eqb_neq _ _)) by lia. by apply wp_ret. }
  intros ? ? [-> ->]. apply (wp_s_acquire_phead g); [done|]. cbn [block index head_at]. fold P.
  assert ((addr g (P / BL) =? addr g (S k)) = bool_decide (S k = P / BL)%nat) as Esame
    by (apply (open_same_block g s); [done|fold C P; lia]).
  rewrite !Esame.
  apply wp_usub; [lia|].
  set (av := if decide (S k = P / BL)%nat then (P mod BL)%nat else BL).
  set (q := Nat.min av (sz - len)).
  assert (Z.min (if bool_decide (S k = P / BL)%nat then Z.of_nat (P mod BL) else block_length)
    (Z.of_nat sz - Z.of_nat len) = Z.of_nat q) as ->.
  { unfold q, av. case_bool_decide; [rewrite decide_True by done|rewrite decide_False by done]; lia. }
  replace (Z.of_nat len + Z.of_nat q) with (Z.of_nat (len + q)) by lia.
  assert (S k ≠ P / BL → S (S k) * BL ≤ P)%nat as Hmore.
  { intros. assert (S (S k) * BL ≤ P / BL * BL)%nat by (apply Nat.mul_le_mono_r; lia). lia. }
  destruct (Z.ltb_spec (Z.of_nat q) block_length) as [Hq|Hq].
  - apply (open_to_usize g); [done|fold C P; lia|lia|].
    eapply wp_act_bind; [by apply handle_sstore|]. apply wp_ret.
    assert (len + q = Nat.min sz (P - C))%nat as En.
    { unfold q, av in *. destruct (decide (S k = P / BL)%nat) as [e|]; [rewrite <- e in EP; lia|]. specialize (Hmore ltac:(done)). lia. }
    split; [lia|]. rewrite <- En. rewrite pack_trim, head_at_block by lia.
    replace (S k * BL + q)%nat with (C + (len + q))%nat by lia.
    eexists. split; [apply canon_trim|]. split; [|reflexivity]. intros Ht%trim_true.
    replace (C + (len + q))%nat with (S k * BL + q)%nat by lia. destruct (div_BL (S k) q) as [-> _]; [lia|].
    case_bool_decide; [done|]. lia.
  - apply wp_ret. unfold q, av in *. destruct (decide (S k = P / BL)%nat) as [E|E]; [lia|].
    apply IH; lia.
Qed.

(** Everything claimed has been published. *)
Lemma wp_validate g s fuel p n :
  s_open g s → (claimed g ≤ p)%nat → (p + n ≤ length (cells g))%nat → (n + 1 < fuel)%nat →
  wp (validate_claim fuel (addr g (p / BL)) (Z.of_nat (p mod BL)) (Z.of_nat n)) s (λ _ s', s' = s).
Proof.
  intros Ho Hp Hn Hf. unfold validate_claim. match goal with |- wp (loop _ ?f _) _ _ => set (body := f) end.
  assert (∀ m p n, (claimed g ≤ p)%nat → (p + n ≤ length (cells g))%nat → (n + 1 < m)%nat →
    wp (loop m body (addr g (p / BL), Z.of_nat (p mod BL), Z.of_nat n)) s (λ _ s', s' = s)) as Hl;
    [|by apply Hl].
  clear p n Hp Hn Hf. pose proof BL_Z as HBL. pose proof BL_pos.
  induction m as [|m IH]; intros p n Hp Hn Hm; [lia|]. apply wp_loop_unfold. unfold body at 1. cbv beta iota.
  destruct (Z.eqb_spec (Z.of_nat n) 0) as [E0|Hne]; [by apply wp_ret|].
  destruct (div_mod_BL p) as [Ep Hi]. set (k := (p / BL)%nat) in *. set (i := (p mod BL)%nat) in *.
  set (q := Nat.min n (BL - i)).
  assert (Z.min (Z.of_nat n) (block_length - Z.of_nat i) = Z.of_nat q) as -> by lia.
  assert (k ≤ length (cells g) / BL)%nat as Hk by (apply Nat.Div0.div_le_mono; lia).
  assert (claimed g / BL ≤ k)%nat as Hk' by (by apply Nat.Div0.div_le_mono).
  pose proof (sinv_block _ _ _ _ _ (so_inv _ _ Ho) (open_live g s k Ho ltac:(lia))) as Hb.
  unfold acquire_produced. eapply wp_act_bind; [apply handle_sload; unfold srd; by rewrite Hb|].
  cbn [produced sblock_of]. unfold always_assert.
  rewrite (proj2 (Z.leb_le _ _)) by (unfold produced_of; lia).
  apply wp_bind, wp_ret. replace (Z.of_nat n - Z.of_nat q) with (Z.of_nat (n - q)) by lia.
  destruct (Z.eqb_spec (Z.of_nat (n - q)) 0) as [E1|Hne1]; cbn [negb].
  - apply wp_ret. rewrite E1. destruct m as [|m]; [lia|]. apply wp_loop_unfold. unfold body at 1. cbv beta iota.
    by apply wp_ret.
  - eapply wp_act_bind; [apply handle_sload; unfold srd; by rewrite Hb|]. cbn [sb_next sblock_of].
    assert ((p + q = S k * BL + 0)%nat) as Eq by lia. destruct (div_BL (S k) 0) as [Ed Em]; [lia|].
    assert (S k ≤ length (cells g) / BL)%nat.
    { rewrite <- Ed, <- Eq. apply Nat.Div0.div_le_mono. lia. }
    apply wp_debug_assert.
    { pose proof (sinv_addr _ _ _ _ _ (so_inv _ _ Ho) (open_live g s (S k) Ho ltac:(lia))).
      by rewrite (proj2 (Z.eqb_neq _ _)) by lia. }
    apply wp_ret. pose proof (IH (p + q)%nat (n - q)%nat) as IH'. rewrite Eq, Ed, Em in IH'. apply IH'; lia.
Qed.

(** ** [pop_batch] *)

Lemma s_rest_open g s : s_rest g s → addrs g ≠ [] → s_open g s.
Proof.
  intros [[Hq Hg _ _ Hh] Hp] Ha. rewrite decide_False in Hh by done. rewrite decide_False in Hp by done. by split; try apply Hh.
Qed.

Lemma ghost_ok_claim id n g :
  ghost_ok g → resvs g !! id = None → (claimed g + n ≤ length (cells g))%nat → ghost_ok (g_claim id n g).
Proof. intros [? ? ?] Hid Hn. split; [by apply resvs_ok_claim|done|done]. Qed.

(** The state after a claim of [n] positions. *)
Lemma s_rest_claim g s id n hc :
  s_rest g s → addrs g ≠ [] → resvs g !! id = None → (claimed g + n ≤ length (cells g))%nat → canon hc →
  (hc = true → (claimed g + n) / BL < length (cells g) / BL)%nat →
  s_rest (g_claim id n g) (set_s_chead (pack (head_at g (claimed g + n) hc) codec) s).
Proof.
  intros [[Hq Hg Hfu Hpub Hh] Hp] Ha Hid Hn Hcan Hhc. rewrite decide_False in Hh by done. rewrite decide_False in Hp by done.
  destruct Hh as (Ht & Hlen & _). split; [split|].
  - apply sinv_words. by apply sinv_claim.
  - by apply ghost_ok_claim.
  - done.
  - done.
  - rewrite decide_False by done. split; [done|]. split; [done|]. by exists hc.
  - by rewrite decide_False by done.
Qed.

Lemma s_rest_claim_none g s id : s_rest g s → resvs g !! id = None → s_rest (g_claim id 0 g) s.
Proof.
  intros [[Hq Hg Hfu Hpub Hh] Hp] Hid. pose proof (go_claimed _ Hg). split; [split|]; try done.
  - by apply sinv_claim.
  - apply ghost_ok_claim; [done|done|lia].
  - simpl. by rewrite Nat.add_0_r.
Qed.

(** What a consumer sees: exact in the producer's block, the rest of the block
    otherwise. *)
Lemma wp_s_available g s hc :
  let C := claimed g in let P := length (cells g) in
  s_open g s → (hc = true → (C / BL < P / BL)%nat) →
  wp (s_available (head_at g C hc)) s (λ o s', s' = s ∧
    o = Some (Z.of_nat (if decide (C / BL = P / BL)%nat then P - C else BL - C mod BL)%nat)).
Proof.
  intros C P Ho Hhc. pose proof (go_claimed _ (so_ghost _ _ Ho)) as HCP. fold C P in HCP. pose proof BL_Z.
  destruct (div_mod_BL C) as [EC HC], (div_mod_BL P) as [EP HP].
  pose proof (Nat.Div0.div_le_mono _ _ BL HCP) as Hdiv.
  unfold s_available. destruct hc.
  - cbn [has_next head_at index]. apply wp_ret. specialize (Hhc eq_refl). split; [done|].
    rewrite decide_False by lia. f_equal. lia.
  - cbn [has_next head_at]. apply (wp_s_acquire_phead g); [done|]. fold P. unfold head_at at 1.
    rewrite (open_nonzero g s) by (done || (fold C P; lia)). cbn [block index head_at].
    assert ((addr g (P / BL) =? addr g (C / BL)) = bool_decide (C / BL = P / BL)%nat) as ->
      by (apply (open_same_block g s); [done|fold C P; lia]).
    case_bool_decide as E; apply wp_ret; split; try done.
    + rewrite decide_True by done. f_equal. unfold saturating_sub. rewrite E in *. lia.
    + rewrite decide_False by done. f_equal. lia.
Qed.

(** The claim is completed over the blocks it spans. *)
Lemma wp_claim_rest g s sz f hc fuel :
  let C := claimed g in let P := length (cells g) in let n := Nat.min sz (P - C) in
  s_open g s → (0 < f)%nat →
  f = Nat.min (if decide (C / BL = P / BL)%nat then P - C else BL - C mod BL)%nat sz →
  (hc = true → (C / BL < P / BL)%nat) →
  s_chead s = pack (mkHead (addr g (C / BL)) (Z.of_nat (C mod BL + f)) hc) codec → (P < fuel)%nat →
  wp (if Z.of_nat (C mod BL) + Z.of_nat f =? block_length
      then finish_boundary_claim fuel (addr g (C / BL)) (Z.of_nat f) (Z.of_nat sz)
      else Ret (Z.of_nat f)) s (λ len s', len = Z.of_nat n ∧ ∃ hc, canon hc ∧
    (hc = true → (C + n) / BL < P / BL)%nat ∧
    s' = set_s_chead (pack (head_at g (C + n) hc) codec) s).
Proof.
  intros C P n Ho Hf0 Ef Hhc Hch Hfuel. pose proof (go_claimed _ (so_ghost _ _ Ho)) as HCP. fold C P in HCP.
  pose proof BL_Z. destruct (div_mod_BL C) as [EC HC], (div_mod_BL P) as [EP HP].
  pose proof (Nat.Div0.div_le_mono _ _ BL HCP) as Hdiv.
  assert (P / BL ≤ P)%nat by (apply Nat.Div0.div_le_upper_bound; nia).
  assert (C / BL ≠ P / BL → S (C / BL) * BL ≤ P)%nat as Hmore.
  { intros. assert (S (C / BL) * BL ≤ P / BL * BL)%nat by (apply Nat.mul_le_mono_r; lia). lia. }
  destruct (Z.eqb_spec (Z.of_nat (C mod BL) + Z.of_nat f) block_length) as [E|Hne].
  - destruct (decide (C / BL = P / BL)%nat) as [Ek|Hk]; [rewrite Ek in *; lia|].
    apply (wp_finish_boundary g s (C / BL) f sz fuel Ho); fold C P; lia.
  - apply wp_ret.
    assert (f = n) as ->.
    { unfold n. destruct (decide (C / BL = P / BL)%nat); [lia|]. specialize (Hmore ltac:(done)). lia. }
    split; [done|]. exists (trim hc). split; [apply canon_trim|].
    assert (C mod BL + n < BL)%nat as Hin.
    { rewrite Ef in *. destruct (decide (C / BL = P / BL)%nat) as [Ek|Hk]; [rewrite Ek in *|]; lia. }
    replace (C + n)%nat with (C / BL * BL + (C mod BL + n))%nat by lia.
    destruct (div_BL (C / BL) (C mod BL + n)) as [Ed _]; [done|]. rewrite Ed.
    split; [intros Ht%trim_true; by apply Hhc|].
    rewrite <- head_at_block, <- pack_trim, <- Hch by done. by destruct s.
Qed.

Lemma wp_s_pop_batch g s id sz fuel :
  let n := Nat.min sz (length (cells g) - claimed g) in
  s_rest g s → resvs g !! id = None → (length (cells g) + 1 < fuel)%nat →
  wp (s_pop_batch fuel (Z.of_nat sz)) s (λ it s',
    s_rest (g_claim id n g) s' ∧ siter_at g (mkResv (claimed g) (claimed g) (claimed g + n)) it ∧
    sdropped s' = sdropped s).
Proof.
  intros n Hr Hid Hfuel. pose proof (sr_mid _ _ Hr) as [Hq Hg Hfu Hpub Hh].
  pose proof (go_claimed _ Hg) as HCP. set (C := claimed g) in *. set (P := length (cells g)) in *.
  assert (n = 0%nat → s_rest (g_claim id n g) s ∧ siter_at g (mkResv C C (C + n)) SPMCIter_empty ∧
    sdropped s = sdropped s) as Hnone.
  { intros ->. split; [by apply s_rest_claim_none|]. split; [|done]. split; simpl; [lia|].
    by rewrite Nat.add_0_r, Nat.sub_diag. }
  unfold s_pop_batch. destruct (Z.eqb_spec (Z.of_nat sz) 0) as [E0|Hsz].
  { apply wp_ret, Hnone. lia. }
  destruct (decide (addrs g = [])) as [Ea|Ha].
  { destruct Hh as [Hc _]. apply wp_bind. unfold s_acquire_chead.
    eapply wp_act_bind; [apply handle_sload; reflexivity|]. apply wp_ret. rewrite Hc.
    assert (from_usize 0 codec = Head_ZERO) as ->.
    { unfold from_usize. rewrite !Z.land_0_l. simpl. by rewrite andb_false_r. }
    destruct fuel; [lia|]. apply wp_loop_unfold. apply wp_ret, Hnone.
    destruct (go_room _ Hg) as [Hro|[_ Hro]]; [rewrite Ea in Hro; simpl in Hro; lia|].
    unfold n, P. rewrite Hro. simpl. lia. }
  destruct Hh as (Ht & Hlen & hc & Hcan & Hch & Hhc). pose proof (s_rest_open g s Hr Ha) as Ho.
  pose proof BL_Z. destruct (div_mod_BL C) as [EC HC], (div_mod_BL P) as [EP HP].
  pose proof (Nat.Div0.div_le_mono _ _ BL HCP) as Hdiv. fold C P in Hhc.
  apply wp_bind. unfold s_acquire_chead at 1. eapply wp_act_bind; [apply handle_sload; reflexivity|].
  apply wp_ret. rewrite Hch, (unpack_shead_at P g [] s); [|done|done|fold C P; lia|done|done].
  destruct fuel as [|fuel']; [lia|]. set (fuel := S fuel') in *. unfold fuel at 1. apply wp_loop_unfold. unfold head_at at 1.
  rewrite (open_nonzero g s) by (done || (fold C P; lia)). cbn [index head_at].
  rewrite (proj2 (Z.eqb_neq _ _)) by lia. apply wp_bind.
  eapply wp_mono; [by apply (wp_s_available g s hc)|]. intros ? ? [-> ->]. fold C P.
  set (av := if decide _ then _ else _). set (f := Nat.min av sz).
  replace (Z.min (Z.of_nat av) (Z.of_nat sz)) with (Z.of_nat f) by lia.
  assert (f = 0 → n = 0)%nat as Hf0 by (unfold f, av, n; destruct (decide _); lia).
  destruct (Z.eqb_spec (Z.of_nat f) 0) as [E0|Hfn]; [apply wp_ret, Hnone; lia|].
  cbn [block has_next]. replace (Z.of_nat (C mod BL) + Z.of_nat f) with (Z.of_nat (C mod BL + f)) by lia.
  assert (C mod BL + f ≤ BL)%nat as HfB.
  { unfold f, av. destruct (decide _) as [Ek|]; [rewrite Ek in *|]; lia. }
  assert (C / BL = P / BL → C mod BL + f ≤ P mod BL)%nat as Hsame.
  { intros Ek. unfold f, av. rewrite decide_True by done. rewrite Ek in *. lia. }
  unfold head_at at 1. apply (open_to_usize g); [done|fold C P; lia|lia|].
  apply (open_to_usize g); [done|fold C P; lia|lia|].
  eapply wp_act_bind; [apply handle_scas_ok; [unfold srd; by rewrite Hch|reflexivity]|].
  set (s1 := set_s_chead _ s). assert (s_open g s1) as Ho1 by (by apply s_open_chead).
  apply wp_bind. eapply (wp_mono _ _ (λ m s', m = Z.of_nat f ∧ ∃ h, (h = true → (C / BL < P / BL)%nat) ∧
    s' = set_s_chead (pack (mkHead (addr g (C / BL)) (Z.of_nat (C mod BL + f)) h) codec) s)).
  { destruct hc.
    - apply wp_ret. split; [done|]. by exists true.
    - eapply wp_mono; [apply (wp_resolve g s1 (C / BL) (C mod BL) f fuel Ho1); try done; fold C P; lia|].
      intros m s' (-> & h & Hh' & ->). split; [done|]. by exists h. }
  intros m s2 (-> & h & Hh2 & ->). set (s2 := set_s_chead _ s).
  assert (s_open g s2) as Ho2 by (by apply s_open_chead).
  rewrite (proj2 (Z.eqb_neq _ _)) by lia. apply wp_bind. cbn [index block].
  eapply wp_mono; [apply (wp_claim_rest g s2 sz f h fuel Ho2); fold C P; (done || lia)|].
  fold C P n. intros len s3 (-> & hc' & Hcan' & Hhc' & ->). set (s3 := set_s_chead _ s2).
  assert (s_open g s3) as Ho3 by (by apply s_open_chead).
  apply wp_bind. eapply wp_mono; [apply (wp_validate g s3 fuel C n Ho3); fold P; lia|].
  intros ? ? ->. apply wp_ret. split; [|split; [|done]].
  { apply (s_rest_claim g s id n hc' Hr Ha Hid); [fold C P; lia|done|done]. }
  split; simpl; [done|]. lia.
Qed.

End pop.
