(* ===== verification/SpmcDropSpec.v ===== *)
(** * Dropping the shard queue

    [Drop for SPMC] destroys exactly the values that were published and not yet
    popped, in order, and frees every block, the cached ones included. *)

From S2P Require Import Prelude Prog Layout Head Geometry Epochs SpmcQueue SpmcInv SpmcSteps SpmcPushSpec SpmcPopSpec.

Lemma present_Some {T} (l : list T) : present (Some <$> l) = l.
Proof. induction l as [|v l IH]; [done|]. unfold present in *. simpl. f_equal. exact IH. Qed.

Section drop.
Context {T : Type} `{BlockGeometry} `{Allocator} `{Profile}.
Implicit Types (s : smem T) (g : ghost T) (pub : nat).

Lemma full_values g : full g → cells g = Some <$> present (cells g).
Proof.
  unfold full. generalize (cells g). induction 1 as [|x l [v ->] _ IH]; [done|].
  unfold present in *. simpl. by f_equal.
Qed.

Lemma take_slot_some s b blk i v :
  sblocks s !! b = Some blk → payload blk !! i = Some (Some v) →
  take_slot b (Z.of_nat i) s =
    Some (v, set_sblocks (<[b := set_payload (<[i := None]> (payload blk)) blk]> (sblocks s)) s).
Proof.
  intros Hb Hi. unfold take_slot. rewrite Hb. cbn [mbind option_bind]. unfold payload_at.
  rewrite (proj2 (Z.leb_le _ _)) by lia. rewrite Nat2Z.id, Hi. done.
Qed.

(** Destroying the values of the slots [[i, i + length vs)]. *)
Lemma wp_drop_slots vs s b blk i :
  sblocks s !! b = Some blk →
  (∀ j v, vs !! j = Some v → payload blk !! (i + j)%nat = Some (Some v)) →
  wp (for_range (length vs) (Z.of_nat i) (λ index, act (SDropSlot b index))) s (λ _ s', ∃ pl,
    s' = set_sdropped (sdropped s ++ vs) (set_sblocks (<[b := set_payload pl blk]> (sblocks s)) s)).
Proof.
  revert s blk i. induction vs as [|v vs IH]; intros s blk i Hb Hv.
  - apply wp_ret. exists (payload blk). simpl. rewrite app_nil_r, insert_id; [by destruct s|].
    by destruct blk.
  - cbn [length for_range]. assert (payload blk !! i = Some (Some v)) as Hi
      by (specialize (Hv 0%nat v eq_refl); by rewrite Nat.add_0_r in Hv).
    eapply wp_act_bind.
    { unfold handle, spmc_handler. rewrite (take_slot_some s b blk i v Hb Hi). reflexivity. }
    replace (Z.of_nat i + 1) with (Z.of_nat (S i)) by lia.
    eapply wp_mono; [eapply (IH _ _ (S i)); [apply lookup_insert_eq|]|].
    + intros j w Hj. simpl. rewrite list_lookup_insert_ne by lia.
      rewrite <- Nat.add_succ_r. by apply Hv.
    + intros ? s' (pl & ->). exists pl. simpl. by rewrite insert_insert_eq, <- app_assoc.
Qed.

(** The memory without block [b], [vs] having been destroyed. *)
Definition without (b : Z) (vs : list T) s : smem T :=
  set_sdropped (sdropped s ++ vs)
    (set_sallocs (delete b (sallocs s)) (set_sblocks (delete b (sblocks s)) s)).

Lemma wp_SpmcBlock_free s b blk i vs :
  sblocks s !! b = Some blk → sb_run blk = 0 → sallocs s !! b = Some (mkLayout page page) →
  produced blk = Z.of_nat (i + length vs) → (i + length vs ≤ BL)%nat →
  (∀ j v, vs !! j = Some v → payload blk !! (i + j)%nat = Some (Some v)) →
  wp (SpmcBlock_free b (Z.of_nat i)) s (λ _ s', s' = without b vs s).
Proof.
  intros Hb Hr Hal Hp Hle Hv. pose proof BL_Z. unfold SpmcBlock_free.
  eapply wp_act_bind; [apply handle_sload; unfold srd; by rewrite Hb|]. rewrite Hp.
  apply wp_debug_assert; [apply Z.leb_le; lia|]. apply wp_debug_assert; [apply Z.leb_le; lia|].
  replace (Z.to_nat (Z.of_nat (i + length vs) - Z.of_nat i)) with (length vs) by lia.
  apply wp_bind. eapply wp_mono; [by apply (wp_drop_slots vs s b blk i)|]. intros ? s1 (pl & ->).
  unfold spmc_deallocate. eapply wp_act_bind.
  { unfold handle, spmc_handler. simpl. rewrite lookup_insert_eq. reflexivity. }
  eapply wp_act_bind.
  { unfold handle, spmc_handler. simpl. rewrite lookup_insert_eq. reflexivity. }
  simpl sb_run. rewrite Hr. eapply wp_act.
  { unfold handle, spmc_handler. simpl. rewrite Hal. simpl.
    rewrite bool_decide_true by done. rewrite bool_decide_true by apply lookup_delete_eq. reflexivity. }
  unfold without. simpl. by rewrite delete_insert_eq.
Qed.

Lemma sstore_retire fixed cache s b blk vs :
  sstore fixed [] cache s → fixed !! b = Some blk →
  sstore (delete b fixed) [] cache (without b vs s).
Proof.
  intros [Hlo Hf Hnd Hdj Hdom Hp Hc Hh Hal Had Hr] Hb. simpl in *.
  assert (b ∉ cache) as Hn by (intros Hin; rewrite Hdj in Hb; done).
  split; simpl; try done.
  - by apply delete_mono.
  - intros b' Hin. apply lookup_delete_None. right. by apply Hdj.
  - intros b' [x [Hne Hx]%lookup_delete_Some]. destruct (Hdom b') as [?|?]; [eauto| |by right].
    left. by rewrite lookup_delete_ne.
  - intros b' Hin. by apply elem_of_nil in Hin.
  - intros i b' Hi. rewrite lookup_delete_ne; [by apply Hc|]. intros ->. apply Hn.
    by eapply list_elem_of_lookup_2.
  - by rewrite Hal, fmap_delete.
  - intros b' [x [Hne Hx]%lookup_delete_Some]. apply Had. eauto.
  - intros b' x [Hne Hx]%lookup_delete_Some. by eapply Hr.
Qed.

(** The attached blocks, from the consumer's position on. *)
Lemma wp_free_attached_from g s k i fuel :
  let P := length (cells g) in
  sinv P (g_freed (k * BL + i) g) [] s → full g → (i < BL)%nat → (k ≤ length (addrs g))%nat →
  (P ≤ length (addrs g) * BL)%nat → (k < length (addrs g) → k * BL + i ≤ P)%nat →
  (∀ j, (j < length (addrs g))%nat → (j * BL ≤ P)%nat) →
  (length (addrs g) - k < fuel)%nat → (k = length (addrs g) → i = 0%nat) →
  wp (free_attached fuel (addr g k) (Z.of_nat i)) s (λ _ s',
    sinv P (g_freed (length (addrs g) * BL) g) [] s' ∧
    sdropped s' = sdropped s ++ present (drop (k * BL + i) (cells g)) ∧ sblocks s' ⊆ sblocks s).
Proof.
  intros P Hq Hfu Hi Hk Hroom Hpos Hblk Hf Hend. revert k i s Hq Hi Hk Hpos Hf Hend. unfold free_attached.
  induction fuel as [|fuel IH]; intros k i s Hq Hi Hk Hpos Hf Hend; [lia|]. apply wp_loop_unfold. cbv beta iota.
  destruct (decide (k = length (addrs g))) as [Ek|Hne].
  - assert (addr g k = 0) as -> by (unfold addr; by rewrite lookup_ge_None_2 by lia).
    specialize (Hend Ek). subst. apply wp_ret. rewrite Nat.add_0_r in *. split; [done|].
    rewrite drop_ge by done. simpl. by rewrite app_nil_r.
  - set (g0 := g_freed (k * BL + i) g) in *. pose proof BL_pos.
    assert (live g0 k) as Hlive by (apply live_freed; [done|lia]).
    pose proof (sinv_block _ _ _ _ _ Hq Hlive) as Hb.
    pose proof (proj1 (sinv_addr _ _ _ _ _ Hq Hlive)) as Hp0.
    change (addr g0 k) with (addr g k) in *. rewrite (proj2 (Z.eqb_neq _ 0)) by lia.
    eapply wp_act_bind; [apply handle_sload; unfold srd; by rewrite Hb|].
    set (vs := present (take (BL - i) (drop (k * BL + i) (cells g)))).
    assert (vs = take (BL - i) (drop (k * BL + i) (present (cells g)))) as Evs.
    { unfold vs. rewrite (full_values g Hfu) at 1. by rewrite <- fmap_drop, <- fmap_take, present_Some. }
    assert (length (present (cells g)) = P) as EP.
    { unfold P. rewrite (full_values g Hfu) at 2. by rewrite length_fmap. }
    assert (length vs = Nat.min (BL - i) (P - (k * BL + i))) as Elen
      by (rewrite Evs, length_take, length_drop; lia).
    destruct Hq as (fixed & ca & Hm & Hs). destruct (em_block _ _ _ Hm k Hlive) as (x & Hx & ->).
    apply wp_bind. eapply wp_mono.
    { apply (wp_SpmcBlock_free s (addr g k) _ i vs Hb).
      - done.
      - by rewrite (ss_allocs _ _ _ _ Hs), lookup_fmap, Hb.
      - simpl. unfold produced_of. lia.
      - lia.
      - intros j v Hj. pose proof (lookup_lt_Some _ _ _ Hj). simpl.
        rewrite list_lookup_fmap, lookup_seq_lt by lia. simpl. f_equal. unfold cell_of.
        rewrite Evs in Hj. apply lookup_take_Some in Hj as [Hj _]. rewrite lookup_drop in Hj. simpl.
        rewrite (full_values g Hfu), list_lookup_fmap, Nat.add_assoc, Hj. simpl.
        rewrite decide_True; [done|]. apply unread_freed. lia. }
    intros ? s1 ->. apply wp_ret. cbn [sb_next sblock_of]. change (addr g0 (S k)) with (addr g (S k)).
    eapply wp_mono; [apply (IH (S k) 0%nat); try lia|].
    + exists (delete (addr g0 k) fixed), ca. split; [|by eapply sstore_retire].
      eapply epoch_map_remove; [exact Hm|apply sframe_epoch|done|].
      * split; [done|]. split; [|done]. intros p Hp. unfold g0. rewrite !released_freed. split; [lia|].
        apply cell_of_unread; [done|]. rewrite !unread_freed. lia.
      * intros [_ Hc]. replace (S k * BL + 0)%nat with (k * BL + BL)%nat in Hc by lia.
        rewrite consumed_freed in Hc; lia.
    + intros Hk'. rewrite Nat.add_0_r. by apply Hblk.
    + intros ? s2 (Hq2 & Hd2 & Hsub). split; [done|].
      split; [|etrans; [exact Hsub|apply delete_subseteq]]. rewrite Hd2. simpl. rewrite <- app_assoc. f_equal.
      unfold vs, present. rewrite <- omap_app. f_equal.
      rewrite <- (take_drop (BL - i) (drop (k * BL + i) (cells g))) at 2. f_equal.
      rewrite drop_drop. f_equal. lia.
Qed.

(** The cached blocks hold nothing. *)
Lemma wp_free_cached cache s fuel :
  NoDup cache → (∀ b, is_Some (sblocks s !! b) → b ∈ cache) →
  (∀ i b, cache !! i = Some b → sblocks s !! b = Some (sfresh (default 0 (cache !! S i)))) →
  sallocs s = (λ _, mkLayout page page) <$> sblocks s → 0 ∉ cache → (length cache < fuel)%nat →
  wp (free_attached fuel (default 0 (cache !! 0%nat)) 0) s (λ _ s',
    sblocks s' = ∅ ∧ sallocs s' = ∅ ∧ sdropped s' = sdropped s).
Proof.
  unfold free_attached. revert s fuel. induction cache as [|c cache IH]; intros s fuel Hnd Hdom Hc Hal Hz Hf;
    (destruct fuel as [|fuel]; [simpl in Hf; lia|]); apply wp_loop_unfold; cbv beta iota.
  - apply wp_ret. assert (sblocks s = ∅) as E.
    { apply map_empty. intros b. destruct (sblocks s !! b) eqn:E; [|done]. set_solver. }
    rewrite Hal, E, fmap_empty. done.
  - change (default 0 ((c :: cache) !! 0%nat)) with c. pose proof (Hc 0%nat c eq_refl) as Hb.
    rewrite (proj2 (Z.eqb_neq _ 0)) by set_solver.
    eapply wp_act_bind; [apply handle_sload; unfold srd; by rewrite Hb|].
    apply wp_bind. eapply wp_mono.
    { apply (wp_SpmcBlock_free s c _ 0 [] Hb); try done; [by rewrite Hal, lookup_fmap, Hb|simpl; lia]. }
    apply NoDup_cons in Hnd as [Hn Hnd].
    intros ? s1 ->. apply wp_ret. cbn [sb_next sfresh]. change ((c :: cache) !! 1%nat) with (cache !! 0%nat).
    eapply wp_mono; [apply IH; simpl in *|].
    + done.
    + intros b [x [Hne Hx]%lookup_delete_Some]. destruct (elem_of_cons cache b c) as [Hin _].
      destruct Hin as [->|]; [apply Hdom; eauto|done|done].
    + intros i b Hi. rewrite lookup_delete_ne; [by apply (Hc (S i))|]. intros ->. apply Hn.
      by eapply list_elem_of_lookup_2.
    + by rewrite Hal, fmap_delete.
    + set_solver.
    + lia.
    + intros ? s2 (Hb2 & Ha2 & Hd2). split; [done|]. split; [done|]. rewrite Hd2. simpl. by rewrite app_nil_r.
Qed.

(** Nothing is left: no block and no allocation. *)
Definition sheap_empty s : Prop := sblocks s = ∅ ∧ sallocs s = ∅.

Lemma cache_size fixed priv cache s : sstore fixed priv cache s → (length cache ≤ size (sblocks s))%nat.
Proof.
  intros Hs. rewrite <- size_dom, <- (size_list_to_set (C := gset Z) cache).
  - apply subseteq_size. intros b [i Hi]%elem_of_list_to_set%list_elem_of_lookup.
    apply elem_of_dom. rewrite (ss_cache _ _ _ _ Hs i b Hi). eauto.
  - pose proof (ss_nodup _ _ _ _ Hs) as Hn. by apply NoDup_app in Hn as (_ & _ & ?).
Qed.

Lemma sstore_cached fixed cache s b : sstore fixed [] cache s → b ∈ cache → 0 < b.
Proof.
  intros Hs [i Hi]%list_elem_of_lookup. pose proof (ss_cache _ _ _ _ Hs i b Hi).
  eapply ss_addr; [done|eauto].
Qed.

Lemma freed_all_empty pub g s :
  sinv pub (g_freed (length (addrs g) * BL) g) [] s → ∃ cache, sstore ∅ [] cache s.
Proof.
  intros (fixed & cache & Hq & Hs). exists cache. assert (fixed = ∅) as ->; [|done].
  apply map_empty. intros b. destruct (fixed !! b) eqn:E; [|done].
  destruct (em_dom _ _ _ Hq b ltac:(eauto)) as (k & [Hk1 Hk2] & _). simpl in Hk1. exfalso.
  rewrite (consumed_of_ext (g_freed (k * BL + BL) g)) in Hk2.
  - rewrite consumed_freed in Hk2; lia.
  - intros p Hp. rewrite !released_freed. nia.
Qed.

Lemma wp_SPMC_drop g s fuel :
  s_rest g s → resvs g = ∅ → (length (addrs g) < fuel)%nat →
  (size (sblocks s) < fuel)%nat →
  wp (SPMC_drop fuel) s (λ _ s',
    sheap_empty s' ∧ sdropped s' = sdropped s ++ present (drop (claimed g) (cells g))).
Proof.
  intros [[Hq Hg Hfu Hpub Hh] Hp] Hres Hf Hsize. pose proof (go_claimed _ Hg) as HCP.
  destruct (div_mod_BL (claimed g)) as [EC HC]. set (C := claimed g) in *.
  assert (g_freed (C / BL * BL + C mod BL) g = g) as Eg.
  { rewrite <- EC. unfold g_freed, C. rewrite <- Hres. by destruct g. }
  assert (C / BL ≤ length (addrs g) ∧ (C / BL = length (addrs g) → C mod BL = 0) ∧
          length (cells g) ≤ length (addrs g) * BL ∧
          ∀ j, j < length (addrs g) → j * BL ≤ length (cells g))%nat as (Hk & Hend & Hroom & Hblk).
  { destruct (decide (addrs g = [])) as [Ea|Ha].
    - destruct (go_room _ Hg) as [Hro|[_ Ec]]; [rewrite Ea in Hro; simpl in Hro; lia|].
      rewrite Ec in HCP. simpl in HCP. assert (C = 0%nat) as -> by lia.
      rewrite Ec, Ea, Nat.Div0.div_0_l, Nat.Div0.mod_0_l. simpl. repeat split; lia.
    - destruct Hh as (_ & Hlen & _). destruct (div_mod_BL (length (cells g))).
      pose proof (Nat.Div0.div_le_mono _ _ BL HCP). rewrite Hlen. split; [lia|]. split; [lia|].
      split; [lia|]. intros j Hj.
      assert (j * BL ≤ length (cells g) / BL * BL)%nat by (apply Nat.mul_le_mono_r; lia). lia. }
  unfold SPMC_drop. eapply wp_act_bind; [by apply handle_sload|].
  assert (block (from_usize (s_chead s) codec) = addr g (C / BL) ∧
          index (from_usize (s_chead s) codec) = Z.of_nat (C mod BL)) as [-> ->].
  { destruct (decide (addrs g = [])) as [Ea|Ha].
    - destruct Hh as [-> _]. unfold from_usize, addr. rewrite !Z.land_0_l, Ea.
      rewrite Ea in Hk. simpl in Hk. split; [done|]. cbn [index]. by rewrite Hend by (rewrite Ea; simpl; lia).
    - destruct Hh as (_ & _ & hc & Hcan & -> & _).
      by rewrite (unpack_shead_at (length (cells g)) g [] s); [|done|done|fold C; lia|done|done]. }
  apply wp_bind. eapply wp_mono.
  { apply (wp_free_attached_from g s (C / BL) (C mod BL)); try (done || lia). by rewrite Eg. }
  rewrite <- EC. intros ? s1 (Hq1 & Hd1 & Hsub). eapply wp_act_bind; [by apply handle_sload|].
  destruct (freed_all_empty _ _ _ Hq1) as [cache Hs1]. rewrite (ss_head _ _ _ _ Hs1).
  pose proof (map_subseteq_size _ _ Hsub). pose proof (cache_size _ _ _ _ Hs1).
  eapply wp_mono; [apply (wp_free_cached cache s1)|].
  - apply (ss_nodup _ _ _ _ Hs1).
  - intros b Hb. by destruct (ss_dom _ _ _ _ Hs1 b Hb) as [[x Hx]|?].
  - apply Hs1.
  - apply Hs1.
  - intros Hz. pose proof (sstore_cached _ _ _ _ Hs1 Hz). lia.
  - lia.
  - intros ? s2 (Hb2 & Ha2 & Hd2). split; [done|]. congruence.
Qed.

End drop.
