(* ===== verification/SpmcSpec.v ===== *)
(** * The contract of the shard queue and its refinement

    The abstract shard is a list of values together with the values each
    outstanding iterator still has to deliver.  Every sequence of calls on an
    [SPMC], with any number of iterators outstanding, returns what the abstract
    shard returns. *)

From S2P Require Import Prelude Prog Layout Head Geometry Epochs Instances SpmcQueue SpmcInv SpmcSteps SpmcPushSpec SpmcPopSpec SpmcDropSpec.

(** ** The abstract shard *)

Record sspec (T : Type) := mkSSpec {
  ssp_queue : list T;
  ssp_iters : gmap nat (list T);
  ssp_dropped : list T
}.
Arguments mkSSpec {T} _ _ _.
Arguments ssp_queue {T} _.
Arguments ssp_iters {T} _.
Arguments ssp_dropped {T} _.

Inductive scall (T : Type) :=
| SPush (v : T)
| SPushBatch (vs : list T)
| SPop
| SPopBatch (id n : nat)
| SNextItem (id : nat)
| SAppend (id : nat) (values : list T)
| SDropIter (id : nat)
| SIsEmpty.
Arguments SPush {T} v.
Arguments SPushBatch {T} vs.
Arguments SPop {T}.
Arguments SPopBatch {T} id n.
Arguments SNextItem {T} id.
Arguments SAppend {T} id values.
Arguments SDropIter {T} id.
Arguments SIsEmpty {T}.

Inductive sanswer (T : Type) :=
| SUnit
| SItem (v : option T)
| SItems (l : list T) (appended : Z)
| SBool (b : bool).
Arguments SUnit {T}.
Arguments SItem {T} v.
Arguments SItems {T} l appended.
Arguments SBool {T} b.

Definition sspec_new {T} : sspec T := mkSSpec [] ∅ [].

(** [None]: the call is not possible (an iterator name used twice or unknown). *)
Definition sspec_call {T} (c : scall T) (sp : sspec T) : option (sspec T * sanswer T) :=
  let '(mkSSpec q its d) := sp in
  match c with
  | SPush v => Some (mkSSpec (q ++ [v]) its d, SUnit)
  | SPushBatch vs => Some (mkSSpec (q ++ vs) its d, SUnit)
  | SPop => Some (mkSSpec (tail q) its d, SItem (head q))
  | SPopBatch id n =>
      match its !! id with
      | None => Some (mkSSpec (drop n q) (<[id := take n q]> its) d, SUnit)
      | Some _ => None
      end
  | SNextItem id => l ← its !! id; Some (mkSSpec q (<[id := tail l]> its) d, SItem (head l))
  | SAppend id values => l ← its !! id; Some (mkSSpec q (delete id its) d, SItems (values ++ l) (Z.of_nat (length l)))
  | SDropIter id => l ← its !! id; Some (mkSSpec q (delete id its) (d ++ l), SUnit)
  | SIsEmpty => Some (sp, SBool (match q with [] => true | _ => false end))
  end.

Fixpoint sspec_calls {T} (cs : list (scall T)) (sp : sspec T) : option (sspec T * list (sanswer T)) :=
  match cs with
  | [] => Some (sp, [])
  | c :: cs => '(sp, a) ← sspec_call c sp; '(sp, l) ← sspec_calls cs sp; Some (sp, a :: l)
  end.

(** ** The concrete calls *)

Section refinement.
Context {T : Type} `{BlockGeometry} `{Allocator} `{Profile}.
Implicit Types (g : ghost T) (s : smem T) (its : gmap nat SPMCIter).

Definition sexec_call (fuel : nat) (c : scall T) its : prog (spmcE T) (gmap nat SPMCIter * sanswer T) :=
  match c with
  | SPush v => s_push fuel v;; Ret (its, SUnit)
  | SPushBatch vs => s_push_batch fuel vs false;; Ret (its, SUnit)
  | SPop => v ← s_pop fuel; Ret (its, SItem v)
  | SPopBatch id n => it ← s_pop_batch fuel (Z.of_nat n); Ret (<[id := it]> its, SUnit)
  | SNextItem id =>
      it ← expect (its !! id); '(v, it) ← s_iter_next fuel it; Ret (<[id := it]> its, SItem v)
  | SAppend id values =>
      it ← expect (its !! id); '(l, n) ← s_append_to_vec fuel it values; Ret (delete id its, SItems l n)
  | SDropIter id => it ← expect (its !! id); s_iter_drop fuel it;; Ret (delete id its, SUnit)
  | SIsEmpty => b ← s_is_empty; Ret (its, SBool b)
  end.

Fixpoint sexec_calls (fuel : nat) (cs : list (scall T)) its :
  prog (spmcE T) (gmap nat SPMCIter * list (sanswer T)) :=
  match cs with
  | [] => Ret (its, [])
  | c :: cs =>
      '(its, a) ← sexec_call fuel c its; '(its, l) ← sexec_calls fuel cs its; Ret (its, a :: l)
  end.

(** How many positions a call hands out. *)
Definition scall_cost (c : scall T) : nat :=
  match c with SPush _ => 1 | SPushBatch vs => length vs | _ => 0 end.

Definition scalls_cost (cs : list (scall T)) : nat := sum_list_with scall_cost cs.

(** ** The simulation *)

Record srefines g its (sp : sspec T) (cost : nat) s : Prop := {
  sf_rest : s_rest g s;
  sf_queue : ssp_queue sp = present (drop (claimed g) (cells g));
  sf_iters : ssp_iters sp = (λ rv, present (items_of g rv)) <$> resvs g;
  sf_at : ∀ id, match resvs g !! id, its !! id with
                | Some rv, Some it => siter_at g rv it ∧ r_first rv = r_pos rv
                | None, None => True
                | _, _ => False
                end;
  sf_dropped : sdropped s = ssp_dropped sp;
  sf_cost : (length (cells g) ≤ cost)%nat
}.

Lemma srefines_iter g its sp cost s id :
  srefines g its sp cost s →
  (∀ l, ssp_iters sp !! id = Some l → ∃ rv it, resvs g !! id = Some rv ∧ its !! id = Some it ∧
     l = present (items_of g rv) ∧ siter_at g rv it ∧ r_first rv = r_pos rv ∧
     (r_stop rv - r_pos rv ≤ cost)%nat) ∧
  (ssp_iters sp !! id = None → resvs g !! id = None ∧ its !! id = None).
Proof.
  intros [Hr Hq Hit Hat Hd Hc]. specialize (Hat id). rewrite Hit, lookup_fmap.
  destruct (resvs g !! id) as [rv|] eqn:Hrv, (its !! id) as [it|]; try done; simpl.
  split; [|done]. intros l [= <-]. exists rv, it. destruct Hat as [Hat Hf]. split_and!; try done.
  destruct (ro_order _ (go_resvs _ (sm_ghost _ _ _ (sr_mid _ _ Hr))) _ _ Hrv).
  pose proof (go_claimed _ (sm_ghost _ _ _ (sr_mid _ _ Hr))). lia.
Qed.

Lemma refines_push_s g its sp cost s vs g' s' :
  srefines g its sp cost s → s_rest g' s' → extends vs g g' → sdropped s' = sdropped s →
  srefines g' its (mkSSpec (ssp_queue sp ++ vs) (ssp_iters sp) (ssp_dropped sp)) (cost + length vs) s'.
Proof.
  intros [Hr Hq Hit Hat Hd Hc] Hr' (Hce & Hcl & Hrs & Hpre & _) Hd'.
  pose proof (sm_ghost _ _ _ (sr_mid _ _ Hr)) as Hg. split; simpl; try done.
  - rewrite Hq, Hce, Hcl, drop_app_le by apply Hg. unfold present. rewrite omap_app. f_equal.
    symmetry. apply present_Some.
  - rewrite Hit, Hrs. apply map_fmap_ext. intros id rv Hid. f_equal. symmetry.
    apply items_of_claimed; [done|eauto|]. rewrite Hce. by eexists.
  - intros id. rewrite Hrs. specialize (Hat id). destruct (resvs g !! id) as [rv|] eqn:Hrv; [|done].
    destruct (its !! id); [|done]. destruct Hat as [[Hp Hl] Hf]. split; [|done]. split; [|done].
    intros Hlt. destruct (ro_order _ (go_resvs _ Hg) _ _ Hrv). pose proof (go_claimed _ Hg).
    rewrite (addr_prefix g g'); [by apply Hp|done|]. apply block_exists; [done|lia].
  - congruence.
  - rewrite Hce, length_app, length_fmap. lia.
Qed.

Lemma refines_pop_batch_s g its sp cost s id n fuel :
  srefines g its sp cost s → ssp_iters sp !! id = None → (cost + 1 < fuel)%nat →
  wp (s_pop_batch fuel (Z.of_nat n)) s (λ it s', ∃ g',
    srefines g' (<[id := it]> its)
      (mkSSpec (drop n (ssp_queue sp)) (<[id := take n (ssp_queue sp)]> (ssp_iters sp)) (ssp_dropped sp))
      cost s').
Proof.
  intros Hrf Hno Hf. destruct (srefines_iter _ _ _ _ _ id Hrf) as [_ Hx]. destruct (Hx Hno) as [Hid Hit0].
  destruct Hrf as [Hr Hq Hit Hat Hd Hc]. pose proof (sm_ghost _ _ _ (sr_mid _ _ Hr)) as Hg.
  pose proof (go_claimed _ Hg) as HCP. pose proof (sm_full _ _ _ (sr_mid _ _ Hr)) as Hfu.
  eapply wp_mono; [apply (wp_s_pop_batch g s id n fuel Hr Hid); lia|].
  intros it s' (Hr' & Hia & Hd'). set (m := Nat.min n _) in *. exists (g_claim id m g).
  set (C := claimed g) in *. set (P := length (cells g)) in *.
  assert (∀ a b, present (take b (drop a (cells g))) = take b (drop a (present (cells g)))) as Epr.
  { intros a b. rewrite (full_values g Hfu) at 1. by rewrite <- fmap_drop, <- fmap_take, present_Some. }
  assert (∀ a, present (drop a (cells g)) = drop a (present (cells g))) as Epd.
  { intros a. rewrite (full_values g Hfu) at 1. by rewrite <- fmap_drop, present_Some. }
  assert (length (present (cells g)) = P) as EP.
  { unfold P. rewrite (full_values g Hfu) at 2. by rewrite length_fmap. }
  split; simpl; fold C P.
  - done.
  - rewrite Hq, !Epd, drop_drop. destruct (decide (n ≤ P - C)%nat).
    + f_equal. lia.
    + rewrite !drop_ge by lia. done.
  - rewrite fmap_insert, Hit. f_equal.
    rewrite Hq. unfold items_of. simpl. replace (C + m - C)%nat with m by lia. rewrite Epr, Epd.
    destruct (decide (n ≤ P - C)%nat); [f_equal; lia|].
    rewrite !take_ge; [done|rewrite length_drop; lia..].
  - intros j. destruct (decide (id = j)) as [<-|Hne].
    + rewrite !lookup_insert_eq. split; [|done]. destruct Hia. by split.
    + rewrite !lookup_insert_ne by done. specialize (Hat j). destruct (resvs g !! j) eqn:Hj; [|done].
      destruct (its !! j); [|done]. destruct Hat as [[] ?]. split; [by split|done].
  - congruence.
  - done.
Qed.

(** The words at rest after an iterator has moved. *)
Lemma s_rest_iter g g' s s' :
  s_rest g s → addrs g' = addrs g → cells g' = cells g → claimed g' = claimed g →
  sinv (length (cells g)) g' [] s' → ghost_ok g' →
  s_phead s' = s_phead s → s_chead s' = s_chead s → tail_head s' = tail_head s → s_rest g' s'.
Proof.
  intros [[Hq Hg Hfu Hpub Hh] Hp] Ea Ec Ecl Hq' Hg' E1 E2 E3.
  assert (∀ p h, head_at g' p h = head_at g p h) as Eh by (intros; unfold head_at, addr; by rewrite Ea).
  unfold full in Hfu. split; [split|]; unfold full; rewrite ?Ec; try done.
  - rewrite Ea, Ecl, E2, E3. destruct (decide (addrs g = [])); [done|].
    rewrite !Eh. destruct Hh as (? & ? & hc & Hh). split; [done|]. split; [done|]. exists hc. by rewrite Eh.
  - by rewrite Ea, E1, Eh.
Qed.

Lemma refines_next_s g its sp cost s id it l fuel :
  srefines g its sp cost s → its !! id = Some it → ssp_iters sp !! id = Some l → (0 < fuel)%nat →
  wp (s_iter_next fuel it) s (λ '(v, it') s', ∃ g',
    v = head l ∧ srefines g' (<[id := it']> its)
      (mkSSpec (ssp_queue sp) (<[id := tail l]> (ssp_iters sp)) (ssp_dropped sp)) cost s').
Proof.
  intros Hrf Hid Hl Hf. destruct (srefines_iter _ _ _ _ _ id Hrf) as [Hx _].
  destruct (Hx l Hl) as (rv & it0 & Hrv & Hid' & -> & Hia & Hfp & _). assert (it0 = it) as -> by congruence.
  destruct Hrf as [Hr Hq Hit Hat Hd Hc]. pose proof (sr_mid _ _ Hr) as [Hqi Hg Hfu _ _].
  eapply wp_mono; [by apply (wp_s_iter_next (length (cells g)) g s id rv it fuel)|].
  intros [v it'] s' (p & (Hp & Hq' & Hg' & Ha' & (E1 & E2 & E3 & E4)) & Hsp & Hv).
  set (rv' := mkResv p p (r_stop rv)) in *. exists (g_resv id rv' g).
  pose proof (spec_next_omap _ _ _ Hsp) as Epr.
  assert (v = head (present (items_of g rv)) ∧ tail (present (items_of g rv)) = present (items_of g rv')) as [-> Et].
  { rewrite Epr. destruct v; [done|]. split; [done|]. subst p. by rewrite items_of_nil by done. }
  split; [done|]. split; simpl.
  - by eapply (s_rest_iter g).
  - done.
  - rewrite fmap_insert, Hit. by rewrite Et.
  - intros j. destruct (decide (id = j)) as [<-|Hne].
    + rewrite !lookup_insert_eq. split; [|done]. by destruct Ha'; split.
    + rewrite !lookup_insert_ne by done. specialize (Hat j). destruct (resvs g !! j); [|done].
      destruct (its !! j); [|done]. destruct Hat as [[] ?]. split; [by split|done].
  - congruence.
  - done.
Qed.

(** An iterator that is consumed, by [append_to_vec] or by its drop. *)
Lemma srefines_forget g its sp cost s s' id d :
  srefines g its sp cost s → sinv (length (cells g)) (g_forget id g) [] s' → ghost_ok (g_forget id g) →
  same_state (set_sdropped (sdropped s ++ d) s) s' →
  srefines (g_forget id g) (delete id its)
    (mkSSpec (ssp_queue sp) (delete id (ssp_iters sp)) (ssp_dropped sp ++ d)) cost s'.
Proof.
  intros [Hr Hq Hit Hat Hd Hc] Hq' Hg' (E1 & E2 & E3 & E4). simpl in *. split; simpl; try done.
  - by eapply (s_rest_iter g).
  - by rewrite fmap_delete, Hit.
  - intros j. destruct (decide (id = j)) as [<-|Hne]; [by rewrite !lookup_delete_eq|].
    rewrite !lookup_delete_ne by done. specialize (Hat j). destruct (resvs g !! j); [|done].
    destruct (its !! j); [|done]. destruct Hat as [[] ?]. split; [by split|done].
  - by rewrite E4, Hd.
Qed.

Lemma refines_drop_iter_s g its sp cost s id it l fuel :
  srefines g its sp cost s → its !! id = Some it → ssp_iters sp !! id = Some l → (cost < fuel)%nat →
  wp (s_iter_drop fuel it) s (λ _ s', ∃ g',
    srefines g' (delete id its)
      (mkSSpec (ssp_queue sp) (delete id (ssp_iters sp)) (ssp_dropped sp ++ l)) cost s').
Proof.
  intros Hrf Hid Hl Hf. destruct (srefines_iter _ _ _ _ _ id Hrf) as [Hx _].
  destruct (Hx l Hl) as (rv & it0 & Hrv & Hid' & -> & Hia & Hfp & Hlen). assert (it0 = it) as -> by congruence.
  pose proof (sr_mid _ _ (sf_rest _ _ _ _ _ Hrf)) as [Hqi Hg Hfu _ _].
  eapply wp_mono; [apply (wp_s_iter_drop (length (cells g)) g s id rv it fuel Hqi Hg Hfu Hrv Hfp Hia); lia|].
  intros ? s' (Hq' & Hg' & Hs'). exists (g_forget id g). by eapply srefines_forget.
Qed.

Lemma refines_append_s g its sp cost s id it l values fuel :
  srefines g its sp cost s → its !! id = Some it → ssp_iters sp !! id = Some l → (cost < fuel)%nat →
  wp (s_append_to_vec fuel it values) s (λ l' s', l' = (values ++ l, Z.of_nat (length l)) ∧ ∃ g',
    srefines g' (delete id its)
      (mkSSpec (ssp_queue sp) (delete id (ssp_iters sp)) (ssp_dropped sp)) cost s').
Proof.
  intros Hrf Hid Hl Hf. destruct (srefines_iter _ _ _ _ _ id Hrf) as [Hx _].
  destruct (Hx l Hl) as (rv & it0 & Hrv & Hid' & -> & Hia & Hfp & Hlen). assert (it0 = it) as -> by congruence.
  pose proof (sr_mid _ _ (sf_rest _ _ _ _ _ Hrf)) as [Hqi Hg Hfu _ _].
  eapply wp_mono; [apply (wp_s_append_to_vec (length (cells g)) g s id rv it fuel values Hqi Hg Hfu Hrv Hfp Hia); lia|].
  intros ? s' (-> & Hq' & Hg' & (E1 & E2 & E3 & E4)). split; [done|]. exists (g_forget id g).
  pose proof (srefines_forget g its sp cost s s' id [] Hrf Hq' Hg') as Hx'. rewrite !app_nil_r in Hx'.
  by apply Hx'.
Qed.

Lemma refines_pop_s g its sp cost s fuel :
  srefines g its sp cost s → (cost + 1 < fuel)%nat →
  wp (s_pop fuel) s (λ v s', ∃ g', v = head (ssp_queue sp) ∧
    srefines g' its (mkSSpec (tail (ssp_queue sp)) (ssp_iters sp) (ssp_dropped sp)) cost s').
Proof.
  intros Hrf Hf. set (id := fresh (dom (ssp_iters sp))).
  assert (ssp_iters sp !! id = None) as Hsid by (apply not_elem_of_dom, is_fresh).
  destruct (srefines_iter _ _ _ _ _ id Hrf) as [_ Hx]. destruct (Hx Hsid) as [_ Hid].
  unfold s_pop. apply wp_bind.
  eapply wp_mono; [by apply (refines_pop_batch_s g its sp cost s id 1 fuel)|].
  intros it s1 (g1 & Hrf1). apply wp_bind.
  eapply wp_mono; [eapply (refines_next_s g1 _ _ cost s1 id); [exact Hrf1|apply lookup_insert_eq|
    apply lookup_insert_eq|lia]|].
  intros [v it'] s2 (g2 & -> & Hrf2). apply wp_bind.
  eapply wp_mono; [eapply (refines_drop_iter_s g2 _ _ cost s2 id); [exact Hrf2|apply lookup_insert_eq|
    apply lookup_insert_eq|lia]|].
  intros ? s3 (g3 & Hrf3). apply wp_ret. exists g3. simpl in Hrf3.
  rewrite !insert_insert_eq, !delete_insert_id in Hrf3 by done.
  destruct (ssp_queue sp) as [|x q]; simpl in *; rewrite ?take_0, ?app_nil_r in Hrf3; done.
Qed.

(** Two positions of an open queue have the same head word only if they are the
    same. *)
Lemma words_differ pub g s p p' h h' :
  sinv pub g [] s → ghost_ok g → addrs g ≠ [] → (claimed g ≤ p ≤ length (cells g))%nat →
  (claimed g ≤ p' ≤ length (cells g))%nat → canon h → canon h' →
  pack (head_at g p h) codec = pack (head_at g p' h') codec → p = p'.
Proof.
  intros Hq Hg Ha Hp Hp' Hc Hc' E. apply (f_equal (λ w, from_usize w codec)) in E.
  rewrite !(unpack_shead_at pub g [] s) in E by done. injection E as Eb Ei _.
  destruct (div_mod_BL p), (div_mod_BL p').
  apply (sinv_inj _ _ _ _ _ _ Hq) in Eb; [|by apply live_unclaimed..]. lia.
Qed.

Lemma refines_is_empty_s g its sp cost s :
  srefines g its sp cost s →
  wp s_is_empty s (λ b s', s' = s ∧ b = match ssp_queue sp with [] => true | _ => false end).
Proof.
  intros [Hr Hqu _ _ _ _]. pose proof Hr as [[Hq Hg Hfu _ Hh] Hp]. pose proof (go_claimed _ Hg).
  rewrite Hqu. unfold s_is_empty. eapply wp_act_bind; [by apply handle_sload|]. rewrite Hp.
  destruct (decide (addrs g = [])) as [Ea|Ha].
  - rewrite Z.eqb_refl. apply wp_ret. split; [done|].
    destruct (go_room _ Hg) as [Hro|[_ ->]]; [rewrite Ea in Hro; simpl in Hro; lia|]. by rewrite drop_nil.
  - destruct Hh as (_ & _ & hc & Hcan & Hch & Hhc).
    assert (live g (length (cells g) / BL)) as Hl by (apply live_unclaimed; [done|lia|done]).
    pose proof (sinv_addr _ _ _ _ _ Hq Hl). pose proof (pack_nonzero (head_at g (length (cells g)) false)) as Hnz.
    rewrite (proj2 (Z.eqb_neq _ _)).
    2: { enough (0 < pack (head_at g (length (cells g)) false) codec) by lia. apply Hnz; [|simpl; lia].
         by eapply (shead_at_ok _ g [] s); [| |lia|]. }
    eapply wp_act_bind; [by apply handle_sload|]. apply wp_ret. split; [done|]. rewrite Hch.
    destruct (decide (claimed g = length (cells g))) as [E|Hne].
    + rewrite E, drop_all. destruct hc; [rewrite E in Hhc; specialize (Hhc eq_refl); lia|]. apply Z.eqb_refl.
    + destruct (full_cell g (claimed g)) as [v Hv]; [done|lia|]. rewrite (drop_S _ _ _ Hv). simpl.
      apply Z.eqb_neq. intros E. apply Hne. symmetry.
      by eapply (words_differ (length (cells g)) g s _ _ _ _ Hq Hg Ha); [| | | |exact E]; try done; lia.
Qed.

Lemma srefines_call g its sp sp' a cost s c fuel :
  srefines g its sp cost s → sspec_call c sp = Some (sp', a) → (cost + scall_cost c + 1 < fuel)%nat →
  wp (sexec_call fuel c its) s (λ '(its', a') s', a' = a ∧ ∃ g',
    srefines g' its' sp' (cost + scall_cost c) s').
Proof.
  intros Hrf Hsp Hf. destruct sp as [q l d] eqn:Esp. rewrite <- Esp in Hrf.
  assert (∀ id x, l !! id = Some x → ∃ it, its !! id = Some it) as Hits.
  { intros id x Hx. destruct (srefines_iter _ _ _ _ _ id Hrf) as [Hy _]. subst sp.
    destruct (Hy x Hx) as (? & it & _ & ? & _). eauto. }
  destruct c; simpl in Hsp, Hf |- *; rewrite ?Nat.add_0_r in *.
  - injection Hsp as <- <-. apply wp_bind. eapply wp_mono; [apply wp_s_push; [apply Hrf|lia]|].
    intros ? s' (g' & Hr' & He & Hd). apply wp_ret. split; [done|]. exists g'. subst sp.
    exact (refines_push_s _ _ _ _ _ _ _ _ Hrf Hr' He Hd).
  - injection Hsp as <- <-. apply wp_bind. eapply wp_mono; [apply wp_s_push_batch; [apply Hrf|lia]|].
    intros ? s' (g' & Hr' & He & Hd). apply wp_ret. split; [done|]. exists g'. subst sp.
    exact (refines_push_s _ _ _ _ _ _ _ _ Hrf Hr' He Hd).
  - injection Hsp as <- <-. apply wp_bind. eapply wp_mono; [apply (refines_pop_s g its sp cost); [done|lia]|].
    intros ? s' (g' & -> & Hrf'). apply wp_ret. subst sp. split; [done|]. by exists g'.
  - destruct (l !! id) as [|] eqn:Hl; [done|]. injection Hsp as <- <-. apply wp_bind.
    eapply wp_mono; [apply (refines_pop_batch_s g its sp cost s id n fuel Hrf); [by subst sp|lia]|].
    intros it s' (g' & Hrf'). apply wp_ret. split; [done|]. exists g'. by subst sp.
  - destruct (l !! id) as [li|] eqn:Hl; [|done]. injection Hsp as <- <-. destruct (Hits id li Hl) as [it Hid].
    rewrite Hid. simpl. apply wp_bind.
    eapply wp_mono; [apply (refines_next_s g its sp cost s id it li fuel Hrf Hid); [by subst sp|lia]|].
    intros [v it'] s' (g' & -> & Hrf'). apply wp_ret. subst sp. split; [done|]. by exists g'.
  - destruct (l !! id) as [li|] eqn:Hl; [|done]. injection Hsp as <- <-. destruct (Hits id li Hl) as [it Hid].
    rewrite Hid. simpl. apply wp_bind.
    eapply wp_mono; [apply (refines_append_s g its sp cost s id it li values fuel Hrf Hid); [by subst sp|lia]|].
    intros ? s' (-> & g' & Hrf'). apply wp_ret. subst sp. split; [done|]. by exists g'.
  - destruct (l !! id) as [li|] eqn:Hl; [|done]. injection Hsp as <- <-. destruct (Hits id li Hl) as [it Hid].
    rewrite Hid. simpl. apply wp_bind.
    eapply wp_mono; [apply (refines_drop_iter_s g its sp cost s id it li fuel Hrf Hid); [by subst sp|lia]|].
    intros ? s' (g' & Hrf'). apply wp_ret. subst sp. split; [done|]. by exists g'.
  - injection Hsp as <- <-. apply wp_bind.
    eapply wp_mono; [apply (refines_is_empty_s g its sp cost s Hrf)|].
    intros ? ? [-> ->]. apply wp_ret. subst sp. split; [done|]. by exists g.
Qed.

Lemma srefines_calls cs g its sp sp' l cost s fuel :
  srefines g its sp cost s → sspec_calls cs sp = Some (sp', l) → (cost + scalls_cost cs + 1 < fuel)%nat →
  wp (sexec_calls fuel cs its) s (λ '(its', l') s', l' = l ∧ ∃ g',
    srefines g' its' sp' (cost + scalls_cost cs) s').
Proof.
  revert g its sp l cost s. induction cs as [|c cs IH]; intros g its sp l cost s Hrf Hsp Hf.
  { injection Hsp as <- <-. apply wp_ret. split; [done|]. exists g. unfold scalls_cost. simpl.
    by rewrite Nat.add_0_r. }
  simpl in Hsp. destruct (sspec_call c sp) as [[sp1 a]|] eqn:E1; [|done]. simpl in Hsp.
  destruct (sspec_calls cs sp1) as [[sp2 l2]|] eqn:E2; [|done]. simpl in Hsp. injection Hsp as <- <-.
  assert (scalls_cost (c :: cs) = scall_cost c + scalls_cost cs)%nat as Ecost by done.
  rewrite Ecost in *. cbn [sexec_calls]. apply wp_bind.
  eapply wp_mono; [apply (srefines_call g its sp sp1 a cost s c fuel Hrf E1); lia|].
  intros [its' a'] s' (-> & g' & Hrf'). apply wp_bind.
  eapply wp_mono; [apply (IH g' its' sp1 l2 _ s' Hrf' E2); lia|].
  intros [its'' l'] s'' (-> & g'' & Hrf''). apply wp_ret. split; [done|]. exists g''.
  by rewrite Nat.add_assoc.
Qed.

Lemma srefines_new : srefines ghost_new ∅ sspec_new 0 SPMC_new.
Proof.
  split; simpl; try done.
  - split; [split|]; try done.
    + exists ∅, []. split; [apply epoch_map_new|]. split; simpl; try done.
      * apply NoDup_nil_2.
      * intros b. rewrite lookup_empty. by intros [].
      * intros b Hb. by apply elem_of_nil in Hb.
      * intros b. rewrite lookup_empty. by intros [].
    + apply ghost_ok_new.
    + constructor.
    + simpl. rewrite Nat.Div0.div_0_l. lia.
Qed.

(** C3: any sequence of calls on a shard queue, with any number of iterators
    outstanding, runs to completion without panicking and without an invalid
    memory access, returns the answers of the abstract shard (a FIFO list) and
    destroys the values the abstract shard destroys. *)
Theorem spmc_refines_spec cs sp l fuel :
  sspec_calls cs sspec_new = Some (sp, l) → (scalls_cost cs + 1 < fuel)%nat →
  wp (sexec_calls fuel cs ∅) SPMC_new (λ '(its, l') s, l' = l ∧ sdropped s = ssp_dropped sp).
Proof.
  intros Hsp Hf. eapply wp_mono; [by apply (srefines_calls cs _ _ _ sp l 0 _ fuel srefines_new)|].
  intros [its l'] s (-> & g & Hrf). split; [done|]. apply Hrf.
Qed.

(** C4: dropping a shard queue after its iterators destroys exactly the values
    still in it, in order, after those already destroyed, and frees every block,
    those in the cache included. *)
Theorem spmc_drop_exact cs sp l fuel :
  sspec_calls cs sspec_new = Some (sp, l) → ssp_iters sp = ∅ → (scalls_cost cs + 1 < fuel)%nat →
  wp (sexec_calls fuel cs ∅) SPMC_new (λ _ s, ∀ fuel',
    (scalls_cost cs + 1 + size (sblocks s) < fuel')%nat →
    wp (SPMC_drop fuel') s (λ _ s',
      sheap_empty s' ∧ sdropped s' = ssp_dropped sp ++ ssp_queue sp)).
Proof.
  intros Hsp Hno Hf. eapply wp_mono; [by apply (srefines_calls cs _ _ _ sp l 0 _ fuel srefines_new)|].
  intros [its l'] s (-> & g & [Hr Hq Hi _ Hd Hc]) fuel' Hf'.
  eapply wp_mono; [apply (wp_SPMC_drop g s fuel' Hr)|].
  - rewrite Hno in Hi. by apply symmetry, fmap_empty_inv in Hi.
  - destruct (decide (addrs g = [])) as [->|Ha]; [simpl; lia|].
    pose proof (sm_heads _ _ _ (sr_mid _ _ Hr)) as Hh. rewrite decide_False in Hh by done.
    destruct Hh as (_ & -> & _). pose proof BL_pos.
    assert (length (cells g) / BL ≤ length (cells g))%nat by (apply Nat.Div0.div_le_upper_bound; nia). lia.
  - lia.
  - intros ? s' [He Hd']. split; [done|]. by rewrite Hd', Hd, Hq.
Qed.

(** A [push_batch] whose iterator panics after yielding [vs] leaves the queue
    as a [push_batch] of [vs] does: nothing is lost, nothing is duplicated, and
    the calls made afterwards get the answers of the abstract shard. *)
Theorem spmc_batch_panic cs vs cs' sp l l' fuel :
  sspec_calls cs sspec_new = Some (sp, l) →
  snd <$> sspec_calls (SPushBatch vs :: cs') sp = Some (SUnit :: l') →
  (scalls_cost cs + length vs + scalls_cost cs' + 1 < fuel)%nat →
  wp (sexec_calls fuel cs ∅) SPMC_new (λ '(its, _) s,
    match run (s_push_batch fuel vs true) s with
    | Panicked s' => wp (sexec_calls fuel cs' its) s' (λ '(_, answers) _, answers = l')
    | Aborted => True
    | _ => False
    end).
Proof.
  intros Hsp Hsp' Hf.
  eapply wp_mono; [apply (srefines_calls cs _ _ _ sp l 0 _ fuel srefines_new Hsp); lia|].
  intros [its ll] s (_ & g & Hrf). rewrite run_push_batch_panics.
  pose proof (wp_s_push_batch vs g s fuel (sf_rest _ _ _ _ _ Hrf) ltac:(lia)) as Hb. unfold wp in Hb.
  destruct (run (s_push_batch fuel vs false) s) as [u s1|s1|s1| |]; try done.
  destruct Hb as (g1 & Hr1 & He1 & Hd1). destruct sp as [q its0 d]. cbn [sspec_calls sspec_call] in Hsp'.
  cbn [mbind option_bind] in Hsp'.
  destruct (sspec_calls cs' (mkSSpec (q ++ vs) its0 d)) as [[sp2 l2]|] eqn:E2; [|done].
  cbn in Hsp'. injection Hsp' as <-.
  eapply wp_mono; [eapply (srefines_calls cs' g1 its _ sp2 l2); [|exact E2|]|].
  - exact (refines_push_s _ _ _ _ _ _ _ _ Hrf Hr1 He1 Hd1).
  - lia.
  - intros [its' l3] s2 (-> & _). done.
Qed.

End refinement.

(** A workload with two overlapping iterators that crosses several blocks of two
    slots. *)
Definition ssample_calls : list (scall Z) :=
  [SPush 1; SPushBatch [2; 3; 4; 5; 6]; SPopBatch 0 3; SPopBatch 1 2; SNextItem 1; SNextItem 0;
   SIsEmpty; SDropIter 0; SPop; SPop; SPush 7; SPushBatch [8; 9]; SAppend 1 [0]; SPop].

Definition ssample_spec : sspec Z := mkSSpec [8; 9] ∅ [2; 3].

Definition ssample_answers : list (sanswer Z) :=
  [SUnit; SUnit; SUnit; SUnit; SItem (Some 4); SItem (Some 1); SBool false; SUnit; SItem (Some 6);
   SItem None; SUnit; SUnit; SItems [0; 5] 1; SItem (Some 7)].

Lemma spmc_refines_spec_witness :
  wp (sexec_calls (H1 := debug_build) 100 ssample_calls ∅) SPMC_new
    (λ '(its, l') s, l' = ssample_answers ∧ sdropped s = ssp_dropped ssample_spec).
Proof. apply (spmc_refines_spec ssample_calls ssample_spec ssample_answers 100); [reflexivity|vm_compute; lia]. Defined.

Lemma spmc_drop_exact_witness :
  wp (sexec_calls (H1 := debug_build) 100 ssample_calls ∅) SPMC_new (λ _ s, ∀ fuel',
    (scalls_cost ssample_calls + 1 + size (sblocks s) < fuel')%nat →
    wp (SPMC_drop (H0 := debug_build) fuel') s (λ _ s', sheap_empty s' ∧ sdropped s' = [2; 3; 8; 9])).
Proof.
  apply (spmc_drop_exact ssample_calls ssample_spec ssample_answers 100);
    [reflexivity|reflexivity|vm_compute; lia].
Defined.

Lemma spmc_batch_panic_witness :
  wp (sexec_calls (H1 := debug_build) 100 [SPush 1] ∅) SPMC_new (λ '(its, _) s,
    match run (s_push_batch (H0 := debug_build) 100 [2; 3; 4] true) s with
    | Panicked s' => wp (sexec_calls (H1 := debug_build) 100 [SPop; SPop; SPop; SPop; SPop] its) s'
        (λ '(_, answers) _,
           answers = [SItem (Some 1); SItem (Some 2); SItem (Some 3); SItem (Some 4); SItem None])
    | Aborted => True
    | _ => False
    end).
Proof.
  apply (spmc_batch_panic [SPush 1] [2; 3; 4] [SPop; SPop; SPop; SPop; SPop] (mkSSpec [1] ∅ []) [SUnit]);
    [reflexivity|reflexivity|vm_compute; lia].
Defined.
