(* ===== verification/Shard.v ===== *)
(** * What a shard queue promises to the channel

    The channel of src/src/kfifo/lubq.rs uses a shard only through [push],
    [push_batch], [pop], [pop_batch] followed by [append_to_vec], [is_empty] and
    its destructor.  [ShardQueue] is that interface with its laws: a shard is a
    FIFO list.  The instance at the end is the shard queue of
    src/src/kfifo/queue.rs. *)

From S2P Require Import Prelude Prog Layout Head Geometry Epochs SpmcQueue SpmcInv SpmcSteps SpmcPushSpec SpmcPopSpec SpmcDropSpec SpmcSpec.

Inductive qcall (T : Type) : Type → Type :=
| QPush (v : T) : qcall T unit
| QPushBatch (vs : list T) : qcall T unit
| QPop : qcall T (option T)
| QPopBatch (size : Z) (values : list T) : qcall T (list T)
| QIsEmpty : qcall T bool.
Arguments QPush {T} v.
Arguments QPushBatch {T} vs.
Arguments QPop {T}.
Arguments QPopBatch {T} size values.
Arguments QIsEmpty {T}.

(** The answer and the remaining values. *)
Definition qspec {T X} (c : qcall T X) (l : list T) : X * list T :=
  match c in qcall _ X return X * list T with
  | QPush v => (tt, l ++ [v])
  | QPushBatch vs => (tt, l ++ vs)
  | QPop => (head l, tail l)
  | QPopBatch size values => (values ++ take (Z.to_nat size) l, drop (Z.to_nat size) l)
  | QIsEmpty => (match l with [] => true | _ => false end, l)
  end.

(** The positions a call hands out. *)
Definition qcost {T X} (c : qcall T X) : nat :=
  match c with QPush _ => 1 | QPushBatch vs => length vs | _ => 0 end.

Definition qcall_ok {T X} (c : qcall T X) : Prop :=
  match c with QPopBatch size _ => 0 ≤ size | _ => True end.

(** [q_is n q l]: after handing out at most [n] positions, shard [q] holds [l]. *)
Class ShardQueue (T Q : Type) := {
  q_new : Q;
  q_run : ∀ (fuel : nat) {X}, qcall T X → Q → reply Q X;
  q_is : nat → Q → list T → Prop;
  q_new_is : q_is 0 q_new [];
  q_mono : ∀ n n' q l, q_is n q l → (n ≤ n')%nat → q_is n' q l;
  q_run_is : ∀ fuel n q l X (c : qcall T X),
    q_is n q l → qcall_ok c → (n + qcost c + 1 < fuel)%nat →
    match q_run fuel c q with
    | Next x q' => x = (qspec c l).1 ∧ q_is (n + qcost c) q' (qspec c l).2
    | Fault => False
    | Exit => True
    end
}.

(** ** The shard queue implements it *)

Section instance.
Context {T : Type} `{BlockGeometry} `{Allocator} `{Profile}.

Definition qexec (fuel : nat) {X} (c : qcall T X) : prog (spmcE T) X :=
  match c in qcall _ X return prog (spmcE T) X with
  | QPush v => s_push fuel v
  | QPushBatch vs => s_push_batch fuel vs false
  | QPop => s_pop fuel
  | QPopBatch size values =>
      it ← s_pop_batch fuel size; '(values, _) ← s_append_to_vec fuel it values; Ret values
  | QIsEmpty => s_is_empty
  end.

Definition sq_run (fuel : nat) {X} (c : qcall T X) (s : smem T) : reply (smem T) X :=
  match run (qexec fuel c) s with
  | Done x s' => Next x s'
  | Aborted => Exit
  | _ => Fault
  end.

Definition sq_is (n : nat) (s : smem T) (l : list T) : Prop :=
  ∃ g, srefines g ∅ (mkSSpec l ∅ (sdropped s)) n s.

Lemma sq_mono n n' s l : sq_is n s l → (n ≤ n')%nat → sq_is n' s l.
Proof. intros [g []] Hn. exists g. split; try done. lia. Qed.

Lemma wp_qexec fuel n s l X (c : qcall T X) :
  sq_is n s l → qcall_ok c → (n + qcost c + 1 < fuel)%nat →
  wp (qexec fuel c) s (λ x s', x = (qspec c l).1 ∧ sq_is (n + qcost c) s' (qspec c l).2).
Proof.
  intros [g Hrf] Hok Hf.
  assert (∀ g' l' n' s', srefines g' ∅ (mkSSpec l' ∅ (sdropped s)) n' s' → sq_is n' s' l') as Hpack.
  { intros g' l' n' s' Hr. pose proof (sf_dropped _ _ _ _ _ Hr) as E. simpl in E. exists g'. by rewrite E. }
  destruct c; cbn [qexec qspec qcost fst snd] in *; rewrite ?Nat.add_0_r in *.
  - eapply wp_mono; [apply wp_s_push; [apply Hrf|lia]|]. intros [] s' (g' & Hr' & He & Hd). split; [done|].
    apply (Hpack g'). exact (refines_push_s _ _ _ _ _ _ _ _ Hrf Hr' He Hd).
  - eapply wp_mono; [apply wp_s_push_batch; [apply Hrf|lia]|]. intros [] s' (g' & Hr' & He & Hd).
    split; [done|]. apply (Hpack g'). exact (refines_push_s _ _ _ _ _ _ _ _ Hrf Hr' He Hd).
  - eapply wp_mono; [apply (refines_pop_s _ _ _ _ _ fuel Hrf); lia|]. intros x s' (g' & -> & Hr').
    split; [done|]. by apply (Hpack g').
  - simpl in Hok. apply wp_bind. rewrite <- (Z2Nat.id size) at 1 by done.
    eapply wp_mono; [apply (refines_pop_batch_s g ∅ _ n s 0 (Z.to_nat size) fuel Hrf); [done|lia]|].
    intros it s1 (g1 & Hr1). simpl in Hr1. apply wp_bind.
    eapply wp_mono; [eapply (refines_append_s g1 _ _ n s1 0 it _ values fuel Hr1);
      [apply lookup_insert_eq|apply lookup_insert_eq|lia]|].
    intros x s2 (-> & g2 & Hr2). simpl in Hr2. rewrite !delete_insert_id in Hr2 by done.
    apply wp_ret. split; [done|]. by apply (Hpack g2).
  - eapply wp_mono; [apply (refines_is_empty_s _ _ _ _ _ Hrf)|]. intros x s' [-> ->]. split; [done|].
    by apply (Hpack g).
Qed.

#[export] Program Instance spmc_shard : ShardQueue T (smem T) := {
  q_new := SPMC_new;
  q_run := @sq_run;
  q_is := sq_is
}.
Next Obligation. exists ghost_new. apply srefines_new. Qed.
Next Obligation. intros. by eapply sq_mono. Qed.
Next Obligation.
  intros fuel n s l X c Hq Hok Hf. pose proof (wp_qexec fuel n s l X c Hq Hok Hf) as Hw.
  unfold wp in Hw. unfold sq_run. by destruct (run (qexec fuel c) s).
Qed.

End instance.
