(* ===== verification/Lubq.v ===== *)
(** * The linked-shard channel (src/src/kfifo/lubq.rs)

    Every sender owns one shard queue; shards are linked in a registry that only
    grows; receivers scan the registry round-robin from their own cursor.  The
    shards are used through the interface [ShardQueue]; a call on a shard is one
    step of the channel. *)

From S2P Require Import Prelude Prog Layout Head Geometry Shard.

(** ** Memory *)

Record Shard (Q : Type) := mkShard {
  sh_id : Z;
  producer_active : Z;
  sh_next : Z;
  sh_queue : Q
}.
Arguments mkShard {Q} _ _ _ _.
Arguments sh_id {Q} _.
Arguments producer_active {Q} _.
Arguments sh_next {Q} _.
Arguments sh_queue {Q} _.

(** [Core] with its [Registry]; [owned] and [next_id] are the state the registry
    lock protects; [shards] are the boxed shards by address. *)
Record lmem (Q : Type) := mkLMem {
  reg_head : Z;
  reg_tail : Z;
  reg_locked : Z;
  owned : list Z;
  next_id : Z;
  senders : Z;
  shards : gmap Z (Shard Q)
}.
Arguments mkLMem {Q} _ _ _ _ _ _ _.
Arguments reg_head {Q} _.
Arguments reg_tail {Q} _.
Arguments reg_locked {Q} _.
Arguments owned {Q} _.
Arguments next_id {Q} _.
Arguments senders {Q} _.
Arguments shards {Q} _.

Definition set_reg_head {Q} v (s : lmem Q) : lmem Q :=
  mkLMem v (reg_tail s) (reg_locked s) (owned s) (next_id s) (senders s) (shards s).
Definition set_reg_tail {Q} v (s : lmem Q) : lmem Q :=
  mkLMem (reg_head s) v (reg_locked s) (owned s) (next_id s) (senders s) (shards s).
Definition set_reg_locked {Q} v (s : lmem Q) : lmem Q :=
  mkLMem (reg_head s) (reg_tail s) v (owned s) (next_id s) (senders s) (shards s).
Definition set_owned {Q} v (s : lmem Q) : lmem Q :=
  mkLMem (reg_head s) (reg_tail s) (reg_locked s) v (next_id s) (senders s) (shards s).
Definition set_next_id {Q} v (s : lmem Q) : lmem Q :=
  mkLMem (reg_head s) (reg_tail s) (reg_locked s) (owned s) v (senders s) (shards s).
Definition set_senders {Q} v (s : lmem Q) : lmem Q :=
  mkLMem (reg_head s) (reg_tail s) (reg_locked s) (owned s) (next_id s) v (shards s).
Definition set_shards {Q} v (s : lmem Q) : lmem Q :=
  mkLMem (reg_head s) (reg_tail s) (reg_locked s) (owned s) (next_id s) (senders s) v.

Inductive lloc :=
| RegHead
| RegTail
| RegLocked
| Senders
| ShActive (sh : Z)
| ShNext (sh : Z).

Inductive lubqE (T : Type) : Type → Type :=
| LLoad (l : lloc) : lubqE T Z
| LStore (l : lloc) (v : Z) : lubqE T unit
| LCas (weak : bool) (l : lloc) (old new : Z) : lubqE T (Z + Z)
| LFetchSub (l : lloc) (d : Z) : lubqE T Z
| LId (sh : Z) : lubqE T Z
| LQueue {X} (sh : Z) (c : qcall T X) : lubqE T X
| LOwned : lubqE T (list Z)
| LPushOwned (sh : Z) : lubqE T unit
| LNextId : lubqE T Z
| LSetNextId (v : Z) : lubqE T unit
| LNewShard (id : Z) : lubqE T Z.
Arguments LLoad {T} l.
Arguments LStore {T} l v.
Arguments LCas {T} weak l old new.
Arguments LFetchSub {T} l d.
Arguments LId {T} sh.
Arguments LQueue {T X} sh c.
Arguments LOwned {T}.
Arguments LPushOwned {T} sh.
Arguments LNextId {T}.
Arguments LSetNextId {T} v.
Arguments LNewShard {T} id.

Section handler.
Context {T Q : Type} `{ShardQueue T Q} `{BoxAllocator}.
Implicit Types s : lmem Q.

Definition upd_shard sh (f : Shard Q → Shard Q) s : option (lmem Q) :=
  x ← shards s !! sh; Some (set_shards (<[sh := f x]> (shards s)) s).

Definition lrd (l : lloc) s : option Z :=
  match l with
  | RegHead => Some (reg_head s)
  | RegTail => Some (reg_tail s)
  | RegLocked => Some (reg_locked s)
  | Senders => Some (senders s)
  | ShActive sh => producer_active <$> shards s !! sh
  | ShNext sh => sh_next <$> shards s !! sh
  end.

Definition lwr (l : lloc) (v : Z) s : option (lmem Q) :=
  match l with
  | RegHead => Some (set_reg_head v s)
  | RegTail => Some (set_reg_tail v s)
  | RegLocked => Some (set_reg_locked v s)
  | Senders => Some (set_senders v s)
  | ShActive sh => upd_shard sh (λ x, mkShard (sh_id x) v (sh_next x) (sh_queue x)) s
  | ShNext sh => upd_shard sh (λ x, mkShard (sh_id x) (producer_active x) v (sh_queue x)) s
  end.

Definition lreply {X} (o : option (X * lmem Q)) : reply (lmem Q) X :=
  match o with Some (x, s) => Next x s | None => Fault end.

(** The fuel of the shard calls is a parameter of the run. *)
Context (fuel : nat).

Definition lubq_handler : Handler (lubqE T) (lmem Q) := λ X e,
  match e in lubqE _ X return lmem Q → reply (lmem Q) X with
  | LLoad l => λ s, lreply (v ← lrd l s; Some (v, s))
  | LStore l v => λ s, lreply (s' ← lwr l v s; Some (tt, s'))
  | LCas _ l old new => λ s, lreply (
      v ← lrd l s;
      if v =? old then s' ← lwr l new s; Some (inl v, s') else Some (inr v, s))
  | LFetchSub l d => λ s, lreply (v ← lrd l s; s' ← lwr l (wrapping (v - d)) s; Some (v, s'))
  | LId sh => λ s, lreply (x ← shards s !! sh; Some (sh_id x, s))
  | LQueue sh c => λ s,
      match shards s !! sh with
      | None => Fault
      | Some x =>
          match q_run fuel c (sh_queue x) with
          | Next a q => Next a (set_shards
              (<[sh := mkShard (sh_id x) (producer_active x) (sh_next x) q]> (shards s)) s)
          | Fault => Fault
          | Exit => Exit
          end
      end
  | LOwned => λ s, Next (owned s) s
  | LPushOwned sh => λ s, Next tt (set_owned (owned s ++ [sh]) s)
  | LNextId => λ s, Next (next_id s) s
  | LSetNextId v => λ s, Next tt (set_next_id v s)
  | LNewShard id => λ s,
      let sh := box_at (dom (shards s)) in
      Next sh (set_shards (<[sh := mkShard id 1 0 q_new]> (shards s)) s)
  end.

Definition lubq_spurious : Spurious (lubqE T) (lmem Q) := λ X e,
  match e in lubqE _ X return lmem Q → option X with
  | LCas true l _ _ => λ s, inr <$> lrd l s
  | _ => λ _, None
  end.

(** [Core::new]: one shard, owned by the first sender. *)
Definition Core_new : lmem Q :=
  let sh := box_at ∅ in
  mkLMem sh sh 0 [sh] 1 1 {[ sh := mkShard 0 1 0 q_new ]}.

End handler.

(** ** Senders *)

Section programs.
Context {T : Type} `{Profile}.

Definition reg_lock (fuel : nat) : prog (lubqE T) unit :=
  loop fuel (λ _ : unit,
    r ← act (LCas true RegLocked 0 1);
    match r with
    | inl _ => Ret (inr tt)
    | inr _ =>
        loop fuel (λ _ : unit,
          v ← act (LLoad RegLocked);
          if v =? 0 then Ret (inr tt) else Ret (inl tt)) tt;;
        Ret (inl tt)
    end) tt.

(** The guard's drop. *)
Definition reg_unlock : prog (lubqE T) unit := act (LStore RegLocked 0).

Definition try_acquire_producer (sh : Z) : prog (lubqE T) bool :=
  active ← act (LLoad (ShActive sh));
  if negb (active =? 0) then Ret false else
  empty ← act (LQueue sh QIsEmpty);
  if negb empty then Ret false else
  r ← act (LCas false (ShActive sh) 0 1);
  Ret (match r with inl _ => true | inr _ => false end).

(** [for shard in &mut state.owned { if shard.try_acquire_producer() .. }] *)
Fixpoint acquire_owned (l : list Z) : prog (lubqE T) (option Z) :=
  match l with
  | [] => Ret None
  | sh :: l =>
      ok ← try_acquire_producer sh;
      if ok : bool then Ret (Some sh) else acquire_owned l
  end.

Definition acquire_sender_shard (fuel : nat) : prog (lubqE T) Z :=
  reg_lock fuel;;
  l ← act LOwned;
  found ← acquire_owned l;
  match found with
  | Some sh => reg_unlock;; Ret sh
  | None =>
      id ← act LNextId;
      if usize_max <? id + 1 then reg_unlock;; Panic else
      act (LSetNextId (id + 1));;
      sh ← act (LNewShard id);
      act (LPushOwned sh);;
      tail ← act (LLoad RegTail);
      debug_assert (negb (tail =? 0));;
      act (LStore (ShNext tail) sh);;
      act (LStore RegTail sh);;
      reg_unlock;;
      Ret sh
  end.

(** [self.senders.try_update(.., |count| count.checked_add(1)).expect(..)] *)
Definition add_sender (fuel : nat) : prog (lubqE T) unit :=
  count ← act (LLoad Senders);
  loop fuel (λ count,
    if usize_max <? count + 1 then Panic else
    r ← act (LCas true Senders count (count + 1));
    match r with
    | inl _ => Ret (inr tt)
    | inr real => Ret (inl real)
    end) count.

Definition Sender_clone (fuel : nat) : prog (lubqE T) Z :=
  sh ← acquire_sender_shard fuel;
  add_sender fuel;;
  Ret sh.

Definition Sender_drop (sh : Z) : prog (lubqE T) unit :=
  act (LStore (ShActive sh) 0);;
  previous ← act (LFetchSub Senders 1);
  debug_assert (negb (previous =? 0)).

Definition send (sh : Z) (value : T) : prog (lubqE T) unit := act (LQueue sh (QPush value)).

Definition send_batch (sh : Z) (values : list T) : prog (lubqE T) unit :=
  act (LQueue sh (QPushBatch values)).

(** [channel_with]: the first sender's shard; the first receiver has no cursor. *)
Definition channel_with : prog (lubqE T) (Z * Z) :=
  sh ← act (LLoad RegHead);
  if sh =? 0 then Panic else Ret (sh, 0).

(** ** Receivers *)

Inductive TryRecvError := Empty | Disconnected.

Definition pop_from (sh : Z) : prog (lubqE T) (option T) := act (LQueue sh QPop).

Definition pop_batch_from (sh size : Z) (values : list T) : prog (lubqE T) (Z * list T) :=
  debug_assert (negb (size =? 0));;
  let previous_len := Z.of_nat (length values) in
  values ← act (LQueue sh (QPopBatch size values));
  popped ← usub (Z.of_nat (length values)) previous_len;
  Ret (popped, values).

Definition is_closed : prog (lubqE T) bool :=
  n ← act (LLoad Senders); Ret (n =? 0).

(** [ptr.filter(|shard| shard.id <= boundary_id)] *)
Definition ptr_filter (sh boundary_id : Z) : prog (lubqE T) Z :=
  if sh =? 0 then Ret 0 else
  id ← act (LId sh);
  Ret (if id <=? boundary_id then sh else 0).

(** [ptr.or_else(|| self.core.registry.head())] *)
Definition or_head (sh : Z) : prog (lubqE T) Z :=
  if sh =? 0 then act (LLoad RegHead) else Ret sh.

(** The scan from the cursor through the boundary: a value and the new cursor. *)
Definition scan_through (fuel : nat) (boundary_id start : Z) : prog (lubqE T) (option (T * Z)) :=
  loop fuel (λ current,
    if current =? 0 then Ret (inr None) else
    id ← act (LId current);
    if boundary_id <? id then Ret (inr None) else
    nx ← act (LLoad (ShNext current));
    v ← pop_from current;
    match v with
    | Some value => cursor ← or_head nx; Ret (inr (Some (value, cursor)))
    | None =>
        if id =? boundary_id then Ret (inr None) else
        candidate ← ptr_filter nx boundary_id;
        Ret (inl candidate)
    end) start.

(** The scan of the prefix that precedes the original cursor. *)
Definition scan_prefix (fuel : nat) (boundary_id start_id : Z) : prog (lubqE T) (option (T * Z)) :=
  head ← act (LLoad RegHead);
  loop fuel (λ current,
    if current =? 0 then Ret (inr None) else
    id ← act (LId current);
    if (start_id <=? id) || (boundary_id <? id) then Ret (inr None) else
    nx ← act (LLoad (ShNext current));
    v ← pop_from current;
    match v with
    | Some value => cursor ← or_head nx; Ret (inr (Some (value, cursor)))
    | None => candidate ← ptr_filter nx boundary_id; Ret (inl candidate)
    end) head.

(** Returns what was received and the receiver's new cursor (null: none). *)
Definition scan_once (fuel : nat) (cursor : Z) : prog (lubqE T) (option T * Z) :=
  boundary ← act (LLoad RegTail);
  if boundary =? 0 then Ret (None, cursor) else
  boundary_id ← act (LId boundary);
  start ← ptr_filter cursor boundary_id;
  start ← or_head start;
  if start =? 0 then Ret (None, 0) else
  start_id ← act (LId start);
  found ← scan_through fuel boundary_id start;
  match found with
  | Some (value, cursor) => Ret (Some value, cursor)
  | None =>
      found ← scan_prefix fuel boundary_id start_id;
      match found with
      | Some (value, cursor) => Ret (Some value, cursor)
      | None =>
          nx ← act (LLoad (ShNext start));
          cursor ← or_head nx;
          Ret (None, cursor)
      end
  end.

Definition try_recv (fuel : nat) (cursor : Z) : prog (lubqE T) ((T + TryRecvError) * Z) :=
  '(v, cursor) ← scan_once fuel cursor;
  match v with
  | Some value => Ret (inl value, cursor)
  | None =>
      n ← act (LLoad Senders);
      if negb (n =? 0) then Ret (inr Empty, cursor) else
      '(v, cursor) ← scan_once fuel cursor;
      Ret (match v with Some value => inl value | None => inr Disconnected end, cursor)
  end.

(** The batch scans carry the values received so far, their number and the
    cursor; [true]: the request is filled. *)
Definition scan_batch_step (boundary_id size current received : Z) (values : list T) (cursor : Z) :
  prog (lubqE T) (bool * Z * Z * list T * Z) :=
  nx ← act (LLoad (ShNext current));
  rest ← usub size received;
  '(popped, values) ← pop_batch_from current rest values;
  if negb (popped =? 0) then
    received ← uadd received popped;
    cursor ← or_head nx;
    Ret (received =? size, nx, received, values, cursor)
  else Ret (false, nx, received, values, cursor).

Definition scan_batch_through (fuel : nat) (boundary_id size start : Z) (values : list T) :
  prog (lubqE T) (bool * Z * list T * Z) :=
  loop fuel (λ '(current, received, values, cursor),
    if current =? 0 then Ret (inr (false, received, values, cursor)) else
    id ← act (LId current);
    if boundary_id <? id then Ret (inr (false, received, values, cursor)) else
    '(filled, nx, received, values, cursor) ←
      scan_batch_step boundary_id size current received values cursor;
    if filled : bool then Ret (inr (true, received, values, cursor)) else
    if id =? boundary_id then Ret (inr (false, received, values, cursor)) else
    candidate ← ptr_filter nx boundary_id;
    Ret (inl (candidate, received, values, cursor))) (start, 0, values, 0).

Definition scan_batch_prefix (fuel : nat) (boundary_id start_id size received : Z) (values : list T)
  (cursor : Z) : prog (lubqE T) (bool * Z * list T * Z) :=
  head ← act (LLoad RegHead);
  loop fuel (λ '(current, received, values, cursor),
    if current =? 0 then Ret (inr (false, received, values, cursor)) else
    id ← act (LId current);
    if (start_id <=? id) || (boundary_id <? id) then Ret (inr (false, received, values, cursor)) else
    '(filled, nx, received, values, cursor) ←
      scan_batch_step boundary_id size current received values cursor;
    if filled : bool then Ret (inr (true, received, values, cursor)) else
    candidate ← ptr_filter nx boundary_id;
    Ret (inl (candidate, received, values, cursor))) (head, received, values, cursor).

(** Returns the number received, the vector and the cursor. *)
Definition scan_batch_once (fuel : nat) (cursor : Z) (values : list T) (size : Z) :
  prog (lubqE T) (Z * list T * Z) :=
  debug_assert (negb (size =? 0));;
  boundary ← act (LLoad RegTail);
  if boundary =? 0 then Ret (0, values, cursor) else
  boundary_id ← act (LId boundary);
  start ← ptr_filter cursor boundary_id;
  start ← or_head start;
  if start =? 0 then Ret (0, values, 0) else
  start_id ← act (LId start);
  '(filled, received, values, cursor) ← scan_batch_through fuel boundary_id size start values;
  if filled : bool then Ret (received, values, cursor) else
  '(filled, received, values, cursor) ←
    scan_batch_prefix fuel boundary_id start_id size received values cursor;
  if filled : bool then Ret (received, values, cursor) else
  cursor ← (if received =? 0 then nx ← act (LLoad (ShNext start)); or_head nx else Ret cursor);
  Ret (received, values, cursor).

Definition try_recv_batch_into (fuel : nat) (cursor : Z) (values : list T) (size : Z) :
  prog (lubqE T) ((Z + TryRecvError) * list T * Z) :=
  if size =? 0 then Ret (inl 0, values, cursor) else
  '(received, values, cursor) ← scan_batch_once fuel cursor values size;
  if negb (received =? 0) then Ret (inl received, values, cursor) else
  n ← act (LLoad Senders);
  if negb (n =? 0) then Ret (inr Empty, values, cursor) else
  '(received, values, cursor) ← scan_batch_once fuel cursor values size;
  Ret (if received =? 0 then inr Disconnected else inl received, values, cursor).

Definition try_recv_batch (fuel : nat) (cursor size : Z) :
  prog (lubqE T) ((list T + TryRecvError) * Z) :=
  '(r, values, cursor) ← try_recv_batch_into fuel cursor [] size;
  Ret (match r with inl _ => inl values | inr e => inr e end, cursor).

(** [Receiver::pop], [pop_batch] and [pop_batch_into] drop the error. *)
Definition l_pop (fuel : nat) (cursor : Z) : prog (lubqE T) (option T * Z) :=
  '(r, cursor) ← try_recv fuel cursor;
  Ret (match r with inl v => Some v | inr _ => None end, cursor).

Definition l_pop_batch (fuel : nat) (cursor size : Z) : prog (lubqE T) (list T * Z) :=
  '(r, cursor) ← try_recv_batch fuel cursor size;
  Ret (match r with inl l => l | inr _ => [] end, cursor).

Definition l_pop_batch_into (fuel : nat) (cursor : Z) (values : list T) (size : Z) :
  prog (lubqE T) (Z * list T * Z) :=
  '(r, values, cursor) ← try_recv_batch_into fuel cursor values size;
  Ret (match r with inl n => n | inr _ => 0 end, values, cursor).

(** [Clone for Receiver]: an independent cursor. *)
Definition Receiver_clone : Z := 0.

End programs.
