(* ===== verification/LubqInv.v ===== *)
(** * The registry invariant of the linked-shard channel

    The registry is a list of shards in the order of their ids, linked by their
    [next] words; each shard holds the list of values the interface of the shard
    queue ascribes to it.  The scans of a receiver visit every shard once, in
    round-robin order. *)

From S2P Require Import Prelude Prog Layout Head Geometry Shard Lubq.

Arguments set_reg_head {Q} v s /.
Arguments set_reg_tail {Q} v s /.
Arguments set_reg_locked {Q} v s /.
Arguments set_owned {Q} v s /.
Arguments set_next_id {Q} v s /.
Arguments set_senders {Q} v s /.
Arguments set_shards {Q} v s /.

(** ** Round-robin scans of a list of shards *)

Section spec.
Context {T : Type}.
Implicit Types (ls : list (bool * list T)) (order : list nat).

(** The order in which a scan from [start] visits [n] shards. *)
Definition rotation (start n : nat) : list nat := seq start (n - start) ++ seq 0 start.

(** The shard after [i], the first one after the last. *)
Definition nxt (i n : nat) : nat := if decide (S i < n)%nat then S i else 0.

(** The first shard of [order] that holds a value, and that value. *)
Fixpoint scan_first order ls : option (nat * T) :=
  match order with
  | [] => None
  | i :: order =>
      match ls !! i with
      | Some (_, v :: _) => Some (i, v)
      | _ => scan_first order ls
      end
  end.

(** Removing [n] values from shard [i]. *)
Definition take_from (i n : nat) ls : list (bool * list T) :=
  alter (λ x, (x.1, drop n x.2)) i ls.

(** Up to [n] values from the shards of [order]: the values, the last shard that
    delivered any, and the remaining shards. *)
Fixpoint scan_batch order (n : nat) ls : list T * option nat * list (bool * list T) :=
  match order with
  | [] => ([], None, ls)
  | i :: order =>
      if decide (n = 0)%nat then ([], None, ls) else
      let got := take n (default [] (snd <$> ls !! i)) in
      let '(rest, last, ls') := scan_batch order (n - length got) (take_from i n ls) in
      (got ++ rest, match last with Some j => Some j | None => if got is [] then None else Some i end, ls')
  end.

Lemma take_from_insert i n ls b l :
  ls !! i = Some (b, l) → take_from i n ls = <[i := (b, drop n l)]> ls.
Proof.
  intros Hl. apply list_eq. intros j. unfold take_from. destruct (decide (i = j)) as [<-|Hne].
  - by rewrite list_lookup_alter_eq, Hl, list_lookup_insert_eq by (by eapply lookup_lt_Some).
  - by rewrite list_lookup_alter_ne, list_lookup_insert_ne by done.
Qed.

Lemma take_from_nil i n ls b : ls !! i = Some (b, []) → take_from i n ls = ls.
Proof. intros Hl. rewrite (take_from_insert _ _ _ _ _ Hl), drop_nil. by apply list_insert_id. Qed.

Lemma scan_first_app o o' ls :
  scan_first (o ++ o') ls = match scan_first o ls with Some r => Some r | None => scan_first o' ls end.
Proof. induction o as [|i o IH]; [done|]. simpl. by destruct (ls !! i) as [[b [|v l]]|]. Qed.

(** A scan of every shard that finds nothing has seen every shard empty. *)
Lemma scan_first_None o ls :
  scan_first o ls = None ↔ ∀ i b l, i ∈ o → ls !! i = Some (b, l) → l = [].
Proof.
  induction o as [|j o IH]; simpl; [split; [set_solver|done]|].
  destruct (ls !! j) as [[b [|v l]]|] eqn:Hj; rewrite ?IH.
  - split; [|set_solver]. intros Hx i b' l' [->|Hi]%elem_of_cons Hl; [congruence|by eapply Hx].
  - split; [done|]. intros Hx. specialize (Hx j b (v :: l) ltac:(left) Hj). done.
  - split; [|set_solver]. intros Hx i b' l' [->|Hi]%elem_of_cons Hl; [congruence|by eapply Hx].
Qed.

Lemma scan_first_Some o ls i v :
  scan_first o ls = Some (i, v) → i ∈ o ∧ ∃ b l, ls !! i = Some (b, v :: l).
Proof.
  induction o as [|j o IH]; simpl; [done|].
  destruct (ls !! j) as [[b [|w l]]|] eqn:Hj.
  - intros [? ?]%IH. set_solver.
  - intros [= -> ->]. split; [left|eauto].
  - intros [? ?]%IH. set_solver.
Qed.

Lemma elem_of_rotation start n i : (start < n)%nat → i ∈ rotation start n ↔ (i < n)%nat.
Proof. intros Hs. unfold rotation. rewrite elem_of_app, !elem_of_seq. lia. Qed.

End spec.

(** ** The registry *)

Section inv.
Context {T Q : Type} `{!ShardQueue T Q} `{!BoxAllocator} `{!Profile} (fuel : nat).
Implicit Types (s : lmem Q) (al : list Z) (ls : list (bool * list T)).

(** The channel's memory, its shard calls run with [fuel]. *)
#[local] Instance lubq_run : Handler (lubqE T) (lmem Q) := lubq_handler fuel.

(** The words the registry does not cover. *)
Definition lw s : Z * Z := (senders s, reg_locked s).

Definition sa al (i : nat) : Z := default 0 (al !! i).

Record lrep al ls (cost : nat) s : Prop := {
  lr_owned : owned s = al;
  lr_len : length al = length ls;
  lr_some : (0 < length al)%nat;
  lr_nodup : NoDup al;
  lr_pos : ∀ i, (i < length al)%nat → 0 < sa al i;
  lr_head : reg_head s = sa al 0;
  lr_tail : reg_tail s = sa al (length al - 1);
  lr_next_id : next_id s = Z.of_nat (length al);
  lr_shard : ∀ i b l, ls !! i = Some (b, l) → ∃ q,
    shards s !! sa al i = Some (mkShard (Z.of_nat i) (Z.b2z b) (sa al (S i)) q) ∧ q_is cost q l;
  lr_dom : ∀ a, is_Some (shards s !! a) → a ∈ al
}.

Lemma sa_inj al i j :
  NoDup al → (i < length al)%nat → (j < length al)%nat → sa al i = sa al j → i = j.
Proof.
  intros Hnd Hi Hj. unfold sa.
  destruct (lookup_lt_is_Some_2 al i Hi) as [a Ha], (lookup_lt_is_Some_2 al j Hj) as [b Hb].
  rewrite Ha, Hb. simpl. intros <-. by eapply NoDup_lookup.
Qed.

Lemma lrep_mono al ls cost cost' s : lrep al ls cost s → (cost ≤ cost')%nat → lrep al ls cost' s.
Proof.
  intros [] Hc. split; try done. intros i b l Hi. destruct (lr_shard0 i b l Hi) as (q & ? & ?).
  exists q. split; [done|]. by eapply q_mono.
Qed.

Lemma lrep_lookup al ls cost s i :
  lrep al ls cost s → (i < length al)%nat → ∃ b l q, ls !! i = Some (b, l) ∧
    shards s !! sa al i = Some (mkShard (Z.of_nat i) (Z.b2z b) (sa al (S i)) q) ∧ q_is cost q l.
Proof.
  intros Hr Hi. destruct (lookup_lt_is_Some_2 ls i) as [[b l] Hl]; [by rewrite <- (lr_len _ _ _ _ Hr)|].
  destruct (lr_shard _ _ _ _ Hr i b l Hl) as (q & ? & ?). by exists b, l, q.
Qed.

(** Replacing one shard. *)
Lemma lrep_update al ls cost cost' s i b l q :
  lrep al ls cost s → (i < length al)%nat → q_is cost' q l → (cost ≤ cost')%nat →
  lrep al (<[i := (b, l)]> ls) cost' (set_shards
    (<[sa al i := mkShard (Z.of_nat i) (Z.b2z b) (sa al (S i)) q]> (shards s)) s).
Proof.
  intros Hr Hi Hq Hc. apply (lrep_mono _ _ _ cost') in Hr as Hr'; [|done].
  destruct (lrep_lookup al ls cost s i Hr Hi) as (b0 & l0 & q0 & Hl0 & Hs0 & _).
  destruct Hr'. split; simpl; try done.
  - by rewrite length_insert.
  - intros j b' l' [(-> & [= <- <-] & _)|[Hne Hj]]%list_lookup_insert_Some.
    + exists q. by rewrite lookup_insert_eq.
    + rewrite lookup_insert_ne; [by apply lr_shard0|].
      intros E. apply Hne. eapply sa_inj; [done|done| |done]. apply lookup_lt_Some in Hj. lia.
  - intros a. destruct (decide (sa al i = a)) as [<-|Hne]; [|rewrite lookup_insert_ne by done; apply lr_dom0].
    intros _. apply lr_dom0. eauto.
Qed.

(** Words outside the registry. *)
Lemma lrep_words al ls cost s n k :
  lrep al ls cost s →
  lrep al ls cost (mkLMem (reg_head s) (reg_tail s) k (owned s) (next_id s) n (shards s)).
Proof. by intros []. Qed.

(** ** Accesses *)

Lemma handle_lload l s v : lrd l s = Some v → handle (LLoad (T:=T) l) s = Next v s.
Proof. unfold handle, lubq_run, lubq_handler. by intros ->. Qed.

Lemma handle_lstore l v s s' : lwr l v s = Some s' → handle (LStore (T:=T) l v) s = Next tt s'.
Proof. unfold handle, lubq_run, lubq_handler. by intros ->. Qed.

Lemma handle_lcas_ok w l old new s s' :
  lrd l s = Some old → lwr l new s = Some s' → handle (LCas (T:=T) w l old new) s = Next (inl old) s'.
Proof. unfold handle, lubq_run, lubq_handler. intros -> Hw. simpl. by rewrite Z.eqb_refl, Hw. Qed.

Lemma wp_LId {A} al ls cost s i (f : Z → prog (lubqE T) A) Φ :
  lrep al ls cost s → (i < length al)%nat → wp (f (Z.of_nat i)) s Φ → wp (act (LId (sa al i)) ≫= f) s Φ.
Proof.
  intros Hr Hi Hf. destruct (lrep_lookup al ls cost s i Hr Hi) as (b & l & q & _ & Hs & _).
  eapply wp_act_bind; [unfold handle, lubq_run, lubq_handler; by rewrite Hs|]. done.
Qed.

Lemma wp_ShNext {A} al ls cost s i (f : Z → prog (lubqE T) A) Φ :
  lrep al ls cost s → (i < length al)%nat → wp (f (sa al (S i))) s Φ →
  wp (act (LLoad (ShNext (sa al i))) ≫= f) s Φ.
Proof.
  intros Hr Hi Hf. destruct (lrep_lookup al ls cost s i Hr Hi) as (b & l & q & _ & Hs & _).
  eapply wp_act_bind; [apply handle_lload; unfold lrd; by rewrite Hs|]. done.
Qed.

Lemma wp_LQueue al ls cost s i b l X (c : qcall T X) :
  lrep al ls cost s → ls !! i = Some (b, l) → qcall_ok c → (cost + qcost c + 1 < fuel)%nat →
  wp (act (LQueue (sa al i) c)) s (λ x s', x = (qspec c l).1 ∧
    lrep al (<[i := (b, (qspec c l).2)]> ls) (cost + qcost c) s' ∧ lw s' = lw s).
Proof.
  intros Hr Hl Hok Hf. assert (i < length al)%nat as Hi.
  { rewrite (lr_len _ _ _ _ Hr). by eapply lookup_lt_Some. }
  destruct (lr_shard _ _ _ _ Hr i b l Hl) as (q & Hs & Hq).
  pose proof (q_run_is fuel cost q l X c Hq Hok Hf) as Hrun.
  unfold wp, act. cbn [run]. unfold handle, lubq_run, lubq_handler. rewrite Hs. cbn [sh_queue].
  destruct (q_run fuel c q) as [x q'| |]; [|done|done]. destruct Hrun as [-> Hq'].
  split; [done|]. split; [|done]. apply (lrep_update al ls cost); [done..|lia].
Qed.

(** Popping from an empty shard leaves it as it is. *)
Lemma wp_pop_from al ls cost s i b l :
  lrep al ls cost s → ls !! i = Some (b, l) → (cost + 1 < fuel)%nat →
  wp (pop_from (sa al i)) s (λ x s', x = head l ∧
    lrep al (take_from i 1 ls) cost s' ∧ lw s' = lw s).
Proof.
  intros Hr Hl Hf. eapply wp_mono; [apply (wp_LQueue al ls cost s i b l _ QPop Hr Hl); simpl; (done || lia)|].
  intros x s' (-> & Hr' & Hn). simpl in *. rewrite Nat.add_0_r in Hr'. split; [done|]. split; [|done].
  rewrite (take_from_insert i 1 ls b l Hl). by destruct l.
Qed.

(** ** The scan *)

Lemma wp_ptr_filter al ls cost s i :
  lrep al ls cost s →
  wp (ptr_filter (T:=T) (sa al i) (Z.of_nat (length al - 1))) s (λ x s', x = sa al i ∧ s' = s).
Proof.
  intros Hr. unfold ptr_filter. destruct (decide (i < length al)%nat) as [Hi|Hi].
  - pose proof (lr_pos _ _ _ _ Hr i Hi). rewrite (proj2 (Z.eqb_neq _ _)) by lia.
    apply (wp_LId al ls cost); [done|done|]. apply wp_ret. by rewrite (proj2 (Z.leb_le _ _)) by lia.
  - assert (sa al i = 0) as -> by (unfold sa; by rewrite lookup_ge_None_2 by lia). by apply wp_ret.
Qed.

Lemma wp_or_head al ls cost s i :
  lrep al ls cost s →
  wp (or_head (T:=T) (sa al (S i))) s (λ x s', x = sa al (nxt i (length al)) ∧ s' = s).
Proof.
  intros Hr. unfold or_head, nxt. destruct (decide (S i < length al)%nat) as [Hi|Hi].
  - pose proof (lr_pos _ _ _ _ Hr (S i) Hi). rewrite (proj2 (Z.eqb_neq _ _)) by lia. by apply wp_ret.
  - assert (sa al (S i) = 0) as -> by (unfold sa; by rewrite lookup_ge_None_2 by lia).
    eapply wp_act; [by apply handle_lload|]. split; [apply Hr|done].
Qed.

(** What a scan over [order] delivers. *)
Definition scanned al ls cost order (n0 : Z * Z) (r : option (T * Z)) s : Prop :=
  lw s = n0 ∧
  match scan_first order ls with
  | Some (i, v) => r = Some (v, sa al (nxt i (length al))) ∧ lrep al (take_from i 1 ls) cost s
  | None => r = None ∧ lrep al ls cost s
  end.

(** One shard of a scan: the value it holds, or on to the rest. *)
Lemma wp_visit {A} al ls cost s i order (found : T → Z → prog (lubqE T) A) (rest : prog (lubqE T) A) Φ :
  lrep al ls cost s → (i < length al)%nat → (cost + 1 < fuel)%nat →
  (∀ v s', scanned al ls cost (i :: order) (lw s) (Some (v, sa al (nxt i (length al)))) s' →
     wp (found v (sa al (nxt i (length al)))) s' Φ) →
  (∀ s', lrep al ls cost s' → lw s' = lw s →
     scan_first (i :: order) ls = scan_first order ls → wp rest s' Φ) →
  wp (v ← pop_from (sa al i);
      match v with
      | Some value => cursor ← or_head (sa al (S i)); found value cursor
      | None => rest
      end) s Φ.
Proof.
  intros Hr Hi Hf Hfound Hrest. destruct (lrep_lookup al ls cost s i Hr Hi) as (b & l & q & Hl & _).
  apply wp_bind. eapply wp_mono; [by apply (wp_pop_from al ls cost s i b l)|].
  intros x s' (-> & Hr' & Hn). destruct l as [|v l]; simpl.
  - rewrite (take_from_nil i 1 ls b Hl) in Hr'. apply Hrest; [done|done|]. simpl. by rewrite Hl.
  - apply wp_bind. eapply wp_mono; [by eapply (wp_or_head al)|]. intros ? ? [-> ->]. apply Hfound.
    split; [done|]. simpl. by rewrite Hl.
Qed.

Lemma wp_scan_through al ls cost s start n :
  lrep al ls cost s → (start < length al)%nat → (length al - start < n)%nat → (cost + 1 < fuel)%nat →
  wp (scan_through n (Z.of_nat (length al - 1)) (sa al start)) s
    (scanned al ls cost (seq start (length al - start)) (lw s)).
Proof.
  intros Hr Hs Hn Hf. unfold scan_through.
  revert start s Hr Hs Hn. induction n as [|n IH]; intros i s Hr Hi Hn; [lia|].
  apply wp_loop_unfold. pose proof (lr_pos _ _ _ _ Hr i Hi). rewrite (proj2 (Z.eqb_neq _ _)) by lia.
  apply (wp_LId al ls cost); [done|done|]. rewrite (proj2 (Z.ltb_ge _ _)) by lia.
  apply (wp_ShNext al ls cost); [done|done|].
  replace (length al - i)%nat with (S (length al - S i)) by lia. cbn [seq].
  eapply (wp_visit al ls cost s i _ (λ v c, Ret (inr (Some (v, c))))); [done..| |].
  { intros v s' Hsc. apply wp_ret. exact Hsc. }
  intros s' Hr' Hn' Hsame. destruct (Z.eqb_spec (Z.of_nat i) (Z.of_nat (length al - 1))) as [E|Hne].
  - apply wp_ret. split; [done|]. rewrite Hsame.
    replace (length al - S i)%nat with 0%nat by lia. done.
  - apply wp_bind. eapply wp_mono; [by eapply (wp_ptr_filter al ls)|]. intros ? ? [-> ->]. apply wp_ret.
    eapply wp_mono; [apply (IH (S i) s' Hr'); lia|]. unfold scanned. rewrite Hsame, Hn'. done.
Qed.

Lemma wp_scan_prefix al ls cost s start n :
  lrep al ls cost s → (start < length al)%nat → (start < n)%nat → (cost + 1 < fuel)%nat →
  wp (scan_prefix n (Z.of_nat (length al - 1)) (Z.of_nat start)) s
    (scanned al ls cost (seq 0 start) (lw s)).
Proof.
  intros Hr Hs Hn Hf. unfold scan_prefix. eapply wp_act_bind; [by apply handle_lload|].
  rewrite (lr_head _ _ _ _ Hr).
  assert (∀ n k s, lrep al ls cost s → (k ≤ start)%nat → (start - k < n)%nat →
    wp (loop n (λ current, if current =? 0 then Ret (inr None) else
      id ← act (LId current);
      if (Z.of_nat start <=? id) || (Z.of_nat (length al - 1) <? id) then Ret (inr None) else
      nx ← act (LLoad (ShNext current));
      v ← pop_from current;
      match v with
      | Some value => cursor ← or_head nx; Ret (inr (Some (value, cursor)))
      | None => candidate ← ptr_filter nx (Z.of_nat (length al - 1)); Ret (inl candidate)
      end) (sa al k)) s (scanned al ls cost (seq k (start - k)) (lw s))) as Hl.
  2: { specialize (Hl n 0%nat s). rewrite Nat.sub_0_r in Hl. apply Hl; [done|lia|lia]. }
  clear Hn s Hr. intros m. induction m as [|m IH]; intros k s Hr Hk Hm; [lia|].
  apply wp_loop_unfold. pose proof (lr_pos _ _ _ _ Hr k ltac:(lia)). rewrite (proj2 (Z.eqb_neq _ _)) by lia.
  apply (wp_LId al ls cost); [done|lia|].
  destruct (Z.leb_spec (Z.of_nat start) (Z.of_nat k)) as [Hge|Hlt]; cbn [orb].
  { apply wp_ret. replace (start - k)%nat with 0%nat by lia. done. }
  rewrite (proj2 (Z.ltb_ge _ _)) by lia. apply (wp_ShNext al ls cost); [done|lia|].
  replace (start - k)%nat with (S (start - S k)) by lia. cbn [seq].
  eapply (wp_visit al ls cost s k _ (λ v c, Ret (inr (Some (v, c))))); [done|lia|done| |].
  { intros v s' Hsc. apply wp_ret. exact Hsc. }
  intros s' Hr' Hn' Hsame. apply wp_bind. eapply wp_mono; [by eapply (wp_ptr_filter al ls)|].
  intros ? ? [-> ->]. apply wp_ret. eapply wp_mono; [apply (IH (S k) s' Hr'); lia|].
  unfold scanned. rewrite Hsame, Hn'. done.
Qed.

(** A cursor: none yet, or a shard. *)
Definition cursor_at al (c : option nat) : Z := match c with Some i => sa al i | None => 0 end.

Definition cursor_ok al (c : option nat) : Prop := match c with Some i => (i < length al)%nat | None => True end.

Definition start_of (c : option nat) : nat := default 0%nat c.

(** Choosing where a scan starts. *)
Lemma wp_scan_start {A} al ls cost s c (f : Z → prog (lubqE T) A) Φ :
  lrep al ls cost s → cursor_ok al c → wp (f (sa al (start_of c))) s Φ →
  wp (start ← ptr_filter (cursor_at al c) (Z.of_nat (length al - 1)); start ← or_head start; f start) s Φ.
Proof.
  intros Hr Hc Hf. pose proof (lr_some _ _ _ _ Hr). apply wp_bind.
  assert (∃ i, cursor_at al c = sa al i) as [i Ei].
  { destruct c as [i|]; [by exists i|]. exists (length al). simpl. unfold sa.
    by rewrite lookup_ge_None_2. }
  rewrite Ei. eapply wp_mono; [by eapply (wp_ptr_filter al ls)|]. intros ? ? [-> ->]. rewrite <- Ei.
  apply wp_bind. unfold or_head. destruct c as [j|]; simpl in *.
  - pose proof (lr_pos _ _ _ _ Hr j Hc). rewrite (proj2 (Z.eqb_neq _ _)) by lia. by apply wp_ret.
  - eapply wp_act; [by apply handle_lload|]. by rewrite (lr_head _ _ _ _ Hr).
Qed.

Lemma start_ok al ls cost s c : lrep al ls cost s → cursor_ok al c → (start_of c < length al)%nat.
Proof. intros Hr Hc. pose proof (lr_some _ _ _ _ Hr). by destruct c. Qed.

(** One scan: the first value in round-robin order from the cursor, and a cursor
    that has moved on. *)
Definition spec_scan (c : option nat) ls : option T * option nat * list (bool * list T) :=
  let n := length ls in
  match scan_first (rotation (start_of c) n) ls with
  | Some (i, v) => (Some v, Some (nxt i n), take_from i 1 ls)
  | None => (None, Some (nxt (start_of c) n), ls)
  end.

Lemma wp_scan_once al ls cost s c n :
  lrep al ls cost s → cursor_ok al c → (length al < n)%nat → (cost + 1 < fuel)%nat →
  wp (scan_once n (cursor_at al c)) s (λ '(r, cur) s', ∃ c',
    (r, Some c', cur) = ((spec_scan c ls).1.1, (spec_scan c ls).1.2, sa al c') ∧ (c' < length al)%nat ∧
    lrep al (spec_scan c ls).2 cost s' ∧ lw s' = lw s).
Proof.
  intros Hr Hc Hn Hf. pose proof (lr_some _ _ _ _ Hr) as Hsome. pose proof (start_ok _ _ _ _ _ Hr Hc) as Hst.
  assert (∀ i, nxt i (length al) < length al)%nat as Hnxt by (intros i; unfold nxt; destruct (decide _); lia).
  unfold scan_once, spec_scan. eapply wp_act_bind; [by apply handle_lload|]. rewrite (lr_tail _ _ _ _ Hr).
  pose proof (lr_pos _ _ _ _ Hr (length al - 1) ltac:(lia)). rewrite (proj2 (Z.eqb_neq _ _)) by lia.
  apply (wp_LId al ls cost); [done|lia|]. apply (wp_scan_start al ls cost); [done|done|].
  set (st := start_of c) in *. pose proof (lr_pos _ _ _ _ Hr st Hst). rewrite (proj2 (Z.eqb_neq (sa al st) _)) by lia.
  apply (wp_LId al ls cost); [done|done|]. apply wp_bind.
  eapply wp_mono; [apply (wp_scan_through al ls cost s st n Hr Hst); lia|].
  intros r s1 [Hn1 Hsc1]. unfold rotation. rewrite scan_first_app, <- (lr_len _ _ _ _ Hr).
  destruct (scan_first (seq st _) ls) as [[i v]|]; destruct Hsc1 as [-> Hr1].
  { apply wp_ret. exists (nxt i (length al)). split; [done|]. split; [apply Hnxt|]. done. }
  apply wp_bind. eapply wp_mono; [apply (wp_scan_prefix al ls cost s1 st n Hr1 Hst); lia|].
  intros r s2 [Hn2 Hsc2]. destruct (scan_first (seq 0 st) ls) as [[i v]|]; destruct Hsc2 as [-> Hr2].
  { apply wp_ret. exists (nxt i (length al)). split; [done|]. split; [apply Hnxt|]. split; [done|congruence]. }
  apply (wp_ShNext al ls cost); [done|done|]. apply wp_bind.
  eapply wp_mono; [by eapply (wp_or_head al ls)|]. intros ? ? [-> ->]. apply wp_ret.
  exists (nxt st (length al)). split; [done|]. split; [apply Hnxt|]. split; [done|congruence].
Qed.

End inv.
