(* ===== verification/LubqBatch.v ===== *)
(** * Batch scans and sender registration

    A batch scan asks every shard once, in round-robin order, for what is still
    missing; a new sender takes the first retired empty shard or appends one. *)

From S2P Require Import Prelude Prog Layout Head Geometry Shard Lubq LubqInv.

Section batch_spec.
Context {T : Type}.
Implicit Types (ls : list (bool * list T)) (order : list nat).

Lemma scan_batch_0 order ls : scan_batch order 0 ls = ([], None, ls).
Proof. by destruct order. Qed.

Lemma scan_batch_cons i order n ls :
  (0 < n)%nat →
  scan_batch (i :: order) n ls =
    let got := take n (default [] (snd <$> ls !! i)) in
    let '(rest, last, ls') := scan_batch order (n - length got) (take_from i n ls) in
    (got ++ rest, match last with Some j => Some j | None => if got is [] then None else Some i end, ls').
Proof. intros Hn. simpl. by rewrite decide_False by lia. Qed.

Lemma scan_batch_app o o' n ls :
  scan_batch (o ++ o') n ls =
    let '(g1, l1, ls1) := scan_batch o n ls in
    let '(g2, l2, ls2) := scan_batch o' (n - length g1) ls1 in
    (g1 ++ g2, match l2 with Some j => Some j | None => l1 end, ls2).
Proof.
  revert n ls. induction o as [|i o IH]; intros n ls; cbn [app].
  - simpl. rewrite Nat.sub_0_r. by destruct (scan_batch o' n ls) as [[g2 [j|]] ls2].
  - destruct (decide (n = 0)%nat) as [->|Hn]; [by rewrite !scan_batch_0; simpl; rewrite ?scan_batch_0|].
    rewrite !scan_batch_cons by lia. cbv zeta. set (got := take _ _). rewrite IH.
    destruct (scan_batch o _ _) as [[g1 l1] ls1]. rewrite length_app, Nat.sub_add_distr.
    destruct (scan_batch o' _ _) as [[g2 l2] ls2]. rewrite app_assoc. by destruct l2.
Qed.

(** A scan delivers something exactly when some shard was the last to deliver;
    never more than asked; and every shard keeps its flag. *)
Lemma scan_batch_last order n ls :
  let '(got, last, ls') := scan_batch order n ls in
  (last = None ↔ got = []) ∧ (length got ≤ n)%nat ∧ length ls' = length ls.
Proof.
  revert n ls. induction order as [|i order IH]; intros n ls; [simpl; split_and!; (done || lia)|].
  destruct (decide (n = 0)%nat) as [->|Hn]; [rewrite scan_batch_0; split_and!; (done || lia)|].
  rewrite scan_batch_cons by lia. cbv zeta. set (got := take n _).
  specialize (IH (n - length got)%nat (take_from i n ls)).
  assert (length got ≤ n)%nat by (unfold got; rewrite length_take; lia).
  destruct (scan_batch order _ _) as [[rest last] ls']. destruct IH as (Hl & Hlen & Hls).
  unfold take_from in Hls. rewrite length_alter in Hls. split_and!; [|rewrite length_app; lia|done].
  destruct last as [j|], got as [|v got]; simpl; try done.
Qed.

End batch_spec.

Section batch.
Context {T Q : Type} `{!ShardQueue T Q} `{!BoxAllocator} `{!Profile} (fuel : nat).
Implicit Types (s : lmem Q) (al : list Z) (ls : list (bool * list T)).
#[local] Abbreviation lwp := (wp (H := lubq_run fuel)).

Lemma wp_batch_step al ls cost s i bid k rec sz values cur :
  lrep al ls cost s → (i < length al)%nat → (0 < k)%nat → (rec + k = sz)%nat →
  Z.of_nat sz ≤ usize_max → (cost + 1 < fuel)%nat →
  lwp (scan_batch_step bid (Z.of_nat sz) (sa al i) (Z.of_nat rec) values cur) s (λ r s',
    let got := take k (default [] (snd <$> ls !! i)) in
    r = (bool_decide (length got = k), sa al (S i), Z.of_nat (rec + length got), values ++ got,
         if got is [] then cur else sa al (nxt i (length al))) ∧
    lrep al (take_from i k ls) cost s' ∧ lw s' = lw s).
Proof.
  intros Hr Hi Hk Hsz Hmax Hf. destruct (lrep_lookup al ls cost s i Hr Hi) as (b & l & q & Hl & _).
  unfold scan_batch_step. apply (wp_ShNext fuel al ls cost); [done|done|].
  apply wp_usub; [lia|]. unfold pop_batch_from. apply wp_bind.
  apply wp_debug_assert; [by rewrite (proj2 (Z.eqb_neq _ _)) by lia|].
  apply wp_bind. eapply wp_mono.
  { apply (wp_LQueue fuel al ls cost s i b l _ (QPopBatch (Z.of_nat sz - Z.of_nat rec) values) Hr Hl);
      simpl; lia. }
  intros vs s1 (-> & Hr1 & Hn1). simpl in Hr1. rewrite Nat.add_0_r in Hr1. cbn [qspec fst].
  rewrite Hl. cbn [fmap option_fmap option_map snd default]. unfold id.
  replace (Z.to_nat (Z.of_nat sz - Z.of_nat rec)) with k in * by lia.
  rewrite <- (take_from_insert i k ls b l Hl) in Hr1. set (got := take k l) in *.
  assert (length got ≤ k)%nat by (unfold got; rewrite length_take; lia).
  rewrite length_app. apply wp_usub; [lia|]. apply wp_ret.
  replace (Z.of_nat (length values + length got) - Z.of_nat (length values)) with (Z.of_nat (length got)) by lia.
  destruct got as [|v got'] eqn:Eg.
  - simpl. apply wp_ret. split; [|done]. rewrite bool_decide_false by (simpl; lia).
    by rewrite Nat.add_0_r.
  - rewrite <- Eg in *. assert (0 < length got)%nat by (rewrite Eg; simpl; lia).
    rewrite (proj2 (Z.eqb_neq _ _)) by lia. cbn [negb]. apply wp_uadd; [lia|]. apply wp_bind.
    eapply wp_mono; [by eapply (wp_or_head fuel al)|]. intros ? ? [-> ->]. apply wp_ret. split; [|done].
    replace (Z.of_nat rec + Z.of_nat (length got)) with (Z.of_nat (rec + length got)) by lia.
    assert ((Z.of_nat (rec + length got) =? Z.of_nat sz) = bool_decide (length got = k)) as ->.
    { case_bool_decide; [apply Z.eqb_eq|apply Z.eqb_neq]; lia. }
    done.
Qed.

(** What a batch scan over [order] delivers. *)
Definition batched al ls cost order (k rec : nat) (values : list T) (cur : Z) (n0 : Z * Z)
  (r : bool * Z * list T * Z) s : Prop :=
  let '(got, last, ls') := scan_batch order k ls in
  r = (bool_decide (length got = k), Z.of_nat (rec + length got), values ++ got,
       match last with Some j => sa al (nxt j (length al)) | None => cur end) ∧
  lrep al ls' cost s ∧ lw s = n0.

(** One shard of a batch scan. *)
Lemma batched_cons al ls cost i order k rec values cur n0 r s :
  (0 < k)%nat →
  let got := take k (default [] (snd <$> ls !! i)) in
  batched al (take_from i k ls) cost order (k - length got) (rec + length got) (values ++ got)
    (if got is [] then cur else sa al (nxt i (length al))) n0 r s →
  batched al ls cost (i :: order) k rec values cur n0 r s.
Proof.
  intros Hk got Hb. unfold batched in *. rewrite scan_batch_cons by done. cbv zeta. fold got.
  pose proof (scan_batch_last order (k - length got) (take_from i k ls)) as Hlast.
  destruct (scan_batch order _ _) as [[rest last] ls']. destruct Hb as (-> & Hr & Hn), Hlast as (Hl & Hlen & _).
  assert (length got ≤ k)%nat by (unfold got; rewrite length_take; lia).
  split; [|done]. rewrite length_app, Nat.add_assoc, app_assoc. f_equal; [f_equal; f_equal|].
  - by apply bool_decide_ext; lia.
  - by destruct last, got.
Qed.

Lemma batched_done al ls cost k rec values cur n0 s :
  (0 < k)%nat → lrep al ls cost s → lw s = n0 →
  batched al ls cost [] k rec values cur n0 (false, Z.of_nat rec, values, cur) s.
Proof.
  intros Hk Hr Hn. unfold batched. simpl. rewrite bool_decide_false by (simpl; lia).
  by rewrite Nat.add_0_r, app_nil_r.
Qed.

Lemma batched_filled al ls cost order rec values cur n0 s :
  lrep al ls cost s → lw s = n0 →
  batched al ls cost order 0 rec values cur n0 (true, Z.of_nat rec, values, cur) s.
Proof.
  intros Hr Hn. unfold batched. rewrite scan_batch_0, bool_decide_true by done.
  by rewrite Nat.add_0_r, app_nil_r.
Qed.

Lemma wp_scan_batch_through al ls cost s start n sz values :
  lrep al ls cost s → (start < length al)%nat → (length al - start < n)%nat → (0 < sz)%nat →
  Z.of_nat sz ≤ usize_max → (cost + 1 < fuel)%nat →
  lwp (scan_batch_through n (Z.of_nat (length al - 1)) (Z.of_nat sz) (sa al start) values) s
    (batched al ls cost (seq start (length al - start)) sz 0 values 0 (lw s)).
Proof.
  intros Hr Hs Hn Hsz Hmax Hf. unfold scan_batch_through.
  match goal with |- wp (loop _ ?f _) _ _ => set (body := f) end.
  assert (∀ n i k rec values cur ls s, lrep al ls cost s → (i < length al)%nat → (length al - i < n)%nat →
    (0 < k)%nat → (rec + k = sz)%nat →
    lwp (loop n body (sa al i, Z.of_nat rec, values, cur)) s
      (batched al ls cost (seq i (length al - i)) k rec values cur (lw s))) as Hl;
    [|by apply (Hl n start sz 0%nat values 0 ls s)].
  clear dependent start values n s ls. induction n as [|n IH];
    intros i k rec values cur ls s Hr Hi Hn Hk Hrec; [lia|].
  apply wp_loop_unfold. unfold body at 1. cbv beta iota. pose proof (lr_pos _ _ _ _ Hr i Hi).
  rewrite (proj2 (Z.eqb_neq _ _)) by lia. apply (wp_LId fuel al ls cost); [done|done|].
  rewrite (proj2 (Z.ltb_ge _ _)) by lia.
  replace (length al - i)%nat with (S (length al - S i)) by lia. cbn [seq].
  apply wp_bind. eapply wp_mono; [by apply (wp_batch_step al ls cost s i _ k rec)|].
  intros r s' (-> & Hr' & Hn'). set (got := take k _) in *. rewrite <- Hn'.
  assert (length got ≤ k)%nat by (unfold got; rewrite length_take; lia).
  case_bool_decide as Ek.
  - apply wp_ret. apply batched_cons; [done|]. fold got. replace (k - length got)%nat with 0%nat by lia.
    by apply batched_filled.
  - destruct (Z.eqb_spec (Z.of_nat i) (Z.of_nat (length al - 1))) as [E|Hne].
    + apply wp_ret. replace (length al - S i)%nat with 0%nat by lia. apply batched_cons; [done|]. fold got.
      apply batched_done; [lia|done|done].
    + apply wp_bind. eapply wp_mono; [by eapply (wp_ptr_filter fuel al)|]. intros ? ? [-> ->]. apply wp_ret.
      eapply wp_mono; [apply (IH (S i) (k - length got)%nat _ _ _ _ s' Hr'); lia|].
      intros r s''. by apply batched_cons.
Qed.

Lemma wp_scan_batch_prefix al ls cost s start n sz k rec values cur :
  lrep al ls cost s → (start < length al)%nat → (start < n)%nat → (0 < k)%nat → (rec + k = sz)%nat →
  Z.of_nat sz ≤ usize_max → (cost + 1 < fuel)%nat →
  lwp (scan_batch_prefix n (Z.of_nat (length al - 1)) (Z.of_nat start) (Z.of_nat sz)
        (Z.of_nat rec) values cur) s
    (batched al ls cost (seq 0 start) k rec values cur (lw s)).
Proof.
  intros Hr Hs Hn Hk Hrec Hmax Hf. unfold scan_batch_prefix. eapply wp_act_bind; [by apply handle_lload|].
  rewrite (lr_head _ _ _ _ Hr). match goal with |- wp (loop _ ?f _) _ _ => set (body := f) end.
  assert (∀ n j k rec values cur ls s, lrep al ls cost s → (j ≤ start)%nat → (start - j < n)%nat →
    (0 < k)%nat → (rec + k = sz)%nat →
    lwp (loop n body (sa al j, Z.of_nat rec, values, cur)) s
      (batched al ls cost (seq j (start - j)) k rec values cur (lw s))) as Hl.
  2: { specialize (Hl n 0%nat k rec values cur ls s). rewrite Nat.sub_0_r in Hl. apply Hl; (done || lia). }
  clear dependent k rec values n s ls cur. induction n as [|n IH];
    intros j k rec values cur ls s Hr Hj Hn Hk Hrec; [lia|].
  apply wp_loop_unfold. unfold body at 1. cbv beta iota. pose proof (lr_pos _ _ _ _ Hr j ltac:(lia)).
  rewrite (proj2 (Z.eqb_neq _ _)) by lia. apply (wp_LId fuel al ls cost); [done|lia|].
  destruct (Z.leb_spec (Z.of_nat start) (Z.of_nat j)) as [Hge|Hlt]; cbn [orb].
  { apply wp_ret. replace (start - j)%nat with 0%nat by lia. by apply batched_done. }
  rewrite (proj2 (Z.ltb_ge _ _)) by lia. replace (start - j)%nat with (S (start - S j)) by lia. cbn [seq].
  apply wp_bind. eapply wp_mono; [apply (wp_batch_step al ls cost s j _ k rec); (done || lia)|].
  intros r s' (-> & Hr' & Hn'). set (got := take k _) in *. rewrite <- Hn'.
  assert (length got ≤ k)%nat by (unfold got; rewrite length_take; lia).
  case_bool_decide as Ek.
  - apply wp_ret. apply batched_cons; [done|]. fold got. replace (k - length got)%nat with 0%nat by lia.
    by apply batched_filled.
  - apply wp_bind. eapply wp_mono; [by eapply (wp_ptr_filter fuel al)|]. intros ? ? [-> ->]. apply wp_ret.
    eapply wp_mono; [apply (IH (S j) (k - length got)%nat _ _ _ _ s' Hr'); lia|].
    intros r s''. by apply batched_cons.
Qed.

(** One batch scan. *)
Definition spec_scan_batch (c : option nat) (n : nat) ls : list T * option nat * list (bool * list T) :=
  let N := length ls in
  let '(got, last, ls') := scan_batch (rotation (start_of c) N) n ls in
  (got, Some (nxt (default (start_of c) last) N), ls').

Lemma wp_scan_batch_once al ls cost s c n sz values :
  lrep al ls cost s → cursor_ok al c → (length al < n)%nat → (0 < sz)%nat → Z.of_nat sz ≤ usize_max →
  (cost + 1 < fuel)%nat →
  lwp (scan_batch_once n (cursor_at al c) values (Z.of_nat sz)) s (λ r s', ∃ c',
    let '(got, nc, ls') := spec_scan_batch c sz ls in
    nc = Some c' ∧ (c' < length al)%nat ∧
    r = (Z.of_nat (length got), values ++ got, sa al c') ∧ lrep al ls' cost s' ∧ lw s' = lw s).
Proof.
  intros Hr Hc Hn Hsz Hmax Hf. pose proof (lr_some _ _ _ _ Hr) as Hsome. pose proof (start_ok _ _ _ _ _ Hr Hc) as Hst.
  assert (∀ i, nxt i (length al) < length al)%nat as Hnxt by (intros i; unfold nxt; destruct (decide _); lia).
  unfold scan_batch_once, spec_scan_batch. apply wp_debug_assert; [by rewrite (proj2 (Z.eqb_neq _ _)) by lia|].
  eapply wp_act_bind; [by apply handle_lload|]. rewrite (lr_tail _ _ _ _ Hr).
  pose proof (lr_pos _ _ _ _ Hr (length al - 1) ltac:(lia)). rewrite (proj2 (Z.eqb_neq _ _)) by lia.
  apply (wp_LId fuel al ls cost); [done|lia|]. apply (wp_scan_start fuel al ls cost); [done|done|].
  set (st := start_of c) in *. pose proof (lr_pos _ _ _ _ Hr st Hst). rewrite (proj2 (Z.eqb_neq (sa al st) _)) by lia.
  apply (wp_LId fuel al ls cost); [done|done|]. apply wp_bind.
  eapply wp_mono; [apply (wp_scan_batch_through al ls cost s st n sz values Hr Hst); lia|].
  unfold rotation. rewrite scan_batch_app, <- (lr_len _ _ _ _ Hr).
  intros r s1. unfold batched at 1. pose proof (scan_batch_last (seq st (length al - st)) sz ls) as Hl1.
  destruct (scan_batch (seq st _) sz ls) as [[g1 l1] ls1]. destruct Hl1 as (Hl1 & Hg1 & _).
  intros (-> & Hr1 & Hn1). cbv beta iota. case_bool_decide as E1.
  { rewrite E1, Nat.sub_diag, scan_batch_0. apply wp_ret. rewrite app_nil_r.
    destruct l1 as [j|]; [|assert (g1 = []) by (by apply Hl1); subst g1; simpl in E1; lia].
    exists (nxt j (length al)). simpl. split_and!; try done. rewrite <- E1. done. }
  apply wp_bind. eapply wp_mono.
  { apply (wp_scan_batch_prefix al ls1 cost s1 st n sz (sz - length g1) (0 + length g1)); try done; lia. }
  intros r s2. unfold batched at 1. pose proof (scan_batch_last (seq 0 st) (sz - length g1) ls1) as Hl2.
  destruct (scan_batch (seq 0 st) _ ls1) as [[g2 l2] ls2]. destruct Hl2 as (Hl2 & Hg2 & _).
  intros (-> & Hr2 & Hn2). cbv beta iota. rewrite <- app_assoc.
  replace (0 + length g1 + length g2)%nat with (length (g1 ++ g2)) by (rewrite length_app; lia).
  assert (∀ j, match l2 with Some j => Some j | None => l1 end = Some j →
    match l2 with Some j => sa al (nxt j (length al))
    | None => match l1 with Some j => sa al (nxt j (length al)) | None => 0 end end = sa al (nxt j (length al))) as Hcur.
  { intros j. destruct l2; [by intros [= ->]|]. by intros ->. }
  case_bool_decide as E2.
  { apply wp_ret. destruct (match l2 with Some j => Some j | None => l1 end) as [j|] eqn:Ej.
    - exists (nxt j (length al)). simpl. rewrite (Hcur j eq_refl). split_and!; try done. congruence.
    - destruct l2 as [|]; [done|]. assert (g2 = []) by (by apply Hl2). subst g2. simpl in E2. lia. }
  apply wp_bind. destruct (match l2 with Some j => Some j | None => l1 end) as [j|] eqn:Ej.
  - assert (g1 ++ g2 ≠ []) as Hne.
    { intros [-> ->]%app_nil. destruct l2; [by specialize (proj2 Hl2 eq_refl)|].
      subst l1. by specialize (proj2 Hl1 eq_refl). }
    assert (length (g1 ++ g2) ≠ 0)%nat by (by destruct (g1 ++ g2)).
    rewrite (proj2 (Z.eqb_neq _ _)) by lia. apply wp_ret, wp_ret. exists (nxt j (length al)). simpl.
    rewrite (Hcur j eq_refl). split_and!; try done. congruence.
  - destruct l2; [done|]. subst l1. assert (g1 = []) as -> by (by apply Hl1).
    assert (g2 = []) as -> by (by apply Hl2). simpl.
    apply (wp_ShNext fuel al ls2 cost); [done|done|].
    eapply wp_mono; [by eapply (wp_or_head fuel al ls2)|]. intros ? ? [-> ->]. apply wp_ret.
    exists (nxt st (length al)). simpl. split_and!; try done. congruence.
Qed.

(** ** Receiving *)

Definition spec_recv (closed : bool) (c : option nat) ls :
  (T + TryRecvError) * option nat * list (bool * list T) :=
  match spec_scan c ls with
  | (Some v, c, ls) => (inl v, c, ls)
  | (None, c, ls) =>
      if negb closed then (inr Empty, c, ls) else
      let '(v, c, ls) := spec_scan c ls in
      (match v with Some v => inl v | None => inr Disconnected end, c, ls)
  end.

Lemma wp_try_recv al ls cost s c n :
  lrep al ls cost s → cursor_ok al c → (length al < n)%nat → (cost + 1 < fuel)%nat →
  lwp (try_recv n (cursor_at al c)) s (λ '(r, cur) s', ∃ c',
    (r, Some c', cur) = ((spec_recv (senders s =? 0) c ls).1.1, (spec_recv (senders s =? 0) c ls).1.2, sa al c') ∧
    (c' < length al)%nat ∧ lrep al (spec_recv (senders s =? 0) c ls).2 cost s' ∧ lw s' = lw s).
Proof.
  intros Hr Hc Hn Hf. unfold try_recv, spec_recv. apply wp_bind.
  eapply wp_mono; [by apply (wp_scan_once fuel al ls cost s c n)|].
  intros [v cur] s1 (c1 & E1 & Hc1 & Hr1 & Hw1). destruct (spec_scan c ls) as [[v1 nc1] ls1]. simpl in *.
  injection E1 as -> <- ->. destruct v1 as [v|].
  { apply wp_ret. by exists c1. }
  eapply wp_act_bind; [by apply handle_lload|]. injection Hw1 as Ew1 Ew1'. rewrite Ew1.
  destruct (Z.eqb_spec (senders s) 0) as [E|Hne]; cbn [negb].
  - apply wp_bind. eapply wp_mono; [by apply (wp_scan_once fuel al ls1 cost s1 (Some c1) n)|].
    intros [v cur] s2 (c2 & E2 & Hc2 & Hr2 & Hw2). destruct (spec_scan (Some c1) ls1) as [[v2 nc2] ls2]. simpl in *.
    injection E2 as -> <- ->. apply wp_ret. exists c2. split; [by destruct v2|]. split; [done|]. split; [done|].
    unfold lw in *. congruence.
  - apply wp_ret. exists c1. split; [done|]. split; [done|]. split; [done|]. unfold lw in *. congruence.
Qed.

Definition spec_recv_batch (closed : bool) (c : option nat) (n : nat) ls :
  (nat + TryRecvError) * list T * option nat * list (bool * list T) :=
  if decide (n = 0)%nat then (inl 0%nat, [], c, ls) else
  match spec_scan_batch c n ls with
  | ([], c, ls) =>
      if negb closed then (inr Empty, [], c, ls) else
      let '(got, c, ls) := spec_scan_batch c n ls in
      (if got is [] then inr Disconnected else inl (length got), got, c, ls)
  | (got, c, ls) => (inl (length got), got, c, ls)
  end.

Definition z_result (r : nat + TryRecvError) : Z + TryRecvError :=
  match r with inl n => inl (Z.of_nat n) | inr e => inr e end.

Lemma wp_try_recv_batch_into al ls cost s c n sz values :
  lrep al ls cost s → cursor_ok al c → (length al < n)%nat → (cost + 1 < fuel)%nat →
  Z.of_nat sz ≤ usize_max →
  lwp (try_recv_batch_into n (cursor_at al c) values (Z.of_nat sz)) s (λ r s', ∃ c',
    let '(res, got, nc, ls') := spec_recv_batch (senders s =? 0) c sz ls in
    nc = c' ∧ cursor_ok al c' ∧ r = (z_result res, values ++ got, cursor_at al c') ∧
    lrep al ls' cost s' ∧ lw s' = lw s).
Proof.
  intros Hr Hc Hn Hf Hmax. unfold try_recv_batch_into, spec_recv_batch.
  destruct (decide (sz = 0)%nat) as [->|Hsz].
  { apply wp_ret. exists c. by rewrite app_nil_r. }
  rewrite (proj2 (Z.eqb_neq _ _)) by lia. apply wp_bind.
  eapply wp_mono; [apply (wp_scan_batch_once al ls cost s c n sz values); (done || lia)|].
  intros r s1 (c1 & H1'). destruct (spec_scan_batch c sz ls) as [[got nc1] ls1].
  destruct H1' as (-> & Hc1 & -> & Hr1 & Hw1). cbv beta iota.
  destruct got as [|v got].
  2: { rewrite (proj2 (Z.eqb_neq _ _)) by (simpl; lia). cbn [negb]. apply wp_ret. by exists (Some c1). }
  cbn [length]. change (Z.of_nat 0 =? 0) with true. cbn [negb]. rewrite app_nil_r.
  eapply wp_act_bind; [by apply handle_lload|]. injection Hw1 as Ew1 Ew1'. rewrite Ew1.
  destruct (Z.eqb_spec (senders s) 0) as [E|Hne]; cbn [negb].
  - apply wp_bind. eapply wp_mono; [apply (wp_scan_batch_once al ls1 cost s1 (Some c1) n sz values); (done || lia)|].
    intros r s2 (c2 & H2'). destruct (spec_scan_batch (Some c1) sz ls1) as [[got nc2] ls2].
    destruct H2' as (-> & Hc2 & -> & Hr2 & Hw2). cbv beta iota. apply wp_ret. exists (Some c2).
    split; [done|]. split; [done|]. split; [|split; [done|unfold lw in *; congruence]].
    destruct got; [done|]. by rewrite (proj2 (Z.eqb_neq _ _)) by (simpl; lia).
  - apply wp_ret. exists (Some c1). rewrite app_nil_r. split_and!; try done. unfold lw in *. congruence.
Qed.

End batch.
