(* ===== verification/LubqSender.v ===== *)
(** * Senders of the linked-shard channel

    Registration takes the first shard that is retired and drained, or appends a
    new one; retirement only clears the lease. *)

From S2P Require Import Prelude Prog Layout Head Geometry Shard Lubq LubqInv LubqBatch.

Section idle.
Context {T : Type}.
Implicit Types (ls : list (bool * list T)).

(** The first shard with no owner and no values. *)
Fixpoint find_idle ls : option nat :=
  match ls with
  | [] => None
  | (false, []) :: _ => Some 0%nat
  | _ :: ls => S <$> find_idle ls
  end.

(** The shard a new sender gets, and the shards then. *)
Definition spec_acquire ls : nat * list (bool * list T) :=
  match find_idle ls with
  | Some i => (i, <[i := (true, [])]> ls)
  | None => (length ls, ls ++ [(true, [])])
  end.

Lemma find_idle_Some ls i : find_idle ls = Some i → ls !! i = Some (false, []).
Proof.
  revert i. induction ls as [|[[] [|v l]] ls IH]; intros i; simpl; try done.
  - destruct (find_idle ls) as [j|]; [|done]. intros [= <-]. by apply IH.
  - destruct (find_idle ls) as [j|]; [|done]. intros [= <-]. by apply IH.
  - by intros [= <-].
  - destruct (find_idle ls) as [j|]; [|done]. intros [= <-]. by apply IH.
Qed.

End idle.

Section senders.
Context {T Q : Type} `{!ShardQueue T Q} `{!BoxAllocator} `{!Profile} (fuel : nat).
Implicit Types (s : lmem Q) (al : list Z) (ls : list (bool * list T)).
#[local] Abbreviation lwp := (wp (H := lubq_run fuel)).

Lemma wp_reg_lock {A} s n (k : prog (lubqE T) A) Φ :
  reg_locked s = 0 → (0 < n)%nat → lwp k (set_reg_locked 1 s) Φ → lwp (reg_lock n;; k) s Φ.
Proof.
  intros Hl Hn Hk. apply wp_bind. unfold reg_lock. destruct n as [|n]; [lia|]. apply wp_loop_unfold.
  eapply wp_act_bind; [apply handle_lcas_ok; [unfold lrd; by rewrite Hl|reflexivity]|]. by apply wp_ret.
Qed.

(** Updating the owner flag of a shard. *)
Lemma lrep_active al ls cost s i b b' l :
  lrep al ls cost s → ls !! i = Some (b, l) →
  ∃ s', lwr (ShActive (sa al i)) (Z.b2z b') s = Some s' ∧ lrep al (<[i := (b', l)]> ls) cost s' ∧ lw s' = lw s.
Proof.
  intros Hr Hl. assert (i < length al)%nat as Hi by (rewrite (lr_len _ _ _ _ Hr); by eapply lookup_lt_Some).
  destruct (lr_shard _ _ _ _ Hr i b l Hl) as (q & Hs & Hq). unfold lwr, upd_shard. rewrite Hs.
  eexists. split; [reflexivity|]. split; [|done]. simpl. by apply (lrep_update al ls cost).
Qed.

Lemma wp_try_acquire al ls cost s i b l :
  lrep al ls cost s → ls !! i = Some (b, l) → (cost + 1 < fuel)%nat →
  lwp (try_acquire_producer (sa al i)) s (λ ok s', lw s' = lw s ∧
    ok = bool_decide (b = false ∧ l = []) ∧
    lrep al (if decide (b = false ∧ l = []) then <[i := (true, [])]> ls else ls) cost s').
Proof.
  intros Hr Hl Hf. destruct (lr_shard _ _ _ _ Hr i b l Hl) as (q & Hs & Hq). unfold try_acquire_producer.
  eapply wp_act_bind; [apply handle_lload; unfold lrd; by rewrite Hs|]. cbn [producer_active].
  destruct b; cbn [Z.b2z]; [change (1 =? 0) with false|change (0 =? 0) with true]; cbn [negb].
  - apply wp_ret. rewrite bool_decide_false by naive_solver. rewrite decide_False by naive_solver. done.
  - apply wp_bind. eapply wp_mono; [apply (wp_LQueue fuel al ls cost s i false l _ QIsEmpty Hr Hl); simpl; (done || lia)|].
    intros e s1 (-> & Hr1 & Hw1). simpl in Hr1. rewrite Nat.add_0_r, list_insert_id in Hr1 by done.
    cbn [qspec fst]. destruct l as [|v l]; cbn [negb].
    + destruct (lrep_active al ls cost s1 i false true [] Hr1 Hl) as (s2 & Hwr & Hr2 & Hw2).
      destruct (lr_shard _ _ _ _ Hr1 i false [] Hl) as (q1 & Hs1 & _).
      eapply wp_act_bind; [apply handle_lcas_ok; [unfold lrd; by rewrite Hs1|exact Hwr]|].
      apply wp_ret. rewrite bool_decide_true, decide_True by done. split; [congruence|done].
    + apply wp_ret. rewrite bool_decide_false by naive_solver. rewrite decide_False by naive_solver. done.
Qed.

Lemma wp_acquire_owned al ls cost s :
  lrep al ls cost s → (cost + 1 < fuel)%nat →
  lwp (acquire_owned al) s (λ r s', lw s' = lw s ∧
    match find_idle ls with
    | Some i => r = Some (sa al i) ∧ lrep al (<[i := (true, [])]> ls) cost s'
    | None => r = None ∧ lrep al ls cost s'
    end).
Proof.
  intros Hr Hf.
  assert (∀ n i s, lrep al ls cost s → (length al - i = n)%nat → (i ≤ length al)%nat →
    lwp (acquire_owned (drop i al)) s (λ r s', lw s' = lw s ∧
      match find_idle (drop i ls) with
      | Some j => r = Some (sa al (i + j)) ∧ lrep al (<[(i + j)%nat := (true, [])]> ls) cost s'
      | None => r = None ∧ lrep al ls cost s'
      end)) as Hl; [|by apply (Hl (length al) 0%nat s); (done || lia)].
  clear s Hr. induction n as [|n IH]; intros i s Hr Hn Hi; pose proof (lr_len _ _ _ _ Hr) as Hlen.
  { rewrite !drop_ge by lia. by apply wp_ret. }
  destruct (lookup_lt_is_Some_2 al i) as [a Ha]; [lia|]. rewrite (drop_S _ _ _ Ha).
  destruct (lookup_lt_is_Some_2 ls i) as [[b l] Hl]; [lia|]. rewrite (drop_S _ _ _ Hl).
  assert (a = sa al i) as -> by (unfold sa; by rewrite Ha). cbn [acquire_owned]. apply wp_bind.
  eapply wp_mono; [by apply (wp_try_acquire al ls cost s i b l)|]. intros ok s1 (Hw1 & -> & Hr1).
  case_bool_decide as E.
  - rewrite decide_True in Hr1 by done. destruct E as [-> ->]. apply wp_ret. cbn [find_idle].
    by rewrite Nat.add_0_r.
  - rewrite decide_False in Hr1 by done. eapply wp_mono; [apply (IH (S i) s1 Hr1); lia|].
    intros r s2 [Hw2 H2]. split; [congruence|].
    assert (find_idle ((b, l) :: drop (S i) ls) = S <$> find_idle (drop (S i) ls)) as ->.
    { destruct b; [done|]. destruct l; [naive_solver|done]. }
    destruct (find_idle (drop (S i) ls)) as [j|]; [|done]. simpl. by rewrite Nat.add_succ_r.
Qed.

(** Appending a shard. *)
Lemma lrep_append al ls cost s :
  lrep al ls cost s →
  let a := box_at (dom (shards s)) in
  let s1 := mkLMem (reg_head s) (reg_tail s) (reg_locked s) (owned s ++ [a]) (next_id s + 1) (senders s)
    (<[a := mkShard (next_id s) 1 0 q_new]> (shards s)) in
  ∃ s2, lwr (ShNext (reg_tail s)) a s1 = Some s2 ∧
    lrep (al ++ [a]) (ls ++ [(true, [])]) cost (set_reg_tail a s2) ∧ lw s2 = lw s.
Proof.
  intros Hr a s1. destruct (box_at_fresh (dom (shards s))) as [Hfr Hpos]. fold a in Hfr, Hpos.
  apply not_elem_of_dom in Hfr. pose proof (lr_some _ _ _ _ Hr) as Hsome. pose proof (lr_len _ _ _ _ Hr) as Hlen.
  set (t := (length al - 1)%nat).
  assert (∀ i, (i < length al)%nat → sa (al ++ [a]) i = sa al i) as Hold.
  { intros i Hi. unfold sa. by rewrite lookup_app_l. }
  assert (sa (al ++ [a]) (length al) = a) as Hnew.
  { unfold sa. by rewrite lookup_app_r, Nat.sub_diag by lia. }
  assert (∀ i, (i < length al)%nat → sa al i ≠ a) as Hne.
  { intros i Hi E. destruct (lrep_lookup al ls cost s i Hr Hi) as (b & l & q & _ & Hs & _). congruence. }
  destruct (lrep_lookup al ls cost s t Hr ltac:(lia)) as (b & l & q & Hlt & Hst & Hqt).
  unfold lwr, upd_shard. simpl. rewrite (lr_tail _ _ _ _ Hr). fold t.
  rewrite lookup_insert_ne, Hst by (intros E; by apply (Hne t); [lia|]).
  eexists. split; [reflexivity|]. split; [|done]. simpl.
  destruct Hr as [Ho _ _ Hnd Hp Hh Ht Hid Hsh Hdom]. split; simpl; try done.
  - by rewrite Ho.
  - rewrite !length_app. simpl. lia.
  - rewrite length_app. simpl. lia.
  - apply NoDup_app. split; [done|]. split; [|apply NoDup_singleton]. intros x Hx ->%list_elem_of_singleton.
    apply list_elem_of_lookup in Hx as [i Hi]. apply (Hne i); [by eapply lookup_lt_Some|]. unfold sa. by rewrite Hi.
  - intros i Hi. rewrite length_app in Hi. simpl in Hi.
    destruct (decide (i < length al)%nat); [rewrite Hold by done; by apply Hp|].
    replace i with (length al) by lia. by rewrite Hnew.
  - by rewrite Hold.
  - rewrite length_app. simpl. by replace (length al + 1 - 1)%nat with (length al) by lia.
  - rewrite Hid, length_app. simpl. lia.
  - intros i b' l' Hi. destruct (decide (i < length al)%nat) as [Hlt'|Hge].
    + rewrite lookup_app_l in Hi by lia. destruct (Hsh i b' l' Hi) as (q' & Hs' & Hq'). exists q'.
      split; [|done]. rewrite Hold by done. destruct (decide (i = t)) as [->|Hit].
      * rewrite lookup_insert_eq. assert ((b', l') = (b, l)) as [= -> ->] by congruence.
        rewrite Hst in Hs'. injection Hs' as ->. replace (S t) with (length al) by lia. by rewrite Hnew.
      * rewrite lookup_insert_ne by (intros E; apply Hit; eapply sa_inj; [exact Hnd|lia|lia|done]).
        rewrite lookup_insert_ne by (intros E; by apply (Hne i)). rewrite Hs'. by rewrite Hold by lia.
    + assert (i = length ls) as ->.
      { apply lookup_lt_Some in Hi. rewrite length_app in Hi. simpl in Hi. lia. }
      rewrite lookup_app_r, Nat.sub_diag in Hi by lia. injection Hi as <- <-. exists q_new.
      rewrite <- Hlen, Hnew, lookup_insert_ne by (apply Hne; lia). rewrite lookup_insert_eq.
      split; [|eapply q_mono; [apply q_new_is|lia]]. rewrite Hid. do 2 f_equal.
      unfold sa. rewrite lookup_ge_None_2; [done|]. rewrite length_app. simpl. lia.
  - intros x Hx. rewrite elem_of_app, list_elem_of_singleton.
    destruct (decide (x = a)) as [|Hxa]; [by right|]. left. apply Hdom.
    destruct (decide (sa al t = x)) as [<-|Hxt]; [eauto|].
    by rewrite !lookup_insert_ne in Hx by congruence.
Qed.

Lemma wp_acquire_sender_shard al ls cost s n :
  lrep al ls cost s → reg_locked s = 0 → (0 < n)%nat → (cost + 1 < fuel)%nat →
  Z.of_nat (length al) < usize_max →
  lwp (acquire_sender_shard n) s (λ a s', ∃ al',
    al `prefix_of` al' ∧ a = sa al' (spec_acquire ls).1 ∧
    lrep al' (spec_acquire ls).2 cost s' ∧ lw s' = lw s).
Proof.
  intros Hr Hlk Hn Hf Hmax. unfold acquire_sender_shard. apply wp_reg_lock; [done|done|].
  eapply wp_act_bind; [reflexivity|]. change (owned (set_reg_locked 1 s)) with (owned s).
  rewrite (lr_owned _ _ _ _ Hr). apply wp_bind.
  eapply wp_mono; [apply (wp_acquire_owned al ls cost); [by apply lrep_words|done]|].
  intros r s1 [Hw1 H1']. unfold spec_acquire. destruct (find_idle ls) as [i|]; destruct H1' as [-> Hr1].
  - eapply wp_act_bind; [by apply handle_lstore|]. apply wp_ret. exists al. split; [done|].
    split; [done|]. split; [by apply lrep_words|]. unfold lw in *. simpl in *. congruence.
  - eapply wp_act_bind; [reflexivity|]. rewrite (lr_next_id _ _ _ _ Hr1).
    rewrite (proj2 (Z.ltb_ge _ _)) by lia. do 3 (eapply wp_act_bind; [reflexivity|]).
    eapply wp_act_bind; [by apply handle_lload|]. simpl reg_tail. apply wp_debug_assert.
    { rewrite (lr_tail _ _ _ _ Hr1). pose proof (lr_some _ _ _ _ Hr).
      pose proof (lr_pos _ _ _ _ Hr1 (length al - 1) ltac:(lia)). by rewrite (proj2 (Z.eqb_neq _ _)) by lia. }
    destruct (lrep_append al ls cost s1 Hr1) as (s2 & Hwr & Hr2 & Hw2).
    rewrite (lr_next_id _ _ _ _ Hr1) in Hwr. set (a := box_at _) in *.
    eapply wp_act_bind; [apply handle_lstore; exact Hwr|].
    eapply wp_act_bind; [by apply handle_lstore|]. eapply wp_act_bind; [by apply handle_lstore|]. apply wp_ret.
    exists (al ++ [a]). split; [by eexists|]. split.
    + unfold sa. cbn [fst]. rewrite <- (lr_len _ _ _ _ Hr), lookup_app_r, Nat.sub_diag by lia. done.
    + split; [by apply (lrep_words _ _ _ (set_reg_tail a s2))|]. unfold lw in *. simpl in *. congruence.
Qed.

Lemma wp_Sender_clone al ls cost s n :
  lrep al ls cost s → reg_locked s = 0 → (0 < n)%nat → (cost + 1 < fuel)%nat →
  Z.of_nat (length al) < usize_max → senders s < usize_max →
  lwp (Sender_clone n) s (λ a s', ∃ al',
    al `prefix_of` al' ∧ a = sa al' (spec_acquire ls).1 ∧
    lrep al' (spec_acquire ls).2 cost s' ∧ lw s' = (senders s + 1, 0)).
Proof.
  intros Hr Hlk Hn Hf Hmax Hsnd. unfold Sender_clone. apply wp_bind.
  eapply wp_mono; [by apply (wp_acquire_sender_shard al ls cost s n)|].
  intros a s1 (al' & Hpre & -> & Hr1 & [= Ew1 Ew1']). unfold add_sender. apply wp_bind.
  eapply wp_act_bind; [by apply handle_lload|]. destruct n as [|n]; [lia|]. apply wp_loop_unfold.
  rewrite Ew1, (proj2 (Z.ltb_ge _ _)) by lia.
  eapply wp_act_bind; [apply handle_lcas_ok; [unfold lrd; by rewrite Ew1|reflexivity]|].
  apply wp_ret, wp_ret. exists al'. split; [done|]. split; [done|]. split; [by apply lrep_words|].
  unfold lw. simpl. congruence.
Qed.

Lemma wp_Sender_drop al ls cost s i b l :
  lrep al ls cost s → ls !! i = Some (b, l) → 0 < senders s ≤ usize_max →
  lwp (Sender_drop (sa al i)) s (λ _ s',
    lrep al (<[i := (false, l)]> ls) cost s' ∧ lw s' = (senders s - 1, reg_locked s)).
Proof.
  intros Hr Hl Hs. unfold Sender_drop. destruct (lrep_active al ls cost s i b false l Hr Hl) as (s1 & Hwr & Hr1 & [= Ew1 Ew1']).
  eapply wp_act_bind; [apply handle_lstore; exact Hwr|].
  eapply wp_act_bind; [reflexivity|].
  rewrite debug_assert_ok by (by rewrite (proj2 (Z.eqb_neq _ _)) by lia). apply wp_ret.
  split; [by apply lrep_words|]. unfold lw. simpl. rewrite Ew1, Ew1'. f_equal. unfold wrapping, usize_max in *.
  apply Z.mod_small. lia.
Qed.

End senders.
