(* ===== verification/LubqSpec.v ===== *)
(** * The contract of the linked-shard channel and its refinement

    The abstract channel is a list of shards, each a list of values with a flag
    that says whether a sender owns it, the shard of every sender handle and the
    cursor of every receiver handle. *)

From S2P Require Import Prelude Prog Layout Head Geometry Instances SpmcQueue Shard Lubq LubqInv LubqBatch LubqSender.

(** ** The abstract channel *)

Record chan (T : Type) := mkChan {
  ch_shards : list (bool * list T);
  ch_senders : gmap nat nat;
  ch_recvs : gmap nat (option nat)
}.
Arguments mkChan {T} _ _ _.
Arguments ch_shards {T} _.
Arguments ch_senders {T} _.
Arguments ch_recvs {T} _.

Inductive ccall (T : Type) :=
| CSend (h : nat) (v : T)
| CSendBatch (h : nat) (vs : list T)
| CClone (h h' : nat)
| CDropSender (h : nat)
| CRecv (r : nat)
| CRecvBatch (r n : nat) (values : list T)
| CCloneRecv (r r' : nat)
| CIsClosed (r : nat).
Arguments CSend {T} h v.
Arguments CSendBatch {T} h vs.
Arguments CClone {T} h h'.
Arguments CDropSender {T} h.
Arguments CRecv {T} r.
Arguments CRecvBatch {T} r n values.
Arguments CCloneRecv {T} r r'.
Arguments CIsClosed {T} r.

Inductive canswer (T : Type) :=
| AOk
| ARecv (r : T + TryRecvError)
| AVec (r : nat + TryRecvError) (vec : list T)
| AClosed (b : bool).
Arguments AOk {T}.
Arguments ARecv {T} r.
Arguments AVec {T} r vec.
Arguments AClosed {T} b.

Definition chan_new {T} : chan T := mkChan [(true, [])] {[ 0%nat := 0%nat ]} {[ 0%nat := None ]}.

Definition closed {T} (ch : chan T) : bool := (size (ch_senders ch) =? 0)%nat.

Definition append_to {T} (i : nat) (vs : list T) (ls : list (bool * list T)) : list (bool * list T) :=
  alter (λ x, (x.1, x.2 ++ vs)) i ls.

(** [None]: a handle is unknown, or the name of a new one is taken. *)
Definition chan_call {T} (c : ccall T) (ch : chan T) : option (chan T * canswer T) :=
  let '(mkChan ls hs rs) := ch in
  match c with
  | CSend h v => i ← hs !! h; Some (mkChan (append_to i [v] ls) hs rs, AOk)
  | CSendBatch h vs => i ← hs !! h; Some (mkChan (append_to i vs ls) hs rs, AOk)
  | CClone h h' =>
      _ ← hs !! h;
      match hs !! h' with
      | Some _ => None
      | None => let '(i, ls) := spec_acquire ls in Some (mkChan ls (<[h' := i]> hs) rs, AOk)
      end
  | CDropSender h =>
      i ← hs !! h; Some (mkChan (alter (λ x, (false, x.2)) i ls) (delete h hs) rs, AOk)
  | CRecv r =>
      c ← rs !! r;
      let '(res, c, ls) := spec_recv (closed ch) c ls in
      Some (mkChan ls hs (<[r := c]> rs), ARecv res)
  | CRecvBatch r n values =>
      c ← rs !! r;
      let '(res, got, c, ls) := spec_recv_batch (closed ch) c n ls in
      Some (mkChan ls hs (<[r := c]> rs), AVec res (values ++ got))
  | CCloneRecv r r' =>
      _ ← rs !! r;
      match rs !! r' with
      | Some _ => None
      | None => Some (mkChan ls hs (<[r' := None]> rs), AOk)
      end
  | CIsClosed r => _ ← rs !! r; Some (ch, AClosed (closed ch))
  end.

Fixpoint chan_calls {T} (cs : list (ccall T)) (ch : chan T) : option (chan T * list (canswer T)) :=
  match cs with
  | [] => Some (ch, [])
  | c :: cs => '(ch, a) ← chan_call c ch; '(ch, l) ← chan_calls cs ch; Some (ch, a :: l)
  end.

(** ** The concrete calls *)

Section refinement.
Context {T Q : Type} `{!ShardQueue T Q} `{!BoxAllocator} `{!Profile}.
Implicit Types (s : lmem Q) (al : list Z) (ls : list (bool * list T)) (hs rs : gmap nat Z).

Definition a_result (r : Z + TryRecvError) : nat + TryRecvError :=
  match r with inl n => inl (Z.to_nat n) | inr e => inr e end.

(** The caller keeps the shard of every sender and the cursor of every receiver. *)
Definition cexec_call (fuel : nat) (c : ccall T) hs rs :
  prog (lubqE T) (gmap nat Z * gmap nat Z * canswer T) :=
  match c with
  | CSend h v => sh ← expect (hs !! h); send sh v;; Ret (hs, rs, AOk)
  | CSendBatch h vs => sh ← expect (hs !! h); send_batch sh vs;; Ret (hs, rs, AOk)
  | CClone h h' => _ ← expect (hs !! h); sh ← Sender_clone fuel; Ret (<[h' := sh]> hs, rs, AOk)
  | CDropSender h => sh ← expect (hs !! h); Sender_drop sh;; Ret (delete h hs, rs, AOk)
  | CRecv r =>
      cur ← expect (rs !! r); '(v, cur) ← try_recv fuel cur; Ret (hs, <[r := cur]> rs, ARecv v)
  | CRecvBatch r n values =>
      cur ← expect (rs !! r);
      '(v, vec, cur) ← try_recv_batch_into fuel cur values (Z.of_nat n);
      Ret (hs, <[r := cur]> rs, AVec (a_result v) vec)
  | CCloneRecv r r' => _ ← expect (rs !! r); Ret (hs, <[r' := Receiver_clone]> rs, AOk)
  | CIsClosed r => _ ← expect (rs !! r); b ← is_closed; Ret (hs, rs, AClosed b)
  end.

Fixpoint cexec_calls (fuel : nat) (cs : list (ccall T)) hs rs :
  prog (lubqE T) (gmap nat Z * gmap nat Z * list (canswer T)) :=
  match cs with
  | [] => Ret (hs, rs, [])
  | c :: cs =>
      '(hs, rs, a) ← cexec_call fuel c hs rs;
      '(hs, rs, l) ← cexec_calls fuel cs hs rs;
      Ret (hs, rs, a :: l)
  end.

(** A channel and the calls made on it. *)
Definition cexec (fuel : nat) (cs : list (ccall T)) :
  prog (lubqE T) (gmap nat Z * gmap nat Z * list (canswer T)) :=
  '(sh, cur) ← channel_with;
  cexec_calls fuel cs {[ 0%nat := sh ]} {[ 0%nat := cur ]}.

(** How many positions, shards and senders a call adds at most. *)
Definition ccall_cost (c : ccall T) : nat :=
  match c with CSend _ _ => 1 | CSendBatch _ vs => length vs | CClone _ _ => 1 | _ => 0 end.

Definition ccalls_cost (cs : list (ccall T)) : nat := sum_list_with ccall_cost cs.

Definition ccall_ok (c : ccall T) : Prop :=
  match c with CRecvBatch _ n _ => Z.of_nat n ≤ usize_max | _ => True end.

(** ** The simulation *)

Record crep al (ch : chan T) hs rs (cost : nat) s : Prop := {
  cr_rep : lrep al (ch_shards ch) cost s;
  cr_locked : reg_locked s = 0;
  cr_senders : senders s = Z.of_nat (size (ch_senders ch));
  cr_hs : ∀ h, hs !! h = sa al <$> ch_senders ch !! h;
  cr_hs_ok : ∀ h i, ch_senders ch !! h = Some i → (i < length al)%nat;
  cr_rs : ∀ r, rs !! r = cursor_at al <$> ch_recvs ch !! r;
  cr_rs_ok : ∀ r c, ch_recvs ch !! r = Some c → cursor_ok al c;
  cr_cost : (length al ≤ cost + 1)%nat ∧ (size (ch_senders ch) ≤ cost + 1)%nat
}.

Lemma crep_closed al ch hs rs cost s : crep al ch hs rs cost s → (senders s =? 0) = closed ch.
Proof.
  intros Hc. rewrite (cr_senders _ _ _ _ _ _ Hc). unfold closed.
  destruct (Nat.eqb_spec (size (ch_senders ch)) 0) as [->|]; [done|]. apply Z.eqb_neq. lia.
Qed.

Lemma append_to_insert i vs ls b l : ls !! i = Some (b, l) → append_to i vs ls = <[i := (b, l ++ vs)]> ls.
Proof.
  intros Hl. apply list_eq. intros j. unfold append_to. destruct (decide (i = j)) as [<-|Hne].
  - by rewrite list_lookup_alter_eq, Hl, list_lookup_insert_eq by (by eapply lookup_lt_Some).
  - by rewrite list_lookup_alter_ne, list_lookup_insert_ne by done.
Qed.

Lemma crep_push al ch hs rs cost s h i c vs fuel :
  crep al ch hs rs cost s → ch_senders ch !! h = Some i → qcost (c : qcall T unit) = length vs →
  (∀ l, (qspec c l).2 = l ++ vs) → qcall_ok c → (cost + length vs + 1 < fuel)%nat →
  wp (H := lubq_run fuel) (act (LQueue (sa al i) c)) s (λ _ s',
    crep al (mkChan (append_to i vs (ch_shards ch)) (ch_senders ch) (ch_recvs ch)) hs rs (cost + length vs) s').
Proof.
  intros Hc Hh Hq Hspec Hok Hf. pose proof (cr_hs_ok _ _ _ _ _ _ Hc h i Hh) as Hi.
  destruct (lrep_lookup al _ cost s i (cr_rep _ _ _ _ _ _ Hc) Hi) as (b & l & q & Hl & _).
  eapply wp_mono; [apply (wp_LQueue fuel al _ cost s i b l _ c (cr_rep _ _ _ _ _ _ Hc) Hl Hok); lia|].
  intros x s' (_ & Hr & [= E1 E2]). rewrite Hspec, Hq in Hr.
  rewrite <- (append_to_insert i vs (ch_shards ch) b l Hl) in Hr. destruct Hc. split; simpl; try done.
  - congruence.
  - congruence.
  - lia.
Qed.

(** Cursors and handles keep their meaning when shards are appended. *)
Lemma sa_prefix al al' i : al `prefix_of` al' → (i < length al)%nat → sa al' i = sa al i.
Proof. intros [l ->] Hi. unfold sa. by rewrite lookup_app_l. Qed.

Lemma crep_clone al ch hs rs cost s h' n fuel :
  crep al ch hs rs cost s → ch_senders ch !! h' = None → (0 < n)%nat → (cost + 1 < fuel)%nat →
  Z.of_nat cost + 1 < usize_max →
  wp (H := lubq_run fuel) (Sender_clone n) s (λ sh s', ∃ al',
    crep al' (mkChan (spec_acquire (ch_shards ch)).2 (<[h' := (spec_acquire (ch_shards ch)).1]> (ch_senders ch))
      (ch_recvs ch)) (<[h' := sh]> hs) rs (cost + 1) s').
Proof.
  intros Hc Hh Hn Hf Hmax. pose proof (cr_cost _ _ _ _ _ _ Hc) as [Hc1 Hc2].
  eapply wp_mono.
  { apply (wp_Sender_clone fuel al _ cost s n (cr_rep _ _ _ _ _ _ Hc)); [apply Hc|done|done|lia|].
    rewrite (cr_senders _ _ _ _ _ _ Hc). lia. }
  intros sh s' (al' & Hpre & -> & Hr & [= E1 E2]). exists al'. pose proof (prefix_length _ _ Hpre) as Hlen.
  pose proof (lr_len _ _ _ _ Hr) as Hl'. pose proof (lr_len _ _ _ _ (cr_rep _ _ _ _ _ _ Hc)) as Hl.
  destruct Hc as [Hr0 Hlk Hs Hhs Hhok Hrs Hrok _].
  assert ((spec_acquire (ch_shards ch)).1 < length al')%nat as Hin.
  { rewrite Hl'. unfold spec_acquire. destruct (find_idle (ch_shards ch)) as [i|] eqn:Ei; simpl.
    - rewrite length_insert. by eapply lookup_lt_Some, find_idle_Some.
    - rewrite length_app. simpl. lia. }
  assert (length al' ≤ length al + 1)%nat as Hle.
  { rewrite Hl', Hl. unfold spec_acquire. destruct (find_idle (ch_shards ch)); simpl.
    - rewrite length_insert. lia.
    - rewrite length_app. simpl. lia. }
  split; simpl; try done.
  - eapply lrep_mono; [exact Hr|lia].
  - rewrite map_size_insert_None by done. lia.
  - intros k. destruct (decide (h' = k)) as [<-|Hne]; [by rewrite !lookup_insert_eq|].
    rewrite !lookup_insert_ne, Hhs by done. destruct (ch_senders ch !! k) as [i|] eqn:Hk; [|done].
    simpl. f_equal. symmetry. apply sa_prefix; [done|by eapply Hhok].
  - intros k i. destruct (decide (h' = k)) as [<-|Hne].
    + rewrite lookup_insert_eq. by intros [= <-].
    + rewrite lookup_insert_ne by done. intros Hk. pose proof (Hhok k i Hk). lia.
  - intros r. rewrite Hrs. destruct (ch_recvs ch !! r) as [[i|]|] eqn:Hk; try done.
    simpl. f_equal. symmetry. apply sa_prefix; [done|]. exact (Hrok r (Some i) Hk).
  - intros r [i|] Hk; [|done]. pose proof (Hrok r (Some i) Hk) as Hx. simpl in *. lia.
  - rewrite map_size_insert_None by done. lia.
Qed.

Lemma crep_drop_sender al ch hs rs cost s h i fuel :
  crep al ch hs rs cost s → ch_senders ch !! h = Some i → Z.of_nat cost + 1 < usize_max →
  wp (H := lubq_run fuel) (Sender_drop (sa al i)) s (λ _ s',
    crep al (mkChan (alter (λ x, (false, x.2)) i (ch_shards ch)) (delete h (ch_senders ch)) (ch_recvs ch))
      (delete h hs) rs cost s').
Proof.
  intros Hc Hh Hmax. pose proof (cr_hs_ok _ _ _ _ _ _ Hc h i Hh) as Hi. pose proof (cr_cost _ _ _ _ _ _ Hc) as [Hc1 Hc2].
  destruct (lrep_lookup al _ cost s i (cr_rep _ _ _ _ _ _ Hc) Hi) as (b & l & q & Hl & _).
  assert (size (ch_senders ch) ≠ 0)%nat as Hpos.
  { intros E%map_size_empty_inv. by rewrite E in Hh. }
  eapply wp_mono; [apply (wp_Sender_drop fuel al _ cost s i b l (cr_rep _ _ _ _ _ _ Hc) Hl)|].
  { rewrite (cr_senders _ _ _ _ _ _ Hc). lia. }
  intros _ s' [Hr [= E1 E2]]. destruct Hc as [Hr0 Hlk Hs Hhs Hhok Hrs Hrok _]. split; simpl; try done.
  - assert (alter (λ x, (false, x.2)) i (ch_shards ch) = <[i := (false, l)]> (ch_shards ch)) as ->; [|done].
    apply list_eq. intros j. destruct (decide (i = j)) as [<-|Hne].
    + by rewrite list_lookup_alter_eq, Hl, list_lookup_insert_eq by (by eapply lookup_lt_Some).
    + by rewrite list_lookup_alter_ne, list_lookup_insert_ne by done.
  - congruence.
  - rewrite map_size_delete_Some by eauto. lia.
  - intros k. destruct (decide (h = k)) as [<-|Hne]; [by rewrite !lookup_delete_eq|].
    by rewrite !lookup_delete_ne by done.
  - intros k j [Hne Hk]%lookup_delete_Some. by eapply Hhok.
  - rewrite map_size_delete_Some by eauto. lia.
Qed.

(** A receiver has moved on. *)
Lemma crep_received al ch hs rs cost s s' r c ls :
  crep al ch hs rs cost s → cursor_ok al c → lrep al ls cost s' → lw s' = lw s →
  crep al (mkChan ls (ch_senders ch) (<[r := c]> (ch_recvs ch))) hs (<[r := cursor_at al c]> rs) cost s'.
Proof.
  intros [Hr0 Hlk Hs Hhs Hhok Hrs Hrok Hco] Hok Hr [= E1 E2]. split; simpl; try done.
  - congruence.
  - congruence.
  - intros k. destruct (decide (r = k)) as [<-|Hne]; [by rewrite !lookup_insert_eq|].
    by rewrite !lookup_insert_ne by done.
  - intros k c'. destruct (decide (r = k)) as [<-|Hne]; [rewrite lookup_insert_eq; by intros [= <-]|].
    rewrite lookup_insert_ne by done. apply Hrok.
Qed.

Lemma lrep_new al : al = [box_at ∅] → lrep al [(true, [])] 0 (Core_new (Q := Q) (T := T)).
Proof.
  intros ->. destruct (box_at_fresh ∅) as [_ Hpos]. unfold Core_new.
  assert (∀ i, (i < 1)%nat → i = 0%nat) as Hz by lia.
  split; simpl; try done.
  - lia.
  - apply NoDup_singleton.
  - intros i Hi. by rewrite (Hz i Hi).
  - intros i b l Hi. assert (i = 0%nat) as -> by (apply lookup_lt_Some in Hi; simpl in Hi; lia).
    injection Hi as <- <-. exists q_new. split; [apply lookup_singleton_eq|apply q_new_is].
  - intros a [x [<- _]%lookup_singleton_Some]. left.
Qed.

Lemma crep_new :
  crep [box_at ∅] chan_new {[ 0%nat := box_at ∅ ]} {[ 0%nat := 0 ]} 0 (Core_new (Q := Q) (T := T)).
Proof.
  split; simpl; try done.
  - by apply lrep_new.
  - intros h. destruct (decide (h = 0%nat)) as [->|Hne]; [by rewrite !lookup_singleton_eq|].
    by rewrite !lookup_singleton_ne by done.
  - intros h i [<- <-]%lookup_singleton_Some. lia.
  - intros h. destruct (decide (h = 0%nat)) as [->|Hne]; [by rewrite !lookup_singleton_eq|].
    by rewrite !lookup_singleton_ne by done.
  - intros r c [<- <-]%lookup_singleton_Some. done.
Qed.

Lemma crep_call al ch ch' hs rs cost s a c fuel :
  crep al ch hs rs cost s → chan_call c ch = Some (ch', a) → ccall_ok c →
  (cost + ccall_cost c + 2 < fuel)%nat → Z.of_nat (cost + ccall_cost c) + 1 < usize_max →
  wp (H := lubq_run fuel) (cexec_call fuel c hs rs) s (λ '(hs', rs', a') s', a' = a ∧ ∃ al',
    crep al' ch' hs' rs' (cost + ccall_cost c) s').
Proof.
  intros Hc Hcall Hok Hf Hmax. pose proof (crep_closed _ _ _ _ _ _ Hc) as Hcl.
  pose proof (cr_cost _ _ _ _ _ _ Hc) as [Hcost _].
  destruct ch as [ls shs srs] eqn:Ech. rewrite <- Ech in Hc, Hcl.
  pose proof (cr_hs _ _ _ _ _ _ Hc) as Hhs. pose proof (cr_rs _ _ _ _ _ _ Hc) as Hrs.
  assert (ch_senders ch = shs ∧ ch_recvs ch = srs ∧ ch_shards ch = ls) as (Es & Er & El) by (by subst ch).
  rewrite Es in Hhs. rewrite Er in Hrs.
  destruct c as [h v|h vs|h h'|h|r|r n values|r r'|r]; cbn [chan_call cexec_call ccall_cost] in *;
    rewrite ?Nat.add_0_r in *.
  - rewrite Hhs. destruct (shs !! h) as [i|] eqn:Hh; [|done]. injection Hcall as <- <-. eapply wp_expect_bind; [reflexivity|].
    apply wp_bind. eapply wp_mono; [apply (crep_push al ch hs rs cost s h i (QPush v) [v] fuel Hc); simpl; first [done|lia|by rewrite Es]|].
    intros ? s' Hc'. apply wp_ret. split; [done|]. exists al. by rewrite Es, Er, El in Hc'.
  - rewrite Hhs. destruct (shs !! h) as [i|] eqn:Hh; [|done]. injection Hcall as <- <-. eapply wp_expect_bind; [reflexivity|].
    apply wp_bind. eapply wp_mono; [apply (crep_push al ch hs rs cost s h i (QPushBatch vs) vs fuel Hc); simpl; first [done|lia|by rewrite Es]|].
    intros ? s' Hc'. apply wp_ret. split; [done|]. exists al. by rewrite Es, Er, El in Hc'.
  - rewrite Hhs. destruct (shs !! h) as [i|] eqn:Hh; [|done]. cbn in Hcall. eapply wp_expect_bind; [reflexivity|].
    destruct (shs !! h') eqn:Hh'; [done|]. destruct (spec_acquire ls) as [i' ls'] eqn:Ea. injection Hcall as <- <-.
    apply wp_bind. eapply wp_mono; [apply (crep_clone al ch hs rs cost s h' fuel fuel Hc); first [lia|by rewrite Es]|].
    intros sh s' (al' & Hc'). apply wp_ret. split; [done|]. exists al'. by rewrite Es, Er, El, Ea in Hc'.
  - rewrite Hhs. destruct (shs !! h) as [i|] eqn:Hh; [|done]. injection Hcall as <- <-. eapply wp_expect_bind; [reflexivity|].
    apply wp_bind. eapply wp_mono; [apply (crep_drop_sender al ch hs rs cost s h i fuel Hc); first [lia|by rewrite Es]|].
    intros ? s' Hc'. apply wp_ret. split; [done|]. exists al. by rewrite Es, Er, El in Hc'.
  - rewrite Hrs. destruct (srs !! r) as [c|] eqn:Hr; [|done]. cbn in Hcall. eapply wp_expect_bind; [reflexivity|].
    assert (cursor_ok al c) as Hco by (eapply (cr_rs_ok _ _ _ _ _ _ Hc r); by rewrite Er). apply wp_bind.
    eapply wp_mono; [apply (wp_try_recv fuel al ls cost s c fuel); [rewrite <- El; apply Hc|done|lia|lia]|].
    rewrite Hcl, <- Ech in *. intros [res cur] s' (c' & E & Hc' & Hr' & Hw).
    destruct (spec_recv (closed ch) c ls) as [[res' nc] ls']. simpl in *. injection E as -> <- ->.
    injection Hcall as <- <-. apply wp_ret. split; [done|]. exists al.
    rewrite <- Es, <- Er. by apply (crep_received al ch hs rs cost s s' r (Some c')).
  - rewrite Hrs. destruct (srs !! r) as [c|] eqn:Hr; [|done]. cbn in Hcall. eapply wp_expect_bind; [reflexivity|].
    assert (cursor_ok al c) as Hco by (eapply (cr_rs_ok _ _ _ _ _ _ Hc r); by rewrite Er). apply wp_bind.
    eapply wp_mono; [apply (wp_try_recv_batch_into fuel al ls cost s c fuel n values);
      [rewrite <- El; apply Hc|done|lia|lia|done]|].
    rewrite Hcl, <- Ech in *. intros res s' (c' & Hx).
    destruct (spec_recv_batch (closed ch) c n ls) as [[[res' got] nc] ls'].
    destruct Hx as (-> & Hc' & -> & Hr' & Hw). injection Hcall as <- <-. apply wp_ret.
    split; [destruct res'; simpl; by rewrite ?Nat2Z.id|]. exists al.
    rewrite <- Es, <- Er. by apply (crep_received al ch hs rs cost s s' r c').
  - rewrite Hrs. destruct (srs !! r) as [c|] eqn:Hr; [|done]. cbn in Hcall. eapply wp_expect_bind; [reflexivity|].
    destruct (srs !! r') eqn:Hr'; [done|]. injection Hcall as <- <-. apply wp_ret. split; [done|]. exists al.
    rewrite <- Es, <- Er, <- El. apply (crep_received al ch hs rs cost s s r' None (ch_shards ch) Hc); try done. apply Hc.
  - rewrite Hrs. destruct (srs !! r) as [c|] eqn:Hr; [|done]. injection Hcall as <- <-. eapply wp_expect_bind; [reflexivity|].
    unfold is_closed. apply wp_bind. eapply wp_act_bind; [by apply handle_lload|]. apply wp_ret.
    apply wp_ret. rewrite Hcl, <- Ech. split; [done|]. by exists al.
Qed.

Lemma crep_calls cs al ch ch' hs rs cost s l fuel :
  crep al ch hs rs cost s → chan_calls cs ch = Some (ch', l) → Forall ccall_ok cs →
  (cost + ccalls_cost cs + 2 < fuel)%nat → Z.of_nat (cost + ccalls_cost cs) + 1 < usize_max →
  wp (H := lubq_run fuel) (cexec_calls fuel cs hs rs) s (λ '(hs', rs', l') s', l' = l ∧ ∃ al',
    crep al' ch' hs' rs' (cost + ccalls_cost cs) s').
Proof.
  revert al ch hs rs cost s l. induction cs as [|c cs IH]; intros al ch hs rs cost s l Hc Hcs Hok Hf Hmax.
  { injection Hcs as <- <-. apply wp_ret. split; [done|]. exists al. unfold ccalls_cost. simpl.
    by rewrite Nat.add_0_r. }
  apply Forall_cons_1 in Hok as [Hok Hoks]. simpl in Hcs.
  destruct (chan_call c ch) as [[ch1 a]|] eqn:E1; [|done]. simpl in Hcs.
  destruct (chan_calls cs ch1) as [[ch2 l2]|] eqn:E2; [|done]. simpl in Hcs. injection Hcs as <- <-.
  assert (ccalls_cost (c :: cs) = ccall_cost c + ccalls_cost cs)%nat as Ecost by done.
  rewrite Ecost in *. cbn [cexec_calls]. apply wp_bind.
  eapply wp_mono; [apply (crep_call al ch ch1 hs rs cost s a c fuel Hc E1 Hok); lia|].
  intros [[hs1 rs1] a'] s1 (-> & al1 & Hc1). apply wp_bind.
  eapply wp_mono; [apply (IH al1 ch1 hs1 rs1 _ s1 l2 Hc1 E2 Hoks); lia|].
  intros [[hs2 rs2] l'] s2 (-> & al2 & Hc2). apply wp_ret. split; [done|]. exists al2.
  by rewrite Nat.add_assoc.
Qed.

Lemma wp_cexec cs ch l fuel :
  chan_calls cs chan_new = Some (ch, l) → Forall ccall_ok cs → (ccalls_cost cs + 2 < fuel)%nat →
  Z.of_nat (ccalls_cost cs) + 1 < usize_max →
  wp (H := lubq_run fuel) (cexec fuel cs) (Core_new (Q := Q)) (λ '(hs, rs, l') s, l' = l ∧ ∃ al,
    crep al ch hs rs (ccalls_cost cs) s).
Proof.
  intros Hcs Hok Hf Hmax. unfold cexec, channel_with. apply wp_bind.
  destruct (box_at_fresh ∅) as [_ Hpos].
  eapply wp_act_bind; [reflexivity|]. simpl reg_head. rewrite (proj2 (Z.eqb_neq _ _)) by lia. apply wp_ret.
  by apply (crep_calls cs [box_at ∅] chan_new ch _ _ 0 _ l fuel crep_new).
Qed.

(** C5: any sequence of calls on the senders and receivers of a channel, clones
    and drops included, runs to completion without panicking and gets the answers
    of the abstract channel: a receiver takes the first value in round-robin order
    from its cursor, a batch takes what the shards hold in that order, and a new
    sender reuses the first retired empty shard. *)
Theorem lubq_refines_spec cs ch l fuel :
  chan_calls cs chan_new = Some (ch, l) → Forall ccall_ok cs → (ccalls_cost cs + 2 < fuel)%nat →
  Z.of_nat (ccalls_cost cs) + 1 < usize_max →
  wp (H := lubq_run fuel) (cexec fuel cs) (Core_new (Q := Q)) (λ '(hs, rs, l') s,
    l' = l ∧ dom hs = dom (ch_senders ch) ∧ senders s = Z.of_nat (size (ch_senders ch)) ∧
    Z.of_nat (length (ch_shards ch)) = next_id s).
Proof.
  intros Hcs Hok Hf Hmax. eapply wp_mono; [by apply (wp_cexec cs ch l)|].
  intros [[hs rs] l'] s (-> & al & Hc). split; [done|]. split; [|split; [apply Hc|]].
  - apply set_eq. intros h. rewrite !elem_of_dom, (cr_hs _ _ _ _ _ _ Hc h). by rewrite fmap_is_Some.
  - rewrite (lr_next_id _ _ _ _ (cr_rep _ _ _ _ _ _ Hc)), (lr_len _ _ _ _ (cr_rep _ _ _ _ _ _ Hc)). done.
Qed.

End refinement.
