(* ===== verification/LubqProps.v ===== *)
(** * What the channel guarantees

    No value is lost or duplicated; two senders never share a shard; an error
    from a receiver means that every shard was empty. *)

From S2P Require Import Prelude Prog Layout Head Geometry Instances SpmcQueue Shard Lubq LubqInv LubqBatch LubqSender LubqSpec.

(** ** Flags and contents of a list of shards *)

Section lists.
Context {T : Type}.
Implicit Types (ls : list (bool * list T)).

Lemma take_from_flags i n ls : (take_from i n ls).*1 = ls.*1.
Proof.
  apply list_eq. intros j. rewrite !list_lookup_fmap. unfold take_from.
  destruct (decide (i = j)) as [<-|]; [rewrite list_lookup_alter_eq|by rewrite list_lookup_alter_ne].
  by destruct (ls !! i).
Qed.

Lemma take_from_None i n ls : ls !! i = None → take_from i n ls = ls.
Proof.
  intros Hl. apply list_eq. intros j. unfold take_from.
  destruct (decide (i = j)) as [<-|]; [by rewrite list_lookup_alter_eq, Hl|by rewrite list_lookup_alter_ne].
Qed.

Lemma append_to_flags i vs ls : (append_to i vs ls).*1 = ls.*1.
Proof.
  apply list_eq. intros j. rewrite !list_lookup_fmap. unfold append_to.
  destruct (decide (i = j)) as [<-|]; [rewrite list_lookup_alter_eq|by rewrite list_lookup_alter_ne].
  by destruct (ls !! i).
Qed.

Definition contents ls : list T := concat (ls.*2).

(** Changing one shard. *)
Lemma contents_insert ls i x :
  ls !! i = Some x →
  ∃ rest, contents ls ≡ₚ x.2 ++ rest ∧ ∀ y, contents (<[i := y]> ls) ≡ₚ y.2 ++ rest.
Proof.
  intros Hx. exists (contents (take i ls) ++ contents (drop (S i) ls)).
  assert (∀ y, contents (<[i := y]> ls) ≡ₚ y.2 ++ contents (take i ls) ++ contents (drop (S i) ls)) as Hy.
  { intros y. rewrite insert_take_drop by (by eapply lookup_lt_Some). unfold contents.
    rewrite fmap_app, concat_app. simpl. rewrite !app_assoc. apply Permutation_app_tail, Permutation_app_comm. }
  split; [|done]. rewrite <- (Hy x). by rewrite list_insert_id.
Qed.

Lemma contents_take_from i n ls b l :
  ls !! i = Some (b, l) → contents ls ≡ₚ take n l ++ contents (take_from i n ls).
Proof.
  intros Hl. rewrite (take_from_insert i n ls b l Hl).
  destruct (contents_insert ls i (b, l) Hl) as (rest & -> & Hy). rewrite Hy. simpl.
  by rewrite app_assoc, take_drop.
Qed.

Lemma contents_append i vs ls b l :
  ls !! i = Some (b, l) → contents (append_to i vs ls) ≡ₚ contents ls ++ vs.
Proof.
  intros Hl. rewrite (append_to_insert i vs ls b l Hl).
  destruct (contents_insert ls i (b, l) Hl) as (rest & -> & Hy). rewrite Hy. simpl.
  rewrite <- !app_assoc. apply Permutation_app_head, Permutation_app_comm.
Qed.

(** Changing a flag. *)
Lemma contents_flag i b b' l ls : ls !! i = Some (b, l) → contents (<[i := (b', l)]> ls) ≡ₚ contents ls.
Proof. intros Hl. destruct (contents_insert ls i (b, l) Hl) as (rest & -> & Hy). by rewrite Hy. Qed.

Lemma contents_nil ls : contents ls = [] ↔ ∀ i b l, ls !! i = Some (b, l) → l = [].
Proof.
  unfold contents. induction ls as [|[b l] ls IH]; simpl; [split; [done|done]|]. split.
  - intros [-> Hc]%app_nil. intros [|i] b' l' Hi; [by injection Hi as <- <-|]. by eapply (proj1 IH Hc i).
  - intros Hx. rewrite (Hx 0%nat b l eq_refl). simpl. apply IH. intros i b' l' Hi. by apply (Hx (S i) b' l').
Qed.

(** ** Scans *)

(** A scan of all shards fails exactly when there is nothing to deliver. *)
Lemma spec_scan_ok c ls :
  (start_of c < length ls)%nat →
  let '(v, c', ls') := spec_scan c ls in
  contents ls ≡ₚ (match v with Some v => [v] | None => [] end) ++ contents ls' ∧ ls'.*1 = ls.*1 ∧
  (v = None → contents ls = []).
Proof.
  intros Hs. unfold spec_scan. destruct (scan_first _ ls) as [[i v]|] eqn:E.
  - apply scan_first_Some in E as (_ & b & l & Hl). split; [|split; [apply take_from_flags|done]].
    by apply (contents_take_from i 1 ls b (v :: l)).
  - split; [done|]. split; [done|]. intros _. apply contents_nil. intros i b l Hi.
    eapply (proj1 (scan_first_None _ ls) E i); [|done]. apply elem_of_rotation; [done|]. by eapply lookup_lt_Some.
Qed.

Lemma scan_batch_ok order n ls :
  let '(got, _, ls') := scan_batch order n ls in contents ls ≡ₚ got ++ contents ls' ∧ ls'.*1 = ls.*1.
Proof.
  revert n ls. induction order as [|i order IH]; intros n ls; [done|].
  destruct (decide (n = 0)%nat) as [->|Hn]; [by rewrite scan_batch_0|].
  rewrite scan_batch_cons by lia. cbv zeta. set (got := take n _).
  specialize (IH (n - length got)%nat (take_from i n ls)).
  destruct (scan_batch order _ _) as [[rest last] ls']. destruct IH as [IHp IHf].
  rewrite take_from_flags in IHf. split; [|done]. rewrite <- app_assoc, <- IHp. unfold got.
  destruct (ls !! i) as [[b l]|] eqn:Hl; [by apply (contents_take_from i n ls b l)|].
  rewrite (take_from_None i n ls Hl). simpl. by rewrite take_nil.
Qed.

(** A batch scan that asks for something and gets nothing found nothing. *)
Lemma scan_batch_nil order n ls i b l :
  (0 < n)%nat → (scan_batch order n ls).1.1 = [] → i ∈ order → ls !! i = Some (b, l) → l = [].
Proof.
  intros Hn. revert ls. induction order as [|j order IH]; intros ls Hg Hi Hl; [by apply elem_of_nil in Hi|].
  rewrite scan_batch_cons in Hg by done. cbv zeta in Hg.
  destruct (ls !! j) as [[b' l']|] eqn:Hj; simpl in Hg.
  - assert (l' = []) as ->.
    { destruct l' as [|v l']; [done|]. destruct n; [lia|]. cbn in Hg.
      by destruct (scan_batch order _ _) as [[? ?] ?]. }
    rewrite (take_from_nil j n ls b' Hj), take_nil, Nat.sub_0_r in Hg.
    apply elem_of_cons in Hi as [->|Hi]; [congruence|]. apply (IH ls); try done.
    by destruct (scan_batch order n ls) as [[? ?] ?].
  - apply elem_of_cons in Hi as [->|Hi]; [congruence|]. rewrite take_nil in Hg. simpl in Hg.
    rewrite (take_from_None j n ls Hj), Nat.sub_0_r in Hg. apply (IH ls); try done.
    by destruct (scan_batch order n ls) as [[? ?] ?].
Qed.

Lemma spec_scan_batch_ok c n ls :
  (start_of c < length ls)%nat → (0 < n)%nat →
  let '(got, _, ls') := spec_scan_batch c n ls in
  contents ls ≡ₚ got ++ contents ls' ∧ ls'.*1 = ls.*1 ∧ (got = [] → contents ls = []).
Proof.
  intros Hs Hn. unfold spec_scan_batch. pose proof (scan_batch_ok (rotation (start_of c) (length ls)) n ls) as Ho.
  destruct (scan_batch _ n ls) as [[got last] ls'] eqn:E. destruct Ho as [Hp Hf]. split; [done|]. split; [done|].
  intros ->. apply contents_nil. intros i b l Hi.
  eapply (scan_batch_nil (rotation (start_of c) (length ls)) n ls i); [done|by rewrite E| |done].
  apply elem_of_rotation; [done|]. by eapply lookup_lt_Some.
Qed.

End lists.

(** ** Conservation and ownership *)

Section props.
Context {T : Type}.
Implicit Types (ch : chan T) (ls : list (bool * list T)).

(** The values a call sends, and those its answer delivers. *)
Definition sent (c : ccall T) : list T :=
  match c with CSend _ v => [v] | CSendBatch _ vs => vs | _ => [] end.

Definition received (c : ccall T) (a : canswer T) : list T :=
  match c, a with
  | CRecv _, ARecv (inl v) => [v]
  | CRecvBatch _ _ values, AVec _ vec => drop (length values) vec
  | _, _ => []
  end.

(** Every live sender owns a shard of its own; cursors are in range. *)
Record chan_ok ch : Prop := {
  co_some : (0 < length (ch_shards ch))%nat;
  co_owned : ∀ h i, ch_senders ch !! h = Some i → (ch_shards ch).*1 !! i = Some true;
  co_inj : ∀ h h' i, ch_senders ch !! h = Some i → ch_senders ch !! h' = Some i → h = h';
  co_cursor : ∀ r c, ch_recvs ch !! r = Some c → (start_of c < length (ch_shards ch))%nat
}.

Lemma chan_ok_new : chan_ok chan_new.
Proof.
  split; simpl.
  - lia.
  - intros h i [<- <-]%lookup_singleton_Some. done.
  - intros h h' i [<- <-]%lookup_singleton_Some [<- _]%lookup_singleton_Some. done.
  - intros r c [<- <-]%lookup_singleton_Some. simpl. lia.
Qed.

(** A receive: the flags stay, the cursor stays in range. *)
Lemma chan_ok_recv ch ls r c :
  chan_ok ch → ls.*1 = (ch_shards ch).*1 → (start_of c < length ls)%nat →
  chan_ok (mkChan ls (ch_senders ch) (<[r := c]> (ch_recvs ch))).
Proof.
  intros [Hs Ho Hi Hc] Hf Hst. assert (length ls = length (ch_shards ch)) as El
    by (rewrite <- (length_fmap fst ls), Hf; apply length_fmap).
  split; simpl; [by rewrite El|by rewrite Hf|done|].
  intros k c' [[<- <-]|[_ Hk]]%lookup_insert_Some; [done|]. rewrite El. by eapply Hc.
Qed.

Lemma nxt_lt i n : (0 < n)%nat → (nxt i n < n)%nat.
Proof. intros Hn. unfold nxt. destruct (decide _); lia. Qed.

Lemma spec_scan_cursor c ls :
  (0 < length ls)%nat → (start_of (spec_scan c ls).1.2 < length ls)%nat ∧ length (spec_scan c ls).2 = length ls.
Proof.
  intros Hl. unfold spec_scan. destruct (scan_first _ ls) as [[i v]|]; simpl;
    (split; [by apply nxt_lt|]); [|done]. unfold take_from. apply length_alter.
Qed.

Lemma spec_recv_ok b c ls :
  (start_of c < length ls)%nat →
  let '(r, c', ls') := spec_recv b c ls in
  contents ls ≡ₚ (match r with inl v => [v] | inr _ => [] end) ++ contents ls' ∧ ls'.*1 = ls.*1 ∧
  (start_of c' < length ls)%nat ∧
  match r with inl _ => True | inr Empty => b = false ∧ contents ls = [] | inr Disconnected => b = true ∧ contents ls = [] end.
Proof.
  intros Hs. unfold spec_recv. pose proof (spec_scan_ok c ls Hs) as H1'.
  pose proof (spec_scan_cursor c ls ltac:(lia)) as [Hc1 Hl1].
  destruct (spec_scan c ls) as [[[v|] c1] ls1]; destruct H1' as (Hp1 & Hf1 & Hn1); simpl in *.
  { split_and!; try done. }
  specialize (Hn1 eq_refl). destruct b; simpl; [|done].
  pose proof (spec_scan_ok c1 ls1 ltac:(lia)) as H2'.
  pose proof (spec_scan_cursor c1 ls1 ltac:(lia)) as [Hc2 Hl2].
  destruct (spec_scan c1 ls1) as [[[v|] c2] ls2]; destruct H2' as (Hp2 & Hf2 & Hn2); simpl in *.
  - split_and!; [by rewrite Hp1|congruence|lia|done].
  - split_and!; [by rewrite Hp1|congruence|lia|done|done].
Qed.

Lemma spec_scan_batch_cursor c n ls :
  (0 < length ls)%nat →
  (start_of (spec_scan_batch c n ls).1.2 < length ls)%nat ∧ length (spec_scan_batch c n ls).2 = length ls.
Proof.
  intros Hl. unfold spec_scan_batch. pose proof (scan_batch_last (rotation (start_of c) (length ls)) n ls) as Hx.
  destruct (scan_batch _ n ls) as [[got last] ls']. destruct Hx as (_ & _ & Hx). simpl.
  split; [by apply nxt_lt|done].
Qed.

Lemma spec_recv_batch_ok b c n ls :
  (start_of c < length ls)%nat →
  let '(r, got, c', ls') := spec_recv_batch b c n ls in
  contents ls ≡ₚ got ++ contents ls' ∧ ls'.*1 = ls.*1 ∧ (start_of c' < length ls)%nat ∧
  match r with
  | inl m => m = length got ∧ (0 < n → 0 < m)%nat
  | inr Empty => b = false ∧ contents ls = []
  | inr Disconnected => b = true ∧ contents ls = []
  end.
Proof.
  intros Hs. unfold spec_recv_batch. destruct (decide (n = 0)%nat) as [->|Hn]; [split_and!; (done || lia)|].
  pose proof (spec_scan_batch_ok c n ls Hs ltac:(lia)) as H1'.
  pose proof (spec_scan_batch_cursor c n ls ltac:(lia)) as [Hc1 Hl1].
  destruct (spec_scan_batch c n ls) as [[[|v got] c1] ls1]; destruct H1' as (Hp1 & Hf1 & Hn1); simpl in *.
  2: { split_and!; (done || lia). }
  specialize (Hn1 eq_refl). destruct b; simpl; [|done].
  pose proof (spec_scan_batch_ok c1 n ls1 ltac:(lia) ltac:(lia)) as H2'.
  pose proof (spec_scan_batch_cursor c1 n ls1 ltac:(lia)) as [Hc2 Hl2].
  destruct (spec_scan_batch c1 n ls1) as [[[|v got] c2] ls2]; destruct H2' as (Hp2 & Hf2 & Hn2); simpl in *.
  - split_and!; [by rewrite Hp1|congruence|lia|done|done].
  - split_and!; [by rewrite Hp1|congruence|lia|done|lia].
Qed.

Lemma spec_scan_batch_le c n ls : (length (spec_scan_batch c n ls).1.1 ≤ n)%nat.
Proof.
  unfold spec_scan_batch. pose proof (scan_batch_last (rotation (start_of c) (length ls)) n ls) as Hx.
  destruct (scan_batch _ n ls) as [[got last] ls']. by destruct Hx as (_ & ? & _).
Qed.

Lemma spec_recv_batch_le b c n ls : (length (spec_recv_batch b c n ls).1.1.2 ≤ n)%nat.
Proof.
  unfold spec_recv_batch. destruct (decide (n = 0)%nat); [simpl; lia|].
  pose proof (spec_scan_batch_le c n ls) as H1'. destruct (spec_scan_batch c n ls) as [[[|v got] c1] ls1]; [|done].
  destruct b; simpl; [|lia]. pose proof (spec_scan_batch_le c1 n ls1) as H2'.
  by destruct (spec_scan_batch c1 n ls1) as [[[|v got] c2] ls2].
Qed.

Lemma owned_lookup ch h i :
  chan_ok ch → ch_senders ch !! h = Some i → ∃ l, ch_shards ch !! i = Some (true, l).
Proof.
  intros Hok Hh. pose proof (co_owned _ Hok h i Hh) as Hf. rewrite list_lookup_fmap in Hf.
  destruct (ch_shards ch !! i) as [[b l]|]; [|done]. injection Hf as ->. eauto.
Qed.

(** A new sender gets a shard nobody owns. *)
Lemma chan_ok_acquire ls hs rs h' :
  chan_ok (mkChan ls hs rs) → hs !! h' = None →
  chan_ok (mkChan (spec_acquire ls).2 (<[h' := (spec_acquire ls).1]> hs) rs) ∧
  contents (spec_acquire ls).2 ≡ₚ contents ls.
Proof.
  intros [Hs Ho Hi Hc] Hh'. unfold spec_acquire. simpl in *.
  destruct (find_idle ls) as [j|] eqn:Ej; simpl.
  - apply find_idle_Some in Ej. pose proof (lookup_lt_Some _ _ _ Ej).
    assert (∀ k x, hs !! k = Some x → x ≠ j) as Hnj.
    { intros k x Hk ->. specialize (Ho k j Hk). rewrite list_lookup_fmap, Ej in Ho. done. }
    split; [|by eapply contents_flag]. split; simpl.
    + by rewrite length_insert.
    + intros k x. rewrite list_lookup_fmap. intros [[<- <-]|[_ Hk]]%lookup_insert_Some.
      * by rewrite list_lookup_insert_eq.
      * rewrite list_lookup_insert_ne by (apply not_eq_sym; by eapply Hnj).
        rewrite <- list_lookup_fmap. by eapply Ho.
    + intros k k' x [[<- <-]|[Hne Hk]]%lookup_insert_Some [[<- Ex]|[Hne' Hk']]%lookup_insert_Some; try done.
      * by destruct (Hnj k' j Hk').
      * by destruct (Hnj k x Hk).
      * by eapply Hi.
    + intros r c Hr. rewrite length_insert. by eapply Hc.
  - assert (∀ k x, hs !! k = Some x → (x < length ls)%nat) as Hlt.
    { intros k x Hk. specialize (Ho k x Hk). apply lookup_lt_Some in Ho. by rewrite length_fmap in Ho. }
    split; [|unfold contents; rewrite fmap_app, concat_app; simpl; by rewrite app_nil_r]. split; simpl.
    + rewrite length_app. lia.
    + intros k x. rewrite fmap_app. intros [[<- <-]|[_ Hk]]%lookup_insert_Some.
      * rewrite lookup_app_r by (rewrite length_fmap; lia). by rewrite length_fmap, Nat.sub_diag.
      * rewrite lookup_app_l by (rewrite length_fmap; by eapply Hlt). by eapply Ho.
    + intros k k' x [[<- <-]|[Hne Hk]]%lookup_insert_Some [[<- Ex]|[Hne' Hk']]%lookup_insert_Some; try done.
      * pose proof (Hlt _ _ Hk'). lia.
      * pose proof (Hlt _ _ Hk). lia.
      * by eapply Hi.
    + intros r c Hr. rewrite length_app. specialize (Hc r c Hr). lia.
Qed.

(** A dropped sender leaves its shard to the next one. *)
Lemma chan_ok_retire ls hs rs h i :
  chan_ok (mkChan ls hs rs) → hs !! h = Some i →
  chan_ok (mkChan (alter (λ x, (false, x.2)) i ls) (delete h hs) rs) ∧
  contents (alter (λ x, (false, x.2)) i ls) ≡ₚ contents ls.
Proof.
  intros Hok Hh. destruct (owned_lookup _ h i Hok Hh) as [l Hl]. destruct Hok as [Hs Ho Hi Hc]. simpl in *.
  assert (alter (λ x, (false, x.2)) i ls = <[i := (false, l)]> ls) as Ea.
  { apply list_eq. intros j. destruct (decide (i = j)) as [<-|Hne].
    - by rewrite list_lookup_alter_eq, Hl, list_lookup_insert_eq by (by eapply lookup_lt_Some).
    - by rewrite list_lookup_alter_ne, list_lookup_insert_ne by done. }
  rewrite Ea. split; [|by eapply contents_flag]. split; simpl.
  - by rewrite length_insert.
  - intros k x [Hne Hk]%lookup_delete_Some. rewrite list_lookup_fmap, list_lookup_insert_ne.
    + rewrite <- list_lookup_fmap. by eapply Ho.
    + intros <-. apply Hne. by eapply Hi.
  - intros k k' x [_ Hk]%lookup_delete_Some [_ Hk']%lookup_delete_Some. by eapply Hi.
  - intros r c Hr. rewrite length_insert. by eapply Hc.
Qed.

Lemma chan_call_ok c ch ch' a :
  chan_ok ch → chan_call c ch = Some (ch', a) →
  chan_ok ch' ∧ contents (ch_shards ch) ++ sent c ≡ₚ received c a ++ contents (ch_shards ch').
Proof.
  intros Hok Hcall. destruct ch as [ls hs rs] eqn:Ech. rewrite <- Ech in Hok.
  assert (∀ i vs l, ls !! i = Some (true, l) → chan_ok (mkChan (append_to i vs ls) hs rs)) as Happ.
  { intros i vs l _. destruct Hok as [Hs Ho Hi Hc]. subst ch. simpl in *.
    assert (length (append_to i vs ls) = length ls) as El by (unfold append_to; apply length_alter).
    split; simpl; [lia|by rewrite append_to_flags|done|]. rewrite El. done. }
  destruct c as [h v|h vs|h h'|h|r|r n values|r r'|r]; simpl in Hcall.
  - destruct (hs !! h) as [i|] eqn:Hh; [|done]. injection Hcall as <- <-.
    destruct (owned_lookup ch h i Hok) as [l Hl]; [by subst ch|]. subst ch. split; [by eapply Happ|]. simpl.
    symmetry. by eapply contents_append.
  - destruct (hs !! h) as [i|] eqn:Hh; [|done]. injection Hcall as <- <-.
    destruct (owned_lookup ch h i Hok) as [l Hl]; [by subst ch|]. subst ch. split; [by eapply Happ|]. simpl.
    symmetry. by eapply contents_append.
  - destruct (hs !! h) as [i|] eqn:Hh; [|done]. simpl in Hcall. destruct (hs !! h') eqn:Hh'; [done|].
    pose proof (chan_ok_acquire ls hs rs h') as Hx. destruct (spec_acquire ls) as [i' ls'].
    injection Hcall as <- <-. subst ch. destruct Hx as [Hx Hp]; [done|done|]. split; [done|].
    simpl. by rewrite app_nil_r, Hp.
  - destruct (hs !! h) as [i|] eqn:Hh; [|done]. injection Hcall as <- <-. subst ch.
    destruct (chan_ok_retire ls hs rs h i Hok Hh) as [Hx Hp]. split; [done|]. simpl. by rewrite app_nil_r, Hp.
  - destruct (rs !! r) as [c|] eqn:Hr; [|done]. simpl in Hcall.
    assert (start_of c < length ls)%nat as Hst by (pose proof (co_cursor _ Hok r c) as Hx; subst ch; by apply Hx).
    pose proof (spec_recv_ok (closed (mkChan ls hs rs)) c ls Hst) as Hx.
    destruct (spec_recv _ c ls) as [[res c'] ls']. destruct Hx as (Hp & Hf & Hc' & _). injection Hcall as <- <-.
    assert (length ls' = length ls) as El by (rewrite <- (length_fmap fst ls'), Hf; apply length_fmap).
    split; [|simpl; rewrite app_nil_r; by destruct res].
    pose proof (chan_ok_recv ch ls' r c' Hok) as Hy. subst ch. simpl in Hy. apply Hy; [done|lia].
  - destruct (rs !! r) as [c|] eqn:Hr; [|done]. simpl in Hcall.
    assert (start_of c < length ls)%nat as Hst by (pose proof (co_cursor _ Hok r c) as Hx; subst ch; by apply Hx).
    pose proof (spec_recv_batch_ok (closed (mkChan ls hs rs)) c n ls Hst) as Hx.
    destruct (spec_recv_batch _ c n ls) as [[[res got] c'] ls']. destruct Hx as (Hp & Hf & Hc' & _). injection Hcall as <- <-.
    assert (length ls' = length ls) as El by (rewrite <- (length_fmap fst ls'), Hf; apply length_fmap).
    split; [|simpl; by rewrite app_nil_r, drop_app_length].
    pose proof (chan_ok_recv ch ls' r c' Hok) as Hy. subst ch. simpl in Hy. apply Hy; [done|lia].
  - destruct (rs !! r) as [c|] eqn:Hr; [|done]. simpl in Hcall. destruct (rs !! r') eqn:Hr'; [done|].
    injection Hcall as <- <-. split; [|simpl; by rewrite app_nil_r].
    pose proof (chan_ok_recv ch ls r' None Hok) as Hy. subst ch. apply Hy; [done|]. apply Hok.
  - destruct (rs !! r) as [c|] eqn:Hr; [|done]. injection Hcall as <- <-. subst ch. split; [done|].
    simpl. by rewrite app_nil_r.
Qed.

Lemma chan_calls_ok cs ch ch' l :
  chan_ok ch → chan_calls cs ch = Some (ch', l) →
  chan_ok ch' ∧
  contents (ch_shards ch) ++ concat (sent <$> cs) ≡ₚ concat (zip_with received cs l) ++ contents (ch_shards ch').
Proof.
  revert ch l. induction cs as [|c cs IH]; intros ch l Hok Hcs.
  { injection Hcs as <- <-. split; [done|]. simpl. by rewrite app_nil_r. }
  simpl in Hcs. destruct (chan_call c ch) as [[ch1 a]|] eqn:E1; [|done]. simpl in Hcs.
  destruct (chan_calls cs ch1) as [[ch2 l2]|] eqn:E2; [|done]. simpl in Hcs. injection Hcs as <- <-.
  destruct (chan_call_ok c ch ch1 a Hok E1) as [Hok1 Hp1]. destruct (IH ch1 l2 Hok1 E2) as [Hok2 Hp2].
  split; [done|]. simpl. rewrite app_assoc, Hp1, <- !app_assoc. by apply Permutation_app_head.
Qed.

End props.

(** ** The guarantees *)

Section guarantees.
Context {T Q : Type} `{!ShardQueue T Q} `{!BoxAllocator} `{!Profile}.

(** No value is lost or duplicated: after any sequence of calls the values
    sent are, as a multiset, the values received so far together with those the
    shards still hold. *)
Theorem lubq_conserves (cs : list (ccall T)) ch l fuel :
  chan_calls cs chan_new = Some (ch, l) → Forall ccall_ok cs → (ccalls_cost cs + 2 < fuel)%nat →
  Z.of_nat (ccalls_cost cs) + 1 < usize_max →
  wp (H := lubq_run fuel) (cexec fuel cs) (Core_new (Q := Q)) (λ '(_, _, answers) s, ∃ al ls n,
    lrep al ls n s ∧ concat (sent <$> cs) ≡ₚ concat (zip_with received cs answers) ++ contents ls).
Proof.
  intros Hcs Hok Hf Hmax. destruct (chan_calls_ok cs chan_new ch l chan_ok_new Hcs) as [_ Hp]. simpl in Hp.
  eapply wp_mono; [by apply (wp_cexec cs ch l)|]. intros [[hs rs] l'] s (-> & al & Hc).
  exists al, (ch_shards ch), (ccalls_cost cs). split; [apply Hc|done].
Qed.

(** Two live senders never share a shard, and the shard of a live sender is
    marked as owned, whatever senders were cloned and dropped before: the shard
    queues keep a single producer. *)
Theorem lubq_sender_exclusive (cs : list (ccall T)) ch l fuel :
  chan_calls cs chan_new = Some (ch, l) → Forall ccall_ok cs → (ccalls_cost cs + 2 < fuel)%nat →
  Z.of_nat (ccalls_cost cs) + 1 < usize_max →
  wp (H := lubq_run fuel) (cexec fuel cs) (Core_new (Q := Q)) (λ '(hs, _, _) s,
    (∀ h h' sh, hs !! h = Some sh → hs !! h' = Some sh → h = h') ∧
    (∀ h sh, hs !! h = Some sh → producer_active <$> shards s !! sh = Some 1)).
Proof.
  intros Hcs Hok Hf Hmax. destruct (chan_calls_ok cs chan_new ch l chan_ok_new Hcs) as [Hch _].
  eapply wp_mono; [by apply (wp_cexec cs ch l)|]. intros [[hs rs] l'] s (-> & al & Hc).
  pose proof (cr_rep _ _ _ _ _ _ Hc) as Hr.
  assert (∀ h sh, hs !! h = Some sh → ∃ i, ch_senders ch !! h = Some i ∧ sh = sa al i ∧ (i < length al)%nat) as Hh.
  { intros h sh. rewrite (cr_hs _ _ _ _ _ _ Hc h). intros (i & Hi & ->)%fmap_Some. exists i.
    split; [done|]. split; [done|]. by eapply (cr_hs_ok _ _ _ _ _ _ Hc). }
  split.
  - intros h h' sh (i & Hi & -> & Hlt)%Hh (i' & Hi' & E & Hlt')%Hh.
    apply (sa_inj al) in E; [|apply Hr|done|done]. subst i'. by eapply (co_inj _ Hch).
  - intros h sh (i & Hi & -> & Hlt)%Hh. destruct (owned_lookup ch h i Hch Hi) as [q Hq].
    destruct (lr_shard _ _ _ _ Hr i true q Hq) as (x & -> & _). done.
Qed.

(** C7: a receiver is work-conserving and its errors are exact: from any state of
    the registry, [try_recv] returns a value that was in some shard and removes
    just that value; it fails only if every shard was empty, with [Empty] when a
    sender is left and with [Disconnected] when none is. *)
Theorem lubq_try_recv_exact al (ls : list (bool * list T)) cost (s : lmem Q) c n fuel :
  lrep al ls cost s → cursor_ok al c → (length al < n)%nat → (cost + 1 < fuel)%nat →
  wp (H := lubq_run fuel) (try_recv n (cursor_at al c)) s (λ '(r, _) s', ∃ ls',
    lrep al ls' cost s' ∧
    match r with
    | inl v => contents ls ≡ₚ v :: contents ls'
    | inr Empty => senders s ≠ 0 ∧ contents ls = [] ∧ contents ls' = []
    | inr Disconnected => senders s = 0 ∧ contents ls = [] ∧ contents ls' = []
    end).
Proof.
  intros Hr Hc Hn Hf. pose proof (start_ok _ _ _ _ _ Hr Hc) as Hst. rewrite (lr_len _ _ _ _ Hr) in Hst.
  pose proof (spec_recv_ok (senders s =? 0) c ls Hst) as Hx.
  eapply wp_mono; [by apply (wp_try_recv fuel al ls cost s c n)|]. intros [r cur] s' (c' & E & _ & Hr' & _).
  destruct (spec_recv _ c ls) as [[r' nc] ls']. simpl in *. injection E as -> _ _.
  destruct Hx as (Hp & _ & _ & He). exists ls'. split; [done|]. destruct r' as [v|[]]; [done|..].
  - destruct He as [Hz E0]. rewrite E0 in Hp |- *. apply Z.eqb_neq in Hz. split; [done|]. split; [done|]. by apply Permutation_nil in Hp.
  - destruct He as [Hz E0]. rewrite E0 in Hp |- *. apply Z.eqb_eq in Hz. split; [done|]. split; [done|]. by apply Permutation_nil in Hp.
Qed.

(** The same for batches: [try_recv_batch_into] appends values that were in
    the shards and removes just those, at least one if there was any and at most
    as many as asked for; its errors are exact. *)
Theorem lubq_try_recv_batch_exact al (ls : list (bool * list T)) cost (s : lmem Q) c n sz values fuel :
  lrep al ls cost s → cursor_ok al c → (length al < n)%nat → (cost + 1 < fuel)%nat →
  Z.of_nat sz ≤ usize_max → (0 < sz)%nat →
  wp (H := lubq_run fuel) (try_recv_batch_into n (cursor_at al c) values (Z.of_nat sz)) s (λ '(r, vec, _) s', ∃ got ls',
    lrep al ls' cost s' ∧ vec = values ++ got ∧ contents ls ≡ₚ got ++ contents ls' ∧ (length got ≤ sz)%nat ∧
    match r with
    | inl m => m = Z.of_nat (length got) ∧ 0 < m
    | inr Empty => senders s ≠ 0 ∧ contents ls = []
    | inr Disconnected => senders s = 0 ∧ contents ls = []
    end).
Proof.
  intros Hr Hc Hn Hf Hmax Hsz. pose proof (start_ok _ _ _ _ _ Hr Hc) as Hst. rewrite (lr_len _ _ _ _ Hr) in Hst.
  pose proof (spec_recv_batch_ok (senders s =? 0) c sz ls Hst) as Hx.
  pose proof (spec_recv_batch_le (senders s =? 0) c sz ls) as Hle.
  eapply wp_mono; [by apply (wp_try_recv_batch_into fuel al ls cost s c n sz values)|]. intros r s' (c' & Hy).
  destruct (spec_recv_batch _ c sz ls) as [[[r' got] nc] ls']. destruct Hy as (_ & _ & -> & Hr' & _).
  destruct Hx as (Hp & _ & _ & He). exists got, ls'. split; [done|]. split; [done|]. split; [done|].
  split; [done|]. destruct r' as [m|[]]; simpl.
  - destruct He as [-> He]. split; [done|]. specialize (He Hsz). lia.
  - destruct He as [Hz ->]. by apply Z.eqb_neq in Hz.
  - destruct He as [Hz ->]. by apply Z.eqb_eq in Hz.
Qed.

End guarantees.

(** ** A channel over the shard queue *)

(** Two senders, one of which retires and whose shard is reused, and a receiver
    that drains the channel. *)
Definition csample : list (ccall Z) :=
  [CSend 0 1; CClone 0 1; CSend 1 10; CSendBatch 1 [11; 12; 13]; CSend 0 2; CRecv 0; CRecv 0;
   CDropSender 1; CClone 0 2; CSend 2 20; CRecvBatch 0 3 [7]; CRecv 0; CRecv 0; CRecv 0;
   CClone 0 3; CDropSender 3; CDropSender 0; CDropSender 2; CIsClosed 0; CRecv 0; CRecv 0].

Definition csample_answers : list (canswer Z) :=
  [AOk; AOk; AOk; AOk; AOk; ARecv (inl 1); ARecv (inl 10);
   AOk; AOk; AOk; AVec (inl 3%nat) [7; 2; 11; 12]; ARecv (inl 20); ARecv (inl 13); ARecv (inr Empty);
   AOk; AOk; AOk; AOk; AClosed true; ARecv (inr Disconnected); ARecv (inr Disconnected)].

Definition csample_end : chan Z := mkChan [(false, []); (false, []); (false, [])] ∅ {[ 0%nat := Some 1%nat ]}.

Lemma csample_ok : Forall ccall_ok csample.
Proof. repeat constructor; vm_compute; discriminate. Defined.

(** Shard queues with blocks of two slots, in a debug build. *)
Definition tiny_shard : ShardQueue Z (smem Z) := spmc_shard (H1 := debug_build).

Lemma lubq_refines_spec_witness :
  wp (H := lubq_run (ShardQueue0 := tiny_shard) 100) (cexec (H0 := debug_build) 100 csample)
    (Core_new (H := tiny_shard)) (λ '(hs, rs, l') s,
    l' = csample_answers ∧ dom hs = dom (ch_senders csample_end) ∧
    senders s = Z.of_nat (size (ch_senders csample_end)) ∧ 3 = next_id s).
Proof.
  apply (lubq_refines_spec csample csample_end csample_answers 100);
    [reflexivity|apply csample_ok|vm_compute; lia|vm_compute; reflexivity].
Defined.

Lemma lubq_conserves_witness :
  wp (H := lubq_run (ShardQueue0 := tiny_shard) 100) (cexec (H0 := debug_build) 100 csample)
    (Core_new (H := tiny_shard)) (λ '(_, _, answers) s, ∃ al ls n,
    lrep (ShardQueue0 := tiny_shard) al ls n s ∧
    [1; 10; 11; 12; 13; 2; 20] ≡ₚ concat (zip_with received csample answers) ++ contents ls).
Proof.
  apply (lubq_conserves csample csample_end csample_answers 100);
    [reflexivity|apply csample_ok|vm_compute; lia|vm_compute; reflexivity].
Defined.

Lemma lubq_sender_exclusive_witness :
  wp (H := lubq_run (ShardQueue0 := tiny_shard) 100) (cexec (H0 := debug_build) 100 csample)
    (Core_new (H := tiny_shard)) (λ '(hs, _, _) s,
    (∀ h h' sh, hs !! h = Some sh → hs !! h' = Some sh → h = h') ∧
    (∀ h sh, hs !! h = Some sh → producer_active <$> shards s !! sh = Some 1)).
Proof.
  apply (lubq_sender_exclusive csample csample_end csample_answers 100);
    [reflexivity|apply csample_ok|vm_compute; lia|vm_compute; reflexivity].
Defined.

(** A fresh channel: one sender, nothing sent. *)
Lemma lubq_try_recv_exact_witness :
  wp (H := lubq_run (ShardQueue0 := tiny_shard) 100) (try_recv 10 0)
    (Core_new (H := tiny_shard)) (λ '(r, _) s', ∃ ls',
    lrep (ShardQueue0 := tiny_shard) [1] ls' 0 s' ∧
    match r with
    | inl v => contents [(true, [])] ≡ₚ v :: contents ls'
    | inr Empty => 1 ≠ 0 ∧ contents (T := Z) [(true, [])] = [] ∧ contents ls' = []
    | inr Disconnected => 1 = 0 ∧ contents (T := Z) [(true, [])] = [] ∧ contents ls' = []
    end).
Proof.
  apply (lubq_try_recv_exact [1] [(true, [])] 0 (Core_new (H := tiny_shard)) None 10 100);
    [apply (lrep_new (ShardQueue0 := tiny_shard) [1]); vm_compute; reflexivity|done|simpl; lia|lia].
Defined.

Lemma lubq_try_recv_batch_exact_witness :
  wp (H := lubq_run (ShardQueue0 := tiny_shard) 100) (try_recv_batch_into (H := debug_build) 10 0 [7] 4)
    (Core_new (H := tiny_shard)) (λ '(r, vec, _) s', ∃ got ls',
    lrep (ShardQueue0 := tiny_shard) [1] ls' 0 s' ∧ vec = [7] ++ got ∧
    contents [(true, [])] ≡ₚ got ++ contents ls' ∧ (length got ≤ 4)%nat ∧
    match r with
    | inl m => m = Z.of_nat (length got) ∧ 0 < m
    | inr Empty => 1 ≠ 0 ∧ contents (T := Z) [(true, [])] = []
    | inr Disconnected => 1 = 0 ∧ contents (T := Z) [(true, [])] = []
    end).
Proof.
  apply (lubq_try_recv_batch_exact [1] [(true, [])] 0 (Core_new (H := tiny_shard)) None 10 4 [7] 100);
    [apply (lrep_new (ShardQueue0 := tiny_shard) [1]); vm_compute; reflexivity|done|simpl; lia|lia|vm_compute; discriminate|lia].
Defined.
