(* ===== verification/ChanGhost.v ===== *)
(** * The channel under interleaving: ghost state and invariant

    Any number of threads use one channel of src/src/kfifo/lubq.rs at the same time:
    they clone, use and drop senders, and receive.  The ghost state records which
    thread holds which shard and the registry lock, how far the registration of a new
    shard has got, and what was sent and received.  The logs of what was sent and
    received are not chosen by the proofs: each access of a thread to a shard adds the
    values it pushed or was given, under the thread and the shard it accessed. *)

From S2P Require Import Prelude Prog Conc Layout Head Geometry Shard Lubq.

(** ** Logs *)

(** Thread, shard and value, in the order in which the shards were accessed. *)
Notation clog T := (list (nat * Z * T)) (only parsing).

Definition by_thread {T} (i : nat) (l : clog T) : list T := (λ e, e.2) <$> filter (λ e, e.1.1 = i) l.

Definition by_shard {T} (sh : Z) (l : clog T) : list T := (λ e, e.2) <$> filter (λ e, e.1.2 = sh) l.

Lemma by_thread_app {T} i (l l' : clog T) : by_thread i (l ++ l') = by_thread i l ++ by_thread i l'.
Proof. unfold by_thread. by rewrite filter_app, fmap_app. Qed.

Lemma by_shard_app {T} sh (l l' : clog T) : by_shard sh (l ++ l') = by_shard sh l ++ by_shard sh l'.
Proof. unfold by_shard. by rewrite filter_app, fmap_app. Qed.

(** The entries of one access. *)
Definition entries {T} (i : nat) (sh : Z) (vs : list T) : clog T := (λ v, (i, sh, v)) <$> vs.

Lemma by_thread_entries {T} i j sh (vs : list T) :
  by_thread j (entries i sh vs) = if decide (i = j) then vs else [].
Proof.
  unfold by_thread, entries. induction vs as [|v vs IH]; [by case_decide|].
  rewrite fmap_cons, filter_cons. simpl. case_decide; [|done]. rewrite fmap_cons. simpl. by f_equal.
Qed.

Lemma by_shard_entries {T} i sh sh' (vs : list T) :
  by_shard sh' (entries i sh vs) = if decide (sh = sh') then vs else [].
Proof.
  unfold by_shard, entries. induction vs as [|v vs IH]; [by case_decide|].
  rewrite fmap_cons, filter_cons. simpl. case_decide; [|done]. rewrite fmap_cons. simpl. by f_equal.
Qed.

(** ** What an access adds to the logs *)

(** The values an access of thread [i] pushes. *)
Definition sent_of {T X} (i : nat) (e : lubqE T X) : clog T :=
  match e with
  | LQueue sh c =>
      match c with
      | QPush v => entries i sh [v]
      | QPushBatch vs => entries i sh vs
      | _ => []
      end
  | _ => []
  end.

(** The values an access of thread [i] that was answered [x] takes. *)
Definition recv_of {T X} (i : nat) (e : lubqE T X) : X → clog T :=
  match e in lubqE _ X return X → clog T with
  | LQueue sh c =>
      match c in qcall _ X return X → clog T with
      | QPop => λ o, entries i sh (option_list o)
      | QPopBatch _ values => λ l, entries i sh (drop (length values) l)
      | _ => λ _, []
      end
  | _ => λ _, []
  end.

(** The accesses of thread [i], with the logs of what was sent and received. *)
Definition chan_logged {T Q} `{ShardQueue T Q} `{BoxAllocator} (fuel : nat) (i : nat) :
    Handler (lubqE T) (lmem Q * (clog T * clog T)) := λ X e c,
  match lubq_handler fuel X e c.1 with
  | Next x s => Next x (s, (c.2.1 ++ sent_of i e, c.2.2 ++ recv_of i e x))
  | Fault => Fault
  | Exit => Exit
  end.

Definition chan_spurious {T Q} : Spurious (lubqE T) (lmem Q * (clog T * clog T)) := λ X e c, lubq_spurious X e c.1.

(** ** Sums over the threads *)

Definition total (N : nat) (f : nat → nat) : nat := sum_list (f <$> seq 0 N).

Definition set_at {B} (f : nat → B) (i : nat) (b : B) : nat → B := λ j, if decide (j = i) then b else f j.

Lemma set_at_eq {B} (f : nat → B) i b : set_at f i b i = b.
Proof. unfold set_at. by rewrite decide_True. Qed.

Lemma set_at_ne {B} (f : nat → B) i b j : j ≠ i → set_at f i b j = f j.
Proof. intros. unfold set_at. by rewrite decide_False. Qed.

Lemma total_S N f : total (S N) f = (total N f + f N)%nat.
Proof. unfold total. rewrite seq_S, fmap_app. simpl. induction (f <$> seq 0 N); simpl; lia. Qed.

Lemma total_ext N f g : (∀ j, (j < N)%nat → f j = g j) → total N f = total N g.
Proof.
  induction N as [|N IH]; intros Hfg; [done|]. rewrite !total_S, IH by (intros; apply Hfg; lia). by rewrite Hfg by lia.
Qed.

Lemma total_set N f i b : (i < N)%nat → (total N (set_at f i b) + f i = total N f + b)%nat.
Proof.
  induction N as [|N IH]; intros Hi; [lia|]. rewrite !total_S. destruct (decide (i = N)) as [->|Hne].
  - rewrite set_at_eq. rewrite (total_ext N (set_at f N b) f); [lia|]. intros j Hj. apply set_at_ne. lia.
  - rewrite set_at_ne by done. specialize (IH ltac:(lia)). lia.
Qed.

Lemma total_zero N f : total N f = 0%nat → ∀ j, (j < N)%nat → f j = 0%nat.
Proof.
  induction N as [|N IH]; intros H0 j Hj; [lia|]. rewrite total_S in H0.
  destruct (decide (j = N)) as [->|]; [lia|]. apply IH; lia.
Qed.

(** ** Ghost state *)

Record chgh (T : Type) := mkCg {
  cg_all : list Z;
  cg_owned : nat;
  cg_linked : nat;
  cg_tail : nat;
  cg_nid : nat;
  cg_lock : option nat;
  cg_holder : Z → option nat;
  cg_cnt : nat → nat;
  cg_vals : Z → list T;
  cg_sent : clog T;
  cg_recv : clog T;
  cg_used : nat;
  cg_rest : nat → nat
}.
Arguments mkCg {T} _ _ _ _ _ _ _ _ _ _ _ _ _.
Arguments cg_all {T} _.
Arguments cg_owned {T} _.
Arguments cg_linked {T} _.
Arguments cg_tail {T} _.
Arguments cg_nid {T} _.
Arguments cg_lock {T} _.
Arguments cg_holder {T} _ _.
Arguments cg_cnt {T} _ _.
Arguments cg_vals {T} _ _.
Arguments cg_sent {T} _.
Arguments cg_recv {T} _.
Arguments cg_used {T} _.
Arguments cg_rest {T} _ _.

Definition at_shard {B} (f : Z → B) (sh : Z) (b : B) : Z → B := λ x, if decide (x = sh) then b else f x.

Lemma at_shard_eq {B} (f : Z → B) sh b : at_shard f sh b sh = b.
Proof. unfold at_shard. by rewrite decide_True. Qed.

Lemma at_shard_ne {B} (f : Z → B) sh b x : x ≠ sh → at_shard f sh b x = f x.
Proof. intros. unfold at_shard. by rewrite decide_False. Qed.

Section invariant.
Context {T Q : Type} `{SQ : ShardQueue T Q}.
Context (N B : nat).
Implicit Types (γ : chgh T) (s : lmem Q).

(** Where the link of the shard at position [k] points. *)
Definition link_of γ (k : nat) : Z :=
  if decide (S k < cg_linked γ)%nat then default 0 (cg_all γ !! S k) else 0.

Record shard_is γ (k : nat) (sh : Z) (x : Shard Q) : Prop := {
  si_id : sh_id x = Z.of_nat k;
  si_active : producer_active x = match cg_holder γ sh with Some _ => 1 | None => 0 end;
  si_next : sh_next x = link_of γ k;
  si_queue : q_is (cg_used γ) (sh_queue x) (cg_vals γ sh)
}.

Record ch_inv γ s : Prop := {
  hv_head : cg_all γ !! 0%nat = Some (reg_head s);
  hv_tail : cg_all γ !! cg_tail γ = Some (reg_tail s);
  hv_lock : reg_locked s = match cg_lock γ with Some _ => 1 | None => 0 end;
  hv_owned : owned s = take (cg_owned γ) (cg_all γ);
  hv_nid : next_id s = Z.of_nat (cg_nid γ);
  hv_free : cg_lock γ = None →
    cg_owned γ = length (cg_all γ) ∧ cg_linked γ = length (cg_all γ) ∧
    S (cg_tail γ) = length (cg_all γ) ∧ cg_nid γ = length (cg_all γ);
  hv_order : (S (cg_tail γ) ≤ cg_linked γ ≤ length (cg_all γ))%nat ∧ (cg_owned γ ≤ length (cg_all γ))%nat;
  hv_nodup : NoDup (cg_all γ);
  hv_pos : Forall (λ sh, 0 < sh) (cg_all γ);
  hv_dom : dom (shards s) = list_to_set (cg_all γ);
  hv_shard : ∀ k sh, cg_all γ !! k = Some sh → ∃ x, shards s !! sh = Some x ∧ shard_is γ k sh x;
  hv_outside : ∀ sh, sh ∉ cg_all γ → cg_vals γ sh = [];
  hv_holder : ∀ sh i, cg_holder γ sh = Some i → sh ∈ cg_all γ ∧ (1 ≤ cg_cnt γ i)%nat;
  hv_locker : ∀ i, cg_lock γ = Some i → (1 ≤ cg_cnt γ i)%nat;
  hv_senders : senders s = Z.of_nat (total N (cg_cnt γ));
  hv_range : ∀ i, (N ≤ i)%nat → cg_cnt γ i = 0%nat;
  hv_budget : (cg_used γ + total N (cg_rest γ) ≤ B)%nat;
  hv_bounds : (length (cg_all γ) ≤ cg_used γ)%nat ∧ (cg_nid γ ≤ cg_used γ)%nat ∧
    (total N (cg_cnt γ) ≤ cg_used γ)%nat;
  hv_log : ∀ sh, by_shard sh (cg_sent γ) = by_shard sh (cg_recv γ) ++ cg_vals γ sh
}.

(** The invariant of the logged channel. *)
Definition log_inv γ (c : lmem Q * (clog T * clog T)) : Prop := ch_inv γ c.1 ∧ c.2 = (cg_sent γ, cg_recv γ).

(** An access that leaves the logs alone. *)
Definition same_logs γ γ' : Prop := cg_sent γ' = cg_sent γ ∧ cg_recv γ' = cg_recv γ.

(** Nobody can send any more. *)
Definition shut γ : Prop :=
  cg_lock γ = None ∧ (∀ sh, cg_holder γ sh = None) ∧ ∀ i, cg_cnt γ i = 0%nat.

Definition same_registry γ γ' : Prop :=
  cg_all γ' = cg_all γ ∧ cg_owned γ' = cg_owned γ ∧ cg_linked γ' = cg_linked γ ∧
  cg_tail γ' = cg_tail γ ∧ cg_nid γ' = cg_nid γ.

Record ch_rely (i : nat) γ γ' : Prop := {
  rl_all : cg_all γ `prefix_of` cg_all γ';
  rl_linked : (cg_linked γ ≤ cg_linked γ')%nat;
  rl_lock : cg_lock γ' = Some i ↔ cg_lock γ = Some i;
  rl_mine : cg_lock γ = Some i → same_registry γ γ';
  rl_holder : ∀ sh, cg_holder γ' sh = Some i ↔ cg_holder γ sh = Some i;
  rl_cnt : cg_cnt γ' i = cg_cnt γ i;
  rl_rest : cg_rest γ' i = cg_rest γ i;
  rl_sent : ∃ l, cg_sent γ' = cg_sent γ ++ l ∧ by_thread i l = [];
  rl_recv : ∃ l, cg_recv γ' = cg_recv γ ++ l ∧ by_thread i l = [];
  rl_shut : shut γ → shut γ' ∧ same_registry γ γ' ∧ cg_sent γ' = cg_sent γ ∧
    ∀ sh, cg_vals γ sh = [] → cg_vals γ' sh = []
}.

Definition ch_guar (i : nat) γ γ' : Prop := ∀ j, j ≠ i → ch_rely j γ γ'.

Lemma same_registry_trans γ1 γ2 γ3 : same_registry γ1 γ2 → same_registry γ2 γ3 → same_registry γ1 γ3.
Proof. unfold same_registry. intros (-> & -> & -> & -> & ->). done. Qed.

Lemma ch_rely_refl i γ : ch_rely i γ γ.
Proof.
  split; try done; [exists []; by rewrite app_nil_r|exists []; by rewrite app_nil_r].
Qed.

Lemma ch_rely_trans i γ1 γ2 γ3 : ch_rely i γ1 γ2 → ch_rely i γ2 γ3 → ch_rely i γ1 γ3.
Proof.
  intros R1 R2. split.
  - etransitivity; [apply R1|apply R2].
  - pose proof (rl_linked _ _ _ R1). pose proof (rl_linked _ _ _ R2). lia.
  - rewrite (rl_lock _ _ _ R2). apply R1.
  - intros Hl. eapply same_registry_trans; [by apply R1|]. apply R2. by apply R1.
  - intros sh. rewrite (rl_holder _ _ _ R2). apply R1.
  - rewrite (rl_cnt _ _ _ R2). apply R1.
  - rewrite (rl_rest _ _ _ R2). apply R1.
  - destruct (rl_sent _ _ _ R1) as (l1 & E1 & B1), (rl_sent _ _ _ R2) as (l2 & E2 & B2). exists (l1 ++ l2).
    rewrite E2, E1, app_assoc, by_thread_app, B1, B2. done.
  - destruct (rl_recv _ _ _ R1) as (l1 & E1 & B1), (rl_recv _ _ _ R2) as (l2 & E2 & B2). exists (l1 ++ l2).
    rewrite E2, E1, app_assoc, by_thread_app, B1, B2. done.
  - intros Hc. destruct (rl_shut _ _ _ R1 Hc) as (Hc2 & Hs1 & Hl1 & Hv1).
    destruct (rl_shut _ _ _ R2 Hc2) as (Hc3 & Hs2 & Hl2 & Hv2).
    split; [done|]. split; [by eapply same_registry_trans|]. split; [congruence|auto].
Qed.

Lemma ch_rg : rely_guarantee ch_rely ch_guar.
Proof.
  split; [apply ch_rely_refl|apply ch_rely_trans|]. intros i j γ γ' Hg Hne. apply Hg. congruence.
Qed.

Lemma guar_same i γ : ch_guar i γ γ.
Proof. intros j _. apply ch_rely_refl. Qed.

(** ** Reading the invariant *)

(** A shard that receivers may know. *)
Definition known γ (k : nat) (sh : Z) : Prop := cg_all γ !! k = Some sh ∧ (k < cg_linked γ)%nat ∧ 0 < sh.

Lemma known_rely i γ γ' k sh : known γ k sh → ch_rely i γ γ' → known γ' k sh.
Proof.
  intros (Hk & Hl & Hp) Hr. pose proof (rl_linked _ _ _ Hr). split; [|lia]. destruct (rl_all _ _ _ Hr) as [l ->].
  by apply lookup_app_l_Some.
Qed.

Lemma known_pos γ s k sh : ch_inv γ s → cg_all γ !! k = Some sh → 0 < sh.
Proof. intros HI Hk. eapply (Forall_lookup_1 _ _ _ _ (hv_pos _ _ HI) Hk). Qed.

Lemma position_bound γ s k sh : ch_inv γ s → cg_all γ !! k = Some sh → (k < B)%nat.
Proof.
  intros HI Hk%lookup_lt_Some. pose proof (hv_bounds _ _ HI). pose proof (hv_budget _ _ HI). lia.
Qed.

Lemma senders_zero γ s : ch_inv γ s → senders s = 0 → shut γ.
Proof.
  intros HI Hz. rewrite (hv_senders _ _ HI) in Hz.
  assert (∀ i, cg_cnt γ i = 0%nat) as Hc.
  { intros i. destruct (decide (i < N)%nat); [apply (total_zero N); lia|apply (hv_range _ _ HI); lia]. }
  split; [|split; [|done]].
  - destruct (cg_lock γ) as [i|] eqn:E; [|done]. pose proof (hv_locker _ _ HI i E). rewrite Hc in *. lia.
  - intros sh. destruct (cg_holder γ sh) as [i|] eqn:E; [|done]. destruct (hv_holder _ _ HI sh i E). rewrite Hc in *. lia.
Qed.

End invariant.
