(* ===== verification/ChanSteps.v ===== *)
(** * The channel under interleaving: what each access does

    One lemma per kind of access that changes the channel: it keeps the invariant
    and is within the guarantee of the thread that performs it. *)

From S2P Require Import Prelude Prog Conc Layout Head Geometry Shard Lubq ChanGhost.

(** ** Ghost updates *)

Section updates.
Context {T : Type}.
Implicit Types γ : chgh T.

Definition g_lock (l : option nat) γ : chgh T :=
  mkCg (cg_all γ) (cg_owned γ) (cg_linked γ) (cg_tail γ) (cg_nid γ) l (cg_holder γ) (cg_cnt γ) (cg_vals γ)
    (cg_sent γ) (cg_recv γ) (cg_used γ) (cg_rest γ).

Definition g_registry (al : list Z) (ow ln tl nid : nat) γ : chgh T :=
  mkCg al ow ln tl nid (cg_lock γ) (cg_holder γ) (cg_cnt γ) (cg_vals γ)
    (cg_sent γ) (cg_recv γ) (cg_used γ) (cg_rest γ).

Definition g_hold (sh : Z) (h : option nat) γ : chgh T :=
  mkCg (cg_all γ) (cg_owned γ) (cg_linked γ) (cg_tail γ) (cg_nid γ) (cg_lock γ) (at_shard (cg_holder γ) sh h)
    (cg_cnt γ) (cg_vals γ) (cg_sent γ) (cg_recv γ) (cg_used γ) (cg_rest γ).

Definition g_count (i c : nat) γ : chgh T :=
  mkCg (cg_all γ) (cg_owned γ) (cg_linked γ) (cg_tail γ) (cg_nid γ) (cg_lock γ) (cg_holder γ)
    (set_at (cg_cnt γ) i c) (cg_vals γ) (cg_sent γ) (cg_recv γ) (cg_used γ) (cg_rest γ).

(** Thread [i] uses [n] units of its budget. *)
Definition g_spend (i n : nat) γ : chgh T :=
  mkCg (cg_all γ) (cg_owned γ) (cg_linked γ) (cg_tail γ) (cg_nid γ) (cg_lock γ) (cg_holder γ)
    (cg_cnt γ) (cg_vals γ) (cg_sent γ) (cg_recv γ) (cg_used γ + n)
    (set_at (cg_rest γ) i (cg_rest γ i - n)%nat).

Definition g_push (i : nat) (sh : Z) (vs : list T) γ : chgh T :=
  mkCg (cg_all γ) (cg_owned γ) (cg_linked γ) (cg_tail γ) (cg_nid γ) (cg_lock γ) (cg_holder γ) (cg_cnt γ)
    (at_shard (cg_vals γ) sh (cg_vals γ sh ++ vs)) (cg_sent γ ++ entries i sh vs) (cg_recv γ) (cg_used γ) (cg_rest γ).

Definition g_popped (i : nat) (sh : Z) (n : nat) γ : chgh T :=
  mkCg (cg_all γ) (cg_owned γ) (cg_linked γ) (cg_tail γ) (cg_nid γ) (cg_lock γ) (cg_holder γ) (cg_cnt γ)
    (at_shard (cg_vals γ) sh (drop n (cg_vals γ sh))) (cg_sent γ)
    (cg_recv γ ++ entries i sh (take n (cg_vals γ sh))) (cg_used γ) (cg_rest γ).

End updates.

Section steps.
Context {T Q : Type} `{SQ : ShardQueue T Q} `{BA : BoxAllocator}.
Context (N B : nat) (i : nat).
Implicit Types (γ : chgh T) (s : lmem Q).
Notation inv := (ch_inv (SQ := SQ) N B).

Lemma log_same (l : clog T) : ∃ l', l = l ++ l' ∧ ∀ j, by_thread j l' = [].
Proof. exists []. by rewrite app_nil_r. Qed.

(** Updates that leave the logs and the values alone are within the guarantee when
    the thread they belong to holds a sender. *)
Lemma guar_quiet γ γ' :
  (1 ≤ cg_cnt γ i)%nat →
  cg_all γ `prefix_of` cg_all γ' → (cg_linked γ ≤ cg_linked γ')%nat →
  (∀ j, j ≠ i → cg_lock γ' = Some j ↔ cg_lock γ = Some j) →
  (∀ j, j ≠ i → cg_lock γ = Some j → same_registry γ γ') →
  (∀ j sh, j ≠ i → cg_holder γ' sh = Some j ↔ cg_holder γ sh = Some j) →
  (∀ j, j ≠ i → cg_cnt γ' j = cg_cnt γ j) → (∀ j, j ≠ i → cg_rest γ' j = cg_rest γ j) →
  cg_sent γ' = cg_sent γ → cg_recv γ' = cg_recv γ →
  ch_guar i γ γ'.
Proof.
  intros Hc Ha Hl Hlk Hm Hh Hcn Hr Es Er j Hj. split; try done.
  - by apply Hlk.
  - by apply Hm.
  - intros sh. by apply Hh.
  - by apply Hcn.
  - by apply Hr.
  - rewrite Es. exists []. by rewrite app_nil_r.
  - rewrite Er. exists []. by rewrite app_nil_r.
  - intros (_ & _ & H0). specialize (H0 i). lia.
Qed.

(** ** Shards in memory *)

Lemma shards_update γ γ' s k sh x' :
  inv γ s → cg_all γ !! k = Some sh → cg_all γ' = cg_all γ →
  shard_is γ' k sh x' →
  (∀ j a y, j ≠ k → a ≠ sh → shard_is γ j a y → shard_is γ' j a y) →
  ∀ j a, cg_all γ' !! j = Some a → ∃ y, (<[sh := x']> (shards s)) !! a = Some y ∧ shard_is γ' j a y.
Proof.
  intros HI Hk Ha Hx Hoth j a Hj. rewrite Ha in Hj. destruct (decide (j = k)) as [->|Hjk].
  - assert (a = sh) as -> by congruence. exists x'. by rewrite lookup_insert_eq.
  - assert (a ≠ sh) as Hne. { intros ->. apply Hjk. by eapply (NoDup_lookup (cg_all γ)); [apply HI|..]. }
    rewrite lookup_insert_ne by done. destruct (hv_shard _ _ _ _ HI j a Hj) as (y & Hy & Hsy). eauto.
Qed.

Lemma shards_same γ γ' s :
  inv γ s → cg_all γ' = cg_all γ → cg_linked γ' = cg_linked γ → cg_holder γ' = cg_holder γ →
  cg_vals γ' = cg_vals γ → (cg_used γ ≤ cg_used γ')%nat →
  ∀ j a, cg_all γ' !! j = Some a → ∃ y, shards s !! a = Some y ∧ shard_is γ' j a y.
Proof.
  intros HI Ha El Eh Ev Hu j a Hj. rewrite Ha in Hj. destruct (hv_shard _ _ _ _ HI j a Hj) as (y & Hy & [E1 E2 E3 E4]).
  exists y. split; [done|]. split; [done|by rewrite Eh|unfold link_of in *; by rewrite El, Ha|].
  rewrite Ev. by eapply q_mono.
Qed.

Lemma dom_update γ s k sh x x' :
  inv γ s → cg_all γ !! k = Some sh → shards s !! sh = Some x →
  dom (<[sh := x']> (shards s)) = list_to_set (cg_all γ).
Proof. intros HI Hk Hx. rewrite dom_insert_lookup_L by done. apply HI. Qed.

Lemma in_all γ k sh : cg_all γ !! k = Some sh → sh ∈ cg_all γ.
Proof. apply list_elem_of_lookup_2. Qed.

(** ** The registry lock *)

Lemma inv_lock γ s :
  inv γ s → reg_locked s = 0 → (1 ≤ cg_cnt γ i)%nat → inv (g_lock (Some i) γ) (set_reg_locked 1 s).
Proof.
  intros HI Hl Hc. pose proof (shards_same γ (g_lock (Some i) γ) s HI) as Hsh. destruct HI.
  split; try done; [by apply Hsh|]. by intros j [= <-].
Qed.

Lemma unlocked γ s : inv γ s → reg_locked s = 0 → cg_lock γ = None.
Proof. intros HI Hl. rewrite (hv_lock _ _ _ _ HI) in Hl. by destruct (cg_lock γ). Qed.

Lemma guar_lock γ s : inv γ s → reg_locked s = 0 → (1 ≤ cg_cnt γ i)%nat → ch_guar i γ (g_lock (Some i) γ).
Proof.
  intros HI Hl Hc. apply guar_quiet; try done; simpl. intros j Hj. rewrite (unlocked γ s HI Hl).
  split; [|done]. intros [= ->]. done.
Qed.

(** The registry is as it is between two registrations. *)
Definition settled γ : Prop :=
  cg_owned γ = length (cg_all γ) ∧ cg_linked γ = length (cg_all γ) ∧
  S (cg_tail γ) = length (cg_all γ) ∧ cg_nid γ = length (cg_all γ).

Lemma inv_unlock γ s : inv γ s → settled γ → inv (g_lock None γ) (set_reg_locked 0 s).
Proof.
  intros HI Hs. pose proof (shards_same γ (g_lock None γ) s HI) as Hsh. destruct HI.
  split; try done. by apply Hsh.
Qed.

Lemma guar_unlock γ : cg_lock γ = Some i → (1 ≤ cg_cnt γ i)%nat → ch_guar i γ (g_lock None γ).
Proof.
  intros Hl Hc. apply guar_quiet; try done. simpl. rewrite Hl. intros j Hj.
  split; [done|]. intros [= ->]. done.
Qed.

(** ** Taking and leaving a shard *)

Lemma hold_ne γ sh h j a y : a ≠ sh → shard_is γ j a y → shard_is (g_hold sh h γ) j a y.
Proof. intros Hne []. split; try done. simpl. by rewrite at_shard_ne. Qed.

Lemma inv_hold γ s k sh x h :
  inv γ s → cg_all γ !! k = Some sh → shards s !! sh = Some x →
  match h with Some j => (1 ≤ cg_cnt γ j)%nat | None => True end →
  inv (g_hold sh h γ) (set_shards (<[sh := mkShard (sh_id x) (match h with Some _ => 1 | None => 0 end)
    (sh_next x) (sh_queue x)]> (shards s)) s).
Proof.
  intros HI Hk Hx Hh. destruct (hv_shard _ _ _ _ HI k sh Hk) as (x0 & Hx0 & [E1 E2 E3 E4]).
  rewrite Hx in Hx0. injection Hx0 as <-. pose proof (in_all _ _ _ Hk) as Hin.
  pose proof (dom_update γ s k sh x (mkShard (sh_id x) (match h with Some _ => 1 | None => 0 end)
    (sh_next x) (sh_queue x)) HI Hk Hx) as Hdom.
  assert (∀ j a, cg_all (g_hold sh h γ) !! j = Some a → ∃ y, (<[sh := mkShard (sh_id x)
    (match h with Some _ => 1 | None => 0 end) (sh_next x) (sh_queue x)]> (shards s)) !! a = Some y ∧
    shard_is (g_hold sh h γ) j a y) as Hsh.
  { apply (shards_update γ (g_hold sh h γ) s k sh); [done|done|done| |intros; by apply hold_ne].
    split; try done. simpl. by rewrite at_shard_eq. }
  destruct HI. split; try done. simpl. intros a j. unfold at_shard. case_decide as E; [|by apply hv_holder].
  intros ->. by rewrite E.
Qed.

Lemma guar_hold γ sh h :
  (1 ≤ cg_cnt γ i)%nat → (∀ j, j ≠ i → cg_holder γ sh ≠ Some j) → (∀ j, j ≠ i → h ≠ Some j) →
  ch_guar i γ (g_hold sh h γ).
Proof.
  intros Hc Hold Hnew. apply guar_quiet; try done. simpl. intros j a Hj. unfold at_shard. case_decide as E; [|done].
  rewrite E. specialize (Hold j Hj). specialize (Hnew j Hj). done.
Qed.

(** ** Registering a shard *)

Lemma budget_spend γ n :
  (i < N)%nat → (cg_used γ + total N (cg_rest γ) ≤ B)%nat → (n ≤ cg_rest γ i)%nat →
  (cg_used γ + n + total N (set_at (cg_rest γ) i (cg_rest γ i - n)) ≤ B)%nat.
Proof. intros Hi Hb Hn. pose proof (total_set N (cg_rest γ) i (cg_rest γ i - n)%nat Hi). lia. Qed.

Lemma guar_spend γ γ' n :
  (1 ≤ cg_cnt γ i)%nat → ch_guar i γ γ' → cg_cnt γ' i = cg_cnt γ i → ch_guar i γ (g_spend i n γ').
Proof.
  intros Hc Hg Ec j Hj. eapply ch_rely_trans; [by apply Hg|]. apply (guar_quiet γ'); try done; [lia|].
  simpl. intros k Hk. by apply set_at_ne.
Qed.

Lemma guar_registry γ al ow ln tl nid :
  cg_lock γ = Some i → (1 ≤ cg_cnt γ i)%nat → cg_all γ `prefix_of` al → (cg_linked γ ≤ ln)%nat →
  ch_guar i γ (g_registry al ow ln tl nid γ).
Proof. intros Hl Hc Ha Hn. apply guar_quiet; try done. intros j Hj. rewrite Hl. intros [= ->]. done. Qed.

Definition g_next_id γ : chgh T :=
  g_spend i 1 (g_registry (cg_all γ) (cg_owned γ) (cg_linked γ) (cg_tail γ) (S (cg_nid γ)) γ).

Lemma inv_next_id γ s :
  (i < N)%nat → inv γ s → cg_lock γ = Some i → (1 ≤ cg_rest γ i)%nat →
  inv (g_next_id γ) (set_next_id (next_id s + 1) s).
Proof.
  intros Hi HI Hl Hr. pose proof (shards_same γ (g_next_id γ) s HI) as Hsh. pose proof (budget_spend γ 1) as Hb.
  destruct HI. split; try done.
  - simpl. rewrite hv_nid. lia.
  - simpl. by rewrite Hl.
  - apply Hsh; try done. simpl. lia.
  - by apply Hb.
  - simpl. lia.
Qed.

Definition g_new (sh : Z) γ : chgh T :=
  g_hold sh (Some i) (g_registry (cg_all γ ++ [sh]) (cg_owned γ) (cg_linked γ) (cg_tail γ) (cg_nid γ) γ).

Lemma link_of_prefix γ γ' k :
  (cg_linked γ ≤ length (cg_all γ))%nat → cg_all γ `prefix_of` cg_all γ' → cg_linked γ' = cg_linked γ →
  link_of γ' k = link_of γ k.
Proof.
  intros Hl [l Ha] El. unfold link_of. rewrite El, Ha. case_decide as E; [|done]. rewrite lookup_app_l by lia. done.
Qed.

Lemma inv_new_shard γ s :
  inv γ s → cg_lock γ = Some i → (1 ≤ cg_cnt γ i)%nat → cg_nid γ = S (length (cg_all γ)) →
  let sh := box_at (dom (shards s)) in
  inv (g_new sh γ) (set_shards (<[sh := mkShard (Z.of_nat (length (cg_all γ))) 1 0 q_new]> (shards s)) s).
Proof.
  intros HI Hl Hc Hn sh. destruct (box_at_fresh (dom (shards s))) as [Hfr Hpos]. fold sh in Hfr, Hpos.
  rewrite (hv_dom _ _ _ _ HI), elem_of_list_to_set in Hfr.
  assert (∀ j a, (cg_all γ ++ [sh]) !! j = Some a → ∃ y, (<[sh := mkShard (Z.of_nat (length (cg_all γ))) 1 0 q_new]>
    (shards s)) !! a = Some y ∧ shard_is (g_new sh γ) j a y) as Hsh.
  { pose proof (hv_order _ _ _ _ HI) as Ho. intros j a Hj. apply lookup_app_Some in Hj as [Hj|[Hge Hj]].
    - assert (a ≠ sh) as Hne by (intros ->; by apply Hfr, (list_elem_of_lookup_2 _ j)). rewrite lookup_insert_ne by done.
      destruct (hv_shard _ _ _ _ HI j a Hj) as (y & Hy & [E1 E2 E3 E4]). exists y. split; [done|].
      split; [done|simpl; by rewrite at_shard_ne| |done].
      rewrite E3. symmetry. apply link_of_prefix; [lia|by exists [sh]|done].
    - destruct (j - length (cg_all γ))%nat eqn:Ej; [|done]. injection Hj as <-. rewrite lookup_insert_eq.
      assert (j = length (cg_all γ)) as -> by lia. eexists. split; [done|].
      split; [done|simpl; by rewrite at_shard_eq|unfold link_of; simpl; by rewrite decide_False by lia|].
      simpl. rewrite (hv_outside _ _ _ _ HI) by done. eapply q_mono; [apply q_new_is|lia]. }
  destruct HI. split; try done; simpl.
  - by apply lookup_app_l_Some.
  - by apply lookup_app_l_Some.
  - rewrite take_app_le; [done|]. lia.
  - by rewrite Hl.
  - rewrite length_app. lia.
  - apply NoDup_app. split; [done|]. split; [|apply NoDup_singleton]. by intros x Hx ->%list_elem_of_singleton.
  - apply Forall_app. split; [done|]. by apply Forall_singleton.
  - rewrite dom_insert_L, list_to_set_app_L, hv_dom. simpl. by rewrite union_empty_r_L, union_comm_L.
  - intros a Ha. rewrite elem_of_app in Ha. apply hv_outside. tauto.
  - intros a j. rewrite elem_of_app, list_elem_of_singleton. unfold at_shard. case_decide as E.
    + intros [= <-]. split; [by right|done].
    + intros Hj. destruct (hv_holder a j Hj). split; [by left|done].
  - rewrite length_app. simpl. lia.
Qed.

Lemma guar_new γ sh :
  cg_lock γ = Some i → (1 ≤ cg_cnt γ i)%nat → cg_holder γ sh = None → ch_guar i γ (g_new sh γ).
Proof.
  intros Hl Hc Hh j Hj. eapply ch_rely_trans; [|apply guar_hold; [..|exact Hj]]; simpl;
    [|done|by rewrite Hh|congruence]. apply guar_registry; try done. by exists [sh].
Qed.

Definition g_push_owned γ : chgh T :=
  g_registry (cg_all γ) (S (cg_owned γ)) (cg_linked γ) (cg_tail γ) (cg_nid γ) γ.

Lemma inv_push_owned γ s sh :
  inv γ s → cg_lock γ = Some i → cg_all γ !! cg_owned γ = Some sh →
  inv (g_push_owned γ) (set_owned (owned s ++ [sh]) s).
Proof.
  intros HI Hl Hk. pose proof (shards_same γ (g_push_owned γ) s HI) as Hsh. destruct HI. split; try done.
  - simpl. by rewrite (take_S_r _ _ sh), hv_owned.
  - simpl. by rewrite Hl.
  - simpl. apply lookup_lt_Some in Hk. lia.
  - by apply Hsh.
Qed.

Definition g_linkup γ : chgh T :=
  g_registry (cg_all γ) (cg_owned γ) (S (cg_linked γ)) (cg_tail γ) (cg_nid γ) γ.

Lemma link_of_link γ k sh :
  S (cg_tail γ) = cg_linked γ → cg_all γ !! cg_linked γ = Some sh →
  link_of (g_linkup γ) k = if decide (k = cg_tail γ) then sh else link_of γ k.
Proof.
  intros Ht Hsh. unfold link_of. simpl. case_decide as E1; case_decide as E2.
  - rewrite E2, Ht, Hsh. done.
  - rewrite decide_True by lia. done.
  - lia.
  - rewrite decide_False by lia. done.
Qed.

Lemma inv_linkup γ s x sh :
  inv γ s → cg_lock γ = Some i → S (cg_tail γ) = cg_linked γ → cg_all γ !! cg_linked γ = Some sh →
  shards s !! reg_tail s = Some x →
  inv (g_linkup γ) (set_shards (<[reg_tail s := mkShard (sh_id x) (producer_active x) sh (sh_queue x)]> (shards s)) s).
Proof.
  intros HI Hl Ht Hsh Hx. pose proof (hv_tail _ _ _ _ HI) as Hk.
  destruct (hv_shard _ _ _ _ HI _ _ Hk) as (x0 & Hx0 & [E1 E2 E3 E4]). rewrite Hx in Hx0. injection Hx0 as <-.
  pose proof (dom_update γ s _ _ x (mkShard (sh_id x) (producer_active x) sh (sh_queue x)) HI Hk Hx) as Hdom.
  pose proof (shards_update γ (g_linkup γ) s _ _ (mkShard (sh_id x) (producer_active x) sh (sh_queue x)) HI Hk) as Hup.
  destruct HI. split; try done.
  - simpl. by rewrite Hl.
  - simpl. apply lookup_lt_Some in Hsh. lia.
  - apply Hup; [done|..].
    + split; try done. rewrite (link_of_link γ _ sh) by done. by rewrite decide_True.
    + intros j a y Hj _ []. split; try done. rewrite (link_of_link γ _ sh) by done. by rewrite decide_False.
Qed.

Definition g_tail γ : chgh T :=
  g_registry (cg_all γ) (cg_owned γ) (cg_linked γ) (S (cg_tail γ)) (cg_nid γ) γ.

Lemma inv_tail γ s sh :
  inv γ s → cg_lock γ = Some i → cg_all γ !! S (cg_tail γ) = Some sh → (S (cg_tail γ) < cg_linked γ)%nat →
  inv (g_tail γ) (set_reg_tail sh s).
Proof.
  intros HI Hl Hk Hlt. pose proof (shards_same γ (g_tail γ) s HI) as Hsh. destruct HI. split; try done.
  - simpl. by rewrite Hl.
  - simpl. lia.
  - by apply Hsh.
Qed.

(** ** The number of senders *)

Lemma inv_add_sender γ s :
  (i < N)%nat → inv γ s → (1 ≤ cg_cnt γ i)%nat → (1 ≤ cg_rest γ i)%nat →
  inv (g_spend i 1 (g_count i (S (cg_cnt γ i)) γ)) (set_senders (senders s + 1) s).
Proof.
  intros Hi HI Hc Hr. pose proof (shards_same γ (g_spend i 1 (g_count i (S (cg_cnt γ i)) γ)) s HI) as Hsh.
  pose proof (budget_spend γ 1) as Hb. pose proof (total_set N (cg_cnt γ) i (S (cg_cnt γ i)) Hi) as Ht.
  destruct HI. split; try done; simpl.
  - apply Hsh; try done. simpl. lia.
  - intros a j Ha. destruct (hv_holder a j Ha). split; [done|]. unfold set_at. case_decide as E; [rewrite E in *; lia|done].
  - intros j Hj. pose proof (hv_locker j Hj). unfold set_at. case_decide as E; [rewrite E in *; lia|done].
  - lia.
  - intros j Hj. rewrite set_at_ne by lia. by apply hv_range.
  - by apply Hb.
  - lia.
Qed.

Lemma guar_count γ c : (1 ≤ cg_cnt γ i)%nat → ch_guar i γ (g_count i c γ).
Proof. intros Hc. apply guar_quiet; try done. simpl. intros j Hj. by apply set_at_ne. Qed.

Lemma inv_drop_sender γ s c :
  (i < N)%nat → inv γ s → cg_cnt γ i = S c → cg_lock γ ≠ Some i → ((∃ sh, cg_holder γ sh = Some i) → (1 ≤ c)%nat) →
  inv (g_count i c γ) (set_senders (senders s - 1) s).
Proof.
  intros Hi HI Hc Hl Hh. pose proof (shards_same γ (g_count i c γ) s HI) as Hsh.
  pose proof (total_set N (cg_cnt γ) i c Hi) as Ht. destruct HI. split; try done; simpl.
  - by apply Hsh.
  - intros a j Ha. destruct (hv_holder a j Ha). split; [done|]. unfold set_at. case_decide as E; [|done].
    apply Hh. exists a. by rewrite Ha, E.
  - intros j Hj. unfold set_at. case_decide as E; [|by apply hv_locker]. by rewrite E in Hj.
  - lia.
  - intros j Hj. rewrite set_at_ne by lia. by apply hv_range.
  - lia.
Qed.

(** ** Calls on a shard *)

Definition g_queue (sh : Z) (l : list T) (sent recv : clog T) (used : nat) (rest : nat → nat) γ : chgh T :=
  mkCg (cg_all γ) (cg_owned γ) (cg_linked γ) (cg_tail γ) (cg_nid γ) (cg_lock γ) (cg_holder γ) (cg_cnt γ)
    (at_shard (cg_vals γ) sh l) sent recv used rest.

Lemma inv_queue γ s k sh x q l sent recv used rest :
  inv γ s → cg_all γ !! k = Some sh → shards s !! sh = Some x →
  q_is used q l → (cg_used γ ≤ used)%nat → (used + total N rest ≤ B)%nat →
  by_shard sh sent = by_shard sh recv ++ l →
  (∀ a, a ≠ sh → by_shard a sent = by_shard a (cg_sent γ) ∧ by_shard a recv = by_shard a (cg_recv γ)) →
  inv (g_queue sh l sent recv used rest γ)
    (set_shards (<[sh := mkShard (sh_id x) (producer_active x) (sh_next x) q]> (shards s)) s).
Proof.
  intros HI Hk Hx Hq Hu Hb Hlog Hoth. destruct (hv_shard _ _ _ _ HI _ _ Hk) as (x0 & Hx0 & [E1 E2 E3 E4]).
  rewrite Hx in Hx0. injection Hx0 as <-. pose proof (in_all _ _ _ Hk) as Hin.
  set (x' := mkShard (sh_id x) (producer_active x) (sh_next x) q).
  pose proof (dom_update γ s k sh x x' HI Hk Hx) as Hdom.
  pose proof (shards_update γ (g_queue sh l sent recv used rest γ) s k sh x' HI Hk) as Hup.
  destruct HI. split; try done; simpl.
  - apply Hup; [done|..].
    + split; try done. simpl. by rewrite at_shard_eq.
    + intros j a y _ Ha []. split; try done. simpl. rewrite at_shard_ne by done. by eapply q_mono.
  - intros a Ha. rewrite at_shard_ne by (intros ->; done). by apply hv_outside.
  - lia.
  - intros a. unfold at_shard. case_decide as E; [by rewrite E|]. destruct (Hoth a E) as [-> ->]. apply hv_log.
Qed.

Lemma inv_push γ s k sh x q vs :
  (i < N)%nat → inv γ s → cg_all γ !! k = Some sh → shards s !! sh = Some x → (length vs ≤ cg_rest γ i)%nat →
  q_is (cg_used γ + length vs) q (cg_vals γ sh ++ vs) →
  inv (g_spend i (length vs) (g_push i sh vs γ))
    (set_shards (<[sh := mkShard (sh_id x) (producer_active x) (sh_next x) q]> (shards s)) s).
Proof.
  intros Hi HI Hk Hx Hr Hq. refine (inv_queue γ s k sh x q _ _ _ _ _ HI Hk Hx Hq _ _ _ _).
  - lia.
  - exact (budget_spend γ (length vs) Hi (hv_budget _ _ _ _ HI) Hr).
  - simpl. rewrite by_shard_app, by_shard_entries, decide_True, app_assoc by done. by rewrite (hv_log _ _ _ _ HI).
  - intros a Ha. simpl. by rewrite by_shard_app, by_shard_entries, decide_False, app_nil_r by done.
Qed.

Lemma by_thread_other j sh (vs : list T) : j ≠ i → by_thread j (entries i sh vs) = [].
Proof. intros Hj. rewrite by_thread_entries. by rewrite decide_False. Qed.

Lemma guar_push γ s sh vs : inv γ s → cg_holder γ sh = Some i → ch_guar i γ (g_push i sh vs γ).
Proof.
  intros HI Hh j Hj. split; try done.
  - eexists. split; [reflexivity|]. by apply by_thread_other.
  - exists []. by rewrite app_nil_r.
  - intros (_ & Hf & _). by rewrite Hf in Hh.
Qed.

Lemma inv_popped γ s k sh x q n :
  inv γ s → cg_all γ !! k = Some sh → shards s !! sh = Some x →
  q_is (cg_used γ) q (drop n (cg_vals γ sh)) →
  inv (g_popped i sh n γ)
    (set_shards (<[sh := mkShard (sh_id x) (producer_active x) (sh_next x) q]> (shards s)) s).
Proof.
  intros HI Hk Hx Hq. refine (inv_queue γ s k sh x q _ _ _ _ _ HI Hk Hx Hq _ _ _ _).
  - done.
  - apply HI.
  - simpl. rewrite by_shard_app, by_shard_entries, decide_True, <- app_assoc, take_drop by done. apply HI.
  - intros a Ha. simpl. by rewrite by_shard_app, by_shard_entries, decide_False, app_nil_r by done.
Qed.

Lemma guar_pop γ sh n : ch_guar i γ (g_popped i sh n γ).
Proof.
  intros j Hj. split; try done.
  - exists []. by rewrite app_nil_r.
  - eexists. split; [reflexivity|]. by apply by_thread_other.
  - intros Hs. split; [done|]. split; [done|]. split; [done|]. simpl. intros a Ha. unfold at_shard.
    case_decide as E; [|done]. rewrite <- E, Ha. apply drop_nil.
Qed.

End steps.
