(* ===== verification/ChanSend.v ===== *)
(** * The channel under interleaving: senders

    Rules for the accesses of a thread, and for [Sender::clone], [Drop for Sender],
    [send] and [send_batch] with any number of other threads at work. *)

From S2P Require Import Prelude Prog Conc Layout Head Geometry Shard Lubq ChanGhost ChanSteps.

(** What a thread knows of itself: whether it holds the registry lock, its senders'
    shards, its share of the sender count, the budget it has left, and what it has
    sent and received. *)
Record thr {T} (i : nat) (lk : bool) (mine : list Z) (c r : nat) (snt rcv : list T) (γ : chgh T) : Prop := {
  th_lock : cg_lock γ = Some i ↔ lk = true;
  th_holds : ∀ sh, cg_holder γ sh = Some i ↔ sh ∈ mine;
  th_nodup : NoDup mine;
  th_cnt : cg_cnt γ i = c;
  th_rest : (r ≤ cg_rest γ i)%nat;
  th_sent : by_thread i (cg_sent γ) = snt;
  th_recv : by_thread i (cg_recv γ) = rcv
}.

Lemma thr_rely {T} i lk mine c r (snt rcv : list T) γ γ' :
  thr i lk mine c r snt rcv γ → ch_rely i γ γ' → thr i lk mine c r snt rcv γ'.
Proof.
  intros [] Hr. destruct (rl_sent _ _ _ Hr) as (l1 & E1 & B1), (rl_recv _ _ _ Hr) as (l2 & E2 & B2). split.
  - by rewrite (rl_lock _ _ _ Hr).
  - intros sh. by rewrite (rl_holder _ _ _ Hr).
  - done.
  - by rewrite (rl_cnt _ _ _ Hr).
  - by rewrite (rl_rest _ _ _ Hr).
  - by rewrite E1, by_thread_app, B1, app_nil_r.
  - by rewrite E2, by_thread_app, B2, app_nil_r.
Qed.

(** The registry as the holder of the lock sees it. *)
Definition reg {T} (al : list Z) (ow ln tl nid : nat) (γ : chgh T) : Prop :=
  cg_all γ = al ∧ cg_owned γ = ow ∧ cg_linked γ = ln ∧ cg_tail γ = tl ∧ cg_nid γ = nid.

Lemma reg_rely {T} i al ow ln tl nid mine c r (snt rcv : list T) γ γ' :
  thr i true mine c r snt rcv γ → reg al ow ln tl nid γ → ch_rely i γ γ' → reg al ow ln tl nid γ'.
Proof.
  intros Ht (Ea & Eo & El & Et & En) Hr. destruct (rl_mine _ _ _ Hr) as (? & ? & ? & ? & ?); [by apply Ht|].
  unfold reg. repeat split; congruence.
Qed.

Section accesses.
Context {T Q : Type} `{SQ : ShardQueue T Q} `{BA : BoxAllocator} `{PR : Profile} (fuel : nat).
Context (N B : nat) (W : nat → Prop).
Context (Hfuel : (B + 1 < fuel)%nat) (Hmax : Z.of_nat B ≤ usize_max).
Context (i : nat) (Hi : (i < N)%nat).
Implicit Types (γ : chgh T) (s : lmem Q).
Notation inv := (ch_inv (SQ := SQ) N B).
Notation safe := (cwp (HH := chan_logged fuel i) (SP := chan_spurious) (log_inv (SQ := SQ) N B) ch_rely ch_guar (λ j _, W j) i).

(** ** Accesses *)

(** An access and what it adds to the logs. *)
Lemma safe_logged {X A} (e : lubqE T X) (f : X → prog (lubqE T) A) Φ γ :
  (∀ s : lmem Q, lubq_spurious X e s = None) →
  (∀ γ' s, ch_rely i γ γ' → inv γ' s →
     match lubq_handler fuel X e s with
     | Next x s' => ∃ γ'', ch_guar i γ' γ'' ∧ inv γ'' s' ∧
         (cg_sent γ'' = cg_sent γ' ++ sent_of i e ∧ cg_recv γ'' = cg_recv γ' ++ recv_of i e x) ∧ safe (f x) Φ γ''
     | Fault => False
     | Exit => True
     end) →
  safe (act e ≫= f) Φ γ.
Proof.
  intros Hs Hf. apply cwp_act_bind; [intros []; apply Hs|]. intros γ' [s [snt rcv]] Hr [HI [= -> ->]].
  specialize (Hf γ' s Hr HI). unfold handle, chan_logged. cbn [fst snd].
  destruct (lubq_handler fuel X e s) as [x s'| |]; [|done..]. destruct Hf as (γ'' & Hg & HI' & [E1 E2] & Hk).
  exists γ''. split; [done|]. split; [|done]. split; [done|]. simpl. by rewrite E1, E2.
Qed.

Lemma logs_quiet {X} (e : lubqE T X) (x : X) γ γ' :
  sent_of i e = [] → recv_of i e x = [] → same_logs γ γ' →
  cg_sent γ' = cg_sent γ ++ sent_of i e ∧ cg_recv γ' = cg_recv γ ++ recv_of i e x.
Proof. intros -> -> [-> ->]. by rewrite !app_nil_r. Qed.

Lemma safe_load {A} l (f : Z → prog (lubqE T) A) Φ γ :
  (∀ γ' s, ch_rely i γ γ' → inv γ' s → ∃ v, lrd l s = Some v ∧ safe (f v) Φ γ') →
  safe (act (LLoad l) ≫= f) Φ γ.
Proof.
  intros Hf. apply safe_logged; [done|]. intros γ' s Hr HI. destruct (Hf γ' s Hr HI) as (v & Hv & Hs).
  unfold lubq_handler. rewrite Hv. simpl. exists γ'. split; [apply guar_same|]. split; [done|]. split; [by apply (logs_quiet (LLoad l) v)|done].
Qed.

(** A store that changes the ghost state. *)
Lemma safe_store {A} l v (f : unit → prog (lubqE T) A) Φ γ :
  (∀ γ' s, ch_rely i γ γ' → inv γ' s → ∃ s' γ'', lwr l v s = Some s' ∧ same_logs γ' γ'' ∧
     ch_guar i γ' γ'' ∧ inv γ'' s' ∧ safe (f tt) Φ γ'') →
  safe (act (LStore l v) ≫= f) Φ γ.
Proof.
  intros Hf. apply safe_logged; [done|]. intros γ' s Hr HI.
  destruct (Hf γ' s Hr HI) as (s' & γ'' & Hw & Hl & Hg & HI' & Hs).
  unfold lubq_handler. rewrite Hw. simpl. exists γ''. split; [done|]. split; [done|]. split; [by apply (logs_quiet (LStore l v) tt)|done].
Qed.

(** A compare-exchange; a weak one may fail although the word matches. *)
Lemma safe_cas {A} w l old new (f : Z + Z → prog (lubqE T) A) Φ γ :
  (∀ γ' s, ch_rely i γ γ' → inv γ' s → ∃ v, lrd l s = Some v ∧
     (v = old → ∃ s' γ'', lwr l new s = Some s' ∧ same_logs γ' γ'' ∧ ch_guar i γ' γ'' ∧ inv γ'' s' ∧ safe (f (inl old)) Φ γ'') ∧
     (v ≠ old ∨ w = true → safe (f (inr v)) Φ γ')) →
  safe (act (LCas w l old new) ≫= f) Φ γ.
Proof.
  intros Hf γ' [s [snt rcv]] Hr [HI [= -> ->]]. destruct (Hf γ' s Hr HI) as (v & Hv & Hok & Hfail). split.
  - unfold handle, chan_logged, lubq_handler. simpl. rewrite Hv. simpl. destruct (Z.eqb_spec v old) as [E|Hne].
    + destruct (Hok E) as (s' & γ'' & Hw & [L1 L2] & Hg & HI' & Hs). rewrite Hw, E. simpl. exists γ''.
      split; [done|]. split; [|done]. split; [done|]. simpl. by rewrite !app_nil_r, L1, L2.
    + simpl. exists γ'. split; [apply guar_same|]. rewrite !app_nil_r. split; [done|]. apply Hfail. by left.
  - unfold spurious, chan_spurious, lubq_spurious. destruct w; [|done]. simpl. rewrite Hv. simpl. apply Hfail. by right.
Qed.

Lemma safe_id {A} k sh (f : Z → prog (lubqE T) A) Φ γ :
  cg_all γ !! k = Some sh → (∀ γ' s, ch_rely i γ γ' → inv γ' s → safe (f (Z.of_nat k)) Φ γ') →
  safe (act (LId sh) ≫= f) Φ γ.
Proof.
  intros Hk Hf. apply safe_logged; [done|]. intros γ' s Hr HI.
  assert (cg_all γ' !! k = Some sh) as Hk'. { destruct (rl_all _ _ _ Hr) as [l ->]. by apply lookup_app_l_Some. }
  destruct (hv_shard _ _ _ _ HI k sh Hk') as (x & Hx & Hsx). unfold lubq_handler. rewrite Hx. simpl.
  rewrite (si_id _ _ _ _ Hsx). exists γ'. split; [apply guar_same|]. split; [done|].
  split; [by apply (logs_quiet (LId sh) (Z.of_nat k))|by eapply Hf].
Qed.

Lemma safe_debug_assert {A} (b : bool) (k : unit → prog (lubqE T) A) Φ γ :
  b = true → safe (k tt) Φ γ → safe (debug_assert b ≫= k) Φ γ.
Proof. intros -> Hk. apply cwp_bind. unfold debug_assert. by rewrite andb_false_r. Qed.

(** A call on a shard. *)
Lemma safe_call {A X} sh (c : qcall T X) (f : X → prog (lubqE T) A) Φ γ :
  (∀ γ' s, ch_rely i γ γ' → inv γ' s → ∃ k, cg_all γ' !! k = Some sh) →
  qcall_ok c → (qcost c ≤ cg_rest γ i)%nat →
  (∀ γ' s k x q, ch_rely i γ γ' → inv γ' s → cg_all γ' !! k = Some sh → shards s !! sh = Some x →
     q_is (cg_used γ' + qcost c) q (qspec c (cg_vals γ' sh)).2 →
     ∃ γ'', ch_guar i γ' γ'' ∧
       inv γ'' (set_shards (<[sh := mkShard (sh_id x) (producer_active x) (sh_next x) q]> (shards s)) s) ∧
       (cg_sent γ'' = cg_sent γ' ++ sent_of i (LQueue sh c) ∧
        cg_recv γ'' = cg_recv γ' ++ recv_of i (LQueue sh c) (qspec c (cg_vals γ' sh)).1) ∧
       safe (f (qspec c (cg_vals γ' sh)).1) Φ γ'') →
  safe (act (LQueue sh c) ≫= f) Φ γ.
Proof.
  intros Hk Hok Hc Hf. apply safe_logged; [done|]. intros γ' s Hr HI. destruct (Hk γ' s Hr HI) as [k Hk'].
  destruct (hv_shard _ _ _ _ HI k sh Hk') as (x & Hx & Hsx). unfold lubq_handler. rewrite Hx.
  pose proof (hv_budget _ _ _ _ HI) as Hb. pose proof (total_set N (cg_rest γ') i 0%nat Hi) as Htot.
  rewrite (rl_rest _ _ _ Hr) in Htot.
  pose proof (q_run_is fuel (cg_used γ') (sh_queue x) (cg_vals γ' sh) X c (si_queue _ _ _ _ Hsx) Hok ltac:(lia)) as Hrun.
  destruct (q_run fuel c (sh_queue x)) as [a q| |]; [|done..]. destruct Hrun as [-> Hq].
  by eapply Hf.
Qed.

(** ** [send] and [send_batch] *)

Lemma thr_push sh vs mine c r snt rcv γ :
  thr i false mine c (length vs + r) snt rcv γ → (length vs ≤ cg_rest γ i)%nat →
  thr i false mine c r (snt ++ vs) rcv (g_spend i (length vs) (g_push i sh vs γ)).
Proof.
  intros [] Hr. split; try done; simpl.
  - rewrite set_at_eq. lia.
  - rewrite by_thread_app, by_thread_entries, decide_True by done. congruence.
Qed.

Lemma held_known sh mine lk c r snt rcv γ s :
  thr i lk mine c r snt rcv γ → inv γ s → sh ∈ mine → (1 ≤ c)%nat ∧ ∃ k, cg_all γ !! k = Some sh.
Proof.
  intros Ht HI Hsh. apply (th_holds _ _ _ _ _ _ _ _ Ht) in Hsh. destruct (hv_holder _ _ _ _ HI sh i Hsh) as [Hin Hc].
  rewrite (th_cnt _ _ _ _ _ _ _ _ Ht) in Hc. split; [done|]. by apply list_elem_of_lookup_1.
Qed.

Lemma safe_push_call {A} sh (q : qcall T unit) vs (f : unit → prog (lubqE T) A) mine c r snt rcv Φ γ :
  thr i false mine c (length vs + r) snt rcv γ → sh ∈ mine →
  qcall_ok q → qcost q = length vs → (∀ l, qspec q l = (tt, l ++ vs)) →
  sent_of i (LQueue sh q) = entries i sh vs → recv_of i (LQueue sh q) tt = [] →
  (∀ γ', thr i false mine c r (snt ++ vs) rcv γ' → safe (f tt) Φ γ') →
  safe (act (LQueue sh q) ≫= f) Φ γ.
Proof.
  intros Ht Hsh Hok Hc Hspec Es Er Hf. pose proof (th_rest _ _ _ _ _ _ _ _ Ht) as Hrest.
  eapply safe_call; [|done|lia|].
  { intros γ' s Hr HI. eapply held_known; [by eapply thr_rely|done|done]. }
  intros γ' s k x q' Hr HI Hk' Hx Hq. rewrite Hspec, Hc in *. simpl in *.
  pose proof (thr_rely _ _ _ _ _ _ _ _ _ Ht Hr) as Ht'. pose proof (th_rest _ _ _ _ _ _ _ _ Ht') as Hrest'.
  destruct (held_known sh _ _ _ _ _ _ _ _ Ht' HI Hsh) as [Hcnt _]. apply (th_holds _ _ _ _ _ _ _ _ Ht') in Hsh.
  exists (g_spend i (length vs) (g_push i sh vs γ')). split; [|split; [|split]].
  - apply guar_spend; [by rewrite (th_cnt _ _ _ _ _ _ _ _ Ht')|by eapply guar_push|done].
  - eapply inv_push; try done. lia.
  - simpl in Er |- *. rewrite Es, Er, app_nil_r. done.
  - apply Hf. apply thr_push; [done|lia].
Qed.

(** ** [Drop for Sender] *)

Lemma NoDup_drop_at (l l1 l2 : list Z) sh :
  l = l1 ++ sh :: l2 → NoDup l → NoDup (l1 ++ l2) ∧ ∀ x, x ∈ l1 ++ l2 ↔ x ∈ l ∧ x ≠ sh.
Proof.
  intros -> Hn. apply NoDup_app in Hn as (H1 & Hd & [Hs H2]%NoDup_cons). split.
  - apply NoDup_app. split; [done|]. split; [|done]. intros x Hx Hx2. apply (Hd x Hx). by right.
  - intros x. rewrite !elem_of_app, elem_of_cons. split.
    + intros [Hx|Hx]; (split; [by auto|]); intros ->; [|done]. apply (Hd _ Hx). by left.
    + intros [[Hx|[->|Hx]] Hne]; [by left|done|by right].
Qed.

Lemma thr_leave sh mine' mine lk c r snt rcv γ :
  thr i lk mine c r snt rcv γ → NoDup mine' → (∀ x, x ∈ mine' ↔ x ∈ mine ∧ x ≠ sh) →
  thr i lk mine' c r snt rcv (g_hold sh None γ).
Proof.
  intros [] Hn Hm. split; try done. simpl. intros a. rewrite Hm. unfold at_shard. case_decide as E.
  - split; [done|]. by intros [_ ?].
  - rewrite th_holds0. tauto.
Qed.

Lemma safe_fetch_sub mine c r snt rcv γ :
  thr i false mine (S c) r snt rcv γ → (mine ≠ [] → 1 ≤ c)%nat →
  safe (previous ← act (LFetchSub Senders 1); debug_assert (negb (previous =? 0)))
    (λ _ γ', thr i false mine c r snt rcv γ') γ.
Proof.
  intros Ht Hm. apply safe_logged; [done|]. intros γ' s Hr HI. pose proof (thr_rely _ _ _ _ _ _ _ _ _ Ht Hr) as Ht'.
  pose proof (hv_senders _ _ _ _ HI) as Hs. pose proof (hv_bounds _ _ _ _ HI) as Hb. pose proof (hv_budget _ _ _ _ HI) as Hb2.
  pose proof (total_set N (cg_cnt γ') i 0%nat Hi) as Htot. rewrite (th_cnt _ _ _ _ _ _ _ _ Ht') in Htot.
  unfold lubq_handler. simpl.
  assert (wrapping (senders s - 1) = senders s - 1) as ->.
  { unfold wrapping. apply Z.mod_small. unfold usize_max in Hmax. lia. }
  exists (g_count i c γ'). split; [|split; [|split; [by apply (logs_quiet (LFetchSub Senders 1) (senders s))|]]].
  - apply guar_count. rewrite (th_cnt _ _ _ _ _ _ _ _ Ht'). lia.
  - apply inv_drop_sender; [done|done|apply Ht'| |].
    + intros E. apply (th_lock _ _ _ _ _ _ _ _ Ht') in E. done.
    + intros [sh Hsh]. apply Hm. apply (th_holds _ _ _ _ _ _ _ _ Ht') in Hsh. by intros ->; apply elem_of_nil in Hsh.
  - unfold debug_assert. rewrite (proj2 (Z.eqb_neq _ _)) by lia. rewrite andb_false_r. apply cwp_ret.
    destruct Ht'. split; try done. simpl. by rewrite set_at_eq.
Qed.

Lemma safe_drop sh mine l1 l2 r snt rcv γ :
  thr i false mine (length mine) r snt rcv γ → mine = l1 ++ sh :: l2 →
  safe (Sender_drop sh) (λ _ γ', thr i false (l1 ++ l2) (length (l1 ++ l2)) r snt rcv γ') γ.
Proof.
  intros Ht Em. unfold Sender_drop.
  destruct (NoDup_drop_at mine l1 l2 sh Em (th_nodup _ _ _ _ _ _ _ _ Ht)) as [Hn Hin].
  assert (sh ∈ mine) as Hsh by (subst mine; apply elem_of_app; right; by left).
  assert (length mine = S (length (l1 ++ l2))) as El by (subst mine; rewrite !length_app; simpl; lia).
  apply safe_store. intros γ' s Hr HI. pose proof (thr_rely _ _ _ _ _ _ _ _ _ Ht Hr) as Ht'.
  destruct (held_known sh _ _ _ _ _ _ _ _ Ht' HI Hsh) as [_ [k Hk']].
  destruct (hv_shard _ _ _ _ HI k sh Hk') as (x & Hx & Hsx). unfold lwr, upd_shard. rewrite Hx. simpl.
  eexists _, (g_hold sh None γ'). split; [reflexivity|]. split; [done|]. split; [|split].
  - apply (th_holds _ _ _ _ _ _ _ _ Ht') in Hsh.
    apply guar_hold; [rewrite (th_cnt _ _ _ _ _ _ _ _ Ht'); lia|rewrite Hsh; congruence|done].
  - by apply (inv_hold N B γ' s k sh x None).
  - eapply safe_fetch_sub; [rewrite <- El; by eapply thr_leave|]. destruct (l1 ++ l2); [done|simpl; lia].
Qed.

(** ** The registry lock *)

Context (Hw : W i).

Lemma thr_lock mine c r snt rcv γ :
  thr i false mine c r snt rcv γ → thr i true mine c r snt rcv (g_lock (Some i) γ).
Proof. intros []. by split. Qed.

Lemma thr_unlock mine c r snt rcv γ :
  thr i true mine c r snt rcv γ → thr i false mine c r snt rcv (g_lock None γ).
Proof. intros []. by split. Qed.

(** The registry between two registrations. *)
Definition rested (al : list Z) γ : Prop := reg al (length al) (length al) (length al - 1) (length al) γ ∧ (0 < length al)%nat.

Lemma rested_free γ s : inv γ s → cg_lock γ = None → rested (cg_all γ) γ.
Proof.
  intros HI Hl. destruct (hv_free _ _ _ _ HI Hl) as (? & ? & ? & ?).
  pose proof (lookup_lt_Some _ _ _ (hv_head _ _ _ _ HI)). split; [|done]. unfold reg. repeat split; lia.
Qed.

Lemma safe_reg_lock n mine c r snt rcv γ :
  thr i false mine c r snt rcv γ → (1 ≤ c)%nat →
  safe (reg_lock n) (λ _ γ', thr i true mine c r snt rcv γ' ∧ ∃ al, rested al γ') γ.
Proof.
  intros Ht Hc. unfold reg_lock. apply (cwp_loop_waits _ _ _ _ (λ _, thr i false mine c r snt rcv)); [done|done|].
  intros _ γ0 Ht0. apply safe_cas. intros γ1 s1 Hr1 HI1. exists (reg_locked s1). split; [done|].
  pose proof (thr_rely _ _ _ _ _ _ _ _ _ Ht0 Hr1) as Ht1. split.
  - intros E. exists (set_reg_locked 1 s1), (g_lock (Some i) γ1). split; [done|]. split; [done|].
    pose proof (th_cnt _ _ _ _ _ _ _ _ Ht1) as Ec. split; [by eapply guar_lock; [..|lia]|].
    split; [apply inv_lock; [done|done|lia]|]. apply cwp_ret. split; [by apply thr_lock|]. exists (cg_all γ1).
    apply (rested_free γ1 s1 HI1). by eapply unlocked.
  - intros _. apply cwp_bind. apply (cwp_loop_waits _ _ _ _ (λ _, thr i false mine c r snt rcv)); [done|done|].
    intros _ γ2 Ht2. apply safe_load. intros γ3 s3 Hr3 HI3. exists (reg_locked s3). split; [done|].
    pose proof (thr_rely _ _ _ _ _ _ _ _ _ Ht2 Hr3) as Ht3. by destruct (reg_locked s3 =? 0).
Qed.

Lemma safe_reg_unlock {A} (k : unit → prog (lubqE T) A) al mine c r snt rcv Φ γ :
  thr i true mine c r snt rcv γ → rested al γ → (1 ≤ c)%nat →
  (∀ γ', thr i false mine c r snt rcv γ' → safe (k tt) Φ γ') →
  safe (reg_unlock ≫= k) Φ γ.
Proof.
  intros Ht [Hg Hal] Hc Hk. apply safe_store. intros γ' s Hr HI. pose proof (thr_rely _ _ _ _ _ _ _ _ _ Ht Hr) as Ht'.
  pose proof (reg_rely _ _ _ _ _ _ _ _ _ _ _ _ _ Ht Hg Hr) as Hg'. pose proof (th_cnt _ _ _ _ _ _ _ _ Ht') as Ec.
  exists (set_reg_locked 0 s), (g_lock None γ'). split; [done|]. split; [done|].
  split; [apply guar_unlock; [by apply Ht'|lia]|]. destruct Hg' as (E1 & E2 & E3 & E4 & E5). split.
  - apply inv_unlock; [done|]. unfold settled. rewrite E1. repeat split; lia.
  - apply Hk. by apply thr_unlock.
Qed.

(** ** [try_acquire_producer] *)

Lemma thr_take sh lk mine c r snt rcv γ :
  thr i lk mine c r snt rcv γ → cg_holder γ sh = None →
  thr i lk (mine ++ [sh]) c r snt rcv (g_hold sh (Some i) γ).
Proof.
  intros [] Hh. split; try done; simpl.
  - intros a. rewrite elem_of_app, list_elem_of_singleton. unfold at_shard. case_decide as E; [tauto|].
    rewrite th_holds0. tauto.
  - apply NoDup_app. split; [done|]. split; [|apply NoDup_singleton]. intros x Hx ->%list_elem_of_singleton.
    apply th_holds0 in Hx. congruence.
Qed.

Lemma thr_pop sh n lk mine c r snt rcv γ :
  thr i lk mine c r snt rcv γ → thr i lk mine c r snt (rcv ++ take n (cg_vals γ sh)) (g_popped i sh n γ).
Proof.
  intros []. split; try done. simpl. rewrite by_thread_app, by_thread_entries, decide_True by done. congruence.
Qed.

(** What the loop over the owned shards has found. *)
Definition taken (al : list Z) mine c r snt rcv (o : option Z) γ : Prop :=
  rested al γ ∧ thr i true (match o with Some sh => mine ++ [sh] | None => mine end) c r snt rcv γ.

Lemma safe_try_acquire k sh al mine c r snt rcv γ :
  taken al mine c r snt rcv None γ → al !! k = Some sh → (1 ≤ c)%nat →
  safe (try_acquire_producer sh) (λ ok γ', taken al mine c r snt rcv (if ok : bool then Some sh else None) γ') γ.
Proof.
  intros [[Hg Hal] Ht] Hk Hc. unfold try_acquire_producer.
  apply safe_load. intros γ1 s1 Hr1 HI1. pose proof (thr_rely _ _ _ _ _ _ _ _ _ Ht Hr1) as Ht1.
  pose proof (reg_rely _ _ _ _ _ _ _ _ _ _ _ _ _ Ht Hg Hr1) as Hg1. pose proof (proj1 Hg1) as E1.
  assert (cg_all γ1 !! k = Some sh) as Hk1 by congruence.
  destruct (hv_shard _ _ _ _ HI1 k sh Hk1) as (x & Hx & Hsx). unfold lrd. rewrite Hx. eexists. split; [reflexivity|].
  destruct (negb (producer_active x =? 0)); [by split|]. clear x Hx Hsx.
  eapply safe_call; [|done|simpl; lia|].
  { intros γ2 s2 Hr2 HI2. exists k. destruct (rl_all _ _ _ Hr2) as [l ->]. by apply lookup_app_l_Some. }
  intros γ2 s2 k2 x q Hr2 HI2 Hk2 Hx Hq. simpl in Hq. rewrite Nat.add_0_r in Hq.
  exists (g_popped i sh 0 γ2). split; [apply guar_pop|]. split; [eapply inv_popped; [done|exact Hk2|done|by rewrite drop_0]|].
  split; [simpl; by rewrite !app_nil_r|].
  pose proof (thr_pop sh 0 _ _ _ _ _ _ _ (thr_rely _ _ _ _ _ _ _ _ _ Ht1 Hr2)) as Ht2. rewrite app_nil_r in Ht2.
  pose proof (reg_rely _ _ _ _ _ _ _ _ _ _ _ _ _ Ht1 Hg1 Hr2) as Hg2.
  change (reg al (length al) (length al) (length al - 1) (length al) (g_popped i sh 0 γ2)) in Hg2.
  destruct (negb _); [by split|]. clear Hq Hx HI2 Hk1 Hr2 Hk2.
  set (γ3 := g_popped i sh 0 γ2) in *. clearbody γ3. apply safe_cas. intros γ4 s4 Hr4 HI4.
  pose proof (thr_rely _ _ _ _ _ _ _ _ _ Ht2 Hr4) as Ht4.
  pose proof (reg_rely _ _ _ _ _ _ _ _ _ _ _ _ _ Ht2 Hg2 Hr4) as Hg4.
  assert (cg_all γ4 !! k = Some sh) as Hk4 by (destruct Hg4; congruence).
  destruct (hv_shard _ _ _ _ HI4 k sh Hk4) as (y & Hy & Hsy). unfold lrd. rewrite Hy. eexists. split; [reflexivity|].
  pose proof (th_cnt _ _ _ _ _ _ _ _ Ht4) as Ec. split; [|intros _; by split]. intros E.
  assert (cg_holder γ4 sh = None) as Hh. { rewrite (si_active _ _ _ _ Hsy) in E. by destruct (cg_holder γ4 sh). }
  unfold lwr, upd_shard. rewrite Hy. eexists _, (g_hold sh (Some i) γ4). split; [reflexivity|]. split; [done|]. split; [|split].
  - apply guar_hold; [lia|by rewrite Hh|congruence].
  - apply (inv_hold N B γ4 s4 k sh y (Some i)); [done|done|done|lia].
  - split; [by split|]. by apply thr_take.
Qed.

Lemma safe_acquire_owned l al mine c r snt rcv γ :
  taken al mine c r snt rcv None γ → (∀ sh, sh ∈ l → sh ∈ al) → (1 ≤ c)%nat →
  safe (acquire_owned l) (taken al mine c r snt rcv) γ.
Proof.
  revert γ. induction l as [|sh l IH]; intros γ Ht Hl Hc; [done|]. cbn [acquire_owned]. apply cwp_bind.
  destruct (list_elem_of_lookup_1 al sh) as [k Hk]; [apply Hl; by left|].
  eapply cwp_mono; [by eapply (safe_try_acquire k sh)|]. intros [] γ' Ht'; [done|].
  apply IH; [done| |done]. intros a Ha. apply Hl. by right.
Qed.

(** ** A new shard *)

(** Facts that hold while the thread registers a shard. *)
Lemma holding_lock al ow ln tl nid mine c r snt rcv γ γ' :
  thr i true mine c r snt rcv γ → reg al ow ln tl nid γ → ch_rely i γ γ' →
  thr i true mine c r snt rcv γ' ∧ reg al ow ln tl nid γ' ∧ cg_lock γ' = Some i ∧ cg_cnt γ' i = c.
Proof.
  intros Ht Hg Hr. pose proof (thr_rely _ _ _ _ _ _ _ _ _ Ht Hr) as Ht'. split; [done|].
  split; [exact (reg_rely _ _ _ _ _ _ _ _ _ _ _ _ _ Ht Hg Hr)|]. split; [by apply Ht'|apply Ht'].
Qed.

Lemma thr_registry al ow ln tl nid lk mine c r snt rcv γ :
  thr i lk mine c r snt rcv γ → thr i lk mine c r snt rcv (g_registry al ow ln tl nid γ).
Proof. intros []. by split. Qed.

Lemma thr_spend n lk mine c r snt rcv γ :
  thr i lk mine c (n + r) snt rcv γ → thr i lk mine c r snt rcv (g_spend i n γ).
Proof. intros []. split; try done. simpl. rewrite set_at_eq. lia. Qed.

(** The last steps: the new shard is linked, becomes the tail, and the lock is
    released. *)
Lemma safe_publish al sh mine c r snt rcv γ :
  thr i true mine c r snt rcv γ → (0 < length al)%nat → (1 ≤ c)%nat →
  reg (al ++ [sh]) (length al + 1) (length al) (length al - 1) (length al + 1) γ →
  safe (tail ← act (LLoad RegTail);
        debug_assert (negb (tail =? 0));;
        act (LStore (ShNext tail) sh);;
        act (LStore RegTail sh);;
        reg_unlock;;
        Ret sh) (λ a γ', a = sh ∧ thr i false mine c r snt rcv γ') γ.
Proof.
  intros Ht Hal Hc Hg. set (n := length al) in *.
  apply safe_load. intros γ1 s1 Hr1 HI1. destruct (holding_lock _ _ _ _ _ _ _ _ _ _ _ _ Ht Hg Hr1) as (Ht1 & Hg1 & _).
  exists (reg_tail s1). split; [done|]. pose proof (hv_tail _ _ _ _ HI1) as Htl.
  pose proof (known_pos _ _ _ _ _ _ HI1 Htl) as Hpos.
  apply safe_debug_assert; [by rewrite (proj2 (Z.eqb_neq _ _)) by lia|]. set (t := reg_tail s1) in *.
  assert ((al ++ [sh]) !! (n - 1)%nat = Some t) as Hat by (destruct Hg1 as (<- & _ & _ & <- & _); done).
  apply safe_store. intros γ2 s2 Hr2 HI2.
  destruct (holding_lock _ _ _ _ _ _ _ _ _ _ _ _ Ht1 Hg1 Hr2) as (Ht2 & (E1 & E2 & E3 & E4 & E5) & Hl2 & Ec2).
  assert (reg_tail s2 = t) as Et. { pose proof (hv_tail _ _ _ _ HI2) as Htl2. rewrite E1, E4 in Htl2. congruence. }
  destruct (hv_shard _ _ _ _ HI2 _ _ (hv_tail _ _ _ _ HI2)) as (x & Hx & _). rewrite Et in Hx.
  unfold lwr at 1, upd_shard. rewrite Hx. eexists _, (g_linkup γ2). split; [reflexivity|]. split; [done|].
  assert (cg_all γ2 !! cg_linked γ2 = Some sh) as Hnew by (rewrite E1, E3; by apply list_lookup_middle).
  split; [apply guar_registry; try done; lia|]. split.
  { rewrite <- Et. apply (inv_linkup N B i); try done; [lia|by rewrite Et]. }
  pose proof (thr_registry (cg_all γ2) (cg_owned γ2) (S (cg_linked γ2)) (cg_tail γ2) (cg_nid γ2) _ _ _ _ _ _ _ Ht2) as Ht3.
  fold (g_linkup γ2) in Ht3. apply safe_store. intros γ4 s4 Hr4 HI4.
  destruct (holding_lock (al ++ [sh]) (n + 1) (S n) (n - 1) (n + 1) _ _ _ _ _ _ γ4 Ht3) as (Ht4 & (F1 & F2 & F3 & F4 & F5) & Hl4 & Ec4);
    [unfold reg; simpl; repeat split; congruence|done|].
  exists (set_reg_tail sh s4), (g_tail γ4). split; [done|]. split; [done|]. split; [apply guar_registry; try done; lia|].
  split.
  { apply (inv_tail N B i γ4 s4 sh); [done|done| |lia]. rewrite F1, F4. replace (S (n - 1)) with n by lia.
    by apply list_lookup_middle. }
  eapply (safe_reg_unlock _ (al ++ [sh])); [exact (thr_registry _ _ _ _ _ _ _ _ _ _ _ _ Ht4)| |done|].
  - split; [|rewrite length_app; simpl; lia]. unfold reg. simpl. rewrite !length_app. simpl. repeat split; try done; lia.
  - intros γ5 Ht5. by apply cwp_ret.
Qed.

(** The steps before: an identifier is drawn and the shard is boxed and owned. *)
Lemma safe_register al mine c r snt rcv γ :
  thr i true mine c (1 + r) snt rcv γ → rested al γ → (1 ≤ c)%nat →
  safe (id ← act LNextId;
        if usize_max <? id + 1 then reg_unlock;; Panic else
        act (LSetNextId (id + 1));;
        sh ← act (LNewShard id);
        act (LPushOwned sh);;
        tail ← act (LLoad RegTail);
        debug_assert (negb (tail =? 0));;
        act (LStore (ShNext tail) sh);;
        act (LStore RegTail sh);;
        reg_unlock;;
        Ret sh) (λ a γ', thr i false (mine ++ [a]) c r snt rcv γ') γ.
Proof.
  intros Ht [Hg Hal] Hc. set (n := length al) in *.
  apply safe_logged; [done|]. intros γ1 s1 Hr1 HI1.
  destruct (holding_lock _ _ _ _ _ _ _ _ _ _ _ _ Ht Hg Hr1) as (Ht1 & Hg1 & _).
  unfold lubq_handler. exists γ1. split; [apply guar_same|]. split; [done|]. split; [by apply (logs_quiet LNextId (next_id s1))|].
  rewrite (hv_nid _ _ _ _ HI1). replace (cg_nid γ1) with n by (by destruct Hg1 as (_ & _ & _ & _ & ->)).
  pose proof (hv_bounds _ _ _ _ HI1) as Hb. pose proof (hv_budget _ _ _ _ HI1) as Hb2.
  pose proof (total_set N (cg_rest γ1) i 0%nat Hi) as Htot. pose proof (th_rest _ _ _ _ _ _ _ _ Ht1) as Hrest.
  assert (n = cg_nid γ1) as En by (by destruct Hg1 as (_ & _ & _ & _ & ->)).
  rewrite (proj2 (Z.ltb_ge _ _)) by lia. clear Hb Hb2 Htot Hrest En.
  apply safe_logged; [done|]. intros γ2 s2 Hr2 HI2.
  destruct (holding_lock _ _ _ _ _ _ _ _ _ _ _ _ Ht1 Hg1 Hr2) as (Ht2 & (E1 & E2 & E3 & E4 & E5) & Hl2 & Ec2).
  pose proof (th_rest _ _ _ _ _ _ _ _ Ht2) as Hrest2.
  unfold lubq_handler. exists (g_next_id i γ2). split; [|split; [|split; [by apply (logs_quiet (LSetNextId (Z.of_nat n + 1)) tt)|]]].
  { apply guar_spend; [lia|apply guar_registry; try done; lia|done]. }
  { pose proof (inv_next_id N B i γ2 s2 Hi HI2 Hl2 ltac:(lia)) as Hn. rewrite (hv_nid _ _ _ _ HI2), E5 in Hn. done. }
  assert (thr i true mine c r snt rcv (g_next_id i γ2)) as Ht3 by (apply thr_spend; by apply thr_registry).
  assert (reg al n n (n - 1) (S n) (g_next_id i γ2)) as Hg3 by (unfold reg; simpl; repeat split; congruence).
  apply safe_logged; [done|]. intros γ4 s4 Hr4 HI4.
  destruct (holding_lock _ _ _ _ _ _ _ _ _ _ _ _ Ht3 Hg3 Hr4) as (Ht4 & (F1 & F2 & F3 & F4 & F5) & Hl4 & Ec4).
  unfold lubq_handler. set (sh := box_at (dom (shards s4))).
  assert (cg_holder γ4 sh = None) as Hfree.
  { destruct (cg_holder γ4 sh) as [j|] eqn:E; [|done]. destruct (hv_holder _ _ _ _ HI4 sh j E) as [Hin _].
    destruct (box_at_fresh (dom (shards s4))) as [Hfr _]. fold sh in Hfr.
    by rewrite (hv_dom _ _ _ _ HI4), elem_of_list_to_set in Hfr. }
  exists (g_new i sh γ4). split; [apply guar_new; [done|lia|done]|]. split.
  { pose proof (inv_new_shard N B i γ4 s4 HI4 Hl4 ltac:(lia)) as Hn. rewrite F1 in Hn. apply Hn. done. }
  split; [by apply (logs_quiet (LNewShard (Z.of_nat n)) sh)|].
  assert (thr i true (mine ++ [sh]) c r snt rcv (g_new i sh γ4)) as Ht5.
  { apply thr_take; [by apply thr_registry|done]. }
  assert (reg (al ++ [sh]) n n (n - 1) (S n) (g_new i sh γ4)) as Hg5 by (unfold reg; simpl; rewrite F1; repeat split; congruence).
  apply safe_logged; [done|]. intros γ6 s6 Hr6 HI6.
  destruct (holding_lock _ _ _ _ _ _ _ _ _ _ _ _ Ht5 Hg5 Hr6) as (Ht6 & (D1 & D2 & D3 & D4 & D5) & Hl6 & Ec6).
  unfold lubq_handler. exists (g_push_owned γ6). split; [apply guar_registry; try done; lia|]. split.
  { apply (inv_push_owned N B i); [done|done|]. rewrite D1, D2. by apply list_lookup_middle. }
  split; [by apply (logs_quiet (LPushOwned sh) tt)|].
  eapply cwp_mono; [apply (safe_publish al sh (mine ++ [sh]) c r snt rcv); [by apply thr_registry|done|done|]|].
  - unfold reg. simpl. repeat split; try done; lia.
  - by intros a γ7 [-> ?].
Qed.

Lemma safe_acquire_shard n mine c r snt rcv γ :
  thr i false mine c (1 + r) snt rcv γ → (1 ≤ c)%nat →
  safe (acquire_sender_shard n) (λ a γ', thr i false (mine ++ [a]) c r snt rcv γ') γ.
Proof.
  intros Ht Hc. unfold acquire_sender_shard. apply cwp_bind. eapply cwp_mono; [by apply safe_reg_lock|].
  intros _ γ1 [Ht1 (al & Hg1)]. apply safe_logged; [done|]. intros γ2 s2 Hr2 HI2.
  destruct (holding_lock _ _ _ _ _ _ _ _ _ _ _ _ Ht1 (proj1 Hg1) Hr2) as (Ht2 & Hg2 & _).
  unfold lubq_handler. exists γ2. split; [apply guar_same|]. split; [done|]. split; [by apply (logs_quiet LOwned (owned s2))|].
  apply cwp_bind. eapply cwp_mono; [apply (safe_acquire_owned _ al mine c (1 + r) snt rcv)|].
  - split; [split; [done|apply Hg1]|done].
  - intros sh. rewrite (hv_owned _ _ _ _ HI2). destruct Hg2 as (-> & _). intros Hsh. rewrite <- (take_drop (cg_owned γ2) al). apply elem_of_app. by left.
  - done.
  - intros [sh|] γ3 [Hg3 Ht3]; [|by eapply safe_register].
    eapply safe_reg_unlock; [done|done|done|]. intros γ4 Ht4. apply cwp_ret. destruct Ht4. split; try done. lia.
Qed.

(** ** [Sender::clone] *)

Lemma safe_add_sender n mine c r snt rcv γ :
  thr i false mine c (1 + r) snt rcv γ → (1 ≤ c)%nat →
  safe (add_sender n) (λ _ γ', thr i false mine (S c) r snt rcv γ') γ.
Proof.
  intros Ht Hc. unfold add_sender. apply safe_load. intros γ1 s1 Hr1 HI1. exists (senders s1). split; [done|].
  pose proof (thr_rely _ _ _ _ _ _ _ _ _ Ht Hr1) as Ht1.
  assert (∀ γ s, thr i false mine c (1 + r) snt rcv γ → inv γ s → senders s + 1 ≤ usize_max) as Hle.
  { intros γ0 s0 Ht0 HI0. pose proof (hv_bounds _ _ _ _ HI0). pose proof (hv_budget _ _ _ _ HI0).
    pose proof (total_set N (cg_rest γ0) i 0%nat Hi). pose proof (th_rest _ _ _ _ _ _ _ _ Ht0).
    rewrite (hv_senders _ _ _ _ HI0). lia. }
  apply (cwp_loop_waits _ _ _ _ (λ count γ, thr i false mine c (1 + r) snt rcv γ ∧ count + 1 ≤ usize_max));
    [split; [done|by eapply Hle]|done|].
  intros count γ2 [Ht2 Hcount]. rewrite (proj2 (Z.ltb_ge _ _)) by lia. apply safe_cas. intros γ3 s3 Hr3 HI3.
  pose proof (thr_rely _ _ _ _ _ _ _ _ _ Ht2 Hr3) as Ht3. exists (senders s3). split; [done|]. split.
  - intros <-. exists (set_senders (senders s3 + 1) s3), (g_spend i 1 (g_count i (S (cg_cnt γ3 i)) γ3)).
    pose proof (th_cnt _ _ _ _ _ _ _ _ Ht3) as Ec. pose proof (th_rest _ _ _ _ _ _ _ _ Ht3) as Hrest. split; [done|]. split; [done|].
    split; [|split; [apply inv_add_sender; [done|done|lia|lia]|]].
    + intros j Hj. eapply ch_rely_trans; [apply (guar_count i γ3 (S (cg_cnt γ3 i))); [lia|done]|].
      apply guar_spend; [|apply guar_same|done|done]. simpl. rewrite set_at_eq. lia.
    + apply cwp_ret. apply thr_spend. destruct Ht3. split; try done. simpl. rewrite set_at_eq. by f_equal.
  - intros _. apply cwp_ret. split; [done|by eapply Hle].
Qed.

Lemma safe_clone n mine r snt rcv γ :
  thr i false mine (length mine) (2 + r) snt rcv γ → mine ≠ [] →
  safe (Sender_clone n) (λ a γ', thr i false (mine ++ [a]) (length (mine ++ [a])) r snt rcv γ') γ.
Proof.
  intros Ht Hm. assert (1 ≤ length mine)%nat as Hl by (destruct mine; [done|simpl; lia]). unfold Sender_clone.
  apply cwp_bind. eapply cwp_mono; [by apply (safe_acquire_shard n mine (length mine) (1 + r) snt rcv)|]. intros a γ1 Ht1.
  apply cwp_bind. eapply cwp_mono; [by apply (safe_add_sender n (mine ++ [a]) (length mine) r snt rcv)|].
  intros u γ2 Ht2. apply cwp_ret. rewrite length_app. simpl. by rewrite Nat.add_1_r.
Qed.

End accesses.
