(* ===== verification/ChanRecv.v ===== *)
(** * The channel under interleaving: receivers

    Rules for the scans of a receiver, [try_recv] and [try_recv_batch], with any number
    of senders and receivers at work: they return what they take off the shards, and
    when every sender is gone before a scan, the scan leaves nothing behind. *)

From S2P Require Import Prelude Prog Conc Layout Head Geometry Shard Lubq ChanGhost ChanSteps ChanSend.

Section recv.
Context {T Q : Type} `{SQ : ShardQueue T Q} `{BA : BoxAllocator} `{PR : Profile} (fuel : nat).
Context (N B : nat) (W : nat → Prop).
Context (i : nat).
Implicit Types (γ : chgh T) (s : lmem Q).
Notation inv := (ch_inv (SQ := SQ) N B).
Notation safe := (cwp (HH := chan_logged fuel i) (SP := chan_spurious) (log_inv (SQ := SQ) N B) ch_rely ch_guar (λ j _, W j) i).

(** ** What a scan knows *)

(** The registry only grows. *)
Definition grown γ γ' : Prop := cg_all γ `prefix_of` cg_all γ' ∧ (cg_linked γ ≤ cg_linked γ')%nat.

Lemma rely_grown γ γ' : ch_rely i γ γ' → grown γ γ'.
Proof. intros Hr. split; apply Hr. Qed.

Lemma grown_trans γ1 γ2 γ3 : grown γ1 γ2 → grown γ2 γ3 → grown γ1 γ3.
Proof. intros [? ?] [? ?]. split; [by etransitivity|lia]. Qed.

Lemma known_grown γ γ' k sh : known γ k sh → grown γ γ' → known γ' k sh.
Proof. intros (Hk & Hl & Hp) [[l Ha] Hle]. split; [|lia]. rewrite Ha. by apply lookup_app_l_Some. Qed.

(** A receiver's cursor: none, or a shard it may follow. *)
Definition cursor_known γ (sh : Z) : Prop := sh = 0 ∨ ∃ k, known γ k sh.

Lemma cursor_grown sh γ γ' : cursor_known γ sh → grown γ γ' → cursor_known γ' sh.
Proof. intros [->|[k Hk]] Hr; [by left|right]. exists k. by eapply known_grown. Qed.

(** No sender is left and the shard at position [k] is empty. *)
Definition gone γ (k : nat) : Prop := shut γ ∧ ∀ sh, cg_all γ !! k = Some sh → cg_vals γ sh = [].

Lemma gone_rely γ γ' k : gone γ k → ch_rely i γ γ' → gone γ' k.
Proof.
  intros [Hs Hg] Hr. destruct (rl_shut _ _ _ Hr Hs) as (Hs' & Hreg & _ & Hv). split; [done|].
  destruct Hreg as [-> _]. intros sh Hsh. by apply Hv, Hg.
Qed.

Lemma gone_pop γ sh n k : gone γ k → gone (g_popped i sh n γ) k.
Proof.
  intros [Hs Hg]. split; [done|]. simpl. intros a Ha. unfold at_shard. case_decide as E; [|by apply Hg].
  rewrite <- E, (Hg a Ha). apply drop_nil.
Qed.

(** No sender is left, and [b] is the position of the last shard. *)
Definition ended (b : nat) γ : Prop := shut γ ∧ length (cg_all γ) = S b.

Lemma ended_rely b γ γ' : ended b γ → ch_rely i γ γ' → ended b γ'.
Proof.
  intros [Hs Hb] Hr. destruct (rl_shut _ _ _ Hr Hs) as (Hs' & Hreg & _). split; [done|]. by destruct Hreg as [-> _].
Qed.

(** No sender is left and nothing is left to receive. *)
Definition all_drained γ : Prop := shut γ ∧ ∀ sh, sh ∈ cg_all γ → cg_vals γ sh = [].

Lemma drained_rely γ γ' : all_drained γ → ch_rely i γ γ' → all_drained γ'.
Proof.
  intros [Hs Hd] Hr. destruct (rl_shut _ _ _ Hr Hs) as (Hs' & Hreg & _ & Hv). split; [done|].
  destruct Hreg as [-> _]. intros sh Hsh. by apply Hv, Hd.
Qed.

Lemma gone_drained b γ : ended b γ → (∀ k, (k ≤ b)%nat → gone γ k) → all_drained γ.
Proof.
  intros [Hs Hb] Hg. split; [done|]. intros sh Hsh. apply list_elem_of_lookup in Hsh as [k Hk].
  destruct (Hg k) as [_ Hv]; [apply lookup_lt_Some in Hk; lia|]. by apply Hv.
Qed.

(** The state of a scan that has seen the positions in [D] and those from [lo] to [hi] empty; [P] says
    that every sender was gone when it began. *)
Record scanning (P : Prop) (D : nat → Prop) (b lo hi : nat) mine c r snt rcv γ : Prop := {
  sc_thr : thr i false mine c r snt rcv γ;
  sc_boundary : ∃ sh, known γ b sh;
  sc_ended : P → ended b γ;
  sc_gone : P → ∀ k, D k ∨ (lo ≤ k < hi)%nat → gone γ k
}.

Lemma scanning_rely P D b lo hi mine c r snt rcv γ γ' :
  scanning P D b lo hi mine c r snt rcv γ → ch_rely i γ γ' → scanning P D b lo hi mine c r snt rcv γ'.
Proof.
  intros [Ht [sh Hb] He Hg] Hr. split; [by eapply thr_rely|exists sh; by eapply known_rely| |].
  - intros HP. eapply ended_rely; [by apply He|done].
  - intros HP k Hk. eapply gone_rely; [by apply Hg|done].
Qed.

Lemma scanning_pop sh n P D b lo hi mine c r snt rcv γ :
  scanning P D b lo hi mine c r snt rcv γ →
  scanning P D b lo hi mine c r snt (rcv ++ take n (cg_vals γ sh)) (g_popped i sh n γ).
Proof.
  intros [Ht Hb He Hg]. split; [by apply thr_pop|done..|]. intros HP k Hk. apply gone_pop. by apply Hg.
Qed.

Lemma scanning_extend P D b lo k mine c r snt rcv γ :
  scanning P D b lo k mine c r snt rcv γ → (P → gone γ k) → scanning P D b lo (S k) mine c r snt rcv γ.
Proof.
  intros [Ht Hb He Hg] Hk. split; try done. intros HP j Hj. destruct (decide (j = k)) as [->|]; [by apply Hk|].
  apply Hg; [done|]. destruct Hj as [Hj|Hj]; [by left|right; lia].
Qed.

Lemma scanning_drained P b st mine c r snt rcv γ :
  scanning P (λ k, (st ≤ k ≤ b)%nat) b 0 st mine c r snt rcv γ → P → all_drained γ.
Proof.
  intros Hsc HP. eapply gone_drained; [by apply Hsc|]. intros k Hk. apply Hsc; [done|]. lia.
Qed.

Lemma scanning_empty P D b lo lo' mine c r snt rcv γ :
  scanning P D b lo lo mine c r snt rcv γ → scanning P D b lo' lo' mine c r snt rcv γ.
Proof. intros [Ht Hb He Hg]. split; try done. intros HP k [Hk|Hk]; [|lia]. apply Hg; [done|by left]. Qed.

(** The second part of a scan starts at the head. *)
Lemma scanning_prefix P b st mine c r snt rcv γ :
  scanning P (λ _, False) b st (S b) mine c r snt rcv γ →
  scanning P (λ k, (st ≤ k ≤ b)%nat) b 0 0 mine c r snt rcv γ.
Proof. intros [Ht Hb He Hg]. split; try done. intros HP k Hk. apply Hg; [done|]. lia. Qed.

(** ** Accesses of a scan *)

Context (Hfuel : (B + 1 < fuel)%nat) (Hmax : Z.of_nat B ≤ usize_max) (Hi : (i < N)%nat).

(** The link of a shard below the boundary leads to the next shard. *)
Lemma safe_next {A} k sh (f : Z → prog (lubqE T) A) Φ γ :
  known γ k sh →
  (∀ γ' nx, ch_rely i γ γ' → (nx = 0 ∧ cg_linked γ' = S k) ∨ known γ' (S k) nx → safe (f nx) Φ γ') →
  safe (act (LLoad (ShNext sh)) ≫= f) Φ γ.
Proof.
  intros Hk Hf. apply safe_load. intros γ' s Hr HI. pose proof (known_rely _ _ _ _ _ Hk Hr) as Hk'.
  destruct (hv_shard _ _ _ _ HI k sh (proj1 Hk')) as (x & Hx & Hsx). unfold lrd. rewrite Hx. eexists. split; [reflexivity|].
  rewrite (si_next _ _ _ _ Hsx). eapply Hf; [done|]. destruct Hk' as (_ & Hlt & _). unfold link_of.
  case_decide as E; [right|left; split; [done|lia]].
  destruct (lookup_lt_is_Some_2 (cg_all γ') (S k)) as [a Ha]; [pose proof (hv_order _ _ _ _ HI); lia|].
  rewrite Ha. split; [done|]. split; [done|by eapply known_pos].
Qed.

Lemma safe_head {A} (f : Z → prog (lubqE T) A) Φ γ :
  (∀ γ' sh, ch_rely i γ γ' → known γ' 0 sh → safe (f sh) Φ γ') →
  safe (act (LLoad RegHead) ≫= f) Φ γ.
Proof.
  intros Hf. apply safe_load. intros γ' s Hr HI. exists (reg_head s). split; [done|].
  pose proof (hv_head _ _ _ _ HI) as Hh. apply Hf; [done|]. pose proof (hv_order _ _ _ _ HI).
  split; [done|]. split; [lia|by eapply known_pos].
Qed.

(** [or_else(|| head)] turns a pointer a receiver may hold into one it can follow. *)
Lemma safe_or_head {A} sh (f : Z → prog (lubqE T) A) Φ γ :
  cursor_known γ sh →
  (∀ γ' a, ch_rely i γ γ' → (∃ k, known γ' k a) → safe (f a) Φ γ') →
  safe (or_head sh ≫= f) Φ γ.
Proof.
  intros Hc Hf. unfold or_head. destruct (Z.eqb_spec sh 0) as [->|Hne].
  - apply safe_head. intros γ' a Hr Ha. apply Hf; [done|]. by exists 0%nat.
  - destruct Hc as [?|Hk]; [done|]. apply cwp_bind, cwp_ret. apply Hf; [apply ch_rely_refl|done].
Qed.

(** A pop of one shard. *)
Lemma safe_pop_one {A} k sh (f : option T → prog (lubqE T) A) P D b lo hi mine c r snt rcv Φ γ :
  scanning P D b lo hi mine c r snt rcv γ → known γ k sh →
  (∀ γ' v, grown γ γ' → scanning P D b lo hi mine c r snt (rcv ++ [v]) γ' → safe (f (Some v)) Φ γ') →
  (∀ γ', grown γ γ' → scanning P D b lo hi mine c r snt rcv γ' → (P → gone γ' k) → safe (f None) Φ γ') →
  safe (pop_from sh ≫= f) Φ γ.
Proof.
  intros Hsc Hk Hsome Hnone. unfold pop_from. eapply safe_call; [done..| |done|simpl; lia|].
  { intros γ' s Hr HI. exists k. by apply (known_rely i γ γ'). }
  intros γ' s k' x q Hr HI Hk' Hx Hq. simpl in Hq |- *. rewrite Nat.add_0_r in Hq.
  pose proof (scanning_rely _ _ _ _ _ _ _ _ _ _ _ _ Hsc Hr) as Hsc'. pose proof (known_rely _ _ _ _ _ Hk Hr) as Hkn.
  exists (g_popped i sh 1 γ'). split; [apply guar_pop|].
  split; [eapply inv_popped; [done|exact Hk'|done|by destruct (cg_vals γ' sh)]|].
  split; [simpl; rewrite app_nil_r; by destruct (cg_vals γ' sh)|].
  pose proof (scanning_pop sh 1 _ _ _ _ _ _ _ _ _ _ _ Hsc') as Hpop. destruct (cg_vals γ' sh) as [|v l] eqn:Ev.
  - apply Hnone; [by apply rely_grown in Hr|by rewrite app_nil_r in Hpop|].
    intros HP. destruct (sc_ended _ _ _ _ _ _ _ _ _ _ _ Hsc' HP) as [Hs _]. split; [done|]. simpl. intros a Ha.
      destruct Hkn as [Hkn _]. assert (a = sh) as -> by congruence. by rewrite at_shard_eq, Ev.
  - apply Hsome; [by apply rely_grown in Hr|done].
Qed.

(** The filter lets a shard up to the boundary pass. *)
Lemma safe_ptr_filter {A} k sh b (f : Z → prog (lubqE T) A) Φ γ :
  known γ k sh →
  (∀ γ', ch_rely i γ γ' → safe (f (if decide (k ≤ b)%nat then sh else 0)) Φ γ') →
  safe (ptr_filter sh (Z.of_nat b) ≫= f) Φ γ.
Proof.
  intros Hk Hf. unfold ptr_filter. rewrite (proj2 (Z.eqb_neq _ _)) by (destruct Hk as (_ & _ & ?); lia). apply cwp_bind.
  eapply safe_id; [apply Hk|]. intros γ' s Hr _. apply cwp_ret. specialize (Hf γ' Hr).
  case_decide as E; [by rewrite (proj2 (Z.leb_le _ _)) by lia|by rewrite (proj2 (Z.leb_gt _ _)) by lia].
Qed.

(** ** The scans *)

(** What a scan of the positions [lo] to [hi] delivers. *)
Definition scan_found (P : Prop) (D : nat → Prop) (b lo hi : nat) mine c r snt rcv (o : option (T * Z)) γ : Prop :=
  match o with
  | Some (v, cursor) => thr i false mine c r snt (rcv ++ [v]) γ ∧ cursor_known γ cursor
  | None => scanning P D b lo hi mine c r snt rcv γ
  end.

(** A shard of the scan: a value and the next cursor, or on to the next shard. *)
Lemma safe_visit {A} k sh P D b lo mine c r snt rcv (f : Z → option T → prog (lubqE T) A) Φ γ :
  scanning P D b lo k mine c r snt rcv γ → known γ k sh →
  (∀ γ' nx v, thr i false mine c r snt (rcv ++ [v]) γ' → cursor_known γ' nx → safe (f nx (Some v)) Φ γ') →
  (∀ γ' nx, scanning P D b lo (S k) mine c r snt rcv γ' → ((k < b)%nat → known γ' (S k) nx) → safe (f nx None) Φ γ') →
  safe (nx ← act (LLoad (ShNext sh)); v ← pop_from sh; f nx v) Φ γ.
Proof.
  intros Hsc Hk Hsome Hnone. eapply safe_next; [done|]. intros γ1 nx Hr1 Hnx.
  pose proof (scanning_rely _ _ _ _ _ _ _ _ _ _ _ _ Hsc Hr1) as Hsc1. pose proof (known_rely _ _ _ _ _ Hk Hr1) as Hk1.
  assert (cursor_known γ1 nx) as Hc1. { destruct Hnx as [[-> _]|Hnx]; [by left|right; eauto]. }
  assert ((k < b)%nat → known γ1 (S k) nx) as Hn1.
  { intros Hlt. destruct Hnx as [[_ El]|Hnx]; [|done]. destruct (sc_boundary _ _ _ _ _ _ _ _ _ _ _ Hsc1) as (a & _ & Hb & _). lia. }
  eapply safe_pop_one; [done|done| |].
  - intros γ2 v Hg2 Hsc2. apply Hsome; [apply Hsc2|by eapply cursor_grown].
  - intros γ2 Hg2 Hsc2 Hgone. apply Hnone; [by apply scanning_extend|]. intros Hlt. eapply known_grown; [by apply Hn1|done].
Qed.

Lemma safe_scan_through n k sh P D b lo mine c r snt rcv γ :
  scanning P D b lo k mine c r snt rcv γ → known γ k sh → (k ≤ b)%nat → (b < k + n)%nat →
  safe (scan_through n (Z.of_nat b) sh) (scan_found P D b lo (S b) mine c r snt rcv) γ.
Proof.
  revert k sh γ. induction n as [|n IH]; intros k sh γ Hsc Hk Hle Hn; [lia|].
  unfold scan_through. cbn [loop]. apply cwp_bind. rewrite (proj2 (Z.eqb_neq _ _)) by (destruct Hk as (_ & _ & ?); lia).
  eapply safe_id; [apply Hk|]. intros γ1 s1 Hr1 _. rewrite (proj2 (Z.ltb_ge _ _)) by lia.
  eapply safe_visit; [by eapply scanning_rely|by eapply known_rely| |].
  - intros γ2 nx v Ht2 Hc2. eapply safe_or_head; [done|]. intros γ3 a Hr3 Ha. apply cwp_ret, cwp_ret.
    split; [by eapply thr_rely|by right].
  - intros γ2 nx Hsc2 Hnx. destruct (Z.eqb_spec (Z.of_nat k) (Z.of_nat b)) as [E|Hne].
    + apply cwp_ret, cwp_ret. assert (k = b) as -> by lia. done.
    + eapply safe_ptr_filter; [apply Hnx; lia|]. intros γ3 Hr3. rewrite decide_True by lia. apply cwp_ret.
      apply (IH (S k)); [by eapply scanning_rely|eapply known_rely; [apply Hnx; lia|done]|lia|lia].
Qed.

Lemma safe_scan_prefix n k sh P D b st mine c r snt rcv γ :
  scanning P D b 0 k mine c r snt rcv γ → known γ k sh → (k ≤ st ≤ b)%nat → (b < k + n)%nat →
  safe (loop n (λ current : Z,
    if current =? 0 then Ret (inr None) else
    id ← act (LId current);
    if (Z.of_nat st <=? id) || (Z.of_nat b <? id) then Ret (inr None) else
    nx ← act (LLoad (ShNext current));
    v ← pop_from current;
    match v with
    | Some value => cursor ← or_head nx; Ret (inr (Some (value, cursor)))
    | None => candidate ← ptr_filter nx (Z.of_nat b); Ret (inl candidate)
    end) sh) (scan_found P D b 0 st mine c r snt rcv) γ.
Proof.
  revert k sh γ. induction n as [|n IH]; intros k sh γ Hsc Hk Hle Hn; [lia|].
  cbn [loop]. apply cwp_bind. rewrite (proj2 (Z.eqb_neq _ _)) by (destruct Hk as (_ & _ & ?); lia).
  eapply safe_id; [apply Hk|]. intros γ1 s1 Hr1 _. rewrite (proj2 (Z.ltb_ge (Z.of_nat b) _)) by lia. rewrite orb_false_r.
  destruct (Z.leb_spec (Z.of_nat st) (Z.of_nat k)) as [E|E].
  { apply cwp_ret, cwp_ret. assert (k = st) as -> by lia. by eapply scanning_rely. }
  eapply safe_visit; [by eapply scanning_rely|by eapply known_rely| |].
  - intros γ2 nx v Ht2 Hc2. eapply safe_or_head; [done|]. intros γ3 a Hr3 Ha. apply cwp_ret, cwp_ret.
    split; [by eapply thr_rely|by right].
  - intros γ2 nx Hsc2 Hnx. eapply safe_ptr_filter; [apply Hnx; lia|]. intros γ3 Hr3. rewrite decide_True by lia.
    apply cwp_ret. apply (IH (S k)); [by eapply scanning_rely|eapply known_rely; [apply Hnx; lia|done]|lia|lia].
Qed.

(** The boundary of a scan is the last shard that is linked, and the last of all once
    nobody can send. *)
Lemma safe_boundary {A} (P : Prop) mine c r snt rcv (f : Z → prog (lubqE T) A) Φ γ :
  thr i false mine c r snt rcv γ → (P → shut γ) →
  (∀ γ' b sh, ch_rely i γ γ' → known γ' b sh → (b < B)%nat →
     scanning P (λ _, False) b 0 0 mine c r snt rcv γ' → safe (f sh) Φ γ') →
  safe (act (LLoad RegTail) ≫= f) Φ γ.
Proof.
  intros Ht HP Hf. apply safe_load. intros γ' s Hr HI. exists (reg_tail s). split; [done|].
  pose proof (hv_tail _ _ _ _ HI) as Hb. pose proof (hv_order _ _ _ _ HI) as Ho.
  assert (known γ' (cg_tail γ') (reg_tail s)) as Hk by (split; [done|]; split; [lia|by eapply known_pos]).
  eapply Hf; [done|done|by eapply position_bound|]. split; [by eapply thr_rely|by exists (reg_tail s)| |intros; lia].
  intros HPt. destruct (rl_shut _ _ _ Hr (HP HPt)) as (Hs & _). split; [done|].
  destruct (hv_free _ _ _ _ HI (proj1 Hs)) as (_ & _ & ? & _). lia.
Qed.

(** Where a scan starts. *)
Lemma safe_start {A} cursor b (f : Z → prog (lubqE T) A) Φ γ :
  cursor_known γ cursor →
  (∀ γ' st sh, ch_rely i γ γ' → known γ' st sh → (st ≤ b)%nat → safe (f sh) Φ γ') →
  safe (start ← ptr_filter cursor (Z.of_nat b); start ← or_head start; f start) Φ γ.
Proof.
  intros Hc Hf. assert (∀ γ', ch_rely i γ γ' → safe (start ← or_head 0; f start) Φ γ') as H0.
  { intros γ' Hr. unfold or_head. simpl (0 =? 0). apply safe_head. intros γ2 sh Hr2 Hsh.
    eapply Hf; [by eapply ch_rely_trans|done|lia]. }
  destruct Hc as [->|[k Hk]].
  - unfold ptr_filter. simpl (0 =? 0). apply cwp_bind, cwp_ret. apply H0. apply ch_rely_refl.
  - eapply safe_ptr_filter; [done|]. intros γ' Hr. case_decide as E; [|by apply H0].
    pose proof (known_rely _ _ _ _ _ Hk Hr) as Hk'. unfold or_head.
    rewrite (proj2 (Z.eqb_neq _ _)) by (destruct Hk as (_ & _ & ?); lia). apply cwp_bind, cwp_ret. by eapply Hf.
Qed.

(** What one pass over the shards delivers. *)
Definition passed (P : Prop) mine c r snt rcv (o : option T) (cursor : Z) γ : Prop :=
  cursor_known γ cursor ∧ thr i false mine c r snt (rcv ++ option_list o) γ ∧ (o = None → P → all_drained γ).

(** A shard once known stays known. *)
Lemma safe_keep {A} k sh (p : prog (lubqE T) A) Φ γ :
  known γ k sh → safe p Φ γ → safe p (λ a γ', Φ a γ' ∧ known γ' k sh) γ.
Proof.
  intros Hk. apply cwp_frame; [intros γ1 γ2 H1 Hr; by eapply known_rely| |done].
  intros γ1 γ2 H1 Hg. eapply known_rely; [done|]. apply (Hg (S i)). lia.
Qed.

Lemma safe_scan_rest n P b st sh mine c r snt rcv γ :
  scanning P (λ _, False) b st (S b) mine c r snt rcv γ → known γ st sh → (st ≤ b < n)%nat →
  safe (found ← scan_prefix n (Z.of_nat b) (Z.of_nat st);
        match found with
        | Some (value, cursor) => Ret (Some value, cursor)
        | None => nx ← act (LLoad (ShNext sh)); cursor ← or_head nx; Ret (None, cursor)
        end) (λ '(v, cursor) γ', passed P mine c r snt rcv v cursor γ') γ.
Proof.
  intros Hsc Hst Hle. apply cwp_bind. unfold scan_prefix. eapply safe_head. intros γ1 hd Hr1 Hhd.
  eapply cwp_mono; [apply (safe_keep st sh); [by eapply known_rely|]; eapply (safe_scan_prefix n 0 hd P _ b st)|];
    [eapply scanning_rely; [by apply scanning_prefix|done]|done|lia|lia|].
  intros [[v cur]|] γ2 [Hfound Hst2]; [destruct Hfound as [Ht2 Hc2]; apply cwp_ret; by split|].
  eapply safe_next; [done|]. intros γ3 nx Hr3 Hnx. eapply safe_or_head.
  { destruct Hnx as [[-> _]|Hnx]; [by left|right; eauto]. }
  intros γ4 a Hr4 Ha. apply cwp_ret. pose proof (scanning_rely _ _ _ _ _ _ _ _ _ _ _ _ Hfound (ch_rely_trans _ _ _ _ Hr3 Hr4)) as Hsc4.
  split; [by right|]. split; [rewrite app_nil_r; apply Hsc4|]. intros _. by eapply scanning_drained.
Qed.

Lemma safe_scan_once n P cursor mine c r snt rcv γ :
  thr i false mine c r snt rcv γ → (P → shut γ) → cursor_known γ cursor → (B < n)%nat →
  safe (scan_once n cursor) (λ '(v, cursor) γ', passed P mine c r snt rcv v cursor γ') γ.
Proof.
  intros Ht HP Hc Hn. unfold scan_once. eapply safe_boundary; [done|done|]. intros γ1 b bs Hr1 Hb Hlt Hsc1.
  rewrite (proj2 (Z.eqb_neq bs 0)) by (destruct Hb as (_ & _ & ?); lia).
  eapply safe_id; [apply Hb|]. intros γ2 s2 Hr2 _. pose proof (cursor_grown _ _ _ Hc (rely_grown _ _ Hr1)) as Hc1.
  eapply safe_start; [eapply cursor_grown; [done|by apply rely_grown]|]. intros γ3 st sh Hr3 Hst Hle.
  rewrite (proj2 (Z.eqb_neq sh 0)) by (destruct Hst as (_ & _ & ?); lia).
  eapply safe_id; [apply Hst|]. intros γ4 s4 Hr4 _.
  pose proof (scanning_rely _ _ _ _ _ _ _ _ _ _ _ _ Hsc1 (ch_rely_trans _ _ _ _ Hr2 (ch_rely_trans _ _ _ _ Hr3 Hr4))) as Hsc4.
  pose proof (known_rely _ _ _ _ _ Hst Hr4) as Hst4. apply cwp_bind.
  eapply cwp_mono; [apply (safe_keep st sh); [done|]; eapply (safe_scan_through n st sh P (λ _, False) b st)|];
    [by eapply scanning_empty|done|done|lia|].
  intros [[v cur]|] γ5 [Hfound Hst5]; [destruct Hfound as [Ht5 Hc5]; apply cwp_ret; by split|].
  apply safe_scan_rest; [done|done|lia].
Qed.

(** ** [try_recv] *)

Definition recv_answer mine c r snt rcv (res : T + TryRecvError) (cursor : Z) γ : Prop :=
  cursor_known γ cursor ∧
  match res with
  | inl v => thr i false mine c r snt (rcv ++ [v]) γ
  | inr Empty => thr i false mine c r snt rcv γ
  | inr Disconnected => thr i false mine c r snt rcv γ ∧ all_drained γ
  end.

Lemma safe_try_recv n cursor mine c r snt rcv γ :
  thr i false mine c r snt rcv γ → cursor_known γ cursor → (B < n)%nat →
  safe (try_recv n cursor) (λ '(res, cursor) γ', recv_answer mine c r snt rcv res cursor γ') γ.
Proof.
  intros Ht Hc Hn. unfold try_recv. apply cwp_bind. eapply cwp_mono; [by apply (safe_scan_once n False)|].
  intros [[v|] cur] γ1 (Hc1 & Ht1 & _); [by apply cwp_ret|]. simpl in Ht1. rewrite app_nil_r in Ht1.
  apply safe_load. intros γ2 s2 Hr2 HI2. exists (senders s2). split; [done|].
  pose proof (thr_rely _ _ _ _ _ _ _ _ _ Ht1 Hr2) as Ht2. pose proof (cursor_grown _ _ _ Hc1 (rely_grown _ _ Hr2)) as Hc2.
  destruct (Z.eqb_spec (senders s2) 0) as [E|Hne]; [|by apply cwp_ret]. cbn [negb]. apply cwp_bind.
  eapply cwp_mono; [apply (safe_scan_once n True); [exact Ht2| |exact Hc2|done]|].
  { intros _. by eapply senders_zero. }
  intros [[v|] cur'] γ3 (Hc3 & Ht3 & Hd3); apply cwp_ret; [by split|]. simpl in Ht3. rewrite app_nil_r in Ht3.
  split; [done|]. split; [done|]. by apply Hd3.
Qed.

End recv.
