(* ===== verification/ChanRecvBatch.v ===== *)
(** * The channel under interleaving: batch receivers

    The same as ChanRecv for [try_recv_batch_into] and [try_recv_batch], which fill
    a request from several shards. *)

From S2P Require Import Prelude Prog Conc Layout Head Geometry Shard Lubq ChanGhost ChanSteps ChanSend ChanRecv.

Section recv_batch.
Context {T Q : Type} `{SQ : ShardQueue T Q} `{BA : BoxAllocator} `{PR : Profile} (fuel : nat).
Context (N B : nat) (W : nat → Prop).
Context (Hfuel : (B + 1 < fuel)%nat) (Hmax : Z.of_nat B ≤ usize_max).
Context (i : nat) (Hi : (i < N)%nat).
Implicit Types (γ : chgh T) (s : lmem Q).
Notation inv := (ch_inv (SQ := SQ) N B).
Notation safe := (cwp (HH := chan_logged fuel i) (SP := chan_spurious) (log_inv (SQ := SQ) N B) ch_rely ch_guar (λ j _, W j) i).
Notation scanning := (scanning i).

(** One reservation of [n] values on a shard. *)
Lemma safe_pop_batch {A} k sh n values (f : list T → prog (lubqE T) A) P D b lo hi mine c r snt rcv Φ γ :
  scanning P D b lo hi mine c r snt rcv γ → known γ k sh →
  (∀ γ' got, grown γ γ' → (length got ≤ n)%nat → scanning P D b lo hi mine c r snt (rcv ++ got) γ' →
     ((length got < n)%nat → P → gone γ' k) → safe (f (values ++ got)) Φ γ') →
  safe (act (LQueue sh (QPopBatch (Z.of_nat n) values)) ≫= f) Φ γ.
Proof.
  intros Hsc Hk Hf. eapply safe_call; [done..| |simpl; lia|simpl; lia|].
  { intros γ' s Hr HI. exists k. by apply (known_rely i γ γ'). }
  intros γ' s k' x q Hr HI Hk' Hx Hq. cbn [qspec qcost fst snd] in Hq |- *. rewrite Nat.add_0_r, Nat2Z.id in Hq.
  pose proof (scanning_rely _ _ _ _ _ _ _ _ _ _ _ _ _ Hsc Hr) as Hsc'. pose proof (known_rely _ _ _ _ _ Hk Hr) as Hkn.
  exists (g_popped i sh n γ'). split; [apply guar_pop|]. split; [by eapply inv_popped|]. rewrite Nat2Z.id.
  split; [simpl; by rewrite app_nil_r, drop_app_length|].
  apply Hf; [by apply (rely_grown i) in Hr|apply firstn_le_length|by apply scanning_pop|].
  intros Hlt HP. destruct (sc_ended _ _ _ _ _ _ _ _ _ _ _ _ Hsc' HP) as [Hs _]. split; [done|]. simpl. intros a Ha.
  destruct Hkn as [Hkn _]. assert (a = sh) as -> by congruence. rewrite at_shard_eq.
  rewrite length_take in Hlt. apply drop_ge. lia.
Qed.

(** The request of [size] values, of which [got] were received. *)
Record filling (v0 : list T) (size : nat) (got : list T) (received : Z) (values : list T) (cursor : Z) γ : Prop := {
  fl_values : values = v0 ++ got;
  fl_received : received = Z.of_nat (length got);
  fl_le : (length got ≤ size)%nat;
  fl_cursor : cursor_known γ cursor
}.

Lemma filling_grown v0 size got received values cursor γ γ' :
  filling v0 size got received values cursor γ → grown γ γ' → filling v0 size got received values cursor γ'.
Proof. intros [] Hg. split; try done. by eapply cursor_grown. Qed.

(** What a scan that started with [rcv] received and the request [v0] delivers. *)
Definition filled_by (P : Prop) (D : nat → Prop) (b lo hi : nat) mine c r snt rcv v0 size
  (filled : bool) (received : Z) (values : list T) (cursor : Z) γ : Prop :=
  ∃ got, filling v0 size got received values cursor γ ∧
    if filled then thr i false mine c r snt (rcv ++ got) γ ∧ length got = size
    else scanning P D b lo hi mine c r snt (rcv ++ got) γ ∧ (length got < size)%nat.

Lemma filled_rely P D b lo hi mine c r snt rcv v0 size filled received values cursor γ γ' :
  filled_by P D b lo hi mine c r snt rcv v0 size filled received values cursor γ → ch_rely i γ γ' →
  filled_by P D b lo hi mine c r snt rcv v0 size filled received values cursor γ'.
Proof.
  intros (got & Hf & Hg) Hr. exists got. split; [eapply filling_grown; [done|by eapply rely_grown]|].
  destruct filled, Hg as [Hg ?]; (split; [|done]); [by eapply thr_rely|by eapply scanning_rely].
Qed.

(** The request after one more shard. *)
Lemma filled_step P D b lo k mine c r snt rcv v0 size got g cursor γ :
  scanning P D b lo k mine c r snt (rcv ++ got ++ g) γ → (length got < size)%nat → (length g ≤ size - length got)%nat →
  ((length g < size - length got)%nat → P → gone γ k) → cursor_known γ cursor →
  filled_by P D b lo (S k) mine c r snt rcv v0 size (Z.of_nat (length (got ++ g)) =? Z.of_nat size)
    (Z.of_nat (length (got ++ g))) (v0 ++ got ++ g) cursor γ.
Proof.
  intros Hsc Hlt Hlen Hgone Hc. exists (got ++ g). rewrite length_app. split; [split; try done; rewrite length_app; lia|].
  destruct (Z.eqb_spec (Z.of_nat (length got + length g)) (Z.of_nat size)); [split; [apply Hsc|lia]|].
  split; [|lia]. apply scanning_extend; [done|]. apply Hgone. lia.
Qed.

Context (size : nat) (Hsize : Z.of_nat size ≤ usize_max).

Lemma safe_batch_step k sh received values cursor P D b lo mine c r snt rcv v0 γ :
  filled_by P D b lo k mine c r snt rcv v0 size false received values cursor γ → known γ k sh →
  safe (scan_batch_step (Z.of_nat b) (Z.of_nat size) sh received values cursor)
    (λ '(filled, nx, received, values, cursor) γ',
       filled_by P D b lo (S k) mine c r snt rcv v0 size filled received values cursor γ' ∧
       ((k < b)%nat → known γ' (S k) nx)) γ.
Proof.
  intros (got & [-> -> Hle Hc] & Hsc & Hlt) Hk. unfold scan_batch_step. eapply safe_next; [done..|]. intros γ1 nx Hr1 Hnx.
  pose proof (scanning_rely _ _ _ _ _ _ _ _ _ _ _ _ _ Hsc Hr1) as Hsc1. pose proof (known_rely _ _ _ _ _ Hk Hr1) as Hk1.
  pose proof (cursor_grown _ _ _ Hc (rely_grown _ _ _ Hr1)) as Hc1.
  assert (cursor_known γ1 nx) as Hcn. { destruct Hnx as [[-> _]|Hnx]; [by left|right; eauto]. }
  assert ((k < b)%nat → known γ1 (S k) nx) as Hn1.
  { intros Hkb. destruct Hnx as [[_ El]|Hnx]; [|done]. destruct (sc_boundary _ _ _ _ _ _ _ _ _ _ _ _ Hsc1) as (a & _ & Hb & _). lia. }
  unfold usub at 1. rewrite (proj2 (Z.leb_le _ _)) by lia. apply cwp_bind, cwp_ret.
  apply cwp_bind. unfold pop_batch_from. apply safe_debug_assert; [by rewrite (proj2 (Z.eqb_neq _ _)) by lia|].
  replace (Z.of_nat size - Z.of_nat (length got)) with (Z.of_nat (size - length got)) by lia.
  eapply safe_pop_batch; [done|done|]. intros γ2 g Hg2 Hlen Hsc2 Hgone. rewrite <- !(assoc_L (++)) in *.
  unfold usub. rewrite !length_app. rewrite (proj2 (Z.leb_le _ _)) by lia. apply cwp_bind, cwp_ret, cwp_ret.
  rewrite <- !length_app. replace (Z.of_nat (length (v0 ++ got ++ g)) - Z.of_nat (length (v0 ++ got))) with (Z.of_nat (length g))
    by (rewrite !length_app; lia).
  destruct (Z.eqb_spec (Z.of_nat (length g)) 0) as [E|Hne]; cbn [negb].
  - apply cwp_ret. split; [|intros Hkb; eapply known_grown; [by apply Hn1|done]].
    destruct g; [|simpl in E; lia].
    pose proof (filled_step P D b lo k mine c r snt rcv v0 size got [] cursor γ2 Hsc2 Hlt Hlen Hgone) as Hend.
    rewrite app_nil_r in Hend |- *. rewrite (proj2 (Z.eqb_neq _ _)) in Hend by lia. apply Hend. by eapply cursor_grown.
  - unfold uadd. rewrite (proj2 (Z.leb_le _ _)) by lia. apply cwp_bind, cwp_ret.
    eapply safe_or_head; [done|done|by eapply cursor_grown|]. intros γ3 a Hr3 Ha. apply cwp_ret.
    rewrite <- Nat2Z.inj_add, <- length_app. split.
    + apply filled_step; [by eapply scanning_rely|done|done| |by right].
      intros Hl HP. eapply gone_rely; [by apply Hgone|done].
    + intros Hkb. eapply known_grown; [by apply Hn1|]. eapply grown_trans; [done|by eapply rely_grown].
Qed.

(** ** The scans *)

(** The outcome of a round: the rest of the loop's state is the next request. *)
Lemma safe_batch_through n k sh received values cursor P D b lo mine c r snt rcv v0 γ :
  filled_by P D b lo k mine c r snt rcv v0 size false received values cursor γ →
  known γ k sh → (k ≤ b)%nat → (b < k + n)%nat →
  safe (loop n (λ '(current, received, values, cursor),
    if current =? 0 then Ret (inr (false, received, values, cursor)) else
    id ← act (LId current);
    if Z.of_nat b <? id then Ret (inr (false, received, values, cursor)) else
    '(filled, nx, received, values, cursor) ←
      scan_batch_step (Z.of_nat b) (Z.of_nat size) current received values cursor;
    if filled : bool then Ret (inr (true, received, values, cursor)) else
    if id =? Z.of_nat b then Ret (inr (false, received, values, cursor)) else
    candidate ← ptr_filter nx (Z.of_nat b);
    Ret (inl (candidate, received, values, cursor))) (sh, received, values, cursor))
    (λ '(filled, received, values, cursor), filled_by P D b lo (S b) mine c r snt rcv v0 size filled received values cursor) γ.
Proof.
  revert k sh received values cursor γ. induction n as [|n IH]; intros k sh received values cursor γ Hfb Hk Hle Hn; [lia|].
  cbn [loop]. apply cwp_bind. rewrite (proj2 (Z.eqb_neq _ _)) by (destruct Hk as (_ & _ & ?); lia).
  eapply safe_id; [apply Hk|]. intros γ1 s1 Hr1 _. rewrite (proj2 (Z.ltb_ge _ _)) by lia. apply cwp_bind.
  eapply cwp_mono; [eapply (safe_batch_step k sh); [by eapply filled_rely|by eapply known_rely]|].
  intros [[[[[] nx] rec'] vals'] cur'] γ2 [Hfb2 Hnx]; [by apply cwp_ret, cwp_ret|].
  destruct (Z.eqb_spec (Z.of_nat k) (Z.of_nat b)) as [E|Hne].
  - apply cwp_ret, cwp_ret. assert (k = b) as -> by lia. done.
  - eapply safe_ptr_filter; [done|done|apply Hnx; lia|]. intros γ3 Hr3. rewrite decide_True by lia. apply cwp_ret.
    apply (IH (S k)); [by eapply filled_rely|eapply known_rely; [apply Hnx; lia|done]|lia|lia].
Qed.

Lemma safe_batch_prefix n k sh received values cursor P D b st mine c r snt rcv v0 γ :
  filled_by P D b 0 k mine c r snt rcv v0 size false received values cursor γ →
  known γ k sh → (k ≤ st ≤ b)%nat → (b < k + n)%nat →
  safe (loop n (λ '(current, received, values, cursor),
    if current =? 0 then Ret (inr (false, received, values, cursor)) else
    id ← act (LId current);
    if (Z.of_nat st <=? id) || (Z.of_nat b <? id) then Ret (inr (false, received, values, cursor)) else
    '(filled, nx, received, values, cursor) ←
      scan_batch_step (Z.of_nat b) (Z.of_nat size) current received values cursor;
    if filled : bool then Ret (inr (true, received, values, cursor)) else
    candidate ← ptr_filter nx (Z.of_nat b);
    Ret (inl (candidate, received, values, cursor))) (sh, received, values, cursor))
    (λ '(filled, received, values, cursor), filled_by P D b 0 st mine c r snt rcv v0 size filled received values cursor) γ.
Proof.
  revert k sh received values cursor γ. induction n as [|n IH]; intros k sh received values cursor γ Hfb Hk Hle Hn; [lia|].
  cbn [loop]. apply cwp_bind. rewrite (proj2 (Z.eqb_neq _ _)) by (destruct Hk as (_ & _ & ?); lia).
  eapply safe_id; [apply Hk|]. intros γ1 s1 Hr1 _. rewrite (proj2 (Z.ltb_ge (Z.of_nat b) _)) by lia. rewrite orb_false_r.
  destruct (Z.leb_spec (Z.of_nat st) (Z.of_nat k)) as [E|E].
  { apply cwp_ret, cwp_ret. assert (k = st) as -> by lia. by eapply filled_rely. }
  apply cwp_bind. eapply cwp_mono; [eapply (safe_batch_step k sh); [by eapply filled_rely|by eapply known_rely]|].
  intros [[[[[] nx] rec'] vals'] cur'] γ2 [Hfb2 Hnx]; [by apply cwp_ret, cwp_ret|].
  eapply safe_ptr_filter; [done|done|apply Hnx; lia|]. intros γ3 Hr3. rewrite decide_True by lia. apply cwp_ret.
  apply (IH (S k)); [by eapply filled_rely|eapply known_rely; [apply Hnx; lia|done]|lia|lia].
Qed.

(** The shard after [sh], or the first. *)
Lemma safe_next_cursor st sh γ :
  known γ st sh →
  safe (nx ← act (LLoad (ShNext sh)); or_head nx) (λ a γ', ch_rely i γ γ' ∧ ∃ k, known γ' k a) γ.
Proof.
  intros Hk. eapply safe_next; [done|done|done|]. intros γ1 nx Hr1 Hnx. unfold or_head.
  destruct (Z.eqb_spec nx 0) as [E|Hne].
  - change (act (LLoad RegHead)) with (act (E := lubqE T) (LLoad RegHead) ≫= Ret). eapply safe_head; [done|done|].
    intros γ2 hd Hr2 Hhd. split; [by eapply ch_rely_trans|eauto].
  - destruct Hnx as [[? _]|Hnx]; [done|]. split; [done|eauto].
Qed.

(** What one pass over the shards delivers. *)
Definition batch_passed (P : Prop) mine c r snt rcv v0 (received : Z) (values : list T) (cursor : Z) γ : Prop :=
  ∃ got, filling v0 size got received values cursor γ ∧ thr i false mine c r snt (rcv ++ got) γ ∧
    (got = [] → P → all_drained γ).

Lemma filled_passed P D b lo hi mine c r snt rcv v0 received values cursor γ :
  (0 < size)%nat → filled_by P D b lo hi mine c r snt rcv v0 size true received values cursor γ →
  batch_passed P mine c r snt rcv v0 received values cursor γ.
Proof.
  intros Hs (got & Hf & Ht & Hl). exists got. split; [done|]. split; [done|]. intros ->. simpl in Hl. lia.
Qed.

Lemma safe_batch_rest n P b st sh received values cursor mine c r snt rcv v0 γ :
  filled_by P (λ _, False) b st (S b) mine c r snt rcv v0 size false received values cursor γ →
  known γ st sh → (st ≤ b < n)%nat → (0 < size)%nat →
  safe ('(filled, received, values, cursor) ←
          scan_batch_prefix n (Z.of_nat b) (Z.of_nat st) (Z.of_nat size) received values cursor;
        if filled : bool then Ret (received, values, cursor) else
        cursor ← (if received =? 0 then nx ← act (LLoad (ShNext sh)); or_head nx else Ret cursor);
        Ret (received, values, cursor))
    (λ '(received, values, cursor), batch_passed P mine c r snt rcv v0 received values cursor) γ.
Proof.
  intros Hfb Hst Hle Hs. apply cwp_bind. unfold scan_batch_prefix. eapply safe_head; [done|done|]. intros γ1 hd Hr1 Hhd.
  eapply cwp_mono; [apply (safe_keep fuel N B W i Hfuel Hi st sh); [by eapply known_rely|];
    eapply (safe_batch_prefix n 0 hd _ _ _ P (λ k, (st ≤ k ≤ b)%nat) b st)|]; [|done|lia|lia|].
  { destruct (filled_rely _ _ _ _ _ _ _ _ _ _ _ _ _ _ _ _ _ _ Hfb Hr1) as (got & Hf & Hsc & Hlt).
    exists got. split; [done|]. split; [by apply scanning_prefix|done]. }
  intros [[[[] rec'] vals'] cur'] γ2 [Hfb2 Hst2]; [apply cwp_ret; by eapply filled_passed|].
  destruct Hfb2 as (got & Hf & Hsc & Hlt). destruct (Z.eqb_spec rec' 0) as [E|Hne].
  - apply cwp_bind. eapply cwp_mono; [by eapply safe_next_cursor|]. intros a γ3 [Hr3 Ha]. apply cwp_ret.
    exists got. destruct Hf. split; [split; try done; by right|].
    pose proof (scanning_rely _ _ _ _ _ _ _ _ _ _ _ _ _ Hsc Hr3) as Hsc3. split; [apply Hsc3|].
    intros _. by eapply scanning_drained.
  - apply cwp_bind, cwp_ret, cwp_ret. exists got. split; [done|]. split; [apply Hsc|]. intros ->.
    by rewrite (fl_received _ _ _ _ _ _ _ Hf) in Hne.
Qed.

Lemma safe_scan_batch_once n P cursor v0 mine c r snt rcv γ :
  thr i false mine c r snt rcv γ → (P → shut γ) → cursor_known γ cursor → (B < n)%nat → (0 < size)%nat →
  safe (scan_batch_once n cursor v0 (Z.of_nat size))
    (λ '(received, values, cursor), batch_passed P mine c r snt rcv v0 received values cursor) γ.
Proof.
  intros Ht HP Hc Hn Hs. unfold scan_batch_once. apply safe_debug_assert; [by rewrite (proj2 (Z.eqb_neq _ _)) by lia|].
  eapply safe_boundary; [done..|]. intros γ1 b bs Hr1 Hb Hlt Hsc1.
  rewrite (proj2 (Z.eqb_neq bs 0)) by (destruct Hb as (_ & _ & ?); lia).
  eapply safe_id; [apply Hb|]. intros γ2 s2 Hr2 _. pose proof (cursor_grown _ _ _ Hc (rely_grown _ _ _ Hr1)) as Hc1.
  eapply safe_start; [done|done|eapply cursor_grown; [done|by eapply rely_grown]|]. intros γ3 st sh Hr3 Hst Hle.
  rewrite (proj2 (Z.eqb_neq sh 0)) by (destruct Hst as (_ & _ & ?); lia).
  eapply safe_id; [apply Hst|]. intros γ4 s4 Hr4 _.
  pose proof (scanning_rely _ _ _ _ _ _ _ _ _ _ _ _ _ Hsc1 (ch_rely_trans _ _ _ _ Hr2 (ch_rely_trans _ _ _ _ Hr3 Hr4))) as Hsc4.
  pose proof (known_rely _ _ _ _ _ Hst Hr4) as Hst4. apply cwp_bind.
  eapply cwp_mono; [apply (safe_keep fuel N B W i Hfuel Hi st sh); [done|];
    eapply (safe_batch_through n st sh _ _ _ P (λ _, False) b st)|]; [|done|done|lia|].
  { exists []. split; [split; [by rewrite app_nil_r|done|simpl; lia|by left]|].
    rewrite app_nil_r. split; [by eapply scanning_empty|simpl; lia]. }
  intros [[[[] rec'] vals'] cur'] γ5 [Hfb Hst5]; [apply cwp_ret; by eapply filled_passed|].
  apply safe_batch_rest; [done|done|lia|done].
Qed.

(** ** [try_recv_batch_into] *)

Definition batch_received mine c r snt rcv v0 (res : Z + TryRecvError) (values : list T) (cursor : Z) γ : Prop :=
  ∃ got, values = v0 ++ got ∧ cursor_known γ cursor ∧ thr i false mine c r snt (rcv ++ got) γ ∧
    match res with
    | inl n => n = Z.of_nat (length got) ∧ (length got ≤ size)%nat
    | inr e => got = [] ∧ (e = Disconnected → all_drained γ)
    end.

Lemma safe_try_recv_batch_into n cursor v0 mine c r snt rcv γ :
  thr i false mine c r snt rcv γ → cursor_known γ cursor → (B < n)%nat →
  safe (try_recv_batch_into n cursor v0 (Z.of_nat size))
    (λ '(res, values, cursor), batch_received mine c r snt rcv v0 res values cursor) γ.
Proof.
  intros Ht Hc Hn. unfold try_recv_batch_into. destruct (Z.eqb_spec (Z.of_nat size) 0) as [E|Hne].
  { apply cwp_ret. exists []. rewrite !app_nil_r. split; [done|]. split; [done|]. split; [done|]. split; [done|simpl; lia]. }
  apply cwp_bind. eapply cwp_mono; [apply (safe_scan_batch_once n False); [done|done|done|done|lia]|].
  intros [[rec vals] cur] γ1 (got & Hf & Ht1 & _). destruct Hf as [-> -> Hle Hc1].
  destruct (Z.eqb_spec (Z.of_nat (length got)) 0) as [E|Hne1]; cbn [negb].
  2: { apply cwp_ret. exists got. done. }
  destruct got; [|simpl in E; lia]. rewrite !app_nil_r in *. apply safe_load. intros γ2 s2 Hr2 HI2. exists (senders s2).
  split; [done|]. pose proof (thr_rely _ _ _ _ _ _ _ _ _ Ht1 Hr2) as Ht2.
  pose proof (cursor_grown _ _ _ Hc1 (rely_grown _ _ _ Hr2)) as Hc2.
  destruct (Z.eqb_spec (senders s2) 0) as [E2|Hne2]; cbn [negb].
  2: { apply cwp_ret. exists []. by rewrite !app_nil_r. }
  apply cwp_bind. eapply cwp_mono; [apply (safe_scan_batch_once n True); [exact Ht2| |exact Hc2|done|lia]|].
  { intros _. by eapply senders_zero. }
  intros [[rec vals] cur'] γ3 (got & Hf & Ht3 & Hd3). destruct Hf as [-> -> Hle3 Hc3]. apply cwp_ret. exists got.
  split; [done|]. split; [done|]. split; [done|].
  destruct (Z.eqb_spec (Z.of_nat (length got)) 0) as [E3|Hne3]; [|done].
  destruct got; [|simpl in E3; lia]. split; [done|]. intros _. by apply Hd3.
Qed.

End recv_batch.
