(* ===== verification/ChanSpec.v ===== *)
(** * Threads that share a channel

    Any number of threads run scripts of channel operations on one channel: they
    clone, use and drop senders, and receive one value or a batch at a time.  Every
    interleaving of their accesses is considered; a call on a shard is one access.
    Each value sent is received at most once and in the order of its shard, no two
    senders share a shard, and a receiver that is told [Disconnected] knows that
    everything that was ever sent has been received. *)

From S2P Require Import Prelude Prog Conc Layout Head Geometry Instances SpmcQueue Shard Lubq LubqInv LubqSender ChanGhost ChanSteps ChanSend ChanRecv ChanRecvBatch.

(** ** Scripts *)

(** Senders are named by their position among those the thread holds; a command on a
    sender the thread does not hold cannot be written and is skipped. *)
Inductive kcmd (T : Type) :=
| KClone (h : nat)
| KSend (h : nat) (v : T)
| KSendBatch (h : nat) (vs : list T)
| KDrop (h : nat)
| KRecv
| KRecvBatch (size : nat).
Arguments KClone {T} h.
Arguments KSend {T} h v.
Arguments KSendBatch {T} h vs.
Arguments KDrop {T} h.
Arguments KRecv {T}.
Arguments KRecvBatch {T} size.

(** What a thread has when it ends: its senders, what it sent, and the answers to its
    receive calls. *)
Record kreport (T : Type) := mkReport {
  rp_senders : list Z;
  rp_sent : list T;
  rp_answers : list (list T + TryRecvError)
}.
Arguments mkReport {T} _ _ _.
Arguments rp_senders {T} _.
Arguments rp_sent {T} _.
Arguments rp_answers {T} _.

Definition answer_values {T} (a : list T + TryRecvError) : list T := match a with inl vs => vs | inr _ => [] end.

Definition rp_values {T} (l : list (list T + TryRecvError)) : list T := concat (answer_values <$> l).

Section scripts.
Context {T : Type} `{Profile} (fuel : nat).

Fixpoint krun (cmds : list (kcmd T)) (mine : list Z) (cursor : Z) (snt : list T)
  (out : list (list T + TryRecvError)) : prog (lubqE T) (kreport T) :=
  match cmds with
  | [] => Ret (mkReport mine snt out)
  | KClone h :: cmds =>
      match mine !! h with
      | Some _ => a ← Sender_clone fuel; krun cmds (mine ++ [a]) cursor snt out
      | None => krun cmds mine cursor snt out
      end
  | KSend h v :: cmds =>
      match mine !! h with
      | Some sh => send sh v;; krun cmds mine cursor (snt ++ [v]) out
      | None => krun cmds mine cursor snt out
      end
  | KSendBatch h vs :: cmds =>
      match mine !! h with
      | Some sh => send_batch sh vs;; krun cmds mine cursor (snt ++ vs) out
      | None => krun cmds mine cursor snt out
      end
  | KDrop h :: cmds =>
      match mine !! h with
      | Some sh => Sender_drop sh;; krun cmds (take h mine ++ drop (S h) mine) cursor snt out
      | None => krun cmds mine cursor snt out
      end
  | KRecv :: cmds =>
      '(res, cursor) ← try_recv fuel cursor;
      krun cmds mine cursor snt (out ++ [match res with inl v => inl [v] | inr e => inr e end])
  | KRecvBatch size :: cmds =>
      '(res, cursor) ← try_recv_batch fuel cursor (Z.of_nat size);
      krun cmds mine cursor snt (out ++ [res])
  end.

(** The creator of the channel clones its sender [k] times. *)
Fixpoint clones (k : nat) (shs : list Z) : prog (lubqE T) (list Z) :=
  match k with
  | O => Ret shs
  | S k => a ← Sender_clone fuel; clones k (shs ++ [a])
  end.

Definition spawn (k : nat) : prog (lubqE T) (list Z) := '(sh, _) ← channel_with; clones k [sh].

(** The first threads get one sender each; every thread gets a receiver. *)
Definition chan_threads (shs : list Z) (scripts : list (list (kcmd T))) : list (prog (lubqE T) (kreport T)) :=
  imap (λ i cmds, krun cmds (option_list (shs !! i)) Receiver_clone [] []) scripts.

End scripts.

Definition kcost {T} (c : kcmd T) : nat :=
  match c with KClone _ => 2 | KSend _ _ => 1 | KSendBatch _ vs => length vs | _ => 0 end.

Definition script_cost {T} (cmds : list (kcmd T)) : nat := sum_list (kcost <$> cmds).

Definition clones_in {T} (cmds : list (kcmd T)) : Prop := ∃ h, KClone h ∈ cmds.

(** ** A thread runs its script *)

Section run.
Context {T Q : Type} `{SQ : ShardQueue T Q} `{BA : BoxAllocator} `{PR : Profile} (fuel : nat).
Context (N B : nat) (W : nat → Prop).
Context (Hfuel : (B + 1 < fuel)%nat) (Hmax : Z.of_nat B ≤ usize_max).
Context (i : nat) (Hi : (i < N)%nat).
Implicit Types (γ : chgh T) (s : lmem Q).
Notation inv := (ch_inv (SQ := SQ) N B).
Notation safe := (cwp (HH := chan_logged fuel i) (SP := chan_spurious) (log_inv (SQ := SQ) N B) ch_rely ch_guar (λ j _, W j) i).

(** Having been told [Disconnected]. *)
Definition told (out : list (list T + TryRecvError)) γ : Prop := inr Disconnected ∈ out → all_drained γ.

Lemma safe_told {A} out (p : prog (lubqE T) A) Φ γ :
  told out γ → safe p Φ γ → safe p (λ a γ', Φ a γ' ∧ told out γ') γ.
Proof.
  intros Ht. apply cwp_frame; [| |done].
  - intros γ1 γ2 H1 Hr Hin. eapply drained_rely; [by apply H1|done].
  - intros γ1 γ2 H1 Hg Hin. eapply drained_rely; [by apply H1|]. apply (Hg (S i)). lia.
Qed.

Lemma told_rely out γ γ' : told out γ → ch_rely i γ γ' → told out γ'.
Proof. intros Ht Hr Hin. eapply drained_rely; [by apply Ht|done]. Qed.

Lemma told_app out a γ : told out γ → (a = inr Disconnected → all_drained γ) → told (out ++ [a]) γ.
Proof. intros Ht Ha Hin. apply elem_of_app in Hin as [Hin|Hin%list_elem_of_singleton]; [by apply Ht|by apply Ha]. Qed.

Lemma safe_cursor {A} cursor (p : prog (lubqE T) A) Φ γ :
  cursor_known γ cursor → safe p Φ γ → safe p (λ a γ', Φ a γ' ∧ cursor_known γ' cursor) γ.
Proof.
  intros Hc. apply cwp_frame; [| |done].
  - intros γ1 γ2 H1 Hr. eapply cursor_grown; [done|by eapply rely_grown].
  - intros γ1 γ2 H1 Hg. eapply cursor_grown; [done|]. eapply (rely_grown (S i)), Hg. lia.
Qed.

Lemma values_app out a : rp_values (T := T) (out ++ [a]) = rp_values out ++ answer_values a.
Proof. unfold rp_values. rewrite fmap_app, concat_app. simpl. by rewrite app_nil_r. Qed.

(** What a thread knows between two commands. *)
Record between (mine : list Z) (cursor : Z) (r : nat) (snt : list T) (out : list (list T + TryRecvError)) γ : Prop := {
  bt_thr : thr i false mine (length mine) r snt (rp_values out) γ;
  bt_cursor : cursor_known γ cursor;
  bt_told : told out γ
}.

(** Everything but the thread's own part survives an operation that does not receive. *)
Lemma safe_between {A} mine cursor r snt out (p : prog (lubqE T) A) Φ γ :
  between mine cursor r snt out γ → safe p Φ γ →
  safe p (λ a γ', (Φ a γ' ∧ cursor_known γ' cursor) ∧ told out γ') γ.
Proof. intros [Ht Hc Hd] Hp. apply safe_told; [done|]. by apply safe_cursor. Qed.

Lemma between_less mine cursor r r' snt out γ :
  between mine cursor r snt out γ → (r' ≤ r)%nat → between mine cursor r' snt out γ.
Proof. intros [[] Hc Hd] Hr. split; [split; try done; lia|done|done]. Qed.

Lemma safe_send_op {A} sh (q : qcall T unit) vs mine cursor r snt out (k : unit → prog (lubqE T) A) Φ γ :
  between mine cursor (length vs + r) snt out γ → sh ∈ mine →
  qcall_ok q → qcost q = length vs → (∀ l, qspec q l = (tt, l ++ vs)) →
  sent_of i (LQueue sh q) = entries i sh vs → recv_of i (LQueue sh q) tt = [] →
  (∀ γ', between mine cursor r (snt ++ vs) out γ' → safe (k tt) Φ γ') →
  safe (act (LQueue sh q) ≫= k) Φ γ.
Proof.
  intros Hb Hsh Hok Hc Hspec Es Er Hk. apply cwp_bind.
  eapply cwp_mono; [apply (safe_between _ _ _ _ _ _
    (λ _, thr i false mine (length mine) r (snt ++ vs) (rp_values out)) γ Hb)|
    intros [] γ' [[Ht Hcur] Hd]; apply Hk; by split].
  change (act (LQueue sh q)) with (act (E := lubqE T) (LQueue sh q) ≫= Ret).
  eapply (safe_push_call fuel N B W Hfuel i Hi sh q vs); [apply Hb|done..|]. intros γ' Ht. exact Ht.
Qed.

Lemma safe_recv_op mine cursor r snt out γ :
  between mine cursor r snt out γ →
  safe (try_recv fuel cursor) (λ '(res, cursor'),
    between mine cursor' r snt (out ++ [match res with inl v => inl [v] | inr e => inr e end])) γ.
Proof.
  intros [Ht Hc Hd]. eapply cwp_mono; [apply safe_told; [exact Hd|]; apply (safe_try_recv fuel N B W i Hfuel Hi fuel); [exact Ht|done|lia]|].
  intros [res cur] γ' [[Hc' Hres] Hd']. split; [|done|].
  - rewrite values_app. destruct res as [v|[]]; simpl; rewrite ?app_nil_r; [done|done|apply Hres].
  - apply told_app; [done|]. destruct res as [v|[]]; try done. intros _. apply Hres.
Qed.

Lemma safe_recv_batch_op size mine cursor r snt out γ :
  between mine cursor r snt out γ → Z.of_nat size ≤ usize_max →
  safe (try_recv_batch fuel cursor (Z.of_nat size)) (λ '(res, cursor'), between mine cursor' r snt (out ++ [res])) γ.
Proof.
  intros [Ht Hc Hd] Hs. unfold try_recv_batch. apply cwp_bind.
  eapply cwp_mono; [apply safe_told; [exact Hd|];
    apply (safe_try_recv_batch_into fuel N B W Hfuel i Hi size Hs fuel cursor []); [exact Ht|done|lia]|].
  intros [[res vals] cur] γ' [(got & -> & Hc' & Ht' & Hres) Hd']. apply cwp_ret. simpl. split; [|done|].
  - rewrite values_app. destruct res as [n|e]; [done|]. destruct Hres as [-> _]. done.
  - apply told_app; [done|]. destruct res as [n|e]; [done|]. intros [= ->]. by apply Hres.
Qed.

(** The sizes of the batches a script asks for are machine words. *)
Definition kcmd_ok (c : kcmd T) : Prop := match c with KRecvBatch size => Z.of_nat size ≤ usize_max | _ => True end.

Definition thread_ended (rep : kreport T) : chgh T → Prop := between (rp_senders rep) 0 0 (rp_sent rep) (rp_answers rep).

Lemma split_at (l : list Z) h sh : l !! h = Some sh → l = take h l ++ sh :: drop (S h) l.
Proof. intros Hh. by rewrite <- (take_drop_middle l h sh Hh) at 1. Qed.

Lemma safe_krun cmds mine cursor snt out γ :
  between mine cursor (script_cost cmds) snt out γ → Forall kcmd_ok cmds → (clones_in cmds → W i) →
  safe (krun fuel cmds mine cursor snt out) thread_ended γ.
Proof.
  revert mine cursor snt out γ. induction cmds as [|cmd cmds IH]; intros mine cursor snt out γ Hb Hok HW.
  { destruct Hb as [Ht Hc Hd]. split; [done|by left|done]. }
  apply Forall_cons in Hok as [Hcmd Hok].
  assert (clones_in cmds → W i) as HW'. { intros [h Hh]. apply HW. exists h. by right. }
  assert (∀ r, (script_cost cmds ≤ r)%nat → between mine cursor r snt out γ → 
    safe (krun fuel cmds mine cursor snt out) thread_ended γ) as Hskip.
  { intros r Hr Hb'. apply IH; [by eapply between_less|done|done]. }
  assert (script_cost (cmd :: cmds) = kcost cmd + script_cost cmds)%nat as Ecost by done. rewrite Ecost in Hb.
  destruct cmd as [h|h v|h vs|h| |size]; cbn [krun kcost] in Hb |- *.
  1-4: destruct (mine !! h) as [sh|] eqn:Eh; [|eapply Hskip; [|done]; lia].
  - apply cwp_bind. eapply cwp_mono; [eapply safe_between; [done|]; eapply (safe_clone fuel N B W Hfuel Hmax i Hi);
      [apply HW; exists h; by left|apply Hb|by intros ->]|].
    intros a γ' [[Ht Hc] Hd]. by apply IH.
  - apply (safe_send_op sh _ [v] mine cursor (script_cost cmds) snt out); try done; [by eapply list_elem_of_lookup_2|].
    intros γ' Hb'. by apply IH.
  - apply (safe_send_op sh _ vs mine cursor (script_cost cmds) snt out); try done; [by eapply list_elem_of_lookup_2|].
    intros γ' Hb'. by apply IH.
  - apply cwp_bind. eapply cwp_mono; [eapply safe_between; [done|];
      eapply (safe_drop fuel N B W Hfuel Hmax i Hi sh mine); [apply Hb|by apply split_at]|].
    intros [] γ' [[Ht Hc] Hd]. by apply IH.
  - apply cwp_bind. eapply cwp_mono; [by apply safe_recv_op|]. intros [res cur] γ' Hb'. by apply IH.
  - apply cwp_bind. eapply cwp_mono; [by apply safe_recv_batch_op|]. intros [res cur] γ' Hb'. by apply IH.
Qed.

End run.
