(* ===== verification/ChanProps.v ===== *)
(** * Correctness of a shared channel

    The channel after its creator has cloned senders for the threads satisfies the
    invariant of ChanGhost, so what ChanSpec says of a thread holds in every
    interleaving. *)

From S2P Require Import Prelude Prog Conc Layout Head Geometry Instances SpmcQueue Shard Lubq LubqInv LubqSender LubqSpec LubqProps ChanGhost ChanSteps ChanSend ChanRecv ChanRecvBatch ChanSpec.

(** ** The start *)

Section start.
Context {T Q : Type} `{SQ : ShardQueue T Q} `{BA : BoxAllocator} `{PR : Profile} (fuel : nat).
Implicit Types s : lmem Q.
Notation swp := (wp (H := lubq_handler fuel)).

Definition taken_shards (n : nat) : list (bool * list T) := replicate n (true, []).

Lemma find_idle_taken n : find_idle (taken_shards n) = None.
Proof. induction n as [|n IH]; [done|]. cbn. unfold taken_shards in IH. by rewrite IH. Qed.

Lemma acquire_taken n : spec_acquire (taken_shards n) = (n, taken_shards (S n)).
Proof.
  unfold spec_acquire. rewrite find_idle_taken. unfold taken_shards. rewrite length_replicate. f_equal.
  by rewrite <- replicate_cons_app.
Qed.

Lemma wp_clones k shs s :
  lrep shs (taken_shards (length shs)) 0 s → lw s = (Z.of_nat (length shs), 0) → (1 < fuel)%nat →
  Z.of_nat (length shs + k) ≤ usize_max →
  swp (clones fuel k shs) s (λ shs' s', lrep shs' (taken_shards (length shs')) 0 s' ∧
    lw s' = (Z.of_nat (length shs'), 0) ∧ length shs' = (length shs + k)%nat).
Proof.
  revert shs s. induction k as [|k IH]; intros shs s Hr Hw Hf Hmax.
  { apply wp_ret. by rewrite Nat.add_0_r. }
  injection Hw as Hw1 Hw2. cbn [clones]. apply wp_bind.
  eapply wp_mono; [apply (wp_Sender_clone fuel shs (taken_shards (length shs)) 0 s fuel); (done || lia)|].
  intros a s' (al' & [l Hal] & -> & Hr' & Hw'). rewrite acquire_taken in *. cbn [fst snd] in *.
  assert (length al' = S (length shs)) as El by (rewrite (lr_len _ _ _ _ Hr'); by apply length_replicate).
  assert (al' = shs ++ [sa al' (length shs)]) as Eal.
  { subst al'. rewrite length_app in El. destruct l as [|a [|]]; simpl in El; [lia| |lia].
    unfold sa. rewrite lookup_app_r, Nat.sub_diag by lia. done. }
  rewrite <- Eal. eapply wp_mono; [apply IH; rewrite ?El; [done| |done|lia]|].
  - rewrite Hw', Hw1. f_equal. lia.
  - intros shs' s2 (H1 & H2 & H3). split; [done|]. split; [done|lia].
Qed.

Lemma wp_spawn k :
  (1 < fuel)%nat → Z.of_nat (S k) ≤ usize_max →
  swp (spawn fuel k) (Core_new (Q := Q) (T := T)) (λ shs s, lrep shs (taken_shards (length shs)) 0 s ∧
    lw s = (Z.of_nat (length shs), 0) ∧ length shs = S k).
Proof.
  intros Hf Hmax. unfold spawn, channel_with. destruct (box_at_fresh ∅) as [_ Hpos]. apply wp_bind.
  eapply wp_act_bind; [reflexivity|]. simpl reg_head. rewrite (proj2 (Z.eqb_neq _ _)) by lia. apply wp_ret.
  apply (wp_clones k [box_at ∅]); [by apply lrep_new|done|done|done].
Qed.

(** ** The invariant at the start *)

(** The thread that gets the sender of a shard. *)
Definition start_holder (shs : list Z) (sh : Z) : option nat := fst <$> list_find (λ a, a = sh) shs.

Lemma start_holder_at shs j sh : NoDup shs → shs !! j = Some sh → start_holder shs sh = Some j.
Proof.
  intros Hn Hj. unfold start_holder. destruct (list_find (λ a, a = sh) shs) as [[j' a]|] eqn:E.
  - apply list_find_Some in E as (Hj' & -> & _). simpl. f_equal. by eapply NoDup_lookup.
  - apply list_find_None in E. eapply Forall_lookup_1 in E; [|done]. done.
Qed.

Lemma start_holder_inv shs j sh : start_holder shs sh = Some j → shs !! j = Some sh.
Proof.
  unfold start_holder. destruct (list_find (λ a, a = sh) shs) as [[j' a]|] eqn:E; [|done]. intros [= <-].
  by apply list_find_Some in E as (Hj' & -> & _).
Qed.

Definition start_ghost (shs : list Z) (scripts : list (list (kcmd T))) : chgh T :=
  mkCg shs (length shs) (length shs) (length shs - 1) (length shs) None (start_holder shs)
    (λ j, if decide (j < length shs)%nat then 1%nat else 0%nat) (λ _, []) [] [] (length shs)
    (λ j, default 0%nat (script_cost <$> scripts !! j)).

(** The positions, shards and senders all scripts together need. *)
Definition chan_budget (k : nat) (scripts : list (list (kcmd T))) : nat := (S k + sum_list (script_cost <$> scripts))%nat.

Lemma total_ones n N : (n ≤ N)%nat → total N (λ j, if decide (j < n)%nat then 1%nat else 0%nat) = n.
Proof.
  revert n. induction N as [|N IH]; intros n Hn; [by replace n with 0%nat by lia|]. rewrite total_S. cbv beta.
  destruct (decide (N < n)%nat) as [Hlt|Hge].
  - assert (n = S N) as -> by lia. rewrite (total_ext N _ (λ j, if decide (j < N)%nat then 1%nat else 0%nat)); [rewrite IH; lia|].
    intros j Hj. by rewrite !decide_True by lia.
  - rewrite IH; lia.
Qed.

Lemma total_lookup {X} (f : X → nat) (l : list X) :
  total (length l) (λ j, default 0%nat (f <$> l !! j)) = sum_list (f <$> l).
Proof.
  induction l as [|x l IH] using rev_ind; [done|]. rewrite length_app, Nat.add_1_r, total_S, fmap_app.
  rewrite lookup_app_r, Nat.sub_diag by lia. simpl.
  rewrite (total_ext (length l) _ (λ j, default 0%nat (f <$> l !! j))) by (intros j Hj; by rewrite lookup_app_l).
  rewrite IH. clear IH. induction (f <$> l); simpl; lia.
Qed.

Lemma start_inv k shs s scripts :
  lrep shs (taken_shards (length shs)) 0 s → lw s = (Z.of_nat (length shs), 0) → length shs = S k →
  (k < length scripts)%nat →
  ch_inv (SQ := SQ) (length scripts) (chan_budget k scripts) (start_ghost shs scripts) s.
Proof.
  intros Hr [= Hw1 Hw2] El Hk. pose proof (lr_nodup _ _ _ _ Hr) as Hnd.
  assert (∀ j sh, shs !! j = Some sh → sa shs j = sh) as Hsa by (intros j sh Hj; unfold sa; by rewrite Hj).
  assert (∀ j, (j < length shs)%nat → shs !! j = Some (sa shs j)) as Hlk.
  { intros j Hj. destruct (lookup_lt_is_Some_2 shs j Hj) as [a Ha]. by rewrite (Hsa _ _ Ha). }
  assert (∀ j sh, shs !! j = Some sh → ∃ x, shards s !! sh = Some x ∧ shard_is (start_ghost shs scripts) j sh x) as Hsh.
  { intros j sh Hj. destruct (lr_shard _ _ _ _ Hr j true []) as (q & Hq & Hqi).
    { apply lookup_replicate_2. by eapply lookup_lt_Some. }
    rewrite (Hsa _ _ Hj) in Hq. eexists. split; [done|]. split; simpl.
    - done.
    - by rewrite (start_holder_at shs j sh).
    - unfold link_of, sa. simpl. case_decide; [done|]. by rewrite lookup_ge_None_2 by lia.
    - eapply q_mono; [done|lia]. }
  pose proof (total_ones (length shs) (length scripts) ltac:(lia)) as Hones.
  pose proof (total_lookup script_cost scripts) as Hcost.
  split; simpl; try done.
  - rewrite (lr_head _ _ _ _ Hr). apply Hlk. lia.
  - rewrite (lr_tail _ _ _ _ Hr). apply Hlk. lia.
  - by rewrite firstn_all, (lr_owned _ _ _ _ Hr).
  - apply Hr.
  - lia.
  - lia.
  - apply Forall_lookup. intros j sh Hj. rewrite <- (Hsa _ _ Hj). apply Hr. by eapply lookup_lt_Some.
  - apply set_eq. intros a. rewrite elem_of_dom, elem_of_list_to_set. split; [apply Hr|].
    intros [j Hj]%list_elem_of_lookup. destruct (Hsh j a Hj) as (x & -> & _). eauto.
  - intros sh j Hj%start_holder_inv. split; [by eapply list_elem_of_lookup_2|].
    by rewrite decide_True by by eapply lookup_lt_Some.
  - by rewrite Hones.
  - intros j Hj. rewrite decide_False by lia. done.
  - unfold chan_budget. rewrite Hcost, El. lia.
  - rewrite Hones. lia.
Qed.

End start.

(** ** Logged executions *)

(** A pool of threads, the channel, and the logs of what was sent and received. *)
Notation chan_cfg T Q := (list (prog (lubqE T) (kreport T)) * (lmem Q * (clog T * clog T)))%type (only parsing).

Section executions.
Context {T Q : Type} `{SQ : ShardQueue T Q} `{BA : BoxAllocator} (fuel : nat).
Implicit Types (c : chan_cfg T Q).
#[local] Instance pool_run : Handler (lubqE T) (lmem Q) := lubq_handler fuel.
#[local] Instance pool_spurious : Spurious (lubqE T) (lmem Q) := lubq_spurious.

(** A thread performs its next access; what it pushed or took is logged. *)
Inductive log_step : chan_cfg T Q → chan_cfg T Q → Prop :=
| log_access ts i p s p' s' :
    ts !! i = Some p → prog_step (H := chan_logged fuel i) p s = Some (p', s') →
    log_step (ts, s) (<[i := p']> ts, s')
| log_spurious ts i p s p' :
    ts !! i = Some p → prog_spurious (H := chan_spurious) p s = Some p' →
    log_step (ts, s) (<[i := p']> ts, s).

(** Logging restricts nothing: the steps of the pool are the steps with their logs. *)
Lemma log_step_complete ts s logs ts' s' :
  conc_step (ts, s) (ts', s') ↔ ∃ logs', log_step (ts, (s, logs)) (ts', (s', logs')).
Proof.
  split.
  - intros Hs. inversion Hs as [ts0 i p s0 p' s1 Hi Hp|ts0 i p s0 p' Hi Hp]; subst.
    + destruct p as [|X e k| |]; simpl in Hp; try done. unfold handle, pool_run in Hp.
      destruct (lubq_handler fuel X e s) as [x s2| |] eqn:E; [|done..]. injection Hp as <- <-. eexists.
      eapply log_access; [done|]. simpl. unfold handle, chan_logged. simpl. by rewrite E.
    + exists logs. eapply log_spurious; [done|]. exact Hp.
  - intros [logs' Hs]. inversion Hs as [ts0 i p s0 p' s1 Hi Hp|ts0 i p s0 p' Hi Hp]; subst.
    + eapply step_access; [done|]. destruct p as [|X e k| |]; simpl in Hp |- *; try done.
      unfold handle, chan_logged in Hp. simpl in Hp. unfold handle, pool_run.
      destruct (lubq_handler fuel X e s) as [x s2| |]; [|done..]. by injection Hp as <- <- _.
    + eapply step_spurious; [done|]. exact Hp.
Qed.

(** A schedule with its logs. *)
Fixpoint log_sched (sched : list nat) c : option (chan_cfg T Q) :=
  match sched with
  | [] => Some c
  | i :: sched =>
      p ← c.1 !! i;
      '(p', s') ← prog_step (H := chan_logged fuel i) p c.2;
      log_sched sched (<[i := p']> c.1, s')
  end.

Lemma log_sched_rtc sched c c' : log_sched sched c = Some c' → rtc log_step c c'.
Proof.
  revert c. induction sched as [|i sched IH]; intros [ts s]; [by intros [= <-]|]. cbn [log_sched fst snd].
  destruct (ts !! i) as [p|] eqn:Hp; [|done]. cbn [mbind option_bind].
  destruct (prog_step (H := chan_logged fuel i) p s) as [[p' s']|] eqn:Hs; [|done]. intros Hr.
  eapply rtc_l; [by eapply log_access|]. by apply IH.
Qed.

Lemma log_sched_reach sched c :
  bool_decide (is_Some (log_sched sched c)) = true → rtc log_step c (default c (log_sched sched c)).
Proof. intros [c' Hc]%bool_decide_eq_true. rewrite Hc. simpl. by apply (log_sched_rtc sched). Qed.

End executions.

(** ** Histories *)

Section histories.
Context {T Q : Type} `{SQ : ShardQueue T Q} `{BA : BoxAllocator} `{PR : Profile} (fuel : nat).
Implicit Types (γ : chgh T) (s : lmem Q) (c : chan_cfg T Q).
#[local] Existing Instance pool_spurious.
#[local] Instance hist_run : Handler (lubqE T) (lmem Q) := pool_run fuel.

(** What the logs say of a configuration: each shard in memory holds what was pushed to
    it and not taken from it yet, in order; what threads report is what they pushed and
    took; [Disconnected] means that everything pushed was taken; senders do not share
    shards; and no thread has failed: one that clones senders may have given up waiting
    for the registry. *)
Record chan_history (scripts : list (list (kcmd T))) (ts : list (prog (lubqE T) (kreport T))) (s : lmem Q)
  (sent recv : clog T) : Prop := {
  chh_shard : ∀ sh x, shards s !! sh = Some x →
    ∃ n l, q_is n (sh_queue x) l ∧ by_shard sh sent = by_shard sh recv ++ l;
  chh_outside : ∀ sh, shards s !! sh = None → by_shard sh sent = by_shard sh recv;
  chh_report : ∀ i rep, ts !! i = Some (Ret rep) →
    by_thread i sent = rp_sent rep ∧ by_thread i recv = rp_values (rp_answers rep);
  chh_told : ∀ i rep, ts !! i = Some (Ret rep) → inr Disconnected ∈ rp_answers rep →
    ∀ sh, by_shard sh recv = by_shard sh sent;
  chh_senders : ∀ i j rep rep' sh, ts !! i = Some (Ret rep) → ts !! j = Some (Ret rep') →
    sh ∈ rp_senders rep → sh ∈ rp_senders rep' → i = j ∧ NoDup (rp_senders rep);
  chh_fine : ∀ i p, ts !! i = Some p →
    prog_fault p s = false ∧ p ≠ Panic ∧ (p = OutOfFuel → ∃ cmds, scripts !! i = Some cmds ∧ clones_in cmds)
}.

Context (scripts : list (list (kcmd T))) (k : nat).
Definition waiting (i : nat) : Prop := ∃ cmds, scripts !! i = Some cmds ∧ clones_in cmds.
Notation B := (chan_budget k scripts).
Notation linv := (log_inv (SQ := SQ) (length scripts) B).
Notation safe i := (cwp (HH := chan_logged fuel i) (SP := chan_spurious) linv ch_rely ch_guar (λ j _, waiting j) i).

(** The pool is well: the invariant holds and every thread is safe. *)
Definition pool_well c γ : Prop := linv γ c.2 ∧ ∀ i p, c.1 !! i = Some p → safe i p (thread_ended i) γ.

Lemma thread_ended_stable i : stable ch_rely i (thread_ended (T := T) i).
Proof.
  intros rep γ γ' [Ht Hc Hd] Hr. split; [by eapply thr_rely|by left|].
  intros Hin. eapply drained_rely; [by apply Hd|done].
Qed.

Lemma pool_well_others ts i p' γ γ' :
  (∀ j p, ts !! j = Some p → safe j p (thread_ended j) γ) → (i < length ts)%nat → ch_guar i γ γ' →
  safe i p' (thread_ended i) γ' → ∀ j p, <[i := p']> ts !! j = Some p → safe j p (thread_ended j) γ'.
Proof.
  intros Hts Hlt Hg Hp j p Hj. destruct (decide (i = j)) as [<-|Hne].
  - rewrite list_lookup_insert_eq in Hj by done. by injection Hj as <-.
  - rewrite list_lookup_insert_ne in Hj by done.
    eapply (cwp_rely _ _ _ _ ch_rg); [done|apply thread_ended_stable|by apply Hts|]. apply Hg. congruence.
Qed.

Lemma pool_well_step c c' γ :
  pool_well c γ → log_step fuel c c' →
  ∃ γ', pool_well c' γ' ∧ ∀ j, c.1 !! j = None → ch_rely j γ γ' ∧ c'.1 !! j = None.
Proof.
  intros [HI Hts] Hstep. destruct Hstep as [ts i p s p' s' Hi Hp|ts i p s p' Hi Hp]; simpl in *;
    pose proof (lookup_lt_Some _ _ _ Hi) as Hlt; pose proof (Hts i p Hi) as Hw;
    destruct p as [|X e f| |]; simpl in Hp, Hw; try done;
    (assert (∀ p' j, ts !! j = None → i ≠ j ∧ <[i := p']> ts !! j = None) as Hout;
      [intros q j Hj; assert (i ≠ j) by congruence; by rewrite list_lookup_insert_ne|]).
  - destruct (Hw γ s (ch_rely_refl i γ) HI) as [Hn _].
    destruct (handle e s) as [x s1| |]; [|done..]. injection Hp as <- <-.
    destruct Hn as (γ' & Hg & HI' & Hk). exists γ'. split; [split; [done|by eapply pool_well_others]|].
    intros j Hj. destruct (Hout (f x) j Hj) as [Hne ?]. split; [apply Hg; congruence|done].
  - destruct (Hw γ s (ch_rely_refl i γ) HI) as [_ Hs].
    destruct (spurious e s) as [x|]; [|done]. injection Hp as <-. exists γ.
    split; [split; [done|eapply pool_well_others; [done|done|apply guar_same|done]]|].
    intros j Hj. destruct (Hout (f x) j Hj) as [_ ?]. split; [apply ch_rely_refl|done].
Qed.

Lemma pool_well_reach c c' γ :
  pool_well c γ → rtc (log_step fuel) c c' → ∃ γ', pool_well c' γ' ∧ ∀ j, c.1 !! j = None → ch_rely j γ γ'.
Proof.
  intros Hw Hr. revert γ Hw. induction Hr as [c|c1 c2 c3 Hs _ IH]; intros γ Hw.
  { exists γ. split; [done|]. intros j _. apply ch_rely_refl. }
  destruct (pool_well_step c1 c2 γ Hw Hs) as (γ' & Hw' & Hr1). destruct (IH γ' Hw') as (γ'' & Hw'' & Hr2).
  exists γ''. split; [done|]. intros j Hj. destruct (Hr1 j Hj) as [? Hj']. eapply ch_rely_trans; [done|by apply Hr2].
Qed.

Lemma pool_history ts s sent recv γ : pool_well (ts, (s, (sent, recv))) γ → chan_history scripts ts s sent recv.
Proof.
  intros [[HI [= -> ->]] Hts]. simpl in HI, Hts.
  assert (∀ i rep, ts !! i = Some (Ret rep) → thread_ended i rep γ) as Hret by (intros i rep Hi; exact (Hts i _ Hi)).
  split.
  - intros sh x Hx. assert (sh ∈ cg_all γ) as [j Hj]%list_elem_of_lookup.
    { apply (elem_of_list_to_set (C := gset Z)). rewrite <- (hv_dom _ _ _ _ HI). by apply elem_of_dom_2 in Hx. }
    destruct (hv_shard _ _ _ _ HI j sh Hj) as (y & Hy & Hsy). rewrite Hx in Hy. injection Hy as <-.
    eexists _, _. split; [apply Hsy|apply HI].
  - intros sh Hsh. rewrite (hv_log _ _ _ _ HI), (hv_outside _ _ _ _ HI); [by rewrite app_nil_r|]. intros Hin.
    apply not_elem_of_dom in Hsh. apply Hsh. rewrite (hv_dom _ _ _ _ HI). by apply elem_of_list_to_set.
  - intros i rep Hi. destruct (Hret i rep Hi) as [Ht _ _]. split; apply Ht.
  - intros i rep Hi Hin sh. destruct (Hret i rep Hi) as [_ _ Hd]. destruct (Hd Hin) as [_ Hv].
    rewrite (hv_log _ _ _ _ HI). destruct (decide (sh ∈ cg_all γ)); [rewrite Hv by done|rewrite (hv_outside _ _ _ _ HI) by done];
      by rewrite app_nil_r.
  - intros i j rep rep' sh Hi Hj Hsi Hsj. destruct (Hret i rep Hi) as [Hti _ _], (Hret j rep' Hj) as [Htj _ _].
    apply Hti in Hsi. apply Htj in Hsj. split; [congruence|apply Hti].
  - intros i p Hi. specialize (Hts i p Hi). destruct p as [rep|X e kk| |]; simpl in *; try done; (split; [|by split]).
    destruct (Hts γ (s, (cg_sent γ, cg_recv γ)) (ch_rely_refl i γ) (conj HI eq_refl)) as [Hn _].
    unfold handle, chan_logged, hist_run, pool_run in *. simpl in Hn. by destruct (lubq_handler fuel X e s).
Qed.

(** Every thread of the start is safe. *)
Lemma threads_start_ok shs s0 :
  Forall (Forall kcmd_ok) scripts → (k < length scripts)%nat → (B + 1 < fuel)%nat → Z.of_nat B ≤ usize_max →
  run (spawn fuel k) Core_new = Done shs s0 →
  pool_well (chan_threads fuel shs scripts, (s0, ([], []))) (start_ghost shs scripts).
Proof.
  intros Hcm Hk Hf Hmax Hrun.
  assert (lrep shs (taken_shards (length shs)) 0 s0 ∧ lw s0 = (Z.of_nat (length shs), 0) ∧ length shs = S k) as (Hr & Hw & El).
  { assert (1 < fuel)%nat as Hf1 by lia. assert (Z.of_nat (S k) ≤ usize_max) as Hm1 by (unfold chan_budget in Hmax; lia).
    pose proof (wp_spawn fuel k Hf1 Hm1) as Hsp. unfold wp in Hsp. unfold hist_run, pool_run in Hrun. by rewrite Hrun in Hsp. }
  split; [split; [by apply start_inv|done]|]. intros i p Hp. apply list_lookup_imap_Some in Hp as (cmds & Hi & ->).
  pose proof (lookup_lt_Some _ _ _ Hi) as Hlt.
  apply (safe_krun fuel (length scripts) B waiting Hf Hmax i Hlt); [|by eapply (Forall_lookup_1 _ _ _ _ Hcm)|by exists cmds].
  split; [|by left|by intros ?%elem_of_nil].
  assert (length (option_list (shs !! i)) = if decide (i < length shs)%nat then 1%nat else 0%nat) as Elen.
  { case_decide as E; [by destruct (lookup_lt_is_Some_2 shs i E) as [a ->]|by rewrite lookup_ge_None_2 by lia]. }
  split; simpl; try done.
  - intros sh. trans (shs !! i = Some sh); [split; [apply start_holder_inv|apply start_holder_at; apply Hr]|].
    destruct (shs !! i) as [a|]; simpl; [rewrite list_elem_of_singleton; naive_solver|by rewrite elem_of_nil].
  - destruct (shs !! i); [apply NoDup_singleton|apply NoDup_nil_2].
  - by rewrite Hi.
Qed.

End histories.

Section theorems.
Context {T Q : Type} `{SQ : ShardQueue T Q} `{BA : BoxAllocator} `{PR : Profile} (fuel : nat).
#[local] Existing Instance pool_spurious.
#[local] Instance chan_pool_run : Handler (lubqE T) (lmem Q) := pool_run fuel.

(** The premises of a run: words fit, the fuel covers the work of the scripts, and the
    creator has handed out the senders. *)
Definition chan_started (scripts : list (list (kcmd T))) (k : nat) (shs : list Z) (s0 : lmem Q) : Prop :=
  Forall (Forall kcmd_ok) scripts ∧ (k < length scripts)%nat ∧ (chan_budget k scripts + 1 < fuel)%nat ∧
  Z.of_nat (chan_budget k scripts) ≤ usize_max ∧ run (spawn fuel k) Core_new = Done shs s0.

(** C6: any number of threads that share a channel, under every interleaving of their
    accesses, with the logs of the values each access pushed to a shard or took from
    it: every shard holds exactly what was pushed to it and not taken yet, in order, so
    the values taken from a shard are those pushed to it, in order, each once; what
    threads report is what their accesses pushed and took; after a thread was told
    [Disconnected] everything ever pushed has been taken and nothing is pushed any more;
    no two senders share a shard; no access is invalid and nothing panics. *)
Theorem lubq_threads_safe scripts k shs s0 ts1 s1 sent1 recv1 ts2 s2 sent2 recv2 :
  chan_started scripts k shs s0 →
  rtc (log_step fuel) (chan_threads fuel shs scripts, (s0, ([], []))) (ts1, (s1, (sent1, recv1))) →
  rtc (log_step fuel) (ts1, (s1, (sent1, recv1))) (ts2, (s2, (sent2, recv2))) →
  chan_history fuel scripts ts1 s1 sent1 recv1 ∧ chan_history fuel scripts ts2 s2 sent2 recv2 ∧
  (∀ i rep, ts1 !! i = Some (Ret rep) → inr Disconnected ∈ rp_answers rep → sent2 = sent1) ∧
  (∀ ts3 s3, conc_step (ts2, s2) (ts3, s3) →
     ∃ logs, log_step fuel (ts2, (s2, (sent2, recv2))) (ts3, (s3, logs))).
Proof.
  intros (Hcm & Hk & Hf & Hmax & Hrun) H1 H2.
  pose proof (threads_start_ok fuel scripts k shs s0 Hcm Hk Hf Hmax Hrun) as H0.
  destruct (pool_well_reach _ _ _ _ _ _ H0 H1) as (γ1 & Hok1 & _).
  destruct (pool_well_reach _ _ _ _ _ _ Hok1 H2) as (γ2 & Hok2 & Hr).
  split; [by eapply pool_history|]. split; [by eapply pool_history|].
  split; [|intros ts3 s3; apply log_step_complete]. intros i rep Hi Hin.
  assert (ts1 !! length ts1 = None) as Hout by (by apply lookup_ge_None). specialize (Hr _ Hout).
  destruct (proj2 Hok1 i _ Hi) as [_ _ Hd]. destruct (Hd Hin) as [Hs _]. destruct (rl_shut _ _ _ Hr Hs) as (_ & _ & E & _).
  destruct Hok1 as [[_ E1] _], Hok2 as [[_ E2] _]. simpl in E1, E2. congruence.
Qed.

End theorems.

(** ** A channel shared by three threads *)

(** The first thread sends, clones its sender, sends on the clone and drops both; the
    second sends a batch and drops its sender; the third receives until it is told that
    nothing is left. *)
Definition three_scripts : list (list (kcmd Z)) :=
  [[KSend 0 1; KClone 0; KSend 1 2; KDrop 0; KDrop 0];
   [KSendBatch 0 [10; 11; 12]; KDrop 0];
   [KRecv; KRecvBatch 2; KRecv; KRecvBatch 9; KRecv]].

Definition three_start : outcome (lmem (smem Z)) (list Z) :=
  run (H := lubq_handler (H := tiny_shard) 40) (spawn (H := debug_build) 40 1) (Core_new (H := tiny_shard)).
Definition three_mem : lmem (smem Z) := match three_start with Done _ s => s | _ => Core_new (H := tiny_shard) end.

(** The threads take turns; the receiver ends alone. *)
Definition three_sched1 : list nat := concat (replicate 3 [0; 1; 2]%nat) ++ concat (replicate 18 [0; 2]%nat).
Definition three_sched2 : list nat := replicate 56 2%nat.

Definition three_threads : list (prog (lubqE Z) (kreport Z)) * lmem (smem Z) :=
  (chan_threads (H := debug_build) 40 [1; 2] three_scripts, three_mem).
Definition three_logged : chan_cfg Z (smem Z) := (three_threads.1, (three_threads.2, ([], []))).
Definition three_mid : chan_cfg Z (smem Z) :=
  default three_logged (log_sched (SQ := tiny_shard) 40 three_sched1 three_logged).
Definition three_end : chan_cfg Z (smem Z) :=
  default three_mid (log_sched (SQ := tiny_shard) 40 three_sched2 three_mid).

(** What the third thread was answered. *)
Example three_answers :
  three_end.1 !! 2%nat = Some (Ret (mkReport [] [] [inl [1]; inl [10; 11]; inl [2]; inl [12]; inr Disconnected])).
Proof. vm_compute. reflexivity. Qed.

Lemma three_started : chan_started (SQ := tiny_shard) (PR := debug_build) 40 three_scripts 1 [1; 2] three_mem.
Proof.
  split; [repeat constructor; vm_compute; discriminate|]. split; [simpl; lia|]. split; [vm_compute; lia|].
  split; [vm_compute; discriminate|]. vm_compute. reflexivity.
Defined.

(** What was logged: the second thread's shard is 2, the clone's is 3. *)
Example three_logs :
  three_end.2.2 =
    ([(0%nat, 1, 1); (1%nat, 2, 10); (1%nat, 2, 11); (1%nat, 2, 12); (0%nat, 3, 2)],
     [(2%nat, 1, 1); (2%nat, 2, 10); (2%nat, 2, 11); (2%nat, 3, 2); (2%nat, 2, 12)]).
Proof. vm_compute. reflexivity. Qed.

Lemma three_reach_mid : rtc (log_step (SQ := tiny_shard) 40) three_logged three_mid.
Proof. unfold three_mid. apply (log_sched_reach (SQ := tiny_shard) 40 three_sched1 three_logged). vm_compute. reflexivity. Qed.

Lemma three_reach_end : rtc (log_step (SQ := tiny_shard) 40) three_mid three_end.
Proof. unfold three_end. apply (log_sched_reach (SQ := tiny_shard) 40 three_sched2 three_mid). vm_compute. reflexivity. Qed.

Lemma lubq_threads_safe_witness :
  chan_history (SQ := tiny_shard) 40 three_scripts three_mid.1 three_mid.2.1 three_mid.2.2.1 three_mid.2.2.2 ∧
  chan_history (SQ := tiny_shard) 40 three_scripts three_end.1 three_end.2.1 three_end.2.2.1 three_end.2.2.2.
Proof.
  assert (∀ c : chan_cfg Z (smem Z), c = (c.1, (c.2.1, (c.2.2.1, c.2.2.2)))) as E by (by intros [? [? [? ?]]]).
  pose proof three_reach_mid as H1. pose proof three_reach_end as H2. rewrite (E three_mid) in H1, H2. rewrite (E three_end) in H2.
  destruct (lubq_threads_safe (SQ := tiny_shard) (PR := debug_build) 40 three_scripts 1 [1; 2] three_mem
    _ _ _ _ _ _ _ _ three_started H1 H2) as (Ha & Hb & _).
  split; [exact Ha|exact Hb].
Defined.
