(* ===== verification/V8Block.v ===== *)
(** * Blocks, block lists and the free list of v8 (src/src/v8/block.rs,
    src/src/v8/freelist.rs)

    A v8 block is one allocation: a header, then [vblocks_per_block] virtual
    blocks, each with its own pair of publication counters and
    [slots_per_vblock] slots.  Detached blocks are passed around in owned
    intrusive lists and kept in a free list whose head word doubles as a lock. *)

From S2P Require Import Prelude Prog Layout Geometry.

(** ** Geometry *)

Record Config := mkConfig { slots_per_vblock : Z; vblocks_per_block : Z }.

Definition Config_default : Config := mkConfig 4096 32.

Inductive ConfigError := ZeroCapacity | LayoutOverflow.

Record Geometry := mkGeometry {
  config : Config;
  capacity : Z;
  g_layout : Layout;
  vblocks_offset : Z;
  vblock_stride : Z;
  g_slots_offset : Z
}.

Definition ok_or {A} (o : option A) : A + ConfigError :=
  match o with Some a => inl a | None => inr LayoutOverflow end.

Definition try_bind {A B} (r : A + ConfigError) (f : A → B + ConfigError) : B + ConfigError :=
  match r with inl a => f a | inr e => inr e end.

(** [header] is [Layout::new::<Block<T>>()], [vheader] is [Layout::new::<VBlock>()]
    and [slot] is [Layout::new::<T>()]. *)
Definition Geometry_new (header vheader slot : Layout) (config : Config) : Geometry + ConfigError :=
  if (slots_per_vblock config =? 0) || (vblocks_per_block config =? 0) then inr ZeroCapacity else
  try_bind (ok_or (n ← checked_mul (slots_per_vblock config) (vblocks_per_block config);
                   if n <=? usize_max / 2 then Some n else None)) (λ capacity,
  try_bind (ok_or (Layout_array slot (slots_per_vblock config))) (λ slots,
  try_bind (ok_or (Layout_extend vheader slots)) (λ '(vblock, slots_offset),
  let vblock := Layout_pad_to_align vblock in
  try_bind (ok_or (checked_mul (lsize vblock) (vblocks_per_block config))) (λ vblocks_size,
  try_bind (ok_or (Layout_from_size_align vblocks_size (lalign vblock))) (λ vblocks,
  try_bind (ok_or (Layout_extend header vblocks)) (λ '(layout, vblocks_offset),
  inl (mkGeometry config capacity (Layout_pad_to_align layout) vblocks_offset (lsize vblock)
         slots_offset))))))).

(** Byte offsets inside a block, as [vblock] and [slots] compute them. *)
Definition vblock_offset (g : Geometry) (index : Z) : Z := vblocks_offset g + index * vblock_stride g.

Definition slot_offset (g : Geometry) (slot : Layout) (vblock offset : Z) : Z :=
  vblocks_offset g + vblock * vblock_stride g + g_slots_offset g + offset * lsize slot.

(** ** Memory *)

Record VBlock (T : Type) := mkVBlock {
  v_produced : Z;
  v_consumed : Z;
  v_slots : list (option T)
}.
Arguments mkVBlock {T} _ _ _.
Arguments v_produced {T} _.
Arguments v_consumed {T} _.
Arguments v_slots {T} _.

Record Block8 (T : Type) := mkBlock8 {
  b_next : Z;
  consumed_vblocks : Z;
  b_vblocks : list (VBlock T)
}.
Arguments mkBlock8 {T} _ _ _.
Arguments b_next {T} _.
Arguments consumed_vblocks {T} _.
Arguments b_vblocks {T} _.

(** The queue's two heads, the head of the free list, and the heap. *)
Record vmem (T : Type) := mkVMem {
  producer_block : Z;
  producer_index : Z;
  consumer_block : Z;
  consumer_index : Z;
  fl_head : Z;
  vheap : gmap Z (Block8 T);
  vallocs : gmap Z Layout;
  vdropped : list T
}.
Arguments mkVMem {T} _ _ _ _ _ _ _ _.
Arguments producer_block {T} _.
Arguments producer_index {T} _.
Arguments consumer_block {T} _.
Arguments consumer_index {T} _.
Arguments fl_head {T} _.
Arguments vheap {T} _.
Arguments vallocs {T} _.
Arguments vdropped {T} _.

Definition set_producer_block {T} v (s : vmem T) :=
  mkVMem v (producer_index s) (consumer_block s) (consumer_index s) (fl_head s) (vheap s) (vallocs s) (vdropped s).
Definition set_producer_index {T} v (s : vmem T) :=
  mkVMem (producer_block s) v (consumer_block s) (consumer_index s) (fl_head s) (vheap s) (vallocs s) (vdropped s).
Definition set_consumer_block {T} v (s : vmem T) :=
  mkVMem (producer_block s) (producer_index s) v (consumer_index s) (fl_head s) (vheap s) (vallocs s) (vdropped s).
Definition set_consumer_index {T} v (s : vmem T) :=
  mkVMem (producer_block s) (producer_index s) (consumer_block s) v (fl_head s) (vheap s) (vallocs s) (vdropped s).
Definition set_fl_head {T} v (s : vmem T) :=
  mkVMem (producer_block s) (producer_index s) (consumer_block s) (consumer_index s) v (vheap s) (vallocs s) (vdropped s).
Definition set_vheap {T} v (s : vmem T) :=
  mkVMem (producer_block s) (producer_index s) (consumer_block s) (consumer_index s) (fl_head s) v (vallocs s) (vdropped s).
Definition set_vallocs {T} v (s : vmem T) :=
  mkVMem (producer_block s) (producer_index s) (consumer_block s) (consumer_index s) (fl_head s) (vheap s) v (vdropped s).
Definition set_vdropped {T} v (s : vmem T) :=
  mkVMem (producer_block s) (producer_index s) (consumer_block s) (consumer_index s) (fl_head s) (vheap s) (vallocs s) v.

Inductive vloc :=
| PBlock
| PIndex
| CBlock
| CIndex
| FlHead
| BNext (b : Z)
| ConsumedVBlocks (b : Z)
| VProduced (b i : Z)
| VConsumed (b i : Z).

Inductive v8E (T : Type) : Type → Type :=
| VLoad (l : vloc) : v8E T Z
| VStore (l : vloc) (v : Z) : v8E T unit
| VCas (weak : bool) (l : vloc) (old new : Z) : v8E T (Z + Z)
| VFetchAdd (l : vloc) (d : Z) : v8E T Z
| VWrite (b i j : Z) (v : T) : v8E T unit
| VRead (b i j : Z) : v8E T T
| VDropSlot (b i j : Z) : v8E T unit
| VAlloc (l : Layout) : v8E T Z
| VAllocError : v8E T Empty_set
| VDealloc (p : Z) (l : Layout) : v8E T unit
| VInit (b : Z) : v8E T unit
| VDropHeader (b : Z) : v8E T unit.
Arguments VLoad {T} l.
Arguments VStore {T} l v.
Arguments VCas {T} weak l old new.
Arguments VFetchAdd {T} l d.
Arguments VWrite {T} b i j v.
Arguments VRead {T} b i j.
Arguments VDropSlot {T} b i j.
Arguments VAlloc {T} l.
Arguments VAllocError {T}.
Arguments VDealloc {T} p l.
Arguments VInit {T} b.
Arguments VDropHeader {T} b.

Definition znth {A} (l : list A) (i : Z) : option A := if 0 <=? i then l !! Z.to_nat i else None.

Definition vblock_at {T} (s : vmem T) (b i : Z) : option (VBlock T) :=
  blk ← vheap s !! b; znth (b_vblocks blk) i.

Definition upd_block8 {T} b (f : Block8 T → Block8 T) (s : vmem T) : option (vmem T) :=
  blk ← vheap s !! b; Some (set_vheap (<[b := f blk]> (vheap s)) s).

Definition upd_vblock {T} b i (f : VBlock T → VBlock T) (s : vmem T) : option (vmem T) :=
  x ← vblock_at s b i;
  upd_block8 b (λ blk, mkBlock8 (b_next blk) (consumed_vblocks blk) (<[Z.to_nat i := f x]> (b_vblocks blk))) s.

Definition vrd {T} (l : vloc) (s : vmem T) : option Z :=
  match l with
  | PBlock => Some (producer_block s)
  | PIndex => Some (producer_index s)
  | CBlock => Some (consumer_block s)
  | CIndex => Some (consumer_index s)
  | FlHead => Some (fl_head s)
  | BNext b => b_next <$> vheap s !! b
  | ConsumedVBlocks b => consumed_vblocks <$> vheap s !! b
  | VProduced b i => v_produced <$> vblock_at s b i
  | VConsumed b i => v_consumed <$> vblock_at s b i
  end.

Definition vwr {T} (l : vloc) (v : Z) (s : vmem T) : option (vmem T) :=
  match l with
  | PBlock => Some (set_producer_block v s)
  | PIndex => Some (set_producer_index v s)
  | CBlock => Some (set_consumer_block v s)
  | CIndex => Some (set_consumer_index v s)
  | FlHead => Some (set_fl_head v s)
  | BNext b => upd_block8 b (λ k, mkBlock8 v (consumed_vblocks k) (b_vblocks k)) s
  | ConsumedVBlocks b => upd_block8 b (λ k, mkBlock8 (b_next k) v (b_vblocks k)) s
  | VProduced b i => upd_vblock b i (λ x, mkVBlock v (v_consumed x) (v_slots x)) s
  | VConsumed b i => upd_vblock b i (λ x, mkVBlock (v_produced x) v (v_slots x)) s
  end.

Definition set_slot {T} (j : Z) (x : option T) (vb : VBlock T) : VBlock T :=
  mkVBlock (v_produced vb) (v_consumed vb) (<[Z.to_nat j := x]> (v_slots vb)).

(** Moves the value of a slot out. *)
Definition vtake {T} (b i j : Z) (s : vmem T) : option (T * vmem T) :=
  vb ← vblock_at s b i; x ← znth (v_slots vb) j; v ← x;
  s' ← upd_vblock b i (set_slot j None) s; Some (v, s').

Definition vreply {X T} (o : option (X * vmem T)) : reply (vmem T) X :=
  match o with Some (x, s) => Next x s | None => Fault end.

(** The geometry [Geometry::new::<T>] computed for the queue. *)
Class V8Geometry := {
  geom : Geometry;
  nv : Z := vblocks_per_block (config geom);
  ns : Z := slots_per_vblock (config geom);
  v8_header : Layout;
  v8_vheader : Layout;
  v8_slot : Layout;
  v8_headers_ok : type_layout_ok v8_header ∧ type_layout_ok v8_vheader ∧ type_layout_ok v8_slot;
  v8_header_link : 8 ≤ lsize v8_header;
  v8_dims : 0 ≤ slots_per_vblock (config geom) ≤ usize_max ∧ 0 ≤ vblocks_per_block (config geom) ≤ usize_max;
  geom_ok : Geometry_new v8_header v8_vheader v8_slot (config geom) = inl geom
}.

Section handler.
Context {T : Type} `{V8Geometry} `{Allocator}.

#[export] Instance v8_handler : Handler (v8E T) (vmem T) := λ X e,
  match e in v8E _ X return vmem T → reply (vmem T) X with
  | VLoad l => λ s, vreply (v ← vrd l s; Some (v, s))
  | VStore l v => λ s, vreply (s' ← vwr l v s; Some (tt, s'))
  | VCas _ l old new => λ s, vreply (
      v ← vrd l s;
      if v =? old then s' ← vwr l new s; Some (inl v, s') else Some (inr v, s))
  | VFetchAdd l d => λ s, vreply (v ← vrd l s; s' ← vwr l (wrapping (v + d)) s; Some (v, s'))
  | VWrite b i j v => λ s, vreply (
      vb ← vblock_at s b i; _ ← znth (v_slots vb) j;
      s' ← upd_vblock b i (set_slot j (Some v)) s; Some (tt, s'))
  | VRead b i j => λ s, vreply (vtake b i j s)
  | VDropSlot b i j => λ s, vreply (
      '(v, s') ← vtake b i j s; Some (tt, set_vdropped (vdropped s' ++ [v]) s'))
  | VAlloc l => λ s,
      let p := galloc (vallocs s) l in
      if p =? 0 then Next 0 s else Next p (set_vallocs (<[p := l]> (vallocs s)) s)
  | VAllocError => λ s, Exit
  | VDealloc p l => λ s, vreply (
      l' ← vallocs s !! p;
      if bool_decide (l' = l) && bool_decide (vheap s !! p = None)
      then Some (tt, set_vallocs (delete p (vallocs s)) s) else None)
  | VInit b => λ s, vreply (
      _ ← vallocs s !! b;
      Some (tt, set_vheap (<[b := mkBlock8 0 0 (replicate (Z.to_nat nv)
        (mkVBlock 0 0 (replicate (Z.to_nat ns) None)))]> (vheap s)) s))
  | VDropHeader b => λ s, vreply (
      _ ← vheap s !! b; Some (tt, set_vheap (delete b (vheap s)) s))
  end.

#[export] Instance v8_spurious : Spurious (v8E T) (vmem T) := λ X e,
  match e in v8E _ X return vmem T → option X with
  | VCas true l _ _ => λ s, inr <$> vrd l s
  | _ => λ _, None
  end.

End handler.

(** ** Blocks *)

Section blocks.
Context {T : Type} `{V8Geometry} `{Profile}.

(** The bounds [vblock] and [slots] check. *)
Definition vblock_ok (index : Z) : prog (v8E T) unit := debug_assert (index <? nv).

Definition slots_ok (vblock offset : Z) : prog (v8E T) unit :=
  debug_assert (vblock <? nv);; debug_assert (offset <? ns).

Definition OwnedBlock_new : prog (v8E T) Z :=
  allocation ← act (VAlloc (g_layout geom));
  if allocation =? 0 then x ← act VAllocError; match x : Empty_set with end else
  act (VInit allocation);;
  Ret allocation.

Definition Block_reset (b : Z) : prog (v8E T) unit :=
  for_range (Z.to_nat nv) 0 (λ i,
    vblock_ok i;;
    (if debug_assertions then
       p ← act (VLoad (VProduced b i));
       c ← act (VLoad (VConsumed b i));
       debug_assert (p =? c)
     else Ret tt);;
    act (VStore (VProduced b i) 0);;
    act (VStore (VConsumed b i) 0));;
  act (VStore (ConsumedVBlocks b) 0);;
  act (VStore (BNext b) 0).

(** [Drop for Block]: the values between the two counters of each virtual block. *)
Definition Block_drop (b : Z) : prog (v8E T) unit :=
  for_range (Z.to_nat nv) 0 (λ i,
    vblock_ok i;;
    consumed ← act (VLoad (VConsumed b i));
    produced ← act (VLoad (VProduced b i));
    if consumed <? produced then
      slots_ok i consumed;;
      for_range (Z.to_nat (produced - consumed)) consumed (λ j, act (VDropSlot b i j))
    else Ret tt);;
  act (VDropHeader b).

(** [Drop for OwnedBlock]: the block, then its allocation. *)
Definition OwnedBlock_drop (b : Z) : prog (v8E T) unit :=
  Block_drop b;;
  act (VDealloc b (g_layout geom)).

(** ** Owned lists of detached blocks *)

Record BlockList := mkBlockList { bl_head : Z; bl_tail : Z; bl_len : Z }.

Definition BlockList_new : BlockList := mkBlockList 0 0 0.

Definition from_raw (fuel : nat) (head : Z) : prog (v8E T) BlockList :=
  '(tail, len) ← loop fuel (λ '(curr, tail, len),
    if curr =? 0 then Ret (inr (tail, len)) else
    nx ← act (VLoad (BNext curr));
    len' ← uadd len 1;
    Ret (inl (nx, curr, len'))) (head, 0, 0);
  Ret (mkBlockList head tail len).

Definition from_raw_parts (head tail len : Z) : prog (v8E T) BlockList :=
  debug_assert (Bool.eqb (head =? 0) (len =? 0));;
  debug_assert (Bool.eqb (tail =? 0) (len =? 0));;
  Ret (mkBlockList head tail len).

Definition into_raw (l : BlockList) : Z := bl_head l.

Definition BlockList_push (l : BlockList) (b : Z) : prog (v8E T) BlockList :=
  act (VStore (BNext b) (bl_head l));;
  len ← uadd (bl_len l) 1;
  Ret (mkBlockList b (if bl_head l =? 0 then b else bl_tail l) len).

Definition BlockList_pop (l : BlockList) : prog (v8E T) (option Z * BlockList) :=
  if bl_head l =? 0 then Ret (None, l) else
  nx ← act (VLoad (BNext (bl_head l)));
  act (VStore (BNext (bl_head l)) 0);;
  len ← usub (bl_len l) 1;
  Ret (Some (bl_head l), mkBlockList nx (if nx =? 0 then 0 else bl_tail l) len).

(** [self += rhs]: [rhs] goes in front. *)
Definition add_assign (l rhs : BlockList) : prog (v8E T) BlockList :=
  if bl_head rhs =? 0 then Ret l else
  act (VStore (BNext (bl_tail rhs)) (bl_head l));;
  len ← uadd (bl_len l) (bl_len rhs);
  Ret (mkBlockList (bl_head rhs) (if bl_head l =? 0 then bl_tail rhs else bl_tail l) len).

(** [while let Some(block) = blocks.pop() { drop(block); .. }], counting. *)
Definition drain_list (fuel : nat) (l : BlockList) : prog (v8E T) Z :=
  loop fuel (λ '(l, freed),
    '(b, l) ← BlockList_pop l;
    match b with
    | Some b => OwnedBlock_drop b;; Ret (inl (l, freed + 1))
    | None => Ret (inr freed)
    end) (l, 0).

Definition BlockList_drop (fuel : nat) (l : BlockList) : prog (v8E T) unit :=
  drain_list fuel l;; Ret tt.

(** ** The free list *)

Definition BUSY : Z := usize_max.

Definition fl_take (fuel : nat) (limit : Z) : prog (v8E T) BlockList :=
  if limit =? 0 then Ret BlockList_new else
  head ← act (VLoad FlHead);
  taken ← loop fuel (λ head,
    if (head =? 0) || (head =? BUSY) then Ret (inr None) else
    r ← act (VCas true FlHead head BUSY);
    match r with
    | inl _ => Ret (inr (Some head))
    | inr actual => Ret (inl actual)
    end) head;
  match taken with
  | None => Ret BlockList_new
  | Some head =>
      '(rest, tail, len) ← loop fuel (λ '(rest, tail, len),
        if (len <? limit) && negb (rest =? 0) then
          nx ← act (VLoad (BNext rest));
          Ret (inl (nx, rest, len + 1))
        else Ret (inr (rest, tail, len))) (head, 0, 0);
      act (VStore (BNext tail) 0);;
      act (VStore FlHead rest);;
      from_raw_parts head tail len
  end.

Definition fl_recycle (fuel : nat) (b : Z) : prog (v8E T) unit :=
  Block_reset b;;
  head ← act (VLoad FlHead);
  loop fuel (λ head,
    if head =? BUSY then OwnedBlock_drop b;; Ret (inr tt) else
    act (VStore (BNext b) head);;
    r ← act (VCas true FlHead head b);
    match r with
    | inl _ => Ret (inr tt)
    | inr actual => Ret (inl actual)
    end) head.

Definition fl_acquire (fuel : nat) (count : Z) : prog (v8E T) BlockList :=
  loop fuel (λ '(blocks, remaining),
    if remaining =? 0 then Ret (inr blocks) else
    cached ← fl_take fuel remaining;
    remaining ← usub remaining (bl_len cached);
    blocks ← add_assign blocks cached;
    if negb (remaining =? 0) then
      b ← OwnedBlock_new;
      blocks ← BlockList_push blocks b;
      Ret (inl (blocks, remaining - 1))
    else Ret (inl (blocks, remaining))) (BlockList_new, count).

Definition fl_flush (fuel : nat) : prog (v8E T) Z :=
  blocks ← fl_take fuel usize_max;
  drain_list fuel blocks.

Definition FreeList_drop (fuel : nat) : prog (v8E T) unit :=
  head ← act (VLoad FlHead);
  debug_assert (negb (head =? BUSY));;
  l ← from_raw fuel head;
  BlockList_drop fuel l.

End blocks.
