(* ===== verification/V8Layout.v ===== *)
(** * The geometry of v8 blocks

    What [Geometry::new] guarantees about the byte layout of a block: the slots
    of every virtual block are aligned, lie inside the allocation, behind the
    block header and their own virtual header, and never overlap. *)

From S2P Require Import Prelude Prog Layout Geometry V8Block.

Lemma ok_or_inl {A} (o : option A) a : ok_or o = inl a → o = Some a.
Proof. destruct o; simpl; congruence. Qed.

Lemma try_bind_inl {A B} (r : A + ConfigError) (f : A → B + ConfigError) b :
  try_bind r f = inl b → ∃ a, r = inl a ∧ f a = inl b.
Proof. destruct r; [eauto|done]. Qed.

Lemma Layout_array_inv e n l :
  type_layout_ok e → 0 ≤ n → Layout_array e n = Some l → l = mkLayout (lsize e * n) (lalign e) ∧ layout_ok l.
Proof.
  intros [[Hp Hs] _] Hn. unfold Layout_array.
  destruct (Z.eqb_spec (lsize e) 0) as [E|Hnz]; simpl.
  { intros [= <-]. split; [done|]. split; [done|]. simpl. lia. }
  destruct (Z.ltb_spec ((isize_max + 1 - lalign e) / lsize e) n) as [|Hle]; [done|].
  intros [= <-]. split; [done|]. split; [done|]. simpl.
  pose proof (Z.mul_div_le (isize_max + 1 - lalign e) (lsize e) ltac:(lia)). nia.
Qed.

Lemma Layout_extend_inv l next l' off :
  layout_ok l → layout_ok next → Layout_extend l next = Some (l', off) →
  lsize l ≤ off ∧ off mod lalign next = 0 ∧ lsize l' = off + lsize next ∧
  lalign l' = Z.max (lalign l) (lalign next) ∧ layout_ok l'.
Proof.
  intros Hl Hn. unfold Layout_extend, checked_add, Layout_from_size_align.
  pose proof (layout_ok_align _ Hn) as Ha. pose proof (layout_ok_align _ Hl).
  destruct (round_up_spec (lsize l) (lalign next) Ha) as [Hr Hm].
  destruct Hl as [Hpl Hl], Hn as [Hpn Hn].
  set (off' := round_up _ _) in *. set (al := Z.max _ _).
  destruct (Z.leb_spec (off' + lsize next) usize_max); [|done].
  destruct (is_power_of_two al) eqn:Hp; [|done].
  destruct (Z.leb_spec (off' + lsize next) (isize_max + 1 - al)); [|done].
  intros [= <- <-]. cbn [lsize lalign]. split; [lia|]. do 3 (split; [done|]). split; [done|]. simpl. lia.
Qed.

(** Padding to the alignment cannot leave the range of valid layouts. *)
Lemma Layout_pad_ok l :
  layout_ok l → layout_ok (Layout_pad_to_align l) ∧ type_layout_ok (Layout_pad_to_align l) ∧
  lsize l ≤ lsize (Layout_pad_to_align l).
Proof.
  intros Hl. pose proof (layout_ok_align _ Hl) as Ha.
  destruct (round_up_spec (lsize l) (lalign l) Ha) as [Hr Hm].
  assert (layout_ok (Layout_pad_to_align l)) as Hok.
  { destruct Hl as [Hp Hl]. split; [done|]. simpl. split; [lia|].
    apply is_power_of_two_spec in Hp as (k & Hk & Hp).
    assert (k ≤ 63) as Hk63.
    { destruct (Z.le_gt_cases k 63); [done|]. exfalso.
      assert (2 ^ 64 ≤ 2 ^ k) by (apply Z.pow_le_mono_r; lia). unfold isize_max in *. lia. }
    assert ((isize_max + 1) mod lalign l = 0) as Hdiv.
    { rewrite Hp. unfold isize_max. replace (2 ^ 63 - 1 + 1) with (2 ^ (63 - k) * 2 ^ k).
      - apply Z.mod_mul. lia.
      - rewrite <- Z.pow_add_r by lia. by replace (63 - k + k) with 63 by lia. }
    apply Z.mod_divide in Hdiv as [q Hq]; [|lia]. apply Z.mod_divide in Hm as [r Hr']; [|lia].
    rewrite Hr', Hq in *. assert (r < q) by nia. nia. }
  split; [done|]. split; [|simpl; lia]. split; [done|]. done.
Qed.

Section geometry_new.
Context (header vheader slot : Layout) (cfg : Config) (g : Geometry).
Context (Hheader : type_layout_ok header) (Hvheader : type_layout_ok vheader) (Hslot : type_layout_ok slot).
Context (Hdims : 0 ≤ slots_per_vblock cfg ≤ usize_max ∧ 0 ≤ vblocks_per_block cfg ≤ usize_max).
Context (Hnew : Geometry_new header vheader slot cfg = inl g).

Lemma Geometry_new_inv :
  config g = cfg ∧
  0 < slots_per_vblock cfg ∧ 0 < vblocks_per_block cfg ∧
  capacity g = slots_per_vblock cfg * vblocks_per_block cfg ∧ capacity g ≤ usize_max / 2 ∧
  lsize vheader ≤ g_slots_offset g ∧ g_slots_offset g mod lalign slot = 0 ∧
  g_slots_offset g + slots_per_vblock cfg * lsize slot ≤ vblock_stride g ∧
  vblock_stride g mod Z.max (lalign vheader) (lalign slot) = 0 ∧
  lsize header ≤ vblocks_offset g ∧
  vblocks_offset g mod Z.max (lalign vheader) (lalign slot) = 0 ∧
  vblocks_offset g + vblocks_per_block cfg * vblock_stride g ≤ lsize (g_layout g) ∧
  lalign (g_layout g) = Z.max (lalign header) (Z.max (lalign vheader) (lalign slot)) ∧
  layout_ok (g_layout g).
Proof.
  revert Hnew. unfold Geometry_new.
  destruct (Z.eqb_spec (slots_per_vblock cfg) 0); [done|].
  destruct (Z.eqb_spec (vblocks_per_block cfg) 0); [done|]. simpl.
  intros (cap & Hcap%ok_or_inl & Hk)%try_bind_inl.
  apply try_bind_inl in Hk as (slots & Hslots%ok_or_inl & Hk).
  apply try_bind_inl in Hk as ([vb so] & Hvb%ok_or_inl & Hk).
  apply try_bind_inl in Hk as (vsz & Hvsz%ok_or_inl & Hk).
  apply try_bind_inl in Hk as (vbs & Hvbs%ok_or_inl & Hk).
  apply try_bind_inl in Hk as ([lay vo] & Hlay%ok_or_inl & Hk). injection Hk as <-. simpl.
  assert (cap = slots_per_vblock cfg * vblocks_per_block cfg ∧ cap ≤ usize_max / 2) as [-> Hmax].
  { revert Hcap. unfold checked_mul. zcase; simpl; [|done]. zcase; [|done]. by intros [= <-]. }
  apply Layout_array_inv in Hslots as [-> Hsl]; [|done|lia].
  apply Layout_extend_inv in Hvb as (Hv1 & Hv2 & Hv3 & Hv4 & Hvok); [|apply Hvheader|done]. simpl in *.
  destruct (Layout_pad_ok vb Hvok) as (Hpok & [_ Hpm] & Hple). simpl in *.
  assert (vsz = lsize (Layout_pad_to_align vb) * vblocks_per_block cfg) as ->.
  { revert Hvsz. unfold checked_mul. simpl. zcase; [|done]. by intros [= <-]. }
  assert (vbs = mkLayout (lsize (Layout_pad_to_align vb) * vblocks_per_block cfg) (lalign vb) ∧ layout_ok vbs)
    as [-> Hvbsok].
  { revert Hvbs. unfold Layout_from_size_align. simpl. destruct (is_power_of_two _) eqn:Hp; simpl; [|done].
    zcase; [|done]. intros [= <-]. split; [done|]. split; [done|]. simpl. destruct Hpok. simpl in *. nia. }
  apply Layout_extend_inv in Hlay as (Hb1 & Hb2 & Hb3 & Hb4 & Hlok); [|apply Hheader|done]. simpl in *.
  destruct (Layout_pad_ok lay Hlok) as (Hpok' & _ & Hple'). simpl in Hple'.
  rewrite Hv4 in *. split; [done|].
  repeat (split; [first [done|lia|nia]|]). done.
Qed.

Lemma mod_add_mul a b n : 0 < n → a mod n = 0 → b mod n = 0 → (a + b) mod n = 0.
Proof. intros Hn Ha Hb. rewrite Z.add_mod, Ha, Hb by lia. by rewrite Z.mod_0_l by lia. Qed.

Lemma mod_mul_l a b n : 0 < n → b mod n = 0 → (a * b) mod n = 0.
Proof. intros Hn Hb. rewrite Z.mul_mod, Hb, Z.mul_0_r by lia. by rewrite Z.mod_0_l by lia. Qed.

Lemma mod_divides a m n : 0 < n → (n | m) → a mod m = 0 → 0 < m → a mod n = 0.
Proof.
  intros Hn [q ->] Ha Hm. apply Z.mod_divide in Ha as [r ->]; [|lia].
  replace (r * (q * n)) with (r * q * n) by lia. apply Z.mod_mul. lia.
Qed.

Lemma slot_align_divides :
  (lalign slot | Z.max (lalign vheader) (lalign slot)) ∧ (lalign vheader | Z.max (lalign vheader) (lalign slot)).
Proof.
  destruct (Z.max_spec (lalign vheader) (lalign slot)) as [[? ->]|[? ->]];
    (split; [apply pow2_divide_le; [apply Hslot|first [apply Hslot|apply Hvheader]|lia]
            |apply pow2_divide_le; [apply Hvheader|first [apply Hslot|apply Hvheader]|lia]]).
Qed.

(** The address of a virtual header, relative to the block. *)
Lemma vblock_offset_spec i :
  0 ≤ i < vblocks_per_block cfg →
  vblock_offset g i mod lalign vheader = 0 ∧ lsize header ≤ vblock_offset g i ∧
  vblock_offset g i + vblock_stride g ≤ lsize (g_layout g).
Proof.
  intros Hi. destruct Geometry_new_inv as (_ & ? & ? & _ & _ & Hs1 & Hs2 & Hs3 & Hs4 & Hv1 & Hv2 & Hv3 & _).
  pose proof (layout_ok_align _ (proj1 Hvheader)). pose proof (layout_ok_align _ (proj1 Hslot)).
  destruct slot_align_divides as [_ Hd]. set (A := Z.max (lalign vheader) (lalign slot)) in *. assert (0 < A) by lia.
  assert (0 ≤ lsize vheader ∧ 0 ≤ lsize slot) by (split; [apply Hvheader|apply Hslot]).
  unfold vblock_offset. split; [|nia]. apply (mod_divides _ A); [done|done| |done].
  apply mod_add_mul; [done|done|]. by apply mod_mul_l.
Qed.

Lemma slot_offset_spec i j :
  0 ≤ i < vblocks_per_block cfg → 0 ≤ j < slots_per_vblock cfg →
  slot_offset g slot i j mod lalign slot = 0 ∧
  vblock_offset g i + lsize vheader ≤ slot_offset g slot i j ∧
  slot_offset g slot i j + lsize slot ≤ vblock_offset g i + vblock_stride g.
Proof.
  intros Hi Hj. destruct Geometry_new_inv as (_ & ? & ? & _ & _ & Hs1 & Hs2 & Hs3 & Hs4 & Hv1 & Hv2 & Hv3 & _).
  pose proof (layout_ok_align _ (proj1 Hvheader)). pose proof (layout_ok_align _ (proj1 Hslot)).
  destruct slot_align_divides as [Hd _]. set (A := Z.max (lalign vheader) (lalign slot)) in *. assert (0 < A) by lia.
  assert (0 ≤ lsize slot) by apply Hslot.
  unfold slot_offset, vblock_offset. split; [|nia].
  assert (∀ x, x mod A = 0 → x mod lalign slot = 0) as Hx by (intros; by apply (mod_divides _ A)).
  apply mod_add_mul; [done| |apply mod_mul_l; [done|apply Hslot]].
  apply mod_add_mul; [done| |done]. apply mod_add_mul; [done|by apply Hx|]. apply mod_mul_l; [done|]. by apply Hx.
Qed.

End geometry_new.

(** C36: whatever runtime geometry [Geometry::new] accepts, a block at an address
    aligned for its layout has room for all of it: each virtual header and each
    slot is aligned for its type and lies inside the allocation behind the block
    header, a slot lies behind the header of its own virtual block, and two
    different slots never overlap. *)
Theorem v8_geometry_sound header vheader slot cfg g :
  type_layout_ok header → type_layout_ok vheader → type_layout_ok slot →
  0 ≤ slots_per_vblock cfg ≤ usize_max → 0 ≤ vblocks_per_block cfg ≤ usize_max →
  Geometry_new header vheader slot cfg = inl g →
  layout_ok (g_layout g) ∧
  capacity g = slots_per_vblock cfg * vblocks_per_block cfg ∧ 2 * capacity g ≤ usize_max ∧
  ∀ this i j, this mod lalign (g_layout g) = 0 →
    0 ≤ i < vblocks_per_block cfg → 0 ≤ j < slots_per_vblock cfg →
    (this + vblock_offset g i) mod lalign vheader = 0 ∧ lsize header ≤ vblock_offset g i ∧
    (this + slot_offset g slot i j) mod lalign slot = 0 ∧
    vblock_offset g i + lsize vheader ≤ slot_offset g slot i j ∧
    slot_offset g slot i j + lsize slot ≤ lsize (g_layout g) ∧
    ∀ i' j', 0 ≤ i' < vblocks_per_block cfg → 0 ≤ j' < slots_per_vblock cfg →
      i < i' ∨ i = i' ∧ j < j' →
      slot_offset g slot i j + lsize slot ≤ slot_offset g slot i' j' ∧
      (i < i' → slot_offset g slot i j + lsize slot ≤ vblock_offset g i').
Proof.
  intros Hh Hv Hs Hn1 Hn2 Hnew.
  destruct (Geometry_new_inv header vheader slot cfg g Hh Hv Hs (conj Hn1 Hn2) Hnew)
    as (_ & ? & ? & Hcap & Hmax & Hs1 & _ & Hs3 & _ & _ & _ & Hv3 & Hal & Hok).
  pose proof (layout_ok_align _ (proj1 Hv)). pose proof (layout_ok_align _ (proj1 Hs)).
  split; [done|]. split; [done|].
  split; [pose proof (Z.mul_div_le usize_max 2 ltac:(lia)); lia|].
  intros this i j Ha Hi Hj.
  destruct (vblock_offset_spec header vheader slot cfg g Hh Hv Hs (conj Hn1 Hn2) Hnew i Hi) as (Hva & Hvb & Hvc).
  destruct (slot_offset_spec header vheader slot cfg g Hh Hv Hs (conj Hn1 Hn2) Hnew i j Hi Hj) as (Hsa & Hsb & Hsc).
  destruct (slot_align_divides vheader slot Hv Hs) as [Hd1 Hd2].
  pose proof (layout_ok_align _ (proj1 Hh)) as Hpos.
  assert (∀ n, is_power_of_two n = true → 0 < n ≤ lalign (g_layout g) → this mod n = 0) as Hthis.
  { intros n Hp Hn. apply (mod_divides _ (lalign (g_layout g))); [lia| |done|lia].
    apply pow2_divide_le; [done|apply Hok|lia]. }
  split; [apply mod_add_mul; [done|apply Hthis; [apply Hv|lia]|done]|].
  split; [done|].
  split; [apply mod_add_mul; [done|apply Hthis; [apply Hs|lia]|done]|].
  split; [done|]. split; [lia|]. intros i' j' Hi' Hj' Hlt.
  assert (0 ≤ lsize vheader ∧ 0 ≤ lsize slot) by (split; [apply Hv|apply Hs]).
  unfold slot_offset, vblock_offset in *. split; [|intros]; nia.
Qed.

(** The default geometry for [u64] elements on x86-64. *)
Definition default_geometry : Geometry :=
  mkGeometry Config_default 131072 (mkLayout 1056896 128) 128 33024 256.

Lemma v8_geometry_sound_witness :
  Geometry_new (mkLayout 80 8) (mkLayout 256 128) (mkLayout 8 8) Config_default = inl default_geometry ∧
  layout_ok (g_layout default_geometry).
Proof.
  split; [reflexivity|].
  apply (v8_geometry_sound (mkLayout 80 8) (mkLayout 256 128) (mkLayout 8 8) Config_default default_geometry);
    try reflexivity; vm_compute; repeat split; discriminate.
Defined.
