(* ===== verification/V8Queue.v ===== *)
(** * The v8 queue (src/src/v8/queue.rs)

    Producer and consumer heads are a block pointer and a separate index word:
    [(((nv + 1) * ns) * token + offset) << 1 | has_next], where [token] counts
    the blocks and an offset of [nv * ns] marks a head whose owner is moving it
    to the next block. *)

From S2P Require Import Prelude Prog Layout Geometry V8Block.

Section queue.
Context {T : Type} `{V8Geometry} `{Profile}.

Definition decode_index (ridx : Z) : Z * Z * Z :=
  let d := ridx / ns in (d / (nv + 1), d mod (nv + 1), ridx mod ns).

(** [(((nv + 1) * ns) * token + off) << 1) + has_next]: the multiplication and
    the additions are checked in debug builds, the shift drops the top bit. *)
Definition encode_index (token off has_next : Z) : prog (v8E T) Z :=
  a ← umul ((nv + 1) * ns) token;
  b ← uadd a off;
  Ret (wrapping (b * 2) + has_next).

(** [UBQ::with_config] for a validated geometry. *)
Definition v8_with_config : prog (v8E T) unit :=
  b ← OwnedBlock_new;
  act (VStore PBlock b);;
  act (VStore PIndex 0);;
  act (VStore CBlock b);;
  act (VStore CIndex 0);;
  act (VStore FlHead 0).

(** Copies [vs] into consecutive slots of one virtual block. *)
Fixpoint copy_in (b vb off : Z) (vs : list T) : prog (v8E T) unit :=
  match vs with
  | [] => Ret tt
  | v :: vs => act (VWrite b vb off v);; copy_in b vb (off + 1) vs
  end.

(** Moves [count] values of one virtual block out, behind [out]. *)
Fixpoint copy_out (b vb off : Z) (count : nat) (out : list T) : prog (v8E T) (list T) :=
  match count with
  | O => Ret out
  | S count => v ← act (VRead b vb off); copy_out b vb (off + 1) count (out ++ [v])
  end.

(** The end of the chain that starts at [curr] gets the new blocks. *)
Definition append_chain (fuel : nat) (block blocks : Z) : prog (v8E T) unit :=
  loop fuel (λ curr,
    nx ← act (VLoad (BNext curr));
    if nx =? 0 then act (VStore (BNext curr) blocks);; Ret (inr tt)
    else Ret (inl nx)) block.

Definition advance_producer (fuel : nat) (block token off len : Z) (blocks : BlockList) :
  prog (v8E T) unit :=
  append_chain fuel block (into_raw blocks);;
  '(rem, blk, off, depth) ← loop fuel (λ '(rem, blk, off, depth),
    room ← usub (nv * ns) off;
    if room <=? rem then
      nx ← act (VLoad (BNext blk));
      Ret (inl (rem - room, nx, 0, depth + 1))
    else Ret (inr (rem, blk, off, depth))) (len, block, off, 0);
  nx ← act (VLoad (BNext blk));
  let has_next := if negb (nx =? 0) then 1 else 0 in
  act (VStore PBlock blk);;
  token ← uadd token depth;
  pos ← uadd off rem;
  w ← encode_index token pos has_next;
  act (VStore PIndex w).

(** The copy loop of [write_from]: [vs] are the values not yet moved. *)
Definition write_loop (fuel : nat) (block vblock offset : Z) (vs : list T) : prog (v8E T) unit :=
  loop fuel (λ '(block, vblock, offset, vs),
    match vs with
    | [] => Ret (inr tt)
    | _ =>
        let count := Z.min (ns - offset) (Z.of_nat (length vs)) in
        vblock_ok vblock;;
        slots_ok vblock offset;;
        nx ← (if vblock + 1 =? nv then act (VLoad (BNext block)) else Ret 0);
        copy_in block vblock offset (take (Z.to_nat count) vs);;
        act (VFetchAdd (VProduced block vblock) count);;
        Ret (inl (if vblock + 1 =? nv then (nx, 0, 0, drop (Z.to_nat count) vs)
                  else (block, vblock + 1, 0, drop (Z.to_nat count) vs)))
    end) (block, vblock, offset, vs).

(** One round of [write_from]'s loop on a head that is not in transition: blocks
    are acquired if the batch may need more, then the range is reserved.  The
    blocks that were not linked are returned with the next round. *)
Definition write_reserve (fuel : nat) (vs : list T) (block index : Z) (blocks : BlockList) :
  prog (v8E T) (BlockList * option Z) :=
  let len := Z.of_nat (length vs) in
  let has_next := Z.land index 1 in
  let '(token, vblock, offset) := decode_index (Z.shiftr index 1) in
  n ← uadd (bl_len blocks) (has_next + 1);
  room ← umul (nv * ns) n;
  room ← usub room (ns * vblock + offset);
  blocks ← (if room <=? len then
      have ← umul (nv * ns) (bl_len blocks);
      more ← fl_acquire fuel (div_ceil (saturating_sub len have) (nv * ns));
      add_assign blocks more
    else Ret blocks);
  last ← uadd (vblock * ns + offset) len;
  new_index ← encode_index token (Z.min last (nv * ns)) has_next;
  r ← act (VCas true PIndex index new_index);
  match r with
  | inl _ =>
      (if (Z.shiftr new_index 1 / ns) mod (nv + 1) =? nv then
         advance_producer fuel block token (vblock * ns + offset) len blocks;;
         write_loop fuel block vblock offset vs
       else
         write_loop fuel block vblock offset vs;;
         BlockList_drop fuel blocks);;
      Ret (blocks, None)
  | inr real => Ret (blocks, Some real)
  end.

(** [write_from]: [vs] are the values behind [src]. *)
Definition write_from (fuel : nat) (vs : list T) : prog (v8E T) unit :=
  let len := Z.of_nat (length vs) in
  if len =? 0 then Ret tt else
  index ← act (VLoad PIndex);
  block ← act (VLoad PBlock);
  blocks ← fl_acquire fuel (len / (nv * ns));
  loop fuel (λ '(index, block, blocks),
    let '(token, vblock, offset) := decode_index (Z.shiftr index 1) in
    if vblock =? nv then
      index ← act (VLoad PIndex);
      block ← act (VLoad PBlock);
      Ret (inl (index, block, blocks))
    else
      '(block, blocks, installed) ← (if block =? 0 then
          l ← fl_acquire fuel 1;
          let new := into_raw l in
          r ← act (VCas false PBlock 0 new);
          match r with
          | inl _ => act (VStore CBlock new);; Ret (new, blocks, true)
          | inr _ =>
              l ← from_raw fuel new;
              blocks ← add_assign blocks l;
              Ret (block, blocks, false)
          end
        else Ret (block, blocks, true));
      if negb installed then
        index ← act (VLoad PIndex);
        block ← act (VLoad PBlock);
        Ret (inl (index, block, blocks))
      else
        '(blocks, failed) ← write_reserve fuel vs block index blocks;
        match failed with
        | None => Ret (inr tt)
        | Some real =>
            block ← act (VLoad PBlock);
            Ret (inl (real, block, blocks))
        end) (index, block, blocks).

Definition v8_push (fuel : nat) (value : T) : prog (v8E T) unit := write_from fuel [value].

Definition v8_push_batch (fuel : nat) (items : list T) : prog (v8E T) unit := write_from fuel items.

(** The wait for the producer to leave the block behind: its index, settled. *)
Definition await_producer (fuel : nat) (token : Z) : prog (v8E T) Z :=
  pidx ← act (VLoad PIndex);
  loop fuel (λ pidx,
    let pdiv := pidx / ns in
    if (pdiv / (nv + 1) =? token) || (pdiv mod (nv + 1) =? nv) then
      pidx ← act (VLoad PIndex);
      Ret (inl (Z.shiftr pidx 1))
    else Ret (inr pidx)) (Z.shiftr pidx 1).

(** One round of [advance_consumer]'s loop on the block pointer, the index and
    the length of the reservation: skip a sentinel, claim a whole block, or settle
    and return the length. *)
Definition advance_round (pidx cap : Z) (st : Z * Z * Z) : prog (v8E T) (Z * Z * Z + Z) :=
  let '(blk, new_index, len) := st in
  let nidx := Z.shiftr new_index 1 in
  let ndiv := nidx / ns in
  if ndiv / (nv + 1) =? pidx / ns / (nv + 1) then
    act (VStore CBlock blk);;
    left ← usub cap len;
    avail ← usub pidx nidx;
    let new_index := wrapping ((nidx + Z.min left avail) * 2) in
    len ← uadd len (Z.shiftr new_index 1 - nidx);
    act (VStore CIndex new_index);;
    Ret (inr len)
  else if ndiv mod (nv + 1) =? nv then
    blk ← act (VLoad (BNext blk));
    next ← uadd nidx ns;
    Ret (inl (blk, wrapping (next * 2) + 1, len))
  else
    left ← usub cap len;
    let count := Z.min left (nv * ns) in
    len ← uadd len count;
    next ← uadd nidx count;
    let new_index := wrapping (next * 2) + 1 in
    if count <? nv * ns then
      act (VStore CBlock blk);;
      act (VStore CIndex new_index);;
      Ret (inr len)
    else Ret (inl (blk, new_index, len)).

Definition advance_consumer (fuel : nat) (block token new_index cap len : Z) : prog (v8E T) Z :=
  pidx ← await_producer fuel token;
  loop fuel (advance_round pidx cap) (block, new_index, len).

(** The wait for the values of one segment. *)
Definition await_values (fuel : nat) (block token vblock offset count : Z) : prog (v8E T) unit :=
  loop fuel (λ _ : unit,
    produced ← act (VLoad (VProduced block vblock));
    if produced =? ns then Ret (inr tt) else
    pindex ← act (VLoad PIndex);
    let pidx := Z.shiftr pindex 1 in
    if (pidx / ns =? (nv + 1) * token + vblock) && (produced =? pidx mod ns) &&
       (offset + count <=? produced) then Ret (inr tt)
    else Ret (inl tt)) tt.

(** The completion of one segment. *)
Definition complete_segment (fuel : nat) (block vblock count : Z) : prog (v8E T) unit :=
  old ← act (VFetchAdd (VConsumed block vblock) count);
  consumed ← uadd old count;
  if consumed =? ns then
    old ← act (VFetchAdd (ConsumedVBlocks block) 1);
    done ← uadd old 1;
    if done =? nv then fl_recycle fuel block else Ret tt
  else Ret tt.

(** One round of the copy loop of [read_into]: [remaining] values are still to be
    read. *)
Definition read_round (fuel : nat) (st : Z * Z * Z * Z * Z * list T) :
  prog (v8E T) (Z * Z * Z * Z * Z * list T + list T) :=
  let '(block, token, vblock, offset, remaining, out) := st in
  if remaining =? 0 then Ret (inr out) else
  let count := Z.min (ns - offset) remaining in
  vblock_ok vblock;;
  await_values fuel block token vblock offset count;;
  slots_ok vblock offset;;
  out ← copy_out block vblock offset (Z.to_nat count) out;
  nx ← (if vblock + 1 =? nv then act (VLoad (BNext block)) else Ret 0);
  complete_segment fuel block vblock count;;
  Ret (inl (if vblock + 1 =? nv then (nx, token + 1, 0, 0, remaining - count, out)
            else (block, token, vblock + 1, 0, remaining - count, out))).

Definition read_loop (fuel : nat) (block token vblock offset left : Z) (out : list T) :
  prog (v8E T) (list T) :=
  loop fuel (read_round fuel) (block, token, vblock, offset, left, out).

(** The consumer's proposal: [None] when there is nothing to read. *)
Definition read_propose (index cap : Z) : prog (v8E T) (option Z) :=
  let has_next := Z.land index 1 in
  let ridx := Z.shiftr index 1 in
  let '(token, vblock, offset) := decode_index ridx in
  last ← uadd (vblock * ns + offset) cap;
  new_index ← encode_index token (Z.min last (nv * ns)) has_next;
  if has_next =? 0 then
    pindex ← act (VLoad PIndex);
    let pidx := Z.shiftr pindex 1 in
    if ridx =? pidx then Ret None else
    if token =? pidx / ((nv + 1) * ns) then
      let new_index := Z.min new_index (wrapping (pidx * 2)) in
      Ret (Some (Z.land new_index (usize_not 1)))
    else Ret (Some (Z.lor new_index 1))
  else Ret (Some new_index).

(** [read_into]: the values written behind [dst]. *)
Definition read_into (fuel : nat) (cap : Z) : prog (v8E T) (list T) :=
  if cap =? 0 then Ret [] else
  index ← act (VLoad CIndex);
  block ← act (VLoad CBlock);
  loop fuel (λ '(index, block),
    let ridx := Z.shiftr index 1 in
    let '(token, vblock, offset) := decode_index ridx in
    if vblock =? nv then
      index ← act (VLoad CIndex);
      block ← act (VLoad CBlock);
      Ret (inl (index, block))
    else
      proposal ← read_propose index cap;
      match proposal with
      | None => Ret (inr [])
      | Some new_index =>
          if block =? 0 then
            index ← act (VLoad CIndex);
            block ← act (VLoad CBlock);
            Ret (inl (index, block))
          else
            r ← act (VCas true CIndex index new_index);
            match r with
            | inl _ =>
                let nidx := Z.shiftr new_index 1 in
                len ← usub nidx ridx;
                len ← (if (nidx / ns) mod (nv + 1) =? nv
                       then advance_consumer fuel block token new_index cap len
                       else Ret len);
                out ← read_loop fuel block token vblock offset len [];
                Ret (inr out)
            | inr real =>
                block ← act (VLoad CBlock);
                Ret (inl (real, block))
            end
      end) (index, block).

Definition v8_pop (fuel : nat) : prog (v8E T) (option T) :=
  out ← read_into fuel 1;
  Ret (head out).

(** [pop_batch]: [cap] is the length of the buffer. *)
Definition v8_pop_batch (fuel : nat) (cap : Z) : prog (v8E T) (list T) := read_into fuel cap.

Definition flush_freelist (fuel : nat) : prog (v8E T) Z := fl_flush fuel.

(** [Drop for UBQ], followed by the drop of its free list. *)
Definition V8_drop (fuel : nat) : prog (v8E T) unit :=
  block ← act (VLoad CBlock);
  act (VStore CBlock 0);;
  act (VStore PBlock 0);;
  blocks ← from_raw fuel block;
  drain_list fuel blocks;;
  FreeList_drop fuel.

End queue.
