(* ===== verification/V8Heap.v ===== *)
(** * The memory of the v8 queue between accesses

    Every block the queue owns is an entry of one list: the chain from the
    consumer's block to the producer's, the blocks a call has in hand, and the
    cached blocks.  [vstate w l] is the memory with words [w] and blocks [l]; an
    access to a block rewrites one entry of the list.  The rest of the file
    gives the block lists and the free list their specifications on it. *)

From S2P Require Import Prelude Prog Layout Geometry V8Block V8Layout.

Record vwords (T : Type) := mkW {
  w_pblock : Z;
  w_pindex : Z;
  w_cblock : Z;
  w_cindex : Z;
  w_free : Z;
  w_dropped : list T
}.
Arguments mkW {T} _ _ _ _ _ _.
Arguments w_pblock {T} _.
Arguments w_pindex {T} _.
Arguments w_cblock {T} _.
Arguments w_cindex {T} _.
Arguments w_free {T} _.
Arguments w_dropped {T} _.

Definition w_set_free {T} f (w : vwords T) : vwords T :=
  mkW (w_pblock w) (w_pindex w) (w_cblock w) (w_cindex w) f (w_dropped w).
Definition w_set_dropped {T} d (w : vwords T) : vwords T :=
  mkW (w_pblock w) (w_pindex w) (w_cblock w) (w_cindex w) (w_free w) d.

Arguments w_set_free {T} f w /.
Arguments w_set_dropped {T} d w /.

Section heap.
Context {T : Type} `{V8Geometry} `{Allocator} `{Profile}.
Implicit Types (w : vwords T) (l : list (Z * Block8 T)) (xs ys : list Z).

Definition vstate w l : vmem T :=
  mkVMem (w_pblock w) (w_pindex w) (w_cblock w) (w_cindex w) (w_free w)
    (list_to_map l) ((λ _, g_layout geom) <$> (list_to_map l : gmap Z (Block8 T))) (w_dropped w).

Record vheap_ok l : Prop := {
  ho_nodup : NoDup l.*1;
  ho_addr : ∀ b, b ∈ l.*1 → 0 < b < BUSY
}.

Lemma heap_ok_perm l l' : l ≡ₚ l' → vheap_ok l → vheap_ok l'.
Proof.
  intros Hp [Hn Ha]. split.
  - by rewrite <- Hp.
  - intros b. rewrite <- Hp. apply Ha.
Qed.

Lemma mem_perm w l l' : vheap_ok l → l ≡ₚ l' → vstate w l = vstate w l'.
Proof.
  intros [Hn _] Hp. unfold vstate.
  by rewrite (list_to_map_proper l l' Hn Hp : (list_to_map l : gmap Z (Block8 T)) = list_to_map l').
Qed.

Lemma mem_lookup w l j b blk :
  vheap_ok l → l !! j = Some (b, blk) → vheap (vstate w l) !! b = Some blk.
Proof.
  intros [Hn _] Hj. cbn [vstate vheap]. apply elem_of_list_to_map_1; [done|].
  by eapply list_elem_of_lookup_2.
Qed.

Lemma list_to_map_insert_at l j b blk blk' :
  NoDup l.*1 → l !! j = Some (b, blk) →
  (list_to_map (<[j := (b, blk')]> l) : gmap Z (Block8 T)) = <[b := blk']> (list_to_map l).
Proof.
  revert j. induction l as [|[c k] l IH]; intros [|j] Hn Hj; simpl in *; try done.
  - injection Hj as -> ->. by rewrite insert_insert_eq.
  - apply NoDup_cons in Hn as [Hc Hn]. rewrite IH by done.
    rewrite insert_insert_ne; [done|]. intros ->. apply Hc.
    apply list_elem_of_fmap. exists (b, blk). split; [done|]. by eapply list_elem_of_lookup_2.
Qed.

Lemma heap_ok_insert l j b blk blk' :
  vheap_ok l → l !! j = Some (b, blk) → vheap_ok (<[j := (b, blk')]> l).
Proof.
  intros [Hn Ha] Hj.
  assert ((<[j := (b, blk')]> l).*1 = l.*1) as E.
  { rewrite list_fmap_insert. apply list_insert_id. by rewrite list_lookup_fmap, Hj. }
  split; rewrite E; done.
Qed.

(** An update of one block is an update of its entry. *)
Lemma mem_update w l j b blk f :
  vheap_ok l → l !! j = Some (b, blk) →
  upd_block8 b f (vstate w l) = Some (vstate w (<[j := (b, f blk)]> l)).
Proof.
  intros Hok Hj. unfold upd_block8. rewrite (mem_lookup w l j b blk Hok Hj).
  unfold vstate, set_vheap. cbn [mbind option_bind vheap vallocs producer_block producer_index
    consumer_block consumer_index fl_head vdropped].
  rewrite !(list_to_map_insert_at l j b blk) by (done || apply Hok).
  rewrite fmap_insert, (insert_id (_ <$> _)); [done|].
  rewrite lookup_fmap. pose proof (mem_lookup w l j b blk Hok Hj) as E.
  cbn [vstate vheap] in E. by rewrite E.
Qed.

Lemma vblock_lookup w l j b blk i x :
  vheap_ok l → l !! j = Some (b, blk) → znth (b_vblocks blk) i = Some x →
  vblock_at (vstate w l) b i = Some x.
Proof. intros Hok Hj Hi. unfold vblock_at. by rewrite (mem_lookup w l j b blk Hok Hj). Qed.

Lemma vblock_update w l j b blk i x f :
  vheap_ok l → l !! j = Some (b, blk) → znth (b_vblocks blk) i = Some x →
  upd_vblock b i f (vstate w l) = Some (vstate w (<[j := (b,
    mkBlock8 (b_next blk) (consumed_vblocks blk) (<[Z.to_nat i := f x]> (b_vblocks blk)))]> l)).
Proof.
  intros Hok Hj Hi. unfold upd_vblock. rewrite (vblock_lookup w l j b blk i x Hok Hj Hi).
  cbn [mbind option_bind]. by rewrite (mem_update w l j b blk).
Qed.

(** ** Accesses *)

Lemma handle_vload lc s v : vrd lc s = Some v → handle (VLoad (T:=T) lc) s = Next v s.
Proof. unfold handle, v8_handler. by intros ->. Qed.

Lemma handle_vstore lc v s s' : vwr lc v s = Some s' → handle (VStore (T:=T) lc v) s = Next tt s'.
Proof. unfold handle, v8_handler. by intros ->. Qed.

Lemma handle_vcas_ok wk lc old new s s' :
  vrd lc s = Some old → vwr lc new s = Some s' →
  handle (VCas (T:=T) wk lc old new) s = Next (inl old) s'.
Proof. unfold handle, v8_handler. intros -> Hw. simpl. by rewrite Z.eqb_refl, Hw. Qed.

Lemma handle_vfetch_add lc d s v s' :
  vrd lc s = Some v → is_usize (v + d) → vwr lc (v + d) s = Some s' →
  handle (VFetchAdd (T:=T) lc d) s = Next v s'.
Proof.
  unfold handle, v8_handler. intros -> Hr Hw. simpl.
  unfold wrapping. rewrite Z.mod_small by (unfold is_usize, usize_max in Hr; lia). by rewrite Hw.
Qed.

Lemma handle_next_load w l j b blk :
  vheap_ok l → l !! j = Some (b, blk) →
  handle (VLoad (BNext b)) (vstate w l) = Next (b_next blk) (vstate w l).
Proof.
  intros Hok Hj. apply handle_vload. unfold vrd. by rewrite (mem_lookup w l j b blk Hok Hj).
Qed.

Lemma handle_next_store w l j b blk v :
  vheap_ok l → l !! j = Some (b, blk) →
  handle (VStore (BNext b) v) (vstate w l) =
    Next tt (vstate w (<[j := (b, mkBlock8 v (consumed_vblocks blk) (b_vblocks blk))]> l)).
Proof. intros Hok Hj. apply handle_vstore. unfold vwr. by rewrite (mem_update w l j b blk). Qed.

End heap.

Create HintDb v8heap.
#[export] Hint Resolve heap_ok_insert : v8heap.

Section facts.
Context `{V8Geometry}.

Lemma geom_facts :
  0 < ns ∧ 0 < nv ∧ 2 * (nv * ns) ≤ usize_max ∧ 8 ≤ lsize (g_layout geom) ∧ 0 < lalign (g_layout geom).
Proof.
  destruct v8_headers_ok as (Hh & Hv & Hs).
  destruct (Geometry_new_inv _ _ _ _ _ Hh Hv Hs v8_dims geom_ok)
    as (_ & Hns & Hnv & Hcap & Hmax & Hs1 & _ & Hs3 & _ & Hb1 & _ & Hb3 & _ & Hok).
  pose proof v8_header_link. assert (0 ≤ lsize v8_vheader) by apply Hv. assert (0 ≤ lsize v8_slot) by apply Hs.
  unfold ns, nv in *. pose proof (Z.mul_div_le usize_max 2 ltac:(lia)).
  repeat split; try done; try lia; [|by apply layout_ok_align].
  assert (0 ≤ vblock_stride geom) by nia. nia.
Qed.

End facts.

(** The first block of a list, or [nx]. *)
Definition hd_or (nx : Z) (xs : list Z) : Z := match xs with [] => nx | b :: _ => b end.

Section lists.
Context {T : Type} `{V8Geometry} `{Allocator} `{Profile}.
Implicit Types (w : vwords T) (l F : list (Z * Block8 T)) (xs ys : list Z) (L : BlockList).

(** The counter of completed virtual blocks and the virtual blocks. *)
Definition body : Type := Z * list (VBlock T).

Definition with_next (nx : Z) (x : body) : Block8 T := mkBlock8 nx x.1 x.2.

(** The chain [xs] of blocks [k], [k + 1], ... that ends with the link [nx]. *)
Fixpoint blocks (f : Z → body) (k nx : Z) xs : list (Z * Block8 T) :=
  match xs with
  | [] => []
  | b :: xs => (b, with_next (hd_or nx xs) (f k)) :: blocks f (k + 1) nx xs
  end.

Lemma blocks_app f k nx xs ys :
  blocks f k nx (xs ++ ys) = blocks f k (hd_or nx ys) xs ++ blocks f (k + Z.of_nat (length xs)) nx ys.
Proof.
  revert k. induction xs as [|b xs IH]; intros k; cbn [app blocks length].
  - by rewrite Z.add_0_r.
  - rewrite IH. cbn [app]. f_equal; [by destruct xs|]. do 2 f_equal. lia.
Qed.

Lemma blocks_fst f k nx xs : (blocks f k nx xs).*1 = xs.
Proof. revert k. induction xs as [|b xs IH]; intros k; [done|]. cbn [blocks]. by rewrite fmap_cons, IH. Qed.

Lemma blocks_length f k nx xs : length (blocks f k nx xs) = length xs.
Proof. by rewrite <- (length_fmap fst), blocks_fst. Qed.

Lemma blocks_ext f g k nx xs :
  (∀ i, k ≤ i < k + Z.of_nat (length xs) → f i = g i) → blocks f k nx xs = blocks g k nx xs.
Proof.
  revert k. induction xs as [|b xs IH]; intros k Hfg; [done|]. cbn [blocks length] in *.
  rewrite (Hfg k) by lia. f_equal. apply IH. intros i Hi. apply Hfg. lia.
Qed.

(** A block nothing has been written to. *)
Definition fresh_body : body :=
  (0, replicate (Z.to_nat nv) (mkVBlock 0 0 (replicate (Z.to_nat ns) None))).

Definition fresh (nx : Z) : Block8 T := with_next nx fresh_body.

(** The chain of fresh blocks [xs] that ends with the link [nx]. *)
Fixpoint frees (nx : Z) xs : list (Z * Block8 T) :=
  match xs with
  | [] => []
  | b :: xs => (b, fresh (hd_or nx xs)) :: frees nx xs
  end.

Lemma frees_blocks k nx xs : frees nx xs = blocks (λ _, fresh_body) k nx xs.
Proof. revert k. induction xs as [|b xs IH]; intros k; [done|]. cbn [blocks frees]. by rewrite (IH (k + 1)). Qed.

Lemma frees_app nx xs ys : frees nx (xs ++ ys) = frees (hd_or nx ys) xs ++ frees nx ys.
Proof.
  induction xs as [|b xs IH]; [done|]. simpl. rewrite IH. by destruct xs.
Qed.

Lemma heap_ok_head b blk F : vheap_ok ((b, blk) :: F) → b ≠ 0 ∧ b ≠ BUSY ∧ 0 < b.
Proof. intros Hok. pose proof (ho_addr _ Hok b ltac:(left)). lia. Qed.

(** The blocks [xs] in the hands of an owned list. *)
Record bl_is L xs : Prop := {
  bi_head : bl_head L = hd_or 0 xs;
  bi_tail : bl_tail L = default 0 (last xs);
  bi_len : bl_len L = Z.of_nat (length xs)
}.

Lemma bl_new_is : bl_is BlockList_new [].
Proof. done. Qed.

Lemma hd_or_zero F f k nx xs :
  vheap_ok (blocks f k nx xs ++ F) → (hd_or 0 xs =? 0) = bool_decide (xs = []).
Proof.
  intros Hok. destruct xs as [|b xs]; [done|]. apply heap_ok_head in Hok as (? & _).
  rewrite bool_decide_false by done. by apply Z.eqb_neq.
Qed.

Lemma wp_OwnedBlock_new w l (Q : Z → vmem T → Prop) :
  vheap_ok l →
  (∀ b, vheap_ok ((b, fresh 0) :: l) → Q b (vstate w ((b, fresh 0) :: l))) →
  wp OwnedBlock_new (vstate w l) Q.
Proof.
  intros Hok HQ. unfold OwnedBlock_new. destruct geom_facts as (_ & _ & _ & Hsz & _).
  set (b := galloc (vallocs (vstate w l)) (g_layout geom)).
  destruct (Z.eqb_spec b 0) as [E|Hnz].
  { unfold wp. simpl. unfold handle, v8_handler. fold b. rewrite E. simpl. done. }
  destruct (galloc_fresh (vallocs (vstate w l)) (g_layout geom) b eq_refl Hnz) as (Hpos & Hmax & _ & Hfr).
  assert (b ∉ l.*1) as Hnew.
  { intros Hin. apply list_elem_of_fmap in Hin as ([c k] & -> & Hin). apply list_elem_of_lookup in Hin as [j Hj].
    pose proof (mem_lookup w l j _ k Hok Hj) as E. destruct (Hfr c (g_layout geom)).
    - cbn [vstate vallocs vheap] in *. rewrite lookup_fmap. by rewrite E.
    - simpl in *. lia.
    - simpl in *. lia. }
  eapply wp_act_bind; [unfold handle, v8_handler; fold b; by rewrite (proj2 (Z.eqb_neq _ _) Hnz)|].
  rewrite (proj2 (Z.eqb_neq _ _) Hnz).
  eapply wp_act_bind; [unfold handle, v8_handler; simpl; by rewrite lookup_insert_eq|]. apply wp_ret.
  assert (vheap_ok ((b, fresh 0) :: l)) as Hok'.
  { destruct Hok as [Hn Ha]. split; simpl; [by apply NoDup_cons|].
    intros c [->|Hc]%elem_of_cons; [unfold BUSY, usize_max; lia|by apply Ha]. }
  specialize (HQ b Hok'). unfold vstate in HQ. simpl in HQ. rewrite fmap_insert in HQ. exact HQ.
Qed.

Lemma wp_BlockList_push w F L xs b nx (Q : BlockList → vmem T → Prop) :
  bl_is L xs → vheap_ok ((b, fresh nx) :: frees 0 xs ++ F) → Z.of_nat (length xs) < usize_max →
  (∀ L', bl_is L' (b :: xs) → vheap_ok (frees 0 (b :: xs) ++ F) → Q L' (vstate w (frees 0 (b :: xs) ++ F))) →
  wp (BlockList_push L b) (vstate w ((b, fresh nx) :: frees 0 xs ++ F)) Q.
Proof.
  intros [Hh Ht Hl] Hok Hlen HQ. unfold BlockList_push.
  eapply wp_act_bind; [by apply (handle_next_store w _ 0 b (fresh nx))|]. simpl.
  apply wp_uadd; [rewrite Hl; lia|]. apply wp_ret. rewrite Hh.
  change (mkBlock8 (hd_or 0 xs) _ _) with (fresh (hd_or 0 xs)).
  apply HQ.
  - split; simpl; [done| |rewrite Hl; lia].
    rewrite (frees_blocks 0) in Hok. rewrite (hd_or_zero ((b, fresh nx) :: F) (λ _, fresh_body) 0 0 xs)
      by (eapply heap_ok_perm; [|exact Hok]; apply Permutation_middle).
    rewrite last_cons, Ht. destruct xs as [|c xs]; [done|]. rewrite bool_decide_false by done.
    by destruct (last (c :: xs)) eqn:E; [|apply last_None in E].
  - exact (heap_ok_insert _ 0 b (fresh nx) (fresh (hd_or 0 xs)) Hok eq_refl).
Qed.

Lemma wp_BlockList_pop w F L f k b xs (Q : option Z * BlockList → vmem T → Prop) :
  bl_is L (b :: xs) → vheap_ok (blocks f k 0 (b :: xs) ++ F) →
  (∀ L', bl_is L' xs → vheap_ok ((b, with_next 0 (f k)) :: blocks f (k + 1) 0 xs ++ F) →
     Q (Some b, L') (vstate w ((b, with_next 0 (f k)) :: blocks f (k + 1) 0 xs ++ F))) →
  wp (BlockList_pop L) (vstate w (blocks f k 0 (b :: xs) ++ F)) Q.
Proof.
  intros [Hh Ht Hl] Hok HQ. unfold BlockList_pop. rewrite Hh. cbn [hd_or].
  destruct (heap_ok_head _ _ _ Hok) as (Hnz & _). rewrite (proj2 (Z.eqb_neq _ _) Hnz).
  pose proof (heap_ok_insert _ 0 b _ (with_next 0 (f k)) Hok eq_refl) as Hok'. cbn [blocks app] in *.
  eapply wp_act_bind; [by eapply (handle_next_load w _ 0 b)|].
  eapply wp_act_bind; [by eapply (handle_next_store w _ 0 b)|].
  apply wp_usub; [rewrite Hl; simpl; lia|]. apply wp_ret.
  change (mkBlock8 0 _ _) with (with_next 0 (f k)). change (b_next _) with (hd_or 0 xs). apply HQ; [|done].
  split; simpl; [done| |rewrite Hl; simpl; lia].
  rewrite (hd_or_zero ((b, with_next 0 (f k)) :: F) f (k + 1) 0 xs), Ht, last_cons.
  - destruct xs as [|c xs]; [done|].
    rewrite bool_decide_false by done. by destruct (last (c :: xs)) eqn:E; [|apply last_None in E].
  - eapply heap_ok_perm; [apply Permutation_middle|done].
Qed.

Lemma wp_BlockList_pop_nil w F L (Q : option Z * BlockList → vmem T → Prop) :
  bl_is L [] → Q (None, L) (vstate w F) → wp (BlockList_pop L) (vstate w F) Q.
Proof. intros [Hh _ _] HQ. unfold BlockList_pop. by rewrite Hh. Qed.

(** The link of the last block of a chain can be redirected. *)
Lemma blocks_relink w F f k xs b nx nx' :
  last xs = Some b → vheap_ok (blocks f k nx xs ++ F) →
  handle (VStore (BNext b) nx') (vstate w (blocks f k nx xs ++ F)) = Next tt (vstate w (blocks f k nx' xs ++ F)) ∧
  vheap_ok (blocks f k nx' xs ++ F).
Proof.
  intros Hlast Hok. apply last_Some in Hlast as [xs' ->]. rewrite !blocks_app in *. cbn [hd_or blocks] in *.
  rewrite <- !app_assoc in *. set (A := blocks f k b xs') in *. cbn [app] in *.
  set (x := f _) in *.
  assert ((A ++ (b, with_next nx x) :: F) !! length A = Some (b, with_next nx x)) as Hj.
  { by rewrite lookup_app_r, Nat.sub_diag. }
  assert (<[length A := (b, with_next nx' x)]> (A ++ (b, with_next nx x) :: F) = A ++ (b, with_next nx' x) :: F) as E.
  { rewrite insert_app_r_alt by lia. by rewrite Nat.sub_diag. }
  split.
  - rewrite (handle_next_store w _ (length A) b (with_next nx x)) by done.
    change (mkBlock8 nx' _ _) with (with_next nx' x). by rewrite E.
  - rewrite <- E. by eapply heap_ok_insert.
Qed.

Lemma wp_add_assign w F L xs R ys (Q : BlockList → vmem T → Prop) :
  bl_is L xs → bl_is R ys → vheap_ok (frees 0 ys ++ frees 0 xs ++ F) →
  Z.of_nat (length xs + length ys) ≤ usize_max →
  (∀ L', bl_is L' (ys ++ xs) → vheap_ok (frees 0 (ys ++ xs) ++ F) → Q L' (vstate w (frees 0 (ys ++ xs) ++ F))) →
  wp (add_assign L R) (vstate w (frees 0 ys ++ frees 0 xs ++ F)) Q.
Proof.
  intros HL [Hh Ht Hl] Hok Hlen HQ. unfold add_assign. rewrite Hh.
  rewrite (frees_blocks 0 0 ys) in Hok |- *. rewrite (hd_or_zero _ _ _ _ _ Hok).
  destruct ys as [|y ys]; [by apply HQ|]. rewrite bool_decide_false by done.
  destruct (last (y :: ys)) as [t|] eqn:El; [|by apply last_None in El].
  destruct (blocks_relink w _ _ _ _ t 0 (hd_or 0 xs) El Hok) as [Hst Hok'].
  destruct HL as [Hh' Ht' Hl'].
  rewrite Ht, Hh'. cbn [default]. eapply wp_act_bind; [exact Hst|].
  apply wp_uadd; [rewrite Hl, Hl'; lia|]. apply wp_ret.
  rewrite <- frees_blocks in *. rewrite app_assoc, <- frees_app in *. apply HQ; [|done].
  split; [done| |cbn [bl_len]; rewrite Hl, Hl', length_app; lia]. cbn [bl_tail].
  rewrite Ht'. rewrite (hd_or_zero (frees (hd_or 0 xs) (y :: ys) ++ F) (λ _, fresh_body) 0 0 xs).
  - destruct xs as [|x xs]; [by rewrite app_nil_r, El|]. rewrite bool_decide_false, last_app by done.
    by destruct (last (x :: xs)) eqn:E; [|apply last_None in E].
  - rewrite <- frees_blocks. eapply heap_ok_perm; [|exact Hok'].
    rewrite frees_app, <- app_assoc. rewrite !app_assoc. f_equiv. apply Permutation_app_comm.
Qed.

(** The link of a block in the middle of a chain. *)
Lemma blocks_lookup F f k nx xs b ys :
  (blocks f k nx (xs ++ b :: ys) ++ F) !! length xs =
    Some (b, with_next (hd_or nx ys) (f (k + Z.of_nat (length xs)))).
Proof.
  rewrite blocks_app, <- app_assoc, lookup_app_r by (by rewrite blocks_length).
  by rewrite blocks_length, Nat.sub_diag.
Qed.

Lemma heap_ok_lookup l j b blk : vheap_ok l → l !! j = Some (b, blk) → 0 < b < BUSY.
Proof.
  intros Hok Hj. apply (ho_addr _ Hok). apply list_elem_of_fmap. exists (b, blk). split; [done|].
  by eapply list_elem_of_lookup_2.
Qed.

Lemma wp_from_raw_loop w l f k F xs rest dn fuel :
  l = blocks f k 0 xs ++ F → vheap_ok l → Z.of_nat (length xs) ≤ usize_max →
  xs = dn ++ rest → (length rest < fuel)%nat →
  wp (loop fuel (λ '(curr, tail, len),
      if curr =? 0 then Ret (inr (tail, len)) else
      nx ← act (VLoad (BNext curr));
      len' ← uadd len 1;
      Ret (inl (nx, curr, len'))) (hd_or 0 rest, default 0 (last dn), Z.of_nat (length dn))) (vstate w l)
    (λ r s, r = (default 0 (last xs), Z.of_nat (length xs)) ∧ s = vstate w l).
Proof.
  intros El Hok Hlen. revert dn fuel. induction rest as [|b rest IH]; intros dn fuel Hx Hf;
    (destruct fuel as [|fuel]; [simpl in Hf; lia|]); apply wp_loop_unfold; cbn [hd_or].
  - rewrite Z.eqb_refl. apply wp_ret. rewrite app_nil_r in Hx. by subst.
  - assert (l !! length dn = Some (b, with_next (hd_or 0 rest) (f (k + Z.of_nat (length dn))))) as Hj
      by (rewrite El, Hx; apply blocks_lookup).
    pose proof (heap_ok_lookup _ _ _ _ Hok Hj). rewrite (proj2 (Z.eqb_neq b 0)) by lia.
    eapply wp_act_bind; [by eapply handle_next_load|].
    apply wp_uadd; [subst xs; rewrite length_app in Hlen; simpl in Hlen; lia|]. apply wp_ret.
    cbn [with_next b_next]. specialize (IH (dn ++ [b]) fuel). rewrite last_snoc, length_app in IH.
    simpl in IH. rewrite Nat2Z.inj_add in IH. apply IH; [by rewrite <- app_assoc|simpl in Hf; lia].
Qed.

Lemma wp_from_raw w F f k xs fuel (Q : BlockList → vmem T → Prop) :
  vheap_ok (blocks f k 0 xs ++ F) → (length xs < fuel)%nat → Z.of_nat (length xs) ≤ usize_max →
  (∀ L, bl_is L xs → Q L (vstate w (blocks f k 0 xs ++ F))) →
  wp (from_raw fuel (hd_or 0 xs)) (vstate w (blocks f k 0 xs ++ F)) Q.
Proof.
  intros Hok Hf Hlen HQ. unfold from_raw. apply wp_bind.
  eapply wp_mono; [by apply (wp_from_raw_loop w _ f k F xs xs [] fuel)|].
  intros ? ? [-> ->]. apply wp_ret, HQ. done.
Qed.

End lists.
