(* ===== verification/V8FreeSpec.v ===== *)
(** * Destroying, resetting and caching v8 blocks

    Specifications of [Drop for OwnedBlock], [Block::reset] and the operations of
    the free list (src/src/v8/freelist.rs) when one thread uses it. *)

From S2P Require Import Prelude Prog Layout Geometry V8Block V8Layout V8Heap.

Section drop.
Context {T : Type} `{V8Geometry} `{Allocator} `{Profile}.
Implicit Types (w : vwords T) (l F : list (Z * Block8 T)) (xs ys : list Z) (x : VBlock T).

(** The values [vs] are what the counters of a virtual block say is unread. *)
Record vb_unread x (vs : list T) : Prop := {
  vu_consumed : 0 ≤ v_consumed x ≤ v_produced x;
  vu_produced : v_produced x ≤ ns;
  vu_values : take (Z.to_nat (v_produced x - v_consumed x)) (drop (Z.to_nat (v_consumed x)) (v_slots x)) =
    Some <$> vs;
  vu_length : Z.of_nat (length vs) = v_produced x - v_consumed x
}.

Definition body_unread (y : body (T:=T)) (vss : list (list T)) : Prop :=
  length y.2 = Z.to_nat nv ∧ Forall2 vb_unread y.2 vss.

(** The entry of [b] with one virtual block replaced. *)
Definition put_vb (i : Z) x (y : body (T:=T)) : body := (y.1, <[Z.to_nat i := x]> y.2).

Lemma mem_vblock w b nx y F i x :
  vheap_ok ((b, with_next nx y) :: F) → 0 ≤ i → y.2 !! Z.to_nat i = Some x →
  vblock_at (vstate w ((b, with_next nx y) :: F)) b i = Some x ∧
  (∀ f, upd_vblock b i f (vstate w ((b, with_next nx y) :: F)) =
          Some (vstate w ((b, with_next nx (put_vb i (f x) y)) :: F))) ∧
  (∀ x', vheap_ok ((b, with_next nx (put_vb i x' y)) :: F)).
Proof.
  intros Hok Hi Hx.
  assert (znth (b_vblocks (with_next nx y)) i = Some x) as Hz.
  { unfold znth. by rewrite (proj2 (Z.leb_le 0 i)). }
  split; [by eapply (vblock_lookup w _ 0)|]. split.
  - intros f. by rewrite (vblock_update w _ 0 b (with_next nx y) i x f Hok eq_refl Hz).
  - intros x'. exact (heap_ok_insert _ 0 b _ (with_next nx (put_vb i x' y)) Hok eq_refl).
Qed.

Lemma put_vb_ne i j x y : 0 ≤ i → 0 ≤ j → i ≠ j → (put_vb i x y).2 !! Z.to_nat j = y.2 !! Z.to_nat j.
Proof. intros. simpl. apply list_lookup_insert_ne. lia. Qed.

Lemma put_vb_eq i x x' y : y.2 !! Z.to_nat i = Some x' → (put_vb i x y).2 !! Z.to_nat i = Some x.
Proof. intros Hx. simpl. apply list_lookup_insert_eq. by eapply lookup_lt_Some. Qed.

Lemma put_vb_twice i x x' y : put_vb i x (put_vb i x' y) = put_vb i x y.
Proof. unfold put_vb. simpl. by rewrite list_insert_insert_eq. Qed.

Lemma vtake_slot w b nx y F i j x v :
  vheap_ok ((b, with_next nx y) :: F) → 0 ≤ i → 0 ≤ j → y.2 !! Z.to_nat i = Some x →
  v_slots x !! Z.to_nat j = Some (Some v) →
  vtake b i j (vstate w ((b, with_next nx y) :: F)) =
    Some (v, vstate w ((b, with_next nx (put_vb i (set_slot j None x) y)) :: F)).
Proof.
  intros Hok Hi Hj Hx Hv. destruct (mem_vblock w b nx y F i x Hok Hi Hx) as (Hl & Hu & _).
  unfold vtake. rewrite Hl. cbn [mbind option_bind]. unfold znth at 1.
  rewrite (proj2 (Z.leb_le 0 j)), Hv by done. cbn [mbind option_bind]. by rewrite Hu.
Qed.

Lemma take_drop_cons (xs : list (option T)) n j v vs :
  take n (drop j xs) = Some <$> v :: vs → xs !! j = Some (Some v).
Proof.
  intros E. destruct (drop j xs) as [|a zs] eqn:Ed; [by rewrite take_nil in E|].
  destruct n as [|n]; [done|]. simpl in E. injection E as -> _.
  rewrite <- (Nat.add_0_r j), <- lookup_drop, Ed. done.
Qed.

(** Dropping consecutive slots of one virtual block. *)
Lemma wp_drop_values w b nx y F i x j vs (Q : unit → vmem T → Prop) :
  vheap_ok ((b, with_next nx y) :: F) → 0 ≤ i → 0 ≤ j → y.2 !! Z.to_nat i = Some x →
  take (length vs) (drop (Z.to_nat j) (v_slots x)) = Some <$> vs →
  (∀ x', vheap_ok ((b, with_next nx (put_vb i x' y)) :: F) →
     Q tt (vstate (w_set_dropped (w_dropped w ++ vs) w) ((b, with_next nx (put_vb i x' y)) :: F))) →
  wp (for_range (length vs) j (λ j, act (VDropSlot b i j))) (vstate w ((b, with_next nx y) :: F)) Q.
Proof.
  revert w y j x. induction vs as [|v vs IH]; intros w y j x Hok Hi Hj Hx Hvs HQ.
  - apply wp_ret. specialize (HQ x). rewrite app_nil_r in HQ.
    assert (put_vb i x y = y) as E by (unfold put_vb; rewrite list_insert_id by done; by destruct y).
    rewrite E in HQ. destruct w. by apply HQ.
  - cbn [length for_range]. pose proof (take_drop_cons _ _ _ _ _ Hvs) as Hv.
    destruct (mem_vblock w b nx y F i x Hok Hi Hx) as (_ & _ & Hok').
    eapply wp_act_bind.
    { unfold handle, v8_handler. rewrite (vtake_slot w b nx y F i j x v) by done. reflexivity. }
    change (set_vdropped _ _) with
      (vstate (w_set_dropped (w_dropped w ++ [v]) w) ((b, with_next nx (put_vb i (set_slot j None x) y)) :: F)).
    apply (IH _ _ _ (set_slot j None x)); [done|done|lia|by eapply put_vb_eq| |].
    + simpl. replace (Z.to_nat (j + 1)) with (S (Z.to_nat j)) by lia.
      rewrite drop_insert_lt by lia. cbn [length] in Hvs.
      assert (drop (S (Z.to_nat j)) (v_slots x) = drop 1 (drop (Z.to_nat j) (v_slots x))) as ->
        by (rewrite drop_drop; f_equal; lia).
      destruct (drop (Z.to_nat j) (v_slots x)); [done|]. simpl in *. by injection Hvs.
    + intros x' Hx'. rewrite put_vb_twice in *. specialize (HQ x' Hx').
      cbn [w_set_dropped w_dropped w_pblock w_pindex w_cblock w_cindex w_free] in *.
      by rewrite <- app_assoc.
Qed.

(** [Drop for OwnedBlock] destroys the unread values of the block in order and
    frees it. *)
Lemma wp_Block_drop_loop w b nx y F vss n i (Q : unit → vmem T → Prop) :
  vheap_ok ((b, with_next nx y) :: F) → body_unread y vss →
  0 ≤ i → i + Z.of_nat n = nv →
  (∀ y', vheap_ok ((b, with_next nx y') :: F) →
     Q tt (vstate (w_set_dropped (w_dropped w ++ concat (drop (Z.to_nat i) vss)) w) ((b, with_next nx y') :: F))) →
  wp (for_range n i (λ i,
    vblock_ok i;;
    consumed ← act (VLoad (VConsumed b i));
    produced ← act (VLoad (VProduced b i));
    if consumed <? produced then
      slots_ok i consumed;;
      for_range (Z.to_nat (produced - consumed)) consumed (λ j, act (VDropSlot b i j))
    else Ret tt)) (vstate w ((b, with_next nx y) :: F)) Q.
Proof.
  intros Hok [Hlen Hall]. assert (∀ j, 0 ≤ j → i ≤ j → ∀ x, y.2 !! Z.to_nat j = Some x →
    ∃ vs, vss !! Z.to_nat j = Some vs ∧ vb_unread x vs) as Hrest.
  { intros j _ _ x Hx. by eapply Forall2_lookup_l in Hall. }
  assert (length y.2 = length vss) as Hlen2 by (by eapply Forall2_length). clear Hall.
  revert w y i Hok Hlen Hlen2 Hrest.
  induction n as [|n IH]; intros w y i Hok Hlen Hlen2 Hrest Hi Hn HQ.
  { apply wp_ret. rewrite drop_ge in HQ by lia. simpl in HQ. rewrite app_nil_r in HQ. destruct w. by apply HQ. }
  cbn [for_range]. apply wp_bind. unfold vblock_ok.
  apply wp_debug_assert; [apply Z.ltb_lt; lia|].
  destruct (lookup_lt_is_Some_2 y.2 (Z.to_nat i)) as [x Hx]; [lia|].
  destruct (Hrest i Hi ltac:(lia) x Hx) as (vs & Hvs & [Hc Hp Hval Hl]).
  destruct (mem_vblock w b nx y F i x Hok Hi Hx) as (Hat & _ & _).
  eapply wp_act_bind; [apply handle_vload; unfold vrd; by rewrite Hat|].
  eapply wp_act_bind; [apply handle_vload; unfold vrd; by rewrite Hat|].
  assert (drop (Z.to_nat i) vss = vs :: drop (Z.to_nat (i + 1)) vss) as Ed.
  { rewrite (drop_S _ _ _ Hvs). do 2 f_equal. lia. }
  assert (∀ x', vheap_ok ((b, with_next nx (put_vb i x' y)) :: F) →
    wp (for_range n (i + 1) (λ i,
      vblock_ok i;;
      consumed ← act (VLoad (VConsumed b i));
      produced ← act (VLoad (VProduced b i));
      if consumed <? produced then
        slots_ok i consumed;;
        for_range (Z.to_nat (produced - consumed)) consumed (λ j, act (VDropSlot b i j))
      else Ret tt)) (vstate (w_set_dropped (w_dropped w ++ vs) w) ((b, with_next nx (put_vb i x' y)) :: F)) Q) as Hnext.
  { intros x' Hok'. apply IH; [done|by simpl; rewrite length_insert|by simpl; rewrite length_insert| |lia|lia|].
    - intros j Hj Hij x'' Hx''. rewrite put_vb_ne in Hx'' by lia. apply (Hrest j); [done|lia|done].
    - intros y' Hy'. specialize (HQ y' Hy'). rewrite Ed in HQ.
      cbn [w_set_dropped w_dropped w_pblock w_pindex w_cblock w_cindex w_free concat] in *.
      by rewrite <- app_assoc. }
  destruct (Z.ltb_spec (v_consumed x) (v_produced x)).
  - unfold slots_ok. rewrite !debug_assert_ok by (apply Z.ltb_lt; lia). cbn [mbind prog_mbind prog_bind].
    replace (Z.to_nat (v_produced x - v_consumed x)) with (length vs) in * by lia.
    by eapply (wp_drop_values w b nx y F i x); [done|done|lia|done|done|].
  - apply wp_ret. assert (vs = []) as -> by (destruct vs; simpl in *; [done|lia]).
    specialize (Hnext x). rewrite app_nil_r in Hnext.
    assert (put_vb i x y = y) as E by (unfold put_vb; rewrite list_insert_id by done; by destruct y).
    rewrite E in Hnext. destruct w. by apply Hnext.
Qed.

Lemma heap_ok_tail b blk F : vheap_ok ((b, blk) :: F) → vheap_ok F ∧ (list_to_map F : gmap Z (Block8 T)) !! b = None.
Proof.
  intros [Hn Ha]. simpl in *. apply NoDup_cons in Hn as [Hb Hn]. split; [|by apply not_elem_of_list_to_map_1].
  split; [done|]. intros c Hc. apply Ha. by right.
Qed.

Lemma wp_OwnedBlock_drop w b nx y F vss (Q : unit → vmem T → Prop) :
  vheap_ok ((b, with_next nx y) :: F) → body_unread y vss →
  (vheap_ok F → Q tt (vstate (w_set_dropped (w_dropped w ++ concat vss) w) F)) →
  wp (OwnedBlock_drop b) (vstate w ((b, with_next nx y) :: F)) Q.
Proof.
  intros Hok Hy HQ. destruct (heap_ok_tail _ _ _ Hok) as [HF Hnone]. destruct geom_facts as (_ & Hnv & _).
  unfold OwnedBlock_drop, Block_drop. apply wp_bind, wp_bind.
  apply (wp_Block_drop_loop w b nx y F vss); [done|done|lia|lia|]. intros y' Hok'.
  eapply wp_act.
  { unfold handle, v8_handler. cbn [vstate vheap list_to_map foldr]. simpl. rewrite lookup_insert_eq. reflexivity. }
  eapply wp_act.
  { unfold handle, v8_handler. cbn [set_vheap vstate vallocs vheap]. simpl.
    rewrite fmap_insert, lookup_insert_eq. simpl. rewrite lookup_delete_eq, !bool_decide_true by done. reflexivity. }
  specialize (HQ HF). unfold vstate in HQ |- *. cbn [w_set_dropped w_pblock w_pindex w_cblock w_cindex w_free w_dropped] in *.
  rewrite drop_0. unfold set_vallocs; simpl. rewrite !delete_insert_eq.
  rewrite !delete_id; [done|by rewrite lookup_fmap, Hnone|done].
Qed.

Lemma fresh_unread : body_unread fresh_body (replicate (Z.to_nat nv) []).
Proof.
  destruct geom_facts as (Hns & _). split; [apply length_replicate|]. unfold fresh_body. simpl.
  apply Forall2_replicate. split; simpl; try lia. done.
Qed.

Lemma concat_replicate_nil n : concat (replicate n ([] : list T)) = [].
Proof. by induction n. Qed.

(** Draining an owned list: every block is destroyed, front to back. *)
Lemma wp_drain_loop w F L f k n xs vs fuel (Q : Z → vmem T → Prop) :
  bl_is L xs → vheap_ok (blocks f k 0 xs ++ F) → (length xs < fuel)%nat →
  (∀ i, k ≤ i < k + Z.of_nat (length xs) → body_unread (f i) (vs i)) →
  (vheap_ok F → Q (n + Z.of_nat (length xs))
     (vstate (w_set_dropped (w_dropped w ++ concat ((λ i, concat (vs i)) <$> seqZ k (Z.of_nat (length xs)))) w) F)) →
  wp (loop fuel (λ '(L, freed),
    '(b, L) ← BlockList_pop L;
    match b with
    | Some b => OwnedBlock_drop b;; Ret (inl (L, freed + 1))
    | None => Ret (inr freed)
    end) (L, n)) (vstate w (blocks f k 0 xs ++ F)) Q.
Proof.
  intros HL. revert w L k n fuel HL.
  induction xs as [|b xs IH]; intros w L k n fuel HL Hok Hf Hvs HQ;
    (destruct fuel as [|fuel]; [simpl in Hf; lia|]); apply wp_loop_unfold, wp_bind.
  - apply wp_BlockList_pop_nil; [done|]. apply wp_ret. simpl in HQ. rewrite app_nil_r, Z.add_0_r in HQ.
    destruct w. by apply HQ.
  - apply (wp_BlockList_pop w F L f k b xs); [done|done|]. intros L' HL' Hok'.
    apply wp_bind. apply (wp_OwnedBlock_drop w b 0 (f k) _ (vs k)); [done|apply Hvs; simpl; lia|].
    intros Hok''. apply wp_ret. apply IH; [done|done|simpl in Hf; lia| |].
    + intros i Hi. apply Hvs. simpl. lia.
    + intros HF. specialize (HQ HF). cbn [length] in HQ.
      replace (Z.of_nat (S (length xs))) with (Z.succ (Z.of_nat (length xs))) in HQ by lia.
      rewrite (seqZ_cons k) in HQ by lia. rewrite Z.pred_succ in HQ. cbn [fmap list_fmap concat] in HQ.
      replace (n + Z.succ (Z.of_nat (length xs))) with (n + 1 + Z.of_nat (length xs)) in HQ by lia.
      cbn [w_set_dropped w_dropped w_pblock w_pindex w_cblock w_cindex w_free] in *.
      rewrite <- app_assoc. replace (k + 1) with (Z.succ k) by lia. exact HQ.
Qed.

Lemma wp_drain_list w F L f k xs vs fuel (Q : Z → vmem T → Prop) :
  bl_is L xs → vheap_ok (blocks f k 0 xs ++ F) → (length xs < fuel)%nat →
  (∀ i, k ≤ i < k + Z.of_nat (length xs) → body_unread (f i) (vs i)) →
  (vheap_ok F → Q (Z.of_nat (length xs))
     (vstate (w_set_dropped (w_dropped w ++ concat ((λ i, concat (vs i)) <$> seqZ k (Z.of_nat (length xs)))) w) F)) →
  wp (drain_list fuel L) (vstate w (blocks f k 0 xs ++ F)) Q.
Proof. intros. by apply (wp_drain_loop w F L f k 0 xs vs). Qed.

Lemma wp_drain_fresh w F L xs fuel (Q : Z → vmem T → Prop) :
  bl_is L xs → vheap_ok (frees 0 xs ++ F) → (length xs < fuel)%nat →
  (vheap_ok F → Q (Z.of_nat (length xs)) (vstate w F)) →
  wp (drain_list fuel L) (vstate w (frees 0 xs ++ F)) Q.
Proof.
  intros HL Hok Hf HQ. rewrite (frees_blocks 0) in *.
  apply (wp_drain_list w F L _ _ xs (λ _, replicate (Z.to_nat nv) [])); [done|done|done|intros; apply fresh_unread|].
  intros HF. rewrite concat_replicate_nil, concat_fmap_nil, app_nil_r. destruct w. by apply HQ.
Qed.

(** [Block::reset] makes a drained block fresh. *)
Definition drained x : Prop :=
  v_produced x = v_consumed x ∧ v_slots x = replicate (Z.to_nat ns) None.

Lemma wp_reset_loop w b nx y F n i (Q : unit → vmem T → Prop) :
  vheap_ok ((b, with_next nx y) :: F) → length y.2 = Z.to_nat nv → 0 ≤ i → i + Z.of_nat n = nv →
  (∀ j x, i ≤ j → y.2 !! Z.to_nat j = Some x → drained x) →
  take (Z.to_nat i) y.2 = replicate (Z.to_nat i) (mkVBlock 0 0 (replicate (Z.to_nat ns) None)) →
  (vheap_ok ((b, with_next nx (y.1, fresh_body.2)) :: F) →
   Q tt (vstate w ((b, with_next nx (y.1, fresh_body.2)) :: F))) →
  wp (for_range n i (λ i,
    vblock_ok i;;
    (if debug_assertions then
       p ← act (VLoad (VProduced b i));
       c ← act (VLoad (VConsumed b i));
       debug_assert (p =? c)
     else Ret tt);;
    act (VStore (VProduced b i) 0);;
    act (VStore (VConsumed b i) 0))) (vstate w ((b, with_next nx y) :: F)) Q.
Proof.
  revert y i. induction n as [|n IH]; intros y i Hok Hlen Hi Hn Hdr Hpre HQ.
  { apply wp_ret. rewrite take_ge in Hpre by lia. destruct y as [c vbs]. simpl in *. subst vbs.
    assert (i = nv) as -> by lia. by apply HQ. }
  cbn [for_range]. apply wp_bind. unfold vblock_ok. apply wp_debug_assert; [apply Z.ltb_lt; lia|].
  destruct (lookup_lt_is_Some_2 y.2 (Z.to_nat i)) as [x Hx]; [lia|].
  destruct (Hdr i x ltac:(lia) Hx) as [Hpc Hsl].
  destruct (mem_vblock w b nx y F i x Hok Hi Hx) as (Hat & Hup & Hok').
  apply wp_bind. eapply (wp_mono _ _ (λ _ s, s = vstate w ((b, with_next nx y) :: F))).
  { destruct (debug_assertions) eqn:Ed; [|by apply wp_ret].
    eapply wp_act_bind; [apply handle_vload; unfold vrd; by rewrite Hat|].
    eapply wp_act_bind; [apply handle_vload; unfold vrd; by rewrite Hat|].
    unfold debug_assert. rewrite Hpc, Z.eqb_refl, andb_false_r. by apply wp_ret. }
  intros ? ? ->. eapply wp_act_bind; [apply handle_vstore; unfold vwr; apply Hup|].
  cbn beta. pose (x1 := mkVBlock 0 (v_consumed x) (v_slots x)). fold x1.
  destruct (mem_vblock w b nx (put_vb i x1 y) F i x1 (Hok' x1) Hi (put_vb_eq _ _ _ _ Hx)) as (_ & Hup1 & Hok1).
  eapply wp_act; [apply handle_vstore; unfold vwr; apply Hup1|].
  rewrite put_vb_twice. cbn beta. pose (x2 := mkVBlock (v_produced x1) 0 (v_slots x1)). fold x2.
  apply IH.
  - apply Hok'.
  - simpl. by rewrite length_insert.
  - lia.
  - lia.
  - intros j x' Hj Hx'. rewrite put_vb_ne in Hx' by lia. apply (Hdr j); [lia|done].
  - replace (Z.to_nat (i + 1)) with (S (Z.to_nat i)) by lia. rewrite replicate_S_end. cbn [put_vb snd].
    rewrite (take_S_r _ _ x2) by (apply list_lookup_insert_eq; lia).
    rewrite take_insert_ge, Hpre by lia. do 2 f_equal. unfold x2, x1. simpl. by rewrite Hsl.
  - exact HQ.
Qed.

Lemma wp_Block_reset w b nx y F (Q : unit → vmem T → Prop) :
  vheap_ok ((b, with_next nx y) :: F) → length y.2 = Z.to_nat nv → Forall drained y.2 →
  (vheap_ok ((b, fresh 0) :: F) → Q tt (vstate w ((b, fresh 0) :: F))) →
  wp (Block_reset b) (vstate w ((b, with_next nx y) :: F)) Q.
Proof.
  intros Hok Hlen Hdr HQ. destruct geom_facts as (_ & Hnv & _). unfold Block_reset. apply wp_bind.
  apply (wp_reset_loop w b nx y F); [done|done|lia|lia| |done|].
  { intros j x _ Hx. by eapply Forall_lookup_1. }
  intros Hok1. pose proof (heap_ok_insert _ 0 b _ (fresh 0) Hok1 eq_refl) as Hok2.
  eapply wp_act_bind; [apply handle_vstore; unfold vwr; by apply (mem_update w _ 0 b)|]. cbn [insert list_insert].
  eapply wp_act; [apply handle_vstore; unfold vwr; apply (mem_update w _ 0 b); [|reflexivity]|].
  - exact (heap_ok_insert _ 0 b _ _ Hok1 eq_refl).
  - by apply HQ.
Qed.

End drop.

Section freelist.
Context {T : Type} `{V8Geometry} `{Allocator} `{Profile}.
Implicit Types (w : vwords T) (l F : list (Z * Block8 T)) (xs ys cache : list Z).

Lemma w_set_free_twice w a b : w_set_free a (w_set_free b w) = w_set_free a w.
Proof. done. Qed.

Lemma w_set_free_id w a : w_free w = a → w_set_free a w = w.
Proof. by destruct w; simpl; intros ->. Qed.

Lemma mem_set_fl_head w l a : set_fl_head a (vstate w l) = vstate (w_set_free a w) l.
Proof. done. Qed.

(** The walk over the prefix that [take] detaches. *)
Lemma wp_take_walk w l F cache limit rest dn fuel :
  l = frees 0 cache ++ F → vheap_ok l → cache = dn ++ rest → Z.of_nat (length dn) ≤ limit →
  (length rest < fuel)%nat →
  wp (loop fuel (λ '(rest, tail, len),
        if (len <? limit) && negb (rest =? 0) then
          nx ← act (VLoad (BNext rest));
          Ret (inl (nx, rest, len + 1))
        else Ret (inr (rest, tail, len))) (hd_or 0 rest, default 0 (last dn), Z.of_nat (length dn))) (vstate w l)
    (λ r s, r = (hd_or 0 (drop (Z.to_nat limit) cache), default 0 (last (take (Z.to_nat limit) cache)),
                 Z.of_nat (length (take (Z.to_nat limit) cache))) ∧ s = vstate w l).
Proof.
  intros El Hok. revert dn fuel. induction rest as [|b rest IH]; intros dn fuel Hx Hdn Hf;
    (destruct fuel as [|fuel]; [simpl in Hf; lia|]); apply wp_loop_unfold; cbn [hd_or].
  - rewrite andb_false_r. apply wp_ret. rewrite app_nil_r in Hx. subst dn.
    rewrite drop_ge, take_ge by lia. done.
  - assert (l !! length dn = Some (b, fresh (hd_or 0 rest))) as Hj.
    { rewrite El, Hx, (frees_blocks 0). apply blocks_lookup. }
    pose proof (heap_ok_lookup _ _ _ _ Hok Hj). rewrite (proj2 (Z.eqb_neq b 0)), andb_true_r by lia.
    destruct (Z.ltb_spec (Z.of_nat (length dn)) limit) as [Hlt|Hge].
    + eapply wp_act_bind; [by eapply handle_next_load|]. apply wp_ret.
      cbn [fresh with_next b_next]. specialize (IH (dn ++ [b]) fuel). rewrite last_snoc, length_app in IH.
      simpl in IH. rewrite Nat2Z.inj_add in IH. apply IH; [by rewrite <- app_assoc|lia|simpl in Hf; lia].
    + apply wp_ret. assert (Z.to_nat limit = length dn) as -> by lia.
      by rewrite Hx, take_app_length, drop_app_length.
Qed.

Lemma wp_fl_take w F cache limit fuel (Q : BlockList → vmem T → Prop) :
  w_free w = hd_or 0 cache → vheap_ok (frees 0 cache ++ F) → 0 ≤ limit → (length cache < fuel)%nat →
  (∀ L, bl_is L (take (Z.to_nat limit) cache) →
     vheap_ok (frees 0 (take (Z.to_nat limit) cache) ++ frees 0 (drop (Z.to_nat limit) cache) ++ F) →
     Q L (vstate (w_set_free (hd_or 0 (drop (Z.to_nat limit) cache)) w)
       (frees 0 (take (Z.to_nat limit) cache) ++ frees 0 (drop (Z.to_nat limit) cache) ++ F))) →
  wp (fl_take fuel limit) (vstate w (frees 0 cache ++ F)) Q.
Proof.
  intros Hw Hok Hlim Hf HQ. unfold fl_take. destruct (Z.eqb_spec limit 0) as [->|Hnz].
  { apply wp_ret. cbn [Z.to_nat] in HQ. rewrite take_0, drop_0, w_set_free_id in HQ by done. by apply HQ. }
  eapply wp_act_bind; [apply handle_vload; unfold vrd; reflexivity|]. cbn [vstate fl_head]. rewrite Hw.
  destruct cache as [|c cache].
  { apply wp_bind. destruct fuel as [|fuel]; [simpl in Hf; lia|]. apply wp_loop_unfold, wp_ret, wp_ret.
    rewrite take_nil, drop_nil, w_set_free_id in HQ by done. by apply HQ. }
  cbn [hd_or]. destruct (heap_ok_head _ _ _ Hok) as (Hc0 & HcB & _).
  apply wp_bind. destruct fuel as [|fuel]; [simpl in Hf; lia|]. apply wp_loop_unfold.
  rewrite (proj2 (Z.eqb_neq c 0)), (proj2 (Z.eqb_neq c BUSY)) by done. cbn [orb].
  eapply wp_act_bind.
  { apply handle_vcas_ok; [unfold vrd; cbn [vstate fl_head]; by rewrite Hw|unfold vwr; reflexivity]. }
  apply wp_ret. cbn beta iota. rewrite mem_set_fl_head.
  apply wp_bind. eapply wp_mono.
  { apply (wp_take_walk (w_set_free BUSY w) _ F (c :: cache) limit (c :: cache) [] (S fuel)); try done. }
  intros ? ? [-> ->]. set (n := Z.to_nat limit) in *.
  assert (0 < n)%nat as Hn by (unfold n; lia).
  destruct (last (take n (c :: cache))) as [t|] eqn:El.
  2: { apply last_None in El. destruct n; [lia|done]. }
  assert (blocks (λ _, fresh_body (T:=T)) 0 0 (c :: cache) =
    blocks (λ _, fresh_body) 0 (hd_or 0 (drop n (c :: cache))) (take n (c :: cache)) ++ frees 0 (drop n (c :: cache)))
    as Esplit.
  { rewrite <- (take_drop n (c :: cache)) at 1. rewrite blocks_app. f_equal. symmetry. apply frees_blocks. }
  rewrite (frees_blocks 0) in Hok |- *. rewrite Esplit, <- app_assoc in Hok |- *.
  destruct (blocks_relink (w_set_free BUSY w) _ _ _ _ t _ 0 El Hok) as [Hst Hok'].
  change (default 0 (Some t)) with t. eapply wp_act_bind; [exact Hst|].
  eapply wp_act_bind; [apply handle_vstore; unfold vwr; reflexivity|].
  rewrite mem_set_fl_head, w_set_free_twice. rewrite <- frees_blocks in *.
  unfold from_raw_parts.
  assert (t ≠ 0) as Ht.
  { apply last_Some in El as [pre Ep]. rewrite Ep, (frees_blocks 0) in Hok'.
    pose proof (heap_ok_lookup _ _ _ _ Hok' (blocks_lookup _ _ _ _ _ _ _)). lia. }
  assert (0 < Z.of_nat (length (take n (c :: cache)))).
  { destruct n; [lia|]. simpl. lia. }
  rewrite (proj2 (Z.eqb_neq c 0)), (proj2 (Z.eqb_neq t 0)), (proj2 (Z.eqb_neq (Z.of_nat _) 0)) by lia.
  apply wp_debug_assert; [done|]. apply wp_debug_assert; [done|]. apply wp_ret. apply HQ; [|done].
  split; cbn [bl_head bl_tail bl_len]; [by destruct n; [lia|]|by rewrite El|done].
Qed.

(** [recycle]: a drained block becomes the first of the cache. *)
Lemma wp_fl_recycle w F cache b nx y fuel (Q : unit → vmem T → Prop) :
  w_free w = hd_or 0 cache → vheap_ok ((b, with_next nx y) :: frees 0 cache ++ F) →
  length y.2 = Z.to_nat nv → Forall drained y.2 → (0 < fuel)%nat →
  (vheap_ok (frees 0 (b :: cache) ++ F) → Q tt (vstate (w_set_free b w) (frees 0 (b :: cache) ++ F))) →
  wp (fl_recycle fuel b) (vstate w ((b, with_next nx y) :: frees 0 cache ++ F)) Q.
Proof.
  intros Hw Hok Hlen Hdr Hf HQ. unfold fl_recycle. apply wp_bind.
  apply (wp_Block_reset w b nx y); [done|done|done|]. intros Hok1.
  eapply wp_act_bind; [apply handle_vload; unfold vrd; reflexivity|]. cbn [vstate fl_head]. rewrite Hw.
  destruct fuel as [|fuel]; [lia|]. apply wp_loop_unfold.
  assert (hd_or 0 cache ≠ BUSY) as Hnb.
  { destruct cache as [|c cache]; [done|]. cbn [hd_or frees app] in *.
    assert (0 < c < BUSY); [|lia]. apply (ho_addr _ Hok1). right. left. }
  rewrite (proj2 (Z.eqb_neq _ _) Hnb).
  eapply wp_act_bind; [by eapply (handle_next_store w _ 0 b)|]. cbn [insert list_insert].
  change (mkBlock8 (hd_or 0 cache) _ _) with (fresh (T:=T) (hd_or 0 cache)).
  pose proof (heap_ok_insert _ 0 b _ (fresh (hd_or 0 cache)) Hok1 eq_refl) as Hok2.
  eapply wp_act_bind.
  { apply handle_vcas_ok; [unfold vrd; cbn [vstate fl_head]; by rewrite Hw|unfold vwr; reflexivity]. }
  apply wp_ret. rewrite mem_set_fl_head. by apply HQ.
Qed.

(** The round trips through the cache of [acquire]: [xs] is what it has so far. *)
Lemma wp_acquire_loop w F cache xs L remaining fuel m (Q : BlockList → vmem T → Prop) :
  w_free w = hd_or 0 (drop (length xs) cache) → bl_is L xs →
  vheap_ok (frees 0 (drop (length xs) cache) ++ frees 0 xs ++ F) → 0 ≤ remaining →
  Z.of_nat (length xs) + remaining ≤ usize_max → (length cache < fuel)%nat → (Z.to_nat remaining < m)%nat →
  (∀ L' xs' cache', bl_is L' xs' → length xs' = (length xs + Z.to_nat remaining)%nat →
     cache' = drop (length xs') cache →
     vheap_ok (frees 0 xs' ++ frees 0 cache' ++ F) →
     Q L' (vstate (w_set_free (hd_or 0 cache') w) (frees 0 xs' ++ frees 0 cache' ++ F))) →
  wp (loop m (λ '(blocks, remaining),
    if remaining =? 0 then Ret (inr blocks) else
    cached ← fl_take fuel remaining;
    remaining ← usub remaining (bl_len cached);
    blocks ← add_assign blocks cached;
    if negb (remaining =? 0) then
      b ← OwnedBlock_new;
      blocks ← BlockList_push blocks b;
      Ret (inl (blocks, remaining - 1))
    else Ret (inl (blocks, remaining))) (L, remaining)) (vstate w (frees 0 (drop (length xs) cache) ++ frees 0 xs ++ F)) Q.
Proof.
  revert w xs L remaining. induction m as [|m IH]; intros w xs L r Hw HL Hok Hr Hmax Hf Hm HQ; [lia|].
  apply wp_loop_unfold. destruct (Z.eqb_spec r 0) as [->|Hnz].
  { apply wp_ret. cbn [Z.to_nat] in HQ. rewrite Nat.add_0_r in HQ.
    assert (frees 0 (drop (length xs) cache) ++ frees 0 xs ++ F ≡ₚ frees 0 xs ++ frees 0 (drop (length xs) cache) ++ F)
      as Hp by (rewrite !app_assoc; f_equiv; apply Permutation_app_comm).
    rewrite (mem_perm w _ _ Hok Hp). specialize (HQ L xs _ HL eq_refl eq_refl). rewrite w_set_free_id in HQ by done.
    apply HQ. by eapply heap_ok_perm. }
  set (now := drop (length xs) cache) in *. apply wp_bind.
  apply (wp_fl_take w _ now r fuel); [done|done|lia|unfold now; rewrite length_drop; lia|]. intros C HC Hok1.
  set (got := take (Z.to_nat r) now) in *. set (left := drop (Z.to_nat r) now) in *.
  rewrite (bi_len _ _ HC). assert (length got ≤ Z.to_nat r)%nat as Hgot by (unfold got; rewrite length_take; lia).
  apply wp_usub; [lia|]. apply wp_bind.
  assert (frees 0 got ++ frees 0 left ++ frees 0 xs ++ F ≡ₚ frees 0 got ++ frees 0 xs ++ frees 0 left ++ F) as Hp1
    by (f_equiv; rewrite !app_assoc; f_equiv; apply Permutation_app_comm).
  rewrite (mem_perm _ _ _ Hok1 Hp1). pose proof (heap_ok_perm _ _ Hp1 Hok1) as Hok1'.
  apply (wp_add_assign _ _ L xs C got); [done|done|done|lia|]. intros L2 HL2 Hok2.
  assert (frees 0 (got ++ xs) ++ frees 0 left ++ F ≡ₚ frees 0 left ++ frees 0 (got ++ xs) ++ F) as Hp2
    by (rewrite !app_assoc; f_equiv; apply Permutation_app_comm).
  rewrite (mem_perm _ _ _ Hok2 Hp2). pose proof (heap_ok_perm _ _ Hp2 Hok2) as Hok2'.
  assert (∀ ys, (length xs + length got ≤ length ys ≤ length xs + Z.to_nat r)%nat →
    ((length ys = length xs + length got)%nat ∨ (length got < Z.to_nat r)%nat) →
    left = drop (length ys) cache) as Hleft.
  { intros ys Hys Hor.
    assert (length got = Nat.min (Z.to_nat r) (length cache - length xs)) as Eg
      by (unfold got, now; rewrite length_take, length_drop; lia).
    unfold left, now. rewrite drop_drop.
    destruct (decide (Z.to_nat r ≤ length cache - length xs)%nat).
    - f_equal. lia.
    - rewrite !drop_ge by lia. done. }
  destruct (Z.eqb_spec (r - Z.of_nat (length got)) 0) as [E|Hne]; cbn [negb].
  - apply wp_ret. rewrite E.
    assert (left = drop (length (got ++ xs)) cache) as El by (apply Hleft; rewrite length_app; lia).
    rewrite El in *. apply IH; [done|done|done|lia|rewrite length_app; lia|done|lia|].
    intros L' xs' cache' HL' Hlen' -> Hok'. rewrite w_set_free_twice. apply HQ; try done.
    rewrite Hlen', length_app. lia.
  - apply wp_bind, wp_OwnedBlock_new; [done|]. intros b Hok3. apply wp_bind.
    assert ((b, fresh 0) :: frees 0 left ++ frees 0 (got ++ xs) ++ F ≡ₚ
            (b, fresh 0) :: frees 0 (got ++ xs) ++ frees 0 left ++ F) as Hp3 by (by rewrite Hp2).
    rewrite (mem_perm _ _ _ Hok3 Hp3). pose proof (heap_ok_perm _ _ Hp3 Hok3) as Hok3'.
    apply (wp_BlockList_push _ _ L2 (got ++ xs)); [done|done|rewrite length_app; lia|]. intros L4 HL4 Hok4.
    apply wp_ret.
    assert (left = drop (length (b :: got ++ xs)) cache) as El.
    { apply Hleft; simpl; rewrite length_app; lia. }
    assert (frees 0 (b :: got ++ xs) ++ frees 0 left ++ F ≡ₚ frees 0 left ++ frees 0 (b :: got ++ xs) ++ F) as Hp4
      by (rewrite !app_assoc; f_equiv; apply Permutation_app_comm).
    rewrite (mem_perm _ _ _ Hok4 Hp4). pose proof (heap_ok_perm _ _ Hp4 Hok4) as Hok4'.
    rewrite El in *. apply IH; [done|done|done|lia|simpl; rewrite length_app; lia|done|lia|].
    intros L' xs' cache' HL' Hlen' -> Hok'. rewrite w_set_free_twice. apply HQ; try done.
    rewrite Hlen'. simpl. rewrite length_app. lia.
Qed.

(** [acquire]: [count] fresh blocks, from the cache first. *)
Lemma wp_fl_acquire w F cache count fuel (Q : BlockList → vmem T → Prop) :
  w_free w = hd_or 0 cache → vheap_ok (frees 0 cache ++ F) → 0 ≤ count ≤ usize_max →
  (length cache < fuel)%nat → (Z.to_nat count < fuel)%nat →
  (∀ L xs, bl_is L xs → length xs = Z.to_nat count →
     vheap_ok (frees 0 xs ++ frees 0 (drop (length xs) cache) ++ F) →
     Q L (vstate (w_set_free (hd_or 0 (drop (length xs) cache)) w)
       (frees 0 xs ++ frees 0 (drop (length xs) cache) ++ F))) →
  wp (fl_acquire fuel count) (vstate w (frees 0 cache ++ F)) Q.
Proof.
  intros Hw Hok Hc Hf1 Hf2 HQ. unfold fl_acquire.
  apply (wp_acquire_loop w F cache [] BlockList_new count fuel fuel); cbn [length]; try done; try lia.
  intros L xs cache' HL Hlen -> Hok'. by apply HQ.
Qed.

Lemma wp_fl_flush w F cache fuel (Q : Z → vmem T → Prop) :
  w_free w = hd_or 0 cache → vheap_ok (frees 0 cache ++ F) → Z.of_nat (length cache) ≤ usize_max →
  (length cache < fuel)%nat →
  (vheap_ok F → Q (Z.of_nat (length cache)) (vstate (w_set_free 0 w) F)) →
  wp (fl_flush fuel) (vstate w (frees 0 cache ++ F)) Q.
Proof.
  intros Hw Hok Hlen Hf HQ. unfold fl_flush. apply wp_bind.
  apply (wp_fl_take w F cache usize_max); [done|done|done|done|]. intros L HL Hok'.
  rewrite take_ge, drop_ge in * by lia. by apply (wp_drain_fresh _ _ _ cache).
Qed.

Lemma wp_FreeList_drop w F cache fuel (Q : unit → vmem T → Prop) :
  w_free w = hd_or 0 cache → vheap_ok (frees 0 cache ++ F) → Z.of_nat (length cache) ≤ usize_max →
  (length cache < fuel)%nat →
  (vheap_ok F → Q tt (vstate w F)) →
  wp (FreeList_drop fuel) (vstate w (frees 0 cache ++ F)) Q.
Proof.
  intros Hw Hok Hlen Hf HQ. unfold FreeList_drop.
  eapply wp_act_bind; [apply handle_vload; unfold vrd; reflexivity|]. cbn [vstate fl_head]. rewrite Hw.
  apply wp_debug_assert.
  { destruct cache as [|c cache]; [done|]. destruct (heap_ok_head _ _ _ Hok) as (_ & HcB & _). cbn [hd_or].
    by rewrite (proj2 (Z.eqb_neq _ _) HcB). }
  rewrite (frees_blocks 0) in *. apply wp_bind, (wp_from_raw w F _ _ cache); [done|done|done|].
  intros L HL. rewrite <- frees_blocks in *. unfold BlockList_drop. apply wp_bind.
  apply (wp_drain_fresh w F L cache); [done|done|done|]. intros HF. by apply wp_ret, HQ.
Qed.

End freelist.
