(* ===== verification/V8Live.v ===== *)
(** * The live chain of the v8 queue

    Between accesses the blocks of the chain are a function of [R], the number of
    values consumed so far, and [q], the values not yet consumed: position [p]
    holds the [p - R]-th value of [q], and every counter is the number of
    positions below [R] (or [R + length q]) in its virtual block. *)

From S2P Require Import Prelude Prog Layout Geometry V8Block V8Layout V8Heap V8Queue V8FreeSpec.

(** ** Reservation indices of v8

    The index word of a head holds a token (the number of the block), an offset
    in the block (where [nv * ns] is the sentinel position of a head that is
    moving to the next block) and the has-next bit.  Each word that the code
    builds decodes to what was put in. *)

Section index.
Context `{V8Geometry} `{Profile}.

(** Slots per block. *)
Definition cap : Z := nv * ns.

(** The index without the has-next bit. *)
Definition raw (token off : Z) : Z := (nv + 1) * ns * token + off.

Definition enc (token off has_next : Z) : Z := 2 * raw token off + has_next.

(** The words for the blocks up to [token] fit in a [usize]. *)
Definition fits (token : Z) : Prop := 2 * raw (token + 1) 0 ≤ 2 ^ 64.

Lemma cap_pos : 0 < cap.
Proof. destruct geom_facts as (? & ? & _). unfold cap. nia. Qed.

Lemma cap_ne : cap ≠ 0.
Proof. pose proof cap_pos. lia. Qed.

Lemma cap_max : 2 * cap ≤ usize_max.
Proof. destruct geom_facts as (_ & _ & ? & _). done. Qed.

Lemma raw_split token off :
  0 ≤ token → 0 ≤ off ≤ cap →
  raw token off / ns = (nv + 1) * token + off / ns ∧ raw token off mod ns = off mod ns ∧ 0 ≤ off / ns ≤ nv.
Proof.
  intros Ht Ho. destruct geom_facts as (Hns & Hnv & _). unfold raw, cap in *.
  replace ((nv + 1) * ns * token + off) with (off + ((nv + 1) * token) * ns) by lia.
  rewrite Z.div_add, Z.mod_add by lia. split; [lia|]. split; [done|]. split; [apply Z.div_pos; lia|].
  apply Z.div_le_upper_bound; lia.
Qed.

Lemma raw_token token off :
  0 ≤ token → 0 ≤ off ≤ cap →
  raw token off / ns / (nv + 1) = token ∧ (raw token off / ns) mod (nv + 1) = off / ns.
Proof.
  intros Ht Ho. destruct geom_facts as (Hns & Hnv & _).
  destruct (raw_split token off Ht Ho) as (-> & _ & ?).
  replace ((nv + 1) * token + off / ns) with (off / ns + token * (nv + 1)) by lia.
  rewrite Z.div_add, Z.mod_add, Z.div_small, Z.mod_small by lia. lia.
Qed.

(** The token as [read_into] computes it for the producer's index. *)
Lemma raw_stride token off :
  0 ≤ token → 0 ≤ off ≤ cap → raw token off / ((nv + 1) * ns) = token.
Proof.
  intros Ht Ho. destruct geom_facts as (Hns & Hnv & _). rewrite Z.mul_comm, <- Z.div_div by lia.
  by apply raw_token.
Qed.

Lemma decode_raw token off :
  0 ≤ token → 0 ≤ off ≤ cap → decode_index (raw token off) = (token, off / ns, off mod ns).
Proof.
  intros Ht Ho. unfold decode_index. destruct (raw_token token off Ht Ho) as [-> ->].
  destruct (raw_split token off Ht Ho) as (_ & -> & _). done.
Qed.

(** A position inside the block is not the sentinel. *)
Lemma not_sentinel off : 0 ≤ off < cap → (off / ns =? nv) = false.
Proof.
  intros Ho. destruct geom_facts as (Hns & Hnv & _). apply Z.eqb_neq.
  assert (off / ns < nv); [|lia]. apply Z.div_lt_upper_bound; [done|]. unfold cap in *. lia.
Qed.

Lemma sentinel : cap / ns = nv.
Proof. destruct geom_facts as (Hns & Hnv & _). unfold cap. apply Z.div_mul. lia. Qed.

Lemma off_split off : off / ns * ns + off mod ns = off.
Proof. destruct geom_facts as (Hns & _). symmetry. rewrite Z.mul_comm. apply Z.div_mod. lia. Qed.

Lemma enc_shiftr token off f : 0 ≤ f ≤ 1 → Z.shiftr (enc token off f) 1 = raw token off.
Proof. intros Hf. rewrite Z.shiftr_div_pow2 by lia. change (2 ^ 1) with 2. unfold enc. symmetry. apply Z.div_unique with f; lia. Qed.

Lemma enc_hint token off f : 0 ≤ f ≤ 1 → Z.land (enc token off f) 1 = f.
Proof.
  intros Hf. change 1 with (Z.ones 1) at 1. rewrite Z.land_ones by lia. unfold enc.
  change (2 ^ 1) with 2. rewrite Z.mul_comm, Z.add_comm, Z.mod_add by lia. apply Z.mod_small. lia.
Qed.

Lemma fits_enc token token' off f :
  fits token' → 0 ≤ token ≤ token' → 0 ≤ off ≤ cap → 0 ≤ f ≤ 1 → 0 ≤ enc token off f ≤ usize_max.
Proof.
  unfold fits, enc, raw, cap, usize_max. intros Hfit Ht Ho Hf. destruct geom_facts as (Hns & Hnv & _).
  assert ((nv + 1) * ns * token ≤ (nv + 1) * ns * token') by (apply Z.mul_le_mono_nonneg_l; nia). nia.
Qed.

Lemma encode_enc {T} token token' off f :
  fits token' → 0 ≤ token ≤ token' → 0 ≤ off ≤ cap → 0 ≤ f ≤ 1 →
  encode_index (T:=T) token off f = Ret (enc token off f).
Proof.
  intros Hfit Ht Ho Hf. pose proof (fits_enc token token' off f Hfit Ht Ho Hf) as Hb.
  destruct geom_facts as (Hns & Hnv & _). unfold enc, raw in Hb. unfold encode_index.
  assert (0 ≤ (nv + 1) * ns * token) by nia.
  rewrite umul_ok by lia. cbn [mbind prog_mbind prog_bind]. rewrite uadd_ok by lia.
  cbn [mbind prog_mbind prog_bind]. unfold wrapping, usize_max in *. rewrite Z.mod_small by lia.
  unfold enc, raw. f_equal. lia.
Qed.

End index.

(** The packed index of v8 is a faithful encoding: for every block token
    whose words fit in a [usize], every offset up to and including the sentinel
    and either hint, the code computes a word without overflow, and decoding it
    as [write_from] and [read_into] do gives back the token, the virtual block,
    the offset in it, and the hint. *)
Theorem v8_index_roundtrip `{V8Geometry} `{Profile} {T} token off f :
  fits token → 0 ≤ token → 0 ≤ off ≤ cap → f = 0 ∨ f = 1 →
  ∃ word, encode_index (T:=T) token off f = Ret word ∧ is_usize word ∧
    decode_index (Z.shiftr word 1) = (token, off / ns, off mod ns) ∧ Z.land word 1 = f ∧
    off / ns * ns + off mod ns = off ∧ (off / ns = nv ↔ off = cap).
Proof.
  intros Hfit Ht Ho Hf. exists (enc token off f). destruct geom_facts as (Hns & _).
  split; [apply (encode_enc token token); [done|lia|done|lia]|].
  split; [apply (fits_enc token token); [done|lia|done|lia]|].
  rewrite enc_shiftr, enc_hint, decode_raw by lia. do 2 (split; [done|]). split; [apply off_split|].
  split; [|intros ->; apply sentinel]. intros E.
  destruct (decide (off = cap)); [done|]. exfalso.
  assert (0 ≤ off < cap) as Hn by lia. apply not_sentinel, Z.eqb_neq in Hn. lia.
Qed.

Definition clamp (n x : Z) : Z := Z.max 0 (Z.min n x).

Section live.
Context {T : Type} `{V8Geometry} `{Allocator} `{Profile}.
Implicit Types (R W k : Z) (q vs : list T) (w : vwords T) (xs ys : list Z) (F : list (Z * Block8 T)).

Definition cellof R q (p : Z) : option T := if R <=? p then q !! Z.to_nat (p - R) else None.

Definition vb_of R q (base : Z) : VBlock T :=
  mkVBlock (clamp ns (R + Z.of_nat (length q) - base)) (clamp ns (R - base))
    ((λ j, cellof R q (base + j)) <$> seqZ 0 ns).

Definition body_of R q k : body :=
  (clamp nv ((R - k * cap) / ns), (λ i, vb_of R q (k * cap + i * ns)) <$> seqZ 0 nv).

Lemma seqZ_map_lookup {A} (f : Z → A) n i :
  0 ≤ i < n → (f <$> seqZ 0 n) !! Z.to_nat i = Some (f i).
Proof. intros Hi. rewrite list_lookup_fmap, lookup_seqZ_lt by lia. simpl. do 2 f_equal. lia. Qed.

Lemma slots_of_lookup R q base (j : nat) :
  v_slots (vb_of R q base) !! j =
    if decide (Z.of_nat j < ns) then Some (cellof R q (base + Z.of_nat j)) else None.
Proof.
  simpl. rewrite list_lookup_fmap. case_decide.
  - rewrite lookup_seqZ_lt by done. simpl. do 2 f_equal.
  - by rewrite lookup_seqZ_ge by lia.
Qed.

Lemma slots_of_length R q base : length (v_slots (vb_of R q base)) = Z.to_nat ns.
Proof. simpl. by rewrite length_fmap, length_seqZ. Qed.

Lemma cellof_none R q p : p < R ∨ R + Z.of_nat (length q) ≤ p → cellof R q p = None.
Proof.
  intros Hp. unfold cellof. destruct (Z.leb_spec R p); [|done]. apply lookup_ge_None_2. lia.
Qed.

Lemma body_vblock R q k i :
  0 ≤ i < nv → (body_of R q k).2 !! Z.to_nat i = Some (vb_of R q (k * cap + i * ns)).
Proof. intros Hi. unfold body_of. simpl. by rewrite (seqZ_map_lookup (λ i, vb_of R q (k * cap + i * ns))). Qed.

Lemma body_length R q k : length (body_of R q k).2 = Z.to_nat nv.
Proof. simpl. by rewrite length_fmap, length_seqZ. Qed.

Lemma fmap_seqZ_ext {B} (f g : Z → B) n :
  (∀ i, 0 ≤ i < n → f i = g i) → f <$> seqZ 0 n = g <$> seqZ 0 n.
Proof.
  intros Hfg. apply list_fmap_ext. intros i x [-> Hi]%lookup_seqZ. apply Hfg. lia.
Qed.

Lemma fmap_const {A B} (x : B) (l : list A) : (λ _, x) <$> l = replicate (length l) x.
Proof. induction l as [|a l IH]; [done|]. rewrite fmap_cons, IH. done. Qed.

Lemma fmap_seqZ_const {B} (f : Z → B) x n :
  (∀ i, 0 ≤ i < n → f i = x) → f <$> seqZ 0 n = replicate (Z.to_nat n) x.
Proof.
  intros Hf. rewrite <- (length_seqZ 0 n), <- fmap_const. apply list_fmap_ext.
  intros i y [-> Hi]%lookup_seqZ. apply Hf. lia.
Qed.

(** A block the producer has not reached is fresh. *)
Lemma body_of_fresh R q k : R + Z.of_nat (length q) ≤ k * cap → body_of R q k = fresh_body.
Proof.
  intros Hk. destruct geom_facts as (Hns & Hnv & _). unfold body_of, fresh_body. f_equal.
  - unfold clamp. assert ((R - k * cap) / ns ≤ 0); [|lia]. apply Z.div_le_upper_bound; lia.
  - apply (fmap_seqZ_const (λ i, vb_of R q (k * cap + i * ns))). intros i Hi. unfold vb_of. f_equal.
    + unfold clamp. nia.
    + unfold clamp. nia.
    + apply (fmap_seqZ_const (λ j, cellof R q (k * cap + i * ns + j))). intros j Hj. apply cellof_none. right. nia.
Qed.

(** A block whose values have all been consumed can be reset. *)
Lemma body_of_drained R q k : (k + 1) * cap ≤ R → Forall drained (body_of R q k).2.
Proof.
  intros Hk. destruct geom_facts as (Hns & Hnv & _). apply Forall_lookup_2. intros i x.
  simpl. rewrite list_lookup_fmap_Some. intros (j & -> & [-> Hi]%lookup_seqZ).
  assert (k * cap + (0 + Z.of_nat i) * ns + ns ≤ R) as Hle.
  { unfold cap in *. nia. }
  split; simpl.
  - unfold clamp. lia.
  - apply (fmap_seqZ_const (λ j, cellof R q (k * cap + (0 + Z.of_nat i) * ns + j))). intros j Hj.
    apply cellof_none. left. lia.
Qed.

(** ** Writing *)

Lemma cellof_app R q vs p :
  p < R + Z.of_nat (length q) ∨ R + Z.of_nat (length q) + Z.of_nat (length vs) ≤ p →
  cellof R (q ++ vs) p = cellof R q p.
Proof.
  intros Hp. unfold cellof. destruct (Z.leb_spec R p); [|done]. destruct Hp.
  - apply lookup_app_l. lia.
  - rewrite !lookup_ge_None_2; [done|lia|rewrite length_app; lia].
Qed.

Lemma cellof_new R q vs p :
  R + Z.of_nat (length q) ≤ p →
  cellof R (q ++ vs) p = vs !! Z.to_nat (p - (R + Z.of_nat (length q))).
Proof.
  intros Hp. unfold cellof. rewrite (proj2 (Z.leb_le R p)) by lia.
  rewrite lookup_app_r by lia. f_equal. lia.
Qed.

Lemma vb_of_write R q vs base :
  base ≤ R + Z.of_nat (length q) → R + Z.of_nat (length q) + Z.of_nat (length vs) ≤ base + ns →
  vb_of R (q ++ vs) base =
    mkVBlock (v_produced (vb_of R q base) + Z.of_nat (length vs)) (v_consumed (vb_of R q base))
      (list_inserts (Z.to_nat (R + Z.of_nat (length q) - base)) (Some <$> vs) (v_slots (vb_of R q base))).
Proof.
  intros Hb He. unfold vb_of at 1. f_equal.
  - simpl. unfold clamp. rewrite length_app. lia.
  - apply list_eq. intros j.
    change ((λ j, cellof R (q ++ vs) (base + j)) <$> seqZ 0 ns) with (v_slots (vb_of R (q ++ vs) base)).
    rewrite slots_of_lookup. set (off := Z.to_nat (R + Z.of_nat (length q) - base)).
    destruct (decide (off ≤ j < off + length (Some <$> vs))%nat) as [Hin|Hout].
    + rewrite length_fmap in Hin. rewrite list_lookup_inserts; [|by rewrite length_fmap|rewrite slots_of_length; lia].
      rewrite decide_True by lia. rewrite list_lookup_fmap, cellof_new by lia.
      replace (Z.to_nat (base + Z.of_nat j - (R + Z.of_nat (length q)))) with (j - off)%nat by lia.
      destruct (lookup_lt_is_Some_2 vs (j - off)) as [v ->]; [lia|]. done.
    + rewrite length_fmap in Hout.
      assert (list_inserts off (Some <$> vs) (v_slots (vb_of R q base)) !! j = v_slots (vb_of R q base) !! j) as ->.
      { destruct (decide (j < off)%nat); [by apply list_lookup_inserts_lt|].
        apply list_lookup_inserts_ge. rewrite length_fmap. lia. }
      rewrite slots_of_lookup. case_decide; [|done]. f_equal. apply cellof_app. lia.
Qed.

Lemma vb_of_write_ne R q vs base :
  base + ns ≤ R + Z.of_nat (length q) ∨ R + Z.of_nat (length q) + Z.of_nat (length vs) ≤ base →
  vb_of R (q ++ vs) base = vb_of R q base.
Proof.
  intros Hb. unfold vb_of. f_equal.
  - unfold clamp. rewrite length_app. lia.
  - apply fmap_seqZ_ext. intros j Hj. apply cellof_app. lia.
Qed.

(** The offset [off] of block [k], as a virtual block and a slot. *)
Lemma body_of_write R q vs k i :
  0 ≤ i < nv → k * cap + i * ns ≤ R + Z.of_nat (length q) →
  R + Z.of_nat (length q) + Z.of_nat (length vs) ≤ k * cap + i * ns + ns →
  body_of R (q ++ vs) k = put_vb i (vb_of R (q ++ vs) (k * cap + i * ns)) (body_of R q k).
Proof.
  intros Hi Hb He. destruct geom_facts as (Hns & Hnv & _). unfold put_vb, body_of. simpl. f_equal. apply list_eq. intros j.
  destruct (decide (Z.of_nat j < nv)) as [Hj|Hj].
  - destruct (decide (j = Z.to_nat i)) as [->|Hne].
    + rewrite list_lookup_insert_eq by (rewrite length_fmap, length_seqZ; lia).
      by rewrite (seqZ_map_lookup (λ i, vb_of R (q ++ vs) (k * cap + i * ns))).
    + rewrite list_lookup_insert_ne by done. rewrite !list_lookup_fmap, lookup_seqZ_lt by done. simpl. f_equal.
      apply vb_of_write_ne. destruct (Z.lt_total (Z.of_nat j) i) as [|[|]]; [left; nia|lia|right; nia].
  - rewrite lookup_ge_None_2 by (rewrite length_fmap, length_seqZ; lia).
    symmetry. apply lookup_ge_None_2. rewrite length_insert, length_fmap, length_seqZ. lia.
Qed.

Lemma body_of_write_ne R q vs k :
  (k + 1) * cap ≤ R + Z.of_nat (length q) ∨ R + Z.of_nat (length q) + Z.of_nat (length vs) ≤ k * cap →
  body_of R (q ++ vs) k = body_of R q k.
Proof.
  intros Hk. destruct geom_facts as (Hns & Hnv & _). unfold body_of. f_equal.
  apply fmap_seqZ_ext. intros i Hi. apply vb_of_write_ne. unfold cap in *. destruct Hk; [left; nia|right; nia].
Qed.

(** ** Reading *)

Lemma cellof_read R vs q p :
  p < R ∨ R + Z.of_nat (length vs) ≤ p →
  cellof (R + Z.of_nat (length vs)) q p = cellof R (vs ++ q) p.
Proof.
  intros Hp. unfold cellof. destruct Hp.
  - rewrite !(proj2 (Z.leb_gt _ _)) by lia. done.
  - rewrite !(proj2 (Z.leb_le _ _)) by lia. rewrite lookup_app_r by lia. f_equal. lia.
Qed.

Lemma cellof_taken R vs q p :
  R ≤ p < R + Z.of_nat (length vs) → cellof R (vs ++ q) p = vs !! Z.to_nat (p - R).
Proof. intros Hp. unfold cellof. rewrite (proj2 (Z.leb_le _ _)) by lia. apply lookup_app_l. lia. Qed.

Lemma vb_of_read R vs q base :
  base ≤ R → R + Z.of_nat (length vs) ≤ base + ns →
  vb_of (R + Z.of_nat (length vs)) q base =
    mkVBlock (v_produced (vb_of R (vs ++ q) base)) (v_consumed (vb_of R (vs ++ q) base) + Z.of_nat (length vs))
      (list_inserts (Z.to_nat (R - base)) (replicate (length vs) None) (v_slots (vb_of R (vs ++ q) base))).
Proof.
  intros Hb He. unfold vb_of at 1. f_equal.
  - simpl. unfold clamp. rewrite length_app. lia.
  - simpl. unfold clamp. lia.
  - apply list_eq. intros j.
    change ((λ j, cellof (R + Z.of_nat (length vs)) q (base + j)) <$> seqZ 0 ns)
      with (v_slots (vb_of (R + Z.of_nat (length vs)) q base)).
    rewrite slots_of_lookup. set (off := Z.to_nat (R - base)).
    destruct (decide (off ≤ j < off + length vs)%nat) as [Hin|Hout].
    + rewrite list_lookup_inserts; [|by rewrite length_replicate|rewrite slots_of_length; lia].
      rewrite decide_True, cellof_none by lia. by rewrite lookup_replicate_2 by lia.
    + assert (list_inserts off (replicate (length vs) None) (v_slots (vb_of R (vs ++ q) base)) !! j =
              v_slots (vb_of R (vs ++ q) base) !! j) as ->.
      { destruct (decide (j < off)%nat); [by apply list_lookup_inserts_lt|].
        apply list_lookup_inserts_ge. rewrite length_replicate. lia. }
      rewrite slots_of_lookup. case_decide; [|done]. f_equal. apply cellof_read. lia.
Qed.

Lemma vb_of_read_ne R vs q base :
  base + ns ≤ R ∨ R + Z.of_nat (length vs) ≤ base →
  vb_of (R + Z.of_nat (length vs)) q base = vb_of R (vs ++ q) base.
Proof.
  intros Hb. unfold vb_of. f_equal.
  - unfold clamp. rewrite length_app. lia.
  - unfold clamp. lia.
  - apply fmap_seqZ_ext. intros j Hj. apply cellof_read. lia.
Qed.

Lemma body_of_read R vs q k i :
  0 ≤ i < nv → k * cap + i * ns ≤ R → R + Z.of_nat (length vs) ≤ k * cap + i * ns + ns →
  (body_of (R + Z.of_nat (length vs)) q k).2 =
    (put_vb i (vb_of (R + Z.of_nat (length vs)) q (k * cap + i * ns)) (body_of R (vs ++ q) k)).2.
Proof.
  intros Hi Hb He. destruct geom_facts as (Hns & Hnv & _). unfold put_vb, body_of. simpl. apply list_eq. intros j.
  destruct (decide (Z.of_nat j < nv)) as [Hj|Hj].
  - destruct (decide (j = Z.to_nat i)) as [->|Hne].
    + rewrite list_lookup_insert_eq by (rewrite length_fmap, length_seqZ; lia).
      by rewrite (seqZ_map_lookup (λ i, vb_of (R + Z.of_nat (length vs)) q (k * cap + i * ns))).
    + rewrite list_lookup_insert_ne by done. rewrite !list_lookup_fmap, lookup_seqZ_lt by done. simpl. f_equal.
      apply vb_of_read_ne. destruct (Z.lt_total (Z.of_nat j) i) as [|[|]]; [left; nia|lia|right; nia].
  - rewrite lookup_ge_None_2 by (rewrite length_fmap, length_seqZ; lia).
    symmetry. apply lookup_ge_None_2. rewrite length_insert, length_fmap, length_seqZ. lia.
Qed.

(** How many virtual blocks of block [k] are completed. *)
Lemma body_count R q k i :
  0 ≤ i ≤ nv → k * cap + i * ns ≤ R < k * cap + i * ns + ns → (body_of R q k).1 = i.
Proof.
  intros Hi HR. destruct geom_facts as (Hns & Hnv & _). unfold body_of, clamp. simpl.
  assert ((R - k * cap) / ns = i) as ->; [|lia].
  symmetry. apply Z.div_unique with (R - k * cap - i * ns); lia.
Qed.

Lemma body_of_read_ne R vs q k :
  R + Z.of_nat (length vs) ≤ k * cap →
  body_of (R + Z.of_nat (length vs)) q k = body_of R (vs ++ q) k.
Proof.
  intros Hk. destruct geom_facts as (Hns & Hnv & _). unfold body_of. f_equal.
  - unfold clamp. assert ((R - k * cap) / ns ≤ 0) by (apply Z.div_le_upper_bound; lia).
    assert ((R + Z.of_nat (length vs) - k * cap) / ns ≤ 0) by (apply Z.div_le_upper_bound; lia). lia.
  - apply fmap_seqZ_ext. intros i Hi. apply vb_of_read_ne. right. nia.
Qed.

(** ** The unread values of a block *)

(** The values at the positions from [lo] to [hi]. *)
Definition seg R q (lo hi : Z) : list T := drop (Z.to_nat (lo - R)) (take (Z.to_nat (hi - R)) q).

Lemma seg_app R q lo mid hi : lo ≤ mid ≤ hi → seg R q lo mid ++ seg R q mid hi = seg R q lo hi.
Proof.
  intros Hm. unfold seg. set (a := Z.to_nat (lo - R)). set (b := Z.to_nat (mid - R)). set (c := Z.to_nat (hi - R)).
  assert (a ≤ b ≤ c)%nat by lia.
  assert (take c q = take b q ++ drop b (take c q)) as Ec.
  { rewrite <- (take_drop b (take c q)) at 1. by rewrite take_take, Nat.min_l by lia. }
  rewrite Ec at 2. rewrite drop_app. f_equal.
  destruct (decide (b ≤ length q)%nat).
  - rewrite length_take, Nat.min_l by done. by replace (a - b)%nat with 0%nat by lia.
  - assert (drop b (take c q) = []) as -> by (apply drop_ge; rewrite length_take; lia). by rewrite drop_nil.
Qed.

Lemma seg_all R q lo hi : lo ≤ R → R + Z.of_nat (length q) ≤ hi → seg R q lo hi = q.
Proof. intros. unfold seg. rewrite take_ge by lia. by replace (Z.to_nat (lo - R)) with 0%nat by lia. Qed.

Lemma seg_pieces R q lo step n :
  0 ≤ step → concat ((λ i, seg R q (lo + i * step) (lo + (i + 1) * step)) <$> seqZ 0 (Z.of_nat n)) =
    seg R q lo (lo + Z.of_nat n * step).
Proof.
  intros Hs. induction n as [|n IH].
  - simpl. unfold seg. symmetry. apply drop_ge. rewrite length_take. lia.
  - replace (Z.of_nat (S n)) with (Z.of_nat n + 1) by lia. rewrite seqZ_app by lia.
    rewrite fmap_app, concat_app, IH. simpl. rewrite app_nil_r.
    rewrite (seg_app R q lo) by nia. done.
Qed.

Lemma vb_of_unread R q base : vb_unread (vb_of R q base) (seg R q base (base + ns)).
Proof.
  destruct geom_facts as (Hns & _).
  assert (length (seg R q base (base + ns)) =
    Z.to_nat (clamp ns (R + Z.of_nat (length q) - base) - clamp ns (R - base))) as Hlen.
  { unfold seg, clamp. rewrite length_drop, length_take. lia. }
  split; simpl.
  - unfold clamp. lia.
  - unfold clamp. lia.
  - apply list_eq. intros j. rewrite list_lookup_fmap.
    destruct (decide (j < length (seg R q base (base + ns)))%nat) as [Hj|Hj].
    + rewrite lookup_take_lt, lookup_drop by lia.
      change ((λ j, cellof R q (base + j)) <$> seqZ 0 ns) with (v_slots (vb_of R q base)).
      rewrite slots_of_lookup, decide_True by (unfold clamp in *; lia).
      unfold seg, cellof. rewrite lookup_drop, lookup_take_lt by (unfold clamp in *; lia).
      rewrite (proj2 (Z.leb_le _ _)) by (unfold clamp in *; lia).
      assert (Z.to_nat (base - R) + j = Z.to_nat (base + Z.of_nat (Z.to_nat (clamp ns (R - base)) + j) - R))%nat as ->
        by (unfold clamp in *; lia).
      destruct (q !! _) eqn:E; [done|]. apply lookup_ge_None in E. unfold clamp in *. lia.
    + rewrite (lookup_ge_None_2 (seg _ _ _ _)) by lia. apply lookup_ge_None_2. rewrite length_take. lia.
  - rewrite Hlen. unfold clamp. lia.
Qed.

(** The unread values of block [k], virtual block by virtual block. *)
Definition unread_of R q k : list (list T) :=
  (λ i, seg R q (k * cap + i * ns) (k * cap + (i + 1) * ns)) <$> seqZ 0 nv.

Lemma body_of_unread R q k : body_unread (body_of R q k) (unread_of R q k).
Proof.
  split; [apply body_length|]. unfold unread_of. apply Forall2_lookup. intros i. simpl.
  rewrite !list_lookup_fmap. destruct (seqZ 0 nv !! i) as [j|]; constructor.
  replace (k * cap + (j + 1) * ns) with (k * cap + j * ns + ns) by lia. apply vb_of_unread.
Qed.

Lemma concat_unread R q k n :
  concat ((λ k, concat (unread_of R q k)) <$> seqZ k (Z.of_nat n)) = seg R q (k * cap) ((k + Z.of_nat n) * cap).
Proof.
  destruct geom_facts as (Hns & Hnv & _). pose proof cap_pos.
  assert (∀ k, concat (unread_of R q k) = seg R q (k * cap) ((k + 1) * cap)) as Hk.
  { intros k'. unfold unread_of. rewrite <- (Z2Nat.id nv) at 1 by lia. rewrite seg_pieces, Z2Nat.id by lia.
    f_equal. unfold cap. lia. }
  revert k. induction n as [|n IH]; intros k.
  - simpl. unfold seg. symmetry. apply drop_ge. rewrite length_take, Z.add_0_r. lia.
  - rewrite seqZ_cons by lia. rewrite fmap_cons. cbn [concat].
    replace (Z.pred (Z.of_nat (S n))) with (Z.of_nat n) by lia. rewrite IH, Hk, seg_app by nia. f_equal. lia.
Qed.

(** ** One block of the chain *)

Lemma blocks_focus f k nx xs b ys F :
  blocks f k nx (xs ++ b :: ys) ++ F ≡ₚ
    (b, with_next (hd_or nx ys) (f (k + Z.of_nat (length xs)))) ::
    blocks (T:=T) f k b xs ++ blocks f (k + Z.of_nat (length xs) + 1) nx ys ++ F.
Proof. rewrite blocks_app, <- app_assoc. cbn [blocks hd_or app]. symmetry. apply Permutation_middle. Qed.

(** Changing one block of the chain and putting it back. *)
Lemma blocks_unfocus f g k nx xs b ys F :
  (∀ i, k ≤ i < k + Z.of_nat (length (xs ++ b :: ys)) → i ≠ k + Z.of_nat (length xs) → f i = g i) →
  (b, with_next (hd_or nx ys) (g (k + Z.of_nat (length xs)))) ::
    blocks (T:=T) f k b xs ++ blocks f (k + Z.of_nat (length xs) + 1) nx ys ++ F ≡ₚ
  blocks g k nx (xs ++ b :: ys) ++ F.
Proof.
  intros Hfg. rewrite blocks_focus. rewrite length_app in Hfg. cbn [length] in Hfg.
  rewrite (blocks_ext f g k b xs) by (intros; apply Hfg; lia).
  by rewrite (blocks_ext f g _ nx ys) by (intros; apply Hfg; lia).
Qed.

End live.
