(* ===== verification/V8PushSpec.v ===== *)
(** * Pushing into the v8 queue

    [write_from] (src/src/v8/queue.rs) when one thread runs it: it reserves the
    positions behind the last one, links as many blocks as they need, and copies
    the values segment by segment. *)

From S2P Require Import Prelude Prog Layout Geometry V8Block V8Layout V8Heap V8Queue V8FreeSpec V8Live.

Section push.
Context {T : Type} `{V8Geometry} `{Allocator} `{Profile}.
Implicit Types (R k : Z) (q vs : list T) (w : vwords T) (xs ys : list Z) (F : list (Z * Block8 T)) (x : VBlock T).

Definition with_slots (l : list (option T)) x : VBlock T := mkVBlock (v_produced x) (v_consumed x) l.

Lemma wp_copy_in w b nx y F i x off vs (Q : unit → vmem T → Prop) :
  vheap_ok ((b, with_next nx y) :: F) → 0 ≤ i → 0 ≤ off → y.2 !! Z.to_nat i = Some x →
  off + Z.of_nat (length vs) ≤ Z.of_nat (length (v_slots x)) →
  (let y' := put_vb i (with_slots (list_inserts (Z.to_nat off) (Some <$> vs) (v_slots x)) x) y in
   vheap_ok ((b, with_next nx y') :: F) → Q tt (vstate w ((b, with_next nx y') :: F))) →
  wp (copy_in b i off vs) (vstate w ((b, with_next nx y) :: F)) Q.
Proof.
  revert y off x. induction vs as [|v vs IH]; intros y off x Hok Hi Ho Hx Hlen HQ.
  - apply wp_ret. cbv zeta in HQ. cbn [fmap list_fmap list_inserts] in HQ.
    assert (put_vb i (with_slots (v_slots x) x) y = y) as E.
    { unfold put_vb. rewrite list_insert_id; [by destruct y|]. rewrite Hx. by destruct x. }
    rewrite E in HQ. by apply HQ.
  - cbn [copy_in length] in *. destruct (mem_vblock w b nx y F i x Hok Hi Hx) as (Hat & Hup & Hok').
    eapply wp_act_bind.
    { unfold handle, v8_handler. rewrite Hat. cbn [mbind option_bind]. unfold znth at 1.
      rewrite (proj2 (Z.leb_le 0 off)) by done.
      destruct (lookup_lt_is_Some_2 (v_slots x) (Z.to_nat off)) as [o ->]; [lia|]. cbn [mbind option_bind].
      rewrite Hup. reflexivity. }
    apply (IH _ _ (set_slot off (Some v) x)); [done|done|lia|by eapply put_vb_eq| |].
    + simpl. rewrite length_insert. lia.
    + cbv zeta. rewrite put_vb_twice. unfold with_slots at 1 2. cbn [set_slot v_slots v_produced v_consumed].
      replace (Z.to_nat (off + 1)) with (S (Z.to_nat off)) by lia.
      rewrite <- list_insert_inserts_lt by lia. exact HQ.
Qed.

Lemma wp_fetch_vproduced w b nx y F i x d (Q : Z → vmem T → Prop) :
  vheap_ok ((b, with_next nx y) :: F) → 0 ≤ i → y.2 !! Z.to_nat i = Some x → is_usize (v_produced x + d) →
  (let y' := put_vb i (mkVBlock (v_produced x + d) (v_consumed x) (v_slots x)) y in
   vheap_ok ((b, with_next nx y') :: F) → Q (v_produced x) (vstate w ((b, with_next nx y') :: F))) →
  wp (act (VFetchAdd (VProduced b i) d)) (vstate w ((b, with_next nx y) :: F)) Q.
Proof.
  intros Hok Hi Hx Hd HQ. destruct (mem_vblock w b nx y F i x Hok Hi Hx) as (Hat & Hup & Hok').
  eapply wp_act.
  - apply handle_vfetch_add; [unfold vrd; by rewrite Hat|done|unfold vwr; apply Hup].
  - apply HQ. apply Hok'.
Qed.

Lemma with_slots_produced l x d :
  mkVBlock (v_produced (with_slots l x) + d) (v_consumed (with_slots l x)) (v_slots (with_slots l x)) =
  mkVBlock (v_produced x + d) (v_consumed x) l.
Proof. done. Qed.

(** One segment: [vs] fits in the rest of virtual block [i] of block [k]. *)
Lemma wp_write_segment w R q vs k0 pre b ys F i off (Q : Z → vmem T → Prop) :
  let k := k0 + Z.of_nat (length pre) in
  vheap_ok (blocks (body_of R q) k0 0 (pre ++ b :: ys) ++ F) →
  0 ≤ i < nv → 0 ≤ off → off + Z.of_nat (length vs) ≤ ns → 0 ≤ R →
  k * cap + i * ns + off = R + Z.of_nat (length q) →
  (vheap_ok (blocks (body_of R (q ++ vs)) k0 0 (pre ++ b :: ys) ++ F) →
   Q (v_produced (vb_of R q (k * cap + i * ns))) (vstate w (blocks (body_of R (q ++ vs)) k0 0 (pre ++ b :: ys) ++ F))) →
  wp (copy_in b i off vs;; act (VFetchAdd (VProduced b i) (Z.of_nat (length vs))))
    (vstate w (blocks (body_of R q) k0 0 (pre ++ b :: ys) ++ F)) Q.
Proof.
  intros k Hok Hi Ho Hfit HR Hpos HQ. destruct geom_facts as (Hns & Hnv & Hmax & _).
  pose proof (blocks_focus (body_of R q) k0 0 pre b ys F) as Hp. fold k in Hp.
  rewrite (mem_perm w _ _ Hok Hp). pose proof (heap_ok_perm _ _ Hp Hok) as Hok1.
  set (x := vb_of R q (k * cap + i * ns)).
  assert ((body_of R q k).2 !! Z.to_nat i = Some x) as Hx by (by apply body_vblock).
  assert (ns ≤ usize_max) by nia.
  apply wp_bind. apply (wp_copy_in w b _ _ _ i x); [done|lia|done|done|unfold x; rewrite slots_of_length; lia|].
  cbv zeta. intros Hok2.
  eapply wp_fetch_vproduced; [exact Hok2|lia|by eapply put_vb_eq| |].
  { simpl. unfold is_usize, clamp. lia. }
  cbv zeta. rewrite put_vb_twice, with_slots_produced. intros Hok3.
  assert (mkVBlock (v_produced x + Z.of_nat (length vs)) (v_consumed x)
    (list_inserts (Z.to_nat off) (Some <$> vs) (v_slots x)) = vb_of R (q ++ vs) (k * cap + i * ns)) as Ex.
  { rewrite vb_of_write by lia. fold x. do 2 f_equal. lia. }
  rewrite Ex in Hok3 |- *. rewrite <- (body_of_write R q vs k i) in Hok3 |- * by lia.
  assert (∀ j, k0 ≤ j < k0 + Z.of_nat (length (pre ++ b :: ys)) → j ≠ k0 + Z.of_nat (length pre) →
    body_of R q j = body_of R (q ++ vs) j) as Hother.
  { intros j _ Hj. fold k in Hj. symmetry. apply body_of_write_ne.
    assert (i * ns + off + Z.of_nat (length vs) ≤ cap ∧ 0 ≤ i * ns + off) as [? ?] by (unfold cap; nia).
    destruct (Z.lt_total j k) as [|[|]]; [left|lia|right]; unfold cap in *; nia. }
  pose proof (blocks_unfocus _ _ k0 0 pre b ys F Hother) as Hp'. fold k in Hp'.
  rewrite (mem_perm w _ _ Hok3 Hp'). apply HQ. by eapply heap_ok_perm.
Qed.

(** The copy loop: [b] is the block of the next position, if there is one. *)
Lemma wp_write_loop vs w R q k0 pre rest F vblock offset fuel (Q : unit → vmem T → Prop) :
  let k := k0 + Z.of_nat (length pre) in
  vheap_ok (blocks (body_of R q) k0 0 (pre ++ rest) ++ F) → 0 ≤ R →
  0 ≤ vblock < nv → 0 ≤ offset < ns → k * cap + vblock * ns + offset = R + Z.of_nat (length q) →
  R + Z.of_nat (length q) + Z.of_nat (length vs) ≤ (k0 + Z.of_nat (length (pre ++ rest))) * cap →
  (length vs < fuel)%nat →
  (vheap_ok (blocks (body_of R (q ++ vs)) k0 0 (pre ++ rest) ++ F) →
   Q tt (vstate w (blocks (body_of R (q ++ vs)) k0 0 (pre ++ rest) ++ F))) →
  wp (write_loop fuel (hd_or 0 rest) vblock offset vs) (vstate w (blocks (body_of R q) k0 0 (pre ++ rest) ++ F)) Q.
Proof.
  unfold write_loop. revert vs q pre rest vblock offset.
  induction fuel as [|fuel IH]; intros vs q pre rest vblock offset Hok HR Hv Ho Hpos Hend Hf HQ; [lia|].
  set (k := k0 + Z.of_nat (length pre)) in *.
  apply wp_loop_unfold. destruct vs as [|v vs0].
  { apply wp_ret. rewrite app_nil_r in HQ. by apply HQ. }
  destruct geom_facts as (Hns & Hnv & Hmax & _). pose proof cap_pos as Hcap.
  set (vs := v :: vs0) in *. set (count := Z.min (ns - offset) (Z.of_nat (length vs))).
  assert (0 < Z.of_nat (length vs)) as Hlen by (subst vs; simpl; lia).
  assert (0 < count) as Hcount by lia.
  assert (vblock * ns + offset < cap) as Hin by (unfold cap; nia).
  assert (0 ≤ vblock * ns) as Hnn by nia.
  destruct rest as [|b rest].
  { exfalso. rewrite app_nil_r in Hend. fold k in Hend. lia. }
  unfold vblock_ok, slots_ok. cbn [hd_or].
  rewrite !debug_assert_ok by (apply Z.ltb_lt; lia). cbn [mbind prog_mbind prog_bind].
  set (now := take (Z.to_nat count) vs). set (later := drop (Z.to_nat count) vs).
  assert (now ++ later = vs) as Evs by apply take_drop.
  assert (Z.of_nat (length now) = count) as Enow by (unfold now; rewrite length_take; lia).
  assert ((blocks (body_of R q) k0 0 (pre ++ b :: rest) ++ F) !! length pre =
    Some (b, with_next (hd_or 0 rest) (body_of R q k))) as Hb by apply blocks_lookup.
  apply wp_bind.
  eapply (wp_mono _ _ (λ nx s, nx = (if vblock + 1 =? nv then hd_or 0 rest else 0) ∧
    s = vstate w (blocks (body_of R q) k0 0 (pre ++ b :: rest) ++ F))).
  { zcase; [|by apply wp_ret]. eapply wp_act; [by eapply handle_next_load|done]. }
  intros ? ? [-> ->]. rewrite <- Enow.
  apply wp_assoc, wp_bind.
  apply (wp_write_segment w R q now k0 pre b rest F vblock offset); [done|done|lia|lia|done|fold k; lia|].
  intros Hok1. apply wp_ret.
  assert (length (q ++ now) = length q + length now)%nat as El by apply length_app.
  assert (Z.of_nat (length later) = Z.of_nat (length vs) - count) as Elater
    by (unfold later; rewrite length_drop; lia).
  rewrite <- Evs, app_assoc in HQ.
  destruct (Z.eqb_spec (vblock + 1) nv) as [Elast|Hnlast].
  - replace (pre ++ b :: rest) with ((pre ++ [b]) ++ rest) in * by (by rewrite <- app_assoc).
    destruct (decide (later = [])) as [El0|Hl0].
    { fold later. rewrite El0. destruct fuel as [|fuel']; [subst vs; simpl in Hf; lia|].
      apply wp_loop_unfold, wp_ret. rewrite El0, app_nil_r in HQ. by apply HQ. }
    assert (offset + count = ns) as Hfull.
    { destruct (Z.min_spec (ns - offset) (Z.of_nat (length vs))) as [[? E]|[? E]]; fold count in E; [lia|].
      exfalso. apply Hl0. unfold later. apply drop_ge. lia. }
    apply IH; [done|done|lia|lia| |rewrite El; lia|unfold later; rewrite length_drop; lia|done].
    rewrite length_app, El. cbn [length]. unfold cap in *. nia.
  - destruct (decide (later = [])) as [El0|Hl0].
    { fold later. rewrite El0. destruct fuel as [|fuel']; [subst vs; simpl in Hf; lia|].
      apply wp_loop_unfold, wp_ret. rewrite El0, app_nil_r in HQ. by apply HQ. }
    assert (offset + count = ns) as Hfull.
    { destruct (Z.min_spec (ns - offset) (Z.of_nat (length vs))) as [[? E]|[? E]]; fold count in E; [lia|].
      exfalso. apply Hl0. unfold later. apply drop_ge. lia. }
    apply (IH later (q ++ now) pre (b :: rest)); [done|done|lia|lia| |rewrite El; lia|lia|done].
    fold k. rewrite El. nia.
Qed.

(** ** Moving the producer to its next block *)

Definition w_set_producer (b i : Z) w : vwords T :=
  mkW b i (w_cblock w) (w_cindex w) (w_free w) (w_dropped w).

Lemma mem_set_pblock w l b : set_producer_block b (vstate w l) = vstate (w_set_producer b (w_pindex w) w) l.
Proof. done. Qed.

Lemma mem_set_pindex w l i : set_producer_index i (vstate w l) = vstate (w_set_producer (w_pblock w) i w) l.
Proof. done. Qed.

Lemma wp_append_chain w F f k xs b new fuel (Q : unit → vmem T → Prop) :
  last xs = Some b → vheap_ok (blocks f k 0 xs ++ F) → (0 < fuel)%nat →
  (vheap_ok (blocks f k new xs ++ F) → Q tt (vstate w (blocks f k new xs ++ F))) →
  wp (append_chain fuel b new) (vstate w (blocks f k 0 xs ++ F)) Q.
Proof.
  intros Hl Hok Hf HQ. destruct (blocks_relink w F f k xs b 0 new Hl Hok) as [Hst Hok'].
  destruct fuel as [|fuel]; [lia|]. apply wp_loop_unfold. apply last_Some in Hl as [pre ->].
  eapply wp_act_bind; [eapply handle_next_load; [done|apply blocks_lookup]|]. cbn [with_next b_next hd_or].
  rewrite Z.eqb_refl. eapply wp_act_bind; [exact Hst|]. by apply wp_ret, HQ.
Qed.

(** The walk to the block of the new position. *)
Lemma wp_advance_walk w F f k pre c rest rem off depth fuel (Q : Z * Z * Z * Z → vmem T → Prop) :
  vheap_ok (blocks f k 0 (pre ++ c :: rest) ++ F) → 0 ≤ off < cap → 0 ≤ rem →
  Z.of_nat (length rest) * cap ≤ off + rem < (Z.of_nat (length rest) + 1) * cap → (length rest < fuel)%nat →
  (∀ rem' off', off' + rem' = off + rem - Z.of_nat (length rest) * cap → 0 ≤ off' →
     Q (rem', default 0 (last (c :: rest)), off', depth + Z.of_nat (length rest))
       (vstate w (blocks f k 0 (pre ++ c :: rest) ++ F))) →
  wp (loop fuel (λ '(rem, blk, off, depth),
    room ← usub (nv * ns) off;
    if room <=? rem then
      nx ← act (VLoad (BNext blk));
      Ret (inl (rem - room, nx, 0, depth + 1))
    else Ret (inr (rem, blk, off, depth))) (rem, c, off, depth)) (vstate w (blocks f k 0 (pre ++ c :: rest) ++ F)) Q.
Proof.
  fold cap. revert pre c rem off depth fuel. induction rest as [|d rest IH]; intros pre c rem off depth fuel Hok Ho Hr Hb Hf HQ;
    (destruct fuel as [|fuel]; [simpl in Hf; lia|]); apply wp_loop_unfold; apply wp_usub; try lia; cbn [length] in *.
  - rewrite (proj2 (Z.leb_gt _ _)) by lia. apply wp_ret. specialize (HQ rem off). rewrite Z.add_0_r in HQ.
    apply HQ; lia.
  - assert (0 ≤ Z.of_nat (length rest) * cap) by nia. rewrite (proj2 (Z.leb_le _ _)) by lia.
    eapply wp_act_bind; [eapply handle_next_load; [done|apply blocks_lookup]|]. cbn [with_next b_next hd_or].
    apply wp_ret. replace (pre ++ c :: d :: rest) with ((pre ++ [c]) ++ d :: rest) in * by (by rewrite <- app_assoc).
    apply IH; [done|lia|lia|lia|lia|]. intros rem' off' E Ho'.
    specialize (HQ rem' off'). rewrite last_cons_cons in HQ.
    replace (depth + 1 + Z.of_nat (length rest)) with (depth + Z.of_nat (S (length rest))) by lia. apply HQ; lia.
Qed.

Lemma live_extend R q k xs ys nx :
  R + Z.of_nat (length q) ≤ (k + Z.of_nat (length xs)) * cap →
  blocks (body_of R q) k (hd_or nx ys) xs ++ frees nx ys = blocks (body_of R q) k nx (xs ++ ys).
Proof.
  intros Hk. rewrite blocks_app. f_equal. rewrite (frees_blocks (k + Z.of_nat (length xs))).
  apply blocks_ext. intros i Hi. symmetry. apply body_of_fresh. pose proof cap_pos. nia.
Qed.

Lemma wp_advance_producer w R q k pre b ys L F len fuel (Q : unit → vmem T → Prop) :
  let W := R + Z.of_nat (length q) in
  vheap_ok (blocks (body_of R q) k 0 (pre ++ [b]) ++ frees 0 ys ++ F) → bl_is L ys → 0 ≤ k → 0 ≤ len →
  k + Z.of_nat (length pre) = W / cap →
  Z.of_nat (length ys) = (W mod cap + len) / cap → fits ((W + len) / cap) → (length ys + 1 < fuel)%nat →
  (vheap_ok (blocks (body_of R q) k 0 (pre ++ b :: ys) ++ F) →
   Q tt (vstate (w_set_producer (default 0 (last (b :: ys))) (enc ((W + len) / cap) ((W + len) mod cap) 0) w)
     (blocks (body_of R q) k 0 (pre ++ b :: ys) ++ F))) →
  wp (advance_producer fuel b (W / cap) (W mod cap) len L)
    (vstate w (blocks (body_of R q) k 0 (pre ++ [b]) ++ frees 0 ys ++ F)) Q.
Proof.
  intros W Hok HL Hk Hlen Htok Hys Hfit Hf HQ. pose proof cap_pos as Hcap.
  pose proof (Z.mod_pos_bound W cap Hcap) as Hm. pose proof (Z.div_mod W cap cap_ne) as Hdm.
  assert ((W + len) / cap = W / cap + Z.of_nat (length ys) ∧ (W + len) mod cap = (W mod cap + len) mod cap) as [Ediv Emod].
  { replace (W + len) with (W mod cap + len + (W / cap) * cap) by lia. rewrite Z.div_add, Z.mod_add by lia. lia. }
  pose proof (Z.div_mod (W mod cap + len) cap cap_ne) as Hdm2.
  pose proof (Z.mod_pos_bound (W mod cap + len) cap Hcap) as Hm2. rewrite <- Hys in Hdm2.
  unfold advance_producer, into_raw. rewrite (bi_head _ _ HL).
  apply wp_bind. apply (wp_append_chain w _ _ _ _ b); [apply last_snoc|done|lia|]. intros Hok1.
  rewrite app_assoc, (live_extend R q k (pre ++ [b]) ys 0) in Hok1 |- *
    by (rewrite length_app; cbn [length]; fold W; nia).
  rewrite <- app_assoc in Hok1 |- *. cbn [app] in Hok1 |- *. apply wp_bind.
  apply (wp_advance_walk w F _ k pre b ys len (W mod cap) 0); [done|done|done|lia|lia|].
  intros rem' off' E Ho'.
  assert (∃ pre', pre ++ b :: ys = pre' ++ [default 0 (last (b :: ys))]) as [pre' Epre].
  { destruct (last (b :: ys)) as [t|] eqn:El; [|by apply last_None in El].
    apply last_Some in El as [p' ->]. exists (pre ++ p'). by rewrite app_assoc. }
  set (blk := default 0 (last (b :: ys))) in *. rewrite Epre in Hok1 |- *.
  eapply wp_act_bind; [eapply handle_next_load; [done|apply blocks_lookup]|]. cbn [with_next b_next hd_or].
  rewrite Z.eqb_refl. cbn [negb].
  eapply wp_act_bind; [apply handle_vstore; unfold vwr; reflexivity|]. rewrite mem_set_pblock.
  pose proof (fits_enc ((W + len) / cap) ((W + len) / cap) ((W + len) mod cap) 0 Hfit) as Hw.
  assert (0 ≤ W / cap) by lia.
  assert (W / cap + Z.of_nat (length ys) ≤ usize_max) as Hmax.
  { destruct geom_facts as (Hns & Hnv & _). unfold enc, raw in Hw. rewrite Ediv in Hw.
    assert (1 ≤ (nv + 1) * ns) by nia. nia. }
  apply wp_uadd; [lia|]. pose proof cap_max. apply wp_uadd; [lia|].
  rewrite (encode_enc (W / cap + (0 + Z.of_nat (length ys))) ((W + len) / cap)) by (done || lia).
  cbn [mbind prog_mbind prog_bind].
  eapply wp_act; [apply handle_vstore; unfold vwr; reflexivity|]. rewrite mem_set_pindex.
  replace (W / cap + (0 + Z.of_nat (length ys))) with ((W + len) / cap) by lia.
  replace (off' + rem') with ((W + len) mod cap) by lia. rewrite <- Epre in Hok1 |- *. by apply HQ.
Qed.

(** ** [write_from] *)

(** How many blocks a batch of [len] values needs behind offset [off]: the code
    acquires [len / cap] first and one more if the batch ends in the next one. *)
Lemma blocks_needed off len :
  0 ≤ off < cap → 0 ≤ len →
  (cap * (len / cap + 1) - off ≤ len ↔ (off + len) / cap = len / cap + 1) ∧
  (len < cap * (len / cap + 1) - off ↔ (off + len) / cap = len / cap) ∧
  (cap * (len / cap + 1) - off ≤ len → div_ceil (saturating_sub len (cap * (len / cap))) cap = 1).
Proof.
  intros Ho Hl. pose proof cap_pos as Hc. pose proof (Z.div_mod len cap cap_ne) as Hd.
  pose proof (Z.mod_pos_bound len cap Hc) as Hm.
  assert ((off + len) / cap = len / cap + 1 ↔ cap ≤ off + len mod cap) as E1.
  { split.
    - intros E. pose proof (Z.div_mod (off + len) cap cap_ne). pose proof (Z.mod_pos_bound (off + len) cap Hc). nia.
    - intros Hle. symmetry. apply Z.div_unique with (off + len mod cap - cap); lia. }
  assert ((off + len) / cap = len / cap ↔ off + len mod cap < cap) as E2.
  { split.
    - intros E. pose proof (Z.div_mod (off + len) cap cap_ne). pose proof (Z.mod_pos_bound (off + len) cap Hc). nia.
    - intros Hlt. symmetry. apply Z.div_unique with (off + len mod cap); lia. }
  rewrite E1, E2. split; [lia|]. split; [lia|]. intros Hle.
  apply div_ceil_unique; [done|]. unfold saturating_sub. lia.
Qed.

(** The heap of a push: the chain, the blocks in hand and the cache. *)
Definition push_heap R q k xs ys cache : list (Z * Block8 T) :=
  blocks (body_of R q) k 0 xs ++ frees 0 ys ++ frees 0 cache.

Lemma push_heap_hand R q k xs ys cache :
  frees 0 ys ++ frees 0 cache ++ blocks (body_of R q) k 0 xs ≡ₚ push_heap R q k xs ys cache.
Proof. unfold push_heap. rewrite app_assoc. apply Permutation_app_comm. Qed.

Lemma push_heap_cache R q k xs ys cache :
  push_heap R q k xs ys cache ≡ₚ frees 0 cache ++ frees 0 ys ++ blocks (body_of R q) k 0 xs.
Proof.
  rewrite <- push_heap_hand. rewrite !app_assoc. f_equiv. apply Permutation_app_comm.
Qed.

(** The blocks the batch needs, taken from the cache or allocated. *)
Lemma wp_reserve_blocks {A} w R q k xs ys cache L len off fuel (g : BlockList → prog (v8E T) A) (Q : A → vmem T → Prop) :
  vheap_ok (push_heap R q k xs ys cache) → bl_is L ys → w_free w = hd_or 0 cache →
  0 ≤ off < cap → 0 ≤ len → 2 * (cap * (len / cap + 1)) ≤ 2 ^ 64 → Z.of_nat (length ys) = len / cap →
  (length cache < fuel)%nat → (1 < fuel)%nat →
  (∀ L' ys' n, bl_is L' ys' → (n ≤ 1)%nat → length ys' = (n + length ys)%nat →
     Z.of_nat (length ys') = (off + len) / cap →
     vheap_ok (push_heap R q k xs ys' (drop n cache)) →
     wp (g L') (vstate (w_set_free (hd_or 0 (drop n cache)) w) (push_heap R q k xs ys' (drop n cache))) Q) →
  wp (n ← uadd (bl_len L) (0 + 1);
      room ← umul (nv * ns) n;
      room ← usub room off;
      L ← (if room <=? len then
             have ← umul (nv * ns) (bl_len L);
             more ← fl_acquire fuel (div_ceil (saturating_sub len have) (nv * ns));
             add_assign L more
           else Ret L);
      g L) (vstate w (push_heap R q k xs ys cache)) Q.
Proof.
  intros Hok HL Hw Ho Hlen Hbig Hys Hf1 Hf2 HQ. fold cap. rewrite (bi_len _ _ HL), Hys.
  destruct (blocks_needed off len Ho Hlen) as (Hmore & Hless & Hone). pose proof cap_pos as Hcap.
  assert (0 ≤ len / cap) by (apply Z.div_pos; lia).
  assert (cap * (len / cap + 1) ≤ usize_max ∧ len / cap + 1 ≤ usize_max) as [Hm1 Hm2] by (unfold usize_max; nia).
  apply wp_uadd; [lia|]. rewrite (umul_ok cap (len / cap + (0 + 1))) by lia. cbn [mbind prog_mbind prog_bind].
  apply wp_usub; [nia|]. apply wp_bind.
  destruct (Z.leb_spec (cap * (len / cap + (0 + 1)) - off) len) as [Hle|Hlt].
  - rewrite umul_ok by nia. cbn [mbind prog_mbind prog_bind]. rewrite Hone by lia. apply wp_bind.
    pose proof (push_heap_cache R q k xs ys cache) as Hp.
    rewrite (mem_perm w _ _ Hok Hp). pose proof (heap_ok_perm _ _ Hp Hok) as Hok1.
    apply (wp_fl_acquire w _ cache 1 fuel); [done|done|unfold usize_max; lia|done|done|].
    intros M more HM Hmlen Hok2. change (Z.to_nat 1) with 1%nat in Hmlen.
    assert (frees 0 more ++ frees 0 (drop (length more) cache) ++ frees 0 ys ++ blocks (body_of R q) k 0 xs ≡ₚ
            frees 0 more ++ frees 0 ys ++ frees 0 (drop (length more) cache) ++ blocks (body_of R q) k 0 xs) as Hp2
      by (f_equiv; rewrite !app_assoc; f_equiv; apply Permutation_app_comm).
    rewrite (mem_perm _ _ _ Hok2 Hp2). pose proof (heap_ok_perm _ _ Hp2 Hok2) as Hok3.
    apply (wp_add_assign _ _ L ys M more); [done|done|done|lia|]. intros L' HL' Hok4.
    pose proof (push_heap_hand R q k xs (more ++ ys) (drop (length more) cache)) as Hp4.
    rewrite (mem_perm _ _ _ Hok4 Hp4). pose proof (heap_ok_perm _ _ Hp4 Hok4) as Hok5.
    apply HQ; [done|lia|by rewrite length_app|rewrite length_app; lia|done].
  - apply wp_ret. specialize (HQ L ys 0%nat HL ltac:(lia) eq_refl). rewrite drop_0, w_set_free_id in HQ by done.
    apply HQ; [lia|done].
Qed.

Lemma w_free_producer w b i : w_free (w_set_producer b i w) = w_free w.
Proof. done. Qed.

(** The reservation and the copy, once the index has been read. *)
Lemma wp_write_reserve w R q k pre b ys cache L vs fuel (Q : BlockList * option Z → vmem T → Prop) :
  let W := R + Z.of_nat (length q) in
  let len := Z.of_nat (length vs) in
  vheap_ok (push_heap R q k (pre ++ [b]) ys cache) → bl_is L ys → w_free w = hd_or 0 cache →
  w_pblock w = b → w_pindex w = enc (W / cap) (W mod cap) 0 → 0 ≤ k → 0 ≤ R →
  k + Z.of_nat (length pre) = W / cap → Z.of_nat (length ys) = len / cap →
  fits ((W + len) / cap) → (length cache < fuel)%nat → (length vs + 2 < fuel)%nat →
  (∀ ys' n L', (n ≤ 1)%nat → length ys' = (n + length ys)%nat → Z.of_nat (length ys') = (W mod cap + len) / cap →
     vheap_ok (blocks (body_of R (q ++ vs)) k 0 (pre ++ b :: ys') ++ frees 0 (drop n cache)) →
     Q (L', None) (vstate (w_set_producer (default 0 (last (b :: ys'))) (enc ((W + len) / cap) ((W + len) mod cap) 0)
                      (w_set_free (hd_or 0 (drop n cache)) w))
       (blocks (body_of R (q ++ vs)) k 0 (pre ++ b :: ys') ++ frees 0 (drop n cache)))) →
  wp (write_reserve fuel vs b (enc (W / cap) (W mod cap) 0) L) (vstate w (push_heap R q k (pre ++ [b]) ys cache)) Q.
Proof.
  intros W len Hok HL Hw Hpb Hpi Hk HR Htok Hys Hfit Hf1 Hf2 HQ. pose proof cap_pos as Hcap. pose proof cap_max.
  pose proof (Z.mod_pos_bound W cap Hcap) as Hm. pose proof (Z.div_mod W cap cap_ne) as Hdm.
  pose proof (Z.mod_pos_bound (W + len) cap Hcap) as Hm'. pose proof (Z.div_mod (W + len) cap cap_ne) as Hdm'.
  destruct geom_facts as (Hns & Hnv & _).
  set (off := W mod cap) in *.
  assert (0 ≤ len) as Hlen by lia. assert (0 ≤ W / cap) as Ht0 by lia.
  assert (W / cap ≤ (W + len) / cap) as Hle by (apply Z.div_le_mono; lia).
  assert (len / cap ≤ (W + len) / cap) as Hle2 by (apply Z.div_le_mono; lia).
  assert (2 * (cap * ((W + len) / cap + 1)) ≤ 2 ^ 64) as Hbig.
  { unfold fits, raw in Hfit. unfold cap in *. nia. }
  assert (0 ≤ cap * (W / cap)) as Hw0 by (apply Z.mul_nonneg_nonneg; lia).
  assert (W + len < cap * ((W + len) / cap + 1)) as Hlast by lia.
  assert (2 * (cap * (len / cap + 1)) ≤ 2 ^ 64) as Hbig2.
  { assert (cap * (len / cap + 1) ≤ cap * ((W + len) / cap + 1)) by (apply Z.mul_le_mono_nonneg_l; lia). lia. }
  unfold write_reserve. fold len. rewrite enc_hint, enc_shiftr, decode_raw by lia.
  rewrite (Z.mul_comm ns), off_split.
  apply (wp_reserve_blocks w R q k (pre ++ [b]) ys cache L len off fuel); try done; try lia.
  intros L' ys' n HL' Hn Hl' Hneed Hok'.
  apply wp_uadd; [unfold usize_max; lia|]. fold cap.
  rewrite (encode_enc (W / cap) ((W + len) / cap)) by (done || lia). cbn [mbind prog_mbind prog_bind].
  eapply wp_act_bind.
  { apply handle_vcas_ok; [unfold vrd; cbn [vstate producer_index w_set_free w_pindex]; by rewrite Hpi|
      unfold vwr; reflexivity]. }
  rewrite mem_set_pindex. cbn beta iota. rewrite enc_shiftr by lia.
  destruct (raw_token (W / cap) (Z.min (off + len) cap)) as [_ ->]; [done|lia|].
  assert (∀ w' F (P : vmem T → Prop), vheap_ok (blocks (body_of R q) k 0 (pre ++ b :: ys') ++ F) →
    (vheap_ok (blocks (body_of R (q ++ vs)) k 0 (pre ++ b :: ys') ++ F) →
     P (vstate w' (blocks (body_of R (q ++ vs)) k 0 (pre ++ b :: ys') ++ F))) →
    wp (write_loop fuel b (off / ns) (off mod ns) vs) (vstate w' (blocks (body_of R q) k 0 (pre ++ b :: ys') ++ F))
      (λ _ s, P s)) as Hloop.
  { intros w' F P HokF HQF.
    assert (off / ns < nv) by (apply Z.div_lt_upper_bound; unfold cap in *; lia).
    assert (0 ≤ off / ns) by (apply Z.div_pos; lia). pose proof (Z.mod_pos_bound off ns Hns).
    pose proof (off_split off) as Hos.
    apply (wp_write_loop vs w' R q k pre (b :: ys') F); [done|done|lia|lia| | |lia|done].
    - rewrite Htok. fold W. lia.
    - rewrite length_app. cbn [length]. fold W len.
      pose proof (Z.div_mod (off + len) cap cap_ne). pose proof (Z.mod_pos_bound (off + len) cap Hcap).
      replace (k + Z.of_nat (length pre + S (length ys'))) with (W / cap + (off + len) / cap + 1) by lia. lia. }
  destruct (decide (cap ≤ off + len)) as [Hfull|Hroom].
  - rewrite Z.min_r, sentinel, Z.eqb_refl by lia. apply wp_bind, wp_bind.
    unfold push_heap in *.
    apply (wp_advance_producer _ R q k pre b ys' L' (frees 0 (drop n cache)) len fuel); try done; try lia.
    { rewrite Hl'. assert (len / cap ≤ len); [|lia].
      apply Z.div_le_upper_bound; [lia|]. assert (1 * len ≤ cap * len) by (apply Z.mul_le_mono_nonneg_r; lia). lia. }
    intros Hok2. apply Hloop; [done|]. intros Hok3. apply wp_ret. by apply (HQ ys' n L').
  - assert ((off + len) / cap = 0) as E0 by (apply Z.div_small; lia).
    assert (ys' = []) as -> by (destruct ys'; [done|simpl in *; lia]).
    rewrite Z.min_l, not_sentinel by lia. apply wp_bind, wp_bind. unfold push_heap in *. cbn [frees app] in *.
    assert ((W + len) / cap = W / cap ∧ (W + len) mod cap = off + len) as [Ed Em].
    { replace (W + len) with (off + len + (W / cap) * cap) by lia.
      rewrite Z.div_add, Z.mod_add, Z.div_small, Z.mod_small by lia. lia. }
    apply Hloop; [done|]. intros Hok3. unfold BlockList_drop. apply wp_bind.
    apply (wp_drain_fresh _ _ L' []); [done|done|simpl; lia|]. intros Hok4. apply wp_ret, wp_ret.
    specialize (HQ [] n L' Hn Hl' Hneed Hok3). rewrite Ed, Em in HQ.
    change (default 0 (last [b])) with b in HQ. rewrite <- Hpb in HQ at 1. exact HQ.
Qed.

Lemma wp_write_from w R q k pre b cache vs fuel (Q : unit → vmem T → Prop) :
  let W := R + Z.of_nat (length q) in
  let len := Z.of_nat (length vs) in
  vheap_ok (blocks (body_of R q) k 0 (pre ++ [b]) ++ frees 0 cache) → w_free w = hd_or 0 cache →
  w_pblock w = b → w_pindex w = enc (W / cap) (W mod cap) 0 → 0 ≤ k → 0 ≤ R →
  k + Z.of_nat (length pre) = W / cap →
  fits ((W + len) / cap) → (length cache < fuel)%nat → (length vs + 2 < fuel)%nat →
  (∀ ys, Z.of_nat (length ys) = (W + len) / cap - W / cap →
     vheap_ok (blocks (body_of R (q ++ vs)) k 0 (pre ++ b :: ys) ++ frees 0 (drop (length ys) cache)) →
     Q tt (vstate (w_set_producer (default 0 (last (b :: ys))) (enc ((W + len) / cap) ((W + len) mod cap) 0)
             (w_set_free (hd_or 0 (drop (length ys) cache)) w))
       (blocks (body_of R (q ++ vs)) k 0 (pre ++ b :: ys) ++ frees 0 (drop (length ys) cache)))) →
  wp (write_from fuel vs) (vstate w (blocks (body_of R q) k 0 (pre ++ [b]) ++ frees 0 cache)) Q.
Proof.
  intros W len Hok Hw Hpb Hpi Hk HR Htok Hfit Hf1 Hf2 HQ. unfold write_from. fold len.
  destruct (Z.eqb_spec len 0) as [E0|Hnz].
  { apply wp_ret. destruct vs; [|simpl in *; lia]. specialize (HQ []). cbn [length] in HQ.
    rewrite app_nil_r, drop_0 in HQ. unfold len in HQ. simpl (Z.of_nat (length [])) in HQ. rewrite Z.add_0_r in HQ.
    change (default 0 (last [b])) with b in HQ.
    assert (w_set_producer b (enc (W / cap) (W mod cap) 0) (w_set_free (hd_or 0 cache) w) = w) as Ew
      by (destruct w; simpl in *; by subst).
    rewrite Ew in HQ. apply HQ; [lia|done]. }
  eapply wp_act_bind; [apply handle_vload; unfold vrd; reflexivity|].
  eapply wp_act_bind; [apply handle_vload; unfold vrd; reflexivity|].
  cbn [vstate producer_index producer_block]. rewrite Hpi, Hpb. fold cap. pose proof cap_pos as Hcap.
  pose proof (Z.mod_pos_bound W cap Hcap) as Hm. pose proof (Z.div_mod W cap cap_ne) as Hdm.
  assert (0 ≤ len / cap) as Hq0 by (apply Z.div_pos; lia).
  assert (len / cap ≤ len) as Hqlen.
  { apply Z.div_le_upper_bound; [lia|]. assert (1 * len ≤ cap * len) by (apply Z.mul_le_mono_nonneg_r; lia). lia. }
  assert (fits (len / cap)) as Hfit2.
  { unfold fits, raw in *. destruct geom_facts as (? & ? & _).
    assert (len / cap ≤ (W + len) / cap) by (apply Z.div_le_mono; lia).
    assert ((nv + 1) * ns * (len / cap + 1) ≤ (nv + 1) * ns * ((W + len) / cap + 1))
      by (apply Z.mul_le_mono_nonneg_l; nia). lia. }
  assert (len / cap ≤ usize_max) as Hmax.
  { pose proof (fits_enc _ _ 0 0 Hfit2 (conj Hq0 (Z.le_refl _)) ltac:(lia) ltac:(lia)) as Hu. unfold enc, raw in Hu.
    destruct geom_facts as (? & ? & _). assert (1 * (len / cap) ≤ (nv + 1) * ns * (len / cap))
      by (apply Z.mul_le_mono_nonneg_r; nia). lia. }
  pose proof (Permutation_app_comm (blocks (body_of R q) k 0 (pre ++ [b])) (frees 0 cache)) as Hp.
  apply wp_bind. rewrite (mem_perm w _ _ Hok Hp). pose proof (heap_ok_perm _ _ Hp Hok) as Hok1.
  apply (wp_fl_acquire w _ cache (len / cap)); [done|done|lia|done|lia|]. intros L ys HL Hys Hok2.
  pose proof (push_heap_hand R q k (pre ++ [b]) ys (drop (length ys) cache)) as Hp2.
  rewrite (mem_perm _ _ _ Hok2 Hp2). pose proof (heap_ok_perm _ _ Hp2 Hok2) as Hok3.
  destruct fuel as [|fuel]; [lia|]. apply wp_loop_unfold.
  rewrite enc_shiftr, decode_raw by lia. rewrite not_sentinel by lia.
  assert (b ≠ 0) as Hb.
  { assert (0 < b < BUSY); [|lia]. eapply heap_ok_lookup; [exact Hok|apply blocks_lookup]. }
  rewrite (proj2 (Z.eqb_neq _ _) Hb). cbn [mbind prog_mbind prog_bind negb]. apply wp_bind.
  apply (wp_write_reserve _ R q k pre b ys (drop (length ys) cache) L vs); try done; try lia.
  { fold len. lia. }
  { rewrite length_drop. lia. }
  intros ys' n L' Hn Hl' Hneed Hok4. apply wp_ret. rewrite drop_drop in *.
  assert (length ys + n = length ys')%nat as En by lia. rewrite En in *. apply HQ; [|done].
  change (Z.of_nat (length vs)) with len in Hneed. change (R + Z.of_nat (length q)) with W in Hneed.
  replace (W + len) with (W mod cap + len + (W / cap) * cap) by lia. rewrite Z.div_add by lia. lia.
Qed.

End push.
