(* ===== verification/V8PopSpec.v ===== *)
(** * Popping from the v8 queue

    [read_into] (src/src/v8/queue.rs) when one thread runs it: it claims as many
    values as are there and fit, moves the consumer's head over the blocks they
    span, and copies them out segment by segment, returning every block it
    empties to the free list. *)

From S2P Require Import Prelude Prog Layout Geometry V8Block V8Layout V8Heap V8Queue V8FreeSpec V8Live V8PushSpec.

Section segment.
Context {T : Type} `{V8Geometry} `{Allocator} `{Profile}.
Implicit Types (R k : Z) (q vs : list T) (w : vwords T) (xs ys cache : list Z) (F : list (Z * Block8 T)) (x : VBlock T).

Lemma wp_copy_out w b nx y F i x off vs out (Q : list T → vmem T → Prop) :
  vheap_ok ((b, with_next nx y) :: F) → 0 ≤ i → 0 ≤ off → y.2 !! Z.to_nat i = Some x →
  take (length vs) (drop (Z.to_nat off) (v_slots x)) = Some <$> vs →
  (let y' := put_vb i (with_slots (list_inserts (Z.to_nat off) (replicate (length vs) None) (v_slots x)) x) y in
   vheap_ok ((b, with_next nx y') :: F) → Q (out ++ vs) (vstate w ((b, with_next nx y') :: F))) →
  wp (copy_out b i off (length vs) out) (vstate w ((b, with_next nx y) :: F)) Q.
Proof.
  revert y off x out. induction vs as [|v vs IH]; intros y off x out Hok Hi Ho Hx Hvs HQ.
  - apply wp_ret. cbv zeta in HQ. cbn [length replicate list_inserts] in HQ. rewrite app_nil_r in HQ.
    assert (put_vb i (with_slots (v_slots x) x) y = y) as E.
    { unfold put_vb. rewrite list_insert_id; [by destruct y|]. rewrite Hx. by destruct x. }
    rewrite E in HQ. by apply HQ.
  - cbn [copy_out length] in *. destruct (mem_vblock w b nx y F i x Hok Hi Hx) as (_ & _ & Hok').
    pose proof (take_drop_cons _ _ _ _ _ Hvs) as Hv.
    eapply wp_act_bind.
    { unfold handle, v8_handler. rewrite (vtake_slot w b nx y F i off x v) by done. reflexivity. }
    apply (IH _ _ (set_slot off None x)); [done|done|lia|by eapply put_vb_eq| |].
    + simpl. replace (Z.to_nat (off + 1)) with (S (Z.to_nat off)) by lia. rewrite drop_insert_lt by lia.
      rewrite (drop_S _ _ _ Hv) in Hvs. simpl in Hvs. by injection Hvs.
    + cbv zeta. rewrite put_vb_twice. unfold with_slots at 1 2. cbn [set_slot v_slots v_produced v_consumed].
      replace (Z.to_nat (off + 1)) with (S (Z.to_nat off)) by lia.
      rewrite <- list_insert_inserts_lt by lia. rewrite <- app_assoc. exact HQ.
Qed.

Lemma slots_of_values R q vs base off :
  base + off = R → 0 ≤ off → off + Z.of_nat (length vs) ≤ ns →
  take (length vs) (drop (Z.to_nat off) (v_slots (vb_of R (vs ++ q) base))) = Some <$> vs.
Proof.
  intros Hb Ho Hn. apply list_eq. intros j. rewrite list_lookup_fmap.
  destruct (decide (j < length vs)%nat) as [Hj|Hj].
  - rewrite lookup_take_lt, lookup_drop, slots_of_lookup, decide_True by lia.
    rewrite cellof_taken by lia. replace (Z.to_nat _) with j by lia.
    by destruct (lookup_lt_is_Some_2 vs j Hj) as [v ->].
  - rewrite (lookup_ge_None_2 vs) by lia. apply lookup_ge_None_2. rewrite length_take. lia.
Qed.

(** The state after the segment: the block is recycled when it was the last
    segment of it. *)
Definition after_segment R q k b xs cache w : vwords T * list (Z * Block8 T) :=
  if R =? (k + 1) * cap
  then (w_set_free b w, blocks (body_of R q) (k + 1) 0 xs ++ frees 0 (b :: cache))
  else (w, blocks (body_of R q) k 0 (b :: xs) ++ frees 0 cache).

Lemma wp_fetch_vblocks w b nx y F (Q : Z → vmem T → Prop) :
  vheap_ok ((b, with_next nx y) :: F) → is_usize (y.1 + 1) →
  (vheap_ok ((b, with_next nx (y.1 + 1, y.2)) :: F) → Q y.1 (vstate w ((b, with_next nx (y.1 + 1, y.2)) :: F))) →
  wp (act (VFetchAdd (ConsumedVBlocks b) 1)) (vstate w ((b, with_next nx y) :: F)) Q.
Proof.
  intros Hok Hu HQ. eapply wp_act.
  - apply handle_vfetch_add; [unfold vrd; by rewrite (mem_lookup w _ 0 b _ Hok eq_refl)|exact Hu|
      unfold vwr; apply (mem_update w _ 0 b _ _ Hok eq_refl)].
  - apply HQ. exact (heap_ok_insert _ 0 b _ _ Hok eq_refl).
Qed.

Lemma wp_complete_segment w R q vs k b xs cache i off fuel (Q : unit → vmem T → Prop) :
  let base := k * cap + i * ns in
  let R' := R + Z.of_nat (length vs) in
  let x := vb_of R (vs ++ q) base in
  let y := put_vb i (with_slots (list_inserts (Z.to_nat off) (replicate (length vs) None) (v_slots x)) x)
             (body_of R (vs ++ q) k) in
  let F := blocks (body_of R (vs ++ q)) (k + 1) 0 xs ++ frees 0 cache in
  vheap_ok ((b, with_next (hd_or 0 xs) y) :: F) → w_free w = hd_or 0 cache → 0 ≤ i < nv → 0 ≤ off < ns →
  off + Z.of_nat (length vs) ≤ ns → base + off = R → (0 < fuel)%nat →
  (vheap_ok (after_segment R' q k b xs cache w).2 →
   Q tt (vstate (after_segment R' q k b xs cache w).1 (after_segment R' q k b xs cache w).2)) →
  wp (complete_segment fuel b i (Z.of_nat (length vs))) (vstate w ((b, with_next (hd_or 0 xs) y) :: F)) Q.
Proof.
  intros base R' x y F Hok Hw Hi Ho Hfit HR Hf HQ. destruct geom_facts as (Hns & Hnv & Hmax & _).
  assert (ns ≤ usize_max ∧ nv ≤ usize_max) as [Hum1 Hum2] by nia.
  assert (y.2 !! Z.to_nat i = Some (with_slots (list_inserts (Z.to_nat off) (replicate (length vs) None) (v_slots x)) x)) as Hy.
  { eapply put_vb_eq. by apply body_vblock. }
  assert (v_consumed x = off) as Hco by (unfold x; simpl; unfold clamp; lia).
  destruct (mem_vblock w b _ y F i _ Hok ltac:(lia) Hy) as (Hat & Hup & Hok').
  unfold complete_segment. eapply wp_act_bind.
  { apply handle_vfetch_add; [unfold vrd; by rewrite Hat|cbn [with_slots v_consumed]; rewrite Hco; unfold is_usize; lia|
      unfold vwr; apply Hup]. }
  cbn beta. cbn [with_slots v_consumed v_produced v_slots]. rewrite Hco.
  assert (mkVBlock (v_produced x) (off + Z.of_nat (length vs))
    (list_inserts (Z.to_nat off) (replicate (length vs) None) (v_slots x)) = vb_of R' q base) as Ex.
  { unfold R'. rewrite vb_of_read by (fold base; lia). fold x. rewrite Hco. do 2 f_equal. lia. }
  rewrite Ex. unfold y. rewrite put_vb_twice. specialize (Hok' (vb_of R' q base)). unfold y in Hok'.
  rewrite put_vb_twice in Hok'. set (y1 := put_vb i (vb_of R' q base) (body_of R (vs ++ q) k)) in *.
  assert (y1.2 = (body_of R' q k).2) as E2 by (symmetry; apply body_of_read; fold base; lia).
  assert (y1.1 = i) as E1 by (apply (body_count R (vs ++ q) k i); fold base; lia).
  assert (F = blocks (body_of R' q) (k + 1) 0 xs ++ frees 0 cache) as EF.
  { unfold F. f_equal. apply blocks_ext. intros j Hj. symmetry. apply body_of_read_ne. fold R'. unfold cap in *.
    assert (base + ns ≤ k * (nv * ns) + nv * ns) by (unfold base, cap; nia). unfold base in *. nia. }
  apply wp_uadd; [lia|]. unfold after_segment in HQ.
  destruct (Z.eqb_spec (off + Z.of_nat (length vs)) ns) as [Efull|Hpart].
  - apply wp_bind, wp_fetch_vblocks; [done|rewrite E1; unfold is_usize; lia|]. rewrite E1, E2. intros Hok2.
    apply wp_uadd; [lia|].
    assert (R' = base + ns) as ER by (unfold R'; lia).
    destruct (Z.eqb_spec (i + 1) nv) as [Elast|Hnl].
    + assert (R' = (k + 1) * cap) as ER' by (rewrite ER; unfold base, cap; nia).
      rewrite (proj2 (Z.eqb_eq _ _) ER') in HQ. rewrite EF in Hok2 |- *.
      assert (blocks (body_of R' q) (k + 1) 0 xs ++ frees 0 cache ≡ₚ frees 0 cache ++ blocks (body_of R' q) (k + 1) 0 xs) as Hp
        by apply Permutation_app_comm.
      assert ((b, with_next (hd_or 0 xs) (i + 1, (body_of R' q k).2)) :: blocks (body_of R' q) (k + 1) 0 xs ++ frees 0 cache ≡ₚ
        (b, with_next (hd_or 0 xs) (i + 1, (body_of R' q k).2)) :: frees 0 cache ++ blocks (body_of R' q) (k + 1) 0 xs) as Hp1
        by (by rewrite Hp).
      rewrite (mem_perm w _ _ Hok2 Hp1). pose proof (heap_ok_perm _ _ Hp1 Hok2) as Hok3.
      apply (wp_fl_recycle w _ cache b _ _ fuel); [done|done|apply body_length|apply body_of_drained; lia|done|].
      intros Hok4. pose proof (Permutation_app_comm (frees 0 (b :: cache)) (blocks (body_of R' q) (k + 1) 0 xs)) as Hp4.
      rewrite (mem_perm _ _ _ Hok4 Hp4). apply HQ. by eapply heap_ok_perm.
    + assert (R' < (k + 1) * cap) as ER' by (rewrite ER; unfold base, cap; nia).
      rewrite (proj2 (Z.eqb_neq R' _)) in HQ by lia. apply wp_ret.
      assert ((i + 1, (body_of R' q k).2) = body_of R' q k) as Eb.
      { rewrite (surjective_pairing (body_of R' q k)). f_equal. symmetry. apply body_count; [lia|].
        rewrite ER. unfold base. lia. }
      rewrite Eb, EF in Hok2 |- *. by apply HQ.
  - apply wp_ret.
    assert (R' < base + ns) as ER by (unfold R'; lia).
    assert (R' < (k + 1) * cap) as ER' by (unfold base, cap in *; nia).
    rewrite (proj2 (Z.eqb_neq R' _)) in HQ by lia.
    assert (y1 = body_of R' q k) as Eb.
    { rewrite (surjective_pairing y1), (surjective_pairing (body_of R' q k)), E1, E2. f_equal. symmetry.
      apply body_count; [lia|]. unfold base, R' in *. lia. }
    rewrite Eb, EF in Hok' |- *. by apply HQ.
Qed.

(** The values of a claimed segment have been published. *)
Lemma wp_await_values w R q k b xs F i off count fuel (Q : unit → vmem T → Prop) :
  let base := k * cap + i * ns in
  let W := R + Z.of_nat (length q) in
  vheap_ok (blocks (body_of R q) k 0 (b :: xs) ++ F) → w_pindex w = enc (W / cap) (W mod cap) 0 →
  0 ≤ i < nv → 0 ≤ off → 0 ≤ count → off + count ≤ ns → 0 ≤ k → base + off + count ≤ W → (0 < fuel)%nat →
  Q tt (vstate w (blocks (body_of R q) k 0 (b :: xs) ++ F)) →
  wp (await_values fuel b k i off count) (vstate w (blocks (body_of R q) k 0 (b :: xs) ++ F)) Q.
Proof.
  intros base W Hok Hpi Hi Ho Hc Hfit Hk HW Hf HQ. destruct geom_facts as (Hns & Hnv & _).
  destruct fuel as [|fuel]; [lia|]. apply wp_loop_unfold.
  destruct (mem_vblock w b _ (body_of R q k) (blocks (body_of R q) (k + 1) 0 xs ++ F) i (vb_of R q base) Hok)
    as (Hat & _); [lia|by apply body_vblock|]. cbn [blocks app] in *.
  eapply wp_act_bind; [apply handle_vload; unfold vrd; by rewrite Hat|].
  change (v_produced (vb_of R q base)) with (clamp ns (W - base)).
  destruct (Z.eqb_spec (clamp ns (W - base)) ns) as [E|Hne]; [by apply wp_ret|].
  assert (base ≤ W < base + ns) as HWb by (unfold clamp in Hne; lia).
  assert (clamp ns (W - base) = W - base) as -> by (unfold clamp; lia).
  eapply wp_act_bind; [apply handle_vload; unfold vrd; reflexivity|]. cbn [vstate producer_index]. rewrite Hpi.
  rewrite enc_shiftr by lia.
  assert (W / cap = k ∧ W mod cap = W - k * cap) as [Ediv Emod].
  { assert (0 ≤ W - k * cap < cap) by (unfold base, cap in *; nia).
    split; [symmetry; apply Z.div_unique with (W - k * cap)|symmetry; apply Z.mod_unique with k]; lia. }
  assert (0 ≤ W mod cap ≤ cap) as Hm by (pose proof (Z.mod_pos_bound W cap cap_pos); lia).
  destruct (raw_split (W / cap) (W mod cap)) as (-> & -> & _); [lia|done|].
  assert ((W mod cap) / ns = i ∧ (W mod cap) mod ns = W - base) as [-> ->].
  { rewrite Emod. unfold base in *.
    split; [symmetry; apply Z.div_unique with (W - (k * cap + i * ns))|symmetry; apply Z.mod_unique with i]; lia. }
  rewrite Ediv, !Z.eqb_refl. cbn [andb]. rewrite (proj2 (Z.leb_le _ _)) by lia. by apply wp_ret.
Qed.

(** One round of the copy loop. *)
Lemma wp_read_segment {A} w R q vs k b xs cache i off out fuel
    (g : list T → Z → prog (v8E T) A) (Q : A → vmem T → Prop) :
  let R' := R + Z.of_nat (length vs) in
  vheap_ok (blocks (body_of R (vs ++ q)) k 0 (b :: xs) ++ frees 0 cache) → w_free w = hd_or 0 cache →
  0 ≤ i < nv → 0 ≤ off < ns → off + Z.of_nat (length vs) ≤ ns → k * cap + i * ns + off = R → (0 < fuel)%nat →
  (vheap_ok (after_segment R' q k b xs cache w).2 →
   wp (g (out ++ vs) (if i + 1 =? nv then hd_or 0 xs else 0))
     (vstate (after_segment R' q k b xs cache w).1 (after_segment R' q k b xs cache w).2) Q) →
  wp (out ← copy_out b i off (length vs) out;
      nx ← (if i + 1 =? nv then act (VLoad (BNext b)) else Ret 0);
      complete_segment fuel b i (Z.of_nat (length vs));;
      g out nx) (vstate w (blocks (body_of R (vs ++ q)) k 0 (b :: xs) ++ frees 0 cache)) Q.
Proof.
  intros R' Hok Hw Hi Ho Hfit HR Hf HQ. cbn [blocks app] in *. apply wp_bind.
  apply (wp_copy_out w b _ _ _ i (vb_of R (vs ++ q) (k * cap + i * ns)));
    [done|lia|lia|by apply body_vblock|by apply slots_of_values; lia|].
  cbv zeta. intros Hok1. apply wp_bind.
  set (y := put_vb i _ _) in *.
  eapply (wp_mono _ _ (λ nx s, nx = (if i + 1 =? nv then hd_or 0 xs else 0) ∧
    s = vstate w ((b, with_next (hd_or 0 xs) y) :: blocks (body_of R (vs ++ q)) (k + 1) 0 xs ++ frees 0 cache))).
  { zcase; [|by apply wp_ret]. eapply wp_act; [by eapply (handle_next_load w _ 0 b)|done]. }
  intros ? ? [-> ->]. apply wp_bind. by apply (wp_complete_segment w R q vs k b xs cache i off fuel).
Qed.

(** The copy loop: it delivers [vs] and leaves the blocks [dn] in the cache. *)
Lemma wp_read_rounds m vs w R q k xs cache i off out fuel (Q : list T → vmem T → Prop) :
  let R' := R + Z.of_nat (length vs) in
  let W := R' + Z.of_nat (length q) in
  vheap_ok (blocks (body_of R (vs ++ q)) k 0 xs ++ frees 0 cache) → w_free w = hd_or 0 cache →
  w_pindex w = enc (W / cap) (W mod cap) 0 → 0 ≤ k → 0 ≤ i < nv → 0 ≤ off < ns → k * cap + i * ns + off = R →
  W < (k + Z.of_nat (length xs)) * cap → (length vs < m)%nat → (0 < fuel)%nat →
  (∀ dn xs', xs = dn ++ xs' → k + Z.of_nat (length dn) = R' / cap →
     vheap_ok (blocks (body_of R' q) (R' / cap) 0 xs' ++ frees 0 (rev dn ++ cache)) →
     Q (out ++ vs) (vstate (w_set_free (hd_or 0 (rev dn ++ cache)) w)
       (blocks (body_of R' q) (R' / cap) 0 xs' ++ frees 0 (rev dn ++ cache)))) →
  wp (loop m (read_round fuel) (hd_or 0 xs, k, i, off, Z.of_nat (length vs), out))
    (vstate w (blocks (body_of R (vs ++ q)) k 0 xs ++ frees 0 cache)) Q.
Proof.
  revert vs w R k xs cache i off out.
  induction m as [|m IH]; intros vs w R k xs cache i off out R' W Hok Hw Hpi Hk Hi Ho HR HW Hm Hf HQ; [lia|].
  destruct geom_facts as (Hns & Hnv & _). pose proof cap_pos as Hcap.
  assert (0 ≤ i * ns ∧ i * ns + ns ≤ cap) as [Hin0 Hin] by (unfold cap; nia).
  apply wp_loop_unfold. unfold read_round at 1.
  destruct (Z.eqb_spec (Z.of_nat (length vs)) 0) as [E0|Hnz].
  { destruct vs; [|simpl in *; lia]. apply wp_ret. unfold R' in *. cbn [length app] in *. rewrite Z.add_0_r in HQ.
    assert (R / cap = k) as ER by (symmetry; apply Z.div_unique with (i * ns + off); lia).
    specialize (HQ [] xs eq_refl). cbn [rev app length] in HQ. rewrite app_nil_r, ER, w_set_free_id in HQ by done.
    apply HQ; [simpl; lia|done]. }
  set (count := Z.min (ns - off) (Z.of_nat (length vs))).
  set (now := take (Z.to_nat count) vs). set (later := drop (Z.to_nat count) vs).
  assert (now ++ later = vs) as Evs by apply take_drop.
  assert (Z.of_nat (length now) = count) as Enow by (unfold now; rewrite length_take; lia).
  assert (Z.of_nat (length later) = Z.of_nat (length vs) - count) as Elater by (unfold later; rewrite length_drop; lia).
  destruct xs as [|b xs]; [simpl in *; lia|]. cbn [hd_or].
  unfold vblock_ok. apply wp_debug_assert; [apply Z.ltb_lt; lia|]. apply wp_bind.
  apply (wp_await_values w R (vs ++ q) k b xs (frees 0 cache) i off count fuel); try done; try lia.
  { rewrite length_app. unfold W, R' in Hpi. rewrite Hpi. do 2 f_equal; lia. }
  { rewrite length_app. lia. }
  unfold slots_ok. rewrite !debug_assert_ok by (apply Z.ltb_lt; lia). cbn [mbind prog_mbind prog_bind].
  replace (Z.to_nat count) with (length now) by lia. rewrite <- Enow.
  assert (vs ++ q = now ++ later ++ q) as Evq by (by rewrite app_assoc, Evs). rewrite Evq in Hok |- *.
  apply (wp_read_segment w R (later ++ q) now k b xs cache i off out fuel); try done; try lia.
  unfold after_segment. set (R1 := R + Z.of_nat (length now)). intros Hok1. apply wp_ret.
  assert (R1 + Z.of_nat (length later) = R') as ER1 by (unfold R1, R'; lia).
  rewrite Enow, <- Elater.
  destruct (Z.eqb_spec R1 ((k + 1) * cap)) as [Efull|Hpart].
  - assert (i + 1 = nv ∧ off + count = ns) as [Ei Eo].
    { unfold R1 in Efull. rewrite Enow in Efull. assert (i * ns + off + count = nv * ns) by (unfold cap in *; lia).
      assert (off + count ≤ ns) by lia. assert (i + 1 = nv) as Ei by nia. split; [done|].
      assert (nv * ns = (i + 1) * ns) by (by rewrite Ei). lia. }
    rewrite (proj2 (Z.eqb_eq _ _) Ei).
    cbn [fst snd] in Hok1 |- *.
    apply (IH later (w_set_free b w) R1 (k + 1) xs (b :: cache) 0 0 (out ++ now)); try done; try lia.
    { rewrite ER1. exact Hpi. }
    { rewrite ER1. unfold W in HW. cbn [length] in HW. lia. }
    rewrite ER1. intros dn xs' -> Hdn Hok2. rewrite <- app_assoc, Evs.
    specialize (HQ (b :: dn) xs' eq_refl). cbn [rev length] in HQ. rewrite <- app_assoc in HQ.
    rewrite w_set_free_twice. apply HQ; [lia|done].
  - destruct (decide (later = [])) as [El0|Hl0].
    + destruct m as [|m]; [lia|]. cbn [fst snd] in Hok1 |- *. rewrite El0 in *. cbn [length app] in *.
      rewrite app_nil_r in Evs. rewrite Evs in *. rewrite Z.add_0_r in ER1. rewrite ER1 in *.
      assert (R' / cap = k) as ER.
      { symmetry. apply Z.div_unique with (R' - k * cap); [|lia]. left. unfold R' in *. lia. }
      specialize (HQ [] (b :: xs) eq_refl). cbn [rev app length] in HQ. rewrite ER, w_set_free_id in HQ by done.
      apply wp_loop_unfold. destruct (i + 1 =? nv); apply wp_ret; (apply HQ; [simpl; lia|done]).
    + assert (off + count = ns) as Eo.
      { destruct (Z.min_spec (ns - off) (Z.of_nat (length vs))) as [[? E]|[? E]]; fold count in E; [lia|].
        exfalso. apply Hl0. destruct later; [done|simpl in *; lia]. }
      assert (i + 1 ≠ nv) as Hi1.
      { intros Ei. apply Hpart. unfold R1. rewrite Enow. unfold cap in *. nia. }
      rewrite (proj2 (Z.eqb_neq _ _) Hi1). cbn [fst snd] in Hok1 |- *.
      apply (IH later w R1 k (b :: xs) cache (i + 1) 0 (out ++ now)); try done; try lia.
      { rewrite ER1. exact Hpi. }
      rewrite ER1. intros dn xs' Hx Hdn Hok2. rewrite <- app_assoc, Evs. by apply HQ.
Qed.

Lemma wp_read_loop vs w R q k xs cache i off fuel (Q : list T → vmem T → Prop) :
  let R' := R + Z.of_nat (length vs) in
  let W := R' + Z.of_nat (length q) in
  vheap_ok (blocks (body_of R (vs ++ q)) k 0 xs ++ frees 0 cache) → w_free w = hd_or 0 cache →
  w_pindex w = enc (W / cap) (W mod cap) 0 → 0 ≤ k → 0 ≤ i < nv → 0 ≤ off < ns → k * cap + i * ns + off = R →
  W < (k + Z.of_nat (length xs)) * cap → (length vs < fuel)%nat →
  (∀ dn xs', xs = dn ++ xs' → k + Z.of_nat (length dn) = R' / cap →
     vheap_ok (blocks (body_of R' q) (R' / cap) 0 xs' ++ frees 0 (rev dn ++ cache)) →
     Q vs (vstate (w_set_free (hd_or 0 (rev dn ++ cache)) w)
       (blocks (body_of R' q) (R' / cap) 0 xs' ++ frees 0 (rev dn ++ cache)))) →
  wp (read_loop fuel (hd_or 0 xs) k i off (Z.of_nat (length vs)) [])
    (vstate w (blocks (body_of R (vs ++ q)) k 0 xs ++ frees 0 cache)) Q.
Proof.
  intros R' W Hok Hw Hpi Hk Hi Ho HR HW Hf HQ. unfold read_loop.
  apply (wp_read_rounds fuel vs w R q k xs cache i off [] fuel); try done. lia.
Qed.

End segment.
