(* ===== verification/V8ReadSpec.v ===== *)
(** * Claiming values of the v8 queue

    The consumer's side of src/src/v8/queue.rs before the copy: the proposal, the
    move over block boundaries, and [read_into] as a whole. *)

From S2P Require Import Prelude Prog Layout Geometry V8Block V8Layout V8Heap V8Queue V8FreeSpec V8Live V8PushSpec V8PopSpec.

Section consumer.
Context {T : Type} `{V8Geometry} `{Allocator} `{Profile}.
Implicit Types (R k req : Z) (q vs : list T) (w : vwords T) (xs ys cache : list Z) (F l : list (Z * Block8 T)).

Definition w_set_consumer (b i : Z) w : vwords T :=
  mkW (w_pblock w) (w_pindex w) b i (w_free w) (w_dropped w).

Lemma mem_set_cblock w l b : set_consumer_block b (vstate w l) = vstate (w_set_consumer b (w_cindex w) w) l.
Proof. done. Qed.

Lemma mem_set_cindex w l i : set_consumer_index i (vstate w l) = vstate (w_set_consumer (w_cblock w) i w) l.
Proof. done. Qed.

(** The has-next bit of the consumer is a promise. *)
Definition hint_ok (f t tp : Z) : Prop := f = 0 ∨ f = 1 ∧ t < tp.

Lemma wrapping_enc t t' off f :
  fits t' → 0 ≤ t ≤ t' → 0 ≤ off ≤ cap → 0 ≤ f ≤ 1 → wrapping (raw t off * 2) + f = enc t off f.
Proof.
  intros Hfit Ht Ho Hf. pose proof (fits_enc t t' off f Hfit Ht Ho Hf) as Hb.
  pose proof (fits_enc t t' off 0 Hfit Ht Ho ltac:(lia)) as Hb0. unfold enc, usize_max in *. unfold wrapping.
  rewrite Z.mod_small by lia. lia.
Qed.

Lemma raw_next t : raw t cap + ns = raw (t + 1) 0.
Proof. unfold raw, cap. lia. Qed.

Lemma raw_off t off d : raw t off + d = raw t (off + d).
Proof. unfold raw. lia. Qed.

Lemma wp_await_producer w l t tp po fuel (Q : Z → vmem T → Prop) :
  w_pindex w = enc tp po 0 → 0 ≤ tp → 0 ≤ po < cap → t ≠ tp → (0 < fuel)%nat →
  Q (raw tp po) (vstate w l) → wp (await_producer fuel t) (vstate w l) Q.
Proof.
  intros Hpi Htp Hpo Hne Hf HQ. unfold await_producer.
  eapply wp_act_bind; [apply handle_vload; unfold vrd; reflexivity|]. cbn [vstate producer_index]. rewrite Hpi.
  rewrite enc_shiftr by lia. destruct fuel as [|fuel]; [lia|]. apply wp_loop_unfold.
  destruct (raw_token tp po) as [-> ->]; [done|lia|].
  rewrite (proj2 (Z.eqb_neq tp t)), not_sentinel by lia. cbn [orb]. by apply wp_ret.
Qed.

(** ** Crossing block boundaries *)

Section advance.
Context (R : Z) (q : list T) (w : vwords T) (k : Z) (xs : list Z) (F : list (Z * Block8 T)) (req : Z).

Let W := R + Z.of_nat (length q).
Let l := blocks (body_of R q) k 0 xs ++ F.

Context (Hok : vheap_ok l) (Hk : k = R / cap) (HR : 0 ≤ R) (Hreq : 0 ≤ req ≤ usize_max).
Context (Hfit : fits (W / cap)) (Hxs : k + Z.of_nat (length xs) = W / cap + 1).

(** What the claim is, and where the consumer's head is left. *)
Definition claim : Z := Z.min req (Z.of_nat (length q)).

Definition claimed (Q : Z → vmem T → Prop) : Prop :=
  ∀ f pre b ys, xs = pre ++ b :: ys → k + Z.of_nat (length pre) = (R + claim) / cap →
    hint_ok f ((R + claim) / cap) (W / cap) →
    Q claim (vstate (w_set_consumer b (enc ((R + claim) / cap) ((R + claim) mod cap) f) w) l).

Lemma claimed_at (Q : Z → vmem T → Prop) f pre b ys t off len :
  claimed Q → xs = pre ++ b :: ys → k + Z.of_nat (length pre) = t → hint_ok f t (W / cap) →
  0 ≤ off < cap → len = claim → R + claim = t * cap + off →
  Q len (vstate (w_set_consumer b (enc t off f) w) l).
Proof.
  intros HQ Hx Ht Hf Ho -> E. assert ((R + claim) / cap = t ∧ (R + claim) mod cap = off) as [Ed Em].
  { split; [symmetry; apply Z.div_unique with off|symmetry; apply Z.mod_unique with t]; lia. }
  specialize (HQ f pre b ys Hx). rewrite Ed, Em in HQ. by apply HQ.
Qed.

(** At the start of block [t], which is not the first one. *)
Lemma wp_advance_rounds ys pre b t fuel (Q : Z → vmem T → Prop) :
  xs = pre ++ b :: ys → k + Z.of_nat (length pre) = t → k < t → t * cap - R ≤ req →
  (2 * length ys < fuel)%nat → claimed Q →
  wp (loop fuel (advance_round (raw (W / cap) (W mod cap)) req) (b, enc t 0 1, t * cap - R)) (vstate w l) Q.
Proof.
  pose proof cap_pos as Hcap. pose proof (Z.mod_pos_bound W cap Hcap) as Hm. pose proof (Z.div_mod W cap cap_ne) as Hdm.
  pose proof (Z.div_mod R cap cap_ne) as HdR. pose proof (Z.mod_pos_bound R cap Hcap) as HmR. rewrite <- Hk in HdR.
  assert (0 ≤ k) as Hk0 by (rewrite Hk; apply Z.div_pos; lia).
  revert pre b t fuel. induction ys as [|c ys IH]; intros pre b t fuel Hx Ht Hkt Hlen Hf HQ;
    (destruct fuel as [|fuel]; [simpl in Hf; lia|]); apply wp_loop_unfold; unfold advance_round at 1;
    rewrite Hx, length_app in Hxs; cbn [length] in Hxs; rewrite enc_shiftr by lia;
    destruct (raw_token t 0) as [-> ->]; [lia|lia| |lia|lia|];
    destruct (raw_token (W / cap) (W mod cap)) as [-> _]; [lia|lia| |lia|lia|].
  - assert (t = W / cap) as Et by lia. rewrite Et, Z.eqb_refl.
    eapply wp_act_bind; [apply handle_vstore; unfold vwr; reflexivity|]. rewrite mem_set_cblock.
    assert (t * cap + W mod cap = W) as EW by (rewrite Et; lia).
    apply wp_usub; [lia|]. apply wp_usub; [unfold raw; lia|].
    replace (raw (W / cap) (W mod cap) - raw (W / cap) 0) with (W mod cap) by (unfold raw; lia).
    rewrite <- Et. set (left := req - (t * cap - R)). set (d := Z.min left (W mod cap)).
    assert (0 ≤ d < cap) as Hd by (unfold d, left; lia).
    assert (t * cap - R + d = claim) as Ec by (unfold d, left, claim; unfold W in *; lia).
    rewrite raw_off, <- (Z.add_0_r (wrapping _)), (wrapping_enc t (W / cap)) by (done || lia).
    rewrite enc_shiftr by lia. replace (raw t (0 + d) - raw t 0) with d by (unfold raw; lia).
    apply wp_uadd; [unfold claim in Ec; lia|].
    eapply wp_act_bind; [apply handle_vstore; unfold vwr; reflexivity|]. rewrite mem_set_cindex. apply wp_ret.
    apply (claimed_at Q 0 pre b [] t); [done|done|done|by left|lia|done|]. lia.
  - assert (t < W / cap) as Et by lia. rewrite (proj2 (Z.eqb_neq t (W / cap))) by lia.
    rewrite Z.div_0_l by (destruct geom_facts; lia). destruct geom_facts as (Hns & Hnv & _).
    rewrite (proj2 (Z.eqb_neq 0 nv)) by lia.
    apply wp_usub; [lia|]. fold cap. set (left := req - (t * cap - R)). set (count := Z.min left cap).
    assert (0 ≤ count ≤ cap) as Hc by (unfold count, left; lia).
    assert ((t + 1) * cap ≤ W) as HtW.
    { assert ((t + 1) * cap ≤ W / cap * cap) by (apply Z.mul_le_mono_nonneg_r; lia). lia. }
    apply wp_uadd; [unfold count, left; lia|]. 
    assert (0 ≤ enc t count 1 ≤ usize_max) as Hu by (apply (fits_enc t (W / cap)); (done || lia)). unfold enc in Hu.
    apply wp_uadd; [rewrite raw_off, Z.add_0_l; lia|].
    rewrite raw_off, Z.add_0_l, (wrapping_enc t (W / cap)) by (done || lia).
    destruct (Z.ltb_spec count cap) as [Hlt|Hge].
    + eapply wp_act_bind; [apply handle_vstore; unfold vwr; reflexivity|]. rewrite mem_set_cblock.
      eapply wp_act_bind; [apply handle_vstore; unfold vwr; reflexivity|]. rewrite mem_set_cindex. apply wp_ret.
      apply (claimed_at Q 1 pre b (c :: ys) t); [done|done|done|right; lia|lia| |];
        unfold count, left, claim in *; unfold W in *; lia.
    + assert (count = cap) as Ecount by lia. rewrite Ecount. apply wp_ret.
      destruct fuel as [|fuel]; [simpl in Hf; lia|]. apply wp_loop_unfold. unfold advance_round at 1.
      rewrite enc_shiftr by lia. destruct (raw_token t cap) as [-> ->]; [lia|lia|].
      destruct (raw_token (W / cap) (W mod cap)) as [-> _]; [lia|lia|].
      rewrite (proj2 (Z.eqb_neq t (W / cap))), sentinel, Z.eqb_refl by lia.
      eapply wp_act_bind.
      { eapply handle_next_load; [exact Hok|]. unfold l. rewrite Hx. apply blocks_lookup. }
      cbn [with_next b_next hd_or].
      assert (0 ≤ enc (t + 1) 0 1 ≤ usize_max) as Hu2 by (apply (fits_enc (t + 1) (W / cap)); (done || lia)). unfold enc in Hu2.
      apply wp_uadd; [rewrite raw_next; lia|]. rewrite raw_next, (wrapping_enc (t + 1) (W / cap)) by (done || lia).
      apply wp_ret. replace (t * cap - R + cap) with ((t + 1) * cap - R) by lia.
      apply (IH (pre ++ [b]) c (t + 1)); [by rewrite <- app_assoc|rewrite length_app; simpl; lia|lia| |simpl in Hf; lia|done].
      unfold count, left in Ecount. lia.
Qed.

(** From the sentinel of the first block. *)
Lemma wp_advance_consumer b ys fuel (Q : Z → vmem T → Prop) :
  xs = b :: ys → k < W / cap → w_pindex w = enc (W / cap) (W mod cap) 0 → (k + 1) * cap - R ≤ req →
  (2 * length xs < fuel)%nat → claimed Q →
  wp (advance_consumer fuel b k (enc k cap 1) req ((k + 1) * cap - R)) (vstate w l) Q.
Proof.
  intros Hx Hkt Hpi Hlen Hf HQ. pose proof cap_pos as Hcap. pose proof (Z.mod_pos_bound W cap Hcap) as Hm.
  assert (0 ≤ k) as Hk0 by (rewrite Hk; apply Z.div_pos; lia).
  unfold advance_consumer. apply wp_bind.
  apply (wp_await_producer w l k (W / cap) (W mod cap)); [done|lia|lia|lia|lia|].
  destruct fuel as [|fuel]; [lia|]. apply wp_loop_unfold. unfold advance_round at 1.
  rewrite enc_shiftr by lia. destruct (raw_token k cap) as [-> ->]; [lia|lia|].
  destruct (raw_token (W / cap) (W mod cap)) as [-> _]; [lia|lia|].
  rewrite (proj2 (Z.eqb_neq k (W / cap))), sentinel, Z.eqb_refl by lia.
  eapply wp_act_bind.
  { eapply (handle_next_load w l 0 b); [exact Hok|]. unfold l. by rewrite Hx. }
  destruct ys as [|c ys]; [rewrite Hx in Hxs; simpl in Hxs; lia|]. cbn [with_next b_next hd_or].
  assert (0 ≤ enc (k + 1) 0 1 ≤ usize_max) as Hu2 by (apply (fits_enc (k + 1) (W / cap)); (done || lia)). unfold enc in Hu2.
  apply wp_uadd; [rewrite raw_next; lia|]. rewrite raw_next, (wrapping_enc (k + 1) (W / cap)) by (done || lia).
  apply wp_ret. apply (wp_advance_rounds ys [b] c (k + 1)); [done|simpl; lia|lia|lia|rewrite Hx in Hf; simpl in Hf; lia|done].
Qed.

End advance.

(** ** The proposal *)

Lemma enc_clear_hint t off :
  0 ≤ enc t off 0 ≤ usize_max → Z.land (enc t off 0) (usize_not 1) = enc t off 0.
Proof.
  intros Hb. unfold enc in *. rewrite Z.add_0_r in *. set (a := raw t off) in *.
  replace (2 * a) with (Z.shiftl a 1) by (rewrite Z.shiftl_mul_pow2; lia).
  change (usize_not 1) with (Z.shiftl (Z.ones 63) 1).
  rewrite <- Z.shiftl_land, Z.land_ones, Z.mod_small by (unfold usize_max in Hb; lia). done.
Qed.

Lemma enc_set_hint t off : Z.lor (enc t off 0) 1 = enc t off 1.
Proof. rewrite lor_add_disjoint; [unfold enc; lia|]. by apply enc_hint. Qed.

(** What the consumer proposes to claim, on a head at [R] in block [k]. *)
Lemma wp_read_propose w l R q k f req (Q : option Z → vmem T → Prop) :
  let W := R + Z.of_nat (length q) in
  let off := R mod cap in
  k = R / cap → 0 ≤ R → fits (W / cap) → hint_ok f k (W / cap) → 0 < req ≤ isize_max →
  w_pindex w = enc (W / cap) (W mod cap) 0 →
  Q (if decide (k = W / cap)
     then if decide (q = []) then None else Some (enc k (off + claim q req) 0)
     else Some (enc k (Z.min (off + req) cap) 1)) (vstate w l) →
  wp (read_propose (enc k off f) req) (vstate w l) Q.
Proof.
  intros W off Hk HR Hfit Hh Hreq Hpi HQ. pose proof cap_pos as Hcap. pose proof cap_max as Hcm.
  pose proof (Z.mod_pos_bound R cap Hcap) as Hm. pose proof (Z.div_mod R cap cap_ne) as Hdm. fold off in Hm, Hdm.
  pose proof (Z.mod_pos_bound W cap Hcap) as HmW. pose proof (Z.div_mod W cap cap_ne) as HdW.
  assert (k ≤ W / cap) as Hle by (subst k; apply Z.div_le_mono; unfold W; lia).
  assert (0 ≤ k) as Hk0 by (subst k; apply Z.div_pos; lia).
  assert (0 ≤ f ≤ 1) as Hf by (destruct Hh; lia).
  unfold read_propose. rewrite enc_hint, enc_shiftr, decode_raw by lia. rewrite off_split.
  apply wp_uadd; [unfold usize_max, isize_max in *; lia|]. fold cap.
  rewrite (encode_enc k (W / cap)) by (done || lia). cbn [mbind prog_mbind prog_bind].
  destruct (Z.eqb_spec f 0) as [Ef|Hf1].
  - eapply wp_act_bind; [apply handle_vload; unfold vrd; reflexivity|]. cbn [vstate producer_index]. rewrite Hpi.
    rewrite enc_shiftr, raw_stride by lia.
    destruct (decide (k = W / cap)) as [Ek|Hnk].
    + rewrite <- Ek in *. rewrite Z.eqb_refl.
      assert (W mod cap = off + Z.of_nat (length q)) as EW.
      { assert (k * cap = cap * (R / cap)) by (rewrite Hk; lia). unfold W in HdW at 1. lia. }
      destruct (Z.eqb_spec (raw k off) (raw k (W mod cap))) as [Er|Hr].
      * assert (q = []) as -> by (destruct q; [done|]; unfold raw in Er; simpl in *; lia).
        rewrite decide_True in HQ by done. by apply wp_ret.
      * rewrite decide_False in HQ by (intros ->; apply Hr; rewrite EW; f_equal; simpl; lia).
        replace (wrapping (raw k (W mod cap) * 2)) with (enc k (W mod cap) 0)
          by (rewrite <- (wrapping_enc k k) by (done || lia); lia).
        assert (Z.min (enc k (Z.min (off + req) cap) f) (enc k (W mod cap) 0) = enc k (off + claim q req) 0) as ->
          by (unfold enc, raw, claim; lia).
        assert (0 ≤ enc k (off + claim q req) 0 ≤ usize_max) as Hu.
        { apply (fits_enc k k); try done; unfold claim; lia. }
        rewrite (enc_clear_hint _ _ Hu). by apply wp_ret.
    + rewrite (proj2 (Z.eqb_neq k (W / cap))) by done.
      assert (raw k off ≠ raw (W / cap) (W mod cap)) as Hr.
      { intros E. apply (f_equal (λ x, x / ((nv + 1) * ns))) in E. rewrite !raw_stride in E by lia. done. }
      rewrite (proj2 (Z.eqb_neq _ _) Hr). subst f. rewrite enc_set_hint. by apply wp_ret.
  - assert (f = 1 ∧ k < W / cap) as [-> Hlt] by (destruct Hh; lia).
    rewrite decide_False in HQ by lia. by apply wp_ret.
Qed.

(** ** [read_into] *)

(** The copy of a claim, once the consumer's head has been moved behind it. *)
Lemma wp_read_claimed w R q k xs cache req f pre b' ys' fuel (Q : list T → vmem T → Prop) :
  let W := R + Z.of_nat (length q) in
  let R' := R + claim q req in
  let n := Z.to_nat (claim q req) in
  let w' := w_set_consumer b' (enc (R' / cap) (R' mod cap) f) w in
  vheap_ok (blocks (body_of R q) k 0 xs ++ frees 0 cache) → w_free w = hd_or 0 cache →
  w_pindex w = enc (W / cap) (W mod cap) 0 → k = R / cap → 0 ≤ R → 0 ≤ req →
  k + Z.of_nat (length xs) = W / cap + 1 → (length q < fuel)%nat →
  xs = pre ++ b' :: ys' → k + Z.of_nat (length pre) = R' / cap →
  (vheap_ok (blocks (body_of R' (drop n q)) (R' / cap) 0 (b' :: ys') ++ frees 0 (rev pre ++ cache)) →
   Q (take n q) (vstate (w_set_free (hd_or 0 (rev pre ++ cache)) w')
     (blocks (body_of R' (drop n q)) (R' / cap) 0 (b' :: ys') ++ frees 0 (rev pre ++ cache)))) →
  wp (read_loop fuel (hd_or 0 xs) k (R mod cap / ns) ((R mod cap) mod ns) (claim q req) [])
    (vstate w' (blocks (body_of R q) k 0 xs ++ frees 0 cache)) Q.
Proof.
  intros W R' n w' Hok Hw Hpi Hk HR Hreq Hxs Hf Hx Hpre HQ. pose proof cap_pos as Hcap.
  destruct geom_facts as (Hns & Hnv & _).
  pose proof (Z.mod_pos_bound R cap Hcap) as Hm. pose proof (Z.div_mod R cap cap_ne) as Hdm.
  pose proof (Z.mod_pos_bound W cap Hcap) as HmW. pose proof (Z.div_mod W cap cap_ne) as HdW.
  assert (0 ≤ claim q req ≤ Z.of_nat (length q)) as Hc by (unfold claim; lia).
  assert (Z.of_nat (length (take n q)) = claim q req) as Ht by (unfold n; rewrite length_take; lia).
  assert (R + Z.of_nat (length (take n q)) + Z.of_nat (length (drop n q)) = W) as EW.
  { unfold W. rewrite length_take, length_drop. lia. }
  rewrite <- Ht.
  replace (body_of R q) with (body_of R (take n q ++ drop n q)) in Hok |- * by (by rewrite take_drop).
  assert (R mod cap / ns < nv) by (apply Z.div_lt_upper_bound; unfold cap in *; lia).
  assert (0 ≤ R mod cap / ns) by (apply Z.div_pos; lia). pose proof (Z.mod_pos_bound (R mod cap) ns Hns).
  pose proof (off_split (R mod cap)).
  apply (wp_read_loop (take n q) w' R (drop n q) k xs cache); try done; try lia.
  - rewrite EW. exact Hpi.
  - subst k. apply Z.div_pos; lia.
  - rewrite Ht. fold R'. intros dn xs' Hx' Hdn Hok'.
    assert (pre = dn ∧ b' :: ys' = xs') as [<- <-].
    { rewrite Hx in Hx'. apply app_inj_1; [lia|done]. }
    by apply HQ.
Qed.

Lemma wp_read_into w R q k f b ys cache req fuel (Q : list T → vmem T → Prop) :
  let xs := b :: ys in
  let W := R + Z.of_nat (length q) in
  let R' := R + claim q req in
  let n := Z.to_nat (claim q req) in
  vheap_ok (blocks (body_of R q) k 0 xs ++ frees 0 cache) → w_free w = hd_or 0 cache → w_cblock w = b →
  w_cindex w = enc k (R mod cap) f → w_pindex w = enc (W / cap) (W mod cap) 0 →
  k = R / cap → 0 ≤ R → fits (W / cap) → hint_ok f k (W / cap) → 0 ≤ req ≤ isize_max →
  k + Z.of_nat (length xs) = W / cap + 1 → (2 * length xs + length q < fuel)%nat →
  (∀ f' dn b' ys', xs = dn ++ b' :: ys' → k + Z.of_nat (length dn) = R' / cap → hint_ok f' (R' / cap) (W / cap) →
     vheap_ok (blocks (body_of R' (drop n q)) (R' / cap) 0 (b' :: ys') ++ frees 0 (rev dn ++ cache)) →
     Q (take n q) (vstate (w_set_free (hd_or 0 (rev dn ++ cache))
                         (w_set_consumer b' (enc (R' / cap) (R' mod cap) f') w))
       (blocks (body_of R' (drop n q)) (R' / cap) 0 (b' :: ys') ++ frees 0 (rev dn ++ cache)))) →
  wp (read_into fuel req) (vstate w (blocks (body_of R q) k 0 xs ++ frees 0 cache)) Q.
Proof.
  intros xs W R' n Hok Hw Hcb Hci Hpi Hk HR Hfit Hh Hreq Hxs Hf HQ.
  pose proof cap_pos as Hcap. destruct geom_facts as (Hns & Hnv & _).
  pose proof (Z.mod_pos_bound R cap Hcap) as Hm. pose proof (Z.div_mod R cap cap_ne) as Hdm.
  pose proof (Z.mod_pos_bound W cap Hcap) as HmW. pose proof (Z.div_mod W cap cap_ne) as HdW.
  assert (0 ≤ k) as Hk0 by (subst k; apply Z.div_pos; lia).
  assert (k ≤ W / cap) as Hle by (subst k; apply Z.div_le_mono; unfold W; lia).
  assert (0 ≤ f ≤ 1) as Hf01 by (destruct Hh; lia).
  assert (claim q req = 0 → Q [] (vstate w (blocks (body_of R q) k 0 xs ++ frees 0 cache))) as Hnone.
  { intros E0. specialize (HQ f [] b ys eq_refl). unfold R', n in HQ. rewrite E0, !Z.add_0_r in HQ.
    change (Z.to_nat 0) with 0%nat in HQ. cbn [rev app length] in HQ. rewrite drop_0, take_0, <- Hk in HQ.
    assert (w_set_free (hd_or 0 cache) (w_set_consumer b (enc k (R mod cap) f) w) = w) as Ew
      by (destruct w; simpl in *; by subst).
    rewrite Ew in HQ. apply HQ; [simpl; lia|done|done]. }
  unfold read_into. destruct (Z.eqb_spec req 0) as [->|Hnz].
  { apply wp_ret, Hnone. unfold claim. lia. }
  eapply wp_act_bind; [apply handle_vload; unfold vrd; reflexivity|].
  eapply wp_act_bind; [apply handle_vload; unfold vrd; reflexivity|].
  cbn [vstate consumer_index consumer_block]. rewrite Hci, Hcb.
  destruct fuel as [|fuel]; [lia|]. apply wp_loop_unfold.
  rewrite enc_shiftr, decode_raw by lia. rewrite not_sentinel by lia. apply wp_bind.
  apply (wp_read_propose w _ R q k f req); [done|done|done|done|lia|done|]. fold W.
  set (off := R mod cap) in *. set (l := blocks (body_of R q) k 0 xs ++ frees 0 cache) in *.
  assert (b ≠ 0) as Hb0 by (pose proof (heap_ok_lookup l 0 b _ Hok eq_refl); lia).
  assert (k * cap + off = R) as ER by (rewrite Hk; lia).
  assert (∀ len f' pre b' ys', len = claim q req → xs = pre ++ b' :: ys' → k + Z.of_nat (length pre) = R' / cap →
    hint_ok f' (R' / cap) (W / cap) →
    wp (out ← read_loop (S fuel) b k (off / ns) (off mod ns) len []; Ret (inr out : Z * Z + list T))
      (vstate (w_set_consumer b' (enc (R' / cap) (R' mod cap) f') w) l)
      (λ r s', match r with
               | inl _ => False
               | inr a => Q a s' end)) as Hread.
  { intros len f' pre b' ys' -> Hx Hpre Hh'. apply wp_bind.
    apply (wp_read_claimed w R q k xs cache req f' pre b' ys' (S fuel)); try done; try lia.
    intros Hok'. apply wp_ret. by apply HQ. }
  destruct (decide (k = W / cap)) as [Ek|Hnk].
  - destruct (decide (q = [])) as [->|Hq]; [apply wp_ret, Hnone; unfold claim; simpl; lia|].
    rewrite (proj2 (Z.eqb_neq _ _) Hb0).
    assert (off + Z.of_nat (length q) = W mod cap) as EW by (unfold W in HdW at 1; rewrite <- Ek in HdW; lia).
    assert (0 ≤ off + claim q req < cap) as Hroom by (unfold claim; lia).
    assert (R' / cap = k ∧ R' mod cap = off + claim q req) as [Ed Em].
    { unfold R'. split; [symmetry; apply Z.div_unique with (off + claim q req)|
        symmetry; apply Z.mod_unique with k]; lia. }
    eapply wp_act_bind.
    { apply handle_vcas_ok; [unfold vrd; cbn [vstate consumer_index]; by rewrite Hci|unfold vwr; reflexivity]. }
    rewrite mem_set_cindex. cbn beta iota. rewrite enc_shiftr by lia. apply wp_usub; [unfold raw, claim; lia|].
    destruct (raw_token k (off + claim q req)) as [_ ->]; [lia|lia|]. rewrite not_sentinel by lia.
    rewrite Hcb. replace (enc k (off + claim q req) 0) with (enc (R' / cap) (R' mod cap) 0) by (by rewrite Ed, Em).
    eapply wp_mono; [apply (Hread _ 0 [] b ys)|].
    + unfold raw. lia.
    + done.
    + simpl. lia.
    + by left.
    + intros [?|?] ?; done.
  - rewrite (proj2 (Z.eqb_neq _ _) Hb0). assert (k < W / cap) as Hlt by lia.
    assert ((k + 1) * cap ≤ W) as HkW.
    { assert ((k + 1) * cap ≤ W / cap * cap) by (apply Z.mul_le_mono_nonneg_r; lia). lia. }
    eapply wp_act_bind.
    { apply handle_vcas_ok; [unfold vrd; cbn [vstate consumer_index]; by rewrite Hci|unfold vwr; reflexivity]. }
    rewrite mem_set_cindex. cbn beta iota. rewrite enc_shiftr by lia. apply wp_usub; [unfold raw; lia|].
    destruct (raw_token k (Z.min (off + req) cap)) as [_ ->]; [lia|lia|]. rewrite Hcb.
    destruct (decide (off + req < cap)) as [Hin|Hout].
    + rewrite Z.min_l, not_sentinel by lia.
      assert (claim q req = req) as Ec by (unfold claim, W in *; lia).
      assert (R' / cap = k ∧ R' mod cap = off + req) as [Ed Em].
      { unfold R'. rewrite Ec. split; [symmetry; apply Z.div_unique with (off + req)|
          symmetry; apply Z.mod_unique with k]; lia. }
      replace (enc k (off + req) 1) with (enc (R' / cap) (R' mod cap) 1) by (by rewrite Ed, Em).
      eapply wp_mono; [apply (Hread _ 1 [] b ys)|].
      * unfold raw. lia.
      * done.
      * simpl. lia.
      * right. lia.
      * intros [?|?] ?; done.
    + rewrite Z.min_r, sentinel, Z.eqb_refl by lia.
      replace (raw k cap - raw k off) with ((k + 1) * cap - R) by (unfold raw; lia). apply wp_bind.
      apply (wp_advance_consumer R q (w_set_consumer b (enc k cap 1) w) k xs (frees 0 cache) req) with (ys := ys);
        try done; try lia; [unfold usize_max, isize_max in *; lia|]. intros f' pre b' ys' Hx Hpre Hh'.
      eapply wp_mono; [apply (Hread _ f' pre b' ys'); done|]. intros [?|?] ?; done.
Qed.

End consumer.
