(* ===== verification/V8Spec.v ===== *)
(** * The v8 queue implements a FIFO list with a block cache

    The abstract state is the number of values popped so far, the list of values
    in the queue, and the number of cached blocks.  Any sequence of calls on one
    thread gets the answers of the abstract queue, keeps exactly the blocks it
    accounts for, and a final drop leaves nothing behind. *)

From S2P Require Import Prelude Prog Layout Geometry Instances V8Block V8Layout V8Heap V8Queue V8FreeSpec V8Live V8PushSpec V8PopSpec V8ReadSpec.

Inductive vcall (T : Type) :=
| VPush (v : T)
| VPushBatch (vs : list T)
| VPop
| VPopBatch (n : Z)
| VFlush.
Arguments VPush {T} v.
Arguments VPushBatch {T} vs.
Arguments VPop {T}.
Arguments VPopBatch {T} n.
Arguments VFlush {T}.

Inductive vanswer (T : Type) :=
| VUnit
| VItem (v : option T)
| VItems (vs : list T)
| VFreed (n : Z).
Arguments VUnit {T}.
Arguments VItem {T} v.
Arguments VItems {T} vs.
Arguments VFreed {T} n.

Record vspec (T : Type) := mkVSpec { vs_popped : Z; vs_queue : list T; vs_cached : nat }.
Arguments mkVSpec {T} _ _ _.
Arguments vs_popped {T} _.
Arguments vs_queue {T} _.
Arguments vs_cached {T} _.

Definition vpushed {T} (c : vcall T) : list T :=
  match c with VPush v => [v] | VPushBatch vs => vs | _ => [] end.

Definition vreturned {T} (a : vanswer T) : list T :=
  match a with VItem (Some v) => [v] | VItems vs => vs | _ => [] end.

Definition vcalls_cost {T} (cs : list (vcall T)) : nat := sum_list ((λ c, length (vpushed c)) <$> cs).

Section spec.
Context {T : Type} `{V8Geometry}.
Implicit Types (sp : vspec T).

#[export] Instance fits_dec t : Decision (fits t).
Proof. unfold fits. apply _. Defined.

(** The position behind the last value. *)
Definition vs_end sp : Z := vs_popped sp + Z.of_nat (length (vs_queue sp)).

(** Block boundaries between two positions. *)
Definition crossed (a b : Z) : Z := b / cap - a / cap.

Definition vspec_push (vs : list T) sp : option (vspec T) :=
  let W' := vs_end sp + Z.of_nat (length vs) in
  if decide (fits (W' / cap)) then
    Some (mkVSpec (vs_popped sp) (vs_queue sp ++ vs) (vs_cached sp - Z.to_nat (crossed (vs_end sp) W')))
  else None.

Definition vspec_pop (n : Z) sp : list T * vspec T :=
  let c := claim (vs_queue sp) n in
  (take (Z.to_nat c) (vs_queue sp),
   mkVSpec (vs_popped sp + c) (drop (Z.to_nat c) (vs_queue sp))
     (Z.to_nat (crossed (vs_popped sp) (vs_popped sp + c)) + vs_cached sp)).

(** [None]: the call is outside the bounds of the index words (a [push] past the
    last representable token) or of a buffer ([pop_batch] of more than
    [isize::MAX] slots). *)
Definition vspec_call (c : vcall T) sp : option (vspec T * vanswer T) :=
  match c with
  | VPush v => sp' ← vspec_push [v] sp; Some (sp', VUnit)
  | VPushBatch vs => sp' ← vspec_push vs sp; Some (sp', VUnit)
  | VPop => let '(l, sp') := vspec_pop 1 sp in Some (sp', VItem (head l))
  | VPopBatch n =>
      if (0 <=? n) && (n <=? isize_max) then let '(l, sp') := vspec_pop n sp in Some (sp', VItems l) else None
  | VFlush => Some (mkVSpec (vs_popped sp) (vs_queue sp) 0, VFreed (Z.of_nat (vs_cached sp)))
  end.

Fixpoint vspec_calls (cs : list (vcall T)) sp : option (vspec T * list (vanswer T)) :=
  match cs with
  | [] => Some (sp, [])
  | c :: cs => '(sp, a) ← vspec_call c sp; '(sp, l) ← vspec_calls cs sp; Some (sp, a :: l)
  end.

Definition vspec_new : vspec T := mkVSpec 0 [] 0.

End spec.

Section exec.
Context {T : Type} `{V8Geometry} `{Profile}.

Definition vexec_call (fuel : nat) (c : vcall T) : prog (v8E T) (vanswer T) :=
  match c with
  | VPush v => v8_push fuel v;; Ret VUnit
  | VPushBatch vs => v8_push_batch fuel vs;; Ret VUnit
  | VPop => v ← v8_pop fuel; Ret (VItem v)
  | VPopBatch n => vs ← v8_pop_batch fuel n; Ret (VItems vs)
  | VFlush => n ← flush_freelist fuel; Ret (VFreed n)
  end.

Fixpoint vexec_calls (fuel : nat) (cs : list (vcall T)) : prog (v8E T) (list (vanswer T)) :=
  match cs with
  | [] => Ret []
  | c :: cs => a ← vexec_call fuel c; l ← vexec_calls fuel cs; Ret (a :: l)
  end.

(** A queue is created, then used. *)
Definition vexec (fuel : nat) (cs : list (vcall T)) : prog (v8E T) (list (vanswer T)) :=
  v8_with_config;; vexec_calls fuel cs.

End exec.

(** Memory before the queue exists. *)
Definition vblank {T} : vmem T := mkVMem 0 0 0 0 0 ∅ ∅ [].

Section refinement.
Context {T : Type} `{V8Geometry} `{Allocator} `{Profile}.
Implicit Types (sp : vspec T) (s : vmem T) (xs cache : list Z).

Definition vwords_of sp f xs cache : vwords T :=
  mkW (default 0 (last xs)) (enc (vs_end sp / cap) (vs_end sp mod cap) 0)
    (hd_or 0 xs) (enc (vs_popped sp / cap) (vs_popped sp mod cap) f) (hd_or 0 cache) [].

Definition vheap_of sp xs cache : list (Z * Block8 T) :=
  blocks (body_of (vs_popped sp) (vs_queue sp)) (vs_popped sp / cap) 0 xs ++ frees 0 cache.

(** The memory [s] represents the abstract queue [sp]. *)
Record vrep sp f xs cache s : Prop := {
  vr_mem : s = vstate (vwords_of sp f xs cache) (vheap_of sp xs cache);
  vr_heap : vheap_ok (vheap_of sp xs cache);
  vr_popped : 0 ≤ vs_popped sp;
  vr_chain : vs_popped sp / cap + Z.of_nat (length xs) = vs_end sp / cap + 1;
  vr_hint : hint_ok f (vs_popped sp / cap) (vs_end sp / cap);
  vr_fits : fits (vs_end sp / cap);
  vr_cached : length cache = vs_cached sp;
  vr_total : Z.of_nat (length xs + length cache) ≤ vs_end sp / cap + 1
}.

Definition vrefines sp s : Prop := ∃ f xs cache, vrep sp f xs cache s.

Lemma div_cap_le a : 0 ≤ a → 0 ≤ a / cap ≤ a.
Proof.
  intros Ha. pose proof cap_pos. split; [apply Z.div_pos; lia|]. apply Z.div_le_upper_bound; [lia|].
  assert (1 * a ≤ cap * a) by (apply Z.mul_le_mono_nonneg_r; lia). lia.
Qed.

(** The chain is never empty: its last block is the producer's. *)
Lemma vrep_chain sp f xs cache s :
  vrep sp f xs cache s → ∃ pre b, xs = pre ++ [b] ∧ vs_popped sp / cap + Z.of_nat (length pre) = vs_end sp / cap.
Proof.
  intros [_ _ HR Hc _ _ _ _]. assert (vs_popped sp / cap ≤ vs_end sp / cap) as Hle.
  { pose proof cap_pos. apply Z.div_le_mono; unfold vs_end; lia. }
  destruct xs as [|x xs _] using rev_ind; [simpl in Hc; lia|]. exists xs, x. split; [done|].
  rewrite length_app in Hc. simpl in Hc. lia.
Qed.

Lemma wp_vpush sp sp' s vs fuel (Q : unit → vmem T → Prop) :
  vrefines sp s → vspec_push vs sp = Some sp' → (3 * Z.to_nat (vs_end sp') + 4 < fuel)%nat →
  (∀ s', vrefines sp' s' → Q tt s') → wp (write_from fuel vs) s Q.
Proof.
  intros (f & xs & cache & Hrep) Hsp Hf HQ. destruct (vrep_chain _ _ _ _ _ Hrep) as (pre & b & Hx & Hpre).
  destruct Hrep as [-> Hok HR Hc Hh Hfit Hca Htot]. unfold vspec_push in Hsp. case_decide as Hfit'; [|done].
  injection Hsp as <-. set (W := vs_end sp) in *. set (len := Z.of_nat (length vs)) in *.
  assert (vs_end (mkVSpec (vs_popped sp) (vs_queue sp ++ vs)
    (vs_cached sp - Z.to_nat (crossed W (W + len)))) = W + len) as EW.
  { unfold vs_end, W, len, vs_end. simpl. rewrite length_app. lia. }
  rewrite EW in Hf. assert (0 ≤ W) by (unfold W, vs_end; lia). pose proof (div_cap_le W ltac:(lia)).
  assert (0 ≤ len) by (unfold len; lia). assert (W / cap ≤ (W + len) / cap) as Hmono.
  { pose proof cap_pos. apply Z.div_le_mono; lia. }
  unfold vheap_of in *. rewrite Hx in *.
  apply (wp_write_from _ (vs_popped sp) (vs_queue sp) (vs_popped sp / cap) pre b cache vs fuel); try done.
  - unfold vwords_of. simpl. by rewrite last_snoc.
  - apply div_cap_le. lia.
  - lia.
  - lia.
  - intros ys Hys Hok'. fold (vs_end sp) in Hys, Hok' |- *. fold W len in Hys, Hok' |- *. apply HQ.
    exists f, (pre ++ b :: ys), (drop (length ys) cache). split; try done; rewrite ?EW; cbn [vs_popped vs_queue vs_cached].
    + unfold vheap_of, vwords_of. rewrite EW. cbn [vs_popped vs_queue]. f_equal. unfold w_set_producer. simpl.
      f_equal; [by rewrite last_app; destruct (last (b :: ys)) eqn:E; [|apply last_None in E]|].
      destruct pre; done.
    + rewrite length_app in *. cbn [length] in *. lia.
    + destruct Hh as [?|[? ?]]; [by left|right; lia].
    + done.
    + rewrite length_drop. unfold crossed. lia.
    + rewrite length_app in *. rewrite length_drop. cbn [length] in *. lia.
Qed.

Lemma wp_vpop sp s n fuel (Q : list T → vmem T → Prop) :
  vrefines sp s → 0 ≤ n ≤ isize_max → (3 * Z.to_nat (vs_end sp) + 4 < fuel)%nat →
  (∀ s', vrefines (vspec_pop n sp).2 s' → Q (vspec_pop n sp).1 s') → wp (read_into fuel n) s Q.
Proof.
  intros (f & xs & cache & Hrep) Hn Hf HQ. destruct (vrep_chain _ _ _ _ _ Hrep) as (pre & b & Hx & Hpre).
  destruct Hrep as [-> Hok HR Hc Hh Hfit Hca Htot].
  assert (∃ b' ys', xs = b' :: ys') as (b' & ys' & Ex) by (subst xs; destruct pre; simpl; eauto).
  set (c := claim (vs_queue sp) n) in *. assert (0 ≤ c ≤ Z.of_nat (length (vs_queue sp))) as Hcb by (unfold c, claim; lia).
  assert (vs_end (vspec_pop n sp).2 = vs_end sp) as EW.
  { unfold vspec_pop, vs_end. simpl. fold c. rewrite length_drop. lia. }
  assert (vs_popped sp / cap ≤ (vs_popped sp + c) / cap) as Hmono.
  { pose proof cap_pos. apply Z.div_le_mono; lia. }
  assert (0 ≤ vs_end sp) as HW0 by (unfold vs_end; lia). pose proof (div_cap_le (vs_end sp) HW0).
  pose proof (div_cap_le (vs_popped sp) HR).
  unfold vheap_of in *. subst xs. rewrite Ex in *.
  apply (wp_read_into _ (vs_popped sp) (vs_queue sp) (vs_popped sp / cap) f b' ys' cache n fuel); try done.
  - unfold vs_end in *. lia.
  - fold c. fold (vs_end sp). intros f' dn b'' ys'' Hx Hdn Hh' Hok'. apply HQ.
    assert (∀ sp', (vspec_pop n sp).2 = sp' → vs_popped sp' = vs_popped sp + c ∧
      vs_queue sp' = drop (Z.to_nat c) (vs_queue sp) ∧
      vs_cached sp' = (Z.to_nat (crossed (vs_popped sp) (vs_popped sp + c)) + vs_cached sp)%nat) as Hsp'
      by (by intros ? <-).
    remember (vspec_pop n sp).2 as sp' eqn:Esp. destruct (Hsp' sp' eq_refl) as (Ep & Eq & Ec).
    exists f', (b'' :: ys''), (rev dn ++ cache). split; unfold vheap_of, vwords_of; rewrite ?EW, ?Ep, ?Eq, ?Ec; try done.
    + f_equal. unfold w_set_consumer, w_set_free. simpl. f_equal. rewrite Hx.
      rewrite last_app. by destruct (last (b'' :: ys'')) eqn:E; [|apply last_None in E].
    + lia.
    + rewrite Hx, length_app in Hc. lia.
    + rewrite length_app, length_rev. unfold crossed. lia.
    + rewrite Hx, length_app in Htot. rewrite length_app, length_rev. lia.
Qed.

Lemma wp_vflush sp s fuel (Q : Z → vmem T → Prop) :
  vrefines sp s → (3 * Z.to_nat (vs_end sp) + 4 < fuel)%nat → vs_end sp ≤ usize_max - 1 →
  (∀ s', vrefines (mkVSpec (vs_popped sp) (vs_queue sp) 0) s' → Q (Z.of_nat (vs_cached sp)) s') →
  wp (flush_freelist fuel) s Q.
Proof.
  intros (f & xs & cache & [-> Hok HR Hc Hh Hfit Hca Htot]) Hf Hmax HQ. unfold flush_freelist, vheap_of in *.
  assert (0 ≤ vs_end sp) as HW0 by (unfold vs_end; lia). pose proof (div_cap_le (vs_end sp) HW0).
  pose proof (Permutation_app_comm (blocks (body_of (vs_popped sp) (vs_queue sp)) (vs_popped sp / cap) 0 xs) (frees 0 cache)) as Hp.
  rewrite (mem_perm _ _ _ Hok Hp). pose proof (heap_ok_perm _ _ Hp Hok) as Hok1.
  apply (wp_fl_flush _ _ cache); [done|done|lia|lia|]. rewrite Hca. intros Hok2. apply HQ.
  exists f, xs, []. split; try done.
  - unfold vheap_of. cbn [vs_popped vs_queue frees]. by rewrite app_nil_r.
  - unfold vheap_of. cbn [vs_popped vs_queue frees]. by rewrite app_nil_r.
  - change (vs_end (mkVSpec (vs_popped sp) (vs_queue sp) 0)) with (vs_end sp). cbn [length]. lia.
Qed.

Lemma vrefines_end sp s : vrefines sp s → 0 ≤ vs_end sp ≤ usize_max - 1.
Proof.
  intros (f & xs & cache & [_ _ HR _ _ Hfit _ _]). assert (0 ≤ vs_end sp) as HW0 by (unfold vs_end; lia).
  split; [done|]. pose proof cap_pos as Hcap. pose proof (Z.mod_pos_bound (vs_end sp) cap Hcap).
  pose proof (Z.div_mod (vs_end sp) cap cap_ne). destruct geom_facts as (Hns & Hnv & _).
  unfold fits, raw, usize_max in *.
  assert (cap * (vs_end sp / cap + 1) ≤ (nv + 1) * ns * (vs_end sp / cap + 1)).
  { apply Z.mul_le_mono_nonneg_r; [pose proof (div_cap_le _ HW0); lia|unfold cap; lia]. }
  lia.
Qed.

Lemma vspec_call_end c sp sp' a :
  vspec_call c sp = Some (sp', a) → 0 ≤ vs_popped sp →
  vs_end sp' = vs_end sp + Z.of_nat (length (vpushed c)) ∧ 0 ≤ vs_popped sp'.
Proof.
  destruct c; simpl; unfold vspec_push; intros Hc HR.
  - case_decide; [|done]. injection Hc as <- <-. unfold vs_end. simpl. rewrite length_app. simpl. lia.
  - case_decide; [|done]. injection Hc as <- <-. unfold vs_end. simpl. rewrite length_app. lia.
  - injection Hc as <- <-. unfold vs_end, claim. simpl. rewrite length_drop. lia.
  - destruct (Z.leb_spec 0 n); [|done]. destruct (_ <=? _); [|done]. injection Hc as <- <-. unfold vs_end, claim. simpl.
    rewrite length_drop. lia.
  - injection Hc as <- <-. unfold vs_end. simpl. lia.
Qed.

Lemma wp_vexec_call c sp sp' a s fuel :
  vrefines sp s → vspec_call c sp = Some (sp', a) → (3 * Z.to_nat (vs_end sp') + 4 < fuel)%nat →
  wp (vexec_call fuel c) s (λ a' s', a' = a ∧ vrefines sp' s').
Proof.
  intros Hs Hc Hf. assert (0 ≤ vs_popped sp) as HR by (by destruct Hs as (? & ? & ? & [])).
  destruct (vspec_call_end _ _ _ _ Hc HR) as [EW _]. pose proof (vrefines_end _ _ Hs) as Hend.
  destruct c; cbn [vspec_call vexec_call vpushed length] in Hc, EW |- *; unfold v8_push, v8_push_batch, v8_pop, v8_pop_batch.
  - destruct (vspec_push [v] sp) as [sp1|] eqn:E; [|done]. injection Hc as <- <-. apply wp_bind.
    eapply (wp_vpush sp); [done|done|done|]. intros s' Hs'. by apply wp_ret.
  - destruct (vspec_push vs sp) as [sp1|] eqn:E; [|done]. injection Hc as <- <-. apply wp_bind.
    eapply (wp_vpush sp); [done|done|done|]. intros s' Hs'. by apply wp_ret.
  - injection Hc as <- <-. apply wp_bind, wp_bind. apply (wp_vpop sp); [done|unfold isize_max; lia|lia|].
    intros s' Hs'. by apply wp_ret, wp_ret.
  - destruct (Z.leb_spec 0 n) as [Hn|]; [|done]. destruct (Z.leb_spec n isize_max) as [Hn'|]; [|done].
    injection Hc as <- <-. apply wp_bind. apply (wp_vpop sp); [done|lia|lia|].
    intros s' Hs'. by apply wp_ret.
  - injection Hc as <- <-. apply wp_bind. apply (wp_vflush sp); [done|lia|lia|].
    intros s' Hs'. by apply wp_ret.
Qed.

Lemma wp_vexec_calls cs sp sp' l s fuel :
  vrefines sp s → vspec_calls cs sp = Some (sp', l) →
  (3 * (Z.to_nat (vs_end sp) + vcalls_cost cs) + 4 < fuel)%nat →
  wp (vexec_calls fuel cs) s (λ l' s', l' = l ∧ vrefines sp' s').
Proof.
  revert sp l s. induction cs as [|c cs IH]; intros sp l s Hs Hc Hf; simpl in Hc.
  { injection Hc as <- <-. by apply wp_ret. }
  destruct (vspec_call c sp) as [[sp1 a]|] eqn:E1; [|done]. simpl in Hc.
  destruct (vspec_calls cs sp1) as [[sp2 l2]|] eqn:E2; [|done]. simpl in Hc. injection Hc as <- <-.
  assert (vcalls_cost (c :: cs) = length (vpushed c) + vcalls_cost cs)%nat as Ecost by done.
  assert (0 ≤ vs_popped sp) as HR by (by destruct Hs as (? & ? & ? & [])).
  destruct (vspec_call_end _ _ _ _ E1 HR) as [EW _]. pose proof (vrefines_end _ _ Hs).
  cbn [vexec_calls]. apply wp_bind. eapply wp_mono; [apply (wp_vexec_call c sp sp1 a s fuel Hs E1); lia|].
  intros ? s1 [-> Hs1]. apply wp_bind. eapply wp_mono; [apply (IH sp1 l2 s1 Hs1 E2); lia|].
  intros ? s2 [-> Hs2]. by apply wp_ret.
Qed.

Lemma wp_v8_new (Q : unit → vmem T → Prop) :
  fits 0 → (∀ s, vrefines vspec_new s → Q tt s) → wp v8_with_config vblank Q.
Proof.
  intros Hfit HQ. pose proof cap_pos as Hcap. unfold v8_with_config.
  change vblank with (vstate (mkW 0 0 0 0 0 ([] : list T)) []). apply wp_bind.
  apply wp_OwnedBlock_new; [split; [apply NoDup_nil_2|intros b Hb; by apply elem_of_nil in Hb]|]. intros b Hok.
  do 4 (eapply wp_act_bind; [apply handle_vstore; unfold vwr; reflexivity|]).
  eapply wp_act; [apply handle_vstore; unfold vwr; reflexivity|]. apply HQ.
  assert (vheap_of vspec_new [b] [] = [(b, fresh 0)]) as Eh.
  { unfold vheap_of. cbn [vspec_new vs_popped vs_queue blocks frees hd_or app]. rewrite Z.div_0_l by lia.
    rewrite body_of_fresh by (simpl; lia). done. }
  exists 0, [b], []. split; unfold vs_end; cbn [vspec_new vs_popped vs_queue length]; rewrite ?Z.add_0_r, ?Z.div_0_l by lia;
    try done; try (simpl; lia); [|by rewrite Eh|by left].
  rewrite Eh. unfold vwords_of, vs_end. cbn [vspec_new vs_popped vs_queue length].
  change (Z.of_nat 0) with 0. rewrite Z.add_0_r, Z.div_0_l, Z.mod_0_l by lia. unfold enc, raw. rewrite Z.mul_0_r. done.
Qed.

(** The destructor: the chain from the consumer's block on, then the cache. *)
Lemma wp_V8_drop sp s fuel :
  vrefines sp s → (3 * Z.to_nat (vs_end sp) + 4 < fuel)%nat →
  wp (V8_drop fuel) s (λ _ s', vheap s' = ∅ ∧ vallocs s' = ∅ ∧ vdropped s' = vs_queue sp).
Proof.
  intros Hs Hf. pose proof (vrefines_end _ _ Hs) as Hend.
  destruct Hs as (f & xs & cache & [-> Hok HR Hc Hh Hfit Hca Htot]). unfold V8_drop.
  assert (0 ≤ vs_end sp) as HW0 by (unfold vs_end; lia). pose proof (div_cap_le (vs_end sp) HW0).
  pose proof cap_pos as Hcap. pose proof (Z.div_mod (vs_end sp) cap cap_ne). pose proof (Z.mod_pos_bound (vs_end sp) cap Hcap).
  pose proof (Z.div_mod (vs_popped sp) cap cap_ne). pose proof (Z.mod_pos_bound (vs_popped sp) cap Hcap).
  eapply wp_act_bind; [apply handle_vload; unfold vrd; reflexivity|].
  do 2 (eapply wp_act_bind; [apply handle_vstore; unfold vwr; reflexivity|]).
  change (consumer_block (vstate _ _)) with (hd_or 0 xs).
  set (w := mkW 0 (enc (vs_end sp / cap) (vs_end sp mod cap) 0) 0
    (enc (vs_popped sp / cap) (vs_popped sp mod cap) f) (hd_or 0 cache) ([] : list T)).
  change (set_producer_block 0 _) with (vstate w (vheap_of sp xs cache)). unfold vheap_of in *.
  apply wp_bind, wp_from_raw; [done|lia|lia|]. intros L HL. apply wp_bind.
  eapply (wp_drain_list w (frees 0 cache) L _ _ xs (unread_of (vs_popped sp) (vs_queue sp)));
    [done|done|lia|intros; apply body_of_unread|]. intros Hok1.
  rewrite concat_unread, seg_all by (rewrite ?Hc; unfold vs_end in *; lia).
  rewrite <- (app_nil_r (frees 0 cache)) in Hok1 |- *.
  apply (wp_FreeList_drop _ [] cache); [done|done|lia|lia|]. intros _. done.
Qed.

(** ** Theorems *)

(** C8: any sequence of [push], [push_batch], [pop], [pop_batch] and
    [flush_freelist] that the abstract FIFO queue answers, on a fresh v8 queue, runs to
    completion (no panic, no invalid access, no endless retry), returns the
    abstract answers, and holds exactly the blocks it accounts
    for: those from the consumer's block to the producer's, and the cached ones.
    The geometry is any accepted one with [(vblocks + 1) * slots <= 2^63], so that the
    index words of the first block fit; the abstract queue answers every call but a
    push past the last token an index word can hold and a [pop_batch] of more than
    [isize::MAX] slots, which only buffers of zero-sized types have: for those see
    [v8_pop_batch_zst_overflow]. *)
Theorem v8_refines_spec cs sp l fuel :
  fits 0 → vspec_calls cs vspec_new = Some (sp, l) → (3 * vcalls_cost cs + 4 < fuel)%nat →
  wp (vexec fuel cs) vblank (λ l' s, l' = l ∧ vdropped s = [] ∧
    Z.of_nat (size (vallocs s)) = crossed (vs_popped sp) (vs_end sp) + 1 + Z.of_nat (vs_cached sp)).
Proof.
  intros Hfit Hsp Hf. unfold vexec. apply wp_bind, wp_v8_new; [done|]. intros s0 Hs0.
  eapply wp_mono; [apply (wp_vexec_calls cs vspec_new sp l s0 fuel Hs0 Hsp)|].
  - change (Z.to_nat (vs_end vspec_new)) with 0%nat. lia.
  - intros ? s (-> & f & xs & cache & [-> Hok HR Hc Hh _ Hca _]). split; [done|]. split; [done|].
    cbn [vstate vallocs]. rewrite map_size_fmap, map_size_list_to_map by apply Hok. unfold vheap_of.
    rewrite length_app, blocks_length, (frees_blocks 0), blocks_length. unfold crossed. lia.
Qed.

(** The values of the abstract queue come and go in order. *)
Lemma vspec_calls_fifo cs sp sp' l :
  vspec_calls cs sp = Some (sp', l) →
  concat (vreturned <$> l) ++ vs_queue sp' = vs_queue sp ++ concat (vpushed <$> cs).
Proof.
  revert sp l. induction cs as [|c cs IH]; intros sp l Hc; simpl in Hc.
  { injection Hc as <- <-. by rewrite app_nil_r. }
  destruct (vspec_call c sp) as [[sp1 a]|] eqn:E1; [|done]. simpl in Hc.
  destruct (vspec_calls cs sp1) as [[sp2 l2]|] eqn:E2; [|done]. simpl in Hc. injection Hc as <- <-.
  rewrite !fmap_cons. cbn [concat]. rewrite <- app_assoc, (IH sp1 l2 E2), !app_assoc. f_equal.
  destruct c; simpl in E1; unfold vspec_push in E1.
  - case_decide; [|done]. by injection E1 as <- <-.
  - case_decide; [|done]. by injection E1 as <- <-.
  - injection E1 as <- <-. rewrite app_nil_r. simpl.
    assert (claim (vs_queue sp) 1 = Z.of_nat (Nat.min 1 (length (vs_queue sp)))) as -> by (unfold claim; lia).
    rewrite Nat2Z.id. by destruct (vs_queue sp) as [|v q].
  - destruct (0 <=? n); [|done]. destruct (n <=? isize_max); [|done]. injection E1 as <- <-.
    rewrite app_nil_r. apply take_drop.
  - injection E1 as <- <-. by rewrite app_nil_r.
Qed.

(** C9: nothing is lost, duplicated or reordered, and nothing leaks: for any
    calls the abstract queue answers (see C9) followed by a drop of the queue, the values the calls returned followed
    by the values the drop destroyed are the values pushed, in order, and no
    block stays allocated. *)
Theorem v8_drop_exact cs sp l fuel :
  fits 0 → vspec_calls cs vspec_new = Some (sp, l) → (3 * vcalls_cost cs + 4 < fuel)%nat →
  wp (answers ← vexec fuel cs; V8_drop fuel;; Ret answers) vblank (λ answers s,
    concat (vreturned <$> answers) ++ vdropped s = concat (vpushed <$> cs) ∧
    vheap s = ∅ ∧ vallocs s = ∅).
Proof.
  intros Hfit Hsp Hf. apply wp_bind. unfold vexec. apply wp_bind, wp_v8_new; [done|]. intros s0 Hs0.
  eapply wp_mono; [apply (wp_vexec_calls cs vspec_new sp l s0 fuel Hs0 Hsp)|].
  { change (Z.to_nat (vs_end vspec_new)) with 0%nat. lia. }
  intros ? s [-> Hs]. apply wp_bind.
  assert (vs_end sp = Z.of_nat (vcalls_cost cs)) as Eend.
  { clear -Hsp. enough (∀ sp0 l, 0 ≤ vs_popped sp0 → vspec_calls cs sp0 = Some (sp, l) →
      vs_end sp = vs_end sp0 + Z.of_nat (vcalls_cost cs)) as Hx by (by apply (Hx vspec_new l)).
    clear. induction cs as [|c cs IH]; intros sp0 l HR Hc; simpl in Hc.
    - injection Hc as <- <-. unfold vcalls_cost. simpl. lia.
    - destruct (vspec_call c sp0) as [[sp1 a]|] eqn:E1; [|done]. simpl in Hc.
      destruct (vspec_calls cs sp1) as [[sp2 l2]|] eqn:E2; [|done]. simpl in Hc. injection Hc as <- <-.
      destruct (vspec_call_end _ _ _ _ E1 HR) as [EW HR1]. rewrite (IH sp1 l2 HR1 E2), EW.
      unfold vcalls_cost. rewrite fmap_cons. simpl. lia. }
  eapply wp_mono; [apply (wp_V8_drop sp); [done|lia]|].
  intros ? s' (Hh & Ha & Hd). apply wp_ret. split; [|done]. rewrite Hd. exact (vspec_calls_fifo cs vspec_new sp l Hsp).
Qed.

End refinement.

(** ** Concrete runs *)

(** Blocks of three virtual blocks of two slots, for [u64] elements. *)
#[export] Program Instance tiny_v8 : V8Geometry := {|
  geom := mkGeometry (mkConfig 2 3) 6 (mkLayout 1280 128) 128 384 256;
  v8_header := mkLayout 80 8;
  v8_vheader := mkLayout 256 128;
  v8_slot := mkLayout 8 8
|}.
Next Obligation. vm_compute; repeat split; discriminate. Qed.
Next Obligation. vm_compute; discriminate. Qed.
Next Obligation. vm_compute; repeat split; discriminate. Qed.
Next Obligation. reflexivity. Qed.

Definition vsample_calls : list (vcall Z) :=
  [VPushBatch [1; 2; 3; 4; 5; 6; 7; 8; 9; 10; 11; 12; 13; 14]; VPopBatch 5; VPush 15; VPop; VPopBatch 8;
   VPushBatch [16; 17; 18; 19; 20]; VFlush; VPopBatch 100; VPop; VPush 21].

Definition vsample_answers : list (vanswer Z) :=
  [VUnit; VItems [1; 2; 3; 4; 5]; VUnit; VItem (Some 6); VItems [7; 8; 9; 10; 11; 12; 13; 14]; VUnit; VFreed 1;
   VItems [15; 16; 17; 18; 19; 20]; VItem None; VUnit].

Definition vsample_spec : vspec Z := mkVSpec 20 [21] 1.

Lemma v8_refines_spec_witness :
  wp (vexec (H0 := debug_build) 80 vsample_calls) vblank (λ l' s, l' = vsample_answers ∧ vdropped s = [] ∧
    Z.of_nat (size (vallocs s)) =
      crossed (vs_popped vsample_spec) (vs_end vsample_spec) + 1 + Z.of_nat (vs_cached vsample_spec)).
Proof.
  apply (v8_refines_spec vsample_calls vsample_spec vsample_answers 80);
    [vm_compute; discriminate|vm_compute; reflexivity|vm_compute; lia].
Defined.

Lemma v8_drop_exact_witness :
  wp (answers ← vexec (H0 := release_build) 80 vsample_calls; V8_drop (H0 := release_build) 80;; Ret answers) vblank
    (λ answers s, concat (vreturned <$> answers) ++ vdropped s = concat (vpushed <$> vsample_calls) ∧
      vheap s = ∅ ∧ vallocs s = ∅).
Proof.
  apply (v8_drop_exact vsample_calls vsample_spec vsample_answers 80);
    [vm_compute; discriminate|vm_compute; reflexivity|vm_compute; lia].
Defined.

Lemma v8_index_roundtrip_witness :
  ∃ word, encode_index (H0 := debug_build) (T:=Z) 5 6 1 = Ret word ∧ is_usize word ∧
    decode_index (Z.shiftr word 1) = (5, 6 / ns, 6 mod ns) ∧ Z.land word 1 = 1 ∧
    6 / ns * ns + 6 mod ns = 6 ∧ (6 / ns = nv ↔ 6 = cap).
Proof.
  apply (v8_index_roundtrip (H0 := debug_build) (T:=Z) 5 6 1);
    [vm_compute; discriminate|lia|vm_compute; split; discriminate|by right].
Defined.
