(* ===== verification/V8Equiv.v ===== *)
(** * Batches of the v8 queue are sequences of single calls

    [push_batch] reserves and fills many slots with one index update, [pop_batch]
    claims a whole range at once.  A client that replaces every batch by single
    calls observes the same values in the same order and leaves the same number of
    blocks in the chain and in the cache. *)

From S2P Require Import Prelude Prog Layout Geometry Instances V8Block V8Layout V8Heap V8Queue V8FreeSpec V8Live V8PushSpec V8PopSpec V8ReadSpec V8Spec.

(** One call by single calls. *)
Definition unbatch_call {T} (c : vcall T) : list (vcall T) :=
  match c with
  | VPushBatch vs => VPush <$> vs
  | VPopBatch n => replicate (Z.to_nat n) VPop
  | c => [c]
  end.

Definition unbatch {T} (cs : list (vcall T)) : list (vcall T) := cs ≫= unbatch_call.

(** What a client sees of a list of answers. *)
Definition observed {T} (l : list (vanswer T)) : list T := concat (vreturned <$> l).

Section unbatch.
Context {T : Type} `{V8Geometry}.
Implicit Types (sp : vspec T) (cs : list (vcall T)).

Lemma vspec_calls_app cs1 cs2 sp sp1 l1 :
  vspec_calls cs1 sp = Some (sp1, l1) →
  vspec_calls (cs1 ++ cs2) sp = ('(sp2, l2) ← vspec_calls cs2 sp1; Some (sp2, l1 ++ l2)).
Proof.
  revert sp l1. induction cs1 as [|c cs1 IH]; intros sp l1 Hc; simpl in *.
  { injection Hc as <- <-. by destruct (vspec_calls cs2 sp) as [[??]|]. }
  destruct (vspec_call c sp) as [[sp' a]|]; [|done]. simpl in *.
  destruct (vspec_calls cs1 sp') as [[sp'' l]|] eqn:E; [|done]. simpl in Hc. injection Hc as <- <-.
  rewrite (IH sp' l E). by destruct (vspec_calls cs2 sp'') as [[??]|].
Qed.

Lemma fits_mono a b : a ≤ b → fits b → fits a.
Proof.
  unfold fits, raw. intros Hab Hb. destruct geom_facts as (Hns & Hnv & _).
  assert ((nv + 1) * ns * (a + 1) ≤ (nv + 1) * ns * (b + 1)); [|lia].
  apply Z.mul_le_mono_nonneg_l; [|lia]. apply Z.mul_nonneg_nonneg; lia.
Qed.

Lemma crossed_nonneg a b : a ≤ b → 0 ≤ crossed a b.
Proof. intros Hab. unfold crossed. pose proof (Z.div_le_mono a b cap cap_pos Hab). lia. Qed.

Lemma crossed_split a b c : crossed a c = crossed a b + crossed b c.
Proof. unfold crossed. lia. Qed.

(** A batch of pushes is its pushes in turn: the same values, and the same blocks
    taken from the cache. *)
Lemma vspec_push_cons v vs sp sp' :
  vspec_push (v :: vs) sp = Some sp' → ∃ sp1, vspec_push [v] sp = Some sp1 ∧ vspec_push vs sp1 = Some sp'.
Proof.
  unfold vspec_push. case_decide as Hf; [|done]. intros [= <-].
  assert (∀ c, vs_end (mkVSpec (vs_popped sp) (vs_queue sp ++ [v]) c) = vs_end sp + 1) as E1.
  { intros c. unfold vs_end. cbn [vs_popped vs_queue]. rewrite length_app. cbn [length]. lia. }
  set (a := vs_end sp) in *. cbn [length] in *. change (Z.of_nat 1) with 1.
  replace (a + Z.of_nat (S (length vs))) with (a + 1 + Z.of_nat (length vs)) in * by lia.
  rewrite decide_True.
  2: { eapply fits_mono; [|exact Hf]. apply Z.div_le_mono; [apply cap_pos|lia]. }
  eexists. split; [done|]. rewrite E1, decide_True by done. cbn [vs_popped vs_queue vs_cached].
  f_equal. rewrite <- app_assoc. f_equal. rewrite (crossed_split a (a + 1) (a + 1 + Z.of_nat (length vs))).
  assert (0 ≤ crossed a (a + 1)) by (apply crossed_nonneg; lia).
  assert (0 ≤ crossed (a + 1) (a + 1 + Z.of_nat (length vs))) by (apply crossed_nonneg; lia). lia.
Qed.

Lemma vspec_push_nil sp sp' : vspec_push [] sp = Some sp' → sp' = sp.
Proof.
  unfold vspec_push. case_decide; [|done]. intros [= <-]. cbn [length]. change (Z.of_nat 0) with 0.
  rewrite Z.add_0_r. unfold crossed. rewrite Z.sub_diag, app_nil_r, Nat.sub_0_r. by destruct sp.
Qed.

Lemma unbatch_push vs sp sp' :
  vspec_push vs sp = Some sp' → ∃ l, vspec_calls (VPush <$> vs) sp = Some (sp', l) ∧ observed l = [].
Proof.
  revert sp. induction vs as [|v vs IH]; intros sp Hp.
  { rewrite (vspec_push_nil _ _ Hp). by exists []. }
  apply vspec_push_cons in Hp as (sp1 & H1 & H2). destruct (IH sp1 H2) as (l & Hl & Ho).
  exists (VUnit :: l). split; [|done]. rewrite fmap_cons. cbn [vspec_calls vspec_call]. rewrite H1. simpl. by rewrite Hl.
Qed.

(** A batch of pops claims what its single pops would. *)
Lemma vspec_pop_S n sp :
  0 ≤ vs_popped sp →
  vspec_pop (Z.of_nat (S n)) sp =
    (let '(l1, sp1) := vspec_pop 1 sp in let '(l2, sp2) := vspec_pop (Z.of_nat n) sp1 in (l1 ++ l2, sp2)).
Proof.
  intros HR. destruct sp as [R [|v q] c]; unfold vspec_pop, claim; cbn [vs_popped vs_queue vs_cached length].
  - change (Z.of_nat 0) with 0.
    rewrite (Z.min_r (Z.of_nat (S n)) 0), (Z.min_r 1 0), (Z.min_r (Z.of_nat n)) by (rewrite ?drop_nil; simpl; lia).
    unfold crossed. cbn [Z.to_nat take drop app length]. by rewrite !Z.add_0_r, !Z.sub_diag.
  - rewrite (Z.min_l 1) by lia. change (Z.to_nat 1) with 1%nat. cbn [take drop app length].
    set (m := Z.min (Z.of_nat n) (Z.of_nat (length q))).
    replace (Z.min (Z.of_nat (S n)) (Z.of_nat (S (length q)))) with (1 + m) by lia.
    replace (Z.to_nat (1 + m)) with (S (Z.to_nat m)) by lia. cbn [take drop]. f_equal.
    assert (0 ≤ crossed R (R + 1)) by (apply crossed_nonneg; lia). assert (0 ≤ crossed (R + 1) (R + 1 + m)) by (apply crossed_nonneg; lia).
    change (drop 0 q) with q. fold m. f_equal; [lia|]. rewrite Z.add_assoc, (crossed_split R (R + 1) (R + 1 + m)). lia.
Qed.

Lemma unbatch_pop n sp l sp' :
  0 ≤ vs_popped sp → vspec_pop (Z.of_nat n) sp = (l, sp') →
  ∃ a, vspec_calls (replicate n VPop) sp = Some (sp', a) ∧ observed a = l.
Proof.
  revert sp l. induction n as [|n IH]; intros sp l HR Hp.
  { unfold vspec_pop, claim in Hp. change (Z.of_nat 0) with 0 in Hp. rewrite Z.min_l in Hp by lia.
    cbn [Z.to_nat take drop] in Hp. rewrite Z.add_0_r in Hp. unfold crossed in Hp. rewrite Z.sub_diag in Hp.
    injection Hp as <- <-. exists []. by destruct sp. }
  rewrite vspec_pop_S in Hp by done. cbn [replicate vspec_calls vspec_call].
  destruct (vspec_pop 1 sp) as [l1 sp1] eqn:E1. destruct (vspec_pop (Z.of_nat n) sp1) as [l2 sp2] eqn:E2.
  injection Hp as <- <-.
  assert (0 ≤ vs_popped sp1) as HR1 by (injection E1 as _ <-; unfold claim; simpl; lia).
  destruct (IH sp1 l2 HR1 E2) as (a & Ha & Ho). exists (VItem (head l1) :: a). simpl. rewrite Ha. split; [done|].
  unfold observed in *. rewrite fmap_cons. cbn [concat]. rewrite Ho. f_equal.
  injection E1 as <- _. unfold claim. destruct (vs_queue sp) as [|v q]; [done|].
  rewrite Z.min_l by (cbn [length]; lia). done.
Qed.

Lemma vspec_unbatch_call c sp sp' a :
  0 ≤ vs_popped sp → vspec_call c sp = Some (sp', a) →
  ∃ l, vspec_calls (unbatch_call c) sp = Some (sp', l) ∧ observed l = vreturned a.
Proof.
  intros HR Hc. destruct c as [v|vs| |n|]; cbn [unbatch_call].
  - exists [a]. cbn [vspec_calls]. rewrite Hc. split; [done|]. apply app_nil_r.
  - cbn [vspec_call] in Hc. destruct (vspec_push vs sp) as [sp1|] eqn:E; [|done]. injection Hc as <- <-.
    by apply unbatch_push.
  - exists [a]. cbn [vspec_calls]. rewrite Hc. split; [done|]. apply app_nil_r.
  - cbn [vspec_call] in Hc. destruct (Z.leb_spec 0 n) as [Hn|]; [|done]. destruct (n <=? isize_max); [|done].
    cbn [andb] in Hc. destruct (vspec_pop n sp) as [l sp1] eqn:E. injection Hc as <- <-.
    rewrite <- (Z2Nat.id n Hn) in E. by apply unbatch_pop.
  - exists [a]. cbn [vspec_calls]. rewrite Hc. split; [done|]. apply app_nil_r.
Qed.

Lemma vspec_unbatch cs sp sp' l :
  0 ≤ vs_popped sp → vspec_calls cs sp = Some (sp', l) →
  ∃ l', vspec_calls (unbatch cs) sp = Some (sp', l') ∧ observed l' = observed l.
Proof.
  revert sp l. induction cs as [|c cs IH]; intros sp l HR Hc; cbn [vspec_calls] in Hc.
  { injection Hc as <- <-. by exists []. }
  destruct (vspec_call c sp) as [[sp1 a]|] eqn:E1; [|done]. simpl in Hc.
  destruct (vspec_calls cs sp1) as [[sp2 l2]|] eqn:E2; [|done]. simpl in Hc. injection Hc as <- <-.
  destruct (vspec_unbatch_call c sp sp1 a HR E1) as (l1 & H1 & O1).
  destruct (vspec_call_end _ _ _ _ E1 HR) as [_ HR1]. destruct (IH sp1 l2 HR1 E2) as (l3 & H3 & O3).
  exists (l1 ++ l3). unfold unbatch. rewrite bind_cons.
  rewrite (vspec_calls_app _ _ _ _ _ H1). unfold unbatch in H3. rewrite H3. split; [done|].
  unfold observed in *. rewrite fmap_app, concat_app, O1, O3. by rewrite fmap_cons.
Qed.

Lemma vcalls_cost_unbatch cs : vcalls_cost (unbatch cs) = vcalls_cost cs.
Proof.
  assert (∀ xs ys : list (vcall T), vcalls_cost (xs ++ ys) = vcalls_cost xs + vcalls_cost ys)%nat as Happ.
  { intros xs ys. unfold vcalls_cost. rewrite fmap_app. induction ((λ c, length (vpushed c)) <$> xs); simpl; lia. }
  unfold unbatch. induction cs as [|c cs IH]; [done|]. rewrite bind_cons, Happ, IH.
  assert (vcalls_cost (c :: cs) = length (vpushed c) + vcalls_cost cs)%nat as -> by done. f_equal.
  destruct c as [v|vs| |n|]; [done| |done| |done]; cbn [unbatch_call vpushed].
  - induction vs as [|v vs IHv]; [done|]. rewrite fmap_cons. unfold vcalls_cost in *. rewrite fmap_cons. simpl in *. lia.
  - induction (Z.to_nat n) as [|m IHm]; [done|]. unfold vcalls_cost in *. cbn [replicate]. rewrite fmap_cons. simpl in *. lia.
Qed.

End unbatch.

Section equivalence.
Context {T : Type} `{V8Geometry} `{Allocator} `{Profile}.

(** Runs from a fresh queue end in a memory that represents the abstract state. *)
Lemma wp_vexec_spec (cs : list (vcall T)) sp l fuel :
  fits 0 → vspec_calls cs vspec_new = Some (sp, l) → (3 * vcalls_cost cs + 4 < fuel)%nat →
  wp (vexec fuel cs) vblank (λ l' s, l' = l ∧ vrefines sp s).
Proof.
  intros Hfit Hsp Hf. unfold vexec. apply wp_bind, wp_v8_new; [done|]. intros s0 Hs0.
  apply (wp_vexec_calls cs vspec_new sp l s0 fuel Hs0 Hsp).
  change (Z.to_nat (vs_end vspec_new)) with 0%nat. lia.
Qed.

Lemma vrefines_allocs (sp : vspec T) s :
  vrefines sp s → Z.of_nat (size (vallocs s)) = crossed (vs_popped sp) (vs_end sp) + 1 + Z.of_nat (vs_cached sp).
Proof.
  intros (f & xs & cache & [-> Hok HR Hc Hh _ Hca _]).
  cbn [vstate vallocs]. rewrite map_size_fmap, map_size_list_to_map by apply Hok. unfold vheap_of.
  rewrite length_app, blocks_length, (frees_blocks 0), blocks_length. unfold crossed. lia.
Qed.

(** C12: for any calls the abstract queue answers (whose [pop_batch] buffers have at most
    [isize::MAX] slots, as all buffers of types that are not zero-sized have, and which
    do not exhaust the block tokens), on any accepted geometry whose first blocks have
    indices that fit a word, replacing every [push_batch] by the pushes of its values
    and every [pop_batch] of [n] slots by [n] single pops changes nothing a client can
    observe: both programs run to completion and return the same values in the same
    order, and leave the same number of blocks allocated.  For longer buffers see
    [v8_pop_batch_zst_overflow]. *)
Theorem v8_batch_equivalence (cs : list (vcall T)) sp l fuel :
  fits 0 → vspec_calls cs vspec_new = Some (sp, l) → (3 * vcalls_cost cs + 4 < fuel)%nat →
  wp (vexec fuel cs) vblank (λ a s,
    wp (vexec fuel (unbatch cs)) vblank (λ a' s',
      observed a = observed a' ∧ size (vallocs s) = size (vallocs s'))).
Proof.
  intros Hfit Hsp Hf. destruct (vspec_unbatch cs vspec_new sp l ltac:(done) Hsp) as (l' & Hsp' & Hobs).
  eapply wp_mono; [by apply wp_vexec_spec|]. intros ? s [-> Hs].
  eapply wp_mono; [apply (wp_vexec_spec _ _ _ fuel Hfit Hsp'); by rewrite vcalls_cost_unbatch|].
  intros ? s' [-> Hs']. split; [done|]. apply vrefines_allocs in Hs, Hs'. lia.
Qed.

End equivalence.

Lemma v8_batch_equivalence_witness :
  wp (vexec (H0 := debug_build) 80 vsample_calls) vblank (λ a s,
    wp (vexec (H0 := debug_build) 80 (unbatch vsample_calls)) vblank (λ a' s',
      observed a = observed a' ∧ size (vallocs s) = size (vallocs s'))).
Proof.
  apply (v8_batch_equivalence vsample_calls vsample_spec vsample_answers 80);
    [vm_compute; discriminate|vm_compute; reflexivity|vm_compute; lia].
Defined.

(** ** Where the v8 queue leaves its contract

    [pop_batch] adds the length of the caller's buffer to an offset.  A buffer of
    a zero-sized type may be as long as [usize::MAX], and
    [empty_vec_to_box_uninit] makes such a buffer of any empty [Vec] of it: the
    addition then overflows. *)

(** A [Vec<U>]: its elements and its capacity. *)
Record Vec (U : Type) := mkVec { vec_items : list U; vec_capacity : Z }.
Arguments mkVec {U} _ _.
Arguments vec_items {U} _.
Arguments vec_capacity {U} _.

(** [Vec::new]: the capacity of a vector of a zero-sized type is [usize::MAX]. *)
Definition Vec_new {U} (elem : Layout) : Vec U := mkVec [] (if lsize elem =? 0 then usize_max else 0).

(** The length of the boxed slice, or the vector back. *)
Definition empty_vec_to_box_uninit {U} (buf : Vec U) : Z + Vec U :=
  match vec_items buf with
  | [] => inl (vec_capacity buf)
  | _ => inr buf
  end.

(** Zero-sized elements: three virtual blocks of two slots. *)
Program Definition zst_v8 : V8Geometry := {|
  geom := mkGeometry (mkConfig 2 3) 6 (mkLayout 896 128) 128 256 256;
  v8_header := mkLayout 80 8;
  v8_vheader := mkLayout 256 128;
  v8_slot := mkLayout 0 1
|}.
Next Obligation. vm_compute; repeat split; discriminate. Qed.
Next Obligation. vm_compute; discriminate. Qed.
Next Obligation. vm_compute; repeat split; discriminate. Qed.
Next Obligation. reflexivity. Qed.

(** A queue with one value in it, one having been popped before. *)
Definition zst_before (P : Profile) : prog (v8E unit) (list (vanswer unit)) :=
  vexec (H := zst_v8) (H0 := P) 40 [VPush tt; VPop; VPush tt].

(** The memory it leaves. *)
Definition zst_mem : vmem unit :=
  match run (H := v8_handler (H := zst_v8)) (zst_before release_build) vblank with
  | Done _ s => s
  | _ => vblank
  end.

(** [queue.pop_batch(empty_vec_to_box_uninit(Vec::new()).unwrap())] *)
Definition zst_pop_all (P : Profile) (fuel : nat) : prog (v8E unit) (list unit) :=
  match empty_vec_to_box_uninit (Vec_new (U := unit) (mkLayout 0 1)) with
  | inl n => v8_pop_batch (H := zst_v8) (H0 := P) fuel n
  | inr _ => Ret []
  end.

(** A debug build panics wherever the consumer is not at the start of a block. *)
Lemma pop_batch_max_panics {T} `{V8Geometry} (fuel : nat) (s : vmem T) token vblock offset :
  decode_index (Z.shiftr (consumer_index s) 1) = (token, vblock, offset) → vblock ≠ nv → 0 < vblock * ns + offset →
  run (v8_pop_batch (H0 := debug_build) (S fuel) usize_max) s = Panicked s.
Proof.
  intros Hd Hv Hpos. unfold v8_pop_batch, read_into. rewrite (proj2 (Z.eqb_neq usize_max 0)) by done.
  erewrite run_act_bind; [|reflexivity]. erewrite run_act_bind; [|reflexivity]. cbn [loop]. rewrite !run_bind.
  rewrite Hd, (proj2 (Z.eqb_neq _ _)) by done. unfold read_propose. rewrite !run_bind, Hd.
  unfold uadd. rewrite (proj2 (Z.leb_gt _ _)) by lia. done.
Qed.

(** The release build waits for the second virtual block, which nobody fills. *)
Section hang.
#[local] Existing Instances zst_v8 release_build.

(** The memory once the consumer has read the first virtual block again. *)
Definition zst_waiting : vmem unit :=
  match run (r ← read_round 1 (consumer_block zst_mem, 0, 0, 1, usize_max, []); Ret r)
          (match run (act (VCas true CIndex 2 0)) zst_mem with Done _ s => s | _ => vblank end) with
  | Done _ s => s
  | _ => vblank
  end.

#[local] Instance zst_handler : Handler (v8E unit) (vmem unit) := v8_handler.

Lemma zst_await_hangs n : run (await_values n (consumer_block zst_mem) 0 1 0 2) zst_waiting = Stuck zst_waiting.
Proof.
  induction n as [|n IH]; [reflexivity|]. unfold await_values in *. cbn [loop].
  rewrite (run_done_bind _ _ _ (inl tt) zst_waiting); [exact IH|]. vm_compute. reflexivity.
Qed.

Lemma zst_read_hangs n :
  run (read_loop (S (S n)) (consumer_block zst_mem) 0 0 1 usize_max []) (set_consumer_index 0 zst_mem) = Stuck zst_waiting.
Proof.
  unfold read_loop. cbn [loop].
  rewrite (run_done_bind (read_round (S (S n)) _) _ _ (inl (consumer_block zst_mem, 0, 1, 0, usize_max - 1, [tt])) zst_waiting);
    [|vm_compute; reflexivity].
  rewrite run_bind. cbn [read_round]. rewrite (proj2 (Z.eqb_neq (usize_max - 1) 0)) by done.
  rewrite (run_done_bind (vblock_ok 1) _ _ tt zst_waiting) by reflexivity.
  replace (Z.min (ns - 0) (usize_max - 1)) with 2 by reflexivity.
  by rewrite run_bind, zst_await_hangs.
Qed.

Lemma zst_pop_hangs fuel :
  ∃ s, run (zst_pop_all release_build fuel) zst_mem = Stuck s ∧
    ((2 ≤ fuel)%nat → consumer_index zst_mem = 2 ∧ consumer_index s = 0).
Proof.
  destruct fuel as [|[|n]]; [eexists; split; [vm_compute; reflexivity|lia]..|]. exists zst_waiting.
  split; [|intros _; by vm_compute].
  change (zst_pop_all release_build (S (S n))) with (read_into (T := unit) (S (S n)) usize_max).
  unfold read_into. change (usize_max =? 0) with false. cbv iota.
  rewrite (run_act_bind _ _ _ 2 zst_mem) by (vm_compute; reflexivity).
  rewrite (run_act_bind _ _ _ (consumer_block zst_mem) zst_mem) by (vm_compute; reflexivity).
  cbn [loop]. rewrite run_bind. change (decode_index (Z.shiftr 2 1)) with (0, 0, 1). cbv iota beta.
  change (0 =? nv) with false. cbv iota.
  rewrite (run_done_bind _ _ _ (Some 0) zst_mem) by (vm_compute; reflexivity).
  replace (consumer_block zst_mem =? 0) with false by (vm_compute; reflexivity). cbv iota.
  rewrite (run_act_bind _ _ _ (inl 2) (set_consumer_index 0 zst_mem)) by (vm_compute; reflexivity).
  rewrite (run_done_bind _ _ _ usize_max (set_consumer_index 0 zst_mem)) by (vm_compute; reflexivity).
  rewrite (run_done_bind _ _ _ usize_max (set_consumer_index 0 zst_mem)) by (vm_compute; reflexivity).
  by rewrite run_bind, zst_read_hangs.
Qed.

End hang.

(** C37: [pop_batch] with a buffer made from an empty [Vec] of a zero-sized type, which has
    [usize::MAX] slots, adds that number to the position of the consumer in its block.
    A debug build panics for every geometry and every queue whose consumer is not at
    the start of a block.  A release build, on a queue of three virtual blocks of two
    slots that holds one value after one was popped, returns no value however long it
    runs: it moves the consumer's index from the second position back to the first and
    waits for values that nobody publishes.  (With the consumer at the start of a block
    the sum does not overflow.) *)
Theorem v8_pop_batch_zst_overflow :
  empty_vec_to_box_uninit (Vec_new (U := unit) (mkLayout 0 1)) = inl usize_max ∧
  (∀ (G : V8Geometry) fuel (s : vmem unit) token vblock offset,
     decode_index (Z.shiftr (consumer_index s) 1) = (token, vblock, offset) → vblock ≠ nv → 0 < vblock * ns + offset →
     run (H := v8_handler (H := G)) (v8_pop_batch (H0 := debug_build) (S fuel) usize_max) s = Panicked s) ∧
  (∃ answers, run (H := v8_handler (H := zst_v8)) (zst_before release_build) vblank = Done answers zst_mem) ∧
  (∀ fuel, ∃ s, run (H := v8_handler (H := zst_v8)) (zst_pop_all release_build fuel) zst_mem = Stuck s ∧
     ((2 ≤ fuel)%nat → consumer_index zst_mem = 2 ∧ consumer_index s = 0)).
Proof.
  split; [reflexivity|]. split; [intros; by eapply pop_batch_max_panics|]. split; [eexists; vm_compute; reflexivity|].
  exact zst_pop_hangs.
Qed.

Lemma v8_pop_batch_zst_overflow_witness :
  run (H := v8_handler (H := zst_v8)) (v8_pop_batch (H := zst_v8) (H0 := debug_build) 40 usize_max) zst_mem = Panicked zst_mem.
Proof.
  destruct v8_pop_batch_zst_overflow as (_ & Hp & _).
  apply (Hp zst_v8 39%nat zst_mem 0 0 1); [vm_compute; reflexivity|vm_compute; discriminate|vm_compute; reflexivity].
Defined.
