(* ===== verification/MsQueue.v ===== *)
(** * The Michael-Scott baseline queue (src/src/bench_harness/baselines/ms_queue.rs)

    A linked list with a sentinel; [push] links at the tail and swings it, [try_pop]
    advances the head and takes the value of the new sentinel.  Unlinked nodes are
    handed to an epoch-based collector: [epoch::pin] opens a guard, a retired node is
    destroyed some time after it was retired.  The collector is third-party code, a
    parameter of the model with its documented contract. *)

From S2P Require Import Prelude Prog Layout Head Geometry.

(** [struct Node] *)
Record Node (T : Type) := mkNode { data : option T; next : Z }.
Arguments mkNode {T} _ _.
Arguments data {T} _.
Arguments next {T} _.

(** When a guard closes, the collector is given the retired nodes, each with the
    guards that were open when it was retired, and the guards still open; it returns
    the nodes it destroys. *)
Class Collector := collect : list (Z * gset Z) → gset Z → list Z.

(** The documented contract: a retired node is destroyed only after every guard that
    was open when it was retired has closed. *)
Definition epoch_contract (C : Collector) : Prop :=
  ∀ retired open p, p ∈ collect retired open → ∃ gs, (p, gs) ∈ retired ∧ gs ## open.

Inductive msloc := MHead | MTail | MNext (p : Z).

(** The queue's words, its nodes, and the collector's state. *)
Record msmem (T : Type) := mkMs {
  ms_head : Z;
  ms_tail : Z;
  ms_nodes : gmap Z (Node T);
  ms_open : gset Z;
  ms_guards : Z;
  ms_retired : list (Z * gset Z);
  ms_dropped : list T
}.
Arguments mkMs {T} _ _ _ _ _ _ _.
Arguments ms_head {T} _.
Arguments ms_tail {T} _.
Arguments ms_nodes {T} _.
Arguments ms_open {T} _.
Arguments ms_guards {T} _.
Arguments ms_retired {T} _.
Arguments ms_dropped {T} _.

Inductive msE (T : Type) : Type → Type :=
| MLoad (l : msloc) : msE T Z
| MCas (l : msloc) (old new : Z) : msE T (Z + Z)
| MOwned (v : option T) : msE T Z
| MInit (p : Z) : msE T unit
| MTake (p : Z) : msE T (option T)
| MPin : msE T Z
| MDefer (p : Z) : msE T unit
| MUnpin (g : Z) : msE T unit
| MDrop (v : T) : msE T unit
| MFree (p : Z) : msE T unit.
Arguments MLoad {T} l.
Arguments MCas {T} l old new.
Arguments MOwned {T} v.
Arguments MInit {T} p.
Arguments MTake {T} p.
Arguments MPin {T}.
Arguments MDefer {T} p.
Arguments MUnpin {T} g.
Arguments MDrop {T} v.
Arguments MFree {T} p.

Section handler.
Context {T : Type} `{BoxAllocator} `{Collector}.
Implicit Types s : msmem T.

Definition ms_set_words (h t : Z) s : msmem T :=
  mkMs h t (ms_nodes s) (ms_open s) (ms_guards s) (ms_retired s) (ms_dropped s).

Definition ms_set_nodes (m : gmap Z (Node T)) s : msmem T :=
  mkMs (ms_head s) (ms_tail s) m (ms_open s) (ms_guards s) (ms_retired s) (ms_dropped s).

Definition ms_read (l : msloc) s : option Z :=
  match l with
  | MHead => Some (ms_head s)
  | MTail => Some (ms_tail s)
  | MNext p => next <$> ms_nodes s !! p
  end.

Definition ms_write (l : msloc) (v : Z) s : option (msmem T) :=
  match l with
  | MHead => Some (ms_set_words v (ms_tail s) s)
  | MTail => Some (ms_set_words (ms_head s) v s)
  | MNext p => n ← ms_nodes s !! p; Some (ms_set_nodes (<[p := mkNode (data n) v]> (ms_nodes s)) s)
  end.

(** Nodes the collector destroys are dropped with their values and removed. *)
Definition ms_collect (g : Z) s : msmem T :=
  let open := ms_open s ∖ {[g]} in
  let dead := collect (ms_retired s) open in
  mkMs (ms_head s) (ms_tail s) (foldr delete (ms_nodes s) dead) open (ms_guards s)
    (filter (λ r, r.1 ∉ dead) (ms_retired s))
    (ms_dropped s ++ omap (λ p, ms_nodes s !! p ≫= data) dead).

Definition ms_reply {X} (o : option (X * msmem T)) : reply (msmem T) X :=
  match o with Some (x, s) => Next x s | None => Fault end.

#[export] Instance ms_handler : Handler (msE T) (msmem T) := λ X e s,
  match e in msE _ X return reply (msmem T) X with
  | MLoad l => ms_reply (v ← ms_read l s; Some (v, s))
  | MCas l old new => ms_reply (
      v ← ms_read l s;
      if v =? old then s' ← ms_write l new s; Some (inl v, s') else Some (inr v, s))
  | MOwned v =>
      let p := box_at (dom (ms_nodes s)) in
      Next p (ms_set_nodes (<[p := mkNode v 0]> (ms_nodes s)) s)
  | MInit p => Next tt (ms_set_words p p s)
  | MTake p => ms_reply (
      n ← ms_nodes s !! p;
      Some (data n, ms_set_nodes (<[p := mkNode None (next n)]> (ms_nodes s)) s))
  | MPin =>
      let g := ms_guards s in
      Next g (mkMs (ms_head s) (ms_tail s) (ms_nodes s) ({[g]} ∪ ms_open s) (g + 1)
                (ms_retired s) (ms_dropped s))
  | MDefer p =>
      Next tt (mkMs (ms_head s) (ms_tail s) (ms_nodes s) (ms_open s) (ms_guards s)
                 (ms_retired s ++ [(p, ms_open s)]) (ms_dropped s))
  | MUnpin g => Next tt (ms_collect g s)
  | MDrop v => Next tt (mkMs (ms_head s) (ms_tail s) (ms_nodes s) (ms_open s) (ms_guards s)
                          (ms_retired s) (ms_dropped s ++ [v]))
  | MFree p => ms_reply (
      n ← ms_nodes s !! p;
      Some (tt, mkMs (ms_head s) (ms_tail s) (delete p (ms_nodes s)) (ms_open s) (ms_guards s)
                  (ms_retired s) (ms_dropped s ++ option_list (data n))))
  end.

(** Every exchange of the queue is strong. *)
#[export] Instance ms_spurious : Spurious (msE T) (msmem T) := λ X e s, None.

End handler.

(** ** The operations *)

Section queue.
Context {T : Type} (fuel : nat).

(** [MsQueue::new] *)
Definition MsQueue_new : prog (msE T) unit :=
  sentinel ← act (MOwned None);
  guard ← act MPin;
  act (MInit sentinel);;
  act (MUnpin guard).

(** One round of [push]: link the node behind the tail, or help a tail that lags. *)
Definition ms_push_round (new_node : Z) (_ : unit) : prog (msE T) (unit + unit) :=
  tail ← act (MLoad MTail);
  nx ← act (MLoad (MNext tail));
  if nx =? 0 then
    r ← act (MCas (MNext tail) 0 new_node);
    match r with
    | inl _ => act (MCas MTail tail new_node);; Ret (inr tt)
    | inr _ => Ret (inl tt)
    end
  else
    act (MCas MTail tail nx);; Ret (inl tt).

Definition ms_push (value : T) : prog (msE T) unit :=
  new_node ← act (MOwned (Some value));
  guard ← act MPin;
  loop fuel (ms_push_round new_node) tt;;
  act (MUnpin guard).

(** One round of [try_pop]. *)
Definition ms_pop_round (_ : unit) : prog (msE T) (unit + option T) :=
  head ← act (MLoad MHead);
  nx ← act (MLoad (MNext head));
  if nx =? 0 then Ret (inr None) else
  r ← act (MCas MHead head nx);
  match r with
  | inl _ =>
      value ← act (MTake nx);
      act (MDefer head);;
      Ret (inr value)
  | inr _ => Ret (inl tt)
  end.

Definition ms_try_pop : prog (msE T) (option T) :=
  guard ← act MPin;
  value ← loop fuel ms_pop_round tt;
  act (MUnpin guard);;
  Ret value.

(** [impl Drop for MsQueue] *)
Definition MsQueue_drop : prog (msE T) unit :=
  loop fuel (λ _ : unit,
    v ← ms_try_pop;
    match v with
    | Some v => act (MDrop v);; Ret (inl tt)
    | None => Ret (inr tt)
    end) tt;;
  sentinel ← act (MLoad MHead);
  if negb (sentinel =? 0) then act (MFree sentinel) else Ret tt.

(** A thread performs one call. *)
Inductive msop := MsPush (v : T) | MsPop.

Definition ms_call (o : msop) : prog (msE T) (option T) :=
  match o with
  | MsPush v => ms_push v;; Ret None
  | MsPop => ms_try_pop
  end.

End queue.
Arguments MsPush {T} v.
Arguments MsPop {T}.

Definition ms_blank {T} : msmem T := mkMs 0 0 ∅ ∅ 0 [] [].

(** The memory of a fresh queue whose sentinel is at [p]. *)
Definition ms_fresh {T} (p : Z) : msmem T := mkMs p p {[p := mkNode None 0]} ∅ 1 [] [].
