(* ===== verification/MsInv.v ===== *)
(** * Invariant of the Michael-Scott baseline under interleaving

    The ghost state numbers the nodes in the order they were linked, node 0 being the
    first sentinel, keeps the history of the calls that have taken effect, and records
    the retired nodes with the guards that were open when they were retired: a node is
    kept for a guard as long as it is not destroyed and every retirement of it knows of
    the guard. *)

From S2P Require Import Prelude Prog Conc Layout Head Geometry MsQueue.

(** ** Histories of a FIFO queue *)

(** A call by a thread and its result. *)
Notation event T := (nat * msop (T:=T) * option T)%type (only parsing).

(** [fifo h q]: the history is one of a sequential FIFO queue, which then holds [q]. *)
Inductive fifo {T} : list (event T) → list T → Prop :=
| fifo_nil : fifo [] []
| fifo_push h q i v : fifo h q → fifo (h ++ [(i, MsPush v, None)]) (q ++ [v])
| fifo_pop h q i v : fifo h (v :: q) → fifo (h ++ [(i, MsPop, Some v)]) q
| fifo_none h i : fifo h [] → fifo (h ++ [(i, MsPop, None)]) [].

Definition threads {T} (h : list (event T)) : list nat := (λ e, e.1.1) <$> h.

Lemma threads_app {T} (h h' : list (event T)) : threads (h ++ h') = threads h ++ threads h'.
Proof. apply fmap_app. Qed.

(** ** Ghost state *)

Record msghost (T : Type) := mkMg {
  mg_chain : list (Z * option T);
  mg_head : nat;
  mg_tail : nat;
  mg_live : gset nat;
  mg_full : gset nat;
  mg_hist : list (event T);
  mg_own : nat → option (Z * T);
  mg_guard : nat → option Z;
  mg_swing : nat → option nat;
  mg_pend : nat → option nat;
  mg_ret : list (nat * gset Z)
}.
Arguments mkMg {T} _ _ _ _ _ _ _ _ _ _ _.
Arguments mg_chain {T} _.
Arguments mg_head {T} _.
Arguments mg_tail {T} _.
Arguments mg_live {T} _.
Arguments mg_full {T} _.
Arguments mg_hist {T} _.
Arguments mg_own {T} _ _.
Arguments mg_guard {T} _ _.
Arguments mg_swing {T} _ _.
Arguments mg_pend {T} _ _.
Arguments mg_ret {T} _.

Section invariant.
Context {T : Type} (ops : list (msop (T:=T))).
Notation N := (length ops).
Implicit Types (γ : msghost T) (s : msmem T).

Definition mg_len γ : nat := length (mg_chain γ).

(** What the node after position [k] is. *)
Definition next_addr γ (k : nat) : Z :=
  match mg_chain γ !! S k with Some (q, _) => q | None => 0 end.

Definition node_at γ (k : nat) (v : option T) : Node T :=
  mkNode (if decide (k ∈ mg_full γ) then v else None) (next_addr γ k).

(** Values in the queue. *)
Definition queued γ : list T := omap snd (drop (S (mg_head γ)) (mg_chain γ)).

(** Node [k] stays allocated as long as guard [g] is open. *)
Definition kept γ (g : Z) (k : nat) : Prop := k ∈ mg_live γ ∧ ∀ gs, (k, gs) ∈ mg_ret γ → g ∈ gs.

Record ms_inv γ s : Prop := {
  mi_head : ∃ v, mg_chain γ !! mg_head γ = Some (ms_head s, v);
  mi_tail : ∃ v, mg_chain γ !! mg_tail γ = Some (ms_tail s, v);
  mi_live : ∀ k, (mg_head γ ≤ k < mg_len γ)%nat → k ∈ mg_live γ;
  mi_live_tail : mg_tail γ ∈ mg_live γ;
  mi_live_len : ∀ k, k ∈ mg_live γ → (k < mg_len γ)%nat;
  mi_pos : ∀ k p v, mg_chain γ !! k = Some (p, v) → 0 < p;
  mi_nodes : ∀ k p v, k ∈ mg_live γ → mg_chain γ !! k = Some (p, v) →
    ms_nodes s !! p = Some (node_at γ k v);
  mi_inj : ∀ k j p v w, k ∈ mg_live γ → j ∈ mg_live γ →
    mg_chain γ !! k = Some (p, v) → mg_chain γ !! j = Some (p, w) → k = j;
  mi_own : ∀ i p v, mg_own γ i = Some (p, v) →
    0 < p ∧ ms_nodes s !! p = Some (mkNode (Some v) 0) ∧
    (∀ k w, k ∈ mg_live γ → mg_chain γ !! k ≠ Some (p, w)) ∧
    (∀ j w, mg_own γ j = Some (p, w) → j = i);
  mi_lag : S (mg_tail γ) = mg_len γ ∨
    (S (S (mg_tail γ)) = mg_len γ ∧ ∃ i, mg_swing γ i = Some (mg_tail γ));
  mi_swing : ∀ i k, mg_swing γ i = Some k → is_Some (mg_guard γ i);
  mi_pend : ∀ i k, mg_pend γ i = Some k →
    is_Some (mg_guard γ i) ∧ k ∈ mg_full γ ∧ (k ≤ mg_head γ)%nat ∧
    ∀ j, mg_pend γ j = Some k → j = i;
  mi_open : ∀ g, g ∈ ms_open s ↔ ∃ i, mg_guard γ i = Some g;
  mi_guard : ∀ i g, mg_guard γ i = Some g → g < ms_guards s ∧ ∀ j, mg_guard γ j = Some g → j = i;
  mi_full : ∀ k, (mg_head γ < k < mg_len γ)%nat → k ∈ mg_full γ;
  mi_full_len : ∀ k, k ∈ mg_full γ → (k < mg_len γ)%nat;
  mi_value : ∀ k p v, mg_chain γ !! S k = Some (p, v) → is_Some v;
  mi_retired : ∀ p gs, (p, gs) ∈ ms_retired s →
    ∃ k v, (k, gs) ∈ mg_ret γ ∧ mg_chain γ !! k = Some (p, v);
  mi_ret : ∀ k gs, (k, gs) ∈ mg_ret γ → k ∈ mg_live γ ∧ (k < mg_head γ)%nat ∧ (k < mg_tail γ)%nat;
  mi_fifo : fifo (mg_hist γ) (queued γ);
  mi_once : NoDup (threads (mg_hist γ)) ∧ Forall (λ e, ops !! e.1.1 = Some e.1.2) (mg_hist γ);
  mi_count : (mg_len γ ≤ S (length (mg_hist γ)))%nat
}.

(** What another thread may rely on, and what a thread guarantees. *)
Record ms_rely (i : nat) γ γ' : Prop := {
  mr_chain : mg_chain γ `prefix_of` mg_chain γ';
  mr_head : (mg_head γ ≤ mg_head γ')%nat;
  mr_tail : (mg_tail γ ≤ mg_tail γ')%nat;
  mr_hist : ∃ l, mg_hist γ' = mg_hist γ ++ l ∧ i ∉ threads l;
  mr_own : mg_own γ' i = mg_own γ i;
  mr_guard : mg_guard γ' i = mg_guard γ i;
  mr_swing : mg_swing γ' i = mg_swing γ i;
  mr_pend : mg_pend γ' i = mg_pend γ i;
  mr_kept : ∀ g k, mg_guard γ i = Some g → kept γ g k → kept γ' g k
}.

Record ms_guar (i : nat) γ γ' : Prop := {
  mu_chain : mg_chain γ `prefix_of` mg_chain γ';
  mu_head : (mg_head γ ≤ mg_head γ')%nat;
  mu_tail : (mg_tail γ ≤ mg_tail γ')%nat;
  mu_hist : ∃ l, mg_hist γ' = mg_hist γ ++ l ∧ Forall (λ j, j = i) (threads l);
  mu_own : ∀ j, j ≠ i → mg_own γ' j = mg_own γ j;
  mu_guard : ∀ j, j ≠ i → mg_guard γ' j = mg_guard γ j;
  mu_swing : ∀ j, j ≠ i → mg_swing γ' j = mg_swing γ j;
  mu_pend : ∀ j, j ≠ i → mg_pend γ' j = mg_pend γ j;
  mu_kept : ∀ j g k, j ≠ i → mg_guard γ j = Some g → kept γ g k → kept γ' g k
}.

Lemma ms_rg : rely_guarantee ms_rely ms_guar.
Proof.
  split.
  - intros i γ. split; try done. exists []. split; [by rewrite app_nil_r|apply not_elem_of_nil].
  - intros i γ1 γ2 γ3 [C1 H1 T1 [l1 [E1 N1]] O1 G1 S1 P1 L1] [C2 H2 T2 [l2 [E2 N2]] O2 G2 S2 P2 L2].
    split; try congruence; try lia.
    + by transitivity (mg_chain γ2).
    + exists (l1 ++ l2). split; [by rewrite E2, E1, app_assoc|]. rewrite threads_app, not_elem_of_app. done.
    + intros g k Hg Hk. apply L2; [by rewrite G1|by apply L1].
  - intros i j γ γ' [C H T' [l [E F]] O G S P L] Hne. assert (j ≠ i) by congruence. split; eauto.
    + exists l. split; [done|]. intros Hj. rewrite Forall_forall in F. by apply F in Hj.
Qed.

(** ** Reading the invariant *)

Lemma chain_lookup_prefix γ γ' k x :
  mg_chain γ `prefix_of` mg_chain γ' → mg_chain γ !! k = Some x → mg_chain γ' !! k = Some x.
Proof. intros [l ->] Hk. by apply lookup_app_l_Some. Qed.

(** The history bounds the number of nodes. *)
Lemma ms_bound γ s : ms_inv γ s → (mg_len γ ≤ S N)%nat.
Proof.
  intros HI. pose proof (mi_count _ _ HI). destruct (mi_once _ _ HI) as [Hn Hf].
  assert (length (threads (mg_hist γ)) ≤ N)%nat as Hl; [|unfold threads in Hl; rewrite length_fmap in Hl; lia].
  transitivity (length (seq 0 N)); [|by rewrite length_seq].
  apply submseteq_length, NoDup_submseteq; [done|].
  intros x Hx. apply list_elem_of_fmap in Hx as (e & -> & He). rewrite Forall_forall in Hf.
  apply Hf, lookup_lt_Some in He. apply elem_of_seq. lia.
Qed.

Lemma ms_head_lt γ s : ms_inv γ s → (mg_head γ < mg_len γ)%nat.
Proof. intros HI. destruct (mi_head _ _ HI) as [v Hv]. by apply lookup_lt_Some in Hv. Qed.

Lemma ms_tail_lt γ s : ms_inv γ s → (mg_tail γ < mg_len γ)%nat.
Proof. intros HI. destruct (mi_tail _ _ HI) as [v Hv]. by apply lookup_lt_Some in Hv. Qed.

(** Nodes from the head on, and the tail, are kept for every guard. *)
Lemma kept_ahead γ s g k :
  ms_inv γ s → (mg_head γ ≤ k < mg_len γ)%nat ∨ k = mg_tail γ → kept γ g k.
Proof.
  intros HI Hk. split.
  - destruct Hk as [Hk| ->]; [by apply (mi_live _ _ HI)|apply (mi_live_tail _ _ HI)].
  - intros gs Hr. destruct (mi_ret _ _ HI k gs Hr) as (_ & ? & ?). lia.
Qed.

(** No node is at address zero, so the end of the chain is recognised. *)
Lemma next_addr_zero γ s k :
  ms_inv γ s → (k < mg_len γ)%nat → next_addr γ k = 0 ↔ S k = mg_len γ.
Proof.
  intros HI Hk. unfold next_addr. destruct (mg_chain γ !! S k) as [[q v]|] eqn:Hq.
  - pose proof (mi_pos _ _ HI _ _ _ Hq). apply lookup_lt_Some in Hq. unfold mg_len in *. split; lia.
  - apply lookup_ge_None in Hq. unfold mg_len in *. split; [lia|done].
Qed.

End invariant.
