(* ===== verification/MsSteps.v ===== *)
(** * The steps of the Michael-Scott baseline preserve its invariant *)

From S2P Require Import Prelude Prog Conc Layout Head Geometry MsQueue MsInv.

Section steps.
Context {T : Type} (ops : list (msop (T:=T))) (i : nat).
Implicit Types (γ : msghost T) (s : msmem T).

(** A thread's first effect in the history. *)
Definition unseen (o : msop) γ : Prop := (i ∉ threads (mg_hist γ)) ∧ ops !! i = Some o.

Lemma once_snoc γ s o r :
  ms_inv ops γ s → unseen o γ →
  let h := mg_hist γ ++ [(i, o, r)] in
  NoDup (threads h) ∧ Forall (λ e, ops !! e.1.1 = Some e.1.2) h.
Proof.
  intros HI [Hi HN] h. destruct (mi_once _ _ _ HI) as [Hn Hf]. unfold h. split.
  - rewrite threads_app. apply NoDup_app. split; [done|]. split; [|apply NoDup_singleton]. intros x Hx Hx'.
    apply list_elem_of_singleton in Hx'. by subst.
  - apply Forall_app. split; [done|]. by repeat constructor.
Qed.

Lemma hist_snoc γ o r :
  ∃ l, mg_hist γ ++ [(i, o, r)] = mg_hist γ ++ l ∧ Forall (λ j, j = i) (threads l).
Proof. exists [(i, o, r)]. split; [done|]. by repeat constructor. Qed.

Lemma hist_same γ : ∃ l, mg_hist γ = mg_hist γ ++ l ∧ Forall (λ j, j = i) (threads l).
Proof. exists []. split; [by rewrite app_nil_r|constructor]. Qed.

(** ** A node of one's own *)

Definition g_own (o : option (Z * T)) γ : msghost T :=
  mkMg (mg_chain γ) (mg_head γ) (mg_tail γ) (mg_live γ) (mg_full γ) (mg_hist γ)
    (upd (mg_own γ) i o) (mg_guard γ) (mg_swing γ) (mg_pend γ) (mg_ret γ).

Lemma g_own_guar o γ : ms_guar i γ (g_own o γ).
Proof. split; simpl; try done; try apply hist_same. intros j Hj. by rewrite upd_ne. Qed.

Lemma inv_owned `{BoxAllocator} γ s p v :
  ms_inv ops γ s → mg_own γ i = None → p = box_at (dom (ms_nodes s)) →
  ms_inv ops (g_own (Some (p, v)) γ) (ms_set_nodes (<[p := mkNode (Some v) 0]> (ms_nodes s)) s).
Proof.
  intros HI Ho Hp. destruct (box_at_fresh (dom (ms_nodes s))) as [Hfr Hpos]. rewrite <- Hp in *.
  apply not_elem_of_dom in Hfr.
  assert (∀ k w, k ∈ mg_live γ → mg_chain γ !! k ≠ Some (p, w)) as Hnl.
  { intros k w Hk Hw. pose proof (mi_nodes _ _ _ HI k p w Hk Hw). congruence. }
  destruct HI. split; simpl; try done.
  - intros k q w Hk Hq. rewrite lookup_insert_ne; [by apply mi_nodes|]. intros <-. by apply (Hnl k w).
  - intros j q w. destruct (decide (j = i)) as [->|Hne].
    + rewrite upd_eq. intros [= <- <-]. split; [done|]. split; [apply lookup_insert_eq|]. split; [done|].
      intros j' w'. destruct (decide (j' = i)) as [|Hne']; [done|]. rewrite upd_ne by done. intros Hj'.
      apply mi_own in Hj' as (_ & Hj' & _). congruence.
    + rewrite upd_ne by done. intros Hj. destruct (mi_own j q w Hj) as (? & Hq & ? & Huq). split; [done|].
      assert (p ≠ q) as Hpq by congruence. rewrite lookup_insert_ne by done. split; [done|]. split; [done|].
      intros j' w'. destruct (decide (j' = i)) as [->|Hne']; [rewrite upd_eq; congruence|].
      rewrite upd_ne by done. apply Huq.
Qed.

(** ** Guards *)

Definition g_guard (o : option Z) γ : msghost T :=
  mkMg (mg_chain γ) (mg_head γ) (mg_tail γ) (mg_live γ) (mg_full γ) (mg_hist γ)
    (mg_own γ) (upd (mg_guard γ) i o) (mg_swing γ) (mg_pend γ) (mg_ret γ).

Lemma g_guard_guar o γ : ms_guar i γ (g_guard o γ).
Proof. split; simpl; try done; try apply hist_same. intros j Hj. by rewrite upd_ne. Qed.

Lemma inv_pin γ s :
  ms_inv ops γ s → mg_guard γ i = None →
  ms_inv ops (g_guard (Some (ms_guards s)) γ)
    (mkMs (ms_head s) (ms_tail s) (ms_nodes s) ({[ms_guards s]} ∪ ms_open s) (ms_guards s + 1)
       (ms_retired s) (ms_dropped s)).
Proof.
  intros HI Hg. destruct HI.
  assert (∀ j, is_Some (mg_guard γ j) → is_Some (upd (mg_guard γ) i (Some (ms_guards s)) j)) as Hsome.
  { intros j Hj. destruct (decide (j = i)) as [->|Hne]; [rewrite upd_eq; eauto|by rewrite upd_ne]. }
  split; simpl; try done.
  - intros j k Hj. by eapply Hsome, mi_swing.
  - intros j k Hj. destruct (mi_pend j k Hj) as (? & ?). split; [by apply Hsome|done].
  - intros g. rewrite elem_of_union, elem_of_singleton, mi_open. split.
    + intros [->|[j Hj]]; [exists i; by rewrite upd_eq|]. exists j. rewrite upd_ne; [done|congruence].
    + intros [j Hj]. destruct (decide (j = i)) as [->|Hne].
      * rewrite upd_eq in Hj. left. congruence.
      * rewrite upd_ne in Hj by done. eauto.
  - intros j g Hj. destruct (decide (j = i)) as [->|Hne].
    + rewrite upd_eq in Hj. injection Hj as Hj. subst g. split; [lia|]. intros j' Hj'.
      destruct (decide (j' = i)) as [|Hne']; [done|]. rewrite upd_ne in Hj' by done. apply mi_guard in Hj' as [? _]. lia.
    + rewrite upd_ne in Hj by done. destruct (mi_guard j g Hj) as [? Huq]. split; [lia|]. intros j' Hj'.
      destruct (decide (j' = i)) as [->|Hne']; [rewrite upd_eq in Hj'; injection Hj' as Hj'; lia|].
      rewrite upd_ne in Hj' by done. by apply Huq.
Qed.

(** ** Histories *)

Definition g_hist (o : msop) (r : option T) γ : msghost T :=
  mkMg (mg_chain γ) (mg_head γ) (mg_tail γ) (mg_live γ) (mg_full γ) (mg_hist γ ++ [(i, o, r)])
    (mg_own γ) (mg_guard γ) (mg_swing γ) (mg_pend γ) (mg_ret γ).

Lemma g_hist_guar o r γ : ms_guar i γ (g_hist o r γ).
Proof. split; simpl; try done. apply hist_snoc. Qed.

(** The queue is seen empty. *)
Lemma inv_none γ s :
  ms_inv ops γ s → unseen MsPop γ → S (mg_head γ) = mg_len γ → ms_inv ops (g_hist MsPop None γ) s.
Proof.
  intros HI Hi Hend. pose proof (once_snoc γ s MsPop None HI Hi) as Honce. destruct HI. split; simpl; try done.
  - unfold queued in *. simpl. rewrite drop_ge in * by (unfold mg_len in Hend; lia). simpl in *. by apply fifo_none.
  - unfold mg_len in *. simpl. rewrite length_app. simpl. lia.
Qed.

(** ** Linking *)

Definition g_append (n : Z) (v : T) γ : msghost T :=
  mkMg (mg_chain γ ++ [(n, Some v)]) (mg_head γ) (mg_tail γ) ({[mg_len γ]} ∪ mg_live γ) ({[mg_len γ]} ∪ mg_full γ)
    (mg_hist γ ++ [(i, MsPush v, None)]) (upd (mg_own γ) i None) (mg_guard γ)
    (upd (mg_swing γ) i (Some (mg_tail γ))) (mg_pend γ) (mg_ret γ).

Lemma g_append_guar n v γ : ms_guar i γ (g_append n v γ).
Proof.
  split; simpl; try done.
  - by eexists.
  - apply hist_snoc.
  - intros j Hj. by rewrite upd_ne.
  - intros j Hj. by rewrite upd_ne.
  - intros j g k _ _ [Hk Hr]. split; [|done]. simpl. apply elem_of_union. by right.
Qed.

Lemma link_lookup n v γ k x :
  mg_chain γ !! k = Some x → mg_chain (g_append n v γ) !! k = Some x.
Proof. apply lookup_app_l_Some. Qed.

Lemma link_lookup_inv n v γ k x :
  mg_chain (g_append n v γ) !! k = Some x →
  ((k < mg_len γ)%nat ∧ mg_chain γ !! k = Some x) ∨ (k = mg_len γ ∧ x = (n, Some v)).
Proof.
  simpl. intros Hk. apply lookup_app_Some in Hk as [Hk|[Hge Hk]].
  - left. split; [by eapply lookup_lt_Some|done].
  - right. apply list_lookup_singleton_Some in Hk as [Hk <-]. unfold mg_len. split; [lia|done].
Qed.

Lemma link_next n v γ k :
  (k < mg_len γ)%nat → next_addr (g_append n v γ) k = if decide (S k = mg_len γ) then n else next_addr γ k.
Proof.
  intros Hk. unfold next_addr. simpl. unfold mg_len in *. case_decide as E.
  - rewrite E, lookup_app_r, Nat.sub_diag by lia. done.
  - rewrite lookup_app_l by lia. done.
Qed.

Lemma link_node n v γ k w :
  (k < mg_len γ)%nat → S k ≠ mg_len γ → node_at (g_append n v γ) k w = node_at γ k w.
Proof.
  intros Hk Hne. unfold node_at. rewrite (link_next n v γ k Hk), (decide_False (P := S k = mg_len γ) _ _ Hne). simpl. f_equal.
  apply decide_ext. rewrite elem_of_union, elem_of_singleton. split; [|by right]. intros [?|?]; [lia|done].
Qed.

Lemma link_queued n v γ :
  (mg_head γ < mg_len γ)%nat → queued (g_append n v γ) = queued γ ++ [v].
Proof.
  intros Hh. unfold queued. simpl. rewrite drop_app_le by (unfold mg_len in Hh; lia). by rewrite omap_app.
Qed.

Lemma link_len n v γ : mg_len (g_append n v γ) = S (mg_len γ).
Proof. unfold mg_len. simpl. rewrite length_app. simpl. lia. Qed.

Lemma link_live_old n v γ k : k ∈ mg_live (g_append n v γ) → (k < mg_len γ)%nat → k ∈ mg_live γ.
Proof. simpl. intros [->%elem_of_singleton|?]%elem_of_union ?; [lia|done]. Qed.

Lemma link_live_new n v γ k : k = mg_len γ ∨ k ∈ mg_live γ → k ∈ mg_live (g_append n v γ).
Proof. simpl. rewrite elem_of_union, elem_of_singleton. done. Qed.

Lemma link_full_new n v γ k : k = mg_len γ ∨ k ∈ mg_full γ → k ∈ mg_full (g_append n v γ).
Proof. simpl. rewrite elem_of_union, elem_of_singleton. done. Qed.

Section link.
Context γ s (n : Z) (v : T) (p : Z) (w : option T).
Context (HI : ms_inv ops γ s) (Ho : mg_own γ i = Some (n, v)).
Context (Ht : S (mg_tail γ) = mg_len γ) (Hp : mg_chain γ !! mg_tail γ = Some (p, w)).

Lemma link_fresh k x : k ∈ mg_live γ → mg_chain γ !! k ≠ Some (n, x).
Proof using HI Ho. apply (mi_own _ _ _ HI i n v Ho). Qed.

Lemma link_nodes k q x :
  k ∈ mg_live (g_append n v γ) → mg_chain (g_append n v γ) !! k = Some (q, x) →
  <[p := mkNode (data (node_at γ (mg_tail γ) w)) n]> (ms_nodes s) !! q = Some (node_at (g_append n v γ) k x).
Proof using HI Ho Ht Hp.
  intros Hk Hq. apply link_lookup_inv in Hq as [[Hlen Hq]|[-> [= E1 E2]]]; [|subst q x].
  - apply link_live_old in Hk; [|done]. destruct (decide (S k = mg_len γ)) as [E|Hne].
    + assert (k = mg_tail γ) as -> by lia. rewrite Hp in Hq. injection Hq as <- <-. rewrite lookup_insert_eq. f_equal.
      unfold node_at. rewrite (link_next n v γ _ Hlen), (decide_True (P := S (mg_tail γ) = mg_len γ) _ _ E). simpl. f_equal.
      apply decide_ext. rewrite elem_of_union, elem_of_singleton. split; [by right|]. intros [?|?]; [lia|done].
    + rewrite link_node by done. rewrite lookup_insert_ne; [by apply (mi_nodes _ _ _ HI)|].
      intros E. subst q. pose proof (mi_inj _ _ _ HI k _ p x w Hk (mi_live_tail _ _ _ HI) Hq Hp). lia.
  - rewrite lookup_insert_ne by (intros E; apply (link_fresh (mg_tail γ) w (mi_live_tail _ _ _ HI)); congruence).
    destruct (mi_own _ _ _ HI i n v Ho) as (_ & Hnode & _). rewrite Hnode. f_equal. unfold node_at. simpl.
    rewrite decide_True by (by apply elem_of_union_l, elem_of_singleton). f_equal. unfold next_addr. simpl.
    rewrite lookup_ge_None_2; [done|]. rewrite length_app. simpl. unfold mg_len. lia.
Qed.

Lemma link_inj k j q x y :
  k ∈ mg_live (g_append n v γ) → j ∈ mg_live (g_append n v γ) →
  mg_chain (g_append n v γ) !! k = Some (q, x) → mg_chain (g_append n v γ) !! j = Some (q, y) → k = j.
Proof using HI Ho.
  intros Hk Hj Hx Hy. apply link_lookup_inv in Hx as [[Hkl Hx]|[-> E]], Hy as [[Hjl Hy]|[-> E']]; try done.
  - eapply (mi_inj _ _ _ HI); [| |exact Hx|exact Hy]; by eapply link_live_old.
  - injection E' as E' _. subst q. apply link_live_old in Hk; [|done]. by apply link_fresh in Hx.
  - injection E as E _. subst q. apply link_live_old in Hj; [|done]. by apply link_fresh in Hy.
Qed.

Lemma link_own j q x :
  mg_own (g_append n v γ) j = Some (q, x) →
  0 < q ∧ <[p := mkNode (data (node_at γ (mg_tail γ) w)) n]> (ms_nodes s) !! q = Some (mkNode (Some x) 0) ∧
  (∀ k y, k ∈ mg_live (g_append n v γ) → mg_chain (g_append n v γ) !! k ≠ Some (q, y)) ∧
  (∀ j' y, mg_own (g_append n v γ) j' = Some (q, y) → j' = j).
Proof using HI Ho Hp.
  intros Hj. cbn [mg_own g_append] in *. destruct (decide (j = i)) as [->|Hne]; [by rewrite upd_eq in Hj|].
  rewrite upd_ne in Hj by done. destruct (mi_own _ _ _ HI j q x Hj) as (? & Hq & Hql & Huq). split; [done|].
  rewrite lookup_insert_ne by (intros E; apply (Hql (mg_tail γ) w (mi_live_tail _ _ _ HI)); congruence). split; [done|]. split.
  - intros k y Hk Hy. apply link_lookup_inv in Hy as [[Hkl Hy]|[-> [= E1 E2]]]; [|subst q y].
    + apply (Hql k y); [by eapply link_live_old|done].
    + by apply (Huq i v) in Ho.
  - intros j' y. destruct (decide (j' = i)) as [->|]; [by rewrite upd_eq|]. rewrite upd_ne by done. apply Huq.
Qed.

Lemma inv_link :
  unseen (MsPush v) γ → is_Some (mg_guard γ i) →
  ms_inv ops (g_append n v γ)
    (ms_set_nodes (<[p := mkNode (data (node_at γ (mg_tail γ) w)) n]> (ms_nodes s)) s).
Proof using HI Ho Ht Hp.
  intros Hi Hg. pose proof (once_snoc γ s (MsPush v) None HI Hi) as Honce. pose proof (ms_head_lt _ _ _ HI) as Hh.
  split; try (by apply HI); rewrite ?link_len.
  - destruct (mi_head _ _ _ HI) as [x Hx]. exists x. by apply link_lookup.
  - destruct (mi_tail _ _ _ HI) as [x Hx]. exists x. by apply link_lookup.
  - intros k Hk. apply link_live_new. destruct (decide (k = mg_len γ)) as [->|Hne]; [by left|right].
    apply (mi_live _ _ _ HI). simpl in Hk. lia.
  - apply link_live_new. right. apply (mi_live_tail _ _ _ HI).
  - simpl. intros k [->%elem_of_singleton|Hk]%elem_of_union; [lia|]. apply (mi_live_len _ _ _ HI) in Hk. lia.
  - intros k q x [[_ Hk]|[_ [= E1 E2]]]%link_lookup_inv; [by eapply (mi_pos _ _ _ HI)|]. subst q. apply (mi_own _ _ _ HI i _ v Ho).
  - exact link_nodes.
  - exact link_inj.
  - exact link_own.
  - right. split; [simpl; lia|]. exists i. simpl. by rewrite upd_eq.
  - intros j k. simpl. destruct (decide (j = i)) as [->|Hne]; [done|]. rewrite upd_ne by done. apply (mi_swing _ _ _ HI).
  - intros j k Hj. destruct (mi_pend _ _ _ HI j k Hj) as (? & ? & ? & ?). split; [done|].
    split; [apply link_full_new; by right|done].
  - intros k Hk. apply link_full_new. destruct (decide (k = mg_len γ)) as [->|Hne]; [by left|right].
    apply (mi_full _ _ _ HI). simpl in Hk. lia.
  - simpl. intros k [->%elem_of_singleton|Hk]%elem_of_union; [lia|]. apply (mi_full_len _ _ _ HI) in Hk. lia.
  - intros k q x [[_ Hk]|[_ [= E1 E2]]]%link_lookup_inv; [by eapply (mi_value _ _ _ HI)|by subst x].
  - intros q gs Hq. destruct (mi_retired _ _ _ HI q gs Hq) as (k & x & ? & ?). exists k, x.
    split; [done|]. by apply link_lookup.
  - intros k gs Hk. destruct (mi_ret _ _ _ HI k gs Hk). split; [apply link_live_new; by right|done].
  - rewrite link_queued by done. apply fifo_push, HI.
  - exact Honce.
  - simpl. rewrite length_app. simpl. pose proof (mi_count _ _ _ HI). lia.
Qed.

End link.

(** ** Swinging the tail *)

Definition g_swing (t : nat) (o : option nat) γ : msghost T :=
  mkMg (mg_chain γ) (mg_head γ) t (mg_live γ) (mg_full γ) (mg_hist γ)
    (mg_own γ) (mg_guard γ) (upd (mg_swing γ) i o) (mg_pend γ) (mg_ret γ).

Lemma g_swing_guar t o γ : (mg_tail γ ≤ t)%nat → ms_guar i γ (g_swing t o γ).
Proof. split; simpl; try done; try apply hist_same. intros j Hj. by rewrite upd_ne. Qed.

Lemma swing_guards γ s k o :
  ms_inv ops γ s → o = mg_swing γ i ∨ o = None →
  ∀ j k', mg_swing (g_swing k o γ) j = Some k' → is_Some (mg_guard γ j).
Proof.
  intros HI Ho j k' Hj. simpl in Hj. destruct (decide (j = i)) as [->|Hne].
  - rewrite upd_eq in Hj. destruct Ho as [->| ->]; [|done]. by eapply (mi_swing _ _ _ HI).
  - rewrite upd_ne in Hj by done. by eapply (mi_swing _ _ _ HI).
Qed.

(** The exchange succeeds: the tail moves to the last node. *)
Lemma inv_swing γ s o q w :
  ms_inv ops γ s → o = mg_swing γ i ∨ o = None → mg_chain γ !! S (mg_tail γ) = Some (q, w) →
  ms_inv ops (g_swing (S (mg_tail γ)) o γ) (ms_set_words (ms_head s) q s).
Proof.
  intros HI Ho Hq. pose proof (ms_head_lt _ _ _ HI) as Hh. pose proof (lookup_lt_Some _ _ _ Hq) as Hlt.
  assert (S (S (mg_tail γ)) = mg_len γ) as Hlen.
  { destruct (mi_lag _ _ _ HI) as [E|[E _]]; [unfold mg_len in E; lia|done]. }
  pose proof (swing_guards γ s (S (mg_tail γ)) o HI Ho) as Hg. split; try (by apply HI); try done.
  - by exists w.
  - apply (mi_live _ _ _ HI). simpl. lia.
  - by left.
  - intros k gs Hk. destruct (mi_ret _ _ _ HI k gs Hk) as (? & ? & ?). simpl. auto with lia.
Qed.

(** The exchange fails: somebody else has moved the tail. *)
Lemma inv_unswing γ s k :
  ms_inv ops γ s → mg_swing γ i = Some k → k ≠ mg_tail γ →
  ms_inv ops (g_swing (mg_tail γ) None γ) s.
Proof.
  intros HI Hk Hne. pose proof (swing_guards γ s (mg_tail γ) None HI (or_intror eq_refl)) as Hg.
  split; try (by apply HI); try done; [apply (mi_live_tail _ _ _ HI)|].
  destruct (mi_lag _ _ _ HI) as [E|[E [j Hj]]]; [by left|right]. split; [done|]. exists j. simpl.
  rewrite upd_ne; [done|]. congruence.
Qed.

(** ** Popping *)

Definition g_pop (v : T) γ : msghost T :=
  mkMg (mg_chain γ) (S (mg_head γ)) (mg_tail γ) (mg_live γ) (mg_full γ) (mg_hist γ ++ [(i, MsPop, Some v)])
    (mg_own γ) (mg_guard γ) (mg_swing γ) (upd (mg_pend γ) i (Some (S (mg_head γ)))) (mg_ret γ).

Lemma g_pop_guar v γ : ms_guar i γ (g_pop v γ).
Proof. split; simpl; try done; [lia|apply hist_snoc|]. intros j Hj. by rewrite upd_ne. Qed.

Lemma inv_pop γ s q v :
  ms_inv ops γ s → unseen MsPop γ → is_Some (mg_guard γ i) → mg_pend γ i = None →
  mg_chain γ !! S (mg_head γ) = Some (q, Some v) →
  ms_inv ops (g_pop v γ) (ms_set_words q (ms_tail s) s).
Proof.
  intros HI Hi Hg Hpe Hq. pose proof (once_snoc γ s MsPop (Some v) HI Hi) as Honce.
  pose proof (lookup_lt_Some _ _ _ Hq) as Hlt. split; try (by apply HI); try done.
  - by exists (Some v).
  - intros k Hk. apply (mi_live _ _ _ HI). simpl in Hk. unfold mg_len in *. simpl in *. lia.
  - apply (mi_live_tail _ _ _ HI).
  - intros j k. simpl. destruct (decide (j = i)) as [->|Hne].
    + rewrite upd_eq. intros [= <-]. split; [done|]. split; [apply (mi_full _ _ _ HI); unfold mg_len; lia|]. split; [done|].
      intros j Hj. destruct (decide (j = i)) as [|Hne]; [done|]. rewrite upd_ne in Hj by done.
      apply (mi_pend _ _ _ HI) in Hj as (_ & _ & ? & _). lia.
    + rewrite upd_ne by done. intros Hj. destruct (mi_pend _ _ _ HI j k Hj) as (? & ? & ? & Huq).
      split; [done|]. split; [done|]. split; [lia|]. intros j' Hj'. destruct (decide (j' = i)) as [->|Hne'].
      * rewrite upd_eq in Hj'. injection Hj' as <-. lia.
      * rewrite upd_ne in Hj' by done. by apply Huq.
  - intros k Hk. apply (mi_full _ _ _ HI). simpl in Hk. unfold mg_len in *. simpl in *. lia.
  - intros k gs Hk. destruct (mi_ret _ _ _ HI k gs Hk) as (? & ? & ?). simpl. auto with lia.
  - pose proof (mi_fifo _ _ _ HI) as Hf. unfold queued in *. simpl. rewrite (drop_S _ _ _ Hq) in Hf. simpl in Hf.
    by apply fifo_pop.
  - unfold mg_len. simpl. rewrite length_app. simpl. pose proof (mi_count _ _ _ HI). unfold mg_len in *. lia.
Qed.

(** Taking the value of the new sentinel. *)
Definition g_take (k : nat) γ : msghost T :=
  mkMg (mg_chain γ) (mg_head γ) (mg_tail γ) (mg_live γ) (mg_full γ ∖ {[k]}) (mg_hist γ)
    (mg_own γ) (mg_guard γ) (mg_swing γ) (upd (mg_pend γ) i None) (mg_ret γ).

Lemma g_take_guar k γ : ms_guar i γ (g_take k γ).
Proof. split; simpl; try done; try apply hist_same. intros j Hj. by rewrite upd_ne. Qed.

Lemma take_node γ k j w :
  j ≠ k → node_at (g_take k γ) j w = node_at γ j w.
Proof.
  intros Hne. unfold node_at. f_equal. simpl. apply decide_ext. rewrite elem_of_difference, elem_of_singleton. naive_solver.
Qed.

Lemma inv_take γ s k q v :
  ms_inv ops γ s → mg_pend γ i = Some k → k ∈ mg_live γ → mg_chain γ !! k = Some (q, v) →
  ms_inv ops (g_take k γ) (ms_set_nodes (<[q := mkNode None (next_addr γ k)]> (ms_nodes s)) s).
Proof.
  intros HI Hp Hk Hq. destruct (mi_pend _ _ _ HI i k Hp) as (Hg & Hfull & Hle & Huq). split; try (by apply HI); try done.
  - apply (mi_live_tail _ _ _ HI).
  - intros j p w Hj Hpj. cbn [ms_nodes ms_set_nodes]. destruct (decide (j = k)) as [->|Hne].
    + assert (p = q) as -> by (simpl in Hpj; congruence). rewrite lookup_insert_eq. f_equal. unfold node_at. simpl.
      rewrite decide_False; [done|]. rewrite elem_of_difference, elem_of_singleton. naive_solver.
    + rewrite take_node by done. rewrite lookup_insert_ne; [by apply (mi_nodes _ _ _ HI)|].
      intros ->. apply Hne. by eapply (mi_inj _ _ _ HI).
  - intros j p w Hj. destruct (mi_own _ _ _ HI j p w Hj) as (? & Hn & Hl & ?). split; [done|]. cbn [ms_nodes ms_set_nodes].
    rewrite lookup_insert_ne; [done|]. intros ->. by apply (Hl k v Hk).
  - intros j k'. simpl. destruct (decide (j = i)) as [->|Hne]; [by rewrite upd_eq|]. rewrite upd_ne by done. intros Hj.
    destruct (mi_pend _ _ _ HI j k' Hj) as (? & ? & ? & Huq'). split; [done|].
    split; [apply elem_of_difference; split; [done|]; intros ->%elem_of_singleton; by apply Hne, Huq|]. split; [done|].
    intros j' Hj'. destruct (decide (j' = i)) as [->|]; [by rewrite upd_eq in Hj'|]. rewrite upd_ne in Hj' by done. by apply Huq'.
  - intros j Hj. simpl in *. apply elem_of_difference. split; [by apply (mi_full _ _ _ HI)|].
    intros ->%elem_of_singleton. lia.
  - simpl. intros j [Hj _]%elem_of_difference. by apply (mi_full_len _ _ _ HI).
Qed.

(** Retiring the old sentinel, which the tail has left. *)
Definition g_defer (k : nat) (gs : gset Z) γ : msghost T :=
  mkMg (mg_chain γ) (mg_head γ) (mg_tail γ) (mg_live γ) (mg_full γ) (mg_hist γ)
    (mg_own γ) (mg_guard γ) (mg_swing γ) (mg_pend γ) (mg_ret γ ++ [(k, gs)]).

Lemma g_defer_guar γ s k : ms_inv ops γ s → ms_guar i γ (g_defer k (ms_open s) γ).
Proof.
  intros HI. split; simpl; try done; try apply hist_same.
  intros j g k' _ Hg [Hk' Hr]. split; [done|]. simpl. intros gs [Hgs|Hgs]%elem_of_app; [by apply Hr|].
  apply list_elem_of_singleton in Hgs. injection Hgs as _ ->. apply (mi_open _ _ _ HI). by exists j.
Qed.

Lemma inv_defer γ s k p v :
  ms_inv ops γ s → k ∈ mg_live γ → (k < mg_head γ)%nat → p ≠ ms_tail s → mg_chain γ !! k = Some (p, v) →
  ms_inv ops (g_defer k (ms_open s) γ)
    (mkMs (ms_head s) (ms_tail s) (ms_nodes s) (ms_open s) (ms_guards s)
       (ms_retired s ++ [(p, ms_open s)]) (ms_dropped s)).
Proof.
  intros HI Hk Hlt Hne Hp. pose proof (ms_head_lt _ _ _ HI). destruct (mi_tail _ _ _ HI) as [w Hw].
  assert (k ≠ mg_tail γ) by congruence.
  split; try (by apply HI); simpl; [apply (mi_live_tail _ _ _ HI)|..].
  - intros q gs [Hq|Hq]%elem_of_app.
    + destruct (mi_retired _ _ _ HI q gs Hq) as (k' & x & ? & ?). exists k', x. split; [apply elem_of_app; by left|done].
    + apply list_elem_of_singleton in Hq. injection Hq as -> ->. exists k, v. split; [|done]. apply elem_of_app. right.
      by apply list_elem_of_singleton.
  - intros k' gs [Hq|Hq]%elem_of_app; [by apply (mi_ret _ _ _ HI _ gs)|]. apply list_elem_of_singleton in Hq.
    injection Hq as -> ->. split; [done|]. split; [done|]. destruct (mi_lag _ _ _ HI) as [?|[? _]]; lia.
Qed.

(** ** Closing the guard *)

Definition survives (dead : list Z) γ (k : nat) : Prop :=
  match mg_chain γ !! k with Some (p, _) => p ∉ dead | None => True end.

#[local] Instance survives_dec dead γ k : Decision (survives dead γ k).
Proof. unfold survives. destruct (mg_chain γ !! k) as [[??]|]; apply _. Defined.

Definition g_unpin (dead : list Z) γ : msghost T :=
  mkMg (mg_chain γ) (mg_head γ) (mg_tail γ) (filter (survives dead γ) (mg_live γ)) (mg_full γ) (mg_hist γ)
    (mg_own γ) (upd (mg_guard γ) i None) (mg_swing γ) (mg_pend γ) (filter (λ r, survives dead γ r.1) (mg_ret γ)).

Lemma lookup_foldr_delete {A} (m : gmap Z A) dead p : p ∉ dead → foldr delete m dead !! p = m !! p.
Proof.
  induction dead as [|q dead IH]; [done|]. intros [Hne Hp]%not_elem_of_cons. simpl.
  rewrite lookup_delete_ne by done. by apply IH.
Qed.

Section unpin.
Context `{C : Collector} (EC : epoch_contract C) γ s (g : Z).
Context (HI : ms_inv ops γ s) (Hg : mg_guard γ i = Some g).
Context (Hsw : mg_swing γ i = None) (Hpe : mg_pend γ i = None).

Definition unpin_dead : list Z := collect (ms_retired s) (ms_open s ∖ {[g]}).

(** A destroyed node was retired, and no guard that is still open knew it. *)
Lemma dead_retired p :
  p ∈ unpin_dead → ∃ k v gs, (k, gs) ∈ mg_ret γ ∧ mg_chain γ !! k = Some (p, v) ∧
    ∀ j g', j ≠ i → mg_guard γ j = Some g' → g' ∉ gs.
Proof using EC HI Hg.
  intros (gs & Hr & Hd)%EC. destruct (mi_retired _ _ _ HI p gs Hr) as (k & v & Hk & Hv). exists k, v, gs.
  split; [done|]. split; [done|]. intros j g' Hj Hg' Hin. apply (Hd g' Hin). apply elem_of_difference.
  split; [by apply (mi_open _ _ _ HI); exists j|]. intros ->%elem_of_singleton. by apply Hj, (mi_guard _ _ _ HI i g).
Qed.

(** Nodes kept for another guard survive. *)
Lemma kept_survives j g' k : j ≠ i → mg_guard γ j = Some g' → kept γ g' k → survives unpin_dead γ k.
Proof using EC HI Hg.
  intros Hj Hg' [Hk Hr]. unfold survives. destruct (mg_chain γ !! k) as [[p v]|] eqn:Hp; [|done]. intros Hd.
  destruct (dead_retired p Hd) as (k' & v' & gs & Hr' & Hp' & Hgs). destruct (mi_ret _ _ _ HI k' gs Hr') as (Hk' & _).
  rewrite <- (mi_inj _ _ _ HI k k' p v v' Hk Hk' Hp Hp') in Hr'. by apply (Hgs j g' Hj Hg'), Hr.
Qed.

Lemma unpin_live k :
  k ∈ mg_live γ → (mg_head γ ≤ k)%nat ∨ k = mg_tail γ → k ∈ mg_live (g_unpin unpin_dead γ).
Proof using EC HI Hg.
  intros Hk Hh. simpl. apply elem_of_filter. split; [|done]. unfold survives.
  destruct (mg_chain γ !! k) as [[p v]|] eqn:Hp; [|done]. intros Hd.
  destruct (dead_retired p Hd) as (k' & v' & gs & Hr' & Hp' & _). destruct (mi_ret _ _ _ HI k' gs Hr') as (Hk' & ? & ?).
  pose proof (mi_inj _ _ _ HI k k' p v v' Hk Hk' Hp Hp'). lia.
Qed.

Lemma unpin_guar : ms_guar i γ (g_unpin unpin_dead γ).
Proof using EC HI Hg.
  split; simpl; try done; try apply hist_same.
  - intros j Hj. by rewrite upd_ne.
  - intros j g' k Hj Hg' Hk. split; simpl.
    + apply elem_of_filter. split; [by eapply kept_survives|apply Hk].
    + intros gs [_ Hr]%list_elem_of_filter. by apply Hk.
Qed.

Lemma inv_unpin : ms_inv ops (g_unpin unpin_dead γ) (ms_collect g s).
Proof using EC HI Hg Hsw Hpe.
  assert (∀ k, k ∈ mg_live (g_unpin unpin_dead γ) → k ∈ mg_live γ ∧ survives unpin_dead γ k) as Hlive.
  { simpl. intros k [??]%elem_of_filter. done. }
  split; try (by apply HI); try done.
  - intros k Hk. apply unpin_live; [by apply (mi_live _ _ _ HI)|]. left. apply Hk.
  - apply unpin_live; [apply (mi_live_tail _ _ _ HI)|by right].
  - intros k [Hk _]%Hlive. by apply (mi_live_len _ _ _ HI).
  - intros k p v [Hk Hs]%Hlive Hp. cbn [ms_collect ms_nodes]. fold unpin_dead. simpl in Hp. unfold survives in Hs.
    rewrite Hp in Hs. rewrite lookup_foldr_delete by done. by apply (mi_nodes _ _ _ HI).
  - intros k j p v w [Hk _]%Hlive [Hj _]%Hlive. by apply (mi_inj _ _ _ HI).
  - intros j p v Hj. destruct (mi_own _ _ _ HI j p v Hj) as (? & Hn & Hl & ?). split; [done|]. split.
    + cbn [ms_collect ms_nodes]. fold unpin_dead. rewrite lookup_foldr_delete; [done|]. intros Hd.
      destruct (dead_retired p Hd) as (k & w & gs & Hr & Hw & _). apply (Hl k w); [by apply (mi_ret _ _ _ HI k gs)|done].
    + split; [|done]. intros k w [Hk _]%Hlive. by apply Hl.
  - intros j k Hj. simpl in *. rewrite upd_ne by congruence. by eapply (mi_swing _ _ _ HI).
  - intros j k Hj. simpl in *. rewrite upd_ne by congruence. by apply (mi_pend _ _ _ HI).
  - intros g'. cbn [ms_collect ms_open mg_guard g_unpin]. rewrite elem_of_difference, elem_of_singleton, (mi_open _ _ _ HI). split.
    + intros [[j Hj] Hne]. exists j. rewrite upd_ne; [done|]. congruence.
    + intros [j Hj]. destruct (decide (j = i)) as [->|Hne]; [by rewrite upd_eq in Hj|]. rewrite upd_ne in Hj by done.
      split; [eauto|]. intros ->. by apply Hne, (mi_guard _ _ _ HI i g).
  - intros j g' Hj. simpl in *. destruct (decide (j = i)) as [->|Hne]; [by rewrite upd_eq in Hj|]. rewrite upd_ne in Hj by done.
    destruct (mi_guard _ _ _ HI j g' Hj) as [? Huq]. split; [done|]. intros j' Hj'.
    destruct (decide (j' = i)) as [->|]; [by rewrite upd_eq in Hj'|]. rewrite upd_ne in Hj' by done. by apply Huq.
  - cbn [ms_collect ms_retired]. fold unpin_dead. intros p gs [Hd Hr]%list_elem_of_filter. simpl in Hd.
    destruct (mi_retired _ _ _ HI p gs Hr) as (k & v & Hk & Hp). exists k, v. split; [|done]. simpl.
    apply list_elem_of_filter. split; [|done]. simpl. unfold survives. by rewrite Hp.
  - simpl. intros k gs [Hs Hr]%list_elem_of_filter. destruct (mi_ret _ _ _ HI k gs Hr). split; [|done].
    by apply elem_of_filter.
Qed.

End unpin.

End steps.
