(* ===== verification/MsSpec.v ===== *)
(** * Linearizability of the Michael-Scott baseline

    The collector keeps the documented contract of the epoch library.  In every
    execution that retires no node while the tail still points to it, the calls of any
    number of threads are linearizable: each takes effect once, at one of its own
    accesses, with the result it returns, and the history is one of a sequential FIFO
    queue; no thread touches a destroyed node, and the retry loops are bounded by the
    number of calls.  The code does not exclude the other executions: one of them ends
    in a use after free. *)

From S2P Require Import Prelude Prog Conc Layout Head Geometry MpmcBlock Instances MsQueue MsInv MsSteps.

(** No retired node is the one the tail points to. *)
Definition tail_kept {T} (s : msmem T) : Prop := ms_tail s ∉ (ms_retired s).*1.

#[export] Instance tail_kept_dec {T} (s : msmem T) : Decision (tail_kept s).
Proof. unfold tail_kept. apply _. Defined.

(** The queue's accesses, but for retirements of the node the tail points to. *)
Definition kept_handler {T} `{BoxAllocator} `{Collector} : Handler (msE T) (msmem T) := λ X e s,
  match e in msE _ X return reply (msmem T) X with
  | MDefer p => if decide (p = ms_tail s) then Exit else ms_handler unit (MDefer p) s
  | e => ms_handler _ e s
  end.

Section calls.
Context {T : Type} `{BoxAllocator} `{C : Collector} (EC : epoch_contract C).
Context (ops : list (msop (T:=T))) (i : nat).
Implicit Types (γ : msghost T) (s : msmem T).
Notation N := (length ops).
Notation hk := (handle (Handler := kept_handler)).
Notation safe := (cwp (HH := kept_handler) (ms_inv ops) ms_rely ms_guar never i).

(** Where a thread is in its call. *)
Record local (own : option (Z * T)) (guard : option Z) (swing pend : option nat) γ : Prop := {
  lo_own : mg_own γ i = own;
  lo_guard : mg_guard γ i = guard;
  lo_swing : mg_swing γ i = swing;
  lo_pend : mg_pend γ i = pend
}.

Notation idle := (local None None None None).

Lemma local_rely o g w p γ γ' : local o g w p γ → ms_rely i γ γ' → local o g w p γ'.
Proof. intros [??? ?] Hr. destruct Hr. split; congruence. Qed.

Lemma unseen_rely o γ γ' : unseen ops i o γ → ms_rely i γ γ' → unseen ops i o γ'.
Proof.
  intros [Hi HN] Hr. destruct (mr_hist _ _ _ Hr) as (l & E & Hl). split; [|done].
  rewrite E, threads_app, not_elem_of_app. done.
Qed.

Lemma seen_rely γ γ' e : e ∈ mg_hist γ → ms_rely i γ γ' → e ∈ mg_hist γ'.
Proof. intros He Hr. destruct (mr_hist _ _ _ Hr) as (l & -> & _). apply elem_of_app. by left. Qed.

Lemma guar_refl γ : ms_guar i γ γ.
Proof. split; try done. apply hist_same. Qed.

(** A node reached under the thread's guard [g]. *)
Definition reached (g : Z) γ (k : nat) (p : Z) : Prop := kept γ g k ∧ ∃ v, mg_chain γ !! k = Some (p, v).

Lemma reached_rely g γ γ' k p :
  mg_guard γ i = Some g → reached g γ k p → ms_rely i γ γ' → reached g γ' k p.
Proof.
  intros Hg [Hk [v Hv]] Hr. split; [by apply (mr_kept _ _ _ Hr)|]. exists v.
  eapply chain_lookup_prefix; [apply Hr|done].
Qed.

Lemma reached_inj g γ s k j p : ms_inv ops γ s → reached g γ k p → reached g γ j p → k = j.
Proof. intros HI [[Hk _] [v Hv]] [[Hj _] [w Hw]]. by eapply (mi_inj _ _ _ HI). Qed.

Lemma reached_tail g γ s : ms_inv ops γ s → reached g γ (mg_tail γ) (ms_tail s).
Proof. intros HI. split; [eapply kept_ahead; eauto|apply (mi_tail _ _ _ HI)]. Qed.

Lemma reached_head g γ s : ms_inv ops γ s → reached g γ (mg_head γ) (ms_head s).
Proof.
  intros HI. pose proof (ms_head_lt _ _ _ HI). split; [|apply (mi_head _ _ _ HI)]. eapply kept_ahead; [done|lia].
Qed.

Lemma handle_next γ s k p :
  ms_inv ops γ s → k ∈ mg_live γ → (∃ v, mg_chain γ !! k = Some (p, v)) → hk (MLoad (MNext p)) s = Next (next_addr γ k) s.
Proof.
  intros HI Hk [v Hv]. unfold handle, kept_handler, ms_handler, ms_read. by rewrite (mi_nodes _ _ _ HI k p v Hk Hv).
Qed.

Lemma handle_cas_next γ s k p v n :
  ms_inv ops γ s → k ∈ mg_live γ → mg_chain γ !! k = Some (p, v) →
  hk (MCas (MNext p) 0 n) s =
    if next_addr γ k =? 0
    then Next (inl (next_addr γ k)) (ms_set_nodes (<[p := mkNode (data (node_at γ k v)) n]> (ms_nodes s)) s)
    else Next (inr (next_addr γ k)) s.
Proof.
  intros HI Hk Hv. unfold handle, kept_handler, ms_handler, ms_read, ms_write. rewrite (mi_nodes _ _ _ HI k p v Hk Hv). simpl.
  by destruct (next_addr γ k =? 0).
Qed.

Lemma handle_cas_tail s old new :
  hk (MCas MTail old new) s =
    if ms_tail s =? old then Next (inl (ms_tail s)) (ms_set_words (ms_head s) new s) else Next (inr (ms_tail s)) s.
Proof. unfold handle, kept_handler, ms_handler. simpl. by destruct (ms_tail s =? old). Qed.

Lemma handle_cas_head s old new :
  hk (MCas MHead old new) s =
    if ms_head s =? old then Next (inl (ms_head s)) (ms_set_words new (ms_tail s) s) else Next (inr (ms_head s)) s.
Proof. unfold handle, kept_handler, ms_handler. simpl. by destruct (ms_head s =? old). Qed.

(** A call that has taken effect and has only its guard to close. *)
Definition closing (g : Z) (o : msop) (r : option T) γ : Prop :=
  (i, o, r) ∈ mg_hist γ ∧ local None (Some g) None None γ.

Definition returned (o : msop) (r : option T) γ : Prop := (i, o, r) ∈ mg_hist γ ∧ idle γ.

Lemma closing_rely g o r γ γ' : closing g o r γ → ms_rely i γ γ' → closing g o r γ'.
Proof. intros [Hh Hl] Hr. split; [by eapply seen_rely|by eapply local_rely]. Qed.

Lemma safe_unpin g o r γ :
  closing g o r γ → safe (act (MUnpin g)) (λ _ γ', returned o r γ') γ.
Proof.
  intros Hc. change (act (MUnpin g)) with (act (E := msE T) (MUnpin g) ≫= Ret). apply cwp_act_bind; [done|]. intros γ' s Hr HI.
  destruct (closing_rely _ _ _ _ _ Hc Hr) as [Hh [Ho Hg Hsw Hpe]].
  exists (g_unpin i (unpin_dead s g) γ'). split; [exact (unpin_guar ops i EC γ' s g HI Hg)|].
  split; [exact (inv_unpin ops i EC γ' s g HI Hg Hsw Hpe)|].
  split; [done|]. split; try done. simpl. by rewrite upd_eq.
Qed.

(** ** [push] *)

Definition pushing (n : Z) (v : T) (g : Z) γ : Prop :=
  unseen ops i (MsPush v) γ ∧ local (Some (n, v)) (Some g) None None γ.

Lemma pushing_rely n v g γ γ' : pushing n v g γ → ms_rely i γ γ' → pushing n v g γ'.
Proof. intros [??] Hr. split; [by eapply unseen_rely|by eapply local_rely]. Qed.

(** The second exchange of a successful [push]. *)
Lemma safe_swing n v g k p γ :
  (i, MsPush v, None) ∈ mg_hist γ → local None (Some g) (Some k) None γ →
  reached g γ k p → reached g γ (S k) n →
  safe (act (MCas MTail p n);; Ret (inr tt : unit + unit)) (λ r γ',
    match r with inr _ => closing g (MsPush v) None γ' | inl _ => False end) γ.
Proof.
  intros Hh Hl Hk Hk'. apply cwp_act_bind; [done|]. intros γ' s Hr HI. rewrite handle_cas_tail.
  assert (mg_guard γ i = Some g) as Hg by exact (lo_guard _ _ _ _ _ Hl).
  pose proof (seen_rely _ _ _ Hh Hr) as Hh'. destruct (local_rely _ _ _ _ _ _ Hl Hr) as [Lo Lg Lw Lp].
  pose proof (reached_rely _ _ _ _ _ Hg Hk Hr) as Hk1. destruct (reached_rely _ _ _ _ _ Hg Hk' Hr) as [_ [w Hw]].
  pose proof (reached_tail g _ _ HI) as Ht.
  assert (∀ t, local None (Some g) None None (g_swing i t None γ')) as Hloc.
  { intros t. split; try done. simpl. by rewrite upd_eq. }
  destruct (Z.eqb_spec (ms_tail s) p) as [E|Hne].
  - rewrite E in Ht. pose proof (reached_inj _ _ _ _ _ _ HI Ht Hk1) as Etk. rewrite <- Etk in Hw.
    exists (g_swing i (S (mg_tail γ')) None γ'). split; [apply g_swing_guar; lia|].
    split; [eapply inv_swing; [done|by right|exact Hw]|]. split; [done|apply Hloc].
  - exists (g_swing i (mg_tail γ') None γ'). split; [by apply g_swing_guar|].
    split; [eapply inv_unswing; [done|exact Lw|]|split; [done|apply Hloc]].
    intros Ek. apply Hne. destruct Hk1 as [_ [x Hx]]. destruct Ht as [_ [y Hy]]. rewrite <- Ek in Hy. congruence.
Qed.

(** A retry: another call has linked a node or moved the tail since. *)
Definition retried n v g γ γ' : Prop :=
  pushing n v g γ' ∧ (mg_len γ + mg_tail γ < mg_len γ' + mg_tail γ')%nat ∧
  (mg_len γ' ≤ S N)%nat ∧ (mg_tail γ' ≤ N)%nat.

Lemma rely_len γ γ' : ms_rely i γ γ' → (mg_len γ ≤ mg_len γ')%nat.
Proof. intros Hr. apply prefix_length, Hr. Qed.

Lemma retried_intro n v g γ γ' s :
  pushing n v g γ' → ms_inv ops γ' s → (mg_len γ + mg_tail γ < mg_len γ' + mg_tail γ')%nat → retried n v g γ γ'.
Proof.
  intros Hp HI Hlt. pose proof (ms_bound _ _ _ HI). pose proof (ms_tail_lt _ _ _ HI). split; [done|]. lia.
Qed.

(** The tail lags: it is helped forward. *)
Lemma safe_help n v g γ γ1 k p q :
  pushing n v g γ1 → ms_rely i γ γ1 → reached g γ1 k p → (mg_tail γ ≤ k ≤ mg_tail γ1)%nat →
  (∃ w, mg_chain γ1 !! S k = Some (q, w)) →
  safe (act (MCas MTail p q);; Ret (inl tt : unit + unit)) (λ r γ',
    match r with inr _ => closing g (MsPush v) None γ' | inl _ => retried n v g γ γ' end) γ1.
Proof.
  intros Hp Hr Hk Hkt [w Hw]. apply cwp_act_bind; [done|]. intros γ2 s Hr2 HI. rewrite handle_cas_tail.
  assert (mg_guard γ1 i = Some g) as Hg by exact (lo_guard _ _ _ _ _ (proj2 Hp)).
  pose proof (reached_rely _ _ _ _ _ Hg Hk Hr2) as Hk2. pose proof (pushing_rely _ _ _ _ _ Hp Hr2) as Hp2.
  apply (chain_lookup_prefix _ _ _ _ (mr_chain _ _ _ Hr2)) in Hw.
  pose proof (rely_len _ _ (rg_trans _ _ ms_rg i _ _ _ Hr Hr2)). pose proof (mr_tail _ _ _ Hr2).
  pose proof (reached_tail g _ _ HI) as Ht. destruct (Z.eqb_spec (ms_tail s) p) as [E|Hne].
  - rewrite E in Ht. pose proof (reached_inj _ _ _ _ _ _ HI Ht Hk2) as Etk. rewrite <- Etk in Hw.
    assert (ms_inv ops (g_swing i (S (mg_tail γ2)) (mg_swing γ2 i) γ2) (ms_set_words (ms_head s) q s)) as HI'
      by (eapply inv_swing; [done|by left|exact Hw]).
    eexists. split; [|split; [exact HI'|]]; [apply g_swing_guar; lia|]. eapply retried_intro; [|exact HI'|].
    + destruct Hp2 as [Hu [Lo Lg Lw Lp]]. split; [done|]. split; try done. simpl. by rewrite upd_eq.
    + unfold mg_len in *. simpl. lia.
  - exists γ2. split; [apply guar_refl|]. split; [done|]. eapply retried_intro; [done|done|].
    assert (k ≠ mg_tail γ2); [|lia]. intros Ek. apply Hne.
    destruct Hk2 as [_ [x Hx]], Ht as [_ [y Hy]]. rewrite <- Ek in Hy. congruence.
Qed.

(** The exchange on the last node: it links the new node, or another one was faster. *)
Lemma safe_link n v g γ γ1 k p :
  pushing n v g γ1 → ms_rely i γ γ1 → reached g γ1 k p → (mg_tail γ ≤ k ≤ mg_tail γ1)%nat → S k = mg_len γ1 →
  safe (r ← act (MCas (MNext p) 0 n);
        match r with
        | inl _ => act (MCas MTail p n);; Ret (inr tt)
        | inr _ => Ret (inl tt : unit + unit)
        end) (λ r γ', match r with inr _ => closing g (MsPush v) None γ' | inl _ => retried n v g γ γ' end) γ1.
Proof.
  intros Hp Hr Hk Hkt Hend. apply cwp_act_bind; [done|]. intros γ2 s Hr2 HI.
  assert (mg_guard γ1 i = Some g) as Hg by exact (lo_guard _ _ _ _ _ (proj2 Hp)).
  destruct (reached_rely _ _ _ _ _ Hg Hk Hr2) as [[Hk2 Hkr] [w Hw]].
  destruct (pushing_rely _ _ _ _ _ Hp Hr2) as [Hu [Lo Lg Lw Lp]]. rewrite (handle_cas_next γ2 s k p w n HI Hk2 Hw).
  pose proof (mi_live_len _ _ _ HI k Hk2) as Hlt. pose proof (mr_tail _ _ _ Hr2). pose proof (ms_tail_lt _ _ _ HI).
  pose proof (rely_len _ _ Hr). pose proof (rely_len _ _ Hr2). pose proof (next_addr_zero _ _ _ _ HI Hlt) as Hz.
  destruct (Z.eqb_spec (next_addr γ2 k) 0) as [E|Hne].
  - apply Hz in E. assert (k = mg_tail γ2) as -> by lia.
    exists (g_append i n v γ2). split; [apply g_append_guar|]. split; [by apply inv_link; [..|eexists]|].
    eapply cwp_mono; [apply (safe_swing n v g (mg_tail γ2) p)|by intros []].
    + simpl. apply elem_of_app. right. apply list_elem_of_singleton. done.
    + split; simpl; try done; by rewrite upd_eq.
    + split; [split; [apply link_live_new; by right|exact Hkr]|]. exists w. by apply link_lookup.
    + split; [split; [apply link_live_new; by left|]|].
      * intros gs Hgs. destruct (mi_ret _ _ _ HI _ _ Hgs) as (Hlv%(mi_live_len _ _ _ HI) & _). lia.
      * exists (Some v). simpl. rewrite E. unfold mg_len. by rewrite lookup_app_r, Nat.sub_diag.
  - exists γ2. split; [apply guar_refl|]. split; [done|]. eapply retried_intro; [by split|done|].
    assert (S k ≠ mg_len γ2) by (intros E; by apply Hne, Hz). lia.
Qed.

Lemma safe_push_round n v g γ :
  pushing n v g γ →
  safe (ms_push_round n tt)
    (λ r γ', match r with inr _ => closing g (MsPush v) None γ' | inl _ => retried n v g γ γ' end) γ.
Proof.
  intros Hp. unfold ms_push_round. apply cwp_act_bind; [done|]. intros γ1 s1 Hr1 HI1.
  exists γ1. split; [apply guar_refl|]. split; [done|]. pose proof (reached_tail g _ _ HI1) as Hk.
  set (k := mg_tail γ1) in *. set (p := ms_tail s1) in *. pose proof (mr_tail _ _ _ Hr1) as Ht1.
  pose proof (pushing_rely _ _ _ _ _ Hp Hr1) as Hp1.
  assert (mg_guard γ1 i = Some g) as Hg by exact (lo_guard _ _ _ _ _ (proj2 Hp1)).
  apply cwp_act_bind; [done|]. intros γ2 s2 Hr2 HI2. pose proof (rg_trans _ _ ms_rg i _ _ _ Hr1 Hr2) as Hr.
  pose proof (reached_rely _ _ _ _ _ Hg Hk Hr2) as Hk2. pose proof (pushing_rely _ _ _ _ _ Hp1 Hr2) as Hp2.
  rewrite (handle_next γ2 s2 k p HI2 (proj1 (proj1 Hk2)) (proj2 Hk2)). exists γ2. split; [apply guar_refl|]. split; [done|].
  pose proof (mr_tail _ _ _ Hr2) as Ht2. fold k in Ht2. pose proof (mi_live_len _ _ _ HI2 k (proj1 (proj1 Hk2))) as Hlt.
  pose proof (next_addr_zero _ _ _ _ HI2 Hlt) as Hz. destruct (Z.eqb_spec (next_addr γ2 k) 0) as [E|Hne].
  - apply safe_link with k; try done. by apply Hz.
  - apply safe_help with k; try done. unfold next_addr in Hne |- *.
    destruct (mg_chain γ2 !! S k) as [[q w]|]; [by exists w|done].
Qed.

Lemma safe_push_loop m n v g γ :
  pushing n v g γ → (mg_len γ ≤ S N)%nat → (mg_tail γ ≤ N)%nat → (2 * N + 1 < mg_len γ + mg_tail γ + m)%nat →
  safe (loop m (ms_push_round n) tt) (λ _ γ', closing g (MsPush v) None γ') γ.
Proof.
  revert γ. induction m as [|m IH]; intros γ Hp Hl Ht Hm; [lia|].
  cbn [loop]. apply cwp_bind. eapply cwp_mono; [by apply safe_push_round|].
  intros [[]|[]] γ'; [|done]. intros (Hp' & Hlt & Hl' & Ht'). apply IH; [done|done|done|lia].
Qed.

Lemma safe_push fuel v γ :
  unseen ops i (MsPush v) γ → idle γ → (2 * N + 1 < fuel)%nat →
  safe (ms_call fuel (MsPush v)) (returned (MsPush v)) γ.
Proof.
  intros Hu Hl Hf. apply cwp_bind. unfold ms_push. apply cwp_act_bind; [done|]. intros γ1 s1 Hr1 HI1.
  pose proof (unseen_rely _ _ _ Hu Hr1) as Hu1. destruct (local_rely _ _ _ _ _ _ Hl Hr1) as [Lo Lg Lw Lp].
  set (n := box_at (dom (ms_nodes s1))). exists (g_own i (Some (n, v)) γ1). split; [apply g_own_guar|].
  split; [by apply (inv_owned ops i γ1 s1 n v)|].
  assert (local (Some (n, v)) None None None (g_own i (Some (n, v)) γ1)) as Hl1.
  { split; try done. simpl. by rewrite upd_eq. }
  apply cwp_act_bind; [done|]. intros γ2 s2 Hr2 HI2.
  destruct (local_rely _ _ _ _ _ _ Hl1 Hr2) as [Lo2 Lg2 Lw2 Lp2]. pose proof (unseen_rely _ (g_own i (Some (n, v)) γ1) γ2 Hu1 Hr2) as Hu2.
  set (g := ms_guards s2). exists (g_guard i (Some g) γ2). split; [apply g_guard_guar|]. split; [by apply inv_pin|].
  pose proof (ms_bound _ _ _ HI2). pose proof (ms_tail_lt _ _ _ HI2). unfold mg_len in *.
  apply cwp_bind. eapply cwp_mono; [apply (safe_push_loop fuel n v g); unfold mg_len; simpl; try lia|].
  { split; [done|]. split; try done. simpl. by rewrite upd_eq. }
  intros [] γ3 Hc. eapply cwp_mono; [by apply (safe_unpin g (MsPush v) None)|]. intros [] γ4 Hd. exact Hd.
Qed.

(** ** [try_pop] *)

Definition popping (g : Z) γ : Prop := unseen ops i MsPop γ ∧ local None (Some g) None None γ.

Lemma popping_rely g γ γ' : popping g γ → ms_rely i γ γ' → popping g γ'.
Proof. intros [??] Hr. split; [by eapply unseen_rely|by eapply local_rely]. Qed.

(** After the exchange on the head: the value is taken and the old sentinel retired. *)
Lemma safe_take g v k p q γ :
  (i, MsPop, Some v) ∈ mg_hist γ → local None (Some g) None (Some (S k)) γ →
  reached g γ k p → kept γ g (S k) → mg_chain γ !! S k = Some (q, Some v) → (k < mg_head γ)%nat →
  safe (value ← act (MTake q); act (MDefer p);; Ret (inr value : unit + option T)) (λ r γ',
    match r with inr x => closing g MsPop x γ' | inl _ => False end) γ.
Proof.
  intros Hh Hl Hk Hlive Hq Hlt. assert (mg_guard γ i = Some g) as Hg by exact (lo_guard _ _ _ _ _ Hl).
  apply cwp_act_bind; [done|]. intros γ1 s1 Hr1 HI1.
  pose proof (seen_rely _ _ _ Hh Hr1) as Hh1. destruct (local_rely _ _ _ _ _ _ Hl Hr1) as [Lo Lg Lw Lp].
  pose proof (reached_rely _ _ _ _ _ Hg Hk Hr1) as Hk1. apply (mr_kept _ _ _ Hr1 _ _ Hg) in Hlive as [Hlive _].
  apply (chain_lookup_prefix _ _ _ _ (mr_chain _ _ _ Hr1)) in Hq. pose proof (mr_head _ _ _ Hr1) as Hhd.
  assert (hk (MTake q) s1 = Next (Some v) (ms_set_nodes (<[q := mkNode None (next_addr γ1 (S k))]> (ms_nodes s1)) s1)) as ->.
  { unfold handle, kept_handler, ms_handler. rewrite (mi_nodes _ _ _ HI1 (S k) q _ Hlive Hq). simpl.
    destruct (mi_pend _ _ _ HI1 i _ Lp) as (_ & Hfull & _). unfold node_at. by rewrite decide_True. }
  exists (g_take i (S k) γ1). split; [apply g_take_guar|]. split; [by eapply inv_take|].
  assert (local None (Some g) None None (g_take i (S k) γ1)) as Hl2 by (split; try done; simpl; by rewrite upd_eq).
  apply cwp_act_bind; [done|]. intros γ2 s2 Hr2 HI2. pose proof (local_rely _ _ _ _ _ _ Hl2 Hr2) as Hl3.
  destruct (reached_rely g (g_take i (S k) γ1) γ2 k p (lo_guard _ _ _ _ _ Hl2) Hk1 Hr2) as [[Hk2 _] [w Hw]].
  pose proof (mr_head _ _ _ Hr2) as Hhd2. unfold handle, kept_handler. case_decide as Etail; [done|].
  exists (g_defer k (ms_open s2) γ2). split; [by apply (g_defer_guar ops)|].
  split; [apply (inv_defer _ γ2 s2 k p w); [done|done|simpl in Hhd2; lia|done|done]|].
  split; [by apply (seen_rely (g_take i (S k) γ1) γ2 (i, MsPop, Some v))|]. by destruct Hl3.
Qed.

Definition again g γ γ' : Prop := popping g γ' ∧ (mg_head γ < mg_head γ' ≤ N)%nat.

Lemma safe_pop_cas g γ γ1 k p q v :
  popping g γ1 → reached g γ1 k p → mg_chain γ1 !! S k = Some (q, Some v) → (mg_head γ ≤ k ≤ mg_head γ1)%nat →
  safe (r ← act (MCas MHead p q);
        match r with
        | inl _ => value ← act (MTake q); act (MDefer p);; Ret (inr value : unit + option T)
        | inr _ => Ret (inl tt)
        end) (λ r γ', match r with inr x => closing g MsPop x γ' | inl _ => again g γ γ' end) γ1.
Proof.
  intros Hp Hk Hq Hkh. apply cwp_act_bind; [done|]. intros γ2 s Hr HI. rewrite handle_cas_head.
  assert (mg_guard γ1 i = Some g) as Hg by exact (lo_guard _ _ _ _ _ (proj2 Hp)).
  pose proof (reached_rely _ _ _ _ _ Hg Hk Hr) as Hk2. destruct (popping_rely _ _ _ Hp Hr) as [Hu [Lo Lg Lw Lp]].
  apply (chain_lookup_prefix _ _ _ _ (mr_chain _ _ _ Hr)) in Hq. pose proof (reached_head g _ _ HI) as Hhd.
  pose proof (mr_head _ _ _ Hr). pose proof (ms_head_lt _ _ _ HI) as Hlt. pose proof (ms_bound _ _ _ HI).
  destruct (Z.eqb_spec (ms_head s) p) as [E|Hne].
  - rewrite E in Hhd. pose proof (reached_inj _ _ _ _ _ _ HI Hhd Hk2) as Ek. rewrite <- Ek in Hq.
    exists (g_pop i v γ2). split; [apply g_pop_guar|].
    split; [apply inv_pop; [done|done|by rewrite Lg; eexists|done|done]|]. rewrite <- Ek in Hk2.
    eapply cwp_mono; [apply (safe_take g v (mg_head γ2) p q)|by intros []].
    + simpl. apply elem_of_app. right. by apply list_elem_of_singleton.
    + split; try done. simpl. by rewrite upd_eq.
    + exact Hk2.
    + apply (kept_ahead _ _ _ _ _ HI). apply lookup_lt_Some in Hq. unfold mg_len. lia.
    + exact Hq.
    + simpl. lia.
  - exists γ2. split; [apply guar_refl|]. split; [done|]. split; [by split|].
    assert (k ≠ mg_head γ2); [|lia]. intros Ek. apply Hne.
    destruct Hk2 as [_ [x Hx]], Hhd as [_ [y Hy]]. rewrite <- Ek in Hy. congruence.
Qed.

Lemma safe_pop_round g γ :
  popping g γ →
  safe (ms_pop_round tt) (λ r γ', match r with inr x => closing g MsPop x γ' | inl _ => again g γ γ' end) γ.
Proof.
  intros Hp. unfold ms_pop_round. apply cwp_act_bind; [done|]. intros γ1 s1 Hr1 HI1.
  exists γ1. split; [apply guar_refl|]. split; [done|]. pose proof (reached_head g _ _ HI1) as Hk.
  set (k := mg_head γ1) in *. set (p := ms_head s1) in *. pose proof (mr_head _ _ _ Hr1) as Hh1.
  pose proof (popping_rely _ _ _ Hp Hr1) as Hp1.
  assert (mg_guard γ1 i = Some g) as Hg by exact (lo_guard _ _ _ _ _ (proj2 Hp1)).
  apply cwp_act_bind; [done|]. intros γ2 s2 Hr2 HI2.
  pose proof (reached_rely _ _ _ _ _ Hg Hk Hr2) as Hk2. pose proof (popping_rely _ _ _ Hp1 Hr2) as Hp2.
  rewrite (handle_next γ2 s2 k p HI2 (proj1 (proj1 Hk2)) (proj2 Hk2)). pose proof (mr_head _ _ _ Hr2) as Hh2. fold k in Hh2.
  pose proof (mi_live_len _ _ _ HI2 k (proj1 (proj1 Hk2))) as Hlt. pose proof (next_addr_zero _ _ _ _ HI2 Hlt) as Hz.
  pose proof (ms_head_lt _ _ _ HI2) as Hhl. destruct (Z.eqb_spec (next_addr γ2 k) 0) as [E|Hne].
  - exists (g_hist i MsPop None γ2). split; [apply g_hist_guar|].
    split; [apply inv_none; [done|apply Hp2|apply Hz in E; lia]|]. split; [|by destruct Hp2 as [_ []]; split].
    simpl. apply elem_of_app. right. by apply list_elem_of_singleton.
  - exists γ2. split; [apply guar_refl|]. split; [done|].
    destruct (mg_chain γ2 !! S k) as [[q w]|] eqn:Hq; [|unfold next_addr in Hne; rewrite Hq in Hne; done].
    destruct (mi_value _ _ _ HI2 _ _ _ Hq) as [v ->]. replace (next_addr γ2 k) with q by (unfold next_addr; by rewrite Hq).
    eapply safe_pop_cas; [done|exact Hk2|exact Hq|lia].
Qed.

Lemma safe_pop_loop m g γ :
  popping g γ → (mg_head γ ≤ N)%nat → (N < mg_head γ + m)%nat →
  safe (loop m ms_pop_round tt) (λ x γ', closing g MsPop x γ') γ.
Proof.
  revert γ. induction m as [|m IH]; intros γ Hp Hh Hm; [lia|].
  cbn [loop]. apply cwp_bind. eapply cwp_mono; [by apply safe_pop_round|].
  intros [[]|x] γ'; [|done]. intros (Hp' & Hlt). apply IH; [done|lia|lia].
Qed.

Lemma safe_pop fuel γ :
  unseen ops i MsPop γ → idle γ → (N < fuel)%nat → safe (ms_call fuel MsPop) (returned MsPop) γ.
Proof.
  intros Hu Hl Hf. unfold ms_call, ms_try_pop. apply cwp_act_bind; [done|]. intros γ1 s1 Hr1 HI1.
  pose proof (unseen_rely _ _ _ Hu Hr1) as Hu1. destruct (local_rely _ _ _ _ _ _ Hl Hr1) as [Lo Lg Lw Lp].
  set (g := ms_guards s1). exists (g_guard i (Some g) γ1). split; [apply g_guard_guar|]. split; [by apply inv_pin|].
  pose proof (ms_bound _ _ _ HI1). pose proof (ms_head_lt _ _ _ HI1).
  apply cwp_bind. eapply cwp_mono; [apply (safe_pop_loop fuel g); simpl; try lia|].
  { split; [done|]. split; try done. simpl. by rewrite upd_eq. }
  intros x γ2 Hc. apply cwp_bind. eapply cwp_mono; [by apply (safe_unpin g MsPop x)|]. intros [] γ3 Hd. exact Hd.
Qed.

End calls.

(** ** Pools of calls *)

Section pool.
Context {T : Type} `{BoxAllocator} `{C : Collector} (EC : epoch_contract C).
Context (ops : list (msop (T:=T))) (fuel : nat) (p : Z).
Context (Hp : 0 < p) (Hfuel : (2 * length ops + 1 < fuel)%nat).
Notation N := (length ops).

Definition ms_start : list (prog (msE T) (option T)) * msmem T := (ms_call fuel <$> ops, ms_fresh p).

Definition ms_ghost0 : msghost T :=
  mkMg [(p, None)] 0 0 {[0%nat]} ∅ [] (λ _, None) (λ _, None) (λ _, None) (λ _, None) [].

Lemma ms_fresh_inv : ms_inv ops ms_ghost0 (ms_fresh p).
Proof using Hp.
  clear Hfuel.
  assert (∀ k x, mg_chain ms_ghost0 !! k = Some x → k = 0%nat ∧ x = (p, None)) as Hc.
  { intros [|k] x Hx; simpl in Hx; [|done]. by injection Hx as <-. }
  split; try done.
  - by exists None.
  - by exists None.
  - intros k Hk. unfold mg_len in Hk. simpl in *. apply elem_of_singleton. lia.
  - simpl. intros k ->%elem_of_singleton. unfold mg_len. simpl. lia.
  - intros k q v [_ [= -> _]]%Hc. done.
  - intros k q v Hk [-> [= -> ->]]%Hc. simpl. unfold node_at. rewrite decide_False by (by apply not_elem_of_empty).
    apply lookup_insert_eq.
  - intros k j q v w _ _ [-> _]%Hc [-> _]%Hc. done.
  - by left.
  - simpl. intros g. split; [by intros ?%elem_of_empty|by intros [j Hj]].
  - intros k Hk. unfold mg_len in Hk. simpl in Hk. lia.
  - intros q gs Hq. by apply elem_of_nil in Hq.
  - intros q gs Hq. by apply elem_of_nil in Hq.
  - constructor.
  - split; constructor.
Qed.

Definition ms_post (i : nat) (r : option T) (γ : msghost T) : Prop := ∃ o, ops !! i = Some o ∧ returned i o r γ.

Lemma ms_post_stable i : stable ms_rely i (ms_post i).
Proof.
  intros r γ γ' (o & Ho & Hh & Hl) Hr. exists o. split; [done|]. split; [by eapply seen_rely|by eapply local_rely].
Qed.

Notation ok := (pool_ok (HH := kept_handler) (ms_inv ops) ms_rely ms_guar never ms_post).

Lemma ms_pool_start : ok ms_start ms_ghost0.
Proof using EC Hp Hfuel.
  split; [exact ms_fresh_inv|]. intros i q Hq. unfold ms_start in Hq. cbn [fst] in Hq. rewrite list_lookup_fmap in Hq.
  destruct (ops !! i) as [o|] eqn:Ho; [|done]. injection Hq as <-.
  assert (unseen ops i o ms_ghost0) as Hu by (split; [apply not_elem_of_nil|done]).
  assert (local i None None None None ms_ghost0) as Hl by done.
  destruct o as [v|]; (eapply cwp_mono; [first [apply safe_push|apply safe_pop]; try done; lia|]);
    intros r γ Hc; by eexists.
Qed.

(** What a history says about a configuration: it is a FIFO history of calls of the
    threads, each its own call and at most once; a thread that has not started does not
    occur; a thread that has returned occurs with its result; and no thread is about
    to touch freed memory, has panicked or has run out of fuel. *)
Record explains (h : list (event T)) (c : list (prog (msE T) (option T)) * msmem T) : Prop := {
  ex_fifo : ∃ q, fifo h q;
  ex_calls : Forall (λ e, ops !! e.1.1 = Some e.1.2) h;
  ex_once : NoDup (threads h);
  ex_started : ∀ i, c.1 !! i = ms_start.1 !! i → i ∉ threads h;
  ex_thread : ∀ i t, c.1 !! i = Some t →
    match t with
    | Ret r => ∃ o, ops !! i = Some o ∧ (i, o, r) ∈ h
    | Vis e k => handle e c.2 ≠ Fault
    | Panic => False
    | OutOfFuel => False
    end
}.

(** Executions that retire no node while the tail points to it. *)
Inductive execution : list (list (prog (msE T) (option T)) * msmem T) → Prop :=
| execution_start : execution [ms_start]
| execution_step cs c c' :
    execution (cs ++ [c]) → conc_step c c' → tail_kept c'.2 → execution ((cs ++ [c]) ++ [c']).

(** A history for every moment of an execution, only ever extended. *)
Record linearizes (cs : list (list (prog (msE T) (option T)) * msmem T)) (hs : list (list (event T))) : Prop := {
  lz_explains : Forall2 explains hs cs;
  lz_grows : ∀ n m h h', (n ≤ m)%nat → hs !! n = Some h → hs !! m = Some h' → h `prefix_of` h'
}.

(** Call [i] has returned before call [j] starts. *)
Definition precedes (cs : list (list (prog (msE T) (option T)) * msmem T)) (i j : nat) : Prop :=
  ∃ n c r, cs !! n = Some c ∧ c.1 !! i = Some (Ret r) ∧ c.1 !! j = ms_start.1 !! j.

(** Whenever call [j] occurs, call [i] occurs before it. *)
Definition ordered (h : list (event T)) (i j : nat) : Prop :=
  ∀ h1 e h2, h = h1 ++ e :: h2 → e.1.1 = j → i ∈ threads h1.

(** The steps of an execution are steps of the restricted accesses. *)
Lemma kept_conc_step (c c' : list (prog (msE T) (option T)) * msmem T) :
  conc_step c c' → tail_kept c'.2 → conc_step (H := kept_handler (T:=T)) c c'.
Proof.
  intros [ts i t s t' s' Hi Ht|ts i t s t' Hi Ht] Hk; [|by eapply step_spurious].
  eapply step_access; [done|]. destruct t as [|X e k| |]; simpl in Ht |- *; try done. destruct e; try done.
  unfold handle, kept_handler. case_decide as E; [|done]. exfalso. subst. injection Ht as _ <-. apply Hk. simpl.
  rewrite fmap_app. apply elem_of_app. right. by apply list_elem_of_singleton.
Qed.

Lemma kept_no_fault {X} (e : msE T X) s : handle (Handler := kept_handler) e s ≠ Fault → handle e s ≠ Fault.
Proof. by destruct e. Qed.

Lemma pool_explains c γ :
  ok c γ → (∀ j, moved (E := msE T) ms_rely ms_start.1 c.1 ms_ghost0 γ j) → explains (mg_hist γ) c.
Proof.
  intros Hok Hm. pose proof Hok as [HI _]. split; [eexists; apply HI|apply HI|apply HI|..].
  - intros i Hi. assert (ms_rely i ms_ghost0 γ) as Hr.
    { destruct (c.1 !! i) as [t|] eqn:Ht; [by eapply moved_unstarted|by eapply moved_outside]. }
    destruct (mr_hist _ _ _ Hr) as (l & -> & Hl). done.
  - intros i t Ht. destruct c as [ts s].
    pose proof (pool_fine _ _ _ never ms_rg _ _ _ _ _ _ Hok Ht) as Hf. destruct t as [r|X e k| |]; simpl in Hf; try done.
    + destruct Hf as (o & Ho & Hh & _). eauto.
    + by apply kept_no_fault.
Qed.

(** One more configuration. *)
Lemma linearizes_snoc cs hs h c h' c' :
  linearizes (cs ++ [c]) (hs ++ [h]) → explains h' c' → h `prefix_of` h' →
  linearizes ((cs ++ [c]) ++ [c']) ((hs ++ [h]) ++ [h']).
Proof.
  intros [HE HG] He Hh. split; [apply Forall2_app; [done|constructor; [done|constructor]]|].
  assert (∀ n x, (hs ++ [h]) !! n = Some x → x `prefix_of` h') as Hall.
  { intros n x Hx. transitivity h; [|done]. eapply (HG n (length hs)); [|done|by rewrite lookup_app_r, Nat.sub_diag].
    apply lookup_lt_Some in Hx. rewrite length_app in Hx. simpl in Hx. lia. }
  intros n m x y Hle [Hx|[Hx1 Hx]]%lookup_app_Some [Hy|[Hy1 Hy]]%lookup_app_Some.
  - by eapply HG.
  - apply list_lookup_singleton_Some in Hy as [_ <-]. by eapply Hall.
  - apply lookup_lt_Some in Hy. lia.
  - apply list_lookup_singleton_Some in Hx as [_ <-], Hy as [_ <-]. done.
Qed.

Lemma execution_linearizes cs :
  execution cs → ∃ cs' c hs γ, cs = cs' ++ [c] ∧ ok c γ ∧
    (∀ j, moved (E := msE T) ms_rely ms_start.1 c.1 ms_ghost0 γ j) ∧ linearizes cs (hs ++ [mg_hist γ]).
Proof using EC Hp Hfuel.
  induction 1 as [|cs c c' _ (cs1 & c1 & hs & γ & E & Hok & Hm & Hlin) Hs Hk].
  - pose proof ms_pool_start as Hok. assert (∀ j, moved (E := msE T) ms_rely ms_start.1 ms_start.1 ms_ghost0 ms_ghost0 j) as Hm.
    { intros j. by apply (moved_refl _ _ ms_rg). }
    exists [], ms_start, [], ms_ghost0. split; [done|]. split; [done|]. split; [done|]. split.
    + constructor; [by apply pool_explains|constructor].
    + intros n m h h' _ Hn Hm'. apply list_lookup_singleton_Some in Hn as [_ <-], Hm' as [_ <-]. done.
  - apply app_inj_tail in E as [-> ->]. pose proof (kept_conc_step _ _ Hs Hk) as Hs'.
    destruct (pool_step _ _ _ never ms_rg (never_stable _) ms_post _ _ _ ms_post_stable Hok Hs') as (γ' & Hok' & Hm').
    assert (∀ j, moved (E := msE T) ms_rely ms_start.1 c'.1 ms_ghost0 γ' j) as Hm2.
    { intros j. eapply (moved_trans _ _ ms_rg); [apply Hm|apply Hm']. }
    exists (cs1 ++ [c1]), c', (hs ++ [mg_hist γ]), γ'. split; [done|]. split; [done|]. split; [done|].
    apply linearizes_snoc; [done|by apply pool_explains|].
    pose proof (moved_outside _ _ _ _ _ (length c'.1) (Hm' _)) as Hr.
    destruct (mr_hist _ _ _ (Hr ltac:(by apply lookup_ge_None))) as (l & -> & _). by eexists.
Qed.

(** The order of the history respects the order of the calls in time. *)
Lemma linearizes_order cs hs h i j :
  linearizes cs hs → last hs = Some h → precedes cs i j → ordered h i j.
Proof.
  intros [HE HG] Hlast (n & c & r & Hc & Hi & Hj). destruct (Forall2_lookup_r _ _ _ _ _ HE Hc) as (h0 & Hh0 & Hex).
  rewrite last_lookup in Hlast. assert (h0 `prefix_of` h) as [l ->].
  { eapply HG; [|done|done]. apply lookup_lt_Some in Hh0. lia. }
  destruct (ex_thread _ _ Hex _ _ Hi) as (o & _ & Hin). pose proof (ex_started _ _ Hex j Hj) as Hnj.
  assert (i ∈ threads h0) as Hit by (apply list_elem_of_fmap; by exists (i, o, r)).
  intros h1 e h2 E Hej. destruct (decide (length h0 ≤ length h1)%nat) as [Hle|Hgt].
  - assert (h0 `prefix_of` h1) as [l' ->]; [|rewrite threads_app; apply elem_of_app; by left].
    exists (drop (length h0) h1). pose proof (f_equal (take (length h0)) E) as E'.
    rewrite take_app_length, take_app_le in E' by done. rewrite E' at 1. symmetry. apply take_drop.
  - exfalso. apply Hnj. assert (h0 !! length h1 = Some e) as He.
    { rewrite <- (lookup_app_l h0 l) by lia. rewrite E. by rewrite lookup_app_r, Nat.sub_diag. }
    apply list_elem_of_fmap. exists e. split; [done|]. by eapply list_elem_of_lookup_2.
Qed.

End pool.

(** ** The properties *)

(** C15: with a collector that keeps the documented contract of the epoch library, the
    calls of any number of threads on one queue are linearizable in every execution
    that retires no node while the tail still points to it: every moment of the
    execution has a sequential FIFO history of the threads' own calls, each at most
    once, without the calls that have not started and with those that have returned and
    their results; the histories only grow, and a call that returned before another
    started comes before it.  No thread touches freed memory or panics, and no loop
    needs more rounds than twice the number of calls and two.  The restriction on the
    executions is needed: see [ms_tail_use_after_free]. *)
Theorem ms_linearizable {T} `{BoxAllocator} `{C : Collector} (ops : list (msop (T:=T))) fuel p cs :
  epoch_contract C → 0 < p → (2 * length ops + 1 < fuel)%nat → execution ops fuel p cs →
  ∃ hs, linearizes ops fuel p cs hs ∧
    ∀ h i j, last hs = Some h → precedes ops fuel p cs i j → ordered h i j.
Proof.
  intros EC Hp Hf Hcs. destruct (execution_linearizes EC ops fuel p Hp Hf cs Hcs) as (_ & _ & hs & γ & _ & _ & _ & Hl).
  eexists. split; [exact Hl|]. intros h i j Hh Hij. by eapply linearizes_order.
Qed.

(** [MsQueue::new] produces the fresh queue the theorems start from. *)
Lemma ms_new_fresh {T} `{BoxAllocator} `{C : Collector} :
  epoch_contract C → run (MsQueue_new (T:=T)) ms_blank = Done tt (ms_fresh (box_at ∅)).
Proof.
  intros EC. unfold MsQueue_new.
  assert (∀ open, collect (@nil (Z * gset Z)) open = []) as Hc.
  { intros open. destruct (collect [] open) as [|q l] eqn:E; [done|].
    destruct (EC [] open q) as (gs & Hgs & _); [rewrite E; left|by apply elem_of_nil in Hgs]. }
  do 3 (erewrite run_act_bind; [|reflexivity]). erewrite run_act; [|reflexivity].
  unfold ms_collect, ms_set_words, ms_set_nodes. cbn [ms_retired ms_blank]. rewrite Hc. simpl. unfold ms_fresh.
  rewrite !dom_empty_L. repeat f_equal.
Qed.

(** The collector that destroys a node as soon as its contract allows it. *)
Definition eager : Collector := λ retired open,
  omap (λ r : Z * gset Z, if decide (r.2 ## open) then Some r.1 else None) retired.

Lemma eager_contract : epoch_contract eager.
Proof.
  intros retired open p Hp. apply list_elem_of_omap in Hp as ([q gs] & Hin & Hd). simpl in Hd.
  case_decide; [|done]. injection Hd as ->. by exists gs.
Qed.

(** The configurations a schedule goes through, if it retires no node the tail points to. *)
Fixpoint ms_trace {T} `{BoxAllocator} `{Collector} (sched : list nat) (cs : list (list (prog (msE T) (option T)) * msmem T))
    (c : list (prog (msE T) (option T)) * msmem T) : option (list (list (prog (msE T) (option T)) * msmem T)) :=
  match sched with
  | [] => Some (cs ++ [c])
  | i :: sched =>
      c' ← run_sched [i] c;
      if decide (tail_kept c'.2) then ms_trace sched (cs ++ [c]) c' else None
  end.

Lemma ms_trace_execution {T} `{BoxAllocator} `{Collector} (ops : list (msop (T:=T))) fuel p sched cs c cs' :
  execution ops fuel p (cs ++ [c]) → ms_trace sched cs c = Some cs' → execution ops fuel p cs'.
Proof.
  revert cs c. induction sched as [|i sched IH]; intros cs c Hcs; [by intros [= <-]|]. cbn [ms_trace].
  destruct (run_sched [i] c) as [c'|] eqn:Hc; [|done]. cbn [mbind option_bind]. case_decide as Hk; [|done].
  apply IH. apply execution_step; [done| |done]. cbn [run_sched] in Hc. destruct c as [ts s]. simpl in Hc.
  destruct (ts !! i) as [t|] eqn:Ht; [|done]. simpl in Hc. destruct (prog_step t s) as [[t' s']|] eqn:Hs; [|done].
  injection Hc as <-. by eapply step_access.
Qed.

(** Two producers and two consumers; the second consumer sees the queue empty, and the
    sentinel the first one retires is destroyed while a producer's guard is open. *)
Definition ms_ops : list (msop (T:=Z)) := [MsPush 1; MsPop; MsPush 2; MsPop].

Definition ms_sched : list nat :=
  [3; 3; 3; 3; 0; 0; 0; 0; 0; 0; 0; 1; 1; 1; 1; 1; 1; 2; 2; 1; 2; 2; 2; 2; 2]%nat.

Definition ms_run : list (list (prog (msE Z) (option Z)) * msmem Z) :=
  default [] (ms_trace (H0 := eager) ms_sched [] (ms_start ms_ops 10 1)).

Lemma ms_linearizable_witness :
  ∃ hs, linearizes (C := eager) ms_ops 10 1 ms_run hs ∧
    ∀ h i j, last hs = Some h → precedes ms_ops 10 1 ms_run i j → ordered h i j.
Proof.
  apply (ms_linearizable (C := eager) ms_ops 10 1 ms_run); [exact eager_contract|lia|simpl; lia|].
  apply (ms_trace_execution (H0 := eager) ms_ops 10 1 ms_sched [] (ms_start ms_ops 10 1)).
  - apply execution_start.
  - vm_compute. reflexivity.
Defined.

(** ** The Michael-Scott baseline retires a node its tail still points to

    [try_pop] moves the head past a lagging tail without helping it, so the node it
    retires can still be reached from [tail].  A producer that opens its guard after
    the retirement is not waited for by the collector and dereferences the destroyed
    node. *)

(** A producer, a consumer, and a second producer. *)
Definition ms_racers : list (prog (msE Z) (option Z)) :=
  [ms_call 5 (MsPush 1); ms_call 5 MsPop; ms_call 5 (MsPush 2)].

(** Thread 0 links its node and stalls before it swings the tail; thread 1 pops and
    retires the old sentinel; thread 2 opens its guard and loads the tail; thread 0
    swings the tail and closes its guard. *)
Definition ms_schedule : list nat :=
  [0; 0; 0; 0; 0; 1; 1; 1; 1; 1; 1; 1; 2; 2; 2; 0; 0]%nat.

(** C16: with a collector that keeps the documented contract of the epoch library, the
    queue dereferences a destroyed node: there are a schedule of two pushes and a pop on
    a fresh queue and a thread whose next access is to a freed node, although the
    code states that a node reachable from the tail is never freed. *)
Theorem ms_tail_use_after_free :
  epoch_contract eager ∧
  ∃ ts s p, run_sched (H := ms_handler (H0 := eager)) ms_schedule (ms_racers, ms_fresh 1) = Some (ts, s) ∧
    ts !! 2%nat = Some p ∧ prog_fault (H := ms_handler (H0 := eager)) p s = true.
Proof.
  split; [exact eager_contract|].
  destruct (run_sched (H := ms_handler (H0 := eager)) ms_schedule (ms_racers, ms_fresh 1)) as [[ts s]|] eqn:E;
    [|vm_compute in E; discriminate E].
  exists ts, s. destruct (ts !! 2%nat) as [p|] eqn:Ep.
  - exists p. split; [done|]. split; [done|]. vm_compute in E. injection E as <- <-. injection Ep as <-. reflexivity.
  - vm_compute in E. injection E as <- <-. discriminate Ep.
Qed.
