(* ===== verification/FaaQueue.v ===== *)
(** * The fetch-and-add baseline queue (src/src/bench_harness/baselines/naive_faa_queue.rs)

    A ring of 256 slots and two position counters.  [push] takes a position of [tail]
    and spins until the slot at it is empty; [try_pop] takes a position of [head] and
    spins until its slot is full.  The cell of a slot is ordinary memory: an access to it
    is two steps, and an access that starts while another one is under way is a data
    race, hence undefined. *)

From S2P Require Import Prelude Prog.

Definition CAPACITY : Z := 256.
Definition MASK : Z := CAPACITY - 1.

Definition EMPTY : Z := 0.
Definition WRITING : Z := 1.
Definition FULL : Z := 2.
Definition READING : Z := 3.

(** [struct Slot]: the state, the value when there is one, and whether an access to the
    value is under way. *)
Record FaaSlot (T : Type) := mkFaaSlot { fs_state : Z; fs_value : option T; fs_busy : bool }.
Arguments mkFaaSlot {T} _ _ _.
Arguments fs_state {T} _.
Arguments fs_value {T} _.
Arguments fs_busy {T} _.

Definition FaaSlot_new {T} : FaaSlot T := mkFaaSlot EMPTY None false.

(** [struct NaiveFaaQueue], with the values its destructor has dropped. *)
Record faamem (T : Type) := mkFaa {
  f_ring : list (FaaSlot T);
  f_head : Z;
  f_tail : Z;
  f_dropped : list T
}.
Arguments mkFaa {T} _ _ _ _.
Arguments f_ring {T} _.
Arguments f_head {T} _.
Arguments f_tail {T} _.
Arguments f_dropped {T} _.

(** [NaiveFaaQueue::new] *)
Definition NaiveFaaQueue_new {T} : faamem T := mkFaa (replicate (Z.to_nat CAPACITY) FaaSlot_new) 0 0 [].

(** ** Accesses *)

Inductive faaE (T : Type) : Type → Type :=
| FLoadTail : faaE T Z
| FLoadHead : faaE T Z
| FAddTail : faaE T Z
| FAddHead : faaE T Z
| FCas (k : Z) (old new : Z) : faaE T bool
| FStore (k : Z) (new : Z) : faaE T unit
| FBegin (k : Z) : faaE T unit
| FWrite (k : Z) (v : T) : faaE T unit
| FRead (k : Z) : faaE T T
| FState (k : Z) : faaE T Z
| FDropValue (k : Z) : faaE T unit.
Arguments FLoadTail {T}.
Arguments FLoadHead {T}.
Arguments FAddTail {T}.
Arguments FAddHead {T}.
Arguments FCas {T} k old new.
Arguments FStore {T} k new.
Arguments FBegin {T} k.
Arguments FWrite {T} k v.
Arguments FRead {T} k.
Arguments FState {T} k.
Arguments FDropValue {T} k.

Section faa_handler.
Context {T : Type}.
Implicit Types s : faamem T.

Definition faa_get (k : Z) s : option (FaaSlot T) := f_ring s !! Z.to_nat k.

Definition faa_set (k : Z) (sl : FaaSlot T) s : faamem T :=
  mkFaa (<[Z.to_nat k := sl]> (f_ring s)) (f_head s) (f_tail s) (f_dropped s).

Definition faa_reply {X} (o : option (X * faamem T)) : reply (faamem T) X :=
  match o with Some (x, s) => Next x s | None => Fault end.

(** Starting an access to a cell that is being accessed is a data race; reading a cell
    that holds no value is undefined.  A write replaces what the cell holds, a read moves
    it out. *)
#[export] Instance faa_handler : Handler (faaE T) (faamem T) := λ X e s,
  match e in faaE _ X return reply (faamem T) X with
  | FLoadTail => Next (f_tail s) s
  | FLoadHead => Next (f_head s) s
  | FAddTail => Next (f_tail s) (mkFaa (f_ring s) (f_head s) (wrapping (f_tail s + 1)) (f_dropped s))
  | FAddHead => Next (f_head s) (mkFaa (f_ring s) (wrapping (f_head s + 1)) (f_tail s) (f_dropped s))
  | FCas k old new => faa_reply (
      sl ← faa_get k s;
      if fs_state sl =? old then Some (true, faa_set k (mkFaaSlot new (fs_value sl) (fs_busy sl)) s)
      else Some (false, s))
  | FStore k new => faa_reply (
      sl ← faa_get k s; Some (tt, faa_set k (mkFaaSlot new (fs_value sl) (fs_busy sl)) s))
  | FBegin k => faa_reply (
      sl ← faa_get k s;
      if fs_busy sl then None else Some (tt, faa_set k (mkFaaSlot (fs_state sl) (fs_value sl) true) s))
  | FWrite k v => faa_reply (
      sl ← faa_get k s; Some (tt, faa_set k (mkFaaSlot (fs_state sl) (Some v) false) s))
  | FRead k => faa_reply (
      sl ← faa_get k s; v ← fs_value sl; Some (v, faa_set k (mkFaaSlot (fs_state sl) None false) s))
  | FState k => faa_reply (sl ← faa_get k s; Some (fs_state sl, s))
  | FDropValue k => faa_reply (
      sl ← faa_get k s; v ← fs_value sl;
      Some (tt, mkFaa (<[Z.to_nat k := mkFaaSlot (fs_state sl) None false]> (f_ring s)) (f_head s) (f_tail s)
                  (f_dropped s ++ [v])))
  end.

(** The exchanges are weak. *)
#[export] Instance faa_spurious : Spurious (faaE T) (faamem T) := λ X e s,
  match e in faaE _ X return option X with
  | FCas k old new => Some false
  | _ => None
  end.

End faa_handler.

(** ** Operations *)

Section faa_queue.
Context {T : Type} (fuel : nat).

(** [&self.ring[pos as usize & MASK]], bounds-checked. *)
Definition faa_slot (pos : Z) : prog (faaE T) Z :=
  let k := Z.land pos MASK in if k <? CAPACITY then Ret k else Panic.

(** [while slot.state.compare_exchange_weak(old, new).is_err() { spin_loop() }] *)
Definition faa_acquire (k old new : Z) : prog (faaE T) unit :=
  loop fuel (λ _ : unit, won ← act (FCas k old new); Ret (if won : bool then inr tt else inl tt)) tt.

Definition faa_push (value : T) : prog (faaE T) unit :=
  pos ← act FAddTail;
  k ← faa_slot pos;
  faa_acquire k EMPTY WRITING;;
  act (FBegin k);;
  act (FWrite k value);;
  act (FStore k FULL).

Definition faa_try_pop : prog (faaE T) (option T) :=
  tail ← act FLoadTail;
  head ← act FLoadHead;
  if tail <=? head then Ret None else
  pos ← act FAddHead;
  k ← faa_slot pos;
  faa_acquire k FULL READING;;
  act (FBegin k);;
  value ← act (FRead k);
  act (FStore k EMPTY);;
  Ret (Some value).

(** [impl Drop for NaiveFaaQueue] *)
Definition NaiveFaaQueue_drop : prog (faaE T) unit :=
  for_range (Z.to_nat CAPACITY) 0 (λ k,
    st ← act (FState k);
    if st =? FULL then act (FDropValue k) else Ret tt).

(** A thread performs one call. *)
Inductive faaop := FaaPush (v : T) | FaaPop.

Definition faa_call (o : faaop) : prog (faaE T) (option T) :=
  match o with
  | FaaPush v => faa_push v;; Ret None
  | FaaPop => faa_try_pop
  end.

(** A thread performs several calls and keeps what its [try_pop]s return. *)
Fixpoint faa_calls (ops : list faaop) : prog (faaE T) (list (option T)) :=
  match ops with
  | [] => Ret []
  | FaaPush v :: ops => faa_push v;; faa_calls ops
  | FaaPop :: ops => r ← faa_try_pop; rs ← faa_calls ops; Ret (r :: rs)
  end.

End faa_queue.
Arguments FaaPush {T} v.
Arguments FaaPop {T}.
