(* ===== verification/FaaSpec.v ===== *)
(** * The fetch-and-add baseline: no races, nothing lost, nothing twice

    Any number of threads call one queue, in any interleaving. *)

From S2P Require Import Prelude Prog Conc FaaQueue.

(** ** Invariant of the fetch-and-add baseline under interleaving

    The ghost state says for each slot which thread is accessing it and whose value it
    holds, and for each producer where its value is: not yet in the ring, in a slot, or
    taken by a consumer.  Threads are numbered, thread [i] performing the call [ops !! i]. *)

(** The phases of a slot: the thread at work on it and the producer of its value. *)
Inductive fphase :=
| FpEmpty
| FpWriting (i : nat)
| FpStoring (i : nat)
| FpWritten (i : nat)
| FpFull (j : nat)
| FpReading (i j : nat)
| FpTaking (i j : nat)
| FpRead (i : nat).

(** Where a producer's value is. *)
Inductive fwhere := WNone | WIn (k : nat) | WTaken (i : nat).

#[export] Instance fwhere_eq_dec : EqDecision fwhere.
Proof. solve_decision. Defined.

Definition owner (st : fphase) : option nat :=
  match st with
  | FpWriting i | FpStoring i | FpWritten i | FpRead i => Some i
  | FpReading i _ | FpTaking i _ => Some i
  | FpEmpty | FpFull _ => None
  end.

Definition held_by (st : fphase) : option nat :=
  match st with
  | FpWritten j | FpFull j | FpReading _ j | FpTaking _ j => Some j
  | _ => None
  end.

Record fghost := mkFg { fg_st : nat → fphase; fg_val : nat → fwhere }.

Section faa_inv.
Context {T : Type} (ops : list (faaop (T:=T))).
Implicit Types (γ : fghost) (s : faamem T).

Definition value_of (j : nat) : option T :=
  match ops !! j with Some (FaaPush v) => Some v | _ => None end.

(** The slot in memory. *)
Definition phys (st : fphase) : FaaSlot T :=
  match st with
  | FpEmpty => mkFaaSlot EMPTY None false
  | FpWriting _ => mkFaaSlot WRITING None false
  | FpStoring _ => mkFaaSlot WRITING None true
  | FpWritten i => mkFaaSlot WRITING (value_of i) false
  | FpFull j => mkFaaSlot FULL (value_of j) false
  | FpReading _ j => mkFaaSlot READING (value_of j) false
  | FpTaking _ j => mkFaaSlot READING (value_of j) true
  | FpRead _ => mkFaaSlot READING None false
  end.

Record faa_inv γ s : Prop := {
  fi_dropped : f_dropped s = [];
  fi_len : length (f_ring s) = Z.to_nat CAPACITY;
  fi_ring : ∀ k, (k < Z.to_nat CAPACITY)%nat → f_ring s !! k = Some (phys (fg_st γ k));
  fi_out : ∀ k, fg_st γ k ≠ FpEmpty → (k < Z.to_nat CAPACITY)%nat;
  fi_in : ∀ j k, fg_val γ j = WIn k ↔ held_by (fg_st γ k) = Some j;
  fi_push : ∀ j, fg_val γ j ≠ WNone → is_Some (value_of j);
  fi_owner : ∀ k i, owner (fg_st γ k) = Some i → (i < length ops)%nat;
  fi_taker : ∀ j i, fg_val γ j = WTaken i → (i < length ops)%nat
}.

(** What thread [i] may rely on: nobody else touches the slots it works on, sends its
    value or receives in its name, and what has been received stays received. *)
Record faa_rely (i : nat) γ γ' : Prop := {
  fr_own : ∀ k, owner (fg_st γ k) = Some i ∨ owner (fg_st γ' k) = Some i → fg_st γ' k = fg_st γ k;
  fr_none : fg_val γ' i = WNone ↔ fg_val γ i = WNone;
  fr_mine : ∀ j, fg_val γ' j = WTaken i ↔ fg_val γ j = WTaken i;
  fr_taken : ∀ j i', fg_val γ j = WTaken i' → fg_val γ' j = WTaken i'
}.

Definition faa_guar (i : nat) γ γ' : Prop := ∀ j, j ≠ i → faa_rely j γ γ'.

Lemma faa_rely_refl i γ : faa_rely i γ γ.
Proof. by split. Qed.

Lemma faa_rg : rely_guarantee faa_rely faa_guar.
Proof.
  split.
  - apply faa_rely_refl.
  - intros i γ1 γ2 γ3 [O1 N1 M1 T1] [O2 N2 M2 T2]. split.
    + intros k [Hk|Hk].
      * pose proof (O1 k (or_introl Hk)) as E. rewrite <- E. apply O2. left. by rewrite E.
      * pose proof (O2 k (or_intror Hk)) as E. rewrite E. apply O1. right. by rewrite <- E.
    + by rewrite N2.
    + intros j. by rewrite M2.
    + eauto.
  - intros i j γ γ' Hg Hne. apply Hg. congruence.
Qed.

(** What thread [i] knows of itself: the slot it works on, whether its value has been
    sent, and the producer whose value it has received. *)
Record fat (i : nat) (o : option (nat * fphase)) (sent : bool) (got : option nat) γ : Prop := {
  fa_own : ∀ k, owner (fg_st γ k) = Some i → o = Some (k, fg_st γ k);
  fa_at : ∀ k st, o = Some (k, st) → fg_st γ k = st ∧ owner st = Some i;
  fa_sent : fg_val γ i = WNone ↔ sent = false;
  fa_got : ∀ j, fg_val γ j = WTaken i ↔ got = Some j
}.

Lemma fat_rely i o sent got γ γ' : fat i o sent got γ → faa_rely i γ γ' → fat i o sent got γ'.
Proof.
  intros [O A S G] [Ro Rn Rm Rt]. split.
  - intros k Hk. pose proof (Ro k (or_intror Hk)) as E. rewrite E in Hk |- *. by apply O.
  - intros k st Hk. destruct (A k st Hk) as [E Hst]. rewrite (Ro k); [done|]. left. by rewrite E.
  - by rewrite Rn.
  - intros j. by rewrite Rm.
Qed.

(** ** Steps *)

(** The slot [k] goes to phase [st]; the value of [j] goes to [w]. *)
Definition fg_set (k : nat) (st : fphase) γ : fghost := mkFg (upd (fg_st γ) k st) (fg_val γ).
Definition fg_move (k : nat) (st : fphase) (j : nat) (w : fwhere) γ : fghost :=
  mkFg (upd (fg_st γ) k st) (upd (fg_val γ) j w).

(** [i] works alone on the slots it changes. *)
Definition free_for (i : nat) (st : fphase) : Prop := owner st = None ∨ owner st = Some i.

Lemma own_upd i j γ k st k' :
  j ≠ i → free_for i (fg_st γ k) → free_for i st →
  owner (fg_st γ k') = Some j ∨ owner (upd (fg_st γ) k st k') = Some j → upd (fg_st γ) k st k' = fg_st γ k'.
Proof.
  intros Hj H1 H2. unfold free_for in *. unfold upd. case_decide; [subst|done]. intros [H|H]; exfalso; naive_solver.
Qed.

Lemma guar_set i γ k st : free_for i (fg_st γ k) → free_for i st → faa_guar i γ (fg_set k st γ).
Proof. intros H1 H2 j Hj. split; try done. intros k'. by apply (own_upd i j). Qed.

Lemma guar_send i γ k st : free_for i (fg_st γ k) → free_for i st → fg_val γ i = WNone →
  faa_guar i γ (fg_move k st i (WIn k) γ).
Proof.
  intros H1 H2 Hv j Hj. split; simpl.
  - intros k'. by apply (own_upd i j).
  - by rewrite upd_ne.
  - intros j'. unfold upd. case_decide; [subst|done]. by rewrite Hv.
  - intros j' i'. unfold upd. case_decide; [subst|done]. by rewrite Hv.
Qed.

Lemma guar_take i γ k st j : free_for i (fg_st γ k) → free_for i st → fg_val γ j = WIn k →
  faa_guar i γ (fg_move k st j (WTaken i) γ).
Proof.
  intros H1 H2 Hv j' Hj. split; simpl.
  - intros k'. by apply (own_upd i j').
  - unfold upd. case_decide; [subst|done]. by rewrite Hv.
  - intros x. unfold upd. case_decide; [subst|done]. rewrite Hv. split; [by intros [= ->]|done].
  - intros x i'. unfold upd. case_decide; [subst|done]. by rewrite Hv.
Qed.

Lemma ring_set γ s k st : faa_inv γ s → (k < Z.to_nat CAPACITY)%nat →
  length (<[k := phys st]> (f_ring s)) = Z.to_nat CAPACITY ∧
  ∀ k', (k' < Z.to_nat CAPACITY)%nat → <[k := phys st]> (f_ring s) !! k' = Some (phys (upd (fg_st γ) k st k')).
Proof.
  intros HI Hk. rewrite length_insert. split; [apply HI|]. intros k' Hk'. unfold upd. case_decide as E.
  - subst. apply list_lookup_insert_eq. by rewrite (fi_len _ _ HI).
  - rewrite list_lookup_insert_ne by done. by apply HI.
Qed.

Lemma inv_set i γ s k st :
  faa_inv γ s → (k < Z.to_nat CAPACITY)%nat → (i < length ops)%nat → free_for i st →
  held_by st = held_by (fg_st γ k) → faa_inv (fg_set k st γ) (faa_set (Z.of_nat k) (phys st) s).
Proof.
  intros HI Hk Hi Hst Hh. destruct (ring_set γ s k st HI Hk) as [Hl Hr].
  unfold faa_set. rewrite Nat2Z.id. split; simpl; try done.
  - apply HI.
  - intros k' Hk'. unfold upd in Hk'. case_decide; [by subst|by apply HI].
  - intros j k'. rewrite (fi_in _ _ HI). unfold upd. case_decide; [|done]. subst. by rewrite Hh.
  - apply HI.
  - intros k' i'. unfold upd. case_decide; [|apply HI]. destruct Hst as [E|E]; rewrite E; [done|by intros [= <-]].
  - apply HI.
Qed.

Lemma inv_send i γ s k : faa_inv γ s → (k < Z.to_nat CAPACITY)%nat → fg_st γ k = FpStoring i →
  fg_val γ i = WNone → is_Some (value_of i) →
  faa_inv (fg_move k (FpWritten i) i (WIn k) γ) (faa_set (Z.of_nat k) (phys (FpWritten i)) s).
Proof.
  intros HI Hk Hst Hv Hs. destruct (ring_set γ s k (FpWritten i) HI Hk) as [Hl Hr].
  unfold faa_set. rewrite Nat2Z.id. split; simpl; try done.
  - apply HI.
  - intros k' Hk'. unfold upd in Hk'. case_decide; [by subst|by apply HI].
  - intros j k'. unfold upd. destruct (decide (j = i)) as [->|Hj], (decide (k' = k)) as [->|Hk']; simpl; [done| | |by apply HI].
    + split; [by intros [= <-]|]. rewrite <- (fi_in _ _ HI), Hv. done.
    + split; [|by intros [= <-]]. rewrite (fi_in _ _ HI), Hst. done.
  - intros j. unfold upd. case_decide; [by subst|]. apply HI.
  - intros k' i'. unfold upd. case_decide; [|apply HI]. intros [= <-]. apply (fi_owner _ _ HI k). by rewrite Hst.
  - intros j' i'. unfold upd. case_decide; [done|]. apply HI.
Qed.

Lemma faa_inv_take i γ s k j : faa_inv γ s → (k < Z.to_nat CAPACITY)%nat → fg_st γ k = FpTaking i j →
  faa_inv (fg_move k (FpRead i) j (WTaken i) γ) (faa_set (Z.of_nat k) (phys (FpRead i)) s).
Proof.
  intros HI Hk Hst. destruct (ring_set γ s k (FpRead i) HI Hk) as [Hl Hr].
  assert (fg_val γ j = WIn k) as Hv by (apply (fi_in _ _ HI); by rewrite Hst).
  unfold faa_set. rewrite Nat2Z.id. split; simpl; try done.
  - apply HI.
  - intros k' Hk'. unfold upd in Hk'. case_decide; [by subst|by apply HI].
  - intros j' k'. unfold upd. destruct (decide (j' = j)) as [->|Hj], (decide (k' = k)) as [->|Hk']; simpl; [done| | |by apply HI].
    + split; [done|]. rewrite <- (fi_in _ _ HI), Hv. congruence.
    + split; [|done]. rewrite (fi_in _ _ HI), Hst. simpl. congruence.
  - intros j'. unfold upd. case_decide; [|apply HI]. subst. intros _. apply (fi_push _ _ HI). by rewrite Hv.
  - intros k' i'. unfold upd. case_decide; [|apply HI]. intros [= <-]. apply (fi_owner _ _ HI k). by rewrite Hst.
  - intros j' i'. unfold upd. case_decide; [|apply HI]. intros [= <-]. apply (fi_owner _ _ HI k). by rewrite Hst.
Qed.

End faa_inv.

(** A thread may spin: it then waits for others. *)
Definition spins {Γ : Type} (i : nat) (γ : Γ) : Prop := True.

Section faa_threads.
Context {T : Type} (ops : list (faaop (T:=T))) (i : nat) (Hi : (i < length ops)%nat).
Implicit Types (γ : fghost) (s : faamem T).

Notation safe p Q γ := (cwp (faa_inv ops) faa_rely faa_guar spins i p Q γ).

Lemma faa_slot_ok pos : ∃ k, (k < Z.to_nat CAPACITY)%nat ∧ faa_slot (T:=T) pos = Ret (Z.of_nat k).
Proof.
  assert (0 ≤ Z.land pos MASK < CAPACITY) as Hk.
  { change MASK with (Z.ones 8). rewrite Z.land_ones by lia. apply Z.mod_pos_bound. done. }
  exists (Z.to_nat (Z.land pos MASK)). split; [lia|]. unfold faa_slot.
  rewrite (proj2 (Z.ltb_lt _ _)) by lia. by rewrite Z2Nat.id by lia.
Qed.

Lemma faa_get_ok γ s k : faa_inv ops γ s → (k < Z.to_nat CAPACITY)%nat →
  faa_get (Z.of_nat k) s = Some (phys ops (fg_st γ k)).
Proof. intros HI Hk. unfold faa_get. rewrite Nat2Z.id. by apply HI. Qed.

Lemma faa_guar_refl γ : faa_guar i γ γ.
Proof. intros j _. apply faa_rely_refl. Qed.

(** ** What a thread knows after its own steps *)

(** The slot [k] in phase [st], when the phase is one of a thread at work. *)
Definition at_work (k : nat) (st : fphase) : option (nat * fphase) :=
  match owner st with Some _ => Some (k, st) | None => None end.

Definition works_at (k : nat) (o : option (nat * fphase)) : Prop := o = None ∨ ∃ st, o = Some (k, st).

Lemma fat_upd γ o sent got k st sent' got' val' :
  fat i o sent got γ → works_at k o → free_for i st →
  (val' i = WNone ↔ sent' = false) → (∀ j, val' j = WTaken i ↔ got' = Some j) →
  fat i (at_work k st) sent' got' (mkFg (upd (fg_st γ) k st) val').
Proof.
  intros [O A _ _] Hw Hst Hs Hg. unfold at_work, works_at, free_for in *. split; simpl; try done.
  - intros k'. unfold upd. case_decide; [subst; by intros ->|]. intros Hk%O. naive_solver.
  - intros k' st'. destruct Hst as [E|E]; rewrite E; [done|]. intros [= <- <-]. by rewrite upd_eq.
Qed.

Lemma fat_set γ o sent got k st : fat i o sent got γ → works_at k o → free_for i st →
  fat i (at_work k st) sent got (fg_set k st γ).
Proof. intros Hf Hw Hst. eapply fat_upd; [done..|apply Hf|apply Hf]. Qed.

(** ** Accesses *)

Lemma safe_cas_fail A k old new (f : bool → prog (faaE T) A) Q γ :
  (k < Z.to_nat CAPACITY)%nat →
  (∀ γ', faa_rely i γ γ' → safe (f false) Q γ') →
  (∀ γ' s, faa_rely i γ γ' → faa_inv ops γ' s → fs_state (phys ops (fg_st γ' k)) = old →
     ∃ γ'', faa_guar i γ' γ'' ∧
       faa_inv ops γ'' (faa_set (Z.of_nat k)
         (mkFaaSlot new (fs_value (phys ops (fg_st γ' k))) (fs_busy (phys ops (fg_st γ' k)))) s) ∧
       safe (f true) Q γ'') →
  safe (act (FCas (Z.of_nat k) old new) ≫= f) Q γ.
Proof.
  intros Hk Hfail Hwin γ' s Hr HI. split; [|by apply Hfail].
  cbn [handle faa_handler]. rewrite (faa_get_ok γ' s k HI Hk). cbn [mbind option_bind].
  destruct (Z.eqb_spec (fs_state (phys ops (fg_st γ' k))) old) as [E|_]; cbn [faa_reply].
  - by apply Hwin.
  - exists γ'. split; [apply faa_guar_refl|]. split; [done|]. by apply Hfail.
Qed.

(** Spinning on a slot until it has the state [old]. *)
Lemma safe_acquire fuel k old new (Q : unit → fghost → Prop) γ sent got :
  (k < Z.to_nat CAPACITY)%nat → fat i None sent got γ →
  (∀ γ s, fat i None sent got γ → faa_inv ops γ s → fs_state (phys ops (fg_st γ k)) = old →
     ∃ st, phys ops st = mkFaaSlot new (fs_value (phys ops (fg_st γ k))) (fs_busy (phys ops (fg_st γ k))) ∧
       owner (fg_st γ k) = None ∧ owner st = Some i ∧ held_by st = held_by (fg_st γ k) ∧
       (fat i (Some (k, st)) sent got (fg_set k st γ) → Q tt (fg_set k st γ))) →
  safe (faa_acquire fuel (Z.of_nat k) old new) Q γ.
Proof using Hi.
  intros Hk Hf Hwin. unfold faa_acquire.
  apply (cwp_loop_waits _ _ _ _ (λ _ γ, fat i None sent got γ)); [done|done|].
  intros [] γ1 Hf1. apply safe_cas_fail; [done|intros γ' Hr; by eapply fat_rely|].
  intros γ' s Hr HI Hst. pose proof (fat_rely _ _ _ _ _ _ Hf1 Hr) as Hf'.
  destruct (Hwin γ' s Hf' HI Hst) as (st & Hp & Ho & Hos & Hh & HQ).
  exists (fg_set k st γ'). rewrite <- Hp. split; [apply guar_set; [by left|by right]|].
  split; [apply (inv_set ops i); [done..|by right|done]|].
  apply HQ. replace (Some (k, st)) with (at_work k st) by (unfold at_work; by rewrite Hos).
  eapply fat_set; [done|by left|by right].
Qed.

(** A step on the slot this thread works on that moves no value. *)
Lemma safe_own_step {A} (e : faaE T unit) (f : unit → prog (faaE T) A) k st st' sent got Q γ :
  (k < Z.to_nat CAPACITY)%nat → owner st = Some i → free_for i st' → held_by st' = held_by st →
  (∀ s, spurious e s = None) →
  (∀ s, faa_get (Z.of_nat k) s = Some (phys ops st) → handle e s = Next tt (faa_set (Z.of_nat k) (phys ops st') s)) →
  fat i (Some (k, st)) sent got γ →
  (∀ γ', fat i (at_work k st') sent got γ' → safe (f tt) Q γ') →
  safe (act e ≫= f) Q γ.
Proof using Hi.
  intros Hk Ho Hst' Hh Hsp He Hf Hnext. apply cwp_act_bind; [done|]. intros γ' s Hr HI.
  pose proof (fat_rely _ _ _ _ _ _ Hf Hr) as Hf'. destruct (fa_at _ _ _ _ _ Hf' k st eq_refl) as [E _].
  rewrite He by (by rewrite (faa_get_ok γ' s k HI Hk), E).
  exists (fg_set k st' γ'). split; [apply guar_set; [right; by rewrite E|done]|].
  split; [apply (inv_set ops i); [done..|by rewrite E]|]. apply Hnext.
  eapply fat_set; [done|right; by exists st|done].
Qed.

(** The value is written into the cell. *)
Lemma safe_write {A} (f : unit → prog (faaE T) A) k v Q γ :
  (k < Z.to_nat CAPACITY)%nat → value_of ops i = Some v → fat i (Some (k, FpStoring i)) false None γ →
  (∀ γ', fat i (Some (k, FpWritten i)) true None γ' → safe (f tt) Q γ') →
  safe (act (FWrite (Z.of_nat k) v) ≫= f) Q γ.
Proof using Hi.
  intros Hk Hv Hf Hnext. apply cwp_act_bind; [done|]. intros γ' s Hr HI.
  pose proof (fat_rely _ _ _ _ _ _ Hf Hr) as Hf'. destruct (fa_at _ _ _ _ _ Hf' k _ eq_refl) as [E _].
  cbn [handle faa_handler]. rewrite (faa_get_ok γ' s k HI Hk), E. cbn [mbind option_bind phys fs_state faa_reply].
  assert (fg_val γ' i = WNone) as Hn by (by apply (fa_sent _ _ _ _ _ Hf')).
  exists (fg_move k (FpWritten i) i (WIn k) γ'). rewrite <- Hv.
  split; [apply guar_send; [right; by rewrite E|by right|done]|].
  split; [apply inv_send; [done..|by rewrite Hv]|]. apply Hnext.
  eapply (fat_upd _ _ _ _ k (FpWritten i)); [done|right; by eexists|by right| |].
  - by rewrite upd_eq.
  - intros j. unfold upd. case_decide; [done|]. apply Hf'.
Qed.

(** The value is moved out of the cell. *)
Lemma safe_read {A} (f : T → prog (faaE T) A) k j Q γ :
  (k < Z.to_nat CAPACITY)%nat → fat i (Some (k, FpTaking i j)) false None γ →
  (∀ γ' v, value_of ops j = Some v → fat i (Some (k, FpRead i)) false (Some j) γ' → safe (f v) Q γ') →
  safe (act (FRead (Z.of_nat k)) ≫= f) Q γ.
Proof using Hi.
  intros Hk Hf Hnext. apply cwp_act_bind; [done|]. intros γ' s Hr HI.
  pose proof (fat_rely _ _ _ _ _ _ Hf Hr) as Hf'. destruct (fa_at _ _ _ _ _ Hf' k _ eq_refl) as [E _].
  assert (fg_val γ' j = WIn k) as Hn by (apply (fi_in _ _ _ HI); by rewrite E).
  destruct (fi_push _ _ _ HI j) as [v Hv]; [by rewrite Hn|].
  cbn [handle faa_handler]. rewrite (faa_get_ok γ' s k HI Hk), E. cbn [mbind option_bind phys fs_state fs_value].
  rewrite Hv. cbn [faa_reply]. exists (fg_move k (FpRead i) j (WTaken i) γ').
  split; [apply guar_take; [right; by rewrite E|by right|done]|].
  split; [by apply faa_inv_take|]. apply Hnext; [done|].
  eapply (fat_upd _ _ _ _ k (FpRead i)); [done|right; by eexists|by right| |].
  - unfold upd. case_decide; [|apply Hf']. subst. assert (fg_val γ' j = WNone) as Hn'; [|congruence].
    by apply (fa_sent _ _ _ _ _ Hf').
  - intros j'. unfold upd. case_decide; [by subst|]. rewrite (fa_got _ _ _ _ _ Hf'). naive_solver.
Qed.

(** ** Calls *)

(** What a returned call has done. *)
Definition faa_post (r : option T) γ : Prop :=
  match ops !! i with
  | Some (FaaPush v) => r = None ∧ fat i None true None γ
  | Some FaaPop =>
      match r with
      | None => fat i None false None γ
      | Some v => ∃ j, value_of ops j = Some v ∧ fat i None false (Some j) γ
      end
  | None => False
  end.

Lemma faa_post_stable r γ γ' : faa_post r γ → faa_rely i γ γ' → faa_post r γ'.
Proof.
  unfold faa_post. intros HP Hr. destruct (ops !! i) as [[v|]|]; [| |done].
  - destruct HP as [? HP]. split; [done|by eapply fat_rely].
  - destruct r as [v|]; [|by eapply fat_rely]. destruct HP as (j & ? & HP). exists j. split; [done|by eapply fat_rely].
Qed.

(** Loads and reservations change nothing the invariant speaks of. *)
Lemma safe_word {A} (e : faaE T Z) (f : Z → prog (faaE T) A) o sent got Q γ :
  (∀ s, spurious e s = None) →
  (∀ s, ∃ x s', handle e s = Next x s' ∧ f_ring s' = f_ring s ∧ f_dropped s' = f_dropped s) →
  fat i o sent got γ → (∀ γ' x, fat i o sent got γ' → safe (f x) Q γ') → safe (act e ≫= f) Q γ.
Proof.
  intros Hsp He Hf Hnext. apply cwp_act_bind; [done|]. intros γ' s Hr HI. destruct (He s) as (x & s' & -> & Er & Ed).
  exists γ'. split; [apply faa_guar_refl|]. split; [by destruct HI; split; rewrite ?Er, ?Ed|]. apply Hnext. by eapply fat_rely.
Qed.

Lemma safe_faa_push fuel v γ : ops !! i = Some (FaaPush v) → fat i None false None γ →
  safe (faa_call fuel (FaaPush v)) faa_post γ.
Proof using Hi.
  intros Ho Hf. assert (value_of ops i = Some v) as Hv by (unfold value_of; by rewrite Ho).
  unfold faa_call, faa_push. eapply safe_word; [done|intros s; by do 2 eexists|exact Hf|]. intros γ1 pos Hf1.
  destruct (faa_slot_ok pos) as (k & Hk & ->). cbn [prog_bind mbind prog_mbind].
  apply cwp_bind, cwp_bind. eapply cwp_mono.
  { eapply (safe_acquire fuel k EMPTY WRITING (λ _ γ, fat i (Some (k, FpWriting i)) false None γ)); [done|exact Hf1|].
    intros γ' s _ _ E. exists (FpWriting i). by destruct (fg_st γ' k). }
  intros [] γ2 Hf2. eapply (safe_own_step _ _ k (FpWriting i) (FpStoring i)); [done|done|by right|done|done| |done|].
  { intros s Hs. cbn [handle faa_handler]. by rewrite Hs. }
  intros γ3 Hf3. apply (safe_write _ k v); [done..|]. intros γ4 Hf4.
  eapply (safe_own_step _ _ k (FpWritten i) (FpFull i)); [done|done|by left|done|done| |done|].
  { intros s Hs. cbn [handle faa_handler]. by rewrite Hs. }
  intros γ5 Hf5. apply cwp_ret. unfold faa_post. by rewrite Ho.
Qed.

Lemma safe_faa_pop fuel γ : ops !! i = Some FaaPop → fat i None false None γ → safe (faa_call fuel FaaPop) faa_post γ.
Proof using Hi.
  intros Ho Hf. unfold faa_call, faa_try_pop. do 2 (eapply safe_word; [done|intros s; by do 2 eexists|exact Hf|]; clear γ Hf; intros γ ? Hf).
  case_match; [apply cwp_ret; unfold faa_post; by rewrite Ho|].
  eapply safe_word; [done|intros s; by do 2 eexists|exact Hf|]. intros γ1 pos Hf1.
  destruct (faa_slot_ok pos) as (k & Hk & ->). cbn [prog_bind mbind prog_mbind].
  apply cwp_bind. eapply cwp_mono.
  { eapply (safe_acquire fuel k FULL READING (λ _ γ, ∃ j, fat i (Some (k, FpReading i j)) false None γ)); [done|exact Hf1|].
    intros γ' s _ _ E. destruct (fg_st γ' k) as [|j|j|j|j|j j'|j j'|j] eqn:Est; try done.
    exists (FpReading i j). split_and!; try done. intros Hf'. by exists j. }
  intros [] γ2 [j Hf2]. eapply (safe_own_step _ _ k (FpReading i j) (FpTaking i j)); [done|done|by right|done|done| |done|].
  { intros s Hs. cbn [handle faa_handler]. by rewrite Hs. }
  intros γ3 Hf3. apply (safe_read _ k j); [done..|]. intros γ4 v Hv Hf4.
  eapply (safe_own_step _ _ k (FpRead i) FpEmpty); [done|done|by left|done|done| |done|].
  { intros s Hs. cbn [handle faa_handler]. by rewrite Hs. }
  intros γ5 Hf5. apply cwp_ret. unfold faa_post. rewrite Ho. by exists j.
Qed.

End faa_threads.

(** ** Lists of optional values *)

Section omaps.
Context {A B C : Type}.

Lemma NoDup_omap (f : A → option B) l :
  (∀ x y b, f x = Some b → f y = Some b → x = y) → NoDup l → NoDup (omap f l).
Proof.
  intros Hinj. induction 1 as [|x l Hx Hl IH]; [constructor|]. cbn [omap list_omap].
  destruct (f x) as [b|] eqn:E; [|done]. constructor; [|done].
  intros (y & Hy & Hb)%list_elem_of_omap. by rewrite (Hinj x y b) in Hx.
Qed.

Lemma omap_filter (f : A → option B) (l : list A) : omap f (filter (λ x, is_Some (f x)) l) = omap f l.
Proof.
  induction l as [|x l IH]; [done|]. rewrite filter_cons. case_decide as Hd; cbn [omap list_omap].
  - destruct (f x); by rewrite IH.
  - by rewrite (proj2 (eq_None_not_Some (f x)) Hd).
Qed.

Lemma omap_omap (f : A → option B) (g : B → option C) (l : list A) : omap g (omap f l) = omap (λ x, f x ≫= g) l.
Proof. induction l as [|x l IH]; [done|]. cbn [omap list_omap]. destruct (f x); cbn [omap list_omap mbind option_bind]; by rewrite IH. Qed.

(** A list as what its indices give. *)
Lemma omap_index (f : A → option B) (g : nat → option B) (l : list A) n : length l = n →
  (∀ k x, l !! k = Some x → g k = f x) → omap g (seq 0 n) = omap f l.
Proof.
  intros Hl Hg. apply list_omap_ext. apply Forall2_same_length_lookup_2; [by rewrite length_seq|].
  intros k j x [-> _]%lookup_seq Hx. by apply Hg.
Qed.

End omaps.

(** ** The destructor *)

Section faa_drop.
Context {T : Type}.
Implicit Types s : faamem T.

(** Nothing here allocates, so nothing ends the process. *)
Lemma faa_not_aborted {A} (p : prog (faaE T) A) s : run p s ≠ Aborted.
Proof.
  revert s. induction p as [a|X e k IH| |]; intros s; cbn [run]; try done.
  destruct (handle e s) eqn:E; [apply IH|done|]. exfalso. destruct e; cbn [handle faa_handler] in E; try done;
    unfold faa_reply in E; by repeat case_match.
Qed.

(** The live values of the ring. *)
Definition full_value (sl : FaaSlot T) : option T := if fs_state sl =? FULL then fs_value sl else None.

Lemma faa_drop_all s :
  length (f_ring s) = Z.to_nat CAPACITY → Forall (λ sl, fs_state sl = FULL → is_Some (fs_value sl)) (f_ring s) →
  wp NaiveFaaQueue_drop s (λ _ s', f_dropped s' = f_dropped s ++ omap full_value (f_ring s)).
Proof.
  intros Hlen Hfull. unfold NaiveFaaQueue_drop.
  apply (wp_for_range (λ k s', f_dropped s' = f_dropped s ++ omap full_value (take (Z.to_nat k) (f_ring s)) ∧
    ∀ n, (Z.to_nat k ≤ n)%nat → f_ring s' !! n = f_ring s !! n)).
  - split; [by rewrite app_nil_r|done].
  - intros k s1 Hk [Hd Hr]. destruct (lookup_lt_is_Some_2 (f_ring s) (Z.to_nat k)) as [sl Hsl]; [lia|].
    replace (Z.to_nat (k + 1)) with (S (Z.to_nat k)) by lia. erewrite take_S_r by exact Hsl. rewrite omap_app.
    assert (faa_get k s1 = Some sl) as Hg by (unfold faa_get; by rewrite Hr).
    eapply wp_act_bind; [cbn [handle faa_handler]; by rewrite Hg|].
    cbn [omap list_omap]. unfold full_value at 2. destruct (Z.eqb_spec (fs_state sl) FULL) as [E|E].
    + destruct (Forall_lookup_1 _ _ _ _ Hfull Hsl E) as [v Hv]. rewrite Hv.
      eapply wp_act; [cbn [handle faa_handler]; rewrite Hg; cbn [mbind option_bind]; by rewrite Hv|].
      simpl. split; [by rewrite Hd, app_assoc|]. intros n Hn. rewrite list_lookup_insert_ne by lia. apply Hr. lia.
    + apply wp_ret. rewrite app_nil_r. split; [done|]. intros n Hn. apply Hr. lia.
  - intros s1 [Hd _]. rewrite Hd. rewrite take_ge by lia. done.
Qed.

End faa_drop.

(** ** Pools of calls *)

Section faa_pool.
Context {T : Type} (ops : list (faaop (T:=T))) (fuel : nat).
Notation N := (length ops).

Definition faa_start : list (prog (faaE T) (option T)) * faamem T := (faa_call fuel <$> ops, NaiveFaaQueue_new).

Definition faa_ghost0 : fghost := mkFg (λ _, FpEmpty) (λ _, WNone).

Lemma faa_new_inv : faa_inv ops faa_ghost0 NaiveFaaQueue_new.
Proof. split; try done. intros k Hk. by apply lookup_replicate_2. Qed.

Notation faa_ok := (pool_ok (faa_inv ops) faa_rely faa_guar spins (faa_post ops)).

Lemma faa_pool_start : faa_ok faa_start faa_ghost0.
Proof.
  split; [exact faa_new_inv|]. intros i q Hq. unfold faa_start in Hq. cbn [fst] in Hq. rewrite list_lookup_fmap in Hq.
  destruct (ops !! i) as [o|] eqn:Ho; [|done]. injection Hq as <-.
  assert (fat i None false None faa_ghost0) as Hf by done. pose proof (lookup_lt_Some _ _ _ Ho).
  destruct o; [by apply safe_faa_push|by apply safe_faa_pop].
Qed.

Lemma faa_reach c : rtc conc_step faa_start c → ∃ γ, faa_ok c γ.
Proof.
  intros Hc. destruct (pool_reach (faa_inv ops) faa_rely faa_guar spins faa_rg (λ _ _ _ _ _, I)
    (faa_post ops) faa_start c faa_ghost0 (λ i, faa_post_stable ops i) faa_pool_start Hc) as (γ & Hγ & _). eauto.
Qed.

(** The producer of the value that thread [i] has received. *)
Definition source γ (i : nat) : option nat := head (filter (λ j, fg_val γ j = WTaken i) (seq 0 N)).

Lemma value_of_lt j v : value_of ops j = Some v → (j < N)%nat.
Proof. unfold value_of. destruct (ops !! j) eqn:E; [|done]. intros _. by eapply lookup_lt_Some. Qed.

Lemma source_spec γ s i o sent got : faa_inv ops γ s → fat i o sent got γ → source γ i = got.
Proof.
  intros HI Hf. unfold source. destruct (filter _ _) as [|j l] eqn:E; cbn [head].
  - destruct got as [j|]; [|done]. pose proof (proj2 (fa_got _ _ _ _ _ Hf j) eq_refl) as Hj.
    destruct (fi_push _ _ _ HI j) as [v Hv%value_of_lt]; [by rewrite Hj|].
    exfalso. eapply filter_nil_not_elem_of; [exact E|exact Hj|]. apply elem_of_seq. lia.
  - assert (j ∈ filter (λ j, fg_val γ j = WTaken i) (seq 0 N)) as [Hj _]%list_elem_of_filter by (rewrite E; left).
    symmetry. by apply (fa_got _ _ _ _ _ Hf).
Qed.

(** No thread is about to race or to read a cell without a value, or has panicked, and
    each received value is the value of a producer that has only this consumer. *)
Definition faa_fine (c : list (prog (faaE T) (option T)) * faamem T) (from : nat → option nat) : Prop :=
  (∀ i i' j, from i = Some j → from i' = Some j → i = i') ∧
  ∀ i t, c.1 !! i = Some t →
    match t with
    | Ret (Some v) => ops !! i = Some FaaPop ∧ ∃ j, from i = Some j ∧ ops !! j = Some (FaaPush v)
    | Ret None | OutOfFuel => True
    | Vis e k => handle e c.2 ≠ Fault
    | Panic => False
    end.

Lemma source_taken γ i j : source γ i = Some j → fg_val γ j = WTaken i.
Proof.
  intros Hj. assert (j ∈ filter (λ j, fg_val γ j = WTaken i) (seq 0 N)) as [? _]%list_elem_of_filter; [|done].
  unfold source in Hj. destruct (filter _ _); [done|]. injection Hj as ->. left.
Qed.

Lemma value_of_Some j v : value_of ops j = Some v → ops !! j = Some (FaaPush v).
Proof. unfold value_of. destruct (ops !! j) as [[]|]; [|done..]. by intros [= ->]. Qed.

Lemma pool_fine_faa c γ : faa_ok c γ → faa_fine c (source γ).
Proof.
  intros Hok. split; [intros i i' j Hi%source_taken Hi'%source_taken; congruence|].
  intros i t Ht. destruct c as [ts s]. pose proof Hok as [HI _].
  pose proof (pool_fine _ _ _ spins faa_rg _ _ _ _ _ _ Hok Ht) as Hf.
  destruct t as [[v|]|X e k| |]; simpl in Hf; try done. unfold faa_post in Hf.
  destruct (ops !! i) as [[v'|]|]; [by destruct Hf| |done].
  destruct Hf as (j & Hv%value_of_Some & Hf). split; [done|]. exists j. split; [by eapply source_spec|done].
Qed.

(** ** When every call has returned *)

(** What thread [i] returned is the value of its source, and it works on no slot. *)
Lemma returned_source γ s i r : faa_inv ops γ s → faa_post ops i r γ →
  (source γ i ≫= value_of ops) = r ∧ (∀ k, owner (fg_st γ k) ≠ Some i) ∧
  (is_Some (value_of ops i) → fg_val γ i ≠ WNone) ∧ ∀ j, fg_val γ j = WTaken i → source γ i = Some j.
Proof.
  intros HI HP.
  assert (∃ sent got, fat i None sent got γ ∧ (got ≫= value_of ops) = r ∧ (is_Some (value_of ops i) → sent = true))
    as (sent & got & Hf & Hr & Hs).
  { unfold faa_post, value_of in *. destruct (ops !! i) as [[v|]|]; [| |done].
    - destruct HP as [-> HP]. by exists true, None.
    - destruct r as [v|]; [|exists false, None; split_and!; [done..|by intros []]].
      destruct HP as (j & Hv & HP). exists false, (Some j). split_and!; [done..|by intros []]. }
  split_and!.
  - by rewrite (source_spec γ s i None sent got).
  - intros k Hk%(fa_own _ _ _ _ _ Hf). done.
  - intros Hv Hn%(fa_sent _ _ _ _ _ Hf). by rewrite Hs in Hn.
  - intros j Hj%(fa_got _ _ _ _ _ Hf). by rewrite (source_spec γ s i None sent got).
Qed.

Section all_returned.
Context (rs : list (option T)) (s : faamem T) (γ : fghost).
Context (Hok : faa_ok (Ret <$> rs, s) γ) (Hlen : length rs = N).

Lemma all_returned i : (i < N)%nat →
  ∃ r, rs !! i = Some r ∧ (source γ i ≫= value_of ops) = r ∧ (∀ k, owner (fg_st γ k) ≠ Some i) ∧
    (is_Some (value_of ops i) → fg_val γ i ≠ WNone) ∧ ∀ j, fg_val γ j = WTaken i → source γ i = Some j.
Proof using Hok Hlen.
  intros Hi. destruct (lookup_lt_is_Some_2 rs i) as [r Hr]; [by rewrite Hlen|]. exists r. split; [done|].
  destruct Hok as [HI Hts]. apply (returned_source γ s); [exact HI|].
  specialize (Hts i (Ret r)). cbn [fst] in Hts. rewrite list_lookup_fmap, Hr in Hts. by apply Hts.
Qed.

Lemma faa_settled k : fg_st γ k = FpEmpty ∨ ∃ j, fg_st γ k = FpFull j.
Proof using Hok Hlen.
  destruct Hok as [HI _]. destruct (owner (fg_st γ k)) as [i|] eqn:E.
  - pose proof (fi_owner _ _ _ HI k i E) as Hi. destruct (all_returned i Hi) as (r & _ & _ & Ho & _). by apply Ho in E.
  - destruct (fg_st γ k); try done; eauto.
Qed.

(** The producers whose values are in the ring and those whose values were received are
    all the producers. *)
Lemma producers_split :
  omap (λ k, held_by (fg_st γ k)) (seq 0 (Z.to_nat CAPACITY)) ++ omap (source γ) (seq 0 N) ≡ₚ
  filter (λ j, is_Some (value_of ops j)) (seq 0 N).
Proof using Hok Hlen.
  pose proof Hok as [HI _]. cbn [snd] in HI. apply NoDup_Permutation.
  - apply NoDup_app. split_and!.
    + apply NoDup_omap; [|apply NoDup_seq]. intros k k' j Hj%(fi_in _ _ _ HI) Hj'%(fi_in _ _ _ HI). congruence.
    + intros j (k & _ & Hk%(fi_in _ _ _ HI))%list_elem_of_omap (i & _ & Hj%source_taken)%list_elem_of_omap. congruence.
    + apply NoDup_omap; [|apply NoDup_seq]. intros i i' j Hj%source_taken Hj'%source_taken. congruence.
  - apply NoDup_filter, NoDup_seq.
  - intros j. rewrite elem_of_app, !list_elem_of_omap, list_elem_of_filter.
    assert (is_Some (value_of ops j) → j ∈ seq 0 N) as HN by (intros [v Hv%value_of_lt]; apply elem_of_seq; lia).
    split.
    + intros [(k & _ & Hk%(fi_in _ _ _ HI))|(i & _ & Hi%source_taken)];
        (assert (is_Some (value_of ops j)) by (apply (fi_push _ _ _ HI); congruence); by auto).
    + intros [Hv Hj]. assert (j < N)%nat as Hlt by (apply elem_of_seq in Hj; lia).
      destruct (all_returned j Hlt) as (r & _ & _ & _ & Hn & _). specialize (Hn Hv).
      destruct (fg_val γ j) as [|k|i] eqn:E; [done| |].
      * left. exists k. apply (fi_in _ _ _ HI) in E. split; [|done]. apply elem_of_seq.
        pose proof (fi_out _ _ _ HI k). destruct (fg_st γ k); try done; naive_solver lia.
      * right. exists i. pose proof (fi_taker _ _ _ HI j i E) as Hi. split; [apply elem_of_seq; lia|].
        destruct (all_returned i Hi) as (? & _ & _ & _ & _ & Hsrc). by apply Hsrc.
Qed.

(** The values in the ring. *)
Lemma ring_values : omap full_value (f_ring s) =
  omap (λ k, held_by (fg_st γ k) ≫= value_of ops) (seq 0 (Z.to_nat CAPACITY)).
Proof using Hok Hlen.
  destruct Hok as [HI _]. cbn [snd] in HI. symmetry. apply omap_index; [apply HI|]. intros k sl Hk.
  rewrite (fi_ring _ _ _ HI) in Hk by (apply lookup_lt_Some in Hk; by rewrite (fi_len _ _ _ HI) in Hk).
  injection Hk as <-. by destruct (faa_settled k) as [->|[j ->]].
Qed.

Lemma ring_live : Forall (λ sl, fs_state sl = FULL → is_Some (fs_value sl)) (f_ring s).
Proof using Hok Hlen.
  destruct Hok as [HI _]. cbn [snd] in HI. apply Forall_lookup. intros k sl Hk.
  rewrite (fi_ring _ _ _ HI) in Hk by (apply lookup_lt_Some in Hk; by rewrite (fi_len _ _ _ HI) in Hk).
  injection Hk as <-. destruct (faa_settled k) as [->|[j E]]; [done|]. rewrite E. intros _. simpl.
  apply (fi_push _ _ _ HI). rewrite (proj2 (fi_in _ _ _ HI j k)); [done|by rewrite E].
Qed.

(** What the calls returned. *)
Lemma faa_received : omap id rs = omap (λ i, source γ i ≫= value_of ops) (seq 0 N).
Proof using Hok Hlen.
  symmetry. apply omap_index; [done|]. intros i r Hr.
  destruct (all_returned i) as (r' & Hr' & Hs & _); [rewrite <- Hlen; by eapply lookup_lt_Some|]. rewrite Hs. by simplify_eq.
Qed.

Lemma drop_conserves : ∃ s', run NaiveFaaQueue_drop s = Done tt s' ∧
  f_dropped s' ++ omap id rs ≡ₚ omap (value_of ops) (seq 0 N).
Proof using Hok Hlen.
  pose proof Hok as [HI _]. cbn [snd] in HI. pose proof (faa_drop_all s (fi_len _ _ _ HI) ring_live) as Hw.
  pose proof (faa_not_aborted NaiveFaaQueue_drop s) as Hna.
  unfold wp in Hw. destruct (run NaiveFaaQueue_drop s) as [[] s'| | | |]; try done.
  exists s'. split; [done|]. rewrite Hw, (fi_dropped _ _ _ HI), ring_values, faa_received. cbn [app].
  rewrite <- !omap_omap, <- omap_app, producers_split. by rewrite omap_filter.
Qed.

End all_returned.

End faa_pool.

Lemma conc_length {E St} `{Handler E St, !Spurious E St} {A} (c c' : list (prog E A) * St) :
  rtc conc_step c c' → length c'.1 = length c.1.
Proof. induction 1 as [|c1 c2 c3 Hs _ IH]; [done|]. rewrite IH. destruct Hs; apply length_insert. Qed.

(** The values the calls send. *)
Definition faa_sent {T} (ops : list (faaop (T:=T))) : list T :=
  omap (λ o, match o with FaaPush v => Some v | FaaPop => None end) ops.

Lemma faa_sent_values {T} (ops : list (faaop (T:=T))) : omap (value_of ops) (seq 0 (length ops)) = faa_sent ops.
Proof. apply omap_index; [done|]. intros k o Hk. unfold value_of. by rewrite Hk. Qed.

(** ** The properties *)

(** C17: whatever the interleaving of any number of calls, no two threads access the cell
    of a slot at the same time, no cell is read that holds no value, no call panics, and
    every value a [try_pop] returns is the value of a [push] that no other [try_pop]
    answers to. *)
Theorem faa_safe {T} (ops : list (faaop (T:=T))) fuel c :
  rtc conc_step (faa_start ops fuel) c → ∃ from, faa_fine ops c from.
Proof. intros [γ Hγ]%faa_reach. exists (source ops γ). by apply pool_fine_faa. Qed.

(** C18: when all calls have returned, the destructor drops exactly the values that were
    sent and not received, each once. *)
Theorem faa_conserves {T} (ops : list (faaop (T:=T))) fuel rs s :
  rtc conc_step (faa_start ops fuel) (Ret <$> rs, s) →
  ∃ s', run NaiveFaaQueue_drop s = Done tt s' ∧ f_dropped s' ++ omap id rs ≡ₚ faa_sent ops.
Proof.
  intros Hr. pose proof (conc_length _ _ Hr) as Hl. cbn [fst faa_start] in Hl. rewrite !length_fmap in Hl.
  destruct (faa_reach _ _ _ Hr) as [γ Hγ]. rewrite <- faa_sent_values. by apply (drop_conserves ops rs s γ).
Qed.

(** ** Witnesses *)

(** Two producers that overlap, and a consumer. *)
Definition faa_ops : list (faaop (T:=Z)) := [FaaPush 1; FaaPush 2; FaaPop].

Definition faa_sched : list nat := [0; 1; 0; 1; 1; 0; 1; 0; 0; 2; 2; 1; 2; 2; 2; 2; 2]%nat.

Definition faa_end : faamem Z :=
  match run_sched faa_sched (faa_start faa_ops 2) with Some (_, s) => s | None => NaiveFaaQueue_new end.

Lemma faa_safe_witness : ∃ from, faa_fine faa_ops (Ret <$> [None; None; Some 1], faa_end) from.
Proof. apply (faa_safe faa_ops 2), (run_sched_rtc faa_sched). vm_compute. reflexivity. Defined.

Lemma faa_conserves_witness :
  ∃ s', run NaiveFaaQueue_drop faa_end = Done tt s' ∧ f_dropped s' ++ omap id [None; None; Some 1] ≡ₚ faa_sent faa_ops.
Proof. apply (faa_conserves faa_ops 2), (run_sched_rtc faa_sched). vm_compute. reflexivity. Defined.
