(* ===== verification/FaaSeq.v ===== *)
(** * The fetch-and-add baseline called by one thread: a bounded FIFO queue *)

From S2P Require Import Prelude Prog FaaQueue.

Section faa_seq.
Context {T : Type}.
Implicit Types (s : faamem T) (q : list T).

(** The slot [k] when the values [q] start at position [h]. *)
Definition ring_slot (h : Z) q (k : Z) : FaaSlot T :=
  match q !! Z.to_nat ((k - h) mod CAPACITY) with
  | Some v => mkFaaSlot FULL (Some v) false
  | None => FaaSlot_new
  end.

(** The queue holds the values [q]. *)
Record faa_abs s q : Prop := {
  ab_head : 0 ≤ f_head s;
  ab_tail : f_tail s = f_head s + Z.of_nat (length q);
  ab_word : f_tail s ≤ usize_max;
  ab_cap : Z.of_nat (length q) ≤ CAPACITY;
  ab_len : length (f_ring s) = Z.to_nat CAPACITY;
  ab_ring : ∀ k, 0 ≤ k < CAPACITY → f_ring s !! Z.to_nat k = Some (ring_slot (f_head s) q k)
}.

Lemma faa_new_abs : faa_abs NaiveFaaQueue_new [].
Proof. split; try done. intros k Hk. apply lookup_replicate_2. lia. Qed.

Lemma faa_slot_mod pos : faa_slot (T:=T) pos = Ret (pos mod CAPACITY).
Proof.
  unfold faa_slot. change MASK with (Z.ones 8). rewrite Z.land_ones by lia. change (2 ^ 8) with CAPACITY.
  pose proof (Z.mod_pos_bound pos CAPACITY eq_refl). by rewrite (proj2 (Z.ltb_lt _ _)) by lia.
Qed.

(** ** Runs on one slot *)

Lemma faa_set_set k sl sl' s : faa_set k sl' (faa_set k sl s) = faa_set k sl' s.
Proof. unfold faa_set. simpl. by rewrite list_insert_insert_eq. Qed.

Lemma faa_acquire_won fuel k old new s sl : fuel ≠ O → faa_get k s = Some sl → fs_state sl = old →
  run (faa_acquire fuel k old new) s = Done tt (faa_set k (mkFaaSlot new (fs_value sl) (fs_busy sl)) s).
Proof.
  intros Hf Hg Hst. destruct fuel as [|fuel]; [done|]. unfold faa_acquire. cbn [loop].
  erewrite run_bind, run_act_bind; [|cbn [handle faa_handler]; rewrite Hg; cbn [mbind option_bind]; by rewrite Hst, Z.eqb_refl].
  done.
Qed.

Lemma faa_acquire_lost fuel k old new s sl : faa_get k s = Some sl → fs_state sl ≠ old →
  run (faa_acquire fuel k old new) s = Stuck s.
Proof.
  intros Hg Hst. unfold faa_acquire. induction fuel as [|fuel IH]; [done|]. cbn [loop].
  erewrite run_bind, run_act_bind;
    [|cbn [handle faa_handler]; rewrite Hg; cbn [mbind option_bind]; by rewrite (proj2 (Z.eqb_neq _ _) Hst)].
  exact IH.
Qed.

(** The cell is written and the slot is full. *)
Lemma faa_store_run k s v : faa_get k s = Some (mkFaaSlot WRITING None false) →
  run (act (FBegin k);; act (FWrite k v);; act (FStore k FULL)) s =
  Done tt (faa_set k (mkFaaSlot FULL (Some v) false) s).
Proof.
  intros Hg. assert (Z.to_nat k < length (f_ring s))%nat as Hk by (by eapply lookup_lt_Some).
  assert (∀ sl, faa_get k (faa_set k sl s) = Some sl) as Hs by (intros; by apply list_lookup_insert_eq).
  erewrite run_act_bind; [|cbn [handle faa_handler]; by rewrite Hg]. cbn [fs_busy fs_state fs_value].
  erewrite run_act_bind; [|cbn [handle faa_handler]; by rewrite Hs]. rewrite faa_set_set. cbn [fs_busy fs_state fs_value].
  erewrite run_act; [|cbn [handle faa_handler]; by rewrite Hs]. by rewrite faa_set_set.
Qed.

(** The value is moved out and the slot is empty. *)
Lemma faa_load_run k s v : faa_get k s = Some (mkFaaSlot READING (Some v) false) →
  run (act (FBegin k);; value ← act (FRead k); act (FStore k EMPTY);; Ret (Some value)) s =
  Done (Some v) (faa_set k FaaSlot_new s).
Proof.
  intros Hg. assert (Z.to_nat k < length (f_ring s))%nat as Hk by (by eapply lookup_lt_Some).
  assert (∀ sl, faa_get k (faa_set k sl s) = Some sl) as Hs by (intros; by apply list_lookup_insert_eq).
  erewrite run_act_bind; [|cbn [handle faa_handler]; by rewrite Hg]. cbn [fs_busy fs_state fs_value].
  erewrite run_act_bind; [|cbn [handle faa_handler]; by rewrite Hs]. rewrite faa_set_set. cbn [fs_busy fs_state fs_value].
  erewrite run_act_bind; [|cbn [handle faa_handler]; by rewrite Hs]. by rewrite faa_set_set.
Qed.

(** ** Positions *)

Lemma ring_slot_tail h q : Z.of_nat (length q) < CAPACITY →
  ring_slot h q ((h + Z.of_nat (length q)) mod CAPACITY) = FaaSlot_new.
Proof.
  intros Hl. unfold ring_slot. rewrite Zminus_mod_idemp_l. replace (h + Z.of_nat (length q) - h) with (Z.of_nat (length q)) by lia.
  rewrite Z.mod_small by lia. by rewrite lookup_ge_None_2 by lia.
Qed.

Lemma ring_slot_head h v q : ring_slot h (v :: q) (h mod CAPACITY) = mkFaaSlot FULL (Some v) false.
Proof. unfold ring_slot. rewrite Zminus_mod_idemp_l, Z.sub_diag. done. Qed.

Lemma ring_slot_push h q v k : Z.of_nat (length q) < CAPACITY → 0 ≤ k < CAPACITY →
  ring_slot h (q ++ [v]) k =
  if decide (k = (h + Z.of_nat (length q)) mod CAPACITY) then mkFaaSlot FULL (Some v) false else ring_slot h q k.
Proof.
  intros Hl Hk. unfold ring_slot. set (m := (k - h) mod CAPACITY).
  assert (k = (h + m) mod CAPACITY) as Ek.
  { unfold m. rewrite Zplus_mod_idemp_r. replace (h + (k - h)) with k by lia. by rewrite Z.mod_small. }
  assert (0 ≤ m < CAPACITY) as Hm by (apply Z.mod_pos_bound; done). case_decide as E.
  - assert (m = Z.of_nat (length q)) as ->.
    { unfold m. rewrite E, Zminus_mod_idemp_l. replace (h + Z.of_nat (length q) - h) with (Z.of_nat (length q)) by lia.
      apply Z.mod_small. lia. }
    rewrite Nat2Z.id. by rewrite list_lookup_middle.
  - destruct (decide (m < Z.of_nat (length q))); [by rewrite lookup_app_l by lia|].
    rewrite !lookup_ge_None_2; [done|lia|]. rewrite length_app. simpl.
    assert (m ≠ Z.of_nat (length q)) by (intros Em; apply E; by rewrite <- Em). lia.
Qed.

Lemma ring_slot_pop h q v k : Z.of_nat (length (v :: q)) ≤ CAPACITY → 0 ≤ k < CAPACITY →
  ring_slot (h + 1) q k = if decide (k = h mod CAPACITY) then FaaSlot_new else ring_slot h (v :: q) k.
Proof.
  intros Hl Hk. cbn [length] in Hl. unfold ring_slot. set (m := (k - h) mod CAPACITY).
  assert (k = (h + m) mod CAPACITY) as Ek.
  { unfold m. rewrite Zplus_mod_idemp_r. replace (h + (k - h)) with k by lia. by rewrite Z.mod_small. }
  assert (0 ≤ m < CAPACITY) as Hm by (apply Z.mod_pos_bound; done).
  assert ((k - (h + 1)) mod CAPACITY = (m - 1) mod CAPACITY) as ->.
  { unfold m. rewrite Zminus_mod_idemp_l. f_equal. lia. }
  case_decide as E.
  - assert (m = 0) as -> by (unfold m; by rewrite E, Zminus_mod_idemp_l, Z.sub_diag).
    rewrite lookup_ge_None_2; [done|]. change (Z.to_nat ((0 - 1) mod CAPACITY)) with 255%nat. unfold CAPACITY in Hl. lia.
  - assert (m ≠ 0) by (intros Em; apply E; rewrite Ek, Em; f_equal; lia). rewrite (Z.mod_small (m - 1)) by lia.
    replace (Z.to_nat m) with (S (Z.to_nat (m - 1))) by lia. done.
Qed.

(** ** Operations *)

Context (fuel : nat).

Lemma abs_get s q pos : faa_abs s q →
  faa_get (pos mod CAPACITY) s = Some (ring_slot (f_head s) q (pos mod CAPACITY)).
Proof. intros HA. apply HA. apply Z.mod_pos_bound. done. Qed.

(** Changing the slot at [pos]. *)
Lemma ring_upd s q pos sl k : faa_abs s q → 0 ≤ k < CAPACITY →
  <[Z.to_nat (pos mod CAPACITY) := sl]> (f_ring s) !! Z.to_nat k =
  Some (if decide (k = pos mod CAPACITY) then sl else ring_slot (f_head s) q k).
Proof.
  intros HA Hk. pose proof (Z.mod_pos_bound pos CAPACITY eq_refl). case_decide as E.
  - rewrite E. apply list_lookup_insert_eq. rewrite (ab_len _ _ HA). lia.
  - rewrite list_lookup_insert_ne by lia. by apply HA.
Qed.

Lemma faa_push_run s q v : fuel ≠ O → faa_abs s q → Z.of_nat (length q) < CAPACITY → f_tail s < usize_max →
  ∃ s', run (faa_push fuel v) s = Done tt s' ∧ faa_abs s' (q ++ [v]) ∧ f_tail s' = f_tail s + 1.
Proof.
  intros Hf HA Hl Ht. unfold faa_push. erewrite run_act_bind by reflexivity. rewrite faa_slot_mod.
  set (s1 := mkFaa (f_ring s) (f_head s) (wrapping (f_tail s + 1)) (f_dropped s)). set (k := f_tail s mod CAPACITY).
  assert (faa_get k s1 = Some FaaSlot_new) as Hg.
  { change (faa_get k s = Some FaaSlot_new). unfold k. rewrite (abs_get s q) by done.
    rewrite (ab_tail _ _ HA). by rewrite ring_slot_tail. }
  change (Ret ?a ≫= ?f) with (f a). cbv beta.
  erewrite run_bind, (faa_acquire_won fuel k _ _ s1); [|done|exact Hg|done]. cbn [fs_value fs_busy FaaSlot_new].
  erewrite faa_store_run by (apply list_lookup_insert_eq; by eapply lookup_lt_Some). rewrite faa_set_set.
  assert (wrapping (f_tail s + 1) = f_tail s + 1) as Ew
    by (pose proof (ab_head _ _ HA); pose proof (ab_tail _ _ HA); unfold wrapping; rewrite Z.mod_small; unfold usize_max in *; lia).
  eexists. split; [reflexivity|]. destruct HA as [Hh Hta Hw Hc Hle Hr]. split; [|exact Ew].
  split; cbn [f_head f_tail f_ring faa_set s1]; rewrite ?length_app, ?Ew; cbn [length]; try lia.
  - by rewrite length_insert.
  - intros k' Hk'. unfold k. rewrite (ring_upd s q) by done. by rewrite Hta, ring_slot_push.
Qed.

Lemma faa_push_full s q v : faa_abs s q → Z.of_nat (length q) = CAPACITY → ∃ s', run (faa_push fuel v) s = Stuck s'.
Proof.
  intros HA Hl. unfold faa_push. erewrite run_act_bind by reflexivity. rewrite faa_slot_mod.
  change (Ret ?a ≫= ?f) with (f a). cbv beta. set (s1 := mkFaa _ _ _ _). destruct q as [|w q]; [done|].
  assert (faa_get (f_tail s mod CAPACITY) s1 = Some (mkFaaSlot FULL (Some w) false)) as Hg.
  { change (faa_get (f_tail s mod CAPACITY) s = Some (mkFaaSlot FULL (Some w) false)). rewrite (abs_get s (w :: q)) by done.
    rewrite (ab_tail _ _ HA), Hl. replace ((f_head s + CAPACITY) mod CAPACITY) with (f_head s mod CAPACITY) by (by rewrite <- (Z.mod_add _ 1) by done).
    by rewrite ring_slot_head. }
  erewrite run_bind, (faa_acquire_lost fuel _ _ _ s1); [|exact Hg|done]. by eexists.
Qed.

Lemma faa_pop_run s q v : fuel ≠ O → faa_abs s (v :: q) →
  ∃ s', run (faa_try_pop fuel) s = Done (Some v) s' ∧ faa_abs s' q ∧ f_tail s' = f_tail s.
Proof.
  intros Hf HA. pose proof HA as [Hh Hta Hw Hc Hle Hr]. cbn [length] in *. unfold faa_try_pop.
  erewrite run_act_bind by reflexivity. erewrite run_act_bind by reflexivity.
  rewrite (proj2 (Z.leb_gt (f_tail s) (f_head s))) by lia. erewrite run_act_bind by reflexivity. rewrite faa_slot_mod.
  change (Ret ?a ≫= ?f) with (f a). cbv beta. set (s1 := mkFaa _ _ _ _). set (k := f_head s mod CAPACITY).
  assert (faa_get k s1 = Some (mkFaaSlot FULL (Some v) false)) as Hg.
  { change (faa_get k s = Some (mkFaaSlot FULL (Some v) false)). unfold k. rewrite (abs_get s (v :: q)) by done.
    by rewrite ring_slot_head. }
  erewrite run_bind, (faa_acquire_won fuel k _ _ s1); [|done|exact Hg|done]. cbn [fs_value fs_busy].
  erewrite faa_load_run by (apply list_lookup_insert_eq; by eapply lookup_lt_Some). rewrite faa_set_set.
  eexists. split; [reflexivity|].
  assert (wrapping (f_head s + 1) = f_head s + 1) as Ew by (unfold wrapping; rewrite Z.mod_small; unfold usize_max in *; lia).
  split; [|done]. split; cbn [f_head f_tail f_ring faa_set s1]; rewrite ?Ew; try lia.
  - by rewrite length_insert.
  - intros k' Hk'. unfold k. rewrite (ring_upd s (v :: q)) by done. by rewrite (ring_slot_pop _ q v).
Qed.

Lemma faa_pop_empty s : faa_abs s [] → run (faa_try_pop fuel) s = Done None s.
Proof.
  intros HA. unfold faa_try_pop. erewrite run_act_bind by reflexivity. erewrite run_act_bind by reflexivity.
  rewrite (ab_tail _ _ HA), (proj2 (Z.leb_le _ _)) by (simpl; lia). done.
Qed.

(** Called by one thread, the queue is a bounded FIFO: while fewer than 256 values
    are in it [push] returns and appends its value, with 256 values [push] spins for
    ever, and [try_pop] returns the oldest value, or nothing when there is none. *)
Theorem faa_fifo s q : fuel ≠ O → faa_abs s q → f_tail s < usize_max →
  (∀ v, Z.of_nat (length q) < CAPACITY → ∃ s', run (faa_push fuel v) s = Done tt s' ∧ faa_abs s' (q ++ [v])) ∧
  (∀ v, Z.of_nat (length q) = CAPACITY → ∃ s', run (faa_push fuel v) s = Stuck s') ∧
  match q with
  | [] => run (faa_try_pop fuel) s = Done None s
  | v :: q => ∃ s', run (faa_try_pop fuel) s = Done (Some v) s' ∧ faa_abs s' q
  end.
Proof.
  intros Hf HA Ht. split; [|split].
  - intros v Hl. destruct (faa_push_run s q v) as (s' & ? & ? & _); eauto.
  - intros v Hl. by apply (faa_push_full s q).
  - destruct q as [|v q]; [by apply faa_pop_empty|]. destruct (faa_pop_run s q v) as (s' & ? & ? & _); eauto.
Qed.

End faa_seq.

Lemma faa_fifo_witness :
  (∀ v : Z, 0 < CAPACITY → ∃ s', run (faa_push 1 v) NaiveFaaQueue_new = Done tt s' ∧ faa_abs s' ([] ++ [v])) ∧
  (∀ v : Z, 0 = CAPACITY → ∃ s', run (faa_push 1 v) NaiveFaaQueue_new = Stuck s') ∧
  run (faa_try_pop (T:=Z) 1) NaiveFaaQueue_new = Done None NaiveFaaQueue_new.
Proof. apply (faa_fifo 1 NaiveFaaQueue_new []); [done|apply faa_new_abs|done]. Defined.

(** ** The fetch-and-add baseline is not a FIFO queue

    A slot does not say which lap of the ring it serves.  A producer that stalls after it
    took its position is overtaken by the producer that takes the position 256 further
    on, which finds the slot still empty. *)

(** A producer of one value, a producer of the values 1 to 256, and a consumer. *)
Definition faa_racers : list (prog (faaE Z) (list (option Z))) :=
  [faa_calls 1 [FaaPush 0]; faa_calls 1 (FaaPush <$> seqZ 1 256); faa_calls 1 [FaaPop; FaaPop]].

(** Thread 0 takes position 0 and stalls; thread 1 sends all its values; thread 2
    receives two values. *)
Definition faa_schedule : list nat := [0%nat] ++ replicate (256 * 5) 1%nat ++ replicate 14 2%nat.

(** The outcome, as a test that leaves the threads' code alone. *)
Definition faa_outcome (c : option (list (prog (faaE Z) (list (option Z))) * faamem Z)) : bool :=
  match c with
  | Some ([t0; Ret r1; Ret r2], s) =>
      bool_decide (r1 = []) && bool_decide (r2 = [Some 256; Some 1]) && bool_decide (is_Some (prog_step t0 s))
  | _ => false
  end.

Lemma faa_outcome_spec c : faa_outcome c = true →
  ∃ t0 s, c = Some ([t0; Ret []; Ret [Some 256; Some 1]], s) ∧ is_Some (prog_step t0 s).
Proof.
  unfold faa_outcome. intros Hc. repeat case_match; try done.
  apply andb_true_iff in Hc as [[->%bool_decide_eq_true ->%bool_decide_eq_true]%andb_true_iff Hs%bool_decide_eq_true].
  eauto.
Qed.

(** C19: values of one producer are received out of order: in an execution of a fresh
    queue a producer sends the values 1 to 256 one after the other, and a consumer
    then receives 256 first and 1 second. *)
Theorem faa_overtakes :
  ∃ t0 s, run_sched faa_schedule (faa_racers, NaiveFaaQueue_new) = Some ([t0; Ret []; Ret [Some 256; Some 1]], s) ∧
    is_Some (prog_step t0 s).
Proof. apply faa_outcome_spec. vm_compute. reflexivity. Qed.
