(* ===== verification/Text.v ===== *)
(** * Text

    The parts of the standard library's strings that the benchmark harness uses:
    trimming, splitting, parsing and printing of machine integers.  Text is a list of
    ASCII characters. *)

From Stdlib Require Import Ascii String.
From S2P Require Import Prelude.

(** ** Characters *)

#[export] Instance ascii_eq_dec : EqDecision ascii := ascii_dec.

Notation text := (list ascii).

Definition code (c : ascii) : Z := Z.of_N (N_of_ascii c).

Definition of_code (z : Z) : ascii := ascii_of_N (Z.to_N z).

(** A literal. *)
Definition lit (s : string) : text := list_ascii_of_string s.

Definition is_ascii_digit (c : ascii) : bool := (48 <=? code c) && (code c <=? 57).

Definition is_ascii_upper (c : ascii) : bool := (65 <=? code c) && (code c <=? 90).

Definition is_ascii_lower (c : ascii) : bool := (97 <=? code c) && (code c <=? 122).

Definition is_ascii_alphanumeric (c : ascii) : bool := is_ascii_digit c || is_ascii_upper c || is_ascii_lower c.

(** [char::is_whitespace] on ASCII: tab to carriage return, and space. *)
Definition is_whitespace (c : ascii) : bool := ((9 <=? code c) && (code c <=? 13)) || (code c =? 32).

Definition ascii_lower (c : ascii) : ascii := if is_ascii_upper c then of_code (code c + 32) else c.

(** ** Slices of text *)

Definition to_ascii_lowercase (s : text) : text := ascii_lower <$> s.

Fixpoint trim_start_matches (f : ascii → bool) (s : text) : text :=
  match s with
  | [] => []
  | c :: s' => if f c then trim_start_matches f s' else s
  end.

Definition trim_matches (f : ascii → bool) (s : text) : text :=
  reverse (trim_start_matches f (reverse (trim_start_matches f s))).

Definition str_trim (s : text) : text := trim_matches is_whitespace s.

(** [str::split(ch)] *)
Fixpoint split (ch : ascii) (s : text) : list text :=
  match s with
  | [] => [[]]
  | c :: s' =>
      if decide (c = ch) then [] :: split ch s'
      else match split ch s' with
           | [] => [[c]]
           | w :: ws => (c :: w) :: ws
           end
  end.

(** [str::split_once(ch)] *)
Fixpoint split_once (ch : ascii) (s : text) : option (text * text) :=
  match s with
  | [] => None
  | c :: s' =>
      if decide (c = ch) then Some ([], s')
      else '(a, b) ← split_once ch s'; Some (c :: a, b)
  end.

Fixpoint strip_prefix (p s : text) : option text :=
  match p, s with
  | [], _ => Some s
  | a :: p, c :: s => if decide (a = c) then strip_prefix p s else None
  | _ :: _, [] => None
  end.

Definition strip_suffix (p s : text) : option text := reverse <$> strip_prefix (reverse p) (reverse s).

Definition starts_with (c : ascii) (s : text) : bool := bool_decide (head s = Some c).

(** [slice.join(sep)] *)
Fixpoint join (sep : text) (l : list text) : text :=
  match l with
  | [] => []
  | [w] => w
  | w :: l => w ++ sep ++ join sep l
  end.

(** ** Integers *)

(** [char::to_digit(radix)] *)
Definition to_digit (radix : Z) (c : ascii) : option Z :=
  let d := if is_ascii_digit c then code c - 48
           else if is_ascii_lower c then code c - 87
           else if is_ascii_upper c then code c - 55
           else radix in
  if d <? radix then Some d else None.

(** The loop of [from_str_radix]: an overflow of either operation is an error. *)
Fixpoint parse_digits (max radix : Z) (s : text) (acc : Z) : option Z :=
  match s with
  | [] => Some acc
  | c :: s =>
      d ← to_digit radix c;
      if max <? acc * radix then None else
      if max <? acc * radix + d then None else
      parse_digits max radix s (acc * radix + d)
  end.

(** [from_str_radix] of an unsigned type with largest value [max]: one leading plus is
    allowed, a minus is not a digit. *)
Definition from_str_radix (max radix : Z) (s : text) : option Z :=
  match s with
  | [] => None
  | c :: s' =>
      if decide (c = "+"%char) then match s' with [] => None | _ => parse_digits max radix s' 0 end
      else parse_digits max radix s 0
  end.

(** [str::parse::<usize>] and [::<u64>], which have the same width here. *)
Definition parse_usize (s : text) : option Z := from_str_radix usize_max 10 s.

(** [Display] for an unsigned integer: the digits of [n], at most [fuel] of them. *)
Fixpoint show_digits (fuel : nat) (n : Z) : text :=
  match fuel with
  | O => []
  | S fuel => (if n <? 10 then [] else show_digits fuel (n / 10)) ++ [of_code (48 + n mod 10)]
  end.

Definition show (n : Z) : text := show_digits 20 n.
#[global] Arguments show n : simpl never.

(** ** Lemmas *)

Lemma code_of_code z : 0 ≤ z < 256 → code (of_code z) = z.
Proof. intros Hz. unfold code, of_code. rewrite N_ascii_embedding by lia. lia. Qed.

Lemma of_code_code c : of_code (code c) = c.
Proof. unfold code, of_code. rewrite N2Z.id. apply ascii_N_embedding. Qed.

Lemma code_inj c c' : code c = code c' → c = c'.
Proof. intros E. by rewrite <- (of_code_code c), E, of_code_code. Qed.

(** A digit is none of the other characters the parsers look for. *)
Lemma digit_ne c c' : is_ascii_digit c = true → is_ascii_digit c' = false → c ≠ c'.
Proof. intros H1 H2 ->. congruence. Qed.

Lemma digit_code c : is_ascii_digit c = true ↔ 48 ≤ code c ≤ 57.
Proof. unfold is_ascii_digit. rewrite andb_true_iff, !Z.leb_le. lia. Qed.

Lemma digit_not_space c : is_ascii_digit c = true → is_whitespace c = false.
Proof. rewrite digit_code. intros ?. unfold is_whitespace. repeat zcase; simpl; (done || lia). Qed.

Lemma digit_not_upper c : is_ascii_digit c = true → is_ascii_upper c = false.
Proof. rewrite digit_code. intros ?. unfold is_ascii_upper. repeat zcase; simpl; (done || lia). Qed.

Definition digits (s : text) : Prop := Forall (λ c, is_ascii_digit c = true) s.

Lemma digits_notin c s : digits s → is_ascii_digit c = false → c ∉ s.
Proof. intros Hs Hc Hin. unfold digits in Hs. rewrite Forall_forall in Hs. apply Hs in Hin. congruence. Qed.

(** *** Trimming and splitting *)

Lemma trim_start_id f s : (∀ c, head s = Some c → f c = false) → trim_start_matches f s = s.
Proof. destruct s as [|c s]; intros Hs; [done|]. simpl. by rewrite Hs. Qed.

Lemma trim_matches_id f s :
  (∀ c, head s = Some c → f c = false) → (∀ c, last s = Some c → f c = false) → trim_matches f s = s.
Proof.
  intros Hh Hl. unfold trim_matches. rewrite (trim_start_id f s Hh), trim_start_id, reverse_involutive; [done|].
  intros c. rewrite head_reverse. apply Hl.
Qed.

Lemma trim_id s : Forall (λ c, is_whitespace c = false) s → str_trim s = s.
Proof.
  intros Hs. rewrite Forall_forall in Hs. apply trim_matches_id; intros c Hc; apply Hs.
  - apply head_Some_elem_of in Hc. done.
  - by apply last_Some_elem_of.
Qed.

Lemma lower_id s : Forall (λ c, is_ascii_upper c = false) s → to_ascii_lowercase s = s.
Proof.
  unfold to_ascii_lowercase. induction 1 as [|c s Hc Hs IH]; [done|]. rewrite fmap_cons, IH. unfold ascii_lower. by rewrite Hc.
Qed.

Lemma split_notin ch s : ch ∉ s → split ch s = [s].
Proof.
  induction s as [|c s IH]; intros Hs; [done|]. apply not_elem_of_cons in Hs as [Hne Hs]. simpl.
  rewrite decide_False by done. by rewrite IH.
Qed.

Lemma split_app ch a b : ch ∉ a → split ch (a ++ ch :: b) = a :: split ch b.
Proof.
  induction a as [|c a IH]; intros Ha; simpl; [by rewrite decide_True|].
  apply not_elem_of_cons in Ha as [Hne Ha]. rewrite decide_False by done. by rewrite IH.
Qed.

Lemma split_join ch l : l ≠ [] → Forall (λ w, ch ∉ w) l → split ch (join [ch] l) = l.
Proof.
  intros Hl Hall. induction Hall as [|w l Hw Hall IH]; [done|]. destruct l as [|w' l]; [by apply split_notin|].
  change (join [ch] (w :: w' :: l)) with (w ++ ch :: join [ch] (w' :: l)). rewrite split_app by done. by rewrite IH.
Qed.

Lemma split_once_app ch a b : ch ∉ a → split_once ch (a ++ ch :: b) = Some (a, b).
Proof.
  induction a as [|c a IH]; intros Ha; simpl; [by rewrite decide_True|].
  apply not_elem_of_cons in Ha as [Hne Ha]. rewrite decide_False by done. by rewrite IH.
Qed.

Lemma split_once_notin ch s : ch ∉ s → split_once ch s = None.
Proof.
  induction s as [|c s IH]; intros Hs; [done|]. apply not_elem_of_cons in Hs as [Hne Hs]. simpl.
  rewrite decide_False by done. by rewrite IH.
Qed.

Lemma split_once_Some ch s a b : split_once ch s = Some (a, b) → s = a ++ ch :: b ∧ ch ∉ a.
Proof.
  revert a b. induction s as [|c s IH]; intros a b; simpl; [done|]. case_decide as E.
  - intros [= <- <-]. subst c. split; [done|]. by apply not_elem_of_nil.
  - destruct (split_once ch s) as [[a' b']|]; [|done]. simpl. intros [= <- <-].
    destruct (IH a' b' eq_refl) as [-> Hn]. split; [done|]. by apply not_elem_of_cons.
Qed.

Lemma strip_prefix_app p s : strip_prefix p (p ++ s) = Some s.
Proof. induction p as [|c p IH]; simpl; [by destruct s|]. by rewrite decide_True. Qed.

Lemma strip_prefix_Some p s r : strip_prefix p s = Some r → s = p ++ r.
Proof.
  revert s. induction p as [|c p IH]; intros [|c' s]; simpl; intros E; try (by injection E as <-); [done|].
  case_decide as Ec; [|done]. subst c'. by rewrite (IH s E).
Qed.

Lemma strip_suffix_app p s : strip_suffix p (s ++ p) = Some s.
Proof. unfold strip_suffix. rewrite reverse_app, strip_prefix_app. simpl. by rewrite reverse_involutive. Qed.

Lemma strip_suffix_Some p s r : strip_suffix p s = Some r → s = r ++ p.
Proof.
  unfold strip_suffix. intros (x & E & ->)%fmap_Some. apply strip_prefix_Some in E.
  by rewrite <- (reverse_involutive s), E, reverse_app, reverse_involutive.
Qed.

(** *** Printing and parsing integers *)

Lemma to_digit_of d : 0 ≤ d < 10 → to_digit 10 (of_code (48 + d)) = Some d.
Proof.
  intros Hd. assert (is_ascii_digit (of_code (48 + d)) = true) as E by (apply digit_code; rewrite code_of_code; lia).
  unfold to_digit. rewrite E, code_of_code by lia. replace (48 + d - 48) with d by lia.
  by rewrite (proj2 (Z.ltb_lt _ _)) by lia.
Qed.

Lemma parse_digits_app max radix a b acc :
  parse_digits max radix (a ++ b) acc = parse_digits max radix a acc ≫= parse_digits max radix b.
Proof.
  revert acc. induction a as [|c a IH]; intros acc; [done|]. simpl. destruct (to_digit radix c) as [d|]; [|done]. simpl.
  destruct (max <? acc * radix); [done|]. destruct (max <? acc * radix + d); [done|]. apply IH.
Qed.

Lemma show_digits_digits fuel n : 0 ≤ n → digits (show_digits fuel n).
Proof.
  revert n. induction fuel as [|fuel IH]; intros n Hn; simpl; [constructor|]. apply Forall_app. split.
  - destruct (n <? 10); [constructor|]. apply IH. apply Z.div_pos; lia.
  - pose proof (Z.mod_pos_bound n 10 ltac:(lia)). repeat constructor. apply digit_code. rewrite code_of_code; lia.
Qed.

Lemma parse_show_digits max fuel n :
  0 ≤ n ≤ max → n < 10 ^ Z.of_nat fuel → (fuel ≠ 0)%nat → parse_digits max 10 (show_digits fuel n) 0 = Some n.
Proof.
  revert n. induction fuel as [|fuel IH]; intros n Hn Hf H0; [done|]. cbn [show_digits]. rewrite parse_digits_app.
  pose proof (Z.mod_pos_bound n 10 ltac:(lia)) as Hm. pose proof (Z.div_mod n 10 ltac:(lia)) as Hd.
  assert ((parse_digits max 10 (if n <? 10 then [] else show_digits fuel (n / 10)) 0) = Some (n / 10)) as ->.
  { destruct (Z.ltb_spec n 10) as [Hlt|Hge]; [simpl; f_equal; rewrite Z.div_small; lia|].
    apply IH; [split; [apply Z.div_pos; lia|lia]| |].
    - apply Z.div_lt_upper_bound; [lia|]. rewrite Nat2Z.inj_succ, Z.pow_succ_r in Hf by lia. lia.
    - intros ->. simpl in Hf. lia. }
  simpl. rewrite to_digit_of by lia. simpl. rewrite (proj2 (Z.ltb_ge max (n / 10 * 10))) by lia.
  rewrite (proj2 (Z.ltb_ge _ _)) by lia. f_equal. lia.
Qed.

Lemma show_digits_not_nil fuel n : show_digits (S fuel) n ≠ [].
Proof. cbn [show_digits]. intros [_ [=]]%app_nil. Qed.

Lemma show_not_nil n : show n ≠ [].
Proof. apply show_digits_not_nil. Qed.

Lemma show_all_digits n : 0 ≤ n → digits (show n).
Proof. apply show_digits_digits. Qed.

(** Parsing what was printed gives the number back. *)
Lemma parse_show n : is_usize n → parse_usize (show n) = Some n.
Proof.
  intros [Hn Hle]. unfold parse_usize, from_str_radix. pose proof (show_all_digits n Hn) as Hd.
  destruct (show n) as [|c s] eqn:E; [by apply show_not_nil in E|].
  apply Forall_cons in Hd as [Hc _]. rewrite decide_False by (apply digit_ne; [done|reflexivity]). rewrite <- E.
  apply parse_show_digits; [done| |done]. unfold usize_max in Hle. simpl. lia.
Qed.

Lemma show_inj n m : is_usize n → is_usize m → show n = show m → n = m.
Proof. intros Hn Hm E. apply (f_equal parse_usize) in E. rewrite !parse_show in E by done. congruence. Qed.

(** A positive number is printed without leading zeros. *)
Lemma show_digits_head fuel n : 0 < n < 10 ^ Z.of_nat fuel → head (show_digits fuel n) ≠ Some "0"%char.
Proof.
  revert n. induction fuel as [|fuel IH]; intros n Hn; simpl in Hn |- *; [lia|].
  pose proof (Z.mod_pos_bound n 10 ltac:(lia)). destruct (Z.ltb_spec n 10) as [Hlt|Hge].
  - simpl. rewrite Z.mod_small by lia. intros [= E%(f_equal code)]. rewrite code_of_code in E by lia.
    change (code "0"%char) with 48 in E. lia.
  - assert (0 < n / 10 < 10 ^ Z.of_nat fuel) as Hq.
    { split; [apply Z.div_str_pos; lia|]. apply Z.div_lt_upper_bound; [lia|].
      change (Z.pos (Pos.of_succ_nat fuel)) with (Z.of_nat (S fuel)) in Hn. rewrite Nat2Z.inj_succ, Z.pow_succ_r in Hn by lia. lia. }
    specialize (IH _ Hq). destruct (show_digits fuel (n / 10)) as [|c s] eqn:E; [|done].
    destruct fuel; [simpl in Hq; lia|by apply show_digits_not_nil in E].
Qed.

Lemma show_digits_length fuel k n : 0 ≤ n < 10 ^ Z.of_nat k → (k ≠ 0)%nat → (length (show_digits fuel n) ≤ k)%nat.
Proof.
  revert k n. induction fuel as [|fuel IH]; intros k n Hn Hk; simpl; [lia|]. rewrite length_app. simpl.
  destruct (Z.ltb_spec n 10) as [Hlt|Hge]; simpl; [lia|]. destruct k as [|k]; [lia|].
  rewrite Nat2Z.inj_succ, Z.pow_succ_r in Hn by lia. destruct k as [|k]; [simpl in Hn; lia|].
  assert (0 ≤ n / 10 < 10 ^ Z.of_nat (S k)) as Hq by (split; [apply Z.div_pos; lia|apply Z.div_lt_upper_bound; lia]).
  specialize (IH (S k) (n / 10) Hq ltac:(lia)). lia.
Qed.

Lemma show_length k n : 0 ≤ n < 10 ^ Z.of_nat k → (k ≠ 0)%nat → (length (show n) ≤ k)%nat.
Proof. apply show_digits_length. Qed.

(** Digits without a leading zero are the printed form of their value. *)
Lemma digit_value c : is_ascii_digit c = true → ∃ d, 0 ≤ d < 10 ∧ to_digit 10 c = Some d ∧ c = of_code (48 + d).
Proof.
  intros Hc. pose proof Hc as Hb. apply digit_code in Hb. exists (code c - 48). split; [lia|]. split.
  - unfold to_digit. rewrite Hc. by rewrite (proj2 (Z.ltb_lt _ _)) by lia.
  - replace (48 + (code c - 48)) with (code c) by lia. by rewrite of_code_code.
Qed.

Lemma parse_digits_mono max s acc n : digits s → 0 ≤ acc → parse_digits max 10 s acc = Some n → acc ≤ n.
Proof.
  intros Hs. revert acc. induction Hs as [|c s Hc Hs IH]; intros acc Ha E; simpl in E; [injection E as ->; lia|].
  destruct (digit_value c Hc) as (d & Hd & Et & _). rewrite Et in E. simpl in E.
  destruct (max <? acc * 10); [done|]. destruct (max <? acc * 10 + d); [done|]. apply IH in E; lia.
Qed.

Lemma show_parse_digits max s n fuel :
  digits s → s ≠ [] → head s ≠ Some "0"%char → parse_digits max 10 s 0 = Some n → (length s ≤ fuel)%nat →
  show_digits fuel n = s ∧ 10 ^ (Z.of_nat (length s) - 1) ≤ n.
Proof.
  revert n fuel. induction s as [|c s IH] using rev_ind; intros n fuel Hd Hne H0 Hp Hf; [done|].
  apply Forall_app in Hd as [Hs [Hc _]%Forall_cons]. destruct (digit_value c Hc) as (d & Hdr & Et & Ec).
  rewrite length_app in *. simpl in Hf. destruct fuel as [|fuel]; [lia|]. rewrite parse_digits_app in Hp.
  destruct (parse_digits max 10 s 0) as [m|] eqn:Em; [|done]. simpl in Hp. rewrite Et in Hp. simpl in Hp.
  destruct (max <? m * 10); [done|]. destruct (max <? m * 10 + d); [done|]. injection Hp as <-.
  pose proof (parse_digits_mono _ _ _ _ Hs (Z.le_refl 0) Em) as Hm. cbn [show_digits].
  assert ((m * 10 + d) mod 10 = d) as -> by (rewrite Z.add_comm, Z.mod_add by lia; apply Z.mod_small; lia).
  assert ((m * 10 + d) / 10 = m) as -> by (rewrite Z.add_comm, Z.div_add, Z.div_small by lia; lia). rewrite <- Ec.
  destruct s as [|c' s'].
  - simpl in Em. injection Em as <-. rewrite (proj2 (Z.ltb_lt _ _)) by lia. split; [done|]. simpl.
    destruct (decide (d = 0)) as [->|]; [|lia]. simpl in H0. exfalso. apply H0. by rewrite Ec.
  - destruct (IH m fuel Hs ltac:(done) H0 eq_refl ltac:(lia)) as [Hsh Hlo].
    assert (1 ≤ m). { pose proof (Z.pow_pos_nonneg 10 (Z.of_nat (length (c' :: s')) - 1) ltac:(lia)). simpl length in *. lia. }
    rewrite (proj2 (Z.ltb_ge _ _)) by lia. rewrite Hsh. split; [done|].
    replace (Z.of_nat (length (c' :: s') + length [c]) - 1) with (Z.succ (Z.of_nat (length (c' :: s')) - 1)) by (simpl; lia).
    rewrite Z.pow_succ_r by (simpl; lia). lia.
Qed.

Lemma parse_digits_le max radix s acc n : acc ≤ max → parse_digits max radix s acc = Some n → n ≤ max.
Proof.
  revert acc. induction s as [|c s IH]; intros acc Ha E; simpl in E; [by injection E as ->|].
  destruct (to_digit radix c) as [d|]; [|done]. simpl in E. destruct (max <? acc * radix); [done|].
  destruct (Z.ltb_spec max (acc * radix + d)); [done|]. by apply IH in E.
Qed.

Lemma from_str_radix_le max radix s n : 0 ≤ max → from_str_radix max radix s = Some n → n ≤ max.
Proof.
  intros Hm. unfold from_str_radix. destruct s as [|c s]; [done|]. case_decide; [destruct s; [done|]|];
    by apply parse_digits_le.
Qed.

Lemma to_digit_nonneg radix c d : 0 ≤ radix → to_digit radix c = Some d → 0 ≤ d.
Proof.
  intros Hr. unfold to_digit, is_ascii_digit, is_ascii_lower, is_ascii_upper.
  repeat (zcase; simpl); intros E; try done; injection E as <-; lia.
Qed.

Lemma parse_digits_nonneg max radix s acc n : 0 ≤ radix → 0 ≤ acc → parse_digits max radix s acc = Some n → 0 ≤ n.
Proof.
  intros Hr. revert acc. induction s as [|c s IH]; intros acc Ha E; simpl in E; [by injection E as ->|].
  destruct (to_digit radix c) as [d|] eqn:Ed; [|done]. simpl in E. apply to_digit_nonneg in Ed; [|done].
  destruct (max <? acc * radix); [done|]. destruct (max <? acc * radix + d); [done|]. eapply IH; [|done]. nia.
Qed.

Lemma parse_usize_is s n : parse_usize s = Some n → is_usize n.
Proof.
  intros E. split; [|by apply from_str_radix_le in E; [|done]].
  unfold parse_usize, from_str_radix in E. destruct s as [|c s]; [done|].
  case_decide; [destruct s; [done|]|]; apply parse_digits_nonneg in E; lia.
Qed.

Lemma show_parse s n :
  digits s → s ≠ [] → head s ≠ Some "0"%char → parse_usize s = Some n → show n = s ∧ 1 ≤ n ≤ usize_max.
Proof.
  intros Hd Hne H0 Hp. pose proof (parse_usize_is _ _ Hp) as [_ Hle].
  assert (parse_digits usize_max 10 s 0 = Some n) as Hp'.
  { unfold parse_usize, from_str_radix in Hp. destruct s as [|c s]; [done|].
    apply Forall_cons in Hd as [Hc _]. rewrite decide_False in Hp by (apply digit_ne; [done|reflexivity]). done. }
  destruct (show_parse_digits _ _ _ (length s) Hd Hne H0 Hp' ltac:(lia)) as [_ Hlo].
  assert (0 < length s)%nat as Hl by (destruct s; [done|simpl; lia]).
  pose proof (Z.pow_pos_nonneg 10 (Z.of_nat (length s) - 1) ltac:(lia) ltac:(lia)).
  assert (length s ≤ 20)%nat as Hlen.
  { destruct (decide (length s ≤ 20)%nat); [done|]. exfalso.
    pose proof (Z.pow_le_mono_r 10 20 (Z.of_nat (length s) - 1) ltac:(lia) ltac:(lia)).
    unfold usize_max in Hle. change (10 ^ 20) with 100000000000000000000 in *. lia. }
  destruct (show_parse_digits _ _ _ 20 Hd Hne H0 Hp' Hlen) as [Hs _]. split; [done|lia].
Qed.

Lemma show_head n : 0 < n ≤ usize_max → head (show n) ≠ Some "0"%char.
Proof. intros Hn. apply show_digits_head. unfold usize_max in Hn. change (10 ^ Z.of_nat 20) with 100000000000000000000. lia. Qed.

Lemma forallb_digits s : forallb is_ascii_digit s = true ↔ digits s.
Proof. rewrite forallb_forall. unfold digits. rewrite Forall_forall. split; intros Hs c Hc; apply Hs; by apply list_elem_of_In. Qed.
