(* ===== verification/HarnessLog.v ===== *)
(** * The log sink of the benchmark harness (src/src/bench_harness/mod.rs)

    Log records carry level, producer and sequence number in one word; the sink
    prints them as lines into a buffer that it flushes to a file. *)

From Stdlib Require Import Ascii String.
From S2P Require Import Prelude Prog Layout Head Text.

(** ** Packed records *)

Definition LOG_SINK_BUFFER_CAPACITY : Z := 1024 * 1024.
Definition LOG_SINK_FLUSH_THRESHOLD : Z := 256 * 1024.
Definition LOG_SINK_MAX_RECORD_BYTES : Z := 256.
Definition LOG_PRODUCER_ID_MASK : Z := 16777215.
Definition LOG_SEQUENCE_MASK : Z := 4294967295.

Definition LOG_MESSAGES : list text := lit <$> [
  "accepted client connection";
  "parsed request headers";
  "loaded tenant configuration";
  "queued background task";
  "completed cache lookup";
  "serialized response body";
  "updated metric counter";
  "released request context"]%string.

Record LogRecord := mkLogRecord { message : text; meta : Z }.

(** [None]: one of the assertions fails. *)
Definition pack_log_meta (level producer_id sequence : Z) : option Z :=
  if LOG_PRODUCER_ID_MASK <? producer_id then None else
  if LOG_SEQUENCE_MASK <? sequence then None else
  Some (Z.lor (Z.lor (Z.shiftl level 56) (Z.shiftl producer_id 32)) sequence).

(** [(meta >> 56) as u8] *)
Definition unpack_log_level (meta : Z) : Z := Z.land (Z.shiftr meta 56) 255.

Definition unpack_log_producer_id (meta : Z) : Z := Z.land (Z.shiftr meta 32) LOG_PRODUCER_ID_MASK.

Definition unpack_log_sequence (meta : Z) : Z := Z.land meta LOG_SEQUENCE_MASK.

(** [producer_id as u8] keeps the low byte; [None]: an index or an assertion fails. *)
Definition log_record_for (producer_id sequence : Z) : option LogRecord :=
  let message_index := Z.land (Z.lxor producer_id sequence) (Z.of_nat (length LOG_MESSAGES) - 1) in
  msg ← LOG_MESSAGES !! Z.to_nat message_index;
  m ← pack_log_meta (Z.land (Z.land producer_id 255) 7) producer_id sequence;
  Some (mkLogRecord msg m).

(** ** Lines *)

(** The loop of [append_decimal_u64], which fills [buf] from its end; [None]: the index
    would go below zero. *)
Fixpoint decimal_loop (index : nat) (buf : text) (value : Z) : option (text * nat) :=
  match index with
  | O => None
  | S index =>
      let buf := <[index := of_code (48 + value mod 10)]> buf in
      let value := value / 10 in
      if value =? 0 then Some (buf, index) else decimal_loop index buf value
  end.

Definition append_decimal_u64 (out : text) (value : Z) : option text :=
  '(buf, index) ← decimal_loop 20 (replicate 20 zero) value;
  Some (out ++ drop index buf).

Definition append_log_record_line (out : text) (record : LogRecord) : option text :=
  let out := out ++ lit "level=" in
  out ← append_decimal_u64 out (unpack_log_level (meta record));
  let out := out ++ lit " producer=" in
  out ← append_decimal_u64 out (unpack_log_producer_id (meta record));
  let out := out ++ lit " seq=" in
  out ← append_decimal_u64 out (unpack_log_sequence (meta record));
  let out := out ++ lit " message=" in
  let out := out ++ message record in
  Some (out ++ [of_code 10]).

(** ** The sink *)

(** What the sink relies on of [std::fs::File]: a write that succeeds appends. *)
Class LogFile (F : Type) := {
  file_create : F;
  file_contents : F → text;
  file_write_all : F → text → option F;
  file_flush : F → option F;
  file_create_empty : file_contents file_create = [];
  file_write_all_ok : ∀ f f' bs, file_write_all f bs = Some f' → file_contents f' = file_contents f ++ bs;
  file_flush_ok : ∀ f f', file_flush f = Some f' → file_contents f' = file_contents f
}.

(** The result of an operation of the sink: [io::Result], or a panic. *)
Inductive iores (A : Type) :=
| IoOk (a : A)
| IoErr
| IoPanic.
Arguments IoOk {A} a.
Arguments IoErr {A}.
Arguments IoPanic {A}.

#[export] Instance iores_ret : MRet iores := λ A a, IoOk a.
#[export] Instance iores_bind : MBind iores := λ A B f m,
  match m with IoOk a => f a | IoErr => IoErr | IoPanic => IoPanic end.

(** [.expect(..)] and [?] *)
Definition or_panic {A} (o : option A) : iores A := match o with Some a => IoOk a | None => IoPanic end.
Definition or_err {A} (o : option A) : iores A := match o with Some a => IoOk a | None => IoErr end.

Record LogSink (F : Type) := mkLogSink {
  sk_file : F;
  sk_buffer : text;
  written_bytes : Z;
  flush_count : Z
}.
Arguments mkLogSink {F} _ _ _ _.
Arguments sk_file {F} _.
Arguments sk_buffer {F} _.
Arguments written_bytes {F} _.
Arguments flush_count {F} _.

Section sink.
Context {F : Type} `{LogFile F} `{Profile}.

(** The capacity of the buffer, at least the one asked for. *)
Context (capacity : Z).

Definition text_len (s : text) : Z := Z.of_nat (length s).

Definition LogSink_new : LogSink F := mkLogSink file_create [] 0 0.

Definition flush_buffer (s : LogSink F) : iores (LogSink F) :=
  match sk_buffer s with
  | [] => IoOk s
  | _ =>
      f ← or_err (file_write_all (sk_file s) (sk_buffer s));
      written ← or_panic (checked_add (written_bytes s) (text_len (sk_buffer s)));
      flushes ← or_panic (checked_add (flush_count s) 1);
      IoOk (mkLogSink f [] written flushes)
  end.

Definition write_record (s : LogSink F) (record : LogRecord) : iores (LogSink F) :=
  s ← (if saturating_sub capacity (text_len (sk_buffer s)) <? LOG_SINK_MAX_RECORD_BYTES
       then flush_buffer s else IoOk s);
  let before := text_len (sk_buffer s) in
  buffer ← or_panic (append_log_record_line (sk_buffer s) record);
  let s := mkLogSink (sk_file s) buffer (written_bytes s) (flush_count s) in
  if debug_assertions && negb (text_len buffer - before <=? LOG_SINK_MAX_RECORD_BYTES) then IoPanic else
  if LOG_SINK_FLUSH_THRESHOLD <=? text_len buffer then flush_buffer s else IoOk s.

(** The file, and the two counters that are returned. *)
Definition finish (s : LogSink F) : iores (F * (Z * Z)) :=
  s ← flush_buffer s;
  f ← or_err (file_flush (sk_file s));
  IoOk (f, (written_bytes s, flush_count s)).

(** What the consumer of the log benchmark does with the records of the producers. *)
Fixpoint write_items (s : LogSink F) (items : list (Z * Z)) : iores (LogSink F) :=
  match items with
  | [] => IoOk s
  | (producer_id, sequence) :: items =>
      record ← or_panic (log_record_for producer_id sequence);
      s ← write_record s record;
      write_items s items
  end.

Definition log_run (items : list (Z * Z)) : iores (F * (Z * Z)) :=
  s ← write_items LogSink_new items; finish s.

End sink.

#[global] Arguments append_log_record_line out record : simpl never.
#[global] Arguments log_record_for producer_id sequence : simpl never.

(** ** Packing *)

Lemma land_mask_mod x k : 0 ≤ k → Z.land x (2 ^ k - 1) = x mod 2 ^ k.
Proof. intros Hk. rewrite <- Z.land_ones by done. f_equal. rewrite Z.ones_equiv. lia. Qed.

Lemma pack_log_meta_sum level producer_id sequence :
  0 ≤ level → 0 ≤ producer_id ≤ LOG_PRODUCER_ID_MASK → 0 ≤ sequence ≤ LOG_SEQUENCE_MASK →
  pack_log_meta level producer_id sequence = Some (level * 2 ^ 56 + producer_id * 2 ^ 32 + sequence).
Proof.
  intros Hl Hp Hs. unfold pack_log_meta. rewrite (proj2 (Z.ltb_ge _ producer_id)), (proj2 (Z.ltb_ge _ sequence)) by lia.
  unfold LOG_PRODUCER_ID_MASK, LOG_SEQUENCE_MASK in *. f_equal. rewrite !Z.shiftl_mul_pow2 by lia.
  rewrite (lor_add_disjoint (level * 2 ^ 56)) by (apply land_high_low; lia).
  replace (level * 2 ^ 56 + producer_id * 2 ^ 32) with ((level * 2 ^ 24 + producer_id) * 2 ^ 32) by lia.
  rewrite lor_add_disjoint by (apply land_high_low; lia). lia.
Qed.

Lemma unpack_fields level producer_id sequence m :
  0 ≤ level < 256 → 0 ≤ producer_id ≤ LOG_PRODUCER_ID_MASK → 0 ≤ sequence ≤ LOG_SEQUENCE_MASK →
  m = level * 2 ^ 56 + producer_id * 2 ^ 32 + sequence →
  unpack_log_level m = level ∧ unpack_log_producer_id m = producer_id ∧ unpack_log_sequence m = sequence.
Proof.
  unfold LOG_PRODUCER_ID_MASK, LOG_SEQUENCE_MASK. intros Hl Hp Hs ->.
  unfold unpack_log_level, unpack_log_producer_id, unpack_log_sequence, LOG_PRODUCER_ID_MASK, LOG_SEQUENCE_MASK.
  change 255 with (2 ^ 8 - 1). change 16777215 with (2 ^ 24 - 1). change 4294967295 with (2 ^ 32 - 1).
  rewrite !land_mask_mod, !Z.shiftr_div_pow2 by lia. split; [|split].
  - rewrite <- (Z.div_unique _ (2 ^ 56) level (producer_id * 2 ^ 32 + sequence)) by lia. apply Z.mod_small. lia.
  - rewrite <- (Z.div_unique _ (2 ^ 32) (level * 2 ^ 24 + producer_id) sequence) by lia.
    rewrite Z.add_comm, Z.mod_add by lia. apply Z.mod_small. lia.
  - symmetry. apply (Z.mod_unique _ _ (level * 2 ^ 24 + producer_id)); lia.
Qed.

(** Packing and unpacking the word of a log record are inverse, the word is a [u64], and
    a producer or sequence number that does not fit is refused. *)
Lemma log_meta_roundtrip level producer_id sequence :
  0 ≤ level < 256 → 0 ≤ producer_id → 0 ≤ sequence →
  match pack_log_meta level producer_id sequence with
  | Some m => 0 ≤ m < 2 ^ 64 ∧ unpack_log_level m = level ∧ unpack_log_producer_id m = producer_id ∧
      unpack_log_sequence m = sequence
  | None => LOG_PRODUCER_ID_MASK < producer_id ∨ LOG_SEQUENCE_MASK < sequence
  end.
Proof.
  intros Hl Hp Hs. destruct (decide (producer_id ≤ LOG_PRODUCER_ID_MASK ∧ sequence ≤ LOG_SEQUENCE_MASK)) as [[Hp' Hs']|Hno].
  - rewrite pack_log_meta_sum by lia. split; [unfold LOG_PRODUCER_ID_MASK, LOG_SEQUENCE_MASK in *; lia|].
    by apply unpack_fields.
  - unfold pack_log_meta. repeat zcase; [by left|by right|]. exfalso. apply Hno. lia.
Qed.

(** ** Lines *)

Lemma decimal_loop_spec index buf value :
  0 ≤ value < 10 ^ Z.of_nat index → (index ≤ length buf)%nat → (index ≠ 0)%nat →
  ∃ buf' i, decimal_loop index buf value = Some (buf', i) ∧ drop i buf' = show_digits index value ++ drop index buf.
Proof.
  revert buf value. induction index as [|index IH]; intros buf value Hv Hlen H0; [done|]. cbn [decimal_loop show_digits].
  set (c := of_code (48 + value mod 10)).
  assert (drop index (<[index := c]> buf) = c :: drop (S index) buf) as Hd.
  { erewrite drop_S; [|apply list_lookup_insert_eq; lia]. f_equal. by rewrite drop_insert_lt by lia. }
  pose proof (Z.div_mod value 10 ltac:(lia)) as Hdm. pose proof (Z.mod_pos_bound value 10 ltac:(lia)) as Hm.
  destruct (Z.eqb_spec (value / 10) 0) as [E|Hne].
  - exists (<[index := c]> buf), index. split; [done|]. rewrite (proj2 (Z.ltb_lt _ _)) by lia. by rewrite Hd.
  - rewrite (proj2 (Z.ltb_ge _ _)) by lia. rewrite Nat2Z.inj_succ, Z.pow_succ_r in Hv by lia.
    destruct (IH (<[index := c]> buf) (value / 10)) as (buf' & i & -> & Hdr);
      [lia|rewrite length_insert; lia|intros ->; simpl in Hv; lia|].
    exists buf', i. split; [done|]. rewrite Hdr, Hd, <- app_assoc. done.
Qed.

Lemma append_decimal_show out value : is_usize value → append_decimal_u64 out value = Some (out ++ show value).
Proof.
  intros [Hv Hle]. unfold append_decimal_u64.
  destruct (decimal_loop_spec 20 (replicate 20 zero) value) as (buf & i & -> & Hd); [|by rewrite length_replicate|done|].
  { unfold usize_max in Hle. simpl. lia. }
  simpl. rewrite Hd, drop_ge, app_nil_r by (by rewrite length_replicate). done.
Qed.

(** The line of the record of a producer. *)
Definition log_line (producer_id sequence : Z) (msg : text) : text :=
  lit "level=" ++ show (producer_id mod 8) ++ lit " producer=" ++ show producer_id ++ lit " seq=" ++ show sequence ++
  lit " message=" ++ msg ++ [of_code 10].

#[global] Arguments log_line producer_id sequence msg : simpl never.

Definition log_message (producer_id sequence : Z) : text :=
  default [] (LOG_MESSAGES !! Z.to_nat (Z.lxor producer_id sequence mod 8)).

Definition log_item_ok (item : Z * Z) : Prop :=
  0 ≤ item.1 ≤ LOG_PRODUCER_ID_MASK ∧ 0 ≤ item.2 ≤ LOG_SEQUENCE_MASK.

Lemma log_record_for_ok producer_id sequence :
  log_item_ok (producer_id, sequence) →
  log_record_for producer_id sequence =
    Some (mkLogRecord (log_message producer_id sequence) (producer_id mod 8 * 2 ^ 56 + producer_id * 2 ^ 32 + sequence)).
Proof.
  intros [Hp Hs]. simpl in *. unfold log_record_for, log_message.
  change (Z.of_nat (length LOG_MESSAGES) - 1) with (2 ^ 3 - 1). rewrite land_mask_mod by lia.
  assert (Z.land (Z.land producer_id 255) 7 = producer_id mod 8) as ->.
  { rewrite <- Z.land_assoc. change (Z.land 255 7) with (2 ^ 3 - 1). by rewrite land_mask_mod by lia. }
  change (2 ^ 3) with 8. pose proof (Z.mod_pos_bound (Z.lxor producer_id sequence) 8 ltac:(lia)).
  destruct (lookup_lt_is_Some_2 LOG_MESSAGES (Z.to_nat (Z.lxor producer_id sequence mod 8))) as [msg ->].
  { change (length LOG_MESSAGES) with 8%nat. lia. }
  simpl. pose proof (Z.mod_pos_bound producer_id 8 ltac:(lia)). by rewrite pack_log_meta_sum by lia.
Qed.

Lemma log_message_length producer_id sequence : (length (log_message producer_id sequence) ≤ 27)%nat.
Proof.
  unfold log_message. destruct (LOG_MESSAGES !! _) as [msg|] eqn:E; [|simpl; lia]. simpl.
  apply list_elem_of_lookup_2 in E. revert msg E. apply Forall_forall. repeat constructor; simpl; lia.
Qed.

Lemma append_line out producer_id sequence record :
  log_item_ok (producer_id, sequence) → log_record_for producer_id sequence = Some record →
  append_log_record_line out record = Some (out ++ log_line producer_id sequence (log_message producer_id sequence)).
Proof.
  intros Hok Hr. rewrite (log_record_for_ok _ _ Hok) in Hr. injection Hr as <-. destruct Hok as [Hp Hs]. simpl in Hp, Hs.
  pose proof (Z.mod_pos_bound producer_id 8 ltac:(lia)) as Hm.
  destruct (unpack_fields (producer_id mod 8) producer_id sequence _ ltac:(lia) Hp Hs eq_refl) as (E1 & E2 & E3).
  unfold append_log_record_line. cbn [meta message]. rewrite E1, E2, E3.
  unfold LOG_PRODUCER_ID_MASK, LOG_SEQUENCE_MASK in *.
  rewrite append_decimal_show by (unfold is_usize, usize_max; lia). simpl (Some _ ≫= _).
  rewrite append_decimal_show by (unfold is_usize, usize_max; lia). simpl (Some _ ≫= _).
  rewrite append_decimal_show by (unfold is_usize, usize_max; lia). simpl (Some _ ≫= _).
  unfold log_line. by rewrite <- !app_assoc.
Qed.

(** A line fits into the room the sink keeps for it. *)
Lemma log_line_length producer_id sequence :
  log_item_ok (producer_id, sequence) →
  text_len (log_line producer_id sequence (log_message producer_id sequence)) ≤ LOG_SINK_MAX_RECORD_BYTES.
Proof.
  intros [Hp Hs]. simpl in *. unfold LOG_PRODUCER_ID_MASK, LOG_SEQUENCE_MASK in *. unfold text_len, log_line, LOG_SINK_MAX_RECORD_BYTES.
  pose proof (Z.mod_pos_bound producer_id 8 ltac:(lia)). rewrite !length_app.
  pose proof (show_length 1 (producer_id mod 8) ltac:(simpl; lia) ltac:(lia)).
  pose proof (show_length 8 producer_id ltac:(simpl; lia) ltac:(lia)).
  pose proof (show_length 10 sequence ltac:(simpl; lia) ltac:(lia)).
  pose proof (log_message_length producer_id sequence). simpl. lia.
Qed.

(** ** The sink *)

Section sink_proofs.
Context {F : Type} `{LF : LogFile F} `{PR : Profile} (capacity : Z).
Context (Hcap : LOG_SINK_BUFFER_CAPACITY ≤ capacity).
Implicit Types s : LogSink F.

Definition item_line (item : Z * Z) : text := log_line item.1 item.2 (log_message item.1 item.2).

Definition log_lines (items : list (Z * Z)) : text := concat (item_line <$> items).

(** What can make an operation of the sink fail. *)
Definition file_fails : Prop := (∃ (f : F) bs, file_write_all f bs = None) ∨ ∃ f : F, file_flush f = None.

Definition io_spec {A} (m : iores A) (Q : A → Prop) : Prop :=
  match m with IoOk a => Q a | IoErr => file_fails | IoPanic => False end.

Lemma io_bind {A B} (m : iores A) (f : A → iores B) Q : io_spec m (λ a, io_spec (f a) Q) → io_spec (m ≫= f) Q.
Proof. by destruct m. Qed.

Lemma io_mono {A} (m : iores A) (Q Q' : A → Prop) : io_spec m Q → (∀ a, Q a → Q' a) → io_spec m Q'.
Proof. intros Hm HQ. destruct m; [by apply HQ|done..]. Qed.

(** The sink after [items]: nothing lost between file and buffer. *)
Record sink_holds (items : list (Z * Z)) s : Prop := {
  sh_text : file_contents (sk_file s) ++ sk_buffer s = log_lines items;
  sh_written : written_bytes s = text_len (file_contents (sk_file s));
  sh_flushes : 0 ≤ flush_count s ≤ Z.of_nat (length items)
}.

Definition flushed s : Prop := sk_buffer s = [].

Lemma flush_buffer_spec items s :
  sink_holds items s → text_len (log_lines items) < 2 ^ 64 → Z.of_nat (length items) < 2 ^ 64 - 1 →
  io_spec (flush_buffer s) (λ s', file_contents (sk_file s') = log_lines items ∧ flushed s' ∧
    written_bytes s' = text_len (log_lines items) ∧ 0 ≤ flush_count s' ≤ flush_count s + 1).
Proof.
  intros [Ht Hw Hf] Hlen Hn. unfold flush_buffer, flushed. destruct (sk_buffer s) as [|c b] eqn:Eb.
  { simpl. rewrite app_nil_r in Ht. rewrite Ht in *. split; [done|]. split; [done|]. split; [done|lia]. }
  apply io_bind. destruct (file_write_all (sk_file s) (c :: b)) as [f|] eqn:Ew; [|by left; eauto].
  apply file_write_all_ok in Ew. simpl. rewrite Ht in Ew.
  assert (text_len (file_contents (sk_file s)) + text_len (c :: b) = text_len (log_lines items)) as El.
  { unfold text_len. rewrite <- Ht, length_app. lia. }
  unfold checked_add. rewrite Hw, El. unfold usize_max.
  rewrite (proj2 (Z.leb_le _ _)) by lia. simpl. rewrite (proj2 (Z.leb_le _ _)) by lia. simpl.
  split; [done|]. split; [done|]. split; [done|lia].
Qed.

Lemma log_lines_snoc items item : log_lines (items ++ [item]) = log_lines items ++ item_line item.
Proof. unfold log_lines. rewrite fmap_app, concat_app. simpl. by rewrite app_nil_r. Qed.

Lemma log_lines_length items :
  Forall log_item_ok items → text_len (log_lines items) ≤ LOG_SINK_MAX_RECORD_BYTES * Z.of_nat (length items).
Proof.
  induction 1 as [|[p q] items Hi Hall IH]; [done|]. pose proof (log_line_length p q Hi) as Hl.
  change (log_lines ((p, q) :: items)) with (log_line p q (log_message p q) ++ log_lines items).
  unfold text_len in *. rewrite length_app, length_cons. unfold LOG_SINK_MAX_RECORD_BYTES in *. lia.
Qed.

Lemma write_record_spec items s p q record :
  sink_holds items s → text_len (sk_buffer s) < LOG_SINK_FLUSH_THRESHOLD →
  log_item_ok (p, q) → log_record_for p q = Some record →
  text_len (log_lines (items ++ [(p, q)])) < 2 ^ 64 → Z.of_nat (length items) + 1 < 2 ^ 64 - 1 →
  io_spec (write_record capacity s record)
    (λ s', sink_holds (items ++ [(p, q)]) s' ∧ text_len (sk_buffer s') < LOG_SINK_FLUSH_THRESHOLD).
Proof.
  intros [Ht Hw Hf] Hb Hok Hr Hlen Hn. unfold write_record, LOG_SINK_BUFFER_CAPACITY, LOG_SINK_FLUSH_THRESHOLD in *.
  assert ((saturating_sub capacity (text_len (sk_buffer s)) <? LOG_SINK_MAX_RECORD_BYTES) = false) as ->.
  { apply Z.ltb_ge. unfold saturating_sub, LOG_SINK_MAX_RECORD_BYTES. lia. }
  apply io_bind. cbn [io_spec]. rewrite (append_line _ _ _ _ Hok Hr). cbn [or_panic mbind iores_bind].
  pose proof (log_line_length p q Hok) as Hl. set (line := log_line p q (log_message p q)) in *.
  assert (text_len (sk_buffer s ++ line) - text_len (sk_buffer s) = text_len line) as El.
  { unfold text_len. rewrite length_app. lia. }
  rewrite El, (proj2 (Z.leb_le _ _)) by done. cbn [negb]. rewrite andb_false_r.
  set (s1 := mkLogSink (sk_file s) (sk_buffer s ++ line) (written_bytes s) (flush_count s)).
  assert (sink_holds (items ++ [(p, q)]) s1) as H1.
  { split; simpl; [|done|rewrite length_app; simpl; lia]. by rewrite log_lines_snoc, <- Ht, <- app_assoc. }
  destruct (Z.leb_spec (256 * 1024) (text_len (sk_buffer s ++ line))) as [Hge|Hlt]; [|by split].
  eapply io_mono; [apply (flush_buffer_spec (items ++ [(p, q)])); [done|done|rewrite length_app; simpl; lia]|].
  intros s' (Hc & Hfl & Hwr & Hfc). unfold flushed in Hfl. rewrite Hfl. split; [|done].
  split; [by rewrite Hc, Hfl, app_nil_r|by rewrite Hc|]. rewrite length_app. simpl in *. lia.
Qed.

Lemma write_items_spec items prev s :
  sink_holds prev s → text_len (sk_buffer s) < LOG_SINK_FLUSH_THRESHOLD → Forall log_item_ok (prev ++ items) →
  LOG_SINK_MAX_RECORD_BYTES * Z.of_nat (length (prev ++ items)) < 2 ^ 64 →
  io_spec (write_items capacity s items) (sink_holds (prev ++ items)).
Proof.
  revert prev s. induction items as [|[p q] items IH]; intros prev s Hs Hb Hok Hn; [by rewrite app_nil_r|].
  replace (prev ++ (p, q) :: items) with ((prev ++ [(p, q)]) ++ items) in * by (by rewrite <- app_assoc).
  pose proof Hok as Hok'. apply Forall_app in Hok' as [Hdone _]. pose proof Hdone as Hitem.
  apply Forall_app in Hitem as [_ [Hitem _]%Forall_cons]. cbn [write_items].
  rewrite (log_record_for_ok _ _ Hitem). simpl (or_panic _ ≫= _). pose proof (log_lines_length _ Hdone) as Hlen.
  unfold LOG_SINK_MAX_RECORD_BYTES in *. rewrite !length_app in *. simpl in *.
  apply io_bind. eapply io_mono; [apply (write_record_spec prev s p q); [done|done|done|by apply log_record_for_ok|lia|lia]|].
  intros s' [Hs' Hb']. apply IH; [done|done|done|]. rewrite !length_app. simpl. lia.
Qed.

(** C35: whatever the producers log, the sink does not panic; unless the file fails, the
    file then holds exactly one line per record, in order, with the record's fields in
    decimal, and the byte count returned is the length of the file. *)
Theorem log_sink_exact items :
  Forall log_item_ok items → LOG_SINK_MAX_RECORD_BYTES * Z.of_nat (length items) < 2 ^ 64 →
  match log_run capacity items with
  | IoOk (f, (bytes, flushes)) =>
      file_contents f = log_lines items ∧ bytes = text_len (log_lines items) ∧ 0 ≤ flushes ≤ Z.of_nat (length items) + 1
  | IoErr => file_fails
  | IoPanic => False
  end.
Proof.
  intros Hok Hn. change (io_spec (log_run capacity items) (λ '(f, (bytes, flushes)),
    file_contents f = log_lines items ∧ bytes = text_len (log_lines items) ∧ 0 ≤ flushes ≤ Z.of_nat (length items) + 1)).
  pose proof (log_lines_length items Hok) as Hlen. unfold LOG_SINK_MAX_RECORD_BYTES in *.
  apply io_bind. eapply io_mono; [apply (write_items_spec items []); [|done|done|done]|].
  { split; simpl; [|by rewrite file_create_empty|lia]. by rewrite app_nil_r, file_create_empty. }
  intros s Hs. change ([] ++ items) with items in Hs. unfold finish. pose proof (sh_flushes _ _ Hs) as Hf.
  apply io_bind. eapply io_mono; [apply (flush_buffer_spec items); [done|lia|lia]|].
  intros s' (Hc & _ & Hw & Hfc). apply io_bind. destruct (file_flush (sk_file s')) as [f|] eqn:E; [|by right; eauto].
  apply file_flush_ok in E. cbn [or_err io_spec]. rewrite E, Hc. split; [done|]. split; [done|]. lia.
Qed.

End sink_proofs.

(** ** Concrete runs *)

(** A file that never fails. *)
#[export] Program Instance text_file : LogFile text := {|
  file_create := [];
  file_contents := λ f, f;
  file_write_all := λ f bs, Some (f ++ bs);
  file_flush := Some
|}.
Next Obligation. done. Qed.
Next Obligation. intros f f' bs [= <-]. done. Qed.
Next Obligation. intros f f' [= <-]. done. Qed.

Example log_run_two :
  log_run (F := text) (H0 := true) LOG_SINK_BUFFER_CAPACITY [(3, 0); (10, 41)] =
    IoOk (lit "level=3 producer=3 seq=0 message=queued background task" ++ [of_code 10] ++
          lit "level=2 producer=10 seq=41 message=queued background task" ++ [of_code 10], (114, 1)).
Proof. vm_compute. reflexivity. Qed.

Lemma log_sink_exact_witness :
  match log_run (F := text) (H0 := true) LOG_SINK_BUFFER_CAPACITY [(3, 0); (10, 41)] with
  | IoOk (f, (bytes, flushes)) =>
      file_contents f = log_lines [(3, 0); (10, 41)] ∧ bytes = text_len (log_lines [(3, 0); (10, 41)]) ∧ 0 ≤ flushes ≤ 3
  | IoErr => file_fails (F := text)
  | IoPanic => False
  end.
Proof.
  exact (log_sink_exact (F := text) (PR := true) LOG_SINK_BUFFER_CAPACITY (Z.le_refl _) [(3, 0); (10, 41)]
    ltac:(repeat constructor; vm_compute; discriminate) ltac:(vm_compute; reflexivity)).
Defined.
