(* ===== verification/Harness.v ===== *)
(** * The benchmark harness: results, machine arithmetic and plans (src/src/bench_harness/mod.rs)

    What a benchmark run is made of (scenarios, modes, queue kinds, core bindings) and
    the functions that parse and generate it. *)

From Stdlib Require Import Ascii String.
From stdpp Require Import sorting.
From S2P Require Import Prelude Prog Text.

(** ** Results *)

(** [Result<A, String>], or a panic. *)
Inductive hres (A : Type) :=
| HOk (a : A)
| HErr (e : text)
| HPanic.
Arguments HOk {A} a.
Arguments HErr {A} e.
Arguments HPanic {A}.

#[export] Instance hres_ret : MRet hres := λ A a, HOk a.
#[export] Instance hres_bind : MBind hres := λ A B f m,
  match m with HOk a => f a | HErr e => HErr e | HPanic => HPanic end.

(** [ok_or_else(|| e)?] *)
Definition ok_or_else {A} (o : option A) (e : text) : hres A := match o with Some a => HOk a | None => HErr e end.

(** [.expect(..)] *)
Definition hexpect {A} (o : option A) : hres A := match o with Some a => HOk a | None => HPanic end.

(** [*], [+] and [-] on [usize] *)
Definition hword `{Profile} (z : Z) : hres Z :=
  if (0 <=? z) && (z <=? usize_max) then HOk z else if debug_assertions then HPanic else HOk (wrapping z).

(** ** Core placement *)

Definition producer_core_slot `{Profile} (producers consumers producer_id : Z) : hres Z :=
  let paired := Z.min producers consumers in
  if producer_id <? paired then hword (producer_id * 2)
  else p2 ← hword (paired * 2); s ← hword (p2 + producer_id); hword (s - paired).

Definition consumer_core_slot `{Profile} (producers consumers consumer_id : Z) : hres Z :=
  let paired := Z.min producers consumers in
  if consumer_id <? paired then c2 ← hword (consumer_id * 2); hword (c2 + 1)
  else p2 ← hword (paired * 2); s ← hword (p2 + consumer_id); hword (s - paired).

(** ** Scenarios *)

Record ScenarioConfig := mkScenario {
  sc_name : text;
  producers : Z;
  consumers : Z
}.

#[export] Instance scenario_eq_dec : EqDecision ScenarioConfig.
Proof. solve_decision. Defined.

Definition ScenarioConfig_new (p c : Z) : ScenarioConfig :=
  mkScenario (show p ++ lit "p" ++ show c ++ lit "c") p c.

Definition total_threads (s : ScenarioConfig) : hres Z := hexpect (checked_add (producers s) (consumers s)).

Definition parse_scenario_token (input : text) : option ScenarioConfig :=
  let token := to_ascii_lowercase (str_trim input) in
  '(producer_part, rest) ← split_once "p"%char token;
  consumer_part ← strip_suffix (lit "c") rest;
  if bool_decide (producer_part = []) || bool_decide (consumer_part = []) then None else
  if starts_with "0"%char producer_part || starts_with "0"%char consumer_part then None else
  if negb (forallb is_ascii_digit producer_part) || negb (forallb is_ascii_digit consumer_part) then None else
  p ← parse_usize producer_part;
  c ← parse_usize consumer_part;
  if (p =? 0) || (c =? 0) then None else Some (ScenarioConfig_new p c).

Definition parse_csv_list (raw : text) : list text :=
  filter (λ item, item ≠ []) (str_trim <$> split ","%char raw).

(** ** CPU selections *)

(** [for id in ..: if !seen.insert(id) { return Err(..) } ids.push(id)]; [ids] holds what
    [seen] holds. *)
Fixpoint select_ids (ids new : list Z) : hres (list Z) :=
  match new with
  | [] => HOk ids
  | id :: new =>
      if bool_decide (id ∈ ids) then HErr (lit "CPU " ++ show id ++ lit " is selected more than once")
      else select_ids (ids ++ [id]) new
  end.

Definition core_token (ids : list Z) (token : text) : hres (list Z) :=
  match split_once "-"%char token with
  | Some (start, endt) =>
      first ← ok_or_else (parse_usize (str_trim start)) (lit "invalid CPU range start `" ++ start ++ lit "`");
      last ← ok_or_else (parse_usize (str_trim endt)) (lit "invalid CPU range end `" ++ endt ++ lit "`");
      if last <? first then HErr (lit "CPU range `" ++ token ++ lit "` is descending")
      else select_ids ids (seqZ first (last - first + 1))
  | None =>
      id ← ok_or_else (parse_usize token) (lit "invalid CPU id `" ++ token ++ lit "`");
      select_ids ids [id]
  end.

Fixpoint core_tokens (ids : list Z) (tokens : list text) : hres (list Z) :=
  match tokens with
  | [] => HOk ids
  | token :: tokens => ids ← core_token ids token; core_tokens ids tokens
  end.

Definition parse_core_ids (raw : text) : hres (list Z) :=
  ids ← core_tokens [] (parse_csv_list raw);
  match ids with
  | [] => HErr (lit "at least one CPU id must be selected")
  | _ => HOk ids
  end.

Definition parse_schedule_seed (raw : text) : hres Z :=
  let raw := str_trim raw in
  match strip_prefix (lit "0x") raw with
  | Some hex => ok_or_else (from_str_radix usize_max 16 hex) (lit "invalid hexadecimal schedule seed `" ++ raw ++ lit "`")
  | None =>
      match strip_prefix (lit "0X") raw with
      | Some hex => ok_or_else (from_str_radix usize_max 16 hex) (lit "invalid hexadecimal schedule seed `" ++ raw ++ lit "`")
      | None => ok_or_else (parse_usize raw) (lit "invalid schedule seed `" ++ raw ++ lit "`")
      end
  end.

(** ** Families of scenarios *)

(** [while count < available_parallelism { push(count); count *= 2 }], which stops when
    the doubling overflows. *)
Fixpoint pow2_counts (fuel : nat) (available_parallelism count : Z) : list Z :=
  match fuel with
  | O => []
  | S fuel =>
      if count <? available_parallelism then
        count :: match checked_mul count 2 with
                 | Some next => pow2_counts fuel available_parallelism next
                 | None => []
                 end
      else []
  end.

(** The key by which scenarios are sorted. *)
Definition scenario_le (a b : ScenarioConfig) : Prop :=
  producers a + consumers a < producers b + consumers b ∨
  producers a + consumers a = producers b + consumers b ∧
    (producers a < producers b ∨ producers a = producers b ∧ consumers a ≤ consumers b).

#[export] Instance scenario_le_dec a b : Decision (scenario_le a b).
Proof. unfold scenario_le. apply _. Defined.

Definition power_of_two_scenarios (available_parallelism : Z) : hres (list ScenarioConfig) :=
  if available_parallelism <? 2 then
    HErr (lit "the power-of-two scenario grid requires available_parallelism >= 2")
  else
    let thread_counts := pow2_counts 65 available_parallelism 1 in
    let scenarios :=
      p ← thread_counts;
      c ← thread_counts;
      match checked_add p c with
      | Some total => if total <=? available_parallelism then [ScenarioConfig_new p c] else []
      | None => []
      end in
    HOk (merge_sort scenario_le scenarios).

Definition parse_positive_range (input : text) : option (Z * Z) :=
  let '(first, last) := match split_once "-"%char input with
                        | Some (a, b) => (str_trim a, str_trim b)
                        | None => (str_trim input, str_trim input)
                        end in
  if bool_decide (first = []) || bool_decide (last = []) then None else
  first ← parse_usize first;
  last ← parse_usize last;
  if (first =? 0) || (last =? 0) || (last <? first) then None else Some (first, last).

(** [false]: not the name of a family. *)
Definition expand_family_range (family range : text) (out : list ScenarioConfig) : hres (bool * list ScenarioConfig) :=
  match parse_positive_range range with
  | None => HErr (lit "invalid " ++ family ++ lit " scenario range '" ++ range ++ lit "'")
  | Some (first, last) =>
      let threads := seqZ first (last - first + 1) in
      if bool_decide (family = lit "mpsc") then HOk (true, out ++ ((λ n, ScenarioConfig_new n 1) <$> threads))
      else if bool_decide (family = lit "spmc") then HOk (true, out ++ ((λ n, ScenarioConfig_new 1 n) <$> threads))
      else if bool_decide (family = lit "mpmc") then HOk (true, out ++ ((λ n, ScenarioConfig_new n n) <$> threads))
      else HOk (false, out)
  end.

(** [while value <= max_producers { push(value); value = value.checked_mul(2)? }] *)
Fixpoint mpsc_counts (fuel : nat) (max_producers value : Z) : hres (list Z) :=
  match fuel with
  | O => HOk []
  | S fuel =>
      if value <=? max_producers then
        next ← ok_or_else (checked_mul value 2) (lit "mpsc:machine producer count overflow");
        rest ← mpsc_counts fuel max_producers next;
        HOk (value :: rest)
      else HOk []
  end.

Definition machine_mpsc_scenarios (available_parallelism : Z) : hres (list ScenarioConfig) :=
  if available_parallelism <? 2 then HErr (lit "mpsc:machine requires available_parallelism >= 2") else
  let max_producers := available_parallelism - 1 in
  counts ← mpsc_counts 65 max_producers 1;
  let counts := if bool_decide (last counts = Some max_producers) then counts else counts ++ [max_producers] in
  HOk ((λ n, ScenarioConfig_new n 1) <$> counts).

Definition BBQ_ATC22_X86_88T_SCENARIO_SUITE : text := lit "bbq-atc22-x86-88t".
Definition BBQ_ATC22_OVERSUB_X86_12T_SCENARIO_SUITE : text := lit "bbq-atc22-oversub-x86-12t".

(** The families in the order in which their prefixes are tried. *)
Fixpoint expand_families (families : list text) (normalized : text) : option (hres (list ScenarioConfig)) :=
  match families with
  | [] => None
  | family :: families =>
      match strip_prefix (family ++ lit ":") normalized with
      | Some range => Some ('(_, out) ← expand_family_range family range []; HOk out)
      | None => expand_families families normalized
      end
  end.

(** [detected] is what [detect_available_parallelism] answers. *)
Definition expand_scenario_selector_with_parallelism (detected : hres Z) (token : text)
  (machine_parallelism : option Z) : hres (list ScenarioConfig) :=
  let normalized := to_ascii_lowercase (str_trim token) in
  if bool_decide (normalized = lit "spsc") then HOk [ScenarioConfig_new 1 1] else
  if bool_decide (normalized = lit "mpsc:machine") then
    parallelism ← ok_or_else machine_parallelism (lit "mpsc:machine requires detected machine parallelism");
    machine_mpsc_scenarios parallelism
  else if bool_decide (normalized = lit "pow2:machine") || bool_decide (normalized = lit "power-of-two:machine") then
    parallelism ← match machine_parallelism with Some value => HOk value | None => detected end;
    power_of_two_scenarios parallelism
  else if bool_decide (normalized = BBQ_ATC22_X86_88T_SCENARIO_SUITE) then
    HOk (ScenarioConfig_new 1 1 :: ((λ n, ScenarioConfig_new n 1) <$> seqZ 1 87) ++
         ((λ n, ScenarioConfig_new 1 n) <$> seqZ 1 87))
  else if bool_decide (normalized = BBQ_ATC22_OVERSUB_X86_12T_SCENARIO_SUITE) then
    HOk (((λ n, ScenarioConfig_new n 1) <$> seqZ 1 59) ++ ((λ n, ScenarioConfig_new 1 n) <$> seqZ 1 59))
  else
    match expand_families [lit "mpsc"; lit "spmc"; lit "mpmc"] normalized with
    | Some r => r
    | None =>
        parsed ← ok_or_else (parse_scenario_token normalized) (lit "invalid scenario token '" ++ token ++ lit "'");
        HOk [parsed]
    end.

(** Scenarios whose name has not been seen. *)
Fixpoint add_scenarios (out new : list ScenarioConfig) : list ScenarioConfig :=
  match new with
  | [] => out
  | s :: new => add_scenarios (if bool_decide (sc_name s ∈ sc_name <$> out) then out else out ++ [s]) new
  end.

Fixpoint collect_scenarios (detected : hres Z) (machine_parallelism : option Z) (out : list ScenarioConfig)
  (tokens : list text) : hres (list ScenarioConfig) :=
  match tokens with
  | [] => HOk out
  | token :: tokens =>
      new ← expand_scenario_selector_with_parallelism detected token machine_parallelism;
      collect_scenarios detected machine_parallelism (add_scenarios out new) tokens
  end.

(** [Ord] on strings: by bytes. *)
Fixpoint text_le (a b : text) : bool :=
  match a, b with
  | [], _ => true
  | _ :: _, [] => false
  | x :: a, y :: b => (code x <? code y) || ((code x =? code y) && text_le a b)
  end.

Definition by_threads_and_name (a b : ScenarioConfig) : Prop :=
  producers a + consumers a < producers b + consumers b ∨
  producers a + consumers a = producers b + consumers b ∧ text_le (sc_name a) (sc_name b) = true.

#[export] Instance by_threads_and_name_dec a b : Decision (by_threads_and_name a b).
Proof. unfold by_threads_and_name. apply _. Defined.

(** Sorting two scenarios or more computes all their keys. *)
Definition sort_scenarios (out : list ScenarioConfig) : hres (list ScenarioConfig) :=
  match out with
  | [] | [_] => HOk out
  | _ => if forallb (λ s, producers s + consumers s <=? usize_max) out
         then HOk (merge_sort by_threads_and_name out) else HPanic
  end.

Definition DEFAULT_SCENARIOS : list text := [lit "pow2:machine"].

Definition parse_scenarios_inner (detected : hres Z) (raw : option text) (machine_parallelism : option Z) :
  hres (list ScenarioConfig) :=
  let source := match raw with Some raw => parse_csv_list raw | None => DEFAULT_SCENARIOS end in
  out ← collect_scenarios detected machine_parallelism [] source;
  sort_scenarios out.

(** ** Sizes *)

(** A loop over tokens that keeps the distinct values in order. *)
Fixpoint parse_distinct {A} `{EqDecision A} (f : text → hres A) (out : list A) (tokens : list text) : hres (list A) :=
  match tokens with
  | [] => HOk out
  | token :: tokens =>
      x ← f token;
      parse_distinct f (if bool_decide (x ∈ out) then out else out ++ [x]) tokens
  end.

Definition nonempty_or {A} (l : list A) (e : text) : hres (list A) := match l with [] => HErr e | _ => HOk l end.

Definition positive_or (parsed : Z) (e : text) : hres Z := if parsed =? 0 then HErr e else HOk parsed.

Definition tokens_or (raw : option text) (defaults : list Z) : list text :=
  match raw with Some raw => parse_csv_list raw | None => show <$> defaults end.

Definition parse_items_per_producer (raw : option text) : hres (list Z) :=
  parse_distinct (λ token,
    parsed ← ok_or_else (parse_usize token) (lit "invalid items_per_producer '" ++ token ++ lit "'");
    positive_or parsed (lit "items_per_producer must be > 0")) [] (tokens_or raw [1000000]).

Definition scenario_scaled_items_per_producer (producers : Z) : hres Z :=
  if producers =? 0 then HPanic
  else if producers <=? 8 then HOk 1000000
  else if producers <=? 16 then HOk 250000
  else if producers <=? 32 then HOk 62500
  else HOk 15625.

Definition parse_fastfifo_block_sizes (raw : option text) : hres (list Z) :=
  out ← parse_distinct (λ token,
    parsed ← ok_or_else (parse_usize token) (lit "invalid RBBQ block size '" ++ token ++ lit "'");
    positive_or parsed (lit "RBBQ block sizes must be > 0")) [] (tokens_or raw [64; 256; 1024; 4096]);
  nonempty_or out (lit "at least one RBBQ block size is required").

Definition parse_fastfifo_capacities (raw : option text) : hres (list Z) :=
  parse_distinct (λ token,
    parsed ← ok_or_else (parse_usize token) (lit "invalid FastFifo capacity `" ++ token ++ lit "`");
    positive_or parsed (lit "FastFifo capacities must be > 0")) [] (tokens_or raw [1048576]).

Definition parse_lfqueue_segment_sizes (raw : option text) : hres (list Z) :=
  out ← parse_distinct (λ token,
    parsed ← ok_or_else (parse_usize token) (lit "invalid lfqueue segment size '" ++ token ++ lit "'");
    positive_or parsed (lit "lfqueue segment sizes must be > 0")) [] (tokens_or raw [32; 256; 1024]);
  nonempty_or out (lit "at least one lfqueue segment size is required").

Definition SUPPORTED_WCQ_CAPACITIES : list Z := [256; 1024; 4096; 16384; 65536; 262144; 1048576; 4194304].

Definition parse_wcq_capacities (raw : option text) : hres (list Z) :=
  out ← parse_distinct (λ token,
    parsed ← ok_or_else (parse_usize token) (lit "invalid wCQ capacity '" ++ token ++ lit "'");
    parsed ← positive_or parsed (lit "wCQ capacities must be > 0");
    if negb (is_power_of_two parsed) then HErr (lit "wCQ capacity '" ++ show parsed ++ lit "' must be a power of two") else
    if negb (bool_decide (parsed ∈ SUPPORTED_WCQ_CAPACITIES)) then
      HErr (lit "unsupported wCQ capacity '" ++ show parsed ++ lit "'; supported capacities are " ++
            join (lit ",") (show <$> SUPPORTED_WCQ_CAPACITIES))
    else HOk parsed) [] (tokens_or raw [4096; 65536; 1048576]);
  nonempty_or out (lit "at least one wCQ capacity is required").

Fixpoint normalize_sizes (normalized batch_sizes : list Z) : hres (list Z) :=
  match batch_sizes with
  | [] => HOk normalized
  | batch_size :: batch_sizes =>
      if batch_size <? 2 then
        HErr (lit "queue batch sizes must be >= 2; scalar-compatible runs are measured separately")
      else normalize_sizes (if bool_decide (batch_size ∈ normalized) then normalized else normalized ++ [batch_size]) batch_sizes
  end.

Definition normalize_ubq_batch_sizes (batch_sizes : list Z) : hres (list Z) := normalize_sizes [] batch_sizes.

(** [None] when no multiple of the batch fits; a batch of zero divides by zero. *)
Definition batch_aligned_round_items (items batch max_per_producer : Z) : hres (option Z) :=
  if batch =? 0 then HPanic else
  let max_batch_aligned := max_per_producer / batch * batch in
  HOk (if 0 <? max_batch_aligned
       then Some (Z.min (Z.min usize_max (div_ceil (Z.max items 1) batch * batch)) max_batch_aligned) else None).

Definition total_items (items_per_producer producers : Z) : hres Z := hexpect (checked_mul items_per_producer producers).

(** ** Names

    Modes, queue kinds and UBQ labels, how they are printed and parsed, the labels
    searched around a label, file names and hashes. *)

(** ** Modes and queue kinds *)

Inductive Mode :=
| Throughput | ComplexThroughput | DataLatency | Fairness
| AppLogFanIn | AppPipeline | AppTaskRoundtrip | AppLogMpscFile.

#[export] Instance Mode_eq_dec : EqDecision Mode.
Proof. solve_decision. Defined.

Definition Mode_name (m : Mode) : text :=
  lit match m with
      | Throughput => "throughput"
      | ComplexThroughput => "complex_throughput"
      | DataLatency => "data_latency"
      | Fairness => "fairness"
      | AppLogFanIn => "app_log_fan_in"
      | AppPipeline => "app_pipeline"
      | AppTaskRoundtrip => "app_task_roundtrip"
      | AppLogMpscFile => "app_log_mpsc_file"
      end.

(** The first entry whose names contain [s]. *)
Fixpoint select_name {A} (table : list (list string * A)) (s : text) : option A :=
  match table with
  | [] => None
  | (names, a) :: table => if bool_decide (s ∈ lit <$> names) then Some a else select_name table s
  end.

Definition Mode_parse (input : text) : option Mode :=
  select_name [
    (["throughput"], Throughput);
    (["complex_throughput"; "complex-throughput"; "complex"], ComplexThroughput);
    (["data_latency"; "data-latency"], DataLatency);
    (["fairness"], Fairness);
    (["app_log_fan_in"; "app-log-fan-in"], AppLogFanIn);
    (["app_pipeline"; "app-pipeline"], AppPipeline);
    (["app_task_roundtrip"; "app-task-roundtrip"], AppTaskRoundtrip);
    (["app_log_mpsc_file"; "app-log-mpsc-file"], AppLogMpscFile)]%string
    (to_ascii_lowercase (str_trim input)).

Definition extra_threads (m : Mode) : Z := match m with AppPipeline => 1 | _ => 0 end.

Definition parse_modes (raw : option text) : hres (list Mode) :=
  let source := match raw with Some raw => parse_csv_list raw | None => [Mode_name Throughput] end in
  out ← parse_distinct (λ token, ok_or_else (Mode_parse token) (lit "invalid mode '" ++ token ++ lit "'")) [] source;
  nonempty_or out (lit "at least one mode is required").

Definition validate_mode_for_scenario (mode : Mode) (scenario : ScenarioConfig) : hres unit :=
  if bool_decide (mode = AppLogMpscFile) && negb (consumers scenario =? 1) then
    HErr (lit "mode " ++ Mode_name mode ++ lit " requires exactly one consumer, got scenario " ++ sc_name scenario)
  else HOk tt.

Inductive QueueKind :=
| KUbq | KLubq | KSegQueue | KConcurrentQueue | KFastFifo | KLfQueue | KWcq
| KMutexVecDeque | KMsQueue | KNaiveFaaQueue | KMoodycamel.

#[export] Instance QueueKind_eq_dec : EqDecision QueueKind.
Proof. solve_decision. Defined.

Definition QueueKind_name (q : QueueKind) : text :=
  lit match q with
      | KUbq => "ubq"
      | KLubq => "lubq"
      | KSegQueue => "segqueue"
      | KConcurrentQueue => "concurrent-queue"
      | KFastFifo => "fastfifo"
      | KLfQueue => "lfqueue"
      | KWcq => "wcq"
      | KMutexVecDeque => "mutex-vecdeque"
      | KMsQueue => "ms-queue"
      | KNaiveFaaQueue => "naive-faa-queue"
      | KMoodycamel => "moodycamel-cq"
      end.

Definition QueueKind_parse (input : text) : option QueueKind :=
  select_name [
    (["ubq"], KUbq);
    (["lubq"; "linked-ubq"; "kfifo"], KLubq);
    (["segqueue"; "crossbeam"; "crossbeam-segqueue"], KSegQueue);
    (["concurrent-queue"; "concurrent"], KConcurrentQueue);
    (["fastfifo"; "fast-fifo"; "rbbq"; "bbq"], KFastFifo);
    (["lfqueue"; "lf-queue"; "lscq"; "scq"], KLfQueue);
    (["wcq"; "w-cq"; "wait-free-cq"; "wait-free-queue"], KWcq);
    (["mutex-vecdeque"; "mutex"; "vecdeque"; "mutex-queue"], KMutexVecDeque);
    (["ms-queue"; "michael-scott"; "msqueue"], KMsQueue);
    (["naive-faa-queue"; "infinite-array-queue"; "livelock-queue"; "pathological"], KNaiveFaaQueue);
    (["moodycamel-cq"; "moodycamel"; "mc-queue"], KMoodycamel)]%string
    (to_ascii_lowercase (str_trim input)).

Definition is_baseline (q : QueueKind) : bool := match q with KUbq => false | _ => true end.

Definition parse_queue_kinds (raw : text) : hres (list QueueKind) :=
  out ← parse_distinct (λ token, ok_or_else (QueueKind_parse token) (lit "invalid queue kind '" ++ token ++ lit "'")) []
          (parse_csv_list raw);
  nonempty_or out (lit "at least one queue kind is required").

(** ** UBQ labels *)

Record UbqLabel := mkUbqLabel { preset : text; backoff : text }.

#[export] Instance UbqLabel_eq_dec : EqDecision UbqLabel.
Proof. solve_decision. Defined.

Definition UbqLabel_text (l : UbqLabel) : text := preset l ++ lit ",1,page," ++ backoff l.

Definition UbqLabel_safe (l : UbqLabel) : text := preset l ++ lit "_1_page_" ++ backoff l.

Definition UBQ_BACKOFF_VALUES : list text := [lit "crossbeam"; lit "yield"].

Definition LEGACY_UBQ_BLOCK_VALUES : list Z :=
  [31; 63; 127; 255; 511; 1023; 2047; 4095; 8191; 16383; 32767; 65535].

Definition is_valid_ubq_label (l : UbqLabel) : bool :=
  bool_decide (preset l = lit "balanced") && bool_decide (backoff l ∈ UBQ_BACKOFF_VALUES).

Definition parse_ubq_label (token : text) (require_valid : bool) : hres UbqLabel :=
  let e := lit "invalid UBQ label '" ++ token ++ lit "'" in
  let parts := filter (λ part, str_trim part ≠ []) (split ","%char (to_ascii_lowercase (str_trim token))) in
  match parts with
  | [p0; p1; p2; p3] =>
      legacy_pool ← ok_or_else (from_str_radix 255 10 p1) e;
      let block_is_valid := bool_decide (p2 = lit "page") ||
        match from_str_radix 65535 10 p2 with Some block => bool_decide (block ∈ LEGACY_UBQ_BLOCK_VALUES) | None => false end in
      if require_valid && (negb (legacy_pool =? 1) || negb block_is_valid) then HErr e else
      let label := mkUbqLabel p0 p3 in
      if require_valid && negb (is_valid_ubq_label label) then HErr e else HOk label
  | _ => HErr e
  end.

Definition normalize_ubq_label (token : text) (require_valid : bool) : option text :=
  match parse_ubq_label token require_valid with HOk l => Some (UbqLabel_text l) | _ => None end.

(** The values before and after [value] in [domain]. *)
Definition immediate_domain_neighbors_str (value : text) (domain : list text) : list text :=
  match list_find (λ candidate, candidate = value) domain with
  | Some (idx, _) =>
      (if (0 <? idx)%nat then option_list (domain !! (idx - 1)%nat) else []) ++
      (if (idx + 1 <? length domain)%nat then option_list (domain !! (idx + 1)%nat) else [])
  | None => []
  end.

Definition immediate_neighbors (label : UbqLabel) (idx : nat) : list UbqLabel :=
  if (idx =? 0)%nat
  then mkUbqLabel (preset label) <$> immediate_domain_neighbors_str (backoff label) UBQ_BACKOFF_VALUES
  else [].

(** The set of labels, without repetition. *)
Definition required_ubq_labels_for_center (label : UbqLabel) : list UbqLabel :=
  remove_dups (label :: filter (λ candidate, is_valid_ubq_label candidate = true)
    (idx ← seq 0 1; immediate_neighbors label idx)).

Definition immediate_search_labels (label : text) : hres (list text) :=
  parsed ← parse_ubq_label label true;
  HOk (UbqLabel_text <$> required_ubq_labels_for_center parsed).

(** ** Names of files, and hashes *)

Definition sanitize_char (ch : ascii) : ascii :=
  if is_ascii_alphanumeric ch || bool_decide (ch ∈ [".";"_";"-"]%char) then ascii_lower ch else "_"%char.

Definition sanitize_name (raw : text) : text := trim_matches (λ ch, bool_decide (ch = "_"%char)) (sanitize_char <$> raw).

Definition stable_hash64 (seed : Z) (bytes : text) : Z :=
  foldl (λ hash byte, wrapping (Z.lxor hash (code byte) * 1099511628211)) (Z.lxor 14695981039346656037 seed) bytes.

Definition app_hash (value : Z) : Z :=
  let value := Z.lxor value (Z.shiftr value 30) in
  let value := wrapping (value * 13787848793156543929) in
  let value := Z.lxor value (Z.shiftr value 27) in
  let value := wrapping (value * 10723151780598845931) in
  Z.lxor value (Z.shiftr value 31).
