(* ===== verification/HarnessSpec.v ===== *)
(** * The benchmark harness: what its plans are

    The core slots of a scenario's threads are distinct and contiguous; scenario tokens
    are parsed exactly when they are printed names; a CPU selection that is accepted
    lists distinct CPUs and can be read back; the power-of-two grid is complete. *)

From Stdlib Require Import Ascii String.
From stdpp Require Import sorting.
From S2P Require Import Prelude Prog Text Harness.

(** ** Core slots *)

Lemma hword_ok `{Profile} z : is_usize z → hword z = HOk z.
Proof. intros [??]. unfold hword. by rewrite (proj2 (Z.leb_le 0 z)), (proj2 (Z.leb_le z _)). Qed.

Section slots.
Context `{PR : Profile} (p c : Z) (Hp : 0 ≤ p) (Hc : 0 ≤ c) (Hmax : 2 * (p + c) ≤ usize_max).

Definition p_slot (i : Z) : Z := if i <? Z.min p c then i * 2 else Z.min p c + i.
Definition c_slot (i : Z) : Z := if i <? Z.min p c then i * 2 + 1 else Z.min p c + i.

Lemma producer_slot_eq i : 0 ≤ i < p → producer_core_slot p c i = HOk (p_slot i).
Proof.
  intros Hi. unfold producer_core_slot, p_slot. zcase; [by rewrite hword_ok by (unfold is_usize; lia)|].
  rewrite hword_ok by (unfold is_usize; lia). cbn [mbind hres_bind].
  rewrite hword_ok by (unfold is_usize; lia). cbn [mbind hres_bind].
  rewrite hword_ok by (unfold is_usize; lia). f_equal. lia.
Qed.

Lemma consumer_slot_eq i : 0 ≤ i < c → consumer_core_slot p c i = HOk (c_slot i).
Proof.
  intros Hi. unfold consumer_core_slot, c_slot. zcase.
  - rewrite hword_ok by (unfold is_usize; lia). cbn [mbind hres_bind]. by rewrite hword_ok by (unfold is_usize; lia).
  - rewrite hword_ok by (unfold is_usize; lia). cbn [mbind hres_bind].
    rewrite hword_ok by (unfold is_usize; lia). cbn [mbind hres_bind].
    rewrite hword_ok by (unfold is_usize; lia). f_equal. lia.
Qed.

Lemma slots_permutation : (p_slot <$> seqZ 0 p) ++ (c_slot <$> seqZ 0 c) ≡ₚ seqZ 0 (p + c).
Proof.
  assert (∀ i j, 0 ≤ i → 0 ≤ j → p_slot i = p_slot j → i = j) as Ip by (unfold p_slot; intros i j ??; repeat zcase; lia).
  assert (∀ i j, 0 ≤ i → 0 ≤ j → c_slot i = c_slot j → i = j) as Ic by (unfold c_slot; intros i j ??; repeat zcase; lia).
  assert (∀ i j, 0 ≤ i < p → 0 ≤ j < c → p_slot i ≠ c_slot j) as Ipc by (unfold p_slot, c_slot; intros i j ??; repeat zcase; lia).
  apply submseteq_length_Permutation; [|rewrite length_app, !length_fmap, !length_seqZ; lia].
  apply NoDup_submseteq.
  - apply NoDup_app. split; [|split].
    + apply NoDup_fmap_2_strong; [|apply NoDup_seqZ]. intros i j Hi%elem_of_seqZ Hj%elem_of_seqZ. apply Ip; lia.
    + intros x (i & -> & Hi%elem_of_seqZ)%list_elem_of_fmap (j & E & Hj%elem_of_seqZ)%list_elem_of_fmap.
      eapply Ipc; [| |exact E]; lia.
    + apply NoDup_fmap_2_strong; [|apply NoDup_seqZ]. intros i j Hi%elem_of_seqZ Hj%elem_of_seqZ. apply Ic; lia.
  - intros x [(i & -> & Hi%elem_of_seqZ)%list_elem_of_fmap|(i & -> & Hi%elem_of_seqZ)%list_elem_of_fmap]%elem_of_app;
      apply elem_of_seqZ; [unfold p_slot|unfold c_slot]; zcase; lia.
Qed.

(** The threads of a scenario get the core slots from zero to the number of threads,
    each exactly one. *)
Theorem core_slots_bijective :
  ∃ ps cs, (producer_core_slot p c <$> seqZ 0 p) = HOk <$> ps ∧ (consumer_core_slot p c <$> seqZ 0 c) = HOk <$> cs ∧
    ps ++ cs ≡ₚ seqZ 0 (p + c).
Proof.
  exists (p_slot <$> seqZ 0 p), (c_slot <$> seqZ 0 c). split; [|split; [|apply slots_permutation]].
  - rewrite <- list_fmap_compose. apply list_fmap_ext. intros k i Hk%lookup_seqZ. apply producer_slot_eq. lia.
  - rewrite <- list_fmap_compose. apply list_fmap_ext. intros k i Hk%lookup_seqZ. apply consumer_slot_eq. lia.
Qed.

End slots.

(** ** Scenario tokens *)

Lemma bool_decide_nil (s : text) : s ≠ [] → bool_decide (s = []) = false.
Proof. apply bool_decide_eq_false_2. Qed.

Lemma starts_with_false ch s : head s ≠ Some ch → starts_with ch s = false.
Proof. apply bool_decide_eq_false_2. Qed.

(** The conditions on a part of a token are those under which it prints the number that
    is parsed. *)
Lemma count_part s n : s ≠ [] → starts_with "0" s = false → forallb is_ascii_digit s = true →
  parse_usize s = Some n → show n = s ∧ 1 ≤ n ≤ usize_max.
Proof. intros Hs H0%bool_decide_eq_false Hd%forallb_digits Hn. by apply show_parse. Qed.

Lemma part_count n : 1 ≤ n ≤ usize_max →
  bool_decide (show n = []) = false ∧ starts_with "0" (show n) = false ∧
  forallb is_ascii_digit (show n) = true ∧ parse_usize (show n) = Some n.
Proof.
  intros Hn. split_and!.
  - apply bool_decide_nil, show_not_nil.
  - apply starts_with_false, show_head. lia.
  - apply forallb_digits, show_all_digits. lia.
  - apply parse_show. unfold is_usize. lia.
Qed.

Lemma parse_scenario_name s p c : 1 ≤ p ≤ usize_max → 1 ≤ c ≤ usize_max →
  to_ascii_lowercase (str_trim s) = sc_name (ScenarioConfig_new p c) →
  parse_scenario_token s = Some (ScenarioConfig_new p c).
Proof.
  intros Hp Hc E. unfold parse_scenario_token. rewrite E. cbn [sc_name ScenarioConfig_new].
  destruct (part_count p Hp) as (Ep & Zp & Dp & Np), (part_count c Hc) as (Ec & Zc & Dc & Nc).
  change (lit "p" ++ ?x) with ("p"%char :: x).
  rewrite split_once_app by (apply digits_notin; [apply show_all_digits; lia|done]).
  cbn [mbind option_bind]. rewrite strip_suffix_app. cbn [mbind option_bind].
  rewrite Ep, Ec, Zp, Zc, Dp, Dc. cbn [orb negb]. rewrite Np, Nc. cbn [mbind option_bind].
  by rewrite !(proj2 (Z.eqb_neq _ _)) by lia.
Qed.

Lemma parse_scenario_inv s sc : parse_scenario_token s = Some sc →
  ∃ p c, 1 ≤ p ≤ usize_max ∧ 1 ≤ c ≤ usize_max ∧ sc = ScenarioConfig_new p c ∧
    to_ascii_lowercase (str_trim s) = sc_name sc.
Proof.
  unfold parse_scenario_token. set (t := to_ascii_lowercase (str_trim s)).
  intros ([a r] & E%split_once_Some & (b & Eb%strip_suffix_Some & H)%bind_Some)%bind_Some.
  case_bool_decide as Ha; [done|]. case_bool_decide as Hb; [done|]. cbn [orb] in H.
  destruct (starts_with "0" a) eqn:Za; [done|]. destruct (starts_with "0" b) eqn:Zb; [done|]. cbn [orb] in H.
  destruct (forallb is_ascii_digit a) eqn:Da; [|done]. destruct (forallb is_ascii_digit b) eqn:Db; [|done].
  cbn [orb negb] in H. apply bind_Some in H as (p & Np & (c & Nc & H)%bind_Some).
  destruct (count_part a p Ha Za Da Np) as [<- Hp], (count_part b c Hb Zb Db Nc) as [<- Hc].
  rewrite !(proj2 (Z.eqb_neq _ _)) in H by lia. injection H as <-.
  exists p, c. split_and!; try lia; [done|]. destruct E as [-> _]. by rewrite Eb.
Qed.

(** A scenario token is accepted exactly when, trimmed and in lower case, it is the
    name the harness prints for positive counts of producers and consumers, and it then
    denotes that scenario: no token is read as another scenario's. *)
Theorem scenario_token_exact s sc :
  parse_scenario_token s = Some sc ↔
  ∃ p c, 1 ≤ p ≤ usize_max ∧ 1 ≤ c ≤ usize_max ∧ sc = ScenarioConfig_new p c ∧
    to_ascii_lowercase (str_trim s) = sc_name sc.
Proof.
  split; [apply parse_scenario_inv|]. intros (p & c & Hp & Hc & -> & E). by apply parse_scenario_name.
Qed.

(** ** CPU selections *)

Lemma select_ids_eq new ids : NoDup (ids ++ new) → select_ids ids new = HOk (ids ++ new).
Proof.
  revert ids. induction new as [|id new IH]; intros ids Hnd; cbn [select_ids]; [by rewrite app_nil_r|].
  rewrite bool_decide_eq_false_2.
  - rewrite IH; [by rewrite <- app_assoc|by rewrite <- app_assoc].
  - intros Hin. apply NoDup_app in Hnd as (_ & Hd & _). apply (Hd id Hin). set_solver.
Qed.

Lemma select_ids_ok new ids r : NoDup ids → select_ids ids new = HOk r → r = ids ++ new ∧ NoDup r.
Proof.
  revert ids. induction new as [|id new IH]; intros ids Hnd; cbn [select_ids].
  - intros [= <-]. by rewrite app_nil_r.
  - case_bool_decide as Hin; [done|]. intros [-> Hr]%IH; [by rewrite <- app_assoc in *|].
    apply NoDup_app. split_and!; [done| |apply NoDup_singleton]. set_solver.
Qed.

Lemma ok_or_else_ok {A} (o : option A) e a : ok_or_else o e = HOk a → o = Some a.
Proof. by destruct o; intros [= ->]. Qed.

Lemma hres_bind_ok {A B} (m : hres A) (f : A → hres B) b : m ≫= f = HOk b → ∃ a, m = HOk a ∧ f a = HOk b.
Proof. destruct m; cbn [mbind hres_bind]; [eauto|done..]. Qed.

Lemma core_token_ok ids token r : NoDup ids → Forall is_usize ids → core_token ids token = HOk r →
  NoDup r ∧ Forall is_usize r.
Proof.
  intros Hnd Hw. unfold core_token. destruct (split_once _ _) as [[a b]|].
  - intros (first & Hf%ok_or_else_ok%parse_usize_is & K)%hres_bind_ok.
    apply hres_bind_ok in K as (last & Hl%ok_or_else_ok%parse_usize_is & K). revert K.
    zcase; [done|]. intros [-> Hr]%select_ids_ok; [|done]. split; [done|]. apply Forall_app. split; [done|].
    apply Forall_forall. intros x Hx%elem_of_seqZ. unfold is_usize in *. lia.
  - intros (id & Hid%ok_or_else_ok%parse_usize_is & [-> Hr]%select_ids_ok)%hres_bind_ok; [|done].
    split; [done|]. apply Forall_app. by rewrite Forall_singleton.
Qed.

Lemma core_tokens_ok tokens ids r : NoDup ids → Forall is_usize ids → core_tokens ids tokens = HOk r →
  NoDup r ∧ Forall is_usize r.
Proof.
  revert ids. induction tokens as [|t tokens IH]; intros ids Hnd Hw; cbn [core_tokens]; [by intros [= <-]|].
  intros (ids' & [Hn1 Hw1]%core_token_ok & Hr)%hres_bind_ok; [|done..]. by eapply IH.
Qed.

Lemma core_tokens_shown l ids : Forall is_usize l → NoDup (ids ++ l) → core_tokens ids (show <$> l) = HOk (ids ++ l).
Proof.
  revert ids. induction l as [|x l IH]; intros ids Hw Hnd; cbn [fmap list_fmap core_tokens]; [by rewrite app_nil_r|].
  apply Forall_cons in Hw as [Hx Hw]. unfold core_token.
  rewrite split_once_notin by (apply digits_notin; [apply show_all_digits, Hx|done]).
  rewrite parse_show by done. cbn [ok_or_else mbind hres_bind].
  change (ids ++ x :: l) with (ids ++ [x] ++ l) in *. rewrite app_assoc in *.
  rewrite select_ids_eq by (by apply NoDup_app in Hnd as (? & _)). cbn [mbind hres_bind]. by apply IH.
Qed.

Lemma digits_trim s : digits s → str_trim s = s.
Proof. intros Hs. apply trim_id. eapply Forall_impl; [exact Hs|]. apply digit_not_space. Qed.

Lemma list_filter_all {A} (P : A → Prop) `{∀ x, Decision (P x)} l : Forall P l → filter P l = l.
Proof. induction 1; [done|]. rewrite filter_cons_True by done. by f_equal. Qed.

(** A list of printed numbers is read back token by token. *)
Lemma csv_shown l : l ≠ [] → Forall is_usize l → parse_csv_list (join [","%char] (show <$> l)) = show <$> l.
Proof.
  intros Hl Hw. assert (Forall digits (show <$> l)) as Hd.
  { apply Forall_fmap. eapply Forall_impl; [exact Hw|]. intros n [Hn _]. by apply show_all_digits. }
  unfold parse_csv_list. rewrite split_join.
  - rewrite (Forall_fmap_ext_1 str_trim id), list_fmap_id by (eapply Forall_impl; [exact Hd|]; intros w; apply digits_trim).
    apply list_filter_all, Forall_fmap, Forall_forall. intros n _. apply show_not_nil.
  - by destruct l.
  - eapply Forall_impl; [exact Hd|]. intros w Hw'. by apply digits_notin.
Qed.

(** An accepted CPU selection lists at least one CPU, each once, and writing the CPUs
    out with commas between them is accepted as the same selection. *)
Theorem core_ids_roundtrip raw ids : parse_core_ids raw = HOk ids →
  ids ≠ [] ∧ NoDup ids ∧ Forall is_usize ids ∧ parse_core_ids (join [","%char] (show <$> ids)) = HOk ids.
Proof.
  unfold parse_core_ids at 1. intros (l & Hl & H)%hres_bind_ok.
  apply core_tokens_ok in Hl as [Hnd Hw]; [|by constructor..].
  assert (l = ids ∧ ids ≠ []) as [-> Hne] by (destruct l; [done|by injection H as <-]).
  split_and!; [done..|]. unfold parse_core_ids. rewrite csv_shown by done.
  rewrite (core_tokens_shown _ []) by done. cbn [mbind hres_bind app]. by destruct ids.
Qed.

(** ** The power-of-two grid *)

Lemma pow2_counts_elem fuel n k x : 0 ≤ k → n ≤ usize_max → 64 < k + Z.of_nat fuel →
  x ∈ pow2_counts fuel n (2 ^ k) ↔ ∃ i, k ≤ i ∧ x = 2 ^ i ∧ x < n.
Proof.
  revert k. induction fuel as [|fuel IH]; intros k Hk Hn Hf; cbn [pow2_counts].
  - assert (2 ^ 65 ≤ 2 ^ k) by (apply Z.pow_le_mono_r; lia). split; [set_solver|]. intros (i & Hi & -> & Hx).
    assert (2 ^ k ≤ 2 ^ i) by (apply Z.pow_le_mono_r; lia). unfold usize_max in Hn. lia.
  - assert (∀ i, k ≤ i → 2 ^ k ≤ 2 ^ i) as Hmono by (intros i Hi; apply Z.pow_le_mono_r; lia).
    assert (2 ^ k * 2 = 2 ^ (k + 1)) as E by (rewrite Z.pow_add_r by lia; lia).
    assert (∀ i, k < i → 2 ^ (k + 1) ≤ 2 ^ i) as Hmono' by (intros i Hi; apply Z.pow_le_mono_r; lia).
    zcase; [|split; [set_solver|]; intros (i & Hi & -> & Hx); specialize (Hmono i Hi); lia].
    rewrite elem_of_cons. unfold checked_mul. rewrite E. zcase; cbn match.
    + rewrite IH by lia. split.
      * intros [->|(i & Hi & -> & Hx)]; [by exists k|exists i; lia].
      * intros (i & Hi & -> & Hx). destruct (decide (i = k)) as [->|]; [by left|right; exists i; lia].
    + split; [intros [->|?%not_elem_of_nil]; [by exists k|done]|].
      intros (i & Hi & -> & Hx). destruct (decide (i = k)) as [->|]; [by left|].
      specialize (Hmono' i ltac:(lia)). lia.
Qed.

Lemma pow2_counts_NoDup fuel n k : 0 ≤ k → n ≤ usize_max → 64 < k + Z.of_nat fuel →
  NoDup (pow2_counts fuel n (2 ^ k)).
Proof.
  revert k. induction fuel as [|fuel IH]; intros k Hk Hn Hf; cbn [pow2_counts]; [constructor|].
  zcase; [|constructor]. unfold checked_mul.
  replace (2 ^ k * 2) with (2 ^ (k + 1)) by (rewrite Z.pow_add_r by lia; lia).
  zcase; [|apply NoDup_singleton]. constructor; [|apply IH; lia].
  rewrite pow2_counts_elem by lia. intros (i & Hi & E & _). apply Z.pow_inj_r in E; lia.
Qed.

#[export] Instance scenario_le_total : Total scenario_le.
Proof. intros a b. unfold scenario_le. lia. Qed.

#[export] Instance scenario_le_trans : Transitive scenario_le.
Proof. intros a b c. unfold scenario_le. lia. Qed.

(** The pairs of counts whose sum fits. *)
Definition fitting (n p c : Z) : list ScenarioConfig :=
  match checked_add p c with
  | Some total => if total <=? n then [ScenarioConfig_new p c] else []
  | None => []
  end.

Lemma fitting_elem n p c s : n ≤ usize_max → s ∈ fitting n p c ↔ s = ScenarioConfig_new p c ∧ p + c ≤ n.
Proof.
  intros Hn. unfold fitting, checked_add.
  repeat (zcase; cbn match); rewrite ?list_elem_of_singleton, ?elem_of_nil; naive_solver lia.
Qed.

Lemma NoDup_bind {A B} (f : A → list B) l : NoDup l → (∀ x, NoDup (f x)) →
  (∀ x y b, b ∈ f x → b ∈ f y → x = y) → NoDup (l ≫= f).
Proof.
  intros Hl Hf Hd. induction Hl as [|x l Hx Hl IH]; [constructor|]. change ((x :: l) ≫= f) with (f x ++ (l ≫= f)).
  apply NoDup_app. split_and!; [done| |done]. intros b Hb (y & Hy & Hin)%list_elem_of_bind.
  by rewrite (Hd x y b) in Hx.
Qed.

Lemma NoDup_fitting n p c : NoDup (fitting n p c).
Proof. unfold fitting. repeat case_match; solve [constructor | apply NoDup_singleton]. Qed.

Definition grid (n : Z) (counts : list Z) : list ScenarioConfig := p ← counts; c ← counts; fitting n p c.

Lemma grid_elem n counts s : n ≤ usize_max →
  s ∈ grid n counts ↔ ∃ p c, p ∈ counts ∧ c ∈ counts ∧ s = ScenarioConfig_new p c ∧ p + c ≤ n.
Proof.
  intros Hn. unfold grid. rewrite list_elem_of_bind. setoid_rewrite list_elem_of_bind.
  setoid_rewrite fitting_elem; [|done]. naive_solver.
Qed.

Lemma grid_NoDup n counts : n ≤ usize_max → NoDup counts → NoDup (grid n counts).
Proof.
  intros Hn Hnd. assert (fe := λ p c s, proj1 (fitting_elem n p c s Hn)). unfold grid. apply NoDup_bind; [done| |].
  - intros p. apply NoDup_bind; [done|intros c; apply NoDup_fitting|].
    intros c c' s [-> _]%fe [[=] _]%fe; done.
  - intros p p' s (c & [-> _]%fe & _)%list_elem_of_bind (c' & [[=] _]%fe & _)%list_elem_of_bind; done.
Qed.

(** The power-of-two grid of a machine lists each pair of powers of two whose threads
    fit on it, once, in order of threads, producers and consumers; a machine of fewer
    than two threads has none. *)
Theorem pow2_scenarios_exact n : n ≤ usize_max →
  match power_of_two_scenarios n with
  | HOk l => 2 ≤ n ∧ NoDup l ∧ StronglySorted scenario_le l ∧
      ∀ s, s ∈ l ↔ ∃ i j, 0 ≤ i ∧ 0 ≤ j ∧ s = ScenarioConfig_new (2 ^ i) (2 ^ j) ∧ 2 ^ i + 2 ^ j ≤ n
  | HErr _ => n < 2
  | HPanic => False
  end.
Proof.
  intros Hn. unfold power_of_two_scenarios. zcase; [done|].
  set (l := merge_sort _ _).
  change l with (merge_sort scenario_le (grid n (pow2_counts 65 n (2 ^ 0)))). clear l.
  split_and!; [done| |apply (StronglySorted_merge_sort _)|].
  - rewrite merge_sort_Permutation. apply grid_NoDup; [done|]. by apply pow2_counts_NoDup.
  - intros s. rewrite merge_sort_Permutation, grid_elem by done. setoid_rewrite pow2_counts_elem; [|done..].
    split; [intros (p & c & (i & Hi & -> & _) & (j & Hj & -> & _) & -> & Hs); by exists i, j|].
    intros (i & j & Hi & Hj & -> & Hs). pose proof (Z.pow_pos_nonneg 2 i). pose proof (Z.pow_pos_nonneg 2 j).
    exists (2 ^ i), (2 ^ j). split_and!; [exists i; lia|exists j; lia|done|done].
Qed.

(** ** Witnesses *)

Lemma core_slots_bijective_witness :
  ∃ ps cs, (@producer_core_slot true 3 2 <$> seqZ 0 3) = HOk <$> ps ∧ (@consumer_core_slot true 3 2 <$> seqZ 0 2) = HOk <$> cs ∧
    ps ++ cs ≡ₚ seqZ 0 (3 + 2).
Proof. apply core_slots_bijective; vm_compute; discriminate. Defined.

Lemma core_ids_roundtrip_witness :
  [0; 1; 2; 3; 16]%Z ≠ [] ∧ NoDup [0; 1; 2; 3; 16] ∧ Forall is_usize [0; 1; 2; 3; 16] ∧
    parse_core_ids (join [","%char] (show <$> [0; 1; 2; 3; 16])) = HOk [0; 1; 2; 3; 16].
Proof. apply (core_ids_roundtrip (lit " 0-3, 16,")). vm_compute. reflexivity. Defined.

Lemma pow2_scenarios_exact_witness :
  match power_of_two_scenarios 12 with
  | HOk l => 2 ≤ 12 ∧ NoDup l ∧ StronglySorted scenario_le l ∧
      ∀ s, s ∈ l ↔ ∃ i j, 0 ≤ i ∧ 0 ≤ j ∧ s = ScenarioConfig_new (2 ^ i) (2 ^ j) ∧ 2 ^ i + 2 ^ j ≤ 12
  | HErr _ => 12 < 2
  | HPanic => False
  end.
Proof. apply (pow2_scenarios_exact 12). vm_compute. discriminate. Defined.
