(* ===== verification/HarnessPlan.v ===== *)
(** * The benchmark harness: job matrices (src/src/bench_harness/mod.rs)

    A plan lists bundles of a scenario, a repeat, modes and item counts.  The jobs of a
    plan are computed from it when it is run; the keys of the samples that an output
    file must hold are computed from it by the output writer, with code of its own. *)

From Stdlib Require Import Ascii String.
From stdpp Require Import strings.
From S2P Require Import Prelude Prog Text Harness.

(** ** Jobs *)

Inductive LubqBackoff := LCrossbeam | LYield.

#[export] Instance LubqBackoff_eq_dec : EqDecision LubqBackoff.
Proof. solve_decision. Defined.

Definition queue_implementation_name (b : LubqBackoff) : text :=
  lit match b with LCrossbeam => "lubq" | LYield => "lubq-yield" end.

Record JobSpec := mkJob {
  js_scenario : ScenarioConfig;
  js_repeat_index : Z;
  js_mode : Mode;
  js_items_per_producer : Z;
  js_queue : QueueKind;
  js_ubq_label : option text;
  js_batch_size : option Z;
  js_fastfifo_block_size : option Z;
  js_fastfifo_capacity : option Z;
  js_lfqueue_segment_size : option Z;
  js_wcq_capacity : option Z;
  js_lubq_backoff : option LubqBackoff
}.

#[export] Instance JobSpec_eq_dec : EqDecision JobSpec.
Proof. solve_decision. Defined.

Definition fastfifo_queue_label (block_size capacity : Z) : text :=
  lit "fastfifo_b" ++ show block_size ++ lit "_c" ++ show capacity.

Definition lfqueue_queue_label (segment_size : Z) : text := lit "lfqueue_" ++ show segment_size.

Definition wcq_queue_label (capacity : Z) : text := lit "wcq_" ++ show capacity.

Definition job_queue_label (j : JobSpec) : text :=
  match js_queue j, js_ubq_label j, js_fastfifo_block_size j, js_fastfifo_capacity j, js_lfqueue_segment_size j,
        js_wcq_capacity j, js_lubq_backoff j with
  | KUbq, Some label, _, _, _, _, _ => lit "ubq_" ++ label
  | KFastFifo, _, Some block_size, Some capacity, _, _, _ => fastfifo_queue_label block_size capacity
  | KLfQueue, _, _, _, Some segment_size, _, _ => lfqueue_queue_label segment_size
  | KWcq, _, _, _, _, Some capacity, _ => wcq_queue_label capacity
  | KLubq, _, _, _, _, _, Some backoff => queue_implementation_name backoff
  | _, _, _, _, _, _, _ => QueueKind_name (js_queue j)
  end.

Definition thread_budget (j : JobSpec) : hres Z :=
  threads ← total_threads (js_scenario j); hexpect (checked_add threads (extra_threads (js_mode j))).

Record SampleKey := mkKey {
  key_scenario : text;
  key_repeat_index : Z;
  key_mode : Mode;
  key_items_per_producer : Z;
  key_queue_label : text;
  key_batch_size : option Z
}.

Definition SampleKey_from_job (j : JobSpec) : SampleKey :=
  mkKey (sc_name (js_scenario j)) (js_repeat_index j) (js_mode j) (js_items_per_producer j) (job_queue_label j)
    (js_batch_size j).

(** ** Keys in maps *)

#[export] Instance SampleKey_eq_dec : EqDecision SampleKey.
Proof. solve_decision. Defined.

(** The position of the variant in the declaration. *)
Definition Mode_index (m : Mode) : Z :=
  match m with
  | Throughput => 0 | ComplexThroughput => 1 | DataLatency => 2 | Fairness => 3
  | AppLogFanIn => 4 | AppPipeline => 5 | AppTaskRoundtrip => 6 | AppLogMpscFile => 7
  end.

Definition Mode_of_index (i : Z) : option Mode :=
  [Throughput; ComplexThroughput; DataLatency; Fairness; AppLogFanIn; AppPipeline; AppTaskRoundtrip; AppLogMpscFile]
    !! Z.to_nat i.

#[export] Instance Mode_countable : Countable Mode.
Proof. apply (inj_countable Mode_index Mode_of_index). by intros []. Defined.

#[export] Instance SampleKey_countable : Countable SampleKey.
Proof.
  apply (inj_countable'
    (λ k, (key_scenario k, key_repeat_index k, key_mode k, key_items_per_producer k, key_queue_label k, key_batch_size k))
    (λ '(a, b, c, d, e, f), mkKey a b c d e f)). by intros [].
Defined.

(** ** Plans *)

Record PlanBundle := mkBundle {
  pb_scenario : ScenarioConfig;
  pb_repeat_index : Z;
  pb_ubq_label : option text;
  pb_modes : list Mode;
  pb_items : list Z
}.

Inductive ItemPolicy := Explicit | ScenarioScaledV1.
Inductive UbqGrid := GridPage | GridSparse | GridDense.
Inductive CorePlacement := Interleaved.
Record ThroughputPolicy := mkPolicy { warmup_ms : Z; phase_ms : Z; pilot_ms : Z; max_round_items : Z }.

Record MatrixPlan := mkPlan {
  plan_schema_version : Z;
  core_placement : CorePlacement;
  item_policy : ItemPolicy;
  machine_label : text;
  runs_dir : text;
  available_parallelism : Z;
  core_ids : list Z;
  allow_unpinned : bool;
  schedule_seed : Z;
  throughput_policy : ThroughputPolicy;
  job_timeout_secs : option Z;
  baseline_queues : list QueueKind;
  fastfifo_block_sizes : list Z;
  fastfifo_capacities : list Z;
  lfqueue_segment_sizes : list Z;
  wcq_capacities : list Z;
  lubq_backoffs : list LubqBackoff;
  ubq_grid : option UbqGrid;
  ubq_batch_sizes : list Z;
  planned_repeats : Z;
  bundles : list PlanBundle;
  reuse_existing : bool
}.

(** The wCQ dependency is excluded from comparative jobs. *)
Definition wcq_mode_supported (mode : Mode) (capacity : Z) (scenario : ScenarioConfig) (items_per_producer : Z) : bool := false.

(** ** The jobs of a plan *)

Section required.
Context (plan : MatrixPlan).

(** [..spec.clone()] with another batch size *)
Definition with_batch (batch_size : Z) (s : JobSpec) : JobSpec :=
  mkJob (js_scenario s) (js_repeat_index s) (js_mode s) (js_items_per_producer s) (js_queue s) (js_ubq_label s)
    (Some batch_size) (js_fastfifo_block_size s) (js_fastfifo_capacity s) (js_lfqueue_segment_size s)
    (js_wcq_capacity s) (js_lubq_backoff s).

(** The arms of the match on a baseline queue. *)
Definition baseline_specs (bundle : PlanBundle) (mode : Mode) (items_per_producer : Z) (baseline_queue : QueueKind) :
  list JobSpec :=
  match baseline_queue with
  | KSegQueue =>
      let spec := mkJob (pb_scenario bundle) (pb_repeat_index bundle) mode items_per_producer baseline_queue
                    None None None None None None None in
      spec :: (if bool_decide (mode = Throughput) then (λ b, with_batch b spec) <$> ubq_batch_sizes plan else [])
  | KLubq =>
      b ← lubq_backoffs plan;
      let spec := mkJob (pb_scenario bundle) (pb_repeat_index bundle) mode items_per_producer baseline_queue
                    None None None None None None (Some b) in
      spec :: (if bool_decide (mode = Throughput) then (λ b, with_batch b spec) <$> ubq_batch_sizes plan else [])
  | KMutexVecDeque =>
      let spec := mkJob (pb_scenario bundle) (pb_repeat_index bundle) mode items_per_producer baseline_queue
                    None None None None None None None in
      spec :: (if bool_decide (mode = Throughput) then (λ b, with_batch b spec) <$> ubq_batch_sizes plan else [])
  | KFastFifo =>
      block_size ← fastfifo_block_sizes plan;
      capacity ← fastfifo_capacities plan;
      [mkJob (pb_scenario bundle) (pb_repeat_index bundle) mode items_per_producer baseline_queue
         None None (Some block_size) (Some capacity) None None None]
  | KLfQueue =>
      segment_size ← lfqueue_segment_sizes plan;
      [mkJob (pb_scenario bundle) (pb_repeat_index bundle) mode items_per_producer baseline_queue
         None None None None (Some segment_size) None None]
  | KWcq =>
      capacity ← wcq_capacities plan;
      if wcq_mode_supported mode capacity (pb_scenario bundle) items_per_producer then
        [mkJob (pb_scenario bundle) (pb_repeat_index bundle) mode items_per_producer baseline_queue
           None None None None None (Some capacity) None]
      else []
  | KMoodycamel =>
      let spec := mkJob (pb_scenario bundle) (pb_repeat_index bundle) mode items_per_producer baseline_queue
                    None None None None None None None in
      spec :: (if bool_decide (mode = Throughput) then (λ b, with_batch b spec) <$> ubq_batch_sizes plan else [])
  | _ =>
      [mkJob (pb_scenario bundle) (pb_repeat_index bundle) mode items_per_producer baseline_queue
         None None None None None None None]
  end.

Definition ubq_specs (bundle : PlanBundle) (mode : Mode) (items_per_producer : Z) (label : text) : list JobSpec :=
  mkJob (pb_scenario bundle) (pb_repeat_index bundle) mode items_per_producer KUbq (Some label)
    None None None None None None ::
  (if bool_decide (mode = Throughput) then
     (λ batch_size, mkJob (pb_scenario bundle) (pb_repeat_index bundle) mode items_per_producer KUbq (Some label)
                      (Some batch_size) None None None None None) <$> ubq_batch_sizes plan
   else []).

(** The set, as a list without repetition. *)
Definition required_job_specs : list JobSpec :=
  remove_dups (
    bundle ← bundles plan;
    mode ← pb_modes bundle;
    let item_values := if bool_decide (mode = Throughput) then take 1 (pb_items bundle) else pb_items bundle in
    items_per_producer ← item_values;
    (match pb_ubq_label bundle with
     | None => baseline_queue ← baseline_queues plan; baseline_specs bundle mode items_per_producer baseline_queue
     | Some _ => []
     end) ++
    (match pb_ubq_label bundle with
     | Some label => ubq_specs bundle mode items_per_producer label
     | None => []
     end)).

End required.

(** ** Orders *)

(** [Ordering::then] *)
Definition then_cmp (a b : comparison) : comparison := match a with Eq => b | _ => a end.

(** Strings by bytes, [None] before [Some]. *)
Fixpoint text_cmp (a b : text) : comparison :=
  match a, b with
  | [], [] => Eq
  | [], _ :: _ => Lt
  | _ :: _, [] => Gt
  | x :: a, y :: b => then_cmp (code x ?= code y) (text_cmp a b)
  end.

Definition option_cmp (a b : option Z) : comparison :=
  match a, b with
  | None, None => Eq
  | None, Some _ => Lt
  | Some _, None => Gt
  | Some x, Some y => x ?= y
  end.

(** The derived order of [SampleKey]. *)
Definition SampleKey_cmp (a b : SampleKey) : comparison :=
  then_cmp (text_cmp (key_scenario a) (key_scenario b)) (
  then_cmp (key_repeat_index a ?= key_repeat_index b) (
  then_cmp (Mode_index (key_mode a) ?= Mode_index (key_mode b)) (
  then_cmp (key_items_per_producer a ?= key_items_per_producer b) (
  then_cmp (text_cmp (key_queue_label a) (key_queue_label b))
    (option_cmp (key_batch_size a) (key_batch_size b)))))).

Definition has_prefix (p : string) (s : text) : bool := match strip_prefix (lit p) s with Some _ => true | None => false end.

Definition queue_order (label : text) : Z :=
  if has_prefix "ubq_" label then 0
  else if bool_decide (label = lit "segqueue") then 2
  else if bool_decide (label = lit "concurrent-queue") then 3
  else if has_prefix "fastfifo_" label then 4
  else if has_prefix "lfqueue_" label then 5
  else if has_prefix "wcq_" label then 6
  else 99.

Definition queue_variant (label : text) : Z :=
  let rest :=
    match strip_prefix (lit "fastfifo_") label with
    | Some value => Some value
    | None => match strip_prefix (lit "lfqueue_") label with
              | Some value => Some value
              | None => strip_prefix (lit "wcq_") label
              end
    end in
  default usize_max (rest ≫= parse_usize).

Definition result_key_sort (lhs rhs : SampleKey) : comparison :=
  then_cmp (text_cmp (Mode_name (key_mode lhs)) (Mode_name (key_mode rhs))) (
  then_cmp (key_items_per_producer lhs ?= key_items_per_producer rhs) (
  then_cmp (queue_order (key_queue_label lhs) ?= queue_order (key_queue_label rhs)) (
  then_cmp (queue_variant (key_queue_label lhs) ?= queue_variant (key_queue_label rhs)) (
  then_cmp (text_cmp (key_queue_label lhs) (key_queue_label rhs))
    (option_cmp (key_batch_size lhs) (key_batch_size rhs)))))).

(** A stable sort. *)
Fixpoint insert_by {A} (cmp : A → A → comparison) (x : A) (l : list A) : list A :=
  match l with
  | [] => [x]
  | y :: l' => match cmp x y with Gt => y :: insert_by cmp x l' | _ => x :: l end
  end.

Definition sort_by {A} (cmp : A → A → comparison) (l : list A) : list A := foldr (insert_by cmp) [] l.

(** ** The samples of an output file *)

Section expected.
Context (plan : MatrixPlan).

(** The keys pushed in the arms of the match on a baseline queue. *)
Definition baseline_keys (bundle : PlanBundle) (mode : Mode) (items_per_producer : Z) (baseline_queue : QueueKind) :
  list SampleKey :=
  match baseline_queue with
  | KSegQueue =>
      let spec := mkJob (pb_scenario bundle) (pb_repeat_index bundle) mode items_per_producer baseline_queue
                    None None None None None None None in
      SampleKey_from_job spec ::
      (if bool_decide (mode = Throughput)
       then (λ b, SampleKey_from_job (with_batch b spec)) <$> ubq_batch_sizes plan else [])
  | KLubq =>
      backoff ← lubq_backoffs plan;
      let spec := mkJob (pb_scenario bundle) (pb_repeat_index bundle) mode items_per_producer baseline_queue
                    None None None None None None (Some backoff) in
      SampleKey_from_job spec ::
      (if bool_decide (mode = Throughput)
       then (λ b, SampleKey_from_job (with_batch b spec)) <$> ubq_batch_sizes plan else [])
  | KMutexVecDeque =>
      let spec := mkJob (pb_scenario bundle) (pb_repeat_index bundle) mode items_per_producer baseline_queue
                    None None None None None None None in
      SampleKey_from_job spec ::
      (if bool_decide (mode = Throughput)
       then (λ b, SampleKey_from_job (with_batch b spec)) <$> ubq_batch_sizes plan else [])
  | KFastFifo =>
      block_size ← fastfifo_block_sizes plan;
      capacity ← fastfifo_capacities plan;
      let spec := mkJob (pb_scenario bundle) (pb_repeat_index bundle) mode items_per_producer baseline_queue
                    None None (Some block_size) (Some capacity) None None None in
      [SampleKey_from_job spec]
  | KLfQueue =>
      segment_size ← lfqueue_segment_sizes plan;
      let spec := mkJob (pb_scenario bundle) (pb_repeat_index bundle) mode items_per_producer baseline_queue
                    None None None None (Some segment_size) None None in
      [SampleKey_from_job spec]
  | KWcq =>
      capacity ← wcq_capacities plan;
      if wcq_mode_supported mode capacity (pb_scenario bundle) items_per_producer then
        let spec := mkJob (pb_scenario bundle) (pb_repeat_index bundle) mode items_per_producer baseline_queue
                      None None None None None (Some capacity) None in
        [SampleKey_from_job spec]
      else []
  | KMoodycamel =>
      let spec := mkJob (pb_scenario bundle) (pb_repeat_index bundle) mode items_per_producer baseline_queue
                    None None None None None None None in
      SampleKey_from_job spec ::
      (if bool_decide (mode = Throughput)
       then (λ b, SampleKey_from_job (with_batch b spec)) <$> ubq_batch_sizes plan else [])
  | _ =>
      let spec := mkJob (pb_scenario bundle) (pb_repeat_index bundle) mode items_per_producer baseline_queue
                    None None None None None None None in
      [SampleKey_from_job spec]
  end.

Definition ubq_keys (bundle : PlanBundle) (mode : Mode) (items_per_producer : Z) (label : text) : list SampleKey :=
  SampleKey_from_job (mkJob (pb_scenario bundle) (pb_repeat_index bundle) mode items_per_producer KUbq (Some label)
    None None None None None None) ::
  (if bool_decide (mode = Throughput) then
     (λ batch_size, SampleKey_from_job
        (mkJob (pb_scenario bundle) (pb_repeat_index bundle) mode items_per_producer KUbq (Some label)
           (Some batch_size) None None None None None)) <$> ubq_batch_sizes plan
   else []).

Definition bundle_keys (bundle : PlanBundle) : list SampleKey :=
  mode ← pb_modes bundle;
  let item_values := if bool_decide (mode = Throughput) then take 1 (pb_items bundle) else pb_items bundle in
  items_per_producer ← item_values;
  let baseline_queues := match pb_ubq_label bundle with Some _ => [] | None => baseline_queues plan end in
  (baseline_queue ← baseline_queues; baseline_keys bundle mode items_per_producer baseline_queue) ++
  (match pb_ubq_label bundle with Some label => ubq_keys bundle mode items_per_producer label | None => [] end).

Definition expected_keys_for_bundle (bundle : PlanBundle) : list SampleKey := sort_by result_key_sort (bundle_keys bundle).

(** [BTreeSet]: without repetition, in the derived order. *)
Definition expected_keys_for_scenario (scenario_name : text) : list SampleKey :=
  let keys := bundle ← filter (λ bundle, sc_name (pb_scenario bundle) = scenario_name) (bundles plan);
              expected_keys_for_bundle bundle in
  sort_by result_key_sort (sort_by SampleKey_cmp (remove_dups keys)).

End expected.

(** ** Building a plan *)

Definition PLAN_SCHEMA_VERSION : Z := 6.
Definition DEFAULT_ITEMS_PER_PRODUCER : Z := 1000000.
Definition DEFAULT_SCHEDULE_SEED : Z := 1430409478.
Definition WCQ_MAX_THREADS : Z := 256.
Definition ThroughputPolicy_default : ThroughputPolicy := mkPolicy 250 1000 100 8388608.
Definition default_fastfifo_capacities : list Z := [1048576].
Definition normalize_machine (name : text) : text := to_ascii_lowercase (str_trim name).

(** [for x in l { f(x)? }] *)
Fixpoint check_each {A} (f : A → hres unit) (l : list A) : hres unit :=
  match l with
  | [] => HOk tt
  | x :: l => _ ← f x; check_each f l
  end.

Definition check (ok : bool) (e : text) : hres unit := if ok then HOk tt else HErr e.

(** [if seen.insert(x) { out.push(x) }] *)
Definition distinct {A} `{EqDecision A} (l : list A) : list A :=
  foldl (λ out x, if bool_decide (x ∈ out) then out else out ++ [x]) [] l.

Definition UbqLabel_cmp (a b : UbqLabel) : comparison :=
  then_cmp (text_cmp (preset a) (preset b)) (text_cmp (backoff a) (backoff b)).

(** Parses all labels; the set in the derived order. *)
Fixpoint parse_labels (labels : list text) : hres (list UbqLabel) :=
  match labels with
  | [] => HOk []
  | label :: labels => l ← parse_ubq_label label true; ls ← parse_labels labels; HOk (l :: ls)
  end.

Definition check_wcq_capacity (capacity : Z) : hres unit :=
  _ ← check (negb (capacity =? 0)) (lit "wCQ capacities must be > 0");
  _ ← check (is_power_of_two capacity) (lit "wCQ capacity '" ++ show capacity ++ lit "' must be a power of two");
  check (bool_decide (capacity ∈ SUPPORTED_WCQ_CAPACITIES))
    (lit "unsupported wCQ capacity '" ++ show capacity ++ lit "'; supported capacities are " ++
     join (lit ",") (show <$> SUPPORTED_WCQ_CAPACITIES)).

Definition check_scenario (available_parallelism : Z) (include_wcq : bool) (modes : list Mode) (scenario : ScenarioConfig) :
  hres unit :=
  threads ← total_threads scenario;
  _ ← check (threads <=? available_parallelism)
        (lit "scenario " ++ sc_name scenario ++ lit " requires " ++ show threads ++
         lit " threads but available_parallelism is " ++ show available_parallelism);
  _ ← check (negb (include_wcq && (WCQ_MAX_THREADS <? saturating_add threads 1)))
        (lit "scenario " ++ sc_name scenario ++ lit " requires " ++ show (threads + 1) ++
         lit " wCQ thread handles including sentinel sender but this harness supports " ++ show WCQ_MAX_THREADS);
  check_each (λ mode,
    _ ← validate_mode_for_scenario mode scenario;
    required_threads ← ok_or_else (checked_add threads (extra_threads mode)) (lit "scenario thread count overflow");
    check (required_threads <=? available_parallelism)
      (lit "scenario " ++ sc_name scenario ++ lit " mode " ++ Mode_name mode ++ lit " requires " ++
       show required_threads ++ lit " threads but available_parallelism is " ++ show available_parallelism)) modes.

Section build.
Context (machine_label runs_dir : text) (available_parallelism : Z) (selected_queues : list QueueKind).
Context (fastfifo_block_sizes lfqueue_segment_sizes wcq_capacities : list Z).
Context (scenarios : list ScenarioConfig) (modes : list Mode) (repeats : Z) (reuse_existing : bool).

Definition includes (q : QueueKind) : bool := bool_decide (q ∈ selected_queues).

(** The bundles, for each scenario and each repeat. *)
Definition plan_bundles (labels : list UbqLabel) (items : list Z) : list PlanBundle :=
  scenario ← scenarios;
  repeat_index ← seqZ 1 repeats;
  (if includes KUbq then
     (λ l, mkBundle scenario repeat_index (Some (UbqLabel_text l)) modes items) <$>
       filter (λ l, is_valid_ubq_label l = true) labels
   else []) ++
  (if bool_decide (filter (λ q, is_baseline q = true) selected_queues = []) then []
   else [mkBundle scenario repeat_index None modes items]).

Definition build_direct_matrix_plan (ubq_labels : list text) (items : list Z) : hres MatrixPlan :=
  _ ← check (negb (bool_decide (str_trim machine_label = []))) (lit "machine_label is required");
  _ ← check (negb (available_parallelism =? 0)) (lit "available_parallelism must be > 0");
  let baseline_queues := filter (λ q, is_baseline q = true) selected_queues in
  _ ← check (negb (includes KUbq && bool_decide (ubq_labels = [])))
        (lit "at least one --ubq-label is required when queue set includes ubq");
  _ ← check (negb (includes KFastFifo && bool_decide (fastfifo_block_sizes = [])))
        (lit "at least one --fastfifo-block-sizes/--rbbq-block-sizes value is required when queue set includes rbbq");
  _ ← check (negb (includes KLfQueue && bool_decide (lfqueue_segment_sizes = [])))
        (lit "at least one --lfqueue-segment-sizes value is required when queue set includes lfqueue");
  _ ← check (negb (includes KWcq && bool_decide (wcq_capacities = [])))
        (lit "at least one --wcq-capacities value is required when queue set includes wcq");
  _ ← check_each (λ b, check (negb (b =? 0)) (lit "RBBQ block sizes must be > 0")) fastfifo_block_sizes;
  _ ← check_each (λ b, check (negb (b =? 0)) (lit "lfqueue segment sizes must be > 0")) lfqueue_segment_sizes;
  _ ← check_each check_wcq_capacity wcq_capacities;
  parsed ← (if includes KUbq then parse_labels ubq_labels else HOk []);
  let parsed_ubq_labels := sort_by UbqLabel_cmp (remove_dups parsed) in
  _ ← check_each (check_scenario available_parallelism (includes KWcq) modes) scenarios;
  _ ← check (negb (repeats =? 0)) (lit "repeats must be > 0");
  HOk (mkPlan PLAN_SCHEMA_VERSION Interleaved Explicit (normalize_machine machine_label) runs_dir available_parallelism
         [] false DEFAULT_SCHEDULE_SEED ThroughputPolicy_default None baseline_queues
         (if includes KFastFifo then distinct fastfifo_block_sizes else []) default_fastfifo_capacities
         (if includes KLfQueue then distinct lfqueue_segment_sizes else [])
         (if includes KWcq then distinct wcq_capacities else [])
         [LCrossbeam; LYield] None [] repeats (plan_bundles parsed_ubq_labels items) reuse_existing).

Definition set_batch_sizes (sizes : list Z) (p : MatrixPlan) : MatrixPlan :=
  mkPlan (plan_schema_version p) (core_placement p) (item_policy p) (HarnessPlan.machine_label p) (HarnessPlan.runs_dir p)
    (HarnessPlan.available_parallelism p) (core_ids p) (allow_unpinned p) (schedule_seed p) (throughput_policy p)
    (job_timeout_secs p) (baseline_queues p) (HarnessPlan.fastfifo_block_sizes p) (fastfifo_capacities p)
    (HarnessPlan.lfqueue_segment_sizes p) (HarnessPlan.wcq_capacities p) (lubq_backoffs p) (ubq_grid p) sizes
    (planned_repeats p) (bundles p) (HarnessPlan.reuse_existing p).

Definition build_direct_matrix_plan_with_batch_sizes (ubq_labels : list text) (batch_sizes : list Z) (items : list Z) :
  hres MatrixPlan :=
  normalized_batch_sizes ← normalize_ubq_batch_sizes batch_sizes;
  plan ← build_direct_matrix_plan ubq_labels items;
  HOk (set_batch_sizes normalized_batch_sizes plan).

(** [UbqGrid::labels]: the same labels for every grid. *)
Definition grid_labels (grid : UbqGrid) : list text := (λ b, lit "balanced,1,page," ++ b) <$> UBQ_BACKOFF_VALUES.

(** Bundles with the item count scaled to their scenario. *)
Fixpoint scale_bundles (bs : list PlanBundle) : hres (list PlanBundle) :=
  match bs with
  | [] => HOk []
  | b :: bs =>
      n ← scenario_scaled_items_per_producer (producers (pb_scenario b));
      rest ← scale_bundles bs;
      HOk (mkBundle (pb_scenario b) (pb_repeat_index b) (pb_ubq_label b) (pb_modes b) [n] :: rest)
  end.

Definition build_grid_matrix_plan_impl (grid : UbqGrid) (extra_ubq_labels : list text) (batch_sizes : list Z)
  (explicit_items : option (list Z)) : hres MatrixPlan :=
  normalized_batch_sizes ← normalize_ubq_batch_sizes batch_sizes;
  _ ← check (negb (bool_decide (explicit_items = Some [])))
        (lit "at least one explicit items-per-producer value is required");
  let direct_items := default [DEFAULT_ITEMS_PER_PRODUCER] explicit_items in
  let labels := grid_labels grid ++ extra_ubq_labels in
  p ← build_direct_matrix_plan labels direct_items;
  bs ← (match explicit_items with None => scale_bundles (bundles p) | Some _ => HOk (bundles p) end);
  HOk (mkPlan (plan_schema_version p) (core_placement p)
         (match explicit_items with Some _ => Explicit | None => ScenarioScaledV1 end)
         (HarnessPlan.machine_label p) (HarnessPlan.runs_dir p) (HarnessPlan.available_parallelism p) (core_ids p)
         (allow_unpinned p) (schedule_seed p) (throughput_policy p) (job_timeout_secs p) (baseline_queues p)
         (HarnessPlan.fastfifo_block_sizes p) (fastfifo_capacities p) (HarnessPlan.lfqueue_segment_sizes p)
         (HarnessPlan.wcq_capacities p) (lubq_backoffs p) (if includes KUbq then Some grid else None)
         normalized_batch_sizes repeats bs (HarnessPlan.reuse_existing p)).

End build.
