(* ===== verification/HarnessOutput.v ===== *)
(** * The benchmark harness: running a plan and writing its outputs (src/src/bench_harness/mod.rs)

    The output writer keeps one file per scenario.  Each finished job is stored and the
    file of its scenario is rewritten; samples of an earlier run that can be reused are
    loaded first, and their jobs are not run again.  The contents of a record and the
    files are parameters. *)

From Stdlib Require Import Ascii String.
From stdpp Require Import strings.
From S2P Require Import Prelude Prog Text Harness HarnessPlan.

(** Files of records: writing one replaces it or fails, and leaves the others alone. *)
Class OutputDisk (F R : Type) := {
  disk_write : text → list R → F → option F;
  disk_read : F → text → option (list R);
  disk_write_read : ∀ p l f f', disk_write p l f = Some f' → disk_read f' p = Some l;
  disk_write_other : ∀ p p' l f f', disk_write p l f = Some f' → p' ≠ p → disk_read f' p' = disk_read f p'
}.

Definition output_path_for_scenario (plan : MatrixPlan) (scenario_name : text) : text :=
  runs_dir plan ++ lit "/" ++ sanitize_name (machine_label plan) ++ lit "/" ++ sanitize_name scenario_name ++
  lit "/record.json".

Record ScenarioOutputState (R : Type) := mkOut {
  so_path : text;
  so_ordered_keys : list SampleKey;
  so_records : gmap SampleKey R;
  so_dirty : bool
}.
Arguments mkOut {R} _ _ _ _.
Arguments so_path {R} _.
Arguments so_ordered_keys {R} _.
Arguments so_records {R} _.
Arguments so_dirty {R} _.

Record IncrementalOutputWriter (R : Type) := mkWriter {
  ow_scenarios : list (ScenarioOutputState R);
  ow_index : gmap text nat;
  ow_write_count : Z
}.
Arguments mkWriter {R} _ _ _.
Arguments ow_scenarios {R} _.
Arguments ow_index {R} _.
Arguments ow_write_count {R} _.

(** How a key is named in errors. *)
Definition key_text (key : SampleKey) : text :=
  key_queue_label key ++ lit " scenario=" ++ key_scenario key ++ lit " repeat=" ++ show (key_repeat_index key) ++
  lit " mode=" ++ Mode_name (key_mode key) ++ lit " items=" ++ show (key_items_per_producer key).

(** ** Which jobs can be run *)

(** What was compiled in: optional queues, and the UBQ labels of the generated registry. *)
Class BenchFeatures := {
  bench_moodycamel : bool;
  bench_fastfifo : bool;
  bench_lfqueue : bool;
  bench_wcq : bool;
  registered_ubq : text → bool
}.

(** [assert!] *)
Definition hassert (ok : bool) : hres unit := if ok then HOk tt else HPanic.

(** Whether a job can be made. *)
Definition job_factory_for_spec `{BenchFeatures} (spec : JobSpec) : hres unit :=
  match js_queue spec with
  | KMoodycamel => check bench_moodycamel (lit "moodycamel-cq selected but the bench_moodycamel feature is not enabled")
  | KFastFifo =>
      block_size ← ok_or_else (js_fastfifo_block_size spec) (lit "RBBQ job spec is missing block size");
      capacity ← ok_or_else (js_fastfifo_capacity spec) (lit "FastFifo job spec is missing capacity");
      _ ← check bench_fastfifo (lit "RBBQ selected but the bench_fastfifo/bench_rbbq feature is not enabled");
      hassert (0 <? block_size)
  | KLfQueue =>
      segment_size ← ok_or_else (js_lfqueue_segment_size spec) (lit "lfqueue job spec is missing segment size");
      _ ← check bench_lfqueue (lit "lfqueue selected but the bench_lfqueue feature is not enabled");
      hassert (0 <? segment_size)
  | KWcq =>
      capacity ← ok_or_else (js_wcq_capacity spec) (lit "wCQ job spec is missing capacity");
      _ ← check bench_wcq (lit "wCQ selected but the bench_wcq feature is not enabled");
      check (bool_decide (capacity ∈ SUPPORTED_WCQ_CAPACITIES)) (lit "unsupported wCQ capacity " ++ show capacity)
  | KUbq =>
      label ← ok_or_else (js_ubq_label spec) (lit "UBQ job spec is missing its label");
      check (registered_ubq label) (lit "no compiled UBQ configuration for label '" ++ label ++ lit "'")
  | _ => HOk tt
  end.

(** ** The order of jobs *)

(** [debug] renders a job with the derived [Debug]. *)
Definition seeded_job_order_key (debug : JobSpec → text) (spec : JobSpec) (seed : Z) : Z * text * text * Z * Z :=
  let rotation_seed := wrapping (seed + js_repeat_index spec) in
  let queue_order := stable_hash64 rotation_seed (job_queue_label spec) in
  (js_repeat_index spec, sc_name (js_scenario spec), Mode_name (js_mode spec), queue_order,
   stable_hash64 rotation_seed (debug spec)).

Definition order_cmp (debug : JobSpec → text) (seed : Z) (a b : JobSpec) : comparison :=
  let '(r, s, m, q, d) := seeded_job_order_key debug a seed in
  let '(r', s', m', q', d') := seeded_job_order_key debug b seed in
  then_cmp (r ?= r') (then_cmp (text_cmp s s') (then_cmp (text_cmp m m') (then_cmp (q ?= q') (d ?= d')))).

(** ** The CPUs of a run *)

(** [discovered] are the CPUs the process may use, in order. *)
Definition selected_plan_core_ids (plan : MatrixPlan) (discovered : list Z) : hres (list Z) :=
  let selected := match core_ids plan with
                  | [] => take (Z.to_nat (available_parallelism plan)) discovered
                  | ids => ids
                  end in
  _ ← check (negb (bool_decide (selected = []) && negb (allow_unpinned plan)))
        (lit "no CPUs were discovered; use --allow-unpinned only for non-authoritative diagnostics");
  _ ← (if negb (allow_unpinned plan)
       then check_each (λ id, check (bool_decide (id ∈ discovered))
              (lit "selected CPU " ++ show id ++ lit " is not available to this process")) selected
       else HOk tt);
  HOk selected.

Definition ThroughputPolicy_validate (p : ThroughputPolicy) : hres unit :=
  _ ← check (negb ((warmup_ms p =? 0) || (phase_ms p =? 0) || (pilot_ms p =? 0)))
        (lit "throughput timing values must be greater than zero");
  check (negb (max_round_items p =? 0)) (lit "throughput max round items must be greater than zero").

Section writer.
Context {F R : Type} `{OutputDisk F R} `{BenchFeatures} (plan : MatrixPlan).
Implicit Types (f : F) (st : ScenarioOutputState R) (w : IncrementalOutputWriter R) (cache : gmap SampleKey R).

(** ** One scenario *)

Definition ScenarioOutputState_new (scenario : ScenarioConfig) : ScenarioOutputState R :=
  mkOut (output_path_for_scenario plan (sc_name scenario)) (expected_keys_for_scenario plan (sc_name scenario)) ∅ false.

Definition store_record (key : SampleKey) (record : R) st : ScenarioOutputState R :=
  mkOut (so_path st) (so_ordered_keys st) (<[key := record]> (so_records st)) true.

Definition missing_keys st : list SampleKey := filter (λ key, so_records st !! key = None) (so_ordered_keys st).

Definition results st : list R := omap (λ key, so_records st !! key) (so_ordered_keys st).

Definition out_flush f st : hres (F * ScenarioOutputState R * bool) :=
  if negb (so_dirty st) then HOk (f, st, false) else
  f ← ok_or_else (disk_write (so_path st) (results st) f) (lit "failed to write output");
  HOk (f, mkOut (so_path st) (so_ordered_keys st) (so_records st) false, true).

(** ** All scenarios *)

Fixpoint add_outputs w (bs : list PlanBundle) : IncrementalOutputWriter R :=
  match bs with
  | [] => w
  | bundle :: bs =>
      let name := sc_name (pb_scenario bundle) in
      add_outputs
        (if bool_decide (is_Some (ow_index w !! name)) then w
         else mkWriter (ow_scenarios w ++ [ScenarioOutputState_new (pb_scenario bundle)])
                (<[name := length (ow_scenarios w)]> (ow_index w)) (ow_write_count w)) bs
  end.

(** [self.scenarios[index]], which panics out of range *)
Definition set_scenario w (i : nat) (g : ScenarioOutputState R → ScenarioOutputState R) : hres (IncrementalOutputWriter R) :=
  st ← hexpect (ow_scenarios w !! i);
  HOk (mkWriter (<[i := g st]> (ow_scenarios w)) (ow_index w) (ow_write_count w)).

Definition seed_cached_record w (key : SampleKey) (record : R) : hres (IncrementalOutputWriter R) :=
  match ow_index w !! key_scenario key with
  | None => HOk w
  | Some i => set_scenario w i (λ st, mkOut (so_path st) (so_ordered_keys st) (<[key := record]> (so_records st)) (so_dirty st))
  end.

Fixpoint seed_records w (records : list (SampleKey * R)) : hres (IncrementalOutputWriter R) :=
  match records with
  | [] => HOk w
  | (key, record) :: records => w ← seed_cached_record w key record; seed_records w records
  end.

Definition IncrementalOutputWriter_new cache : hres (IncrementalOutputWriter R) :=
  seed_records (add_outputs (mkWriter [] ∅ 0) (bundles plan)) (map_to_list cache).

Definition handle_completed_record f w (key : SampleKey) (record : R) : hres (F * IncrementalOutputWriter R) :=
  match ow_index w !! key_scenario key with
  | None => HErr (lit "missing output scenario mapping for " ++ key_text key)
  | Some i =>
      st ← hexpect (ow_scenarios w !! i);
      '(f, st, wrote) ← out_flush f (store_record key record st);
      HOk (f, mkWriter (<[i := st]> (ow_scenarios w)) (ow_index w)
                (if wrote : bool then ow_write_count w + 1 else ow_write_count w))
  end.

Fixpoint check_missing (sts : list (ScenarioOutputState R)) : hres unit :=
  match sts with
  | [] => HOk tt
  | st :: sts =>
      match missing_keys st with
      | missing :: _ => HErr (lit "missing cached record for " ++ key_text missing)
      | [] => check_missing sts
      end
  end.

Fixpoint flush_all f (sts : list (ScenarioOutputState R)) (count : Z) : hres (F * Z) :=
  match sts with
  | [] => HOk (f, count)
  | st :: sts => '(f, _, wrote) ← out_flush f st; flush_all f sts (if wrote : bool then count + 1 else count)
  end.

Definition writer_finish f w (expect_complete : bool) : hres (F * Z) :=
  _ ← (if expect_complete then check_missing (ow_scenarios w) else HOk tt);
  flush_all f (ow_scenarios w) (ow_write_count w).

(** ** A run *)

(** What the worker makes of a job: a record, also of a job that failed or ran out of
    time, or an error when the worker itself cannot be reached. *)
Context (run_job : JobSpec → hres R) (debug : JobSpec → text).

Fixpoint submit_all f w (pending : list JobSpec) : hres (F * IncrementalOutputWriter R) :=
  match pending with
  | [] => HOk (f, w)
  | spec :: pending =>
      record ← run_job spec;
      '(f, w) ← handle_completed_record f w (SampleKey_from_job spec) record;
      submit_all f w pending
  end.

Definition execute_job_specs_with_timeout f cache (pending : list JobSpec) (available_parallelism : Z) : hres F :=
  _ ← check_each (λ spec,
        budget ← thread_budget spec;
        _ ← check (budget <=? available_parallelism)
              (lit "job " ++ job_queue_label spec ++ lit " requires " ++ show budget ++
               lit " threads but available_parallelism is " ++ show available_parallelism);
        job_factory_for_spec spec) pending;
  let pending := sort_by (order_cmp debug (schedule_seed plan)) pending in
  w ← IncrementalOutputWriter_new cache;
  '(f, w) ← submit_all f w pending;
  '(f, _) ← writer_finish f w true;
  HOk f.

(** The jobs that no reusable sample covers. *)
Definition pending_jobs cache : list JobSpec :=
  filter (λ spec, cache !! SampleKey_from_job spec = None) (required_job_specs plan).

(** [existing] are the samples that [load_existing_runs] finds. *)
Definition run_matrix_plan_in_process f (discovered : list Z) (existing : hres (gmap SampleKey R)) (dry_run : bool) : hres F :=
  _ ← ThroughputPolicy_validate (throughput_policy plan);
  selected_core_ids ← selected_plan_core_ids plan discovered;
  let required_specs := required_job_specs plan in
  budgets ← mapM thread_budget required_specs;
  let required_cpu_count := foldr Z.max 0 budgets in
  _ ← check (negb ((Z.of_nat (length selected_core_ids) <? required_cpu_count) && negb (allow_unpinned plan)))
        (lit "authoritative run requires " ++ show required_cpu_count ++ lit " selected CPUs, but only " ++
         show (Z.of_nat (length selected_core_ids)) ++ lit " were selected");
  _ ← mapM (λ spec, total_items (js_items_per_producer spec) (producers (js_scenario spec))) required_specs;
  if dry_run then HOk f else
  _ ← check_each job_factory_for_spec required_specs;
  existing_runs ← existing;
  let cache := if reuse_existing plan then existing_runs else ∅ in
  execute_job_specs_with_timeout f cache (pending_jobs cache) (available_parallelism plan).

End writer.
