(* ===== verification/HarnessPlanSpec.v ===== *)
(** * The benchmark harness: the jobs and the expected samples of a plan agree *)

From Stdlib Require Import Ascii String.
From stdpp Require Import strings.
From S2P Require Import Prelude Prog Text Harness HarnessPlan HarnessSpec.

(** ** Sorting *)

Lemma insert_by_Permutation {A} (cmp : A → A → comparison) x l : insert_by cmp x l ≡ₚ x :: l.
Proof.
  induction l as [|y l IH]; [done|]. cbn [insert_by]. destruct (cmp x y); [done..|]. rewrite IH. constructor.
Qed.

Lemma sort_by_Permutation {A} (cmp : A → A → comparison) l : sort_by cmp l ≡ₚ l.
Proof. induction l as [|x l IH]; [done|]. cbn. by rewrite insert_by_Permutation, IH. Qed.

(** ** Keys and jobs *)

Lemma fmap_bind_list {A B C} (f : B → C) (g : A → list B) l : f <$> (l ≫= g) = l ≫= λ x, f <$> g x.
Proof. induction l as [|x l IH]; [done|]. cbn. by rewrite fmap_app, IH. Qed.

Lemma bind_ext_list {A B} (f g : A → list B) l : (∀ x, f x = g x) → l ≫= f = l ≫= g.
Proof. intros E. induction l as [|x l IH]; [done|]. cbn. by rewrite E, IH. Qed.

(** ** What a job runs *)

Inductive variant :=
| VPlain (q : QueueKind)
| VUbq (label : text)
| VLubq (b : LubqBackoff)
| VFast (block_size capacity : Z)
| VLf (segment_size : Z).

Definition job_of (sc : ScenarioConfig) (repeat_index : Z) (mode : Mode) (items : Z) (v : variant) (batch : option Z) : JobSpec :=
  match v with
  | VPlain q => mkJob sc repeat_index mode items q None batch None None None None None
  | VUbq label => mkJob sc repeat_index mode items KUbq (Some label) batch None None None None None
  | VLubq b => mkJob sc repeat_index mode items KLubq None batch None None None None (Some b)
  | VFast b c => mkJob sc repeat_index mode items KFastFifo None batch (Some b) (Some c) None None None
  | VLf n => mkJob sc repeat_index mode items KLfQueue None batch None None (Some n) None None
  end.

Definition variant_label (v : variant) : text :=
  match v with
  | VPlain q => QueueKind_name q
  | VUbq label => lit "ubq_" ++ label
  | VLubq b => queue_implementation_name b
  | VFast b c => fastfifo_queue_label b c
  | VLf n => lfqueue_queue_label n
  end.

(** Queues without parameters of their own. *)
Definition plain_kind (q : QueueKind) : bool :=
  match q with KLubq | KFastFifo | KLfQueue | KWcq => false | _ => true end.

(** The item counts a mode is run with. *)
Definition mode_items (mode : Mode) (items : list Z) : list Z := if bool_decide (mode = Throughput) then take 1 items else items.

Definition variant_queue (v : variant) : QueueKind :=
  match v with
  | VPlain q => q
  | VUbq _ => KUbq
  | VLubq _ => KLubq
  | VFast _ _ => KFastFifo
  | VLf _ => KLfQueue
  end.

(** Queues whose batch operations are measured too. *)
Definition batchable (v : variant) : bool :=
  match v with
  | VUbq _ | VLubq _ | VPlain KSegQueue | VPlain KMutexVecDeque | VPlain KMoodycamel => true
  | _ => false
  end.

(** Single operations, and in throughput runs each of the batch sizes. *)
Definition batch_choices (sizes : list Z) (mode : Mode) (v : variant) : list (option Z) :=
  None :: (if bool_decide (mode = Throughput) && batchable v then Some <$> sizes else []).

Section agree.
Context (plan : MatrixPlan).

Definition variant_in (v : variant) : Prop :=
  match v with
  | VPlain q => plain_kind q = true
  | VFast b c => b ∈ fastfifo_block_sizes plan ∧ c ∈ fastfifo_capacities plan
  | VLf n => n ∈ lfqueue_segment_sizes plan
  | _ => True
  end.

(** The jobs of one bundle. *)
Definition bundle_specs (bundle : PlanBundle) : list JobSpec :=
  mode ← pb_modes bundle;
  items_per_producer ← (if bool_decide (mode = Throughput) then take 1 (pb_items bundle) else pb_items bundle);
  (match pb_ubq_label bundle with
   | None => baseline_queue ← baseline_queues plan; baseline_specs plan bundle mode items_per_producer baseline_queue
   | Some _ => []
   end) ++
  (match pb_ubq_label bundle with
   | Some label => ubq_specs plan bundle mode items_per_producer label
   | None => []
   end).

Lemma required_job_specs_eq : required_job_specs plan = remove_dups (bundles plan ≫= bundle_specs).
Proof. reflexivity. Qed.

Lemma baseline_keys_eq bundle mode items q :
  baseline_keys plan bundle mode items q = SampleKey_from_job <$> baseline_specs plan bundle mode items q.
Proof.
  destruct q; cbn [baseline_keys baseline_specs]; try reflexivity.
  - rewrite fmap_bind_list. apply bind_ext_list. intros b. rewrite fmap_cons. f_equal.
    case_bool_decide; [|done]. by rewrite <- list_fmap_compose.
  - rewrite fmap_cons. f_equal. case_bool_decide; [|done]. by rewrite <- list_fmap_compose.
  - rewrite fmap_bind_list. apply bind_ext_list. intros b. rewrite fmap_bind_list. done.
  - rewrite fmap_bind_list. done.
  - rewrite fmap_bind_list. done.
  - rewrite fmap_cons. f_equal. case_bool_decide; [|done]. by rewrite <- list_fmap_compose.
  - rewrite fmap_cons. f_equal. case_bool_decide; [|done]. by rewrite <- list_fmap_compose.
Qed.

Lemma ubq_keys_eq bundle mode items label :
  ubq_keys plan bundle mode items label = SampleKey_from_job <$> ubq_specs plan bundle mode items label.
Proof.
  unfold ubq_keys, ubq_specs. rewrite fmap_cons. f_equal. case_bool_decide; [|done]. by rewrite <- list_fmap_compose.
Qed.

Lemma bundle_keys_eq bundle : bundle_keys plan bundle = SampleKey_from_job <$> bundle_specs bundle.
Proof.
  unfold bundle_keys, bundle_specs. rewrite fmap_bind_list. apply bind_ext_list. intros mode.
  rewrite fmap_bind_list. apply bind_ext_list. intros items. rewrite fmap_app. destruct (pb_ubq_label bundle).
  - cbn [mbind list_bind app]. by rewrite ubq_keys_eq.
  - rewrite !app_nil_r, fmap_bind_list. apply bind_ext_list. intros q. apply baseline_keys_eq.
Qed.

(** The same jobs, by what they run. *)
Definition variants (q : QueueKind) : list variant :=
  match q with
  | KLubq => VLubq <$> lubq_backoffs plan
  | KFastFifo => b ← fastfifo_block_sizes plan; VFast b <$> fastfifo_capacities plan
  | KLfQueue => VLf <$> lfqueue_segment_sizes plan
  | KWcq => []
  | _ => [VPlain q]
  end.

Definition bundle_variants (bundle : PlanBundle) : list variant :=
  match pb_ubq_label bundle with Some label => [VUbq label] | None => baseline_queues plan ≫= variants end.

Definition variant_jobs (bundle : PlanBundle) (mode : Mode) (items : Z) (v : variant) : list JobSpec :=
  job_of (pb_scenario bundle) (pb_repeat_index bundle) mode items v <$> batch_choices (ubq_batch_sizes plan) mode v.

Lemma variant_jobs_batched bundle mode items v : batchable v = true →
  let spec := job_of (pb_scenario bundle) (pb_repeat_index bundle) mode items v None in
  variant_jobs bundle mode items v =
    spec :: (if bool_decide (mode = Throughput) then (λ b, with_batch b spec) <$> ubq_batch_sizes plan else []).
Proof.
  intros Hv spec. unfold variant_jobs, batch_choices. rewrite Hv, andb_true_r, fmap_cons. f_equal.
  case_bool_decide; [|done]. rewrite <- list_fmap_compose. apply list_fmap_ext. intros i b _. by destruct v.
Qed.

Lemma variant_jobs_single bundle mode items v : batchable v = false →
  variant_jobs bundle mode items v = [job_of (pb_scenario bundle) (pb_repeat_index bundle) mode items v None].
Proof. intros Hv. unfold variant_jobs, batch_choices. by rewrite Hv, andb_false_r. Qed.

Lemma bind_fmap_list {A B C} (f : A → B) (g : B → list C) l : (f <$> l) ≫= g = l ≫= λ x, g (f x).
Proof. induction l as [|x l IH]; [done|]. cbn. by f_equal. Qed.

Lemma bind_bind_list {A B C} (f : A → list B) (g : B → list C) l : (l ≫= f) ≫= g = l ≫= λ x, f x ≫= g.
Proof. induction l as [|x l IH]; [done|]. cbn. by rewrite bind_app, IH. Qed.

Lemma baseline_specs_eq bundle mode items q :
  baseline_specs plan bundle mode items q = variants q ≫= variant_jobs bundle mode items.
Proof.
  destruct q; cbn [baseline_specs variants];
    try (cbn [mbind list_bind]; rewrite app_nil_r;
         first [by rewrite variant_jobs_batched|by rewrite variant_jobs_single]).
  - rewrite bind_fmap_list. apply bind_ext_list. intros b. by rewrite variant_jobs_batched.
  - rewrite bind_bind_list. apply bind_ext_list. intros b. rewrite bind_fmap_list. apply bind_ext_list. intros c.
    by rewrite variant_jobs_single.
  - rewrite bind_fmap_list. apply bind_ext_list. intros n. by rewrite variant_jobs_single.
  - induction (wcq_capacities plan) as [|c l IH]; [done|]. exact IH.
Qed.

Lemma bundle_specs_elem bundle j : j ∈ bundle_specs bundle ↔
  ∃ mode items v batch, mode ∈ pb_modes bundle ∧ items ∈ mode_items mode (pb_items bundle) ∧ v ∈ bundle_variants bundle ∧
    batch ∈ batch_choices (ubq_batch_sizes plan) mode v ∧ j = job_of (pb_scenario bundle) (pb_repeat_index bundle) mode items v batch.
Proof.
  assert (bundle_specs bundle = (mode ← pb_modes bundle; items ← mode_items mode (pb_items bundle);
    v ← bundle_variants bundle; variant_jobs bundle mode items v)) as ->.
  { unfold bundle_specs, bundle_variants. apply bind_ext_list. intros mode. apply bind_ext_list. intros items.
    destruct (pb_ubq_label bundle) as [label|]; [cbn [mbind list_bind app]; by rewrite app_nil_r, variant_jobs_batched|].
    rewrite app_nil_r, bind_bind_list. apply bind_ext_list. intros q. apply baseline_specs_eq. }
  repeat setoid_rewrite list_elem_of_bind. unfold variant_jobs. setoid_rewrite list_elem_of_fmap. naive_solver.
Qed.

Lemma variants_elem q v : v ∈ variants q ↔ variant_queue v = q ∧
  match v with
  | VPlain q => plain_kind q = true
  | VUbq _ => False
  | VLubq b => b ∈ lubq_backoffs plan
  | VFast b c => b ∈ fastfifo_block_sizes plan ∧ c ∈ fastfifo_capacities plan
  | VLf n => n ∈ lfqueue_segment_sizes plan
  end.
Proof.
  destruct q; cbn [variants]; rewrite ?list_elem_of_bind; repeat setoid_rewrite list_elem_of_fmap;
    rewrite ?list_elem_of_singleton, ?elem_of_nil; destruct v as [[]|l|y|b c|n]; cbn [variant_queue plain_kind]; naive_solver.
Qed.

Lemma bundle_specs_job bundle j : j ∈ bundle_specs bundle →
  ∃ mode items v batch, variant_in v ∧ j = job_of (pb_scenario bundle) (pb_repeat_index bundle) mode items v batch.
Proof.
  intros (mode & items & v & batch & _ & _ & Hv & _ & ->)%bundle_specs_elem. exists mode, items, v, batch. split; [|done].
  unfold bundle_variants in Hv. destruct (pb_ubq_label bundle); [by apply list_elem_of_singleton in Hv as ->|].
  apply list_elem_of_bind in Hv as (q & [_ Hv]%variants_elem & _). by destruct v.
Qed.

Lemma bundle_specs_scenario bundle j : j ∈ bundle_specs bundle → js_scenario j = pb_scenario bundle.
Proof. intros (mode & items & v & batch & _ & ->)%bundle_specs_job. by destruct v. Qed.

(** The expected samples of a scenario are those of its jobs. *)
Lemma expected_keys_spec name :
  NoDup (expected_keys_for_scenario plan name) ∧
  ∀ k, k ∈ expected_keys_for_scenario plan name ↔
    ∃ j, j ∈ required_job_specs plan ∧ sc_name (js_scenario j) = name ∧ k = SampleKey_from_job j.
Proof.
  unfold expected_keys_for_scenario. split.
  - rewrite !sort_by_Permutation. apply NoDup_remove_dups.
  - intros k. rewrite !sort_by_Permutation, elem_of_remove_dups, list_elem_of_bind. rewrite required_job_specs_eq.
    setoid_rewrite elem_of_remove_dups. setoid_rewrite list_elem_of_bind. split.
    + intros (b & Hk & [Hn Hb]%list_elem_of_filter). unfold expected_keys_for_bundle in Hk.
      rewrite sort_by_Permutation, bundle_keys_eq in Hk. apply list_elem_of_fmap in Hk as (j & -> & Hj).
      exists j. split; [by exists b|]. by rewrite (bundle_specs_scenario b j Hj).
    + intros (j & (b & Hj & Hb) & Hn & ->). exists b. rewrite list_elem_of_filter.
      rewrite (bundle_specs_scenario b j Hj) in Hn. split; [|done]. unfold expected_keys_for_bundle.
      rewrite sort_by_Permutation, bundle_keys_eq. apply list_elem_of_fmap. by exists j.
Qed.

End agree.

(** ** Different jobs have different samples *)

Lemma job_label sc r m i v batch : (∀ q, v = VPlain q → plain_kind q = true) →
  job_queue_label (job_of sc r m i v batch) = variant_label v.
Proof. intros Hq. destruct v as [q| | | |]; try reflexivity. specialize (Hq q eq_refl). by destruct q. Qed.

(** Printed numbers can be told apart from what follows them. *)
Lemma split_digits ch a b a' b' : digits a → digits a' → is_ascii_digit ch = false →
  a ++ ch :: b = a' ++ ch :: b' → a = a' ∧ b = b'.
Proof.
  intros Ha Ha' Hch E. apply (f_equal (split_once ch)) in E.
  rewrite !split_once_app in E by (by apply digits_notin). by simplify_eq.
Qed.

Definition variant_usize (v : variant) : Prop :=
  match v with
  | VPlain q => plain_kind q = true
  | VFast b c => is_usize b ∧ is_usize c
  | VLf n => is_usize n
  | _ => True
  end.

Lemma variant_label_inj v v' : variant_usize v → variant_usize v' → variant_label v = variant_label v' → v = v'.
Proof.
  destruct v as [q|l|y|b c|n], v' as [q'|l'|y'|b' c'|n']; cbn [variant_usize variant_label]; intros Hv Hv' E.
  all: try (destruct q); try (destruct q'); try (destruct y); try (destruct y'); try discriminate; try reflexivity.
  - apply app_inv_head in E. by subst.
  - unfold fastfifo_queue_label in E. apply app_inv_head in E.
    change (lit "_c" ++ ?x) with ("_"%char :: "c"%char :: x) in E. destruct Hv as [[Hb Hb'] Hc], Hv' as [[Hd Hd'] Hc'].
    apply split_digits in E as [E1 [= E2]]; [|by apply show_all_digits..|done].
    apply show_inj in E1; [|done..]. apply show_inj in E2; [|done..]. by subst.
  - apply app_inv_head in E. apply show_inj in E; [|done..]. by subst.
Qed.

(** A scenario as [ScenarioConfig::new] makes it. *)
Definition canonical (sc : ScenarioConfig) : Prop :=
  is_usize (producers sc) ∧ is_usize (consumers sc) ∧ sc = ScenarioConfig_new (producers sc) (consumers sc).

Lemma canonical_name_inj sc sc' : canonical sc → canonical sc' → sc_name sc = sc_name sc' → sc = sc'.
Proof.
  intros (Hp & Hc & ->) (Hp' & Hc' & ->). cbn [sc_name ScenarioConfig_new].
  change (lit "p" ++ ?x) with ("p"%char :: x). intros E.
  apply split_digits in E as [E1 E2]; [|apply show_all_digits, Hp|apply show_all_digits, Hp'|done].
  apply app_inv_tail in E2. apply show_inj in E1; [|done..]. apply show_inj in E2; [|done..]. by rewrite E1, E2.
Qed.

(** Plans of such scenarios, with sizes that fit a machine word. *)
Record plan_wf (plan : MatrixPlan) : Prop := {
  wf_scenarios : Forall (λ b, canonical (pb_scenario b)) (bundles plan);
  wf_block_sizes : Forall is_usize (fastfifo_block_sizes plan);
  wf_capacities : Forall is_usize (fastfifo_capacities plan);
  wf_segment_sizes : Forall is_usize (lfqueue_segment_sizes plan)
}.

Section distinct.
Context (plan : MatrixPlan) (WF : plan_wf plan).

Lemma variant_in_usize v : variant_in plan v → variant_usize v.
Proof.
  destruct WF as [_ Hb Hc Hn]. rewrite Forall_forall in Hb, Hc, Hn.
  destruct v as [q| | |b c|n]; cbn [variant_in variant_usize]; try done; [intros [? ?]; auto|auto].
Qed.

Lemma required_job j : j ∈ required_job_specs plan →
  canonical (js_scenario j) ∧ ∃ r m i v batch, variant_usize v ∧ j = job_of (js_scenario j) r m i v batch.
Proof.
  rewrite required_job_specs_eq, elem_of_remove_dups, list_elem_of_bind. intros (b & Hj & Hb).
  pose proof (bundle_specs_scenario plan b j Hj) as Es.
  destruct (bundle_specs_job plan b j Hj) as (m & i & v & batch & Hv & ->). rewrite Es. split.
  - destruct WF as [Hsc _ _ _]. rewrite Forall_forall in Hsc. by apply Hsc.
  - exists (pb_repeat_index b), m, i, v, batch. split; [by apply variant_in_usize|done].
Qed.

Lemma SampleKey_inj j j' : j ∈ required_job_specs plan → j' ∈ required_job_specs plan →
  SampleKey_from_job j = SampleKey_from_job j' → j = j'.
Proof.
  intros (Hs & r & m & i & v & b & Hv & E)%required_job (Hs' & r' & m' & i' & v' & b' & Hv' & E')%required_job.
  unfold SampleKey_from_job. intros [= En Er Em Ei El Eb]. apply canonical_name_inj in En; [|done..].
  rewrite E, E', !job_label in El by (intros q ->; done). apply variant_label_inj in El; [|done..].
  rewrite E, E' in Er, Em, Ei, Eb |- *. rewrite El, En. rewrite El in Er, Em, Ei, Eb. clear -Er Em Ei Eb.
  destruct v'; cbn [job_of js_repeat_index js_mode js_items_per_producer js_batch_size] in *; by subst.
Qed.

(** The expected samples of a scenario, one for each of its jobs. *)
Lemma expected_keys_jobs name :
  expected_keys_for_scenario plan name ≡ₚ
    SampleKey_from_job <$> filter (λ j, sc_name (js_scenario j) = name) (required_job_specs plan).
Proof.
  destruct (expected_keys_spec plan name) as [Hnd Hk]. apply NoDup_Permutation; [done| |].
  - apply NoDup_fmap_2_strong; [|apply NoDup_filter, NoDup_remove_dups].
    intros j j' [_ Hj]%list_elem_of_filter [_ Hj']%list_elem_of_filter. by apply SampleKey_inj.
  - intros k. rewrite Hk, list_elem_of_fmap. setoid_rewrite list_elem_of_filter. naive_solver.
Qed.

End distinct.

(** ** The plans that are built

    A plan that is accepted has exactly the jobs that were asked for, each of which fits
    the machine. *)

(** ** Checks *)

Lemma check_each_ok {A} (g : A → hres unit) l u : check_each g l = HOk u → ∀ x, x ∈ l → g x = HOk tt.
Proof.
  revert u. induction l as [|y l IH]; intros u; cbn [check_each]; [by intros _ x []%elem_of_nil|].
  intros ([] & Ey & El)%hres_bind_ok x [->|Hx]%elem_of_cons; [done|by eapply IH].
Qed.

Lemma check_true ok e u : check ok e = HOk u → ok = true.
Proof. by destruct ok. Qed.

Lemma distinct_elem {A} `{EqDecision A} (l : list A) x : x ∈ distinct l ↔ x ∈ l.
Proof.
  unfold distinct. set (step := λ out y, if bool_decide (y ∈ out) then out else out ++ [y]).
  assert (∀ out, x ∈ foldl step out l ↔ x ∈ out ∨ x ∈ l) as Hout; [|rewrite Hout; set_solver].
  induction l as [|y l IH]; intros out; cbn [foldl]; [set_solver|]. rewrite IH. unfold step. case_bool_decide; set_solver.
Qed.

Lemma nonempty_elem {A} (l : list A) : l ≠ [] → ∃ x, x ∈ l.
Proof. destruct l as [|x l]; [done|]. intros _. exists x. left. Qed.

Lemma parse_labels_valid labels ls : parse_labels labels = HOk ls →
  length ls = length labels ∧ ∀ l, l ∈ ls → is_valid_ubq_label l = true.
Proof.
  revert ls. induction labels as [|t labels IH]; intros ls; cbn [parse_labels]; [intros [= <-]; split; [done|by intros l []%elem_of_nil]|].
  intros (l & El & (ls' & Els & [= <-])%hres_bind_ok)%hres_bind_ok. destruct (IH ls' Els) as [Hlen Hv].
  split; [by cbn [length]; rewrite Hlen|]. intros l' [->|Hl]%elem_of_cons; [|by apply Hv].
  unfold parse_ubq_label in El. destruct (filter _ _) as [|p0 [|p1 [|p2 [|p3 [|]]]]]; try discriminate El.
  apply hres_bind_ok in El as (pool & _ & El). destruct (true && (_ || _)); [discriminate El|].
  destruct (is_valid_ubq_label (mkUbqLabel p0 p3)) eqn:Ev; [|discriminate El]. cbn [andb negb] in El. by injection El as <-.
Qed.

Lemma parse_labels_elem labels ls : parse_labels labels = HOk ls →
  ∀ l, l ∈ ls ↔ ∃ t, t ∈ labels ∧ parse_ubq_label t true = HOk l.
Proof.
  revert ls. induction labels as [|t labels IH]; intros ls; cbn [parse_labels].
  - intros [= <-] l. set_solver.
  - intros (l0 & El & (ls' & Els & [= <-])%hres_bind_ok)%hres_bind_ok l. rewrite elem_of_cons, (IH ls' Els).
    setoid_rewrite elem_of_cons. split.
    + intros [->|(u & Hu & E)]; [exists t; auto|exists u; auto].
    + intros (u & [->|Hu] & E); [left; congruence|right; by exists u].
Qed.

Lemma normalize_sizes_elem seen sizes out : normalize_sizes seen sizes = HOk out → ∀ n, n ∈ out ↔ n ∈ seen ∨ n ∈ sizes.
Proof.
  revert seen. induction sizes as [|s sizes IH]; intros seen; cbn [normalize_sizes]; [intros [= <-]; set_solver|].
  destruct (s <? 2); [done|]. intros E n. rewrite (IH _ E). destruct (bool_decide_reflect (s ∈ seen)); set_solver.
Qed.

(** ** Plans *)

Section build.
Context (machine_label runs_dir : text) (available_parallelism : Z) (selected_queues : list QueueKind).
Context (fastfifo_block_sizes lfqueue_segment_sizes wcq_capacities : list Z).
Context (scenarios : list ScenarioConfig) (modes : list Mode) (repeats : Z) (reuse_existing : bool).
Context (ubq_labels : list text) (batch_sizes items : list Z) (plan : MatrixPlan).
Hypothesis built : build_direct_matrix_plan_with_batch_sizes machine_label runs_dir available_parallelism selected_queues
  fastfifo_block_sizes lfqueue_segment_sizes wcq_capacities scenarios modes repeats reuse_existing
  ubq_labels batch_sizes items = HOk plan.

(** A scenario that was checked runs in every mode without more threads than there are. *)
Lemma check_scenario_ok wcq sc mode : check_scenario available_parallelism wcq modes sc = HOk tt → mode ∈ modes →
  validate_mode_for_scenario mode sc = HOk tt ∧
  ∃ t n, total_threads sc = HOk t ∧ checked_add t (extra_threads mode) = Some n ∧ n ≤ available_parallelism.
Proof.
  unfold check_scenario. intros (t & Et & (_ & _ & (_ & _ & Hm)%hres_bind_ok)%hres_bind_ok)%hres_bind_ok Hin.
  apply (check_each_ok _ _ _ Hm) in Hin as ([] & Hv & (n & En%ok_or_else_ok & Hn%check_true)%hres_bind_ok)%hres_bind_ok.
  split; [done|]. exists t, n. split_and!; [done..|]. by apply Z.leb_le.
Qed.

(** What was asked for, once it was accepted. *)
Record accepted (labels : list UbqLabel) : Prop := {
  acc_bundles : bundles plan = plan_bundles selected_queues scenarios modes repeats labels items;
  acc_baseline : baseline_queues plan = filter (λ q, is_baseline q = true) selected_queues;
  acc_blocks : HarnessPlan.fastfifo_block_sizes plan =
    if includes selected_queues KFastFifo then distinct fastfifo_block_sizes else [];
  acc_capacities : fastfifo_capacities plan = default_fastfifo_capacities;
  acc_segments : HarnessPlan.lfqueue_segment_sizes plan =
    if includes selected_queues KLfQueue then distinct lfqueue_segment_sizes else [];
  acc_backoffs : lubq_backoffs plan = [LCrossbeam; LYield];
  acc_batches : ∀ n, n ∈ ubq_batch_sizes plan ↔ n ∈ batch_sizes;
  acc_valid : ∀ l, l ∈ labels → is_valid_ubq_label l = true;
  acc_parsed : includes selected_queues KUbq = true → ∀ l, l ∈ labels ↔ ∃ t, t ∈ ubq_labels ∧ parse_ubq_label t true = HOk l;
  acc_labels : includes selected_queues KUbq = true → labels ≠ [];
  acc_fast : includes selected_queues KFastFifo = true → fastfifo_block_sizes ≠ [];
  acc_lf : includes selected_queues KLfQueue = true → lfqueue_segment_sizes ≠ [];
  acc_scenarios : ∀ sc, sc ∈ scenarios →
    check_scenario available_parallelism (includes selected_queues KWcq) modes sc = HOk tt
}.

Lemma nonempty_check b {A : Type} (l : list A) `{Decision (l = [])} :
  negb (b && bool_decide (l = [])) = true → b = true → l ≠ [].
Proof. intros Hn ->. cbn in Hn. by case_bool_decide. Qed.

Lemma sorted_labels parsed : sort_by UbqLabel_cmp (remove_dups parsed) = [] → parsed = [].
Proof.
  intros E. destruct parsed as [|l parsed]; [done|]. exfalso. apply (not_elem_of_nil l). rewrite <- E, sort_by_Permutation.
  apply elem_of_remove_dups. left.
Qed.

Lemma build_accepted : ∃ labels, accepted labels.
Proof.
  revert built. unfold build_direct_matrix_plan_with_batch_sizes, build_direct_matrix_plan.
  intros (sizes & Hn & (p & H & [= Ep])%hres_bind_ok)%hres_bind_ok.
  apply hres_bind_ok in H as ([] & _ & H). apply hres_bind_ok in H as ([] & _ & H). apply hres_bind_ok in H as ([] & Hu%check_true & H).
  apply hres_bind_ok in H as ([] & Hf%check_true & H). apply hres_bind_ok in H as ([] & Hl%check_true & H).
  do 4 apply hres_bind_ok in H as ([] & _ & H). apply hres_bind_ok in H as (parsed & Hp & H).
  apply hres_bind_ok in H as ([] & Hs & H). apply hres_bind_ok in H as ([] & _ & [= Eplan]).
  assert ((∀ l, l ∈ parsed → is_valid_ubq_label l = true) ∧ (includes selected_queues KUbq = true →
    parsed ≠ [] ∧ ∀ l, l ∈ parsed ↔ ∃ t, t ∈ ubq_labels ∧ parse_ubq_label t true = HOk l)) as [Hv Hne].
  { destruct (includes selected_queues KUbq); [|injection Hp as <-; split; [by intros l []%elem_of_nil|done]].
    pose proof (parse_labels_elem _ _ Hp). apply parse_labels_valid in Hp as [Hlen Hv].
    split; [done|]. intros _. split; [|done]. intros ->. destruct ubq_labels; done. }
  exists (sort_by UbqLabel_cmp (remove_dups parsed)). constructor; try (by rewrite <- Ep, <- Eplan).
  - intros n. rewrite <- Ep. cbn. rewrite (normalize_sizes_elem _ _ _ Hn). set_solver.
  - intros l. rewrite sort_by_Permutation, elem_of_remove_dups. apply Hv.
  - intros Hi l. rewrite sort_by_Permutation, elem_of_remove_dups. by apply Hne.
  - intros Hi E%sorted_labels. by apply (Hne Hi).
  - exact (nonempty_check _ _ Hf).
  - exact (nonempty_check _ _ Hl).
  - intros sc Hsc. exact (check_each_ok _ _ _ Hs sc Hsc).
Qed.

(** ** The jobs of an accepted plan *)

(** The queues, with their parameters, that the arguments name. *)
Definition asked_for (v : variant) : Prop :=
  variant_queue v ∈ selected_queues ∧
  match v with
  | VPlain q => plain_kind q = true ∧ q ≠ KUbq
  | VUbq label => ∃ t l, t ∈ ubq_labels ∧ parse_ubq_label t true = HOk l ∧ label = UbqLabel_text l
  | VLubq _ => True
  | VFast block_size capacity => block_size ∈ fastfifo_block_sizes ∧ capacity ∈ default_fastfifo_capacities
  | VLf segment_size => segment_size ∈ lfqueue_segment_sizes
  end.

Lemma includes_true q : q ∈ selected_queues → includes selected_queues q = true.
Proof. by intros; apply bool_decide_eq_true. Qed.

Lemma baseline_variants_elem labels v : accepted labels →
  v ∈ baseline_queues plan ≫= variants plan ↔ asked_for v ∧ variant_queue v ≠ KUbq.
Proof.
  intros Ha. rewrite list_elem_of_bind. setoid_rewrite variants_elem. rewrite (acc_baseline _ Ha).
  setoid_rewrite list_elem_of_filter. unfold asked_for.
  rewrite (acc_blocks _ Ha), (acc_capacities _ Ha), (acc_segments _ Ha), (acc_backoffs _ Ha). split.
  - intros (q & [<- Hv] & Hb & Hq). assert (variant_queue v ≠ KUbq) as Hu by (intros E; by rewrite E in Hb).
    split; [|done]. split; [done|].
    destruct v as [q|l|y|b c|n]; try done; cbn in Hq; rewrite (includes_true _ Hq), distinct_elem in Hv; done.
  - intros [[Hq Hv] Hu]. exists (variant_queue v). split; [|by split; [destruct (variant_queue v)|]]. split; [done|].
    destruct v as [q|l|y|b c|n]; try done; [by destruct Hv|by destruct y; [left|right; left]|..];
      cbn in Hq; rewrite (includes_true _ Hq), distinct_elem; done.
Qed.

Lemma plan_bundle_elem labels b : accepted labels → b ∈ bundles plan ↔
  pb_scenario b ∈ scenarios ∧ 1 ≤ pb_repeat_index b ≤ repeats ∧ pb_modes b = modes ∧ pb_items b = items ∧
  match pb_ubq_label b with
  | Some label => asked_for (VUbq label)
  | None => baseline_queues plan ≠ []
  end.
Proof.
  intros Ha. rewrite (acc_bundles _ Ha), (acc_baseline _ Ha). unfold plan_bundles. rewrite list_elem_of_bind.
  setoid_rewrite list_elem_of_bind. setoid_rewrite elem_of_seqZ. setoid_rewrite elem_of_app. split.
  - intros (sc & (rep & [Hb|Hb] & Hr) & Hsc).
    + destruct (includes selected_queues KUbq) eqn:Ei; [|by apply elem_of_nil in Hb].
      apply list_elem_of_fmap in Hb as (l & -> & [_ Hl]%list_elem_of_filter). cbn. split_and!; try done; try lia.
      split; [by apply bool_decide_eq_true in Ei|]. apply (acc_parsed _ Ha Ei) in Hl as (t & Ht & El). by exists t, l.
    + case_bool_decide; [by apply elem_of_nil in Hb|]. apply list_elem_of_singleton in Hb as ->. cbn. split_and!; try done; lia.
  - destruct b as [sc rep label ms ns]. cbn. intros (Hsc & Hr & -> & -> & Hl). exists sc. split; [|done].
    exists rep. split; [|lia]. destruct label as [label|]; [left|right].
    + destruct Hl as (Ei%includes_true & t & l & Ht & El & ->). cbn in Ei. rewrite Ei. apply list_elem_of_fmap. exists l. split; [done|].
      assert (l ∈ labels) as Hl by (apply (acc_parsed _ Ha Ei); by exists t).
      apply list_elem_of_filter. split; [|done]. by apply (acc_valid _ Ha).
    + rewrite bool_decide_eq_false_2 by done. left.
Qed.

Lemma batch_choices_elem sizes sizes' mode v batch : (∀ n : Z, n ∈ sizes ↔ n ∈ sizes') →
  batch ∈ batch_choices sizes mode v ↔ batch ∈ batch_choices sizes' mode v.
Proof.
  intros Hs. unfold batch_choices. rewrite !elem_of_cons. destruct (_ && _); [|done]. rewrite !list_elem_of_fmap. naive_solver.
Qed.

Lemma plan_jobs_elem labels j : accepted labels → j ∈ required_job_specs plan ↔
  ∃ sc rep mode n v batch, sc ∈ scenarios ∧ 1 ≤ rep ≤ repeats ∧ mode ∈ modes ∧ n ∈ mode_items mode items ∧
    asked_for v ∧ batch ∈ batch_choices batch_sizes mode v ∧ j = job_of sc rep mode n v batch.
Proof.
  intros Ha. rewrite required_job_specs_eq, elem_of_remove_dups, list_elem_of_bind. setoid_rewrite bundle_specs_elem.
  setoid_rewrite (plan_bundle_elem labels _ Ha). unfold bundle_variants. split.
  - intros (b & (m & n & v & batch & Hm & Hn & Hv & Hbatch & ->) & Hsc & Hr & Em & Ei & Hl).
    rewrite Em in Hm. rewrite Ei in Hn. apply (batch_choices_elem _ batch_sizes _ _ _ (acc_batches _ Ha)) in Hbatch.
    exists (pb_scenario b), (pb_repeat_index b), m, n, v, batch. split_and!; try done; try lia.
    destruct (pb_ubq_label b); [by apply list_elem_of_singleton in Hv as ->|by apply (baseline_variants_elem labels v Ha)].
  - intros (sc & rep & m & n & v & batch & Hsc & Hr & Hm & Hn & Hv & Hbatch & ->).
    apply (batch_choices_elem _ _ _ _ _ (acc_batches _ Ha)) in Hbatch.
    assert (∃ l, match l with
      | Some label => asked_for (VUbq label) ∧ v = VUbq label
      | None => v ∈ baseline_queues plan ≫= variants plan
      end) as (l & Hl).
    { destruct (decide (variant_queue v = KUbq)) as [E|E].
      - destruct v as [q|label| | |]; try discriminate E; [|by exists (Some label)]. cbn in E. subst q. by destruct Hv as (_ & _ & ?).
      - exists None. by apply (baseline_variants_elem labels v Ha). }
    exists (mkBundle sc rep l modes items). split.
    + exists m, n, v, batch. split_and!; try done. destruct l; [destruct Hl as [_ ->]; left|done].
    + cbn. split_and!; try done; try lia. destruct l; [by destruct Hl|]. intros E. rewrite E in Hl. by apply elem_of_nil in Hl.
Qed.

Lemma job_threads labels j : accepted labels → js_scenario j ∈ scenarios → js_mode j ∈ modes →
  validate_mode_for_scenario (js_mode j) (js_scenario j) = HOk tt ∧ ∃ t, thread_budget j = HOk t ∧ t ≤ available_parallelism.
Proof.
  intros Ha Hsc Hm. destruct (check_scenario_ok _ _ _ (acc_scenarios _ Ha _ Hsc) Hm) as (Hv & t & n & Et & En & Hle).
  split; [done|]. exists n. split; [|done]. unfold thread_budget. by rewrite Et; cbn [mbind hres_bind]; rewrite En.
Qed.

(** Every selected queue but wCQ is run with something. *)
Lemma selected_asked labels q : accepted labels → q ∈ selected_queues → q ≠ KWcq → ∃ v, asked_for v ∧ variant_queue v = q.
Proof.
  intros Ha Hq Hw. pose proof (includes_true _ Hq) as Ei.
  destruct (decide (plain_kind q = true ∧ q ≠ KUbq)) as [Hp|Hp]; [by exists (VPlain q)|].
  destruct q; try (destruct Hp; done).
  - destruct (nonempty_elem _ (acc_labels _ Ha Ei)) as (l & (t & Ht & El)%(acc_parsed _ Ha Ei)).
    exists (VUbq (UbqLabel_text l)). split; [|done]. split; [done|]. by exists t, l.
  - by exists (VLubq LCrossbeam).
  - destruct (nonempty_elem _ (acc_fast _ Ha Ei)) as (b & Hb). exists (VFast b 1048576).
    split; [|done]. split; [done|]. split; [done|left].
  - destruct (nonempty_elem _ (acc_lf _ Ha Ei)) as (n & Hn). by exists (VLf n).
Qed.

(** Plans that can be run without mixing up samples or files. *)
Lemma build_plan_wf : Forall canonical scenarios → Forall is_usize fastfifo_block_sizes → Forall is_usize lfqueue_segment_sizes →
  plan_wf plan.
Proof.
  rewrite !Forall_forall. intros Hc Hb Hs. destruct build_accepted as [labels Ha]. constructor; apply Forall_forall.
  - intros b. rewrite (plan_bundle_elem labels b Ha). intros (Hsc & _). by apply Hc.
  - intros n. rewrite (acc_blocks _ Ha). destruct (includes _ _); [rewrite distinct_elem; apply Hb|by intros []%elem_of_nil].
  - intros n. rewrite (acc_capacities _ Ha). intros ->%list_elem_of_singleton. done.
  - intros n. rewrite (acc_segments _ Ha). destruct (includes _ _); [rewrite distinct_elem; apply Hs|by intros []%elem_of_nil].
Qed.

(** C33: the jobs of a plan that is accepted are exactly those asked for, each once.  A
    job is a scenario, a repeat, a mode, an item count of the mode (throughput runs take
    the first one only, the other modes each), a variant of a selected queue and a batch
    size or none.  The variants are: UBQ with each label given; the sharded channel with
    each of its two backoffs; FastFifo with each block size and the default capacity; the
    segmented queue with each segment size; the other queues as they are; wCQ never.
    Batch sizes are swept in throughput runs of the queues that have batch operations.
    Every selected queue but wCQ has a variant.  Every job is allowed for its scenario
    and needs no more threads than the machine has. *)
Theorem plan_jobs_fit :
  NoDup (required_job_specs plan) ∧
  (∀ j, j ∈ required_job_specs plan ↔
    ∃ sc rep mode n v batch, sc ∈ scenarios ∧ 1 ≤ rep ≤ repeats ∧ mode ∈ modes ∧ n ∈ mode_items mode items ∧
      asked_for v ∧ batch ∈ batch_choices batch_sizes mode v ∧ j = job_of sc rep mode n v batch) ∧
  (∀ q, q ∈ selected_queues → q ≠ KWcq → ∃ v, asked_for v ∧ variant_queue v = q) ∧
  (∀ j, j ∈ required_job_specs plan →
    validate_mode_for_scenario (js_mode j) (js_scenario j) = HOk tt ∧
    ∃ t, thread_budget j = HOk t ∧ t ≤ available_parallelism).
Proof.
  destruct build_accepted as [labels Ha]. split_and!.
  - apply NoDup_remove_dups.
  - intros j. exact (plan_jobs_elem labels j Ha).
  - intros q. exact (selected_asked labels q Ha).
  - intros j (sc & rep & m & n & v & batch & Hsc & Hr & Hm & Hn & Hv & Hb & ->)%(plan_jobs_elem labels _ Ha).
    apply (job_threads labels _ Ha); by destruct v.
Qed.

End build.

(** ** Witnesses *)

Definition small_plan : hres MatrixPlan :=
  build_direct_matrix_plan_with_batch_sizes (lit "grace-1") (lit "runs") 4 [KUbq; KSegQueue; KLfQueue] [] [32; 64; 32] []
    [ScenarioConfig_new 1 1; ScenarioConfig_new 3 1] [Throughput; Fairness] 2 true
    [lit "balanced,1,page,yield"; lit "balanced,1,page,crossbeam"] [8; 8] [1000; 500].

(** Per repeat and scenario: of each UBQ label and of SegQueue one throughput job, one in
    batch_choices and two fairness jobs, and of each segment size one throughput job and two
    fairness jobs. *)
Example small_plan_jobs : (p ← small_plan; HOk (length (required_job_specs p))) = HOk 72%nat.
Proof. vm_compute. reflexivity. Qed.

Lemma plan_jobs_fit_witness : ∃ plan, small_plan = HOk plan ∧
  (∀ j, j ∈ required_job_specs plan → ∃ t, thread_budget j = HOk t ∧ t ≤ 4) ∧
  job_of (ScenarioConfig_new 3 1) 2 Throughput 1000 (VUbq (lit "balanced,1,page,crossbeam")) (Some 8) ∈ required_job_specs plan ∧
  job_of (ScenarioConfig_new 3 1) 2 Fairness 500 (VLf 64) None ∈ required_job_specs plan.
Proof.
  assert (∃ plan, small_plan = HOk plan) as (plan & E) by (eexists; vm_compute; reflexivity).
  destruct (plan_jobs_fit _ _ _ _ _ _ _ _ _ _ _ _ _ _ plan E) as (_ & Hall & _ & Hfit). exists plan. split; [exact E|].
  split; [|split].
  - intros j Hj. apply (Hfit j Hj).
  - apply Hall. exists (ScenarioConfig_new 3 1), 2, Throughput, 1000, (VUbq (lit "balanced,1,page,crossbeam")), (Some 8).
    split; [right; left|]. split; [lia|]. split; [left|]. split; [left|]. split; [|split; [right; left|reflexivity]].
    split; [left|]. exists (lit "balanced,1,page,crossbeam"), (mkUbqLabel (lit "balanced") (lit "crossbeam")).
    split; [right; left|]. split; vm_compute; reflexivity.
  - apply Hall. exists (ScenarioConfig_new 3 1), 2, Fairness, 500, (VLf 64), None.
    split; [right; left|]. split; [lia|]. split; [right; left|]. split; [right; left|]. split; [|split; [left|reflexivity]].
    split; [right; right; left|right; left].
Defined.
