(* ===== verification/HarnessOutputSpec.v ===== *)
(** * The benchmark harness: what a run leaves in its output files *)

From Stdlib Require Import Ascii String.
From stdpp Require Import strings.
From S2P Require Import Prelude Prog Text Harness HarnessSpec HarnessPlan HarnessPlanSpec HarnessOutput.

Lemma omap_ext_in {A B} (g h : A → option B) (l : list A) : (∀ x, x ∈ l → g x = h x) → omap g l =@{list B} omap h l.
Proof.
  induction l as [|x l IH]; intros E; [done|]. cbn [omap list_omap].
  rewrite (E x) by set_solver. rewrite IH by (intros; apply E; set_solver). done.
Qed.

Lemma omap_fmap_list {A B C} (g : A → B) (h : B → option C) (l : list A) : omap h (g <$> l) = omap (λ x, h (g x)) l.
Proof. induction l as [|x l IH]; [done|]. cbn [fmap list_fmap omap list_omap]. by destruct (h (g x)); rewrite IH. Qed.

Lemma filter_none {A} (P : A → Prop) `{∀ x, Decision (P x)} (l : list A) : (∀ x, x ∈ l → ¬ P x) → filter P l = [].
Proof. intros Hl. induction l as [|x l IH]; [done|]. rewrite filter_cons_False by (apply Hl; set_solver). apply IH. set_solver. Qed.

(** ** Paths *)

Lemma sanitize_digit c : is_ascii_digit c = true → sanitize_char c = c.
Proof.
  intros Hc. unfold sanitize_char, is_ascii_alphanumeric, ascii_lower. rewrite Hc. cbn [orb].
  by rewrite (digit_not_upper c Hc).
Qed.

Lemma sanitize_digits s : digits s → sanitize_char <$> s = s.
Proof. induction 1 as [|c s Hc Hs IH]; [done|]. by rewrite fmap_cons, sanitize_digit, IH. Qed.

(** The name of a scenario is a file name as it is. *)
Lemma sanitize_canonical sc : canonical sc → sanitize_name (sc_name sc) = sc_name sc.
Proof.
  intros ([Hp _] & [Hc _] & ->). cbn [sc_name ScenarioConfig_new producers consumers].
  unfold sanitize_name. rewrite !fmap_app, (sanitize_digits (show (producers sc))), (sanitize_digits (show (consumers sc))) by (by apply show_all_digits).
  change (sanitize_char <$> lit "p") with (lit "p"). change (sanitize_char <$> lit "c") with (lit "c").
  apply trim_matches_id; intros ch Hch; apply bool_decide_eq_false_2; intros ->.
  - pose proof (show_all_digits _ Hp) as Hd. destruct (show (producers sc)) as [|d s] eqn:E; [by apply show_not_nil in E|].
    apply Forall_cons in Hd as [Hd _]. cbn in Hch. injection Hch as ->. discriminate Hd.
  - rewrite !app_assoc in Hch. change (lit "c") with ["c"%char] in Hch. rewrite last_snoc in Hch. discriminate Hch.
Qed.

Lemma output_path_inj plan sc sc' : canonical sc → canonical sc' →
  output_path_for_scenario plan (sc_name sc) = output_path_for_scenario plan (sc_name sc') → sc = sc'.
Proof.
  intros Hs Hs'. unfold output_path_for_scenario. rewrite !sanitize_canonical by done.
  intros E. do 4 apply app_inv_head in E. apply app_inv_tail in E. by apply canonical_name_inj.
Qed.

Section run.
Context {F R : Type} `{OD : OutputDisk F R} (plan : MatrixPlan) (WF : plan_wf plan) (run_job : JobSpec → hres R).
Context (cache : gmap SampleKey R) (f0 : F).
Implicit Types (f : F) (st : ScenarioOutputState R) (w : IncrementalOutputWriter R) (M : gmap SampleKey R).
Notation path := (output_path_for_scenario plan).
Notation expected := (expected_keys_for_scenario plan).
Notation name_of j := (sc_name (js_scenario j)).

(** ** The writer *)

(** The writer holds, for each scenario, the samples of [M] that belong to it. *)
Record writer_holds M w : Prop := {
  w_state : ∀ name i, ow_index w !! name = Some i → ∃ st, ow_scenarios w !! i = Some st ∧
    so_path st = path name ∧ so_ordered_keys st = expected name ∧ so_dirty st = false ∧
    ∀ k, so_records st !! k = if decide (key_scenario k = name) then M !! k else None;
  w_inj : ∀ name name' i, ow_index w !! name = Some i → ow_index w !! name' = Some i → name = name';
  w_all : ∀ i st, ow_scenarios w !! i = Some st → ∃ name, ow_index w !! name = Some i
}.

(** The writer knows the scenarios of these bundles. *)
Definition covers (bs : list PlanBundle) w : Prop := ∀ b, b ∈ bs → is_Some (ow_index w !! sc_name (pb_scenario b)).

Lemma writer_lookup_lt M w name i : writer_holds M w → ow_index w !! name = Some i → (i < length (ow_scenarios w))%nat.
Proof. intros [Hs _ _] (st & E & _)%Hs. by eapply lookup_lt_Some. Qed.

Lemma add_outputs_holds bs w : writer_holds ∅ w → writer_holds ∅ (add_outputs plan w bs).
Proof.
  revert w. induction bs as [|b bs IH]; intros w Hw; [done|]. cbn [add_outputs]. case_bool_decide as E; [by apply IH|].
  apply IH. pose proof (λ name i, writer_lookup_lt _ _ name i Hw) as Hlt. destruct Hw as [Hs Hi Ha].
  constructor; cbn [ow_index ow_scenarios].
  - intros name i. rewrite lookup_insert. case_decide as En; [intros [= <-]; subst name|intros Ei].
    + exists (ScenarioOutputState_new plan (pb_scenario b)). rewrite lookup_app_r, Nat.sub_diag by lia.
      split_and!; try done. intros k. cbn [ScenarioOutputState_new so_records]. rewrite !lookup_empty. by case_decide.
    + rewrite lookup_app_l by eauto. by apply Hs.
  - intros name name' i. rewrite !lookup_insert. do 2 case_decide; intros; simplify_eq;
      first [done|by eauto|exfalso; by eapply Nat.lt_irrefl, Hlt].
  - intros i st [Hst|[Hge Hst]]%lookup_app_Some.
    + destruct (Ha i st Hst) as (name & Ei). exists name. rewrite lookup_insert_ne; [done|]. intros <-. by apply E.
    + apply list_lookup_singleton_Some in Hst as [Hz _]. exists (sc_name (pb_scenario b)).
      rewrite lookup_insert_eq. f_equal. lia.
Qed.

Lemma add_outputs_covers bs w : covers bs (add_outputs plan w bs) ∧
  ∀ name, is_Some (ow_index w !! name) → is_Some (ow_index (add_outputs plan w bs) !! name).
Proof.
  revert w. induction bs as [|b bs IH]; intros w; [split; [intros ? []%elem_of_nil|done]|]. cbn [add_outputs].
  case_bool_decide as E.
  - destruct (IH w) as [Hc Hm]. split; [|done]. intros b' [->|Hb]%elem_of_cons; auto.
  - destruct (IH (mkWriter (ow_scenarios w ++ [ScenarioOutputState_new plan (pb_scenario b)])
      (<[sc_name (pb_scenario b) := length (ow_scenarios w)]> (ow_index w)) (ow_write_count w))) as [Hc Hm]. split.
    + intros b' [->|Hb]%elem_of_cons; [|by auto]. apply Hm. cbn [ow_index]. rewrite lookup_insert_eq. by eexists.
    + intros name Hn. apply Hm. cbn [ow_index]. rewrite lookup_insert. case_decide; [by eexists|done].
Qed.

(** Replacing the state of a scenario by one that also holds a sample. *)
Lemma insert_holds M w k r i st dirty : writer_holds M w → ow_index w !! key_scenario k = Some i →
  ow_scenarios w !! i = Some st → dirty = false → ∀ n,
  writer_holds (<[k := r]> M)
    (mkWriter (<[i := mkOut (so_path st) (so_ordered_keys st) (<[k := r]> (so_records st)) dirty]> (ow_scenarios w)) (ow_index w) n).
Proof.
  intros [Hs Hi Ha] Ei Est -> n. constructor; cbn [ow_index ow_scenarios].
  - intros name i' Ei'. destruct (decide (i' = i)) as [->|Hne].
    + pose proof (Hi _ _ _ Ei Ei') as <-. eexists. rewrite list_lookup_insert_eq by (by eapply lookup_lt_Some).
      split; [done|]. destruct (Hs _ _ Ei) as (st' & Est' & Hp & Hk & _ & Hr). simplify_eq.
      split_and!; try done. intros k'. cbn [so_records]. rewrite !lookup_insert. specialize (Hr k').
      repeat case_decide; subst; done.
    + rewrite list_lookup_insert_ne by done. destruct (Hs _ _ Ei') as (st' & Est' & Hp & Hk & Hd & Hr).
      exists st'. split_and!; try done. intros k'. rewrite Hr. case_decide as En; [|done]. rewrite lookup_insert_ne; [done|].
      intros <-. subst name. congruence.
  - done.
  - intros i' st' Hst'. destruct (decide (i' = i)) as [->|Hne]; [by eauto|]. rewrite list_lookup_insert_ne in Hst' by done.
    by apply (Ha i' st').
Qed.

Lemma seed_holds M w k r : writer_holds M w →
  ∃ w', seed_cached_record w k r = HOk w' ∧ ow_index w' = ow_index w ∧ writer_holds (<[k := r]> M) w'.
Proof.
  intros Hw. unfold seed_cached_record. destruct (ow_index w !! key_scenario k) as [i|] eqn:Ei.
  - destruct (w_state _ _ Hw _ _ Ei) as (st & Est & _ & _ & Hd & _). unfold set_scenario. rewrite Est.
    cbn [hexpect mbind hres_bind]. eexists. split; [done|]. split; [done|]. by apply insert_holds.
  - exists w. split; [done|]. split; [done|]. destruct Hw as [Hs Hi Ha]. constructor; [|done|done].
    intros name i Hn. destruct (Hs _ _ Hn) as (st & Est & Hp & Hk & Hd & Hr). exists st. split_and!; try done.
    intros k'. rewrite Hr. case_decide as En; [|done]. rewrite lookup_insert_ne; [done|]. intros <-. subst name. congruence.
Qed.

Lemma seed_records_holds l M w : writer_holds M w →
  ∃ w', seed_records w l = HOk w' ∧ ow_index w' = ow_index w ∧ writer_holds (list_to_map (reverse l) ∪ M) w'.
Proof.
  revert M w. induction l as [|[k r] l IH]; intros M w Hw.
  - exists w. split; [done|]. split; [done|]. by rewrite reverse_nil, list_to_map_nil, map_empty_union.
  - cbn [seed_records]. destruct (seed_holds M w k r Hw) as (w1 & -> & Ei & Hw1). cbn [mbind hres_bind].
    destruct (IH _ _ Hw1) as (w2 & E2 & Ei2 & Hw2). exists w2. split; [done|]. split; [congruence|].
    rewrite reverse_cons, list_to_map_app, <- map_union_assoc. cbn [list_to_map foldr].
    by rewrite insert_empty, <- insert_union_singleton_l.
Qed.

Lemma writer_new : ∃ w, IncrementalOutputWriter_new plan cache = HOk w ∧ covers (bundles plan) w ∧ writer_holds cache w.
Proof.
  unfold IncrementalOutputWriter_new. set (w0 := add_outputs plan (mkWriter [] ∅ 0) (bundles plan)).
  assert (writer_holds ∅ w0) as H0.
  { apply add_outputs_holds. constructor; cbn [ow_index ow_scenarios]; intros *; rewrite ?lookup_empty, ?lookup_nil; done. }
  destruct (seed_records_holds (map_to_list cache) _ _ H0) as (w & E & Ei & Hw). exists w. split; [done|]. split.
  - intros b Hb. rewrite Ei. by apply (proj1 (add_outputs_covers (bundles plan) (mkWriter [] ∅ 0))).
  - rewrite map_union_empty in Hw. rewrite (list_to_map_proper _ (map_to_list cache)), list_to_map_to_list in Hw; [done| |].
    + rewrite fmap_reverse, reverse_Permutation. apply NoDup_fst_map_to_list.
    + apply reverse_Permutation.
Qed.

(** ** The run *)

(** The samples of [M] that the file of a scenario lists. *)
Definition file_of M (name : text) : list R := omap (λ k, M !! k) (expected name).

Lemma expected_scenario k name : k ∈ expected name → key_scenario k = name.
Proof. intros (j & _ & <- & ->)%expected_keys_spec. done. Qed.

Lemma file_of_ext M M' name : (∀ k, key_scenario k = name → M !! k = M' !! k) → file_of M name = file_of M' name.
Proof.
  intros HM. apply omap_ext_in. intros k Hk%expected_scenario. by apply HM.
Qed.

Lemma handle_holds M w f k r : writer_holds M w → is_Some (ow_index w !! key_scenario k) →
  ∃ w', ow_index w' = ow_index w ∧ writer_holds (<[k := r]> M) w' ∧
    handle_completed_record f w k r =
      (f' ← ok_or_else (disk_write (path (key_scenario k)) (file_of (<[k := r]> M) (key_scenario k)) f)
              (lit "failed to write output"); HOk (f', w')).
Proof.
  intros Hw [i Ei]. unfold handle_completed_record. rewrite Ei.
  destruct (w_state _ _ Hw _ _ Ei) as (st & Est & Hp & Hk & Hd & Hr). rewrite Est. cbn [hexpect mbind hres_bind].
  exists (mkWriter (<[i := mkOut (so_path st) (so_ordered_keys st) (<[k := r]> (so_records st)) false]> (ow_scenarios w))
    (ow_index w) (ow_write_count w + 1)). split; [done|]. split; [by apply insert_holds|].
  unfold out_flush, store_record. cbn [so_dirty negb so_path so_ordered_keys so_records].
  assert (results (mkOut (so_path st) (so_ordered_keys st) (<[k := r]> (so_records st)) true) =
    file_of (<[k := r]> M) (key_scenario k)) as ->.
  { unfold results, file_of. cbn [so_ordered_keys so_records]. rewrite Hk.
    apply omap_ext_in. intros k' Hk'%expected_scenario. by rewrite !lookup_insert, Hr, (decide_True _ _ Hk'). }
  rewrite Hp. by destruct (disk_write _ _ f).
Qed.

(** After the jobs [done]: their records and the cached ones are held; the files of their
    scenarios list what is held; other files are as they were. *)
Record run_state (done : list JobSpec) M f w : Prop := {
  rs_writer : writer_holds M w;
  rs_covers : covers (bundles plan) w;
  rs_done : ∀ j, j ∈ done → j ∈ required_job_specs plan ∧ ∃ r, run_job j = HOk r ∧ M !! SampleKey_from_job j = Some r;
  rs_other : ∀ k, (∀ j, j ∈ done → k ≠ SampleKey_from_job j) → M !! k = cache !! k;
  rs_files : ∀ j, j ∈ done → disk_read f (path (name_of j)) = Some (file_of M (name_of j));
  rs_rest : ∀ p, (∀ j, j ∈ done → p ≠ path (name_of j)) → disk_read f p = disk_read f0 p
}.

Lemma run_start : ∃ w, IncrementalOutputWriter_new plan cache = HOk w ∧ run_state [] cache f0 w.
Proof.
  destruct writer_new as (w & E & Hc & Hw). exists w. split; [done|]. constructor; try done; intros j []%elem_of_nil.
Qed.

Lemma covers_job w j : covers (bundles plan) w → j ∈ required_job_specs plan → is_Some (ow_index w !! name_of j).
Proof.
  intros Hc. rewrite required_job_specs_eq, elem_of_remove_dups, list_elem_of_bind. intros (b & Hj & Hb).
  rewrite (bundle_specs_scenario plan b j Hj). by apply Hc.
Qed.

Lemma path_inj j j' : j ∈ required_job_specs plan → j' ∈ required_job_specs plan →
  path (name_of j) = path (name_of j') → name_of j = name_of j'.
Proof.
  intros [Hc _]%(required_job plan WF) [Hc' _]%(required_job plan WF) E. by rewrite (output_path_inj plan _ _ Hc Hc' E).
Qed.

Lemma run_step done M f f' w j r : run_state done M f w → j ∈ required_job_specs plan → run_job j = HOk r →
  disk_write (path (name_of j)) (file_of (<[SampleKey_from_job j := r]> M) (name_of j)) f = Some f' → ∀ w',
  ow_index w' = ow_index w → writer_holds (<[SampleKey_from_job j := r]> M) w' →
  run_state (j :: done) (<[SampleKey_from_job j := r]> M) f' w'.
Proof.
  intros [Hw Hc Hd Ho Hf Hr] Hj Er Ef w' Ei Hw'. constructor.
  - done.
  - intros b Hb. rewrite Ei. by apply Hc.
  - intros j' [->|Hj']%elem_of_cons; [split; [done|]; exists r; by rewrite lookup_insert_eq|].
    destruct (Hd j' Hj') as (Hreq & r' & Er' & Hl). split; [done|]. exists r'. split; [done|]. rewrite lookup_insert.
    case_decide as Ek; [|done]. apply (SampleKey_inj plan WF) in Ek; [|done..]. subst j'. congruence.
  - intros k Hk. rewrite lookup_insert_ne by (intros <-; apply (Hk j); [set_solver|done]). apply Ho.
    intros j' Hj'. apply Hk. set_solver.
  - intros j' Hj'. destruct (decide (name_of j' = name_of j)) as [->|Hne]; [by apply (disk_write_read _ _ _ _ Ef)|].
    apply elem_of_cons in Hj' as [->|Hj']; [done|]. destruct (Hd j' Hj') as [Hreq _].
    rewrite (disk_write_other _ _ _ _ _ Ef) by (intros E%path_inj; done). rewrite (Hf j' Hj'). f_equal. apply file_of_ext.
    intros k Hk. rewrite lookup_insert_ne; [done|]. intros <-. by apply Hne.
  - intros p Hp. rewrite (disk_write_other _ _ _ _ _ Ef) by (apply Hp; set_solver). apply Hr. intros; apply Hp; set_solver.
Qed.

(** Every prefix of the run keeps the files up to date, or fails with an error. *)
Lemma submit_all_state pending done M f w : run_state done M f w → (∀ j, j ∈ pending → j ∈ required_job_specs plan) →
  (∀ j, j ∈ pending → run_job j ≠ HPanic) →
  match submit_all run_job f w pending with
  | HOk (f', w') => ∃ M', run_state (rev_append pending done) M' f' w'
  | HErr _ => (∃ j e, j ∈ pending ∧ run_job j = HErr e) ∨ ∃ p l f1, disk_write p l f1 = None
  | HPanic => False
  end.
Proof.
  revert done M f w. induction pending as [|j pending IH]; intros done M f w Hs Hreq Hnp; cbn [submit_all]; [by exists M|].
  assert (run_job j ≠ HPanic) as Hj by (apply Hnp; set_solver).
  destruct (run_job j) as [r|e|] eqn:Er; cbn [mbind hres_bind]; [|left; exists j, e; split; [set_solver|done]|done].
  assert (j ∈ required_job_specs plan) as Hjr by (apply Hreq; set_solver).
  destruct (handle_holds M w f (SampleKey_from_job j) r) as (w' & Ei & Hw' & ->);
    [apply Hs|by apply covers_job; [apply Hs|]|].
  change (key_scenario (SampleKey_from_job j)) with (name_of j).
  destruct (disk_write _ _ f) as [f'|] eqn:Ef; cbn [ok_or_else mbind hres_bind]; [|right; by eexists _, _, _].
  specialize (IH (j :: done) _ f' w' (run_step _ _ _ _ _ _ _ Hs Hjr Er Ef w' Ei Hw')).
  specialize (IH ltac:(intros; apply Hreq; set_solver) ltac:(intros; apply Hnp; set_solver)).
  destruct (submit_all run_job f' w' pending) as [[f2 w2]|e|]; [exact IH| |done].
  destruct IH as [(j' & e' & Hj' & Ee)|IH]; [left; exists j', e'; split; [set_solver|done]|by right].
Qed.

(** ** The files *)

Definition produced (j : JobSpec) : option R := match run_job j with HOk r => Some r | _ => None end.

(** The record of a job after the jobs [done]: its own if it was run, a cached one if not. *)
Definition sample (done : list JobSpec) (j : JobSpec) : option R :=
  if bool_decide (j ∈ done) then produced j else cache !! SampleKey_from_job j.

Definition jobs_of (name : text) : list JobSpec := filter (λ j, name_of j = name) (required_job_specs plan).

Lemma run_state_sample done M f w j : run_state done M f w → j ∈ required_job_specs plan →
  M !! SampleKey_from_job j = sample done j.
Proof.
  intros [_ _ Hd Ho _ _] Hj. unfold sample. case_bool_decide as Hin.
  - destruct (Hd j Hin) as (_ & r & Er & ->). unfold produced. by rewrite Er.
  - apply Ho. intros j' Hj' E. apply (SampleKey_inj plan WF) in E; [by subst|done|]. by apply Hd.
Qed.

Lemma file_of_jobs done M f w name : run_state done M f w → file_of M name ≡ₚ omap (sample done) (jobs_of name).
Proof.
  intros Hs. unfold file_of. rewrite (expected_keys_jobs plan WF name), omap_fmap_list. apply reflexive_eq, omap_ext_in.
  intros j [_ Hj]%list_elem_of_filter. by eapply run_state_sample.
Qed.

Lemma omap_all (done : list JobSpec) jobs l : l ≡ₚ omap (sample done) jobs → (∀ j, j ∈ jobs → is_Some (sample done j)) →
  Some <$> l ≡ₚ sample done <$> jobs.
Proof.
  intros -> Hall. apply reflexive_eq. induction jobs as [|j jobs IH]; [done|].
  destruct (Hall j ltac:(set_solver)) as [r Er]. cbn [omap list_omap]. rewrite Er, !fmap_cons, Er. f_equal.
  apply IH. intros; apply Hall; set_solver.
Qed.

(** ** The end of a run *)

Lemma check_missing_nil sts : (∀ st : ScenarioOutputState R, st ∈ sts → missing_keys st = []) → check_missing sts = HOk tt.
Proof.
  induction sts as [|st sts IH]; intros Hm; [done|]. cbn [check_missing]. rewrite (Hm st) by set_solver.
  apply IH. intros; apply Hm; set_solver.
Qed.

Lemma flush_all_clean f sts n : (∀ st, st ∈ sts → so_dirty st = false) → flush_all f sts n = HOk (f, n).
Proof.
  induction sts as [|st sts IH]; intros Hm; [done|]. cbn [flush_all]. unfold out_flush.
  rewrite (Hm st) by set_solver. cbn [negb mbind hres_bind]. apply IH. intros; apply Hm; set_solver.
Qed.

Lemma finish_complete done M f w : run_state done M f w →
  (∀ j, j ∈ required_job_specs plan → is_Some (sample done j)) → writer_finish f w true = HOk (f, ow_write_count w).
Proof.
  intros Hs Hall. pose proof (rs_writer _ _ _ _ Hs) as Hw.
  assert (∀ st, st ∈ ow_scenarios w → missing_keys st = [] ∧ so_dirty st = false) as Hst.
  { intros st (i & Hi)%list_elem_of_lookup. destruct (w_all _ _ Hw i st Hi) as (name & En).
    destruct (w_state _ _ Hw _ _ En) as (st' & Hi' & _ & Hk & Hd & Hr). simplify_eq. split; [|done].
    unfold missing_keys. rewrite Hk. apply filter_none. intros k Hin Hnone.
    pose proof (expected_scenario _ _ Hin) as Hsc. rewrite Hr, decide_True in Hnone by done.
    apply expected_keys_spec in Hin as (j & Hj & _ & ->). rewrite (run_state_sample _ _ _ _ _ Hs Hj) in Hnone.
    destruct (Hall j Hj) as [r Er]. congruence. }
  unfold writer_finish. rewrite check_missing_nil by (intros; by apply Hst). cbn [mbind hres_bind].
  apply flush_all_clean. intros; by apply Hst.
Qed.

Lemma sample_complete pending j : pending ≡ₚ pending_jobs plan cache →
  (∀ j, j ∈ pending → ∃ r, run_job j = HOk r) → j ∈ required_job_specs plan → is_Some (sample (reverse pending) j).
Proof.
  intros Hp Hrun Hj. unfold sample. case_bool_decide as Hin.
  - rewrite elem_of_reverse in Hin. destruct (Hrun j Hin) as [r Er]. unfold produced. rewrite Er. by eexists.
  - destruct (cache !! SampleKey_from_job j) as [r|] eqn:E; [by eexists|]. destruct Hin.
    apply elem_of_reverse. rewrite Hp. unfold pending_jobs. by apply list_elem_of_filter.
Qed.

Lemma sample_reverse done j : sample (reverse done) j = sample done j.
Proof. unfold sample. by rewrite (bool_decide_ext _ (j ∈ done)) by apply elem_of_reverse. Qed.

(** The record of a job when the run is over. *)
Definition final_record (j : JobSpec) : option R :=
  match cache !! SampleKey_from_job j with Some r => Some r | None => produced j end.

Lemma sample_final pending j : pending ≡ₚ pending_jobs plan cache → j ∈ required_job_specs plan →
  sample (reverse pending) j = final_record j.
Proof.
  intros Hp Hj. rewrite sample_reverse. unfold sample, final_record.
  rewrite (bool_decide_ext _ (cache !! SampleKey_from_job j = None)).
  - by destruct (cache !! SampleKey_from_job j).
  - rewrite Hp. unfold pending_jobs. rewrite list_elem_of_filter. naive_solver.
Qed.

Lemma submit_all_runs pending f w f' w' : submit_all run_job f w pending = HOk (f', w') →
  ∀ j, j ∈ pending → ∃ r, run_job j = HOk r.
Proof.
  revert f w. induction pending as [|j pending IH]; intros f w; [by intros _ j []%elem_of_nil|]. cbn [submit_all].
  intros (r & Er & ([f1 w1] & _ & Hs)%hres_bind_ok)%hres_bind_ok j' [->|Hj]%elem_of_cons; [by exists r|by eapply IH].
Qed.

(** C32: a run can be interrupted after any of its jobs: the file of every scenario of which
    a job was run then lists exactly one record for each of the scenario's jobs that was
    run or was cached, and all other files are as they were. *)
Theorem plan_run_checkpoint w done f w' : IncrementalOutputWriter_new plan cache = HOk w →
  (∀ j, j ∈ done → j ∈ required_job_specs plan) → submit_all run_job f0 w done = HOk (f, w') →
  (∀ j, j ∈ done → ∃ l, disk_read f (path (name_of j)) = Some l ∧ l ≡ₚ omap (sample done) (jobs_of (name_of j))) ∧
  (∀ p, (∀ j, j ∈ done → p ≠ path (name_of j)) → disk_read f p = disk_read f0 p).
Proof.
  intros Ew Hreq Es. destruct run_start as (w1 & Ew1 & Hs). rewrite Ew in Ew1. injection Ew1 as <-.
  pose proof (submit_all_state done _ _ _ _ Hs Hreq) as Hd. rewrite Es in Hd.
  destruct Hd as (M & HM); [intros j (r & ->)%(submit_all_runs _ _ _ _ _ Es); done|].
  change (rev_append done []) with (reverse done) in HM. split.
  - intros j Hj. eexists. split; [apply (rs_files _ _ _ _ HM); by apply elem_of_reverse|].
    rewrite (file_of_jobs _ _ _ _ _ HM). apply reflexive_eq, omap_ext_in. intros j' _. apply sample_reverse.
  - intros p Hp. apply (rs_rest _ _ _ _ HM). intros j Hj. apply Hp. by apply elem_of_reverse.
Qed.

(** ** Whole runs *)

Context `{BF : BenchFeatures} (debug : JobSpec → text).
Notation execute := (execute_job_specs_with_timeout plan run_job debug f0 cache).

(** What the files hold after the jobs [pending]. *)
Definition files_complete (pending : list JobSpec) f : Prop :=
  (∀ j, j ∈ pending → ∃ l, disk_read f (path (name_of j)) = Some l ∧ Some <$> l ≡ₚ final_record <$> jobs_of (name_of j)) ∧
  (∀ p, (∀ j, j ∈ pending → p ≠ path (name_of j)) → disk_read f p = disk_read f0 p).

Lemma submit_all_complete pending f w w' : pending ≡ₚ pending_jobs plan cache →
  IncrementalOutputWriter_new plan cache = HOk w → submit_all run_job f0 w pending = HOk (f, w') →
  writer_finish f w' true = HOk (f, ow_write_count w') ∧ files_complete pending f.
Proof.
  intros Hp Ew Es. destruct run_start as (w1 & Ew1 & Hs). rewrite Ew in Ew1. injection Ew1 as <-.
  pose proof (submit_all_runs _ _ _ _ _ Es) as Hrun.
  pose proof (submit_all_state pending _ _ _ _ Hs) as Hd. rewrite Es in Hd. destruct Hd as (M & HM).
  { intros j. rewrite Hp. by intros [_ ?]%list_elem_of_filter. }
  { intros j (r & ->)%Hrun; done. }
  change (rev_append pending []) with (reverse pending) in HM.
  pose proof (λ j, sample_complete pending j Hp Hrun) as Hall. split; [by eapply finish_complete|]. split.
  - intros j Hj. eexists. split; [apply (rs_files _ _ _ _ HM); by apply elem_of_reverse|].
    rewrite (omap_all _ _ _ (file_of_jobs _ _ _ _ _ HM)) by (intros j' [_ ?]%list_elem_of_filter; by apply Hall).
    apply reflexive_eq, list_fmap_ext. intros i j' Hj'. apply sample_final; [done|].
    by apply list_elem_of_lookup_2, list_elem_of_filter in Hj' as [_ ?].
  - intros p Hn. apply (rs_rest _ _ _ _ HM). intros j Hj. apply Hn. by apply elem_of_reverse.
Qed.

Lemma files_complete_perm pending pending' f : pending ≡ₚ pending' → files_complete pending f → files_complete pending' f.
Proof. intros Hp [Hf Hr]. split; [intros j; rewrite <- Hp; apply Hf|intros p Hn; apply Hr; intros j; rewrite Hp; apply Hn]. Qed.

Lemma execute_files pending n f : pending ≡ₚ pending_jobs plan cache → execute pending n = HOk f → files_complete pending f.
Proof.
  intros Hp. unfold execute_job_specs_with_timeout. pose proof (sort_by_Permutation (order_cmp debug (schedule_seed plan)) pending) as Hsort.
  intros ([] & _ & (w & Ew & ([f1 w1] & Es & ([f2 k] & Ef & [= <-])%hres_bind_ok)%hres_bind_ok)%hres_bind_ok)%hres_bind_ok.
  destruct (submit_all_complete _ _ _ _ (transitivity Hsort Hp) Ew Es) as [Ef' Hf].
  rewrite Ef in Ef'. injection Ef' as -> _. by eapply files_complete_perm.
Qed.

(** A job that passes the checks made before anything is run. *)
Definition startable (n : Z) (j : JobSpec) : Prop :=
  (∃ t, thread_budget j = HOk t ∧ t ≤ n) ∧ job_factory_for_spec j = HOk tt.

Lemma check_each_all {A} (g : A → hres unit) l : (∀ x, x ∈ l → g x = HOk tt) → check_each g l = HOk tt.
Proof.
  induction l as [|x l IH]; intros Hg; [done|]. cbn [check_each]. rewrite (Hg x) by left. cbn [mbind hres_bind].
  apply IH. intros y Hy. apply Hg. by right.
Qed.

Lemma execute_outcome pending n : pending ≡ₚ pending_jobs plan cache → (∀ j, j ∈ pending → startable n j) →
  (∀ j, j ∈ pending → run_job j ≠ HPanic) →
  match execute pending n with
  | HOk _ => True
  | HErr _ => (∃ j e, j ∈ pending ∧ run_job j = HErr e) ∨ ∃ p l f1, disk_write p l f1 = None
  | HPanic => False
  end.
Proof.
  intros Hp Hst Hnp. unfold execute_job_specs_with_timeout. rewrite check_each_all; cycle 1.
  { intros j Hj. destruct (Hst j Hj) as [(t & -> & Ht%Z.leb_le) Hf]. cbn [mbind hres_bind]. by rewrite Ht. }
  cbn [mbind hres_bind]. pose proof (sort_by_Permutation (order_cmp debug (schedule_seed plan)) pending) as Hsort.
  revert Hsort. generalize (sort_by (order_cmp debug (schedule_seed plan)) pending) as sorted. intros sorted Hsort.
  destruct run_start as (w & Ew & Hs). rewrite Ew. cbn [mbind hres_bind].
  pose proof (submit_all_state sorted _ _ _ _ Hs) as Hd. destruct (submit_all run_job f0 w sorted) as [[f w']|e|] eqn:Es.
  - cbn [mbind hres_bind]. destruct (submit_all_complete sorted f w w' (transitivity Hsort Hp) Ew Es) as [-> _]. done.
  - cbn [mbind hres_bind]. setoid_rewrite Hsort in Hd. apply Hd; [|done]. intros j. rewrite Hp. by intros [_ ?]%list_elem_of_filter.
  - cbn [mbind hres_bind]. setoid_rewrite Hsort in Hd. apply Hd; [|done]. intros j. rewrite Hp. by intros [_ ?]%list_elem_of_filter.
Qed.

(** C34: contrary to the promise that a narrower plan leaves other samples alone, a cached
    sample that is not one of the plan's is gone from the file of its scenario once a job
    of that scenario was run. *)
Theorem plan_run_forgets n f j l0 k r : execute (pending_jobs plan cache) n = HOk f → j ∈ pending_jobs plan cache →
  disk_read f0 (path (name_of j)) = Some l0 → r ∈ l0 → cache !! k = Some r → key_scenario k = name_of j →
  (∀ j', j' ∈ required_job_specs plan → SampleKey_from_job j' ≠ k ∧ final_record j' ≠ Some r) →
  ∃ l, disk_read f (path (name_of j)) = Some l ∧ r ∉ l.
Proof.
  intros E Hj _ _ _ _ Hr. destruct (execute_files _ _ _ (reflexivity _) E) as [Hf _].
  destruct (Hf j Hj) as (l & Hl & Hperm). exists l. split; [done|]. intros Hin.
  assert (Some r ∈ final_record <$> jobs_of (name_of j)) as (j' & E' & [_ Hj']%list_elem_of_filter)%list_elem_of_fmap.
  { rewrite <- Hperm. apply list_elem_of_fmap. by exists r. }
  by destruct (Hr j' Hj') as [_ []].
Qed.

End run.

(** ** Running a plan *)

Lemma mapM_hres {A B} (g : A → hres B) (P : B → Prop) l : (∀ x, x ∈ l → ∃ y, g x = HOk y ∧ P y) →
  ∃ ys, mapM g l = HOk ys ∧ Forall P ys.
Proof.
  induction l as [|x l IH]; intros Hg; [by exists []|]. cbn [mapM]. destruct (Hg x) as (y & -> & Hy); [left|].
  destruct IH as (ys & -> & Hys); [intros z Hz; apply Hg; by right|]. exists (y :: ys). split; [done|by constructor].
Qed.

Lemma max_le n l : 0 ≤ n → Forall (λ x, x ≤ n) l → foldr Z.max 0 l ≤ n.
Proof. intros Hn. induction 1 as [|x l Hx Hl IH]; cbn [foldr]; lia. Qed.

Section matrix.
Context {F R : Type} `{OD : OutputDisk F R} `{BF : BenchFeatures} (plan : MatrixPlan) (WF : plan_wf plan).
Context (run_job : JobSpec → hres R) (debug : JobSpec → text) (f0 : F) (discovered : list Z) (existing : gmap SampleKey R).

(** The samples that are not measured again. *)
Definition reused : gmap SampleKey R := if reuse_existing plan then existing else ∅.

Notation run := (run_matrix_plan_in_process plan run_job debug f0 discovered (HOk existing) false).

(** The checks made before the first job, all passed. *)
Record run_ready : Prop := {
  ready_policy : ThroughputPolicy_validate (throughput_policy plan) = HOk tt;
  ready_cpus : ∃ ids, selected_plan_core_ids plan discovered = HOk ids ∧
    (allow_unpinned plan = true ∨
     ∀ j t, j ∈ required_job_specs plan → thread_budget j = HOk t → t ≤ Z.of_nat (length ids));
  ready_jobs : ∀ j, j ∈ required_job_specs plan → startable (available_parallelism plan) j;
  ready_items : ∀ j, j ∈ required_job_specs plan →
    ∃ n, total_items (js_items_per_producer j) (producers (js_scenario j)) = HOk n
}.

Lemma run_executes : run_ready →
  run = execute_job_specs_with_timeout plan run_job debug f0 reused (pending_jobs plan reused) (available_parallelism plan).
Proof.
  intros [Hp (ids & Hids & Hcpu) Hj Hi]. unfold run_matrix_plan_in_process. rewrite Hp. cbn [mbind hres_bind].
  rewrite Hids. cbn [mbind hres_bind].
  destruct (mapM_hres thread_budget (λ t, ∃ j, j ∈ required_job_specs plan ∧ thread_budget j = HOk t)
    (required_job_specs plan)) as (bs & -> & Hbs).
  { intros j Hjr. destruct (Hj j Hjr) as [(t & Et & _) _]. exists t. split; [done|by exists j]. }
  cbn [mbind hres_bind].
  destruct (mapM_hres (λ spec, total_items (js_items_per_producer spec) (producers (js_scenario spec))) (λ _, True)
    (required_job_specs plan)) as (ts & -> & _).
  { intros j Hjr. destruct (Hi j Hjr) as [n ?]. by exists n. }
  assert (negb ((Z.of_nat (length ids) <? foldr Z.max 0 bs) && negb (allow_unpinned plan)) = true) as ->.
  { destruct Hcpu as [->|Hcpu]; [by rewrite andb_false_r|].
    assert (foldr Z.max 0 bs ≤ Z.of_nat (length ids)) as Hm.
    { apply max_le; [lia|]. eapply Forall_impl; [exact Hbs|]. intros t (j & Hjr & Et). by apply (Hcpu j t). }
    by rewrite (proj2 (Z.ltb_ge _ _) Hm). }
  cbn [check mbind hres_bind]. rewrite check_each_all by (intros j Hjr; by apply Hj). done.
Qed.

Lemma run_files f : run = HOk f → files_complete plan run_job reused f0 (pending_jobs plan reused) f.
Proof using WF.
  unfold run_matrix_plan_in_process. intros ([] & _ & H)%hres_bind_ok.
  apply hres_bind_ok in H as (ids & _ & H). apply hres_bind_ok in H as (bs & _ & H).
  apply hres_bind_ok in H as ([] & _ & H). apply hres_bind_ok in H as (ts & _ & H).
  apply hres_bind_ok in H as ([] & _ & H). apply (execute_files plan WF run_job reused f0 debug _ _ _ (reflexivity _) H).
Qed.

(** C31: a run that succeeds ends with a file for every scenario it measured, which lists one
    record for each of the scenario's jobs: the sample that was on record if samples are
    reused and there is one, and a new one if not; all other files are as they were.  A
    run whose plan and CPUs pass the first checks does not panic, and fails only when the
    worker or the disk does. *)
Theorem plan_run_complete :
  (∀ f, run = HOk f → files_complete plan run_job reused f0 (pending_jobs plan reused) f) ∧
  (run_ready → (∀ j, j ∈ pending_jobs plan reused → run_job j ≠ HPanic) →
   match run with
   | HOk _ => True
   | HErr _ => (∃ j e, j ∈ pending_jobs plan reused ∧ run_job j = HErr e) ∨ ∃ p l f1, disk_write p l f1 = None
   | HPanic => False
   end).
Proof.
  split; [exact run_files|].
  intros Hr Hnp. rewrite (run_executes Hr). apply (execute_outcome plan WF); [done| |done].
  intros j [_ Hj]%list_elem_of_filter. by apply (ready_jobs Hr).
Qed.

End matrix.

(** ** An example *)

(** Files in memory. *)
#[export] Instance memory_disk (R : Type) : OutputDisk (gmap text (list R)) R.
Proof.
  refine {| disk_write p l f := Some (<[p := l]> f); disk_read f p := f !! p |}.
  - intros p l f f' [= <-]. apply lookup_insert_eq.
  - intros p p' l f f' [= <-] Hp. by apply lookup_insert_ne.
Defined.

(** Two queues and two modes, at one producer and one consumer. *)
Definition example_plan : MatrixPlan :=
  mkPlan PLAN_SCHEMA_VERSION Interleaved Explicit (lit "grace-1") (lit "runs") 4 [] false DEFAULT_SCHEDULE_SEED
    ThroughputPolicy_default None [KSegQueue; KMsQueue] [] default_fastfifo_capacities [] [] [LCrossbeam; LYield] None
    [32] 1 [mkBundle (ScenarioConfig_new 1 1) 1 None [Throughput; Fairness] [1000]] true.

Definition example_job (q : QueueKind) (m : Mode) (batch : option Z) : JobSpec :=
  mkJob (ScenarioConfig_new 1 1) 1 m 1000 q None batch None None None None None.

(** The file of an earlier run: a sample of this plan, and one of a queue that is not. *)
Definition old_file : list Z := [7; 8].
Definition old_cache : gmap SampleKey Z :=
  <[SampleKey_from_job (example_job KMsQueue Fairness None) := 7]>
  (<[SampleKey_from_job (example_job KNaiveFaaQueue Fairness None) := 8]> ∅).
Definition old_disk : gmap text (list Z) := {[ output_path_for_scenario example_plan (sc_name (ScenarioConfig_new 1 1)) := old_file ]}.

Definition example_run (j : JobSpec) : hres Z := HOk (100 + Mode_index (js_mode j) + default 0 (js_batch_size j)).

Lemma example_wf : plan_wf example_plan.
Proof.
  constructor; [|constructor|repeat constructor; unfold usize_max; lia|constructor].
  repeat constructor; cbn; unfold usize_max; lia.
Qed.

Definition example_pending : list JobSpec := pending_jobs example_plan old_cache.

Example example_jobs : required_job_specs example_plan =
  [example_job KSegQueue Throughput None; example_job KSegQueue Throughput (Some 32); example_job KMsQueue Throughput None;
   example_job KSegQueue Fairness None; example_job KMsQueue Fairness None].
Proof. vm_compute. reflexivity. Qed.

(** Nothing optional was compiled in. *)
#[export] Instance no_features : BenchFeatures := {|
  bench_moodycamel := false; bench_fastfifo := false; bench_lfqueue := false; bench_wcq := false; registered_ubq _ := false
|}.

Notation example_result := (run_matrix_plan_in_process example_plan example_run (λ _, []) old_disk [0; 1; 2; 3] (HOk old_cache) false).

Example example_file :
  (f ← example_result;
   HOk (disk_read f (output_path_for_scenario example_plan (sc_name (ScenarioConfig_new 1 1))))) = HOk (Some [103; 7; 100; 132; 100]).
Proof. vm_compute. reflexivity. Qed.

(** Forgets what a computation returns, so that it can be evaluated. *)
Definition is_ok {A} (m : hres A) : bool := match m with HOk _ => true | _ => false end.

Lemma is_ok_ok {A} (m : hres A) : is_ok m = true → ∃ a, m = HOk a.
Proof. destruct m; [by eexists|done..]. Qed.

(** ** Witnesses *)

Lemma plan_run_checkpoint_witness : ∃ w f w',
  IncrementalOutputWriter_new example_plan old_cache = HOk w ∧
  submit_all example_run old_disk w [example_job KMsQueue Throughput None] = HOk (f, w') ∧
  ∃ l, disk_read f (output_path_for_scenario example_plan (sc_name (ScenarioConfig_new 1 1))) = Some l ∧
    l ≡ₚ omap (sample example_run old_cache [example_job KMsQueue Throughput None]) (jobs_of example_plan (sc_name (ScenarioConfig_new 1 1))).
Proof.
  destruct (is_ok_ok (w ← IncrementalOutputWriter_new example_plan old_cache;
    submit_all example_run old_disk w [example_job KMsQueue Throughput None])) as ([f w'] & (w & Hw & Hs)%hres_bind_ok);
    [vm_compute; reflexivity|].
  assert (∀ j, j ∈ [example_job KMsQueue Throughput None] → j ∈ required_job_specs example_plan) as Hreq
    by (intros j ->%list_elem_of_singleton; rewrite example_jobs; do 2 right; left).
  destruct (plan_run_checkpoint example_plan example_wf example_run old_cache old_disk w _ f w' Hw Hreq Hs) as [Hf _].
  exists w, f, w'. split; [exact Hw|]. split; [exact Hs|]. apply (Hf (example_job KMsQueue Throughput None)). left.
Defined.

Lemma plan_run_complete_witness : run_ready example_plan [0; 1; 2; 3] ∧ ∃ f, example_result = HOk f ∧
  files_complete example_plan example_run old_cache old_disk example_pending f.
Proof.
  destruct (plan_run_complete example_plan example_wf example_run (λ _, []) old_disk [0; 1; 2; 3] old_cache) as [Hok Hready].
  assert (run_ready example_plan [0; 1; 2; 3]) as Hr.
  { constructor.
    - reflexivity.
    - exists [0; 1; 2; 3]. split; [vm_compute; reflexivity|right]. rewrite example_jobs. intros j t Hj.
      repeat (apply elem_of_cons in Hj as [->|Hj]; [vm_compute; intros [= <-]; discriminate|]).
      destruct (not_elem_of_nil j Hj).
    - rewrite example_jobs. intros j Hj. repeat (apply elem_of_cons in Hj as [->|Hj];
        [split; [exists 2; split; [vm_compute; reflexivity|vm_compute; discriminate]|vm_compute; reflexivity]|]).
      destruct (not_elem_of_nil j Hj).
    - rewrite example_jobs. intros j Hj. repeat (apply elem_of_cons in Hj as [->|Hj]; [exists 1000; vm_compute; reflexivity|]).
      destruct (not_elem_of_nil j Hj). }
  split; [exact Hr|]. specialize (Hready Hr ltac:(discriminate)).
  destruct example_result as [f|e|] eqn:E; [exists f; split; [reflexivity|exact (Hok f eq_refl)]| |destruct Hready].
  exfalso. destruct Hready as [(j & e' & _ & [=])|(p & l & f & [=])].
Defined.

Lemma plan_run_forgets_witness : ∃ f l,
  execute_job_specs_with_timeout example_plan example_run (λ _, []) old_disk old_cache example_pending 4 = HOk f ∧
  8 ∈ old_file ∧ disk_read f (output_path_for_scenario example_plan (sc_name (ScenarioConfig_new 1 1))) = Some l ∧ 8 ∉ l.
Proof.
  destruct (is_ok_ok (execute_job_specs_with_timeout example_plan example_run (λ _, []) old_disk old_cache example_pending 4)) as (f & E);
    [vm_compute; reflexivity|].
  destruct (plan_run_forgets example_plan example_wf example_run old_cache old_disk (λ _, []) 4 f
    (example_job KSegQueue Fairness None) old_file (SampleKey_from_job (example_job KNaiveFaaQueue Fairness None)) 8 E)
    as (l & Hl & Hr).
  - apply list_elem_of_filter. rewrite example_jobs. split; [vm_compute; reflexivity|do 3 right; left].
  - vm_compute. reflexivity.
  - right. left.
  - vm_compute. reflexivity.
  - reflexivity.
  - rewrite example_jobs. intros j Hj. repeat (apply elem_of_cons in Hj as [->|Hj]; [split; vm_compute; discriminate|]).
    destruct (not_elem_of_nil j Hj).
  - exists f, l. split; [exact E|]. split; [right; left|exact (conj Hl Hr)].
Defined.
