(* ===== verification/HarnessRecord.v ===== *)
(** * The benchmark harness: records, the worker and the reuse of samples (src/src/bench_harness/mod.rs)

    A worker process measures jobs one at a time and answers with records.  The parent
    checks that an answer belongs to its request and that the record belongs to the job,
    stamps it, and stores it.  A later run loads the records that were measured under the
    same protocol and does not repeat their jobs.  Records are modelled without their
    floating-point rates. *)

From Stdlib Require Import Ascii String.
From stdpp Require Import strings.
From S2P Require Import Prelude Prog Text Harness HarnessSpec HarnessPlan HarnessOutput HarnessPlanSpec HarnessOutputSpec.

(** ** Records *)

#[export] Instance ItemPolicy_eq_dec : EqDecision ItemPolicy.
Proof. solve_decision. Defined.
#[export] Instance CorePlacement_eq_dec : EqDecision CorePlacement.
Proof. solve_decision. Defined.
#[export] Instance ThroughputPolicy_eq_dec : EqDecision ThroughputPolicy.
Proof. solve_decision. Defined.

Record MeasurementProtocol := mkProtocol {
  mp_available_parallelism : Z;
  mp_core_placement : CorePlacement;
  mp_affinity_authoritative : bool;
  mp_selected_core_ids : list Z;
  mp_item_policy : ItemPolicy;
  mp_throughput_policy : ThroughputPolicy
}.

#[export] Instance MeasurementProtocol_eq_dec : EqDecision MeasurementProtocol.
Proof. solve_decision. Defined.

Definition MeasurementProtocol_default : MeasurementProtocol :=
  mkProtocol 0 Interleaved false [] Explicit ThroughputPolicy_default.

Definition MeasurementProtocol_from_plan (plan : MatrixPlan) (discovered : list Z) : hres MeasurementProtocol :=
  ids ← selected_plan_core_ids plan discovered;
  HOk (mkProtocol (available_parallelism plan) (core_placement plan) (negb (allow_unpinned plan)) ids (item_policy plan)
         (throughput_policy plan)).

Inductive BenchRecordStatus := Completed | Failed | TimedOut.

#[export] Instance BenchRecordStatus_eq_dec : EqDecision BenchRecordStatus.
Proof. solve_decision. Defined.

Record ThroughputMetrics := mkMetrics {
  tm_requested_items_per_producer : Z;
  tm_pilot_items_per_producer : Z;
  tm_calibration_elapsed_ns : Z;
  tm_warmup_elapsed_ns : Z;
  tm_warmup_rounds : Z;
  tm_handoff_items : Z;
  tm_handoff_elapsed_ns : Z;
  tm_handoff_rounds : Z;
  tm_enqueue_items : Z;
  tm_enqueue_elapsed_ns : Z;
  tm_enqueue_rounds : Z;
  tm_dequeue_items : Z;
  tm_dequeue_elapsed_ns : Z;
  tm_dequeue_rounds : Z;
  tm_affinity_authoritative : bool;
  tm_schedule_seed : Z;
  tm_execution_ordinal : Z;
  tm_requested_queue_capacity : option Z;
  tm_effective_queue_capacity : option Z
}.

Record BenchRecord := mkRecord {
  br_repeat_index : Z;
  br_queue : text;
  br_ubq_label : option text;
  br_mode : text;
  br_batch_size : option Z;
  br_items_per_producer : Z;
  br_total_items : Z;
  br_consumed_items : Z;
  br_elapsed_ns : Z;
  br_written_bytes : option Z;
  br_flush_count : option Z;
  br_push_elapsed_ns : option Z;
  br_pop_elapsed_ns : option Z;
  br_fill_elapsed_ns : option Z;
  br_drain_elapsed_ns : option Z;
  br_status : BenchRecordStatus;
  br_failure_reason : option text;
  br_timeout_ns : option Z;
  br_throughput_metrics : option ThroughputMetrics;
  br_protocol : MeasurementProtocol;
  br_timestamp_unix_ms : Z
}.

Definition record_completed (r : BenchRecord) : bool := bool_decide (br_status r = Completed).

Definition record_queue_name_for_spec (spec : JobSpec) : text :=
  match js_queue spec with KUbq => QueueKind_name (js_queue spec) | _ => job_queue_label spec end.

Definition failed_bench_record (spec : JobSpec) (status : BenchRecordStatus) (reason : text) (elapsed_ns : Z)
  (timeout_ns : option Z) : hres BenchRecord :=
  total ← total_items (js_items_per_producer spec) (producers (js_scenario spec));
  HOk (mkRecord 0 (record_queue_name_for_spec spec) None (Mode_name (js_mode spec)) (js_batch_size spec)
         (js_items_per_producer spec) total 0 elapsed_ns None None None None None None status (Some reason) timeout_ns None
         MeasurementProtocol_default 0).

Definition failed_runtime_bench_record (queue_name : text) (mode : Mode) (scenario : ScenarioConfig) (items_per_producer : Z)
  (batch_size : option Z) (reason : text) (elapsed_ns : Z) : hres BenchRecord :=
  total ← total_items items_per_producer (producers scenario);
  HOk (mkRecord 0 queue_name None (Mode_name mode) batch_size items_per_producer total 0 elapsed_ns None None None None
         None None Failed (Some reason) None None MeasurementProtocol_default 0).

(** ** Messages *)

Definition BENCH_WORKER_PROTOCOL_VERSION : Z := 1.

Inductive WorkerCommand := WRun (spec : JobSpec) | WShutdown.

Record WorkerRequest := mkRequest { wq_protocol_version : Z; wq_request_id : Z; wq_command : WorkerCommand }.

Inductive WorkerResult :=
| RCompleted (record : BenchRecord)
| RFailed (reason : text)
| RShuttingDown
| RProtocolError (reason : text).

Record WorkerResponse := mkResponse { wr_protocol_version : Z; wr_request_id : Z; wr_result : WorkerResult }.

(** JSON, one message per line. *)
Class WorkerCodec := {
  encode_request : WorkerRequest → text;
  decode_request : text → option WorkerRequest;
  encode_response : WorkerResponse → text;
  decode_response : text → option WorkerResponse;
  request_roundtrip : ∀ m, decode_request (encode_request m) = Some m;
  response_roundtrip : ∀ m, decode_response (encode_response m) = Some m
}.

(** ** The worker *)

(** How a job ends inside the worker: with a record, or with a panic and its message. *)
Inductive JobEnd := JobRecord (record : BenchRecord) | JobPanic (message : text).

Section worker.
Context `{WC : WorkerCodec} `{BF : BenchFeatures} (bench : JobSpec → JobEnd).

(** [None]: a panic outside of the job ends the process. *)
Definition job_result (spec : JobSpec) : option WorkerResult :=
  match job_factory_for_spec spec with
  | HOk _ => Some match bench spec with JobRecord record => RCompleted record | JobPanic message => RFailed message end
  | HErr reason => Some (RFailed reason)
  | HPanic => None
  end.

(** One line of input: the answer, and whether the worker stops; [None] if it dies. *)
Definition worker_line (line : text) : option (WorkerResponse * bool) :=
  match decode_request line with
  | None => Some (mkResponse BENCH_WORKER_PROTOCOL_VERSION 0 (RProtocolError (lit "malformed worker request")), false)
  | Some request =>
      if negb (wq_protocol_version request =? BENCH_WORKER_PROTOCOL_VERSION) then
        Some (mkResponse BENCH_WORKER_PROTOCOL_VERSION (wq_request_id request)
           (RProtocolError (lit "worker protocol version mismatch: parent=" ++ show (wq_protocol_version request) ++
              lit ", worker=" ++ show BENCH_WORKER_PROTOCOL_VERSION)), false)
      else
        match wq_command request with
        | WRun spec =>
            result ← job_result spec;
            Some (mkResponse BENCH_WORKER_PROTOCOL_VERSION (wq_request_id request) result, false)
        | WShutdown => Some (mkResponse BENCH_WORKER_PROTOCOL_VERSION (wq_request_id request) RShuttingDown, true)
        end
  end.

(** The lines written for the lines read. *)
Fixpoint run_bench_worker_loop (input : list text) : list text :=
  match input with
  | [] => []
  | line :: input =>
      match worker_line line with
      | None => []
      | Some (response, stop) => encode_response response :: (if stop : bool then [] else run_bench_worker_loop input)
      end
  end.

End worker.

(** ** The parent *)

Inductive WorkerRunOutcome := OCompleted (record : BenchRecord) | OFailed (reason : text) | OTimedOut.

(** What [recv_timeout] on the lines of the worker brings. *)
Inductive Arrival := ALine (line : text) | AReadError (reason : text) | ATimeout | ADisconnected.

Inductive WorkerReceiveError := Exited (reason : text) | Protocol (reason : text).

Section parent.
Context `{WC : WorkerCodec}.

Definition decode_worker_response (line : text) (request_id : Z) : hres WorkerResponse :=
  response ← ok_or_else (decode_response line) (lit "malformed benchmark worker response");
  _ ← check (wr_protocol_version response =? BENCH_WORKER_PROTOCOL_VERSION)
        (lit "worker protocol version mismatch: parent=" ++ show BENCH_WORKER_PROTOCOL_VERSION ++ lit ", worker=" ++
         show (wr_protocol_version response));
  _ ← check (wr_request_id response =? request_id)
        (lit "benchmark worker response id mismatch: expected " ++ show request_id ++ lit ", got " ++ show (wr_request_id response));
  HOk response.

(** The identifier of the request, the line sent, and the next identifier. *)
Definition worker_send (next_request_id : Z) (command : WorkerCommand) : hres (Z * text * Z) :=
  next ← ok_or_else (checked_add next_request_id 1) (lit "benchmark worker request id overflow");
  HOk (next_request_id, encode_request (mkRequest BENCH_WORKER_PROTOCOL_VERSION next_request_id command), next).

(** [Ok(None)] is a timeout. *)
Definition worker_receive (request_id : Z) (arrival : Arrival) : option WorkerResponse + WorkerReceiveError :=
  match arrival with
  | ALine line =>
      match decode_worker_response line request_id with
      | HOk response => inl (Some response)
      | HErr reason => inr (Protocol reason)
      | HPanic => inr (Protocol [])
      end
  | AReadError reason => inr (Exited reason)
  | ATimeout => inl None
  | ADisconnected => inr (Exited (lit "benchmark worker response channel disconnected"))
  end.

Definition expected_queue (expected : JobSpec) : text :=
  if bool_decide (js_queue expected = KUbq) then QueueKind_name (js_queue expected) else job_queue_label expected.

Definition counts_match (expected : JobSpec) (record : BenchRecord) : hres bool :=
  if bool_decide (js_mode expected = Throughput) && record_completed record then
    HOk match br_throughput_metrics record with
        | Some metrics =>
            (tm_requested_items_per_producer metrics =? js_items_per_producer expected) &&
            (tm_handoff_items metrics =? br_total_items record) && (br_total_items record =? br_consumed_items record)
        | None => false
        end
  else if br_items_per_producer record =? js_items_per_producer expected then
    total ← total_items (js_items_per_producer expected) (producers (js_scenario expected));
    HOk (br_total_items record =? total)
  else HOk false.

(** The record belongs to the job. *)
Definition record_accepted (expected : JobSpec) (record : BenchRecord) : hres bool :=
  counts ← counts_match expected record;
  HOk (negb (negb (bool_decide (br_queue record = expected_queue expected)) ||
             negb (bool_decide (br_mode record = Mode_name (js_mode expected))) || negb counts ||
             negb (bool_decide (br_batch_size record = js_batch_size expected)))).

(** [BenchWorker::run_job], given what arrives for the line that is sent. *)
Definition worker_run_job (next_request_id : Z) (arrives : text → Arrival) (spec : JobSpec) : hres WorkerRunOutcome :=
  match worker_send next_request_id (WRun spec) with
  | HErr reason => HOk (OFailed reason)
  | HPanic => HPanic
  | HOk (request_id, line, _) =>
      match worker_receive request_id (arrives line) with
      | inr (Exited reason) => HOk (OFailed reason)
      | inr (Protocol reason) => HErr reason
      | inl None => HOk OTimedOut
      | inl (Some response) =>
          match wr_result response with
          | RCompleted record =>
              ok ← record_accepted spec record;
              if ok : bool then HOk (OCompleted record)
              else HErr (lit "benchmark worker returned a record that does not match request " ++ job_queue_label spec)
          | RFailed reason => HOk (OFailed reason)
          | RProtocolError reason => HErr reason
          | RShuttingDown => HErr (lit "benchmark worker shut down during a job")
          end
      end
  end.

End parent.

(** ** Stamping *)

Section stamp.
Context (plan : MatrixPlan) (protocol : MeasurementProtocol).

(** The [index]th job of a run is over, after [elapsed_ns], at time [now]. *)
Definition outcome_record (spec : JobSpec) (outcome : WorkerRunOutcome) (elapsed_ns timeout_ns : Z) (reason : text) : hres BenchRecord :=
  match outcome with
  | OCompleted record => HOk record
  | OFailed reason => failed_bench_record spec Failed reason elapsed_ns None
  | OTimedOut => failed_bench_record spec TimedOut reason elapsed_ns (Some (Z.min timeout_ns usize_max))
  end.

Definition stamp_metrics (spec : JobSpec) (index : Z) (m : ThroughputMetrics) : ThroughputMetrics :=
  mkMetrics (tm_requested_items_per_producer m) (tm_pilot_items_per_producer m) (tm_calibration_elapsed_ns m)
    (tm_warmup_elapsed_ns m) (tm_warmup_rounds m) (tm_handoff_items m) (tm_handoff_elapsed_ns m) (tm_handoff_rounds m)
    (tm_enqueue_items m) (tm_enqueue_elapsed_ns m) (tm_enqueue_rounds m) (tm_dequeue_items m) (tm_dequeue_elapsed_ns m)
    (tm_dequeue_rounds m) (tm_affinity_authoritative m) (schedule_seed plan) (index + 1)
    (match js_queue spec with KFastFifo => js_fastfifo_capacity spec | KWcq => js_wcq_capacity spec | _ => None end)
    (tm_effective_queue_capacity m).

Definition stamp_record (spec : JobSpec) (index now : Z) (r : BenchRecord) : BenchRecord :=
  mkRecord (js_repeat_index spec) (br_queue r) (js_ubq_label spec) (br_mode r) (br_batch_size r) (br_items_per_producer r)
    (br_total_items r) (br_consumed_items r) (br_elapsed_ns r) (br_written_bytes r) (br_flush_count r) (br_push_elapsed_ns r)
    (br_pop_elapsed_ns r) (br_fill_elapsed_ns r) (br_drain_elapsed_ns r) (br_status r) (br_failure_reason r) (br_timeout_ns r)
    (stamp_metrics spec index <$> br_throughput_metrics r) protocol now.

End stamp.

(** ** Files and reuse *)

Definition RUN_SCHEMA_VERSION : Z := 7.

(** The parts of a file that decide whether its samples are reused. *)
Record OutputFile := mkFile { of_schema_version : Z; of_machine_label : text; of_results : list BenchRecord }.

(** Files that parse; [None] for any other. *)
Class RecordFiles (F : Type) := {
  files_write : text → OutputFile → F → option F;
  files_read : F → text → option OutputFile;
  files_write_read : ∀ p o f f', files_write p o f = Some f' → files_read f' p = Some o;
  files_write_other : ∀ p p' o f f', files_write p o f = Some f' → p' ≠ p → files_read f' p' = files_read f p'
}.

Definition compatible (plan : MatrixPlan) (o : OutputFile) : bool :=
  (of_schema_version o =? RUN_SCHEMA_VERSION) &&
  bool_decide (normalize_machine (of_machine_label o) = normalize_machine (machine_label plan)).

(** The key of a sample in the file of a scenario, if it can be reused. *)
Definition record_key (protocol : MeasurementProtocol) (scenario_name : text) (record : BenchRecord) : option SampleKey :=
  if negb (record_completed record) || negb (bool_decide (br_protocol record = protocol)) then None else
  queue_label ← (if bool_decide (br_queue record = lit "ubq")
                 then (λ label, lit "ubq_" ++ label) <$> br_ubq_label record
                 else Some (br_queue record));
  let requested := match br_throughput_metrics record with
                   | Some metrics => tm_requested_items_per_producer metrics
                   | None => br_items_per_producer record
                   end in
  Some (mkKey scenario_name (br_repeat_index record) (default Throughput (Mode_parse (br_mode record))) requested queue_label
          (br_batch_size record)).

Section load.
Context {F : Type} `{RF : RecordFiles F} (plan : MatrixPlan).

Fixpoint load_records (protocol : MeasurementProtocol) (scenario_name : text) (records : list BenchRecord)
  (index : gmap SampleKey BenchRecord) : gmap SampleKey BenchRecord :=
  match records with
  | [] => index
  | record :: records =>
      load_records protocol scenario_name records
        match record_key protocol scenario_name record with Some key => <[key := record]> index | None => index end
  end.

Fixpoint load_scenarios (protocol : MeasurementProtocol) (f : F) (names : list text) (index : gmap SampleKey BenchRecord) :
  gmap SampleKey BenchRecord :=
  match names with
  | [] => index
  | name :: names =>
      load_scenarios protocol f names
        match files_read f (output_path_for_scenario plan name) with
        | Some parsed => if compatible plan parsed then load_records protocol name (of_results parsed) index else index
        | None => index
        end
  end.

(** The names of the scenarios, each once, in the order of the set. *)
Definition scenario_names : list text := sort_by text_cmp (remove_dups ((λ b, sc_name (pb_scenario b)) <$> bundles plan)).

Definition load_existing_runs (discovered : list Z) (f : F) : hres (gmap SampleKey BenchRecord) :=
  protocol ← MeasurementProtocol_from_plan plan discovered;
  HOk (load_scenarios protocol f scenario_names ∅).

(** The writer of a run: its files have the version of the schema and the label of the plan. *)
Definition plan_disk : OutputDisk F BenchRecord.
Proof.
  refine {|
    disk_write p l f := files_write p (mkFile RUN_SCHEMA_VERSION (machine_label plan) l) f;
    disk_read f p := o ← files_read f p; if compatible plan o then Some (of_results o) else None
  |}.
  - intros p l f f' H. cbn. rewrite (files_write_read _ _ _ _ H). cbn. unfold compatible. cbn. by rewrite bool_decide_true.
  - intros p p' l f f' H Hp. cbn. by rewrite (files_write_other _ _ _ _ _ H Hp).
Defined.

(** A run, with the record of a job as the parent makes it. *)
Context `{BF : BenchFeatures} (debug : JobSpec → text) (discovered : list Z).

Definition run_with_records (run_job : JobSpec → hres BenchRecord) (f : F) : hres F :=
  run_matrix_plan_in_process (H := plan_disk) plan run_job debug f discovered (load_existing_runs discovered f) false.

End load.

(** ** The key of a stamped record *)

Lemma Mode_parse_name m : Mode_parse (Mode_name m) = Some m.
Proof. destruct m; vm_compute; reflexivity. Qed.

(** Labels of the jobs of a plan, and the queue names of their records. *)
Lemma label_not_ubq v : variant_usize v → variant_label v = lit "ubq" → v = VPlain KUbq.
Proof. destruct v as [[]|l|[]|b c|n]; cbn; intros Hv H; try done; by discriminate H. Qed.

Lemma job_of_label sc r m i v b : job_queue_label (job_of sc r m i v b) = variant_label v.
Proof. destruct v as [[]| | | |]; reflexivity. Qed.

(** Workers report throughput metrics of throughput jobs only. *)
Definition metrics_in_throughput (spec : JobSpec) (r : BenchRecord) : Prop :=
  js_mode spec ≠ Throughput → br_throughput_metrics r = None.

(** A job of a plan that can be started: one of UBQ has a label. *)
Definition plan_job (j : JobSpec) : Prop :=
  ∃ r m i v b, variant_usize v ∧ v ≠ VPlain KUbq ∧ j = job_of (js_scenario j) r m i v b.

Lemma record_accepted_true spec r : record_accepted spec r = HOk true →
  counts_match spec r = HOk true ∧ br_queue r = expected_queue spec ∧ br_mode r = Mode_name (js_mode spec) ∧ br_batch_size r = js_batch_size spec.
Proof.
  unfold record_accepted. intros (counts & Hc & [= H])%hres_bind_ok. apply negb_true_iff, orb_false_iff in H as [H H4].
  apply orb_false_iff in H as [H H3]. apply orb_false_iff in H as [H1 H2].
  apply negb_false_iff in H1, H2, H3, H4. apply bool_decide_eq_true in H1, H2, H4. by rewrite H3 in Hc.
Qed.

Lemma counts_requested spec r : counts_match spec r = HOk true → record_completed r = true → metrics_in_throughput spec r →
  match br_throughput_metrics r with Some m => tm_requested_items_per_producer m | None => br_items_per_producer r end =
  js_items_per_producer spec.
Proof.
  unfold counts_match. intros H Hr Hm. rewrite Hr, andb_true_r in H. destruct (bool_decide_reflect (js_mode spec = Throughput)) as [E|E].
  - destruct (br_throughput_metrics r) as [m|]; [|done]. injection H as H. zbool. done.
  - rewrite (Hm E). revert H. zcase; [done|]. by intros [= ].
Qed.

(** A record that was accepted and stamped is found again under the key of its job. *)
Lemma stamped_key plan protocol spec index now r : plan_job spec → record_accepted spec r = HOk true → record_completed r = true →
  metrics_in_throughput spec r →
  record_key protocol (sc_name (js_scenario spec)) (stamp_record plan protocol spec index now r) = Some (SampleKey_from_job spec).
Proof.
  intros (rep & m & i & v & b & Hv & Hnu & Ej) (Hc & Hq & Hmo & Hb)%record_accepted_true Hr Hm.
  pose proof (counts_requested spec r Hc Hr Hm) as Hreq. unfold record_key.
  assert (record_completed (stamp_record plan protocol spec index now r) = true) as -> by exact Hr.
  rewrite bool_decide_true by done. cbn [negb orb stamp_record br_queue br_ubq_label br_throughput_metrics br_items_per_producer br_mode br_batch_size br_repeat_index].
  rewrite Hq, Hmo, Hb, Mode_parse_name. cbn [default].
  assert (match stamp_metrics plan spec index <$> br_throughput_metrics r with
    | Some metrics => tm_requested_items_per_producer metrics | None => br_items_per_producer r end = js_items_per_producer spec) as ->.
  { rewrite <- Hreq. by destruct (br_throughput_metrics r). }
  unfold SampleKey_from_job, expected_queue. destruct (decide (js_queue spec = KUbq)) as [Eq|Eq].
  - rewrite (bool_decide_true (js_queue spec = KUbq)) by done. rewrite Eq. rewrite bool_decide_true by done.
    rewrite Ej in *. rewrite job_of_label. by destruct v as [[]|l|y|b' c|n]; cbn in Eq, Hv.
  - rewrite (bool_decide_false (js_queue spec = KUbq)) by done. rewrite bool_decide_false; [done|].
    intros H. rewrite Ej, job_of_label in H. by apply label_not_ubq in H.
Qed.

(** ** Loading *)

Section loading.
Context (protocol : MeasurementProtocol) (name : text).
Implicit Types (idx : gmap SampleKey BenchRecord).

Lemma load_records_other l idx k : (∀ r, r ∈ l → record_key protocol name r ≠ Some k) →
  load_records protocol name l idx !! k = idx !! k.
Proof.
  revert idx. induction l as [|r l IH]; intros idx H; [done|]. cbn [load_records]. rewrite IH by (intros; apply H; set_solver).
  specialize (H r ltac:(set_solver)). destruct (record_key protocol name r) as [k'|]; [|done]. apply lookup_insert_ne. congruence.
Qed.

Lemma load_records_found l idx k r : load_records protocol name l idx !! k = Some r →
  idx !! k = Some r ∨ r ∈ l ∧ record_key protocol name r = Some k.
Proof.
  revert idx. induction l as [|x l IH]; intros idx H; [by left|]. cbn [load_records] in H. apply IH in H as [H|[H1 H2]]; [|right; set_solver].
  destruct (record_key protocol name x) as [k'|] eqn:E; [|by left]. destruct (decide (k' = k)) as [->|Hne].
  - rewrite lookup_insert_eq in H. injection H as ->. right. split; [set_solver|done].
  - rewrite lookup_insert_ne in H by done. by left.
Qed.

Lemma load_records_unique l idx k r : idx !! k = Some r ∨ r ∈ l → record_key protocol name r = Some k →
  (∀ r', r' ∈ l → record_key protocol name r' = Some k → r' = r) → load_records protocol name l idx !! k = Some r.
Proof.
  revert idx. induction l as [|x l IH]; intros idx Hr Hk Hu; [by destruct Hr as [?|[]%elem_of_nil]|]. cbn [load_records].
  apply IH; [|done|intros; apply Hu; set_solver]. destruct (decide (record_key protocol name x = Some k)) as [E|E].
  - rewrite E. left. rewrite lookup_insert_eq. f_equal. apply Hu; [set_solver|done].
  - destruct Hr as [Hr|[->|Hr]%elem_of_cons]; [left|done|by right].
    destruct (record_key protocol name x) as [k'|]; [|done]. rewrite lookup_insert_ne; [done|congruence].
Qed.

Lemma record_key_scenario r k : record_key protocol name r = Some k → key_scenario k = name.
Proof.
  unfold record_key. destruct (_ || _); [done|]. destruct (if bool_decide _ then _ else _); [|done]. by intros [= <-].
Qed.

End loading.

Section reuse.
Context {F : Type} `{RF : RecordFiles F} `{BF : BenchFeatures} (plan : MatrixPlan) (WF : plan_wf plan).
Context (debug : JobSpec → text) (discovered : list Z) (protocol : MeasurementProtocol).
Context (Hprotocol : MeasurementProtocol_from_plan plan discovered = HOk protocol).
Implicit Types (f : F) (j : JobSpec).
Notation path := (output_path_for_scenario plan).
Notation name_of j := (sc_name (js_scenario j)).
Notation key := SampleKey_from_job.

(** The samples of one scenario. *)
Definition scenario_samples f (name : text) : gmap SampleKey BenchRecord :=
  match disk_read (OutputDisk := plan_disk plan) f (path name) with
  | Some l => load_records protocol name l ∅
  | None => ∅
  end.

Lemma load_records_ext name l idx idx' k : idx !! k = idx' !! k →
  load_records protocol name l idx !! k = load_records protocol name l idx' !! k.
Proof.
  revert idx idx'. induction l as [|r l IH]; intros idx idx' H; [done|]. cbn [load_records]. apply IH.
  destruct (record_key protocol name r) as [k'|]; [|done]. destruct (decide (k' = k)) as [->|Hne]; [by rewrite !lookup_insert_eq|].
  by rewrite !lookup_insert_ne.
Qed.

(** One step of the loop over the scenarios. *)
Definition load_scenario f (name : text) (idx : gmap SampleKey BenchRecord) : gmap SampleKey BenchRecord :=
  match files_read f (path name) with
  | Some parsed => if compatible plan parsed then load_records protocol name (of_results parsed) idx else idx
  | None => idx
  end.

Lemma load_scenario_other f name idx k : key_scenario k ≠ name → load_scenario f name idx !! k = idx !! k.
Proof.
  intros Hn. unfold load_scenario. destruct (files_read f (path name)) as [o|]; [|done]. destruct (compatible plan o); [|done].
  apply load_records_other. intros r _ E. by apply record_key_scenario in E.
Qed.

Lemma load_scenario_self f name idx k : idx !! k = None → load_scenario f name idx !! k = scenario_samples f name !! k.
Proof.
  intros Hi. unfold load_scenario, scenario_samples. cbn [disk_read plan_disk].
  destruct (files_read f (path name)) as [o|]; cbn [mbind option_bind]; [|by rewrite Hi, lookup_empty]. destruct (compatible plan o).
  - apply load_records_ext. by rewrite lookup_empty.
  - by rewrite Hi, lookup_empty.
Qed.

Lemma load_scenarios_other f names idx k : key_scenario k ∉ names → load_scenarios plan protocol f names idx !! k = idx !! k.
Proof.
  revert idx. induction names as [|n names IH]; intros idx H; [done|]. apply not_elem_of_cons in H as [H1 H2]. cbn [load_scenarios].
  rewrite IH by done. by apply (load_scenario_other f n idx k).
Qed.

Lemma load_scenarios_lookup f names idx k : NoDup names → key_scenario k ∈ names → idx !! k = None →
  load_scenarios plan protocol f names idx !! k = scenario_samples f (key_scenario k) !! k.
Proof.
  revert idx. induction names as [|n names IH]; intros idx Hnd Hin Hi; [by apply not_elem_of_nil in Hin|].
  apply NoDup_cons in Hnd as [Hn Hnd]. cbn [load_scenarios]. fold (load_scenario f n idx). destruct (decide (key_scenario k = n)) as [<-|Hne].
  - rewrite load_scenarios_other by done. by apply load_scenario_self.
  - apply IH; [done|set_solver|]. by rewrite load_scenario_other.
Qed.

Lemma scenario_names_elem j : j ∈ required_job_specs plan → name_of j ∈ scenario_names plan.
Proof.
  intros Hj. unfold scenario_names. rewrite sort_by_Permutation, elem_of_remove_dups.
  rewrite required_job_specs_eq, elem_of_remove_dups, list_elem_of_bind in Hj. destruct Hj as (b & Hj & Hb).
  rewrite (bundle_specs_scenario plan b j Hj). apply list_elem_of_fmap. by exists b.
Qed.

(** What is found for a job depends on the file of its scenario. *)
Lemma load_lookup f j c : j ∈ required_job_specs plan → load_existing_runs plan discovered f = HOk c →
  c !! key j = scenario_samples f (name_of j) !! key j.
Proof using WF Hprotocol.
  intros Hj. unfold load_existing_runs. rewrite Hprotocol. cbn [mbind hres_bind]. intros [= <-].
  apply (load_scenarios_lookup f (scenario_names plan) ∅ (key j)); [|by apply scenario_names_elem|by rewrite lookup_empty].
  unfold scenario_names. rewrite sort_by_Permutation. apply NoDup_remove_dups.
Qed.

Lemma sample_key f name k r : scenario_samples f name !! k = Some r → record_key protocol name r = Some k.
Proof.
  unfold scenario_samples. destruct (disk_read _ _); [|by rewrite lookup_empty]. intros [H|[_ ?]]%load_records_found; [|done].
  by rewrite lookup_empty in H.
Qed.

Lemma record_key_None name r : record_completed r = false → record_key protocol name r = None.
Proof. unfold record_key. by intros ->. Qed.

Lemma record_key_completed name r k : record_key protocol name r = Some k → record_completed r = true.
Proof. unfold record_key. by destruct (record_completed r). Qed.

(** ** A run and what the next one finds *)

Context (run_job : JobSpec → hres BenchRecord).
Context (Hrun : ∀ j r, j ∈ required_job_specs plan → plan_job j → run_job j = HOk r → record_completed r = true →
  record_key protocol (name_of j) r = Some (key j)).

(** The sample a run leaves for the next one. *)
Definition left_sample (c0 : gmap SampleKey BenchRecord) j : option BenchRecord :=
  match c0 !! key j with
  | Some r => Some r
  | None => match run_job j with HOk r => if record_completed r then Some r else None | _ => None end
  end.

(** Only jobs that can be started are run. *)
Lemma run_plan_jobs f0 f j : run_with_records plan debug discovered run_job f0 = HOk f → j ∈ required_job_specs plan → plan_job j.
Proof using WF Hprotocol Hrun.
  intros H Hj. unfold run_with_records, run_matrix_plan_in_process in H. apply hres_bind_ok in H as ([] & _ & H).
  apply hres_bind_ok in H as (ids & _ & H). apply hres_bind_ok in H as (bs & _ & H).
  apply hres_bind_ok in H as ([] & _ & H). apply hres_bind_ok in H as (ts & _ & H). cbv iota in H. apply hres_bind_ok in H as ([] & Hc & _).
  assert (job_factory_for_spec j = HOk tt) as Hf.
  { revert Hc Hj. generalize (required_job_specs plan). induction l as [|x l IH]; [set_solver|]. cbn [check_each].
    intros ([] & Hx & Hl)%hres_bind_ok [->|Hj]%elem_of_cons; [done|by apply IH]. }
  destruct (required_job plan WF j Hj) as (_ & r & m & i & v & b & Hv & E). exists r, m, i, v, b. split; [done|]. split; [|done].
  intros ->. rewrite E in Hf. discriminate Hf.
Qed.

Lemma final_key f0 f c0 j r : run_with_records plan debug discovered run_job f0 = HOk f → load_existing_runs plan discovered f0 = HOk c0 →
  j ∈ required_job_specs plan → final_record run_job c0 j = Some r →
  record_key protocol (name_of j) r = (if record_completed r then Some (key j) else None).
Proof using WF Hprotocol Hrun.
  intros Hr Hc Hj Hf. unfold final_record in Hf. destruct (c0 !! key j) as [r0|] eqn:E.
  - injection Hf as ->. rewrite (load_lookup f0 j c0 Hj Hc) in E. apply sample_key in E. by rewrite (record_key_completed _ _ _ E).
  - unfold produced in Hf. destruct (run_job j) as [r1| |] eqn:Ej; try done. injection Hf as ->.
    destruct (record_completed r) eqn:Er; [|by apply record_key_None]. apply Hrun; try done. by apply (run_plan_jobs f0 f j).
Qed.

(** A scenario of which a job was run. *)
Lemma samples_run f0 f c0 j l : run_with_records plan debug discovered run_job f0 = HOk f → load_existing_runs plan discovered f0 = HOk c0 →
  j ∈ required_job_specs plan → Some <$> l ≡ₚ final_record run_job c0 <$> jobs_of plan (name_of j) →
  load_records protocol (name_of j) l ∅ !! key j = left_sample c0 j.
Proof using WF Hprotocol Hrun.
  intros Hr Hc Hj Hl.
  assert (∀ r, r ∈ l → ∃ j', j' ∈ required_job_specs plan ∧ name_of j' = name_of j ∧ final_record run_job c0 j' = Some r) as Hin.
  { intros r Hrl. assert (Some r ∈ final_record run_job c0 <$> jobs_of plan (name_of j)) as H by (rewrite <- Hl; apply list_elem_of_fmap; eauto).
    apply list_elem_of_fmap in H as (j' & -> & H). unfold jobs_of in H. apply list_elem_of_filter in H as [H1 H2]. eauto. }
  assert (∀ r, r ∈ l → record_key protocol (name_of j) r = Some (key j) → final_record run_job c0 j = Some r) as Huniq.
  { intros r Hrl Hk. destruct (Hin r Hrl) as (j' & Hj' & En & Ef). pose proof (final_key f0 f c0 j' r Hr Hc Hj' Ef) as Hk'.
    rewrite En, Hk in Hk'. destruct (record_completed r); [|done]. apply Some_inj in Hk'.
    by rewrite (SampleKey_inj plan WF j j' Hj Hj' Hk'). }
  assert (left_sample c0 j = match final_record run_job c0 j with Some r => if record_completed r then Some r else None | None => None end) as ->.
  { unfold left_sample, final_record, produced. destruct (c0 !! key j) as [r|] eqn:E; [|by destruct (run_job j)].
    rewrite (load_lookup f0 j c0 Hj Hc) in E. apply sample_key in E. by rewrite (record_key_completed _ _ _ E). }
  destruct (final_record run_job c0 j) as [r|] eqn:Ef.
  - pose proof (final_key f0 f c0 j r Hr Hc Hj Ef) as Hk. destruct (record_completed r) eqn:Er.
    + apply load_records_unique; [right|done|intros r' Hr' Hk'; specialize (Huniq r' Hr' Hk'); congruence].
      assert (Some r ∈ Some <$> l) as H; [|apply list_elem_of_fmap in H as (r' & [= ->] & ?); done].
      rewrite Hl. apply list_elem_of_fmap. exists j. split; [done|]. unfold jobs_of. by apply list_elem_of_filter.
    + rewrite load_records_other; [by rewrite lookup_empty|]. intros r' Hr' Hk'. specialize (Huniq r' Hr' Hk'). congruence.
  - rewrite load_records_other; [by rewrite lookup_empty|]. intros r' Hr' Hk'. by specialize (Huniq r' Hr' Hk').
Qed.

Lemma reuse_lookup f0 f c0 c1 j : reuse_existing plan = true → load_existing_runs plan discovered f0 = HOk c0 →
  run_with_records plan debug discovered run_job f0 = HOk f → load_existing_runs plan discovered f = HOk c1 →
  j ∈ required_job_specs plan → c1 !! key j = left_sample c0 j.
Proof using WF Hprotocol Hrun.
  intros Hre Hc0 Hr Hc1 Hj. pose proof Hr as Hr'. unfold run_with_records in Hr'. rewrite Hc0 in Hr'.
  pose proof (run_files (OD := plan_disk plan) plan WF run_job debug f0 discovered c0 f Hr') as [Hf Hrest].
  assert (reused plan c0 = c0) as Hreu by (unfold reused; by rewrite Hre). rewrite Hreu in Hf, Hrest.
  rewrite (load_lookup f j c1 Hj Hc1). unfold scenario_samples.
  destruct (decide (name_of j ∈ (λ j, name_of j) <$> pending_jobs plan c0)) as [Hin|Hout].
  - apply list_elem_of_fmap in Hin as (j' & En & Hj'). destruct (Hf j' Hj') as (l & Hl1 & Hl). rewrite <- En in Hl1, Hl. rewrite Hl1.
    by apply (samples_run f0 f c0).
  - rewrite (Hrest (path (name_of j))).
    + fold (scenario_samples f0 (name_of j)). rewrite <- (load_lookup f0 j c0 Hj Hc0). unfold left_sample.
      destruct (c0 !! key j) eqn:E; [done|]. destruct Hout. apply list_elem_of_fmap. exists j. split; [done|].
      unfold pending_jobs. by apply list_elem_of_filter.
    + intros j' Hj' Ep. assert (j' ∈ required_job_specs plan) as Hreq by (by apply list_elem_of_filter in Hj' as [_ ?]).
      apply (path_inj plan WF) in Ep; [|done..]. apply Hout. rewrite Ep. apply list_elem_of_fmap. by exists j'.
Qed.
End reuse.

(** ** What the parent makes of a job *)

(** The circumstances of a job. *)
Record JobRun := mkJobRun {
  jr_request_id : Z;
  jr_arrives : text → Arrival;
  jr_index : Z;
  jr_now : Z;
  jr_elapsed_ns : Z;
  jr_timeout_ns : Z;
  jr_timeout_reason : text
}.

Section jobs.
Context `{WC : WorkerCodec} (plan : MatrixPlan) (protocol : MeasurementProtocol) (runs : JobSpec → JobRun).

(** One turn of the loop of [execute_job_specs_with_timeout], up to the submission. *)
Definition parent_run_job (spec : JobSpec) : hres BenchRecord :=
  let run := runs spec in
  outcome ← worker_run_job (jr_request_id run) (jr_arrives run) spec;
  record ← outcome_record spec outcome (jr_elapsed_ns run) (jr_timeout_ns run) (jr_timeout_reason run);
  HOk (stamp_record plan protocol spec (jr_index run) (jr_now run) record).

(** The records that workers send. *)
Definition worker_metrics : Prop := ∀ spec record,
  worker_run_job (jr_request_id (runs spec)) (jr_arrives (runs spec)) spec = HOk (OCompleted record) → metrics_in_throughput spec record.

Lemma worker_run_accepted next arrives spec record : worker_run_job next arrives spec = HOk (OCompleted record) →
  record_accepted spec record = HOk true.
Proof.
  unfold worker_run_job. destruct (worker_send next (WRun spec)) as [[[id line] nx]| |]; try done.
  destruct (worker_receive id (arrives line)) as [[response|]|[e|e]]; try done.
  destruct (wr_result response) as [r|e| |e]; try done. destruct (record_accepted spec r) as [[]| |] eqn:E; cbn [mbind hres_bind]; cbv iota; try done.
  intros [= <-]. done.
Qed.

Lemma failed_record_status spec status reason e t r : failed_bench_record spec status reason e t = HOk r → br_status r = status.
Proof. unfold failed_bench_record. intros (n & _ & [= <-])%hres_bind_ok. done. Qed.

Lemma parent_record_key spec r : worker_metrics → plan_job spec → parent_run_job spec = HOk r → record_completed r = true →
  record_key protocol (sc_name (js_scenario spec)) r = Some (SampleKey_from_job spec).
Proof.
  intros Hm Hj (outcome & Ho & (record & Hr & [= <-])%hres_bind_ok)%hres_bind_ok Hc.
  change (record_completed (stamp_record _ _ _ _ _ record)) with (record_completed record) in Hc.
  destruct outcome as [rec|e|]; cbn [outcome_record] in Hr.
  - injection Hr as ->. apply stamped_key; [done|by apply (worker_run_accepted _ _ _ _ Ho)|done|by apply Hm].
  - apply failed_record_status in Hr. unfold record_completed in Hc. rewrite Hr in Hc. by apply bool_decide_eq_true in Hc.
  - apply failed_record_status in Hr. unfold record_completed in Hc. rewrite Hr in Hc. by apply bool_decide_eq_true in Hc.
Qed.

End jobs.

(** C28: samples are reused exactly: after a run that succeeded on the files of earlier runs,
    the next run of the plan finds for each job the sample that was already on record, or
    the record of the job if it was completed; so it repeats exactly the jobs that were
    run and failed or ran out of time. *)
Theorem next_run_repeats_failures {F} `{RF : RecordFiles F} `{BF : BenchFeatures} `{WC : WorkerCodec} (plan : MatrixPlan)
  (debug : JobSpec → text) (discovered : list Z) protocol runs (f0 f : F) c0 :
  plan_wf plan → reuse_existing plan = true → MeasurementProtocol_from_plan plan discovered = HOk protocol →
  worker_metrics runs → load_existing_runs plan discovered f0 = HOk c0 →
  run_with_records plan debug discovered (parent_run_job plan protocol runs) f0 = HOk f →
  ∃ c1, load_existing_runs plan discovered f = HOk c1 ∧
    ∀ j, j ∈ required_job_specs plan →
      c1 !! SampleKey_from_job j = left_sample (parent_run_job plan protocol runs) c0 j ∧
      (j ∈ pending_jobs plan c1 ↔
       j ∈ pending_jobs plan c0 ∧ ∃ r, parent_run_job plan protocol runs j = HOk r ∧ record_completed r = false).
Proof.
  intros WF Hre Hp Hm Hc0 Hr. destruct (load_existing_runs plan discovered f) as [c1| |] eqn:Hc1;
    [|unfold load_existing_runs in Hc1; by rewrite Hp in Hc1..].
  exists c1. split; [done|]. intros j Hj.
  assert (c1 !! SampleKey_from_job j = left_sample (parent_run_job plan protocol runs) c0 j) as Hleft.
  { eapply (reuse_lookup plan WF debug discovered protocol Hp); try done. intros j' r _ Hj' Hr' Hc'. by apply (parent_record_key plan protocol runs). }
  split; [done|]. unfold pending_jobs. rewrite !list_elem_of_filter, Hleft. unfold left_sample.
  destruct (c0 !! SampleKey_from_job j) as [r0|] eqn:E0; [naive_solver|].
  assert (∃ r, parent_run_job plan protocol runs j = HOk r) as [r Er].
  { pose proof Hr as Hr'. unfold run_with_records in Hr'. rewrite Hc0 in Hr'.
    destruct (run_files (OD := plan_disk plan) plan WF _ debug f0 discovered c0 f Hr') as [Hf _].
    assert (reused plan c0 = c0) as Hreu by (unfold reused; by rewrite Hre). rewrite Hreu in Hf.
    destruct (Hf j) as (l & _ & Hl); [unfold pending_jobs; by apply list_elem_of_filter|].
    assert (final_record (parent_run_job plan protocol runs) c0 j ∈ Some <$> l) as (r & Er & _)%list_elem_of_fmap.
    { rewrite Hl. apply list_elem_of_fmap. exists j. split; [done|]. unfold jobs_of. by apply list_elem_of_filter. }
    unfold final_record in Er. rewrite E0 in Er. unfold produced in Er. destruct (parent_run_job plan protocol runs j); [eauto|done..]. }
  rewrite Er. destruct (record_completed r) eqn:Ec; [|naive_solver]. split; [intros [? _]; done|].
  intros [_ (r' & [= <-] & Hx)]. congruence.
Qed.

(** ** A session with the worker *)

Section session.
Context `{WC : WorkerCodec} `{BF : BenchFeatures} (bench : JobSpec → JobEnd).

(** The lines that [run_job] sends for the jobs [specs], from identifier [n] on. *)
Fixpoint session_lines (n : Z) (specs : list JobSpec) : list text :=
  match specs with
  | [] => []
  | spec :: specs => encode_request (mkRequest BENCH_WORKER_PROTOCOL_VERSION n (WRun spec)) :: session_lines (n + 1) specs
  end.

(** What becomes of a job that the worker answers. *)
Definition answered (spec : JobSpec) : hres WorkerRunOutcome :=
  match job_factory_for_spec spec, bench spec with
  | HOk _, JobRecord record =>
      ok ← record_accepted spec record;
      if ok : bool then HOk (OCompleted record)
      else HErr (lit "benchmark worker returned a record that does not match request " ++ job_queue_label spec)
  | HOk _, JobPanic message => HOk (OFailed message)
  | HErr reason, _ => HOk (OFailed reason)
  | HPanic, _ => HPanic
  end.

Lemma worker_line_run n spec : worker_line bench (encode_request (mkRequest BENCH_WORKER_PROTOCOL_VERSION n (WRun spec))) =
  (λ result, (mkResponse BENCH_WORKER_PROTOCOL_VERSION n result, false)) <$> job_result bench spec.
Proof. unfold worker_line. rewrite request_roundtrip. cbn. by destruct (job_result bench spec). Qed.

Lemma session_output n specs i spec : (∀ s, s ∈ specs → job_factory_for_spec s ≠ HPanic) → specs !! i = Some spec →
  ∃ result, job_result bench spec = Some result ∧
    run_bench_worker_loop bench (session_lines n specs) !! i = Some (encode_response (mkResponse BENCH_WORKER_PROTOCOL_VERSION (n + Z.of_nat i) result)).
Proof.
  revert n i. induction specs as [|s specs IH]; intros n i Hnp Hi; [done|]. cbn [session_lines run_bench_worker_loop]. rewrite worker_line_run.
  assert (∃ result, job_result bench s = Some result) as [result Er].
  { specialize (Hnp s ltac:(set_solver)). unfold job_result. destruct (job_factory_for_spec s); [eauto..|done]. }
  rewrite Er. cbn [fmap option_fmap option_map]. destruct i as [|i].
  - injection Hi as ->. exists result. split; [done|]. cbn. by rewrite Z.add_0_r.
  - destruct (IH (n + 1) i) as (res & E1 & E2); [intros; apply Hnp; set_solver|done|]. exists res. split; [done|].
    etrans; [exact E2|]. do 3 f_equal. lia.
Qed.

(** C29: the parent and the worker stay in step: when the parent sends jobs one after the
    other, the worker's answer to each is taken for that job and becomes its record, its
    failure or an error, and the answer to one job is never accepted for another. *)
Theorem worker_session n specs i j spec : (∀ s, s ∈ specs → job_factory_for_spec s ≠ HPanic) → specs !! i = Some spec →
  n + Z.of_nat i < usize_max →
  ∃ line, run_bench_worker_loop bench (session_lines n specs) !! i = Some line ∧
    worker_run_job (n + Z.of_nat i) (λ _, ALine line) spec = answered spec ∧
    (j ≠ i → ∃ e, decode_worker_response line (n + Z.of_nat j) = HErr e).
Proof.
  intros Hnp Hi Hmax. destruct (session_output n specs i spec Hnp Hi) as (result & Er & El). eexists. split; [exact El|]. split.
  - unfold worker_run_job, worker_send, checked_add. rewrite (proj2 (Z.leb_le _ _)) by lia. cbn [ok_or_else mbind hres_bind].
    unfold worker_receive, decode_worker_response. rewrite response_roundtrip. cbn [ok_or_else mbind hres_bind wr_protocol_version wr_request_id].
    rewrite !Z.eqb_refl. cbn [check mbind hres_bind wr_result]. revert Er. unfold job_result, answered.
    destruct (job_factory_for_spec spec); [destruct (bench spec)|..]; intros [= <-]; done.
  - intros Hne. unfold decode_worker_response. rewrite response_roundtrip. cbn [ok_or_else mbind hres_bind wr_protocol_version wr_request_id].
    rewrite Z.eqb_refl, (proj2 (Z.eqb_neq _ _)) by lia. cbn [check mbind hres_bind]. eauto.
Qed.

End session.

(** ** A codec

    Messages as lists of numbers, and numbers in binary. *)

Class Wire (A : Type) := {
  put : A → list Z;
  get : list Z → option (A * list Z);
  get_put : ∀ a k, get (put a ++ k) = Some (a, k)
}.

#[export] Instance wire_Z : Wire Z.
Proof. refine {| put z := [z]; get l := match l with z :: k => Some (z, k) | [] => None end |}. done. Defined.

(** A type that another one holds. *)
Definition wire_iso {A B} `{Wire B} (f : A → B) (g : B → option A) (Hgf : ∀ a, g (f a) = Some a) : Wire A.
Proof.
  refine {| put a := put (f a); get l := '(b, k) ← get l; a ← g b; Some (a, k) |}.
  intros a k. rewrite get_put. cbn. by rewrite Hgf.
Defined.

#[export] Instance wire_prod {A B} `{Wire A, Wire B} : Wire (A * B).
Proof.
  refine {| put '(a, b) := put a ++ put b; get l := '(a, k) ← get l; '(b, k) ← get k; Some ((a, b), k) |}.
  intros [a b] k. rewrite <- app_assoc, get_put. cbn. by rewrite get_put.
Defined.

#[export] Instance wire_sum {A B} `{Wire A, Wire B} : Wire (A + B).
Proof.
  refine {| put x := match x with inl a => 0 :: put a | inr b => 1 :: put b end;
            get l := match l with
                     | 0 :: k => '(a, k) ← get k; Some (inl a, k)
                     | 1 :: k => '(b, k) ← get k; Some (inr b, k)
                     | _ => None
                     end |}.
  intros [a|b] k; cbn; by rewrite get_put.
Defined.

Fixpoint get_n {A} `{Wire A} (n : nat) (l : list Z) : option (list A * list Z) :=
  match n with O => Some ([], l) | S n => '(a, k) ← get l; '(la, k) ← get_n n k; Some (a :: la, k) end.

#[export] Instance wire_list {A} `{Wire A} : Wire (list A).
Proof.
  refine {| put la := Z.of_nat (length la) :: (la ≫= put);
            get l := match l with n :: k => get_n (Z.to_nat n) k | [] => None end |}.
  intros la k. cbn. rewrite Nat2Z.id. induction la as [|a la IH]; [done|]. cbn. rewrite <- app_assoc, get_put. cbn. by rewrite IH.
Defined.

#[export] Instance wire_unit : Wire unit := wire_iso (λ _, 0) (λ _, Some tt) (λ u, match u with tt => eq_refl end).
#[export] Instance wire_bool : Wire bool.
Proof. refine (wire_iso (λ b : bool, if b then 1 else 0) (λ z, Some (z =? 1)) _). by intros []. Defined.
#[export] Instance wire_ascii : Wire ascii.
Proof. refine (wire_iso code (λ z, Some (ascii_of_N (Z.to_N z))) _). intros a. unfold code. by rewrite N2Z.id, ascii_N_embedding. Defined.
#[export] Instance wire_option {A} `{Wire A} : Wire (option A).
Proof.
  refine (wire_iso (λ o : option A, match o with Some a => inr a | None => inl tt end)
    (λ x, Some (match x with inr a => Some a | inl _ => None end)) _). by intros [].
Defined.

(** The position of a constructor. *)
Definition wire_enum {A} `{EqDecision A} (l : list A) (H : ∀ a, a ∈ l) : Wire A.
Proof.
  refine (wire_iso (λ a, Z.of_nat (default O (fst <$> list_find (λ b, b = a) l))) (λ z, l !! Z.to_nat z) _).
  intros a. rewrite Nat2Z.id. destruct (list_find_elem_of (λ b, b = a) l a (H a) eq_refl) as [[i b] E]. rewrite E.
  apply list_find_Some in E as (E & -> & _). exact E.
Defined.

#[export] Instance wire_mode : Wire Mode.
Proof. refine (wire_iso Mode_index Mode_of_index _). by intros []. Defined.
#[export] Instance wire_kind : Wire QueueKind.
Proof.
  refine (wire_enum [KUbq; KLubq; KSegQueue; KConcurrentQueue; KFastFifo; KLfQueue; KWcq; KMutexVecDeque; KMsQueue; KNaiveFaaQueue; KMoodycamel] _).
  intros []; set_solver.
Defined.
#[export] Instance wire_backoff : Wire LubqBackoff.
Proof. refine (wire_enum [LCrossbeam; LYield] _). intros []; set_solver. Defined.
#[export] Instance wire_status : Wire BenchRecordStatus.
Proof. refine (wire_enum [Completed; Failed; TimedOut] _). intros []; set_solver. Defined.
#[export] Instance wire_item_policy : Wire ItemPolicy.
Proof. refine (wire_enum [Explicit; ScenarioScaledV1] _). intros []; set_solver. Defined.
#[export] Instance wire_placement : Wire CorePlacement.
Proof. refine (wire_enum [Interleaved] _). intros []; set_solver. Defined.
#[export] Instance wire_policy : Wire ThroughputPolicy.
Proof. refine (wire_iso (λ p, (warmup_ms p, phase_ms p, pilot_ms p, max_round_items p)) (λ '(a, b, c, d), Some (mkPolicy a b c d)) _). by intros []. Defined.
#[export] Instance wire_scenario : Wire ScenarioConfig.
Proof. refine (wire_iso (λ s, (sc_name s, producers s, consumers s)) (λ '(a, b, c), Some (mkScenario a b c)) _). by intros []. Defined.
#[export] Instance wire_job : Wire JobSpec.
Proof.
  refine (wire_iso (λ j, (js_scenario j, js_repeat_index j, js_mode j, js_items_per_producer j, js_queue j, js_ubq_label j, js_batch_size j,
      js_fastfifo_block_size j, js_fastfifo_capacity j, js_lfqueue_segment_size j, js_wcq_capacity j, js_lubq_backoff j))
    (λ '(a, b, c, d, e, f, g, h, i, j, k, l), Some (mkJob a b c d e f g h i j k l)) _). by intros [].
Defined.
#[export] Instance wire_protocol : Wire MeasurementProtocol.
Proof.
  refine (wire_iso (λ p, (mp_available_parallelism p, mp_core_placement p, mp_affinity_authoritative p, mp_selected_core_ids p,
      mp_item_policy p, mp_throughput_policy p)) (λ '(a, b, c, d, e, f), Some (mkProtocol a b c d e f)) _). by intros [].
Defined.
#[export] Instance wire_metrics : Wire ThroughputMetrics.
Proof.
  refine (wire_iso (λ m, (tm_requested_items_per_producer m, tm_pilot_items_per_producer m, tm_calibration_elapsed_ns m,
      tm_warmup_elapsed_ns m, tm_warmup_rounds m, tm_handoff_items m, tm_handoff_elapsed_ns m, tm_handoff_rounds m,
      tm_enqueue_items m, tm_enqueue_elapsed_ns m, tm_enqueue_rounds m, tm_dequeue_items m, tm_dequeue_elapsed_ns m,
      tm_dequeue_rounds m, tm_affinity_authoritative m, tm_schedule_seed m, tm_execution_ordinal m,
      tm_requested_queue_capacity m, tm_effective_queue_capacity m))
    (λ '(a, b, c, d, e, f, g, h, i, j, k, l, m, n, o, p, q, r, s), Some (mkMetrics a b c d e f g h i j k l m n o p q r s)) _). by intros [].
Defined.
#[export] Instance wire_record : Wire BenchRecord.
Proof.
  refine (wire_iso (λ r, (br_repeat_index r, br_queue r, br_ubq_label r, br_mode r, br_batch_size r, br_items_per_producer r,
      br_total_items r, br_consumed_items r, br_elapsed_ns r, br_written_bytes r, br_flush_count r, br_push_elapsed_ns r,
      br_pop_elapsed_ns r, br_fill_elapsed_ns r, br_drain_elapsed_ns r, br_status r, br_failure_reason r, br_timeout_ns r,
      br_throughput_metrics r, br_protocol r, br_timestamp_unix_ms r))
    (λ '(a, b, c, d, e, f, g, h, i, j, k, l, m, n, o, p, q, r, s, t, u), Some (mkRecord a b c d e f g h i j k l m n o p q r s t u)) _). by intros [].
Defined.
#[export] Instance wire_request : Wire WorkerRequest.
Proof.
  refine (wire_iso (λ m, (wq_protocol_version m, wq_request_id m, match wq_command m with WRun spec => Some spec | WShutdown => None end))
    (λ '(a, b, c), Some (mkRequest a b match c with Some spec => WRun spec | None => WShutdown end)) _). by intros [? ? []].
Defined.
#[export] Instance wire_response : Wire WorkerResponse.
Proof.
  refine (wire_iso (λ m, (wr_protocol_version m, wr_request_id m,
      match wr_result m with RCompleted r => inl r | RFailed e => inr (inl e) | RShuttingDown => inr (inr None) | RProtocolError e => inr (inr (Some e)) end))
    (λ '(a, b, c), Some (mkResponse a b
      match c with inl r => RCompleted r | inr (inl e) => RFailed e | inr (inr None) => RShuttingDown | inr (inr (Some e)) => RProtocolError e end)) _).
  by intros [? ? []].
Defined.

(** Numbers: a sign, the bits, and a mark at the end. *)
Fixpoint put_bits (p : positive) (k : text) : text :=
  match p with xO p => "0"%char :: put_bits p k | xI p => "1"%char :: put_bits p k | xH => "."%char :: k end.

Definition put_number (z : Z) (k : text) : text :=
  match z with Z0 => "z"%char :: k | Zpos p => "+"%char :: put_bits p k | Zneg p => "-"%char :: put_bits p k end.

Fixpoint get_bits (l : text) : option (positive * text) :=
  match l with
  | c :: l =>
      if bool_decide (c = "0"%char) then '(p, k) ← get_bits l; Some (xO p, k)
      else if bool_decide (c = "1"%char) then '(p, k) ← get_bits l; Some (xI p, k)
      else Some (xH, l)
  | [] => None
  end.

Lemma get_put_bits p k : get_bits (put_bits p k) = Some (p, k).
Proof. induction p as [p IH|p IH|]; cbn; rewrite ?IH; done. Qed.

Fixpoint get_numbers (fuel : nat) (l : text) : option (list Z) :=
  match fuel, l with
  | _, [] => Some []
  | O, _ => None
  | S n, c :: l =>
      if bool_decide (c = "z"%char) then cons 0 <$> get_numbers n l
      else '(p, k) ← get_bits l; cons (if bool_decide (c = "+"%char) then Zpos p else Zneg p) <$> get_numbers n k
  end.

Definition put_numbers (l : list Z) : text := foldr put_number [] l.

Lemma get_put_numbers l fuel : (length l ≤ fuel)%nat → get_numbers fuel (put_numbers l) = Some l.
Proof.
  revert fuel. induction l as [|z l IH]; intros fuel Hf; [by destruct fuel|]. destruct fuel as [|fuel]; [cbn in Hf; lia|].
  cbn in Hf. cbn [put_numbers foldr]. fold (put_numbers l). destruct z as [|p|p]; cbn [put_number get_numbers].
  - rewrite bool_decide_true by done. rewrite IH by lia. done.
  - rewrite bool_decide_false by done. rewrite get_put_bits. cbn [mbind option_bind]. rewrite IH by lia. done.
  - rewrite bool_decide_false by done. rewrite get_put_bits. cbn [mbind option_bind]. rewrite IH by lia. done.
Qed.

Lemma length_put_numbers l : (length l ≤ length (put_numbers l))%nat.
Proof.
  induction l as [|z l IH]; [done|]. cbn [put_numbers foldr length]. fold (put_numbers l).
  assert (∀ p k, (length k ≤ length (put_bits p k))%nat) as Hb by (induction p; intros k; cbn; [specialize (IHp k); lia..|lia]).
  destruct z as [|p|p]; cbn; [lia|specialize (Hb p (put_numbers l)); lia..].
Qed.

Definition to_line {A} `{Wire A} (a : A) : text := put_numbers (put a).
Definition of_line {A} `{Wire A} (l : text) : option A := z ← get_numbers (length l) l; fst <$> get z.

Lemma of_to_line {A} `{Wire A} (a : A) : of_line (to_line a) = Some a.
Proof.
  unfold of_line, to_line. rewrite get_put_numbers by apply length_put_numbers. cbn.
  rewrite <- (app_nil_r (put a)), get_put. done.
Qed.

#[export] Instance wire_codec : WorkerCodec := {|
  encode_request := to_line; decode_request := of_line; encode_response := to_line; decode_response := of_line;
  request_roundtrip := of_to_line; response_roundtrip := of_to_line
|}.

(** ** An example *)

#[export] Instance memory_files : RecordFiles (gmap text OutputFile).
Proof.
  refine {| files_write p o f := Some (<[p := o]> f); files_read f p := f !! p |}.
  - intros p o f f' [= <-]. apply lookup_insert_eq.
  - intros p p' o f f' [= <-] Hp. by apply lookup_insert_ne.
Defined.

Definition example_protocol : MeasurementProtocol :=
  mkProtocol 4 Interleaved true [0; 1; 2; 3] Explicit ThroughputPolicy_default.

(** A worker that measures everything but fairness, where it panics. *)
Definition example_bench (spec : JobSpec) : JobEnd :=
  if bool_decide (js_mode spec = Fairness) then JobPanic (lit "boom") else
  let metrics := mkMetrics (js_items_per_producer spec) 4096 7 8 1 4096 9 1 4096 9 1 4096 9 1 true 0 0 None None in
  JobRecord (mkRecord 0 (record_queue_name_for_spec spec) None (Mode_name (js_mode spec)) (js_batch_size spec) 4096 4096 4096 9
    None None None None None None Completed None None
    (if bool_decide (js_mode spec = Throughput) then Some metrics else None) MeasurementProtocol_default 0).

Definition example_runs (spec : JobSpec) : JobRun :=
  mkJobRun 5 (λ line, match run_bench_worker_loop example_bench [line] with l :: _ => ALine l | [] => ADisconnected end) 0 1 2 3 [].

Lemma worker_session_witness : ∃ line,
  run_bench_worker_loop example_bench (session_lines 5 [example_job KSegQueue Throughput None; example_job KMsQueue Throughput None]) !! 1%nat = Some line ∧
  worker_run_job (5 + Z.of_nat 1) (λ _, ALine line) (example_job KMsQueue Throughput None) = answered example_bench (example_job KMsQueue Throughput None) ∧
  (0%nat ≠ 1%nat → ∃ e, decode_worker_response line (5 + Z.of_nat 0) = HErr e).
Proof.
  refine (worker_session example_bench 5 [example_job KSegQueue Throughput None; example_job KMsQueue Throughput None] 1 0
    (example_job KMsQueue Throughput None) _ _ _).
  - intros s [->|[->|[]%elem_of_nil]%elem_of_cons]%elem_of_cons; vm_compute; discriminate.
  - reflexivity.
  - vm_compute; reflexivity.
Defined.

Lemma example_metrics : worker_metrics example_runs.
Proof.
  intros spec record. unfold worker_run_job, worker_send, example_runs. cbn [jr_request_id jr_arrives].
  change (checked_add 5 1) with (Some 6). cbn [ok_or_else mbind hres_bind].
  unfold run_bench_worker_loop. rewrite worker_line_run. unfold job_result.
  destruct (job_factory_for_spec spec); cbn [fmap option_fmap option_map worker_receive]; [| |done];
    unfold decode_worker_response; rewrite response_roundtrip; cbn [ok_or_else mbind hres_bind wr_protocol_version wr_request_id];
    rewrite !Z.eqb_refl; cbn [check mbind hres_bind wr_result]; [|done].
  unfold example_bench, metrics_in_throughput. destruct (bool_decide (js_mode spec = Fairness)); [done|].
  destruct (record_accepted _ _) as [[]| |]; cbn [mbind hres_bind]; cbv iota; try done.
  intros [= <-] Hm. cbn [br_throughput_metrics]. by rewrite bool_decide_false.
Qed.

Definition example_outcome : hres (gmap text OutputFile) :=
  run_with_records example_plan (λ _, []) [0; 1; 2; 3] (parent_run_job example_plan example_protocol example_runs) ∅.

Lemma next_run_repeats_failures_witness : ∃ f c1,
  example_outcome = HOk f ∧ load_existing_runs example_plan [0; 1; 2; 3] f = HOk c1 ∧
  ∀ j, j ∈ required_job_specs example_plan →
    (j ∈ pending_jobs example_plan c1 ↔
     j ∈ pending_jobs (R := BenchRecord) example_plan ∅ ∧
     ∃ r, parent_run_job example_plan example_protocol example_runs j = HOk r ∧ record_completed r = false).
Proof.
  destruct (is_ok_ok example_outcome) as [f Hf]; [vm_compute; reflexivity|].
  destruct (next_run_repeats_failures example_plan (λ _, []) [0; 1; 2; 3] example_protocol example_runs ∅ f ∅
    example_wf eq_refl eq_refl example_metrics eq_refl Hf) as (c1 & Hc & Hj).
  exists f, c1. split; [exact Hf|]. split; [exact Hc|]. exact (λ j H, proj2 (Hj j H)).
Defined.
