(* ===== verification/Throughput.v ===== *)
(** * Adaptive throughput measurement (src/src/bench_harness/mod.rs)

    [adaptive_throughput] finds a round size by doubling, warms up, measures handoff rounds
    and then enqueue and dequeue rounds in turn, each for a given time.  The rounds are
    events here; what they take and find is up to the machine. *)

From Stdlib Require Import Ascii String.
From S2P Require Import Prelude Prog Text Harness HarnessSpec HarnessPlan HarnessRecord.

(** A round that went well; times in nanoseconds. *)
Record TimedRound := mkTimed { tr_elapsed : Z; tr_producer_elapsed : Z; tr_items : Z; tr_affinity_ok : bool }.

(** What the threads of a round report, and what the round makes of it. *)
Definition max_elapsed (l : list Z) : Z := foldr Z.max 0 l.

Definition handoff_round_result (expected : Z) (producer_results : list (Z * bool)) (consumer_results : list (Z * Z * bool)) : hres TimedRound :=
  let consumed := foldr Z.add 0 ((λ r, r.1.2) <$> consumer_results) in
  if negb (consumed =? expected) then
    HErr (lit "handoff integrity mismatch: expected " ++ show expected ++ lit " items, consumed " ++ show consumed)
  else HOk (mkTimed (max_elapsed ((λ r, r.1.1) <$> consumer_results)) (max_elapsed (fst <$> producer_results)) consumed
              (forallb snd producer_results && forallb snd consumer_results)).

Definition enqueue_round_result (items_per_producer producers : Z) (results : list (Z * bool)) : hres TimedRound :=
  let elapsed := max_elapsed (fst <$> results) in
  items ← total_items items_per_producer producers;
  HOk (mkTimed elapsed elapsed items (forallb snd results)).

Definition dequeue_round_result (expected : Z) (results : list (Z * Z * bool)) : hres TimedRound :=
  let consumed := foldr Z.add 0 ((λ r, r.1.2) <$> results) in
  if negb (consumed =? expected) then
    HErr (lit "dequeue integrity mismatch: expected " ++ show expected ++ lit " items, consumed " ++ show consumed)
  else HOk (mkTimed (max_elapsed ((λ r, r.1.1) <$> results)) 0 consumed (forallb snd results)).

(** ** Rounds as events *)

Inductive tpE : Type → Type :=
| HandoffRound (items_per_producer : Z) : tpE (TimedRound + text)
| EnqueueRound (items_per_producer : Z) : tpE (TimedRound + text)
| DequeueRound (expected : Z) : tpE (TimedRound + text).

(** The rounds run so far, and the items in the queue between rounds. *)
Record tpmem := mkTp { tp_rounds : nat; tp_resident : Z }.

(** What a round takes: the time until the last item was received, the time of the producers,
    whether all threads were pinned; or the message of a thread that panicked. *)
Class Machine := machine : nat → (Z * Z * bool) + text.

Section adaptive.
Context `{M : Machine} (fuel : nat) (queue_name : text) (scenario : ScenarioConfig) (policy : ThroughputPolicy).
Context (requested_items_per_producer : Z) (batch_size : option Z) (bounded_capacity : option Z) (allow_unpinned : bool) (seed : Z).

(** A round of as many items as are asked for.  A handoff leaves the queue as it was; a
    dequeue round finds what is in it.  More items than a bounded queue can hold would
    never be sent: that is a fault here. *)
#[export] Instance tp_handler : Handler tpE tpmem := λ X e,
  match e in tpE X return tpmem → reply tpmem X with
  | HandoffRound items => λ s,
      let next := mkTp (S (tp_rounds s)) (tp_resident s) in
      match machine (tp_rounds s) with
      | inl (elapsed, producer_elapsed, pinned) => Next (inl (mkTimed elapsed producer_elapsed (items * producers scenario) pinned)) next
      | inr reason => Next (inr reason) next
      end
  | EnqueueRound items => λ s,
      let resident := tp_resident s + items * producers scenario in
      if match bounded_capacity with Some capacity => capacity <? resident | None => false end then Fault
      else let next := mkTp (S (tp_rounds s)) resident in
        match machine (tp_rounds s) with
        | inl (elapsed, _, pinned) => Next (inl (mkTimed elapsed elapsed (items * producers scenario) pinned)) next
        | inr reason => Next (inr reason) next
        end
  | DequeueRound expected => λ s,
      let next := mkTp (S (tp_rounds s)) 0 in
      match machine (tp_rounds s) with
      | inl (elapsed, _, pinned) =>
          if tp_resident s =? expected then Next (inl (mkTimed elapsed 0 expected pinned)) next
          else Next (inr (lit "dequeue integrity mismatch")) next
      | inr reason => Next (inr reason) next
      end
  end.

(** ** The measurement *)

Definition INITIAL_THROUGHPUT_PILOT_ITEMS_PER_PRODUCER : Z := 4096.
Definition millis (ms : Z) : Z := ms * 1000000.

Definition lift {A} (m : hres A) : prog tpE A := match m with HOk a => Ret a | _ => Panic end.

(** [round.map_err(|reason| (reason, so_far))?], in the style of continuations. *)
Definition round_or {A} (e : tpE (TimedRound + text)) (so_far : Z) (k : TimedRound → prog tpE (A + text * Z)) : prog tpE (A + text * Z) :=
  r ← act e; match r with inl round => k round | inr reason => Ret (inr (reason, wrapping so_far)) end.

(** A loop that may end early with an error. *)
Definition try_loop {L A} (body : L → prog tpE ((L + A) + text * Z)) (l : L) : prog tpE (A + text * Z) :=
  loop fuel (λ l, r ← body l; Ret match r with
                                 | inl (inl l') => inl l'
                                 | inl (inr a) => inr (inl a)
                                 | inr e => inr (inr e)
                                 end) l.

(** [?] *)
Definition tp_and_then {A B} (m : prog tpE (A + text * Z)) (k : A → prog tpE (B + text * Z)) : prog tpE (B + text * Z) :=
  r ← m; match r with inl a => k a | inr e => Ret (inr e) end.

Definition normalize (batch max_per_producer items : Z) : prog tpE Z :=
  o ← lift (batch_aligned_round_items items batch max_per_producer); expect o.

(** Doubling until a round takes long enough or cannot grow: the size, the time, the pinning. *)
Definition calibrate (batch max_per_producer pilot_items : Z) : prog tpE (Z * Z * bool + text * Z) :=
  try_loop (λ '(pilot_items, elapsed, affinity_ok),
    round_or (HandoffRound pilot_items) elapsed (λ round,
      next ← normalize batch max_per_producer (Z.min usize_max (pilot_items * 2));
      let elapsed := elapsed + tr_elapsed round in
      let affinity_ok := affinity_ok && tr_affinity_ok round in
      Ret (inl (if (millis (pilot_ms policy) <=? tr_elapsed round) || (next =? pilot_items)
                then inr (pilot_items, elapsed, affinity_ok) else inl (next, elapsed, affinity_ok))))) (pilot_items, 0, true).

Definition warm_up (pilot_items : Z) (affinity_ok : bool) : prog tpE (Z * Z * bool + text * Z) :=
  try_loop (λ '(elapsed, rounds, affinity_ok),
    if elapsed <? millis (warmup_ms policy) then
      round_or (HandoffRound pilot_items) elapsed (λ round,
        Ret (inl (inl (elapsed + Z.max (tr_elapsed round) 1, rounds + 1, affinity_ok && tr_affinity_ok round))))
    else Ret (inl (inr (elapsed, rounds, affinity_ok)))) (0, 0, affinity_ok).

Definition measure_handoffs (pilot_items : Z) (affinity_ok : bool) : prog tpE (Z * Z * Z * Z * bool + text * Z) :=
  try_loop (λ '(elapsed, items, rounds, producer_max, affinity_ok),
    if elapsed <? millis (phase_ms policy) then
      round_or (HandoffRound pilot_items) elapsed (λ round,
        items ← expect (checked_add items (tr_items round));
        Ret (inl (inl (elapsed + Z.max (tr_elapsed round) 1, items, rounds + 1, Z.max producer_max (tr_producer_elapsed round),
                       affinity_ok && tr_affinity_ok round))))
    else Ret (inl (inr (elapsed, items, rounds, producer_max, affinity_ok)))) (0, 0, 0, 0, affinity_ok).

Definition capacity_limit : Z :=
  match bounded_capacity with Some capacity => saturating_sub capacity (consumers scenario) | None => max_round_items policy end.

Definition ceiling_items (batch pilot_items : Z) : Z :=
  let ceiling_max := capacity_limit / producers scenario in
  if batch =? 1 then Z.max (Z.min pilot_items ceiling_max) 1
  else let candidate := Z.min pilot_items ceiling_max in
    if candidate <? batch then 0 else (candidate / batch) * batch.

(** Enqueue and dequeue rounds in turn: times, items and the number of pairs. *)
Definition measure_ceilings (items total : Z) (affinity_ok : bool) : prog tpE (Z * Z * Z * Z * Z * bool + text * Z) :=
  try_loop (λ '(enqueue_elapsed, dequeue_elapsed, enqueue_items, dequeue_items, rounds, affinity_ok),
    if (enqueue_elapsed <? millis (phase_ms policy)) || (dequeue_elapsed <? millis (phase_ms policy)) then
      round_or (EnqueueRound items) enqueue_elapsed (λ enqueue,
        enqueue_items ← expect (checked_add enqueue_items (tr_items enqueue));
        round_or (DequeueRound total) dequeue_elapsed (λ dequeue,
          dequeue_items ← expect (checked_add dequeue_items (tr_items dequeue));
          Ret (inl (inl (enqueue_elapsed + Z.max (tr_elapsed enqueue) 1, dequeue_elapsed + Z.max (tr_elapsed dequeue) 1,
                         enqueue_items, dequeue_items, rounds + 1,
                         affinity_ok && tr_affinity_ok enqueue && tr_affinity_ok dequeue)))))
    else Ret (inl (inr (enqueue_elapsed, dequeue_elapsed, enqueue_items, dequeue_items, rounds, affinity_ok))))
    (0, 0, 0, 0, 0, affinity_ok).

Definition ns (t : Z) : Z := Z.min t usize_max.

(** The record of a measurement, without the figures in floating point. *)
Definition throughput_record (pilot_items calibration_elapsed warmup_elapsed warmup_rounds handoff_elapsed handoff_items handoff_rounds producer_max
  enqueue_elapsed dequeue_elapsed enqueue_items dequeue_items ceiling_rounds : Z) (affinity_ok : bool) : BenchRecord :=
  mkRecord 0 queue_name None (Mode_name Throughput) batch_size (handoff_items / producers scenario) handoff_items handoff_items
          (ns handoff_elapsed) None None (Some (wrapping producer_max)) (Some (ns handoff_elapsed)) (Some (ns enqueue_elapsed))
          (Some (ns dequeue_elapsed)) Completed None None
          (Some (mkMetrics requested_items_per_producer pilot_items (wrapping calibration_elapsed) (wrapping warmup_elapsed) warmup_rounds
             handoff_items (ns handoff_elapsed) handoff_rounds enqueue_items (ns enqueue_elapsed) ceiling_rounds
             dequeue_items (ns dequeue_elapsed) ceiling_rounds affinity_ok seed 0 None bounded_capacity))
          MeasurementProtocol_default 0.

Definition adaptive_throughput : prog tpE (BenchRecord + text * Z) :=
  let batch := match batch_size with Some b => b | None => 1 end in
  per_producer ← (if producers scenario =? 0 then Panic else Ret (max_round_items policy / producers scenario));
  let max_per_producer := Z.max per_producer 1 in
  first ← lift (batch_aligned_round_items 1 batch max_per_producer);
  if bool_decide (first = None) then
    Ret (inr (lit "batch size " ++ show batch ++ lit " exceeds the per-producer round cap " ++ show max_per_producer, 0))
  else
    pilot_items ← normalize batch max_per_producer INITIAL_THROUGHPUT_PILOT_ITEMS_PER_PRODUCER;
    tp_and_then (calibrate batch max_per_producer pilot_items) (λ '(pilot_items, calibration_elapsed, affinity_ok),
    tp_and_then (warm_up pilot_items affinity_ok) (λ '(warmup_elapsed, warmup_rounds, affinity_ok),
    tp_and_then (measure_handoffs pilot_items affinity_ok) (λ '(handoff_elapsed, handoff_items, handoff_rounds, producer_max, affinity_ok),
    let ceiling := ceiling_items batch pilot_items in
    ceiling_total ← lift (total_items ceiling (producers scenario));
    if (ceiling =? 0) || (capacity_limit <? ceiling_total) then
      Ret (inr (lit "bounded capacity " ++ show (default 0 bounded_capacity) ++ lit " cannot hold one ceiling round plus " ++
                show (consumers scenario) ++ lit " consumer sentinels", 0))
    else
      tp_and_then (measure_ceilings ceiling ceiling_total affinity_ok)
        (λ '(enqueue_elapsed, dequeue_elapsed, enqueue_items, dequeue_items, ceiling_rounds, affinity_ok),
      if negb affinity_ok && negb allow_unpinned then
        Ret (inr (lit "one or more benchmark workers could not be pinned to the requested CPU", wrapping handoff_elapsed))
      else
        Ret (inl (throughput_record pilot_items calibration_elapsed warmup_elapsed warmup_rounds handoff_elapsed handoff_items handoff_rounds producer_max
          enqueue_elapsed dequeue_elapsed enqueue_items dequeue_items ceiling_rounds affinity_ok)))))).

Definition bench_throughput_with_queue_variant : prog tpE BenchRecord :=
  r ← adaptive_throughput;
  match r with
  | inl record => Ret record
  | inr (reason, elapsed_ns) =>
      lift (failed_runtime_bench_record queue_name Throughput scenario requested_items_per_producer batch_size reason elapsed_ns)
  end.

End adaptive.

(** ** Round sizes *)

Definition aligned (batch max_per_producer items : Z) : Prop :=
  (batch | items) ∧ 0 < items ≤ max_per_producer / batch * batch.

Lemma aligned_le batch max_per_producer items : 0 < batch → 0 ≤ max_per_producer → aligned batch max_per_producer items →
  items ≤ max_per_producer.
Proof. intros Hb Hm [_ H]. pose proof (Z.mul_div_le max_per_producer batch Hb). lia. Qed.

Lemma batch_aligned_spec items batch max_per_producer : 0 < batch → 0 ≤ max_per_producer ≤ usize_max →
  0 < max_per_producer / batch * batch →
  ∃ v, batch_aligned_round_items items batch max_per_producer = HOk (Some v) ∧ aligned batch max_per_producer v ∧
    (items ≤ v ∨ v = max_per_producer / batch * batch).
Proof.
  intros Hb Hm Hcap. unfold batch_aligned_round_items. rewrite (proj2 (Z.eqb_neq _ _)) by lia. rewrite (proj2 (Z.ltb_lt _ _)) by lia.
  set (cap := max_per_producer / batch * batch) in *. eexists. split; [done|].
  assert (cap ≤ max_per_producer) by (unfold cap; pose proof (Z.mul_div_le max_per_producer batch Hb); lia).
  pose proof (div_ceil_spec (Z.max items 1) batch Hb) as Hd. set (d := div_ceil (Z.max items 1) batch) in *.
  assert (Z.min (Z.min usize_max (d * batch)) cap = Z.min (d * batch) cap) as -> by lia. split.
  - split; [|nia]. destruct (Z.min_spec (d * batch) cap) as [[_ ->]|[_ ->]]; [exists d; lia|exists (max_per_producer / batch); done].
  - lia.
Qed.

(** ** Loops *)

Section rules.
Context `{M : Machine} (fuel : nat) (scenario : ScenarioConfig) (bounded_capacity : option Z).
Notation P := (producers scenario).
#[local] Existing Instance tp_handler.
Notation wpt := (wp (H := tp_handler scenario bounded_capacity)).
Context (Hmachine : ∀ n e p b, machine n = inl (e, p, b) → 0 ≤ e).

Lemma wp_try_loop {L A} (I : L → tpmem → Prop) (m : L → nat) (body : L → prog tpE ((L + A) + text * Z)) l s (Q : A + text * Z → tpmem → Prop) :
  I l s → (m l < fuel)%nat →
  (∀ l s, I l s → wpt (body l) s (λ r s', match r with
     | inl (inl l') => I l' s' ∧ (m l' < m l)%nat
     | inl (inr a) => Q (inl a) s'
     | inr e => Q (inr e) s'
     end)) → wpt (try_loop fuel body l) s Q.
Proof.
  intros HI Hm Hb. unfold try_loop. apply (wp_loop I m); [done..|]. intros l1 s1 H1. apply wp_bind.
  eapply wp_mono; [by apply Hb|]. intros [[l'|a]|e] s2 H2; by apply wp_ret.
Qed.

Lemma wp_tp_and_then {A B} (m : prog tpE (A + text * Z)) (k : A → prog tpE (B + text * Z)) s (Q : B + text * Z → tpmem → Prop) :
  wpt m s (λ r s', match r with inl a => wpt (k a) s' Q | inr e => Q (inr e) s' end) → wpt (tp_and_then m k) s Q.
Proof. intros H. unfold tp_and_then. apply wp_bind. eapply wp_mono; [exact H|]. intros [a|e] s' H'; [done|by apply wp_ret]. Qed.

Lemma wp_handoff {A} items so_far (k : TimedRound → prog tpE (A + text * Z)) s (Q : A + text * Z → tpmem → Prop) :
  (∀ round s', tr_items round = items * P → 0 ≤ tr_elapsed round → tp_resident s' = tp_resident s → wpt (k round) s' Q) →
  (∀ e s', Q (inr e) s') → wpt (round_or (HandoffRound items) so_far k) s Q.
Proof using Hmachine.
  intros Hk He. unfold round_or. destruct (machine (tp_rounds s)) as [[[e p] b]|reason] eqn:E.
  - eapply wp_act_bind; [cbn [handle tp_handler]; by rewrite E|]. apply Hk; [done|by eapply Hmachine|done].
  - eapply wp_act_bind; [cbn [handle tp_handler]; by rewrite E|]. apply wp_ret, He.
Qed.

Lemma wp_enqueue {A} items so_far (k : TimedRound → prog tpE (A + text * Z)) s (Q : A + text * Z → tpmem → Prop) :
  (∀ c, bounded_capacity = Some c → tp_resident s + items * P ≤ c) →
  (∀ round s', tr_items round = items * P → 0 ≤ tr_elapsed round → tp_resident s' = tp_resident s + items * P → wpt (k round) s' Q) →
  (∀ e s', Q (inr e) s') → wpt (round_or (EnqueueRound items) so_far k) s Q.
Proof using Hmachine.
  intros Hc Hk He. unfold round_or.
  assert (match bounded_capacity with Some c => c <? tp_resident s + items * P | None => false end = false) as Hcap.
  { destruct bounded_capacity as [c|]; [|done]. apply Z.ltb_ge. by apply Hc. }
  destruct (machine (tp_rounds s)) as [[[e p] b]|reason] eqn:E.
  - eapply wp_act_bind; [cbn [handle tp_handler]; by rewrite Hcap, E|]. apply Hk; [done|by eapply Hmachine|done].
  - eapply wp_act_bind; [cbn [handle tp_handler]; by rewrite Hcap, E|]. apply wp_ret, He.
Qed.

Lemma wp_dequeue {A} expected so_far (k : TimedRound → prog tpE (A + text * Z)) s (Q : A + text * Z → tpmem → Prop) :
  tp_resident s = expected →
  (∀ round s', tr_items round = expected → 0 ≤ tr_elapsed round → tp_resident s' = 0 → wpt (k round) s' Q) →
  (∀ e s', Q (inr e) s') → wpt (round_or (DequeueRound expected) so_far k) s Q.
Proof using Hmachine.
  intros Hr Hk He. unfold round_or. destruct (machine (tp_rounds s)) as [[[e p] b]|reason] eqn:E.
  - eapply wp_act_bind; [cbn [handle tp_handler]; by rewrite E, Hr, Z.eqb_refl|]. apply Hk; [done|by eapply Hmachine|done].
  - eapply wp_act_bind; [cbn [handle tp_handler]; by rewrite E|]. apply wp_ret, He.
Qed.

End rules.

(** ** The phases *)

Section phases.
Context `{M : Machine} (fuel : nat) (queue_name : text) (scenario : ScenarioConfig) (policy : ThroughputPolicy).
Context (requested : Z) (batch_size : option Z) (bounded_capacity : option Z) (allow_unpinned : bool) (seed : Z).
Notation P := (producers scenario).
Notation wpt := (wp (H := tp_handler scenario bounded_capacity)).
Notation batch := (match batch_size with Some b => b | None => 1 end).
Notation max_per := (Z.max (max_round_items policy / P) 1).
Notation warm := (millis (warmup_ms policy)).
Notation phase := (millis (phase_ms policy)).
Context (Hmachine : ∀ n e p b, machine n = inl (e, p, b) → 0 ≤ e).

(** The most items in a round. *)
Definition round_cap : Z := Z.max (max_round_items policy) P.

(** A policy and a scenario that make sense; the items of a phase can be counted. *)
Record measurable : Prop := {
  ms_producers : 0 < P;
  ms_round : 0 < max_round_items policy ≤ usize_max;
  ms_times : 0 ≤ warm ∧ 0 ≤ phase;
  ms_batch : 0 < batch;
  ms_count : (phase + 1) * round_cap ≤ usize_max;
  ms_consumers : 0 ≤ consumers scenario;
  ms_fuel : (Z.to_nat (max_round_items policy) + Z.to_nat warm + Z.to_nat phase + 1 < fuel)%nat
}.
Context (HM : measurable).

Lemma max_per_bounds : 0 < max_per ≤ usize_max ∧ max_per ≤ max_round_items policy ∧ max_per * P ≤ round_cap.
Proof using HM.
  destruct HM as [Hp Hr Ht Hb Hc Hco Hf]. pose proof (Z.div_mod (max_round_items policy) P ltac:(lia)) as Hd.
  pose proof (Z.mod_pos_bound (max_round_items policy) P Hp) as Hm. pose proof (Z.div_pos (max_round_items policy) P ltac:(lia) Hp).
  assert (max_round_items policy / P ≤ max_round_items policy) by (apply Z.div_le_upper_bound; nia).
  split; [lia|]. split; [lia|]. unfold round_cap. destruct (Z.max_spec (max_round_items policy / P) 1) as [[_ ->]|[_ ->]]; lia.
Qed.

Lemma pilot_bounds pilot : aligned batch max_per pilot → 0 < pilot * P ≤ round_cap ∧ pilot ≤ max_per.
Proof using HM.
  intros Ha. pose proof max_per_bounds as (H1 & H2 & H3). pose proof (aligned_le batch max_per pilot (ms_batch HM) ltac:(lia) Ha).
  destruct Ha as [_ Ha]. pose proof (ms_producers HM). split; [nia|done].
Qed.

Lemma calibrate_ok pilot0 s : aligned batch max_per pilot0 → tp_resident s = 0 →
  wpt (calibrate fuel policy batch max_per pilot0) s
    (λ r s', match r with inl (pilot, _, _) => aligned batch max_per pilot ∧ tp_resident s' = 0 | inr _ => True end).
Proof using HM Hmachine.
  intros H0 Hs. unfold calibrate. pose proof max_per_bounds as (H1 & H2 & H3). set (cap := max_per / batch * batch).
  apply (wp_try_loop fuel scenario bounded_capacity (λ '(p, _, _) s, aligned batch max_per p ∧ tp_resident s = 0)
    (λ '(p, _, _), Z.to_nat (cap - p))); [done| |].
  { pose proof (ms_fuel HM). destruct H0 as [_ H0]. assert (cap ≤ max_per) by (unfold cap; pose proof (Z.mul_div_le max_per batch (ms_batch HM)); lia). lia. }
  intros [[p e] b] s1 [Ha Hr]. apply (wp_handoff scenario bounded_capacity Hmachine); [|done]. intros round s2 Hi He Hr2.
  assert (0 < cap) as Hcap by (destruct Ha as [_ Ha]; fold cap in Ha; lia).
  destruct (batch_aligned_spec (Z.min usize_max (p * 2)) batch max_per (ms_batch HM) ltac:(lia) Hcap) as (v & Ev & Hv & Hgrow). fold cap in Hgrow.
  unfold normalize. rewrite Ev. cbn [lift expect]. change (Ret ?a ≫= ?f) with (f a). cbv beta.
  change (Ret ?a ≫= ?f) with (f a). cbv beta. apply wp_ret.
  destruct ((millis (pilot_ms policy) <=? tr_elapsed round) || (v =? p)) eqn:Estop; [split; [done|congruence]|].
  apply orb_false_iff in Estop as [_ Hne]. zbool. split; [split; [done|congruence]|].
  pose proof (aligned_le batch max_per p (ms_batch HM) ltac:(lia) Ha). destruct Ha as [_ Ha], Hv as [_ Hv]. fold cap in Ha, Hv.
  assert (p < v); [|lia]. destruct Hgrow as [?| ->]; lia.
Qed.

Lemma warm_up_ok pilot aff s : tp_resident s = 0 →
  wpt (warm_up fuel policy pilot aff) s (λ r s', match r with inl (e, _, _) => warm ≤ e ∧ tp_resident s' = 0 | inr _ => True end).
Proof using HM Hmachine.
  intros Hs. unfold warm_up.
  apply (wp_try_loop fuel scenario bounded_capacity (λ '(e, _, _) s, 0 ≤ e ∧ tp_resident s = 0) (λ '(e, _, _), Z.to_nat (warm - e))); [done| |].
  { pose proof (ms_fuel HM). lia. }
  intros [[e n] b] s1 [He Hr]. zcase; [|apply wp_ret; done].
  apply (wp_handoff scenario bounded_capacity Hmachine); [|done]. intros round s2 Hi Hel Hr2. apply wp_ret. split; [split; [lia|congruence]|lia].
Qed.

Lemma measure_handoffs_ok pilot aff s : aligned batch max_per pilot → tp_resident s = 0 →
  wpt (measure_handoffs fuel policy pilot aff) s (λ r s', match r with
    | inl (e, items, rounds, _, _) => phase ≤ e ∧ 0 ≤ rounds ∧ items = rounds * (pilot * P) ∧ tp_resident s' = 0
    | inr _ => True
    end).
Proof using HM Hmachine.
  intros Ha Hs. unfold measure_handoffs. destruct (pilot_bounds pilot Ha) as [Hpp _]. pose proof (ms_count HM) as Hcount. pose proof (ms_times HM) as [_ Hph].
  apply (wp_try_loop fuel scenario bounded_capacity
    (λ '(e, items, rounds, _, _) s, 0 ≤ rounds ≤ e ∧ rounds ≤ phase ∧ items = rounds * (pilot * P) ∧ tp_resident s = 0)
    (λ '(e, _, _, _, _), Z.to_nat (phase - e))); [split; [lia|]; split; [lia|done]| |].
  { pose proof (ms_fuel HM). lia. }
  intros [[[[e items] rounds] pm] b] s1 (Hre & Hrp & Hit & Hr). zcase; [|apply wp_ret; repeat split; try done; lia].
  apply (wp_handoff scenario bounded_capacity Hmachine); [|done]. intros round s2 Hi Hel Hr2.
  unfold checked_add. rewrite Hi, (proj2 (Z.leb_le _ _)) by nia. cbn [expect]. change (Ret ?a ≫= ?f) with (f a). cbv beta.
  apply wp_ret. split; [|lia]. repeat split; try lia.
Qed.

Lemma measure_ceilings_ok items aff s : 0 < items * P ≤ round_cap → (∀ c, bounded_capacity = Some c → items * P ≤ c) → tp_resident s = 0 →
  wpt (measure_ceilings fuel policy items (items * P) aff) s (λ r s', match r with
    | inl (e, d, ei, di, rounds, _) =>
        phase ≤ e ∧ phase ≤ d ∧ 0 ≤ rounds ∧ ei = rounds * (items * P) ∧ di = ei ∧ tp_resident s' = 0
    | inr _ => True
    end).
Proof using HM Hmachine.
  intros Hip Hcap Hs. unfold measure_ceilings. pose proof (ms_count HM) as Hcount. pose proof (ms_times HM) as [_ Hph].
  apply (wp_try_loop fuel scenario bounded_capacity
    (λ '(e, d, ei, di, rounds, _) s, 0 ≤ rounds ≤ e ∧ rounds ≤ d ∧ rounds ≤ phase ∧ ei = rounds * (items * P) ∧ di = ei ∧ tp_resident s = 0)
    (λ '(e, d, _, _, rounds, _), Z.to_nat (phase - rounds))); [repeat split; try lia; done| |].
  { pose proof (ms_fuel HM). lia. }
  intros [[[[[e d] ei] di] rounds] b] s1 (Hre & Hrd & Hrp & Hei & Hdi & Hr).
  destruct ((e <? phase) || (d <? phase)) eqn:Ego; [|apply orb_false_iff in Ego as [? ?]; zbool; apply wp_ret; repeat split; try done; lia].
  assert (rounds < phase) by (apply orb_true_iff in Ego as [?|?]; zbool; lia).
  apply (wp_enqueue scenario bounded_capacity Hmachine); [intros c Hc; rewrite Hr; by apply Hcap| |done]. intros enq s2 Hi Hel Hr2.
  assert (checked_add ei (tr_items enq) = Some (ei + items * P)) as -> by (unfold checked_add; rewrite Hi, (proj2 (Z.leb_le _ _)) by nia; done).
  cbn [expect]. change (Ret ?a ≫= ?f) with (f a). cbv beta.
  apply (wp_dequeue scenario bounded_capacity Hmachine); [lia| |done]. intros deq s3 Hi3 Hel3 Hr3.
  assert (checked_add di (tr_items deq) = Some (di + items * P)) as -> by (unfold checked_add; rewrite Hi3, (proj2 (Z.leb_le _ _)) by nia; done).
  cbn [expect]. change (Ret ?a ≫= ?f) with (f a). cbv beta.
  apply wp_ret. repeat split; try lia.
Qed.

(** ** The whole measurement *)

Lemma ceiling_bounds pilot : aligned batch max_per pilot → ceiling_items scenario policy bounded_capacity batch pilot ≠ 0 →
  (batch | ceiling_items scenario policy bounded_capacity batch pilot) ∧ 0 < ceiling_items scenario policy bounded_capacity batch pilot ≤ pilot.
Proof using HM.
  intros Ha. unfold ceiling_items. pose proof (ms_batch HM) as Hb. destruct Ha as [_ Ha].
  set (m := capacity_limit scenario policy bounded_capacity / P).
  zcase; [intros _; split; [rewrite e; apply Z.divide_1_l|lia]|]. zcase; [done|]. intros _.
  pose proof (Z.mul_div_le (Z.min pilot m) batch Hb). split; [by exists (Z.min pilot m / batch)|].
  assert (0 < Z.min pilot m / batch) by (apply Z.div_str_pos; lia). nia.
Qed.

(** What a record of a measurement says. *)
Definition measured (r : BenchRecord) : Prop :=
  ∃ m, br_throughput_metrics r = Some m ∧ br_status r = Completed ∧ br_queue r = queue_name ∧ br_mode r = Mode_name Throughput ∧
    br_batch_size r = batch_size ∧
    tm_requested_items_per_producer m = requested ∧ aligned batch max_per (tm_pilot_items_per_producer m) ∧
    tm_handoff_items m = tm_handoff_rounds m * (tm_pilot_items_per_producer m * P) ∧
    br_total_items r = tm_handoff_items m ∧ br_consumed_items r = tm_handoff_items m ∧
    ns phase ≤ br_elapsed_ns r ∧ tm_handoff_elapsed_ns m = br_elapsed_ns r ∧
    ns phase ≤ tm_enqueue_elapsed_ns m ∧ br_fill_elapsed_ns r = Some (tm_enqueue_elapsed_ns m) ∧
    ns phase ≤ tm_dequeue_elapsed_ns m ∧ br_drain_elapsed_ns r = Some (tm_dequeue_elapsed_ns m) ∧
    (∃ warmed, warm ≤ warmed ∧ tm_warmup_elapsed_ns m = wrapping warmed) ∧
    tm_dequeue_rounds m = tm_enqueue_rounds m ∧
    ∃ ceiling, (batch | ceiling) ∧ 0 < ceiling ≤ tm_pilot_items_per_producer m ∧
      (∀ c, bounded_capacity = Some c → ceiling * P ≤ saturating_sub c (consumers scenario)) ∧
      tm_enqueue_items m = tm_enqueue_rounds m * (ceiling * P) ∧ tm_dequeue_items m = tm_enqueue_items m.

Lemma adaptive_ok s : tp_resident s = 0 →
  wpt (adaptive_throughput fuel queue_name scenario policy requested batch_size bounded_capacity allow_unpinned seed) s
    (λ r s', match r with inl record => measured record ∧ tp_resident s' = 0 | inr _ => True end).
Proof using HM Hmachine.
  intros Hs. unfold adaptive_throughput. pose proof (ms_producers HM) as Hp. pose proof (ms_batch HM) as Hb.
  pose proof max_per_bounds as (H1 & H2 & H3). rewrite (proj2 (Z.eqb_neq P 0)) by lia. change (Ret ?a ≫= ?f) with (f a). cbv beta.
  destruct (decide (0 < max_per / batch * batch)) as [Hcap|Hcap].
  2: { unfold batch_aligned_round_items. rewrite (proj2 (Z.eqb_neq batch 0)) by lia. rewrite (proj2 (Z.ltb_ge _ _)) by lia. cbn [lift].
       change (Ret ?a ≫= ?f) with (f a). cbv beta. rewrite bool_decide_true by done. by apply wp_ret. }
  destruct (batch_aligned_spec 1 batch max_per Hb ltac:(lia) Hcap) as (v1 & -> & _). cbn [lift]. change (Ret ?a ≫= ?f) with (f a). cbv beta.
  rewrite bool_decide_false by done. unfold normalize.
  destruct (batch_aligned_spec INITIAL_THROUGHPUT_PILOT_ITEMS_PER_PRODUCER batch max_per Hb ltac:(lia) Hcap) as (v0 & -> & Hv0 & _).
  cbn [lift expect]. change (Ret ?a ≫= ?f) with (f a). cbv beta. change (Ret ?a ≫= ?f) with (f a). cbv beta.
  apply wp_tp_and_then. eapply wp_mono; [by apply calibrate_ok|]. intros [[[pilot ce] b1]|e1] s1; [intros [Ha Hr1]|done].
  apply wp_tp_and_then. eapply wp_mono; [by apply warm_up_ok|]. intros [[[we wr] b2]|e2] s2; [intros [Hwe Hr2]|done].
  apply wp_tp_and_then. eapply wp_mono; [by apply (measure_handoffs_ok pilot)|].
  intros [[[[[he hi] hr] pm] b3]|e3] s3; [intros (Hhe & Hhr & Hhi & Hr3)|done].
  destruct (pilot_bounds pilot Ha) as [Hpp _]. set (ceiling := ceiling_items scenario policy bounded_capacity batch pilot) in *.
  pose proof (ceiling_bounds pilot Ha) as Hce. fold ceiling in Hce. pose proof (ms_count HM) as Hcount. pose proof (ms_times HM) as [_ Hph].
  assert (0 ≤ ceiling * P ≤ round_cap) as Hct.
  { destruct (decide (ceiling = 0)) as [->|Hne]; [unfold round_cap; lia|]. destruct (Hce Hne) as [_ ?]. nia. }
  unfold total_items, checked_mul. rewrite (proj2 (Z.leb_le _ _)) by (unfold round_cap in *; nia). cbn [hexpect lift].
  change (Ret ?a ≫= ?f) with (f a). cbv beta.
  destruct ((ceiling =? 0) || (capacity_limit scenario policy bounded_capacity <? ceiling * P)) eqn:Ebad; [by apply wp_ret|].
  apply orb_false_iff in Ebad as [Hne Hfit]. zbool. destruct (Hce Hne) as [Hdiv Hcp].
  assert (∀ c, bounded_capacity = Some c → ceiling * P ≤ saturating_sub c (consumers scenario)) as Hlim.
  { intros c Hc. unfold capacity_limit in Hfit. by rewrite Hc in Hfit. }
  apply wp_tp_and_then. eapply wp_mono; [apply (measure_ceilings_ok ceiling); [nia| |done]|].
  { intros c Hc. specialize (Hlim c Hc). unfold saturating_sub in Hlim. pose proof (ms_consumers HM). nia. }
  intros [[[[[[ee de] ei] di] cr] b4]|e4] s4; [intros (Hee & Hde & Hcr & Hei & Hdi & Hr4)|done].
  destruct (negb b4 && negb allow_unpinned); apply wp_ret; [done|]. split; [|done].
  eexists. split; [done|]. cbn [throughput_record br_status br_queue br_mode br_batch_size tm_requested_items_per_producer tm_pilot_items_per_producer tm_handoff_items
    tm_handoff_rounds br_total_items br_consumed_items br_elapsed_ns tm_enqueue_items tm_enqueue_rounds tm_dequeue_items tm_handoff_elapsed_ns
    tm_enqueue_elapsed_ns tm_dequeue_elapsed_ns tm_warmup_elapsed_ns tm_dequeue_rounds br_fill_elapsed_ns br_drain_elapsed_ns].
  repeat (split; [done|]). split; [unfold ns; lia|]. split; [done|]. split; [unfold ns; lia|]. split; [done|].
  split; [unfold ns; lia|]. split; [done|]. split; [by exists we|]. split; [done|]. exists ceiling. done.
Qed.

(** The job that is measured. *)
Definition job_matches (spec : JobSpec) : Prop :=
  js_scenario spec = scenario ∧ js_mode spec = Throughput ∧ js_items_per_producer spec = requested ∧ js_batch_size spec = batch_size ∧
  expected_queue spec = queue_name.

Lemma measured_accepted spec r : job_matches spec → measured r → record_accepted spec r = HOk true.
Proof.
  intros (Hs & Hm & Hi & Hb & Hq) (m & Em & Es & Eq & Emo & Eb & Er & _ & Eh & Et & Ec & _).
  unfold record_accepted, counts_match, record_completed. rewrite Hm, Es, Em, Er, Hi, Et, Ec, !Z.eqb_refl. cbn [andb bool_decide mbind hres_bind].
  rewrite !bool_decide_true by congruence. done.
Qed.

Lemma failed_accepted spec reason e r : job_matches spec →
  failed_runtime_bench_record queue_name Throughput scenario requested batch_size reason e = HOk r →
  record_accepted spec r = HOk true ∧ record_completed r = false.
Proof.
  intros (Hs & Hm & Hi & Hb & Hq) (total & Ht & [= <-])%hres_bind_ok. split; [|done].
  unfold record_accepted, counts_match, record_completed. cbn [br_status br_items_per_producer br_total_items br_queue br_mode br_batch_size].
  rewrite (bool_decide_false (Failed = Completed)), andb_false_r by done. rewrite Hi, Z.eqb_refl, Hs, Ht. cbn [mbind hres_bind].
  rewrite Z.eqb_refl, !bool_decide_true by congruence. done.
Qed.


End phases.

(** A machine on which every third round is slow, a bounded queue, batches of 32. *)
Definition some_machine : Machine := λ n, inl (if (Z.of_nat n mod 3 =? 0) then 1500000 else 400000, 1000, true).
Definition some_job : JobSpec := mkJob (ScenarioConfig_new 2 1) 1 Throughput 1000 KWcq None (Some 32) None None None (Some 4096) None.
Definition some_policy : ThroughputPolicy := mkPolicy 1 1 1 10000.

