(* ===== verification/Bench.v ===== *)
(** * What the benchmark threads call (src/src/bench_harness/mod.rs)

    A benchmarked queue implements [BenchQueueOps]; methods it does not override have
    default bodies.  Producers and consumers are written against the trait.  The class
    [BenchQueue] says what a queue called by one thread promises to them; the theorems
    about producers and consumers are proved from it. *)

From S2P Require Import Prelude Prog.

(** ** The trait *)

Section defaults.
Context {E : Type → Type} `{PR : Profile} (fuel : nat).
Context (try_send_value : Z → prog E bool) (try_recv_value : prog E (option Z)).

(** [while !self.try_send_value(value) { backoff.snooze() }] *)
Definition send_value_default (value : Z) : prog E unit :=
  loop fuel (λ _ : unit, sent ← try_send_value value; Ret (if sent : bool then inr tt else inl tt)) tt.

Definition send_batch_default (base lo hi : Z) : prog E unit :=
  for_range (Z.to_nat (hi - lo)) lo (λ offset, value ← uadd base offset; send_value_default value).

Definition recv_value_default : prog E Z :=
  loop fuel (λ _ : unit, r ← try_recv_value; Ret (match r with Some value => inr value | None => inl tt end)) tt.

(** [for _ in 0..request_size] *)
Fixpoint recv_batch_rounds (n : nat) (received : Z) : prog E Z :=
  match n with
  | O => Ret received
  | S n => r ← try_recv_value; match r with None => Ret received | Some _ => recv_batch_rounds n (received + 1) end
  end.

Definition try_recv_batch_default (request_size : Z) : prog E Z := recv_batch_rounds (Z.to_nat request_size) 0.

(** The values that [visit] is called with, in order, and the count. *)
Fixpoint visit_rounds (n : nat) (visited : list Z) (count : Z) : prog E (list Z * Z) :=
  match n with
  | O => Ret (visited, count)
  | S n =>
      r ← try_recv_value;
      match r with None => Ret (visited, count) | Some value => visit_rounds n (visited ++ [value]) (count + 1) end
  end.

Definition visit_recv_batch_default (size : Z) : prog E (list Z * Z) := visit_rounds (Z.to_nat size) [] 0.

End defaults.

(** The methods a benchmark thread calls; [send_value] and [recv_value] are never
    overridden. *)
Class BenchQueueOps (E : Type → Type) := {
  try_send_value : Z → prog E bool;
  try_recv_value : prog E (option Z);
  bench_send_batch : Z → Z → Z → prog E unit;
  bench_try_recv_batch : Z → prog E Z;
  bench_visit_recv_batch : Z → prog E (list Z * Z);
  bounded_capacity : option Z
}.

(** ** Producers and consumers *)

Section threads.
Context {E : Type → Type} `{BenchQueueOps E} (fuel : nat).

Definition send_value (value : Z) : prog E unit := send_value_default fuel try_send_value value.

(** [while first < item_count { ... }] *)
Definition batched_send (base item_count batch_size : Z) : prog E unit :=
  loop fuel (λ first,
    if first <? item_count then
      let next := Z.min (saturating_add first batch_size) item_count in
      bench_send_batch base first next;;
      Ret (inl next)
    else Ret (inr tt)) 0.

Definition send_producer_items (producer_id items_per_producer : Z) (batch_size : option Z) : prog E unit :=
  base ← expect (checked_mul producer_id items_per_producer);
  match batch_size with
  | Some batch_size => batched_send base items_per_producer batch_size
  | None =>
      end_ ← expect (checked_add base items_per_producer);
      for_range (Z.to_nat (end_ - base)) base send_value
  end.

(** [producers_done] is the load of the flag, [elapsed] the clock. *)
Definition receive_consumer_items (batch_size : option Z) (producers_done : prog E bool) (elapsed : prog E Z) :
  prog E (Z * Z) :=
  match batch_size with
  | Some batch_size =>
      loop fuel (λ '(last_data, consumed),
        received ← bench_try_recv_batch batch_size;
        if negb (received =? 0) then
          consumed ← expect (checked_add consumed received);
          last_data ← elapsed;
          Ret (inl (last_data, consumed))
        else
          done ← producers_done;
          Ret (if done : bool then inr (last_data, consumed) else inl (last_data, consumed))) (0, 0)
  | None =>
      loop fuel (λ '(last_data, consumed),
        r ← try_recv_value;
        match r with
        | Some _ =>
            consumed ← expect (checked_add consumed 1);
            last_data ← elapsed;
            Ret (inl (last_data, consumed))
        | None =>
            done ← producers_done;
            Ret (if done : bool then inr (last_data, consumed) else inl (last_data, consumed))
        end) (0, 0)
  end.

(** The producers of a scenario, one after the other. *)
Fixpoint send_all (producer_ids : list Z) (items_per_producer : Z) (batch_size : option Z) : prog E unit :=
  match producer_ids with
  | [] => Ret tt
  | producer_id :: producer_ids =>
      send_producer_items producer_id items_per_producer batch_size;;
      send_all producer_ids items_per_producer batch_size
  end.

End threads.

(** ** The promise of a queue *)

(** [bq_is n s q]: in memory [s] the queue holds [q], and [n] more values can be sent.
    Batches have at most [bq_batch] values. *)
Class BenchQueue (E : Type → Type) (St : Type) `{HH : Handler E St} `{PR : Profile} `{Q : BenchQueueOps E} := {
  bq_batch : Z;
  bq_is : nat → St → list Z → Prop;
  bq_send : ∀ n s q v, is_usize v → bq_is (S n) s q →
    wp (try_send_value v) s (λ r s', r = true ∧ bq_is n s' (q ++ [v]));
  bq_recv : ∀ n s q, bq_is n s q →
    wp try_recv_value s (λ r s', r = head q ∧ bq_is n s' (tail q));
  bq_send_batch : ∀ n s q base lo hi, 0 ≤ base → 0 ≤ lo < hi → base + hi ≤ usize_max → hi - lo ≤ bq_batch →
    bq_is (Z.to_nat (hi - lo) + n) s q →
    wp (bench_send_batch base lo hi) s (λ _ s', bq_is n s' (q ++ seqZ (base + lo) (hi - lo)));
  bq_recv_batch : ∀ n s q k, 0 ≤ k ≤ bq_batch → bq_is n s q →
    wp (bench_try_recv_batch k) s (λ r s', r = Z.min k (Z.of_nat (length q)) ∧ bq_is n s' (drop (Z.to_nat k) q));
  bq_visit : ∀ n s q k, 0 ≤ k ≤ bq_batch → bq_is n s q →
    wp (bench_visit_recv_batch k) s (λ r s', r = (take (Z.to_nat k) q, Z.min k (Z.of_nat (length q))) ∧
      bq_is n s' (drop (Z.to_nat k) q))
}.

(** ** The default methods keep the promise *)

Section default_laws.
Context {E : Type → Type} {St : Type} `{HH : Handler E St} `{PR : Profile} (fuel : nat).
Context (snd : Z → prog E bool) (rcv : prog E (option Z)) (rep : nat → St → list Z → Prop).
Context (Hsend : ∀ n s q v, is_usize v → rep (S n) s q → wp (snd v) s (λ r s', r = true ∧ rep n s' (q ++ [v]))).
Context (Hrecv : ∀ n s q, rep n s q → wp rcv s (λ r s', r = head q ∧ rep n s' (tail q))).

Lemma send_value_default_ok n s q v : fuel ≠ O → is_usize v → rep (S n) s q →
  wp (send_value_default fuel snd v) s (λ _ s', rep n s' (q ++ [v])).
Proof using Hsend.
  intros Hfuel Hv Hq. unfold send_value_default. destruct fuel as [|m]; [done|]. apply wp_loop_unfold, wp_bind.
  eapply wp_mono; [by apply Hsend|]. intros r s' [-> Hq']. by apply wp_ret.
Qed.

(** A loop that sends the values [f lo], [f (lo + 1)], ... *)
Lemma for_range_sends n m lo (f : Z → Z) (body : Z → prog E unit) s q :
  (∀ n s q i, lo ≤ i < lo + Z.of_nat m → rep (S n) s q → wp (body i) s (λ _ s', rep n s' (q ++ [f i]))) →
  rep (m + n)%nat s q →
  wp (for_range m lo body) s (λ _ s', rep n s' (q ++ (f <$> seqZ lo (Z.of_nat m)))).
Proof.
  revert lo s q. induction m as [|m IH]; intros lo s q Hbody Hq; cbn [for_range].
  - apply wp_ret. by rewrite app_nil_r.
  - apply wp_bind. eapply wp_mono; [apply Hbody; [lia|exact Hq]|]. intros ? s1 Hq1.
    eapply wp_mono; [apply IH; [|exact Hq1]|].
    + intros n' s' q' i Hi. apply Hbody. lia.
    + intros ? s2. rewrite <- app_assoc, (seqZ_cons lo (Z.of_nat (S m))) by lia.
      by replace (Z.pred (Z.of_nat (S m))) with (Z.of_nat m) by lia.
Qed.

Lemma send_batch_default_ok n s q base lo hi : fuel ≠ O → 0 ≤ base → 0 ≤ lo < hi → base + hi ≤ usize_max →
  rep (Z.to_nat (hi - lo) + n) s q →
  wp (send_batch_default fuel snd base lo hi) s (λ _ s', rep n s' (q ++ seqZ (base + lo) (hi - lo))).
Proof using Hsend.
  intros Hfuel Hb Hlo Hmax Hq. unfold send_batch_default.
  eapply wp_mono; [apply (for_range_sends n _ _ (Z.add base)); [|exact Hq]|].
  - intros n' s' q' i Hi Hq'. apply wp_uadd; [lia|]. apply send_value_default_ok; [done|unfold is_usize; lia|done].
  - intros ? s'. rewrite Z2Nat.id by lia. by rewrite fmap_add_seqZ.
Qed.

Lemma visit_rounds_ok m n s q vs c : rep n s q →
  wp (visit_rounds rcv m vs c) s (λ r s', r = (vs ++ take m q, c + Z.of_nat (Nat.min m (length q))) ∧ rep n s' (drop m q)).
Proof using Hrecv.
  revert s q vs c. induction m as [|m IH]; intros s q vs c Hq; cbn [visit_rounds].
  - apply wp_ret. rewrite app_nil_r, Z.add_0_r. by rewrite drop_0.
  - apply wp_bind. eapply wp_mono; [by apply Hrecv|]. intros r s1 [-> Hq1]. destruct q as [|v q]; cbn [head tail] in *.
    + apply wp_ret. rewrite take_nil, drop_nil, app_nil_r. split; [f_equal; simpl; lia|done].
    + eapply wp_mono; [by apply IH|]. intros r s2 [-> Hq2]. split; [|done].
      cbn [take length]. rewrite <- app_assoc. f_equal. lia.
Qed.

Lemma recv_batch_rounds_ok m n s q c : rep n s q →
  wp (recv_batch_rounds rcv m c) s (λ r s', r = c + Z.of_nat (Nat.min m (length q)) ∧ rep n s' (drop m q)).
Proof using Hrecv.
  revert s q c. induction m as [|m IH]; intros s q c Hq; cbn [recv_batch_rounds].
  - apply wp_ret. by rewrite Z.add_0_r, drop_0.
  - apply wp_bind. eapply wp_mono; [by apply Hrecv|]. intros r s1 [-> Hq1]. destruct q as [|v q]; cbn [head tail] in *.
    + apply wp_ret. rewrite drop_nil. split; [simpl; lia|done].
    + eapply wp_mono; [by apply IH|]. intros r s2 [-> Hq2]. split; [cbn [length]; lia|done].
Qed.

Lemma try_recv_batch_default_ok n s q k : 0 ≤ k → rep n s q →
  wp (try_recv_batch_default rcv k) s (λ r s', r = Z.min k (Z.of_nat (length q)) ∧ rep n s' (drop (Z.to_nat k) q)).
Proof using Hrecv.
  intros Hk Hq. eapply wp_mono; [by apply recv_batch_rounds_ok|]. intros r s' [-> Hq']. split; [lia|done].
Qed.

Lemma visit_recv_batch_default_ok n s q k : 0 ≤ k → rep n s q →
  wp (visit_recv_batch_default rcv k) s
    (λ r s', r = (take (Z.to_nat k) q, Z.min k (Z.of_nat (length q))) ∧ rep n s' (drop (Z.to_nat k) q)).
Proof using Hrecv.
  intros Hk Hq. eapply wp_mono; [by apply visit_rounds_ok|]. intros r s' [-> Hq']. split; [|done].
  cbn [app]. f_equal. lia.
Qed.

End default_laws.

(** ** A benchmark round moves every item once

    Producers and consumers, proved against the promise of a queue: whatever the batch
    sizes, the producers of a scenario send the numbers from zero on, each once, and a
    consumer that starts when they are done counts all of them. *)

Section bench_clients.
Context {E : Type → Type} {St : Type} `{BQ : BenchQueue E St} (fuel : nat).
Implicit Types (s : St) (q : list Z).

(** Sending nothing, or batches of a size the queue takes. *)
Definition batch_ok (batch_size : option Z) : Prop :=
  match batch_size with Some b => 0 < b ≤ bq_batch | None => True end.

Lemma batched_send_ok n s q base items b :
  0 ≤ base → 0 ≤ items → base + items ≤ usize_max → 0 < b ≤ bq_batch → (Z.to_nat items < fuel)%nat →
  bq_is (Z.to_nat items + n) s q →
  wp (batched_send fuel base items b) s (λ _ s', bq_is n s' (q ++ seqZ base items)).
Proof.
  intros Hb Hi Hmax Hbs Hf Hq. unfold batched_send.
  apply (wp_loop (λ first s, 0 ≤ first ≤ items ∧ bq_is (Z.to_nat (items - first) + n) s (q ++ seqZ base first))
    (λ first, Z.to_nat (items - first))).
  - split; [lia|]. by rewrite Z.sub_0_r, app_nil_r.
  - lia.
  - intros first s1 [Hfi Hq1]. zcase.
    + set (next := Z.min (saturating_add first b) items).
      assert (first < next ≤ items ∧ next - first ≤ b) as [Hn Hnb] by (unfold next, saturating_add; lia).
      apply wp_bind. eapply wp_mono; [apply (bq_send_batch (Z.to_nat (items - next) + n)); try lia|].
      * replace (Z.to_nat (next - first) + (Z.to_nat (items - next) + n))%nat with (Z.to_nat (items - first) + n)%nat by lia.
        exact Hq1.
      * intros ? s2 Hq2. apply wp_ret. split; [|lia]. split; [lia|].
        rewrite <- app_assoc, <- seqZ_app in Hq2 by lia. by replace (first + (next - first)) with next in Hq2 by lia.
    + apply wp_ret. replace (items - first) with 0 in Hq1 by lia. by replace first with items in Hq1 by lia.
Qed.

Lemma scalar_send_ok n s q base items :
  0 ≤ base → 0 ≤ items → base + items ≤ usize_max → fuel ≠ O → bq_is (Z.to_nat items + n) s q →
  wp (for_range (Z.to_nat items) base (send_value fuel)) s (λ _ s', bq_is n s' (q ++ seqZ base items)).
Proof.
  intros Hb Hi Hmax Hf Hq. eapply wp_mono; [apply (for_range_sends bq_is n _ _ id); [|exact Hq]|].
  - intros n' s' q' i Hi' Hq'. apply (send_value_default_ok fuel _ bq_is bq_send); [done|unfold is_usize, id; lia|done].
  - intros ? s'. rewrite list_fmap_id, Z2Nat.id by lia. done.
Qed.

(** A producer sends its share of the numbers, batched or not. *)
Lemma send_producer_items_ok n s q id items bs :
  0 ≤ id → 0 ≤ items → id * items + items ≤ usize_max → batch_ok bs → (Z.to_nat items < fuel)%nat →
  bq_is (Z.to_nat items + n) s q →
  wp (send_producer_items fuel id items bs) s (λ _ s', bq_is n s' (q ++ seqZ (id * items) items)).
Proof.
  intros Hid Hi Hmax Hbs Hf Hq. assert (0 ≤ id * items) by nia. unfold send_producer_items, checked_mul, checked_add.
  rewrite (proj2 (Z.leb_le _ _)) by lia. cbn [expect]. change (Ret ?a ≫= ?f) with (f a). cbv beta.
  destruct bs as [b|]; [by apply batched_send_ok|].
  rewrite (proj2 (Z.leb_le _ _)) by lia. cbn [expect]. change (Ret ?a ≫= ?f) with (f a). cbv beta.
  replace (id * items + items - id * items) with items by lia. apply scalar_send_ok; try done. lia.
Qed.

(** The producers from [a] on. *)
Lemma send_all_ok m n s q a items bs :
  0 ≤ a → 0 ≤ items → (a + Z.of_nat m) * items ≤ usize_max → batch_ok bs → (Z.to_nat items < fuel)%nat →
  bq_is (m * Z.to_nat items + n) s q →
  wp (send_all fuel (seqZ a (Z.of_nat m)) items bs) s (λ _ s', bq_is n s' (q ++ seqZ (a * items) (Z.of_nat m * items))).
Proof.
  revert s q a. induction m as [|m IH]; intros s q a Ha Hi Hmax Hbs Hf Hq.
  - apply wp_ret. by rewrite app_nil_r.
  - rewrite seqZ_cons by lia. replace (Z.pred (Z.of_nat (S m))) with (Z.of_nat m) by lia. cbn [send_all].
    assert (a * items + items ≤ usize_max) by nia.
    apply wp_bind. eapply wp_mono; [apply (send_producer_items_ok (m * Z.to_nat items + n)); try done|].
    { by replace (Z.to_nat items + (m * Z.to_nat items + n))%nat with (S m * Z.to_nat items + n)%nat by lia. }
    intros ? s1 Hq1. eapply wp_mono; [apply (IH s1 (q ++ seqZ (a * items) items) (Z.succ a)); try done; nia|].
    intros ? s2 Hq2. replace (Z.of_nat (S m) * items) with (items + Z.of_nat m * items) by lia.
    rewrite seqZ_app by nia. rewrite <- app_assoc in Hq2. by replace (a * items + items) with (Z.succ a * items) by lia.
Qed.

Context (producers_done : prog E bool) (elapsed : prog E Z).

(** The producers are done, and reading the flag or the clock leaves the queue alone. *)
Definition idle_reads : Prop :=
  (∀ s, wp producers_done s (λ b s', b = true ∧ s' = s)) ∧ (∀ s, wp elapsed s (λ _ s', s' = s)).

Lemma receive_consumer_items_ok n s q bs :
  idle_reads → Z.of_nat (length q) ≤ usize_max → batch_ok bs → (length q < fuel)%nat → bq_is n s q →
  wp (receive_consumer_items fuel bs producers_done elapsed) s (λ r s', r.2 = Z.of_nat (length q) ∧ bq_is n s' []).
Proof.
  intros [Hdone Hel] Hl Hbs Hf Hq. set (total := Z.of_nat (length q)) in *.
  set (I := λ (r : Z * Z) s, ∃ l, bq_is n s l ∧ 0 ≤ r.2 ∧ r.2 + Z.of_nat (length l) = total).
  set (m := λ r : Z * Z, Z.to_nat (total - r.2)).
  assert (∀ last c l s, bq_is n s l → 0 ≤ c → c + Z.of_nat (length l) = total → I (last, c) s) as HI by (intros; by exists l).
  unfold receive_consumer_items. destruct bs as [b|]; apply (wp_loop I m); try (apply (HI 0 0 q); [done|lia|lia]);
    try (unfold m; simpl; lia); intros [last c] s1 (l & Hl1 & Hc & Ht); cbn [Datatypes.snd] in *; apply wp_bind.
  - eapply wp_mono; [apply (bq_recv_batch n s1 l b); [cbn in Hbs; lia|done]|]. intros r s2 [-> Hl2].
    cbn [batch_ok] in Hbs. destruct l as [|v l].
    + rewrite Z.min_r by (cbn; lia). cbn [length Z.of_nat Z.eqb negb] in *. apply wp_bind.
      eapply wp_mono; [apply Hdone|]. intros ? s3 [-> ->]. apply wp_ret. cbn. rewrite drop_nil in Hl2. split; [lia|done].
    + cbn [length] in *. set (k := Z.min b (Z.of_nat (S (length l)))). assert (0 < k ≤ Z.of_nat (S (length l))) as Hk by lia.
      rewrite (proj2 (Z.eqb_neq k 0)) by lia. cbn [negb]. unfold checked_add. rewrite (proj2 (Z.leb_le (c + k) _)) by lia.
      cbn [expect]. apply wp_bind, wp_ret, wp_bind. eapply wp_mono; [apply Hel|]. intros t s3 ->. apply wp_ret.
      split; [apply (HI _ _ _ s2 Hl2); [lia|rewrite length_drop; cbn [length]; lia]|]. unfold m. simpl. lia.
  - eapply wp_mono; [by apply bq_recv|]. intros r s2 [-> Hl2]. destruct l as [|v l]; cbn [head tail length] in *; apply wp_bind.
    + eapply wp_mono; [apply Hdone|]. intros ? s3 [-> ->]. apply wp_ret. cbn. split; [lia|done].
    + unfold checked_add. rewrite (proj2 (Z.leb_le (c + 1) _)) by lia. cbn [expect]. apply wp_ret, wp_bind.
      eapply wp_mono; [apply Hel|]. intros t s3 ->. apply wp_ret.
      split; [apply (HI _ _ _ s2 Hl2); lia|]. unfold m. simpl. lia.
Qed.

(** C20: a round of a benchmark on a queue that keeps its promise moves every item: when
    the producers have sent their shares, scalar or in batches of any size, and are
    done, the queue holds exactly the numbers from zero to the number of items, and a
    consumer, scalar or batched, terminates, counts each item and leaves nothing. *)
Theorem bench_round p n s items sbs rbs :
  0 ≤ items → Z.of_nat p * items ≤ usize_max → batch_ok sbs → batch_ok rbs → idle_reads →
  (p * Z.to_nat items < fuel)%nat → (Z.to_nat items < fuel)%nat → bq_is (p * Z.to_nat items + n) s [] →
  wp (send_all fuel (seqZ 0 (Z.of_nat p)) items sbs) s (λ _ s1,
    bq_is n s1 (seqZ 0 (Z.of_nat p * items)) ∧
    wp (receive_consumer_items fuel rbs producers_done elapsed) s1
      (λ r s2, r.2 = Z.of_nat p * items ∧ bq_is n s2 [])).
Proof.
  intros Hi Hmax Hs Hr Hidle Hf Hf' Hq. eapply wp_mono; [by apply (send_all_ok p n s [] 0 items sbs)|].
  intros ? s1 Hq1. cbn [app] in Hq1. rewrite Z.mul_0_l in Hq1. split; [done|].
  eapply wp_mono; [apply (receive_consumer_items_ok n s1 (seqZ 0 (Z.of_nat p * items)) rbs Hidle); [| |rewrite length_seqZ|exact Hq1]|].
  - rewrite length_seqZ. lia.
  - done.
  - nia.
  - intros r s2 [-> Hq2]. split; [rewrite length_seqZ; nia|done].
Qed.

End bench_clients.
