(* ===== verification/BenchInst.v ===== *)
(** * Queues that keep the benchmarks' promise

    The fetch-and-add baseline, with the default batch methods, and the MPMC queue, whose
    batch methods are its own (impl BenchQueueOps for UBQ in src/src/bench_harness/mod.rs). *)

From S2P Require Import Prelude Prog Bench Layout Head Geometry Epochs MpmcBlock MpmcHeap MpmcOps MpmcChain UbqQueue UbqInv UbqIterSpec UbqPopSpec UbqPushSpec UbqDropSpec UbqSpec Jni JniQueueInst FaaQueue FaaSeq.

(** ** The mutex baseline queue (src/src/bench_harness/baselines/mutex_vecdeque.rs)

    A [VecDeque] behind a [Mutex].  A method locks, works on the deque and unlocks when
    its guard goes out of scope; a panic while the guard is held poisons the mutex, and
    every later method panics.  The batch methods hold the lock once for the whole batch. *)

(** The deque, whether a guard is held, and whether the mutex is poisoned. *)
Record xmem := mkXm { xm_inner : list Z; xm_locked : bool; xm_poisoned : bool }.

Inductive xE : Type → Type :=
| XAcquire : xE (option bool)
| XPushBack (v : Z) : xE unit
| XPopFront : xE (option Z)
| XLen : xE Z
| XDrain (n : Z) : xE (list Z)
| XRelease : xE unit
| XPoison : xE unit.

Definition guarded {X} (s : xmem) (r : reply xmem X) : reply xmem X := if xm_locked s then r else Fault.

(** Acquiring a held mutex fails, and is retried; an acquired mutex says whether it is
    poisoned.  The deque is only touched under the guard. *)
#[export] Instance x_handler : Handler xE xmem := λ X e s,
  match e in xE X return reply xmem X with
  | XAcquire =>
      if xm_locked s then Next None s else Next (Some (xm_poisoned s)) (mkXm (xm_inner s) true (xm_poisoned s))
  | XPushBack v => guarded s (Next tt (mkXm (xm_inner s ++ [v]) true (xm_poisoned s)))
  | XPopFront => guarded s (Next (head (xm_inner s)) (mkXm (tail (xm_inner s)) true (xm_poisoned s)))
  | XLen => guarded s (Next (Z.of_nat (length (xm_inner s))) s)
  | XDrain n =>
      guarded s (Next (take (Z.to_nat n) (xm_inner s)) (mkXm (drop (Z.to_nat n) (xm_inner s)) true (xm_poisoned s)))
  | XRelease => guarded s (Next tt (mkXm (xm_inner s) false (xm_poisoned s)))
  | XPoison => guarded s (Next tt (mkXm (xm_inner s) false true))
  end.

Definition MutexQueue_new : xmem := mkXm [] false false.

Section mutex_queue.
Context `{PR : Profile} (fuel : nat).

(** [let guard = self.inner.lock().expect("mutex poisoned"); ...] *)
Definition with_guard {A} (body : prog xE A) : prog xE A :=
  poisoned ← loop fuel (λ _ : unit, r ← act XAcquire; Ret (match r with Some b => inr b | None => inl tt end)) tt;
  if poisoned : bool then act XRelease;; Panic
  else r ← body; act XRelease;; Ret r.

(** [base + offset as u64] evaluated while the guard is held. *)
Definition guarded_add (a b : Z) : prog xE Z :=
  if a + b <=? usize_max then Ret (a + b)
  else if debug_assertions then act XPoison;; Panic else Ret (wrapping (a + b)).

Definition mutex_try_send_value (value : Z) : prog xE bool := with_guard (act (XPushBack value));; Ret true.

Definition mutex_try_recv_value : prog xE (option Z) := with_guard (act XPopFront).

Definition mutex_send_batch (base lo hi : Z) : prog xE unit :=
  with_guard (for_range (Z.to_nat (hi - lo)) lo (λ offset, v ← guarded_add base offset; act (XPushBack v))).

Definition mutex_try_recv_batch (request_size : Z) : prog xE Z :=
  with_guard (
    len ← act XLen;
    let available := Z.min len request_size in
    drained ← act (XDrain available);
    Ret (Z.of_nat (length drained))).

Definition mutex_visit_recv_batch (size : Z) : prog xE (list Z * Z) :=
  with_guard (
    len ← act XLen;
    let available := Z.min len size in
    visited ← act (XDrain available);
    Ret (visited, available)).

#[local] Instance mutex_ops : BenchQueueOps xE := {|
  try_send_value := mutex_try_send_value;
  try_recv_value := mutex_try_recv_value;
  bench_send_batch := mutex_send_batch;
  bench_try_recv_batch := mutex_try_recv_batch;
  bench_visit_recv_batch := mutex_visit_recv_batch;
  bounded_capacity := None
|}.

(** ** Runs *)

(** A queue at rest. *)
Definition mutex_at (q : list Z) : xmem := mkXm q false false.
Definition mutex_held (q : list Z) : xmem := mkXm q true false.

Lemma wp_with_guard {A} (body : prog xE A) q (Q : A → xmem → Prop) : fuel ≠ O →
  wp body (mutex_held q) (λ r s, ∃ q', s = mutex_held q' ∧ Q r (mutex_at q')) →
  wp (with_guard body) (mutex_at q) Q.
Proof.
  intros Hf Hb. unfold with_guard. destruct fuel as [|m]; [done|]. apply wp_bind, wp_loop_unfold, wp_bind.
  eapply wp_act; [done|]. apply wp_ret, wp_bind. eapply wp_mono; [exact Hb|].
  intros r s (q' & -> & HQ). eapply wp_act_bind; [done|]. by apply wp_ret.
Qed.

(** The deque is extended by the whole range. *)
Lemma wp_extend q base lo m : 0 ≤ base → 0 ≤ lo → base + lo + Z.of_nat m ≤ usize_max →
  wp (for_range m lo (λ offset, v ← guarded_add base offset; act (XPushBack v))) (mutex_held q)
    (λ _ s, s = mutex_held (q ++ seqZ (base + lo) (Z.of_nat m))).
Proof.
  intros Hb Hl Hmax.
  eapply wp_mono; [apply (for_range_sends (λ _ s q, s = mutex_held q) O m lo (Z.add base)); [|reflexivity]|].
  - intros n s q' i Hi ->. unfold guarded_add. rewrite (proj2 (Z.leb_le (base + i) _)) by lia.
    change (Ret ?a ≫= ?f) with (f a). by eapply wp_act.
  - intros ? s ->. by rewrite fmap_add_seqZ.
Qed.

Program Definition mutex_bench (Hf : fuel ≠ O) : BenchQueue xE xmem := {|
  bq_batch := usize_max;
  bq_is n s q := s = mutex_at q
|}.
Next Obligation.
  intros Hf n s q v _ ->. apply wp_bind, wp_with_guard; [done|]. eapply wp_act; [done|]. eexists. split; [done|].
  by apply wp_ret.
Qed.
Next Obligation.
  intros Hf n s q ->. apply wp_with_guard; [done|]. eapply wp_act; [done|]. by eexists.
Qed.
Next Obligation.
  intros Hf n s q base lo hi Hb Hlo Hmax _ ->. apply wp_with_guard; [done|].
  eapply wp_mono; [apply wp_extend; lia|]. intros ? s ->. eexists. split; [done|]. by rewrite Z2Nat.id by lia.
Qed.
Next Obligation.
  intros Hf n s q k Hk ->. apply wp_with_guard; [done|]. eapply wp_act_bind; [done|]. eapply wp_act_bind; [done|].
  apply wp_ret. eexists. split; [done|]. cbn [mutex_held xm_inner] in *. rewrite length_take. split; [lia|].
  f_equal. rewrite Z2Nat.inj_min, Nat2Z.id. destruct (decide (length q ≤ Z.to_nat k)%nat).
  - rewrite Nat.min_l, !drop_ge by lia. done.
  - by rewrite Nat.min_r by lia.
Qed.
Next Obligation.
  intros Hf n s q k Hk ->. apply wp_with_guard; [done|]. eapply wp_act_bind; [done|]. eapply wp_act_bind; [done|].
  apply wp_ret. eexists. split; [done|]. cbn [mutex_held xm_inner] in *. rewrite Z2Nat.inj_min, Nat2Z.id.
  destruct (decide (length q ≤ Z.to_nat k)%nat).
  - rewrite Nat.min_l, !drop_ge, !take_ge by lia. split; [f_equal; lia|done].
  - rewrite Nat.min_r by lia. split; [f_equal; lia|done].
Qed.

End mutex_queue.

(** ** A round *)

(** Two producers of five items in batches of three, and a consumer in batches of four. *)
Lemma bench_round_witness :
  wp (send_all (H := mutex_ops (PR := true) 20) 20 (seqZ 0 2) 5 (Some 3)) MutexQueue_new (λ _ s1,
    s1 = mutex_at (seqZ 0 (2 * 5)) ∧
    wp (receive_consumer_items (H := mutex_ops (PR := true) 20) 20 (Some 4) (Ret true) (Ret 7)) s1
      (λ r s2, r.2 = 2 * 5 ∧ s2 = mutex_at [])).
Proof.
  exact (@bench_round xE xmem x_handler true (mutex_ops (PR := true) 20) (mutex_bench (PR := true) 20 ltac:(discriminate)) 20 (Ret true) (Ret 7) 2 0 MutexQueue_new 5
    (Some 3) (Some 4) ltac:(lia) ltac:(done) ltac:(done) ltac:(done) ltac:(done) ltac:(simpl; lia) ltac:(simpl; lia) eq_refl).
Defined.

(** A debug build that overflows in a batch poisons the mutex: the call panics, the values
    before the overflow stay, and every later call panics. *)
Lemma mutex_poisoned_batch fuel q : fuel ≠ O →
  let s := mkXm (q ++ [usize_max]) false true in
  run (mutex_send_batch (PR := true) fuel usize_max 0 2) (mutex_at q) = Panicked s ∧
  (∀ v, run (mutex_try_send_value fuel v) s = Panicked s) ∧ run (mutex_try_recv_value fuel) s = Panicked s.
Proof. intros Hf. destruct fuel as [|m]; [done|]. cbn zeta. split_and!; reflexivity. Qed.

(** ** The fetch-and-add baseline *)

Section faa_bench.
Context `{PR : Profile} (fuel : nat).

Definition faa_try_send_value (value : Z) : prog (faaE Z) bool := faa_push fuel value;; Ret true.
Definition faa_try_recv_value : prog (faaE Z) (option Z) := faa_try_pop fuel.

Definition faa_bench_ops : BenchQueueOps (faaE Z) := {|
  try_send_value := faa_try_send_value;
  try_recv_value := faa_try_recv_value;
  bench_send_batch := send_batch_default fuel faa_try_send_value;
  bench_try_recv_batch := try_recv_batch_default faa_try_recv_value;
  bench_visit_recv_batch := visit_recv_batch_default faa_try_recv_value;
  bounded_capacity := Some CAPACITY
|}.
#[local] Existing Instance faa_bench_ops.

(** There is room in the ring, and positions are left. *)
Definition faa_is (n : nat) (s : faamem Z) (q : list Z) : Prop :=
  faa_abs s q ∧ f_tail s + Z.of_nat n ≤ usize_max ∧ Z.of_nat (length q + n) ≤ CAPACITY.

Lemma faa_is_send n s q v : fuel ≠ O → is_usize v → faa_is (S n) s q →
  wp (faa_try_send_value v) s (λ r s', r = true ∧ faa_is n s' (q ++ [v])).
Proof.
  intros Hf _ (HA & Ht & Hc). destruct (faa_push_run fuel s q v) as (s' & Hr & HA' & Et); [done|done|lia|lia|].
  unfold faa_try_send_value. apply wp_bind. eapply wp_done; [exact Hr|]. apply wp_ret. split; [done|]. split; [done|].
  rewrite length_app. cbn [length]. lia.
Qed.

Lemma faa_is_recv n s q : fuel ≠ O → faa_is n s q →
  wp faa_try_recv_value s (λ r s', r = head q ∧ faa_is n s' (tail q)).
Proof.
  intros Hf (HA & Ht & Hc). destruct q as [|v q].
  - eapply wp_done; [by apply faa_pop_empty|]. done.
  - destruct (faa_pop_run fuel s q v) as (s' & Hr & HA' & Et); [done|done|]. eapply wp_done; [exact Hr|].
    split; [done|]. split; [done|]. cbn [length tail] in *. lia.
Qed.

Program Definition faa_bench (Hf : fuel ≠ O) : BenchQueue (faaE Z) (faamem Z) := {|
  bq_batch := usize_max;
  bq_is := faa_is;
  bq_send n s q v := faa_is_send n s q v Hf;
  bq_recv n s q := faa_is_recv n s q Hf
|}.
Next Obligation.
  intros Hf n s q base lo hi Hb Hlo Hmax _ Hq.
  apply (send_batch_default_ok fuel faa_try_send_value faa_is (λ n s q v, faa_is_send n s q v Hf)); try done.
Qed.
Next Obligation.
  intros Hf n s q k Hk Hq. apply (try_recv_batch_default_ok _ faa_is (λ n s q, faa_is_recv n s q Hf)); [lia|done].
Qed.
Next Obligation.
  intros Hf n s q k Hk Hq. apply (visit_recv_batch_default_ok _ faa_is (λ n s q, faa_is_recv n s q Hf)); [lia|done].
Qed.

End faa_bench.

(** ** The MPMC queue *)

Section ubq_bench.
Context `{BlockGeometry} `{Allocator} `{PR : Profile} (fuel : nat).

Definition ubq_try_send_value (value : Z) : prog (ubqE Z) bool := push fuel value;; Ret true.

(** [offsets.map(|offset| base + offset as u64)]: what its calls to [next] return, where
    the addition wraps. *)
Definition batch_items (base lo hi : Z) : list (option Z) :=
  (λ offset, Some (wrapping (base + offset))) <$> seqZ lo (hi - lo).

(** [push_batch] of an iterator that reports [items_len] items, returns [items] and then
    panics: the slots of all items are reserved, those of the items that came are
    written, and unwinding gives back the blocks that were not used. *)
Definition push_batch_unwinds (items_len : Z) (items : list (option Z)) : prog (ubqE Z) unit :=
  let len := Z.min items_len (usize_max - 1) in
  let blocks := BlockChain_zero in
  phead ← acquire_phead;
  '(blocks, phead) ← (if is_zero phead then push_init phead else Ret (blocks, phead));
  '(blocks, phead, new_phead) ← push_reserve fuel len blocks phead;
  blocks ← (if index new_phead =? block_length then push_advance fuel len blocks phead
            else Ret blocks);
  push_write fuel (length items) phead items;;
  BlockChain_drop fuel blocks;;
  Panic.

(** In a debug build the addition of the first offset that is too large panics. *)
Definition ubq_send_batch (base lo hi : Z) : prog (ubqE Z) unit :=
  if debug_assertions && (lo <? hi) && (usize_max <? base + (hi - 1))
  then push_batch_unwinds (hi - lo) (batch_items base lo (usize_max + 1 - base))
  else push_batch fuel (hi - lo) (batch_items base lo hi).

Definition ubq_try_recv_batch (request_size : Z) : prog (ubqE Z) Z := it ← pop_batch fuel request_size; iter_count fuel it.

(** [pop_batch(size).inspect(visit).count()] *)
Definition visit_round (st : UBQIter * (list Z * Z)) : prog (ubqE Z) (UBQIter * (list Z * Z) + list Z * Z) :=
  let '(it, (visited, n)) := st in
  '(v, it) ← iter_next fuel it;
  match v with
  | Some v => Ret (inl (it, (visited ++ [v], n + 1)))
  | None => iter_drop fuel it;; Ret (inr (visited, n))
  end.

Definition ubq_visit_recv_batch (size : Z) : prog (ubqE Z) (list Z * Z) :=
  it ← pop_batch fuel size;
  loop fuel visit_round (it, ([], 0)).

Definition ubq_bench_ops : BenchQueueOps (ubqE Z) := {|
  try_send_value := ubq_try_send_value;
  try_recv_value := pop fuel;
  bench_send_batch := ubq_send_batch;
  bench_try_recv_batch := ubq_try_recv_batch;
  bench_visit_recv_batch := ubq_visit_recv_batch;
  bounded_capacity := None
|}.
#[local] Existing Instance ubq_bench_ops.

(** The fuel suffices for [n] more sends. *)
Definition ubq_is (n : nat) (s : mem Z) (q : list Z) : Prop := ∃ m, holds m s q ∧ (m + 10 * n + 8 < fuel)%nat.

Lemma batch_items_eq base lo hi : 0 ≤ base → 0 ≤ lo → base + hi ≤ usize_max →
  batch_items base lo hi = Some <$> seqZ (base + lo) (hi - lo).
Proof.
  intros Hb Hl Hm. unfold batch_items. rewrite <- (fmap_add_seqZ base lo), <- list_fmap_compose.
  apply list_fmap_ext. intros i x Hx%lookup_seqZ. unfold wrapping. simpl. rewrite Z.mod_small; [done|].
  unfold usize_max in *. lia.
Qed.

Lemma pushed_all n (l : list Z) : Z.of_nat (length l) = n → n < usize_max → pushed n (Some <$> l) = Some <$> l.
Proof.
  intros Hl Hn. unfold pushed. rewrite Z.min_l by lia. apply resize_all_alt. rewrite length_fmap. lia.
Qed.

Lemma wp_ubq_visit m g it q vs d cost s visited n :
  refines g (<[0%nat := it]> ∅) (mkSpec q (<[0%nat := Some <$> vs]> ∅) d) cost s →
  (cost + 8 < fuel)%nat → (length vs < m)%nat →
  wp (loop m visit_round (it, (visited, n))) s
    (λ r s', r = (visited ++ vs, n + Z.of_nat (length vs)) ∧ ∃ g', refines g' ∅ (mkSpec q ∅ d) cost s').
Proof.
  revert g it s n m visited. induction vs as [|v vs IH]; intros g it s n m visited Hr Hf Hm; (destruct m as [|m]; [simpl in Hm; lia|]);
    apply wp_loop_unfold; unfold visit_round at 1; apply wp_bind;
    (eapply wp_mono; [eapply (refines_next g _ _ cost s 0); [exact Hr|apply lookup_insert_eq|apply lookup_insert_eq|done]|]);
    intros [x it'] s1 (g1 & -> & Hr1); cbn in Hr1; rewrite !insert_insert_eq in Hr1.
  - apply wp_bind. eapply wp_mono.
    { eapply (refines_drop_iter g1 _ _ cost s1 0); [exact Hr1|apply lookup_insert_eq|apply lookup_insert_eq|done]. }
    intros ? s2 (g2 & Hr2). apply wp_ret. split; [rewrite app_nil_r; f_equal; simpl; lia|]. exists g2. simpl in Hr2.
    rewrite app_nil_r, !delete_insert_eq, !delete_empty in Hr2. done.
  - apply wp_ret. eapply wp_mono; [apply (IH g1 it' s1 (n + 1) m (visited ++ [v]) Hr1 Hf); simpl in Hm; lia|].
    intros r s2 [-> Hr2]. split; [rewrite <- app_assoc; f_equal; simpl; lia|done].
Qed.

Context (Hpage : page * 9 ≤ isize_max).

(** Batches whose blocks the allocator can be asked for. *)
Definition ubq_batch : Z := isize_max / page - 8.

Lemma ubq_batch_fits k : 0 ≤ k ≤ ubq_batch → page * (k + 8) ≤ isize_max ∧ k + block_length ≤ usize_max ∧ k < usize_max.
Proof using Hpage.
  intros Hk. pose proof page_pos as Hp. pose proof length_lt_max. unfold ubq_batch in Hk.
  pose proof (Z.mul_div_le isize_max page Hp). assert (page * (k + 8) ≤ isize_max) by nia.
  assert (k ≤ isize_max) by nia. unfold usize_max, isize_max in *. lia.
Qed.

Lemma ubq_is_batch n s q k : 0 ≤ k ≤ ubq_batch → ubq_is n s q →
  wp (pop_batch fuel k) s (λ it s', ∃ m g', (m + 10 * n + 8 < fuel)%nat ∧ (length q ≤ m)%nat ∧
    refines g' (<[0%nat := it]> ∅)
      (mkSpec (Some <$> drop (Z.to_nat k) q) (<[0%nat := Some <$> take (Z.to_nat k) q]> ∅) (dropped s)) m s').
Proof using Hpage.
  intros Hk (m & [g Hr] & Hm). destruct (ubq_batch_fits k Hk) as (_ & Hb & _).
  rewrite <- (Z2Nat.id k) at 1 by lia. eapply wp_mono.
  { apply (refines_pop_batch g ∅ _ m s 0 (Z.to_nat k) fuel Hr); [done|lia|lia]. }
  intros it s1 (g1 & Hr1). cbn [sp_queue sp_iters sp_dropped] in Hr1. rewrite <- fmap_drop, <- fmap_take in Hr1.
  pose proof (refines_queue_length _ _ _ _ _ Hr) as Hlen. cbn [sp_queue] in Hlen. rewrite length_fmap in Hlen.
  exists m, g1. done.
Qed.

Program Definition ubq_bench : BenchQueue (ubqE Z) (mem Z) := {|
  bq_batch := ubq_batch;
  bq_is := ubq_is
|}.
Next Obligation.
  intros n s q v _ (m & Hq & Hm). apply wp_bind.
  eapply wp_mono; [apply (wp_uexec Hpage fuel m s q unit (UPush v)); [done|done|cbn; lia]|].
  intros [] s' [_ Hq']. apply wp_ret. split; [done|]. exists (m + 10)%nat. split; [exact Hq'|lia].
Qed.
Next Obligation.
  intros n s q (m & Hq & Hm).
  eapply wp_mono; [apply (wp_uexec Hpage fuel m s q _ UPop); [done|done|cbn; lia]|].
  intros r s' [-> Hq']. split; [done|]. exists m. cbn [ucost] in Hq'. rewrite Nat.add_0_r in Hq'. done.
Qed.
Next Obligation.
  intros n s q base lo hi Hb Hlo Hmax Hk (m & [g Hr] & Hm).
  destruct (ubq_batch_fits (hi - lo)) as (Hp & _ & Hk'); [lia|]. cbv beta. unfold bench_send_batch. cbn [ubq_bench_ops].
  unfold ubq_send_batch. rewrite (proj2 (Z.ltb_ge usize_max _)), andb_false_r by lia. rewrite batch_items_eq by lia.
  eapply wp_mono; [apply (refines_push g ∅ _ m s (hi - lo) _ fuel Hr); [lia|lia|lia]|].
  intros [] s' (g' & Hr'). cbn [sp_queue sp_iters sp_dropped] in Hr'. rewrite pushed_all in Hr'; [|rewrite length_seqZ; lia|lia].
  rewrite <- fmap_app in Hr'. eexists. split; [by eapply holds_intro|]. lia.
Qed.
Next Obligation.
  intros n s q k Hk Hq. apply wp_bind. eapply wp_mono; [by apply (ubq_is_batch n s q k)|].
  intros it s1 (m & g & Hm & Hl & Hr). eapply wp_mono.
  { eapply (wp_iter_count fuel fuel g it _ (take (Z.to_nat k) q)); [exact Hr|lia|rewrite length_take; lia]. }
  intros r s2 (-> & g2 & Hr2). split; [rewrite length_take; lia|]. eexists. split; [by eapply holds_intro|done].
Qed.
Next Obligation.
  intros n s q k Hk Hq. apply wp_bind. eapply wp_mono; [by apply (ubq_is_batch n s q k)|].
  intros it s1 (m & g & Hm & Hl & Hr). eapply wp_mono.
  { eapply (wp_ubq_visit fuel g it _ (take (Z.to_nat k) q)); [exact Hr|lia|rewrite length_take; lia]. }
  intros r s2 (-> & g2 & Hr2). cbn [app]. split; [f_equal; rewrite length_take; lia|].
  eexists. split; [by eapply holds_intro|done].
Qed.

End ubq_bench.
