(* ===== verification/BenchRounds.v ===== *)
(** * Benchmark rounds with concurrent threads (src/src/bench_harness/mod.rs)

    A round runs producers and consumers on one queue.  The main thread joins the
    producers and then raises a flag; a consumer stops when it finds the queue empty and
    after that the flag raised.  A call on the queue is one access here: the queue is
    one that works. *)

From S2P Require Import Prelude Prog Conc Bench.

(** ** The shared memory of a round *)

(** Calls on the queue, loads and the store of the flag, and the ends of producers, which
    the main thread waits for. *)
Inductive roundE : Type → Type :=
| QSend (v : Z) : roundE unit
| QRecv : roundE (option Z)
| DoneLoad : roundE bool
| DoneStore : roundE unit
| ProducerReturns : roundE unit
| Returned : roundE Z.

Record roundmem := mkRound { rm_queue : list Z; rm_done : bool; rm_returned : Z }.

#[export] Instance roundmem_eq_dec : EqDecision roundmem.
Proof. solve_decision. Defined.

#[export] Instance round_handler : Handler roundE roundmem := λ X e,
  match e in roundE X return roundmem → reply roundmem X with
  | QSend v => λ s, Next tt (mkRound (rm_queue s ++ [v]) (rm_done s) (rm_returned s))
  | QRecv => λ s, Next (head (rm_queue s)) (mkRound (tail (rm_queue s)) (rm_done s) (rm_returned s))
  | DoneLoad => λ s, Next (rm_done s) s
  | DoneStore => λ s, Next tt (mkRound (rm_queue s) true (rm_returned s))
  | ProducerReturns => λ s, Next tt (mkRound (rm_queue s) (rm_done s) (rm_returned s + 1))
  | Returned => λ s, Next (rm_returned s) s
  end.

#[export] Instance round_spurious : Spurious roundE roundmem := λ X e s, None.

Section ops.
Context `{PR : Profile} (fuel : nat).

Definition round_try_send (v : Z) : prog roundE bool := act (QSend v);; Ret true.

#[export] Instance round_ops : BenchQueueOps roundE := {|
  try_send_value := round_try_send;
  try_recv_value := act QRecv;
  bench_send_batch := send_batch_default fuel round_try_send;
  bench_try_recv_batch := try_recv_batch_default (act QRecv);
  bench_visit_recv_batch := visit_recv_batch_default (act QRecv);
  bounded_capacity := None
|}.

(** ** The threads *)

(** A producer of a handoff or enqueue round; it counts nothing. *)
Definition round_producer (items_per_producer : Z) (batch_size : option Z) (producer_id : Z) : prog roundE Z :=
  send_producer_items fuel producer_id items_per_producer batch_size;;
  act ProducerReturns;;
  Ret 0.

(** A consumer: what it counted.  The clock is not shared. *)
Definition round_consumer (batch_size : option Z) : prog roundE Z :=
  '(_, consumed) ← receive_consumer_items fuel batch_size (act DoneLoad) (Ret 0);
  Ret consumed.

(** [join_bench_threads(producers)?; producers_done.store(true)] *)
Definition round_main (producers : Z) : prog roundE Z :=
  loop fuel (λ _ : unit, n ← act Returned; Ret (if n =? producers then inr tt else inl tt)) tt;;
  act DoneStore;;
  Ret 0.

Definition handoff_threads (producers consumers items_per_producer : Z) (batch_size : option Z) : list (prog roundE Z) :=
  (round_producer items_per_producer batch_size <$> seqZ 0 producers) ++
  [round_main producers] ++ replicate (Z.to_nat consumers) (round_consumer batch_size).

Definition dequeue_threads (consumers : Z) (batch_size : option Z) : list (prog roundE Z) :=
  replicate (Z.to_nat consumers) (round_consumer batch_size).

End ops.

(** The memory at the start of a handoff round, and of a dequeue round, whose flag is
    raised from the start. *)
Definition handoff_start : roundmem := mkRound [] false 0.
Definition dequeue_start (q : list Z) : roundmem := mkRound q true 0.

(** The check at the end of a round. *)
Definition round_integrity (expected consumed : Z) : bool := consumed =? expected.

(** ** A round can lose items

    The emptiness of the queue is observed before the flag. *)

Definition race_threads : list (prog roundE Z) := handoff_threads (PR := true) 2 1 1 1 None.

(** The consumer finds the queue empty; the producer sends its item and returns, the main
    thread joins it and raises the flag; the consumer then finds the flag raised. *)
Definition race_schedule : list nat := [2%nat; 0%nat; 0%nat; 1%nat; 1%nat; 2%nat].

Definition race_outcome (c : option (list (prog roundE Z) * roundmem)) : bool :=
  match c with
  | Some ([Ret _; Ret _; Ret consumed], s) => bool_decide (consumed = 0) && bool_decide (s = mkRound [0] true 1)
  | _ => false
  end.

Lemma race_outcome_spec c : race_outcome c = true →
  ∃ a b, c = Some ([Ret a; Ret b; Ret 0], mkRound [0] true 1).
Proof.
  unfold race_outcome. intros Hc. repeat case_match; try done.
  apply andb_true_iff in Hc as [->%bool_decide_eq_true ->%bool_decide_eq_true]. eauto.
Qed.

(** C21: a handoff round can lose an item: in an execution with one producer, one consumer and
    one item all threads return, the consumer has counted nothing, the item is still in
    the queue, and the round fails its integrity check. *)
Theorem handoff_round_loses : ∃ a b,
  run_sched race_schedule (race_threads, handoff_start) = Some ([Ret a; Ret b; Ret 0], mkRound [0] true 1) ∧
  round_integrity 1 0 = false.
Proof.
  destruct (race_outcome_spec (run_sched race_schedule (race_threads, handoff_start))) as (a & b & E); [vm_compute; reflexivity|].
  by exists a, b.
Qed.

(** ** Every execution

    The ghost state gives each thread what it has added to the queue, at most its [cap];
    an entry beyond the threads stands for the content at the start.  [quiet] says that
    nothing is added any more. *)

Section rounds.
Context `{PR : Profile} (fuel : nat) (N : nat) (quiet : bool) (cap : nat → Z).
Context (Hcap : ∀ j, 0 ≤ cap j).
Implicit Types (γ : nat → Z) (s : roundmem).

Definition net γ : Z := foldr Z.add 0 (γ <$> seq 0 N).

Definition round_inv γ s : Prop :=
  Z.of_nat (length (rm_queue s)) = net γ ∧ (∀ j, γ j ≤ cap j) ∧ (quiet = true → rm_done s = true).

Definition lowers γ γ' : Prop := quiet = true → ∀ j, γ' j ≤ γ j.
Definition round_rely (i : nat) γ γ' : Prop := γ' i = γ i ∧ lowers γ γ'.
Definition round_guar (i : nat) γ γ' : Prop := (∀ j, j ≠ i → γ' j = γ j) ∧ lowers γ γ'.

Lemma lowers_refl γ : lowers γ γ.
Proof. intros _ j. lia. Qed.

Lemma round_rg : rely_guarantee round_rely round_guar.
Proof.
  constructor.
  - intros i γ. split; [done|apply lowers_refl].
  - intros i γ1 γ2 γ3 [E1 L1] [E2 L2]. split; [congruence|]. intros Hq j. specialize (L1 Hq j). specialize (L2 Hq j). lia.
  - intros i j γ γ' [Hg L] Hne. split; [by apply Hg|done].
Qed.

Lemma foldr_add_mono (f g : nat → Z) l : (∀ j, g j ≤ f j) → foldr Z.add 0 (g <$> l) ≤ foldr Z.add 0 (f <$> l).
Proof. intros H. induction l as [|x l IH]; [done|]. rewrite !fmap_cons. cbn [foldr]. specialize (H x). lia. Qed.

Lemma net_lowers γ γ' : quiet = true → lowers γ γ' → net γ' ≤ net γ.
Proof. intros Hq L. apply foldr_add_mono. by apply L. Qed.

Lemma foldr_add_upd γ i v l : NoDup l → foldr Z.add 0 (upd γ i v <$> l) =
  foldr Z.add 0 (γ <$> l) + (if decide (i ∈ l) then v - γ i else 0).
Proof.
  induction 1 as [|x l Hx Hl IH]; [done|]. rewrite !fmap_cons. cbn [foldr]. rewrite IH. destruct (decide (x = i)) as [->|Hne].
  - rewrite upd_eq. destruct (decide (i ∈ l)); [done|]. rewrite decide_True by set_solver. lia.
  - rewrite upd_ne by done. destruct (decide (i ∈ l)); [rewrite decide_True by set_solver|rewrite decide_False by set_solver]; lia.
Qed.

Lemma net_upd γ i v : (i < N)%nat → net (upd γ i v) = net γ + v - γ i.
Proof.
  intros Hi. unfold net. rewrite foldr_add_upd by apply NoDup_seq. rewrite decide_True by (apply elem_of_seq; lia). lia.
Qed.

(** What a thread has taken out is at most what can be put in. *)
Lemma taken_bound γ s i : (i < N)%nat → round_inv γ s → - γ i ≤ net cap.
Proof using Hcap.
  intros Hi (HI & Hc & _). assert (net γ ≤ net (upd cap i (γ i))) as Hm.
  { apply foldr_add_mono. intros j. unfold upd. case_decide; subst; [lia|apply Hc]. }
  rewrite net_upd in Hm by done. specialize (Hcap i). lia.
Qed.

(** ** Accesses *)

Section thread.
Context (waits : nat → (nat → Z) → Prop) (i : nat) (Hi : (i < N)%nat).
Notation safe := (cwp round_inv round_rely round_guar waits i).

Lemma safe_send {A} v (f : unit → prog roundE A) Q γ : quiet = false → γ i < cap i →
  (∀ γ', γ' i = γ i + 1 → safe (f tt) Q γ') → safe (act (QSend v) ≫= f) Q γ.
Proof using Hi Hcap.
  intros Hq Hlt Hf. apply cwp_act_bind; [done|]. intros γ' s [E _] (HI & Hc & Hd). cbn [handle round_handler].
  exists (upd γ' i (γ' i + 1)). split; [|split].
  - split; [intros j Hj; by apply upd_ne|]. intros Hq'. congruence.
  - split; [cbn [rm_queue]; rewrite length_app, net_upd by done; cbn [length]; lia|]. split; [|done].
    intros j. unfold upd. case_decide; subst; [lia|apply Hc].
  - apply Hf. rewrite upd_eq. lia.
Qed.

(** Receiving: a value, or the queue is empty. *)
Lemma safe_recv {A} (f : option Z → prog roundE A) Q γ :
  (∀ γ' v, γ' i = γ i - 1 → - γ' i ≤ net cap → safe (f (Some v)) Q γ') →
  (∀ γ', γ' i = γ i → net γ' = 0 → safe (f None) Q γ') → safe (act QRecv ≫= f) Q γ.
Proof using Hi Hcap.
  intros Hs Hn. apply cwp_act_bind; [done|]. intros γ' s [E L] HV. pose proof HV as (HI & Hc & Hd).
  cbn [handle round_handler]. destruct (rm_queue s) as [|v q] eqn:Hqu; cbn [head tail].
  - exists γ'. split; [split; [done|apply lowers_refl]|]. split; [by split; [rewrite <- HI|]|]. apply Hn; [done|]. cbn [length] in HI. lia.
  - assert (round_inv (upd γ' i (γ' i - 1)) (mkRound q (rm_done s) (rm_returned s))) as HV'.
    { split; [cbn [rm_queue]; rewrite net_upd by done; cbn [length] in HI; lia|]. split; [|done].
      intros j. specialize (Hc j). unfold upd. case_decide; subst; lia. }
    exists (upd γ' i (γ' i - 1)). split; [|split; [done|]].
    + split; [intros j Hj; by apply upd_ne|]. intros _ j. unfold upd. case_decide; subst; lia.
    + apply Hs; [rewrite upd_eq; lia|]. by eapply taken_bound.
Qed.

(** Accesses that leave the queue alone. *)
Lemma safe_load_done {A} (f : bool → prog roundE A) Q γ :
  (∀ b γ', γ' i = γ i → lowers γ γ' → (quiet = true → b = true) → safe (f b) Q γ') → safe (act DoneLoad ≫= f) Q γ.
Proof.
  intros Hf. apply cwp_act_bind; [done|]. intros γ' s [E L] HV. pose proof HV as (_ & _ & Hd). cbn [handle round_handler].
  exists γ'. split; [split; [done|apply lowers_refl]|]. split; [done|]. by apply Hf.
Qed.

Lemma safe_returned {A} (f : Z → prog roundE A) Q γ :
  (∀ n γ', γ' i = γ i → safe (f n) Q γ') → safe (act Returned ≫= f) Q γ.
Proof.
  intros Hf. apply cwp_act_bind; [done|]. intros γ' s [E L] HV. cbn [handle round_handler].
  exists γ'. split; [split; [done|apply lowers_refl]|]. split; [done|]. by apply Hf.
Qed.

Lemma safe_other {A} (e : roundE unit) (f : unit → prog roundE A) Q γ : e = DoneStore ∨ e = ProducerReturns →
  (∀ γ', γ' i = γ i → safe (f tt) Q γ') → safe (act e ≫= f) Q γ.
Proof.
  intros He Hf. apply cwp_act_bind; [done|]. intros γ' s [E L] (HI & Hc & Hd).
  destruct He as [->| ->]; cbn [handle round_handler]; exists γ'; (split; [split; [done|apply lowers_refl]|]);
    (split; [by split|]); by apply Hf.
Qed.

(** ** Producers *)

Lemma safe_for_range n lo (body : Z → prog roundE unit) g γ :
  (∀ x k γ, lo ≤ x < lo + Z.of_nat n → g ≤ k < g + Z.of_nat n → γ i = k → safe (body x) (λ _ γ', γ' i = k + 1) γ) →
  γ i = g → safe (for_range n lo body) (λ _ γ', γ' i = g + Z.of_nat n) γ.
Proof.
  revert lo g γ. induction n as [|n IH]; intros lo g γ Hb Hg; cbn [for_range].
  - apply cwp_ret. lia.
  - apply cwp_bind. eapply cwp_mono; [apply (Hb lo g γ); [lia..|done]|]. cbv beta. intros _ γ1 H1.
    eapply cwp_mono; [apply (IH (lo + 1) (g + 1)); [|done]|].
    + intros x k γ2 Hx Hk. apply Hb; lia.
    + cbv beta. intros _ γ2 H2. lia.
Qed.

Lemma safe_send_value v k γ : fuel ≠ O → quiet = false → k < cap i → γ i = k →
  safe (send_value_default fuel round_try_send v) (λ _ γ', γ' i = k + 1) γ.
Proof using Hi Hcap.
  intros Hf Hq Hk Hg. unfold send_value_default, round_try_send.
  apply (cwp_loop _ _ _ _ (λ _ γ, γ i = k) (λ _, O)); [done|lia|]. intros _ γ1 H1. apply cwp_bind.
  apply safe_send; [done|lia|]. intros γ2 H2. do 2 apply cwp_ret. lia.
Qed.

Lemma safe_send_batch base lo hi g γ :
  fuel ≠ O → quiet = false → 0 ≤ base → 0 ≤ lo ≤ hi → base + hi ≤ usize_max → g + (hi - lo) ≤ cap i → γ i = g →
  safe (send_batch_default fuel round_try_send base lo hi) (λ _ γ', γ' i = g + (hi - lo)) γ.
Proof using Hi Hcap.
  intros Hf Hq Hb Hlo Hmax Hc Hg. unfold send_batch_default.
  eapply cwp_mono; [apply (safe_for_range _ lo _ g); [|done]|].
  - intros x k γ1 Hx Hk H1. rewrite uadd_ok by lia. change (Ret ?a ≫= ?f) with (f a). cbv beta.
    apply safe_send_value; try done. lia.
  - cbv beta. intros _ γ1 H1. lia.
Qed.

Lemma safe_batched_send base items b g γ :
  (Z.to_nat items < fuel)%nat → quiet = false → 0 ≤ base → 0 ≤ items → base + items ≤ usize_max → 0 < b →
  g + items ≤ cap i → γ i = g →
  safe (batched_send (E := roundE) (H := round_ops fuel) fuel base items b) (λ _ γ', γ' i = g + items) γ.
Proof using Hi Hcap.
  intros Hf Hq Hb Hit Hmax Hbs Hc Hg. unfold batched_send.
  apply (cwp_loop _ _ _ _ (λ first γ, 0 ≤ first ≤ items ∧ γ i = g + first) (λ first, Z.to_nat (items - first)));
    [split; lia|lia|].
  intros first γ1 [Hfi H1]. zcase; [|apply cwp_ret; lia].
  set (next := Z.min (saturating_add first b) items).
  assert (first < next ≤ items) as Hn by (unfold next, saturating_add; lia).
  apply cwp_bind. eapply cwp_mono; [apply (safe_send_batch base first next (g + first)); try lia; done|].
  cbv beta. intros _ γ2 H2. apply cwp_ret. lia.
Qed.

(** Batches are not empty. *)
Definition batches (bs : option Z) : Prop := match bs with Some b => 0 < b | None => True end.

Lemma safe_producer items bs id γ :
  (Z.to_nat items < fuel)%nat → quiet = false → 0 ≤ id → 0 ≤ items → id * items + items ≤ usize_max → batches bs →
  items ≤ cap i → γ i = 0 → safe (round_producer fuel items bs id) (λ r γ', r = 0 ∧ γ' i = items) γ.
Proof using Hi Hcap.
  intros Hf Hq Hid Hit Hmax Hbs Hc Hg. assert (0 ≤ id * items) by nia. unfold round_producer. apply cwp_bind.
  apply (cwp_mono _ _ _ _ _ _ (λ _ γ', γ' i = items)).
  - unfold send_producer_items, checked_mul, checked_add. rewrite (proj2 (Z.leb_le _ _)) by lia. cbn [expect].
    change (Ret ?a ≫= ?f) with (f a). cbv beta. destruct bs as [b|]; [by apply (safe_batched_send _ _ _ 0)|].
    rewrite (proj2 (Z.leb_le _ _)) by lia. cbn [expect]. change (Ret ?a ≫= ?f) with (f a). cbv beta.
    replace (id * items + items - id * items) with items by lia.
    eapply cwp_mono; [apply (safe_for_range _ _ _ 0); [|done]|cbv beta; intros _ γ1 H1; lia].
    intros x k γ1 Hx Hk H1. apply safe_send_value; try done; lia.
  - cbv beta. intros _ γ1 H1. apply safe_other; [by right|]. intros γ2 H2. apply cwp_ret. lia.
Qed.

(** The main thread, while it may wait. *)
Lemma safe_main p γ : (∀ γ, waits i γ) → γ i = 0 → safe (round_main fuel p) (λ r γ', r = 0 ∧ γ' i = 0) γ.
Proof.
  intros Hw Hg. unfold round_main. apply cwp_bind.
  apply (cwp_loop_waits _ _ _ _ (λ _ γ, γ i = 0)); [done|by intros|]. intros _ γ1 H1.
  apply safe_returned. intros n γ2 H2. apply cwp_ret. case_match; [congruence|].
  apply safe_other; [by left|]. intros γ3 H3. apply cwp_ret. split; [done|congruence].
Qed.

(** ** Consumers *)

(** [r] values received; none only if the queue was seen empty. *)
Definition round_got (g r : Z) γ : Prop := γ i = g - r ∧ 0 ≤ r ∧ - γ i ≤ net cap ∧ (r = 0 → net γ ≤ 0).

Lemma safe_recv_rounds n c g γ : γ i = g - c → 0 ≤ c → - γ i ≤ net cap → (n = O → 0 < c) →
  safe (recv_batch_rounds (act QRecv) n c) (round_got g) γ.
Proof using Hi Hcap.
  revert c γ. induction n as [|n IH]; intros c γ Hg Hc Hb Hn; cbn [recv_batch_rounds].
  - apply cwp_ret. specialize (Hn eq_refl). repeat split; lia.
  - apply safe_recv.
    + intros γ1 v H1 Hb1. apply IH; lia.
    + intros γ1 H1 H0. apply cwp_ret. repeat split; lia.
Qed.

(** What a consumer has counted. *)
Definition counted (c : Z) γ : Prop := γ i = - c ∧ 0 ≤ c ≤ net cap.

(** One round of the loop of a consumer ends with the flag. *)
Lemma safe_stop (l c : Z) γ (Q : (Z * Z) + (Z * Z) → (nat → Z) → Prop) : counted c γ → (quiet = true → net γ ≤ 0) →
  (∀ γ', counted c γ' → (quiet = true → net γ' ≤ 0) → Q (inr (l, c)) γ') →
  (quiet = false → ∀ γ', counted c γ' → Q (inl (l, c)) γ') →
  safe (done ← act DoneLoad; Ret (if done : bool then inr (l, c) else inl (l, c))) Q γ.
Proof.
  intros [Hg Hc] Hn Hr Hl. apply safe_load_done. intros b γ1 H1 HL Hb. apply cwp_ret. destruct b.
  - apply Hr; [split; lia|]. intros Hq. specialize (Hn Hq). pose proof (net_lowers _ _ Hq HL). lia.
  - apply Hl; [|split; lia]. destruct quiet; [by discriminate Hb|done].
Qed.

(** A consumer of a quiet round gets on with every round of its loop; otherwise it may
    have to wait. *)
Definition consumer_runs : Prop := (quiet = true ∧ (Z.to_nat (net cap) < fuel)%nat) ∨ (∀ γ, waits i γ).

Definition consumed_all (c : Z) γ : Prop := counted c γ ∧ (quiet = true → net γ ≤ 0).

Definition consumer_turn (c : Z) (r : (Z * Z) + (Z * Z)) γ : Prop :=
  match r with
  | inl (_, c') => counted c' γ ∧ (quiet = true → c < c')
  | inr (_, c') => consumed_all c' γ
  end.

Lemma safe_consumer_loop (body : Z * Z → prog roundE ((Z * Z) + (Z * Z))) γ : consumer_runs → counted 0 γ →
  (∀ l c γ, counted c γ → safe (body (l, c)) (consumer_turn c) γ) →
  safe (loop fuel body (0, 0)) (λ r, consumed_all r.2) γ.
Proof.
  intros [[Hq Hf]|Hw] H0 Hb.
  - apply (cwp_loop _ _ _ _ (λ lc γ, counted lc.2 γ) (λ lc, Z.to_nat (net cap - lc.2))); [done|cbn [snd]; lia|].
    intros [l c] γ1 H1. eapply cwp_mono; [by apply Hb|]. intros [[l' c']|[l' c']] γ2; [|done].
    intros [H2 Hlt]. specialize (Hlt Hq). split; [done|]. destruct H1, H2. cbn [snd] in *. lia.
  - apply (cwp_loop_waits _ _ _ _ (λ lc γ, counted lc.2 γ)); [done|by intros|].
    intros [l c] γ1 H1. eapply cwp_mono; [by apply Hb|]. intros [[l' c']|[l' c']] γ2; [|done]. by intros [? _].
Qed.

Lemma checked_add_ok {A} a b (f : Z → prog roundE A) Q γ : a + b ≤ usize_max → safe (f (a + b)) Q γ →
  safe (expect (checked_add a b) ≫= f) Q γ.
Proof. intros Hm Hf. unfold checked_add. by rewrite (proj2 (Z.leb_le _ _)) by lia. Qed.

Lemma safe_consumer bs γ : consumer_runs → batches bs → net cap ≤ usize_max → 0 ≤ net cap → γ i = 0 →
  safe (round_consumer fuel bs) consumed_all γ.
Proof using Hi Hcap.
  intros Hr Hbs Hmax Hnc Hg. unfold round_consumer, receive_consumer_items. apply cwp_bind.
  apply (cwp_mono _ _ _ _ _ _ (λ r, consumed_all r.2)); [|intros [l c] γ1 H1; by apply cwp_ret].
  assert (∀ c r γ, round_got (- c) r γ → 0 ≤ c → 0 < r →
    safe (consumed ← expect (checked_add c r); last_data ← Ret 0; Ret (inl (last_data, consumed))) (consumer_turn c) γ) as Hmore.
  { intros c r γ1 (H1 & _ & H3 & _) Hc Hpos. apply checked_add_ok; [lia|]. apply cwp_ret. repeat split; lia. }
  assert (∀ l c γ, round_got (- c) 0 γ → 0 ≤ c →
    safe (done ← act DoneLoad; Ret (if done : bool then inr (l, c) else inl (l, c))) (consumer_turn c) γ) as Hstop.
  { intros l c γ1 (H1 & _ & H3 & H4) Hc. apply safe_stop; [split; lia|intros _; by apply H4|by split|].
    intros Hq γ2 H2. split; [done|]. congruence. }
  destruct bs as [b|]; (apply safe_consumer_loop; [done|split; lia|]); intros l c γ1 [H1 Hc]; cbv beta.
  - apply cwp_bind. eapply cwp_mono; [apply (safe_recv_rounds _ 0 (- c)); cbn in Hbs; lia|].
    intros r γ2 H2. zcase; cbn [negb]; [subst r; apply Hstop; [done|lia]|]. apply Hmore; [done|lia|]. destruct H2; lia.
  - apply safe_recv.
    + intros γ2 v H2 Hb2. apply Hmore; [|lia..]. repeat split; lia.
    + intros γ2 H2 H0. apply Hstop; [|lia]. repeat split; lia.
Qed.

End thread.

(** ** The pool *)

(** What a thread that returns [c] has done to the queue. *)
Definition round_post (i : nat) (c : Z) γ : Prop := γ i = cap i - c ∧ (quiet = true → net γ ≤ 0).

Lemma round_post_stable i : stable round_rely i (round_post i).
Proof.
  intros c γ γ' [Hg Hn] [E L]. split; [congruence|]. intros Hq. specialize (Hn Hq). pose proof (net_lowers _ _ Hq L). lia.
Qed.

Lemma net_returned γ cs : N = S (length cs) → γ (length cs) = cap (length cs) →
  (∀ j c, cs !! j = Some c → γ j = cap j - c) → net γ = net cap - foldr Z.add 0 cs.
Proof.
  intros HN Hlast Hcs. unfold net. rewrite HN, seq_S, Nat.add_0_l, !fmap_app, !foldr_app. cbn [fmap list_fmap foldr].
  rewrite !foldr_fmap, Hlast. clear HN.
  assert (∀ l k, (∀ j c, l !! j = Some c → γ (k + j)%nat = cap (k + j)%nat - c) →
    ∀ z, foldr (Z.add ∘ γ) z (seq k (length l)) = foldr (Z.add ∘ cap) z (seq k (length l)) - foldr Z.add 0 l) as Hl.
  { induction l as [|x l IH]; intros k Hk z; [cbn; lia|]. cbn [length seq foldr]. unfold compose in *.
    rewrite (IH (S k)); [|intros j c Hj; replace (S k + j)%nat with (k + S j)%nat by lia; by apply Hk].
    specialize (Hk 0%nat x eq_refl). rewrite Nat.add_0_r in Hk. lia. }
  apply (Hl cs 0%nat). exact Hcs.
Qed.

Lemma round_reach (waits : nat → (nat → Z) → Prop) (γ0 : nat → Z) ts s0 c :
  (∀ i γ γ', waits i γ → round_rely i γ γ' → waits i γ') →
  γ0 (length ts) = cap (length ts) → round_inv γ0 s0 →
  (∀ i p, ts !! i = Some p → cwp round_inv round_rely round_guar waits i p (round_post i) γ0) →
  rtc conc_step (ts, s0) c →
  ∃ γ, pool_ok round_inv round_rely round_guar waits round_post c γ ∧ γ (length ts) = cap (length ts) ∧
    length c.1 = length ts.
Proof.
  intros WS Hlast HI Hts Hr.
  destruct (pool_reach round_inv round_rely round_guar waits round_rg WS round_post (ts, s0) c γ0 round_post_stable) as (γ & Hok & Hm); [by split|done|].
  exists γ. split; [done|]. specialize (Hm (length ts)). unfold moved in Hm. cbn [fst] in Hm.
  rewrite lookup_ge_None_2 in Hm by done. destruct Hm as [_ [E _]]. split; [congruence|].
  change (length ts) with (length (ts, s0).1). clear -Hr. induction Hr as [|c1 c2 c3 Hs Hr IH]; [done|].
  rewrite IH. destruct Hs; cbn [fst]; by rewrite length_insert.
Qed.

Lemma round_returned waits γ c (cs : list Z) : N = S (length cs) → γ (length cs) = cap (length cs) → c.1 = Ret <$> cs →
  pool_ok round_inv round_rely round_guar waits round_post c γ →
  foldr Z.add 0 cs + Z.of_nat (length (rm_queue c.2)) = net cap ∧ (quiet = true → cs ≠ [] → rm_queue c.2 = []).
Proof.
  intros HN Hlast Hc [HI Hts]. rewrite Hc in Hts.
  assert (∀ j a, cs !! j = Some a → round_post j a γ) as Hp.
  { intros j a Hj. apply (Hts j (Ret a)). by rewrite list_lookup_fmap, Hj. }
  pose proof (net_returned γ cs HN Hlast (λ j a Hj, proj1 (Hp j a Hj))) as En. destruct HI as (HI & _). split; [lia|].
  intros Hq Hne. destruct cs as [|a cs]; [done|]. destruct (Hp 0%nat a eq_refl) as [_ H0]. specialize (H0 Hq).
  apply nil_length_inv. lia.
Qed.

End rounds.

(** ** A dequeue round *)

(** The threads of a pool of which nobody waits have returned, or the pool can go on. *)
Lemma round_progress N quiet cap γ ts s :
  pool_ok (round_inv N quiet cap) (round_rely quiet) (round_guar quiet) never (round_post N quiet cap) (ts, s) γ →
  (∃ c', conc_step (ts, s) c') ∨ ∃ cs : list Z, ts = Ret <$> cs.
Proof.
  intros Hok. destruct (decide (Forall (λ p, match p with Ret _ => true | _ => false end = true) ts)) as [HR|HN].
  - right. clear Hok. induction HR as [|p ts Hp HR IH]; [by exists []|]. destruct IH as [cs ->]. destruct p as [a| | |]; try done. by exists (a :: cs).
  - left. apply not_Forall_Exists, Exists_exists in HN as (p & [i Hi]%list_elem_of_lookup & Hp); [|intros p; apply _].
    pose proof (pool_fine _ _ _ _ (round_rg quiet) _ _ _ _ i p Hok Hi) as Hf. unfold thread_fine, never in Hf. destruct p as [|X e k| |]; [by destruct Hp| |done..].
    destruct (handle e s) as [x s'| |] eqn:Eh; [| |by destruct e].
    + eexists. eapply step_access; [exact Hi|]. cbn. by rewrite Eh.
    + by destruct e.
Qed.


Lemma foldr_add_replicate n x : foldr Z.add 0 (replicate n x) = Z.of_nat n * x.
Proof. induction n as [|n IH]; cbn [replicate foldr]; lia. Qed.

Lemma foldr_add_const (f : nat → Z) x a n : (∀ j, (a ≤ j < a + n)%nat → f j = x) →
  foldr Z.add 0 (f <$> seq a n) = Z.of_nat n * x.
Proof.
  revert a. induction n as [|n IH]; intros a Hf; [done|]. cbn [seq]. rewrite fmap_cons. cbn [foldr].
  rewrite Hf, IH by (try intros; try apply Hf; lia). lia.
Qed.

Lemma foldr_add_app (l1 l2 : list Z) : foldr Z.add 0 (l1 ++ l2) = foldr Z.add 0 l1 + foldr Z.add 0 l2.
Proof. induction l1 as [|x l1 IH]; cbn [app foldr]; lia. Qed.

Definition dequeue_cap (n : nat) (q : list Z) (j : nat) : Z := if decide (j = n) then Z.of_nat (length q) else 0.

Lemma net_dequeue_cap n q : net (S n) (dequeue_cap n q) = Z.of_nat (length q).
Proof.
  unfold net. rewrite seq_S, fmap_app, foldr_add_app, (foldr_add_const _ 0).
  - cbn. unfold dequeue_cap. rewrite decide_True by done. lia.
  - intros j Hj. unfold dequeue_cap. rewrite decide_False by lia. done.
Qed.

(** C22: a dequeue round drains the queue, in every interleaving of its consumers, one or
    more, scalar or batched: no execution is infinite, a pool that cannot go on has
    returned, and then the counts of the consumers add up to what was in the queue and
    nothing is left in it, so that the round passes its integrity check. *)
Theorem dequeue_round_drains `{PR : Profile} fuel consumers bs q c :
  0 < consumers → batches bs → Z.of_nat (length q) ≤ usize_max → (length q < fuel)%nat →
  rtc conc_step (dequeue_threads fuel consumers bs, dequeue_start q) c →
  Acc (flip conc_step) c ∧
  ((∃ c', conc_step c c') ∨
   ∃ cs : list Z, c.1 = Ret <$> cs ∧ rm_queue c.2 = [] ∧
     round_integrity (Z.of_nat (length q)) (foldr Z.add 0 cs) = true).
Proof.
  intros Hco Hbs Hq Hf Hr. split; [apply conc_step_terminates|].
  set (n := Z.to_nat consumers). set (cap := dequeue_cap n q).
  assert (length (dequeue_threads fuel consumers bs) = n) as Hlen by apply length_replicate.
  assert (∀ j, 0 ≤ cap j) as Hcap by (intros j; unfold cap, dequeue_cap; case_decide; lia).
  pose proof (net_dequeue_cap n q) as Hnet. fold cap in Hnet.
  destruct (round_reach (S n) true cap never cap (dequeue_threads fuel consumers bs) (dequeue_start q) c) as (γ & Hok & Hlast & Hl); try done.
  - intros i p Hi. apply lookup_replicate in Hi as [-> Hi]. fold n in Hi.
    eapply cwp_mono; [apply (safe_consumer fuel (S n) true cap Hcap never i); try done; try lia|].
    + left. split; [done|lia].
    + unfold cap, dequeue_cap. by rewrite decide_False by lia.
    + intros a γ [[Hg _] Hn]. split; [|done]. unfold cap, dequeue_cap. rewrite decide_False by lia. lia.
  - rewrite Hlen in *. destruct c as [ts s]. destruct (round_progress _ _ _ _ _ _ Hok) as [Hstep|[cs ->]]; [by left|right].
    cbn [fst] in Hl. rewrite length_fmap in Hl. exists cs. split; [done|].
    destruct (round_returned (S n) true cap never γ (Ret <$> cs, s) cs) as [Hsum Hqu]; try done; [by rewrite Hl..|].
    assert (cs ≠ []) as Hne by (intros ->; cbn in Hl; lia).
    specialize (Hqu eq_refl Hne). cbn [snd] in *. rewrite Hqu in Hsum. split; [done|].
    apply Z.eqb_eq. cbn [length] in Hsum. lia.
Qed.

(** ** A handoff round *)

Definition handoff_cap (producers items : Z) (j : nat) : Z := if Z.of_nat j <? producers then items else 0.

Lemma net_handoff_cap producers items n : 0 ≤ producers → net (Z.to_nat producers + n) (handoff_cap producers items) = producers * items.
Proof.
  intros Hp. unfold net. rewrite seq_app, fmap_app, foldr_add_app, (foldr_add_const _ items), (foldr_add_const _ 0).
  - rewrite Z2Nat.id by done. lia.
  - intros j Hj. unfold handoff_cap. zcase; lia.
  - intros j Hj. unfold handoff_cap. zcase; lia.
Qed.

Lemma lookup_handoff_threads `{PR : Profile} fuel producers consumers items bs i p :
  handoff_threads fuel producers consumers items bs !! i = Some p →
  (Z.of_nat i < producers ∧ p = round_producer fuel items bs (Z.of_nat i)) ∨
  (producers ≤ Z.of_nat i ∧ (p = round_main fuel producers ∨ p = round_consumer fuel bs)).
Proof.
  unfold handoff_threads. intros [Hi|[Hl Hi]]%lookup_app_Some.
  - rewrite list_lookup_fmap in Hi. apply fmap_Some in Hi as (k & Hk%lookup_seqZ & ->). left. destruct Hk as [-> Hk]. done.
  - right. rewrite length_fmap, length_seqZ in *. split; [lia|].
    apply lookup_app_Some in Hi as [Hi|[_ Hi]]; [left|right].
    + apply list_lookup_singleton_Some in Hi as [_ <-]. done.
    + by apply lookup_replicate in Hi as [-> _].
Qed.

(** The main thread and the consumers may wait. *)
Definition round_waits (producers : Z) (i : nat) (γ : nat → Z) : Prop := producers ≤ Z.of_nat i.

Lemma handoff_cap_other producers items i : producers ≤ Z.of_nat i → handoff_cap producers items i = 0.
Proof. intros Hi. unfold handoff_cap. zcase; lia. Qed.

Lemma handoff_cap_nonneg producers items j : 0 ≤ items → 0 ≤ handoff_cap producers items j.
Proof. intros Hi. unfold handoff_cap. zcase; lia. Qed.

Lemma safe_handoff `{PR : Profile} fuel N producers consumers items bs i p :
  0 ≤ producers → 0 ≤ items → producers * items ≤ usize_max → batches bs → (Z.to_nat items < fuel)%nat → (i < N)%nat →
  net N (handoff_cap producers items) = producers * items →
  handoff_threads fuel producers consumers items bs !! i = Some p →
  cwp (round_inv N false (handoff_cap producers items)) (round_rely false) (round_guar false) (round_waits producers) i p
    (round_post N false (handoff_cap producers items) i) (λ _, 0).
Proof.
  intros Hp Hit Hmax Hbs Hf HiN Hnet Hi. set (cap := handoff_cap producers items) in *.
  assert (∀ j, 0 ≤ cap j) as Hcap by (intros j; by apply handoff_cap_nonneg).
  pose proof (handoff_cap_other producers items) as Hcap0. fold cap in Hcap0.
  apply lookup_handoff_threads in Hi as [[Hlt ->]|[Hge [->| ->]]].
  - assert (cap i = items) as Hci by (unfold cap, handoff_cap; zcase; lia).
    assert (Z.of_nat i * items + items ≤ usize_max) by nia.
    eapply cwp_mono; [apply (safe_producer fuel N false cap Hcap _ i HiN); try done; lia|].
    intros a γ [-> Hg]. split; [lia|done].
  - eapply cwp_mono; [apply (safe_main fuel N false cap _ i); [by intros|done]|].
    intros a γ [-> Hg]. split; [rewrite Hcap0 by done; lia|done].
  - assert (0 ≤ producers * items) by nia.
    eapply cwp_mono; [apply (safe_consumer fuel N false cap Hcap _ i HiN); try done; [right; by intros|lia..]|].
    intros a γ [[Hg _] _]. split; [rewrite Hcap0 by done; lia|done].
Qed.

(** A handoff round neither loses nor counts twice, in every interleaving: no thread
    panics, the producers do not run out of steps, and once all threads have returned the
    counts of the consumers and the items left in the queue add up to the items sent, so
    that the integrity check fails exactly when items are left behind. *)
Theorem handoff_round_conserves `{PR : Profile} fuel producers consumers items bs c :
  0 ≤ producers → 0 ≤ items → producers * items ≤ usize_max → batches bs → (Z.to_nat items < fuel)%nat →
  rtc conc_step (handoff_threads fuel producers consumers items bs, handoff_start) c →
  (∀ i p, c.1 !! i = Some p → p ≠ Panic ∧ (Z.of_nat i < producers → p ≠ OutOfFuel)) ∧
  (∀ cs : list Z, c.1 = Ret <$> cs →
     foldr Z.add 0 cs + Z.of_nat (length (rm_queue c.2)) = producers * items ∧
     (round_integrity (producers * items) (foldr Z.add 0 cs) = true ↔ rm_queue c.2 = [])).
Proof.
  intros Hp Hit Hmax Hbs Hf Hr. set (ts := handoff_threads fuel producers consumers items bs) in *.
  set (cap := handoff_cap producers items). set (N := S (length ts)).
  assert (length ts = Z.to_nat producers + S (Z.to_nat consumers))%nat as Hlen.
  { unfold ts, handoff_threads. rewrite !length_app, length_fmap, length_seqZ, length_replicate. done. }
  assert (∀ j, 0 ≤ cap j) as Hcap by (intros j; by apply handoff_cap_nonneg).
  assert (net N cap = producers * items) as Hnet by (unfold N; rewrite Hlen, <- Nat.add_succ_r; by apply net_handoff_cap).
  destruct (round_reach N false cap (round_waits producers) (λ _, 0) ts handoff_start c) as (γ & Hok & Hlast & Hl); try done.
  - symmetry. apply handoff_cap_other. lia.
  - split; [|by split]. symmetry. unfold net. rewrite (foldr_add_const _ 0) by done. cbn. lia.
  - intros i p Hi. apply (safe_handoff fuel N _ consumers _ bs); try done. apply lookup_lt_Some in Hi. unfold N. lia.
  - split.
    + intros i p Hi. destruct c as [ts' s']. pose proof (pool_fine _ _ _ _ (round_rg false) _ _ _ _ i p Hok Hi) as Hfine.
      split; [by intros ->|]. intros Hlt ->. unfold thread_fine, round_waits in Hfine. lia.
    + intros cs Hc. assert (length cs = length ts) as Hcs by (rewrite <- Hl, Hc; by rewrite length_fmap).
      destruct (round_returned N false cap (round_waits producers) γ c cs) as [Hsum _]; try done; [by rewrite Hcs|by rewrite Hcs|].
      rewrite Hnet in Hsum. split; [done|]. unfold round_integrity. rewrite Z.eqb_eq. split; intros Hx.
      * apply nil_length_inv. lia.
      * rewrite Hx in Hsum. cbn in Hsum. lia.
Qed.

(** One producer of two items, one consumer: the consumer waits, then the round ends. *)
Definition handoff_pool : list (prog roundE Z) := handoff_threads (PR := true) 5 1 1 2 None.
Definition handoff_schedule : list nat := [2; 2; 0; 0; 2; 0; 1; 2; 1; 2; 2]%nat.

Lemma handoff_round_conserves_witness : ∃ c,
  run_sched handoff_schedule (handoff_pool, handoff_start) = Some c ∧
  (∀ cs : list Z, c.1 = Ret <$> cs → foldr Z.add 0 cs + Z.of_nat (length (rm_queue c.2)) = 1 * 2).
Proof.
  destruct (run_sched handoff_schedule (handoff_pool, handoff_start)) as [c|] eqn:E; [|vm_compute in E; discriminate E].
  exists c. split; [reflexivity|].
  refine (λ cs Hc, proj1 (proj2 (handoff_round_conserves (PR := true) 5 1 1 2 None c _ _ _ _ _ (run_sched_rtc _ _ _ E)) cs Hc)).
  - lia.
  - lia.
  - vm_compute; discriminate.
  - exact I.
  - vm_compute; lia.
Defined.

(** Two consumers drain three values, one in batches. *)
Lemma dequeue_round_drains_witness : ∃ c,
  run_sched [0; 1; 0; 1; 1; 0; 0; 1]%nat (dequeue_threads (PR := true) 5 2 (Some 2), dequeue_start [7; 8; 9]) = Some c ∧
  ((∃ c', conc_step c c') ∨
   ∃ cs : list Z, c.1 = Ret <$> cs ∧ rm_queue c.2 = [] ∧ round_integrity 3 (foldr Z.add 0 cs) = true).
Proof.
  destruct (run_sched _ _) as [c|] eqn:E; [|vm_compute in E; discriminate E].
  exists c. split; [reflexivity|].
  refine (proj2 (dequeue_round_drains (PR := true) 5 2 (Some 2) [7; 8; 9] c _ _ _ _ (run_sched_rtc _ _ _ E))).
  - lia.
  - vm_compute; reflexivity.
  - vm_compute; discriminate.
  - cbn [length]; lia.
Defined.
