(* ===== verification/Barrier.v ===== *)
(** * The round barrier of the hardware probes (src/src/bench_harness/hardware.rs)

    [RoundBarrier]: arrivals are counted in shards; the last arrival of a shard resets its
    counter and counts the shard in the root, and the last shard resets the root and
    publishes a new generation, which the others wait for.  The threads here call
    [wait] again and again; each call is bracketed by the events [Enter] and [Leave], which
    only count. *)

From S2P Require Import Prelude Prog Conc.

(** ** The barrier *)

Definition BARRIER_SHARDS : Z := 8.

(** The part that does not change. *)
Record RoundBarrier := mkBarrier { rb_participants : Z; rb_shards : Z; rb_quota : list Z }.

(** The counters, and the history of the threads. *)
Record barmem := mkBarmem {
  bm_shards : list Z;
  bm_root : Z;
  bm_generation : Z;
  bm_entered : nat → Z;
  bm_left : nat → Z
}.

(** [(lo..hi).step_by(step)] *)
Definition step_range (lo hi step : Z) : list Z := (λ k, lo + k * step) <$> seqZ 0 (div_ceil (hi - lo) step).

Definition shard_count (participants : Z) : Z := Z.min BARRIER_SHARDS (Z.max participants 1).

Definition shard_quota (participants shard : Z) : Z :=
  Z.of_nat (length (step_range shard participants (shard_count participants))).

Definition RoundBarrier_new (participants : Z) : RoundBarrier * barmem :=
  let shards := shard_count participants in
  (mkBarrier participants shards (shard_quota participants <$> seqZ 0 shards),
   mkBarmem (replicate (Z.to_nat shards) 0) 0 0 (λ _, 0) (λ _, 0)).

(** The accesses. *)
Inductive barE : Type → Type :=
| GenLoad : barE Z
| ShardAdd (shard : Z) : barE Z
| ShardReset (shard : Z) : barE unit
| RootAdd : barE Z
| RootReset : barE unit
| GenAdd : barE unit
| Enter (i : nat) : barE unit
| Leave (i : nat) : barE unit.

Definition set_shard (shard v : Z) (m : barmem) : barmem :=
  mkBarmem (<[Z.to_nat shard := v]> (bm_shards m)) (bm_root m) (bm_generation m) (bm_entered m) (bm_left m).
Definition set_root (v : Z) (m : barmem) : barmem :=
  mkBarmem (bm_shards m) v (bm_generation m) (bm_entered m) (bm_left m).

#[export] Instance bar_handler : Handler barE barmem := λ X e,
  match e in barE X return barmem → reply barmem X with
  | GenLoad => λ m, Next (bm_generation m) m
  | ShardAdd shard => λ m,
      match bm_shards m !! Z.to_nat shard with
      | Some v => Next v (set_shard shard (wrapping (v + 1)) m)
      | None => Fault
      end
  | ShardReset shard => λ m,
      match bm_shards m !! Z.to_nat shard with Some _ => Next tt (set_shard shard 0 m) | None => Fault end
  | RootAdd => λ m, Next (bm_root m) (set_root (wrapping (bm_root m + 1)) m)
  | RootReset => λ m, Next tt (set_root 0 m)
  | GenAdd => λ m, Next tt
      (mkBarmem (bm_shards m) (bm_root m) (wrapping (bm_generation m + 1)) (bm_entered m) (bm_left m))
  | Enter i => λ m, Next tt
      (mkBarmem (bm_shards m) (bm_root m) (bm_generation m) (upd (bm_entered m) i (bm_entered m i + 1)) (bm_left m))
  | Leave i => λ m, Next tt
      (mkBarmem (bm_shards m) (bm_root m) (bm_generation m) (bm_entered m) (upd (bm_left m) i (bm_left m i + 1)))
  end.

#[export] Instance bar_spurious : Spurious barE barmem := λ X e m, None.

Section barrier.
Context `{PR : Profile} (fuel : nat).

(** What the last arrival of a shard does; was it the last of all? *)
Definition finish_shard (b : RoundBarrier) (shard : Z) : prog barE bool :=
  act (ShardReset shard);;
  root ← act RootAdd;
  root ← uadd root 1;
  if root =? rb_shards b then
    act RootReset;;
    act GenAdd;;
    Ret true
  else Ret false.

(** [while self.generation.load() == generation { ... }] *)
Definition await_generation (generation : Z) : prog barE unit :=
  loop fuel (λ _ : unit, g ← act GenLoad; Ret (if g =? generation then inl tt else inr tt)) tt.

Definition wait (b : RoundBarrier) (id : Z) : prog barE unit :=
  if rb_participants b <=? 1 then Ret tt
  else
    generation ← act GenLoad;
    let shard := id mod rb_shards b in
    count ← act (ShardAdd shard);
    count ← uadd count 1;
    quota ← expect (rb_quota b !! Z.to_nat shard);
    last ← (if count =? quota then finish_shard b shard else Ret false);
    if last : bool then Ret tt else await_generation generation.

(** A participant that calls [wait] [k] times. *)
Definition participant (b : RoundBarrier) (k : nat) (i : nat) : prog barE unit :=
  for_range k 0 (λ _, act (Enter i);; wait b (Z.of_nat i);; act (Leave i)).

Definition barrier_threads (n k : nat) : list (prog barE unit) :=
  participant (RoundBarrier_new (Z.of_nat n)).1 k <$> seq 0 n.

Definition barrier_start (n : nat) : barmem := (RoundBarrier_new (Z.of_nat n)).2.

End barrier.

(** ** Quotas *)

Lemma shard_count_pos p : 0 < shard_count p ≤ Z.max p 1.
Proof. unfold shard_count, BARRIER_SHARDS. lia. Qed.

Definition in_shard (S : Z) (s : Z) (j : nat) : bool := Z.of_nat j mod S =? s.

(** The quota of a shard is the number of its participants. *)
Lemma count_in_shard (S s : Z) (n : nat) : 0 ≤ s < S →
  sumn n (λ j, if in_shard S s j then 1 else 0) = (Z.of_nat n - s + S - 1) / S.
Proof.
  intros Hs. induction n as [|n IH].
  - rewrite sumn_0. symmetry. apply Z.div_small. lia.
  - rewrite sumn_S, IH. unfold in_shard. set (x := Z.of_nat n).
    replace (Z.of_nat (Datatypes.S n)) with (x + 1) by lia. assert (0 ≤ x) by lia.
    pose proof (Z.div_mod x S ltac:(lia)) as Hd. pose proof (Z.mod_pos_bound x S ltac:(lia)) as Hm.
    set (q := x / S) in *. set (r := x mod S) in *.
    assert ((x - s + S - 1) / S = if r <=? s then q else q + 1) as ->.
    { symmetry. zcase; [apply Z.div_unique with (r - s + S - 1)|apply Z.div_unique with (r - s - 1)]; lia. }
    assert ((x + 1 - s + S - 1) / S = if r <? s then q else q + 1) as ->.
    { symmetry. zcase; [apply Z.div_unique with (r - s + S)|apply Z.div_unique with (r - s)]; lia. }
    repeat zcase; lia.
Qed.

Lemma div_ceil_div a b : 0 < b → div_ceil a b = (a + b - 1) / b.
Proof.
  intros Hb. unfold div_ceil. pose proof (Z.div_mod a b ltac:(lia)) as Hd. pose proof (Z.mod_pos_bound a b Hb) as Hm.
  zcase; [apply Z.div_unique with (b - 1)|apply Z.div_unique with (a mod b - 1)]; lia.
Qed.

Lemma shard_quota_count n s : 0 ≤ s < shard_count (Z.of_nat n) →
  shard_quota (Z.of_nat n) s = sumn n (λ j, if in_shard (shard_count (Z.of_nat n)) s j then 1 else 0).
Proof.
  intros Hs. rewrite count_in_shard by done. unfold shard_quota, step_range. rewrite length_fmap, length_seqZ.
  rewrite div_ceil_div by lia. rewrite Z2Nat.id; [done|]. apply Z.div_pos; lia.
Qed.

(** ** Ghost state

    The number of generations published; how often each thread has arrived; how far each
    shard and the root have come in the current generation, with the thread that is in
    charge; the history. *)

Inductive phase := Collecting | Full (i : nat) | Zeroed (i : nat) | Counted.
Inductive rootphase := RCollecting | RFull (i : nat) | RZeroed (i : nat).

Record bghost := mkBg {
  gr : Z;
  ga : nat → Z;
  gp : nat → phase;
  grp : rootphase;
  ge : nat → Z;
  gl : nat → Z
}.

(** What a thread is in charge of. *)
Inductive duty := NoDuty | ShardFull | ShardZero | RootFull | RootZero.

Section ghost.
Context `{PR : Profile} (fuel n : nat) (Hn : (2 ≤ n)%nat) (Hmax : Z.of_nat n ≤ usize_max).
Implicit Types (γ : bghost) (m : barmem) (i j s : nat).

Notation S_ := (shard_count (Z.of_nat n)).

Definition sh i : nat := Z.to_nat (Z.of_nat i mod S_).

Definition quota s : Z := sumn n (λ j, if decide (sh j = s) then 1 else 0).
Definition arrived γ s : Z := sumn n (λ j, if decide (sh j = s) then (if gr γ <? ga γ j then 1 else 0) else 0).
Definition counted_shards γ : Z := sumn (Z.to_nat S_) (λ s, match gp γ s with Counted => 1 | _ => 0 end).

Definition shard_inv γ s (v : option Z) : Prop :=
  match gp γ s with
  | Collecting => v = Some (arrived γ s) ∧ arrived γ s < quota s
  | Full i => v = Some (quota s) ∧ arrived γ s = quota s ∧ (i < n)%nat ∧ sh i = s
  | Zeroed i => v = Some 0 ∧ arrived γ s = quota s ∧ (i < n)%nat ∧ sh i = s
  | Counted => v = Some 0 ∧ arrived γ s = quota s
  end.

Definition root_inv γ (r : Z) : Prop :=
  match grp γ with
  | RCollecting => r = counted_shards γ ∧ counted_shards γ < S_
  | RFull i => r = S_ ∧ counted_shards γ = S_ ∧ (i < n)%nat
  | RZeroed i => r = 0 ∧ counted_shards γ = S_ ∧ (i < n)%nat
  end.

Record bar_inv γ m : Prop := {
  bi_gen : bm_generation m = wrapping (gr γ);
  bi_arr : ∀ j, (j < n)%nat → gl γ j ≤ gr γ ∧ gr γ ≤ ga γ j ≤ gr γ + 1 ∧ ga γ j ≤ ge γ j;
  bi_hist : ∀ j, bm_entered m j = ge γ j ∧ bm_left m j = gl γ j;
  bi_len : length (bm_shards m) = Z.to_nat S_;
  bi_shard : ∀ s, (s < Z.to_nat S_)%nat → shard_inv γ s (bm_shards m !! s);
  bi_root : root_inv γ (bm_root m)
}.

Definition duty_of γ i : duty :=
  match gp γ (sh i) with
  | Full j => if decide (j = i) then ShardFull else NoDuty
  | Zeroed j => if decide (j = i) then ShardZero else NoDuty
  | _ => match grp γ with
         | RFull j => if decide (j = i) then RootFull else NoDuty
         | RZeroed j => if decide (j = i) then RootZero else NoDuty
         | RCollecting => NoDuty
         end
  end.

Definition bar_rely i γ γ' : Prop :=
  ga γ' i = ga γ i ∧ ge γ' i = ge γ i ∧ gl γ' i = gl γ i ∧ duty_of γ' i = duty_of γ i ∧ gr γ ≤ gr γ'.
Definition bar_guar i γ γ' : Prop := ∀ j, j ≠ i → bar_rely j γ γ'.

Lemma bar_rg : rely_guarantee bar_rely bar_guar.
Proof.
  constructor.
  - intros i γ. by repeat split.
  - intros i γ1 γ2 γ3 (?&?&?&?&?) (?&?&?&?&?). repeat split; [congruence..|lia].
  - intros i j γ γ' Hg Hne. by apply Hg.
Qed.

(** ** Counting *)

Lemma S_pos : 0 < S_ ≤ Z.of_nat n.
Proof using Hn. pose proof (shard_count_pos (Z.of_nat n)). lia. Qed.

Lemma sh_lt i : (sh i < Z.to_nat S_)%nat.
Proof using Hn. unfold sh. pose proof S_pos. pose proof (Z.mod_pos_bound (Z.of_nat i) S_). lia. Qed.

Lemma quota_spec s : (s < Z.to_nat S_)%nat → shard_quota (Z.of_nat n) (Z.of_nat s) = quota s.
Proof using Hn.
  intros Hs. pose proof S_pos. rewrite shard_quota_count by lia. apply sumn_ext. intros j Hj. unfold in_shard, sh.
  pose proof (Z.mod_pos_bound (Z.of_nat j) S_). case_decide; zcase; lia.
Qed.

Lemma quota_pos s : (s < Z.to_nat S_)%nat → 0 < quota s.
Proof using Hn.
  intros Hs. pose proof S_pos. unfold quota.
  pose proof (sumn_change n (λ _, 0) (λ j, if decide (j = s) then 1 else 0) s ltac:(lia)) as Hc. cbv beta in Hc.
  rewrite sumn_const, decide_True in Hc by done.
  enough (sumn n (λ j, if decide (j = s) then 1 else 0) ≤ sumn n (λ j, if decide (sh j = s) then 1 else 0)).
  { rewrite Hc in *; [lia|]. intros j Hj. by rewrite decide_False. }
  apply sumn_mono. intros j Hj. case_decide; [|case_decide; lia]. subst.
  rewrite decide_True; [done|]. unfold sh. rewrite Z.mod_small; lia.
Qed.

Lemma quota_le s : quota s ≤ Z.of_nat n.
Proof. rewrite <- (Z.mul_1_r (Z.of_nat n)), <- sumn_const. apply sumn_mono. intros j _. case_decide; lia. Qed.

Lemma arrived_nonneg γ s : 0 ≤ arrived γ s.
Proof.
  transitivity (sumn n (λ _, 0)); [rewrite sumn_const; lia|]. apply sumn_mono. intros j _. case_decide; [zcase|]; lia.
Qed.

Lemma arrived_all γ s j : quota s ≤ arrived γ s → (j < n)%nat → sh j = s → gr γ < ga γ j.
Proof.
  intros Hq Hj Hs.
  assert ((if decide (sh j = s) then (if gr γ <? ga γ j then 1 else 0) else 0) = (if decide (sh j = s) then 1 else 0)) as H.
  { revert j Hj Hs. intros j Hj _. revert j Hj. apply sumn_full; [|done]. intros k _. case_decide; [zcase|]; lia. }
  rewrite !decide_True in H by done. revert H. zcase; lia.
Qed.

Lemma counted_all γ s : S_ ≤ counted_shards γ → (s < Z.to_nat S_)%nat → gp γ s = Counted.
Proof using Hn.
  intros Hc Hs. pose proof S_pos. assert (match gp γ s with Counted => 1 | _ => 0 end = 1) as H1.
  { revert s Hs. apply (sumn_full _ _ (λ _, 1)); [intros k _; case_match; lia|]. rewrite sumn_const. fold (counted_shards γ). lia. }
  by destruct (gp γ s).
Qed.

(** ** The accesses keep the invariant *)

(** A step of thread [i] that leaves the history alone and moves its shard on. *)
Definition set_phase γ i (p : phase) : bghost := mkBg (gr γ) (ga γ) (upd (gp γ) (sh i) p) (grp γ) (ge γ) (gl γ).

Lemma duty_full γ i : duty_of γ i = ShardFull → gp γ (sh i) = Full i.
Proof. unfold duty_of. repeat case_match; congruence. Qed.

Lemma duty_zero γ i : duty_of γ i = ShardZero → gp γ (sh i) = Zeroed i.
Proof. unfold duty_of. repeat case_match; congruence. Qed.

Lemma duty_rfull γ i : duty_of γ i = RootFull → grp γ = RFull i.
Proof. unfold duty_of. repeat case_match; congruence. Qed.

Lemma duty_rzero γ i : duty_of γ i = RootZero → grp γ = RZeroed i.
Proof. unfold duty_of. repeat case_match; congruence. Qed.

(** While a shard is not counted the root is still collecting. *)
Lemma root_collecting γ m s : bar_inv γ m → (s < Z.to_nat S_)%nat → gp γ s ≠ Counted →
  grp γ = RCollecting ∧ bm_root m = counted_shards γ ∧ counted_shards γ < S_.
Proof using Hn.
  intros HI Hs Hp. pose proof (bi_root _ _ HI) as Hr. unfold root_inv in Hr. destruct (grp γ); [by destruct Hr| |];
    destruct Hr as (_ & Hc & _); contradict Hp; apply counted_all; by rewrite ?Hc.
Qed.

Lemma counted_nonneg γ : 0 ≤ counted_shards γ.
Proof.
  transitivity (sumn (Z.to_nat S_) (λ _, 0)); [rewrite sumn_const; lia|]. apply sumn_mono. intros s _. case_match; lia.
Qed.

Lemma counted_same γ γ' : (∀ s, gp γ' s = Counted ↔ gp γ s = Counted) → counted_shards γ' = counted_shards γ.
Proof.
  intros H. apply sumn_ext. intros s _. specialize (H s). destruct (gp γ' s), (gp γ s); try done; destruct H as [H1 H2];
    (by discriminate H1 || by discriminate H2).
Qed.

Lemma duty_other γ i p j : j ≠ i → p = Full i ∨ p = Zeroed i ∨ p = Collecting ∨ p = Counted →
  grp γ = RCollecting → (∀ k, gp γ (sh i) = Full k ∨ gp γ (sh i) = Zeroed k → k = i) →
  duty_of (set_phase γ i p) j = duty_of γ j.
Proof.
  intros Hne Hp Hr Hown. unfold duty_of. cbn [gp grp set_phase]. rewrite Hr.
  destruct (decide (sh j = sh i)) as [E|Hs]; [|by rewrite upd_ne].
  rewrite E, upd_eq.
  assert (match gp γ (sh i) with
   | Full j0 => if decide (j0 = j) then ShardFull else NoDuty
   | Zeroed j0 => if decide (j0 = j) then ShardZero else NoDuty
   | _ => NoDuty end = NoDuty) as ->.
  { destruct (gp γ (sh i)) as [|k|k|] eqn:Ep; try done; (rewrite decide_False; [done|]); intros ->; apply Hne, (Hown j); auto. }
  destruct Hp as [->|[->|[->| ->]]]; try done; by rewrite decide_False.
Qed.

(** Shards that did not change. *)
Lemma shard_inv_same γ γ' s v : gp γ' s = gp γ s → arrived γ' s = arrived γ s → shard_inv γ s v → shard_inv γ' s v.
Proof. unfold shard_inv. intros -> ->. done. Qed.

(** Arriving. *)
Definition arrive γ i : bghost :=
  mkBg (gr γ) (upd (ga γ) i (ga γ i + 1))
    (if arrived γ (sh i) + 1 =? quota (sh i) then upd (gp γ) (sh i) (Full i) else gp γ) (grp γ) (ge γ) (gl γ).

Lemma arrived_arrive γ i s : (i < n)%nat → ga γ i = gr γ →
  arrived (arrive γ i) s = arrived γ s + (if decide (s = sh i) then 1 else 0).
Proof.
  intros Hi Hg. unfold arrived. rewrite (sumn_change n
    (λ j, if decide (sh j = s) then (if gr γ <? ga γ j then 1 else 0) else 0) _ i Hi); cbn [arrive gr ga].
  - rewrite upd_eq. destruct (decide (sh i = s)) as [<-|Hs]; [rewrite decide_True by done|rewrite decide_False by done; lia].
    repeat zcase; lia.
  - intros j Hj. by rewrite upd_ne.
Qed.

Lemma arrive_collecting γ m i : bar_inv γ m → (i < n)%nat → ga γ i = gr γ →
  gp γ (sh i) = Collecting ∧ bm_shards m !! sh i = Some (arrived γ (sh i)) ∧ arrived γ (sh i) < quota (sh i).
Proof using Hn.
  intros HI Hi Hg. pose proof (bi_shard _ _ HI (sh i) (sh_lt i)) as Hs. unfold shard_inv in Hs.
  assert (¬ quota (sh i) ≤ arrived γ (sh i)) as Hna.
  { intros Hq. pose proof (arrived_all γ (sh i) i Hq Hi eq_refl). lia. }
  destruct (gp γ (sh i)); [by destruct Hs| | |]; exfalso; apply Hna; destruct Hs as (_ & Ha); lia.
Qed.

Lemma inv_arrive γ m i : bar_inv γ m → (i < n)%nat → ga γ i = gr γ → ga γ i + 1 ≤ ge γ i →
  bar_inv (arrive γ i) (set_shard (Z.of_nat i mod S_) (wrapping (arrived γ (sh i) + 1)) m) ∧ bar_guar i γ (arrive γ i).
Proof using Hn Hmax.
  intros HI Hi Hg He. destruct (arrive_collecting γ m i HI Hi Hg) as (Hp & Hv & Hlt).
  destruct (root_collecting γ m (sh i) HI (sh_lt i)) as (Hr & Hroot & Hc); [by rewrite Hp|].
  pose proof (arrived_nonneg γ (sh i)) as Hnn. pose proof (quota_le (sh i)) as Hq.
  assert (wrapping (arrived γ (sh i) + 1) = arrived γ (sh i) + 1) as ->.
  { unfold wrapping. apply Z.mod_small. unfold usize_max in Hmax. lia. }
  assert (counted_shards (arrive γ i) = counted_shards γ) as Hcs.
  { apply counted_same. intros s. cbn [arrive gp]. zcase; [|done]. unfold upd. case_decide; [subst; by rewrite Hp|done]. }
  split.
  - constructor; cbn [arrive gr ga ge gl set_shard bm_generation bm_entered bm_left bm_shards bm_root].
    + apply HI.
    + intros j Hj. pose proof (bi_arr _ _ HI j Hj). unfold upd. case_decide; subst; lia.
    + apply HI.
    + rewrite length_insert. apply HI.
    + fold (sh i). intros s Hs. destruct (decide (s = sh i)) as [->|Hne].
      * rewrite list_lookup_insert_eq by (rewrite (bi_len _ _ HI); apply sh_lt). unfold shard_inv.
        rewrite arrived_arrive, decide_True by done. cbn [arrive gp]. zcase; [rewrite upd_eq; repeat split; try done; by f_equal|].
        rewrite Hp. split; [done|lia].
      * rewrite list_lookup_insert_ne by done. apply (shard_inv_same γ); [| |by apply HI].
        -- cbn [arrive gp]. zcase; [by apply upd_ne|done].
        -- rewrite arrived_arrive, decide_False by done. lia.
    + unfold root_inv. cbn [arrive grp]. rewrite Hr, Hcs. done.
  - intros j Hj. repeat split; cbn [arrive gr ga ge gl]; [by apply upd_ne| |done].
    destruct (arrived γ (sh i) + 1 =? quota (sh i)) eqn:E.
    + etrans; [|apply (duty_other γ i (Full i) j Hj); [by left|done|rewrite Hp; intros k [?|?]; done]].
      unfold duty_of, arrive, set_phase. cbn [gp grp]. by rewrite E.
    + unfold duty_of, arrive. cbn [gp grp]. by rewrite E.
Qed.

(** Resetting the counter of a full shard. *)
Lemma inv_reset γ m i : bar_inv γ m → (i < n)%nat → duty_of γ i = ShardFull →
  is_Some (bm_shards m !! sh i) ∧
  bar_inv (set_phase γ i (Zeroed i)) (set_shard (Z.of_nat i mod S_) 0 m) ∧ bar_guar i γ (set_phase γ i (Zeroed i)) ∧
  duty_of (set_phase γ i (Zeroed i)) i = ShardZero.
Proof using Hn.
  intros HI Hi Hd%duty_full. pose proof (bi_shard _ _ HI (sh i) (sh_lt i)) as Hs. unfold shard_inv in Hs. rewrite Hd in Hs.
  destruct Hs as (Hv & Ha & _ & _). rewrite Hv. split; [done|].
  destruct (root_collecting γ m (sh i) HI (sh_lt i)) as (Hr & Hroot & Hc); [by rewrite Hd|].
  assert (counted_shards (set_phase γ i (Zeroed i)) = counted_shards γ) as Hcs.
  { apply counted_same. intros s. cbn [set_phase gp]. unfold upd. case_decide; [subst; by rewrite Hd|done]. }
  split; [|split].
  - constructor; cbn [set_phase gr ga ge gl set_shard bm_generation bm_entered bm_left bm_shards bm_root]; try apply HI.
    + rewrite length_insert. apply HI.
    + fold (sh i). intros s Hs. destruct (decide (s = sh i)) as [->|Hne].
      * rewrite list_lookup_insert_eq by (rewrite (bi_len _ _ HI); apply sh_lt). unfold shard_inv.
        cbn [set_phase gp]. rewrite upd_eq. done.
      * rewrite list_lookup_insert_ne by done. apply (shard_inv_same γ); [by apply upd_ne|done|by apply HI].
    + unfold root_inv. cbn [set_phase grp]. rewrite Hr, Hcs. done.
  - intros j Hj. repeat split; try done. apply duty_other; [done|auto|done|rewrite Hd; intros k [[= ->]|?]; done].
  - unfold duty_of. cbn [set_phase gp]. by rewrite upd_eq, decide_True.
Qed.

(** Counting a shard in the root. *)
Definition count_shard γ i : bghost :=
  mkBg (gr γ) (ga γ) (upd (gp γ) (sh i) Counted) (if counted_shards γ + 1 =? S_ then RFull i else grp γ) (ge γ) (gl γ).

Lemma counted_count γ i : gp γ (sh i) ≠ Counted → counted_shards (count_shard γ i) = counted_shards γ + 1.
Proof using Hn.
  intros Hp. unfold counted_shards. rewrite (sumn_change _ (λ s, match gp γ s with Counted => 1 | _ => 0 end) _ (sh i) (sh_lt i)).
  - cbn [count_shard gp]. rewrite upd_eq. destruct (gp γ (sh i)); try done; lia.
  - intros s Hs. cbn [count_shard gp]. by rewrite upd_ne.
Qed.

Lemma inv_count γ m i : bar_inv γ m → (i < n)%nat → duty_of γ i = ShardZero →
  0 ≤ bm_root m < S_ ∧
  bar_inv (count_shard γ i) (set_root (wrapping (bm_root m + 1)) m) ∧ bar_guar i γ (count_shard γ i) ∧
  duty_of (count_shard γ i) i = (if bm_root m + 1 =? S_ then RootFull else NoDuty).
Proof using Hn Hmax.
  intros HI Hi Hd%duty_zero. pose proof (bi_shard _ _ HI (sh i) (sh_lt i)) as Hs. unfold shard_inv in Hs. rewrite Hd in Hs.
  destruct Hs as (Hv & Ha & _ & _).
  destruct (root_collecting γ m (sh i) HI (sh_lt i)) as (Hr & -> & Hc); [by rewrite Hd|].
  pose proof (counted_nonneg γ) as Hnn. pose proof S_pos as HS.
  assert (counted_shards (count_shard γ i) = counted_shards γ + 1) as Hcs by (apply counted_count; by rewrite Hd).
  assert (wrapping (counted_shards γ + 1) = counted_shards γ + 1) as ->.
  { unfold wrapping. apply Z.mod_small. unfold usize_max in Hmax. lia. }
  split; [lia|]. split; [|split].
  - constructor; cbn [count_shard gr ga ge gl set_root bm_generation bm_entered bm_left bm_shards bm_root]; try apply HI.
    + intros s Hs. destruct (decide (s = sh i)) as [->|Hne].
      * unfold shard_inv. cbn [count_shard gp]. rewrite upd_eq. done.
      * apply (shard_inv_same γ); [by apply upd_ne|done|by apply HI].
    + unfold root_inv. cbn [count_shard grp]. rewrite Hcs, Hr. zcase; [done|]. split; [done|lia].
  - intros j Hj. repeat split; try done. etrans; [|apply (duty_other γ i Counted j Hj); [auto|done|]].
    + unfold duty_of. cbn [count_shard set_phase gp grp]. rewrite Hr.
      destruct (upd (gp γ) (sh i) Counted (sh j)); try done; zcase; try done; by rewrite decide_False.
    + rewrite Hd. intros k [?|[= ->]]; done.
  - unfold duty_of. cbn [count_shard gp grp]. rewrite upd_eq, Hr. zcase; [by rewrite decide_True|done].
Qed.

(** Resetting the root. *)
Definition reset_root γ i : bghost := mkBg (gr γ) (ga γ) (gp γ) (RZeroed i) (ge γ) (gl γ).

Lemma duty_counted γ j : gp γ (sh j) = Counted →
  duty_of γ j = match grp γ with
         | RFull k => if decide (k = j) then RootFull else NoDuty
         | RZeroed k => if decide (k = j) then RootZero else NoDuty
         | RCollecting => NoDuty
         end.
Proof. unfold duty_of. by intros ->. Qed.

Lemma inv_reset_root γ m i : bar_inv γ m → (i < n)%nat → duty_of γ i = RootFull →
  bar_inv (reset_root γ i) (set_root 0 m) ∧ bar_guar i γ (reset_root γ i) ∧ duty_of (reset_root γ i) i = RootZero.
Proof using Hn.
  intros HI Hi Hd%duty_rfull. pose proof (bi_root _ _ HI) as Hr. unfold root_inv in Hr. rewrite Hd in Hr.
  destruct Hr as (Hr & Hc & _).
  assert (∀ s, (s < Z.to_nat S_)%nat → gp γ s = Counted) as Hall by (intros s Hs; apply counted_all; [by rewrite Hc|done]).
  split; [|split].
  - constructor; cbn [reset_root gr ga ge gl set_root bm_generation bm_entered bm_left bm_shards bm_root]; try apply HI.
    unfold root_inv. cbn [reset_root grp]. done.
  - intros j Hj. repeat split; try done. pose proof (Hall (sh j) (sh_lt j)) as Hc'.
    rewrite !duty_counted by done. cbn [reset_root grp]. rewrite Hd. by rewrite !decide_False.
  - rewrite duty_counted by (apply Hall, sh_lt). cbn [reset_root grp]. by rewrite decide_True.
Qed.

(** Publishing the generation: everybody has arrived. *)
Definition publish_generation γ : bghost := mkBg (gr γ + 1) (ga γ) (λ _, Collecting) RCollecting (ge γ) (gl γ).

Lemma wrapping_succ x : wrapping (wrapping x + 1) = wrapping (x + 1).
Proof. unfold wrapping. by rewrite Zplus_mod_idemp_l. Qed.

Lemma inv_publish_generation γ m i : bar_inv γ m → (i < n)%nat → duty_of γ i = RootZero →
  bar_inv (publish_generation γ) (mkBarmem (bm_shards m) (bm_root m) (wrapping (bm_generation m + 1)) (bm_entered m) (bm_left m)) ∧
  bar_guar i γ (publish_generation γ) ∧ duty_of (publish_generation γ) i = NoDuty.
Proof using Hn.
  intros HI Hi Hd%duty_rzero. pose proof (bi_root _ _ HI) as Hr. unfold root_inv in Hr. rewrite Hd in Hr.
  destruct Hr as (Hr & Hc & _). pose proof S_pos as HS.
  assert (∀ s, (s < Z.to_nat S_)%nat → gp γ s = Counted) as Hall by (intros s Hs; apply counted_all; [by rewrite Hc|done]).
  assert (∀ s, (s < Z.to_nat S_)%nat → bm_shards m !! s = Some 0 ∧ arrived γ s = quota s) as Hsh.
  { intros s Hs. pose proof (bi_shard _ _ HI s Hs) as H. unfold shard_inv in H. by rewrite (Hall s Hs) in H. }
  assert (∀ j, (j < n)%nat → ga γ j = gr γ + 1) as Harr.
  { intros j Hj. pose proof (bi_arr _ _ HI j Hj). destruct (Hsh (sh j) (sh_lt j)) as [_ Ha].
    pose proof (arrived_all γ (sh j) j ltac:(lia) Hj eq_refl). lia. }
  assert (∀ s, arrived (publish_generation γ) s = 0) as Ha0.
  { intros s. unfold arrived. cbn [publish_generation gr ga]. rewrite (sumn_ext n _ (λ _, 0)); [rewrite sumn_const; lia|].
    intros j Hj. rewrite (Harr j Hj). case_decide; [zcase|]; lia. }
  split; [|split].
  - constructor; cbn [publish_generation gr ga ge gl bm_generation bm_entered bm_left bm_shards bm_root]; try apply HI.
    + rewrite (bi_gen _ _ HI). apply wrapping_succ.
    + intros j Hj. pose proof (bi_arr _ _ HI j Hj). specialize (Harr j Hj). lia.
    + intros s Hs. unfold shard_inv. cbn [publish_generation gp]. rewrite Ha0. destruct (Hsh s Hs) as [-> _].
      split; [done|by apply quota_pos].
    + unfold root_inv. cbn [publish_generation grp]. unfold counted_shards. cbn [publish_generation gp]. rewrite sumn_const. lia.
  - intros j Hj. repeat split; cbn [publish_generation gr]; [|lia]. rewrite (duty_counted γ) by (apply Hall, sh_lt).
    rewrite Hd, decide_False by done. done.
  - done.
Qed.

(** ** A thread *)

(** A thread may run out of turns only when it has arrived and has nothing to do. *)
Definition bar_waits i γ : Prop := duty_of γ i = NoDuty ∧ ge γ i = ga γ i.

Lemma bar_waits_stable i γ γ' : bar_waits i γ → bar_rely i γ γ' → bar_waits i γ'.
Proof. intros [H1 H2] (E1 & E2 & E3 & E4 & _). split; congruence. Qed.

(** What thread [i] knows: its arrivals, the calls it has entered and left, its duty, and a
    generation that has been published. *)
Definition at_ i (a e l : Z) (d : duty) (g : Z) γ : Prop :=
  ga γ i = a ∧ ge γ i = e ∧ gl γ i = l ∧ duty_of γ i = d ∧ g ≤ gr γ.

Lemma at_rely i a e l d g γ γ' : at_ i a e l d g γ → bar_rely i γ γ' → at_ i a e l d g γ'.
Proof. intros (?&?&?&?&?) (?&?&?&?&?). repeat split; [congruence..|lia]. Qed.

Section thread.
Context (i : nat) (Hi : (i < n)%nat).
Notation safe := (cwp bar_inv bar_rely bar_guar bar_waits i).

(** An access by thread [i]. *)
Lemma safe_access {X A} (e : barE X) (f : X → prog barE A) Q γ a en l d g : at_ i a en l d g γ →
  (∀ γ' m, at_ i a en l d g γ' → bar_inv γ' m →
     ∃ x m' γ'', handle e m = Next x m' ∧ bar_guar i γ' γ'' ∧ bar_inv γ'' m' ∧ safe (f x) Q γ'') →
  safe (act e ≫= f) Q γ.
Proof.
  intros Hat Hf. apply cwp_act_bind; [done|]. intros γ' m Hr HI.
  destruct (Hf γ' m (at_rely _ _ _ _ _ _ _ _ Hat Hr) HI) as (x & m' & γ'' & -> & Hrest). eauto.
Qed.

Lemma safe_gen {A} (f : Z → prog barE A) Q γ a e l d g : at_ i a e l d g γ →
  (∀ γ' v, at_ i a e l d g γ' → gr γ' ≤ a ≤ gr γ' + 1 → v = wrapping (gr γ') → safe (f v) Q γ') →
  safe (act GenLoad ≫= f) Q γ.
Proof using Hi Hn.
  intros Hat Hf. eapply safe_access; [exact Hat|]. intros γ' m Hat' HI. eexists _, _, γ'. split; [done|].
  split; [intros j _; apply bar_rg|]. split; [done|]. apply Hf; [done| |apply HI].
  pose proof (bi_arr _ _ HI i Hi). destruct Hat' as (<- & _). lia.
Qed.

Lemma safe_enter {A} (f : unit → prog barE A) Q γ r : at_ i r r r NoDuty r γ →
  (∀ γ', at_ i r (r + 1) r NoDuty r γ' → safe (f tt) Q γ') → safe (act (Enter i) ≫= f) Q γ.
Proof using Hi Hn.
  intros Hat Hf. eapply safe_access; [exact Hat|]. intros γ' m Hat' HI.
  set (γ'' := mkBg (gr γ') (ga γ') (gp γ') (grp γ') (upd (ge γ') i (ge γ' i + 1)) (gl γ')).
  exists tt. eexists. exists γ''. split; [done|]. destruct Hat' as (Ha & He & Hl & Hd & Hg). split; [|split].
  - intros j Hj. repeat split; try done. cbn [γ'' ge]. by apply upd_ne.
  - constructor; cbn [γ'' gr ga ge gl bm_generation bm_entered bm_left bm_shards bm_root]; try apply HI.
    + intros j Hj. pose proof (bi_arr _ _ HI j Hj). unfold upd. case_decide; subst; lia.
    + intros j. destruct (bi_hist _ _ HI j) as [E1 E2]. unfold upd. case_decide; subst; [|done]. by rewrite E1.
  - apply Hf. repeat split; try done. cbn [γ'' ge]. rewrite upd_eq. lia.
Qed.

Lemma safe_leave {A} (f : unit → prog barE A) Q γ r : at_ i (r + 1) (r + 1) r NoDuty (r + 1) γ →
  (∀ γ', at_ i (r + 1) (r + 1) (r + 1) NoDuty (r + 1) γ' → safe (f tt) Q γ') → safe (act (Leave i) ≫= f) Q γ.
Proof using Hi Hn.
  intros Hat Hf. eapply safe_access; [exact Hat|]. intros γ' m Hat' HI.
  set (γ'' := mkBg (gr γ') (ga γ') (gp γ') (grp γ') (ge γ') (upd (gl γ') i (gl γ' i + 1))).
  exists tt. eexists. exists γ''. split; [done|]. destruct Hat' as (Ha & He & Hl & Hd & Hg). split; [|split].
  - intros j Hj. repeat split; try done. cbn [γ'' gl]. by apply upd_ne.
  - constructor; cbn [γ'' gr ga ge gl bm_generation bm_entered bm_left bm_shards bm_root]; try apply HI.
    + intros j Hj. pose proof (bi_arr _ _ HI j Hj). unfold upd. case_decide; subst; lia.
    + intros j. destruct (bi_hist _ _ HI j) as [E1 E2]. unfold upd. case_decide; subst; [|done]. by rewrite E2.
  - apply Hf. repeat split; try done. cbn [γ'' gl]. rewrite upd_eq. lia.
Qed.

(** Arriving: the last one of a shard has a duty. *)
Lemma safe_arrive {A} (f : Z → prog barE A) Q γ r : at_ i r (r + 1) r NoDuty r γ →
  (∀ γ' c, 0 ≤ c < Z.of_nat n → at_ i (r + 1) (r + 1) r (if c + 1 =? quota (sh i) then ShardFull else NoDuty) r γ' → safe (f c) Q γ') →
  safe (act (ShardAdd (Z.of_nat i mod S_)) ≫= f) Q γ.
Proof using Hi Hn Hmax.
  intros Hat Hf. eapply safe_access; [exact Hat|]. intros γ' m (Ha & He & Hl & Hd & Hg) HI.
  pose proof (bi_arr _ _ HI i Hi) as (_ & Hge & _). assert (ga γ' i = gr γ') as Hgr by lia.
  destruct (arrive_collecting γ' m i HI Hi Hgr) as (Hp & Hv & Hlt).
  destruct (inv_arrive γ' m i HI Hi Hgr) as [HI' HG']; [lia|].
  eexists _, _, _. split; [cbn [handle bar_handler]; fold (sh i); by rewrite Hv|]. split; [exact HG'|]. split; [exact HI'|].
  pose proof (arrived_nonneg γ' (sh i)). pose proof (quota_le (sh i)). apply Hf; [lia|].
  repeat split; try done; cbn [arrive ga gr]; [rewrite upd_eq; lia|].
  destruct (root_collecting γ' m (sh i) HI (sh_lt i)) as (Hr & _); [by rewrite Hp|].
  unfold duty_of. cbn [arrive gp grp]. rewrite Hr. zcase; [by rewrite upd_eq, decide_True|by rewrite Hp].
Qed.

(** The end of a shard. *)
Lemma safe_finish (b : RoundBarrier) r γ : rb_shards b = S_ → at_ i (r + 1) (r + 1) r ShardFull r γ →
  safe (finish_shard b (Z.of_nat i mod S_))
    (λ last γ', at_ i (r + 1) (r + 1) r NoDuty (if last : bool then r + 1 else r) γ') γ.
Proof using Hi Hn Hmax.
  intros Hb Hat. unfold finish_shard. eapply safe_access; [exact Hat|]. intros γ1 m1 (Ha & He & Hl & Hd & Hg) HI1.
  destruct (inv_reset γ1 m1 i HI1 Hi Hd) as ([v Hv] & HI2 & HG2 & Hd2).
  eexists _, _, _. split; [cbn [handle bar_handler]; fold (sh i); by rewrite Hv|]. split; [exact HG2|]. split; [exact HI2|].
  eapply (safe_access _ _ _ _ (r + 1) (r + 1) r ShardZero r); [done|]. intros γ2 m2 (Ha2 & He2 & Hl2 & Hd2' & Hg2) HI3.
  destruct (inv_count γ2 m2 i HI3 Hi Hd2') as (Hroot & HI4 & HG4 & Hd4).
  eexists _, _, _. split; [done|]. split; [exact HG4|]. split; [exact HI4|].
  pose proof S_pos as HS. rewrite uadd_ok by lia. change (Ret ?a ≫= ?f) with (f a). cbv beta. rewrite Hb.
  zcase; [|by apply cwp_ret].
  eapply (safe_access _ _ _ _ (r + 1) (r + 1) r RootFull r); [done|]. intros γ3 m3 (Ha3 & He3 & Hl3 & Hd3 & Hg3) HI5.
  destruct (inv_reset_root γ3 m3 i HI5 Hi Hd3) as (HI6 & HG6 & Hd6).
  eexists _, _, _. split; [done|]. split; [exact HG6|]. split; [exact HI6|].
  eapply (safe_access _ _ _ _ (r + 1) (r + 1) r RootZero r); [done|]. intros γ4 m4 (Ha7 & He7 & Hl7 & Hd7 & Hg7) HI7.
  destruct (inv_publish_generation γ4 m4 i HI7 Hi Hd7) as (HI8 & HG8 & Hd8).
  eexists _, _, _. split; [done|]. split; [exact HG8|]. split; [exact HI8|].
  apply cwp_ret. repeat split; try done. cbn [publish_generation gr]. lia.
Qed.

(** A wait returns once its generation is published. *)
Lemma safe_await r γ : at_ i (r + 1) (r + 1) r NoDuty r γ →
  safe (await_generation fuel (wrapping r)) (λ _ γ', at_ i (r + 1) (r + 1) r NoDuty (r + 1) γ') γ.
Proof using Hi Hn.
  intros Hat. unfold await_generation.
  apply (cwp_loop_waits _ _ _ _ (λ _, at_ i (r + 1) (r + 1) r NoDuty r)); [done|intros _ γ1 (?&?&?&?&?); split; congruence|].
  intros _ γ1 H1. eapply safe_gen; [exact H1|]. intros γ2 v H2 Hb ->. apply cwp_ret. zcase; [done|].
  destruct H2 as (?&?&?&?&Hg). repeat split; try done. assert (gr γ2 ≠ r) by congruence. lia.
Qed.

Lemma safe_wait r γ : at_ i r (r + 1) r NoDuty r γ →
  safe (wait fuel (RoundBarrier_new (Z.of_nat n)).1 (Z.of_nat i)) (λ _, at_ i (r + 1) (r + 1) r NoDuty (r + 1)) γ.
Proof using Hi Hn Hmax.
  intros Hat. unfold wait. cbn [RoundBarrier_new fst rb_participants rb_shards rb_quota].
  rewrite (proj2 (Z.leb_gt _ _)) by lia. eapply safe_gen; [exact Hat|]. intros γ1 v H1 Hb ->.
  assert (gr γ1 = r) as -> by (destruct H1 as (?&?&?&?&?); lia).
  apply (safe_arrive _ _ _ r); [done|]. intros γ2 c Hc H2. rewrite uadd_ok by lia. change (Ret ?a ≫= ?f) with (f a). cbv beta.
  pose proof (sh_lt i) as Hsh. pose proof S_pos as HS. change (Z.to_nat (Z.of_nat i mod S_)) with (sh i).
  rewrite list_lookup_fmap, lookup_seqZ_lt by lia. cbn [fmap option_fmap option_map expect].
  change (Ret ?a ≫= ?f) with (f a). cbv beta. rewrite Z.add_0_l, quota_spec by done.
  apply cwp_bind. apply (cwp_mono _ _ _ _ _ _ (λ last γ', at_ i (r + 1) (r + 1) r NoDuty (if last : bool then r + 1 else r) γ')).
  - zcase; [by apply safe_finish|by apply cwp_ret].
  - intros [|] γ3 H3; [by apply cwp_ret|by apply safe_await].
Qed.

Lemma safe_participant k : ∀ r lo γ, at_ i r r r NoDuty r γ →
  safe (for_range k lo (λ _, act (Enter i);; wait fuel (RoundBarrier_new (Z.of_nat n)).1 (Z.of_nat i);; act (Leave i)))
    (λ _, at_ i (r + Z.of_nat k) (r + Z.of_nat k) (r + Z.of_nat k) NoDuty (r + Z.of_nat k)) γ.
Proof using Hi Hn Hmax.
  induction k as [|k IH]; intros r lo γ Hat; cbn [for_range].
  - apply cwp_ret. by rewrite Z.add_0_r.
  - apply cwp_bind. apply (cwp_mono _ _ _ _ _ _ (λ _, at_ i (r + 1) (r + 1) (r + 1) NoDuty (r + 1))).
    + apply (safe_enter _ _ _ r); [done|]. intros γ1 H1. apply cwp_bind. eapply cwp_mono; [by apply safe_wait|].
      intros [] γ2 H2. change (act (Leave i)) with (act (Leave i) ≫= Ret). apply (safe_leave _ _ _ r); [done|]. intros γ3 H3. by apply cwp_ret.
    + intros [] γ1 H1. replace (r + Z.of_nat (S k)) with (r + 1 + Z.of_nat k) by lia. by apply IH.
Qed.

End thread.

(** ** The pool *)

Definition bg_start : bghost := mkBg 0 (λ _, 0) (λ _, Collecting) RCollecting (λ _, 0) (λ _, 0).

Lemma inv_start : bar_inv bg_start (barrier_start n).
Proof using Hn.
  pose proof S_pos. constructor; cbn [bg_start gr ga ge gl barrier_start RoundBarrier_new snd bm_generation bm_entered bm_left bm_shards bm_root]; try done.
  - apply length_replicate.
  - intros s Hs. unfold shard_inv. cbn [bg_start gp]. rewrite replicate_lookup_Some by done.
    assert (arrived bg_start s = 0) as ->; [|split; [done|by apply quota_pos]].
    unfold arrived. rewrite (sumn_ext n _ (λ _, 0)); [rewrite sumn_const; lia|]. intros j _. case_decide; done.
  - unfold root_inv, counted_shards. cbn [bg_start grp gp]. rewrite sumn_const. lia.
Qed.

Definition bar_post (k : nat) (i : nat) (_ : unit) : bghost → Prop :=
  at_ i (Z.of_nat k) (Z.of_nat k) (Z.of_nat k) NoDuty (Z.of_nat k).

Lemma barrier_reach k c : rtc conc_step (barrier_threads fuel n k, barrier_start n) c →
  ∃ γ, pool_ok bar_inv bar_rely bar_guar bar_waits (bar_post k) c γ ∧ length c.1 = n.
Proof using Hn Hmax.
  intros Hr. destruct (pool_reach bar_inv bar_rely bar_guar bar_waits bar_rg bar_waits_stable (bar_post k)
    (barrier_threads fuel n k, barrier_start n) c bg_start) as (γ & Hok & _); [| |done|].
  - intros i [] γ γ'. apply at_rely.
  - split; [exact inv_start|]. intros i p Hi. cbn [fst] in Hi. unfold barrier_threads in Hi.
    rewrite list_lookup_fmap in Hi. apply fmap_Some in Hi as (i' & [-> Hlt]%lookup_seq & ->).
    apply (safe_participant (0 + i) Hlt k 0). by repeat split.
  - exists γ. split; [done|]. assert (n = length (barrier_threads fuel n k)) as Hlen by (unfold barrier_threads; by rewrite length_fmap, length_seq).
    rewrite Hlen at 1. change (barrier_threads fuel n k) with (barrier_threads fuel n k, barrier_start n).1. clear -Hr.
    induction Hr as [|c1 c2 c3 Hs Hr IH]; [done|]. rewrite IH. destruct Hs; cbn [fst]; by rewrite length_insert.
Qed.

(** Somebody has a duty, or has yet to arrive. *)
Lemma duty_or_missing γ m : bar_inv γ m → (∀ j, (j < n)%nat → duty_of γ j = NoDuty) → ∃ j, (j < n)%nat ∧ ga γ j = gr γ.
Proof using Hn.
  intros HI Hd. pose proof S_pos as HS. destruct (decide (Forall (λ j, gr γ < ga γ j) (seq 0 n))) as [Hall|Hex].
  - exfalso. assert (∀ j, (j < n)%nat → gr γ < ga γ j) as Harr by (rewrite Forall_forall in Hall; intros j Hj; apply Hall, elem_of_seq; lia).
    assert (∀ s, (s < Z.to_nat S_)%nat → gp γ s = Counted) as Hc.
    { intros s Hs. pose proof (bi_shard _ _ HI s Hs) as Hi. unfold shard_inv in Hi. destruct (gp γ s) as [|i|i|] eqn:E; [| | |done]; exfalso.
      - destruct Hi as [_ Hlt]. assert (arrived γ s = quota s); [|lia]. apply sumn_ext. intros j Hj. specialize (Harr j Hj).
        case_decide; [zcase; lia|done].
      - destruct Hi as (_ & _ & Hi & <-). specialize (Hd i Hi). unfold duty_of in Hd. by rewrite E, decide_True in Hd.
      - destruct Hi as (_ & _ & Hi & <-). specialize (Hd i Hi). unfold duty_of in Hd. by rewrite E, decide_True in Hd. }
    pose proof (bi_root _ _ HI) as Hr. unfold root_inv in Hr. destruct (grp γ) as [|i|i] eqn:E.
    + assert (counted_shards γ = S_); [|lia]. unfold counted_shards. rewrite (sumn_ext _ _ (λ _, 1)); [rewrite sumn_const; lia|].
      intros s Hs. by rewrite Hc.
    + destruct Hr as (_ & _ & Hi). specialize (Hd i Hi). rewrite duty_counted in Hd by apply Hc, sh_lt. by rewrite E, decide_True in Hd.
    + destruct Hr as (_ & _ & Hi). specialize (Hd i Hi). rewrite duty_counted in Hd by apply Hc, sh_lt. by rewrite E, decide_True in Hd.
  - apply not_Forall_Exists, Exists_exists in Hex as (j & Hj%elem_of_seq & Hlt); [|intros j; apply _].
    unfold compose in Hlt. exists j. assert (j < n)%nat as Hj2 by lia. pose proof (bi_arr _ _ HI j Hj2) as Hb. split; [done|]. lia.
Qed.

End ghost.

(** C23: the round barrier separates rounds, in every interleaving of two or more threads that
    call [wait] any number of times, and for any number of spins: no thread panics or
    accesses a counter that does not exist, and no thread has left more calls of [wait]
    than every other thread has entered. *)
Theorem barrier_separates `{PR : Profile} fuel n k c : (2 ≤ n)%nat → Z.of_nat n ≤ usize_max →
  rtc conc_step (barrier_threads fuel n k, barrier_start n) c →
  (∀ i p, c.1 !! i = Some p → p ≠ Panic ∧ prog_fault p c.2 = false) ∧
  (∀ i j, (i < n)%nat → (j < n)%nat → bm_left c.2 i ≤ bm_entered c.2 j).
Proof.
  intros Hn Hmax Hr. destruct (barrier_reach fuel n Hn Hmax k c Hr) as (γ & Hok & _). pose proof Hok as [HI _]. split.
  - intros i p Hi. destruct c as [ts m]. pose proof (pool_fine _ _ _ _ (bar_rg n Hn) _ _ _ _ i p Hok Hi) as Hf.
    split; [by intros ->|]. unfold prog_fault. destruct p as [|X e q| |]; try done. unfold thread_fine in Hf. cbn [snd]. by destruct (handle e m).
  - intros i j Hi Hj. destruct (bi_hist _ _ _ HI i) as [_ ->]. destruct (bi_hist _ _ _ HI j) as [-> _].
    pose proof (bi_arr _ _ _ HI i Hi). pose proof (bi_arr _ _ _ HI j Hj). lia.
Qed.

(** C24: the round barrier loses no wake-up: every execution ends, and when it has ended (all
    threads have returned or given up spinning) there is a thread whose call has been
    published: the generation is the number of calls it has entered, which is not the
    generation its call waits for to change. So participants that all have entered a round
    never wait for each other. *)
Theorem barrier_publishes `{PR : Profile} fuel n k c : (2 ≤ n)%nat → Z.of_nat n ≤ usize_max →
  rtc conc_step (barrier_threads fuel n k, barrier_start n) c →
  Acc (flip conc_step) c ∧
  ((∃ c', conc_step c c') ∨ ∃ j, (j < n)%nat ∧ bm_generation c.2 = wrapping (bm_entered c.2 j)).
Proof.
  intros Hn Hmax Hr. split; [apply conc_step_terminates|].
  destruct (barrier_reach fuel n Hn Hmax k c Hr) as (γ & Hok & Hlen). destruct c as [ts m]. pose proof Hok as [HI _]. cbn [fst snd] in *.
  destruct (decide (Forall (λ p, match p with Vis _ _ => false | _ => true end = true) ts)) as [Hend|Hex].
  - right. assert (∀ j, (j < n)%nat → duty_of n γ j = NoDuty ∧ ge γ j = ga γ j) as Hq.
    { intros j Hj. destruct (lookup_lt_is_Some_2 ts j) as [p Hp]; [lia|]. rewrite Forall_lookup in Hend. specialize (Hend j p Hp).
      pose proof (pool_fine _ _ _ _ (bar_rg n Hn) _ _ _ _ j p Hok Hp) as Hf. destruct p as [a| | |]; try done.
      destruct Hf as (Ha & He & _ & Hd & _). split; congruence. }
    destruct (duty_or_missing n Hn γ m HI) as (j & Hj & Hg); [intros j Hj; by apply Hq|].
    exists j. split; [done|]. destruct (bi_hist _ _ _ HI j) as [-> _]. rewrite (bi_gen _ _ _ HI). destruct (Hq j Hj). congruence.
  - left. apply not_Forall_Exists, Exists_exists in Hex as (p & [i Hi]%list_elem_of_lookup & Hp); [|intros p; apply _].
    pose proof (pool_fine _ _ _ _ (bar_rg n Hn) _ _ _ _ i p Hok Hi) as Hf. destruct p as [|X e q| |]; try by destruct Hp. cbn in Hf.
    destruct (handle e m) as [x m'| |] eqn:Eh; [|done|].
    + eexists. eapply step_access; [exact Hi|]. cbn. by rewrite Eh.
    + destruct e; cbn in Eh; repeat case_match; done.
Qed.

(** Three threads, twice: two wait, the third publishes, leaves and comes back first. *)
Definition barrier_schedule : list nat :=
  replicate 6 0%nat ++ replicate 5 1%nat ++ replicate 9 2%nat ++ replicate 2 0%nat.

Definition barrier_pool : list (prog barE unit) * barmem := (barrier_threads (PR := true) 3 3 2, barrier_start 3).
Definition barrier_after : list (prog barE unit) * barmem := default barrier_pool (run_sched barrier_schedule barrier_pool).

(** The schedule can be followed. *)
Lemma barrier_after_reach : rtc conc_step barrier_pool barrier_after.
Proof. apply run_sched_reach. vm_compute. reflexivity. Qed.

Lemma barrier_separates_witness :
  bm_left barrier_after.2 2%nat = 1 ∧ bm_entered barrier_after.2 2%nat = 2 ∧
  (∀ i j, (i < 3)%nat → (j < 3)%nat → bm_left barrier_after.2 i ≤ bm_entered barrier_after.2 j).
Proof.
  split; [vm_compute; reflexivity|]. split; [vm_compute; reflexivity|].
  refine (proj2 (barrier_separates (PR := true) 3 3 2 barrier_after _ _ barrier_after_reach)).
  - lia.
  - vm_compute; discriminate.
Defined.

Lemma barrier_publishes_witness :
  bm_generation barrier_after.2 = 1 ∧
  ((∃ c', conc_step barrier_after c') ∨
   ∃ j, (j < 3)%nat ∧ bm_generation barrier_after.2 = wrapping (bm_entered barrier_after.2 j)).
Proof.
  split; [vm_compute; reflexivity|].
  refine (proj2 (barrier_publishes (PR := true) 3 3 2 barrier_after _ _ barrier_after_reach)).
  - lia.
  - vm_compute; discriminate.
Defined.
