(* ===== verification/HardwareRounds.v ===== *)
(** * Rounds of the hardware probes (src/src/bench_harness/hardware.rs)

    Persistent workers run one round after the other: producers send their quota, the main
    thread waits until all of them are done and raises a flag, consumers receive until they
    find the queue empty twice after they have seen the flag.  In verifying rounds every
    value received is marked in a table.  A call on the queue is one access here: the
    queue is one that works.  The barriers are those of Barrier; a round is the part between
    two of them. *)

From S2P Require Import Prelude Prog Conc Bench Barrier.

(** ** Shared memory *)

Inductive hwE : Type → Type :=
| HSend (v : Z) : hwE unit
| HRecv : hwE (option Z)
| HDoneLoad : hwE bool
| HDoneStore : hwE unit
| HFinished : hwE unit
| HFinishedCount : hwE Z
| SeenSwap (v : Z) : hwE (option Z)
| BadStore : hwE unit.

Record hwmem := mkHw {
  hw_queue : list Z;
  hw_done : bool;
  hw_finished : Z;
  hw_seen : list Z;
  hw_bad : bool
}.

#[export] Instance hw_handler : Handler hwE hwmem := λ X e,
  match e in hwE X return hwmem → reply hwmem X with
  | HSend v => λ s, Next tt (mkHw (hw_queue s ++ [v]) (hw_done s) (hw_finished s) (hw_seen s) (hw_bad s))
  | HRecv => λ s, Next (head (hw_queue s)) (mkHw (tail (hw_queue s)) (hw_done s) (hw_finished s) (hw_seen s) (hw_bad s))
  | HDoneLoad => λ s, Next (hw_done s) s
  | HDoneStore => λ s, Next tt (mkHw (hw_queue s) true (hw_finished s) (hw_seen s) (hw_bad s))
  | HFinished => λ s, Next tt (mkHw (hw_queue s) (hw_done s) (hw_finished s + 1) (hw_seen s) (hw_bad s))
  | HFinishedCount => λ s, Next (hw_finished s) s
  | SeenSwap v => λ s,
      Next (hw_seen s !! Z.to_nat v) (mkHw (hw_queue s) (hw_done s) (hw_finished s) (<[Z.to_nat v := 1]> (hw_seen s)) (hw_bad s))
  | BadStore => λ s, Next tt (mkHw (hw_queue s) (hw_done s) (hw_finished s) (hw_seen s) true)
  end.

#[export] Instance hw_spurious : Spurious hwE hwmem := λ X e s, None.

(** ** Modes *)

Inductive hwmode := STOP | HANDOFF | FILL | DRAIN | IDLE.

#[export] Instance hwmode_eq_dec : EqDecision hwmode.
Proof. solve_decision. Defined.

Definition sends (mode : hwmode) : bool := bool_decide (mode = HANDOFF) || bool_decide (mode = FILL).
Definition receives (mode : hwmode) : bool := bool_decide (mode = HANDOFF) || bool_decide (mode = DRAIN).

(** The share of a producer: [expected / p], and one more for the first [expected % p]. *)
Definition hw_quota (expected p index : Z) : Z := expected / p + (if index <? expected mod p then 1 else 0).
Definition hw_base (expected p index : Z) : Z := index * (expected / p) + Z.min index (expected mod p).

Section workers.
Context `{PR : Profile} (fuel : nat) (verify : bool) (batch : option Z).

Fixpoint for_list {A} (l : list A) (body : A → prog hwE unit) : prog hwE unit :=
  match l with [] => Ret tt | x :: l => body x;; for_list l body end.

Definition hw_try_send (v : Z) : prog hwE bool := act (HSend v);; Ret true.

(** A producer's part of a round, and what it reports in its slot. *)
Definition hw_producer (mode : hwmode) (expected p index : Z) : prog hwE Z :=
  count ← (if sends mode then
      let quota := hw_quota expected p index in
      let base := hw_base expected p index in
      match batch with
      | Some size =>
          for_list (step_range 0 quota size) (λ first,
            next ← uadd first size;
            send_batch_default fuel hw_try_send base first (Z.min next quota))
      | None => for_range (Z.to_nat quota) 0 (λ offset, v ← uadd base offset; send_value_default fuel hw_try_send v)
      end;;
      Ret quota
    else Ret 0);
  act HFinished;;
  Ret count.

(** The closure that marks a value. *)
Definition visit (value : Z) : prog hwE unit :=
  old ← act (SeenSwap value);
  match old with
  | Some o => if negb (o =? 0) then act BadStore else Ret tt
  | None => act BadStore
  end.

(** [visit_recv_batch], with the closure. *)
Fixpoint visit_recv_rounds (n : nat) (received : Z) : prog hwE Z :=
  match n with
  | O => Ret received
  | S n => r ← act HRecv; match r with None => Ret received | Some v => visit v;; visit_recv_rounds n (received + 1) end
  end.

Definition hw_receive : prog hwE Z :=
  match batch with
  | Some size => if verify then visit_recv_rounds (Z.to_nat size) 0 else try_recv_batch_default (act HRecv) size
  | None => r ← act HRecv; match r with Some v => (if verify then visit v else Ret tt);; Ret 1 | None => Ret 0 end
  end.

(** A consumer's part of a round. *)
Definition hw_consumer (mode : hwmode) : prog hwE Z :=
  if receives mode then
    loop fuel (λ '(count, after_done_empty),
      received ← hw_receive;
      count ← uadd count received;
      if negb (received =? 0) then Ret (inl (count, false))
      else
        done ← act HDoneLoad;
        Ret (if done : bool then if after_done_empty : bool then inr count else inl (count, true)
             else inl (count, after_done_empty))) (0, false)
  else Ret 0.

(** The main thread between the start and the end of a round. *)
Definition hw_main (producers : Z) : prog hwE Z :=
  loop fuel (λ _ : unit, n ← act HFinishedCount; Ret (if n =? producers then inr tt else inl tt)) tt;;
  act HDoneStore;;
  Ret 0.

Definition hw_threads (mode : hwmode) (producers consumers expected : Z) : list (prog hwE Z) :=
  (hw_producer mode expected producers <$> seqZ 0 producers) ++
  replicate (Z.to_nat consumers) (hw_consumer mode) ++ [hw_main producers].

(** [round] before the start: marks are cleared and the flag is set. *)
Definition hw_round_start (mode : hwmode) (queue : list Z) (expected : Z) : hwmem :=
  mkHw queue (bool_decide (mode = DRAIN)) 0 (if verify then replicate (Z.to_nat expected) 0 else []) false.

End workers.

(** What [round] makes of the slots and of the marks. *)
Inductive hwerror := IntegrityMismatch | ExactOnceFailed.

Definition hw_round_check (mode : hwmode) (expected sent received : Z) (seen : list Z) (bad : bool) : option hwerror :=
  if negb (bool_decide (mode = IDLE)) &&
     ((negb (bool_decide (mode = DRAIN)) && negb (sent =? expected)) ||
      (negb (bool_decide (mode = FILL)) && negb (received =? expected))) then Some IntegrityMismatch
  else if negb (bool_decide (mode = FILL)) && negb (bool_decide (mode = IDLE)) &&
     negb (bool_decide (seen = [])) && (bad || existsb (λ x, negb (x =? 1)) seen) then Some ExactOnceFailed
  else None.

Definition hw_round_result (mode : hwmode) (producers expected : Z) (slots : list Z) (s : hwmem) : option hwerror :=
  hw_round_check mode expected (foldr Z.add 0 (take (Z.to_nat producers) slots))
    (foldr Z.add 0 (drop (Z.to_nat producers) slots)) (hw_seen s) (hw_bad s).

(** ** The shares of the producers *)

Lemma hw_base_succ expected p i : hw_base expected p (i + 1) = hw_base expected p i + hw_quota expected p i.
Proof. unfold hw_base, hw_quota. zcase; lia. Qed.

Lemma hw_quota_nonneg expected p i : 0 ≤ expected → 0 < p → 0 ≤ hw_quota expected p i.
Proof. intros He Hp. unfold hw_quota. pose proof (Z.div_pos expected p He Hp). zcase; lia. Qed.

Lemma hw_base_end expected p : 0 < p → hw_base expected p p = expected.
Proof.
  intros Hp. unfold hw_base. pose proof (Z.mod_pos_bound expected p Hp). rewrite Z.min_r by lia.
  pose proof (Z.div_mod expected p ltac:(lia)). lia.
Qed.

Lemma hw_base_nonneg expected p i : 0 ≤ expected → 0 < p → 0 ≤ i → 0 ≤ hw_base expected p i.
Proof.
  intros He Hp Hi. unfold hw_base. pose proof (Z.div_pos expected p He Hp). pose proof (Z.mod_pos_bound expected p Hp). nia.
Qed.

Definition hw_share (expected p : Z) (i : nat) : list Z := seqZ (hw_base expected p (Z.of_nat i)) (hw_quota expected p (Z.of_nat i)).

Lemma hw_shares_prefix expected p (n : nat) : 0 ≤ expected → 0 < p →
  concat (hw_share expected p <$> seq 0 n) = seqZ 0 (hw_base expected p (Z.of_nat n)).
Proof.
  intros He Hp. induction n as [|n IH].
  - cbn. unfold hw_base. rewrite Z.min_l by (apply Z.mod_pos_bound; lia). by rewrite Z.mul_0_l.
  - rewrite seq_S, fmap_app, concat_app, IH. cbn [fmap list_fmap concat]. rewrite app_nil_r, Nat.add_0_l.
    unfold hw_share. replace (Z.of_nat (S n)) with (Z.of_nat n + 1) by lia. rewrite hw_base_succ.
    rewrite seqZ_app by (apply hw_base_nonneg || apply hw_quota_nonneg; lia). by rewrite Z.add_0_l.
Qed.

Lemma hw_base_mono expected p i j : 0 ≤ expected → 0 < p → i ≤ j → hw_base expected p i ≤ hw_base expected p j.
Proof. intros He Hp Hij. unfold hw_base. pose proof (Z.div_pos expected p He Hp). nia. Qed.

Lemma hw_share_bound expected p (i : nat) : 0 ≤ expected → 0 < p → Z.of_nat i < p →
  hw_base expected p (Z.of_nat i) + hw_quota expected p (Z.of_nat i) ≤ expected.
Proof.
  intros He Hp Hi. rewrite <- hw_base_succ. etrans; [apply (hw_base_mono _ _ _ p); lia|]. by rewrite hw_base_end.
Qed.

(** The shares partition the values of a round. *)
Lemma hw_shares expected p : 0 ≤ expected → 0 < p →
  concat (hw_share expected p <$> seq 0 (Z.to_nat p)) = seqZ 0 expected.
Proof. intros He Hp. rewrite hw_shares_prefix, Z2Nat.id, hw_base_end by lia. done. Qed.

(** ** Concatenations over threads *)

Definition cat {A} (n : nat) (f : nat → list A) : list A := concat (f <$> seq 0 n).

Lemma cat_S {A} n (f : nat → list A) : cat (S n) f = cat n f ++ f n.
Proof. unfold cat. rewrite seq_S, fmap_app, concat_app, Nat.add_0_l. cbn. by rewrite app_nil_r. Qed.

Lemma cat_split {A} a b (f : nat → list A) : cat (a + b) f = cat a f ++ concat (f <$> seq a b).
Proof. unfold cat. by rewrite seq_app, fmap_app, concat_app. Qed.

Lemma cat_nil {A} a n (f : nat → list A) : (∀ j, (a ≤ j < a + n)%nat → f j = []) → concat (f <$> seq a n) = [].
Proof.
  revert a. induction n as [|n IH]; intros a H; [done|]. cbn [seq]. rewrite fmap_cons. cbn [concat].
  rewrite H, IH by (try intros; try apply H; lia). done.
Qed.

Lemma cat_ext {A} n (f g : nat → list A) : (∀ j, (j < n)%nat → f j = g j) → cat n f = cat n g.
Proof. induction n as [|n IH]; intros H; [done|]. rewrite !cat_S, IH, (H n) by (intros; try apply H; lia). done. Qed.

Lemma cat_snoc {A} n (f : nat → list A) i x : (i < n)%nat → cat n (upd f i (f i ++ [x])) ≡ₚ cat n f ++ [x].
Proof.
  intros Hi. induction n as [|n IH]; [lia|]. rewrite !cat_S. destruct (decide (i = n)) as [->|Hne].
  - rewrite upd_eq, (cat_ext n _ f) by (intros; apply upd_ne; lia). by rewrite <- app_assoc.
  - rewrite IH by lia. rewrite upd_ne by lia. solve_Permutation.
Qed.

Lemma cat_length_le {A} n (f g : nat → list A) : (∀ j, (j < n)%nat → (length (f j) ≤ length (g j))%nat) →
  (length (cat n f) ≤ length (cat n g))%nat.
Proof.
  induction n as [|n IH]; intros H; [done|]. rewrite !cat_S, !length_app. pose proof (H n ltac:(lia)).
  assert (length (cat n f) ≤ length (cat n g))%nat by (apply IH; intros; apply H; lia). lia.
Qed.

Lemma cat_length_ge {A} n (f : nat → list A) i : (i < n)%nat → (length (f i) ≤ length (cat n f))%nat.
Proof.
  intros Hi. induction n as [|n IH]; [lia|]. rewrite cat_S, length_app. destruct (decide (i = n)) as [->|]; [lia|].
  pose proof (IH ltac:(lia)). lia.
Qed.

Lemma cat_elem {A} n (f : nat → list A) x : x ∈ cat n f → ∃ j, (j < n)%nat ∧ x ∈ f j.
Proof.
  induction n as [|n IH]; [intros []%not_elem_of_nil|]. rewrite cat_S. intros [H|H]%elem_of_app.
  - destruct (IH H) as (j & ? & ?). exists j. split; [lia|done].
  - exists n. split; [lia|done].
Qed.

(** ** Marks *)

Section marks.
Context (expected : Z).
Implicit Types (log : list Z).

(** The table after the values of [log] have been marked. *)
Definition marks log : list Z := (λ v, if decide (v ∈ log) then 1 else 0) <$> seqZ 0 expected.

(** Each value at most once, and in range. *)
Definition good log : Prop := NoDup log ∧ Forall (λ v, 0 ≤ v < expected) log.

Lemma good_prefix log log' : log `prefix_of` log' → good log' → good log.
Proof. intros [k ->] [Hn Hf]. split; [by apply NoDup_app in Hn as [? _]|by apply Forall_app in Hf as [? _]]. Qed.

Lemma lookup_marks log v : 0 ≤ v → marks log !! Z.to_nat v = if v <? expected then Some (if decide (v ∈ log) then 1 else 0) else None.
Proof.
  intros Hv. unfold marks. rewrite list_lookup_fmap. zcase.
  - rewrite lookup_seqZ_lt by lia. cbn. by replace (0 + Z.of_nat (Z.to_nat v)) with v by lia.
  - by rewrite lookup_seqZ_ge by lia.
Qed.

Lemma marks_snoc log v : 0 ≤ v → <[Z.to_nat v := 1]> (marks log) = marks (log ++ [v]).
Proof.
  intros Hv. apply list_eq. intros k. unfold marks. destruct (decide (k < Z.to_nat expected)%nat) as [Hk|Hk].
  - destruct (decide (k = Z.to_nat v)) as [->|Hne].
    + rewrite list_lookup_insert_eq by (rewrite length_fmap, length_seqZ; done).
      rewrite list_lookup_fmap, lookup_seqZ_lt by lia. cbn. rewrite decide_True; [done|]. rewrite elem_of_app. right. apply list_elem_of_singleton. lia.
    + rewrite list_lookup_insert_ne by done. rewrite !list_lookup_fmap, lookup_seqZ_lt by lia. cbn. f_equal.
      destruct (decide (0 + Z.of_nat k ∈ log)) as [H|H]; [rewrite decide_True by set_solver; done|].
      rewrite decide_False; [done|]. rewrite elem_of_app, list_elem_of_singleton. intros [?|?]; [done|lia].
  - rewrite !lookup_ge_None_2; [done| |]; rewrite ?length_insert, length_fmap, length_seqZ; lia.
Qed.

Lemma marks_full log : log ≡ₚ seqZ 0 expected → existsb (λ x, negb (x =? 1)) (marks log) = false.
Proof.
  intros Hp. apply not_true_is_false. rewrite existsb_exists. intros (x & Hx & Hne). apply list_elem_of_In in Hx.
  unfold marks in Hx. apply list_elem_of_fmap in Hx as (v & -> & Hv). rewrite decide_True in Hne; [done|]. by rewrite Hp.
Qed.

Lemma good_seqZ log : log ≡ₚ seqZ 0 expected → good log.
Proof.
  intros Hp. split; [rewrite Hp; apply NoDup_seqZ|]. rewrite Hp. apply Forall_forall. intros v Hv%elem_of_seqZ. lia.
Qed.

End marks.

(** ** Every execution of a round *)

(** What each thread has sent, received and marked; which producers are done; the flag; the
    marks in the order they were made. *)
Record hghost := mkHg {
  hput : nat → list Z;
  hgot : nat → list Z;
  hvis : nat → list Z;
  hret : nat → bool;
  hdn : bool;
  hlog : list Z
}.

Section rounds.
Context `{PR : Profile} (fuel : nat) (verify : bool) (batch : option Z).
Context (N P : nat) (expected : Z) (q0 : list Z) (target : nat → list Z).
Context (HPN : (P ≤ N)%nat).
Implicit Types (γ : hghost) (s : hwmem) (i j : nat).

Definition hw_total : Z := Z.of_nat (length (q0 ++ cat N target)).

Context (Hq0 : ∀ v, v ∈ q0 ++ cat N target → 0 ≤ v).
Context (Htotal : hw_total ≤ usize_max).

Record hw_inv γ s : Prop := {
  hi_queue : hw_queue s ++ cat N (hgot γ) ≡ₚ q0 ++ cat N (hput γ);
  hi_done : hw_done s = hdn γ;
  hi_fin : hw_finished s = sumn P (λ j, if hret γ j then 1 else 0);
  hi_put : ∀ j, (j < N)%nat → hput γ j `prefix_of` target j;
  hi_ret : ∀ j, (j < P)%nat → hret γ j = true ∨ hdn γ = true → hput γ j = target j;
  hi_seen : hw_seen s = if verify then marks expected (hlog γ) else [];
  hi_log : hlog γ ≡ₚ cat N (hvis γ);
  hi_bad : hw_bad s = true → ¬ good expected (hlog γ)
}.

Definition hw_rely i γ γ' : Prop :=
  (hput γ' i = hput γ i ∧ hgot γ' i = hgot γ i ∧ hvis γ' i = hvis γ i ∧ hret γ' i = hret γ i) ∧
  (hdn γ = true → hdn γ' = true ∧ ∀ j, hput γ' j = hput γ j) ∧
  (∀ j, hret γ j = true → hret γ' j = true) ∧
  (∀ j, hgot γ j `prefix_of` hgot γ' j) ∧
  hlog γ `prefix_of` hlog γ'.
Definition hw_guar i γ γ' : Prop := ∀ j, j ≠ i → hw_rely j γ γ'.

Lemma hw_rely_refl i γ : hw_rely i γ γ.
Proof. by repeat split. Qed.

Lemma hw_rg : rely_guarantee hw_rely hw_guar.
Proof.
  constructor; [exact hw_rely_refl| |intros i j γ γ' Hg Hne; by apply Hg].
  intros i γ1 γ2 γ3 ((A1 & A2 & A3 & A0) & B1 & C1 & D1 & E1) ((A4 & A5 & A6 & A7) & B2 & C2 & D2 & E2).
  split; [repeat split; congruence|]. split; [|split; [auto|split; [intros j; etrans; [apply D1|apply D2]|etrans; [exact E1|exact E2]]]].
  intros H1. destruct (B1 H1) as [H2 F1]. destruct (B2 H2) as [H3 F2]. split; [done|]. intros j. by rewrite F2.
Qed.

(** Nothing is left and nothing will come. *)
Definition hw_drained γ : Prop := hdn γ = true ∧ (length (q0 ++ cat N (hput γ)) ≤ length (cat N (hgot γ)))%nat.

Lemma hw_drained_rely i γ γ' : hw_drained γ → hw_rely i γ γ' → hw_drained γ'.
Proof.
  intros [Hd Hl] (_ & B & _ & D & _). destruct (B Hd) as [Hd' Hp]. split; [done|].
  rewrite (cat_ext N (hput γ') (hput γ)) by (intros; apply Hp).
  etrans; [exact Hl|]. apply cat_length_le. intros j _. by apply prefix_length.
Qed.

Lemma drained_queue γ s : hw_inv γ s → hw_drained γ → hw_queue s = [].
Proof.
  intros HI [_ Hl]. pose proof (hi_queue _ _ HI) as Hq%Permutation_length. rewrite length_app in Hq.
  apply nil_length_inv. lia.
Qed.

(** What thread [i] has done. *)
Definition has i (p g v : list Z) γ : Prop := hput γ i = p ∧ hgot γ i = g ∧ hvis γ i = v.

Lemma has_rely i p g v γ γ' : has i p g v γ → hw_rely i γ γ' → has i p g v γ'.
Proof. intros (?&?&?) ((?&?&?&?) & _). repeat split; congruence. Qed.

(** The same, of a thread that has not reported the end of its work. *)
Definition owns i (p g v : list Z) γ : Prop := hput γ i = p ∧ hgot γ i = g ∧ hvis γ i = v ∧ hret γ i = false.

Lemma owns_rely i p g v γ γ' : owns i p g v γ → hw_rely i γ γ' → owns i p g v γ'.
Proof. intros (?&?&?&?) ((?&?&?&?) & _). repeat split; congruence. Qed.

Lemma got_bound γ s i : hw_inv γ s → (i < N)%nat → Z.of_nat (length (hgot γ i)) ≤ hw_total.
Proof.
  intros HI Hi. pose proof (hi_queue _ _ HI) as Hq%Permutation_length. rewrite !length_app in Hq.
  pose proof (cat_length_ge N (hgot γ) i Hi). unfold hw_total. rewrite length_app.
  assert (length (cat N (hput γ)) ≤ length (cat N target))%nat; [|lia].
  apply cat_length_le. intros j Hj. by apply prefix_length, (hi_put _ _ HI).
Qed.

Lemma queue_nonneg γ s v : hw_inv γ s → v ∈ hw_queue s → 0 ≤ v.
Proof using HPN Hq0 Htotal.
  intros HI Hv. apply Hq0. assert (v ∈ q0 ++ cat N (hput γ)) as H by (rewrite <- (hi_queue _ _ HI); set_solver).
  apply elem_of_app in H as [H|H]; apply elem_of_app; [by left|right].
  apply cat_elem in H as (j & Hj & Hx). pose proof (hi_put _ _ HI j Hj) as [k Hk].
  unfold cat. apply list_elem_of_In, in_concat. exists (target j). split; [|apply list_elem_of_In; rewrite Hk; set_solver].
  apply list_elem_of_In, list_elem_of_fmap. exists j. split; [done|]. apply elem_of_seq. lia.
Qed.

(** ** Accesses *)

Section thread.
Context (waits : nat → hghost → Prop) (i : nat) (Hi : (i < N)%nat).
Notation safe := (cwp hw_inv hw_rely hw_guar waits i).

(** An access that changes nothing but the ghost state of thread [i]. *)
Lemma hsafe_access {X A} (e : hwE X) (f : X → prog hwE A) Q γ p g v : owns i p g v γ →
  (∀ γ' s, owns i p g v γ' → hw_rely i γ γ' → hw_inv γ' s →
     ∃ x s' γ'', handle e s = Next x s' ∧ hw_guar i γ' γ'' ∧ hw_inv γ'' s' ∧ safe (f x) Q γ'') →
  safe (act e ≫= f) Q γ.
Proof.
  intros Ho Hf. apply cwp_act_bind; [done|]. intros γ' s Hr HI.
  destruct (Hf γ' s (owns_rely _ _ _ _ _ _ Ho Hr) Hr HI) as (x & s' & γ'' & -> & Hrest). eauto.
Qed.

Lemma hsafe_send {A} x (f : unit → prog hwE A) Q γ p g v : (i < P)%nat → owns i p g v γ → p ++ [x] `prefix_of` target i →
  (∀ γ', owns i (p ++ [x]) g v γ' → safe (f tt) Q γ') → safe (act (HSend x) ≫= f) Q γ.
Proof using HPN Hq0 Htotal Hi.
  intros HP Ho Hpre Hf. eapply hsafe_access; [exact Ho|]. intros γ' s (Hp & Hg & Hv & Hre) _ HI.
  assert (hdn γ' = false) as Hd.
  { apply not_true_is_false. intros Hd. pose proof (hi_ret _ _ HI i HP (or_intror Hd)) as Hx. rewrite Hp in Hx.
    rewrite Hx in Hpre. apply prefix_length in Hpre. rewrite length_app in Hpre. cbn in Hpre. lia. }
  exists tt. eexists. exists (mkHg (upd (hput γ') i (hput γ' i ++ [x])) (hgot γ') (hvis γ') (hret γ') (hdn γ') (hlog γ')).
  split; [done|]. split; [|split].
  - intros j Hj. split; [|split; [cbn; rewrite Hd; done|by repeat split]]. repeat split; cbn; by apply upd_ne.
  - constructor; cbn; try apply HI.
    + rewrite (cat_snoc N (hput γ') i x Hi), app_assoc, <- (hi_queue _ _ HI). solve_Permutation.
    + intros j Hj. unfold upd. case_decide; [subst; done|by apply HI].
    + intros j Hj Hr. unfold upd. case_decide; [|by apply HI]. subst j. exfalso.
      pose proof (hi_ret _ _ HI i HP Hr) as Hx. rewrite Hp in Hx. rewrite Hx in Hpre. apply prefix_length in Hpre.
      rewrite length_app in Hpre. cbn in Hpre. lia.
  - apply Hf. repeat split; try done. cbn. by rewrite upd_eq, Hp.
Qed.

Lemma hsafe_recv {A} (f : option Z → prog hwE A) Q γ p g v : owns i p g v γ →
  (∀ γ' x, owns i p (g ++ [x]) v γ' → 0 ≤ x → Z.of_nat (length (g ++ [x])) ≤ hw_total →
     (hdn γ = true → hdn γ' = true) → safe (f (Some x)) Q γ') →
  (∀ γ', owns i p g v γ' → (hdn γ = true → hw_drained γ') → safe (f None) Q γ') → safe (act HRecv ≫= f) Q γ.
Proof using HPN Hq0 Htotal Hi.
  intros Ho Hs Hn. eapply hsafe_access; [exact Ho|]. intros γ' s (Hp & Hg & Hv & Hre) Hr HI. cbn [handle hw_handler].
  destruct (hw_queue s) as [|x q] eqn:Hq; cbn [head tail].
  - eexists _, _, γ'. split; [done|]. split; [intros j _; apply hw_rely_refl|]. split.
    + destruct HI. constructor; cbn [hw_queue hw_done hw_finished hw_seen hw_bad]; try done. by rewrite <- Hq.
    + apply Hn; [done|]. intros Hd. destruct Hr as (_ & B & _). split; [by apply B|].
      pose proof (hi_queue _ _ HI) as Hperm%Permutation_length. rewrite Hq in Hperm. cbn in Hperm. lia.
  - set (γ'' := mkHg (hput γ') (upd (hgot γ') i (hgot γ' i ++ [x])) (hvis γ') (hret γ') (hdn γ') (hlog γ')).
    assert (hw_inv γ'' (mkHw q (hw_done s) (hw_finished s) (hw_seen s) (hw_bad s))) as HI'.
    { constructor; cbn; try apply HI. rewrite (cat_snoc N (hgot γ') i x Hi), <- (hi_queue _ _ HI), Hq. solve_Permutation. }
    eexists _, _, γ''. split; [done|]. split; [|split; [done|]].
    + intros j Hj. split; [|split; [done|split; [done|split; [|done]]]]. repeat split; cbn; by apply upd_ne.
      intros k. cbn. unfold upd. case_decide; [subst; by exists [x]|done].
    + apply Hs.
      * repeat split; try done. cbn. by rewrite upd_eq, Hg.
      * apply (queue_nonneg γ' s); [done|]. rewrite Hq. set_solver.
      * pose proof (got_bound _ _ i HI' Hi) as Hb. cbn in Hb. by rewrite upd_eq, Hg in Hb.
      * intros Hd. destruct Hr as (_ & B & _). by apply B.
Qed.

Lemma hsafe_done {A} (f : bool → prog hwE A) Q γ p g v : owns i p g v γ →
  (∀ γ' b, owns i p g v γ' → hw_rely i γ γ' → hdn γ' = b → safe (f b) Q γ') → safe (act HDoneLoad ≫= f) Q γ.
Proof.
  intros Ho Hf. eapply hsafe_access; [exact Ho|]. intros γ' s Ho' Hr HI. eexists _, _, γ'. split; [done|].
  split; [intros j _; apply hw_rely_refl|]. split; [done|]. apply Hf; [done|done|]. by rewrite (hi_done _ _ HI).
Qed.

Lemma hsafe_finished {A} (f : unit → prog hwE A) Q γ g v : (i < P)%nat → owns i (target i) g v γ →
  (∀ γ', has i (target i) g v γ' → safe (f tt) Q γ') →
  safe (act HFinished ≫= f) Q γ.
Proof using HPN Hi.
  intros HP Ho Hf. eapply hsafe_access; [exact Ho|]. intros γ' s (Hp & Hg & Hv & Hre) Hr HI.
  exists tt. eexists. exists (mkHg (hput γ') (hgot γ') (hvis γ') (upd (hret γ') i true) (hdn γ') (hlog γ')).
  split; [done|]. split; [|split; [|by apply Hf]].
  - intros j Hj. repeat split; try done; [cbn; by apply upd_ne|]. intros k Hk. cbn. unfold upd. by case_decide.
  - constructor; cbn; try apply HI.
    + rewrite (hi_fin _ _ HI), (sumn_change P (λ j, if hret γ' j then 1 else 0) (λ j, if upd (hret γ') i true j then 1 else 0) i HP).
      * cbn. rewrite upd_eq, Hre. lia.
      * intros j Hj. cbn. by rewrite upd_ne.
    + intros j Hj [Hx|Hx]; [|apply HI; auto]. unfold upd in Hx. case_decide; [by subst|apply HI; auto].
Qed.
(** The main thread: what it knows of the producers. *)
Definition all_ret γ : Prop := ∀ j, (j < P)%nat → hret γ j = true.

Lemma all_ret_rely γ γ' : all_ret γ → hw_rely i γ γ' → all_ret γ'.
Proof. intros H (_ & _ & C & _) j Hj. by apply C, H. Qed.

Lemma hsafe_count {A} (f : Z → prog hwE A) Q γ p g v : owns i p g v γ →
  (∀ γ' n, owns i p g v γ' → (n = Z.of_nat P → all_ret γ') → safe (f n) Q γ') → safe (act HFinishedCount ≫= f) Q γ.
Proof.
  intros Ho Hf. eapply hsafe_access; [exact Ho|]. intros γ' s Ho' Hr HI. eexists _, _, γ'. split; [done|].
  split; [intros j _; apply hw_rely_refl|]. split; [done|]. apply Hf; [done|]. rewrite (hi_fin _ _ HI). intros Hn j Hj.
  assert ((if hret γ' j then 1 else 0) = 1) as H1; [|by destruct (hret γ' j)].
  revert j Hj. apply (sumn_full P _ (λ _, 1)); [intros j _; destruct (hret γ' j); lia|]. rewrite sumn_const, Hn. lia.
Qed.

Lemma hsafe_raise {A} (f : unit → prog hwE A) Q γ p g v : owns i p g v γ → all_ret γ →
  (∀ γ', owns i p g v γ' → safe (f tt) Q γ') → safe (act HDoneStore ≫= f) Q γ.
Proof.
  intros Ho Ha Hf. eapply hsafe_access; [exact Ho|]. intros γ' s Ho' Hr HI. pose proof (all_ret_rely _ _ Ha Hr) as Ha'.
  exists tt. eexists. exists (mkHg (hput γ') (hgot γ') (hvis γ') (hret γ') true (hlog γ')). split; [done|]. split; [|split; [|by apply Hf]].
  - intros j Hj. by repeat split.
  - constructor; cbn; try apply HI; [done|]. intros j Hj _. apply HI; [done|]. left. by apply Ha'.
Qed.

(** Marking a value. *)
Lemma hsafe_swap {A} x (f : option Z → prog hwE A) Q γ p g v : verify = true → owns i p g v γ → 0 ≤ x →
  (∀ γ' o, owns i p g (v ++ [x]) γ' → (hdn γ = true → hdn γ' = true) →
     (o = Some 0 ∨ ¬ good expected (hlog γ')) → safe (f o) Q γ') → safe (act (SeenSwap x) ≫= f) Q γ.
Proof using HPN Hq0 Htotal Hi.
  intros Hver Ho Hx Hf. eapply hsafe_access; [exact Ho|]. intros γ' s (Hp & Hg & Hv & Hre) Hr HI.
  exists (hw_seen s !! Z.to_nat x). eexists.
  exists (mkHg (hput γ') (hgot γ') (upd (hvis γ') i (hvis γ' i ++ [x])) (hret γ') (hdn γ') (hlog γ' ++ [x])).
  pose proof (hi_seen _ _ HI) as Hseen. rewrite Hver in Hseen. split; [done|]. split; [|split].
  - intros j Hj. repeat split; try done; cbn; [by apply upd_ne|by exists [x]].
  - constructor; cbn; try apply HI.
    + rewrite Hver, Hseen. by apply marks_snoc.
    + rewrite (cat_snoc N (hvis γ') i x Hi). by rewrite (hi_log _ _ HI).
    + intros Hb Hgood. apply (hi_bad _ _ HI Hb). apply (good_prefix _ _ (hlog γ' ++ [x])); [by exists [x]|done].
  - apply Hf; [repeat split; try done; cbn; by rewrite upd_eq, Hv|intros Hd; by apply Hr|].
    rewrite Hseen, lookup_marks by done. cbn [hlog]. zcase.
    + destruct (decide (x ∈ hlog γ')) as [Hin|Hin]; [right|by left]. intros [Hnd _]. apply NoDup_app in Hnd as (_ & Hnd & _).
      apply (Hnd x Hin). set_solver.
    + right. intros [_ Hfa]. apply Forall_app in Hfa as [_ Hfa]. apply Forall_inv in Hfa. lia.
Qed.

Lemma hsafe_bad {A} (f : unit → prog hwE A) Q γ p g v : owns i p g v γ → ¬ good expected (hlog γ) →
  (∀ γ', owns i p g v γ' → (hdn γ = true → hdn γ' = true) → safe (f tt) Q γ') → safe (act BadStore ≫= f) Q γ.
Proof.
  intros Ho Hg Hf. eapply hsafe_access; [exact Ho|]. intros γ' s Ho' Hr HI. exists tt. eexists. exists γ'. split; [done|].
  split; [intros j _; apply hw_rely_refl|]. split; [|apply Hf; [done|intros Hd; by apply Hr]].
  destruct HI. constructor; cbn; try done. intros _ Hgood. apply Hg. eapply good_prefix; [apply Hr|done].
Qed.

(** ** Producers *)

Lemma hsafe_send_value x γ p g v : fuel ≠ O → (i < P)%nat → owns i p g v γ → p ++ [x] `prefix_of` target i →
  safe (send_value_default fuel hw_try_send x) (λ _, owns i (p ++ [x]) g v) γ.
Proof using HPN Hq0 Htotal Hi.
  intros Hf HP Ho Hpre. unfold send_value_default, hw_try_send.
  apply (cwp_loop _ _ _ _ (λ _, owns i p g v) (λ _, O)); [done|lia|]. intros [] γ1 H1. apply cwp_bind.
  apply (hsafe_send _ _ _ _ p g v); [done..|]. intros γ2 H2. do 2 apply cwp_ret. done.
Qed.

(** Sending the values [b + lo], [b + lo + 1], ... of the share [b], [b + 1], ... *)
Lemma hsafe_range b q m lo γ g v : fuel ≠ O → (i < P)%nat → target i = seqZ b q → 0 ≤ b → b + q ≤ usize_max →
  0 ≤ lo → lo + Z.of_nat m ≤ q → owns i (seqZ b lo) g v γ →
  safe (for_range m lo (λ offset, x ← uadd b offset; send_value_default fuel hw_try_send x))
    (λ _, owns i (seqZ b (lo + Z.of_nat m)) g v) γ.
Proof using HPN Hq0 Htotal Hi.
  intros Hf HP Ht Hb Hmax. revert lo γ. induction m as [|m IH]; intros lo γ Hlo Hq Ho; cbn [for_range].
  - apply cwp_ret. by rewrite Z.add_0_r.
  - apply cwp_bind. apply (cwp_mono _ _ _ _ _ _ (λ _, owns i (seqZ b (lo + 1)) g v)).
    + rewrite uadd_ok by lia. change (Ret ?a ≫= ?f) with (f a). cbv beta. rewrite seqZ_app by lia.
      change (seqZ (b + lo) 1) with [b + lo]. apply hsafe_send_value; [done..|]. rewrite Ht.
      exists (seqZ (b + (lo + 1)) (q - (lo + 1))). change [b + lo] with (seqZ (b + lo) 1).
      rewrite <- !seqZ_app by lia. f_equal. lia.
    + intros [] γ1 H1. replace (lo + Z.of_nat (S m)) with (lo + 1 + Z.of_nat m) by lia. apply IH; [lia..|done].
Qed.

Lemma hsafe_batches b q size m a γ g v : fuel ≠ O → (i < P)%nat → target i = seqZ b q → 0 ≤ b → b + q ≤ usize_max →
  0 ≤ q ≤ isize_max → 0 < size ≤ usize_max → 0 ≤ a → (a + Z.of_nat m - 1) * size < q →
  owns i (seqZ b (Z.min (a * size) q)) g v γ →
  safe (for_list ((λ k, 0 + k * size) <$> seqZ a (Z.of_nat m)) (λ first,
      next ← uadd first size; send_batch_default fuel hw_try_send b first (Z.min next q)))
    (λ _, owns i (seqZ b (Z.min ((a + Z.of_nat m) * size) q)) g v) γ.
Proof using HPN Hq0 Htotal Hi.
  intros Hf HP Ht Hb Hmax Hqm Hsz. revert a γ. induction m as [|m IH]; intros a γ Ha Hlast Ho.
  - apply cwp_ret. by rewrite Z.add_0_r.
  - rewrite seqZ_cons, fmap_cons by lia. replace (Z.pred (Z.of_nat (S m))) with (Z.of_nat m) by lia. cbn [for_list].
    assert (0 ≤ a * size < q) as Hq by nia.
    assert (a * size + size ≤ usize_max) as Hu.
    { destruct (decide (a = 0)) as [->|]; [lia|]. unfold isize_max, usize_max in *. nia. }
    apply cwp_bind. rewrite Z.add_0_l, uadd_ok by done. change (Ret ?a ≫= ?f) with (f a). cbv beta.
    rewrite Z.min_l in Ho by lia. unfold send_batch_default. set (hi := Z.min (a * size + size) q).
    eapply cwp_mono; [apply (hsafe_range b q); try done; lia|]. intros [] γ1 H1.
    replace (a * size + Z.of_nat (Z.to_nat (hi - a * size))) with (Z.min (Z.succ a * size) q) in H1 by lia.
    replace (a + Z.of_nat (S m)) with (Z.succ a + Z.of_nat m) by lia. apply IH; [lia|lia|done].
Qed.

(** A producer sends its share and reports it. *)
Lemma hsafe_producer mode p γ : (i < P)%nat → fuel ≠ O → 0 < p → 0 ≤ expected ≤ isize_max → Z.of_nat i < p →
  target i = (if sends mode then hw_share expected p i else []) →
  match batch with Some size => 0 < size ≤ usize_max | None => True end →
  owns i [] [] [] γ →
  safe (hw_producer fuel batch mode expected p (Z.of_nat i))
    (λ c γ', has i (target i) [] [] γ' ∧ c = Z.of_nat (length (target i))) γ.
Proof using HPN Hq0 Htotal Hi.
  intros HP Hf Hp He Hip Ht Hbs Ho. unfold hw_producer. apply cwp_bind.
  apply (cwp_mono _ _ _ _ _ _ (λ c γ', owns i (target i) [] [] γ' ∧ c = Z.of_nat (length (target i)))).
  - destruct (sends mode); [|apply cwp_ret; by rewrite Ht]. cbv zeta. apply cwp_bind.
    pose proof (hw_quota_nonneg expected p (Z.of_nat i) ltac:(lia) Hp) as Hq. pose proof (hw_base_nonneg expected p (Z.of_nat i) ltac:(lia) Hp ltac:(lia)) as Hb.
    pose proof (hw_share_bound expected p i ltac:(lia) Hp Hip) as Hend. unfold hw_share in Ht.
    set (q := hw_quota expected p (Z.of_nat i)) in *. set (b := hw_base expected p (Z.of_nat i)) in *.
    apply (cwp_mono _ _ _ _ _ _ (λ _, owns i (target i) [] [])).
    + destruct batch as [size|].
      * unfold step_range. rewrite Z.sub_0_r. assert (0 ≤ div_ceil q size) as Hd0.
        { pose proof (div_ceil_spec q size ltac:(lia)). nia. }
        pose proof (div_ceil_spec q size ltac:(lia)) as Hds. rewrite <- (Z2Nat.id (div_ceil q size)) by done.
        eapply cwp_mono; [apply (hsafe_batches b q size (Z.to_nat (div_ceil q size)) 0); try done; unfold isize_max, usize_max in *; try lia|].
        -- rewrite Z.mul_0_l, Z.min_l by done. exact Ho.
        -- intros [] γ1 H1. rewrite Z.add_0_l, Z2Nat.id, Z.min_r in H1 by lia. by rewrite Ht.
      * eapply cwp_mono; [apply (hsafe_range b q (Z.to_nat q) 0); try done; unfold isize_max, usize_max in *; lia|].
        intros [] γ1 H1. rewrite Z.add_0_l, Z2Nat.id in H1 by done. by rewrite Ht.
    + intros [] γ1 H1. apply cwp_ret. split; [done|]. rewrite Ht, length_seqZ. lia.
  - intros c γ1 [H1 ->]. apply (hsafe_finished _ _ _ [] []); [done..|]. intros γ2 H2. by apply cwp_ret.
Qed.
(** ** Consumers *)

Lemma hsafe_visit x γ p g v : verify = true → owns i p g v γ → 0 ≤ x →
  safe (visit x) (λ _ γ', owns i p g (v ++ [x]) γ' ∧ (hdn γ = true → hdn γ' = true)) γ.
Proof using HPN Hq0 Htotal Hi.
  intros Hver Ho Hx. unfold visit. apply (hsafe_swap _ _ _ _ p g v); [done..|]. intros γ1 o H1 Hd1 Ho1.
  assert (¬ good expected (hlog γ1) →
    safe (act BadStore) (λ _ γ', owns i p g (v ++ [x]) γ' ∧ (hdn γ = true → hdn γ' = true)) γ1) as Hbad.
  { intros Hng. change (act BadStore) with (act BadStore ≫= Ret). apply (hsafe_bad _ _ _ p g (v ++ [x])); [done..|].
    intros γ2 H2 Hd2. apply cwp_ret. split; [done|auto]. }
  destruct Ho1 as [->|Hng]; [by apply cwp_ret|]. destruct o as [o|]; [|by apply Hbad].
  destruct (negb (o =? 0)); [by apply Hbad|by apply cwp_ret].
Qed.

(** The values received, and the marks made for them. *)
Definition marked (v l : list Z) : list Z := if verify then v ++ l else v.

(** [r] is the number of values received since [g]; none only if the queue was empty. *)
Definition got_more (known : bool) (g v : list Z) (r : Z) γ : Prop :=
  ∃ l, r = Z.of_nat (length l) ∧ owns i [] (g ++ l) (marked v l) γ ∧ Z.of_nat (length (g ++ l)) ≤ hw_total ∧
    (known = true → hdn γ = true) ∧ (l = [] → known = true → hw_drained γ).

Lemma hsafe_visit_rounds known n r g v l γ : verify = true → (n = O → l ≠ []) → r = Z.of_nat (length l) →
  owns i [] (g ++ l) (v ++ l) γ → Z.of_nat (length (g ++ l)) ≤ hw_total → (known = true → hdn γ = true) →
  safe (visit_recv_rounds n r) (got_more known g v) γ.
Proof using HPN Hq0 Htotal Hi.
  intros Hver. revert r l γ. induction n as [|n IH]; intros r l γ Hn Hr Ho Hb Hk; cbn [visit_recv_rounds].
  - apply cwp_ret. exists l. unfold marked. rewrite Hver. split; [done|]. split; [done|]. split; [done|]. split; [done|].
    intros ->. by destruct (Hn eq_refl).
  - apply (hsafe_recv _ _ _ [] (g ++ l) (v ++ l)); [done| |].
    + intros γ1 x H1 Hx Hb1 Hd1. apply cwp_bind. eapply cwp_mono; [by apply hsafe_visit|]. intros [] γ2 [H2 Hd2].
      rewrite <- !app_assoc in H2. rewrite <- app_assoc in Hb1. apply (IH _ (l ++ [x])); [by destruct l|rewrite length_app; cbn; lia|done|done|auto].
    + intros γ1 H1 Hd1. apply cwp_ret. exists l. unfold marked. rewrite Hver. split; [done|]. split; [done|]. split; [done|].
      split; [intros K; apply Hd1; auto|]. intros _ K. auto.
Qed.

Lemma hsafe_recv_rounds known n r g v l γ : verify = false → (n = O → l ≠ []) → r = Z.of_nat (length l) →
  owns i [] (g ++ l) v γ → Z.of_nat (length (g ++ l)) ≤ hw_total → (known = true → hdn γ = true) →
  safe (recv_batch_rounds (act HRecv) n r) (got_more known g v) γ.
Proof using HPN Hq0 Htotal Hi.
  intros Hver. revert r l γ. induction n as [|n IH]; intros r l γ Hn Hr Ho Hb Hk; cbn [recv_batch_rounds].
  - apply cwp_ret. exists l. unfold marked. rewrite Hver. split; [done|]. split; [done|]. split; [done|]. split; [done|].
    intros ->. by destruct (Hn eq_refl).
  - apply (hsafe_recv _ _ _ [] (g ++ l) v); [done| |].
    + intros γ1 x H1 Hx Hb1 Hd1. rewrite <- app_assoc in H1, Hb1.
      apply (IH _ (l ++ [x])); [by destruct l|rewrite length_app; cbn; lia|done|done|auto].
    + intros γ1 H1 Hd1. apply cwp_ret. exists l. unfold marked. rewrite Hver. split; [done|]. split; [done|]. split; [done|].
      split; [intros K; apply Hd1; auto|]. intros _ K. auto.
Qed.

Lemma hsafe_receive known g v γ : match batch with Some size => 0 < size | None => True end →
  owns i [] g v γ → Z.of_nat (length g) ≤ hw_total → (known = true → hdn γ = true) →
  safe (hw_receive verify batch) (got_more known g v) γ.
Proof using HPN Hq0 Htotal Hi.
  intros Hbs Ho Hb Hk. assert (∀ b, verify = b → safe (hw_receive b batch) (got_more known g v) γ) as H; [|by apply H].
  intros b Hver. unfold hw_receive. destruct batch as [size|].
  - destruct b.
    + apply (hsafe_visit_rounds known _ _ g v []); rewrite ?app_nil_r; try done. lia.
    + apply (hsafe_recv_rounds known _ _ g v []); rewrite ?app_nil_r; try done. lia.
  - apply (hsafe_recv _ _ _ [] g v); [done| |].
    + intros γ1 x H1 Hx Hb1 Hd1. apply cwp_bind.
      apply (cwp_mono _ _ _ _ _ _ (λ _ γ', owns i [] (g ++ [x]) (if b then v ++ [x] else v) γ' ∧ (hdn γ1 = true → hdn γ' = true))).
      * destruct b; [by apply hsafe_visit|by apply cwp_ret].
      * intros [] γ2 [H2 Hd2]. apply cwp_ret. exists [x]. unfold marked. rewrite Hver. repeat split; try apply H2; try done; auto.
    + intros γ1 H1 Hd1. apply cwp_ret. exists []. unfold marked. rewrite !app_nil_r. split; [done|]. split; [by destruct verify|].
      split; [done|]. split; [intros K; apply Hd1; auto|]. auto.
Qed.
(** At the head of the loop of a consumer. *)
Definition turn (c : Z) (flag : bool) γ : Prop :=
  ∃ g, owns i [] g (marked [] g) γ ∧ c = Z.of_nat (length g) ∧ Z.of_nat (length g) ≤ hw_total ∧ (flag = true → hdn γ = true).

(** Where it ends. *)
Definition emptied (c : Z) γ : Prop := ∃ g, has i [] g (marked [] g) γ ∧ c = Z.of_nat (length g) ∧ hw_drained γ.

(** When the flag is up from the start a consumer ends; otherwise it may have to wait. *)
Definition consumer_ends (up : bool) : Prop :=
  (up = true ∧ (2 * Z.to_nat hw_total + 1 < fuel)%nat) ∨ (∀ γ, waits i γ).

Lemma marked_app g l : marked (marked [] g) l = marked [] (g ++ l).
Proof. unfold marked. by destruct verify. Qed.

(** One turn of the loop. *)
Lemma hsafe_turn (up flag : bool) c γ : match batch with Some size => 0 < size | None => True end →
  turn c flag γ → (up = true → hdn γ = true) →
  safe (received ← hw_receive verify batch;
        count ← uadd c received;
        if negb (received =? 0) then Ret (inl (count, false))
        else
          done ← act HDoneLoad;
          Ret (if done : bool then if flag then inr count else inl (count, true) else inl (count, flag)))
    (λ r γ', match r with
             | inl (c', flag') => turn c' flag' γ' ∧ (up = true → hdn γ' = true) ∧
                 (up = true → c < c' ∨ c' = c ∧ flag = false ∧ flag' = true)
             | inr c' => emptied c' γ'
             end) γ.
Proof using HPN Hq0 Htotal Hi.
  intros Hbs (g & Ho & -> & Hb & Hfl) Hup. apply cwp_bind.
  eapply cwp_mono; [apply (hsafe_receive (flag || up) g (marked [] g)); try done; intros [?|?]%orb_true_iff; auto|].
  intros r γ1 (l & -> & H1 & Hb1 & Hk1 & Hd1). rewrite marked_app in H1.
  rewrite length_app in Hb1. rewrite uadd_ok by lia. change (Ret ?a ≫= ?f) with (f a). cbv beta.
  destruct (decide (l = [])) as [->|Hl].
  - cbn [length Z.of_nat Z.eqb negb]. rewrite Z.add_0_r. rewrite app_nil_r in H1.
    apply (hsafe_done _ _ _ [] g (marked [] g)); [done|]. intros γ2 b H2 Hr Hb2. apply cwp_ret.
    assert (up = true → b = true) as Hupb.
    { intros ->. subst b. destruct Hr as (_ & B & _). apply B, Hk1. by rewrite orb_true_r. }
    destruct b; [destruct flag|].
    + exists g. split; [by destruct H2 as (?&?&?&?)|]. split; [done|]. eapply hw_drained_rely; [by apply Hd1|exact Hr].
    + split; [exists g; split; [done|]; split; [done|]; split; [done|by intros]|]. split; [by intros|]. intros _. right. done.
    + split; [exists g; split; [done|]; split; [done|]; split; [done|]|].
      * intros ->. destruct Hr as (_ & B & _). apply B, Hk1. done.
      * split; intros Hu; by discriminate (Hupb Hu).
  - assert (0 < length l)%nat by (destruct l; [done|cbn; lia]). rewrite (proj2 (Z.eqb_neq _ _)) by lia. cbn [negb].
    apply cwp_ret. split; [exists (g ++ l); rewrite length_app; split; [done|]; split; [lia|]; split; [lia|done]|].
    split; [intros ->; apply Hk1; by rewrite orb_true_r|]. intros _. left. lia.
Qed.

Lemma hsafe_consumer up mode γ : match batch with Some size => 0 < size | None => True end → receives mode = true →
  consumer_ends up → (up = true → hdn γ = true) → owns i [] [] [] γ →
  safe (hw_consumer fuel verify batch mode) emptied γ.
Proof using HPN Hq0 Htotal Hi.
  intros Hbs Hm Hends Hup Ho. unfold hw_consumer. rewrite Hm.
  assert (turn 0 false γ) as H0.
  { exists []. assert (marked [] [] = []) as -> by (unfold marked; by destruct verify). cbn. repeat split; try apply Ho; try done.
    unfold hw_total. lia. }
  destruct Hends as [[Hu Hf]|Hw].
  - apply (cwp_loop _ _ _ _ (λ cf γ, turn cf.1 cf.2 γ ∧ (up = true → hdn γ = true))
      (λ cf, (2 * Z.to_nat (hw_total - cf.1) + (if cf.2 : bool then 0 else 1))%nat)); [done|cbn [fst snd]; lia|].
    intros [c flag] γ1 [H1 Hup1]. eapply cwp_mono; [by apply (hsafe_turn up flag c)|]. intros [[c' flag']|c'] γ2; [|done].
    intros (H2 & Hup2 & Hd). split; [done|]. specialize (Hd Hu). destruct H1 as (g1 & _ & E1 & Hb1 & _). destruct H2 as (g2 & _ & E2 & Hb2 & _).
    cbn [fst snd] in *. destruct Hd as [Hlt|(Heq & -> & ->)]; [destruct flag, flag'; cbv iota; lia|cbv iota; lia].
  - apply (cwp_loop_waits _ _ _ _ (λ cf γ, turn cf.1 cf.2 γ ∧ (up = true → hdn γ = true))); [done|by intros|].
    intros [c flag] γ1 [H1 Hup1]. eapply cwp_mono; [by apply (hsafe_turn up flag c)|]. intros [[c' flag']|c'] γ2; [|done].
    by intros (H2 & Hup2 & _).
Qed.

Lemma hsafe_main γ : (∀ γ, waits i γ) → owns i [] [] [] γ → safe (hw_main fuel (Z.of_nat P)) (λ c γ', has i [] [] [] γ' ∧ c = 0) γ.
Proof.
  intros Hw Ho. unfold hw_main. apply cwp_bind.
  apply (cwp_loop_waits _ _ _ _ (λ _, owns i [] [] [])); [done|by intros|]. intros [] γ1 H1.
  apply (hsafe_count _ _ _ [] [] []); [done|]. intros γ2 n H2 Ha. apply cwp_ret. zcase; [|done]. 
  apply (hsafe_raise _ _ _ [] [] []); [done|by apply Ha|]. intros γ3 H3. apply cwp_ret. by destruct H3 as (?&?&?&?).
Qed.
End thread.

(** ** The pool *)

(** What a thread that returns [c] has done: producers come first, then [C] consumers. *)
Definition hw_post (mode : hwmode) (C i : nat) (c : Z) γ : Prop :=
  if decide (i < P)%nat then has i (target i) [] [] γ ∧ c = Z.of_nat (length (target i))
  else if decide (i < P + C)%nat then
    ∃ g, has i [] g (marked [] g) γ ∧ c = Z.of_nat (length g) ∧ (if receives mode then hw_drained γ else g = [])
  else has i [] [] [] γ.

Lemma hw_post_stable mode C i : stable hw_rely i (hw_post mode C i).
Proof.
  intros c γ γ' H Hr. unfold hw_post in *. repeat case_decide.
  - destruct H as [H ->]. split; [by eapply has_rely|done].
  - destruct H as (g & H & -> & Hd). exists g. split; [by eapply has_rely|]. split; [done|].
    destruct (receives mode); [by eapply hw_drained_rely|done].
  - by eapply has_rely.
Qed.

End rounds.

(** The counts of consecutive threads. *)
Lemma sum_lengths (cs : list Z) (f : nat → list Z) k : (∀ j x, cs !! j = Some x → x = Z.of_nat (length (f (k + j)%nat))) →
  foldr Z.add 0 cs = Z.of_nat (length (concat (f <$> seq k (length cs)))).
Proof.
  revert k. induction cs as [|x cs IH]; intros k H; [done|]. cbn [length seq foldr]. rewrite fmap_cons. cbn [concat]. rewrite length_app.
  rewrite (IH (S k)); [|intros j y Hj; replace (S k + j)%nat with (k + S j)%nat by lia; by apply H].
  rewrite (H 0%nat x eq_refl), Nat.add_0_r. lia.
Qed.

(** ** A whole round *)

Section round.
Context `{PR : Profile} (fuel : nat) (verify : bool) (batch : option Z) (mode : hwmode) (producers consumers expected : Z) (q0 : list Z).
Context (Hp : 0 < producers) (He : 0 ≤ expected ≤ isize_max).
Notation P := (Z.to_nat producers).
Notation C := (Z.to_nat consumers).
Notation N := (P + C + 1)%nat.

(** The queue before and after a round. *)
Definition hw_before : Prop := match mode with DRAIN => q0 ≡ₚ seqZ 0 expected | STOP => False | _ => q0 = [] end.
Definition hw_after (q : list Z) : Prop := match mode with FILL => q ≡ₚ seqZ 0 expected | _ => q = [] end.

Definition hw_target (j : nat) : list Z :=
  if decide (j < P)%nat then (if sends mode then hw_share expected producers j else []) else [].

Lemma target_producers : cat N hw_target = cat P hw_target.
Proof.
  rewrite <- Nat.add_assoc, cat_split, cat_nil; [apply app_nil_r|]. intros j Hj. unfold hw_target. by rewrite decide_False by lia.
Qed.

Lemma cat_target : cat N hw_target = if sends mode then seqZ 0 expected else [].
Proof using Hp He.
  rewrite target_producers.
  destruct (sends mode) eqn:Hs.
  - rewrite <- (hw_shares expected producers) by lia. apply cat_ext. intros j Hj. unfold hw_target. by rewrite decide_True, Hs.
  - rewrite (cat_ext P _ (λ _, [])); [apply concat_fmap_nil|]. intros j Hj. unfold hw_target. by rewrite decide_True, Hs.
Qed.

(** What can be received in the round. *)
Lemma round_content : hw_before → (sends mode || receives mode = true → q0 ++ cat N hw_target ≡ₚ seqZ 0 expected) ∧
  (sends mode || receives mode = false → q0 ++ cat N hw_target = []).
Proof using Hp He.
  rewrite cat_target. unfold hw_before, sends, receives. destruct mode; cbn; intros H; try done; split; try done; intros _; subst; try done.
  by rewrite app_nil_r.
Qed.

Lemma round_content_nonneg v : hw_before → v ∈ q0 ++ cat N hw_target → 0 ≤ v.
Proof using Hp He.
  intros Hb Hv. destruct (round_content Hb) as [H1 H2]. destruct (sends mode || receives mode).
  - rewrite (H1 eq_refl) in Hv. apply elem_of_seqZ in Hv. lia.
  - rewrite (H2 eq_refl) in Hv. by apply not_elem_of_nil in Hv.
Qed.

Lemma round_total : hw_before → hw_total N q0 hw_target ≤ expected.
Proof using Hp He.
  intros Hb. unfold hw_total. destruct (round_content Hb) as [H1 H2]. destruct (sends mode || receives mode).
  - rewrite (H1 eq_refl), length_seqZ. lia.
  - rewrite (H2 eq_refl). cbn. lia.
Qed.


Context (Hc : 0 < consumers).
Context (Hbatch : match batch with Some size => 0 < size ≤ usize_max | None => True end).
Context (Hfuel : (2 * Z.to_nat expected + 1 < fuel)%nat).

(** Producers never wait; consumers do not in a round that only drains. *)
Definition hw_waits (i : nat) (γ : hghost) : Prop := (P ≤ i)%nat ∧ (mode = DRAIN → (P + C ≤ i)%nat).

Definition hg_start : hghost := mkHg (λ _, []) (λ _, []) (λ _, []) (λ _, false) (bool_decide (mode = DRAIN)) [].

Lemma lookup_hw_threads i p : hw_threads fuel verify batch mode producers consumers expected !! i = Some p →
  (i < N)%nat ∧
  p = (if decide (i < P)%nat then hw_producer fuel batch mode expected producers (Z.of_nat i)
       else if decide (i < P + C)%nat then hw_consumer fuel verify batch mode else hw_main fuel producers).
Proof.
  unfold hw_threads. intros [Hi|[Hl [Hi|[Hl2 Hi]]%lookup_app_Some]]%lookup_app_Some;
    rewrite ?length_fmap, ?length_seqZ, ?length_replicate in *.
  - rewrite list_lookup_fmap in Hi. apply fmap_Some in Hi as (k & [-> Hk]%lookup_seqZ & ->).
    rewrite decide_True by lia. split; [lia|]. by rewrite Z.add_0_l.
  - apply lookup_replicate in Hi as [-> Hi]. rewrite decide_False, decide_True by lia. split; [lia|done].
  - apply list_lookup_singleton_Some in Hi as [Hi <-]. rewrite !decide_False by lia. split; [lia|done].
Qed.

Lemma hw_inv_start : hw_before → hw_inv verify N P expected q0 hw_target hg_start (hw_round_start verify mode q0 expected).
Proof.
  intros Hb. constructor; cbn [hg_start hput hgot hvis hret hdn hlog hw_round_start hw_queue hw_done hw_finished hw_seen hw_bad]; try done.
  - rewrite sumn_const. lia.
  - intros j _. apply prefix_nil.
  - intros j Hj [?|Hd%bool_decide_eq_true]; [done|]. unfold hw_target, sends. rewrite decide_True by done. by rewrite Hd.
  - destruct verify; [|done]. unfold marks. rewrite <- (fmap_replicate (λ _ : Z, 0) (Z.to_nat expected) 0). 
    apply list_eq. intros k. rewrite !list_lookup_fmap. destruct (decide (k < Z.to_nat expected)%nat).
    + rewrite lookup_seqZ_lt, replicate_lookup_Some by lia. done.
    + rewrite lookup_seqZ_ge by lia. by rewrite lookup_ge_None_2 by (rewrite length_replicate; lia).
  - unfold cat. by rewrite concat_fmap_nil.
Qed.

Lemma hw_thread_safe i p : hw_before → hw_threads fuel verify batch mode producers consumers expected !! i = Some p →
  cwp (hw_inv verify N P expected q0 hw_target) hw_rely hw_guar hw_waits i p
    (hw_post verify N P q0 hw_target mode C i) hg_start.
Proof using Hp He Hc Hbatch Hfuel.
  intros Hb [Hi ->]%lookup_hw_threads. pose proof (round_total Hb) as Ht. assert (P ≤ N)%nat as HPN by lia.
  pose proof (λ v, round_content_nonneg v Hb) as Hnn. assert (hw_total N q0 hw_target ≤ usize_max) as Htm by (unfold isize_max, usize_max in *; lia).
  assert (owns i [] [] [] hg_start) as Ho by done. unfold hw_post. case_decide as HiP; [|case_decide as HiC].
  - apply (hsafe_producer fuel verify batch N P expected q0 hw_target HPN Hnn Htm hw_waits i Hi); try done; try lia.
    unfold hw_target. by rewrite decide_True.
  - assert (match batch with Some size => 0 < size | None => True end) as Hbs by (destruct batch; [lia|done]).
    destruct (receives mode) eqn:Hr; [|unfold hw_consumer; rewrite Hr; apply cwp_ret; exists []; unfold marked; by destruct verify].
    apply (hsafe_consumer fuel verify batch N P expected q0 hw_target HPN Hnn Htm hw_waits i Hi (bool_decide (mode = DRAIN))); try done.
    destruct (decide (mode = DRAIN)) as [->|Hne]; [left; split; [done|]|right; intros γ; split; [lia|done]]. lia.
  - assert (hw_main fuel producers = hw_main fuel (Z.of_nat P)) as -> by (f_equal; lia). eapply cwp_mono; [apply (hsafe_main fuel verify N P expected q0 hw_target HPN hw_waits i Hi)|].
    + intros γ. split; [lia|intros _; lia].
    + done.
    + by intros c γ [? _].
Qed.
Lemma hw_reach c : hw_before →
  rtc conc_step (hw_threads fuel verify batch mode producers consumers expected, hw_round_start verify mode q0 expected) c →
  ∃ γ, pool_ok (hw_inv verify N P expected q0 hw_target) hw_rely hw_guar hw_waits (hw_post verify N P q0 hw_target mode C) c γ ∧
    length c.1 = N.
Proof using Hp He Hc Hbatch Hfuel.
  intros Hb Hr. destruct (pool_reach (hw_inv verify N P expected q0 hw_target) hw_rely hw_guar hw_waits hw_rg
    (λ i γ γ' H _, H) (hw_post verify N P q0 hw_target mode C)
    (hw_threads fuel verify batch mode producers consumers expected, hw_round_start verify mode q0 expected) c hg_start) as (γ & Hok & _); [| |exact Hr|].
  - intros i. apply hw_post_stable.
  - split; [by apply hw_inv_start|]. intros i p Hi. by apply hw_thread_safe.
  - exists γ. split; [done|]. transitivity (length (hw_threads fuel verify batch mode producers consumers expected)).
    + change (hw_threads fuel verify batch mode producers consumers expected) with
        (hw_threads fuel verify batch mode producers consumers expected, hw_round_start verify mode q0 expected).1.
      clear -Hr. induction Hr as [|c1 c2 c3 Hs Hr IH]; [done|]. rewrite IH. destruct Hs; cbn [fst]; by rewrite length_insert.
    + unfold hw_threads. rewrite !length_app, length_fmap, length_seqZ, length_replicate. cbn. lia.
Qed.

(** What a thread has done when it has returned. *)
Definition thread_done (j : nat) (a : Z) (γ : hghost) : Prop :=
  hput γ j = hw_target j ∧ hvis γ j = (if verify then hgot γ j else []) ∧
  ((j < P)%nat → a = Z.of_nat (length (hw_target j))) ∧ ((j < P)%nat ∨ (P + C ≤ j)%nat → hgot γ j = []) ∧
  ((P ≤ j < P + C)%nat → a = Z.of_nat (length (hgot γ j)) ∧ if receives mode then hw_drained N q0 γ else hgot γ j = []).

Lemma thread_done_post j a γ : hw_post verify N P q0 hw_target mode C j a γ → thread_done j a γ.
Proof.
  unfold hw_post, thread_done. intros H. repeat case_decide.
  - destruct H as [(-> & -> & ->) ->]. repeat split; try done; try lia. by destruct verify.
  - destruct H as (g & (-> & -> & ->) & -> & Hd). repeat split; try lia; try done.
    unfold hw_target. by rewrite decide_False.
  - destruct H as (-> & -> & ->). repeat split; try lia; [|by destruct verify]. unfold hw_target. by rewrite decide_False by lia.
Qed.

(** What is known when every thread has returned. *)
Lemma hw_returned cs γ : length cs = N → (∀ j a, cs !! j = Some a → thread_done j a γ) →
  cat N (hput γ) = cat N hw_target ∧ cat N (hvis γ) = (if verify then cat N (hgot γ) else []) ∧
  foldr Z.add 0 (take P cs) = Z.of_nat (length (cat N hw_target)) ∧
  foldr Z.add 0 (drop P (take (P + C) cs)) = Z.of_nat (length (cat N (hgot γ))) ∧
  (if receives mode then hw_drained N q0 γ else cat N (hgot γ) = []).
Proof using Hp He Hc Hbatch Hfuel.
  intros Hlen Hd. assert (∀ j, (j < N)%nat → ∃ a, thread_done j a γ) as Hj.
  { intros j Hj. destruct (lookup_lt_is_Some_2 cs j) as [a Ha]; [lia|]. eauto. }
  assert (∀ j, (j < P)%nat ∨ (P + C ≤ j < N)%nat → hgot γ j = []) as Hnil.
  { intros j Hjj. destruct (Hj j ltac:(lia)) as (a & _ & _ & _ & H & _). apply H. lia. }
  assert (cat N (hgot γ) = concat (hgot γ <$> seq P C)) as Hgot.
  { rewrite cat_split, cat_nil, app_nil_r, cat_split by (intros; apply Hnil; lia). unfold cat at 1.
    rewrite cat_nil by (intros; apply Hnil; lia). done. }
  split; [apply cat_ext; intros j Hjn; by destruct (Hj j Hjn) as (a & ? & _)|]. split; [|split; [|split]].
  - assert (∀ j, (j < N)%nat → hvis γ j = (if verify then hgot γ j else [])) as Hv by (intros j Hjn; by destruct (Hj j Hjn) as (a & _ & ? & _)).
    destruct verify; [by apply cat_ext|]. rewrite (cat_ext N _ (λ _, [])) by done. apply concat_fmap_nil.
  - rewrite target_producers, (sum_lengths _ hw_target 0); [by rewrite length_take_le by lia|].
    intros j x [Hx Hlt]%lookup_take_Some. apply (Hd j x Hx). lia.
  - rewrite Hgot, (sum_lengths _ (hgot γ) P).
    + rewrite length_drop, length_take_le by lia. by replace (P + C - P)%nat with C by lia.
    + intros j x Hx. rewrite lookup_drop in Hx. apply lookup_take_Some in Hx as [Hx Hlt]. apply (Hd _ _ Hx). lia.
  - destruct (receives mode) eqn:Hr.
    + destruct (Hj P ltac:(lia)) as (a & _ & _ & _ & _ & H). rewrite Hr in H. apply H. lia.
    + rewrite Hgot. apply cat_nil. intros j Hjj. destruct (Hj j ltac:(lia)) as (a & _ & _ & _ & _ & H). rewrite Hr in H. apply H. lia.
Qed.

Lemma hw_check_ok sent recv seen bad : mode ≠ STOP → (sends mode = true → sent = expected) → (receives mode = true → recv = expected) →
  (receives mode = true → negb (bool_decide (seen = [])) && (bad || existsb (λ x, negb (x =? 1)) seen) = false) →
  hw_round_check mode expected sent recv seen bad = None.
Proof.
  unfold hw_round_check, sends, receives. intros Hm Hs Hr Hk. rewrite <- !andb_assoc.
  generalize dependent (negb (bool_decide (seen = [])) && (bad || existsb (λ x, negb (x =? 1)) seen)). intros k Hk.
  destruct mode; try done; cbn in *; rewrite ?Hs, ?Hr, ?Hk, ?Z.eqb_refl by done; done.
Qed.

(** The slots and the marks pass the checks of [round]. *)
Lemma hw_result_ok cs s γ : hw_before → length cs = N → hw_inv verify N P expected q0 hw_target γ s →
  (∀ j a, cs !! j = Some a → thread_done j a γ) →
  hw_round_result mode producers expected (take (P + C) cs) s = None ∧ hw_after (hw_queue s).
Proof using Hp He Hc Hbatch Hfuel.
  intros Hb Hlen HI Hd. destruct (hw_returned cs γ Hlen Hd) as (Eput & Evis & Esent & Erecv & Eend).
  destruct (round_content Hb) as [Hbusy Hidle]. pose proof (hi_queue _ _ _ _ _ _ _ _ HI) as Hq. rewrite Eput in Hq.
  unfold hw_round_result. rewrite take_take, Nat.min_l, Esent, Erecv by lia. rewrite cat_target in *.
  assert (receives mode = true → hw_queue s = [] ∧ cat N (hgot γ) ≡ₚ seqZ 0 expected) as Hrec.
  { intros Hr. rewrite Hr in Eend. assert (hw_queue s = []) as Hnil by (eapply drained_queue; [..|exact HI|exact Eend]; try lia). split; [done|].
    rewrite Hnil in Hq. cbn in Hq. rewrite Hq. apply Hbusy. by rewrite Hr, orb_true_r. }
  assert (receives mode = true → negb (bool_decide (hw_seen s = [])) && (hw_bad s || existsb (λ x, negb (x =? 1)) (hw_seen s)) = false) as Hmarks.
  { intros [_ Hg]%Hrec. destruct verify eqn:Hv; [|by rewrite (hi_seen _ _ _ _ _ _ _ _ HI)].
    assert (hlog γ ≡ₚ seqZ 0 expected) as Hlog by (rewrite (hi_log _ _ _ _ _ _ _ _ HI), Evis; exact Hg).
    rewrite (hi_seen _ _ _ _ _ _ _ _ HI), (marks_full _ _ Hlog), orb_false_r. destruct (hw_bad s) eqn:Eb; [|by rewrite andb_false_r].
    exfalso. apply (hi_bad _ _ _ _ _ _ _ _ HI Eb). by apply good_seqZ. }
  assert (receives mode = true → Z.of_nat (length (cat N (hgot γ))) = expected) as Hrc.
  { intros [_ Hg]%Hrec. rewrite Hg, length_seqZ. lia. }
  assert (receives mode = false → q0 ++ (if sends mode then seqZ 0 expected else []) ≡ₚ hw_queue s) as Hkeep.
  { intros Hr. rewrite Hr in Eend. by rewrite <- Hq, Eend, app_nil_r. }
  split; [apply hw_check_ok; try done|].
  - intros Hm. unfold hw_before in Hb. by rewrite Hm in Hb.
  - intros Hs. rewrite Hs, length_seqZ. lia.
  - destruct (receives mode) eqn:Hr; [unfold hw_after; destruct mode; try done; by apply Hrec|]. specialize (Hkeep eq_refl).
    revert Hb Hkeep Hr. unfold hw_before, hw_after, receives, sends. destruct mode; cbn; intros Hb Hkeep Hr; try done; rewrite Hb in Hkeep; cbn in Hkeep.
    + by rewrite <- Hkeep.
    + by apply Permutation_nil_l in Hkeep.
Qed.

(** A round whose threads have returned is accepted. *)
Lemma hw_round_done c (cs : list Z) : hw_before →
  rtc conc_step (hw_threads fuel verify batch mode producers consumers expected, hw_round_start verify mode q0 expected) c →
  c.1 = Ret <$> cs → hw_round_result mode producers expected (take (P + C) cs) c.2 = None ∧ hw_after (hw_queue c.2).
Proof using Hp He Hc Hbatch Hfuel.
  intros Hb Hr. destruct (hw_reach c Hb Hr) as (γ & Hok & Hlen). destruct c as [ts s]. cbn [fst snd] in *. intros ->.
  rewrite length_fmap in Hlen. destruct Hok as [HI Hts]. apply (hw_result_ok cs s γ); try done.
  intros j a Hj. apply thread_done_post, (Hts j (Ret a)). cbn [fst]. by rewrite list_lookup_fmap, Hj.
Qed.

(** C25: a round of the hardware probes delivers what it should, in every interleaving of its
    producers, consumers and main thread, for any numbers of them, scalar or in batches, with
    or without exact-once verification: no thread panics, producers do not run out of
    turns, nor do consumers in a draining round; and when the threads have returned, the
    round is accepted (counts add up, and when verifying every value was marked exactly
    once), a handoff or drain has left nothing in the queue, and a fill has left exactly
    the values of the round. *)
Theorem hw_round_accepted c : hw_before →
  rtc conc_step (hw_threads fuel verify batch mode producers consumers expected, hw_round_start verify mode q0 expected) c →
  (∀ i p, c.1 !! i = Some p → p ≠ Panic ∧ ((i < P)%nat ∨ mode = DRAIN ∧ (i < P + C)%nat → p ≠ OutOfFuel)) ∧
  (∀ cs : list Z, c.1 = Ret <$> cs →
     hw_round_result mode producers expected (take (P + C) cs) c.2 = None ∧ hw_after (hw_queue c.2)).
Proof using Hp He Hc Hbatch Hfuel.
  intros Hb Hr. split; [|intros cs; by apply hw_round_done].
  destruct (hw_reach c Hb Hr) as (γ & Hok & _). intros i p Hi.
  pose proof (pool_fine _ _ _ _ hw_rg _ _ _ _ i p Hok Hi) as Hf. split; [by intros ->|]. intros Hwho ->.
  destruct Hf as [H1 H2]. destruct Hwho as [?|[Hm ?]]; [lia|]. specialize (H2 Hm). lia.
Qed.

End round.

(** A verifying handoff of three values: two producers, one consumer in batches of two. *)
Definition hw_pool : list (prog hwE Z) * hwmem :=
  (hw_threads (PR := true) 9 true (Some 2) HANDOFF 2 1 3, hw_round_start true HANDOFF [] 3).
Definition hw_schedule : list nat := [0; 0; 2; 2; 1; 0; 2; 2; 1; 3; 2; 2; 2; 3; 2; 2; 2; 2]%nat.
Definition hw_end : list (prog hwE Z) * hwmem := default hw_pool (run_sched hw_schedule hw_pool).

Lemma hw_round_accepted_witness :
  hw_end.1 = Ret <$> [2; 1; 3; 0] ∧
  hw_round_result HANDOFF 2 3 (take 3 [2; 1; 3; 0]) hw_end.2 = None ∧ hw_queue hw_end.2 = [].
Proof.
  assert (hw_end.1 = Ret <$> [2; 1; 3; 0]) as H by (vm_compute; reflexivity). split; [exact H|].
  refine (proj2 (hw_round_accepted (PR := true) 9 true (Some 2) HANDOFF 2 1 3 [] _ _ _ _ _ hw_end _ _) _ H).
  - lia.
  - unfold isize_max; lia.
  - lia.
  - unfold usize_max; lia.
  - vm_compute; lia.
  - reflexivity.
  - apply run_sched_reach. vm_compute; reflexivity.
Defined.
