(* ===== verification/Hardware.v ===== *)
(** * Hardware probes (src/src/bench_harness/hardware.rs)

    [run] checks a configuration, chooses a queue and measures it with persistent workers:
    either one filling and draining of the queue after the other, with snapshots of the
    process' memory in between, or rounds of handoffs.  A round is an event here; what
    it does is what the threads of HardwareRounds can do.  Times are in nanoseconds; the
    duration asked for is an IEEE double in seconds and is compared as the code compares it. *)

From Stdlib Require Import Ascii String SpecFloat.
From stdpp Require Import sorting strings.
From S2P Require Import Prelude Prog Conc Text Harness HarnessPlan HarnessOutput Bench Barrier HardwareRounds.

(** ** Doubles *)

Notation f64 := spec_float (only parsing).

Definition f64_of_Z (z : Z) : f64 := binary_normalize 53 1024 z 0 false.

Definition is_finite (x : f64) : bool := match x with S754_zero _ | S754_finite _ _ _ => true | _ => false end.

(** [x <= y] *)
Definition f64_le (x y : f64) : bool := SFleb x y.

(** [Duration::as_secs_f64] *)
Definition as_secs_f64 (nanos : Z) : f64 :=
  SFadd 53 1024 (f64_of_Z (nanos / 1000000000)) (SFdiv 53 1024 (f64_of_Z (nanos mod 1000000000)) (f64_of_Z 1000000000)).

(** ** Configuration *)

Record HwConfig := mkHwConfig {
  hc_queue : text;
  hc_scenario : text;
  hc_batch_size : option Z;
  hc_backoff : text;
  hc_mode : text;
  hc_round_items : Z;
  hc_rounds : option Z;
  hc_duration_secs : f64;
  hc_warmup_rounds : Z;
  hc_memory_depth : Z;
  hc_idle_secs : list Z;
  hc_rss_limit_mib : Z;
  hc_allow_unpinned : bool;
  hc_block_size : Z;
  hc_capacity : Z;
  hc_segment_size : Z
}.

Definition HwConfig_default : HwConfig :=
  mkHwConfig (lit "ubq") (lit "1p1c") None (lit "crossbeam") (lit "handoff") 8388608 None (f64_of_Z 30) 2 65536 [1; 10]
    8192 false 256 1048576 256.

Inductive hwqueue :=
| QScaffold | QUbq (yielding : bool) | QLubq (yielding : bool) | QBatchQueue | QSegQueue | QMutex | QConcurrent | QMs | QMoodycamel
| QFastFifo (block_size capacity : Z) | QLfQueue (segment_size : Z).

(** The arms of the [match] on the queue's name, and those compiled in. *)
Definition select_queue `{BenchFeatures} (cfg : HwConfig) : option hwqueue :=
  let named s := bool_decide (hc_queue cfg = lit s) in
  let scalar := bool_decide (hc_batch_size cfg = None) in
  let yielding := bool_decide (hc_backoff cfg = lit "yield") in
  if named "memory-scaffold"%string && bool_decide (hc_mode cfg = lit "memory") then Some QScaffold
  else if named "ubq"%string then Some (QUbq yielding)
  else if named "lubq"%string then Some (QLubq yielding)
  else if named "segqueue"%string then Some (if scalar then QSegQueue else QBatchQueue)
  else if named "mutex-vecdeque"%string then Some QMutex
  else if named "concurrent-queue"%string && scalar then Some QConcurrent
  else if named "ms-queue"%string && scalar then Some QMs
  else if bench_moodycamel && named "moodycamel-cq"%string then Some QMoodycamel
  else if bench_fastfifo && (named "fastfifo"%string && scalar && (0 <? hc_block_size cfg) && (0 <? hc_capacity cfg)) then
    Some (QFastFifo (hc_block_size cfg) (hc_capacity cfg))
  else if bench_lfqueue && (named "lfqueue"%string && scalar && (0 <? hc_segment_size cfg)) then Some (QLfQueue (hc_segment_size cfg))
  else None.

(** [RbbqBenchQueue::new] and [bounded_capacity]; the other queues are unbounded. *)
Definition rbbq_capacity `{Profile} {E} (block_size requested_capacity : Z) : prog E Z :=
  let data_blocks := Z.max (div_ceil requested_capacity block_size) 1 in
  expect (checked_add data_blocks 3);;
  umul data_blocks block_size.

Definition queue_capacity `{Profile} {E} (q : hwqueue) : prog E (option Z) :=
  match q with
  | QFastFifo block_size capacity => c ← rbbq_capacity block_size capacity; Ret (Some c)
  | _ => Ret None
  end.

(** ** Events *)

Inductive probeE : Type → Type :=
| PNewQueue : probeE unit
| PSpawn : probeE unit
| PRound (mode : hwmode) : probeE (Z + hwerror)
| PSnapshot : probeE Z
| PNow : probeE Z
| PSleep (secs : Z) : probeE unit
| PAffinity : probeE bool
| PStop : probeE unit
| PDropQueue : probeE unit.

(** The queue's items, if it exists; whether workers are up; the rounds run so far and their
    times; the clock; and what was in the queue at each snapshot. *)
Record probemem := mkProbe {
  pb_queue : option (list Z);
  pb_workers : bool;
  pb_rounds : list (hwmode * Z);
  pb_clock : Z;
  pb_snapshots : list (option (list Z))
}.

(** The threads of the [n]-th round: its duration, the queue afterwards, the verdict; the
    time [round] takes besides, for clearing the marks before it starts its clock and
    for summing up after; and whether all threads were pinned. *)
Class ProbeMachine := {
  run_round : nat → hwmode → list Z → Z * list Z * option hwerror;
  untimed : nat → Z;
  all_pinned : bool
}.

(** Rounds need the workers and the queue; workers are stopped before the queue is dropped. *)
#[export] Instance probe_handler `{ProbeMachine} : Handler probeE probemem := λ X e,
  match e in probeE X return probemem → reply probemem X with
  | PNewQueue => λ s,
      if bool_decide (pb_queue s = None) then Next tt (mkProbe (Some []) (pb_workers s) (pb_rounds s) (pb_clock s) (pb_snapshots s)) else Fault
  | PSpawn => λ s, if pb_workers s then Fault else Next tt (mkProbe (pb_queue s) true (pb_rounds s) (pb_clock s) (pb_snapshots s))
  | PRound mode => λ s,
      match pb_queue s with
      | Some q =>
          if pb_workers s then
            let '(elapsed, q', verdict) := run_round (length (pb_rounds s)) mode q in
            Next (match verdict with None => inl elapsed | Some e => inr e end)
              (mkProbe (Some q') true (pb_rounds s ++ [(mode, elapsed)]) (pb_clock s + (elapsed + untimed (length (pb_rounds s))))
                 (pb_snapshots s))
          else Fault
      | None => Fault
      end
  | PSnapshot => λ s,
      Next (Z.of_nat (length (pb_snapshots s)))
        (mkProbe (pb_queue s) (pb_workers s) (pb_rounds s) (pb_clock s) (pb_snapshots s ++ [pb_queue s]))
  | PNow => λ s, Next (pb_clock s) s
  | PSleep secs => λ s, Next tt (mkProbe (pb_queue s) (pb_workers s) (pb_rounds s) (pb_clock s + secs * 1000000000) (pb_snapshots s))
  | PAffinity => λ s, Next all_pinned s
  | PStop => λ s, if pb_workers s then Next tt (mkProbe (pb_queue s) false (pb_rounds s) (pb_clock s) (pb_snapshots s)) else Fault
  | PDropQueue => λ s,
      if bool_decide (pb_queue s = None) || pb_workers s then Fault
      else Next tt (mkProbe None false (pb_rounds s) (pb_clock s) (pb_snapshots s))
  end.

(** ** Results *)

Inductive probe_error :=
| BadMode | InvalidWorkload | BadScenario (message : text) | NotOneScenario | InsufficientCpus | Unsupported
| RoundCapTooSmall | DepthExceedsCapacity | RoundFailed (e : hwerror) | AffinityFailed | TimeOverflow | ItemOverflow.

(** A snapshot is named by its number. *)
Record Checkpoint := mkCheckpoint { cp_phase : text; cp_items_resident : option Z; cp_memory : Z }.

(** Fields computed in floating point, and what the operating system reports, are left out. *)
Inductive ProbeResult :=
| MemoryLifecycle (memory_depth : Z) (checkpoints : list Checkpoint) (phase_elapsed : list Z) (affinity_ok : bool)
| BoundedHandoff (round_items rounds warmup_rounds items elapsed empty_round_median : Z) (fixed_work affinity_ok exact_once_checked : bool).

(** [?] *)
Definition probe_try {A B} (m : prog probeE (A + probe_error)) (k : A → prog probeE (B + probe_error)) : prog probeE (B + probe_error) :=
  r ← m; match r with inl a => k a | inr e => Ret (inr e) end.

Definition probe_round (mode : hwmode) : prog probeE (Z + probe_error) :=
  r ← act (PRound mode); Ret match r with inl elapsed => inl elapsed | inr e => inr (RoundFailed e) end.

Section run_with.
Context `{PR : Profile} (fuel : nat) (cfg : HwConfig) (scenario : ScenarioConfig) (verify : bool).

(** Fill and drain, with a checkpoint after each. *)
Fixpoint lifecycle (expected : Z) (phases : list (text * hwmode)) (checkpoints : list Checkpoint) (durations : list Z)
  : prog probeE (list Checkpoint * list Z + probe_error) :=
  match phases with
  | [] => Ret (inl (checkpoints, durations))
  | (phase, action) :: phases =>
      probe_try (probe_round action) (λ elapsed,
        memory ← act PSnapshot;
        lifecycle expected phases
          (checkpoints ++ [mkCheckpoint phase (Some (if bool_decide (action = FILL) then expected else 0)) memory]) (durations ++ [elapsed]))
  end.

Fixpoint idle_snapshots (secs : list Z) (previous : Z) (checkpoints : list Checkpoint) : prog probeE (list Checkpoint) :=
  match secs with
  | [] => Ret checkpoints
  | seconds :: secs =>
      act (PSleep (saturating_sub seconds previous));;
      memory ← act PSnapshot;
      idle_snapshots secs seconds (checkpoints ++ [mkCheckpoint (lit "idle_" ++ show seconds ++ lit "s") None memory])
  end.

Definition memory_phases (expected before_queue : Z) : prog probeE (list Checkpoint * list Z + probe_error) :=
  empty ← act PSnapshot;
  probe_try (lifecycle expected [(lit "full", FILL); (lit "drained", DRAIN)]
    [mkCheckpoint (lit "before_queue") None before_queue; mkCheckpoint (lit "constructed_empty") None empty] []) (λ '(checkpoints, durations),
  checkpoints ← idle_snapshots (hc_idle_secs cfg) 0 checkpoints;
  probe_try (probe_round FILL) (λ elapsed,
  let durations := durations ++ [elapsed] in
  memory ← act PSnapshot;
  let checkpoints := checkpoints ++ [mkCheckpoint (lit "refilled") (Some expected) memory] in
  probe_try (probe_round DRAIN) (λ elapsed,
  let durations := durations ++ [elapsed] in
  memory ← act PSnapshot;
  let checkpoints := checkpoints ++ [mkCheckpoint (lit "redrained") None memory] in
  Ret (inl (checkpoints, durations))))).

(** An error drops the workers and the queue too. *)
Definition memory_lifecycle (expected before_queue : Z) : prog probeE (ProbeResult + probe_error) :=
  r ← memory_phases expected before_queue;
  match r with
  | inr e => act PStop;; act PDropQueue;; Ret (inr e)
  | inl (checkpoints, durations) =>
      affinity ← act PAffinity;
      act PStop;;
      act PDropQueue;;
      memory ← act PSnapshot;
      let checkpoints := checkpoints ++ [mkCheckpoint (lit "destroyed") None memory] in
      Ret (if negb affinity && negb (hc_allow_unpinned cfg) then inr AffinityFailed
           else inl (MemoryLifecycle expected checkpoints durations affinity))
  end.

(** The rounds [0..n] of one mode, up to the first that fails. *)
Fixpoint collect_rounds (mode : hwmode) (n : nat) (times : list Z) : prog probeE (list Z + probe_error) :=
  match n with
  | O => Ret (inl times)
  | S n => probe_try (probe_round mode) (λ elapsed, collect_rounds mode n (times ++ [elapsed]))
  end.

Fixpoint warmup (n : nat) : prog probeE (unit + probe_error) :=
  match n with
  | O => Ret (inl tt)
  | S n => probe_try (probe_round HANDOFF) (λ _, warmup n)
  end.

(** Handoffs until their number or the time is reached. *)
Definition measure (begin : Z) : prog probeE (Z * Z + probe_error) :=
  loop fuel (λ '(elapsed, rounds),
    r ← probe_round HANDOFF;
    match r with
    | inr e => Ret (inr (inr e))
    | inl time =>
        match checked_add elapsed time with
        | None => Ret (inr (inr TimeOverflow))
        | Some elapsed =>
            rounds ← uadd rounds 1;
            now ← act PNow;
            let stop := match hc_rounds cfg with Some target => target <=? rounds | None => f64_le (hc_duration_secs cfg) (as_secs_f64 (now - begin)) end in
            Ret (if stop : bool then inr (inl (elapsed, rounds)) else inl (elapsed, rounds))
        end
    end) (0, 0).

Definition median (l : list Z) : Z := default 0 (merge_sort Z.le l !! (length l / 2)%nat).

Definition bounded_handoff (expected : Z) : prog probeE (ProbeResult + probe_error) :=
  probe_try (collect_rounds IDLE 16 []) (λ empty_rounds,
  let empty_round_median := median empty_rounds in
  probe_try (warmup (Z.to_nat (hc_warmup_rounds cfg))) (λ _,
  begin ← act PNow;
  probe_try (measure begin) (λ '(elapsed, rounds),
  affinity ← act PAffinity;
  Ret (if negb affinity && negb (hc_allow_unpinned cfg) then inr AffinityFailed
       else match checked_mul expected rounds with
            | None => inr ItemOverflow
            | Some items =>
                inl (BoundedHandoff expected rounds (hc_warmup_rounds cfg) items elapsed empty_round_median
                       (bool_decide (hc_rounds cfg ≠ None)) affinity verify)
            end)))).

(** At the end the workers go out of scope, if they are up, then the queue. *)
Definition run_with (capacity : option Z) (before_queue : Z) : prog probeE (ProbeResult + probe_error) :=
  let memory := bool_decide (hc_mode cfg = lit "memory") in
  alignment ← umul (producers scenario) (default 1 (hc_batch_size cfg));
  expected ← (if memory then Ret (hc_memory_depth cfg)
              else if alignment =? 0 then Panic else Ret (hc_round_items cfg / alignment * alignment));
  if expected =? 0 then act PDropQueue;; Ret (inr RoundCapTooSmall)
  else if memory && match capacity with Some cap => cap <? expected | None => false end then
    act PDropQueue;; Ret (inr DepthExceedsCapacity)
  else
    act PSpawn;;
    if memory then memory_lifecycle expected before_queue
    else
      r ← bounded_handoff expected;
      act PStop;;
      act PDropQueue;;
      Ret r.

End run_with.

(** Parsing a scenario, in a program. *)
Definition probe_lift {A} (m : hres A) : prog probeE (A + probe_error) :=
  match m with HOk a => Ret (inl a) | HErr e => Ret (inr (BadScenario e)) | HPanic => Panic end.

(** [run]; [detected] is what the machine says of its threads and [cpus] the number of CPUs
    that may be used. *)
Definition hw_run `{Profile, BenchFeatures} (fuel : nat) (detected : hres Z) (cpus : Z) (cfg : HwConfig)
  : prog probeE (ProbeResult + probe_error) :=
  let mode s := bool_decide (hc_mode cfg = lit s) in
  if negb (mode "handoff"%string || mode "verify"%string || mode "memory"%string) then Ret (inr BadMode)
  else
    if bool_decide (hc_rounds cfg = Some 0) || (hc_round_items cfg =? 0) || (hc_memory_depth cfg =? 0) ||
       bool_decide (hc_batch_size cfg = Some 0) || negb (is_finite (hc_duration_secs cfg)) ||
       f64_le (hc_duration_secs cfg) (f64_of_Z 0) ||
       negb (bool_decide (hc_backoff cfg = lit "crossbeam") || bool_decide (hc_backoff cfg = lit "yield"))
    then Ret (inr InvalidWorkload)
    else
      probe_try (probe_lift (parse_scenarios_inner detected (Some (hc_scenario cfg)) (Some usize_max))) (λ scenarios,
      match scenarios with
      | [scenario] =>
          threads ← expect (checked_add (producers scenario) (consumers scenario));
          if (cpus <? threads) && negb (hc_allow_unpinned cfg) then Ret (inr InsufficientCpus)
          else
            before ← act PSnapshot;
            match select_queue cfg with
            | None => Ret (inr Unsupported)
            | Some queue =>
                capacity ← queue_capacity queue;
                act PNewQueue;;
                run_with fuel cfg scenario (mode "verify"%string) capacity before
            end
      | _ => Ret (inr NotOneScenario)
      end).

Definition probe_start : probemem := mkProbe None false [] 0 [].

(** ** Machines whose rounds are those of the threads *)

Section probes.
Context `{PR : Profile} `{BF : BenchFeatures} `{PM : ProbeMachine}.
Context (fuel rfuel : nat) (cfg : HwConfig) (scenario : ScenarioConfig).
Notation P := (producers scenario).
Notation C := (consumers scenario).
Notation batch := (hc_batch_size cfg).

(** Every round ends in a state that its threads can reach, and takes time. *)
Definition realistic (verify : bool) (expected : Z) : Prop := ∀ n mode q, hw_before mode expected q →
  ∃ cs s elapsed,
    rtc conc_step (hw_threads rfuel verify batch mode P C expected, hw_round_start verify mode q expected) (Ret <$> cs, s) ∧
    run_round n mode q =
      (elapsed, hw_queue s, hw_round_result mode P expected (take (Z.to_nat P + Z.to_nat C) cs) s) ∧ 0 < elapsed.

(** A scenario and a batch size that the workers can divide the items by. *)
Record divisible (expected : Z) : Prop := {
  dv_producers : 0 < P;
  dv_consumers : 0 < C;
  dv_batch : 0 < default 1 batch;
  dv_alignment : P * default 1 batch ≤ usize_max;
  dv_expected : 0 < expected ≤ isize_max;
  dv_fuel : (2 * Z.to_nat expected + 1 < rfuel)%nat
}.

Lemma realistic_round verify expected n mode q : divisible expected → realistic verify expected → hw_before mode expected q →
  ∃ elapsed q', run_round n mode q = (elapsed, q', None) ∧ 0 < elapsed ∧ hw_after mode expected q'.
Proof.
  intros HD HR Hb. destruct (HR n mode q Hb) as (cs & s & elapsed & Hr & -> & He). destruct HD as [Hp Hc Hba Hal Hex Hf].
  destruct (hw_round_done rfuel verify batch mode P C expected q ltac:(lia) ltac:(lia) ltac:(lia)
    ltac:(destruct batch as [b|]; [cbn in *; nia|done]) Hf (Ret <$> cs, s) cs Hb Hr eq_refl) as [E Ha].
  cbn [snd] in E, Ha. rewrite E.
  by exists elapsed, (hw_queue s).
Qed.

(** ** Rules *)

Lemma wp_probe_try {A B} (m : prog probeE (A + probe_error)) (k : A → prog probeE (B + probe_error)) s Q :
  wp m s (λ r s', match r with inl a => wp (k a) s' Q | inr e => Q (inr e) s' end) → wp (probe_try m k) s Q.
Proof. intros H. unfold probe_try. apply wp_bind. eapply wp_mono; [exact H|]. intros [a|e] s' H'; [done|by apply wp_ret]. Qed.

Lemma wp_probe_round verify expected mode q rounds clock snaps (Q : Z + probe_error → probemem → Prop) :
  divisible expected → realistic verify expected → hw_before mode expected q →
  (∀ elapsed q', elapsed = (run_round (length rounds) mode q).1.1 → hw_after mode expected q' →
     Q (inl elapsed) (mkProbe (Some q') true (rounds ++ [(mode, elapsed)]) (clock + (elapsed + untimed (length rounds))) snaps)) →
  wp (probe_round mode) (mkProbe (Some q) true rounds clock snaps) Q.
Proof.
  intros HD HR Hb HQ. destruct (realistic_round verify expected (length rounds) mode q HD HR Hb) as (elapsed & q' & E & He & Ha).
  unfold probe_round. eapply wp_act_bind; [cbn [handle probe_handler pb_queue pb_workers pb_rounds]; by rewrite E|].
  apply wp_ret. apply HQ; [by rewrite E|done].
Qed.

Lemma wp_snapshot {A} (f : Z → prog probeE A) s Q :
  wp (f (Z.of_nat (length (pb_snapshots s))))
    (mkProbe (pb_queue s) (pb_workers s) (pb_rounds s) (pb_clock s) (pb_snapshots s ++ [pb_queue s])) Q →
  wp (m ← act PSnapshot; f m) s Q.
Proof. intros H. by eapply wp_act_bind. Qed.

(** ** The memory lifecycle *)

(** The numbers of items in the queue at the snapshots. *)
Definition resident (snaps : list (option (list Z))) : list (option Z) := option_map (λ q : list Z, Z.of_nat (length q)) <$> snaps.

Lemma resident_dropped snaps : resident (snaps ++ [None]) = resident snaps ++ [None].
Proof. unfold resident. by rewrite fmap_app. Qed.

(** Checkpoints that say what the snapshots were taken of, in their order. *)
Definition recorded (phases : list (text * option Z)) (cps : list Checkpoint) : Prop :=
  (λ cp, (cp_phase cp, cp_items_resident cp)) <$> cps = phases ∧ cp_memory <$> cps = seqZ 0 (Z.of_nat (length cps)).

Lemma recorded_snoc phases cps phase items : recorded phases cps →
  recorded (phases ++ [(phase, items)]) (cps ++ [mkCheckpoint phase items (Z.of_nat (length cps))]).
Proof.
  intros [H1 H2]. split; rewrite fmap_app; [by rewrite H1|]. rewrite H2, length_app. cbn [fmap list_fmap cp_memory length].
  rewrite Nat2Z.inj_add, seqZ_app by lia. done.
Qed.

Lemma recorded_two phases cps p1 i1 p2 i2 (n1 n2 : nat) : recorded phases cps → n1 = length cps → n2 = S (length cps) →
  recorded (phases ++ [(p1, i1); (p2, i2)]) ((cps ++ [mkCheckpoint p1 i1 (Z.of_nat n1)]) ++ [mkCheckpoint p2 i2 (Z.of_nat n2)]).
Proof.
  intros H -> ->. apply (recorded_snoc _ _ p1 i1) in H. apply (recorded_snoc _ _ p2 i2) in H. rewrite <- app_assoc in H.
  by rewrite length_app, Nat.add_comm in H.
Qed.

Definition idle_phase (seconds : Z) : text * option Z := (lit "idle_" ++ show seconds ++ lit "s", None).

Lemma wp_idle secs prev cps phases q rounds clock snaps (Q : list Checkpoint → probemem → Prop) :
  recorded phases cps → length snaps = length cps →
  (∀ cps' clock', recorded (phases ++ (idle_phase <$> secs)) cps' → (length cps' = length cps + length secs)%nat →
     Q cps' (mkProbe (Some q) true rounds clock' (snaps ++ replicate (length secs) (Some q)))) →
  wp (idle_snapshots secs prev cps) (mkProbe (Some q) true rounds clock snaps) Q.
Proof.
  revert prev cps phases clock snaps. induction secs as [|x secs IH]; intros prev cps phases clock snaps Hrec Hlen HQ; cbn [idle_snapshots].
  - apply wp_ret. rewrite <- (app_nil_r snaps). apply HQ; [by rewrite app_nil_r|cbn; lia].
  - eapply wp_act_bind; [done|]. apply wp_snapshot. cbn [pb_snapshots pb_queue pb_workers pb_rounds pb_clock]. rewrite Hlen.
    eapply IH; [by apply recorded_snoc|rewrite !length_app; cbn; lia|]. intros cps' clock' Hrec' Hlen'.
    rewrite <- app_assoc in Hrec'. rewrite <- app_assoc. apply HQ; [done|]. rewrite length_app in Hlen'. cbn in Hlen' |- *. lia.
Qed.

Lemma resident_filled mode depth q : mode = FILL → 0 ≤ depth → hw_after mode depth q → Z.of_nat (length q) = depth.
Proof. intros -> Hd Hq. cbn in Hq. rewrite Hq, length_seqZ. lia. Qed.

(** The phases of a lifecycle, with the items said to be in the queue, and those that are. *)
Definition lifecycle_phases (depth : Z) : list (text * option Z) :=
  [(lit "before_queue", None); (lit "constructed_empty", None); (lit "full", Some depth); (lit "drained", Some 0)] ++
  (idle_phase <$> hc_idle_secs cfg) ++ [(lit "refilled", Some depth); (lit "redrained", None)].
Definition lifecycle_resident (depth : Z) : list (option Z) :=
  [None; Some 0; Some depth; Some 0] ++ replicate (length (hc_idle_secs cfg)) (Some 0) ++ [Some depth; Some 0].

Lemma wp_memory_phases verify depth clock (Q : list Checkpoint * list Z + probe_error → probemem → Prop) :
  divisible depth → realistic verify depth →
  (∀ cps durs snaps clock, recorded (lifecycle_phases depth) cps → resident snaps = lifecycle_resident depth → length durs = 4%nat →
     Q (inl (cps, durs)) (mkProbe (Some []) true (zip [FILL; DRAIN; FILL; DRAIN] durs) clock snaps)) →
  wp (memory_phases cfg depth 0) (mkProbe (Some []) true [] clock [None]) Q.
Proof.
  intros HD HR HQ. pose proof (dv_expected _ HD) as He. unfold memory_phases.
  apply wp_snapshot. cbn [pb_snapshots pb_queue pb_workers pb_rounds pb_clock app length lifecycle].
  apply wp_probe_try, wp_probe_try. eapply wp_probe_round; [exact HD|exact HR|done|]. intros e1 q1 He1 Hq1.
  apply wp_snapshot. cbn [pb_snapshots pb_queue pb_workers pb_rounds pb_clock app length lifecycle].
  apply wp_probe_try. eapply wp_probe_round; [exact HD|exact HR|exact Hq1|]. intros e2 q2 He2 Hq2. cbn in Hq2. subst q2.
  apply wp_snapshot. cbn [pb_snapshots pb_queue pb_workers pb_rounds pb_clock app length lifecycle]. apply wp_ret. cbv beta iota.
  apply wp_bind. eapply wp_idle; [split; [reflexivity|reflexivity]|reflexivity|]. intros cps clock' Hrec Hlen.
  apply wp_probe_try. eapply wp_probe_round; [exact HD|exact HR|done|]. intros e3 q3 He3 Hq3.
  apply wp_snapshot. cbn [pb_snapshots pb_queue pb_workers pb_rounds pb_clock]. 
  apply wp_probe_try. eapply wp_probe_round; [exact HD|exact HR|exact Hq3|]. intros e4 q4 He4 Hq4. cbn in Hq4. subst q4.
  apply wp_snapshot. cbn [pb_snapshots pb_queue pb_workers pb_rounds pb_clock]. apply wp_ret.
  set (idle := replicate _ _). apply (HQ _ [e1; e2; e3; e4]); [| |done].
  - unfold lifecycle_phases. rewrite app_assoc. apply (recorded_two (_ ++ _)); [exact Hrec| |];
      rewrite !length_app; unfold idle; rewrite length_replicate; cbn [length] in *; lia.
  - unfold resident, lifecycle_resident, idle. rewrite !fmap_app, fmap_replicate, <- !app_assoc. cbn [fmap list_fmap option_map].
    by rewrite (resident_filled FILL depth q1), (resident_filled FILL depth q3) by (done || lia).
Qed.

(** ** Handoffs *)

Section handoffs.
Context (verify : bool) (expected : Z) (HD : divisible expected) (HR : realistic verify expected).
Context (snaps : list (option (list Z))).

(** The workers are up and the queue is empty after [rounds]. *)
Notation quiet rounds clock := (mkProbe (Some []) true rounds clock snaps).
Notation timed mode times := ((λ t, (mode, t)) <$> times).

Lemma timed_snoc (mode : hwmode) (times : list Z) t : timed mode (times ++ [t]) = timed mode times ++ [(mode, t)].
Proof. by rewrite fmap_app. Qed.

Lemma wp_quiet_round mode rounds clock (Q : Z + probe_error → probemem → Prop) : mode = IDLE ∨ mode = HANDOFF →
  (∀ t, t = (run_round (length rounds) mode []).1.1 →
     Q (inl t) (quiet (rounds ++ [(mode, t)]) (clock + (t + untimed (length rounds))))) →
  wp (probe_round mode) (quiet rounds clock) Q.
Proof using HD HR.
  intros Hm HQ. eapply wp_probe_round; [exact HD|exact HR|by destruct Hm as [-> | ->]|]. intros t q' Ht Hq.
  replace q' with (@nil Z) by (destruct Hm as [-> | ->]; done). by apply HQ.
Qed.

Lemma wp_collect mode n times rounds clock (Q : list Z + probe_error → probemem → Prop) : mode = IDLE ∨ mode = HANDOFF →
  (∀ new clock', length new = n → Q (inl (times ++ new)) (quiet (rounds ++ timed mode new) clock')) →
  wp (collect_rounds mode n times) (quiet rounds clock) Q.
Proof using HD HR.
  intros Hm. revert times rounds clock. induction n as [|n IH]; intros times rounds clock HQ; cbn [collect_rounds].
  - apply wp_ret. rewrite <- (app_nil_r times), <- (app_nil_r rounds). by apply (HQ []).
  - apply wp_probe_try, wp_quiet_round; [done|]. intros t Ht. apply IH. intros new clock' Hn.
    rewrite <- !app_assoc. apply (HQ (t :: new)). cbn. by rewrite Hn.
Qed.

Lemma wp_warmup n rounds clock (Q : unit + probe_error → probemem → Prop) :
  (∀ new clock', length new = n → Q (inl tt) (quiet (rounds ++ timed HANDOFF new) clock')) →
  wp (warmup n) (quiet rounds clock) Q.
Proof using HD HR.
  revert rounds clock. induction n as [|n IH]; intros rounds clock HQ; cbn [warmup].
  - apply wp_ret. rewrite <- (app_nil_r rounds). by apply (HQ []).
  - apply wp_probe_try, wp_quiet_round; [by right|]. intros t Ht. apply IH. intros new clock' Hn.
    rewrite <- app_assoc. apply (HQ (t :: new)). cbn. by rewrite Hn.
Qed.

Definition sum_times (l : list Z) : Z := foldr Z.add 0 l.

Lemma sum_times_snoc l t : sum_times (l ++ [t]) = sum_times l + t.
Proof. unfold sum_times. induction l as [|x l IH]; cbn [app foldr]; [lia|rewrite IH; lia]. Qed.

(** What the clock shows after rounds [n], [n + 1], ... that took [times]. *)
Fixpoint wall (n : nat) (times : list Z) : Z :=
  match times with
  | [] => 0
  | t :: times => t + untimed n + wall (S n) times
  end.

Lemma wall_snoc n l t : wall n (l ++ [t]) = wall n l + (t + untimed (n + length l)).
Proof.
  revert n. induction l as [|x l IH]; intros n; cbn [app wall length]; [rewrite Nat.add_0_r; lia|].
  rewrite IH. replace (S n + length l)%nat with (n + S (length l))%nat by lia. lia.
Qed.

(** The test after a round; [n] rounds were run before the measured ones. *)
Definition stop_after (n : nat) (times : list Z) : bool :=
  match hc_rounds cfg with
  | Some target => target <=? Z.of_nat (length times)
  | None => f64_le (hc_duration_secs cfg) (as_secs_f64 (wall n times))
  end.

(** Where the measurement ends: after the rounds asked for, or after the first round at
    whose end the duration is over. *)
Definition enough (n : nat) (meas : list Z) : Prop :=
  match hc_rounds cfg with
  | Some target => Z.of_nat (length meas) = target
  | None => stop_after n meas = true ∧ ∀ k, (0 < k < length meas)%nat → stop_after n (take k meas) = false
  end.

(** The times of the handoff rounds [n], ..., [n + k - 1]. *)
Definition handoff_times (n k : nat) : list Z := (λ i, (run_round i HANDOFF []).1.1) <$> seq n k.

Lemma handoff_times_length n k : length (handoff_times n k) = k.
Proof. unfold handoff_times. by rewrite length_fmap, length_seq. Qed.

Lemma handoff_times_S n k : handoff_times n (S k) = handoff_times n k ++ [(run_round (n + k) HANDOFF []).1.1].
Proof. unfold handoff_times. rewrite seq_S, fmap_app. done. Qed.

Lemma handoff_times_take n k m : (k ≤ m)%nat → take k (handoff_times n m) = handoff_times n k.
Proof. intros Hk. unfold handoff_times. rewrite <- fmap_take, take_seq. by rewrite Nat.min_l. Qed.

(** The measurement is over before the fuel is: after some number of rounds within it the
    test holds. *)
Definition ends_within (n : nat) : Prop := ∃ k, (0 < k < fuel)%nat ∧ stop_after n (handoff_times n k) = true.

(** The loop before a round: the test has failed so far. *)
Definition measuring (begin : Z) (rounds : list (hwmode * Z)) (limit : nat) (l : Z * Z) (s : probemem) : Prop :=
  ∃ k, (k < limit)%nat ∧ l = (sum_times (handoff_times (length rounds) k), Z.of_nat k) ∧
    (∀ j, (0 < j ≤ k)%nat → stop_after (length rounds) (handoff_times (length rounds) j) = false) ∧
    s = quiet (rounds ++ timed HANDOFF (handoff_times (length rounds) k)) (begin + wall (length rounds) (handoff_times (length rounds) k)).

Lemma enough_intro n k : (0 < default 1 (hc_rounds cfg)) → (0 < k)%nat → stop_after n (handoff_times n k) = true →
  (∀ j, (0 < j < k)%nat → stop_after n (handoff_times n j) = false) → enough n (handoff_times n k).
Proof.
  intros Hpos Hk Hstop Hbefore. unfold enough. destruct (hc_rounds cfg) as [target|] eqn:E.
  - unfold stop_after in Hstop, Hbefore. rewrite E in Hstop, Hbefore. rewrite handoff_times_length in *. zbool. cbn in Hpos.
    destruct (decide (Z.of_nat k = target)) as [|Hne]; [done|]. specialize (Hbefore (Z.to_nat target) ltac:(lia)).
    rewrite handoff_times_length in Hbefore. zbool. lia.
  - split; [done|]. intros j Hj. rewrite handoff_times_length in Hj. rewrite handoff_times_take by lia. by apply Hbefore.
Qed.

Lemma wp_measure begin rounds (Q : Z * Z + probe_error → probemem → Prop) :
  0 < default 1 (hc_rounds cfg) → ends_within (length rounds) → Z.of_nat fuel ≤ usize_max →
  (∀ meas clock, enough (length rounds) meas → sum_times meas ≤ usize_max →
     Q (inl (sum_times meas, Z.of_nat (length meas))) (quiet (rounds ++ timed HANDOFF meas) clock)) →
  (∀ meas clock, usize_max < sum_times meas → Q (inr TimeOverflow) (quiet (rounds ++ timed HANDOFF meas) clock)) →
  wp (measure fuel cfg begin) (quiet rounds begin) Q.
Proof using HD HR.
  intros Hpos (limit & Hlim & Hstop) Hword HQ Herr. unfold measure. set (n := length rounds) in *.
  apply (wp_loop (measuring begin rounds limit) (λ l, limit - Z.to_nat l.2)%nat).
  - exists 0%nat. cbn. rewrite app_nil_r, Z.add_0_r. repeat split; try done; lia.
  - cbn [snd]. lia.
  - intros l s (k & Hk & -> & Hgo & ->). fold n. apply wp_bind, wp_quiet_round; [by right|]. intros t Ht.
    rewrite <- app_assoc, <- (timed_snoc HANDOFF _ t), <- Z.add_assoc. rewrite length_app, length_fmap, handoff_times_length in Ht |- *.
    fold n in Ht |- *. pose proof (wall_snoc n (handoff_times n k) t) as Ew. rewrite handoff_times_length in Ew. rewrite <- Ew.
    pose proof (sum_times_snoc (handoff_times n k) t) as Es. rewrite Ht, <- handoff_times_S in *. clear Ew.
    unfold checked_add. rewrite <- Es. zcase; [|apply wp_ret; by apply Herr].
    rewrite uadd_ok by lia. apply wp_bind, wp_ret. replace (Z.of_nat k + 1) with (Z.of_nat (S k)) by lia.
    eapply wp_act_bind; [reflexivity|]. cbn [pb_clock].
    match goal with |- wp (Ret (if ?stop then _ else _)) _ _ =>
      assert (stop = stop_after n (handoff_times n (S k))) as -> end.
    { unfold stop_after. destruct (hc_rounds cfg); [by rewrite handoff_times_length|]. do 2 f_equal. lia. }
    apply wp_ret. destruct (stop_after n (handoff_times n (S k))) eqn:Est.
    + rewrite <- (handoff_times_length n (S k)) at 2. apply HQ; [|done]. apply enough_intro; [done|lia|done|].
      intros j Hj. apply Hgo. lia.
    + assert (S k ≠ limit) by (intros E; rewrite E in Est; congruence). split; [|cbn [snd]; lia].
      exists (S k). split; [lia|]. split; [done|]. split; [|done].
      intros j Hj. destruct (decide (j = S k)) as [->|]; [done|]. apply Hgo. lia.
Qed.

(** What a measurement of handoffs ends with. *)
Definition handed_off (r : ProbeResult + probe_error) (rounds : list (hwmode * Z)) : Prop :=
  ∃ idle warm meas : list Z,
    rounds = timed IDLE idle ++ timed HANDOFF warm ++ timed HANDOFF meas ∧
    length idle = 16%nat ∧ length warm = Z.to_nat (hc_warmup_rounds cfg) ∧
    match r with
    | inl result =>
        result = BoundedHandoff expected (Z.of_nat (length meas)) (hc_warmup_rounds cfg) (expected * Z.of_nat (length meas))
          (sum_times meas) (median idle) (bool_decide (hc_rounds cfg ≠ None)) all_pinned verify ∧
        enough (16 + length warm) meas ∧ (all_pinned = true ∨ hc_allow_unpinned cfg = true)
    | inr TimeOverflow => usize_max < sum_times meas
    | inr ItemOverflow => usize_max < expected * Z.of_nat (length meas)
    | inr AffinityFailed => all_pinned = false ∧ hc_allow_unpinned cfg = false
    | inr _ => False
    end.

Lemma wp_bounded_handoff :
  0 < default 1 (hc_rounds cfg) → ends_within (16 + Z.to_nat (hc_warmup_rounds cfg)) → Z.of_nat fuel ≤ usize_max →
  wp (bounded_handoff fuel cfg verify expected) (quiet [] 0)
    (λ r s, ∃ rounds clock, handed_off r rounds ∧ s = quiet rounds clock).
Proof using HD HR.
  intros Hpos Hends Hword. unfold bounded_handoff. apply wp_probe_try, wp_collect; [by left|]. intros idle c1 Hi.
  apply wp_probe_try, wp_warmup. intros warm c2 Hw. eapply wp_act_bind; [reflexivity|]. cbn [pb_clock app].
  assert (length (timed IDLE idle ++ timed HANDOFF warm) = 16 + length warm)%nat as El by (rewrite length_app, !length_fmap; lia).
  apply wp_probe_try, wp_measure; [done|by rewrite El, Hw|done|..]; rewrite ?El.
  - intros meas clock Henough Hsum. eapply wp_act_bind; [reflexivity|]. apply wp_ret. eexists _, _; split; [|reflexivity].
    exists idle, warm, meas. rewrite <- app_assoc. split; [done|]. split; [done|]. split; [done|].
    destruct all_pinned, (hc_allow_unpinned cfg); cbn [negb andb]; try done;
      unfold checked_mul; zcase; try lia; (split; [done|]; split; [done|]); auto.
  - intros meas clock Hsum. eexists _, _; split; [|reflexivity]. exists idle, warm, meas. by rewrite <- app_assoc.
Qed.

End handoffs.

(** ** Whole runs *)

Section runs.
Context (detected : hres Z) (cpus : Z) (queue : hwqueue) (capacity : option Z).

(** A configuration that passes the checks of [run]. *)
Record config_ok : Prop := {
  ac_mode : hc_mode cfg = lit "handoff" ∨ hc_mode cfg = lit "verify" ∨ hc_mode cfg = lit "memory";
  ac_duration : is_finite (hc_duration_secs cfg) = true ∧ f64_le (hc_duration_secs cfg) (f64_of_Z 0) = false;
  ac_rounds : 0 < default 1 (hc_rounds cfg);
  ac_items : 0 < hc_round_items cfg ∧ 0 < hc_memory_depth cfg;
  ac_batch : 0 < default 1 batch;
  ac_backoff : hc_backoff cfg = lit "crossbeam" ∨ hc_backoff cfg = lit "yield";
  ac_scenario : parse_scenarios_inner detected (Some (hc_scenario cfg)) (Some usize_max) = HOk [scenario];
  ac_threads : P + C ≤ usize_max ∧ (P + C ≤ cpus ∨ hc_allow_unpinned cfg = true);
  ac_queue : select_queue cfg = Some queue ∧ queue_capacity (E := probeE) queue = Ret capacity
}.

Lemma workload_ok (ac : config_ok) :
  bool_decide (hc_rounds cfg = Some 0) || (hc_round_items cfg =? 0) || (hc_memory_depth cfg =? 0) ||
  bool_decide (hc_batch_size cfg = Some 0) || negb (is_finite (hc_duration_secs cfg)) ||
  f64_le (hc_duration_secs cfg) (f64_of_Z 0) ||
  negb (bool_decide (hc_backoff cfg = lit "crossbeam") || bool_decide (hc_backoff cfg = lit "yield")) = false.
Proof.
  destruct ac as [_ [Hfin Hd] Hr [Hi Hm] Hb Hbo _ _ _]. rewrite Hfin, Hd.
  rewrite !orb_false_iff. repeat split; try (apply Z.eqb_neq; lia); try (apply Z.leb_gt; lia).
  - apply bool_decide_eq_false. intros E. by rewrite E in Hr.
  - apply bool_decide_eq_false. intros E. by rewrite E in Hb.
  - apply negb_false_iff, orb_true_iff. destruct Hbo as [H|H]; [left|right]; by apply bool_decide_eq_true.
Qed.

Lemma wp_hw_run (Q : ProbeResult + probe_error → probemem → Prop) : config_ok →
  wp (run_with fuel cfg scenario (bool_decide (hc_mode cfg = lit "verify")) capacity 0) (mkProbe (Some []) false [] 0 [None]) Q →
  wp (hw_run fuel detected cpus cfg) probe_start Q.
Proof.
  intros ac HQ. pose proof (workload_ok ac) as Hw. destruct ac as [Hm _ _ _ _ _ Hs [Ht Hc] [Hq Hcap]]. unfold hw_run.
  assert (negb (bool_decide (hc_mode cfg = lit "handoff") || bool_decide (hc_mode cfg = lit "verify") ||
    bool_decide (hc_mode cfg = lit "memory")) = false) as ->.
  { apply negb_false_iff. rewrite !orb_true_iff, !bool_decide_eq_true. tauto. }
  rewrite Hw, Hs. apply wp_probe_try. cbn [probe_lift]. apply wp_ret. unfold checked_add. rewrite (proj2 (Z.leb_le _ _)) by done.
  cbn [expect]. apply wp_bind, wp_ret.
  assert ((cpus <? P + C) && negb (hc_allow_unpinned cfg) = false) as ->.
  { destruct Hc as [Hc| ->]; [|apply andb_false_r]. by rewrite (proj2 (Z.ltb_ge _ _)). }
  apply wp_snapshot. rewrite Hq, Hcap. apply wp_bind, wp_ret. eapply wp_act_bind; [reflexivity|]. exact HQ.
Qed.

(** Everything is gone at the end. *)
Definition cleaned_up (s : probemem) : Prop := pb_queue s = None ∧ pb_workers s = false.

(** C26: a probe of a queue's memory whose configuration passes the checks of [run] ends, on a
    machine whose rounds do what the threads of a round can do: the queue is filled, drained,
    filled and drained again, every round is accepted, the number of items that each
    checkpoint claims is the number in the queue when its snapshot was taken, snapshots are
    in order, and workers and queue are gone at the end; the only error is that threads
    could not be pinned. *)
Theorem probe_memory_lifecycle : config_ok → hc_mode cfg = lit "memory" →
  let depth := hc_memory_depth cfg in
  divisible depth → realistic false depth → (∀ c, capacity = Some c → depth ≤ c) →
  wp (hw_run fuel detected cpus cfg) probe_start (λ r s,
    cleaned_up s ∧
    (∃ durs, length durs = 4%nat ∧ pb_rounds s = zip [FILL; DRAIN; FILL; DRAIN] durs ∧
      resident (pb_snapshots s) = lifecycle_resident depth ++ [None] ∧
      (r = inr AffinityFailed ∧ all_pinned = false ∧ hc_allow_unpinned cfg = false ∨
       ∃ cps, r = inl (MemoryLifecycle depth cps durs all_pinned) ∧
         recorded (lifecycle_phases depth ++ [(lit "destroyed", None)]) cps))).
Proof.
  intros ac Hm depth HD HR Hcap. apply wp_hw_run; [done|]. rewrite Hm. unfold run_with. rewrite Hm. fold depth.
  rewrite (bool_decide_eq_true_2 (lit "memory" = lit "memory")) by done. rewrite umul_ok by apply (dv_alignment _ HD).
  apply wp_bind, wp_ret, wp_bind, wp_ret. pose proof (dv_expected _ HD). rewrite (proj2 (Z.eqb_neq _ _)) by lia.
  assert (true && match capacity with Some cap => cap <? depth | None => false end = false) as ->.
  { destruct capacity as [c|]; [|done]. cbn. apply Z.ltb_ge. by apply Hcap. }
  eapply wp_act_bind; [reflexivity|]. unfold memory_lifecycle. apply wp_bind.
  apply (wp_memory_phases false); [done..|]. intros cps durs snaps clock Hrec Hres Hl.
  eapply wp_act_bind; [reflexivity|]. eapply wp_act_bind; [reflexivity|]. eapply wp_act_bind; [reflexivity|].
  apply wp_snapshot. cbn [pb_snapshots pb_queue pb_workers pb_rounds pb_clock]. apply wp_ret. split; [done|].
  exists durs. split; [done|]. split; [done|]. split; [cbn [pb_snapshots]; by rewrite resident_dropped, Hres|].
  assert (length snaps = length cps) as ->.
  { apply (f_equal length) in Hres. destruct Hrec as [Hrec _]. apply (f_equal length) in Hrec.
    unfold resident, lifecycle_resident, lifecycle_phases in *. rewrite !length_app, !length_fmap, ?length_replicate in *. cbn in *. lia. }
  destruct (negb all_pinned && negb (hc_allow_unpinned cfg)) eqn:Ea.
  - left. apply andb_true_iff in Ea as [Ea1%negb_true_iff Ea2%negb_true_iff]. done.
  - right. eexists. split; [done|]. by apply recorded_snoc.
Qed.

(** C27: a probe of handoffs whose configuration passes the checks ends, when the number of
    rounds asked for, or the rounds after which the clock shows the duration, are within
    the fuel: after 16 idle rounds and the warm-up it runs exactly the rounds asked for, or
    the rounds up to the first after which the time since the warm-up, in seconds
    rounded as the code rounds them and with the work between the timed parts of the
    rounds included, is at least the duration.  It reports their items, the sum
    of their times and the median of the idle rounds, and drops workers and queue; the
    only errors are that the times or the items overflow or that threads could not be
    pinned, and each is reported only if it is so. *)
Theorem probe_handoff_exact : config_ok → hc_mode cfg ≠ lit "memory" →
  let alignment := P * default 1 batch in
  let expected := hc_round_items cfg / alignment * alignment in
  let verify := bool_decide (hc_mode cfg = lit "verify") in
  divisible expected → realistic verify expected → ends_within (16 + Z.to_nat (hc_warmup_rounds cfg)) → Z.of_nat fuel ≤ usize_max →
  wp (hw_run fuel detected cpus cfg) probe_start (λ r s, cleaned_up s ∧ handed_off verify expected r (pb_rounds s)).
Proof.
  intros ac Hm alignment expected verify HD HR Hends Hword. apply wp_hw_run; [done|]. fold verify. unfold run_with.
  rewrite (bool_decide_eq_false_2 (hc_mode cfg = lit "memory")) by done. rewrite umul_ok by apply (dv_alignment _ HD).
  apply wp_bind, wp_ret. fold alignment.
  assert (0 < alignment) by (pose proof (dv_producers _ HD); pose proof (dv_batch _ HD); unfold alignment; nia).
  rewrite (proj2 (Z.eqb_neq alignment 0)) by lia. apply wp_bind, wp_ret. fold expected.
  pose proof (dv_expected _ HD). rewrite (proj2 (Z.eqb_neq _ _)) by lia. cbn [andb].
  eapply wp_act_bind; [reflexivity|]. apply wp_bind. cbn [pb_queue pb_rounds pb_clock pb_snapshots].
  eapply wp_mono; [apply (wp_bounded_handoff verify expected HD HR [None]); [apply (ac_rounds ac)|done|done]|].
  - intros r s (rounds & clock & Hok & ->). eapply wp_act_bind; [reflexivity|]. eapply wp_act_bind; [reflexivity|]. by apply wp_ret.
Qed.

End runs.

End probes.

(** ** A machine *)

(** Rounds of one value with one producer and one consumer, on a schedule that lets the
    producer finish first; the [n]-th round takes [n + 1] nanoseconds, and 10 more that are
    not timed. *)
Section example.
Context (verify : bool).

Definition one_pool (mode : hwmode) (q : list Z) : list (prog hwE Z) * hwmem :=
  (hw_threads (PR := true) 9 verify None mode 1 1 1, hw_round_start verify mode q 1).

Definition one_schedule (mode : hwmode) : list nat :=
  (if sends mode then [0; 0; 2; 2] else [0; 2; 2])%nat ++ (if receives mode then replicate (if verify then 6 else 5) 1%nat else []).

Definition one_slots (mode : hwmode) : list Z := [if sends mode then 1 else 0; if receives mode then 1 else 0; 0].

Definition one_end (mode : hwmode) (q : list Z) : list (prog hwE Z) * hwmem :=
  default (one_pool mode q) (run_sched (one_schedule mode) (one_pool mode q)).

Definition one_machine : ProbeMachine := {|
  run_round n mode q :=
    (Z.of_nat n + 1, hw_queue (one_end mode q).2, hw_round_result mode 1 1 (take 2 (one_slots mode)) (one_end mode q).2);
  untimed n := 10;
  all_pinned := true
|}.

End example.

Definition one_features : BenchFeatures :=
  {| bench_moodycamel := false; bench_fastfifo := false; bench_lfqueue := false; bench_wcq := false; registered_ubq := λ _, false |}.

(** A duration of a hundred nanoseconds. *)
Definition one_config (mode : text) : HwConfig :=
  mkHwConfig (lit "mutex-vecdeque") (lit "1p1c") None (lit "crossbeam") mode 1 None (as_secs_f64 100) 2 1 [1; 10] 0 false 256 64 256.

Lemma one_before mode q : hw_before mode 1 q → mode ≠ STOP ∧ q = (if bool_decide (mode = DRAIN) then [0] else []).
Proof. destruct mode; cbn; intros H; try done; split; try done. by apply Permutation_singleton_r in H. Qed.

Lemma one_ends verify mode : mode ≠ STOP →
  (one_end verify mode (if bool_decide (mode = DRAIN) then [0] else [])).1 = Ret <$> one_slots mode.
Proof. destruct verify, mode; intros; try done; vm_compute; reflexivity. Qed.

Lemma one_realistic verify mode : realistic (PR := true) (PM := one_machine verify) 9 (one_config mode) (ScenarioConfig_new 1 1) verify 1.
Proof.
  intros n m q [Hm Hq]%one_before. exists (one_slots m), (one_end verify m q).2, (Z.of_nat n + 1). split; [|split; [done|lia]].
  replace (Ret <$> one_slots m, (one_end verify m q).2) with (one_end verify m q).
  - apply (run_sched_reach (one_schedule verify m) (one_pool verify m q)). rewrite Hq. clear. destruct verify, m; vm_compute; reflexivity.
  - rewrite Hq, <- (one_ends verify m Hm). apply surjective_pairing.
Qed.

Lemma one_accepted mode : mode = lit "verify" ∨ mode = lit "memory" →
  config_ok (PR := true) (BF := one_features) (one_config mode) (ScenarioConfig_new 1 1) (HOk 8) 8 QMutex None.
Proof.
  intros Hm. constructor; [by right| | | | | | | |]; try done; try (by left);
    cbn [one_config ScenarioConfig_new hc_round_items hc_memory_depth hc_batch_size producers consumers default].
  unfold usize_max. lia.
Qed.

Lemma one_divisible mode : divisible 9 (one_config mode) (ScenarioConfig_new 1 1) 1.
Proof. constructor; cbn; unfold usize_max, isize_max; lia. Qed.

(** The probe of memory with items of depth one. *)
Lemma probe_memory_lifecycle_witness :
  wp (H := probe_handler (H := one_machine false)) (hw_run (H := true) (H0 := one_features) 9 (HOk 8) 8 (one_config (lit "memory"))) probe_start (λ r s,
    cleaned_up s ∧
    (∃ durs, length durs = 4%nat ∧ pb_rounds s = zip [FILL; DRAIN; FILL; DRAIN] durs ∧
      resident (pb_snapshots s) = lifecycle_resident (one_config (lit "memory")) 1 ++ [None] ∧
      (r = inr AffinityFailed ∧ true = false ∧ false = false ∨
       ∃ cps, r = inl (MemoryLifecycle 1 cps durs true) ∧
         recorded (lifecycle_phases (one_config (lit "memory")) 1 ++ [(lit "destroyed", None)]) cps))).
Proof.
  apply (probe_memory_lifecycle (PR := true) (BF := one_features) (PM := one_machine false) 9 9 (one_config (lit "memory"))
    (ScenarioConfig_new 1 1) (HOk 8) 8 QMutex None).
  - apply one_accepted. by right.
  - reflexivity.
  - apply one_divisible.
  - apply one_realistic.
  - intros c Hc. discriminate.
Defined.

(** A verifying probe: the first round after which the duration is over is the fourth. *)
Lemma probe_handoff_exact_witness :
  wp (H := probe_handler (H := one_machine true)) (hw_run (H := true) (H0 := one_features) 9 (HOk 8) 8 (one_config (lit "verify"))) probe_start
    (λ r s, cleaned_up s ∧ handed_off (PM := one_machine true) (one_config (lit "verify")) true 1 r (pb_rounds s)).
Proof.
  apply (probe_handoff_exact (PR := true) (BF := one_features) (PM := one_machine true) 9 9 (one_config (lit "verify"))
    (ScenarioConfig_new 1 1) (HOk 8) 8 QMutex None).
  - apply one_accepted. by left.
  - vm_compute. discriminate.
  - apply one_divisible.
  - apply one_realistic.
  - exists 4%nat. split; [lia|]. vm_compute. reflexivity.
  - vm_compute. discriminate.
Defined.
